(* ===== verification/_CoqProject ===== *)
-Q . S2P
Prelude.v
Bytes.v
Order.v
Interrupt.v
Text.v
BuildModel.v
BackendProtocol.v
Source.v
Diagnostics.v
PackageGraph.v
PackageFinish.v
ContentDigest.v
Fips.v
Sha256.v
TestEvents.v
Crc32c.v
TestFrames.v
TestCodec.v
TestTable.v
TestStream.v
FlowWir.v
ScalarFold.v
Optimizer.v
FlowOperands.v
FlowSemantics.v
FoldPass.v
FoldSound.v
FoldLoop.v
ControlPass.v
CompactPass.v
DeadPass.v
FlowModule.v
ModelEqual.v
ModelScan.v
FlowContext.v
FlowSsa.v
FlowMeter.v
FlowAccept.v
Dominators.v
FlowTree.v
FlowSearch.v
FlowDominance.v
FlowUses.v
FlowChecks.v
FlowValidate.v
FlowTotal.v
FlowValid.v
Pipeline.v
RenameSound.v
CompactSound.v
UnreachableSound.v
DeadSound.v
ScanSound.v
PipelineSound.v
FlowSafe.v
ReportSound.v
Optimize.v
OptimizeSound.v
FlowExample.v
SyntaxTokens.v
Literals.v
Scanner.v
LexicalTable.v
LexicalTableSound.v
SyntaxDiagnostics.v
ParseLogic.v
ScannerState.v
ScannerLayout.v
ScannerWords.v
ScannerQuotes.v
ScannerInterpolation.v
ScannerSeal.v
ScannerExample.v
Wire.v
WireWriter.v
WireReader.v
WireCodes.v
WireFrame.v
WireSeal.v
WireExample.v
