(* ===== verification/Prelude.v ===== *)
(** * Verification of the wrela toolchain

    wrela compiles a systems language to bootable images. Its source is a
    workspace of Rust crates under src/crates; this library models some of them
    and proves what makes them correct. A file models a component by one
    definition per function of the code, under the function's name; theorems
    about it are in the same file or in files that say so. This first file holds
    what all share: results, machine integers, slices, tactics.

    ** The program

    A driver process checks source text and packages (wrela-source,
    wrela-package, wrela-package-loader), parses and analyses them, lowers them
    to FlowWir (wrela-flow-wir), an SSA representation of a whole image, and
    hands that to a private backend process over a framed protocol
    (wrela-backend-protocol) together with the build identity
    (wrela-build-model). The backend validates and optimises FlowWir
    (wrela-flow-opt), lowers it to machine code and links it. Images under test
    report to the host over another framed protocol (wrela-test-protocol).
    Diagnostics of all phases have one canonical order (wrela-diagnostics).

    All phases are bounded and interruptible: they take limits, poll a callback
    that may cancel them at any time, and treat a failed allocation as an error
    (constant folding alone leaves the operation as it is).
    [Interrupt] models this: [prog E A] is a computation that asks its
    environment whether to stop and whether a reservation fails. [run env] plays
    it against one environment; [may_return] and [may_throw] range over all;
    [blames] says that an interruption has the error of the question that caused it.
    Where a theorem speaks of what happens "whatever the environment answers",
    it is stated with these two.

    ** Files and what they model (paths below src/crates)

    - [Bytes], [Order], [Text]: byte order, total orders as three-way
      comparisons (class [TotalOrder]) and UTF-8 of Rust's standard library.
    - [BuildModel] (wrela-build-model/src/lib.rs): profiles, canonical bytes and
      the sealed configuration. [BackendProtocol] (wrela-backend-protocol): the
      frames of requests and responses. Readers and writers are monads over the
      bytes; decoding undoes encoding, accepts nothing else, and paths of a
      request stay below their root.
    - [Source] (wrela-source): the source database and positions.
      [Diagnostics] (wrela-diagnostics): the canonical order and its merge sort.
    - [PackageGraph], [PackageFinish] (wrela-package): the builder, whose
      invariant every operation keeps, and [finish], which terminates, decides
      acyclicity and reachability, and does not depend on discovery order.
    - [ContentDigest], [Sha256] (wrela-package-loader/src/lib.rs, sha256.rs): the
      hasher interface with the digests of packages and trees, proved against the
      interface, and the software SHA-256. [Fips] is a specification, not code:
      SHA-256 as FIPS 180-4 writes it, with constants computed from the primes;
      the software hasher gives its digest for every cut of a message.
    - [TestEvents], [Crc32c], [TestFrames], [TestCodec], [TestTable],
      [TestStream] (wrela-test-protocol, data of wrela-test-model): events, frames
      with their checksum, the codec interface [TestEventCodec], the
      open-addressing table that refines a finite map, and the state machine of a
      stream; an accepted stream is one in which every test declared has started
      and finished in order.
    - [FlowWir], [FlowModule] (wrela-flow-wir/src/lib.rs): the representation.
      [FlowSemantics] is a specification, not code: a function runs in small
      steps; scalar operations have the arithmetic of the language reference
      (immediates and comparisons too are defined there on numbers, apart from the
      code that folds them), and everything else is asked of an oracle that sees all that happened before.
      A function [simulates] another when it makes the same exchanges with every
      oracle and ends the same way whenever the original does not go wrong.
    - [FlowContext], [FlowSsa], [FlowChecks], [FlowValidate]
      (wrela-flow-wir/src/lib.rs): validation of the functions of a module, in
      the monad [validating] of a context of errors and scratch memory, where a
      function may return early. [FlowAccept] gives the three judgements used on
      it ([returns]: no fault, whatever interrupts; [honest]: no early return
      without a reason; [accepts]: what a clean end implies). [Dominators] is the
      theory of the dominator algorithm on an abstract graph; [FlowTree],
      [FlowSearch] and [FlowDominance] prove the code computes it;
      [FlowUses], [FlowValid] say what is accepted, [FlowTotal] that all of it
      returns, and [FlowSafe] why it matters: an accepted function never reads an
      undefined value and always has a block to go to.
      [FlowMeter] is the resource meter that runs before validation, with plain
      sums over the model as its specification: it refuses exactly what exceeds
      the limits.
    - [Optimizer], [FlowOperands], [ScalarFold], [FoldPass], [ControlPass],
      [CompactPass], [DeadPass], [Pipeline], [ModelEqual], [ModelScan],
      [Optimize] (wrela-flow-opt/src/lib.rs, development.rs): the policy, the work
      meter, the five passes, their driver, the comparison of modules, the scan
      of their size, and the entry points. [FoldSound], [FoldLoop],
      [RenameSound], [CompactSound], [UnreachableSound], [DeadSound],
      [ScanSound], [PipelineSound], [ReportSound], [OptimizeSound] prove that every pass, and the pipeline,
      preserves the meaning of every function, that loops end, that the report is
      true, and that level none seals its own input only.
    - [SyntaxTokens], [Literals], [Scanner], [LexicalTable],
      [SyntaxDiagnostics] (wrela-syntax/src/lib.rs, parser.rs): the lexical
      layer, that is tokens, budgets, escapes and literals, the whole scanner
      (indentation, hanging headers, numbers, quotes, interpolated strings,
      delimiters) and the sealer of its tables and diagnostics. The scanner is a
      state monad whose errors include a fault for every slice that could split a
      character and every loop out of fuel. [ParseLogic] is its program logic, and
      says where a cursor may stand; [ScannerState], [ScannerLayout],
      [ScannerWords], [ScannerQuotes] and [ScannerInterpolation]
      carry one invariant through every method, and
      [LexicalTableSound], [ScannerSeal] conclude: scanning ends, its table is
      accepted by the sealer and covers the text, tokens are readable without it.
      The Unicode tables and NFC of libraries are parameters.
    - [Wire], [WireWriter], [WireReader], [WireFrame]
      (wrela-flow-wir-codec/src/lib.rs, canonical.rs): the codec by which FlowWir
      reaches the backend. [Writer] and [Reader] are state monads over the bytes
      and a meter of decoded data; codecs are a class with a state of their own,
      of which the canonical codec is an instance. [WireCodes] has what Rust's
      types say of a module, the two judgements between a reader and its writer
      ([par]: what is written is read back; [Unpar]: what is read is what is
      written), the class [Wired] of pairs that satisfy both, and an instance of
      it for each type; [WireFrame] then proves that frames and modules
      correspond one to one, and [WireSeal] what can interrupt the codec and what
      sealing and opening guarantee for a codec that is not trusted.
    - [FlowExample], [ScannerExample],
      [WireExample]: concrete functions, modules, texts and frames on which the
      theorems are applied.

    ** Conventions

    A [u32] or [u64] is a [Z] (an identity an [N]) with wrap-around, saturation or the overflow
    check written out; [usize] has 64 bits. A Rust string is its byte list. A
    function that can fail returns [result]. An index out of bounds and a loop
    that needs more turns than its fuel are faults of the model, which theorems
    exclude. Where the code's loop is not structural, the model takes fuel:
    one more than the pending work of a worklist, one pass per element for
    the merge sorts (widths double), two rounds more than there are blocks
    for the dominator computation (after [n] rounds the tree is exact and one
    more changes nothing), the number of digits for decimal logarithms, in the
    scanner one turn per byte and one more (every turn advances), the nesting limit and one
    more for interpolation, the open levels and one more for dedents, and the length of a
    text that is copied in pieces. The
    termination theorems say that more fuel changes nothing or that running out
    does not happen.

    ** Not modelled

    Texts of errors ([Display]) anywhere; files, processes and terminals; code of
    libraries (Unicode normalisation, TOML, LLVM, LLD), which is a parameter
    where modelled code calls it. Of wrela-flow-wir: the checks on plans, proofs, tests and the
    image as a whole; so of wrela-flow-opt the last validation of the output, and
    development::seal, which runs it. Of wrela-package-loader: the source-graph
    digest, the workspace loader and its manifest codec. Of wrela-test-model:
    plans, reports and scenarios. Of wrela-syntax: the grammar of the parser and
    the validation of its tree. The last step of decoding a frame,
    FlowWir::validate_with_limits, is a parameter of [WireFrame]: its functions
    are modelled above, its checks of the module as a whole are not, and the
    theorems hold for any check that accepts or refuses. Not begun: HIR, semantic
    analysis, the lowering to FlowWir, machine lowering, code generation, linking, the
    image report, target packages, the driver and the command line. They
    build on the syntax tree, on each other, or on tools and libraries outside the
    repository.

    ** Where the code departs from its intent

    A diagnostic on indentation is placed by columns, where a tab counts for
    more than its byte, so its span can split a character and the parse fails
    instead of reporting it ([ScannerExample]); the theorem on diagnostics is
    therefore about texts without tabs. The comparison by which level none seals
    its output looks neither at schedulers nor at the assertions of compiled tests
    ([ModelEqual], [OptimizeSound]). The position at the end of a text of 4 GiB
    less one byte overflows ([Source]).

    ** What could follow

    The module-level checks of validate_module, then
    development::seal end to end; the grammar of the parser; plans and reports of the
    test model; the UART demultiplexer of the test runner. *)

From Stdlib Require Import Strings.Byte.
From stdpp Require Import base numbers list option strings gmap.

Declare Scope wrela_scope.
Delimit Scope wrela_scope with wrela.

Abbreviation byte := Byte.byte.
(** A Rust [String] or [&str] is the list of its UTF-8 bytes. *)
Abbreviation str := (list byte).

#[local] Open Scope Z_scope.

Create HintDb wrela discriminated.
Create Rewrite HintDb wrela_simpl.

(** ** Results *)

Inductive result (E A : Type) : Type :=
| Ok (value : A)
| Err (error : E).
Arguments Ok {E A} value.
Arguments Err {E A} error.

#[export] Instance result_eq_dec {E A} `{EqDecision E, EqDecision A} :
  EqDecision (result E A).
Proof. solve_decision. Defined.

#[export] Instance result_ret E : MRet (result E) := fun A => @Ok E A.
#[export] Instance result_bind E : MBind (result E) := fun A B f r =>
  match r with Ok a => f a | Err e => Err e end.
#[export] Instance result_fmap E : FMap (result E) := fun A B f r =>
  match r with Ok a => Ok (f a) | Err e => Err e end.

(** [Option::ok_or]. *)
Definition ok_or {E A} (o : option A) (e : E) : result E A :=
  match o with Some a => Ok a | None => Err e end.

(** [Result::map_err]. *)
Definition map_err {E F A} (f : E -> F) (r : result E A) : result F A :=
  match r with Ok a => Ok a | Err e => Err (f e) end.

(** An early [return Err(e)] guarded by a condition. *)
Definition guard_err {E} (bad : bool) (e : E) : result E unit :=
  if bad then Err e else Ok tt.

Section result_lemmas.
  Context {E A B : Type}.
  Implicit Types (r : result E A) (f : A -> result E B).

Lemma result_bind_Ok r f b :
    r ≫= f = Ok b <-> exists a, r = Ok a /\ f a = Ok b.
  Proof. destruct r; simpl; naive_solver. Qed.

Lemma result_bind_Err r f e :
    r ≫= f = Err e <-> r = Err e \/ exists a, r = Ok a /\ f a = Err e.
  Proof. destruct r; simpl; naive_solver. Qed.

Lemma guard_err_Ok (b : bool) (e : E) u : guard_err b e = Ok u <-> b = false.
  Proof. destruct b, u; simpl; naive_solver. Qed.

Lemma ok_or_Ok (o : option A) (e : E) a : ok_or o e = Ok a <-> o = Some a.
  Proof. destruct o; simpl; naive_solver. Qed.

Lemma map_err_Ok {F} (g : E -> F) r a : map_err g r = Ok a <-> r = Ok a.
  Proof. destruct r; simpl; naive_solver. Qed.

Lemma mapM_result_Ok f l k : mapM f l = Ok k <-> Forall2 (fun x y => f x = Ok y) l k.
  Proof.
    revert k. induction l as [|x l IH]; intros k; simpl.
    - split; [intros [= <-]; constructor|by inversion 1].
    - destruct (f x) as [y|e] eqn:Hx; simpl.
      + split.
        * destruct (mapM f l) as [l'|] eqn:Hl; [|done]. intros [= <-]. constructor; [done|]. by apply IH.
        * inversion 1 as [|? y' ? l' Hy Hl]; subst. rewrite Hx in Hy. injection Hy as ->.
          apply IH in Hl. by rewrite Hl.
      + split; [done|]. inversion 1; subst. congruence.
  Qed.

Lemma mapM_result_pure f (g : A -> B) l :
    (forall x, x ∈ l -> f x = Ok (g x)) -> mapM f l = Ok (map g l).
  Proof.
    intros H. apply mapM_result_Ok. induction l as [|x l IH]; constructor.
    - apply H. left.
    - apply IH. intros y Hy. apply H. by right.
  Qed.
End result_lemmas.

(** Decompose every successful monadic computation in the context. *)
Ltac inv_ok :=
  repeat match goal with
  | H : Ok _ = Ok _ |- _ => injection H; clear H; intros; subst
  | H : Err _ = Err _ |- _ => injection H; clear H; intros; subst
  | H : Err _ = Ok _ |- _ => discriminate H
  | H : Ok _ = Err _ |- _ => discriminate H
  | H : mret _ = Ok _ |- _ => injection H; clear H; intros; subst
  | H : _ ≫= _ = Ok _ |- _ =>
      apply result_bind_Ok in H; destruct H as (? & ? & ?)
  | H : guard_err _ _ = Ok _ |- _ => apply guard_err_Ok in H
  | H : ok_or _ _ = Ok _ |- _ => apply ok_or_Ok in H
  | H : map_err _ _ = Ok _ |- _ => apply map_err_Ok in H
  end.

(** ** Machine integers

    An unsigned [w]-bit integer is a [Z] in [0, 2^w); the operations below
    are Rust's, with the wrap-around or the overflow test written out.
    [usize] is 64 bits wide. *)

Definition fits (w z : Z) : bool := (0 <=? z) && (z <? 2 ^ w).
Definition usize : Z := 64.
Definition u32_max : Z := 4294967295.
Definition u64_max : Z := 18446744073709551615.

Definition checked_add (w a b : Z) : option Z :=
  if a + b <? 2 ^ w then Some (a + b) else None.
Definition checked_sub (a b : Z) : option Z :=
  if b <=? a then Some (a - b) else None.
Definition checked_mul (w a b : Z) : option Z :=
  if a * b <? 2 ^ w then Some (a * b) else None.
Definition saturating_add (w a b : Z) : Z := Z.min (a + b) (2 ^ w - 1).
Definition saturating_sub (a b : Z) : Z := Z.max (a - b) 0.
Definition wrapping_add (w a b : Z) : Z := (a + b) mod 2 ^ w.
Definition wrapping_sub (w a b : Z) : Z := (a - b) mod 2 ^ w.
Definition wrapping_mul (w a b : Z) : Z := (a * b) mod 2 ^ w.
(** Bitwise complement of a [w]-bit value. *)
Definition lnot_w (w a : Z) : Z := Z.lxor a (Z.ones w).
Definition rotate_right (w a n : Z) : Z :=
  Z.lor (Z.shiftr a n) (Z.land (Z.shiftl a (w - n)) (Z.ones w)).
(** [u32::try_from] of a wider unsigned value. *)
Definition try_u32 (z : Z) : option Z := if z <=? u32_max then Some z else None.

(** Length of a slice as a [usize]. *)
Definition len {A} (l : list A) : Z := Z.of_nat (length l).

(** Sum over the elements of a list. *)
Definition sum_of {A} (f : A -> Z) (l : list A) : Z := foldr (fun x n => f x + n) 0 l.

Lemma sum_of_nil {A} (f : A -> Z) : sum_of f [] = 0.
Proof. done. Qed.
Lemma sum_of_cons {A} (f : A -> Z) x l : sum_of f (x :: l) = f x + sum_of f l.
Proof. done. Qed.
Lemma sum_of_nonneg {A} (f : A -> Z) l : (forall x, 0 <= f x) -> 0 <= sum_of f l.
Proof. intros H. induction l as [|x l IH]; [done|]. rewrite sum_of_cons. specialize (H x). lia. Qed.

Lemma fits_spec w z : fits w z = true <-> 0 <= z < 2 ^ w.
Proof. unfold fits. rewrite andb_true_iff, Z.leb_le, Z.ltb_lt. done. Qed.

Lemma len_nonneg {A} (l : list A) : 0 <= len l.
Proof. unfold len. lia. Qed.
Lemma len_nil {A} : len (@nil A) = 0.
Proof. done. Qed.
Lemma len_cons {A} (x : A) l : len (x :: l) = 1 + len l.
Proof. unfold len. simpl length. lia. Qed.
Lemma len_app {A} (l k : list A) : len (l ++ k) = len l + len k.
Proof. unfold len. rewrite length_app. lia. Qed.
#[export] Hint Rewrite @len_nil @len_cons @len_app : wrela_simpl.
#[export] Hint Resolve len_nonneg : wrela.

Lemma checked_add_Some w a b c :
  checked_add w a b = Some c <-> a + b < 2 ^ w /\ c = a + b.
Proof. unfold checked_add. destruct (Z.ltb_spec (a + b) (2 ^ w)); naive_solver lia. Qed.

Lemma checked_sub_Some a b c : checked_sub a b = Some c <-> b <= a /\ c = a - b.
Proof. unfold checked_sub. destruct (Z.leb_spec b a); naive_solver lia. Qed.

Lemma checked_mul_Some w a b c :
  checked_mul w a b = Some c <-> a * b < 2 ^ w /\ c = a * b.
Proof. unfold checked_mul. destruct (Z.ltb_spec (a * b) (2 ^ w)); naive_solver lia. Qed.

Lemma try_u32_Some a c : try_u32 a = Some c <-> a <= u32_max /\ c = a.
Proof. unfold try_u32. destruct (Z.leb_spec a u32_max); naive_solver lia. Qed.

(** ** Shared tactics *)

(** Split every boolean conjunction known to be true. *)
Ltac split_andb :=
  repeat match goal with
  | H : _ && _ = true |- _ => apply andb_true_iff in H; destruct H
  | H : _ || _ = false |- _ => apply orb_false_iff in H; destruct H
  | H : negb _ = true |- _ => apply negb_true_iff in H
  | H : negb _ = false |- _ => apply negb_false_iff in H
  | H : fits _ _ = true |- _ => apply fits_spec in H
  end.

(** Turn boolean comparisons in the context into propositions. *)
Ltac bool_to_prop :=
  split_andb;
  repeat match goal with
  | H : (_ <? _)%Z = true |- _ => apply Z.ltb_lt in H
  | H : (_ <? _)%Z = false |- _ => apply Z.ltb_ge in H
  | H : (_ <=? _)%Z = true |- _ => apply Z.leb_le in H
  | H : (_ <=? _)%Z = false |- _ => apply Z.leb_gt in H
  | H : (_ =? _)%Z = true |- _ => apply Z.eqb_eq in H
  | H : (_ =? _)%Z = false |- _ => apply Z.eqb_neq in H
  | H : bool_decide _ = true |- _ => apply bool_decide_eq_true in H
  | H : bool_decide _ = false |- _ => apply bool_decide_eq_false in H
  end.

(** ** State passing

    A method taking [&mut self] is a state transformer over the monad of its
    errors; on an error the state is dropped, as every caller propagates it. *)

Definition stateT (S : Type) (M : Type -> Type) (A : Type) : Type := S -> M (A * S)%type.

#[export] Instance stateT_ret S M `{MRet M} : MRet (stateT S M) :=
  fun A a s => mret (a, s).
#[export] Instance stateT_bind S M `{MBind M} : MBind (stateT S M) :=
  fun A B f m s => m s ≫= fun '(a, s') => f a s'.

(** Run a stateless computation. *)
Definition liftS {S M A} `{MBind M, MRet M} (m : M A) : stateT S M A :=
  fun s => m ≫= fun a => mret (a, s).

Section stateT_lemmas.
  Context {S E A B : Type}.
  Implicit Types (m : stateT S (result E) A) (f : A -> stateT S (result E) B).

Lemma stateT_bind_Ok m f s b s' :
    (m ≫= f) s = Ok (b, s') <-> exists a s1, m s = Ok (a, s1) /\ f a s1 = Ok (b, s').
  Proof.
    unfold mbind, stateT_bind. rewrite result_bind_Ok. split.
    - intros ([a s1] & ? & ?). eauto.
    - intros (a & s1 & ? & ?). exists (a, s1). eauto.
  Qed.

Lemma stateT_bind_step m f s a s1 : m s = Ok (a, s1) -> (m ≫= f) s = f a s1.
  Proof. intros H. unfold mbind, stateT_bind, mbind, result_bind. by rewrite H. Qed.

Lemma liftS_Ok (r : result E A) s a s' :
    @liftS S (result E) A _ _ r s = Ok (a, s') <-> r = Ok a /\ s' = s.
  Proof.
    unfold liftS. rewrite result_bind_Ok. split.
    - by intros (? & ? & [= -> ->]).
    - intros [-> ->]. eauto.
  Qed.
End stateT_lemmas.
