(* ===== verification/Bytes.v ===== *)
(** Bytes and fixed-width integers as byte sequences: [u8::to_le_bytes],
    [u32::from_le_bytes] and the like, with the lemmas the codecs share. *)

From Stdlib Require Import Strings.Byte.
From stdpp Require Import base numbers list option countable strings.
From S2P Require Import Prelude.

#[local] Open Scope Z_scope.

Definition Z_of_byte (b : byte) : Z := Z.of_N (Byte.to_N b).
(** Truncation to the low eight bits ([value as u8]). *)
Definition byte_of_Z (z : Z) : byte :=
  match Byte.of_N (Z.to_N (z mod 256)) with Some b => b | None => x00 end.

#[export] Instance byte_eq_dec : EqDecision byte.
Proof. intros a b. exact (Byte.byte_eq_dec a b). Defined.

Lemma Z_of_byte_range b : 0 <= Z_of_byte b < 256.
Proof.
  unfold Z_of_byte. pose proof (Byte.to_N_bounded b). lia.
Qed.

Lemma byte_of_Z_of_byte b : byte_of_Z (Z_of_byte b) = b.
Proof.
  unfold byte_of_Z. rewrite Z.mod_small by apply Z_of_byte_range.
  unfold Z_of_byte. rewrite N2Z.id, Byte.of_to_N. done.
Qed.

Lemma Z_of_byte_of_Z z : Z_of_byte (byte_of_Z z) = z mod 256.
Proof.
  unfold byte_of_Z.
  pose proof (Z.mod_pos_bound z 256 ltac:(lia)) as Hr.
  destruct (Byte.of_N (Z.to_N (z mod 256))) as [b|] eqn:E.
  - apply Byte.to_of_N in E. unfold Z_of_byte. rewrite E. lia.
  - apply Byte.of_N_None_iff in E. lia.
Qed.

#[export] Instance Z_of_byte_inj : Inj (=) (=) Z_of_byte.
Proof. intros a b H. rewrite <- (byte_of_Z_of_byte a), H. apply byte_of_Z_of_byte. Qed.

#[export] Instance byte_countable : Countable byte.
Proof.
  refine (inj_countable' Z_of_byte byte_of_Z _). apply byte_of_Z_of_byte.
Defined.

(** ** Little- and big-endian encodings *)

Fixpoint le_bytes (n : nat) (z : Z) : list byte :=
  match n with
  | O => []
  | S n => byte_of_Z z :: le_bytes n (z / 256)
  end.

Fixpoint le_value (bs : list byte) : Z :=
  match bs with
  | [] => 0
  | b :: bs => Z_of_byte b + 256 * le_value bs
  end.

Definition be_bytes (n : nat) (z : Z) : list byte := rev (le_bytes n z).
Definition be_value (bs : list byte) : Z := le_value (rev bs).

Definition u32_le (z : Z) : list byte := le_bytes 4 z.
Definition u64_le (z : Z) : list byte := le_bytes 8 z.

Arguments u32_le _ : simpl never.
Arguments u64_le _ : simpl never.

(** Right-nest every concatenation. *)
Ltac norm_app := repeat (progress (rewrite <- ?app_assoc; cbn [app])).

Lemma length_le_bytes n z : length (le_bytes n z) = n.
Proof. revert z. induction n; intros; simpl; auto. Qed.

Lemma len_le_bytes n z : len (le_bytes n z) = Z.of_nat n.
Proof. unfold len. rewrite length_le_bytes. done. Qed.

Lemma pow256_succ n : 256 ^ Z.of_nat (S n) = 256 * 256 ^ Z.of_nat n.
Proof. rewrite Nat2Z.inj_succ, Z.pow_succ_r by lia. done. Qed.

Lemma le_value_bounds bs : 0 <= le_value bs < 256 ^ Z.of_nat (length bs).
Proof.
  induction bs as [|b bs IH]; [done|].
  cbn [le_value length]. rewrite pow256_succ.
  pose proof (Z_of_byte_range b). lia.
Qed.

Lemma le_value_bytes n z :
  0 <= z < 256 ^ Z.of_nat n -> le_value (le_bytes n z) = z.
Proof.
  revert z. induction n as [|n IH]; intros z Hz; [simpl in *; lia|].
  cbn [le_bytes le_value]. rewrite pow256_succ in Hz.
  rewrite IH, Z_of_byte_of_Z.
  - pose proof (Z.div_mod z 256). lia.
  - split; [apply Z.div_pos; lia|]. apply Z.div_lt_upper_bound; lia.
Qed.

Lemma le_bytes_value bs : le_bytes (length bs) (le_value bs) = bs.
Proof.
  induction bs as [|b bs IH]; [done|]. cbn [le_bytes le_value length].
  pose proof (Z_of_byte_range b).
  replace (Z_of_byte b + 256 * le_value bs) with (le_value bs * 256 + Z_of_byte b) by lia.
  rewrite Z.div_add_l, (Z.div_small (Z_of_byte b)), Z.add_0_r, IH by lia.
  f_equal. apply (inj Z_of_byte).
  rewrite Z_of_byte_of_Z, Z.add_comm, Z.mod_add, Z.mod_small by lia. done.
Qed.

Lemma le_value_inj bs cs :
  length bs = length cs -> le_value bs = le_value cs -> bs = cs.
Proof. intros Hl Hv. rewrite <- (le_bytes_value bs), Hl, Hv. apply le_bytes_value. Qed.

Lemma le_bytes_inj n a b :
  0 <= a < 256 ^ Z.of_nat n -> 0 <= b < 256 ^ Z.of_nat n ->
  le_bytes n a = le_bytes n b -> a = b.
Proof.
  intros Ha Hb E. rewrite <- (le_value_bytes n a), <- (le_value_bytes n b), E by done.
  done.
Qed.

Lemma length_u32_le z : length (u32_le z) = 4%nat.
Proof. apply length_le_bytes. Qed.
Lemma length_u64_le z : length (u64_le z) = 8%nat.
Proof. apply length_le_bytes. Qed.
Lemma len_u32_le z : len (u32_le z) = 4.
Proof. done. Qed.
Lemma len_u64_le z : len (u64_le z) = 8.
Proof. done. Qed.
#[export] Hint Rewrite length_u32_le length_u64_le len_u32_le len_u64_le
  length_le_bytes len_le_bytes : wrela_simpl.

(** A fixed-width read is exactly the inverse of a fixed-width write. *)
Lemma le_bytes_exact n bs z :
  length bs = n -> le_value bs = z <-> bs = le_bytes n z /\ 0 <= z < 256 ^ Z.of_nat n.
Proof.
  intros Hl. split.
  - intros <-. rewrite <- Hl, le_bytes_value. split; [done|]. apply le_value_bounds.
  - intros [-> Hz]. by apply le_value_bytes.
Qed.

(** ** Byte strings as Rust compares them *)

(** [slice::cmp] on bytes: lexicographic on the unsigned values. *)
Fixpoint bytes_cmp (a b : list byte) : comparison :=
  match a, b with
  | [], [] => Eq
  | [], _ :: _ => Lt
  | _ :: _, [] => Gt
  | x :: a, y :: b =>
      match Z_of_byte x ?= Z_of_byte y with
      | Eq => bytes_cmp a b
      | c => c
      end
  end.

(** The bytes of an ASCII literal. *)
Definition ascii (s : string) : list byte := String.list_byte_of_string s.

(** ** Prefix-free encodings

    [enc] is prefix free on the values satisfying [wf] when the end of an
    encoding is determined by its bytes: concatenations of such encodings can
    be taken apart in only one way. *)

Class PrefixFree {A} (wf : A -> Prop) (enc : A -> list byte) : Prop :=
  prefix_free a b ra rb :
    wf a -> wf b -> enc a ++ ra = enc b ++ rb -> a = b /\ ra = rb.
#[export] Hint Mode PrefixFree + - ! : typeclass_instances.

#[export] Instance le_bytes_prefix_free n :
  PrefixFree (fun z => 0 <= z < 256 ^ Z.of_nat n) (le_bytes n).
Proof.
  intros a b ra rb Ha Hb E.
  apply app_inj_1 in E as [E ->]; [|by rewrite !length_le_bytes].
  split; [|done]. by apply (le_bytes_inj n).
Qed.

#[export] Instance raw_prefix_free n :
  PrefixFree (fun bs : list byte => length bs = n) (fun bs => bs).
Proof. intros a b ra rb Ha Hb E. apply app_inj_1 in E; [done|congruence]. Qed.

(** A one-byte tag of an enumeration. *)
Lemma tag_prefix_free {A} (tag : A -> Z) :
  (forall a, 0 <= tag a < 256) -> Inj (=) (=) tag ->
  PrefixFree (fun _ : A => True) (fun a => [byte_of_Z (tag a)]).
Proof.
  intros Hr Hi a b ra rb _ _ [= E ->]. split; [|done]. apply (inj tag).
  apply (f_equal Z_of_byte) in E. rewrite !Z_of_byte_of_Z in E.
  by rewrite !Z.mod_small in E by apply Hr.
Qed.

(** A string behind its length. *)
Definition counted (s : list byte) : list byte := u32_le (len s) ++ s.

#[export] Instance counted_prefix_free :
  PrefixFree (fun s : list byte => len s < 2 ^ 32) counted.
Proof.
  intros a b ra rb Ha Hb E. unfold counted in E. rewrite <- !app_assoc in E.
  destruct (prefix_free (enc := le_bytes 4) (len a) (len b) (a ++ ra) (b ++ rb))
    as [El Es]; [pose proof (len_nonneg a); simpl; lia|pose proof (len_nonneg b); simpl; lia|done|].
  unfold len in El. apply app_inj_1 in Es; [done|lia].
Qed.

(** Sequences of the same length. *)
Lemma concat_prefix_free {A} (wf : A -> Prop) (enc : A -> list byte) `{!PrefixFree wf enc} l k ra rb :
  length l = length k -> Forall wf l -> Forall wf k ->
  concat (map enc l) ++ ra = concat (map enc k) ++ rb -> l = k /\ ra = rb.
Proof.
  revert k. induction l as [|a l IH]; intros [|b k] Hn Hl Hk E; try done.
  cbn [map concat] in E. rewrite <- !app_assoc in E. apply Forall_cons in Hl as [Ha Hl].
  apply Forall_cons in Hk as [Hb Hk]. apply (prefix_free a b) in E as [-> E]; [|done..].
  injection Hn as Hn. by destruct (IH k Hn Hl Hk E) as [-> ->].
Qed.

(** Field-by-field comparison of two encodings. *)
Section peel.
  Context (ra rb : list byte).

Lemma peel_bytes n a b :
    0 <= a < 256 ^ Z.of_nat n -> 0 <= b < 256 ^ Z.of_nat n ->
    le_bytes n a ++ ra = le_bytes n b ++ rb -> a = b /\ ra = rb.
  Proof. exact (le_bytes_prefix_free n a b ra rb). Qed.

Lemma peel_counted (a b : list byte) :
    len a < 2 ^ 32 -> len b < 2 ^ 32 ->
    counted a ++ ra = counted b ++ rb -> a = b /\ ra = rb.
  Proof. exact (counted_prefix_free a b ra rb). Qed.

Lemma peel_counted64 (a b : list byte) :
    len a < 2 ^ 64 -> len b < 2 ^ 64 ->
    u64_le (len a) ++ a ++ ra = u64_le (len b) ++ b ++ rb -> a = b /\ ra = rb.
  Proof.
    intros Ha Hb E. pose proof (len_nonneg a). pose proof (len_nonneg b).
    apply (le_bytes_prefix_free 8) in E as [El Es]; [|simpl; lia..].
    unfold len in El. apply app_inj_1 in Es; [done|lia].
  Qed.

Lemma peel_raw n (a b : list byte) :
    length a = n -> length b = n -> a ++ ra = b ++ rb -> a = b /\ ra = rb.
  Proof. exact (raw_prefix_free n a b ra rb). Qed.

Lemma peel_tag {A} (tag : A -> Z) a b :
    (forall x, 0 <= tag x < 256) -> Inj (=) (=) tag ->
    byte_of_Z (tag a) :: ra = byte_of_Z (tag b) :: rb -> a = b /\ ra = rb.
  Proof. intros Hr Hi. exact (tag_prefix_free tag Hr Hi a b ra rb I I). Qed.
End peel.

(** ** Chunks *)

Fixpoint chunks_fuel {A} (fuel n : nat) (l : list A) : list (list A) :=
  match fuel, l with
  | S fuel, _ :: _ => take n l :: chunks_fuel fuel n (drop n l)
  | _, _ => []
  end.
(** [slice::chunks]: pieces of [n] elements, the last one possibly shorter. *)
Definition chunks {A} (n : nat) (l : list A) : list (list A) := chunks_fuel (length l) n l.

Lemma concat_chunks {A} n (l : list A) : (0 < n)%nat -> concat (chunks n l) = l.
Proof.
  intros Hn. unfold chunks. enough (H : forall fuel (k : list A),
    (length k <= fuel)%nat -> concat (chunks_fuel fuel n k) = k) by auto.
  induction fuel as [|fuel IH]; intros [|x k] Hk; try done; [simpl in Hk; lia|].
  cbn [chunks_fuel concat]. rewrite IH; [apply take_drop|].
  rewrite length_drop. simpl in *. lia.
Qed.

Lemma chunks_fuel_enough {A} n fuel fuel' (l : list A) :
  (0 < n)%nat -> (length l <= fuel)%nat -> (length l <= fuel')%nat ->
  chunks_fuel fuel n l = chunks_fuel fuel' n l.
Proof.
  intros Hn. revert fuel' l. induction fuel as [|fuel IH]; intros [|fuel'] [|x l] H H'; try done;
    try (simpl in *; lia).
  cbn [chunks_fuel]. f_equal. apply IH; rewrite length_drop; simpl in *; lia.
Qed.

Lemma chunks_cons {A} n (block rest : list A) :
  (0 < n)%nat -> length block = n -> chunks n (block ++ rest) = block :: chunks n rest.
Proof.
  intros Hn Hb. unfold chunks. rewrite length_app. destruct block as [|x block]; [simpl in *; lia|].
  cbn [length Nat.add chunks_fuel app].
  rewrite app_comm_cons, take_app_length', drop_app_length' by done. f_equal.
  apply chunks_fuel_enough; lia.
Qed.

Lemma chunks_one {A} n (block : list A) :
  (0 < n)%nat -> length block = n -> chunks n block = [block].
Proof. intros Hn Hb. rewrite <- (app_nil_r block) at 1. by rewrite chunks_cons. Qed.

Lemma chunks_app {A} n q (whole rest : list A) :
  (0 < n)%nat -> length whole = (n * q)%nat ->
  chunks n (whole ++ rest) = chunks n whole ++ chunks n rest.
Proof.
  intros Hn. revert whole. induction q as [|q IH]; intros whole Hq.
  - destruct whole; [done|simpl in Hq; lia].
  - rewrite <- (take_drop n whole), <- app_assoc.
    assert (length (take n whole) = n) by (rewrite length_take; lia).
    rewrite (chunks_cons n (take n whole) (drop n whole ++ rest)) by done.
    rewrite (chunks_cons n (take n whole) (drop n whole)) by done.
    rewrite IH; [done|]. rewrite length_drop. lia.
Qed.

Lemma foldl_concat {A B} (f : B -> A -> B) (ls : list (list A)) b :
  foldl (foldl f) b ls = foldl f b (concat ls).
Proof.
  revert b. induction ls as [|l ls IH]; intros b; [done|].
  simpl. by rewrite foldl_app, IH.
Qed.

(** ** Sub-slices *)

(** [bytes.get(from..to)]. *)
Definition get_range {A} (l : list A) (from to : Z) : option (list A) :=
  if (from <=? to) && (to <=? len l)
  then Some (take (Z.to_nat (to - from)) (drop (Z.to_nat from) l)) else None.

Lemma get_range_Some {A} (l : list A) from n x :
  0 <= from -> 0 <= n ->
  get_range l from (from + n) = Some x <->
  len x = n /\ from + n <= len l /\ exists rest, drop (Z.to_nat from) l = x ++ rest.
Proof.
  intros Hf Hn. unfold get_range, len.
  rewrite (proj2 (Z.leb_le from (from + n))) by lia. cbn [andb].
  replace (from + n - from) with n by lia.
  destruct (Z.leb_spec (from + n) (Z.of_nat (length l))) as [Hle|Hgt]; [|naive_solver lia].
  split.
  - intros [= <-]. rewrite length_take, length_drop. split_and!; [lia..|].
    eexists. symmetry. apply take_drop.
  - intros (Hx & _ & rest & ->). by rewrite take_app_length' by lia.
Qed.

Lemma get_range_app {A} (l pre x post : list A) from to :
  l = pre ++ x ++ post -> len pre = from -> from + len x = to -> get_range l from to = Some x.
Proof.
  intros -> <- <-. pose proof (len_nonneg pre). pose proof (len_nonneg x).
  apply get_range_Some; [done..|]. autorewrite with wrela_simpl. pose proof (len_nonneg post).
  split_and!; [done|lia|]. exists post.
  unfold len at 1. by rewrite Nat2Z.id, drop_app_length.
Qed.

(** Cut a prefix of known length off. *)
Lemma split_len {A} (l : list A) n :
  0 <= n <= len l -> exists x rest, l = x ++ rest /\ len x = n.
Proof.
  intros Hn. exists (take (Z.to_nat n) l), (drop (Z.to_nat n) l).
  rewrite take_drop. split; [done|]. unfold len in *. rewrite length_take. lia.
Qed.

(** The fixed-width integer of a range is the one written there. *)
Lemma le_value_of_len n bs z :
  len bs = Z.of_nat n -> le_value bs = z -> bs = le_bytes n z /\ 0 <= z < 256 ^ Z.of_nat n.
Proof. intros Hl Hz. apply le_bytes_exact; [unfold len in Hl; lia|done]. Qed.

(** ** Comparing piece by piece *)

Lemma forallb_zip_equal {A} `{EqDecision A} (a b : list A) :
  length a = length b ->
  forallb (fun '(x, y) => bool_decide (x = y)) (zip a b) = bool_decide (a = b).
Proof.
  revert b. induction a as [|x a IH]; intros [|y b] Hl; try done; simplify_eq/=.
  rewrite IH by done. repeat case_bool_decide; naive_solver.
Qed.

Lemma length_chunks_ext {A} n (l k : list A) : length l = length k -> length (chunks n l) = length (chunks n k).
Proof.
  unfold chunks. intros Hlen. rewrite Hlen. generalize (length k) at 1 2 as fuel. intros fuel.
  revert l k Hlen. induction fuel as [|fuel IH]; intros [|x l] [|y k] Hlen; try done.
  cbn [chunks_fuel length]. f_equal. apply IH. rewrite !length_drop. simpl in *. lia.
Qed.

Lemma chunks_zip_equal {A} `{EqDecision A} n (a b : list A) :
  (0 < n)%nat -> length a = length b ->
  forallb (fun '(x, y) => bool_decide (x = y)) (zip (chunks n a) (chunks n b)) = bool_decide (a = b).
Proof.
  intros Hn Hl. rewrite forallb_zip_equal by by apply length_chunks_ext.
  apply bool_decide_ext. split; [|by intros ->].
  intros E%(f_equal (@concat A)). by rewrite !concat_chunks in E.
Qed.
