(* ===== verification/Order.v ===== *)
(** Three-way comparisons: [Ord::cmp], [Ordering::then_with], slices and tuples
    compared lexicographically, and the class of comparisons that are total
    orders whose [Equal] is equality. *)

From Stdlib Require Import Strings.Byte.
From Stdlib Require Import Sorting.Sorted.
From stdpp Require Import base numbers list option sorting.
From S2P Require Import Prelude Bytes.

#[local] Open Scope Z_scope.

Class TotalOrder {A} (cmp : A -> A -> comparison) : Prop := {
  cmp_eq a b : cmp a b = Eq <-> a = b;
  cmp_opp a b : cmp b a = CompOpp (cmp a b);
  cmp_lt_trans a b c : cmp a b = Lt -> cmp b c = Lt -> cmp a c = Lt;
}.
#[export] Hint Mode TotalOrder + ! : typeclass_instances.

(** [Ordering::then_with]. *)
Definition then_cmp (c d : comparison) : comparison := match c with Eq => d | c => c end.

(** [option_cmp]: [None] sorts first, as the derived [Ord] of [Option]. *)
Definition option_cmp {A} (cmp : A -> A -> comparison) (a b : option A) : comparison :=
  match a, b with
  | None, None => Eq
  | None, Some _ => Lt
  | Some _, None => Gt
  | Some a, Some b => cmp a b
  end.

(** Slices: lexicographic, a prefix sorts first. *)
Fixpoint list_cmp {A} (cmp : A -> A -> comparison) (a b : list A) : comparison :=
  match a, b with
  | [], [] => Eq
  | [], _ :: _ => Lt
  | _ :: _, [] => Gt
  | x :: a, y :: b => then_cmp (cmp x y) (list_cmp cmp a b)
  end.

Definition pair_cmp {A B} (ca : A -> A -> comparison) (cb : B -> B -> comparison)
    (p q : A * B) : comparison := then_cmp (ca p.1 q.1) (cb p.2 q.2).

Lemma then_cmp_Lt c d : then_cmp c d = Lt <-> c = Lt \/ c = Eq /\ d = Lt.
Proof. destruct c, d; simpl; naive_solver. Qed.
Lemma then_cmp_Eq c d : then_cmp c d = Eq <-> c = Eq /\ d = Eq.
Proof. destruct c, d; simpl; naive_solver. Qed.
Lemma then_cmp_opp c d : then_cmp (CompOpp c) (CompOpp d) = CompOpp (then_cmp c d).
Proof. by destruct c. Qed.

#[export] Instance Z_compare_order : TotalOrder Z.compare.
Proof.
  split.
  - apply Z.compare_eq_iff.
  - intros. apply Z.compare_antisym.
  - intros a b c. rewrite !Z.compare_lt_iff. lia.
Qed.

#[export] Instance pair_cmp_order {A B} ca cb `{!TotalOrder ca, !TotalOrder cb} :
  TotalOrder (@pair_cmp A B ca cb).
Proof.
  split; unfold pair_cmp.
  - intros [a1 b1] [a2 b2]. rewrite then_cmp_Eq, !cmp_eq. naive_solver.
  - intros [a1 b1] [a2 b2]. cbn. by rewrite (cmp_opp a1), (cmp_opp b1), then_cmp_opp.
  - intros [a1 b1] [a2 b2] [a3 b3]. cbn. rewrite !then_cmp_Lt, !cmp_eq.
    intros [|[-> ?]] [|[-> ?]]; eauto using cmp_lt_trans.
Qed.

#[export] Instance option_cmp_order {A} c `{!TotalOrder c} : TotalOrder (@option_cmp A c).
Proof.
  split.
  - intros [a|] [b|]; simpl; rewrite ?cmp_eq; naive_solver.
  - intros [a|] [b|]; simpl; [apply cmp_opp|done..].
  - intros [x|] [y|] [z|]; simpl; try done. apply cmp_lt_trans.
Qed.

#[export] Instance list_cmp_order {A} c `{!TotalOrder c} : TotalOrder (@list_cmp A c).
Proof.
  split.
  - induction a as [|x a IH]; intros [|y b]; simpl; try naive_solver.
    rewrite then_cmp_Eq, cmp_eq, IH. naive_solver.
  - induction a as [|x a IH]; intros [|y b]; simpl; try done.
    by rewrite (cmp_opp x), IH, then_cmp_opp.
  - induction a as [|x a IH]; intros [|y b] [|z d]; simpl; try done.
    rewrite !then_cmp_Lt, !cmp_eq.
    intros [|[-> ?]] [|[-> ?]]; eauto using cmp_lt_trans.
Qed.

(** A comparison by an injective key is a total order too. *)
Lemma total_order_on {A B} (key : A -> B) (cmp : B -> B -> comparison) (c : A -> A -> comparison) :
  TotalOrder cmp -> Inj (=) (=) key -> (forall a b, c a b = cmp (key a) (key b)) ->
  TotalOrder c.
Proof.
  intros Hc Hi E. split; intros *; rewrite !E.
  - rewrite cmp_eq. split; [apply (inj key)|congruence].
  - apply cmp_opp.
  - apply cmp_lt_trans.
Qed.

Lemma total_order_by {A B} (key : A -> B) (cmp : B -> B -> comparison) (c : A -> A -> comparison) :
  TotalOrder cmp -> (forall a b, key a = key b -> a = b) ->
  (forall a b, c a b = cmp (key a) (key b)) -> TotalOrder c.
Proof. intros Hc Hi. by apply total_order_on. Qed.

Lemma bytes_cmp_list_cmp a b :
  bytes_cmp a b = list_cmp (fun x y => Z_of_byte x ?= Z_of_byte y) a b.
Proof. revert b. induction a as [|x a IH]; intros [|y b]; simpl; [done..|].
  rewrite <- IH. by destruct (_ ?= _). Qed.

#[export] Instance bytes_cmp_order : TotalOrder bytes_cmp.
Proof.
  refine (total_order_on id (list_cmp (fun x y => Z_of_byte x ?= Z_of_byte y)) _ _ _ _);
    [|apply bytes_cmp_list_cmp].
  apply list_cmp_order.
  by refine (total_order_on Z_of_byte Z.compare _ _ _ _).
Qed.

(** ** The order as a relation *)

Section relation.
  Context {A} (cmp : A -> A -> comparison) `{!TotalOrder cmp}.

Definition lt_by (a b : A) : Prop := cmp a b = Lt.
Definition le_by (a b : A) : Prop := cmp a b <> Gt.

#[export] Instance le_by_dec : RelDecision le_by.
  Proof. unfold le_by. intros a b. solve_decision. Defined.
#[export] Instance lt_by_dec : RelDecision lt_by.
  Proof. unfold lt_by. intros a b. solve_decision. Defined.

Lemma cmp_refl a : cmp a a = Eq.
  Proof. by apply (cmp_eq (cmp := cmp)). Qed.
Lemma cmp_gt_lt a b : cmp a b = Gt <-> cmp b a = Lt.
  Proof. rewrite (cmp_opp (cmp := cmp) a b). by destruct (cmp a b). Qed.

#[export] Instance lt_by_trans : Transitive lt_by.
  Proof. intros a b c. apply cmp_lt_trans. Qed.
Lemma le_by_spec a b : le_by a b <-> lt_by a b \/ a = b.
  Proof. unfold le_by, lt_by. rewrite <- (cmp_eq (cmp := cmp)). destruct (cmp a b); naive_solver. Qed.
#[export] Instance le_by_refl : Reflexive le_by.
  Proof. intros a. apply le_by_spec. by right. Qed.
#[export] Instance le_by_trans : Transitive le_by.
  Proof.
    intros a b c. rewrite !le_by_spec. intros [?| ->] [?| ->]; auto.
    left. by etrans.
  Qed.
#[export] Instance le_by_anti : AntiSymm (=) le_by.
  Proof.
    intros a b Hab Hba. unfold le_by in *. rewrite (cmp_opp (cmp := cmp) a b) in Hba.
    apply (cmp_eq (cmp := cmp)). by destruct (cmp a b).
  Qed.
#[export] Instance le_by_total : Total le_by.
  Proof. intros a b. unfold le_by. rewrite (cmp_opp (cmp := cmp) a b). destruct (cmp a b); naive_solver. Qed.
Lemma lt_by_irrefl a : ~ lt_by a a.
  Proof. unfold lt_by. by rewrite cmp_refl. Qed.
End relation.

(** Appending an element above the last one keeps a sequence strictly sorted. *)
Lemma strongly_sorted_snoc {A} (R : relation A) `{!Transitive R} l x :
  StronglySorted R l -> (forall y, last l = Some y -> R y x) -> StronglySorted R (l ++ [x]).
Proof.
  intros Hl Hx. apply StronglySorted_app_2; [|done|repeat constructor].
  intros a b Ha Hb. apply list_elem_of_singleton in Hb as ->.
  destruct (last l) as [y|] eqn:E; [|apply last_None in E as ->; by apply not_elem_of_nil in Ha].
  specialize (Hx y eq_refl).
  apply last_Some in E as [k ->]. apply elem_of_app in Ha as [Ha|Ha].
  - etrans; [|done]. apply StronglySorted_app in Hl as (Hd & _ & _).
    apply Hd; [done|by apply list_elem_of_singleton].
  - by apply list_elem_of_singleton in Ha as ->.
Qed.

Lemma strongly_sorted_cons2 {A} (R : relation A) `{!Transitive R} x y l :
  StronglySorted R (x :: y :: l) <-> R x y /\ StronglySorted R (y :: l).
Proof.
  split.
  - intros [? Hx]%StronglySorted_inv. by inversion Hx.
  - intros [Hxy Hs]. constructor; [done|]. pose proof Hs as [_ Hy]%StronglySorted_inv.
    constructor; [done|]. eapply Forall_impl; [done|]. intros z Hz. by etrans.
Qed.

(** ** Stable sorting

    [slice::sort_by]: the result of a stable sort is determined by the order,
    so an insertion sort stands for it. *)

Section sort_by.
Context {A} (cmp : A -> A -> comparison).

Fixpoint insert_by (x : A) (l : list A) : list A :=
  match l with
  | [] => [x]
  | y :: l => match cmp x y with Gt => y :: insert_by x l | _ => x :: y :: l end
  end.
Definition sort_by (l : list A) : list A := foldr insert_by [] l.

Lemma insert_by_perm x l : insert_by x l ≡ₚ x :: l.
Proof.
  induction l as [|y l IH]; [done|]. simpl. destruct (cmp x y); [done..|].
  rewrite IH. constructor.
Qed.
Lemma sort_by_perm l : sort_by l ≡ₚ l.
Proof. induction l as [|x l IH]; [done|]. simpl. by rewrite insert_by_perm, IH. Qed.
End sort_by.

(** Sorting by a key that no two elements share sorts strictly. *)
Lemma sort_by_strict {A K} (key : A -> K) (kcmp : K -> K -> comparison) `{!TotalOrder kcmp} (l : list A) :
  NoDup (map key l) ->
  StronglySorted (lt_by kcmp) (map key (sort_by (fun a b => kcmp (key a) (key b)) l)).
Proof.
  induction l as [|x l IH]; cbn [map sort_by foldr]; [constructor|].
  intros [Hx Hn]%NoDup_cons. specialize (IH Hn). fold (sort_by (fun a b => kcmp (key a) (key b)) l).
  assert (key x ∉ map key (sort_by (fun a b => kcmp (key a) (key b)) l)) as Hx'
    by (by rewrite (Permutation_map key (sort_by_perm _ l))).
  clear Hx Hn. revert IH Hx'. generalize (sort_by (fun a b => kcmp (key a) (key b)) l).
  induction l0 as [|y k IHk]; intros Hs Hx'; cbn [insert_by map]; [repeat constructor|].
  cbn [map] in Hs, Hx'. apply not_elem_of_cons in Hx' as [Hne Hx'].
  pose proof Hs as [Hk Hy]%StronglySorted_inv.
  destruct (kcmp (key x) (key y)) eqn:E.
  - apply cmp_eq in E. done.
  - cbn [map]. constructor; [done|]. constructor; [done|].
    eapply Forall_impl; [done|]. intros z. by apply cmp_lt_trans.
  - cbn [map]. constructor; [by apply IHk|].
    rewrite (Permutation_map key (insert_by_perm _ x k)). cbn [map].
    constructor; [|done]. by apply cmp_gt_lt.
Qed.

(** Two strictly sorted sequences with the same members are equal. *)
Lemma sorted_key_unique {A K} (key : A -> K) (kcmp : K -> K -> comparison) `{!TotalOrder kcmp} (l k : list A) :
  StronglySorted (lt_by kcmp) (map key l) -> StronglySorted (lt_by kcmp) (map key k) ->
  (forall x, x ∈ l <-> x ∈ k) -> l = k.
Proof.
  assert (Hkey : forall m, StronglySorted (lt_by kcmp) (map key m) ->
    StronglySorted (fun x y => lt_by kcmp (key x) (key y)) m /\ NoDup m).
  { induction m as [|x m IH]; cbn [map]; [intros _; split; constructor|].
    intros [[Hs Hn]%IH Hx]%StronglySorted_inv. rewrite Forall_forall in Hx.
    assert (forall y, y ∈ m -> lt_by kcmp (key x) (key y)) as Hlt
      by (intros y Hy; apply Hx; by apply (list_elem_of_fmap_2 key)).
    split; constructor; [exact Hs|by apply Forall_forall| |exact Hn].
    intros Hin%Hlt. by apply (lt_by_irrefl kcmp) in Hin. }
  intros [Hl Hnl]%Hkey [Hk Hnk]%Hkey Hmem.
  apply (StronglySorted_unique_strong (fun x y => lt_by kcmp (key x) (key y))); [|done..|by apply NoDup_Permutation].
  intros x y _ _ Hxy Hyx. exfalso. apply (lt_by_irrefl kcmp (key x)). by etrans.
Qed.
