(* ===== verification/Interrupt.v ===== *)
(** Interruptible computations.

    Most operations of the toolchain take an [is_cancelled: &dyn Fn() -> bool]
    callback, which may answer differently at every call, and allocate with
    [try_reserve], which may fail. A [prog E A] is a computation that asks the
    environment such questions and otherwise fails with an [E] or returns an
    [A]. [run] answers the questions from an environment that may decide each
    one independently, [quiet] answers every one with [false]. *)

From stdpp Require Import base numbers list option.
From S2P Require Import Prelude.

Inductive query :=
| Poll    (** [is_cancelled()] *)
| Reserve (** did [try_reserve] fail? *).

Inductive prog (E A : Type) : Type :=
| Ret (value : A)
| Throw (error : E)
| Ask (q : query) (continue : bool -> prog E A).
Arguments Ret {E A} value.
Arguments Throw {E A} error.
Arguments Ask {E A} q continue.

Fixpoint prog_bind {E A B} (m : prog E A) (f : A -> prog E B) : prog E B :=
  match m with
  | Ret a => f a
  | Throw e => Throw e
  | Ask q k => Ask q (fun b => prog_bind (k b) f)
  end.

#[export] Instance prog_mret E : MRet (prog E) := fun A => @Ret E A.
#[export] Instance prog_mbind E : MBind (prog E) := fun A B f m => prog_bind m f.

(** A pure [Result] used with [?] in an interruptible function. *)
Definition lift {E A} (r : result E A) : prog E A :=
  match r with Ok a => Ret a | Err e => Throw e end.

(** [is_cancelled()]. *)
Definition is_cancelled {E} : prog E bool := Ask Poll Ret.
(** [if is_cancelled() { return Err(e) }]. *)
Definition poll {E} (e : E) : prog E unit :=
  Ask Poll (fun b => if b then Throw e else Ret tt).
(** [if due && is_cancelled() { return Err(e) }]: the callback is only called
    when [due] holds. *)
Definition poll_when {E} (due : bool) (e : E) : prog E unit :=
  if due then poll e else Ret tt.
(** [try_reserve(..).map_err(|_| e)?]. *)
Definition try_reserve {E} (e : E) : prog E unit :=
  Ask Reserve (fun failed => if failed then Throw e else Ret tt).
(** [if bad { return Err(e) }]. *)
Definition fail_if {E} (bad : bool) (e : E) : prog E unit :=
  if bad then Throw e else Ret tt.

(** [.map_err(f)] on the result of an interruptible function. *)
Fixpoint map_errM {E F A} (f : E -> F) (m : prog E A) : prog F A :=
  match m with
  | Ret a => Ret a
  | Throw e => Throw (f e)
  | Ask q k => Ask q (fun b => map_errM f (k b))
  end.

(** ** Semantics *)

(** What the [n]-th poll and the [n]-th reservation of a run answer. *)
Record environment := {
  cancelled_at : nat -> bool;
  exhausted_at : nat -> bool;
}.
(** How many polls and reservations have been made. *)
Record counters := { polls : nat; reservations : nat }.
Definition start : counters := {| polls := 0; reservations := 0 |}.

Definition answer (env : environment) (w : counters) (q : query) : bool * counters :=
  match q with
  | Poll => (cancelled_at env (polls w),
             {| polls := S (polls w); reservations := reservations w |})
  | Reserve => (exhausted_at env (reservations w),
             {| polls := polls w; reservations := S (reservations w) |})
  end.

Fixpoint run {E A} (env : environment) (w : counters) (m : prog E A)
    : result E A * counters :=
  match m with
  | Ret a => (Ok a, w)
  | Throw e => (Err e, w)
  | Ask q k => let '(b, w') := answer env w q in run env w' (k b)
  end.

Fixpoint quiet {E A} (m : prog E A) : result E A :=
  match m with
  | Ret a => Ok a
  | Throw e => Err e
  | Ask _ k => quiet (k false)
  end.

Section prog_lemmas.
  Context {E A B : Type}.
  Implicit Types (m : prog E A) (f : A -> prog E B).

Lemma quiet_bind m f : quiet (m ≫= f) = quiet m ≫= (fun a => quiet (f a)).
  Proof. unfold mbind, prog_mbind. induction m; simpl; auto. Qed.

Lemma quiet_bind_Ok m f b :
    quiet (m ≫= f) = Ok b <-> exists a, quiet m = Ok a /\ quiet (f a) = Ok b.
  Proof. rewrite quiet_bind. apply result_bind_Ok. Qed.

Lemma quiet_lift (r : result E A) : quiet (lift r) = r.
  Proof. by destruct r. Qed.

Lemma run_bind env w m f :
    run env w (m ≫= f) =
      match run env w m with
      | (Ok a, w') => run env w' (f a)
      | (Err e, w') => (Err e, w')
      end.
  Proof.
    unfold mbind, prog_mbind. revert w.
    induction m as [a|e|q k IH]; intros w; simpl; auto.
    destruct (answer env w q); auto.
  Qed.
End prog_lemmas.

Lemma quiet_poll {E} (e : E) : quiet (poll e) = Ok tt.
Proof. done. Qed.
Lemma quiet_poll_when {E} due (e : E) : quiet (poll_when due e) = Ok tt.
Proof. by destruct due. Qed.
Lemma quiet_try_reserve {E} (e : E) : quiet (try_reserve e) = Ok tt.
Proof. done. Qed.
Lemma quiet_fail_if {E} bad (e : E) : quiet (fail_if bad e) = guard_err bad e.
Proof. by destruct bad. Qed.
Lemma quiet_map_errM {E F A} (f : E -> F) (m : prog E A) :
  quiet (map_errM f m) = map_err f (quiet m).
Proof. induction m; simpl; auto. Qed.
Lemma quiet_ret {E A} (a : A) : quiet (mret a : prog E A) = Ok a.
Proof. done. Qed.

#[export] Hint Rewrite @quiet_bind @quiet_lift @quiet_poll @quiet_poll_when
  @quiet_try_reserve @quiet_fail_if @quiet_ret : quiet.

(** ** Interruption

    [interruptible P m]: whenever the environment interrupts [m], it stops at
    once with an error in [P]; no answer of the environment can change what
    [m] computes otherwise. *)

Class interruptible {E A} (P : E -> Prop) (m : prog E A) : Prop :=
  interruptible_tree : (fix go (m : prog E A) : Prop :=
    match m with
    | Ret _ | Throw _ => True
    | Ask _ k => (exists e, k true = Throw e /\ P e) /\ go (k false)
    end) m.

Section interruptible_lemmas.
  Context {E A B : Type} (P : E -> Prop).

#[export] Instance interruptible_ret (a : A) : interruptible P (Ret a).
  Proof. done. Qed.
#[export] Instance interruptible_mret (a : A) : interruptible P (mret a : prog E A).
  Proof. done. Qed.
#[export] Instance interruptible_throw (e : E) : interruptible P (Throw e : prog E A).
  Proof. done. Qed.
#[export] Instance interruptible_lift (r : result E A) : interruptible P (lift r).
  Proof. by destruct r. Qed.
#[export] Instance interruptible_fail_if b (e : E) : interruptible P (fail_if b e).
  Proof. by destruct b. Qed.

Lemma interruptible_poll (e : E) : P e -> interruptible P (poll e).
  Proof. intros He. split; [by exists e|done]. Qed.
Lemma interruptible_poll_when b (e : E) : P e -> interruptible P (poll_when b e).
  Proof. intros He. destruct b; [by apply interruptible_poll|done]. Qed.
Lemma interruptible_try_reserve (e : E) : P e -> interruptible P (try_reserve e).
  Proof. intros He. split; [by exists e|done]. Qed.

#[export] Instance interruptible_bind (m : prog E A) (f : A -> prog E B) :
    interruptible P m -> (forall a, interruptible P (f a)) ->
    interruptible P (m ≫= f).
  Proof.
    intros Hm Hf. unfold mbind, prog_mbind.
    induction m as [a|e|q k IH]; [apply Hf|done|].
    destruct Hm as [(e & Hk & He) Hm]. split.
    - exists e. by rewrite Hk.
    - by apply IH.
  Qed.

  (** The environment can only turn the undisturbed outcome into an
      interruption error. *)
Lemma run_interruptible env w (m : prog E A) :
    interruptible P m ->
    fst (run env w m) = quiet m \/ exists e, fst (run env w m) = Err e /\ P e.
  Proof.
    revert w. induction m as [a|e|q k IH]; intros w Hm; simpl; auto.
    destruct Hm as [(e & Hk & He) Hm].
    destruct (answer env w q) as [[] w']; [|by apply IH].
    rewrite Hk. right. eauto.
  Qed.

Lemma run_interruptible_Ok env w (m : prog E A) a :
    interruptible P m -> fst (run env w m) = Ok a -> quiet m = Ok a.
  Proof.
    intros Hm Hr. destruct (run_interruptible env w m Hm) as [<-|(e & He & _)]; [done|].
    by rewrite Hr in He.
  Qed.
End interruptible_lemmas.
#[export] Instance interruptible_map_errM {E F A} (P : E -> Prop) (Q : F -> Prop) f (m : prog E A) :
  interruptible P m -> (forall e, P e -> Q (f e)) -> interruptible Q (map_errM f m).
Proof.
  intros Hm Hf. induction m as [| |q k IH]; [done..|]. destruct Hm as [(e & Hk & He) Hm].
  split; [|by apply IH]. exists (f e). rewrite Hk. split; [done|by apply Hf].
Qed.
#[export] Hint Mode interruptible - - - ! : typeclass_instances.

(** The environment that never interrupts. *)
Definition calm : environment :=
  {| cancelled_at := fun _ => false; exhausted_at := fun _ => false |}.

Lemma run_calm {E A} w (m : prog E A) : fst (run calm w m) = quiet m.
Proof. revert w. induction m as [| |[] k IH]; intros w; simpl; auto. Qed.

(** ** Who interrupts

    [blames X m]: whenever the environment interrupts [m], it stops at once with
    an error that [X] allows for the question that was answered. *)

Class blames {E A} (X : query -> E -> Prop) (m : prog E A) : Prop :=
  blames_tree : (fix go (m : prog E A) : Prop :=
    match m with
    | Ret _ | Throw _ => True
    | Ask q k => (exists e, k true = Throw e /\ X q e) /\ go (k false)
    end) m.
#[export] Hint Mode blames - - - ! : typeclass_instances.

(** The environment answers some question of the kind with an interruption. *)
Definition interrupts (env : environment) (q : query) : Prop :=
  match q with
  | Poll => exists n, cancelled_at env n = true
  | Reserve => exists n, exhausted_at env n = true
  end.

Section blames.
  Context {E A B : Type} (X : query -> E -> Prop).

#[export] Instance blames_mret (a : A) : blames X (mret a : prog E A).
  Proof. done. Qed.
#[export] Instance blames_throw (e : E) : blames X (Throw e : prog E A).
  Proof. done. Qed.
#[export] Instance blames_lift (r : result E A) : blames X (lift r).
  Proof. by destruct r. Qed.
#[export] Instance blames_fail_if b (e : E) : blames X (fail_if b e).
  Proof. by destruct b. Qed.

Lemma blames_poll (e : E) : X Poll e -> blames X (poll e).
  Proof. intros He. split; [by exists e|done]. Qed.
Lemma blames_try_reserve (e : E) : X Reserve e -> blames X (try_reserve e).
  Proof. intros He. split; [by exists e|done]. Qed.

#[export] Instance blames_bind (m : prog E A) (f : A -> prog E B) :
    blames X m -> (forall a, blames X (f a)) -> blames X (m ≫= f).
  Proof.
    intros Hm Hf. unfold mbind, prog_mbind. induction m as [a|e|q k IH]; [apply Hf|done|].
    destruct Hm as [(e & Hk & He) Hm]. split; [exists e; by rewrite Hk|by apply IH].
  Qed.

Lemma run_blames env w (m : prog E A) : blames X m ->
    fst (run env w m) = quiet m \/ exists q e, fst (run env w m) = Err e /\ X q e /\ interrupts env q.
  Proof.
    revert w. induction m as [a|e|q k IH]; intros w Hm; simpl; auto.
    destruct Hm as [(e & Hk & He) Hm]. destruct (answer env w q) as [b w'] eqn:Hb. destruct b; [|by apply IH].
    rewrite Hk. right. exists q, e. split_and!; [done..|]. destruct q; injection Hb as Hb _; eexists; exact Hb.
  Qed.

Lemma blames_interruptible (P : E -> Prop) (m : prog E A) :
    (forall q e, X q e -> P e) -> blames X m -> interruptible P m.
  Proof.
    intros HP Hm. induction m as [a|e|q k IH]; [done..|]. destruct Hm as [(e & Hk & He) Hm].
    split; [exists e; by eauto|by apply IH].
  Qed.
End blames.

#[export] Instance blames_map_errM {E F A} (X : query -> E -> Prop) (Y : query -> F -> Prop) f (m : prog E A) :
  blames X m -> (forall q e, X q e -> Y q (f e)) -> blames Y (map_errM f m).
Proof.
  intros Hm Hf. induction m as [| |q k IH]; [done..|]. destruct Hm as [(e & Hk & He) Hm].
  split; [|by apply IH]. exists (f e). rewrite Hk. split; [done|by apply Hf].
Qed.

Ltac inv_quiet :=
  repeat (autorewrite with quiet in *; inv_ok).

(** The same for a method over a state. *)
Definition interruptibleS {S E A} (P : E -> Prop) (m : stateT S (prog E) A) : Prop :=
  forall s, interruptible P (m s).
Existing Class interruptibleS.
#[export] Hint Mode interruptibleS - - - - ! : typeclass_instances.

Section interruptibleS.
  Context {S E A B : Type} (P : E -> Prop).

#[export] Instance interruptibleS_run (m : stateT S (prog E) A) s :
    interruptibleS P m -> interruptible P (m s).
  Proof. intros H. apply H. Qed.
#[export] Instance interruptibleS_mret (a : A) :
    interruptibleS P (mret a : stateT S (prog E) A).
  Proof. done. Qed.
#[export] Instance interruptibleS_bind (m : stateT S (prog E) A) (f : A -> stateT S (prog E) B) :
    interruptibleS P m -> (forall a, interruptibleS P (f a)) -> interruptibleS P (m ≫= f).
  Proof.
    intros Hm Hf s. unfold mbind, stateT_bind. apply interruptible_bind; [apply Hm|].
    intros [a s']. apply Hf.
  Qed.
#[export] Instance interruptibleS_liftS (m : prog E A) :
    interruptible P m -> interruptibleS P (liftS m : stateT S (prog E) A).
  Proof. intros H s. unfold liftS. apply interruptible_bind; [done|done]. Qed.
End interruptibleS.

Lemma quietS_bind {S E A B} (m : stateT S (prog E) A) (f : A -> stateT S (prog E) B) s :
  quiet ((m ≫= f) s) = quiet (m s) ≫= fun '(a, s') => quiet (f a s').
Proof.
  unfold mbind at 1, stateT_bind. rewrite quiet_bind. destruct (quiet (m s)) as [[a s']|e]; done.
Qed.

Lemma quietS_bind_Ok {S E A B} (m : stateT S (prog E) A) (f : A -> stateT S (prog E) B) s b s' :
  quiet ((m ≫= f) s) = Ok (b, s') <->
  exists a s1, quiet (m s) = Ok (a, s1) /\ quiet (f a s1) = Ok (b, s').
Proof.
  rewrite quietS_bind, result_bind_Ok. split.
  - intros ([a s1] & H & H'). eauto.
  - intros (a & s1 & H & H'). exists (a, s1). eauto.
Qed.

Lemma quiet_liftS {S E A} (m : prog E A) (s : S) :
  quiet (liftS m s) = (fun a => (a, s)) <$> quiet m.
Proof. unfold liftS. rewrite quiet_bind. by destruct (quiet m). Qed.

Lemma quiet_liftS_Ok {S E A} (m : prog E A) (s : S) a s' :
  quiet (liftS m s) = Ok (a, s') <-> quiet m = Ok a /\ s' = s.
Proof. rewrite quiet_liftS. destruct (quiet m); simpl; naive_solver. Qed.

(** Running an undisturbed computation one step at a time. *)
Section quiet_steps.
  Context {E A B : Type}.

Lemma run_ok (m : prog E A) (f : A -> prog E B) a :
    quiet m = Ok a -> quiet (m ≫= f) = quiet (f a).
  Proof. intros H. by rewrite quiet_bind, H. Qed.
Lemma run_lift (r : result E A) (f : A -> prog E B) a :
    r = Ok a -> quiet (lift r ≫= f) = quiet (f a).
  Proof. intros ->. done. Qed.
Lemma run_ok_or (o : option A) e (f : A -> prog E B) a :
    o = Some a -> quiet (lift (ok_or o e) ≫= f) = quiet (f a).
  Proof. intros ->. done. Qed.
Lemma run_fail_if b (e : E) (f : unit -> prog E B) :
    b = false -> quiet (fail_if b e ≫= f) = quiet (f tt).
  Proof. intros ->. done. Qed.
Lemma run_poll (e : E) (f : unit -> prog E B) : quiet (poll e ≫= f) = quiet (f tt).
  Proof. done. Qed.
Lemma run_poll_when b (e : E) (f : unit -> prog E B) : quiet (poll_when b e ≫= f) = quiet (f tt).
  Proof. by destruct b. Qed.
Lemma run_try_reserve (e : E) (f : unit -> prog E B) : quiet (try_reserve e ≫= f) = quiet (f tt).
  Proof. done. Qed.
End quiet_steps.

(** Skip the questions at the head of a computation. *)
Ltac skip_questions := rewrite ?run_poll, ?run_poll_when, ?run_try_reserve.
(** Take the head of a successful computation apart. *)
Ltac quiet_inv H :=
  repeat match type of H with
  | quiet (poll _ ≫= _) = Ok _ => rewrite run_poll in H
  | quiet (poll_when _ _ ≫= _) = Ok _ => rewrite run_poll_when in H
  | quiet (try_reserve _ ≫= _) = Ok _ => rewrite run_try_reserve in H
  | quiet (fail_if _ _ ≫= _) = Ok _ =>
      let G := fresh "Hguard" in
      apply quiet_bind_Ok in H as ([] & G & H);
      rewrite quiet_fail_if in G; apply guard_err_Ok in G
  | quiet (lift _ ≫= _) = Ok _ =>
      let G := fresh "Hlift" in
      apply quiet_bind_Ok in H as (? & G & H); rewrite quiet_lift in G
  | quiet (_ ≫= _) = Ok _ =>
      let G := fresh "Hrun" in apply quiet_bind_Ok in H as (? & G & H)
  | quiet (mret _) = Ok _ => rewrite quiet_ret in H; injection H as <-
  | quiet (Ret _) = Ok _ => injection H as <-
  end.

(** ** What a computation may return

    [may_return m a]: in some environment, [m] returns [a]. *)
Fixpoint may_return {E A} (m : prog E A) (a : A) : Prop :=
  match m with
  | Ret b => b = a
  | Throw _ => False
  | Ask _ k => exists b, may_return (k b) a
  end.

Section may_return.
  Context {E A B : Type}.

Lemma run_may_return env w (m : prog E A) a : fst (run env w m) = Ok a -> may_return m a.
  Proof.
    revert w. induction m as [| |q k IH]; intros w; simpl; [naive_solver..|].
    destruct (answer env w q) as [b w']. intros H. exists b. by eapply IH.
  Qed.

Lemma quiet_may_return (m : prog E A) a : quiet m = Ok a -> may_return m a.
  Proof. rewrite <- (run_calm start). apply run_may_return. Qed.

Lemma may_return_bind (m : prog E A) (f : A -> prog E B) b :
    may_return (m ≫= f) b <-> exists a, may_return m a /\ may_return (f a) b.
  Proof.
    unfold mbind, prog_mbind. induction m as [| |q k IH]; simpl; [naive_solver..|].
    setoid_rewrite IH. naive_solver.
  Qed.

Lemma may_return_lift (r : result E A) a : may_return (lift r) a <-> r = Ok a.
  Proof. destruct r; simpl; naive_solver. Qed.

Lemma may_return_fail_if b (e : E) u : may_return (fail_if b e) u -> b = false.
  Proof. by destruct b. Qed.
End may_return.

(** The same for a method over a state. *)
Definition may_returnS {S E A} (m : stateT S (prog E) A) (s : S) (a : A) (s' : S) : Prop :=
  may_return (m s) (a, s').

Lemma may_returnS_bind {S E A B} (m : stateT S (prog E) A) (f : A -> stateT S (prog E) B) s b s' :
  may_returnS (m ≫= f) s b s' <-> exists a s1, may_returnS m s a s1 /\ may_returnS (f a) s1 b s'.
Proof.
  unfold may_returnS, mbind at 1, stateT_bind. rewrite may_return_bind. split.
  - intros ([a s1] & H & H'). eauto.
  - intros (a & s1 & H & H'). exists (a, s1). eauto.
Qed.

Lemma runS_bind {S E A B} env w (m : stateT S (prog E) A) (f : A -> stateT S (prog E) B) s :
  run env w ((m ≫= f) s) =
    match run env w (m s) with
    | (Ok (a, s1), w') => run env w' (f a s1)
    | (Err e, w') => (Err e, w')
    end.
Proof.
  unfold mbind at 1, stateT_bind. rewrite run_bind. by destruct (run env w (m s)) as [[[a s1]|e] w'].
Qed.

Lemma runS_bind_ext {S E A B} env w (m : stateT S (prog E) A) (f g : A -> stateT S (prog E) B) s :
  (forall a s1 w1, run env w (m s) = (Ok (a, s1), w1) -> run env w1 (f a s1) = run env w1 (g a s1)) ->
  run env w ((m ≫= f) s) = run env w ((m ≫= g) s).
Proof.
  intros H. rewrite !runS_bind. destruct (run env w (m s)) as [[[a s1]|e] w1]; [by apply H|done].
Qed.

Lemma runS_may_return {S E A} env w (m : stateT S (prog E) A) s a s1 w' :
  run env w (m s) = (Ok (a, s1), w') -> may_returnS m s a s1.
Proof. intros H. apply (run_may_return env w). by rewrite H. Qed.

Lemma may_returnS_mret {S E A} (a b : A) (s s' : S) :
  may_returnS (mret a : stateT S (prog E) A) s b s' <-> a = b /\ s = s'.
Proof. unfold may_returnS. simpl. naive_solver. Qed.

Lemma may_returnS_liftS {S E A} (m : prog E A) (s : S) a s' :
  may_returnS (liftS m) s a s' <-> may_return m a /\ s' = s.
Proof. unfold may_returnS, liftS. rewrite may_return_bind. simpl. naive_solver. Qed.

(** [may_throw m e]: in some environment, [m] fails with [e]. *)
Fixpoint may_throw {E A} (m : prog E A) (e : E) : Prop :=
  match m with
  | Ret _ => False
  | Throw e' => e' = e
  | Ask _ k => exists b, may_throw (k b) e
  end.

Lemma run_may_throw {E A} env w (m : prog E A) e : fst (run env w m) = Err e -> may_throw m e.
Proof.
  revert w. induction m as [| |q k IH]; intros w; simpl; [naive_solver..|].
  destruct (answer env w q) as [b w']. intros H. exists b. by eapply IH.
Qed.

Lemma may_throw_bind {E A B} (m : prog E A) (f : A -> prog E B) e :
  may_throw (m ≫= f) e <-> may_throw m e \/ exists a, may_return m a /\ may_throw (f a) e.
Proof.
  unfold mbind, prog_mbind. induction m as [| |q k IH]; simpl; [naive_solver..|].
  setoid_rewrite IH. naive_solver.
Qed.

Lemma may_throw_lift {E A} (r : result E A) e : may_throw (lift r) e <-> r = Err e.
Proof. destruct r; simpl; naive_solver. Qed.

(** Every error of a method satisfies [P]. *)
Definition raises {S E A} (P : E -> Prop) (m : stateT S (prog E) A) : Prop :=
  forall s e, may_throw (m s) e -> P e.

Section raises.
  Context {S E A B : Type} (P : E -> Prop).

Lemma raises_bind (m : stateT S (prog E) A) (f : A -> stateT S (prog E) B) :
    raises P m -> (forall a, raises P (f a)) -> raises P (m ≫= f).
  Proof.
    intros Hm Hf s e. unfold mbind at 1, stateT_bind. rewrite may_throw_bind.
    intros [H|([a s1] & _ & H)]; [by eapply Hm|by eapply Hf].
  Qed.

Lemma raises_mret (a : A) : raises P (mret a : stateT S (prog E) A).
  Proof. by intros s e. Qed.

Lemma raises_liftS (m : prog E A) : (forall e, may_throw m e -> P e) -> raises P (liftS m : stateT S (prog E) A).
  Proof. intros Hm s e. unfold liftS. rewrite may_throw_bind. intros [H|(a & _ & [])]. by apply Hm. Qed.
End raises.

Lemma run_raises {S E A} (P : E -> Prop) (m : stateT S (prog E) A) env w s e :
  raises P m -> fst (run env w (m s)) = Err e -> P e.
Proof. intros Hm H. eapply Hm. by eapply run_may_throw. Qed.

(** A sequence fails in its first part or in its second. *)
Lemma runS_bind_Err {S E A B} env w (m : stateT S (prog E) A) (f : A -> stateT S (prog E) B) s e :
  fst (run env w ((m ≫= f) s)) = Err e ->
  fst (run env w (m s)) = Err e
  \/ exists a s1 w1, run env w (m s) = (Ok (a, s1), w1) /\ fst (run env w1 (f a s1)) = Err e.
Proof.
  rewrite runS_bind. destruct (run env w (m s)) as [[[a s1]|e1] w1]; simpl; intros H.
  - right; by exists a, s1, w1.
  - left. by injection H as ->.
Qed.

(** Only the error of its questions interrupts a computation. *)
Ltac interrupted :=
  repeat first [apply interruptible_bind; [first [by apply interruptible_poll | apply _ |
    by eapply interruptible_map_errM; [apply _|]]|intros ?] | apply _].

(** A computation whose questions all lead to an interruption. *)
Ltac uninterrupted :=
  repeat lazymatch goal with
  | |- interruptibleS _ (mbind _ _) => apply interruptibleS_bind; [|intros ?]
  | |- interruptible _ (mbind _ _) => apply interruptible_bind; [|intros ?]
  | |- interruptible _ (match _ with _ => _ end) => case_match
  | |- interruptibleS _ (match _ with _ => _ end) => case_match
  | |- interruptibleS _ (fun _ => _) => intros ?
  | |- _ => apply _
  end.
