(* ===== verification/Text.v ===== *)
(** UTF-8 text as the Rust standard library sees it: [str::from_utf8],
    [str::chars], [char_indices], [is_char_boundary], and the character classes
    the toolchain tests. A Rust string is its byte list; [utf8_valid] is the
    invariant of the type. *)

From Stdlib Require Import Strings.Byte.
From stdpp Require Import base numbers list option strings.
From S2P Require Import Prelude Bytes.

#[local] Open Scope Z_scope.

(** A continuation byte [0b10xx_xxxx]. *)
Definition is_cont (z : Z) : bool := (0x80 <=? z) && (z <=? 0xBF).
Definition between (lo hi z : Z) : bool := (lo <=? z) && (z <=? hi).

Definition code2 (a b : Z) : Z := (a - 0xC0) * 64 + (b - 0x80).
Definition code3 (a b c : Z) : Z := (a - 0xE0) * 4096 + (b - 0x80) * 64 + (c - 0x80).
Definition code4 (a b c d : Z) : Z :=
  (a - 0xF0) * 262144 + (b - 0x80) * 4096 + (c - 0x80) * 64 + (d - 0x80).

(** Which second bytes may follow a three- or four-byte lead. *)
Definition second3 (a b : Z) : bool :=
  if a =? 0xE0 then between 0xA0 0xBF b
  else if a =? 0xED then between 0x80 0x9F b
  else between 0xE1 0xEF a && is_cont b.
Definition second4 (a b : Z) : bool :=
  if a =? 0xF0 then between 0x90 0xBF b
  else if a =? 0xF4 then between 0x80 0x8F b
  else between 0xF1 0xF3 a && is_cont b.

(** Decoding; [None] is [Utf8Error]. *)
Fixpoint utf8_chars (bs : str) : option (list Z) :=
  match bs with
  | [] => Some []
  | b0 :: r0 =>
    let a := Z_of_byte b0 in
    if a <? 0x80 then cons a <$> utf8_chars r0
    else match r0 with
    | [] => None
    | b1 :: r1 =>
      let b := Z_of_byte b1 in
      if between 0xC2 0xDF a && is_cont b then cons (code2 a b) <$> utf8_chars r1
      else match r1 with
      | [] => None
      | b2 :: r2 =>
        let c := Z_of_byte b2 in
        if second3 a b && is_cont c then cons (code3 a b c) <$> utf8_chars r2
        else match r2 with
        | [] => None
        | b3 :: r3 =>
          let d := Z_of_byte b3 in
          if second4 a b && is_cont c && is_cont d
          then cons (code4 a b c d) <$> utf8_chars r3
          else None
        end
      end
    end
  end.

Definition utf8_valid (bs : str) : bool :=
  match utf8_chars bs with Some _ => true | None => false end.

(** [str::chars]. *)
Definition chars (s : str) : list Z := default [] (utf8_chars s).

(** [char::len_utf8]. *)
Definition len_utf8 (c : Z) : Z :=
  if c <? 0x80 then 1 else if c <? 0x800 then 2 else if c <? 0x10000 then 3 else 4.

Fixpoint indices_from (offset : Z) (cs : list Z) : list (Z * Z) :=
  match cs with
  | [] => []
  | c :: cs => (offset, c) :: indices_from (offset + len_utf8 c) cs
  end.
(** [str::char_indices]. *)
Definition char_indices (s : str) : list (Z * Z) := indices_from 0 (chars s).

(** [char::is_whitespace]: the Unicode property White_Space. *)
Definition is_whitespace (c : Z) : bool :=
  between 0x09 0x0D c || (c =? 0x20) || (c =? 0x85) || (c =? 0xA0)
  || (c =? 0x1680) || between 0x2000 0x200A c || (c =? 0x2028) || (c =? 0x2029)
  || (c =? 0x202F) || (c =? 0x205F) || (c =? 0x3000).

(** [char::is_control]: the general category Cc. *)
Definition is_control (c : Z) : bool := between 0 0x1F c || between 0x7F 0x9F c.

(** [char::to_ascii_lowercase] on an ASCII byte. *)
Definition ascii_lower_byte (b : byte) : byte :=
  let z := Z_of_byte b in
  if between 0x41 0x5A z then byte_of_Z (z + 32) else b.
(** [str::to_ascii_lowercase]. *)
Definition to_ascii_lowercase (s : str) : str := map ascii_lower_byte s.

(** [str::is_char_boundary]. *)
Definition is_char_boundary (s : str) (i : Z) : bool :=
  if i =? 0 then true
  else if i =? len s then true
  else match s !! Z.to_nat i with
       | Some b => negb (is_cont (Z_of_byte b))
       | None => false
       end.

(** [str::contains] and [str::starts_with] for one ASCII character. *)
Definition contains_byte (s : str) (b : byte) : bool := existsb (fun c => bool_decide (c = b)) s.
Definition starts_with_byte (s : str) (b : byte) : bool :=
  match s with c :: _ => bool_decide (c = b) | [] => false end.

(** [str::starts_with], [str::strip_prefix] and [str::strip_suffix] for a string. *)
Definition starts_with (s prefix : str) : bool := bool_decide (take (length prefix) s = prefix).
Definition strip_prefix (s prefix : str) : option str :=
  if starts_with s prefix then Some (drop (length prefix) s) else None.
Definition strip_suffix (s suffix : str) : option str :=
  let n := (length s - length suffix)%nat in
  if bool_decide (drop n s = suffix) then Some (take n s) else None.

(** [str::parse] of an unsigned number of [w] bits, for a string of digits. *)
Fixpoint parse_digits (w acc : Z) (s : str) : option Z :=
  match s with
  | [] => Some acc
  | b :: s =>
      acc ← checked_mul w acc 10;
      acc ← checked_add w acc (Z_of_byte b - 0x30);
      parse_digits w acc s
  end.
Definition is_ascii_digit (b : byte) : bool := between 0x30 0x39 (Z_of_byte b).

(** [str::split] on one ASCII character. *)
Fixpoint split_byte (sep : byte) (s : str) : list str :=
  match s with
  | [] => [[]]
  | c :: s =>
      if bool_decide (c = sep) then [] :: split_byte sep s
      else match split_byte sep s with
           | part :: parts => (c :: part) :: parts
           | [] => [[c]]
           end
  end.

(** ** Decoding lemmas *)

(** One decoding step: the character at the front and the bytes after it. *)
Definition next_char (bs : str) : option (Z * str) :=
  match bs with
  | [] => None
  | b0 :: r0 =>
    let a := Z_of_byte b0 in
    if a <? 0x80 then Some (a, r0)
    else match r0 with
    | [] => None
    | b1 :: r1 =>
      let b := Z_of_byte b1 in
      if between 0xC2 0xDF a && is_cont b then Some (code2 a b, r1)
      else match r1 with
      | [] => None
      | b2 :: r2 =>
        let c := Z_of_byte b2 in
        if second3 a b && is_cont c then Some (code3 a b c, r2)
        else match r2 with
        | [] => None
        | b3 :: r3 =>
          let d := Z_of_byte b3 in
          if second4 a b && is_cont c && is_cont d then Some (code4 a b c d, r3)
          else None
        end
      end
    end
  end.

Lemma utf8_chars_step b bs :
  utf8_chars (b :: bs) =
    match next_char (b :: bs) with
    | Some (c, rest) => cons c <$> utf8_chars rest
    | None => None
    end.
Proof.
  unfold next_char. cbn [utf8_chars].
  destruct (_ <? _); [done|].
  destruct bs as [|b1 bs]; [done|]. destruct (_ && _); [done|].
  destruct bs as [|b2 bs]; [done|]. destruct (_ && _); [done|].
  destruct bs as [|b3 bs]; [done|]. destruct (_ && _); done.
Qed.

(** A step reads at least one byte and looks at no byte beyond those it reads;
    every byte after the first is a continuation byte. *)
Lemma next_char_spec bs c rest :
  next_char bs = Some (c, rest) ->
  exists b tail, bs = b :: tail ++ rest /\ Forall (fun x => is_cont (Z_of_byte x) = true) tail
    /\ (length tail <= 3)%nat
    /\ len_utf8 c = 1 + len tail
    /\ forall more, next_char (b :: tail ++ more) = Some (c, more).
Proof.
  destruct bs as [|b0 r0]; [done|]. unfold next_char.
  pose proof (Z_of_byte_range b0).
  destruct (_ <? _) eqn:E1.
  { intros [= <- <-]. exists b0, []. split_and!; [done|done|simpl; lia| |].
    - unfold len_utf8. by rewrite E1.
    - intros more. cbn. by rewrite E1. }
  destruct r0 as [|b1 r1]; [done|].
  destruct (_ && is_cont _) eqn:E2.
  { intros [= <- <-]. exists b0, [b1].
    unfold between, is_cont, code2, len_utf8 in *.
    split_and!; [done|repeat constructor; lia|simpl; lia| |].
    - autorewrite with wrela_simpl. repeat case_match; lia.
    - intros more. cbn. by rewrite E1, E2. }
  destruct r1 as [|b2 r2]; [done|].
  destruct (second3 _ _ && is_cont _) eqn:E3.
  { intros [= <- <-]. exists b0, [b1; b2].
    split_and!; [done| |simpl; lia| |].
    - unfold second3, between, is_cont in *. repeat constructor; repeat case_match; lia.
    - unfold second3, between, is_cont, code3, len_utf8 in *. autorewrite with wrela_simpl.
      repeat case_match; lia.
    - intros more. cbn. by rewrite E1, E2, E3. }
  destruct r2 as [|b3 r3]; [done|].
  destruct (second4 _ _ && _ && _) eqn:E4; [|done].
  intros [= <- <-]. exists b0, [b1; b2; b3].
  split_and!; [done| |simpl; lia| |].
  - unfold second4, between, is_cont in *. repeat constructor; repeat case_match; lia.
  - unfold second4, between, is_cont, code4, len_utf8 in *. autorewrite with wrela_simpl.
    repeat case_match; lia.
  - intros more. cbn. by rewrite E1, E2, E3, E4.
Qed.

(** Decoding as a relation: the characters are read one after the other. *)
Inductive decodes : str -> list Z -> Prop :=
| decodes_nil : decodes [] []
| decodes_cons bs c rest cs :
    next_char bs = Some (c, rest) -> decodes rest cs -> decodes bs (c :: cs).

Lemma next_char_shorter bs c rest :
  next_char bs = Some (c, rest) -> (length rest < length bs)%nat.
Proof.
  intros (b & tail & -> & _ & _ & _)%next_char_spec. simpl. rewrite length_app. lia.
Qed.

Lemma utf8_chars_decodes bs cs : utf8_chars bs = Some cs <-> decodes bs cs.
Proof.
  split.
  - revert cs. induction bs as [bs IH] using (induction_ltof1 _ (@length byte)).
    unfold ltof in IH. destruct bs as [|b bs]; intros cs.
    + intros [= <-]. constructor.
    + rewrite utf8_chars_step.
      destruct (next_char (b :: bs)) as [[c rest]|] eqn:E; [|done].
      destruct (utf8_chars rest) as [cs'|] eqn:E'; [|done]. intros [= <-].
      econstructor; [done|]. eapply IH; eauto using next_char_shorter.
  - induction 1 as [|bs c rest cs E _ IH]; [done|].
    destruct bs as [|b bs]; [done|]. by rewrite utf8_chars_step, E, IH.
Qed.

Lemma utf8_valid_decodes bs : utf8_valid bs = true <-> exists cs, decodes bs cs.
Proof.
  unfold utf8_valid. split.
  - destruct (utf8_chars bs) as [cs|] eqn:E; [|done].
    exists cs. by apply utf8_chars_decodes.
  - intros [cs H%utf8_chars_decodes]. by rewrite H.
Qed.

Lemma decodes_app a b ca cb : decodes a ca -> decodes b cb -> decodes (a ++ b) (ca ++ cb).
Proof.
  induction 1 as [|bs c rest cs E _ IH]; intros Hb; [done|]. simpl. econstructor; [|eauto].
  destruct (next_char_spec _ _ _ E) as (x & tail & -> & _ & _ & _ & Hm).
  simpl. rewrite <- (app_assoc tail). apply Hm.
Qed.

(** Text may be cut in front of any byte that is not a continuation byte. *)
Definition starts_char (b : str) : Prop :=
  match b with [] => True | x :: _ => is_cont (Z_of_byte x) = false end.

Lemma decodes_split a b cs :
  decodes (a ++ b) cs -> starts_char b ->
  exists ca cb, cs = ca ++ cb /\ decodes a ca /\ decodes b cb.
Proof.
  intros H Hb. remember (a ++ b) as ab eqn:Eab. revert a Eab.
  induction H as [|bs c rest cs E Hrest IH]; intros a Eab.
  { symmetry in Eab. apply app_nil in Eab as [-> ->]. exists [], []. by repeat constructor. }
  destruct a as [|x a].
  { exists [], (c :: cs). split_and!; [done|constructor|].
    simpl in Eab. subst bs. by econstructor. }
  destruct (next_char_spec _ _ _ E) as (y & tail & -> & Htail & _ & _ & Hm).
  injection Eab as -> Eab.
  assert (exists a', a = tail ++ a' /\ rest = a' ++ b) as (a' & -> & ->).
  { apply app_eq_inv in Eab as [(k & -> & ->)|(k & -> & Hk)]; [|eauto].
    destruct k as [|z k]; [exists []; by rewrite !app_nil_r|].
    apply Forall_app in Htail as [_ Htail].
    apply Forall_cons in Htail as [Hz _]. simpl in Hb. congruence. }
  destruct (IH a' eq_refl) as (ca & cb & -> & Ha & Hcb).
  exists (c :: ca), cb. split_and!; [done| |done].
  econstructor; [apply Hm|done].
Qed.

Lemma utf8_valid_app a b :
  starts_char b -> utf8_valid (a ++ b) = utf8_valid a && utf8_valid b.
Proof.
  intros Hb. apply eq_true_iff_eq.
  rewrite andb_true_iff, !utf8_valid_decodes. split.
  - intros [cs (ca & cb & -> & Ha & Hcb)%decodes_split]; eauto.
  - intros [[ca Ha] [cb Hcb]]. eauto using decodes_app.
Qed.

Lemma utf8_valid_app_true a b :
  utf8_valid a = true -> utf8_valid b = true -> utf8_valid (a ++ b) = true.
Proof. rewrite !utf8_valid_decodes. intros [? ?] [? ?]. eauto using decodes_app. Qed.

Lemma decodes_chars s cs : decodes s cs -> chars s = cs.
Proof. intros H%utf8_chars_decodes. unfold chars. by rewrite H. Qed.

(** ASCII text is valid. *)
Lemma utf8_valid_ascii s :
  forallb (fun b => Z_of_byte b <? 0x80) s = true -> utf8_valid s = true.
Proof.
  induction s as [|b s IH]; [done|]. cbn [forallb]. intros [Hb Hs]%andb_true_iff.
  unfold utf8_valid in *. cbn [utf8_chars]. rewrite Hb.
  specialize (IH Hs). by destruct (utf8_chars s).
Qed.

(** The test for a continuation byte by its two high bits. *)
Lemma land_C0 z : 0 <= z < 256 -> (Z.land z 0xC0 =? 0x80) = is_cont z.
Proof.
  intros Hz. unfold is_cont. revert z Hz.
  enough (H : forallb (fun n => let z := Z.of_nat n in
    Bool.eqb (Z.land z 0xC0 =? 0x80) ((0x80 <=? z) && (z <=? 0xBF))) (seq 0 256) = true).
  { intros z Hz. rewrite forallb_forall in H.
    specialize (H (Z.to_nat z)). rewrite Z2Nat.id in H by lia.
    apply eqb_prop, H, in_seq. lia. }
  vm_compute. reflexivity.
Qed.
