(* ===== verification/BuildModel.v ===== *)
(** Build identity and profile policy ([crates/wrela-build-model]): the data
    every process boundary shares, its validation, the canonical byte sequence
    that is hashed into a build identity, and the seal that binds the two. *)

From Stdlib Require Import Strings.Byte.
From stdpp Require Import base numbers list option strings.
From S2P Require Import Prelude Bytes Text.

#[local] Open Scope Z_scope.

Definition PROFILE_ENCODING_VERSION : Z := 2.
Definition MAX_PROFILE_ATOM_BYTES : Z := 4096.
Definition PROFILE_MAGIC : list byte := ascii "WRELPRF" ++ [x00].

Inductive LanguageRevision : Set := Design0_1.

Definition LanguageRevision_as_str (r : LanguageRevision) : str :=
  match r with Design0_1 => ascii "0.1-design" end.

(** [Sha256Digest([u8; 32])]. *)
Record Sha256Digest := from_bytes { as_bytes : list byte }.

Inductive BuildMode := Development | Release.
Inductive RecordingMode := Disabled | Recording | Replay.
Inductive OptimizationLevel := OptNone | OptDevelopment | OptPerformance | OptSize.

Record ComptimeLimits := {
  steps : Z;              (* u64 *)
  memory_bytes : Z;       (* u64 *)
  call_depth : Z;         (* u32 *)
}.
Record MemoryLimits := {
  static_bytes : Z;       (* u64 *)
  peak_bytes : Z;         (* u64 *)
  event_log_bytes : Z;    (* u64 *)
}.
Record DmaPolicy := { coherent : bool; require_iommu : bool }.
Record RecoveryPolicy := {
  reset_timeout_ns : Z;   (* u64 *)
  quarantine_bytes : Z;   (* u64 *)
}.
Record OptimizationPolicy := {
  level : OptimizationLevel;
  profile_data : option Sha256Digest;
}.
Record DiagnosticPolicy := {
  sealed_deployment : bool;
  warnings_as_errors : bool;
  watchdogs : bool;
}.
Record BuildProfile := {
  profile_name : str;
  mode : BuildMode;
  comptime : ComptimeLimits;
  memory : MemoryLimits;
  dma : DmaPolicy;
  recovery : RecoveryPolicy;
  recording : RecordingMode;
  optimization : OptimizationPolicy;
  diagnostics : DiagnosticPolicy;
}.
Record ProfileDefaults := {
  default_comptime : ComptimeLimits;
  default_memory : MemoryLimits;
  default_dma : DmaPolicy;
  default_recovery : RecoveryPolicy;
  default_recording : RecordingMode;
  default_optimization_level : OptimizationLevel;
  default_diagnostics : DiagnosticPolicy;
}.

#[export] Instance Sha256Digest_eq_dec : EqDecision Sha256Digest.
Proof. solve_decision. Defined.
#[export] Instance LanguageRevision_eq_dec : EqDecision LanguageRevision.
Proof. solve_decision. Defined.
#[export] Instance BuildMode_eq_dec : EqDecision BuildMode.
Proof. solve_decision. Defined.
#[export] Instance RecordingMode_eq_dec : EqDecision RecordingMode.
Proof. solve_decision. Defined.
#[export] Instance OptimizationLevel_eq_dec : EqDecision OptimizationLevel.
Proof. solve_decision. Defined.
#[export] Instance ComptimeLimits_eq_dec : EqDecision ComptimeLimits.
Proof. solve_decision. Defined.
#[export] Instance MemoryLimits_eq_dec : EqDecision MemoryLimits.
Proof. solve_decision. Defined.
#[export] Instance DmaPolicy_eq_dec : EqDecision DmaPolicy.
Proof. solve_decision. Defined.
#[export] Instance RecoveryPolicy_eq_dec : EqDecision RecoveryPolicy.
Proof. solve_decision. Defined.
#[export] Instance OptimizationPolicy_eq_dec : EqDecision OptimizationPolicy.
Proof. solve_decision. Defined.
#[export] Instance DiagnosticPolicy_eq_dec : EqDecision DiagnosticPolicy.
Proof. solve_decision. Defined.
#[export] Instance BuildProfile_eq_dec : EqDecision BuildProfile.
Proof. solve_decision. Defined.

(** [Sha256Digest::to_hex]. *)
Definition DIGITS : list byte := ascii "0123456789abcdef".
Definition hex_digit (z : Z) : byte := nth (Z.to_nat z) DIGITS x00.
Definition to_hex (d : Sha256Digest) : str :=
  flat_map (fun b =>
    [hex_digit (Z.shiftr (Z_of_byte b) 4); hex_digit (Z.land (Z_of_byte b) 0x0f)])
    (as_bytes d).

Inductive AtomError :=
| Empty
| TooLong (length maximum : Z)
| ForbiddenCharacter (character : Z).
Inductive IdentityError : Set := InvalidTarget (error : AtomError).
Inductive ProfileError :=
| InvalidName (error : AtomError)
| ZeroComptimeLimit
| InvalidMemoryLimits
| ZeroResetTimeout
| MissingEventLogCapacity
| ProfileDigestMismatch (expected actual : Sha256Digest)
| ZeroBuildDigest.

Definition validate_atom (value : str) : result AtomError unit :=
  if bool_decide (value = []) then Err Empty
  else if MAX_PROFILE_ATOM_BYTES <? len value
  then Err (TooLong (len value) MAX_PROFILE_ATOM_BYTES)
  else match find (fun c => is_control c || is_whitespace c
                            || (c =? 0x5C) || (c =? 0x2F) || (c =? 0x3A)) (chars value) with
       | Some c => Err (ForbiddenCharacter c)
       | None => Ok tt
       end.

(** [TargetIdentity(String)]: the field is private, [TargetIdentity_new] is the
    only checked constructor. *)
Record TargetIdentity := { target_as_str : str }.
#[export] Instance TargetIdentity_eq_dec : EqDecision TargetIdentity.
Proof. solve_decision. Defined.

Definition TargetIdentity_new (value : str) : result IdentityError TargetIdentity :=
  map_err InvalidTarget (validate_atom value) ≫= fun _ =>
  Ok {| target_as_str := value |}.
Definition aarch64_qemu_virt_uefi : TargetIdentity :=
  {| target_as_str := ascii "aarch64-qemu-virt-uefi" |}.

Definition PROFILE_DEFAULTS : ProfileDefaults := {|
  default_comptime := {| steps := 10000000; memory_bytes := 64 * 1024 * 1024;
                         call_depth := 256 |};
  default_memory := {| static_bytes := 256 * 1024 * 1024;
                       peak_bytes := 512 * 1024 * 1024; event_log_bytes := 0 |};
  default_dma := {| coherent := false; require_iommu := false |};
  default_recovery := {| reset_timeout_ns := 5000000000;
                         quarantine_bytes := 16 * 1024 * 1024 |};
  default_recording := Disabled;
  default_optimization_level := OptDevelopment;
  default_diagnostics := {| sealed_deployment := false; warnings_as_errors := false;
                            watchdogs := true |};
|}.

Definition with_defaults (name : str) (m : BuildMode) : BuildProfile := {|
  profile_name := name;
  mode := m;
  comptime := default_comptime PROFILE_DEFAULTS;
  memory := default_memory PROFILE_DEFAULTS;
  dma := default_dma PROFILE_DEFAULTS;
  recovery := default_recovery PROFILE_DEFAULTS;
  recording := default_recording PROFILE_DEFAULTS;
  optimization := {| level := default_optimization_level PROFILE_DEFAULTS;
                     profile_data := None |};
  diagnostics := default_diagnostics PROFILE_DEFAULTS;
|}.
Definition development : BuildProfile := with_defaults (ascii "development") Development.

(** [BuildProfile::validate]. *)
Definition BuildProfile_validate (p : BuildProfile) : result ProfileError unit :=
  map_err InvalidName (validate_atom (profile_name p)) ≫= fun _ =>
  if (steps (comptime p) =? 0) || (memory_bytes (comptime p) =? 0)
     || (call_depth (comptime p) =? 0)
  then Err ZeroComptimeLimit
  else if (static_bytes (memory p) =? 0)
          || (peak_bytes (memory p) <? static_bytes (memory p))
  then Err InvalidMemoryLimits
  else if reset_timeout_ns (recovery p) =? 0 then Err ZeroResetTimeout
  else if negb (bool_decide (recording p = Disabled))
          && (event_log_bytes (memory p) =? 0)
  then Err MissingEventLogCapacity
  else Ok tt.

Definition mode_tag (m : BuildMode) : Z :=
  match m with Development => 1 | Release => 2 end.
Definition recording_tag (r : RecordingMode) : Z :=
  match r with Disabled => 0 | Recording => 1 | Replay => 2 end.
Definition optimization_tag (l : OptimizationLevel) : Z :=
  match l with OptNone => 0 | OptDevelopment => 1 | OptPerformance => 2 | OptSize => 3 end.

(** The writers append to the buffer they are given. *)
Definition push_u8 (bytes : list byte) (value : Z) : list byte := bytes ++ [byte_of_Z value].
Definition push_bool (bytes : list byte) (value : bool) : list byte :=
  push_u8 bytes (Z.b2z value).
Definition push_u32 (bytes : list byte) (value : Z) : list byte := bytes ++ u32_le value.
Definition push_u64 (bytes : list byte) (value : Z) : list byte := bytes ++ u64_le value.
Definition push_string (bytes : list byte) (value : str) : list byte :=
  push_u32 bytes (len value mod 2 ^ 32) ++ value.

(** [BuildProfile::canonical_bytes]. *)
Definition canonical_bytes (p : BuildProfile) : result ProfileError (list byte) :=
  BuildProfile_validate p ≫= fun _ =>
  let bytes := PROFILE_MAGIC in
  let bytes := push_u32 bytes PROFILE_ENCODING_VERSION in
  let bytes := push_string bytes (profile_name p) in
  let bytes := push_u8 bytes (mode_tag (mode p)) in
  let bytes := push_u64 bytes (steps (comptime p)) in
  let bytes := push_u64 bytes (memory_bytes (comptime p)) in
  let bytes := push_u32 bytes (call_depth (comptime p)) in
  let bytes := push_u64 bytes (static_bytes (memory p)) in
  let bytes := push_u64 bytes (peak_bytes (memory p)) in
  let bytes := push_u64 bytes (event_log_bytes (memory p)) in
  let bytes := push_bool bytes (coherent (dma p)) in
  let bytes := push_bool bytes (require_iommu (dma p)) in
  let bytes := push_u64 bytes (reset_timeout_ns (recovery p)) in
  let bytes := push_u64 bytes (quarantine_bytes (recovery p)) in
  let bytes := push_u8 bytes (recording_tag (recording p)) in
  let bytes := push_u8 bytes (optimization_tag (level (optimization p))) in
  let bytes := match profile_data (optimization p) with
               | Some digest => push_bool bytes true ++ as_bytes digest
               | None => push_bool bytes false
               end in
  let bytes := push_bool bytes (sealed_deployment (diagnostics p)) in
  let bytes := push_bool bytes (warnings_as_errors (diagnostics p)) in
  let bytes := push_bool bytes (watchdogs (diagnostics p)) in
  Ok bytes.

Record BuildIdentity := {
  compiler : Sha256Digest;
  language : LanguageRevision;
  target : TargetIdentity;
  target_package : Sha256Digest;
  standard_library : Sha256Digest;
  source_graph : Sha256Digest;
  request : Sha256Digest;
  profile_digest : Sha256Digest;  (* [BuildIdentity::profile] *)
}.
Record BuildConfiguration := {
  identity : BuildIdentity;
  profile : BuildProfile;
}.
#[export] Instance BuildIdentity_eq_dec : EqDecision BuildIdentity.
Proof. solve_decision. Defined.
#[export] Instance BuildConfiguration_eq_dec : EqDecision BuildConfiguration.
Proof. solve_decision. Defined.

Definition BuildConfiguration_validate (c : BuildConfiguration) : result ProfileError unit :=
  BuildProfile_validate (profile c).

(** [ValidatedBuildConfiguration]: the field is private. *)
Record ValidatedBuildConfiguration := Validated { as_configuration : BuildConfiguration }.

(** [digest.as_bytes().iter().all(|byte| *byte == 0)]. *)
Definition digest_is_zero (d : Sha256Digest) : bool :=
  forallb (fun b => bool_decide (b = x00)) (as_bytes d).

Definition seal_build_configuration (configuration : BuildConfiguration)
    (observed_profile_digest : Sha256Digest)
    : result ProfileError ValidatedBuildConfiguration :=
  BuildConfiguration_validate configuration ≫= fun _ =>
  let id := identity configuration in
  if negb (bool_decide (profile_digest id = observed_profile_digest))
  then Err (ProfileDigestMismatch (profile_digest id) observed_profile_digest)
  else if existsb digest_is_zero
            [compiler id; target_package id; standard_library id; source_graph id;
             request id; profile_digest id]
  then Err ZeroBuildDigest
  else Ok (Validated configuration).

(** ** Type invariants

    What the Rust types guarantee of every value: fixed-size digests, machine
    widths, UTF-8 text. *)

Definition digest_ok (d : Sha256Digest) : bool := (length (as_bytes d) =? 32)%nat.

Definition profile_ok (p : BuildProfile) : bool :=
  utf8_valid (profile_name p)
  && fits 64 (steps (comptime p)) && fits 64 (memory_bytes (comptime p))
  && fits 32 (call_depth (comptime p))
  && fits 64 (static_bytes (memory p)) && fits 64 (peak_bytes (memory p))
  && fits 64 (event_log_bytes (memory p))
  && fits 64 (reset_timeout_ns (recovery p)) && fits 64 (quarantine_bytes (recovery p))
  && match profile_data (optimization p) with Some d => digest_ok d | None => true end.

Definition identity_ok (i : BuildIdentity) : bool :=
  digest_ok (compiler i) && utf8_valid (target_as_str (target i))
  && digest_ok (target_package i) && digest_ok (standard_library i)
  && digest_ok (source_graph i) && digest_ok (request i) && digest_ok (profile_digest i).

Definition configuration_ok (c : BuildConfiguration) : bool :=
  identity_ok (identity c) && profile_ok (profile c).

(** ** Lemmas *)

#[export] Instance mode_tag_inj : Inj (=) (=) mode_tag.
Proof. by intros [] []. Qed.
#[export] Instance recording_tag_inj : Inj (=) (=) recording_tag.
Proof. by intros [] []. Qed.
#[export] Instance optimization_tag_inj : Inj (=) (=) optimization_tag.
Proof. by intros [] []. Qed.

Lemma mode_tag_range m : 0 <= mode_tag m < 256.
Proof. destruct m; simpl; lia. Qed.
Lemma recording_tag_range m : 0 <= recording_tag m < 256.
Proof. destruct m; simpl; lia. Qed.
Lemma optimization_tag_range m : 0 <= optimization_tag m < 256.
Proof. destruct m; simpl; lia. Qed.
Lemma b2z_range b : 0 <= Z.b2z b < 256.
Proof. destruct b; simpl; lia. Qed.
#[export] Instance b2z_inj : Inj (=) (=) Z.b2z.
Proof. by intros [] []. Qed.
#[export] Hint Resolve mode_tag_range recording_tag_range optimization_tag_range
  b2z_range : wrela.

Lemma validate_atom_Ok s u :
  validate_atom s = Ok u ->
  s <> [] /\ len s <= MAX_PROFILE_ATOM_BYTES
  /\ Forall (fun c => is_control c = false /\ is_whitespace c = false
                      /\ c <> 0x5C /\ c <> 0x2F /\ c <> 0x3A) (chars s).
Proof.
  unfold validate_atom. case_bool_decide; [done|].
  destruct (Z.ltb_spec MAX_PROFILE_ATOM_BYTES (len s)); [done|].
  destruct (find _ _) eqn:E; [done|]. intros _. split_and!; [done|done|].
  apply Forall_forall. intros c Hc%list_elem_of_In.
  pose proof (find_none _ _ E c Hc) as Hn. cbv beta in Hn. bool_to_prop. done.
Qed.

Lemma BuildProfile_validate_name p u :
  BuildProfile_validate p = Ok u -> validate_atom (profile_name p) = Ok tt.
Proof.
  unfold BuildProfile_validate. intros H. inv_ok.
  by match goal with H : validate_atom _ = Ok ?x |- _ => destruct x end.
Qed.

Lemma BuildProfile_validate_len p u :
  BuildProfile_validate p = Ok u -> len (profile_name p) <= MAX_PROFILE_ATOM_BYTES.
Proof.
  intros (_ & H & _)%BuildProfile_validate_name%validate_atom_Ok. done.
Qed.

(** The bytes of a profile after its name: shared with the backend protocol,
    whose transport format has the same field order. *)
Definition option_digest_bytes (d : option Sha256Digest) : list byte :=
  match d with Some d => byte_of_Z (Z.b2z true) :: as_bytes d | None => [byte_of_Z (Z.b2z false)] end.

Definition profile_layout (p : BuildProfile) : list byte :=
  counted (profile_name p)
  ++ byte_of_Z (mode_tag (mode p))
  :: u64_le (steps (comptime p)) ++ u64_le (memory_bytes (comptime p))
  ++ u32_le (call_depth (comptime p))
  ++ u64_le (static_bytes (memory p)) ++ u64_le (peak_bytes (memory p))
  ++ u64_le (event_log_bytes (memory p))
  ++ byte_of_Z (Z.b2z (coherent (dma p))) :: byte_of_Z (Z.b2z (require_iommu (dma p)))
  :: u64_le (reset_timeout_ns (recovery p)) ++ u64_le (quarantine_bytes (recovery p))
  ++ byte_of_Z (recording_tag (recording p))
  :: byte_of_Z (optimization_tag (level (optimization p)))
  :: option_digest_bytes (profile_data (optimization p))
  ++ byte_of_Z (Z.b2z (sealed_deployment (diagnostics p)))
  :: byte_of_Z (Z.b2z (warnings_as_errors (diagnostics p)))
  :: [byte_of_Z (Z.b2z (watchdogs (diagnostics p)))].

Lemma canonical_bytes_layout p bs :
  canonical_bytes p = Ok bs ->
  bs = PROFILE_MAGIC ++ u32_le PROFILE_ENCODING_VERSION ++ profile_layout p.
Proof.
  unfold canonical_bytes. intros H.
  apply result_bind_Ok in H as (u & Hv & [= <-]).
  apply BuildProfile_validate_len in Hv. pose proof (len_nonneg (profile_name p)).
  unfold push_bool, push_u8, push_u32, push_u64, push_string, push_u32, profile_layout,
    option_digest_bytes, counted.
  rewrite Z.mod_small by (unfold MAX_PROFILE_ATOM_BYTES in *; lia).
  destruct (profile_data _); rewrite <- ?app_assoc; cbn [app]; rewrite <- ?app_assoc; reflexivity.
Qed.

(** Peel the fields of two equal layouts off one by one. *)
Ltac peel_with tag E :=
  apply (peel_tag _ _ tag) in E; [destruct E as [? E]|auto with wrela|apply _].
Ltac peel_fields :=
  repeat (cbn [app] in *; rewrite <- ?app_assoc in *; match goal with
  | E : le_bytes _ _ ++ _ = le_bytes _ _ ++ _ |- _ =>
      apply peel_bytes in E; [destruct E as [? E]|simpl; lia|simpl; lia]
  | E : byte_of_Z (mode_tag _) :: _ = _ |- _ => peel_with mode_tag E
  | E : byte_of_Z (recording_tag _) :: _ = _ |- _ => peel_with recording_tag E
  | E : byte_of_Z (optimization_tag _) :: _ = _ |- _ => peel_with optimization_tag E
  | E : byte_of_Z (Z.b2z _) :: _ = byte_of_Z (Z.b2z _) :: _ |- _ => peel_with Z.b2z E
  end).

Lemma option_digest_prefix_free :
  PrefixFree (fun d => match d with Some d => digest_ok d = true | None => True end)
    option_digest_bytes.
Proof.
  intros [[a]|] [[b]|] ra rb Ha Hb E; cbn [option_digest_bytes app] in E;
    apply peel_tag in E as [Et E]; auto with wrela; try apply _; try done.
  apply Nat.eqb_eq in Ha, Hb. apply (peel_raw _ _ 32) in E as [E ->]; [|done..].
  simpl in E. by rewrite E.
Qed.

Lemma profile_layout_prefix_free :
  PrefixFree (fun p => profile_ok p = true /\ len (profile_name p) < 2 ^ 32) profile_layout.
Proof.
  intros p q ra rb [Hp Hpn] [Hq Hqn] E.
  unfold profile_layout in E. rewrite <- !app_assoc in E.
  apply peel_counted in E as [Hname E]; [|done..].
  unfold profile_ok in *. split_andb. cbn [app] in E. rewrite <- ?app_assoc in E.
  unfold u32_le, u64_le in E. peel_fields.
  cbn [app] in E. rewrite <- ?app_assoc in E.
  apply option_digest_prefix_free in E as [? E];
    [|by destruct (profile_data (optimization p))|by destruct (profile_data (optimization q))].
  cbn [app] in E. peel_fields. split; [|done].
  destruct p as [? ? [] [] [] [] ? [] []], q as [? ? [] [] [] [] ? [] []].
  simpl in *. congruence.
Qed.

(** ** Properties *)

(** C40: Two well-typed profiles that validate and have the same canonical
    bytes are the same profile: the byte sequence hashed into a build identity
    loses no policy field. *)
Theorem canonical_bytes_injective p q bs :
  profile_ok p = true -> profile_ok q = true ->
  canonical_bytes p = Ok bs -> canonical_bytes q = Ok bs -> p = q.
Proof.
  intros Hp Hq Ep Eq.
  assert (forall r, canonical_bytes r = Ok bs -> len (profile_name r) < 2 ^ 32) as Hlen.
  { intros r Hr. unfold canonical_bytes in Hr. apply result_bind_Ok in Hr as (u & Hv & _).
    apply BuildProfile_validate_len in Hv. unfold MAX_PROFILE_ATOM_BYTES in Hv. lia. }
  pose proof (canonical_bytes_layout _ _ Ep) as Lp.
  pose proof (canonical_bytes_layout _ _ Eq) as Lq.
  rewrite Lp in Lq. do 2 apply app_inv_head in Lq.
  eapply (profile_layout_prefix_free p q [] []); [eauto|eauto|by rewrite Lq].
Qed.

Lemma canonical_bytes_injective_witness :
  canonical_bytes development = canonical_bytes (with_defaults (ascii "development") Development)
  /\ development = with_defaults (ascii "development") Development.
Proof.
  split; [reflexivity|].
  eapply (canonical_bytes_injective _ _
    (match canonical_bytes development with Ok bs => bs | Err _ => [] end));
    vm_compute; reflexivity.
Defined.
