(* ===== verification/BackendProtocol.v ===== *)
(** The framed protocol between the frontend driver and the private backend
    ([crates/wrela-backend-protocol]): requests and responses as bounded,
    versioned, length-prefixed frames, with decoders that accept exactly what
    the encoders produce. *)

From Stdlib Require Import Strings.Byte.
From stdpp Require Import base numbers list option strings.
From S2P Require Import Prelude Bytes Text BuildModel.

#[local] Open Scope Z_scope.

Definition PROTOCOL_VERSION : Z := 5.
Definition MAX_FRAME_BYTES : Z := 16 * 1024 * 1024.
Definition MAX_TEXT_BYTES : Z := 1024 * 1024.
Definition MAGIC : list byte := ascii "WRELBEP" ++ [x00].

(** A message the source builds as a [String]: a literal, or the [Display] text
    of an error of the build model. *)
Inductive message :=
| Text (literal : string)
| ShownIdentity (error : IdentityError)
| ShownProfile (error : ProfileError).

Inductive ProtocolError :=
| InvalidMagic
| UnsupportedVersion (version : Z)
| UnexpectedMessageKind (kind : Z)
| FrameTooLarge (length : Z)
| FrameLengthMismatch (declared actual : Z)
| UnexpectedEnd
| TrailingBytes
| InvalidUtf8
| TextTooLong (length : Z)
| InvalidBoolean (tag : Z)
| InvalidEnumTag (name : string) (tag : Z)
| InvalidOutcomeTag (tag : Z)
| InvalidPath (reason : message)
| InvalidTarget (reason : message)
| InvalidProfile (reason : message)
| BuildConfigurationMismatch.

(** [BackendPath(String)]: the field is private. *)
Record BackendPath := { path_as_str : str }.
#[export] Instance BackendPath_eq_dec : EqDecision BackendPath.
Proof. solve_decision. Defined.

Definition is_dot_component (component : str) : bool :=
  bool_decide (component = []) || bool_decide (component = ascii ".")
  || bool_decide (component = ascii "..").

Definition BackendPath_new (value : str) : result ProtocolError BackendPath :=
  if bool_decide (value = []) then Err (InvalidPath (Text "path is empty"))
  else if contains_byte value x00
  then Err (InvalidPath (Text "path contains NUL"))
  else if starts_with_byte value "/" || starts_with_byte value "\" || contains_byte value ":"
  then Err (InvalidPath (Text "path must be relative to the private build directory"))
  else if contains_byte value "\"
  then Err (InvalidPath (Text "path must use canonical forward-slash separators"))
  else if existsb is_dot_component (split_byte "/" value)
  then Err (InvalidPath
         (Text "path contains an empty, current-directory, or parent component"))
  else Ok {| path_as_str := value |}.

Record BackendRequest := {
  request_id : Z;                       (* RequestId(u64) *)
  build : BuildConfiguration;
  wir : BackendPath;
  wir_digest : Sha256Digest;
  target_runtime_digest : Sha256Digest;
  target_runtime_bytes : Z;             (* u64 *)
  request_target_package : BackendPath;
  output : BackendPath;
  report : BackendPath;
}.

Record BackendSuccess := {
  artifact : BackendPath;
  artifact_digest : Sha256Digest;
  success_report : BackendPath;
  report_digest : Sha256Digest;
}.
Inductive BackendFailureKind :=
| Protocol | Input | Target | Verification | Codegen | Link | Report | Internal.
Record BackendFailure := { kind : BackendFailureKind; failure_message : str }.
Inductive BackendOutcome :=
| Success (success : BackendSuccess)
| Failure (failure : BackendFailure).
Record BackendResponse := { response_id : Z; outcome : BackendOutcome }.

Inductive MessageKind := Request | Response.
Definition MessageKind_as_u8 (k : MessageKind) : Z :=
  match k with Request => 1 | Response => 2 end.

(** ** Tags *)

Definition language_tag (r : LanguageRevision) : Z := match r with Design0_1 => 1 end.
Definition decode_language (tag : Z) : result ProtocolError LanguageRevision :=
  match tag with
  | 1 => Ok Design0_1
  | _ => Err (InvalidEnumTag "language revision" tag)
  end.
Definition mode_tag (m : BuildMode) : Z :=
  match m with Development => 1 | Release => 2 end.
Definition decode_mode (tag : Z) : result ProtocolError BuildMode :=
  match tag with
  | 1 => Ok Development
  | 2 => Ok Release
  | _ => Err (InvalidEnumTag "build mode" tag)
  end.
Definition recording_tag (r : RecordingMode) : Z :=
  match r with Disabled => 0 | Recording => 1 | Replay => 2 end.
Definition decode_recording (tag : Z) : result ProtocolError RecordingMode :=
  match tag with
  | 0 => Ok Disabled
  | 1 => Ok Recording
  | 2 => Ok Replay
  | _ => Err (InvalidEnumTag "recording mode" tag)
  end.
Definition optimization_tag (l : OptimizationLevel) : Z :=
  match l with OptNone => 0 | OptDevelopment => 1 | OptPerformance => 2 | OptSize => 3 end.
Definition decode_optimization (tag : Z) : result ProtocolError OptimizationLevel :=
  match tag with
  | 0 => Ok OptNone
  | 1 => Ok OptDevelopment
  | 2 => Ok OptPerformance
  | 3 => Ok OptSize
  | _ => Err (InvalidEnumTag "optimization level" tag)
  end.
Definition failure_kind_tag (k : BackendFailureKind) : Z :=
  match k with
  | Protocol => 0 | Input => 1 | Target => 2 | Verification => 3
  | Codegen => 4 | Link => 5 | Report => 6 | Internal => 7
  end.
Definition decode_failure_kind (tag : Z) : result ProtocolError BackendFailureKind :=
  match tag with
  | 0 => Ok Protocol
  | 1 => Ok Input
  | 2 => Ok Target
  | 3 => Ok Verification
  | 4 => Ok Codegen
  | 5 => Ok Link
  | 6 => Ok Report
  | 7 => Ok Internal
  | _ => Err (InvalidEnumTag "backend failure kind" tag)
  end.

(** ** Writing *)

Definition push_u8 (bytes : list byte) (value : Z) : list byte := bytes ++ [byte_of_Z value].
Definition push_bool (bytes : list byte) (value : bool) : list byte :=
  push_u8 bytes (Z.b2z value).
Definition push_u32 (bytes : list byte) (value : Z) : list byte := bytes ++ u32_le value.
Definition push_u64 (bytes : list byte) (value : Z) : list byte := bytes ++ u64_le value.
Definition push_digest (bytes : list byte) (value : Sha256Digest) : list byte :=
  bytes ++ as_bytes value.
Definition push_string (bytes : list byte) (value : str) : result ProtocolError (list byte) :=
  if MAX_TEXT_BYTES <? len value then Err (TextTooLong (len value))
  else
    length ← ok_or (try_u32 (len value)) (TextTooLong (len value));
    Ok (push_u32 bytes length ++ value).

Definition encode_identity (bytes : list byte) (identity : BuildIdentity)
    : result ProtocolError (list byte) :=
  let bytes := push_digest bytes (compiler identity) in
  let bytes := push_u8 bytes (language_tag (language identity)) in
  bytes ← push_string bytes (target_as_str (target identity));
  let bytes := push_digest bytes (target_package identity) in
  let bytes := push_digest bytes (standard_library identity) in
  let bytes := push_digest bytes (source_graph identity) in
  let bytes := push_digest bytes (BuildModel.request identity) in
  let bytes := push_digest bytes (profile_digest identity) in
  Ok bytes.

Definition encode_profile (bytes : list byte) (p : BuildProfile)
    : result ProtocolError (list byte) :=
  bytes ← push_string bytes (profile_name p);
  let bytes := push_u8 bytes (mode_tag (mode p)) in
  let bytes := push_u64 bytes (steps (comptime p)) in
  let bytes := push_u64 bytes (memory_bytes (comptime p)) in
  let bytes := push_u32 bytes (call_depth (comptime p)) in
  let bytes := push_u64 bytes (static_bytes (memory p)) in
  let bytes := push_u64 bytes (peak_bytes (memory p)) in
  let bytes := push_u64 bytes (event_log_bytes (memory p)) in
  let bytes := push_bool bytes (coherent (dma p)) in
  let bytes := push_bool bytes (require_iommu (dma p)) in
  let bytes := push_u64 bytes (reset_timeout_ns (recovery p)) in
  let bytes := push_u64 bytes (quarantine_bytes (recovery p)) in
  let bytes := push_u8 bytes (recording_tag (recording p)) in
  let bytes := push_u8 bytes (optimization_tag (level (optimization p))) in
  let bytes := match profile_data (optimization p) with
               | Some digest => push_digest (push_bool bytes true) digest
               | None => push_bool bytes false
               end in
  let bytes := push_bool bytes (sealed_deployment (diagnostics p)) in
  let bytes := push_bool bytes (warnings_as_errors (diagnostics p)) in
  let bytes := push_bool bytes (watchdogs (diagnostics p)) in
  Ok bytes.

Definition encode_configuration (bytes : list byte) (configuration : BuildConfiguration)
    : result ProtocolError (list byte) :=
  bytes ← encode_identity bytes (identity configuration);
  encode_profile bytes (profile configuration).

Definition frame (k : MessageKind) (payload : list byte) : result ProtocolError (list byte) :=
  if MAX_FRAME_BYTES <? len payload then Err (FrameTooLarge (len payload))
  else
    length ← ok_or (try_u32 (len payload)) (FrameTooLarge (len payload));
    let frame := MAGIC in
    let frame := push_u32 frame PROTOCOL_VERSION in
    let frame := push_u8 frame (MessageKind_as_u8 k) in
    let frame := push_u32 frame length in
    Ok (frame ++ payload).

Definition validate_runtime_evidence (digest : Sha256Digest) (bytes : Z)
    : result ProtocolError unit :=
  if (bytes =? 0) || digest_is_zero digest
  then Err (InvalidTarget
         (Text "target runtime digest and byte count must be nonzero"))
  else Ok tt.

Fixpoint push_strings (bytes : list byte) (values : list str)
    : result ProtocolError (list byte) :=
  match values with
  | [] => Ok bytes
  | value :: values => bytes ← push_string bytes value; push_strings bytes values
  end.

Definition encode_request (r : BackendRequest) (b : ValidatedBuildConfiguration)
    : result ProtocolError (list byte) :=
  if negb (bool_decide (build r = as_configuration b)) then Err BuildConfigurationMismatch
  else
    _ ← map_err (fun error => InvalidProfile (ShownProfile error))
          (BuildConfiguration_validate (build r));
    _ ← validate_runtime_evidence (target_runtime_digest r) (target_runtime_bytes r);
    let payload := push_u64 [] (request_id r) in
    payload ← encode_configuration payload (build r);
    let payload := push_digest payload (wir_digest r) in
    let payload := push_digest payload (target_runtime_digest r) in
    let payload := push_u64 payload (target_runtime_bytes r) in
    payload ← push_strings payload
                (map path_as_str [wir r; request_target_package r; output r; report r]);
    frame Request payload.

Definition encode_response (r : BackendResponse) : result ProtocolError (list byte) :=
  let payload := push_u64 [] (response_id r) in
  payload ←
    match outcome r with
    | Success success =>
        let payload := push_u8 payload 0 in
        payload ← push_string payload (path_as_str (artifact success));
        let payload := push_digest payload (artifact_digest success) in
        payload ← push_string payload (path_as_str (success_report success));
        Ok (push_digest payload (report_digest success))
    | Failure failure =>
        let payload := push_u8 payload 1 in
        let payload := push_u8 payload (failure_kind_tag (kind failure)) in
        push_string payload (failure_message failure)
    end;
  frame Response payload.

(** ** Reading *)

Record Reader := { remaining : list byte }.
Abbreviation reader := (stateT Reader (result ProtocolError)).

Definition Reader_new (bytes : list byte) : Reader := {| remaining := bytes |}.

Definition take (length : Z) : reader (list byte) := fun r =>
  if len (remaining r) <? length then Err UnexpectedEnd
  else Ok (take (Z.to_nat length) (remaining r),
           {| remaining := drop (Z.to_nat length) (remaining r) |}).

Definition u8 : reader Z :=
  bytes ← take 1;
  match bytes with
  | b :: _ => mret (Z_of_byte b)
  | [] => liftS (M := result ProtocolError) (Err UnexpectedEnd)
  end.
Definition boolean : reader bool :=
  tag ← u8;
  match tag with
  | 0 => mret false
  | 1 => mret true
  | _ => liftS (M := result ProtocolError) (Err (InvalidBoolean tag))
  end.
Definition u32 : reader Z := bytes ← take 4; mret (le_value bytes).
Definition u64 : reader Z := bytes ← take 8; mret (le_value bytes).
Definition digest : reader Sha256Digest := bytes ← take 32; mret (from_bytes bytes).
Definition string_ : reader str :=
  length ← u32;
  if MAX_TEXT_BYTES <? length
  then liftS (M := result ProtocolError) (Err (TextTooLong length))
  else
    bytes ← take length;
    if utf8_valid bytes then mret bytes
    else liftS (M := result ProtocolError) (Err InvalidUtf8).
Definition finish : reader unit := fun r =>
  match remaining r with [] => Ok (tt, r) | _ => Err TrailingBytes end.

(** [f(reader.read()?)?]. *)
Definition then_check {A B} (read : reader A) (check : A -> result ProtocolError B) : reader B :=
  a ← read; liftS (check a).

Definition unframe (bytes : list byte) (expected : MessageKind) : result ProtocolError Reader :=
  if MAX_FRAME_BYTES + len MAGIC + 9 <? len bytes then Err (FrameTooLarge (len bytes))
  else
    '(magic, r) ← take (len MAGIC) (Reader_new bytes);
    if negb (bool_decide (magic = MAGIC)) then Err InvalidMagic else
    '(version, r) ← u32 r;
    if negb (version =? PROTOCOL_VERSION) then Err (UnsupportedVersion version) else
    '(k, r) ← u8 r;
    if negb (k =? MessageKind_as_u8 expected) then Err (UnexpectedMessageKind k) else
    '(length, r) ← u32 r;
    if MAX_FRAME_BYTES <? length then Err (FrameTooLarge length) else
    if negb (len (remaining r) =? length)
    then Err (FrameLengthMismatch length (len (remaining r)))
    else Ok r.

Definition decode_identity : reader BuildIdentity :=
  compiler ← digest;
  language ← then_check u8 decode_language;
  target ← then_check string_
             (fun s => map_err (fun error => InvalidTarget (ShownIdentity error))
                         (TargetIdentity_new s));
  target_package ← digest;
  standard_library ← digest;
  source_graph ← digest;
  request ← digest;
  profile ← digest;
  mret {| compiler := compiler; language := language; target := target;
          target_package := target_package; standard_library := standard_library;
          source_graph := source_graph; BuildModel.request := request;
          profile_digest := profile |}.

Definition decode_profile_data : reader (option Sha256Digest) :=
  present ← boolean;
  if present : bool then d ← digest; mret (Some d) else mret None.

Definition decode_profile : reader BuildProfile :=
  name ← string_;
  mode ← then_check u8 decode_mode;
  steps ← u64;
  memory_bytes ← u64;
  call_depth ← u32;
  static_bytes ← u64;
  peak_bytes ← u64;
  event_log_bytes ← u64;
  coherent ← boolean;
  require_iommu ← boolean;
  reset_timeout_ns ← u64;
  quarantine_bytes ← u64;
  recording ← then_check u8 decode_recording;
  level ← then_check u8 decode_optimization;
  profile_data ← decode_profile_data;
  sealed_deployment ← boolean;
  warnings_as_errors ← boolean;
  watchdogs ← boolean;
  mret {|
    profile_name := name;
    mode := mode;
    comptime := {| steps := steps; memory_bytes := memory_bytes; call_depth := call_depth |};
    memory := {| static_bytes := static_bytes; peak_bytes := peak_bytes;
                 event_log_bytes := event_log_bytes |};
    dma := {| coherent := coherent; require_iommu := require_iommu |};
    recovery := {| reset_timeout_ns := reset_timeout_ns;
                   quarantine_bytes := quarantine_bytes |};
    recording := recording;
    optimization := {| level := level; profile_data := profile_data |};
    diagnostics := {| sealed_deployment := sealed_deployment;
                      warnings_as_errors := warnings_as_errors; watchdogs := watchdogs |};
  |}.

Definition decode_configuration : reader BuildConfiguration :=
  identity ← decode_identity;
  profile ← decode_profile;
  mret {| identity := identity; profile := profile |}.

Definition decode_request_body : reader BackendRequest :=
  request_id ← u64;
  build ← decode_configuration;
  wir_digest ← digest;
  target_runtime_digest ← digest;
  target_runtime_bytes ← u64;
  wir ← then_check string_ BackendPath_new;
  target_package ← then_check string_ BackendPath_new;
  output ← then_check string_ BackendPath_new;
  report ← then_check string_ BackendPath_new;
  _ ← finish;
  mret {| request_id := request_id; build := build; wir := wir; wir_digest := wir_digest;
          target_runtime_digest := target_runtime_digest;
          target_runtime_bytes := target_runtime_bytes;
          request_target_package := target_package; output := output; report := report |}.

Definition decode_request (bytes : list byte) : result ProtocolError BackendRequest :=
  r ← unframe bytes Request;
  '(request, _) ← decode_request_body r;
  _ ← map_err (fun error => InvalidProfile (ShownProfile error))
        (BuildConfiguration_validate (build request));
  _ ← validate_runtime_evidence (target_runtime_digest request) (target_runtime_bytes request);
  Ok request.

Definition decode_outcome : reader BackendOutcome :=
  tag ← u8;
  match tag with
  | 0 =>
      artifact ← then_check string_ BackendPath_new;
      artifact_digest ← digest;
      report ← then_check string_ BackendPath_new;
      report_digest ← digest;
      mret (Success {| artifact := artifact; artifact_digest := artifact_digest;
                       success_report := report; report_digest := report_digest |})
  | 1 =>
      kind ← then_check u8 decode_failure_kind;
      message ← string_;
      mret (Failure {| kind := kind; failure_message := message |})
  | _ => liftS (M := result ProtocolError) (Err (InvalidOutcomeTag tag))
  end.

Definition decode_response_body : reader BackendResponse :=
  request_id ← u64;
  outcome ← decode_outcome;
  _ ← finish;
  mret {| response_id := request_id; outcome := outcome |}.

Definition decode_response (bytes : list byte) : result ProtocolError BackendResponse :=
  r ← unframe bytes Response;
  '(response, _) ← decode_response_body r;
  Ok response.

(** ** Readers as exact inverses

    [Reads wf enc get]: [get] accepts precisely the encodings [enc a] of the
    values satisfying [wf], and consumes nothing else. *)

Class Reads {A} (wf : A -> Prop) (enc : A -> list byte) (get : reader A) : Prop :=
  reads r a r' : get r = Ok (a, r') <-> remaining r = enc a ++ remaining r' /\ wf a.
#[export] Hint Mode Reads + - - ! : typeclass_instances.

Lemma reads_bind {A B} wf enc (m : reader A) `{!Reads wf enc m} (f : A -> reader B) r b r' :
  (m ≫= f) r = Ok (b, r') <->
  exists a rest, remaining r = enc a ++ rest /\ wf a /\ f a (Reader_new rest) = Ok (b, r').
Proof.
  rewrite stateT_bind_Ok. split.
  - intros (a & [rest] & Hm & Hf). apply reads in Hm as [Hr Ha]. eauto.
  - intros (a & rest & Hr & Ha & Hf). exists a, (Reader_new rest).
    split; [|done]. by apply reads.
Qed.

Lemma reads_check {A B} wf enc (m : reader A) `{!Reads wf enc m}
    (check : A -> result ProtocolError B) (g : B -> A) (wf' : B -> Prop) :
  (forall a b, check a = Ok b <-> a = g b /\ wf' b) ->
  Reads (fun b => wf (g b) /\ wf' b) (fun b => enc (g b)) (then_check m check).
Proof.
  intros Hc r b r'. unfold then_check. rewrite (reads_bind wf enc m). split.
  - intros (a & rest & Hr & Ha & [Hb ->]%liftS_Ok).
    apply Hc in Hb as [-> Hb]. done.
  - intros (Hr & Ha & Hb). exists (g b), (remaining r'). split_and!; [done..|].
    apply liftS_Ok. split; [by apply Hc|by destruct r'].
Qed.

Lemma reads_run {A} wf enc (get : reader A) `{!Reads wf enc get} a rest :
  wf a -> get (Reader_new (enc a ++ rest)) = Ok (a, Reader_new rest).
Proof. intros Ha. by apply (reads (get := get)). Qed.

Lemma take_Ok n r bs r' :
  0 <= n -> take n r = Ok (bs, r') <-> remaining r = bs ++ remaining r' /\ len bs = n.
Proof.
  intros Hn. unfold take, len.
  destruct (Z.ltb_spec (Z.of_nat (length (remaining r))) n) as [Hlt|Hge].
  - split; [done|]. intros [Hr Hl]. rewrite Hr, length_app in Hlt. lia.
  - split.
    + intros [= <- <-]. cbn [remaining]. rewrite take_drop. split; [done|].
      rewrite length_take. lia.
    + destruct r as [r], r' as [r'']. cbn [remaining] in *. intros [-> Hl].
      rewrite take_app_length', drop_app_length' by lia. done.
Qed.

#[export] Instance u8_reads : Reads (fun z => 0 <= z < 256) (fun z => [byte_of_Z z]) u8.
Proof.
  intros r z r'. unfold u8. rewrite stateT_bind_Ok. split.
  - intros (bs & r1 & [Hr Hl]%take_Ok & Hz); [|lia].
    destruct bs as [|b [|? ?]]; try (autorewrite with wrela_simpl in Hl;
      pose proof (len_nonneg l); lia); [done|].
    injection Hz as <- <-. rewrite byte_of_Z_of_byte. split; [done|apply Z_of_byte_range].
  - intros [Hr Hz]. exists [byte_of_Z z], r'. split; [by apply take_Ok|].
    cbn. by rewrite Z_of_byte_of_Z, Z.mod_small by lia.
Qed.

Lemma fixed_reads n (get : reader (list byte)) :
  (forall r bs r', get r = Ok (bs, r') <-> remaining r = bs ++ remaining r' /\ length bs = n) ->
  Reads (fun z => 0 <= z < 256 ^ Z.of_nat n) (le_bytes n)
    (bytes ← get; mret (le_value bytes)).
Proof.
  intros Hg r z r'. rewrite stateT_bind_Ok. split.
  - intros (bs & r1 & [Hr Hl]%Hg & [= <- <-]). pose proof (le_value_bounds bs).
    subst n. by rewrite le_bytes_value.
  - intros [Hr Hz]. exists (le_bytes n z), r'. split; [apply Hg; by rewrite length_le_bytes|].
    cbn. by rewrite le_value_bytes.
Qed.

Lemma take_nat n r bs r' :
  take (Z.of_nat n) r = Ok (bs, r') <-> remaining r = bs ++ remaining r' /\ length bs = n.
Proof. rewrite take_Ok by lia. unfold len. intuition lia. Qed.

#[export] Instance u32_reads : Reads (fun z => 0 <= z < 2 ^ 32) u32_le u32.
Proof. exact (fixed_reads 4 _ (take_nat 4)). Qed.
#[export] Instance u64_reads : Reads (fun z => 0 <= z < 2 ^ 64) u64_le u64.
Proof. exact (fixed_reads 8 _ (take_nat 8)). Qed.

#[export] Instance digest_reads : Reads (fun d => digest_ok d = true) as_bytes digest.
Proof.
  intros r [d] r'. unfold digest, digest_ok. rewrite stateT_bind_Ok, Nat.eqb_eq. cbn. split.
  - by intros (bs & r1 & [Hr Hl]%(take_nat 32) & [= -> ->]).
  - intros [Hr Hd]. exists d, r'. split; [by apply (take_nat 32)|done].
Qed.

#[export] Instance boolean_reads :
  Reads (fun _ => True) (fun b => [byte_of_Z (Z.b2z b)]) boolean.
Proof.
  intros r b r'. unfold boolean. rewrite (reads_bind _ _ u8). split.
  - intros (z & rest & Hr & Hz & Hb).
    destruct z as [|[]|]; cbn in Hb; try discriminate Hb; injection Hb as <- <-; done.
  - intros [Hr _]. exists (Z.b2z b), (remaining r'). split_and!; [done|by destruct b|by destruct b|].
    by destruct b, r'.
Qed.

Definition text_ok (s : str) : Prop := utf8_valid s = true /\ len s <= MAX_TEXT_BYTES.

#[export] Instance string_reads :
  Reads text_ok counted string_.
Proof.
  intros r s r'. unfold string_, text_ok, counted. rewrite (reads_bind _ _ u32). split.
  - intros (n & rest & Hr & Hn & Hs).
    destruct (Z.ltb_spec MAX_TEXT_BYTES n); [done|].
    apply stateT_bind_Ok in Hs as (bs & r1 & [Hr1 Hl]%take_Ok & Hs); [|lia].
    destruct (utf8_valid bs) eqn:E; [|done]. injection Hs as <- <-.
    cbn [remaining Reader_new] in Hr1. subst n rest. rewrite <- app_assoc. done.
  - intros (Hr & Hu & Hl). exists (len s), (s ++ remaining r').
    pose proof (len_nonneg s). unfold MAX_TEXT_BYTES in *.
    split_and!; [by rewrite app_assoc|lia|lia|].
    destruct (Z.ltb_spec (1024 * 1024) (len s)); [lia|].
    rewrite (stateT_bind_step _ _ _ s r') by by apply take_Ok.
    by rewrite Hu.
Qed.

Lemma finish_Ok r r' u : finish r = Ok (u, r') <-> remaining r = [] /\ r' = r /\ u = tt.
Proof. unfold finish. destruct (remaining r), u; naive_solver. Qed.

(** *** Tags and checked strings *)

(** A tag decoder that is exactly the inverse of a tag function. *)
Definition decodes_tag {A} (decode : Z -> result ProtocolError A) (tag : A -> Z) : Prop :=
  forall z a, decode z = Ok a <-> z = tag a /\ True.

Ltac solve_tag decode :=
  intros z a; split;
  [ unfold decode; intros H; repeat case_match; inv_ok; by split
  | intros [-> _]; by destruct a ].

Lemma decode_language_tag : decodes_tag decode_language language_tag.
Proof. solve_tag decode_language. Qed.
Lemma decode_mode_tag : decodes_tag decode_mode mode_tag.
Proof. solve_tag decode_mode. Qed.
Lemma decode_recording_tag : decodes_tag decode_recording recording_tag.
Proof. solve_tag decode_recording. Qed.
Lemma decode_optimization_tag : decodes_tag decode_optimization optimization_tag.
Proof. solve_tag decode_optimization. Qed.
Lemma decode_failure_kind_tag : decodes_tag decode_failure_kind failure_kind_tag.
Proof. solve_tag decode_failure_kind. Qed.

#[export] Instance language_reads : Reads _ _ (then_check u8 decode_language) :=
  reads_check _ _ u8 _ _ _ decode_language_tag.
#[export] Instance mode_reads : Reads _ _ (then_check u8 decode_mode) :=
  reads_check _ _ u8 _ _ _ decode_mode_tag.
#[export] Instance recording_reads : Reads _ _ (then_check u8 decode_recording) :=
  reads_check _ _ u8 _ _ _ decode_recording_tag.
#[export] Instance optimization_reads : Reads _ _ (then_check u8 decode_optimization) :=
  reads_check _ _ u8 _ _ _ decode_optimization_tag.
#[export] Instance failure_kind_reads : Reads _ _ (then_check u8 decode_failure_kind) :=
  reads_check _ _ u8 _ _ _ decode_failure_kind_tag.

Definition target_ok (t : TargetIdentity) : Prop :=
  text_ok (target_as_str t) /\ TargetIdentity_new (target_as_str t) = Ok t.

#[export] Instance target_reads :
  Reads (fun t => text_ok (target_as_str t) /\ TargetIdentity_new (target_as_str t) = Ok t)
    (fun t => counted (target_as_str t))
    (then_check string_ (fun s => map_err (fun e => InvalidTarget (ShownIdentity e))
                                    (TargetIdentity_new s))).
Proof.
  refine (reads_check text_ok counted string_ _ target_as_str
    (fun t => TargetIdentity_new (target_as_str t) = Ok t) _).
  intros s t. rewrite map_err_Ok. split.
  - intros H. assert (s = target_as_str t) as ->; [|done].
    unfold TargetIdentity_new in H. inv_ok. done.
  - by intros [-> ?].
Qed.

Lemma BackendPath_new_str s p : BackendPath_new s = Ok p -> path_as_str p = s.
Proof. unfold BackendPath_new. intros H. repeat case_match; inv_ok; done. Qed.

Definition path_ok (p : BackendPath) : Prop :=
  text_ok (path_as_str p) /\ BackendPath_new (path_as_str p) = Ok p.

#[export] Instance path_reads :
  Reads path_ok (fun p => counted (path_as_str p))
    (then_check string_ BackendPath_new).
Proof.
  refine (reads_check text_ok counted string_ _ path_as_str
    (fun p => BackendPath_new (path_as_str p) = Ok p) _).
  intros s p. split.
  - intros H. by rewrite (BackendPath_new_str _ _ H).
  - by intros [-> ?].
Qed.

Lemma mret_Ok {A} (a b : A) (r r' : Reader) :
  (mret a : reader A) r = Ok (b, r') <-> a = b /\ r = r'.
Proof. split; [by intros [= -> ->]|by intros [-> ->]]. Qed.

(** Take a successful reader apart, or assemble one, one read at a time. *)
Ltac unread H :=
  repeat match type of H with
  | (?m ≫= _) _ = Ok _ =>
      apply (reads_bind _ _ m) in H; destruct H as (? & ? & ? & ? & H);
      cbn [remaining Reader_new] in *
  end.
Ltac start_reread r r' :=
  destruct r as [r], r' as [r']; cbn [remaining] in *; subst r; norm_app.
Ltac reread :=
  repeat match goal with
  | |- (?m ≫= _) _ = Ok _ =>
      apply (reads_bind _ _ m); eexists _, _;
      split; [cbn [remaining Reader_new app]; reflexivity|];
      split; [done|]
  end.

Definition identity_layout (i : BuildIdentity) : list byte :=
  as_bytes (compiler i) ++ byte_of_Z (language_tag (language i))
  :: counted (target_as_str (target i))
  ++ as_bytes (target_package i) ++ as_bytes (standard_library i)
  ++ as_bytes (source_graph i) ++ as_bytes (BuildModel.request i)
  ++ as_bytes (profile_digest i).

Definition wire_identity_ok (i : BuildIdentity) : Prop :=
  identity_ok i = true /\ target_ok (target i).

Lemma tag_ranges :
  (forall r, 0 <= language_tag r < 256) /\ (forall m, 0 <= mode_tag m < 256)
  /\ (forall r, 0 <= recording_tag r < 256) /\ (forall l, 0 <= optimization_tag l < 256)
  /\ (forall k, 0 <= failure_kind_tag k < 256).
Proof. split_and!; intros []; simpl; lia. Qed.

#[export] Instance identity_reads : Reads wire_identity_ok identity_layout decode_identity.
Proof.
  intros r i r'. unfold decode_identity, wire_identity_ok, identity_layout, target_ok. split.
  - intros H. unread H. apply mret_Ok in H as [<- <-]. simplify_eq. cbn.
    split; [match goal with E : remaining r = _ |- _ => rewrite E end; by norm_app|].
    unfold identity_ok, text_ok in *. cbn. destruct_and!.
    split; [|done]. rewrite !andb_true_iff. done.
  - intros (Hr & Hi & Ht & Hn). unfold identity_ok in Hi. split_andb.
    destruct tag_ranges as (? & _). start_reread r r'. destruct i. cbn in *.
    reread. done.
Qed.

(** [profile_layout] with this crate's tags. *)
Lemma tags_agree :
  (forall m, BuildModel.mode_tag m = mode_tag m)
  /\ (forall r, BuildModel.recording_tag r = recording_tag r)
  /\ (forall l, BuildModel.optimization_tag l = optimization_tag l).
Proof. split_and!; by intros []. Qed.

Definition wire_profile_ok (p : BuildProfile) : Prop :=
  profile_ok p = true /\ len (profile_name p) <= MAX_TEXT_BYTES.

#[export] Instance profile_data_reads :
  Reads (fun d => match d with Some d => digest_ok d | None => true end = true)
    option_digest_bytes decode_profile_data.
Proof.
  intros [r] d [r']. unfold decode_profile_data. split.
  - intros H. apply (reads_bind _ _ boolean) in H as ([] & rest & Hr & _ & H).
    + unread H. apply mret_Ok in H as [<- [= <-]]. cbn in *. subst. by norm_app.
    + apply mret_Ok in H as [<- [= <-]]. cbn in *. by subst.
  - cbn [remaining]. intros [-> Hd]. apply (reads_bind _ _ boolean).
    destruct d as [d|]; eexists _, _; (split; [reflexivity|]; split; [done|]).
    + by reread.
    + done.
Qed.

#[export] Instance profile_reads : Reads wire_profile_ok profile_layout decode_profile.
Proof.
  intros r p r'. unfold decode_profile, wire_profile_ok, profile_layout.
  destruct tags_agree as (Hm & Hrec & Hopt), tag_ranges as (_ & Rm & Rr & Ro & _).
  split.
  - intros H. unread H. apply mret_Ok in H as [<- <-]. simplify_eq. cbn.
    rewrite Hm, Hrec, Hopt.
    split; [match goal with E : remaining r = _ |- _ => rewrite E end; by norm_app|].
    unfold profile_ok, text_ok in *. cbn. destruct_and!.
    split; [|done]. rewrite !andb_true_iff, !fits_spec. split_and!; done.
  - intros (Hr & Hp & Hn). unfold profile_ok in Hp. split_andb.
    rewrite Hm, Hrec, Hopt in Hr. start_reread r r'.
    destruct p as [? ? [] [] [] [] ? [] []]. cbn in *.
    reread. done.
Qed.

Definition wire_configuration_ok (c : BuildConfiguration) : Prop :=
  wire_identity_ok (identity c) /\ wire_profile_ok (profile c).
Definition configuration_layout (c : BuildConfiguration) : list byte :=
  identity_layout (identity c) ++ profile_layout (profile c).

#[export] Instance configuration_reads :
  Reads wire_configuration_ok configuration_layout decode_configuration.
Proof.
  intros r c r'. unfold decode_configuration, wire_configuration_ok, configuration_layout. split.
  - intros H. unread H. apply mret_Ok in H as [<- <-]. simplify_eq. cbn.
    split; [match goal with E : remaining r = _ |- _ => rewrite E end; by norm_app|done].
  - intros (Hr & Hi & Hp). start_reread r r'. destruct c. cbn in *. reread. done.
Qed.

(** ** Messages *)

Definition wire_request_ok (q : BackendRequest) : Prop :=
  0 <= request_id q < 2 ^ 64 /\ wire_configuration_ok (build q)
  /\ digest_ok (wir_digest q) = true /\ digest_ok (target_runtime_digest q) = true
  /\ 0 <= target_runtime_bytes q < 2 ^ 64
  /\ path_ok (wir q) /\ path_ok (request_target_package q)
  /\ path_ok (output q) /\ path_ok (report q).

Definition request_layout (q : BackendRequest) : list byte :=
  u64_le (request_id q) ++ configuration_layout (build q)
  ++ as_bytes (wir_digest q) ++ as_bytes (target_runtime_digest q)
  ++ u64_le (target_runtime_bytes q)
  ++ counted (path_as_str (wir q)) ++ counted (path_as_str (request_target_package q))
  ++ counted (path_as_str (output q)) ++ counted (path_as_str (report q)).

Lemma decode_request_body_Ok r q r' :
  decode_request_body r = Ok (q, r') <->
  remaining r = request_layout q /\ remaining r' = [] /\ wire_request_ok q.
Proof.
  unfold decode_request_body, wire_request_ok, request_layout. split.
  - intros H. unread H. apply stateT_bind_Ok in H as (? & ? & Hf & H).
    apply finish_Ok in Hf as (Hf & -> & ->). apply mret_Ok in H as [<- <-].
    cbn in *. simplify_eq. cbn.
    split_and!; try done; try lia.
    match goal with E : remaining r = _ |- _ => rewrite E end. by rewrite app_nil_r.
  - intros (Hr & Hr' & Hq). destruct_and! Hq.
    rewrite <- (app_nil_r (counted (path_as_str (report q)))) in Hr.
    start_reread r r'. subst. destruct q. cbn in *. reread. done.
Qed.

Definition outcome_ok (o : BackendOutcome) : Prop :=
  match o with
  | Success s => path_ok (artifact s) /\ digest_ok (artifact_digest s) = true
                 /\ path_ok (success_report s) /\ digest_ok (report_digest s) = true
  | Failure f => text_ok (failure_message f)
  end.
Definition outcome_layout (o : BackendOutcome) : list byte :=
  match o with
  | Success s => byte_of_Z 0 :: counted (path_as_str (artifact s))
                 ++ as_bytes (artifact_digest s)
                 ++ counted (path_as_str (success_report s)) ++ as_bytes (report_digest s)
  | Failure f => byte_of_Z 1 :: byte_of_Z (failure_kind_tag (kind f))
                 :: counted (failure_message f)
  end.

#[export] Instance outcome_reads : Reads outcome_ok outcome_layout decode_outcome.
Proof.
  intros r o r'. unfold decode_outcome. destruct tag_ranges as (_ & _ & _ & _ & Hk). split.
  - intros H. apply (reads_bind _ _ u8) in H as (z & rest & Hr & Hz & H).
    repeat case_match; try done; unread H; apply mret_Ok in H as [<- <-]; simplify_eq; cbn in *;
      (split; [match goal with E : remaining r = _ |- _ => rewrite E end; by norm_app|done]).
  - intros [Hr Ho]. destruct o as [s|f]; cbn [outcome_layout] in Hr; cbn [outcome_ok] in Ho;
      start_reread r r'; apply (reads_bind _ _ u8); eexists _, _;
      (split; [reflexivity|]); (split; [lia|]).
    + destruct_and! Ho. destruct s. cbn in *. reread. done.
    + destruct f. cbn in *. reread. done.
Qed.

Definition wire_response_ok (s : BackendResponse) : Prop :=
  0 <= response_id s < 2 ^ 64 /\ outcome_ok (outcome s).
Definition response_layout (s : BackendResponse) : list byte :=
  u64_le (response_id s) ++ outcome_layout (outcome s).

Lemma decode_response_body_Ok r s r' :
  decode_response_body r = Ok (s, r') <->
  remaining r = response_layout s /\ remaining r' = [] /\ wire_response_ok s.
Proof.
  unfold decode_response_body, wire_response_ok, response_layout. split.
  - intros H. unread H. apply stateT_bind_Ok in H as (? & ? & Hf & H).
    apply finish_Ok in Hf as (Hf & -> & ->). apply mret_Ok in H as [<- <-].
    cbn in *. simplify_eq. cbn. rewrite app_nil_r in *. done.
  - intros (Hr & Hr' & Hs & Ho).
    rewrite <- (app_nil_r (outcome_layout (outcome s))) in Hr.
    start_reread r r'. subst. destruct s. cbn in *. reread. done.
Qed.

(** *** Frames *)

Definition frame_layout (k : MessageKind) (payload : list byte) : list byte :=
  MAGIC ++ u32_le PROTOCOL_VERSION ++ byte_of_Z (MessageKind_as_u8 k) :: counted payload.

Lemma frame_Ok k payload bytes :
  frame k payload = Ok bytes <->
  len payload <= MAX_FRAME_BYTES /\ bytes = frame_layout k payload.
Proof.
  unfold frame, frame_layout, push_u32, push_u8, counted.
  destruct (Z.ltb_spec MAX_FRAME_BYTES (len payload)); [naive_solver lia|].
  assert (try_u32 (len payload) = Some (len payload)) as ->
    by (apply try_u32_Some; unfold MAX_FRAME_BYTES, u32_max in *; lia).
  cbn [ok_or mbind result_bind]. norm_app. naive_solver.
Qed.

Lemma MessageKind_range k : 0 <= MessageKind_as_u8 k < 256.
Proof. destruct k; simpl; lia. Qed.

Lemma unframe_Ok bytes k r :
  unframe bytes k = Ok r <->
  len (remaining r) <= MAX_FRAME_BYTES /\ bytes = frame_layout k (remaining r).
Proof.
  unfold unframe, frame_layout, counted. destruct r as [payload]. cbn [remaining].
  destruct (Z.ltb_spec (MAX_FRAME_BYTES + len MAGIC + 9) (len bytes)) as [Hlong|Hlen].
  { split; [done|]. intros [Hl ->]. revert Hlong.
    autorewrite with wrela_simpl. change (len MAGIC) with 8. lia. }
  split.
  - intros H. apply result_bind_Ok in H as ([magic r1] & Hm & H).
    apply take_Ok in Hm as [Hm _]; [|done]. case_bool_decide; [|done]. subst magic.
    cbn [negb] in H. apply result_bind_Ok in H as ([v r2] & Hv & H). apply reads in Hv as [Hv _].
    destruct (Z.eqb_spec v PROTOCOL_VERSION) as [->|]; [|done]. cbn [negb] in H.
    apply result_bind_Ok in H as ([k' r3] & Hk & H). apply reads in Hk as [Hk _].
    destruct (Z.eqb_spec k' (MessageKind_as_u8 k)) as [->|]; [|done]. cbn [negb] in H.
    apply result_bind_Ok in H as ([n r4] & Hn & H). apply reads in Hn as [Hn _].
    destruct (Z.ltb_spec MAX_FRAME_BYTES n); [done|].
    destruct (Z.eqb_spec (len (remaining r4)) n); [|done]. injection H as ->.
    cbn [remaining Reader_new] in *. subst. split; [done|].
    rewrite Hv, Hk, Hn. by norm_app.
  - intros [Hl ->].
    pose proof (len_nonneg payload) as Hp.
    assert (take (len MAGIC) (Reader_new (MAGIC ++ u32_le PROTOCOL_VERSION
      ++ [byte_of_Z (MessageKind_as_u8 k)] ++ u32_le (len payload) ++ payload))
      = Ok (MAGIC, Reader_new (u32_le PROTOCOL_VERSION
      ++ [byte_of_Z (MessageKind_as_u8 k)] ++ u32_le (len payload) ++ payload))) as Hm
      by by apply take_Ok.
    cbn [app] in Hm. rewrite Hm.
    cbn [mbind result_bind]. rewrite bool_decide_true by done. cbn [negb].
    rewrite (reads_run _ _ u32 PROTOCOL_VERSION) by done.
    cbn [mbind result_bind]. rewrite Z.eqb_refl. cbn [negb].
    pose proof (reads_run _ _ u8 (MessageKind_as_u8 k) (u32_le (len payload) ++ payload)
      (MessageKind_range k)) as Hk. cbn [app] in Hk. rewrite Hk.
    cbn [mbind result_bind]. rewrite Z.eqb_refl. cbn [negb].
    rewrite (reads_run _ _ u32 (len payload)) by (unfold MAX_FRAME_BYTES in *; lia).
    cbn [mbind result_bind remaining Reader_new].
    destruct (Z.ltb_spec MAX_FRAME_BYTES (len payload)); [lia|]. by rewrite Z.eqb_refl.
Qed.

(** *** Encoders write the layouts *)

Lemma push_string_Ok b s out :
  push_string b s = Ok out <-> len s <= MAX_TEXT_BYTES /\ out = b ++ counted s.
Proof.
  unfold push_string, push_u32, counted.
  destruct (Z.ltb_spec MAX_TEXT_BYTES (len s)); [naive_solver lia|].
  assert (try_u32 (len s) = Some (len s)) as ->
    by (apply try_u32_Some; unfold MAX_TEXT_BYTES, u32_max in *; lia).
  cbn [ok_or mbind result_bind]. norm_app. naive_solver.
Qed.

Lemma encode_identity_Ok b i out :
  encode_identity b i = Ok out <->
  len (target_as_str (target i)) <= MAX_TEXT_BYTES /\ out = b ++ identity_layout i.
Proof.
  unfold encode_identity, identity_layout, push_digest, push_u8.
  rewrite result_bind_Ok. setoid_rewrite push_string_Ok. norm_app. split.
  - intros (? & [? ->] & [= <-]). by norm_app.
  - intros [? ->]. eexists. split; [done|]. by norm_app.
Qed.

Lemma encode_profile_Ok b p out :
  encode_profile b p = Ok out <->
  len (profile_name p) <= MAX_TEXT_BYTES /\ out = b ++ profile_layout p.
Proof.
  unfold encode_profile, profile_layout, push_digest, push_bool, push_u8, push_u32, push_u64.
  rewrite result_bind_Ok. setoid_rewrite push_string_Ok. split.
  - intros (? & [? ->] & [= <-]). split; [done|].
    destruct (profile_data _); unfold option_digest_bytes; by norm_app.
  - intros [? ->]. eexists. split; [done|].
    destruct (profile_data _); unfold option_digest_bytes; by norm_app.
Qed.

Lemma encode_configuration_Ok b c out :
  encode_configuration b c = Ok out <->
  len (target_as_str (target (identity c))) <= MAX_TEXT_BYTES
  /\ len (profile_name (profile c)) <= MAX_TEXT_BYTES
  /\ out = b ++ configuration_layout c.
Proof.
  unfold encode_configuration, configuration_layout. rewrite result_bind_Ok.
  setoid_rewrite encode_identity_Ok. setoid_rewrite encode_profile_Ok.
  rewrite app_assoc. naive_solver.
Qed.

Lemma push_strings_Ok b ss out :
  push_strings b ss = Ok out <->
  Forall (fun s => len s <= MAX_TEXT_BYTES) ss /\ out = b ++ flat_map counted ss.
Proof.
  revert b. induction ss as [|s ss IH]; intros b; cbn [push_strings flat_map].
  - rewrite app_nil_r, Forall_nil. split; [by intros [= ->]|by intros [_ ->]].
  - rewrite result_bind_Ok, Forall_cons. setoid_rewrite push_string_Ok. setoid_rewrite IH.
    rewrite app_assoc. naive_solver.
Qed.

(** ** Properties *)

(** What the encoders demand of a message beyond its types. *)
Definition encodable_request (q : BackendRequest) : Prop :=
  len (request_layout q) <= MAX_FRAME_BYTES
  /\ BuildConfiguration_validate (build q) = Ok tt
  /\ validate_runtime_evidence (target_runtime_digest q) (target_runtime_bytes q) = Ok tt
  /\ len (target_as_str (target (identity (build q)))) <= MAX_TEXT_BYTES
  /\ len (profile_name (profile (build q))) <= MAX_TEXT_BYTES
  /\ Forall (fun p => len (path_as_str p) <= MAX_TEXT_BYTES)
       [wir q; request_target_package q; output q; report q].

Lemma encode_request_Ok q bytes :
  encode_request q (Validated (build q)) = Ok bytes <->
  bytes = frame_layout Request (request_layout q) /\ encodable_request q.
Proof.
  unfold encode_request, encodable_request. cbn [as_configuration].
  rewrite bool_decide_true by done. cbn [negb].
  set (paths := map path_as_str _).
  assert (Hpay : push_u64 (push_digest (push_digest (push_u64 [] (request_id q)
      ++ configuration_layout (build q)) (wir_digest q)) (target_runtime_digest q))
      (target_runtime_bytes q) ++ flat_map counted paths = request_layout q).
  { unfold request_layout, push_u64, push_digest, paths. cbn [flat_map map].
    rewrite app_nil_r. by norm_app. }
  split.
  - intros H.
    apply result_bind_Ok in H as ([] & Hv%map_err_Ok & H).
    apply result_bind_Ok in H as ([] & He & H).
    apply result_bind_Ok in H as (p1 & (Ht & Hn & ->)%encode_configuration_Ok & H).
    apply result_bind_Ok in H as (p2 & [Hs ->]%push_strings_Ok & [Hf ->]%frame_Ok).
    rewrite Hpay in *. unfold paths in Hs. rewrite Forall_map in Hs. done.
  - intros (-> & Hf & Hv & He & Ht & Hn & Hs).
    rewrite Hv, He. cbn [map_err mbind result_bind].
    apply result_bind_Ok. eexists. split; [by apply encode_configuration_Ok|].
    apply result_bind_Ok. eexists. split; [apply push_strings_Ok; split; [|done]|].
    + unfold paths. by rewrite Forall_map.
    + rewrite <- Hpay in *. by apply frame_Ok.
Qed.

Lemma decode_request_Ok bytes q :
  decode_request bytes = Ok q <->
  bytes = frame_layout Request (request_layout q)
  /\ len (request_layout q) <= MAX_FRAME_BYTES
  /\ BuildConfiguration_validate (build q) = Ok tt
  /\ validate_runtime_evidence (target_runtime_digest q) (target_runtime_bytes q) = Ok tt
  /\ wire_request_ok q.
Proof.
  unfold decode_request. split.
  - intros H. apply result_bind_Ok in H as (r & [Hl ->]%unframe_Ok & H).
    apply result_bind_Ok in H as ([q' r'] & Hb & H).
    apply decode_request_body_Ok in Hb as (Hr & _ & Hq). rewrite Hr in *.
    apply result_bind_Ok in H as ([] & Hv%map_err_Ok & H).
    apply result_bind_Ok in H as ([] & He & [= ->]). done.
  - intros (-> & Hl & Hv & He & Hq).
    apply result_bind_Ok. exists (Reader_new (request_layout q)).
    split; [by apply unframe_Ok|].
    apply result_bind_Ok. exists (q, Reader_new []).
    split; [by apply decode_request_body_Ok|]. by rewrite Hv, He.
Qed.

(** The invariants the Rust types and the private constructors guarantee. *)
Definition request_typed (q : BackendRequest) : Prop :=
  0 <= request_id q < 2 ^ 64 /\ configuration_ok (build q) = true
  /\ TargetIdentity_new (target_as_str (target (identity (build q))))
     = Ok (target (identity (build q)))
  /\ digest_ok (wir_digest q) = true /\ digest_ok (target_runtime_digest q) = true
  /\ 0 <= target_runtime_bytes q < 2 ^ 64
  /\ Forall (fun p => utf8_valid (path_as_str p) = true
                      /\ BackendPath_new (path_as_str p) = Ok p)
       [wir q; request_target_package q; output q; report q].

Lemma wire_request_typed q :
  wire_request_ok q <->
  request_typed q
  /\ len (target_as_str (target (identity (build q)))) <= MAX_TEXT_BYTES
  /\ len (profile_name (profile (build q))) <= MAX_TEXT_BYTES
  /\ Forall (fun p => len (path_as_str p) <= MAX_TEXT_BYTES)
       [wir q; request_target_package q; output q; report q].
Proof.
  unfold wire_request_ok, request_typed, wire_configuration_ok, wire_identity_ok,
    wire_profile_ok, target_ok, path_ok, text_ok, configuration_ok.
  rewrite !Forall_cons, !Forall_nil, andb_true_iff.
  assert (identity_ok (identity (build q)) = true ->
    utf8_valid (target_as_str (target (identity (build q)))) = true) as Hu.
  { unfold identity_ok. intros. by split_andb. }
  tauto.
Qed.

(** C9: Encoding a well-typed request and decoding the frame gives the request
    back. *)
Theorem request_round_trip q bytes :
  request_typed q ->
  encode_request q (Validated (build q)) = Ok bytes ->
  decode_request bytes = Ok q.
Proof.
  intros Ht (-> & Hl & Hv & He & Htt & Hn & Hp)%encode_request_Ok.
  apply decode_request_Ok. split_and!; try done; by apply wire_request_typed.
Qed.

(** C20: The decoder accepts only canonical frames: whatever it decodes is a
    well-typed request whose encoding is, byte for byte, the input. *)
Theorem request_canonical bytes q :
  decode_request bytes = Ok q ->
  request_typed q /\ encode_request q (Validated (build q)) = Ok bytes.
Proof.
  intros (-> & Hl & Hv & He & Hq)%decode_request_Ok.
  apply wire_request_typed in Hq as (Ht & Htt & Hn & Hp). split; [done|].
  apply encode_request_Ok. done.
Qed.

(** A request of the crate's own tests. *)
Definition fixture_digest (z : Z) : Sha256Digest := from_bytes (replicate 32 (byte_of_Z z)).
Definition request_fixture : BackendRequest := {|
  request_id := 7;
  build := {|
    identity := {|
      compiler := fixture_digest 1; language := Design0_1; target := aarch64_qemu_virt_uefi;
      target_package := fixture_digest 1; standard_library := fixture_digest 1;
      source_graph := fixture_digest 1; BuildModel.request := fixture_digest 1;
      profile_digest := fixture_digest 1 |};
    profile := development |};
  wir := {| path_as_str := ascii "build/input.wir" |};
  wir_digest := fixture_digest 1;
  target_runtime_digest := fixture_digest 2;
  target_runtime_bytes := 4096;
  request_target_package := {| path_as_str := ascii "targets/aarch64-qemu-virt-uefi" |};
  output := {| path_as_str := ascii "build/image.efi" |};
  report := {| path_as_str := ascii "build/image.json" |};
|}.
Definition request_frame : list byte :=
  match encode_request request_fixture (Validated (build request_fixture)) with
  | Ok bytes => bytes
  | Err _ => []
  end.

Lemma request_fixture_typed : request_typed request_fixture.
Proof.
  unfold request_typed. split_and!;
    try (vm_compute; (reflexivity || discriminate)).
  repeat (constructor; [split; vm_compute; reflexivity|]). constructor.
Qed.

Lemma request_round_trip_witness :
  len request_frame = 492 /\ decode_request request_frame = Ok request_fixture.
Proof.
  split; [vm_compute; reflexivity|].
  apply (request_round_trip request_fixture); [exact request_fixture_typed|].
  vm_compute. reflexivity.
Defined.

Lemma request_canonical_witness :
  decode_request request_frame = Ok request_fixture
  /\ encode_request request_fixture (Validated (build request_fixture)) = Ok request_frame.
Proof.
  assert (decode_request request_frame = Ok request_fixture) as H by (vm_compute; reflexivity).
  split; [exact H|]. exact (proj2 (request_canonical request_frame request_fixture H)).
Defined.

Lemma encode_response_Ok s bytes :
  encode_response s = Ok bytes <->
  bytes = frame_layout Response (response_layout s)
  /\ len (response_layout s) <= MAX_FRAME_BYTES
  /\ match outcome s with
     | Success o => len (path_as_str (artifact o)) <= MAX_TEXT_BYTES
                    /\ len (path_as_str (success_report o)) <= MAX_TEXT_BYTES
     | Failure f => len (failure_message f) <= MAX_TEXT_BYTES
     end.
Proof.
  unfold encode_response, response_layout, push_u64, push_u8, push_digest.
  destruct s as [id [o|f]]; cbn [response_id outcome outcome_layout];
    rewrite !result_bind_Ok; setoid_rewrite frame_Ok.
  - setoid_rewrite result_bind_Ok. setoid_rewrite push_string_Ok.
    setoid_rewrite result_bind_Ok. setoid_rewrite push_string_Ok. split.
    + intros (? & (? & [Ha ->] & ? & [Hr ->] & [= <-]) & [Hf ->]).
      revert Hf. norm_app. done.
    + intros (-> & Hf & Ha & Hr). eexists. split.
      * eexists. split; [done|]. eexists. split; [done|]. reflexivity.
      * norm_app. done.
  - setoid_rewrite push_string_Ok. split.
    + intros (? & [Hm ->] & [Hf ->]). revert Hf. norm_app. done.
    + intros (-> & Hf & Hm). eexists. split; [done|]. norm_app. done.
Qed.

Lemma decode_response_Ok bytes s :
  decode_response bytes = Ok s <->
  bytes = frame_layout Response (response_layout s)
  /\ len (response_layout s) <= MAX_FRAME_BYTES /\ wire_response_ok s.
Proof.
  unfold decode_response. split.
  - intros H. apply result_bind_Ok in H as (r & [Hl ->]%unframe_Ok & H).
    apply result_bind_Ok in H as ([s' r'] & Hb & [= ->]).
    apply decode_response_body_Ok in Hb as (Hr & _ & Hs). rewrite Hr in *. done.
  - intros (-> & Hl & Hs). apply result_bind_Ok. exists (Reader_new (response_layout s)).
    split; [by apply unframe_Ok|].
    apply result_bind_Ok. exists (s, Reader_new []).
    split; [by apply decode_response_body_Ok|done].
Qed.

Definition response_typed (s : BackendResponse) : Prop :=
  0 <= response_id s < 2 ^ 64 /\
  match outcome s with
  | Success o =>
      (utf8_valid (path_as_str (artifact o)) = true
       /\ BackendPath_new (path_as_str (artifact o)) = Ok (artifact o))
      /\ digest_ok (artifact_digest o) = true
      /\ (utf8_valid (path_as_str (success_report o)) = true
          /\ BackendPath_new (path_as_str (success_report o)) = Ok (success_report o))
      /\ digest_ok (report_digest o) = true
  | Failure f => utf8_valid (failure_message f) = true
  end.

(** Decoding a response frame is exactly the inverse of encoding a
    well-typed response: [decode_response] accepts precisely the frames
    [encode_response] writes, success and failure alike. *)
Theorem response_codec_exact bytes s :
  decode_response bytes = Ok s <-> response_typed s /\ encode_response s = Ok bytes.
Proof.
  rewrite decode_response_Ok, encode_response_Ok.
  unfold wire_response_ok, response_typed, outcome_ok, path_ok, text_ok.
  destruct (outcome s); tauto.
Qed.

(** ** Path confinement

    Resolving a path component by component against the private build
    directory, the way a file system does. *)
Fixpoint resolve (base : list str) (components : list str) : option (list str) :=
  match components with
  | [] => Some base
  | c :: cs =>
      if bool_decide (c = []) || bool_decide (c = ascii ".") then resolve base cs
      else if bool_decide (c = ascii "..") then
        match rev base with
        | [] => None
        | _ :: parents => resolve (rev parents) cs
        end
      else resolve (base ++ [c]) cs
  end.

(** C39: A [BackendPath] always resolves strictly below the directory it is
    resolved against: no spelling escapes the private build directory or names
    the directory itself. *)
Theorem BackendPath_confined s p base :
  BackendPath_new s = Ok p ->
  exists below, below <> [] /\ resolve base (split_byte "/" (path_as_str p)) = Some (base ++ below).
Proof.
  intros H. pose proof (BackendPath_new_str _ _ H) as Hs. rewrite Hs.
  assert (forallb (fun c => negb (is_dot_component c)) (split_byte "/" s) = true) as Hc.
  { unfold BackendPath_new in H. repeat case_match; try done.
    apply forallb_forall. intros c Hc.
    destruct (is_dot_component c) eqn:E; [|done].
    match goal with Hx : existsb _ _ = false |- _ =>
      rewrite (proj2 (existsb_exists _ _) (ex_intro _ c (conj Hc E))) in Hx end. done. }
  exists (split_byte "/" s). split.
  { clear. destruct s as [|b s]; [done|]. cbn. case_bool_decide; [done|].
    by destruct (split_byte _ s). }
  generalize dependent (split_byte "/" s). clear. intros cs. revert base.
  induction cs as [|c cs IH]; intros base; cbn [resolve forallb]; [by rewrite app_nil_r|].
  intros [Hc Hcs]%andb_true_iff. unfold is_dot_component in Hc. split_andb.
  repeat match goal with E : bool_decide _ = false |- _ => rewrite E end. cbn [orb].
  rewrite IH by done. by rewrite <- app_assoc.
Qed.

Lemma BackendPath_confined_witness :
  exists below, below <> [] /\
    resolve [ascii "private"] (split_byte "/" (ascii "build/input.wir"))
    = Some ([ascii "private"] ++ below).
Proof.
  apply (BackendPath_confined (ascii "build/input.wir")
    {| path_as_str := ascii "build/input.wir" |} [ascii "private"]).
  vm_compute. reflexivity.
Defined.
