(* ===== verification/Source.v ===== *)
(** Source identities, text and positions ([crates/wrela-source]): the
    session-local database of source files, its canonical path rules, and the
    translation of byte offsets to line and column. *)

From Stdlib Require Import Strings.Byte Sorting.Sorted.
From stdpp Require Import base numbers list option strings gmap sorting.
From S2P Require Import Prelude Bytes Order Interrupt Text BuildModel.

#[local] Open Scope Z_scope.

Definition MAX_SOURCE_PATH_BYTES : Z := 4096.

(** [FileId(u32)]. *)
Record FileId := { file_id : Z }.
Record TextRange := { start_ : Z; end_ : Z }.
Record Span := { file : FileId; range : TextRange }.
Record SourcePosition := { line : Z; byte_column : Z }.
Record SourceFile := {
  source_id : FileId;
  source_path : str;
  source_text : str;
  source_digest : Sha256Digest;
  line_starts : list Z;
}.
Record SourceDatabase := {
  files : list SourceFile;
  portable_paths : gset str;
}.
Record SourceInput := {
  input_path : str;
  input_text : str;
  input_digest : Sha256Digest;
}.

Inductive SourceError :=
| InvalidRange (start_ end_ : Z)
| InvalidPath (reason : string)
| PortablePathCollision (path : str)
| NonCanonicalPathOrder (previous next : str)
| FileTooLarge (bytes : Z)
| TooManyFiles
| TooManyLines
| ResourceExhausted (resource : string).

#[export] Instance FileId_eq_dec : EqDecision FileId.
Proof. solve_decision. Defined.
#[export] Instance TextRange_eq_dec : EqDecision TextRange.
Proof. solve_decision. Defined.
#[export] Instance Span_eq_dec : EqDecision Span.
Proof. solve_decision. Defined.

(** [TextRange::new]. *)
Definition TextRange_new (start_ end_ : Z) : result SourceError TextRange :=
  if end_ <? start_ then Err (InvalidRange start_ end_)
  else Ok {| start_ := start_; end_ := end_ |}.

(** [&text[start..end]] for bounds already checked. *)
Definition subslice (text : str) (start_ end_ : Z) : str :=
  take (Z.to_nat (end_ - start_)) (drop (Z.to_nat start_) text).

(** [SourceFile::full_span]. *)
Definition full_span (f : SourceFile) : Span :=
  {| file := source_id f;
     range := {| start_ := 0; end_ := len (source_text f) mod 2 ^ 32 |} |}.

(** What a panicking expression leaves behind. *)
Inductive panic : Set := Panicked.

(** [SourceFile::slice]. The fields of a [TextRange] are public, so a range
    with [start > end] can be written down; [&text[start..end]] panics on it. *)
Definition slice (f : SourceFile) (r : TextRange) : result panic (option str) :=
  if (end_ r <=? len (source_text f))
     && is_char_boundary (source_text f) (start_ r)
     && is_char_boundary (source_text f) (end_ r)
  then if end_ r <? start_ r then Err Panicked
       else Ok (Some (subslice (source_text f) (start_ r) (end_ r)))
  else Ok None.

(** [slice::partition_point] on a slice partitioned by the predicate: the
    length of the prefix on which it holds. *)
Fixpoint partition_point {A} (p : A -> bool) (l : list A) : nat :=
  match l with
  | x :: l => if p x then S (partition_point p l) else 0%nat
  | [] => 0%nat
  end.

(** [SourceFile::position]. The [u32] addition wraps, as it does in the release
    profile (the workspace does not set [overflow-checks]). *)
Definition position (f : SourceFile) (offset : Z) : option SourcePosition :=
  if (len (source_text f) <? offset) || negb (is_char_boundary (source_text f) offset)
  then None
  else
    let line_index := Nat.sub (partition_point (fun s => s <=? offset) (line_starts f)) 1 in
    Some {| line := (Z.of_nat line_index + 1) mod 2 ^ 32;
            byte_column := wrapping_add 32 (offset - nth line_index (line_starts f) 0) 1 |}.

Definition is_newline (b : byte) : bool := bool_decide (b = x0a).

(** The line index loop: one entry per line, from the byte index of its start. *)
Fixpoint line_starts_from (length index : Z) (bytes : str) : list Z :=
  match bytes with
  | [] => []
  | b :: bytes =>
      if is_newline b && (index + 1 <=? length)
      then index + 1 :: line_starts_from length (index + 1) bytes
      else line_starts_from length (index + 1) bytes
  end.

Definition path_char_forbidden (c : Z) : bool :=
  (c =? 0) || (c =? 0x5C) || (c =? 0x3A) || is_control c.
Definition path_component_forbidden (component : str) : bool :=
  bool_decide (component = []) || bool_decide (component = ascii ".")
  || bool_decide (component = ascii "..").

Section database.
(** Unicode normalisation form C of a character sequence: the crate
    [unicode_normalization]. *)
Context (nfc : list Z -> list Z).

Definition validate_source_path (value : str) : result SourceError unit :=
  if bool_decide (value = []) then Err (InvalidPath "path is empty")
  else if MAX_SOURCE_PATH_BYTES <? len value
  then Err (InvalidPath "path exceeds 4096 UTF-8 bytes")
  else if negb (bool_decide (nfc (chars value) = chars value))
  then Err (InvalidPath "path is not in Unicode NFC")
  else if starts_with_byte value "/" || starts_with_byte value "\"
          || existsb path_char_forbidden (chars value)
          || existsb path_component_forbidden (split_byte "/" value)
  then Err (InvalidPath "path must be a portable canonical relative UTF-8 path")
  else Ok tt.

(** [SourceDatabase::add]. *)
Definition add (db : SourceDatabase) (input : SourceInput)
    : prog SourceError (FileId * SourceDatabase) :=
  let path := input_path input in
  let text := input_text input in
  _ ← lift (validate_source_path path);
  _ ← try_reserve (ResourceExhausted "portable source path");
  let portable_path := to_ascii_lowercase path in
  if bool_decide (portable_path ∈ portable_paths db)
  then Throw (PortablePathCollision path)
  else
    _ ← match last (files db) with
        | Some previous =>
            match bytes_cmp (source_path previous) path with
            | Lt => Ret tt
            | _ => Throw (NonCanonicalPathOrder (source_path previous) path)
            end
        | None => Ret tt
        end;
    length ← lift (ok_or (try_u32 (len text)) (FileTooLarge (len text)));
    id ← lift (ok_or (try_u32 (len (files db))) TooManyFiles);
    line_start_count ← lift (ok_or (checked_add usize
        (len (filter (fun b => is_newline b = true) text)) 1) TooManyLines);
    _ ← fail_if (u32_max <? line_start_count) TooManyLines;
    _ ← try_reserve (ResourceExhausted "source line index");
    let line_starts := 0 :: line_starts_from length 0 text in
    _ ← try_reserve (ResourceExhausted "source file table");
    let file := {| source_id := {| file_id := id |}; source_path := path;
                   source_text := text; source_digest := input_digest input;
                   line_starts := line_starts |} in
    Ret ({| file_id := id |},
         {| files := files db ++ [file];
            portable_paths := portable_paths db ∪ {[portable_path]} |}).
End database.

Definition empty_database : SourceDatabase := {| files := []; portable_paths := ∅ |}.

(** [SourceDatabase::get] and [span_text]. *)
Definition get (db : SourceDatabase) (id : FileId) : option SourceFile :=
  files db !! Z.to_nat (file_id id).
Definition span_text (db : SourceDatabase) (span : Span) : result panic (option str) :=
  match get db (file span) with
  | Some f => slice f (range span)
  | None => Ok None
  end.

(** ** Positions *)

(** The reference: a cursor that walks the text byte by byte. *)
Definition advance (p : SourcePosition) (b : byte) : SourcePosition :=
  if is_newline b then {| line := line p + 1; byte_column := 1 |}
  else {| line := line p; byte_column := byte_column p + 1 |}.
Definition text_start : SourcePosition := {| line := 1; byte_column := 1 |}.

(** What [add] establishes for every file of the database. *)
Record file_ok (f : SourceFile) : Prop := {
  file_utf8 : utf8_valid (source_text f) = true;
  file_small : len (source_text f) <= u32_max;
  file_lines : line_starts f =
    0 :: line_starts_from (len (source_text f)) 0 (source_text f);
}.

Lemma partition_point_none length offset i bytes :
  offset <= i -> partition_point (fun s => s <=? offset) (line_starts_from length i bytes) = 0%nat.
Proof.
  revert i. induction bytes as [|b bytes IH]; intros i Hi; [done|]. simpl.
  destruct (_ && _); simpl; [|apply IH; lia].
  by rewrite (proj2 (Z.leb_gt _ _)) by lia.
Qed.

Lemma cursor_line_starts length i offset bytes start l :
  i + len bytes <= length -> i <= offset <= i + len bytes ->
  let starts := line_starts_from length i bytes in
  let k := partition_point (fun s => s <=? offset) starts in
  fold_left advance (take (Z.to_nat (offset - i)) bytes)
    {| line := l; byte_column := i - start + 1 |} =
  {| line := l + Z.of_nat k; byte_column := offset - nth k (start :: starts) 0 + 1 |}.
Proof.
  cbn zeta. revert i start l. induction bytes as [|b bytes IH]; intros i start l Hl Ho;
    autorewrite with wrela_simpl in *.
  { rewrite take_nil. simpl. f_equal; lia. }
  pose proof (len_nonneg bytes).
  destruct (decide (offset = i)) as [->|Hne].
  { rewrite Z.sub_diag, partition_point_none by lia. simpl. f_equal; lia. }
  replace (Z.to_nat (offset - i)) with (S (Z.to_nat (offset - (i + 1)))) by lia.
  cbn [take fold_left line_starts_from]. unfold advance at 2.
  rewrite (proj2 (Z.leb_le (i + 1) length)), andb_true_r by lia. cbn [line byte_column].
  destruct (is_newline b); cbn [partition_point].
  - rewrite (proj2 (Z.leb_le (i + 1) offset)) by lia.
    pose proof (IH (i + 1) (i + 1) (l + 1) ltac:(lia) ltac:(lia)) as E.
    replace (i + 1 - (i + 1) + 1) with 1 in E by lia. rewrite E. f_equal. lia.
  - pose proof (IH (i + 1) start l ltac:(lia) ltac:(lia)) as E.
    replace (i - start + 1 + 1) with (i + 1 - start + 1) by lia. exact E.
Qed.

Lemma partition_point_lines length offset i bytes :
  i + len bytes <= length -> i <= offset ->
  Z.of_nat (partition_point (fun s => s <=? offset) (line_starts_from length i bytes))
    <= offset - i.
Proof.
  revert i. induction bytes as [|b bytes IH]; intros i Hl Ho;
    autorewrite with wrela_simpl in *; [simpl; lia|].
  destruct (decide (offset = i)) as [->|Hne]; [rewrite partition_point_none; lia|].
  cbn [line_starts_from]. pose proof (IH (i + 1)).
  destruct (_ && _); cbn [partition_point]; [|lia]. case_match; lia.
Qed.

Lemma line_start_bounds length offset i bytes start :
  0 <= start <= i -> i <= offset ->
  let starts := line_starts_from length i bytes in
  0 <= nth (partition_point (fun s => s <=? offset) starts) (start :: starts) 0 <= offset.
Proof.
  cbn zeta. revert i start. induction bytes as [|b bytes IH]; intros i start Hs Ho;
    [simpl; lia|].
  destruct (decide (offset = i)) as [->|Hne]; [rewrite partition_point_none by lia; simpl; lia|].
  cbn [line_starts_from]. destruct (_ && _); cbn [partition_point].
  - rewrite (proj2 (Z.leb_le (i + 1) offset)) by lia. cbn [nth]. apply IH; lia.
  - apply IH; lia.
Qed.

(** Where the cursor stands after the first [offset] bytes of a text. *)
Definition cursor_at (text : str) (offset : Z) : SourcePosition :=
  fold_left advance (take (Z.to_nat offset) text) text_start.
(** What two [u32] can say of a position. *)
Definition wrapped (p : SourcePosition) : SourcePosition :=
  {| line := line p mod 2 ^ 32; byte_column := byte_column p mod 2 ^ 32 |}.

(** C35: for every [u32], a byte offset on a character boundary of a stored file
    is given exactly the line and the byte column that a cursor walking the text
    up to it arrives at, and any other offset is refused. Only at the greatest
    [u32], the end of a text of 4 GiB - 1 bytes, is that position taken modulo
    [2 ^ 32]. *)
Theorem position_is_cursor f offset :
  file_ok f -> 0 <= offset <= u32_max ->
  position f offset =
    if (offset <=? len (source_text f)) && is_char_boundary (source_text f) offset
    then Some (if offset <? u32_max then cursor_at (source_text f) offset
               else wrapped (cursor_at (source_text f) offset))
    else None.
Proof.
  intros [_ Hsmall Hlines] Ho. unfold position. rewrite Z.ltb_antisym, Hlines, <- negb_andb.
  destruct (_ && _) eqn:E; [|done]. cbn [negb]. split_andb. apply Z.leb_le in H. f_equal.
  pose proof (cursor_line_starts (len (source_text f)) 0 offset (source_text f) 0 1
    ltac:(lia) ltac:(lia)) as C.
  pose proof (partition_point_lines (len (source_text f)) offset 0 (source_text f)
    ltac:(lia) ltac:(lia)) as B.
  pose proof (line_start_bounds (len (source_text f)) offset 0 (source_text f) 0
    ltac:(lia) ltac:(lia)) as N.
  cbn zeta in C, N. rewrite !Z.sub_0_r in C.
  change {| line := 1; byte_column := 0 + 1 |} with text_start in C. fold (cursor_at (source_text f) offset) in C.
  rewrite C. cbn [partition_point]. rewrite (proj2 (Z.leb_le 0 offset)), Nat.sub_1_r, Nat.pred_succ by lia.
  unfold wrapped, wrapping_add, u32_max in *. cbn [line byte_column].
  destruct (Z.ltb_spec offset 4294967295); f_equal; try (rewrite Z.mod_small; lia). f_equal. lia.
Qed.

Definition sample_file : SourceFile :=
  {| source_id := {| file_id := 0 |}; source_path := ascii "first.wr";
     source_text := ascii "first" ++ [x0a] ++ ascii "line";
     source_digest := from_bytes (repeat x00 32);
     line_starts := [0; 6] |}.

Example position_is_cursor_witness :
  file_ok sample_file /\ position sample_file 8 = Some {| line := 2; byte_column := 3 |}.
Proof.
  assert (H : file_ok sample_file) by (split; [reflexivity|vm_compute; discriminate|reflexivity]).
  split; [exact H|].
  refine (eq_trans (position_is_cursor sample_file 8 H _) _); [|reflexivity].
  split; reflexivity || (intros ?; discriminate).
Defined.

(** ** Slices *)

Lemma char_boundary_starts_char s i :
  0 <= i -> is_char_boundary s i = true ->
  utf8_valid s = true -> utf8_valid (take (Z.to_nat i) s) = true
    /\ utf8_valid (drop (Z.to_nat i) s) = true.
Proof.
  intros Hi Hb Hs. apply andb_true_iff.
  assert (starts_char (drop (Z.to_nat i) s) \/ i = 0) as [Hd| ->]; [|by rewrite <- utf8_valid_app, take_drop|by rewrite andb_true_l].
  unfold is_char_boundary in Hb.
  destruct (Z.eqb_spec i 0) as [|_]; [by right|left].
  destruct (Z.eqb_spec i (len s)) as [->|_].
  { unfold len. rewrite Nat2Z.id, drop_all. done. }
  destruct (s !! Z.to_nat i) as [b|] eqn:E; [|done].
  rewrite (drop_S _ b) by done. by apply negb_true_iff in Hb.
Qed.

(** Slicing stored text by a well-formed range never panics, and what it
    returns is valid UTF-8, has the length of the range and sits in the text
    at the start of the range. *)
Theorem slice_is_text f r :
  file_ok f -> 0 <= start_ r <= end_ r ->
  exists o, slice f r = Ok o /\
  forall s, o = Some s ->
    utf8_valid s = true /\ len s = end_ r - start_ r /\
    exists before after, source_text f = before ++ s ++ after /\ len before = start_ r.
Proof.
  intros [Hutf _ _] Hr. unfold slice.
  destruct (_ && _) eqn:E; [|by exists None]. split_andb. apply Z.leb_le in H.
  rewrite (proj2 (Z.ltb_ge _ _)) by lia.
  eexists; split; [done|]. intros s [= <-]. unfold subslice.
  destruct (char_boundary_starts_char _ (start_ r) ltac:(lia) H1 Hutf) as [_ Hd].
  destruct (char_boundary_starts_char _ (end_ r) ltac:(lia) H0 Hutf) as [Ht _].
  set (text := source_text f) in *.
  set (a := Z.to_nat (start_ r)). set (n := Z.to_nat (end_ r - start_ r)).
  assert (Ha : Z.of_nat a = start_ r) by (unfold a; lia).
  assert (Hz : Z.of_nat n = end_ r - start_ r) by (unfold n; lia).
  assert (Hn : (a + n <= length text)%nat) by (unfold len in H; lia).
  split_and!.
  - destruct (char_boundary_starts_char (take (a + n) text) (start_ r)) as [_ Hs]; [lia| | |].
    + unfold is_char_boundary in *. unfold len in *.
      rewrite length_take, Nat.min_l by done.
      destruct (_ =? 0); [done|]. destruct (Z.eqb_spec (start_ r) (Z.of_nat (a + n))) as [|Hne]; [done|].
      rewrite lookup_take_lt by lia. destruct (Z.eqb_spec (start_ r) (Z.of_nat (length text))); [lia|done].
    + by replace (a + n)%nat with (Z.to_nat (end_ r)) by lia.
    + rewrite skipn_firstn_comm in Hs. fold a in Hs. by replace (a + n - a)%nat with n in Hs by lia.
  - unfold len. rewrite length_take, length_drop. lia.
  - exists (take a text), (drop (a + n) text). unfold len. rewrite length_take. split; [|lia].
    rewrite <- drop_drop, take_drop, take_drop. done.
Qed.

Example slice_is_text_witness :
  slice sample_file {| start_ := 6; end_ := 8 |} = Ok (Some (ascii "li")) /\
  (file_ok sample_file -> exists o, slice sample_file {| start_ := 6; end_ := 8 |} = Ok o).
Proof.
  split; [reflexivity|]. intros H.
  destruct (slice_is_text sample_file {| start_ := 6; end_ := 8 |} H) as (o & Ho & _);
    [split; intros ?; discriminate|]. exists o. exact Ho.
Defined.

(** ** The database *)

Section database_invariant.
Context (nfc : list Z -> list Z).

Definition lower_path (f : SourceFile) : str := to_ascii_lowercase (source_path f).
Definition path_before (f g : SourceFile) : Prop := bytes_cmp (source_path f) (source_path g) = Lt.

(** Identifiers are dense, every file is indexed, paths are portable, strictly
    ordered and pairwise distinct up to ASCII case. *)
Record database_ok (db : SourceDatabase) : Prop := {
  db_dense : forall i f, files db !! i = Some f -> file_id (source_id f) = Z.of_nat i;
  db_files : Forall file_ok (files db);
  db_paths : Forall (fun f => validate_source_path nfc (source_path f) = Ok tt) (files db);
  db_sorted : StronglySorted path_before (files db);
  db_portable : portable_paths db = list_to_set (map lower_path (files db));
  db_distinct : NoDup (map lower_path (files db));
}.

Lemma empty_database_ok : database_ok empty_database.
Proof. split; try done; try constructor. Qed.

#[export] Instance path_before_trans : Transitive path_before.
Proof. intros f g h. unfold path_before. apply cmp_lt_trans. Qed.

(** What a successful [add] has checked and done. *)
Lemma add_quiet db input id db' :
  quiet (add nfc db input) = Ok (id, db') ->
  validate_source_path nfc (input_path input) = Ok tt /\
  to_ascii_lowercase (input_path input) ∉ portable_paths db /\
  (forall f, last (files db) = Some f -> bytes_cmp (source_path f) (input_path input) = Lt) /\
  len (input_text input) <= u32_max /\
  id = {| file_id := len (files db) |} /\
  db' = {| files := files db ++ [{| source_id := id; source_path := input_path input;
                source_text := input_text input; source_digest := input_digest input;
                line_starts := 0 :: line_starts_from (len (input_text input)) 0 (input_text input) |}];
           portable_paths := portable_paths db ∪ {[to_ascii_lowercase (input_path input)]} |}.
Proof.
  unfold add. intros H.
  apply quiet_bind_Ok in H as ([] & Hv & H). rewrite quiet_lift in Hv.
  apply quiet_bind_Ok in H as ([] & _ & H).
  destruct (bool_decide _) eqn:Hp; [done|]. apply bool_decide_eq_false in Hp.
  apply quiet_bind_Ok in H as ([] & Hl & H).
  apply quiet_bind_Ok in H as (length & Hlen & H). rewrite quiet_lift in Hlen.
  apply quiet_bind_Ok in H as (i & Hi & H). rewrite quiet_lift in Hi.
  apply quiet_bind_Ok in H as (n & _ & H).
  apply quiet_bind_Ok in H as ([] & _ & H).
  apply quiet_bind_Ok in H as ([] & _ & H).
  apply quiet_bind_Ok in H as ([] & _ & H). cbn in H.
  apply ok_or_Ok, try_u32_Some in Hlen as [Hlen ->].
  apply ok_or_Ok, try_u32_Some in Hi as [Hi ->].
  injection H as <- <-. split_and!; try done.
  intros f Hf. rewrite Hf in Hl. by destruct (bytes_cmp _ _).
Qed.
End database_invariant.

Definition exhausted (e : SourceError) : Prop :=
  match e with ResourceExhausted _ => True | _ => False end.

#[export] Instance add_interruptible nfc db input : interruptible exhausted (add nfc db input).
Proof.
  assert (R : forall s : string, interruptible exhausted (try_reserve (ResourceExhausted s)))
    by (intros; by apply interruptible_try_reserve).
  unfold add. repeat first [apply _ | apply R | apply interruptible_bind; intros
    | destruct (bool_decide _) | destruct (last _) | destruct (bytes_cmp _ _)].
Qed.

Section database_theorems.
Context (nfc : list Z -> list Z).

Lemma add_ok db input id db' :
  database_ok nfc db -> utf8_valid (input_text input) = true ->
  quiet (add nfc db input) = Ok (id, db') -> database_ok nfc db'.
Proof.
  intros [Hdense Hfiles Hpaths Hsorted Hportable Hdistinct] Hutf H.
  apply add_quiet in H as (Hvalid & Hnew & Hlast & Hlen & -> & ->).
  split; cbn [files portable_paths].
  - intros i f [Hf|(Hi & Hf)]%lookup_app_Some; [by apply Hdense|].
    apply list_lookup_singleton_Some in Hf as [Hi' <-]. cbn. unfold len. lia.
  - apply Forall_app. split; [done|]. repeat constructor; done.
  - apply Forall_app. split; [done|]. by repeat constructor.
  - apply (strongly_sorted_snoc path_before); [done|]. intros g Hg. by apply Hlast.
  - rewrite Hportable, map_app, list_to_set_app_L. f_equal. simpl.
    unfold lower_path at 1. cbn. by rewrite union_empty_r_L.
  - rewrite map_app, NoDup_app. split_and!; [done| |apply NoDup_singleton].
    intros x Hx ->%list_elem_of_singleton. apply Hnew.
    by rewrite Hportable, elem_of_list_to_set.
Qed.

(** C34: however its allocations turn out, [add] either fails and leaves no new
    database behind, or keeps every invariant of the database (dense
    identifiers, indexed lines, strictly ordered portable paths, no collision
    up to case), returns the next identifier, stores exactly the given text
    under it, and leaves every earlier file in place. *)
Theorem add_correct env w db input id db' :
  database_ok nfc db -> utf8_valid (input_text input) = true ->
  fst (run env w (add nfc db input)) = Ok (id, db') ->
  database_ok nfc db' /\
  file_id id = len (files db) /\
  (exists f, get db' id = Some f /\ source_path f = input_path input
    /\ source_text f = input_text input /\ source_digest f = input_digest input) /\
  (forall id' f, 0 <= file_id id' -> get db id' = Some f -> get db' id' = Some f).
Proof.
  intros Hok Hutf Hrun.
  apply (run_interruptible_Ok exhausted) in Hrun; [|apply _].
  split; [by apply add_ok in Hrun|].
  apply add_quiet in Hrun as (_ & _ & _ & _ & -> & ->). split_and!; [done| |].
  - eexists. split.
    + unfold get. cbn [files file_id]. rewrite lookup_app_r; unfold len; [|lia].
      by rewrite Nat2Z.id, Nat.sub_diag.
    + by cbn.
  - intros id' f Hid Hf. unfold get in *. cbn [files]. by apply lookup_app_l_Some.
Qed.
End database_theorems.

Definition sample_input : SourceInput :=
  {| input_path := ascii "first.wr"; input_text := ascii "first" ++ [x0a] ++ ascii "line";
     input_digest := from_bytes (repeat x00 32) |}.

Example add_correct_witness :
  exists id db', fst (run calm start (add (fun cs => cs) empty_database sample_input)) = Ok (id, db')
    /\ file_id id = 0.
Proof.
  do 2 eexists. split; [vm_compute; reflexivity|].
  refine (proj1 (proj2 (add_correct (fun cs => cs) calm start empty_database sample_input _ _
    (empty_database_ok _) eq_refl _))). vm_compute. reflexivity.
Defined.

(** The last offset of the longest accepted text, written on one line, has no
    column: the addition wraps to 0. *)
Lemma position_wraps f :
  file_ok f -> len (source_text f) = u32_max -> line_starts f = [0] ->
  position f u32_max = Some {| line := 1; byte_column := 0 |}.
Proof.
  intros Hf Hlen Hl. unfold position. rewrite Hl, Hlen, Z.ltb_irrefl.
  unfold is_char_boundary. by rewrite Hlen, Z.eqb_refl.
Qed.
