(* ===== verification/Diagnostics.v ===== *)
(** Structured diagnostics and their canonical order ([crates/wrela-diagnostics]):
    [compare_diagnostics], and the bounded, cancellable merge sort
    [canonicalize_diagnostics]. *)

From Stdlib Require Import Strings.Byte Sorting.Sorted.
From stdpp Require Import base numbers list option strings sorting.
From S2P Require Import Prelude Bytes Order Interrupt Source.

#[local] Open Scope Z_scope.

(** [Category(&'static str)]. *)
Record Category := { category_as_str : str }.
Definition SYNTAX : Category := {| category_as_str := ascii "syntax" |}.
Definition PACKAGE : Category := {| category_as_str := ascii "package" |}.
Definition NAME : Category := {| category_as_str := ascii "name" |}.
Definition TYPE : Category := {| category_as_str := ascii "type" |}.
Definition EFFECT : Category := {| category_as_str := ascii "effect" |}.
Definition OWNERSHIP : Category := {| category_as_str := ascii "ownership" |}.
Definition REGION : Category := {| category_as_str := ascii "region" |}.
Definition ACTOR : Category := {| category_as_str := ascii "actor" |}.
Definition ASYNC : Category := {| category_as_str := ascii "async" |}.
Definition CAPACITY : Category := {| category_as_str := ascii "capacity" |}.
Definition HARDWARE : Category := {| category_as_str := ascii "hardware" |}.
Definition COMPTIME : Category := {| category_as_str := ascii "comptime" |}.
Definition IMAGE : Category := {| category_as_str := ascii "image" |}.
Definition TARGET : Category := {| category_as_str := ascii "target" |}.
Definition PROFILE : Category := {| category_as_str := ascii "profile" |}.
Definition DMA : Category := {| category_as_str := ascii "dma" |}.

Inductive Severity := Error | Warning.
Inductive Applicability := MachineApplicable | MaybeIncorrect | RequiresReview.

Record Label := { label_span : Span; label_message : str }.
Record SourceEdit := { edit_span : Span; replacement : str }.
Record Repair := {
  repair_message : str;
  applicability : Applicability;
  edits : list SourceEdit;
}.
Record RelatedDiagnostic := { related_span : Span; related_message : str }.

Record Diagnostic := {
  category : Category;
  code : option str;
  severity : Severity;
  primary : Span;
  message : str;
  labels : list Label;
  notes : list str;
  help : list str;
  related : list RelatedDiagnostic;
  repairs : list Repair;
}.

(** [Diagnostic::error]. *)
Definition error (category : Category) (primary : Span) (message : str) : Diagnostic :=
  {| category := category; code := None; severity := Error; primary := primary;
     message := message; labels := []; notes := []; help := []; related := []; repairs := [] |}.

Record WithDiagnostics (T : Type) := { value : T; diagnostics : list Diagnostic }.
Arguments value {T}.
Arguments diagnostics {T}.

Definition clean {T} (value : T) : WithDiagnostics T := {| value := value; diagnostics := [] |}.
Definition has_errors {T} (w : WithDiagnostics T) : bool :=
  existsb (fun d => match severity d with Error => true | Warning => false end) (diagnostics w).

(** ** The order *)

Definition severity_rank (s : Severity) : Z := match s with Error => 0 | Warning => 1 end.
Definition applicability_rank (a : Applicability) : Z :=
  match a with MachineApplicable => 0 | MaybeIncorrect => 1 | RequiresReview => 2 end.

(** Tuples compare lexicographically. *)
Definition compare_span (a b : Span) : comparison :=
  then_cmp (file_id (file a) ?= file_id (file b))
    (then_cmp (start_ (range a) ?= start_ (range b)) (end_ (range a) ?= end_ (range b))).

(** [compare_slices]: the loop over the zipped slices, then the lengths. *)
Fixpoint compare_zipped {T} (compare : T -> T -> comparison) (pairs : list (T * T))
    (otherwise : comparison) : comparison :=
  match pairs with
  | [] => otherwise
  | (a, b) :: pairs =>
      match compare a b with
      | Eq => compare_zipped compare pairs otherwise
      | ordering => ordering
      end
  end.
Definition compare_slices {T} (compare : T -> T -> comparison) (a b : list T) : comparison :=
  compare_zipped compare (zip a b) (len a ?= len b).

Definition compare_label (a b : Label) : comparison :=
  then_cmp (compare_span (label_span a) (label_span b))
    (bytes_cmp (label_message a) (label_message b)).
Definition compare_related (a b : RelatedDiagnostic) : comparison :=
  then_cmp (compare_span (related_span a) (related_span b))
    (bytes_cmp (related_message a) (related_message b)).
Definition compare_edit (a b : SourceEdit) : comparison :=
  then_cmp (compare_span (edit_span a) (edit_span b)) (bytes_cmp (replacement a) (replacement b)).
Definition compare_repair (a b : Repair) : comparison :=
  then_cmp (bytes_cmp (repair_message a) (repair_message b))
    (then_cmp (applicability_rank (applicability a) ?= applicability_rank (applicability b))
       (compare_slices compare_edit (edits a) (edits b))).

Definition compare_diagnostics (a b : Diagnostic) : comparison :=
  then_cmp (bytes_cmp (category_as_str (category a)) (category_as_str (category b)))
  (then_cmp (severity_rank (severity a) ?= severity_rank (severity b))
  (then_cmp (compare_span (primary a) (primary b))
  (then_cmp (bytes_cmp (message a) (message b))
  (then_cmp (option_cmp bytes_cmp (code a) (code b))
  (then_cmp (compare_slices compare_label (labels a) (labels b))
  (then_cmp (list_cmp bytes_cmp (notes a) (notes b))
  (then_cmp (list_cmp bytes_cmp (help a) (help b))
  (then_cmp (compare_slices compare_related (related a) (related b))
            (compare_slices compare_repair (repairs a) (repairs b)))))))))).

(** ** The sorter *)

Inductive DiagnosticSortError := Cancelled | Allocation.

(** [sort_unstable_by(compare_diagnostics)] of the standard library: any
    sorting algorithm gives the same result, because only equal diagnostics
    compare equal. *)
Definition sort_unstable (ds : list Diagnostic) : list Diagnostic :=
  merge_sort (le_by compare_diagnostics) ds.

(** [WithDiagnostics::sort_diagnostics]. *)
Definition sort_diagnostics {T} (w : WithDiagnostics T) : WithDiagnostics T :=
  {| value := value w; diagnostics := sort_unstable (diagnostics w) |}.

Definition RUN_DIAGNOSTICS : nat := 256.

(** The loop of [merge_diagnostic_runs]; each turn moves one diagnostic. *)
Fixpoint merge_loop (fuel : nat) (left_ right_ merged : list Diagnostic)
    : prog DiagnosticSortError (list Diagnostic) :=
  match left_, right_ with
  | [], [] => mret merged
  | _, _ =>
      match fuel with
      | O => Throw Allocation
      | S fuel =>
          _ ← poll Cancelled;
          match left_, right_ with
          | x :: left', y :: right' =>
              match compare_diagnostics x y with
              | Gt => merge_loop fuel left_ right' (merged ++ [y])
              | _ => merge_loop fuel left' right_ (merged ++ [x])
              end
          | x :: left', [] => merge_loop fuel left' [] (merged ++ [x])
          | [], y :: right' => merge_loop fuel [] right' (merged ++ [y])
          | [], [] => Throw Allocation
          end
      end
  end.

Definition merge_diagnostic_runs (left_ right_ : list Diagnostic)
    : prog DiagnosticSortError (list Diagnostic) :=
  count ← lift (ok_or (checked_add usize (len left_) (len right_)) Allocation);
  _ ← try_reserve Allocation;
  merge_loop (Z.to_nat count) left_ right_ [].

(** The loop that cuts the input into sorted runs. *)
Fixpoint make_runs (fuel : nat) (remaining : Z) (ds : list Diagnostic)
    (runs : list (list Diagnostic)) : prog DiagnosticSortError (list (list Diagnostic)) :=
  match fuel with
  | O => Throw Allocation
  | S fuel =>
      _ ← poll Cancelled;
      let run_capacity := Z.min remaining (Z.of_nat RUN_DIAGNOSTICS) in
      _ ← try_reserve Allocation;
      let run := take (Z.to_nat run_capacity) ds in
      match run with
      | [] => mret runs
      | _ =>
          make_runs fuel (saturating_sub remaining (len run)) (drop (Z.to_nat run_capacity) ds)
            (runs ++ [sort_unstable run])
      end
  end.

(** One pass: neighbouring runs are merged. *)
Fixpoint merge_pass (runs merged_runs : list (list Diagnostic))
    : prog DiagnosticSortError (list (list Diagnostic)) :=
  match runs with
  | [] => mret merged_runs
  | [left_] => _ ← poll Cancelled; mret (merged_runs ++ [left_])
  | left_ :: right_ :: runs =>
      _ ← poll Cancelled;
      run ← merge_diagnostic_runs left_ right_;
      merge_pass runs (merged_runs ++ [run])
  end.

(** Passes until one run is left; each pass at least halves their number. *)
Fixpoint merge_passes (fuel : nat) (runs : list (list Diagnostic))
    : prog DiagnosticSortError (list (list Diagnostic)) :=
  if 1 <? len runs then
    match fuel with
    | O => Throw Allocation
    | S fuel =>
        _ ← poll Cancelled;
        _ ← try_reserve Allocation;
        runs ← merge_pass runs [];
        merge_passes fuel runs
    end
  else mret runs.

Definition canonicalize_diagnostics (ds : list Diagnostic)
    : prog DiagnosticSortError (list Diagnostic) :=
  _ ← poll Cancelled;
  if len ds <=? 1 then mret ds
  else if len ds <=? Z.of_nat RUN_DIAGNOSTICS then
    let ds := sort_unstable ds in
    _ ← poll Cancelled;
    mret ds
  else
    _ ← try_reserve Allocation;
    runs ← make_runs (S (length ds)) (len ds) ds [];
    runs ← merge_passes (length runs) runs;
    _ ← poll Cancelled;
    lift (ok_or (last runs) Allocation).

(** ** A total order on every field *)

Lemma compare_slices_list_cmp {T} (c : T -> T -> comparison) a b :
  compare_slices c a b = list_cmp c a b.
Proof.
  unfold compare_slices. revert b. induction a as [|x a IH]; intros [|y b]; try done.
  cbn [zip zip_with compare_zipped list_cmp]. rewrite <- IH.
  rewrite !len_cons, Z.add_compare_mono_l. by destruct (c x y).
Qed.

#[export] Instance compare_slices_order {T} (c : T -> T -> comparison) :
  TotalOrder c -> TotalOrder (compare_slices c).
Proof.
  intros Hc. refine (total_order_on id (list_cmp c) _ _ _ _).
  apply compare_slices_list_cmp.
Qed.

#[export] Instance compare_span_order : TotalOrder compare_span.
Proof.
  refine (total_order_by (fun s => (file_id (file s), (start_ (range s), end_ (range s))))
    (pair_cmp Z.compare (pair_cmp Z.compare Z.compare)) _ _ _ _).
  - intros [[f] [a b]] [[f'] [a' b']] [= -> -> ->]. done.
  - done.
Qed.

(** A span and a text. *)
Definition annotation_cmp := pair_cmp compare_span bytes_cmp.

#[export] Instance compare_label_order : TotalOrder compare_label.
Proof.
  refine (total_order_by (fun l => (label_span l, label_message l)) annotation_cmp _ _ _ _);
    [intros [] [] [= -> ->]; done|done].
Qed.
#[export] Instance compare_related_order : TotalOrder compare_related.
Proof.
  refine (total_order_by (fun l => (related_span l, related_message l)) annotation_cmp _ _ _ _);
    [intros [] [] [= -> ->]; done|done].
Qed.
#[export] Instance compare_edit_order : TotalOrder compare_edit.
Proof.
  refine (total_order_by (fun l => (edit_span l, replacement l)) annotation_cmp _ _ _ _);
    [intros [] [] [= -> ->]; done|done].
Qed.

#[export] Instance applicability_order :
  TotalOrder (fun a b => applicability_rank a ?= applicability_rank b).
Proof.
  refine (total_order_by applicability_rank Z.compare _ _ _ _); [|done].
  by intros [] [].
Qed.
#[export] Instance severity_order : TotalOrder (fun a b => severity_rank a ?= severity_rank b).
Proof. refine (total_order_by severity_rank Z.compare _ _ _ _); [|done]. by intros [] []. Qed.

#[export] Instance compare_repair_order : TotalOrder compare_repair.
Proof.
  refine (total_order_by (fun r => (repair_message r, (applicability r, edits r)))
    (pair_cmp bytes_cmp (pair_cmp (fun a b => applicability_rank a ?= applicability_rank b)
       (compare_slices compare_edit))) _ _ _ _); [|done].
  by intros [] [] [= -> -> ->].
Qed.

(** The fields of a diagnostic in the order in which they are compared. *)
Definition diagnostic_key (d : Diagnostic) :=
  (category_as_str (category d), (severity d, (primary d, (message d, (code d, (labels d,
    (notes d, (help d, (related d, repairs d))))))))).

#[export] Instance compare_diagnostics_order : TotalOrder compare_diagnostics.
Proof.
  refine (total_order_by diagnostic_key
    (pair_cmp bytes_cmp (pair_cmp (fun a b => severity_rank a ?= severity_rank b)
    (pair_cmp compare_span (pair_cmp bytes_cmp (pair_cmp (option_cmp bytes_cmp)
    (pair_cmp (compare_slices compare_label) (pair_cmp (list_cmp bytes_cmp)
    (pair_cmp (list_cmp bytes_cmp) (pair_cmp (compare_slices compare_related)
       (compare_slices compare_repair)))))))))) _ _ _ _); [|done].
  by intros [[]] [[]] [= -> -> -> -> -> -> -> -> -> ->].
Qed.

(** [compare_diagnostics] is a total order over every field: it is
    antisymmetric and transitive, any two diagnostics are comparable, and it
    answers [Equal] for equal diagnostics only. *)
Theorem compare_diagnostics_total_order a b c :
  (compare_diagnostics a b = Eq <-> a = b)
  /\ compare_diagnostics b a = CompOpp (compare_diagnostics a b)
  /\ (compare_diagnostics a b <> Gt -> compare_diagnostics b c <> Gt -> compare_diagnostics a c <> Gt).
Proof.
  split_and!; [apply cmp_eq|apply cmp_opp|]. apply (le_by_trans compare_diagnostics).
Qed.

(** ** Sorting *)

Abbreviation diagnostic_le := (le_by compare_diagnostics).

Lemma sort_unstable_perm ds : sort_unstable ds ≡ₚ ds.
Proof. apply merge_sort_Permutation. Qed.
Lemma sort_unstable_sorted ds : StronglySorted diagnostic_le (sort_unstable ds).
Proof. apply StronglySorted_merge_sort; apply _. Qed.

Lemma sorted_unique a b :
  StronglySorted diagnostic_le a -> StronglySorted diagnostic_le b -> a ≡ₚ b -> a = b.
Proof. apply StronglySorted_unique. apply _. Qed.

Lemma merge_loop_ok fuel a b merged :
  (length a + length b <= fuel)%nat ->
  quiet (merge_loop fuel a b merged) = Ok (merged ++ list_merge diagnostic_le a b).
Proof.
  revert a b merged. induction fuel as [|fuel IH]; intros a b merged Hf.
  { destruct a, b; simpl in Hf; try lia. cbn. by rewrite app_nil_r. }
  destruct a as [|x a], b as [|y b]; cbn [merge_loop].
  - cbn. by rewrite app_nil_r.
  - rewrite run_poll, IH by (simpl in *; lia). rewrite <- app_assoc. by destruct b.
  - rewrite run_poll, IH by (simpl in *; lia). rewrite <- app_assoc. by destruct a.
  - rewrite run_poll, list_merge_cons.
    destruct (decide (diagnostic_le x y)) as [Hle|Hgt]; unfold le_by in *.
    + destruct (compare_diagnostics x y); [| |done]; rewrite IH by (simpl in *; lia);
        by rewrite <- app_assoc.
    + destruct (compare_diagnostics x y); [by destruct Hgt..|]. rewrite IH by (simpl in *; lia).
      by rewrite <- app_assoc.
Qed.

Lemma merge_diagnostic_runs_ok a b :
  len a + len b < 2 ^ usize ->
  quiet (merge_diagnostic_runs a b) = Ok (list_merge diagnostic_le a b).
Proof.
  intros Hl. unfold merge_diagnostic_runs.
  rewrite (run_ok_or _ _ _ (len a + len b)) by (by apply checked_add_Some).
  rewrite run_try_reserve, merge_loop_ok; [done|]. unfold len. lia.
Qed.

(** The runs that hold the diagnostics [ds]. *)
Definition runs_of (runs : list (list Diagnostic)) (ds : list Diagnostic) : Prop :=
  Forall (StronglySorted diagnostic_le) runs /\ concat runs ≡ₚ ds.

Lemma runs_of_app a b da db : runs_of a da -> runs_of b db -> runs_of (a ++ b) (da ++ db).
Proof.
  intros [Ha Pa] [Hb Pb]. split; [by apply Forall_app|]. by rewrite concat_app, Pa, Pb.
Qed.

Lemma make_runs_ok fuel remaining ds runs done_ :
  remaining = len ds -> (length ds < fuel)%nat -> runs_of runs done_ ->
  exists runs', quiet (make_runs fuel remaining ds runs) = Ok runs'
    /\ runs_of runs' (done_ ++ ds) /\ (ds <> [] -> runs' <> []).
Proof.
  revert remaining ds runs done_. induction fuel as [|fuel IH]; intros rem ds runs done_ -> Hf Hr; [lia|].
  cbn [make_runs]. rewrite run_poll, run_try_reserve.
  set (n := Z.to_nat (Z.min (len ds) (Z.of_nat RUN_DIAGNOSTICS))).
  destruct ds as [|d ds].
  { exists runs. rewrite take_nil, app_nil_r. split_and!; [done..|done]. }
  assert (Hn : (1 <= n <= length (d :: ds))%nat)
    by (unfold n, len, RUN_DIAGNOSTICS; simpl length; lia).
  destruct (take n (d :: ds)) as [|x run] eqn:E.
  { apply (f_equal length) in E. rewrite length_take in E. simpl in E, Hn. lia. }
  rewrite <- E. pose proof (length_drop (d :: ds) n) as Hd.
  destruct (IH (saturating_sub (len (d :: ds)) (len (take n (d :: ds)))) (drop n (d :: ds))
    (runs ++ [sort_unstable (take n (d :: ds))]) (done_ ++ take n (d :: ds))) as (runs' & Hq & Hruns & Hne).
  - unfold saturating_sub, len. rewrite Hd, length_take. lia.
  - rewrite Hd. simpl in *. lia.
  - apply runs_of_app; [done|]. split.
    + constructor; [apply sort_unstable_sorted|constructor].
    + cbn. rewrite app_nil_r. apply sort_unstable_perm.
  - exists runs'. rewrite <- app_assoc, take_drop in Hruns. split_and!; [done..|].
    intros _ ->. destruct Hruns as [_ Hp]. cbn in Hp. apply Permutation_nil in Hp.
    by apply app_nil in Hp as [_ ?].
Qed.

Lemma len_concat_app (runs : list (list Diagnostic)) a :
  len (concat (a :: runs)) = len a + len (concat runs).
Proof. cbn. apply len_app. Qed.

(** A pass keeps the diagnostics and leaves half the runs, rounded up. *)
Lemma merge_pass_ok n : forall runs merged da db,
  (length runs <= n)%nat -> runs_of merged da -> runs_of runs db -> len db < 2 ^ usize ->
  exists runs', quiet (merge_pass runs merged) = Ok runs'
    /\ runs_of runs' (da ++ db)
    /\ length runs' = (length merged + Nat.div2 (S (length runs)))%nat.
Proof.
  induction n as [|n IH]; intros runs merged da db Hn Ha [Hs Hp] Hlen.
  { destruct runs; [|simpl in Hn; lia]. cbn in Hp. apply Permutation_nil in Hp as ->.
    exists merged. rewrite app_nil_r. split_and!; [done..|simpl; lia]. }
  destruct runs as [|a [|b runs]].
  - cbn in Hp. apply Permutation_nil in Hp as ->.
    exists merged. rewrite app_nil_r. split_and!; [done..|simpl; lia].
  - exists (merged ++ [a]). split_and!; [done|by apply runs_of_app|rewrite length_app; simpl; lia].
  - cbn [merge_pass]. rewrite run_poll.
    apply Forall_cons in Hs as [Hsa Hs]. apply Forall_cons in Hs as [Hsb Hs].
    assert (Hl : len a + (len b + len (concat runs)) = len db).
    { rewrite <- !len_concat_app. unfold len. by rewrite Hp. }
    pose proof (len_nonneg (concat runs)). pose proof (len_nonneg a). pose proof (len_nonneg b).
    rewrite (run_ok _ _ _ (merge_diagnostic_runs_ok a b ltac:(lia))).
    destruct (IH runs (merged ++ [list_merge diagnostic_le a b]) (da ++ a ++ b) (concat runs))
      as (runs' & Hq & Hr & Hlr); [simpl in Hn; lia| |by split|lia|].
    + apply runs_of_app; [done|]. split.
      * constructor; [|constructor].
        apply Sorted_StronglySorted; [apply _|]. apply Sorted_list_merge; [apply _|..];
          by apply StronglySorted_Sorted.
      * cbn. rewrite app_nil_r. apply merge_Permutation.
    + exists runs'. split_and!; [done| |rewrite Hlr, length_app; simpl; lia].
      destruct Hr as [Hrs Hrp]. split; [done|].
      rewrite Hrp, <- Hp. cbn. by rewrite <- !app_assoc.
Qed.

Lemma merge_passes_ok fuel : forall runs ds,
  (length runs <= fuel)%nat -> runs_of runs ds -> runs <> [] -> len ds < 2 ^ usize ->
  exists run, quiet (merge_passes fuel runs) = Ok [run]
    /\ StronglySorted diagnostic_le run /\ run ≡ₚ ds.
Proof.
  induction fuel as [|fuel IH]; intros runs ds Hf Hr Hne Hlen;
    [destruct runs; [done|simpl in Hf; lia]|].
  cbn [merge_passes]. destruct (Z.ltb_spec 1 (len runs)) as [Hlt|Hge].
  - rewrite run_poll, run_try_reserve.
    destruct (merge_pass_ok (length runs) runs [] [] ds) as (runs' & Hq & Hr' & Hl);
      [done|by split|done|done|].
    rewrite (run_ok _ _ _ Hq). cbn [length Nat.add] in Hl.
    assert (Hhalf : (1 <= length runs' < length runs)%nat).
    { rewrite Hl. unfold len in Hlt. pose proof (Nat.div2_odd (S (length runs))).
      destruct (Nat.odd (S (length runs))); cbn [Nat.b2n] in *; lia. }
    apply IH; [lia|done|intros ->; simpl in Hhalf; lia|done].
  - destruct runs as [|run [|? ?]]; [done| |unfold len in Hge; simpl in Hge; lia].
    exists run. destruct Hr as [Hs Hp]. cbn in Hp. rewrite app_nil_r in Hp.
    split_and!; [done|by apply Forall_cons in Hs as [? _]|done].
Qed.

(** Undisturbed, the sorter computes the sorted permutation of its input. *)
Lemma canonicalize_quiet ds :
  len ds < 2 ^ usize -> quiet (canonicalize_diagnostics ds) = Ok (sort_unstable ds).
Proof.
  intros Hlen. unfold canonicalize_diagnostics. rewrite run_poll.
  destruct (Z.leb_spec (len ds) 1).
  { destruct ds as [|d [|? ?]]; [done..|]. unfold len in *. simpl in *. lia. }
  destruct (Z.leb_spec (len ds) (Z.of_nat RUN_DIAGNOSTICS)); [done|].
  rewrite run_try_reserve.
  destruct (make_runs_ok (S (length ds)) (len ds) ds [] []) as (runs & Hm & Hr & Hne);
    [done|lia|by split|].
  rewrite (run_ok _ _ _ Hm).
  destruct (merge_passes_ok (length runs) runs ds) as (run & Hq & Hs & Hp); [done|done| |done|].
  { apply Hne. intros ->. unfold len in *. simpl in *. lia. }
  rewrite (run_ok _ _ _ Hq), run_poll. cbn. f_equal.
  apply sorted_unique; [done|apply sort_unstable_sorted|]. by rewrite Hp, sort_unstable_perm.
Qed.

(** ** Interruption *)

(** Each question leads to the error that names it. *)
Definition sort_blame (q : query) (e : DiagnosticSortError) : Prop :=
  match q with Poll => e = Cancelled | Reserve => e = Allocation end.

#[export] Instance poll_sort_blames : blames sort_blame (poll Cancelled).
Proof. by apply blames_poll. Qed.
#[export] Instance reserve_sort_blames : blames sort_blame (try_reserve Allocation).
Proof. by apply blames_try_reserve. Qed.
#[export] Instance merge_loop_blames fuel a b m : blames sort_blame (merge_loop fuel a b m).
Proof.
  revert a b m. induction fuel as [|fuel IH]; intros [|x a] [|y b] m; cbn [merge_loop]; try apply _.
  apply blames_bind; [apply _|intros _]. case_match; apply _.
Qed.
#[export] Instance merge_diagnostic_runs_blames a b : blames sort_blame (merge_diagnostic_runs a b).
Proof. unfold merge_diagnostic_runs. apply _. Qed.
#[export] Instance make_runs_blames fuel r ds runs : blames sort_blame (make_runs fuel r ds runs).
Proof.
  revert r ds runs. induction fuel as [|fuel IH]; intros r ds runs; cbn [make_runs]; [apply _|].
  do 2 (apply blames_bind; [apply _|intros _]). case_match; apply _.
Qed.
Lemma merge_pass_blames n : forall runs m, (length runs <= n)%nat -> blames sort_blame (merge_pass runs m).
Proof.
  induction n as [|n IH]; intros [|a [|b runs]] m Hn; cbn [merge_pass]; try apply _; try (simpl in Hn; lia).
  do 2 (apply blames_bind; [apply _|intros ?]). apply IH. simpl in Hn. lia.
Qed.
#[export] Instance merge_passes_blames fuel runs : blames sort_blame (merge_passes fuel runs).
Proof.
  revert runs. induction fuel as [|fuel IH]; intros runs; cbn [merge_passes]; case_match; try apply _.
  do 2 (apply blames_bind; [apply _|intros _]). apply blames_bind; [by eapply merge_pass_blames|apply _].
Qed.
#[export] Instance canonicalize_blames ds : blames sort_blame (canonicalize_diagnostics ds).
Proof.
  unfold canonicalize_diagnostics. apply blames_bind; [apply _|intros _].
  repeat (case_match; [apply _|]). apply _.
Qed.

(** C33: the canonical form of a set of diagnostics does not depend on the order
    in which phases report them: for any two arrangements of the same
    diagnostics, and whatever cancellation and allocation do, sorting ends
    with the same sorted sequence, which holds exactly these diagnostics, or
    with one of the two interruption errors. *)
Theorem canonicalize_is_canonical ds :
  len ds < 2 ^ usize ->
  exists out, out ≡ₚ ds /\ StronglySorted diagnostic_le out
    /\ quiet (canonicalize_diagnostics ds) = Ok out
    /\ forall env ds', ds' ≡ₚ ds ->
         fst (run env start (canonicalize_diagnostics ds')) = Ok out
         \/ fst (run env start (canonicalize_diagnostics ds')) = Err Cancelled
         \/ fst (run env start (canonicalize_diagnostics ds')) = Err Allocation.
Proof.
  intros Hlen. exists (sort_unstable ds). split_and!.
  - apply sort_unstable_perm.
  - apply sort_unstable_sorted.
  - by apply canonicalize_quiet.
  - intros env ds' Hp.
    destruct (run_blames sort_blame env start (canonicalize_diagnostics ds') _)
      as [->|(q & e & -> & _)]; [left|right; destruct e; auto].
    rewrite canonicalize_quiet by (unfold len in *; by rewrite Hp). f_equal.
    apply sorted_unique; [apply sort_unstable_sorted..|]. by rewrite !sort_unstable_perm.
Qed.

Definition sample_diagnostic (text : string) : Diagnostic :=
  error TYPE {| file := {| file_id := 0 |}; range := {| start_ := 0; end_ := 0 |} |} (ascii text).

Example canonicalize_is_canonical_witness :
  let ds := [sample_diagnostic "b"; sample_diagnostic "a"] in
  len ds < 2 ^ usize
  /\ exists out, out ≡ₚ ds /\ quiet (canonicalize_diagnostics ds) = Ok out.
Proof.
  assert (H : len [sample_diagnostic "b"; sample_diagnostic "a"] < 2 ^ usize) by reflexivity.
  split; [exact H|].
  destruct (canonicalize_is_canonical [sample_diagnostic "b"; sample_diagnostic "a"] H)
    as (out & Hp & _ & Hq & _).
  exists out. split; [exact Hp|exact Hq].
Defined.

Example compare_diagnostics_total_order_witness :
  compare_diagnostics (sample_diagnostic "a") (sample_diagnostic "b") = Lt
  /\ compare_diagnostics (sample_diagnostic "a") (sample_diagnostic "c") <> Gt.
Proof.
  split; [reflexivity|].
  refine (proj2 (proj2 (compare_diagnostics_total_order (sample_diagnostic "a")
    (sample_diagnostic "b") (sample_diagnostic "c"))) _ _); discriminate.
Defined.
