(* ===== verification/PackageGraph.v ===== *)
(** The package graph ([crates/wrela-package]): its incremental construction
    with duplicate and edge validation, the rejection of dependency cycles and
    of unreachable packages, and the canonical numbering of the result. *)

From Stdlib Require Import Strings.Byte Sorting.Sorted.
From stdpp Require Import base numbers list option strings gmap sorting relations.
From S2P Require Import Prelude Bytes Order Text BuildModel Source.

#[local] Open Scope Z_scope.

Definition MAX_PACKAGES : Z := 1000000.
Definition MAX_MODULES : Z := 1000000.
Definition MAX_DEPENDENCIES_PER_PACKAGE : Z := 65536.

Record PackageId := { package_id : Z }.
Record ModuleId := { module_id : Z }.
Record PackageHandle := { handle : Z }.
Record ModuleHandle := { module_handle : Z }.
Record PackageName := { package_name : str }.
Record PackageVersion := { package_version : str }.
Record DependencyAlias := { alias_as_str : str }.
Record ModulePath := { segments : list str }.

Record PackageIdentity := {
  name : PackageName;
  version : PackageVersion;
  identity_digest : Sha256Digest;  (* [source_digest] *)
}.

Definition portable_key (path : ModulePath) : list str := map to_ascii_lowercase (segments path).

(** ** The finished graph *)

Record DependencyEdge := { alias : DependencyAlias; edge_package : PackageId }.
Record PackageRecord := {
  record_id : PackageId;
  record_identity : PackageIdentity;
  record_dependencies : list DependencyEdge;
}.
Record ModuleRecord := {
  module_record_id : ModuleId;
  module_package : PackageId;
  module_path : ModulePath;
  module_source : FileId;
}.
Record PackageGraph := {
  graph_root : PackageId;
  graph_packages : list PackageRecord;
  graph_modules : list ModuleRecord;
}.

Definition package (g : PackageGraph) (id : PackageId) : option PackageRecord :=
  graph_packages g !! Z.to_nat (package_id id).

(** ** Errors

    [GraphFailed] carries the code's [GraphError]; [Panicked] is an index out
    of range or an underflow, which would stop the program. *)

Inductive GraphError :=
| DuplicatePackage (identity : PackageIdentity)
| UnknownPackage (package : PackageHandle)
| SelfDependency (package : PackageHandle)
| DuplicateDependencyAlias (package : PackageHandle) (alias : DependencyAlias)
| DuplicateDependencyPackage (package dependency : PackageHandle)
| DuplicateModule (package : PackageHandle) (path : ModulePath)
| PortableModuleCollision (package : PackageHandle) (path : ModulePath)
| DuplicateModuleSource (source : FileId)
| DependencyCycle (package : PackageHandle)
| UnreachablePackage (package : PackageHandle)
| TooManyDependencies (package : PackageHandle)
| GraphTooLarge.

Inductive stop := GraphFailed (error : GraphError) | Panicked.

(** ** Decidable equality *)

#[export] Instance PackageHandle_eq_dec : EqDecision PackageHandle.
Proof. solve_decision. Defined.
#[export] Instance PackageName_eq_dec : EqDecision PackageName.
Proof. solve_decision. Defined.
#[export] Instance PackageVersion_eq_dec : EqDecision PackageVersion.
Proof. solve_decision. Defined.
#[export] Instance DependencyAlias_eq_dec : EqDecision DependencyAlias.
Proof. solve_decision. Defined.
#[export] Instance ModulePath_eq_dec : EqDecision ModulePath.
Proof. solve_decision. Defined.
#[export] Instance PackageIdentity_eq_dec : EqDecision PackageIdentity.
Proof. solve_decision. Defined.

#[export] Instance PackageHandle_countable : Countable PackageHandle.
Proof. by refine (inj_countable' handle Build_PackageHandle _); intros []. Defined.
#[export] Instance ModulePath_countable : Countable ModulePath.
Proof. by refine (inj_countable' segments Build_ModulePath _); intros []. Defined.
#[export] Instance FileId_countable : Countable FileId.
Proof. by refine (inj_countable' file_id Build_FileId _); intros []. Defined.
#[export] Instance PackageIdentity_countable : Countable PackageIdentity.
Proof.
  by refine (inj_countable'
    (fun i => (package_name (name i), package_version (version i), as_bytes (identity_digest i)))
    (fun '(n, v, d) => {| name := Build_PackageName n; version := Build_PackageVersion v;
                          identity_digest := from_bytes d |}) _); intros [[] [] []].
Defined.

(** The derived [Ord] of identities: name, version, digest. *)
Definition identity_cmp (a b : PackageIdentity) : comparison :=
  then_cmp (bytes_cmp (package_name (name a)) (package_name (name b)))
    (then_cmp (bytes_cmp (package_version (version a)) (package_version (version b)))
       (bytes_cmp (as_bytes (identity_digest a)) (as_bytes (identity_digest b)))).

(** ** The builder *)

Record PendingDependency := { pending_alias : DependencyAlias; pending_target : PackageHandle }.
Record PendingPackage := {
  pending_identity : PackageIdentity;
  dependencies : list PendingDependency;
  dependency_aliases : gset str;
  dependency_packages : gset PackageHandle;
}.
Record PendingModule := {
  pending_package : PackageHandle;
  pending_path : ModulePath;
  pending_source : FileId;
}.
Record PackageGraphBuilder := {
  root : PackageHandle;
  packages : list PendingPackage;
  modules : list PendingModule;
  identities : gset PackageIdentity;
  module_paths : gset (PackageHandle * ModulePath);
  portable_module_paths : gset (PackageHandle * list str);
  module_sources : gset FileId;
}.

Definition fresh_package (identity : PackageIdentity) : PendingPackage :=
  {| pending_identity := identity; dependencies := [];
     dependency_aliases := ∅; dependency_packages := ∅ |}.

Definition new (root_identity : PackageIdentity) : PackageGraphBuilder := {|
  root := {| handle := 0 |};
  packages := [fresh_package root_identity];
  modules := [];
  identities := {[ root_identity ]};
  module_paths := ∅;
  portable_module_paths := ∅;
  module_sources := ∅;
|}.

Definition package_index (b : PackageGraphBuilder) (id : PackageHandle) : option nat :=
  let index := Z.to_nat (handle id) in
  if bool_decide (index < length (packages b))%nat then Some index else None.

Definition add_package (b : PackageGraphBuilder) (identity : PackageIdentity)
    : result GraphError (PackageHandle * PackageGraphBuilder) :=
  if MAX_PACKAGES <=? len (packages b) then Err GraphTooLarge
  else if bool_decide (identity ∈ identities b) then Err (DuplicatePackage identity)
  else
    index ← ok_or (try_u32 (len (packages b))) GraphTooLarge;
    Ok ({| handle := index |},
        {| root := root b;
           packages := packages b ++ [fresh_package identity];
           modules := modules b;
           identities := {[ identity ]} ∪ identities b;
           module_paths := module_paths b;
           portable_module_paths := portable_module_paths b;
           module_sources := module_sources b |}).

Definition with_packages (b : PackageGraphBuilder) (packages : list PendingPackage)
    : PackageGraphBuilder :=
  {| root := root b; packages := packages; modules := modules b; identities := identities b;
     module_paths := module_paths b; portable_module_paths := portable_module_paths b;
     module_sources := module_sources b |}.

Definition add_dependency (b : PackageGraphBuilder) (package : PackageHandle)
    (alias : DependencyAlias) (dependency : PackageHandle)
    : result GraphError PackageGraphBuilder :=
  if bool_decide (package = dependency) then Err (SelfDependency package)
  else
    index ← ok_or (package_index b package) (UnknownPackage package);
    _ ← ok_or (package_index b dependency) (UnknownPackage dependency);
    pending ← ok_or (packages b !! index) (UnknownPackage package);
    let portable_alias := to_ascii_lowercase (alias_as_str alias) in
    if bool_decide (portable_alias ∈ dependency_aliases pending)
    then Err (DuplicateDependencyAlias package alias)
    else if bool_decide (dependency ∈ dependency_packages pending)
    then Err (DuplicateDependencyPackage package dependency)
    else if MAX_DEPENDENCIES_PER_PACKAGE <=? len (dependencies pending)
    then Err (TooManyDependencies package)
    else
      Ok (with_packages b (<[index := {|
        pending_identity := pending_identity pending;
        dependencies := dependencies pending
                          ++ [{| pending_alias := alias; pending_target := dependency |}];
        dependency_aliases := {[ portable_alias ]} ∪ dependency_aliases pending;
        dependency_packages := {[ dependency ]} ∪ dependency_packages pending |}]> (packages b))).

Definition add_module (b : PackageGraphBuilder) (package : PackageHandle) (path : ModulePath)
    (source : FileId) : result GraphError (ModuleHandle * PackageGraphBuilder) :=
  if MAX_MODULES <=? len (modules b) then Err GraphTooLarge
  else
    _ ← ok_or (package_index b package) (UnknownPackage package);
    let exact_key := (package, path) in
    if bool_decide (exact_key ∈ module_paths b) then Err (DuplicateModule package path) else
    let key := (package, portable_key path) in
    if bool_decide (key ∈ portable_module_paths b)
    then Err (PortableModuleCollision package path) else
    if bool_decide (source ∈ module_sources b) then Err (DuplicateModuleSource source) else
    index ← ok_or (try_u32 (len (modules b))) GraphTooLarge;
    Ok ({| module_handle := index |},
        {| root := root b; packages := packages b;
           modules := modules b ++ [{| pending_package := package; pending_path := path;
                                       pending_source := source |}];
           identities := identities b;
           module_paths := {[ exact_key ]} ∪ module_paths b;
           portable_module_paths := {[ key ]} ∪ portable_module_paths b;
           module_sources := {[ source ]} ∪ module_sources b |}).

(** ** Cycles

    [Option] results are [None] where the code would panic. *)

Definition targets (p : PendingPackage) : list nat :=
  map (fun d => Z.to_nat (handle (pending_target d))) (dependencies p).

(** A [BTreeSet<usize>] as its elements in order. *)
Fixpoint set_insert (i : nat) (s : list nat) : list nat :=
  match s with
  | [] => [i]
  | j :: s =>
      match Nat.compare i j with
      | Lt => i :: j :: s
      | Eq => j :: s
      | Gt => j :: set_insert i s
      end
  end.

(** [dependents[dependency].push(package_index)]. *)
Definition push_dependent (package_index : nat) (dependents : list (list nat)) (dependency : nat)
    : option (list (list nat)) :=
  entry ← dependents !! dependency;
  Some (<[dependency := entry ++ [package_index]]> dependents).

Fixpoint foldM {A B} (f : A -> B -> option A) (a : A) (bs : list B) : option A :=
  match bs with
  | [] => Some a
  | b :: bs => a ← f a b; foldM f a bs
  end.

Definition push_dependents (dependents : list (list nat)) (entry : nat * list nat)
    : option (list (list nat)) :=
  foldM (push_dependent (fst entry)) dependents (snd entry).

(** One turn of [for dependent in &dependents[index]]. *)
Definition complete_dependency (state : list Z * list nat) (dependent : nat)
    : option (list Z * list nat) :=
  let '(remaining, ready) := state in
  count ← remaining !! dependent;
  count ← checked_sub count 1;
  Some (<[dependent := count]> remaining, if count =? 0 then set_insert dependent ready else ready).

(** [while let Some(index) = ready.pop_first()]. *)
Fixpoint kahn_loop (fuel : nat) (dependents : list (list nat)) (remaining : list Z)
    (ready : list nat) (completed : Z) : option (list Z * Z) :=
  match ready with
  | [] => Some (remaining, completed)
  | index :: ready =>
      match fuel with
      | O => None
      | S fuel =>
          of_index ← dependents !! index;
          '(remaining, ready) ← foldM complete_dependency (remaining, ready) of_index;
          kahn_loop fuel dependents remaining ready (completed + 1)
      end
  end.

(** [iter().position(..)]. *)
Fixpoint position {A} (test : A -> bool) (l : list A) : option nat :=
  match l with
  | [] => None
  | x :: l => if test x then Some 0%nat else S <$> position test l
  end.

Definition or_panic {A} (o : option A) : result stop A := ok_or o Panicked.

Definition reject_dependency_cycles (packages : list PendingPackage) : result stop unit :=
  let remaining_dependencies := map (fun p => len (dependencies p)) packages in
  dependents ← or_panic (foldM push_dependents (replicate (length packages) [])
                           (imap (fun i p => (i, targets p)) packages));
  let ready :=
    foldr set_insert [] (omap (fun '(i, count) => if count =? 0 then Some i else None)
                           (imap (fun i count => (i, count)) remaining_dependencies)) in
  '(remaining_dependencies, completed) ←
    or_panic (kahn_loop (length packages) dependents remaining_dependencies ready 0);
  if negb (completed =? len packages) then
    let index := default 0%nat (position (fun count => negb (count =? 0)) remaining_dependencies) in
    Err (GraphFailed (DependencyCycle {| handle := Z.of_nat index mod 2 ^ 32 |}))
  else Ok tt.

(** ** Reachability *)

(** One turn of [for dependency in &packages[package_index].dependencies]. *)
Definition visit (state : list bool * list nat) (dependency : nat) : option (list bool * list nat) :=
  let '(reachable, pending) := state in
  seen ← reachable !! dependency;
  if seen : bool then Some (reachable, pending)
  else Some (<[dependency := true]> reachable, pending ++ [dependency]).

(** [while let Some(package_index) = pending.pop_front()]. *)
Fixpoint reach_loop (fuel : nat) (packages : list PendingPackage) (reachable : list bool)
    (pending : list nat) : option (list bool) :=
  match pending with
  | [] => Some reachable
  | package_index :: pending =>
      match fuel with
      | O => None
      | S fuel =>
          p ← packages !! package_index;
          '(reachable, pending) ← foldM visit (reachable, pending) (targets p);
          reach_loop fuel packages reachable pending
      end
  end.

Definition reject_unreachable_packages (packages : list PendingPackage) (root : PackageHandle)
    : result stop unit :=
  let start := Z.to_nat (handle root) in
  _ ← or_panic (packages !! start);
  let reachable := <[start := true]> (replicate (length packages) false) in
  reachable ← or_panic (reach_loop (length packages) packages reachable [start]);
  match position negb reachable with
  | Some index => Err (GraphFailed (UnreachablePackage {| handle := Z.of_nat index mod 2 ^ 32 |}))
  | None => Ok tt
  end.

(** ** Finishing *)

(** [(final_ids[package], &path)]. *)
Definition module_key_cmp : Z * ModulePath -> Z * ModulePath -> comparison :=
  pair_cmp Z.compare (fun a b => list_cmp bytes_cmp (segments a) (segments b)).

Definition identity_at (packages : list PendingPackage) (i : nat) : PackageIdentity :=
  default {| name := Build_PackageName []; version := Build_PackageVersion [];
             identity_digest := from_bytes [] |} (pending_identity <$> packages !! i).

(** The loop that numbers the packages in their final order. *)
Fixpoint assign_ids (final_index : Z) (order : list nat) (final_ids : list Z) : result stop (list Z) :=
  match order with
  | [] => Ok final_ids
  | pending_index :: order =>
      id ← ok_or (try_u32 final_index) (GraphFailed GraphTooLarge);
      _ ← or_panic (final_ids !! pending_index);
      assign_ids (final_index + 1) order (<[pending_index := id]> final_ids)
  end.

Definition final_edge (final_ids : list Z) (edge : PendingDependency) : result stop DependencyEdge :=
  id ← or_panic (final_ids !! Z.to_nat (handle (pending_target edge)));
  Ok {| alias := pending_alias edge; edge_package := {| package_id := id |} |}.

Definition final_package (packages : list PendingPackage) (final_ids : list Z) (pending_index : nat)
    : result stop PackageRecord :=
  pending ← or_panic (packages !! pending_index);
  edges ← mapM (final_edge final_ids) (dependencies pending);
  let edges := sort_by (fun l r => bytes_cmp (alias_as_str (alias l)) (alias_as_str (alias r))) edges in
  id ← or_panic (final_ids !! pending_index);
  Ok {| record_id := {| package_id := id |}; record_identity := pending_identity pending;
        record_dependencies := edges |}.

(** [final_ids[package.0 as usize]]. *)
Definition final_id (final_ids : list Z) (m : PendingModule) : result stop (Z * PendingModule) :=
  id ← or_panic (final_ids !! Z.to_nat (handle (pending_package m)));
  Ok (id, m).

Fixpoint number_modules (index : Z) (ms : list (Z * PendingModule)) : result stop (list ModuleRecord) :=
  match ms with
  | [] => Ok []
  | (id, m) :: ms =>
      number ← ok_or (try_u32 index) (GraphFailed GraphTooLarge);
      rest ← number_modules (index + 1) ms;
      Ok ({| module_record_id := {| module_id := number |};
             module_package := {| package_id := id |};
             module_path := pending_path m; module_source := pending_source m |} :: rest)
  end.

Definition finish (b : PackageGraphBuilder) : result stop PackageGraph :=
  _ ← reject_dependency_cycles (packages b);
  _ ← reject_unreachable_packages (packages b) (root b);
  let count := length (packages b) in
  let order := 0%nat :: sort_by (fun l r => identity_cmp (identity_at (packages b) l)
                                              (identity_at (packages b) r)) (seq 1 (count - 1)) in
  final_ids ← assign_ids 0 order (replicate count 0);
  records ← mapM (final_package (packages b) final_ids) order;
  pending_modules ← mapM (final_id final_ids) (modules b);
  let pending_modules :=
    sort_by (fun l r => module_key_cmp (fst l, pending_path (snd l)) (fst r, pending_path (snd r)))
      pending_modules in
  module_records ← number_modules 0 pending_modules;
  Ok {| graph_root := {| package_id := 0 |}; graph_packages := records;
        graph_modules := module_records |}.

(** ** Tallies *)

(** How often [x] occurs in [l]. *)
Definition occ (x : nat) (l : list nat) : nat := length (filter (fun y => y = x) l).

Lemma occ_nil x : occ x [] = 0%nat.
Proof. done. Qed.
Lemma occ_cons x y l : occ x (y :: l) = ((if decide (y = x) then 1 else 0) + occ x l)%nat.
Proof. unfold occ. rewrite filter_cons. by destruct (decide (y = x)). Qed.
Lemma occ_app x l k : occ x (l ++ k) = (occ x l + occ x k)%nat.
Proof. unfold occ. by rewrite filter_app, length_app. Qed.
Lemma occ_pos x l : (0 < occ x l)%nat <-> x ∈ l.
Proof.
  induction l as [|y l IH]; [rewrite occ_nil, elem_of_nil; lia|].
  rewrite occ_cons, elem_of_cons, <- IH. destruct (decide (y = x)); naive_solver lia.
Qed.
Lemma occ_zero x l : occ x l = 0%nat <-> x ∉ l.
Proof. rewrite <- occ_pos. lia. Qed.

(** How many entries of [l] are not in [done]. *)
Definition open_count (done_ l : list nat) : nat := length (filter (fun y => y ∉ done_) l).

Lemma open_count_nil l : open_count [] l = length l.
Proof.
  unfold open_count. induction l as [|y l IH]; [done|].
  rewrite filter_cons_True by apply not_elem_of_nil. cbn [length]. f_equal. exact IH.
Qed.
Lemma open_count_cons x done_ l :
  x ∉ done_ -> open_count done_ l = (open_count (x :: done_) l + occ x l)%nat.
Proof.
  intros Hx. induction l as [|y l IH]; [done|]. rewrite occ_cons. unfold open_count in *.
  rewrite !filter_cons.
  destruct (decide (y ∉ done_)), (decide (y ∉ x :: done_)), (decide (y = x)); cbn [length];
    try lia; set_solver.
Qed.
Lemma open_count_zero done_ l : open_count done_ l = 0%nat <-> forall y, y ∈ l -> y ∈ done_.
Proof.
  unfold open_count. rewrite length_zero_iff_nil. split.
  - intros E y Hy. destruct (decide (y ∈ done_)) as [|Hn]; [done|].
    assert (y ∈ filter (fun y => y ∉ done_) l) as H by (by apply list_elem_of_filter).
    rewrite E in H. by apply not_elem_of_nil in H.
  - intros H. induction l as [|y l IH]; [done|]. rewrite filter_cons_False by set_solver.
    apply IH. set_solver.
Qed.

(** ** Ordered sets *)

Lemma set_insert_elem i s j : j ∈ set_insert i s <-> j = i \/ j ∈ s.
Proof.
  induction s as [|k s IH]; simpl; [set_solver|].
  destruct (Nat.compare_spec i k) as [->| |]; set_solver.
Qed.
Lemma set_insert_sorted i s : StronglySorted lt s -> StronglySorted lt (set_insert i s).
Proof.
  induction 1 as [|k s Hs IH Hk]; simpl; [repeat constructor|].
  destruct (Nat.compare_spec i k) as [->|Hlt|Hgt].
  - by constructor.
  - repeat constructor; try done. eapply Forall_impl; [done|]. intros. lia.
  - constructor; [done|]. apply Forall_forall. intros j [->|Hj]%set_insert_elem; [done|].
    by eapply Forall_forall in Hk.
Qed.
Lemma sorted_NoDup s : StronglySorted lt s -> NoDup s.
Proof.
  induction 1 as [|k s Hs IH Hk]; constructor; [|done]. intros Hin.
  eapply Forall_forall in Hk; [|done]. lia.
Qed.
Lemma fold_insert l :
  StronglySorted lt (foldr set_insert [] l) /\ (forall i, i ∈ foldr set_insert [] l <-> i ∈ l).
Proof.
  induction l as [|i l [IHs IHe]]; simpl; [split; [constructor|done]|]. split.
  - by apply set_insert_sorted.
  - intros j. rewrite set_insert_elem, IHe, elem_of_cons. done.
Qed.

Lemma position_Some {A} (test : A -> bool) l i :
  position test l = Some i <->
  (exists x, l !! i = Some x /\ test x = true) /\
  (forall j x, (j < i)%nat -> l !! j = Some x -> test x = false).
Proof.
  revert i. induction l as [|y l IH]; intros i; simpl; [naive_solver|].
  destruct (test y) eqn:E.
  - split; [intros [= <-]; naive_solver lia|]. intros [_ H]. destruct i as [|i]; [done|].
    specialize (H 0%nat y ltac:(lia) eq_refl). congruence.
  - rewrite fmap_Some. split.
    + intros (k & [Hk Hl]%IH & ->). split; [done|]. intros [|j] x Hj Hx; [by injection Hx as <-|].
      apply (Hl j); [lia|done].
    + intros [(x & Hx & Ht) Hl]. destruct i as [|i]; [simpl in Hx; congruence|]. exists i. split; [|done].
      apply IH. split; [by exists x|]. intros j z Hj Hz. apply (Hl (S j)); [lia|done].
Qed.
Lemma position_None {A} (test : A -> bool) l :
  position test l = None <-> forall i x, l !! i = Some x -> test x = false.
Proof.
  induction l as [|y l IH]; simpl; [naive_solver|]. destruct (test y) eqn:E.
  - split; [done|]. intros H. specialize (H 0%nat y eq_refl). congruence.
  - rewrite fmap_None, IH. split; [|intros H i; apply (H (S i))].
    intros H [|i] x Hx; [by injection Hx as <-|]. by apply (H i x).
Qed.

(** ** The dependency relation *)

Definition deps_at (ps : list PendingPackage) (i : nat) : list nat :=
  default [] (targets <$> ps !! i).
(** Package [i] depends on package [j]. *)
Definition depends (ps : list PendingPackage) (i j : nat) : Prop := j ∈ deps_at ps i.
Definition in_range (ps : list PendingPackage) : Prop :=
  forall i j, depends ps i j -> (j < length ps)%nat.
Definition reaches_cycle (ps : list PendingPackage) (i : nat) : Prop :=
  exists k, rtc (depends ps) i k /\ tc (depends ps) k k.

Lemma deps_at_lookup ps i p : ps !! i = Some p -> deps_at ps i = targets p.
Proof. unfold deps_at. by intros ->. Qed.
Lemma depends_lt ps i j : depends ps i j -> (i < length ps)%nat.
Proof.
  unfold depends, deps_at. destruct (ps !! i) eqn:E; [by intros _; eapply lookup_lt_Some|].
  intros H. by apply not_elem_of_nil in H.
Qed.
Lemma sn_no_cycle ps i : sn (depends ps) i -> ~ reaches_cycle ps i.
Proof.
  intros Hsn (k & Hik & Hk).
  assert (sn (depends ps) k) as Hk'.
  { induction Hik as [|i j k Hij _ IH]; [exact Hsn|]. apply IH; [|exact Hk].
    destruct Hsn as [Hsn]. exact (Hsn _ Hij). }
  clear Hik Hsn. induction Hk' as [k _ IH].
  inversion Hk as [x y Hxy|x y z Hxy Hyz]; subst; [exact (IH k Hxy Hk)|].
  apply (IH y Hxy). eapply tc_r; [exact Hyz|exact Hxy].
Qed.

(** *** Dependents *)

Lemma foldM_push k ds D :
  (forall j, j ∈ ds -> (j < length D)%nat) ->
  exists D', foldM (push_dependent k) D ds = Some D' /\ length D' = length D /\
    forall i j, occ i (D' !!! j) = (occ i (D !!! j) + (if decide (i = k) then occ j ds else 0))%nat.
Proof.
  revert D. induction ds as [|d ds IH]; intros D Hd; cbn [foldM].
  { exists D. split_and!; [done..|]. intros i j. rewrite occ_nil. destruct (decide _); lia. }
  assert (d < length D)%nat as Hlt by (apply Hd; left).
  destruct (lookup_lt_is_Some_2 D d Hlt) as [entry He].
  assert (push_dependent k D d = Some (<[d := entry ++ [k]]> D)) as Hpush
    by (unfold push_dependent; by rewrite He).
  rewrite Hpush. cbn [mbind option_bind].
  destruct (IH (<[d := entry ++ [k]]> D)) as (D' & Hf & Hl & Ho).
  { intros j Hj. rewrite length_insert. apply Hd. by right. }
  exists D'. rewrite Hf, Hl, length_insert. split_and!; [done..|]. intros i j. rewrite Ho, occ_cons.
  destruct (decide (d = j)) as [->|Hne].
  - rewrite list_lookup_total_insert_eq, (list_lookup_total_correct _ _ _ He), occ_app, occ_cons, occ_nil by done.
    destruct (decide (i = k)), (decide (k = i)); try done; lia.
  - rewrite list_lookup_total_insert_ne by done. destruct (decide (i = k)); lia.
Qed.

Definition tally (i j : nat) (entries : list (nat * list nat)) : nat :=
  foldr (fun e n => ((if decide (i = fst e) then occ j (snd e) else 0) + n)%nat) 0%nat entries.

Lemma foldM_push_all entries D :
  (forall e j, e ∈ entries -> j ∈ snd e -> (j < length D)%nat) ->
  exists D', foldM push_dependents D entries = Some D' /\ length D' = length D /\
    forall i j, occ i (D' !!! j) = (occ i (D !!! j) + tally i j entries)%nat.
Proof.
  revert D. induction entries as [|[k ds] entries IH]; intros D Hd; cbn [foldM].
  { exists D. split_and!; [done..|]. intros i j. cbn. lia. }
  destruct (foldM_push k ds D) as (D1 & H1 & Hl1 & Ho1).
  { intros j Hj. by apply (Hd (k, ds)); [left|]. }
  change (push_dependents D (k, ds) = Some D1) in H1. rewrite H1. cbn [mbind option_bind].
  destruct (IH D1) as (D' & Hf & Hl & Ho).
  { intros e j He. rewrite Hl1. apply Hd. by right. }
  exists D'. rewrite Hl, Hl1. split_and!; [exact Hf|done|]. intros i j. rewrite Ho, Ho1.
  cbn [tally foldr fst snd]. fold (tally i j entries). lia.
Qed.

Lemma tally_imap i j ps off :
  tally i j (imap (fun m p => ((off + m)%nat, targets p)) ps) =
    if decide (off <= i)%nat then occ j (deps_at ps (i - off)) else 0%nat.
Proof.
  revert off. induction ps as [|p ps IH]; intros off.
  { unfold deps_at. rewrite lookup_nil. by destruct (decide _). }
  rewrite imap_cons. cbn [tally foldr fst snd].
  rewrite (imap_ext _ (fun m p => ((S off + m)%nat, targets p))) by (intros m q _; cbn; f_equal; lia).
  fold (tally i j (imap (fun m p => ((S off + m)%nat, targets p)) ps)). rewrite IH.
  rewrite Nat.add_0_r. destruct (decide (i = off)) as [->|Hne].
  - rewrite Nat.sub_diag. destruct (decide (S off <= off)%nat), (decide (off <= off)%nat); try lia.
    change (deps_at (p :: ps) 0) with (targets p). lia.
  - destruct (decide (S off <= i)%nat), (decide (off <= i)%nat); try lia.
    replace (i - off)%nat with (S (i - S off)) by lia. done.
Qed.

Lemma dependents_correct ps :
  in_range ps ->
  exists D, foldM push_dependents (replicate (length ps) [])
              (imap (fun i p => (i, targets p)) ps) = Some D /\
    length D = length ps /\ forall i j, occ i (D !!! j) = occ j (deps_at ps i).
Proof.
  intros Hr. destruct (foldM_push_all (imap (fun i p => (i, targets p)) ps) (replicate (length ps) []))
    as (D & Hf & Hl & Ho).
  { intros e j He Hj. rewrite length_replicate. apply elem_of_lookup_imap in He as (i & p & -> & Hp).
    apply (Hr i). unfold depends. by rewrite (deps_at_lookup _ _ _ Hp). }
  exists D. rewrite Hl, length_replicate. split_and!; [done..|]. intros i j. rewrite Ho.
  pose proof (tally_imap i j ps 0) as Ht. cbn [Nat.add] in Ht. rewrite Ht.
  rewrite decide_True, Nat.sub_0_r by lia.
  assert (replicate (length ps) [] !!! j = []) as ->; [|rewrite occ_nil; lia].
  destruct (decide (j < length ps)%nat); [by apply lookup_total_replicate_2|].
  rewrite list_lookup_total_alt, lookup_ge_None_2; [done|]. rewrite length_replicate. lia.
Qed.

(** *** Completing one package *)

(** The state of the loop: open counts and the ready set. *)
Lemma complete_all l remaining ready :
  StronglySorted lt ready ->
  (forall j, j ∈ l -> (j < length remaining)%nat) ->
  (forall j, Z.of_nat (occ j l) <= remaining !!! j) ->
  exists remaining' ready',
    foldM complete_dependency (remaining, ready) l = Some (remaining', ready') /\
    length remaining' = length remaining /\ StronglySorted lt ready' /\
    (forall j, remaining' !!! j = remaining !!! j - Z.of_nat (occ j l)) /\
    (forall j, j ∈ ready' <-> j ∈ ready \/ j ∈ l /\ remaining' !!! j = 0).
Proof.
  revert remaining ready. induction l as [|d l IH]; intros remaining ready Hs Hlt Hocc; cbn [foldM].
  { exists remaining, ready. split_and!; [done..| |].
    - intros j. rewrite occ_nil. lia.
    - intros j. split; [by left|]. intros [?|[[]%elem_of_nil _]]; done. }
  assert (d < length remaining)%nat as Hd by (apply Hlt; left).
  destruct (lookup_lt_is_Some_2 remaining d Hd) as [c Hc].
  pose proof (list_lookup_total_correct _ _ _ Hc) as Hc'.
  assert (1 <= c) as Hpos by (specialize (Hocc d); rewrite occ_cons, Hc', decide_True in Hocc by done; lia).
  assert (complete_dependency (remaining, ready) d =
    Some (<[d := c - 1]> remaining, if c - 1 =? 0 then set_insert d ready else ready)) as Hstep.
  { unfold complete_dependency. rewrite Hc. cbn [mbind option_bind].
    unfold checked_sub. by rewrite (proj2 (Z.leb_le 1 c) Hpos). }
  rewrite Hstep. cbn [mbind option_bind].
  assert (Hnew : forall j, (<[d := c - 1]> remaining : list Z) !!! j =
    remaining !!! j - (if decide (d = j) then 1 else 0)).
  { intros j. destruct (decide (d = j)) as [->|Hne].
    - by rewrite list_lookup_total_insert_eq, Hc'.
    - rewrite list_lookup_total_insert_ne by done. lia. }
  destruct (IH (<[d := c - 1]> remaining) (if c - 1 =? 0 then set_insert d ready else ready))
    as (rem' & ready' & Hf & Hl & Hs' & Hr & He).
  - destruct (c - 1 =? 0); [by apply set_insert_sorted|done].
  - intros j Hj. rewrite length_insert. apply Hlt. by right.
  - intros j. specialize (Hocc j). rewrite occ_cons in Hocc. rewrite Hnew. destruct (decide (d = j)); lia.
  - rewrite length_insert in Hl. exists rem', ready'. split_and!; [done..| |].
    + intros j. rewrite Hr, Hnew, occ_cons. destruct (decide (d = j)); lia.
    + intros j. rewrite He, elem_of_cons.
      assert (j ∈ (if c - 1 =? 0 then set_insert d ready else ready) <->
        j ∈ ready \/ (j = d /\ c - 1 = 0)) as ->.
      { destruct (Z.eqb_spec (c - 1) 0); [rewrite set_insert_elem|]; naive_solver. }
      pose proof (Hocc j) as Hj. rewrite occ_cons in Hj.
      split; [|intros [?|[[->|?] ?]]; [by auto| |by auto]].
      * intros [[?|[-> Hz]]|[? ?]]; auto. right. split; [by left|].
        rewrite Hr, Hnew, Hc'. rewrite Hc' in Hj. destruct (decide (d = d)); [lia|done].
      * destruct (decide (d ∈ l)); [by auto|]. left. right. split; [done|].
        rewrite Hr, Hnew, Hc', decide_True, (proj2 (occ_zero d l)) in H by done. lia.
Qed.

(** *** The loop *)

Record Kahn (ps : list PendingPackage) (remaining : list Z) (ready done_ : list nat) : Prop := {
  kahn_len : length remaining = length ps;
  kahn_nodup : NoDup done_;
  kahn_range : forall i, i ∈ done_ -> (i < length ps)%nat;
  kahn_sorted : StronglySorted lt ready;
  kahn_counts : forall i, (i < length ps)%nat ->
    remaining !!! i = Z.of_nat (open_count done_ (deps_at ps i));
  kahn_ready : forall i, i ∈ ready <-> (i < length ps)%nat /\ i ∉ done_ /\ remaining !!! i = 0;
  kahn_closed : forall i j, i ∈ done_ -> depends ps i j -> j ∈ done_;
  kahn_sn : forall i, i ∈ done_ -> sn (depends ps) i;
}.

Lemma kahn_done_bound ps remaining ready done_ :
  Kahn ps remaining ready done_ -> (length done_ <= length ps)%nat.
Proof.
  intros K. rewrite <- (length_seq (length ps) 0). apply submseteq_length.
  apply NoDup_submseteq; [apply K|]. intros i Hi. apply elem_of_seq.
  pose proof (kahn_range _ _ _ _ K i Hi). lia.
Qed.

Lemma kahn_step ps dependents remaining index ready done_ :
  in_range ps -> length dependents = length ps ->
  (forall i j, occ i (dependents !!! j) = occ j (deps_at ps i)) ->
  Kahn ps remaining (index :: ready) done_ ->
  exists of_index remaining' ready',
    dependents !! index = Some of_index /\
    foldM complete_dependency (remaining, ready) of_index = Some (remaining', ready') /\
    Kahn ps remaining' ready' (index :: done_) /\ (length done_ < length ps)%nat.
Proof.
  intros Hrange Hdl Hdep K.
  destruct (proj1 (kahn_ready _ _ _ _ K index)) as (Hi & Hnew & Hzero); [left|].
  destruct (lookup_lt_is_Some_2 dependents index) as [l Hl]; [lia|].
  pose proof (list_lookup_total_correct _ _ _ Hl) as Hl'.
  assert (Hocc : forall j, occ j l = occ index (deps_at ps j)) by (intros j; by rewrite <- Hl').
  assert (Hcount : forall j, (j < length ps)%nat -> remaining !!! j =
    Z.of_nat (open_count (index :: done_) (deps_at ps j)) + Z.of_nat (occ j l)).
  { intros j Hj. rewrite (kahn_counts _ _ _ _ K j Hj), Hocc, (open_count_cons index) by done. lia. }
  assert (Hin : forall j, j ∈ l -> (j < length ps)%nat).
  { intros j Hj%occ_pos. rewrite Hocc in Hj. apply occ_pos in Hj. by eapply depends_lt. }
  pose proof (kahn_sorted _ _ _ _ K) as Hs.
  apply StronglySorted_inv in Hs as Hs'. destruct Hs' as [Hs' _].
  destruct (complete_all l remaining ready Hs') as (rem' & ready' & Hf & Hrl & Hrs & Hrem & Hready).
  { intros j Hj. rewrite (kahn_len _ _ _ _ K). by apply Hin. }
  { intros j. destruct (decide (j < length ps)%nat) as [Hj|Hj].
    - rewrite Hcount by done. lia.
    - rewrite (proj2 (occ_zero j l)) by (intros Hjl; by apply Hj, Hin).
      rewrite list_lookup_total_alt, lookup_ge_None_2; [done|]. rewrite (kahn_len _ _ _ _ K). lia. }
  assert (Hrem' : forall j, (j < length ps)%nat ->
    rem' !!! j = Z.of_nat (open_count (index :: done_) (deps_at ps j)))
    by (intros j Hj; rewrite Hrem, Hcount by exact Hj; lia).
  assert (Hdeps : forall j, depends ps index j -> j ∈ done_).
  { rewrite (kahn_counts _ _ _ _ K) in Hzero by exact Hi.
    apply (open_count_zero done_ (deps_at ps index)). lia. }
  assert (Kahn ps rem' ready' (index :: done_)) as K'.
  { split.
    - rewrite Hrl. apply K.
    - constructor; [exact Hnew|apply K].
    - intros i [->|Hi']%elem_of_cons; [exact Hi|by apply (kahn_range _ _ _ _ K)].
    - exact Hrs.
    - exact Hrem'.
    - intros i. rewrite Hready, not_elem_of_cons.
      pose proof (kahn_ready _ _ _ _ K i) as Hri. rewrite elem_of_cons in Hri. split.
      + intros [Hir|[Hil Hz]].
        * assert (i <> index) as Hne by (intros ->; by apply sorted_NoDup, NoDup_cons in Hs as [? _]).
          destruct (proj1 Hri (or_intror Hir)) as (Hlt & Hnd & Hz). split_and!; try assumption.
          rewrite Hrem, Hz. specialize (Hcount i Hlt). lia.
        * apply occ_pos in Hil as Hpos. split_and!; [by apply Hin| | |exact Hz].
          -- intros ->. specialize (Hcount index Hi). lia.
          -- intros Hid. rewrite Hocc in Hpos. apply occ_pos in Hpos.
             by apply Hnew, (kahn_closed _ _ _ _ K i).
      + intros (Hlt & [Hne Hnd] & Hz). destruct (decide (i ∈ l)) as [|Hnl]; [by right|]. left.
        rewrite Hrem, (proj2 (occ_zero i l) Hnl) in Hz.
        destruct (proj2 Hri) as [|Hir]; [split_and!; [assumption..|lia]|done|exact Hir].
    - intros i j [->|Hi']%elem_of_cons Hij; right; [by apply Hdeps|by apply (kahn_closed _ _ _ _ K i)].
    - intros i [->|Hi']%elem_of_cons; [|by apply (kahn_sn _ _ _ _ K)].
      constructor. intros j Hj. by apply (kahn_sn _ _ _ _ K), Hdeps. }
  exists l, rem', ready'. split_and!; try assumption. exact (kahn_done_bound _ _ _ _ K').
Qed.

Lemma kahn_runs ps dependents fuel remaining ready done_ :
  in_range ps -> length dependents = length ps ->
  (forall i j, occ i (dependents !!! j) = occ j (deps_at ps i)) ->
  Kahn ps remaining ready done_ -> (length ps <= fuel + length done_)%nat ->
  exists remaining' done',
    kahn_loop fuel dependents remaining ready (len done_) = Some (remaining', len done') /\
    Kahn ps remaining' [] done'.
Proof.
  intros Hr Hl Ho. revert remaining ready done_. induction fuel as [|fuel IH];
    intros remaining ready done_ K Hfuel; destruct ready as [|index ready]; cbn [kahn_loop].
  1, 3: exists remaining, done_; split; [reflexivity|exact K].
  - destruct (kahn_step _ _ _ _ _ _ Hr Hl Ho K) as (? & ? & ? & _ & _ & _ & Hlt). lia.
  - destruct (kahn_step _ _ _ _ _ _ Hr Hl Ho K) as (l & rem' & ready' & H1 & H2 & K' & Hlt).
    rewrite H1. cbn [mbind option_bind]. rewrite H2. cbn [mbind option_bind].
    replace (len done_ + 1) with (len (index :: done_)) by (rewrite len_cons; lia).
    apply IH; [exact K'|]. cbn [length]. lia.
Qed.

(** *** Finding a cycle *)

(** When every node outside [done_] has a successor outside it, a walk from
    such a node runs into a cycle. *)
Lemma walk_to_cycle ps (done_ : list nat) start :
  (forall i, (i < length ps)%nat -> i ∉ done_ -> exists j, depends ps i j /\ (j < length ps)%nat /\ j ∉ done_) ->
  forall fuel i (visited : list nat),
    (length ps <= fuel + length visited)%nat -> NoDup visited ->
    (forall v, v ∈ visited -> (v < length ps)%nat /\ rtc (depends ps) v i) -> i ∈ visited ->
    i ∉ done_ -> rtc (depends ps) start i -> reaches_cycle ps start.
Proof.
  intros Hnext. induction fuel as [|fuel IH]; intros i visited Hfuel Hnd Hv Hi Hout Hstart;
    destruct (Hnext i) as (j & Hij & Hj & Hjout); try apply (Hv i Hi); try exact Hout;
    destruct (decide (j ∈ visited)) as [Hin|Hnew].
  1, 3: exists j; split; [exact (rtc_r _ _ _ Hstart Hij)|];
    eapply tc_rtc_l; [apply (Hv j Hin)|by apply tc_once].
  - exfalso. assert (NoDup (j :: visited)) as Hnd' by (by constructor).
    apply (NoDup_submseteq _ (seq 0 (length ps))) in Hnd'.
    + apply submseteq_length in Hnd'. rewrite length_seq in Hnd'. cbn [length] in Hnd'. lia.
    + intros v [->|Hvv]%elem_of_cons; apply elem_of_seq; [lia|]. pose proof (proj1 (Hv v Hvv)). lia.
  - apply (IH j (j :: visited)); [cbn [length]; lia|by constructor| |left|exact Hjout|
      exact (rtc_r _ _ _ Hstart Hij)].
    intros v [->|Hvv]%elem_of_cons; [split; [exact Hj|apply rtc_refl]|].
    split; [apply (Hv v Hvv)|]. exact (rtc_r _ _ _ (proj2 (Hv v Hvv)) Hij).
Qed.

Lemma kahn_initial ps :
  Kahn ps (map (fun p => len (dependencies p)) ps)
    (foldr set_insert [] (omap (fun '(i, count) => if count =? 0 then Some i else None)
       (imap (fun i count => (i, count)) (map (fun p => len (dependencies p)) ps)))) [].
Proof.
  assert (Hc : forall i, (i < length ps)%nat ->
    map (fun p => len (dependencies p)) ps !!! i = Z.of_nat (open_count [] (deps_at ps i))).
  { intros i Hi. apply lookup_lt_is_Some_2 in Hi as [p Hp].
    rewrite open_count_nil, (deps_at_lookup _ _ _ Hp). unfold targets. rewrite length_map.
    apply list_lookup_total_correct. by rewrite list_lookup_fmap, Hp. }
  split.
  - by rewrite length_map.
  - constructor.
  - by intros i Hi%elem_of_nil.
  - apply fold_insert.
  - exact Hc.
  - intros i. rewrite (proj2 (fold_insert _)), list_elem_of_omap. split.
    + intros ([k count] & (k' & x & [= <- <-] & Hk)%elem_of_lookup_imap & Hz).
      destruct (Z.eqb_spec count 0) as [->|]; [|done]. injection Hz as ->.
      apply lookup_lt_Some in Hk as Hlt. rewrite length_map in Hlt.
      split_and!; [exact Hlt|apply not_elem_of_nil|]. by apply list_lookup_total_correct.
    + intros (Hi & _ & Hz). exists (i, 0). split; [|done].
      apply elem_of_lookup_imap. exists i, 0. split; [done|].
      rewrite <- Hz. apply list_lookup_lookup_total_lt. by rewrite length_map.
  - by intros i j Hi%elem_of_nil.
  - by intros i Hi%elem_of_nil.
Qed.

(** *** The end of the loop *)

Section kahn_end.
Context ps remaining done_ (K : Kahn ps remaining [] done_).

Lemma kahn_end_zero i : (i < length ps)%nat -> remaining !!! i = 0 <-> i ∈ done_.
Proof.
  intros Hi. split.
  - intros Hz. destruct (decide (i ∈ done_)) as [|Hn]; [done|]. exfalso.
    eapply not_elem_of_nil, (kahn_ready _ _ _ _ K i). by split_and!.
  - intros Hd. rewrite (kahn_counts _ _ _ _ K) by exact Hi.
    rewrite (proj2 (open_count_zero done_ _)); [done|]. intros j. by apply (kahn_closed _ _ _ _ K).
Qed.

Lemma kahn_end_next i :
  (i < length ps)%nat -> i ∉ done_ -> exists j, depends ps i j /\ j ∉ done_.
Proof.
  intros Hi Hn. destruct (decide (open_count done_ (deps_at ps i) = 0%nat)) as [E|E].
  { exfalso. apply Hn, kahn_end_zero; [exact Hi|]. rewrite (kahn_counts _ _ _ _ K); [lia|exact Hi]. }
  unfold open_count in E. destruct (filter _ (deps_at ps i)) as [|j l] eqn:Ef; [done|].
  assert (j ∈ filter (fun y => y ∉ done_) (deps_at ps i)) as Hj by (rewrite Ef; left).
  apply list_elem_of_filter in Hj as [Hjd Hj]. by exists j.
Qed.

(** All packages are completed exactly when the tally says so. *)
Lemma kahn_end_tally : len done_ = len ps <-> forall i, (i < length ps)%nat -> i ∈ done_.
Proof.
  assert (Hsub : done_ ⊆+ seq 0 (length ps)).
  { apply NoDup_submseteq; [apply K|]. intros i Hi. apply elem_of_seq.
    pose proof (kahn_range _ _ _ _ K i Hi). lia. }
  unfold len. split.
  - intros E i Hi. assert (done_ ≡ₚ seq 0 (length ps)) as ->; [|apply elem_of_seq; lia].
    apply submseteq_length_Permutation; [exact Hsub|]. rewrite length_seq. lia.
  - intros Hall. apply submseteq_length in Hsub. rewrite length_seq in Hsub.
    enough (length ps <= length done_)%nat by lia. rewrite <- (length_seq (length ps) 0) at 1.
    apply submseteq_length, NoDup_submseteq; [apply NoDup_seq|].
    intros i Hi%elem_of_seq. apply Hall. lia.
Qed.

Lemma kahn_end_first :
  match position (fun count => negb (count =? 0)) remaining with
  | Some h => (h < length ps)%nat /\ h ∉ done_ /\ forall i, (i < h)%nat -> i ∈ done_
  | None => forall i, (i < length ps)%nat -> i ∈ done_
  end.
Proof.
  assert (Hin : forall i x, remaining !! i = Some x -> negb (x =? 0) = false -> i ∈ done_).
  { intros i x Hx Hz%negb_false_iff%Z.eqb_eq. apply kahn_end_zero.
    - apply lookup_lt_Some in Hx. by rewrite (kahn_len _ _ _ _ K) in Hx.
    - by rewrite (list_lookup_total_correct _ _ _ Hx). }
  assert (Hsome : forall i, (i < length ps)%nat -> exists x, remaining !! i = Some x)
    by (intros i Hi; apply lookup_lt_is_Some_2; by rewrite (kahn_len _ _ _ _ K)).
  destruct (position _ remaining) as [h|] eqn:Hpos.
  - apply position_Some in Hpos as [(x & Hx & Hnz) Hfirst].
    apply lookup_lt_Some in Hx as Hlt. rewrite (kahn_len _ _ _ _ K) in Hlt. split_and!; [done| |].
    + intros Hd%kahn_end_zero; [|done]. rewrite (list_lookup_total_correct _ _ _ Hx) in Hd. by subst.
    + intros i Hi. destruct (Hsome i) as [y Hy]; [lia|]. eauto.
  - intros i Hi. destruct (Hsome i Hi) as [y Hy]. apply (Hin i y Hy).
    by apply (proj1 (position_None _ _) Hpos i).
Qed.
End kahn_end.

(** Cycle rejection never panics and decides which packages lead into a cycle. *)
Lemma reject_dependency_cycles_spec ps :
  in_range ps ->
  (reject_dependency_cycles ps = Ok tt /\ forall i, (i < length ps)%nat -> sn (depends ps) i) \/
  (exists h, reject_dependency_cycles ps =
       Err (GraphFailed (DependencyCycle {| handle := Z.of_nat h mod 2 ^ 32 |})) /\
     (h < length ps)%nat /\ reaches_cycle ps h /\ forall i, (i < h)%nat -> sn (depends ps) i).
Proof.
  intros Hr. destruct (dependents_correct ps Hr) as (D & HD & HDl & HDo).
  destruct (kahn_runs ps D (length ps) _ _ [] Hr HDl HDo (kahn_initial ps)) as (rem & done_ & Hrun & K);
    [lia|].
  unfold reject_dependency_cycles. rewrite HD. cbn [or_panic ok_or mbind result_bind].
  change (len (@nil nat)) with 0 in Hrun. rewrite Hrun. cbn [or_panic ok_or mbind result_bind].
  pose proof (kahn_end_first _ _ _ K) as Hfirst. pose proof (kahn_end_tally _ _ _ K) as Htally.
  destruct (position _ rem) as [h|].
  - right. exists h. destruct Hfirst as (Hh & Hnd & Hbefore).
    destruct (Z.eqb_spec (len done_) (len ps)) as [E|_]; [by destruct Hnd; apply Htally|].
    split_and!; [done|exact Hh| |intros i Hi; by apply (kahn_sn _ _ _ _ K), Hbefore].
    apply (walk_to_cycle ps done_ h) with (length ps) h [h]; try assumption.
    + intros i Hi Hn. destruct (kahn_end_next _ _ _ K i Hi Hn) as (j & Hj & Hjn).
      exists j. split_and!; [exact Hj|by apply (Hr i)|exact Hjn].
    + cbn [length]. lia.
    + apply NoDup_singleton.
    + intros v ->%list_elem_of_singleton. split; [exact Hh|apply rtc_refl].
    + left.
    + apply rtc_refl.
  - left. split; [|intros i Hi; by apply (kahn_sn _ _ _ _ K), Hfirst].
    by rewrite (proj2 (Z.eqb_eq _ _) (proj2 Htally Hfirst)).
Qed.

(** ** Reachability *)

Definition flagged (reachable : list bool) (i : nat) : Prop := reachable !! i = Some true.
Definition unflagged_count (reachable : list bool) : nat := length (filter (fun b => b = false) reachable).

Lemma unflagged_insert reachable d :
  reachable !! d = Some false ->
  unflagged_count reachable = S (unflagged_count (<[d := true]> reachable)).
Proof.
  revert d. induction reachable as [|b r IH]; intros [|d] H; try done; unfold unflagged_count in *.
  - injection H as ->. done.
  - change (<[S d := true]> (b :: r)) with (b :: <[d := true]> r). specialize (IH d H).
    rewrite !filter_cons.
    destruct (decide (b = false)); cbn [length]; [f_equal|]; exact IH.
Qed.

Lemma visit_all ds reachable pending :
  (forall j, j ∈ ds -> (j < length reachable)%nat) ->
  exists reachable' new,
    foldM visit (reachable, pending) ds = Some (reachable', pending ++ new) /\
    length reachable' = length reachable /\
    (unflagged_count reachable = unflagged_count reachable' + length new)%nat /\
    (forall i, flagged reachable' i <-> flagged reachable i \/ i ∈ ds) /\
    (forall i, i ∈ new -> i ∈ ds) /\
    (forall i, flagged reachable' i -> flagged reachable i \/ i ∈ new).
Proof.
  revert reachable pending. induction ds as [|d ds IH]; intros reachable pending Hd; cbn [foldM].
  { exists reachable, []. rewrite app_nil_r. split_and!; [done..|cbn; lia| | |auto].
    - intros i. split; [auto|]. intros [?|[]%elem_of_nil]. done.
    - done. }
  assert (d < length reachable)%nat as Hlt by (apply Hd; left).
  destruct (lookup_lt_is_Some_2 reachable d Hlt) as [[] Hseen].
  - assert (visit (reachable, pending) d = Some (reachable, pending)) as -> by (cbn; by rewrite Hseen).
    cbn [mbind option_bind]. destruct (IH reachable pending) as (r' & new & Hf & Hl & Hc & Hfl & Hn & Hb);
      [intros j Hj; apply Hd; by right|].
    exists r', new. split_and!; try done.
    + intros i. rewrite Hfl, elem_of_cons. split; [naive_solver|].
      intros [?|[->|?]]; auto.
    + intros i Hi. right. by apply Hn.
  - assert (visit (reachable, pending) d = Some (<[d := true]> reachable, pending ++ [d])) as ->
      by (cbn; by rewrite Hseen).
    cbn [mbind option_bind].
    destruct (IH (<[d := true]> reachable) (pending ++ [d])) as (r' & new & Hf & Hl & Hc & Hfl & Hn & Hb);
      [intros j Hj; rewrite length_insert; apply Hd; by right|].
    assert (Hins : forall i, flagged (<[d := true]> reachable) i <-> flagged reachable i \/ i = d).
    { intros i. unfold flagged. destruct (decide (d = i)) as [->|Hne].
      - rewrite list_lookup_insert_eq by done. naive_solver.
      - rewrite list_lookup_insert_ne by done. naive_solver. }
    exists r', (d :: new). rewrite Hf, Hl, length_insert, <- app_assoc. split_and!; [done..| | | |].
    + rewrite (unflagged_insert _ _ Hseen), Hc. cbn [length]. lia.
    + intros i. rewrite Hfl, Hins, elem_of_cons. tauto.
    + intros i [->|Hi]%elem_of_cons; [left|right]. by apply Hn.
    + intros i Hi. rewrite elem_of_cons. destruct (Hb i Hi) as [[?| ->]%Hins|?]; auto.
Qed.

Record Reach (ps : list PendingPackage) (start : nat) (reachable : list bool) (pending : list nat)
    : Prop := {
  reach_len : length reachable = length ps;
  reach_start : flagged reachable start;
  reach_pending : forall i, i ∈ pending -> flagged reachable i;
  reach_sound : forall i, flagged reachable i -> rtc (depends ps) start i;
  reach_closed : forall i, flagged reachable i ->
    i ∈ pending \/ forall j, depends ps i j -> flagged reachable j;
}.

Lemma reach_runs ps start fuel reachable pending :
  in_range ps -> Reach ps start reachable pending ->
  (length pending + unflagged_count reachable <= fuel)%nat ->
  exists reachable', reach_loop fuel ps reachable pending = Some reachable' /\
    Reach ps start reachable' [].
Proof.
  intros Hr. revert reachable pending. induction fuel as [|fuel IH];
    intros reachable [|index pending] R Hfuel; cbn [reach_loop]; cbn [length] in Hfuel; try lia.
  1, 2: exists reachable; by split.
  pose proof (reach_pending _ _ _ _ R index ltac:(left)) as Hindex.
  apply lookup_lt_Some in Hindex as Hlt. rewrite (reach_len _ _ _ _ R) in Hlt.
  destruct (lookup_lt_is_Some_2 ps index Hlt) as [p Hp].
  destruct (visit_all (targets p) reachable pending) as (r' & new & Hf & Hl & Hc & Hfl & Hn & Hb).
  { intros j Hj. rewrite (reach_len _ _ _ _ R). apply (Hr index).
    unfold depends. by rewrite (deps_at_lookup _ _ _ Hp). }
  rewrite Hp. cbn [mbind option_bind]. rewrite Hf. cbn [mbind option_bind].
  apply IH; [|rewrite length_app; lia].
  assert (Hdep : forall j, j ∈ targets p -> depends ps index j)
    by (intros j; unfold depends; by rewrite (deps_at_lookup _ _ _ Hp)).
  split.
  - rewrite Hl. apply R.
  - apply Hfl. left. apply R.
  - intros i [Hi|Hi]%elem_of_app; apply Hfl; [left|right; by apply Hn].
    apply (reach_pending _ _ _ _ R). by right.
  - intros i [Hi|Hi]%Hfl; [by apply (reach_sound _ _ _ _ R)|].
    apply (rtc_r _ index); [by apply (reach_sound _ _ _ _ R)|by apply Hdep].
  - intros i Hi. rewrite elem_of_app. destruct (Hb i Hi) as [Hi'|]; [|by auto].
    destruct (reach_closed _ _ _ _ R i Hi') as [[->|?]%elem_of_cons|Hcl]; [right|by auto|right].
    + intros j Hj. apply Hfl. right. unfold depends in Hj. by rewrite (deps_at_lookup _ _ _ Hp) in Hj.
    + intros j Hj. apply Hfl. left. by apply Hcl.
Qed.

(** The search ends with exactly the packages reachable from its start. *)
Lemma reach_end ps start reachable i :
  Reach ps start reachable [] -> flagged reachable i <-> rtc (depends ps) start i.
Proof.
  intros R. split; [apply R|]. intros Hr.
  enough (forall j, rtc (depends ps) j i -> flagged reachable j -> flagged reachable i) as H
    by (apply (H start Hr), R).
  clear Hr. induction 1 as [|j k i Hjk _ IH]; [done|]. intros Hj. apply IH.
  destruct (reach_closed _ _ _ _ R j Hj) as [[]%elem_of_nil|Hcl]. by apply Hcl.
Qed.

Lemma unflagged_replicate n : unflagged_count (replicate n false) = n.
Proof. unfold unflagged_count. induction n as [|n IH]; [done|].
  rewrite replicate_S, filter_cons_True by done. exact (f_equal S IH).
Qed.

Lemma reject_unreachable_spec ps root :
  in_range ps -> (Z.to_nat (handle root) < length ps)%nat ->
  let start := Z.to_nat (handle root) in
  (reject_unreachable_packages ps root = Ok tt /\
     forall i, (i < length ps)%nat -> rtc (depends ps) start i) \/
  (exists h, reject_unreachable_packages ps root =
       Err (GraphFailed (UnreachablePackage {| handle := Z.of_nat h mod 2 ^ 32 |})) /\
     (h < length ps)%nat /\ ~ rtc (depends ps) start h /\
     forall i, (i < h)%nat -> rtc (depends ps) start i).
Proof.
  intros Hr Hroot start. unfold reject_unreachable_packages. fold start.
  change (start < length ps)%nat in Hroot. clearbody start.
  destruct (lookup_lt_is_Some_2 ps start Hroot) as [p Hp]. rewrite Hp.
  cbn [or_panic ok_or mbind result_bind].
  assert (Hfalse : replicate (length ps) false !! start = Some false) by (by apply lookup_replicate_2).
  destruct (reach_runs ps start (length ps) (<[start := true]> (replicate (length ps) false)) [start])
    as (r & Hrun & R); [exact Hr| | |].
  - assert (Hf : forall i, flagged (<[start := true]> (replicate (length ps) false)) i <-> i = start).
    { intros i. unfold flagged. destruct (decide (start = i)) as [->|Hne].
      - rewrite list_lookup_insert_eq by (by rewrite length_replicate). by split.
      - rewrite list_lookup_insert_ne by done. split; [|congruence].
        intros [? _]%lookup_replicate. done. }
    split.
    + by rewrite length_insert, length_replicate.
    + by apply Hf.
    + intros i ->%list_elem_of_singleton. by apply Hf.
    + intros i ->%Hf. apply rtc_refl.
    + intros i ->%Hf. left. by apply list_elem_of_singleton.
  - pose proof (unflagged_insert _ _ Hfalse) as Hc. rewrite unflagged_replicate in Hc. cbn [length]. lia.
  - rewrite Hrun. cbn [or_panic ok_or mbind result_bind]. pose proof (reach_len _ _ _ _ R) as Hl.
    assert (Hget : forall i, (i < length ps)%nat -> exists b, r !! i = Some b)
      by (intros i Hi; apply lookup_lt_is_Some_2; by rewrite Hl).
    destruct (position negb r) as [h|] eqn:Hpos; [right; exists h|left].
    + apply position_Some in Hpos as [([] & Hh & Hb) Hfirst]; [done|].
      apply lookup_lt_Some in Hh as Hlt. rewrite Hl in Hlt. split_and!; [done|exact Hlt| |].
      * intros Hreach%(reach_end _ _ _ _ R). unfold flagged in Hreach. congruence.
      * intros i Hi. apply (reach_end _ _ _ _ R). destruct (Hget i) as [b Hb']; [lia|].
        specialize (Hfirst i b Hi Hb'). unfold flagged. rewrite Hb'. by destruct b.
    + split; [done|]. intros i Hi. apply (reach_end _ _ _ _ R). destruct (Hget i Hi) as [b Hb'].
      pose proof (proj1 (position_None _ _) Hpos i b Hb'). unfold flagged. rewrite Hb'. by destruct b.
Qed.

(** ** The builder's invariant *)

Definition portable_alias (d : PendingDependency) : str :=
  to_ascii_lowercase (alias_as_str (pending_alias d)).
Definition exact_module_key (m : PendingModule) : PackageHandle * ModulePath :=
  (pending_package m, pending_path m).
Definition portable_module_key (m : PendingModule) : PackageHandle * list str :=
  (pending_package m, portable_key (pending_path m)).

(** A handle's [u32]. *)
Definition typed (h : PackageHandle) : Prop := 0 <= handle h < 2 ^ 32.

Record PendingOk (count : nat) (i : nat) (p : PendingPackage) : Prop := {
  pending_targets : Forall (fun d => 0 <= handle (pending_target d) < Z.of_nat count /\
    handle (pending_target d) <> Z.of_nat i) (dependencies p);
  pending_aliases : dependency_aliases p = list_to_set (map portable_alias (dependencies p));
  pending_alias_unique : NoDup (map portable_alias (dependencies p));
  pending_packages : dependency_packages p = list_to_set (map pending_target (dependencies p));
  pending_package_unique : NoDup (map pending_target (dependencies p));
  pending_bound : len (dependencies p) <= MAX_DEPENDENCIES_PER_PACKAGE;
}.

Record BuilderOk (b : PackageGraphBuilder) : Prop := {
  ok_root : root b = {| handle := 0 |};
  ok_packages : 1 <= len (packages b) <= MAX_PACKAGES;
  ok_modules : len (modules b) <= MAX_MODULES;
  ok_identities : identities b = list_to_set (map pending_identity (packages b));
  ok_identity_unique : NoDup (map pending_identity (packages b));
  ok_pending : forall i p, packages b !! i = Some p -> PendingOk (length (packages b)) i p;
  ok_module_range : Forall (fun m => 0 <= handle (pending_package m) < len (packages b)) (modules b);
  ok_module_paths : module_paths b = list_to_set (map exact_module_key (modules b));
  ok_portable_paths : portable_module_paths b = list_to_set (map portable_module_key (modules b));
  ok_portable_unique : NoDup (map portable_module_key (modules b));
  ok_sources : module_sources b = list_to_set (map pending_source (modules b));
  ok_source_unique : NoDup (map pending_source (modules b));
}.

(** Graph construction as a state machine: a call that fails leaves the
    builder as it was, a call that succeeds takes a step. *)
Inductive build_step : PackageGraphBuilder -> PackageGraphBuilder -> Prop :=
| step_package b identity h b' : add_package b identity = Ok (h, b') -> build_step b b'
| step_dependency b p alias d b' :
    typed p -> typed d -> add_dependency b p alias d = Ok b' -> build_step b b'
| step_module b p path source h b' :
    typed p -> add_module b p path source = Ok (h, b') -> build_step b b'.
Definition built (root_identity : PackageIdentity) : PackageGraphBuilder -> Prop :=
  rtc build_step (new root_identity).

Lemma new_ok identity : BuilderOk (new identity).
Proof.
  split; cbn; try done; try (by constructor); try set_solver.
  - apply NoDup_singleton.
  - intros [|i] p H; [injection H as <-|done]. split; cbn; try done; by constructor.
Qed.

Ltac builder_fields := cbn [root packages modules identities module_paths portable_module_paths
  module_sources with_packages].

Ltac same_field B :=
  try match goal with
  | |- root _ = _ => exact (ok_root _ B)
  | |- len (modules _) <= _ => exact (ok_modules _ B)
  | |- _ <= len (packages _) <= _ => exact (ok_packages _ B)
  | |- identities _ = _ => exact (ok_identities _ B)
  | |- NoDup (map pending_identity (packages _)) => exact (ok_identity_unique _ B)
  | |- forall i p, packages _ !! i = _ -> _ => exact (ok_pending _ B)
  | |- Forall _ (modules _) => exact (ok_module_range _ B)
  | |- module_paths _ = _ => exact (ok_module_paths _ B)
  | |- portable_module_paths _ = _ => exact (ok_portable_paths _ B)
  | |- NoDup (map portable_module_key (modules _)) => exact (ok_portable_unique _ B)
  | |- module_sources _ = _ => exact (ok_sources _ B)
  | |- NoDup (map pending_source (modules _)) => exact (ok_source_unique _ B)
  end.

Lemma NoDup_snoc {A} (l : list A) x : NoDup (l ++ [x]) <-> x ∉ l /\ NoDup l.
Proof. rewrite (Permutation_app_comm l [x]). apply NoDup_cons. Qed.

Lemma pending_ok_more count count' i p :
  (count <= count')%nat -> PendingOk count i p -> PendingOk count' i p.
Proof.
  intros Hc [Ht ? ? ? ? ?]. split; try done. eapply Forall_impl; [exact Ht|]. intros d Hd. cbn in *. lia.
Qed.

Lemma add_package_ok b identity h b' :
  BuilderOk b -> add_package b identity = Ok (h, b') ->
  BuilderOk b' /\ handle h = len (packages b) /\
  packages b' = packages b ++ [fresh_package identity] /\ modules b' = modules b.
Proof.
  intros B. unfold add_package. pose proof (ok_packages b B) as Hp.
  destruct (Z.leb_spec MAX_PACKAGES (len (packages b))) as [|Hlt]; [done|].
  case_bool_decide as Hin; [done|]. intros H. apply result_bind_Ok in H as (n & Hn & [= <- <-]).
  rewrite ok_or_Ok, try_u32_Some in Hn. destruct Hn as [_ ->]. split; [|done].
  rewrite (ok_identities b B) in Hin. split; builder_fields; same_field B.
  - rewrite len_app. change (len [fresh_package identity]) with 1. lia.
  - rewrite map_app, list_to_set_app_L, (ok_identities b B). set_solver.
  - rewrite map_app. apply NoDup_snoc. split; [set_solver|apply B].
  - intros i p H. apply lookup_app_Some in H as [H|[Hi H]].
    + eapply pending_ok_more; [|by apply B]. rewrite length_app. lia.
    + rewrite list_lookup_singleton in H. destruct (i - _)%nat; [injection H as <-|done].
      split; cbn; try done; by constructor.
  - eapply Forall_impl; [apply B|]. intros m. cbn. rewrite len_app.
    pose proof (len_nonneg [fresh_package identity]). lia.
Qed.

Lemma add_dependency_ok b package a dependency b' :
  BuilderOk b -> typed package -> typed dependency ->
  add_dependency b package a dependency = Ok b' ->
  BuilderOk b' /\ modules b' = modules b /\ exists pending pending',
    packages b !! Z.to_nat (handle package) = Some pending /\
    packages b' = <[Z.to_nat (handle package) := pending']> (packages b) /\
    pending_identity pending' = pending_identity pending /\
    dependencies pending' = dependencies pending
      ++ [{| pending_alias := a; pending_target := dependency |}].
Proof.
  intros B Hp Hd. unfold add_dependency, package_index.
  destruct (bool_decide_reflect (package = dependency)) as [|Hself]; [done|].
  destruct (bool_decide_reflect (Z.to_nat (handle package) < length (packages b))%nat); [|done].
  cbn [ok_or mbind result_bind].
  destruct (bool_decide_reflect (Z.to_nat (handle dependency) < length (packages b))%nat); [|done].
  cbn [ok_or mbind result_bind].
  destruct (packages b !! Z.to_nat (handle package)) as [pending|] eqn:Hpending; [|done].
  cbn [ok_or mbind result_bind].
  destruct (bool_decide_reflect (to_ascii_lowercase (alias_as_str a) ∈ dependency_aliases pending)); [done|].
  destruct (bool_decide_reflect (dependency ∈ dependency_packages pending)); [done|].
  destruct (Z.leb_spec MAX_DEPENDENCIES_PER_PACKAGE (len (dependencies pending))) as [|Hlt]; [done|].
  intros [= <-]. pose proof (ok_pending b B _ _ Hpending) as [Ht Ha Hau Hk Hku Hb].
  split; [|split; [done|]; eexists _, _; split_and!; reflexivity].
  split; builder_fields; rewrite ?length_insert; same_field B.
  - unfold len. rewrite length_insert. apply B.
  - rewrite list_fmap_insert. cbn. rewrite list_insert_id; [apply B|]. by rewrite list_lookup_fmap, Hpending.
  - rewrite list_fmap_insert. cbn. rewrite list_insert_id; [apply B|]. by rewrite list_lookup_fmap, Hpending.
  - intros i p H. apply list_lookup_insert_Some in H as [(<- & <- & _)|[_ H]]; [|by apply B].
    split; cbn.
    + apply Forall_app. split; [done|]. apply Forall_singleton. cbn. unfold typed in *.
      split; [lia|]. intros E. apply Hself. destruct package, dependency. cbn in *. f_equal. lia.
    + rewrite map_app, list_to_set_app_L, Ha. set_solver.
    + rewrite map_app. apply NoDup_snoc. rewrite Ha in *. split; [set_solver|done].
    + rewrite map_app, list_to_set_app_L, Hk. set_solver.
    + rewrite map_app. apply NoDup_snoc. rewrite Hk in *. split; [set_solver|done].
    + rewrite len_app. change (len [_]) with 1. lia.
  - eapply Forall_impl; [apply B|]. intros m. cbn. unfold len. by rewrite length_insert.
Qed.

Lemma add_module_ok b package path source h b' :
  BuilderOk b -> typed package -> add_module b package path source = Ok (h, b') ->
  BuilderOk b' /\ packages b' = packages b /\ module_handle h = len (modules b) /\
  modules b' = modules b ++ [{| pending_package := package; pending_path := path;
                                pending_source := source |}].
Proof.
  intros B Hp. unfold add_module, package_index.
  destruct (Z.leb_spec MAX_MODULES (len (modules b))) as [|Hlt]; [done|].
  destruct (bool_decide_reflect (Z.to_nat (handle package) < length (packages b))%nat); [|done].
  cbn [ok_or mbind result_bind].
  destruct (bool_decide_reflect ((package, path) ∈ module_paths b)); [done|].
  destruct (bool_decide_reflect ((package, portable_key path) ∈ portable_module_paths b)); [done|].
  destruct (bool_decide_reflect (source ∈ module_sources b)); [done|].
  intros Hq. apply result_bind_Ok in Hq as (? & Hn & [= <- <-]).
  rewrite ok_or_Ok, try_u32_Some in Hn. destruct Hn as [_ ->]. split; [|done].
  rewrite (ok_module_paths b B), (ok_portable_paths b B), (ok_sources b B) in *.
  split; builder_fields; same_field B; rewrite ?map_app, ?list_to_set_app_L.
  - rewrite len_app. change (len [_]) with 1. lia.
  - apply Forall_app. split; [apply B|]. apply Forall_singleton. cbn. unfold typed, len in *. lia.
  - set_solver.
  - set_solver.
  - apply NoDup_snoc. split; [set_solver|apply B].
  - set_solver.
  - apply NoDup_snoc. split; [set_solver|apply B].
Qed.

Lemma built_ok identity b : built identity b -> BuilderOk b.
Proof.
  intros Hb. unfold built in Hb. revert b Hb. apply rtc_ind_r; [apply new_ok|].
  intros b b' _ Hstep B. destruct Hstep as [b i h b' H|b p a d b' Hp Hd H|b p path s h b' Hp H].
  - by apply (add_package_ok b i h b') in H as [? _].
  - by apply (add_dependency_ok b p a d b') in H as [? _].
  - by apply (add_module_ok b p path s h b') in H as [? _].
Qed.

(** C27: In every builder that construction can reach, handles and aliases are
    unique and in range, portable spellings never collide, and every set the
    builder keeps beside its lists holds exactly what the lists hold. *)
Theorem builder_invariant (root_identity : PackageIdentity) b :
  built root_identity b -> BuilderOk b.
Proof. apply built_ok. Qed.
