(* ===== verification/PackageFinish.v ===== *)
(** Finishing a package graph ([PackageGraphBuilder::finish] of
    [crates/wrela-package]): it never panics, fails exactly for cycles and
    unreachable packages, and its numbering depends only on what the graph
    contains, not on the order in which it was discovered. *)

From Stdlib Require Import Strings.Byte Sorting.Sorted.
From stdpp Require Import base numbers list option strings gmap sorting relations.
From S2P Require Import Prelude Bytes Order Text BuildModel Source PackageGraph.

#[local] Open Scope Z_scope.

(** ** What a builder contains, by identity *)

Definition has_package (b : PackageGraphBuilder) (i : PackageIdentity) : Prop :=
  exists k p, packages b !! k = Some p /\ pending_identity p = i.
Definition has_edge (b : PackageGraphBuilder) (i : PackageIdentity) (a : DependencyAlias)
    (j : PackageIdentity) : Prop :=
  exists k p d q, packages b !! k = Some p /\ pending_identity p = i /\ d ∈ dependencies p /\
    pending_alias d = a /\ packages b !! Z.to_nat (handle (pending_target d)) = Some q /\
    pending_identity q = j.
Definition has_module (b : PackageGraphBuilder) (i : PackageIdentity) (path : ModulePath)
    (source : FileId) : Prop :=
  exists m q, m ∈ modules b /\ packages b !! Z.to_nat (handle (pending_package m)) = Some q /\
    pending_identity q = i /\ pending_path m = path /\ pending_source m = source.

(** Two builders that contain the same graph, discovered in any order. *)
Record same_content (b b' : PackageGraphBuilder) : Prop := {
  same_root : identity_at (packages b) 0 = identity_at (packages b') 0;
  same_packages : forall i, has_package b i <-> has_package b' i;
  same_edges : forall i a j, has_edge b i a j <-> has_edge b' i a j;
  same_modules : forall i path source, has_module b i path source <-> has_module b' i path source;
}.

Lemma same_content_sym b b' : same_content b b' -> same_content b' b.
Proof. intros []. split; [done|by intros..]. Qed.

(** ** What a graph contains *)

Definition graph_identity (g : PackageGraph) (id : PackageId) : option PackageIdentity :=
  record_identity <$> package g id.
Definition graph_edge (g : PackageGraph) (i : PackageIdentity) (a : DependencyAlias)
    (j : PackageIdentity) : Prop :=
  exists r e, r ∈ graph_packages g /\ record_identity r = i /\ e ∈ record_dependencies r /\
    alias e = a /\ graph_identity g (edge_package e) = Some j.
Definition graph_module (g : PackageGraph) (i : PackageIdentity) (path : ModulePath)
    (source : FileId) : Prop :=
  exists m, m ∈ graph_modules g /\ graph_identity g (module_package m) = Some i /\
    module_path m = path /\ module_source m = source.

Definition edge_key (e : DependencyEdge) : str := alias_as_str (alias e).
Definition module_key (m : ModuleRecord) : Z * ModulePath :=
  (package_id (module_package m), module_path m).
Definition module_body (m : ModuleRecord) : PackageId * ModulePath * FileId :=
  (module_package m, module_path m, module_source m).
Definition id_in (g : PackageGraph) (id : PackageId) : Prop :=
  0 <= package_id id < len (graph_packages g).

(** The canonical form of a graph: dense ids in order, the root first, the
    other packages strictly ordered by identity, the dependencies of each by
    alias, and the modules by package and path. *)
Record Canonical (g : PackageGraph) : Prop := {
  canonical_root : graph_root g = {| package_id := 0 |};
  canonical_ids : forall k r, graph_packages g !! k = Some r ->
    record_id r = {| package_id := Z.of_nat k |};
  canonical_order :
    StronglySorted (lt_by identity_cmp) (map record_identity (tail (graph_packages g)));
  canonical_distinct : NoDup (map record_identity (graph_packages g));
  canonical_edges : Forall (fun r =>
    StronglySorted (lt_by bytes_cmp) (map edge_key (record_dependencies r)) /\
    Forall (fun e => id_in g (edge_package e)) (record_dependencies r)) (graph_packages g);
  canonical_module_ids : forall k m, graph_modules g !! k = Some m ->
    module_record_id m = {| module_id := Z.of_nat k |};
  canonical_modules : StronglySorted (lt_by module_key_cmp) (map module_key (graph_modules g));
  canonical_module_range : Forall (fun m => id_in g (module_package m)) (graph_modules g);
}.

(** ** Orders *)

#[export] Instance identity_cmp_order : TotalOrder identity_cmp.
Proof.
  apply (total_order_by (fun i => (package_name (name i), (package_version (version i),
    as_bytes (identity_digest i)))) (pair_cmp bytes_cmp (pair_cmp bytes_cmp bytes_cmp))).
  - apply _.
  - intros [[] [] []] [[] [] []] [=]. simpl in *. by subst.
  - done.
Qed.
#[export] Instance module_key_cmp_order : TotalOrder module_key_cmp.
Proof.
  apply pair_cmp_order; [apply _|].
  apply (total_order_by segments (list_cmp bytes_cmp)); [apply _|by intros [] [] [=]; simpl in *; subst|done].
Qed.

(** ** Numbering *)

Lemma assign_ids_ok start order ids :
  NoDup order -> (forall i, i ∈ order -> (i < length ids)%nat) -> 0 <= start ->
  start + len order <= 2 ^ 32 ->
  exists ids', assign_ids start order ids = Ok ids' /\ length ids' = length ids /\
    (forall k i, order !! k = Some i -> ids' !! i = Some (start + Z.of_nat k)) /\
    (forall i, i ∉ order -> ids' !! i = ids !! i).
Proof.
  revert start ids. induction order as [|p order IH]; intros start ids Hn Hr H0 Hs; cbn [assign_ids].
  { exists ids. done. }
  apply NoDup_cons in Hn as [Hp Hn]. rewrite len_cons in Hs. pose proof (len_nonneg order).
  assert (p < length ids)%nat as Hlt by (apply Hr; left).
  destruct (lookup_lt_is_Some_2 ids p Hlt) as [x Hx].
  destruct (IH (start + 1) (<[p := start]> ids) Hn) as (ids' & Hrun & Hl & Hk & Ho); [|lia..|].
  { intros i Hi. rewrite length_insert. apply Hr. by right. }
  exists ids'. unfold try_u32, u32_max. rewrite (proj2 (Z.leb_le start 4294967295)) by lia.
  rewrite Hx. cbn [ok_or or_panic mbind result_bind]. rewrite Hrun, Hl, length_insert. split_and!; [done..| |].
  - intros [|k] i Hi.
    + injection Hi as ->. rewrite Ho, list_lookup_insert_eq by done. f_equal. lia.
    + rewrite (Hk k i Hi). f_equal. lia.
  - intros i [Hne Hi]%not_elem_of_cons. by rewrite Ho, list_lookup_insert_ne.
Qed.

Lemma number_modules_ok start ms :
  0 <= start -> start + len ms <= 2 ^ 32 ->
  exists rs, number_modules start ms = Ok rs /\
    map module_body rs = map (fun '(id, m) => ({| package_id := id |}, pending_path m, pending_source m)) ms /\
    forall k r, rs !! k = Some r -> module_record_id r = {| module_id := start + Z.of_nat k |}.
Proof.
  revert start. induction ms as [|[id m] ms IH]; intros start H0 Hs; cbn [number_modules].
  { exists []. done. }
  rewrite len_cons in Hs. pose proof (len_nonneg ms).
  destruct (IH (start + 1)) as (rs & Hrun & Hb & Hi); [lia..|].
  unfold try_u32, u32_max. rewrite (proj2 (Z.leb_le start 4294967295)) by lia.
  cbn [ok_or mbind result_bind]. rewrite Hrun. cbn [mbind result_bind].
  eexists. split_and!; [done| |].
  - cbn. by rewrite Hb.
  - intros [|k] r Hr; [injection Hr as <-; cbn; f_equal; lia|]. rewrite (Hi k r Hr). f_equal. lia.
Qed.

(** ** The finished graph as pure functions of the numbering *)

Section finished.
Context (b : PackageGraphBuilder) (B : BuilderOk b).
#[local] Notation ps := (packages b).

Definition id_at (ids : list Z) (i : nat) : Z := default 0 (ids !! i).
Definition handle_index (h : PackageHandle) : nat := Z.to_nat (handle h).
Definition edge_of (ids : list Z) (d : PendingDependency) : DependencyEdge :=
  {| alias := pending_alias d; edge_package := {| package_id := id_at ids (handle_index (pending_target d)) |} |}.
Definition deps_of (i : nat) : list PendingDependency := default [] (dependencies <$> ps !! i).
Definition record_of (ids : list Z) (i : nat) : PackageRecord :=
  {| record_id := {| package_id := id_at ids i |}; record_identity := identity_at ps i;
     record_dependencies :=
       sort_by (fun l r => bytes_cmp (edge_key l) (edge_key r)) (map (edge_of ids) (deps_of i)) |}.
Definition placed (ids : list Z) (m : PendingModule) : Z * PendingModule :=
  (id_at ids (handle_index (pending_package m)), m).
Definition placed_key (p : Z * PendingModule) : Z * ModulePath := (fst p, pending_path (snd p)).
Definition sorted_modules (ids : list Z) : list (Z * PendingModule) :=
  sort_by (fun l r => module_key_cmp (placed_key l) (placed_key r)) (map (placed ids) (modules b)).

Definition final_order : list nat :=
  0%nat :: sort_by (fun l r => identity_cmp (identity_at ps l) (identity_at ps r)) (seq 1 (length ps - 1)).

(** [ids] numbers the packages in the final order. *)
Definition Numbering (ids : list Z) : Prop :=
  length ids = length ps /\
  forall k i, final_order !! k = Some i -> ids !! i = Some (Z.of_nat k).

Lemma packages_nonempty : (1 <= length ps)%nat.
Proof. pose proof (ok_packages b B) as H. unfold len in H. lia. Qed.

Lemma final_order_perm : final_order ≡ₚ seq 0 (length ps).
Proof.
  unfold final_order. rewrite sort_by_perm. pose proof packages_nonempty.
  by replace (length ps) with (S (length ps - 1)) at 2 by lia.
Qed.

Lemma final_order_elem i : i ∈ final_order <-> (i < length ps)%nat.
Proof. rewrite final_order_perm, elem_of_seq. lia. Qed.

Lemma identity_at_lookup i p : ps !! i = Some p -> identity_at ps i = pending_identity p.
Proof. unfold identity_at. by intros ->. Qed.

Lemma identity_at_inj i j :
  (i < length ps)%nat -> (j < length ps)%nat -> identity_at ps i = identity_at ps j -> i = j.
Proof.
  intros Hi Hj E. apply lookup_lt_is_Some_2 in Hi as [p Hp], Hj as [q Hq].
  rewrite (identity_at_lookup i p), (identity_at_lookup j q) in E by done.
  pose proof (ok_identity_unique b B) as Hn. eapply NoDup_lookup; [exact Hn| |];
    rewrite list_lookup_fmap; [by rewrite Hp|by rewrite Hq, E].
Qed.

Lemma numbering_exists : exists ids,
  assign_ids 0 final_order (replicate (length ps) 0) = Ok ids /\ Numbering ids.
Proof.
  destruct (assign_ids_ok 0 final_order (replicate (length ps) 0)) as (ids & Hrun & Hl & Hk & _).
  - rewrite final_order_perm. apply NoDup_seq.
  - intros i. rewrite length_replicate. apply final_order_elem.
  - done.
  - unfold len. rewrite final_order_perm, length_seq. pose proof (ok_packages b B) as H.
    unfold len, MAX_PACKAGES in H. lia.
  - exists ids. rewrite length_replicate in Hl. split; [exact Hrun|]. split; [exact Hl|]. exact Hk.
Qed.

Context (ids : list Z) (N : Numbering ids).

Lemma id_at_order k i : final_order !! k = Some i -> id_at ids i = Z.of_nat k.
Proof. intros H. unfold id_at. by rewrite (proj2 N k i H). Qed.

Lemma id_at_lookup i : (i < length ps)%nat -> ids !! i = Some (id_at ids i) /\
  final_order !! Z.to_nat (id_at ids i) = Some i /\ 0 <= id_at ids i < len ps.
Proof.
  intros Hi%final_order_elem. apply list_elem_of_lookup in Hi as [k Hk].
  rewrite (id_at_order k i Hk), Nat2Z.id. split_and!; [by apply N|exact Hk|lia|].
  apply lookup_lt_Some in Hk. rewrite final_order_perm, length_seq in Hk. unfold len. lia.
Qed.

Lemma target_range i p d : ps !! i = Some p -> d ∈ dependencies p ->
  (handle_index (pending_target d) < length ps)%nat.
Proof.
  intros Hp Hd. pose proof (pending_targets _ _ _ (ok_pending b B i p Hp)) as H.
  rewrite Forall_forall in H. specialize (H d Hd). unfold handle_index. lia.
Qed.

Lemma module_range m : m ∈ modules b -> (handle_index (pending_package m) < length ps)%nat.
Proof.
  intros Hm. pose proof (ok_module_range b B) as H. rewrite Forall_forall in H.
  specialize (H m Hm). unfold handle_index, len in *. lia.
Qed.

Lemma final_package_ok i : i ∈ final_order -> final_package ps ids i = Ok (record_of ids i).
Proof.
  intros Hi%final_order_elem. destruct (lookup_lt_is_Some_2 ps i Hi) as [p Hp].
  unfold final_package, record_of, deps_of. rewrite (identity_at_lookup i p Hp), Hp.
  cbn [or_panic ok_or mbind result_bind fmap option_fmap option_map default].
  rewrite (mapM_result_pure _ (edge_of ids)).
  - cbn [mbind result_bind]. by rewrite (proj1 (id_at_lookup i Hi)).
  - intros d Hd. unfold final_edge. pose proof (target_range i p d Hp Hd) as Ht.
    unfold handle_index in Ht. by rewrite (proj1 (id_at_lookup _ Ht)).
Qed.

Lemma final_ids_ok : mapM (final_id ids) (modules b) = Ok (map (placed ids) (modules b)).
Proof.
  apply mapM_result_pure. intros m Hm. unfold final_id.
  pose proof (module_range m Hm) as Ht. unfold handle_index in Ht. by rewrite (proj1 (id_at_lookup _ Ht)).
Qed.
End finished.

Definition body_of (p : Z * PendingModule) : PackageId * ModulePath * FileId :=
  ({| package_id := fst p |}, pending_path (snd p), pending_source (snd p)).

Lemma builder_in_range b : BuilderOk b -> in_range (packages b).
Proof.
  intros B i j Hij. apply depends_lt in Hij as Hi. apply lookup_lt_is_Some_2 in Hi as [p Hp].
  unfold depends in Hij. rewrite (deps_at_lookup _ _ _ Hp) in Hij.
  apply list_elem_of_fmap in Hij as (d & -> & Hd). by apply (target_range b B i p).
Qed.

(** The graph that [finish] builds. *)
Record Finished (b : PackageGraphBuilder) (ids : list Z) (g : PackageGraph) : Prop := {
  finished_numbering : Numbering b ids;
  finished_root : graph_root g = {| package_id := 0 |};
  finished_packages : graph_packages g = map (record_of b ids) (final_order b);
  finished_bodies : map module_body (graph_modules g) = map body_of (sorted_modules b ids);
  finished_module_ids : forall k r, graph_modules g !! k = Some r ->
    module_record_id r = {| module_id := Z.of_nat k |};
}.

Lemma finish_succeeds b :
  BuilderOk b -> reject_dependency_cycles (packages b) = Ok tt ->
  reject_unreachable_packages (packages b) (root b) = Ok tt ->
  exists ids g, finish b = Ok g /\ Finished b ids g.
Proof.
  intros B Hc Hr. destruct (numbering_exists b B) as (ids & Hids & N). exists ids.
  destruct (number_modules_ok 0 (sorted_modules b ids)) as (rs & Hrs & Hb & Hi).
  - done.
  - unfold len, sorted_modules. rewrite sort_by_perm, length_map.
    pose proof (ok_modules b B) as H. unfold len, MAX_MODULES in H. lia.
  - eexists. split; [|split; [exact N| | | |]].
    + unfold finish. rewrite Hc, Hr. cbn [mbind result_bind].
      change (assign_ids 0 (0%nat :: _) _) with (assign_ids 0 (final_order b) (replicate (length (packages b)) 0)).
      rewrite Hids. cbn [mbind result_bind].
      change (0%nat :: sort_by _ _) with (final_order b).
      rewrite (mapM_result_pure _ (record_of b ids)) by (intros i; by apply final_package_ok).
      cbn [mbind result_bind]. rewrite final_ids_ok by done. cbn [mbind result_bind].
      change (sort_by _ (map (placed ids) (modules b))) with (sorted_modules b ids).
      rewrite Hrs. reflexivity.
    + done.
    + done.
    + cbn. rewrite Hb. apply map_ext. by intros [].
    + exact Hi.
Qed.

Section canonical.
Context b (B : BuilderOk b) ids g (F : Finished b ids g).
#[local] Notation ps := (packages b).

Let N : Numbering b ids := finished_numbering _ _ _ F.

Lemma graph_package_at k i :
  final_order b !! k = Some i -> graph_packages g !! k = Some (record_of b ids i).
Proof. intros Hk. rewrite (finished_packages _ _ _ F). by rewrite list_lookup_fmap, Hk. Qed.

Lemma graph_len : len (graph_packages g) = len ps.
Proof.
  rewrite (finished_packages _ _ _ F). unfold len. rewrite length_map.
  by rewrite (final_order_perm b B), length_seq.
Qed.

Lemma graph_identity_at i :
  (i < length ps)%nat -> graph_identity g {| package_id := id_at ids i |} = Some (identity_at ps i).
Proof.
  intros Hi. destruct (id_at_lookup b B ids N i Hi) as (_ & Ho & _).
  unfold graph_identity, package. cbn [package_id]. by rewrite (graph_package_at _ _ Ho).
Qed.

Lemma id_at_in i : (i < length ps)%nat -> id_in g {| package_id := id_at ids i |}.
Proof. intros Hi. unfold id_in. rewrite graph_len. cbn. apply (id_at_lookup b B ids N i Hi). Qed.

Lemma id_at_inj i j :
  (i < length ps)%nat -> (j < length ps)%nat -> id_at ids i = id_at ids j -> i = j.
Proof.
  intros Hi Hj E. destruct (id_at_lookup b B ids N i Hi) as (_ & Hi' & _).
  destruct (id_at_lookup b B ids N j Hj) as (_ & Hj' & _). congruence.
Qed.

Lemma map_identity_order : map record_identity (graph_packages g) = map (identity_at ps) (final_order b).
Proof. rewrite (finished_packages _ _ _ F), map_map. done. Qed.

Lemma identity_at_unique l :
  NoDup l -> (forall i, i ∈ l -> (i < length ps)%nat) -> NoDup (map (identity_at ps) l).
Proof.
  induction 1 as [|i l Hi Hn IH]; intros Hr; constructor.
  - intros (j & E & Hj)%list_elem_of_fmap. apply Hi.
    rewrite (identity_at_inj b B i j); [done|apply Hr; left|by apply Hr; right|done].
  - apply IH. intros j Hj. apply Hr. by right.
Qed.

Lemma tail_sorted : StronglySorted (lt_by identity_cmp) (map record_identity (tail (graph_packages g))).
Proof.
  rewrite (finished_packages _ _ _ F). unfold final_order. cbn [map tail]. rewrite map_map. cbn.
  apply (sort_by_strict (identity_at ps) identity_cmp), identity_at_unique; [apply NoDup_seq|].
  intros i Hi%elem_of_seq. pose proof (packages_nonempty b B). lia.
Qed.

Lemma record_edges_sorted i :
  i ∈ final_order b ->
  StronglySorted (lt_by bytes_cmp) (map edge_key (record_dependencies (record_of b ids i))) /\
  Forall (fun e => id_in g (edge_package e)) (record_dependencies (record_of b ids i)).
Proof.
  intros Hi%(final_order_elem b B). destruct (lookup_lt_is_Some_2 ps i Hi) as [p Hp].
  cbn [record_of record_dependencies]. unfold deps_of. rewrite Hp. cbn [fmap option_fmap option_map default].
  split.
  - apply (sort_by_strict edge_key bytes_cmp). rewrite map_map.
    pose proof (pending_alias_unique _ _ _ (ok_pending b B i p Hp)) as Hn.
    apply (NoDup_fmap_1 to_ascii_lowercase). change (fmap ?f ?l) with (map f l). by rewrite map_map.
  - rewrite sort_by_perm. apply Forall_forall. intros e (d & -> & Hd)%list_elem_of_fmap.
    by apply id_at_in, (target_range b B i p).
Qed.

Lemma modules_sorted :
  StronglySorted (lt_by module_key_cmp) (map module_key (graph_modules g)).
Proof.
  assert (map module_key (graph_modules g) = map placed_key (sorted_modules b ids)) as ->.
  { pose proof (f_equal (map (fun '(p, path, _) => (package_id p, path))) (finished_bodies _ _ _ F)) as E.
    rewrite !map_map in E. etransitivity; [|etransitivity; [exact E|]]; apply map_ext; done. }
  apply (sort_by_strict placed_key module_key_cmp). rewrite map_map.
  pose proof (ok_portable_unique b B) as Hn. pose proof (ok_module_range b B) as Hr.
  rewrite Forall_forall in Hr. revert Hn Hr.
  induction (modules b) as [|m ms IH]; cbn [map]; [constructor|].
  intros [Hm Hn]%NoDup_cons Hr. constructor; [|apply IH; [exact Hn|intros k Hk; apply Hr; by right]].
  intros (k & [= E Epath] & Hk)%list_elem_of_fmap. apply Hm, list_elem_of_fmap. exists k. split; [|exact Hk].
  assert (0 <= handle (pending_package m) < len ps) as Hrm by (apply Hr; left).
  assert (0 <= handle (pending_package k) < len ps) as Hrk by (apply Hr; by right).
  unfold handle_index, len in *. apply id_at_inj in E; [|lia..].
  unfold portable_module_key. rewrite <- Epath. f_equal.
  destruct (pending_package m), (pending_package k). cbn in *. f_equal. lia.
Qed.

Lemma finished_canonical : Canonical g.
Proof.
  split.
  - apply F.
  - intros k r. rewrite (finished_packages _ _ _ F), list_lookup_fmap.
    destruct (final_order b !! k) as [i|] eqn:Hk; [|done]. intros [= <-]. cbn.
    by rewrite (id_at_order b ids N k i Hk).
  - apply tail_sorted.
  - rewrite map_identity_order. apply identity_at_unique.
    + rewrite (final_order_perm b B). apply NoDup_seq.
    + intros i. apply (final_order_elem b B).
  - rewrite (finished_packages _ _ _ F). apply Forall_forall.
    intros r (i & -> & Hi)%list_elem_of_fmap. by apply record_edges_sorted.
  - apply F.
  - apply modules_sorted.
  - apply Forall_forall. intros m Hm.
    assert (module_body m ∈ map body_of (sorted_modules b ids)) as Hb.
    { rewrite <- (finished_bodies _ _ _ F). by apply (list_elem_of_fmap_2 module_body). }
    unfold sorted_modules in Hb. rewrite sort_by_perm, map_map in Hb.
    apply list_elem_of_fmap in Hb as (pm & [= -> _ _] & Hpm).
    by apply id_at_in, (module_range b B).
Qed.

(** The graph contains what the builder contained. *)
Lemma finished_root_identity : record_identity <$> graph_packages g !! 0%nat = Some (identity_at ps 0).
Proof. by rewrite (graph_package_at 0 0). Qed.

Lemma finished_has_package i : i ∈ map record_identity (graph_packages g) <-> has_package b i.
Proof.
  rewrite map_identity_order, list_elem_of_fmap. unfold has_package. split.
  - intros (k & -> & Hk%(final_order_elem b B)). apply lookup_lt_is_Some_2 in Hk as [p Hp].
    exists k, p. by rewrite (identity_at_lookup b k p).
  - intros (k & p & Hp & <-). exists k. rewrite (identity_at_lookup b k p) by done. split; [done|].
    apply (final_order_elem b B). by eapply lookup_lt_Some.
Qed.

Lemma finished_has_edge i a j : graph_edge g i a j <-> has_edge b i a j.
Proof.
  unfold graph_edge, has_edge. split.
  - intros (r & e & Hr & <- & He & <- & Hj). rewrite (finished_packages _ _ _ F) in Hr.
    apply list_elem_of_fmap in Hr as (k & -> & Hk%(final_order_elem b B)).
    apply lookup_lt_is_Some_2 in Hk as [p Hp]. cbn [record_of record_dependencies record_identity] in *.
    rewrite sort_by_perm in He. unfold deps_of in He. rewrite Hp in He.
    cbn [fmap option_fmap option_map default] in He. apply list_elem_of_fmap in He as (d & -> & Hd).
    pose proof (target_range b B k p d Hp Hd) as Ht. cbn [edge_of edge_package] in Hj.
    rewrite graph_identity_at in Hj by done. injection Hj as <-.
    destruct (lookup_lt_is_Some_2 ps _ Ht) as [q Hq]. exists k, p, d, q.
    rewrite (identity_at_lookup b k p), (identity_at_lookup b _ q) by done. done.
  - intros (k & p & d & q & Hp & <- & Hd & <- & Hq & <-).
    exists (record_of b ids k), (edge_of ids d). rewrite (finished_packages _ _ _ F).
    pose proof (target_range b B k p d Hp Hd) as Ht. split_and!.
    + apply (list_elem_of_fmap_2 (record_of b ids)), (final_order_elem b B). by eapply lookup_lt_Some.
    + by apply (identity_at_lookup b k p).
    + cbn. rewrite sort_by_perm. unfold deps_of. rewrite Hp. by apply (list_elem_of_fmap_2 (edge_of ids)).
    + done.
    + cbn [edge_of edge_package]. rewrite graph_identity_at by done. by rewrite (identity_at_lookup b _ q).
Qed.

Lemma finished_has_module i path source : graph_module g i path source <-> has_module b i path source.
Proof.
  assert (Hbody : forall x, x ∈ map module_body (graph_modules g) <->
    x ∈ map (fun m => body_of (placed ids m)) (modules b)).
  { intros x. rewrite (finished_bodies _ _ _ F). unfold sorted_modules. by rewrite sort_by_perm, map_map. }
  unfold graph_module, has_module. split.
  - intros (r & Hr & Hi & <- & <-). apply (list_elem_of_fmap_2 module_body), Hbody in Hr.
    apply list_elem_of_fmap in Hr as (m & [= Ep -> ->] & Hm). rewrite Ep in Hi.
    pose proof (module_range b B m Hm) as Ht. rewrite graph_identity_at in Hi by done. injection Hi as <-.
    destruct (lookup_lt_is_Some_2 ps _ Ht) as [q Hq]. exists m, q.
    by rewrite (identity_at_lookup b _ q).
  - intros (m & q & Hm & Hq & <- & <- & <-).
    assert (body_of (placed ids m) ∈ map module_body (graph_modules g)) as Hx
      by (apply Hbody; by apply (list_elem_of_fmap_2 (fun m => body_of (placed ids m)))).
    apply list_elem_of_fmap in Hx as (r & E & Hr). injection E as Ep Epath Esrc. exists r.
    split_and!; [exact Hr| |done|done]. rewrite <- Ep.
    rewrite graph_identity_at by (by apply (module_range b B)). by rewrite (identity_at_lookup b _ q).
Qed.
End canonical.

(** ** Canonical graphs are determined by what they contain *)

Section unique.
Context (g g' : PackageGraph) (C : Canonical g) (C' : Canonical g').
Context (Hids : map record_identity (graph_packages g) = map record_identity (graph_packages g')).

Lemma same_graph_identity id : graph_identity g id = graph_identity g' id.
Proof.
  unfold graph_identity, package. rewrite <- !list_lookup_fmap.
  change (fmap ?f ?l) with (map f l). by rewrite Hids.
Qed.

Lemma same_graph_len : len (graph_packages g) = len (graph_packages g').
Proof. unfold len. by rewrite <- (length_map record_identity), Hids, length_map. Qed.

Lemma graph_identity_inj a b :
  id_in g a -> id_in g' b -> graph_identity g a = graph_identity g' b -> a = b.
Proof.
  intros Ha Hb. rewrite <- same_graph_identity. unfold id_in in *. rewrite <- same_graph_len in Hb.
  unfold graph_identity, package, len in *. rewrite <- !list_lookup_fmap. intros E.
  destruct (lookup_lt_is_Some_2 (record_identity <$> graph_packages g) (Z.to_nat (package_id a))) as [i Hi];
    [rewrite length_fmap; lia|].
  rewrite Hi in E. symmetry in E.
  pose proof (NoDup_lookup _ _ _ _ (canonical_distinct g C) Hi E) as En.
  destruct a, b. cbn in *. f_equal. lia.
Qed.

Lemma edges_incl k r r' e :
  (forall i a j, graph_edge g i a j -> graph_edge g' i a j) ->
  graph_packages g !! k = Some r -> graph_packages g' !! k = Some r' ->
  e ∈ record_dependencies r -> e ∈ record_dependencies r'.
Proof.
  intros Hedge Hr Hr' He.
  assert (Hrec : record_identity r = record_identity r').
  { pose proof (f_equal (fun l => l !! k) Hids) as E. cbn in E. rewrite !list_lookup_fmap, Hr, Hr' in E.
    by injection E. }
  pose proof (canonical_edges g C) as Hce. pose proof (canonical_edges g' C') as Hce'.
  rewrite Forall_forall in Hce, Hce'.
  apply list_elem_of_lookup_2 in Hr as Hin. destruct (Hce r Hin) as [_ Hrange].
  rewrite Forall_forall in Hrange. specialize (Hrange e He).
  destruct (graph_identity g (edge_package e)) as [j|] eqn:Hj.
  2:{ unfold graph_identity, package in Hj. apply fmap_None, lookup_ge_None_1 in Hj.
      unfold id_in, len in Hrange. lia. }
  destruct (Hedge (record_identity r) (alias e) j) as (s & e' & Hs & Hsid & He' & Ha & Hj');
    [by exists r, e|].
  assert (s = r') as ->.
  { apply list_elem_of_lookup in Hs as [m Hm].
    assert (m = k) as ->; [|congruence].
    eapply NoDup_lookup; [apply (canonical_distinct g' C')| |]; rewrite list_lookup_fmap;
      [by rewrite Hm|rewrite Hr'; cbn; by rewrite <- Hrec, Hsid]. }
  assert (edge_package e = edge_package e') as Ep.
  { apply graph_identity_inj; [exact Hrange| |by rewrite Hj, Hj'].
    apply list_elem_of_lookup_2 in Hr'. destruct (Hce' r' Hr') as [_ Hrange'].
    rewrite Forall_forall in Hrange'. by apply Hrange'. }
  destruct e, e'. cbn in *. by subst.
Qed.

Lemma modules_incl x :
  (forall i path source, graph_module g i path source -> graph_module g' i path source) ->
  x ∈ map module_body (graph_modules g) -> x ∈ map module_body (graph_modules g').
Proof.
  intros Hmod (m & -> & Hm)%list_elem_of_fmap.
  pose proof (canonical_module_range g C) as Hrange. rewrite Forall_forall in Hrange.
  specialize (Hrange m Hm). destruct (graph_identity g (module_package m)) as [i|] eqn:Hi.
  2:{ unfold graph_identity, package in Hi. apply fmap_None, lookup_ge_None_1 in Hi.
      unfold id_in, len in Hrange. lia. }
  destruct (Hmod i (module_path m) (module_source m)) as (m' & Hm' & Hi' & Hp & Hs); [by exists m|].
  apply list_elem_of_fmap. exists m'. split; [|exact Hm']. unfold module_body. rewrite Hp, Hs.
  do 2 f_equal. pose proof (canonical_module_range g' C') as Hrange'. rewrite Forall_forall in Hrange'.
  apply graph_identity_inj; [done|by apply Hrange'|congruence].
Qed.
End unique.

Lemma same_identities g g' :
  Canonical g -> Canonical g' ->
  record_identity <$> graph_packages g !! 0%nat = record_identity <$> graph_packages g' !! 0%nat ->
  (forall i, i ∈ map record_identity (graph_packages g) <-> i ∈ map record_identity (graph_packages g')) ->
  map record_identity (graph_packages g) = map record_identity (graph_packages g').
Proof.
  intros C C' H0 Hmem.
  pose proof (canonical_order g C) as Hs. pose proof (canonical_order g' C') as Hs'.
  pose proof (canonical_distinct g C) as Hn. pose proof (canonical_distinct g' C') as Hn'.
  destruct (graph_packages g) as [|r rs], (graph_packages g') as [|r' rs']; try done.
  cbn [map tail] in *. injection H0 as E. rewrite E in *. f_equal.
  apply NoDup_cons in Hn as [Hn _], Hn' as [Hn' _].
  apply (sorted_key_unique (fun i => i) identity_cmp); rewrite ?map_id; [done..|].
  intros i. specialize (Hmem i). rewrite !elem_of_cons in Hmem.
  split; intros Hi; [destruct (proj1 Hmem (or_intror Hi)) as [->|]|destruct (proj2 Hmem (or_intror Hi)) as [->|]];
    done.
Qed.

Lemma canonical_unique g g' :
  Canonical g -> Canonical g' ->
  record_identity <$> graph_packages g !! 0%nat = record_identity <$> graph_packages g' !! 0%nat ->
  (forall i, i ∈ map record_identity (graph_packages g) <-> i ∈ map record_identity (graph_packages g')) ->
  (forall i a j, graph_edge g i a j <-> graph_edge g' i a j) ->
  (forall i path source, graph_module g i path source <-> graph_module g' i path source) ->
  g = g'.
Proof.
  intros C C' H0 Hmem Hedge Hmod. pose proof (same_identities g g' C C' H0 Hmem) as Hids.
  assert (Hpackages : graph_packages g = graph_packages g').
  { apply list_eq. intros k. pose proof (f_equal (fun l => l !! k) Hids) as E. cbn in E.
    rewrite !list_lookup_fmap in E.
    destruct (graph_packages g !! k) as [r|] eqn:Hr, (graph_packages g' !! k) as [r'|] eqn:Hr'; try done.
    injection E as E. f_equal.
    assert (record_dependencies r = record_dependencies r') as Ed.
    { pose proof (canonical_edges g C) as Hce. pose proof (canonical_edges g' C') as Hce'.
      rewrite Forall_forall in Hce, Hce'.
      apply (sorted_key_unique edge_key bytes_cmp); [apply Hce|apply Hce'|]; [by eapply list_elem_of_lookup_2..|].
      intros e. split; [apply (edges_incl g g' C C' Hids k)|apply (edges_incl g' g C' C (eq_sym Hids) k)];
        try done; intros i a j; apply Hedge. }
    pose proof (canonical_ids g C k r Hr). pose proof (canonical_ids g' C' k r' Hr').
    destruct r, r'. cbn in *. by subst. }
  assert (Hbodies : map module_body (graph_modules g) = map module_body (graph_modules g')).
  { apply (sorted_key_unique (fun x : PackageId * ModulePath * FileId => (package_id x.1.1, x.1.2)) module_key_cmp);
      rewrite ?map_map; [apply C|apply C'|].
    intros x. split; [apply (modules_incl g g' C C' Hids)|apply (modules_incl g' g C' C (eq_sym Hids))];
      intros i path source; apply Hmod. }
  assert (Hmodules : graph_modules g = graph_modules g').
  { apply list_eq. intros k. pose proof (f_equal (fun l => l !! k) Hbodies) as E. cbn in E.
    rewrite !list_lookup_fmap in E.
    destruct (graph_modules g !! k) as [m|] eqn:Hm, (graph_modules g' !! k) as [m'|] eqn:Hm'; try done.
    injection E as E1 E2 E3.
    pose proof (canonical_module_ids g C k m Hm). pose proof (canonical_module_ids g' C' k m' Hm').
    destruct m, m'. cbn in *. by subst. }
  pose proof (canonical_root g C). pose proof (canonical_root g' C').
  destruct g, g'. cbn in *. by subst.
Qed.

(** ** Dependencies by identity *)

Definition identity_depends (b : PackageGraphBuilder) (i j : PackageIdentity) : Prop :=
  exists a, has_edge b i a j.

Section by_identity.
Context b (B : BuilderOk b).
#[local] Notation ps := (packages b).

Lemma depends_edge x y : depends ps x y -> exists p d q,
  ps !! x = Some p /\ d ∈ dependencies p /\ y = Z.to_nat (handle (pending_target d)) /\ ps !! y = Some q.
Proof.
  intros Hxy. apply depends_lt in Hxy as Hx. apply lookup_lt_is_Some_2 in Hx as [p Hp].
  apply (builder_in_range b B) in Hxy as Hy. apply lookup_lt_is_Some_2 in Hy as [q Hq].
  unfold depends in Hxy. rewrite (deps_at_lookup _ _ _ Hp) in Hxy.
  apply list_elem_of_fmap in Hxy as (d & -> & Hd). eauto 10.
Qed.

Lemma depends_identity x y : depends ps x y -> identity_depends b (identity_at ps x) (identity_at ps y).
Proof.
  intros (p & d & q & Hp & Hd & -> & Hq)%depends_edge. exists (pending_alias d), x, p, d, q.
  by rewrite (identity_at_lookup b x p), (identity_at_lookup b _ q).
Qed.

Lemma identity_depends_at x j :
  (x < length ps)%nat -> identity_depends b (identity_at ps x) j ->
  exists y, depends ps x y /\ (y < length ps)%nat /\ identity_at ps y = j.
Proof.
  intros Hx (a & k & p & d & q & Hp & Hi & Hd & _ & Hq & <-).
  assert (k = x) as ->.
  { apply (identity_at_inj b B); [by eapply lookup_lt_Some|done|]. by rewrite (identity_at_lookup b k p). }
  exists (Z.to_nat (handle (pending_target d))). split_and!.
  - unfold depends. rewrite (deps_at_lookup _ _ _ Hp). by apply (list_elem_of_fmap_2 (fun d => Z.to_nat (handle (pending_target d)))).
  - by eapply lookup_lt_Some.
  - by apply (identity_at_lookup b).
Qed.

Lemma sn_identity x : (x < length ps)%nat -> sn (depends ps) x -> sn (identity_depends b) (identity_at ps x).
Proof.
  intros Hx Hsn. induction Hsn as [x _ IH]. constructor. intros j Hj.
  destruct (identity_depends_at x j Hx Hj) as (y & Hxy & Hy & <-). exact (IH y Hxy Hy).
Qed.

Lemma sn_from_identity x : sn (identity_depends b) (identity_at ps x) -> sn (depends ps) x.
Proof.
  intros Hsn. remember (identity_at ps x) as i eqn:E. revert x E.
  induction Hsn as [i _ IH]. intros x ->. constructor. intros y Hxy.
  exact (IH _ (depends_identity x y Hxy) y eq_refl).
Qed.

Lemma rtc_identity x y : rtc (depends ps) x y -> rtc (identity_depends b) (identity_at ps x) (identity_at ps y).
Proof. apply (rtc_congruence (identity_at ps)). apply depends_identity. Qed.

Lemma rtc_from_identity x j :
  (x < length ps)%nat -> rtc (identity_depends b) (identity_at ps x) j ->
  exists y, rtc (depends ps) x y /\ (y < length ps)%nat /\ identity_at ps y = j.
Proof.
  intros Hx Hr. remember (identity_at ps x) as i eqn:E. revert x Hx E.
  induction Hr as [i|i k j Hik _ IH]; intros x Hx ->; [exists x; split_and!; [apply rtc_refl|done..]|].
  destruct (identity_depends_at x k Hx Hik) as (y & Hxy & Hy & <-).
  destruct (IH y Hy eq_refl) as (z & Hyz & Hz & <-). exists z. split_and!; [|done..].
  exact (rtc_l _ _ _ _ Hxy Hyz).
Qed.
End by_identity.

(** ** The whole of [finish] *)

Lemma handle_u32 h n : (h < n)%nat -> Z.of_nat n <= MAX_PACKAGES -> Z.of_nat h mod 2 ^ 32 = Z.of_nat h.
Proof. intros. unfold MAX_PACKAGES in *. apply Z.mod_small. lia. Qed.

Lemma finish_cases b :
  BuilderOk b ->
  let n := length (packages b) in
  let reached i := rtc (depends (packages b)) 0%nat i in
  (exists ids g, finish b = Ok g /\ Finished b ids g /\
     forall i, (i < n)%nat -> sn (depends (packages b)) i /\ reached i) \/
  (exists h, finish b = Err (GraphFailed (DependencyCycle {| handle := Z.of_nat h |})) /\
     (h < n)%nat /\ reaches_cycle (packages b) h /\ forall i, (i < h)%nat -> sn (depends (packages b)) i) \/
  (exists h, finish b = Err (GraphFailed (UnreachablePackage {| handle := Z.of_nat h |})) /\
     (forall i, (i < n)%nat -> sn (depends (packages b)) i) /\
     (h < n)%nat /\ ~ reached h /\ forall i, (i < h)%nat -> reached i).
Proof.
  intros B n reached. pose proof (builder_in_range b B) as Hr.
  pose proof (ok_packages b B) as Hp. unfold len in Hp.
  destruct (reject_dependency_cycles_spec _ Hr) as [[Hc Hsn]|(h & Hc & Hh & Hcycle & Hleast)].
  2:{ right. left. exists h. split_and!; try assumption. unfold finish. rewrite Hc.
      by rewrite (handle_u32 h n Hh (proj2 Hp)). }
  destruct (reject_unreachable_spec (packages b) (root b) Hr) as [[Hu Hreach]|(h & Hu & Hh & Hno & Hleast)];
    rewrite (ok_root b B) in *; cbn [handle] in *; [change (Z.to_nat 0) with 0%nat; lia| |].
  - left. destruct (finish_succeeds b B Hc) as (ids & g & Hf & F); [by rewrite (ok_root b B)|].
    exists ids, g. split_and!; [done..|]. intros i Hi. split; [by apply Hsn|by apply Hreach].
  - right. right. exists h. split_and!; try assumption. unfold finish. rewrite Hc. cbn [mbind result_bind].
    rewrite (ok_root b B), Hu. by rewrite (handle_u32 h n Hh (proj2 Hp)).
Qed.

(** ** Builders with the same contents *)

Section same.
Context b b' (B : BuilderOk b) (B' : BuilderOk b') (S : same_content b b').

Lemma same_identity_depends x y : identity_depends b x y <-> identity_depends b' x y.
Proof. unfold identity_depends. by setoid_rewrite (same_edges _ _ S). Qed.

Lemma same_index x' : (x' < length (packages b'))%nat -> exists x,
  (x < length (packages b))%nat /\ identity_at (packages b) x = identity_at (packages b') x'.
Proof.
  intros Hx'. apply lookup_lt_is_Some_2 in Hx' as [p Hp].
  destruct (proj2 (same_packages _ _ S (pending_identity p))) as (x & q & Hq & E); [by exists x', p|].
  exists x. split; [by eapply lookup_lt_Some|].
  by rewrite (identity_at_lookup b x q), (identity_at_lookup b' x' p).
Qed.

(** Cycles and reachability do not depend on the handles. *)
Lemma same_sn :
  (forall x, (x < length (packages b))%nat -> sn (depends (packages b)) x) ->
  forall x', (x' < length (packages b'))%nat -> sn (depends (packages b')) x'.
Proof.
  intros Hgood x' Hx'. destruct (same_index x' Hx') as (x & Hx & E). pose proof (Hgood x Hx) as Hsn.
  apply (sn_from_identity b' B'). rewrite <- E.
  apply (sn_identity b B) in Hsn; [|done]. pose proof same_identity_depends as Hirel. clear -Hsn Hirel.
  induction Hsn as [j _ IH]. constructor. intros k Hk. by apply IH, Hirel.
Qed.

Lemma same_reached :
  (forall x, (x < length (packages b))%nat -> rtc (depends (packages b)) 0%nat x) ->
  forall x', (x' < length (packages b'))%nat -> rtc (depends (packages b')) 0%nat x'.
Proof.
  intros Hgood x' Hx'. destruct (same_index x' Hx') as (x & Hx & E). pose proof (Hgood x Hx) as Hr.
  apply (rtc_identity b B) in Hr. rewrite E, (same_root _ _ S) in Hr.
  apply (rtc_subrel _ (identity_depends b')) in Hr; [|intros ? ?; apply same_identity_depends].
  apply (rtc_from_identity b' B') in Hr as (y & Hy & Hlt & Ey).
  - by apply (identity_at_inj b' B') in Ey as ->.
  - pose proof (packages_nonempty b' B'). lia.
Qed.

Lemma same_graph ids g ids' g' : Finished b ids g -> Finished b' ids' g' -> g' = g.
Proof.
  intros F F'. apply canonical_unique.
  - exact (finished_canonical b' B' ids' g' F').
  - exact (finished_canonical b B ids g F).
  - by rewrite (finished_root_identity b' ids' g' F'), (finished_root_identity b ids g F), (same_root _ _ S).
  - intros k. rewrite (finished_has_package b' B' ids' g' F'), (finished_has_package b B ids g F).
    symmetry. apply S.
  - intros k a j. rewrite (finished_has_edge b' B' ids' g' F'), (finished_has_edge b B ids g F).
    symmetry. apply S.
  - intros k path s. rewrite (finished_has_module b' B' ids' g' F'), (finished_has_module b B ids g F).
    symmetry. apply S.
Qed.
End same.

(** The contents as lists. *)
Definition package_list (b : PackageGraphBuilder) : list PackageIdentity :=
  map pending_identity (packages b).
Definition edge_list (b : PackageGraphBuilder) : list (PackageIdentity * DependencyAlias * PackageIdentity) :=
  flat_map (fun p => map (fun d => (pending_identity p, pending_alias d,
    identity_at (packages b) (handle_index (pending_target d)))) (dependencies p)) (packages b).
Definition module_list (b : PackageGraphBuilder) : list (PackageIdentity * ModulePath * FileId) :=
  map (fun m => (identity_at (packages b) (handle_index (pending_package m)), pending_path m, pending_source m))
    (modules b).

Lemma package_list_spec b i : has_package b i <-> i ∈ package_list b.
Proof.
  unfold has_package, package_list. rewrite list_elem_of_fmap. setoid_rewrite list_elem_of_lookup.
  naive_solver.
Qed.
Lemma edge_list_spec b i a j : BuilderOk b -> has_edge b i a j <-> (i, a, j) ∈ edge_list b.
Proof.
  intros B. unfold has_edge, edge_list. rewrite list_elem_of_In, in_flat_map.
  setoid_rewrite <- list_elem_of_In. setoid_rewrite list_elem_of_fmap. split.
  - intros (k & p & d & q & Hp & <- & Hd & <- & Hq & <-). exists p.
    split; [by eapply list_elem_of_lookup_2|]. exists d. by rewrite (identity_at_lookup b _ q).
  - intros (p & [k Hp]%list_elem_of_lookup & d & [= -> -> ->] & Hd).
    destruct (lookup_lt_is_Some_2 (packages b) _ (target_range b B k p d Hp Hd)) as [q Hq].
    exists k, p, d, q. by rewrite (identity_at_lookup b _ q).
Qed.
Lemma module_list_spec b i path s : BuilderOk b -> has_module b i path s <-> (i, path, s) ∈ module_list b.
Proof.
  intros B. unfold has_module, module_list. rewrite list_elem_of_fmap. split.
  - intros (m & q & Hm & Hq & <- & <- & <-). exists m. by rewrite (identity_at_lookup b _ q).
  - intros (m & [= -> -> ->] & Hm).
    destruct (lookup_lt_is_Some_2 (packages b) _ (module_range b B m Hm)) as [q Hq].
    exists m, q. by rewrite (identity_at_lookup b _ q).
Qed.

Lemma same_content_lists b b' :
  BuilderOk b -> BuilderOk b' -> identity_at (packages b) 0 = identity_at (packages b') 0 ->
  package_list b ≡ₚ package_list b' -> edge_list b ≡ₚ edge_list b' -> module_list b ≡ₚ module_list b' ->
  same_content b b'.
Proof.
  intros B B' H0 Hp He Hm. split; [exact H0|intros i|intros i a j|intros i path s].
  - by rewrite !package_list_spec, Hp.
  - by rewrite !edge_list_spec, He.
  - by rewrite !module_list_spec, Hm.
Qed.

(** A script of construction calls; a failing call stops it. *)
Inductive call :=
| AddPackage (identity : PackageIdentity)
| AddDependency (package : Z) (alias : str) (dependency : Z)
| AddModule (package : Z) (path : list str) (source : Z).

Definition perform (b : PackageGraphBuilder) (c : call) : option PackageGraphBuilder :=
  match c with
  | AddPackage i => match add_package b i with Ok (_, b) => Some b | Err _ => None end
  | AddDependency p a d =>
      if fits 32 p && fits 32 d then
        match add_dependency b {| handle := p |} {| alias_as_str := a |} {| handle := d |} with
        | Ok b => Some b | Err _ => None
        end
      else None
  | AddModule p path s =>
      if fits 32 p then
        match add_module b {| handle := p |} {| segments := path |} {| file_id := s |} with
        | Ok (_, b) => Some b | Err _ => None
        end
      else None
  end.
Definition script (root_identity : PackageIdentity) (calls : list call) : option PackageGraphBuilder :=
  foldM perform (new root_identity) calls.

Lemma script_built root_identity calls b : script root_identity calls = Some b -> built root_identity b.
Proof.
  unfold script, built. generalize (new root_identity). induction calls as [|c calls IH]; intros b0; cbn [foldM].
  { intros [= <-]. apply rtc_refl. }
  intros (b1 & H1 & H)%bind_Some. eapply rtc_l; [|by apply IH]. destruct c as [i|p a d|p path s]; cbn in H1.
  - destruct (add_package b0 i) as [[h b2]|] eqn:E; [|done]. injection H1 as ->. by eapply step_package.
  - destruct (fits 32 p && fits 32 d) eqn:Hf; [|done]. split_andb.
    destruct (add_dependency b0 _ _ _) as [b2|] eqn:E; [|done]. injection H1 as ->.
    by eapply step_dependency; [..|exact E].
  - destruct (fits 32 p) eqn:Hf; [|done]. split_andb.
    destruct (add_module b0 _ _ _) as [[h b2]|] eqn:E; [|done]. injection H1 as ->.
    by eapply step_module; [|exact E].
Qed.

(** ** Properties *)

(** C11: Finishing a constructed graph never panics and its loops terminate: it
    succeeds exactly when no package leads into a dependency cycle and every
    package is reachable from the root; otherwise it names the first package
    that leads into a cycle, or, without cycles, the first unreachable one. *)
Theorem finish_decides (root_identity : PackageIdentity) b :
  built root_identity b ->
  match finish b with
  | Ok _ => forall i, (i < length (packages b))%nat ->
      ~ reaches_cycle (packages b) i /\ rtc (depends (packages b)) 0%nat i
  | Err (GraphFailed (DependencyCycle h)) =>
      0 <= handle h < len (packages b) /\ reaches_cycle (packages b) (handle_index h) /\
      forall i, (i < handle_index h)%nat -> ~ reaches_cycle (packages b) i
  | Err (GraphFailed (UnreachablePackage h)) =>
      0 <= handle h < len (packages b) /\ ~ rtc (depends (packages b)) 0%nat (handle_index h) /\
      (forall i, (i < handle_index h)%nat -> rtc (depends (packages b)) 0%nat i) /\
      forall i, (i < length (packages b))%nat -> ~ reaches_cycle (packages b) i
  | Err _ => False
  end.
Proof.
  intros B%built_ok.
  destruct (finish_cases b B) as [(ids & g & -> & _ & H)|[(h & -> & Hh & Hc & Hl)|(h & -> & Hs & Hh & Hn & Hl)]];
    unfold handle_index, len; cbn [handle]; rewrite ?Nat2Z.id.
  - intros i Hi. destruct (H i Hi). split; [by apply sn_no_cycle|done].
  - split_and!; [lia|lia|done|]. intros i Hi. by apply sn_no_cycle, Hl.
  - split_and!; [lia|lia|done|done|]. intros i Hi. by apply sn_no_cycle, Hs.
Qed.

(** The graph that finishing builds is in canonical form, with dense ids,
    the root first and everything else strictly ordered, and contains exactly
    the packages, dependencies and modules that were added. *)
Theorem finish_canonical (root_identity : PackageIdentity) b g :
  built root_identity b -> finish b = Ok g ->
  Canonical g /\
  record_identity <$> graph_packages g !! 0%nat = Some (identity_at (packages b) 0) /\
  (forall i, i ∈ map record_identity (graph_packages g) <-> has_package b i) /\
  (forall i a j, graph_edge g i a j <-> has_edge b i a j) /\
  (forall i path source, graph_module g i path source <-> has_module b i path source).
Proof.
  intros B%built_ok Hf.
  destruct (finish_cases b B) as [(ids & g' & Hf' & F & _)|[(h & Hf' & _)|(h & Hf' & _)]]; [|congruence..].
  assert (g' = g) as -> by congruence. split_and!.
  - exact (finished_canonical b B ids g F).
  - exact (finished_root_identity b ids g F).
  - exact (finished_has_package b B ids g F).
  - exact (finished_has_edge b B ids g F).
  - exact (finished_has_module b B ids g F).
Qed.

(** C26: The outcome of finishing does not depend on the order in which packages,
    dependencies and modules were discovered. Of two constructions that contain
    the same graph either both finish, with the same result, or both fail for
    the same reason, a dependency cycle or an unreachable package; which package
    the error names is the first in order of discovery ([finish_decides]). *)
Theorem finish_ignores_discovery_order (i i' : PackageIdentity) b b' :
  built i b -> built i' b' -> same_content b b' ->
  match finish b with
  | Ok g => finish b' = Ok g
  | Err (GraphFailed (DependencyCycle _)) => exists h, finish b' = Err (GraphFailed (DependencyCycle h))
  | Err (GraphFailed (UnreachablePackage _)) => exists h, finish b' = Err (GraphFailed (UnreachablePackage h))
  | Err _ => False
  end.
Proof.
  intros B%built_ok B'%built_ok S. pose proof (same_content_sym _ _ S) as S'.
  destruct (finish_cases b B) as [(ids & g & -> & F & Hgood)|[(h & -> & Hh & Hc & _)|(h & -> & Hsn & Hh & Hn & _)]];
    destruct (finish_cases b' B') as [(ids' & g' & Hf' & F' & Hgood')|[(h' & Hf' & Hh' & Hc' & _)|(h' & Hf' & Hsn' & Hh' & Hn' & _)]];
    cbn [handle]; eauto.
  - rewrite Hf'. f_equal. exact (same_graph b b' B B' S ids g ids' g' F F').
  - destruct (sn_no_cycle _ h' (same_sn b b' B B' S (fun x Hx => proj1 (Hgood x Hx)) h' Hh') Hc').
  - destruct (Hn' (same_reached b b' B B' S (fun x Hx => proj2 (Hgood x Hx)) h' Hh')).
  - destruct (sn_no_cycle _ h (same_sn b' b B' B S' (fun x Hx => proj1 (Hgood' x Hx)) h Hh) Hc).
  - destruct (sn_no_cycle _ h (same_sn b' b B' B S' Hsn' h Hh) Hc).
  - destruct (Hn (same_reached b' b B' B S' (fun x Hx => proj2 (Hgood' x Hx)) h Hh)).
  - destruct (sn_no_cycle _ h' (same_sn b b' B B' S Hsn h' Hh') Hc').
Qed.

(** *** Examples: the same graph discovered in two orders *)

Definition example_identity (n : string) : PackageIdentity :=
  {| name := {| package_name := ascii n |}; version := {| package_version := ascii "1.0.0" |};
     identity_digest := from_bytes (replicate 32 x01) |}.
Definition alpha_first : list call :=
  [ AddPackage (example_identity "alpha"); AddPackage (example_identity "zulu");
    AddDependency 0 (ascii "zulu") 2; AddDependency 0 (ascii "alpha") 1;
    AddModule 2 [ascii "zulu"] 2; AddModule 1 [ascii "alpha"] 1 ].
Definition zulu_first : list call :=
  [ AddPackage (example_identity "zulu"); AddPackage (example_identity "alpha");
    AddDependency 0 (ascii "zulu") 1; AddDependency 0 (ascii "alpha") 2;
    AddModule 1 [ascii "zulu"] 2; AddModule 2 [ascii "alpha"] 1 ].
Definition run_script (calls : list call) : PackageGraphBuilder :=
  default (new (example_identity "root")) (script (example_identity "root") calls).
Definition finished_graph (b : PackageGraphBuilder) : PackageGraph :=
  match finish b with
  | Ok g => g
  | Err _ => {| graph_root := {| package_id := 0 |}; graph_packages := []; graph_modules := [] |}
  end.

Lemma run_script_built calls :
  (if script (example_identity "root") calls then true else false) = true ->
  built (example_identity "root") (run_script calls).
Proof.
  unfold run_script. destruct (script (example_identity "root") calls) as [b|] eqn:E; [|done].
  intros _. by apply (script_built _ calls).
Qed.
Lemma alpha_built : built (example_identity "root") (run_script alpha_first).
Proof. apply run_script_built. vm_compute. reflexivity. Qed.
Lemma zulu_built : built (example_identity "root") (run_script zulu_first).
Proof. apply run_script_built. vm_compute. reflexivity. Qed.
Lemma alpha_zulu_same : same_content (run_script alpha_first) (run_script zulu_first).
Proof.
  apply same_content_lists.
  - exact (built_ok _ _ alpha_built).
  - exact (built_ok _ _ zulu_built).
  - vm_compute. reflexivity.
  - vm_compute. apply perm_skip, perm_swap.
  - vm_compute. reflexivity.
  - vm_compute. reflexivity.
Qed.

Lemma builder_invariant_witness : BuilderOk (run_script alpha_first).
Proof. exact (builder_invariant _ _ alpha_built). Defined.

Lemma finish_decides_witness :
  finish (run_script [AddPackage (example_identity "alpha"); AddPackage (example_identity "beta");
    AddDependency 1 (ascii "beta") 2; AddDependency 2 (ascii "alpha") 1]) =
    Err (GraphFailed (DependencyCycle {| handle := 1 |})) /\
  rtc (depends (packages (run_script alpha_first))) 0%nat 2%nat.
Proof.
  split; [vm_compute; reflexivity|].
  assert (H := finish_decides _ _ alpha_built).
  assert (finish (run_script alpha_first) = Ok (finished_graph (run_script alpha_first))) as E
    by (vm_compute; reflexivity).
  rewrite E in H. apply (H 2%nat). apply Nat.ltb_lt. vm_compute. reflexivity.
Defined.

Lemma finish_canonical_witness : Canonical (finished_graph (run_script alpha_first)).
Proof.
  apply (proj1 (finish_canonical _ _ (finished_graph (run_script alpha_first)) alpha_built
    ltac:(vm_compute; reflexivity))).
Defined.

Lemma finish_ignores_discovery_order_witness :
  finish (run_script zulu_first) = Ok (finished_graph (run_script alpha_first)).
Proof.
  pose proof (finish_ignores_discovery_order _ _ _ _ alpha_built zulu_built alpha_zulu_same) as H.
  assert (E : finish (run_script alpha_first) = Ok (finished_graph (run_script alpha_first)))
    by (vm_compute; reflexivity).
  rewrite E in H. exact H.
Defined.
