(* ===== verification/ContentDigest.v ===== *)
(** Content digests of the package loader
    ([crates/wrela-package-loader/src/lib.rs]): the contract between the loader
    and the SHA-256 capability it is given, and the digests it takes of
    packages and of installed directory trees. *)

From Stdlib Require Import Strings.Byte.
From stdpp Require Import base numbers list sorting option strings.
From S2P Require Import Prelude Bytes Order Interrupt Text BuildModel Source.

#[local] Open Scope Z_scope.

(** ** The hasher interface *)

(** The traits [ContentHasher] and [ContentDigest]. *)
Class ContentHasher := {
  digest_state : Type;
  begin_sha256 : digest_state;
  digest_update : digest_state -> list byte -> digest_state;
  digest_finish : digest_state -> Sha256Digest;
  hasher_sha256 : list byte -> Sha256Digest;
}.

(** What the loader relies on: an incremental digest is the digest of the
    concatenated updates. *)
Class IncrementalHasher (H : ContentHasher) : Prop :=
  finish_updates us :
    digest_finish (foldl digest_update begin_sha256 us) = hasher_sha256 (concat us).

(** [str::ends_with] on one character and [str::eq_ignore_ascii_case]. *)
Definition ends_with_byte (s : str) (b : byte) : bool := starts_with_byte (rev s) b.
Definition eq_ignore_ascii_case (a b : str) : bool :=
  bool_decide (to_ascii_lowercase a = to_ascii_lowercase b).

Inductive ContentHashError : Set := HashCancelled.

Inductive PackageContentKind := SourceContent | ScenarioContent.
Record PackageContentRecord := {
  content_kind : PackageContentKind;
  content_path : str;
  content_digest : Sha256Digest;
}.
Inductive PackageContentDigestError := ContentCancelled | NonCanonicalContent.

Definition PACKAGE_CONTENT_DIGEST_VERSION : Z := 1.
Definition PACKAGE_CONTENT_MAGIC : list byte := ascii "WRELPKG" ++ [x00].
Definition CANONICAL_TREE_DIGEST_VERSION : Z := 1.
Definition CANONICAL_TREE_MAGIC : list byte := ascii "WRELTRE" ++ [x00].

(** The derived [Ord] of the pair [(record.kind, record.path)]. *)
Definition kind_rank (k : PackageContentKind) : Z :=
  match k with SourceContent => 0 | ScenarioContent => 1 end.
Definition record_cmp : PackageContentKind * str -> PackageContentKind * str -> comparison :=
  pair_cmp (fun a b => kind_rank a ?= kind_rank b) bytes_cmp.
Definition record_key (r : PackageContentRecord) : PackageContentKind * str :=
  (content_kind r, content_path r).

(** [previous.is_some_and(|previous| previous >= key)]. *)
Definition not_after {K} (cmp : K -> K -> comparison) (previous : option K) (key : K) : bool :=
  match previous with
  | Some previous => match cmp previous key with Lt => false | _ => true end
  | None => false
  end.

(** ** Measuring an installed directory tree: data *)

Record CanonicalTreeLimits := {
  records : Z;
  path_bytes : Z;
  content_bytes_limit : Z;  (* [content_bytes] *)
  metadata_bytes : Z;
}.
Record CanonicalTreeRecord := {
  tree_path : str;
  tree_bytes : Z;
  tree_digest : Sha256Digest;
}.
Record CanonicalTreeMeasurement := {
  measured_digest : Sha256Digest;
  content_bytes : Z;
  measured_records : Z;
}.
Inductive CanonicalTreeDigestError :=
| TreeCancelled
| InvalidTreeLimits
| NonCanonicalTree
| TreeResourceLimit (resource : str) (limit : Z).

Definition standard : CanonicalTreeLimits := {|
  records := 1000000;
  path_bytes := 256 * 1024 * 1024;
  content_bytes_limit := 64 * 1024 * 1024 * 1024;
  metadata_bytes := 1024 * 1024 * 1024;
|}.

Definition CanonicalTreeLimits_validate (limits : CanonicalTreeLimits)
    : result CanonicalTreeDigestError unit :=
  let hard := standard in
  if (records limits =? 0) || (path_bytes limits =? 0) || (content_bytes_limit limits =? 0)
     || (metadata_bytes limits =? 0) || (records hard <? records limits)
     || (path_bytes hard <? path_bytes limits)
     || (content_bytes_limit hard <? content_bytes_limit limits)
     || (metadata_bytes hard <? metadata_bytes limits)
  then Err InvalidTreeLimits
  else Ok tt.

Definition RESERVED : list str :=
  map ascii ["CON"; "PRN"; "AUX"; "NUL"; "COM1"; "COM2"; "COM3"; "COM4"; "COM5"; "COM6"; "COM7";
             "COM8"; "COM9"; "LPT1"; "LPT2"; "LPT3"; "LPT4"; "LPT5"; "LPT6"; "LPT7"; "LPT8";
             "LPT9"]%string.

Definition windows_reserved_tree_component (component : str) : bool :=
  let stem := hd component (split_byte "." component) in
  existsb (eq_ignore_ascii_case stem) RESERVED.

Definition is_ascii_alphanumeric (z : Z) : bool :=
  between 0x30 0x39 z || between 0x41 0x5A z || between 0x61 0x7A z.

Definition portable_byte (b : byte) : bool :=
  is_ascii_alphanumeric (Z_of_byte b) ||
  existsb (fun c => bool_decide (b = c)) (ascii "._-").

Definition canonical_component (component : str) : bool :=
  negb (bool_decide (component = []))
  && negb (bool_decide (component = ascii ".") || bool_decide (component = ascii ".."))
  && negb (ends_with_byte component ".")
  && forallb portable_byte component
  && negb (windows_reserved_tree_component component).

Definition canonical_tree_path (path : str) : bool :=
  negb (bool_decide (path = []))
  && (len path <=? MAX_SOURCE_PATH_BYTES)
  && forallb (fun b => Z_of_byte b <? 128) path
  && negb (starts_with_byte path "/")
  && negb (ends_with_byte path "/")
  && forallb canonical_component (split_byte "/" path).

Definition add_tree_limit (total amount : Z) (resource : str) (limit : Z)
    : result CanonicalTreeDigestError Z :=
  next ← ok_or (checked_add 64 total amount) (TreeResourceLimit resource limit);
  if limit <? next then Err (TreeResourceLimit resource limit) else Ok next.

(** ** The digests *)

Section digests.
Context `{H : ContentHasher}.

Definition update_u64 (digest : digest_state) (value : Z) : digest_state :=
  digest_update digest (u64_le value).
Definition update_bytes (digest : digest_state) (value : list byte) : digest_state :=
  digest_update (update_u64 digest (len value)) value.
Definition update_string (digest : digest_state) (value : str) : digest_state :=
  update_bytes digest value.

(** [for chunk in value.chunks(1024 * 1024)], polling before each of them. *)
Fixpoint update_chunks {E} (cancelled : E) (digest : digest_state) (pieces : list (list byte))
    : prog E digest_state :=
  match pieces with
  | [] => mret digest
  | chunk :: pieces =>
      _ ← poll cancelled;
      update_chunks cancelled (digest_update digest chunk) pieces
  end.
Definition pieces (value : list byte) : list (list byte) := chunks (Z.to_nat (1024 * 1024)) value.

Definition update_bytes_cancellable (digest : digest_state) (value : list byte)
    : prog unit digest_state :=
  let digest := update_u64 digest (len value) in
  digest ← update_chunks tt digest (pieces value);
  _ ← poll tt;
  mret digest.

Definition sha256_cancellable (bytes : list byte) : prog ContentHashError Sha256Digest :=
  digest ← update_chunks HashCancelled begin_sha256 (pieces bytes);
  _ ← poll HashCancelled;
  mret (digest_finish digest).

(** *** Packages *)

Fixpoint check_content_records (previous : option (PackageContentKind * str))
    (rs : list PackageContentRecord) : prog PackageContentDigestError unit :=
  match rs with
  | [] => mret tt
  | record :: rs =>
      _ ← poll ContentCancelled;
      _ ← fail_if (bool_decide (content_path record = [])
                   || not_after record_cmp previous (record_key record)) NonCanonicalContent;
      check_content_records (Some (record_key record)) rs
  end.

Definition update_content_record (digest : digest_state) (record : PackageContentRecord)
    : digest_state :=
  let digest := digest_update digest [byte_of_Z (kind_rank (content_kind record))] in
  let digest := update_string digest (content_path record) in
  digest_update digest (as_bytes (content_digest record)).

Fixpoint update_content_records (digest : digest_state) (rs : list PackageContentRecord)
    : prog PackageContentDigestError digest_state :=
  match rs with
  | [] => mret digest
  | record :: rs =>
      _ ← poll ContentCancelled;
      update_content_records (update_content_record digest record) rs
  end.

Definition package_content_digest (canonical_manifest : list byte)
    (rs : list PackageContentRecord) : prog PackageContentDigestError Sha256Digest :=
  _ ← poll ContentCancelled;
  _ ← fail_if (bool_decide (canonical_manifest = [])) NonCanonicalContent;
  _ ← check_content_records None rs;
  let digest := digest_update begin_sha256 PACKAGE_CONTENT_MAGIC in
  let digest := digest_update digest (u32_le PACKAGE_CONTENT_DIGEST_VERSION) in
  digest ← map_errM (fun _ => ContentCancelled)
             (update_bytes_cancellable digest canonical_manifest);
  _ ← fail_if (negb (fits 64 (len rs))) NonCanonicalContent;
  let digest := update_u64 digest (len rs) in
  digest ← update_content_records digest rs;
  _ ← poll ContentCancelled;
  mret (digest_finish digest).

(** *** Directory trees *)

(** The totals of the first loop of [canonical_tree_digest]. *)
Record TreeTotals := { total_path : Z; total_content : Z; total_metadata : Z }.

Definition check_tree_record (limits : CanonicalTreeLimits) (previous : option str)
    (totals : TreeTotals) (record : CanonicalTreeRecord) : prog CanonicalTreeDigestError TreeTotals :=
  _ ← poll TreeCancelled;
  _ ← fail_if (negb (canonical_tree_path (tree_path record))
               || not_after bytes_cmp previous (tree_path record)
               || forallb (fun b => Z_of_byte b =? 0) (as_bytes (tree_digest record)))
        NonCanonicalTree;
  let length := len (tree_path record) in
  _ ← fail_if (negb (fits 64 length))
        (TreeResourceLimit (ascii "canonical tree path bytes") (path_bytes limits));
  path ← lift (add_tree_limit (total_path totals) length
                 (ascii "canonical tree path bytes") (path_bytes limits));
  content ← lift (add_tree_limit (total_content totals) (tree_bytes record)
                 (ascii "canonical tree content bytes") (content_bytes_limit limits));
  record_metadata ← lift (ok_or (bytes ← checked_add 64 8 length; checked_add 64 bytes (8 + 32))
                 (TreeResourceLimit (ascii "canonical tree metadata bytes") (metadata_bytes limits)));
  metadata ← lift (add_tree_limit (total_metadata totals) record_metadata
                 (ascii "canonical tree metadata bytes") (metadata_bytes limits));
  mret {| total_path := path; total_content := content; total_metadata := metadata |}.

Fixpoint check_tree_records (limits : CanonicalTreeLimits) (previous : option str)
    (totals : TreeTotals) (rs : list CanonicalTreeRecord) : prog CanonicalTreeDigestError TreeTotals :=
  match rs with
  | [] => mret totals
  | record :: rs =>
      totals ← check_tree_record limits previous totals record;
      check_tree_records limits (Some (tree_path record)) totals rs
  end.

Fixpoint update_tree_records (digest : digest_state) (rs : list CanonicalTreeRecord)
    : prog CanonicalTreeDigestError digest_state :=
  match rs with
  | [] => mret digest
  | record :: rs =>
      _ ← poll TreeCancelled;
      digest ← map_errM (fun _ => TreeCancelled)
                 (update_bytes_cancellable digest (tree_path record));
      let digest := update_u64 digest (tree_bytes record) in
      let digest := digest_update digest (as_bytes (tree_digest record)) in
      update_tree_records digest rs
  end.

Definition canonical_tree_digest (rs : list CanonicalTreeRecord) (limits : CanonicalTreeLimits)
    : prog CanonicalTreeDigestError CanonicalTreeMeasurement :=
  _ ← poll TreeCancelled;
  _ ← lift (CanonicalTreeLimits_validate limits);
  let too_many := TreeResourceLimit (ascii "canonical tree records") (records limits) in
  record_count ← lift (ok_or (try_u32 (len rs)) too_many);
  _ ← fail_if (record_count =? 0) NonCanonicalTree;
  _ ← fail_if (records limits <? record_count) too_many;
  totals ← check_tree_records limits None
             {| total_path := 0; total_content := 0; total_metadata := 20 |} rs;
  _ ← fail_if (total_content totals =? 0) NonCanonicalTree;
  let digest := digest_update begin_sha256 CANONICAL_TREE_MAGIC in
  let digest := digest_update digest (u32_le CANONICAL_TREE_DIGEST_VERSION) in
  let digest := update_u64 digest record_count in
  digest ← update_tree_records digest rs;
  _ ← poll TreeCancelled;
  mret {| measured_digest := digest_finish digest; content_bytes := total_content totals;
          measured_records := record_count |}.
End digests.

(** ** What is hashed *)

Definition content_record_bytes (r : PackageContentRecord) : list byte :=
  [byte_of_Z (kind_rank (content_kind r))] ++ u64_le (len (content_path r)) ++ content_path r
  ++ as_bytes (content_digest r).
Definition content_encoding (manifest : list byte) (rs : list PackageContentRecord) : list byte :=
  PACKAGE_CONTENT_MAGIC ++ u32_le PACKAGE_CONTENT_DIGEST_VERSION
  ++ u64_le (len manifest) ++ manifest
  ++ u64_le (len rs) ++ concat (map content_record_bytes rs).

Definition canonical_content (manifest : list byte) (rs : list PackageContentRecord) : Prop :=
  manifest <> [] /\ Forall (fun r => content_path r <> []) rs /\
  StronglySorted (lt_by record_cmp) (map record_key rs) /\ len rs < 2 ^ 64.

Definition tree_record_bytes (r : CanonicalTreeRecord) : list byte :=
  u64_le (len (tree_path r)) ++ tree_path r ++ u64_le (tree_bytes r) ++ as_bytes (tree_digest r).
Definition tree_encoding (rs : list CanonicalTreeRecord) : list byte :=
  CANONICAL_TREE_MAGIC ++ u32_le CANONICAL_TREE_DIGEST_VERSION ++ u64_le (len rs)
  ++ concat (map tree_record_bytes rs).

Definition tree_record_fine (r : CanonicalTreeRecord) : Prop :=
  canonical_tree_path (tree_path r) = true /\
  forallb (fun b => Z_of_byte b =? 0) (as_bytes (tree_digest r)) = false.
Definition tree_record_typed (r : CanonicalTreeRecord) : Prop :=
  0 <= tree_bytes r < 2 ^ 64 /\ length (as_bytes (tree_digest r)) = 32%nat.

Definition canonical_tree (rs : list CanonicalTreeRecord) : Prop :=
  Forall tree_record_fine rs /\ StronglySorted (lt_by bytes_cmp) (map tree_path rs) /\
  0 < sum_of tree_bytes rs.
Definition tree_within (limits : CanonicalTreeLimits) (rs : list CanonicalTreeRecord) : Prop :=
  0 < len rs <= records limits /\
  sum_of (fun r => len (tree_path r)) rs <= path_bytes limits /\
  sum_of tree_bytes rs <= content_bytes_limit limits /\
  len (tree_encoding rs) <= metadata_bytes limits.

(** ** Feeding a digest *)

Section fed.
Context `{H : ContentHasher} `{!IncrementalHasher H}.

Definition Fed (digest : digest_state) (bytes : list byte) : Prop :=
  exists us, digest = foldl digest_update begin_sha256 us /\ bytes = concat us.

Lemma fed_begin : Fed begin_sha256 [].
Proof. by exists []. Qed.
Lemma fed_update d bytes x : Fed d bytes -> Fed (digest_update d x) (bytes ++ x).
Proof.
  intros (us & -> & ->). exists (us ++ [x]). rewrite foldl_app, concat_app. simpl.
  by rewrite app_nil_r.
Qed.
Lemma fed_finish d bytes : Fed d bytes -> digest_finish d = hasher_sha256 bytes.
Proof. intros (us & -> & ->). apply finish_updates. Qed.
Lemma fed_updates ps d bytes : Fed d bytes -> Fed (foldl digest_update d ps) (bytes ++ concat ps).
Proof.
  revert d bytes. induction ps as [|x ps IH]; intros d bytes Hd; simpl; [by rewrite app_nil_r|].
  rewrite app_assoc. by apply IH, fed_update.
Qed.

Lemma quiet_update_chunks {E} (e : E) d ps :
  quiet (update_chunks e d ps) = Ok (foldl digest_update d ps).
Proof.
  revert d. induction ps as [|x ps IH]; intros d; [done|]. cbn [update_chunks].
  rewrite run_poll. apply IH.
Qed.

Lemma concat_pieces value : concat (pieces value) = value.
Proof. apply concat_chunks. lia. Qed.

Lemma fed_bytes_cancellable d bytes value :
  Fed d bytes -> exists d', quiet (update_bytes_cancellable d value) = Ok d' /\
    Fed d' (bytes ++ u64_le (len value) ++ value).
Proof.
  intros Hd. eexists. split.
  - unfold update_bytes_cancellable. by rewrite (run_ok _ _ _ (quiet_update_chunks _ _ _)), run_poll.
  - pose proof (fed_updates (pieces value) _ _ (fed_update _ _ (u64_le (len value)) Hd)) as Hf.
    by rewrite concat_pieces, <- app_assoc in Hf.
Qed.

Lemma fed_content_record d bytes r :
  Fed d bytes -> Fed (update_content_record d r) (bytes ++ content_record_bytes r).
Proof.
  intros Hd. unfold update_content_record, update_string, update_bytes, update_u64,
    content_record_bytes. rewrite !app_assoc. by repeat apply fed_update.
Qed.

Lemma fed_content_records rs d bytes :
  Fed d bytes -> exists d', quiet (update_content_records d rs) = Ok d' /\
    Fed d' (bytes ++ concat (map content_record_bytes rs)).
Proof.
  revert d bytes. induction rs as [|r rs IH]; intros d bytes Hd.
  - exists d. cbn. by rewrite app_nil_r.
  - cbn [update_content_records map concat]. rewrite run_poll, app_assoc.
    by apply IH, fed_content_record.
Qed.

Lemma fed_tree_records rs d bytes :
  Fed d bytes -> exists d', quiet (update_tree_records d rs) = Ok d' /\
    Fed d' (bytes ++ concat (map tree_record_bytes rs)).
Proof.
  revert d bytes. induction rs as [|r rs IH]; intros d bytes Hd.
  - exists d. cbn. by rewrite app_nil_r.
  - cbn [update_tree_records map concat]. rewrite run_poll, app_assoc.
    destruct (fed_bytes_cancellable d bytes (tree_path r) Hd) as (d' & Hq & Hd').
    rewrite (run_ok _ _ d') by (by rewrite quiet_map_errM, Hq).
    apply IH. unfold update_u64, tree_record_bytes. rewrite !app_assoc in *.
    by repeat apply fed_update.
Qed.
End fed.

(** ** Orders *)

#[export] Instance record_cmp_order : TotalOrder record_cmp.
Proof.
  apply pair_cmp_order; [|apply _].
  apply (total_order_by kind_rank Z.compare); [apply _|by intros [] []|done].
Qed.

Lemma sorted_after {K} (cmp : K -> K -> comparison) `{!TotalOrder cmp} previous key keys :
  StronglySorted (lt_by cmp) (option_list previous ++ key :: keys) <->
  not_after cmp previous key = false /\ StronglySorted (lt_by cmp) (key :: keys).
Proof.
  destruct previous as [p|]; [|naive_solver]. cbn [option_list option_rect app].
  rewrite strongly_sorted_cons2 by apply _. unfold not_after, lt_by.
  destruct (cmp p key); naive_solver.
Qed.

(** ** Packages *)

Section packages.
Context `{H : ContentHasher} `{!IncrementalHasher H}.

Lemma check_content_records_spec rs previous :
  let fine := Forall (fun r => content_path r <> []) rs /\
    StronglySorted (lt_by record_cmp) (option_list previous ++ map record_key rs) in
  (quiet (check_content_records previous rs) = Ok tt /\ fine) \/
  (quiet (check_content_records previous rs) = Err NonCanonicalContent /\ ~ fine).
Proof.
  revert previous. induction rs as [|r rs IH]; intros previous.
  - left. split; [done|]. split; [constructor|].
    destruct previous; repeat constructor.
  - cbn [check_content_records map]. rewrite run_poll, sorted_after, Forall_cons by apply _.
    destruct (bool_decide _ || _) eqn:Hbad.
    + right. split; [done|]. apply orb_true_iff in Hbad as [Hbad%bool_decide_eq_true|Hbad];
        [naive_solver|]. rewrite Hbad. naive_solver.
    + apply orb_false_iff in Hbad as [Hp%bool_decide_eq_false Hn].
      rewrite run_fail_if by done. cbn [option_list option_rect app] in IH.
      destruct (IH (Some (record_key r))) as [[-> Hf]|[-> Hf]]; [left|right];
        (split; [done|]); cbn [option_list option_rect app] in Hf; naive_solver.
Qed.

Lemma package_content_quiet manifest rs :
  (canonical_content manifest rs /\
   quiet (package_content_digest manifest rs) = Ok (hasher_sha256 (content_encoding manifest rs))) \/
  (~ canonical_content manifest rs /\
   quiet (package_content_digest manifest rs) = Err NonCanonicalContent).
Proof.
  unfold package_content_digest, canonical_content. rewrite run_poll.
  case_bool_decide as Hm; [right; split; [naive_solver|done]|]. rewrite run_fail_if by done.
  destruct (check_content_records_spec rs None) as [[Hc Hf]|[Hc Hf]]; cbn [option_list option_rect app] in Hf.
  2:{ right. split; [naive_solver|]. by rewrite quiet_bind, Hc. }
  rewrite (run_ok _ _ _ Hc).
  pose proof (fed_update _ _ (u32_le PACKAGE_CONTENT_DIGEST_VERSION)
    (fed_update _ _ PACKAGE_CONTENT_MAGIC fed_begin)) as Hd.
  apply (fed_bytes_cancellable _ _ manifest) in Hd as (d1 & H1 & Hd1).
  rewrite (run_ok _ _ d1) by (by rewrite quiet_map_errM, H1).
  destruct (fits 64 (len rs)) eqn:Hfit.
  2:{ right. split; [|done]. pose proof (len_nonneg rs).
      intros (_ & _ & _ & Hlen). by rewrite (proj2 (fits_spec 64 (len rs))) in Hfit. }
  left. apply fits_spec in Hfit. split; [naive_solver|]. rewrite run_fail_if by done.
  apply (fed_update _ _ (u64_le (len rs))) in Hd1.
  apply (fed_content_records rs) in Hd1 as (d2 & H2 & Hd2). rewrite (run_ok _ _ _ H2), run_poll.
  cbn. f_equal. apply fed_finish in Hd2. rewrite Hd2. f_equal.
  unfold content_encoding. by rewrite <- !app_assoc.
Qed.

(** Only cancellation interrupts the digests. *)
#[export] Instance update_chunks_interruptible {E} (e : E) d ps :
  interruptible (eq e) (update_chunks e d ps).
Proof.
  revert d. induction ps as [|x ps IH]; intros d; cbn [update_chunks]; [apply _|].
  apply interruptible_bind; [by apply interruptible_poll|]. intros _. apply IH.
Qed.
#[export] Instance update_bytes_cancellable_interruptible d value :
  interruptible (eq tt) (update_bytes_cancellable d value).
Proof.
  unfold update_bytes_cancellable. apply interruptible_bind; [apply _|]. intros ?.
  apply interruptible_bind; [by apply interruptible_poll|apply _].
Qed.
#[export] Instance check_content_records_interruptible previous rs :
  interruptible (eq ContentCancelled) (check_content_records previous rs).
Proof.
  revert previous. induction rs as [|r rs IH]; intros previous; cbn [check_content_records]; [apply _|].
  apply interruptible_bind; [by apply interruptible_poll|]. intros _. apply _.
Qed.
#[export] Instance update_content_records_interruptible d rs :
  interruptible (eq ContentCancelled) (update_content_records d rs).
Proof.
  revert d. induction rs as [|r rs IH]; intros d; cbn [update_content_records]; [apply _|].
  apply interruptible_bind; [by apply interruptible_poll|]. intros _. apply IH.
Qed.
Lemma package_content_interruptible manifest rs :
  interruptible (eq ContentCancelled) (package_content_digest manifest rs).
Proof.
  unfold package_content_digest.
  interrupted.
Qed.
End packages.

(** ** Trees *)

Lemma tree_record_len r :
  length (as_bytes (tree_digest r)) = 32%nat -> len (tree_record_bytes r) = 48 + len (tree_path r).
Proof.
  intros Hr. unfold tree_record_bytes. rewrite !len_app, !len_u64_le.
  unfold len at 2. rewrite Hr. lia.
Qed.

Lemma validated_limits limits :
  CanonicalTreeLimits_validate limits = Ok tt ->
  records limits <= 1000000 /\ path_bytes limits < 2 ^ 64 /\
  content_bytes_limit limits < 2 ^ 64 /\ metadata_bytes limits < 2 ^ 64.
Proof.
  unfold CanonicalTreeLimits_validate. destruct (_ || _) eqn:E; [done|]. intros _.
  bool_to_prop. cbn [records path_bytes content_bytes_limit metadata_bytes standard] in *. lia.
Qed.

Lemma add_tree_limit_Ok total amount resource limit next :
  limit < 2 ^ 64 ->
  add_tree_limit total amount resource limit = Ok next <->
  next = total + amount /\ total + amount <= limit.
Proof.
  intros Hl. unfold add_tree_limit. rewrite result_bind_Ok. setoid_rewrite ok_or_Ok.
  setoid_rewrite checked_add_Some. split.
  - intros (n & [Hn ->] & H). destruct (Z.ltb_spec limit (total + amount)); naive_solver lia.
  - intros [-> Hle]. exists (total + amount). split; [lia|].
    destruct (Z.ltb_spec limit (total + amount)); [lia|done].
Qed.

Section trees.
Context `{H : ContentHasher} `{!IncrementalHasher H}.

(** The bytes of the digest stream that a record accounts for. *)
Definition record_metadata (r : CanonicalTreeRecord) : Z := 48 + len (tree_path r).
Definition count_record (totals : TreeTotals) (r : CanonicalTreeRecord) : TreeTotals :=
  {| total_path := total_path totals + len (tree_path r);
     total_content := total_content totals + tree_bytes r;
     total_metadata := total_metadata totals + record_metadata r |}.
Definition totals_within (limits : CanonicalTreeLimits) (totals : TreeTotals) : Prop :=
  total_path totals <= path_bytes limits /\ total_content totals <= content_bytes_limit limits /\
  total_metadata totals <= metadata_bytes limits.

Lemma canonical_tree_path_len path : canonical_tree_path path = true -> len path <= 4096.
Proof. unfold canonical_tree_path, MAX_SOURCE_PATH_BYTES. intros Hp. split_andb. lia. Qed.

Lemma check_tree_record_Ok limits previous totals r totals' :
  CanonicalTreeLimits_validate limits = Ok tt ->
  quiet (check_tree_record limits previous totals r) = Ok totals' <->
  tree_record_fine r /\ not_after bytes_cmp previous (tree_path r) = false /\
  totals' = count_record totals r /\ totals_within limits totals'.
Proof.
  intros (Hr & Hp & Hc & Hm)%validated_limits. unfold check_tree_record, tree_record_fine.
  rewrite run_poll. pose proof (len_nonneg (tree_path r)). split.
  - intros Hq. quiet_inv Hq. split_andb.
    rewrite add_tree_limit_Ok in * by done. rewrite ok_or_Ok, bind_Some in Hlift1.
    setoid_rewrite checked_add_Some in Hlift1. unfold count_record, totals_within, record_metadata. cbn.
    destruct Hlift1 as (? & [_ ->] & _ & ->). destruct Hlift, Hlift0, Hlift2; subst.
    split_and!; [done..|f_equal; lia|lia|lia|lia].
  - intros ([Hpath Hdigest] & Hafter & -> & Hw). unfold totals_within in Hw. cbn in Hw.
    apply canonical_tree_path_len in Hpath as Hlen.
    rewrite run_fail_if by (by rewrite Hpath, Hafter, Hdigest).
    rewrite run_fail_if by (rewrite (proj2 (fits_spec 64 _)); [done|lia]).
    erewrite run_lift by (apply add_tree_limit_Ok; [done|split; [done|lia]]).
    erewrite run_lift by (apply add_tree_limit_Ok; [done|split; [done|lia]]).
    erewrite run_ok_or.
    2:{ apply bind_Some. eexists. split; apply checked_add_Some; (split; [lia|done]). }
    erewrite run_lift by (apply add_tree_limit_Ok; [done|split; [done|unfold record_metadata in Hw; lia]]).
    cbn. unfold count_record, record_metadata. do 2 f_equal. lia.
Qed.

Lemma count_record_mono limits totals rs :
  Forall tree_record_typed rs -> totals_within limits (foldl count_record totals rs) ->
  totals_within limits totals.
Proof.
  intros Ht. revert totals. induction Ht as [|r rs [[Hr _] _] _ IH]; intros totals; [done|].
  intros Hw%IH. unfold totals_within, count_record, record_metadata in *. cbn in *.
  pose proof (len_nonneg (tree_path r)). lia.
Qed.

Lemma check_tree_records_Ok limits rs previous totals totals' :
  CanonicalTreeLimits_validate limits = Ok tt -> Forall tree_record_typed rs ->
  quiet (check_tree_records limits previous totals rs) = Ok totals' <->
  Forall tree_record_fine rs /\
  StronglySorted (lt_by bytes_cmp) (option_list previous ++ map tree_path rs) /\
  totals' = foldl count_record totals rs /\ (rs = [] \/ totals_within limits totals').
Proof.
  intros Hv Ht. revert previous totals.
  induction Ht as [|r rs Hr Ht IH]; intros previous totals; cbn [check_tree_records map foldl].
  - rewrite quiet_ret, app_nil_r. split; [|naive_solver]. intros [= <-].
    split_and!; [constructor| |by auto..]. destruct previous; repeat constructor.
  - rewrite quiet_bind_Ok, Forall_cons, sorted_after by apply _.
    setoid_rewrite check_tree_record_Ok; [|done..]. split.
    + intros (t & (? & ? & -> & Hw') & Hq). apply IH in Hq.
      cbn [option_list option_rect app] in Hq. destruct Hq as (? & ? & -> & [-> |?]); auto 8.
    + intros ([? ?] & [? ?] & -> & [|Hw']); [done|]. exists (count_record totals r).
      pose proof (count_record_mono limits (count_record totals r) rs Ht Hw').
      rewrite IH. cbn [option_list option_rect app]. auto 8.
Qed.

Lemma count_records totals rs :
  Forall tree_record_typed rs ->
  foldl count_record totals rs =
    {| total_path := total_path totals + sum_of (fun r => len (tree_path r)) rs;
       total_content := total_content totals + sum_of tree_bytes rs;
       total_metadata := total_metadata totals + len (concat (map tree_record_bytes rs)) |}.
Proof.
  intros Ht. revert totals. induction Ht as [|r rs [_ Hr] Ht IH]; intros totals; cbn [foldl].
  - destruct totals. cbn. by rewrite !Z.add_0_r.
  - rewrite IH. cbn [map concat]. rewrite !sum_of_cons, len_app, tree_record_len by done.
    unfold count_record, record_metadata. cbn [total_path total_content total_metadata].
    f_equal; lia.
Qed.

Lemma sum_bytes_nonneg rs : Forall tree_record_typed rs -> 0 <= sum_of tree_bytes rs.
Proof. induction 1 as [|r rs [[Hr _] _] _ IH]; [done|]. rewrite sum_of_cons. lia. Qed.

Lemma tree_encoding_len rs : len (tree_encoding rs) = 20 + len (concat (map tree_record_bytes rs)).
Proof. unfold tree_encoding. rewrite !len_app, len_u32_le, len_u64_le. change (len CANONICAL_TREE_MAGIC) with 8. lia. Qed.

(** The part of [canonical_tree_digest] after its checks. *)
Lemma tree_hashing rs :
  exists d, quiet (update_tree_records (update_u64 (digest_update (digest_update begin_sha256
      CANONICAL_TREE_MAGIC) (u32_le CANONICAL_TREE_DIGEST_VERSION)) (len rs)) rs) = Ok d /\
    digest_finish d = hasher_sha256 (tree_encoding rs).
Proof.
  pose proof (fed_update _ _ (u64_le (len rs)) (fed_update _ _ (u32_le CANONICAL_TREE_DIGEST_VERSION)
    (fed_update _ _ CANONICAL_TREE_MAGIC fed_begin))) as Hd.
  apply (fed_tree_records rs) in Hd as (d & Hq & Hd). exists d. split; [exact Hq|].
  apply fed_finish in Hd. rewrite Hd. unfold tree_encoding. by rewrite <- !app_assoc.
Qed.

Lemma canonical_tree_Ok rs limits m :
  Forall tree_record_typed rs ->
  quiet (canonical_tree_digest rs limits) = Ok m <->
  CanonicalTreeLimits_validate limits = Ok tt /\ canonical_tree rs /\ tree_within limits rs /\
  m = {| measured_digest := hasher_sha256 (tree_encoding rs);
         content_bytes := sum_of tree_bytes rs; measured_records := len rs |}.
Proof.
  intros Ht. pose proof (sum_bytes_nonneg rs Ht) as Hsum. pose proof (len_nonneg rs) as Hlen.
  destruct (tree_hashing rs) as (d & Hd & Hhash).
  unfold canonical_tree_digest, canonical_tree, tree_within. rewrite run_poll, tree_encoding_len. split.
  - intros Hq. apply quiet_bind_Ok in Hq as ([] & Hv & Hq). rewrite quiet_lift in Hv.
    cbv zeta in Hq. apply quiet_bind_Ok in Hq as (n & Hn & Hq).
    rewrite quiet_lift, ok_or_Ok, try_u32_Some in Hn. destruct Hn as [Hn ->]. quiet_inv Hq.
    rewrite check_tree_records_Ok in Hrun by done. destruct Hrun as (Hf & Hs & -> & Hw).
    rewrite Hd in Hrun0. injection Hrun0 as <-. rewrite Hhash.
    rewrite count_records in * by done. bool_to_prop. cbn in Hguard1 |- *.
    destruct Hw as [-> |Hw]; [done|]. unfold totals_within in Hw. cbn in Hw.
    split_and!; try done; lia.
  - intros (Hv & (Hf & Hs & Hpos) & (Hn & Hp & Hc & Hm) & ->).
    pose proof (validated_limits limits Hv) as (Hr & _).
    rewrite (run_lift _ _ _ Hv). cbv zeta. rewrite (run_ok_or _ _ _ (len rs))
      by (apply try_u32_Some; unfold u32_max; lia).
    rewrite !run_fail_if by lia.
    erewrite run_ok by (apply check_tree_records_Ok; [done..|]; split_and!; [done..|right];
      rewrite count_records by done; unfold totals_within; cbn; lia).
    rewrite count_records by done. cbn [total_content].
    rewrite run_fail_if by lia. rewrite (run_ok _ _ _ Hd), run_poll, quiet_ret, Hhash. done.
Qed.

#[export] Instance check_tree_records_interruptible limits previous totals rs :
  interruptible (eq TreeCancelled) (check_tree_records limits previous totals rs).
Proof.
  revert previous totals. induction rs as [|r rs IH]; intros previous totals;
    cbn [check_tree_records]; [apply _|].
  apply interruptible_bind; [unfold check_tree_record; interrupted|]. intros ?. apply IH.
Qed.
#[export] Instance update_tree_records_interruptible d rs :
  interruptible (eq TreeCancelled) (update_tree_records d rs).
Proof.
  revert d. induction rs as [|r rs IH]; intros d; cbn [update_tree_records]; interrupted.
Qed.
Lemma canonical_tree_interruptible rs limits :
  interruptible (eq TreeCancelled) (canonical_tree_digest rs limits).
Proof. unfold canonical_tree_digest. interrupted. Qed.
End trees.

(** ** Properties *)

Lemma run_only {E A} (e : E) env w (m : prog E A) :
  interruptible (eq e) m -> fst (run env w m) = quiet m \/ fst (run env w m) = Err e.
Proof. intros Hm. destruct (run_interruptible (eq e) env w m Hm) as [?|(? & ? & <-)]; auto. Qed.

(** With any hasher that keeps its incremental contract, the content
    digest of a package is the hash of one byte string determined by the
    manifest and the records; it is refused exactly when the manifest or a
    path is empty or the records are not strictly ordered, and cancellation
    can only replace the outcome by the cancellation error. *)
Theorem package_content_digest_exact {H : ContentHasher} (HI : IncrementalHasher H)
    (manifest : list byte) (rs : list PackageContentRecord) env w :
  ((canonical_content manifest rs /\
    quiet (package_content_digest manifest rs) = Ok (hasher_sha256 (content_encoding manifest rs))) \/
   (~ canonical_content manifest rs /\
    quiet (package_content_digest manifest rs) = Err NonCanonicalContent)) /\
  (fst (run env w (package_content_digest manifest rs)) = quiet (package_content_digest manifest rs)
   \/ fst (run env w (package_content_digest manifest rs)) = Err ContentCancelled).
Proof.
  split; [apply package_content_quiet|]. apply run_only, package_content_interruptible.
Qed.

(** With any hasher that keeps its incremental contract, a directory tree
    is measured exactly when the limits are valid, its records are portable,
    strictly ordered and digested, and the path, content and metadata totals
    stay within their limits, where the metadata total is the length of the
    hashed stream; the measurement is the hash of that stream, the sum of the
    file sizes and the number of records, and cancellation can only replace
    the outcome by the cancellation error. *)
Theorem canonical_tree_digest_exact {H : ContentHasher} (HI : IncrementalHasher H)
    (rs : list CanonicalTreeRecord) (limits : CanonicalTreeLimits) m env w :
  Forall tree_record_typed rs ->
  (quiet (canonical_tree_digest rs limits) = Ok m <->
   CanonicalTreeLimits_validate limits = Ok tt /\ canonical_tree rs /\ tree_within limits rs /\
   m = {| measured_digest := hasher_sha256 (tree_encoding rs);
          content_bytes := sum_of tree_bytes rs; measured_records := len rs |}) /\
  (fst (run env w (canonical_tree_digest rs limits)) = quiet (canonical_tree_digest rs limits)
   \/ fst (run env w (canonical_tree_digest rs limits)) = Err TreeCancelled).
Proof.
  intros Ht. split; [by apply canonical_tree_Ok|]. apply run_only, canonical_tree_interruptible.
Qed.

(** ** The hashed streams determine what they describe *)

Definition content_record_typed (r : PackageContentRecord) : Prop :=
  len (content_path r) < 2 ^ 64 /\ length (as_bytes (content_digest r)) = 32%nat.

#[export] Instance content_record_prefix_free : PrefixFree content_record_typed content_record_bytes.
Proof.
  intros a b ra rb [Ha Hda] [Hb Hdb] E. unfold content_record_bytes in E. cbn [app] in E.
  rewrite <- !app_assoc in E. apply peel_tag in E as [Ek E]; [|by intros []|by intros [] []].
  apply peel_counted64 in E as [Ep E]; [|done..]. apply (peel_raw _ _ 32) in E as [Ed ->]; [|done..].
  destruct a as [? ? []], b as [? ? []]. simpl in *. by subst.
Qed.

#[export] Instance tree_record_prefix_free :
  PrefixFree (fun r => tree_record_typed r /\ len (tree_path r) < 2 ^ 64) tree_record_bytes.
Proof.
  intros a b ra rb [[Ha Hda] Hpa] [[Hb Hdb] Hpb] E. unfold tree_record_bytes in E.
  rewrite <- !app_assoc in E. apply peel_counted64 in E as [Ep E]; [|done..].
  apply peel_bytes in E as [Eb E]; [|simpl; lia..]. apply (peel_raw _ _ 32) in E as [Ed ->]; [|done..].
  destruct a as [? ? []], b as [? ? []]. simpl in *. by subst.
Qed.

Lemma concat_records_inj {A} (wf : A -> Prop) enc `{!PrefixFree wf enc} rs rs' :
  len rs < 2 ^ 64 -> len rs' < 2 ^ 64 -> Forall wf rs -> Forall wf rs' ->
  u64_le (len rs) ++ concat (map enc rs) = u64_le (len rs') ++ concat (map enc rs') -> rs = rs'.
Proof.
  intros Hn Hn' Hw Hw' E. pose proof (len_nonneg rs). pose proof (len_nonneg rs').
  apply peel_bytes in E as [El E]; [|simpl; lia..]. unfold len in El.
  destruct (concat_prefix_free wf enc rs rs' [] []) as [-> _]; try done; [lia|].
  by rewrite !app_nil_r.
Qed.

(** The byte string hashed into a package identity determines the manifest
    and every record: different package contents never share it. *)
Theorem content_encoding_injective manifest manifest' rs rs' :
  len manifest < 2 ^ 64 -> len manifest' < 2 ^ 64 -> len rs < 2 ^ 64 -> len rs' < 2 ^ 64 ->
  Forall content_record_typed rs -> Forall content_record_typed rs' ->
  content_encoding manifest rs = content_encoding manifest' rs' ->
  manifest = manifest' /\ rs = rs'.
Proof.
  intros Hm Hm' Hn Hn' Hr Hr' E. unfold content_encoding in E. do 2 apply app_inv_head in E.
  apply peel_counted64 in E as [-> E]; [|done..]. split; [done|].
  by apply (concat_records_inj content_record_typed content_record_bytes).
Qed.

Lemma content_encoding_injective_witness :
  let r := {| content_kind := SourceContent; content_path := ascii "app.wr";
              content_digest := from_bytes (replicate 32 x01) |} in
  ascii "m" = [x6d] /\ [r] = [r].
Proof.
  intros r. apply (content_encoding_injective (ascii "m") [x6d] [r] [r]); try reflexivity;
    repeat constructor.
Defined.

(** The stream hashed into a tree measurement determines every record of
    the tree. *)
Theorem tree_encoding_injective rs rs' :
  len rs < 2 ^ 64 -> len rs' < 2 ^ 64 ->
  Forall tree_record_typed rs -> Forall tree_record_typed rs' ->
  Forall (fun r => len (tree_path r) < 2 ^ 64) rs -> Forall (fun r => len (tree_path r) < 2 ^ 64) rs' ->
  tree_encoding rs = tree_encoding rs' -> rs = rs'.
Proof.
  intros Hn Hn' Hr Hr' Hp Hp' E. unfold tree_encoding in E. do 2 apply app_inv_head in E.
  apply (concat_records_inj (fun r => tree_record_typed r /\ len (tree_path r) < 2 ^ 64)
    tree_record_bytes); try done; by apply Forall_and.
Qed.

(** A tree of one file. *)
Definition one_file : CanonicalTreeRecord :=
  {| tree_path := ascii "lib/std.wr"; tree_bytes := 7;
     tree_digest := from_bytes (replicate 32 x01) |}.

Lemma tree_encoding_injective_witness : [one_file] = [one_file].
Proof. apply (tree_encoding_injective [one_file] [one_file]); repeat constructor; discriminate. Defined.
