(* ===== verification/Fips.v ===== *)
(** SHA-256 as FIPS 180-4 defines it: the specification that the hasher of
    [Sha256] is proved against. It is not code of the repository and shares
    nothing with the model of the code. Octets and words are numbers, rotation
    is arithmetic, the constants are computed from the prime numbers, and the
    message schedule is the recurrence of the standard. *)

From stdpp Require Import base numbers list.

#[local] Open Scope Z_scope.

Module FIPS.

(** ** Words (sections 2.2.2 and 4.1.2) *)

Definition sum (x y : Z) : Z := (x + y) mod 2 ^ 32.
Definition SHR (n x : Z) : Z := x / 2 ^ n.
(** The low [n] bits move to the top. *)
Definition ROTR (n x : Z) : Z := x / 2 ^ n + x mod 2 ^ n * 2 ^ (32 - n).
Definition xor3 (x y z : Z) : Z := Z.lxor (Z.lxor x y) z.
Definition Ch (x y z : Z) : Z := Z.lxor (Z.land x y) (Z.land (2 ^ 32 - 1 - x) z).
Definition Maj (x y z : Z) : Z := xor3 (Z.land x y) (Z.land x z) (Z.land y z).
Definition Sigma0 (x : Z) : Z := xor3 (ROTR 2 x) (ROTR 13 x) (ROTR 22 x).
Definition Sigma1 (x : Z) : Z := xor3 (ROTR 6 x) (ROTR 11 x) (ROTR 25 x).
Definition sigma0 (x : Z) : Z := xor3 (ROTR 7 x) (ROTR 18 x) (SHR 3 x).
Definition sigma1 (x : Z) : Z := xor3 (ROTR 17 x) (ROTR 19 x) (SHR 10 x).

(** ** Constants (sections 4.2.2 and 5.3.3) *)

(** The greatest [r] below [acc + 2 ^ bits] with [r ^ e <= n], bit by bit. *)
Fixpoint root_from (e n : Z) (bits : nat) (acc : Z) : Z :=
  match bits with
  | O => acc
  | S bits =>
      let next := acc + 2 ^ Z.of_nat bits in
      root_from e n bits (if next ^ e <=? n then next else acc)
  end.
(** The first 32 bits of the fraction of the [e]-th root of [p]. *)
Definition root_fraction (e p : Z) : Z := root_from e (p * 2 ^ (32 * e)) 40 0 mod 2 ^ 32.

Definition is_prime (n : Z) : bool := forallb (fun d => negb (n mod d =? 0)) (seqZ 2 (n - 2)).
(** The first 64 prime numbers. *)
Definition primes : list Z := take 64 (List.filter is_prime (seqZ 2 400)).

Definition K : list Z := map (root_fraction 3) primes.
Definition H0 : list Z := map (root_fraction 2) (take 8 primes).

(** ** Compression (section 6.2.2) *)

(** The first [n] words of the schedule of the sixteen words [M]. *)
Fixpoint W (M : list Z) (n : nat) : list Z :=
  match n with
  | O => []
  | S t =>
      let words := W M t in
      let back (k : nat) := nth (t - k) words 0 in
      words ++ [if (t <? 16)%nat then nth t M 0
                else sum (sum (sum (sigma1 (back 2%nat)) (back 7%nat)) (sigma0 (back 15%nat))) (back 16%nat)]
  end.

(** One of the 64 steps on the working variables [a] to [h], with [K_t] and [W_t]. *)
Definition step (variables : list Z) (constants : Z * Z) : list Z :=
  match variables with
  | [a; b; c; d; e; f; g; h] =>
      let '(k, w) := constants in
      let T1 := sum (sum (sum (sum h (Sigma1 e)) (Ch e f g)) k) w in
      let T2 := sum (Sigma0 a) (Maj a b c) in
      [sum T1 T2; a; b; c; sum d T1; e; f; g]
  | _ => variables
  end.

Definition word_of (octets : list Z) : Z := foldl (fun word octet => word * 256 + octet) 0 octets.
(** [M_t] for [t] below 16. *)
Definition words_of (block : list Z) : list Z := map (fun t => word_of (take 4 (drop (4 * t) block))) (seq 0 16).

Definition compress (H : list Z) (block : list Z) : list Z :=
  zip_with sum H (foldl step H (zip K (W (words_of block) 64))).

(** The intermediate hash value after [n] blocks. *)
Fixpoint hash (n : nat) (H : list Z) (octets : list Z) : list Z :=
  match n with
  | O => H
  | S n => hash n (compress H (take 64 octets)) (drop 64 octets)
  end.

(** ** Messages (sections 5.1.1 and 6.2.2) *)

(** [x] as [n] octets, the most significant one first. *)
Definition octets_of (n : nat) (x : Z) : list Z := map (fun i => x / 256 ^ Z.of_nat i mod 256) (rev (seq 0 n)).

(** A one bit, the least number [k] of zero bits with [l + 1 + k = 448 mod 512]
    (seven of them in the octet of the one bit), and the length [l] in bits. *)
Definition pad (message : list Z) : list Z :=
  let l := 8 * Z.of_nat (length message) in
  let k := (448 - (l + 1)) mod 512 in
  message ++ [128] ++ replicate (Z.to_nat (k / 8)) 0 ++ octets_of 8 l.

(** The digest of a message of fewer than [2 ^ 64] bits. *)
Definition sha256 (message : list Z) : list Z :=
  let padded := pad message in
  concat (map (octets_of 4) (hash (length padded / 64) H0 padded)).

Example sha256_of_abc :
  sha256 [97; 98; 99] =
    [ 0xba; 0x78; 0x16; 0xbf; 0x8f; 0x01; 0xcf; 0xea; 0x41; 0x41; 0x40; 0xde; 0x5d; 0xae; 0x22; 0x23;
      0xb0; 0x03; 0x61; 0xa3; 0x96; 0x17; 0x7a; 0x9c; 0xb4; 0x10; 0xff; 0x61; 0xf2; 0x00; 0x15; 0xad ].
Proof. vm_compute. reflexivity. Qed.
End FIPS.
