(* ===== verification/Sha256.v ===== *)
(** The software SHA-256 of the toolchain ([crates/wrela-package-loader/src/sha256.rs],
    the same algorithm as in [crates/wrela-test-runner/src/sha256.rs]): a
    buffered, incremental digest, proved to compute what FIPS 180-4 defines
    ([Fips]), for a message cut into updates in any way. *)

From Stdlib Require Import Strings.Byte.
From stdpp Require Import base numbers list option strings.
From S2P Require Import Prelude Bytes Interrupt BuildModel ContentDigest Fips.

#[local] Open Scope Z_scope.

Definition INITIAL_STATE : list Z :=
  [ 0x6a09_e667; 0xbb67_ae85; 0x3c6e_f372; 0xa54f_f53a;
    0x510e_527f; 0x9b05_688c; 0x1f83_d9ab; 0x5be0_cd19 ].

Definition ROUND_CONSTANTS : list Z :=
  [ 0x428a_2f98; 0x7137_4491; 0xb5c0_fbcf; 0xe9b5_dba5; 0x3956_c25b; 0x59f1_11f1; 0x923f_82a4; 0xab1c_5ed5;
    0xd807_aa98; 0x1283_5b01; 0x2431_85be; 0x550c_7dc3; 0x72be_5d74; 0x80de_b1fe; 0x9bdc_06a7; 0xc19b_f174;
    0xe49b_69c1; 0xefbe_4786; 0x0fc1_9dc6; 0x240c_a1cc; 0x2de9_2c6f; 0x4a74_84aa; 0x5cb0_a9dc; 0x76f9_88da;
    0x983e_5152; 0xa831_c66d; 0xb003_27c8; 0xbf59_7fc7; 0xc6e0_0bf3; 0xd5a7_9147; 0x06ca_6351; 0x1429_2967;
    0x27b7_0a85; 0x2e1b_2138; 0x4d2c_6dfc; 0x5338_0d13; 0x650a_7354; 0x766a_0abb; 0x81c2_c92e; 0x9272_2c85;
    0xa2bf_e8a1; 0xa81a_664b; 0xc24b_8b70; 0xc76c_51a3; 0xd192_e819; 0xd699_0624; 0xf40e_3585; 0x106a_a070;
    0x19a4_c116; 0x1e37_6c08; 0x2748_774c; 0x34b0_bcb5; 0x391c_0cb3; 0x4ed8_aa4a; 0x5b9c_ca4f; 0x682e_6ff3;
    0x748f_82ee; 0x78a5_636f; 0x84c8_7814; 0x8cc7_0208; 0x90be_fffa; 0xa450_6ceb; 0xbef9_a3f7; 0xc671_78f2 ].

Record SoftwareSha256State := {
  state : list Z;
  buffer : list byte;
  buffer_len : Z;
  total_bytes : Z;
}.

(** [SoftwareSha256State::new]. *)
Definition new : SoftwareSha256State :=
  {| state := INITIAL_STATE; buffer := replicate 64 x00; buffer_len := 0; total_bytes := 0 |}.

(** ** [compress] *)

(** [u32] operators. *)
Definition add32 (a b : Z) : Z := wrapping_add 32 a b.
Definition rotr (a n : Z) : Z := rotate_right 32 a n.

(** The first sixteen words of the schedule. *)
Definition block_words (block : list byte) : list Z := map be_value (chunks 4 block).

(** [schedule[index]] for the index that is assigned next. *)
Definition schedule_word (schedule : list Z) : Z :=
  let index := length schedule in
  let at_ (back : nat) := nth (index - back) schedule 0 in
  let s0 := Z.lxor (Z.lxor (rotr (at_ 15%nat) 7) (rotr (at_ 15%nat) 18)) (Z.shiftr (at_ 15%nat) 3) in
  let s1 := Z.lxor (Z.lxor (rotr (at_ 2%nat) 17) (rotr (at_ 2%nat) 19)) (Z.shiftr (at_ 2%nat) 10) in
  add32 (add32 (add32 (at_ 16%nat) s0) (at_ 7%nat)) s1.

(** The loop [for index in 16..64]; the array grows as it is assigned. *)
Fixpoint extend_schedule (turns : nat) (schedule : list Z) : list Z :=
  match turns with
  | O => schedule
  | S turns => extend_schedule turns (schedule ++ [schedule_word schedule])
  end.

(** The working variables [a] to [h]. *)
Record Working := { a_ : Z; b_ : Z; c_ : Z; d_ : Z; e_ : Z; f_ : Z; g_ : Z; h_ : Z }.

Definition round (w : Working) (constant_word : Z * Z) : Working :=
  let '(k, s) := constant_word in
  let sum1 := Z.lxor (Z.lxor (rotr (e_ w) 6) (rotr (e_ w) 11)) (rotr (e_ w) 25) in
  let choice := Z.lxor (Z.land (e_ w) (f_ w)) (Z.land (lnot_w 32 (e_ w)) (g_ w)) in
  let temporary1 := add32 (add32 (add32 (add32 (h_ w) sum1) choice) k) s in
  let sum0 := Z.lxor (Z.lxor (rotr (a_ w) 2) (rotr (a_ w) 13)) (rotr (a_ w) 22) in
  let majority := Z.lxor (Z.lxor (Z.land (a_ w) (b_ w)) (Z.land (a_ w) (c_ w)))
                    (Z.land (b_ w) (c_ w)) in
  let temporary2 := add32 sum0 majority in
  {| h_ := g_ w; g_ := f_ w; f_ := e_ w; e_ := add32 (d_ w) temporary1;
     d_ := c_ w; c_ := b_ w; b_ := a_ w; a_ := add32 temporary1 temporary2 |}.

Definition working (words : list Z) : Working :=
  {| a_ := nth 0 words 0; b_ := nth 1 words 0; c_ := nth 2 words 0; d_ := nth 3 words 0;
     e_ := nth 4 words 0; f_ := nth 5 words 0; g_ := nth 6 words 0; h_ := nth 7 words 0 |}.
Definition working_words (w : Working) : list Z :=
  [a_ w; b_ w; c_ w; d_ w; e_ w; f_ w; g_ w; h_ w].

Definition compress_words (words : list Z) (block : list byte) : list Z :=
  let schedule := extend_schedule 48 (block_words block) in
  zip_with add32 words (working_words (foldl round (working words) (zip ROUND_CONSTANTS schedule))).

(** ** Updating and finishing *)

(** [buffer[from..from + data.len()].copy_from_slice(data)]. *)
Definition splice (buffer : list byte) (from : Z) (data : list byte) : list byte :=
  take (Z.to_nat from) buffer ++ data ++ drop (Z.to_nat from + length data) buffer.

Definition compress (s : SoftwareSha256State) (block : list byte) : SoftwareSha256State :=
  {| state := compress_words (state s) block; buffer := buffer s;
     buffer_len := buffer_len s; total_bytes := total_bytes s |}.

Definition with_buffer (s : SoftwareSha256State) (buffer : list byte) (buffer_len : Z)
    : SoftwareSha256State :=
  {| state := state s; buffer := buffer; buffer_len := buffer_len; total_bytes := total_bytes s |}.

(** [while bytes.len() >= 64]: the state and the bytes that are left. *)
Fixpoint update_blocks (fuel : nat) (s : SoftwareSha256State) (bytes : list byte)
    : SoftwareSha256State * list byte :=
  match fuel with
  | S fuel =>
      if 64 <=? len bytes then update_blocks fuel (compress s (take 64 bytes)) (drop 64 bytes)
      else (s, bytes)
  | O => (s, bytes)
  end.

(** Filling the buffer up first: the state and the bytes that are left. *)
Definition fill_buffer (s : SoftwareSha256State) (bytes : list byte)
    : SoftwareSha256State * list byte :=
  if negb (buffer_len s =? 0) then
    let available := 64 - buffer_len s in
    let count := Z.min available (len bytes) in
    let end_ := buffer_len s + count in
    let s := with_buffer s (splice (buffer s) (buffer_len s) (take (Z.to_nat count) bytes)) end_ in
    let bytes := drop (Z.to_nat count) bytes in
    if buffer_len s =? 64
    then (with_buffer (compress s (buffer s)) (buffer s) 0, bytes)
    else (s, bytes)
  else (s, bytes).

Definition update_bytes (s : SoftwareSha256State) (bytes : list byte) : SoftwareSha256State :=
  let s := {| state := state s; buffer := buffer s; buffer_len := buffer_len s;
              total_bytes := saturating_add 128 (total_bytes s) (len bytes) |} in
  let '(s, bytes) := fill_buffer s bytes in
  let '(s, bytes) := update_blocks (length bytes) s bytes in
  if bool_decide (bytes = []) then s
  else with_buffer s (splice (buffer s) 0 bytes) (len bytes).

(** [buffer[from..to].fill(0)]. *)
Definition fill_zero (buffer : list byte) (from to : Z) : list byte :=
  splice buffer from (replicate (Z.to_nat (to - from)) x00).

Definition finalize (s : SoftwareSha256State) : Sha256Digest :=
  let bit_length := wrapping_mul 128 (total_bytes s) 8 mod 2 ^ 64 in
  let s := with_buffer s (splice (buffer s) (buffer_len s) [byte_of_Z 0x80]) (buffer_len s + 1) in
  let s :=
    if 56 <? buffer_len s then
      let s := with_buffer s (fill_zero (buffer s) (buffer_len s) 64) (buffer_len s) in
      with_buffer (compress s (buffer s)) (replicate 64 x00) 0
    else s in
  let s := with_buffer s (fill_zero (buffer s) (buffer_len s) 56) (buffer_len s) in
  let s := with_buffer s (splice (buffer s) 56 (be_bytes 8 bit_length)) (buffer_len s) in
  let s := compress s (buffer s) in
  from_bytes (concat (map (be_bytes 4) (state s))).

(** [SoftwareSha256::sha256]. *)
Definition sha256 (bytes : list byte) : Sha256Digest := finalize (update_bytes new bytes).

Example sha256_abc :
  to_hex (sha256 (ascii "abc")) =
    ascii "ba7816bf8f01cfea414140de5dae2223b00361a396177a9cb410ff61f20015ad".
Proof. vm_compute. reflexivity. Qed.

(** ** The digest in one piece *)

(** A message padded for a stated bit length: a one bit, as few zero bits as
    make whole blocks, and the length. *)
Definition padded (bit_length : Z) (msg : list byte) : list byte :=
  msg ++ [byte_of_Z 0x80] ++ replicate (Z.to_nat ((55 - len msg) mod 64)) x00
      ++ be_bytes 8 bit_length.

Definition compress_all (words : list Z) (bytes : list byte) : list Z :=
  foldl compress_words words (chunks 64 bytes).

Definition digest_of (words : list Z) : Sha256Digest := from_bytes (concat (map (be_bytes 4) words)).

(** The length that [finalize] writes: the low 64 bits of the saturated count. *)
Definition message_bits (msg : list byte) : Z :=
  wrapping_mul 128 (Z.min (len msg) (2 ^ 128 - 1)) 8 mod 2 ^ 64.

Lemma message_bits_small msg : 8 * len msg < 2 ^ 64 -> message_bits msg = 8 * len msg.
Proof.
  intros H. unfold message_bits, wrapping_mul. pose proof (len_nonneg msg).
  assert (2 ^ 64 < 2 ^ 128) by done.
  rewrite Z.min_l by lia. rewrite (Z.mod_small (len msg * 8)) by lia. rewrite Z.mod_small; lia.
Qed.

(** ** Blocks *)

Definition blocks (bytes : list byte) : Prop := exists q, length bytes = (64 * q)%nat.

Lemma blocks_nil : blocks [].
Proof. by exists 0%nat. Qed.

Lemma blocks_snoc full block : blocks full -> length block = 64%nat -> blocks (full ++ block).
Proof. intros [q Hq] Hb. exists (S q). rewrite length_app. lia. Qed.

Lemma compress_all_app full rest words :
  blocks full -> compress_all words (full ++ rest) = compress_all (compress_all words full) rest.
Proof.
  unfold compress_all. intros [q Hq]. by rewrite (chunks_app 64 q), foldl_app by (done || lia).
Qed.

Lemma compress_all_snoc full block words :
  blocks full -> length block = 64%nat ->
  compress_all words (full ++ block) = compress_words (compress_all words full) block.
Proof.
  intros Hf Hb. rewrite compress_all_app by done.
  unfold compress_all at 1. by rewrite (chunks_one 64) by lia.
Qed.

(** ** The buffer *)

Lemma length_splice buffer from data :
  0 <= from -> from + len data <= len buffer -> length (splice buffer from data) = length buffer.
Proof.
  unfold splice, len. intros. rewrite !length_app, length_take, length_drop. lia.
Qed.

Lemma take_splice buffer tail data :
  take (length tail) buffer = tail -> len tail + len data <= len buffer ->
  take (length (tail ++ data)) (splice buffer (len tail) data) = tail ++ data.
Proof.
  unfold splice, len. intros Ht Hl. rewrite Nat2Z.id, Ht, app_assoc. by rewrite take_app_length.
Qed.

(** [Buffered words buffer n msg]: [words] is the state after the whole blocks
    of [msg], and the first [n] bytes of [buffer] are the rest of it. *)
Definition Buffered (words : list Z) (buffer : list byte) (n : Z) (msg : list byte) : Prop :=
  exists full tail,
    msg = full ++ tail /\ blocks full /\ words = compress_all INITIAL_STATE full /\
    length buffer = 64%nat /\ n = len tail /\ take (length tail) buffer = tail.

Lemma buffered_range words buffer n msg : Buffered words buffer n msg -> 0 <= n <= 64.
Proof.
  intros (full & tail & _ & _ & _ & Hb & -> & Ht). unfold len.
  apply (f_equal length) in Ht. rewrite length_take in Ht. lia.
Qed.

Lemma buffered_write words buffer n msg data :
  Buffered words buffer n msg -> n + len data <= 64 ->
  Buffered words (splice buffer n data) (n + len data) (msg ++ data).
Proof.
  intros (full & tail & -> & Hf & -> & Hb & -> & Ht) Hn. pose proof (len_nonneg tail).
  assert (Hfit : len tail + len data <= len buffer) by (unfold len at 3; lia).
  exists full, (tail ++ data). split_and!; try done; [by rewrite app_assoc| | |].
  - by rewrite length_splice.
  - unfold len. rewrite length_app. lia.
  - by apply take_splice.
Qed.

Lemma buffered_flush words buffer msg buffer' :
  Buffered words buffer 64 msg -> length buffer' = 64%nat ->
  compress_words words buffer = compress_all INITIAL_STATE msg /\ blocks msg /\
  Buffered (compress_words words buffer) buffer' 0 msg.
Proof.
  intros (full & tail & -> & Hf & -> & Hb & Hn & Ht) Hb'.
  assert (tail = buffer) as -> by (rewrite <- Ht; apply take_ge; unfold len in Hn; lia).
  rewrite <- compress_all_snoc by done. split_and!; [done|by apply blocks_snoc|].
  exists (full ++ buffer), []. rewrite app_nil_r. split_and!; try done. by apply blocks_snoc.
Qed.

Lemma buffered_block words buffer msg block :
  Buffered words buffer 0 msg -> length block = 64%nat ->
  Buffered (compress_words words block) buffer 0 (msg ++ block).
Proof.
  intros (full & tail & -> & Hf & -> & Hb & Hn & Ht) Hl.
  destruct tail; [|unfold len in Hn; simpl in Hn; lia]. rewrite app_nil_r.
  exists (full ++ block), []. rewrite app_nil_r, compress_all_snoc by done.
  split_and!; try done. by apply blocks_snoc.
Qed.

(** ** Updating *)

Ltac fields := cbn [state buffer buffer_len total_bytes with_buffer compress].

Definition Holds (s : SoftwareSha256State) (msg : list byte) : Prop :=
  Buffered (state s) (buffer s) (buffer_len s) msg.

Lemma holds_new : Holds new [].
Proof. exists [], []. split_and!; try done. apply blocks_nil. Qed.

Lemma holds_length s msg : Holds s msg -> length (buffer s) = 64%nat.
Proof. by intros (? & ? & _ & _ & _ & H & _). Qed.

Lemma fill_buffer_holds s msg bytes s' rest :
  Holds s msg -> buffer_len s < 64 -> fill_buffer s bytes = (s', rest) ->
  exists taken, bytes = taken ++ rest /\ Holds s' (msg ++ taken) /\
    total_bytes s' = total_bytes s /\ buffer_len s' < 64 /\ (buffer_len s' = 0 \/ rest = []).
Proof.
  intros Hs Hlt. unfold fill_buffer. pose proof (buffered_range _ _ _ _ Hs) as Hr.
  destruct (Z.eqb_spec (buffer_len s) 0) as [H0|H0]; cbn [negb].
  { intros [= <- <-]. exists []. rewrite app_nil_r. auto 6. }
  set (count := Z.min _ _). pose proof (len_nonneg bytes).
  assert (Ht : len (take (Z.to_nat count) bytes) = count)
    by (unfold len in *; rewrite length_take; lia).
  assert (Hw : Holds (with_buffer s (splice (buffer s) (buffer_len s)
                 (take (Z.to_nat count) bytes)) (buffer_len s + count))
               (msg ++ take (Z.to_nat count) bytes)).
  { unfold Holds. fields. rewrite <- Ht at 2. apply buffered_write; [done|lia]. }
  fields.
  destruct (Z.eqb_spec (buffer_len s + count) 64) as [Hfull|Hfull]; intros [= <- <-];
    exists (take (Z.to_nat count) bytes); (split; [by rewrite take_drop|]).
  - split_and!; [|done..|by left]. pose proof (holds_length _ _ Hw) as Hb.
    revert Hw Hb. unfold Holds. fields. rewrite Hfull. intros Hw Hb. by eapply buffered_flush.
  - split_and!; [done|done|fields; lia|]. right. apply drop_ge. unfold len in *. lia.
Qed.

Lemma len_nil_lt : len (@nil byte) < 64.
Proof. done. Qed.

Lemma update_blocks_holds fuel s msg bytes s' rest :
  Holds s msg -> buffer_len s < 64 -> (buffer_len s = 0 \/ bytes = []) ->
  (length bytes <= fuel)%nat -> update_blocks fuel s bytes = (s', rest) ->
  exists taken, bytes = taken ++ rest /\ Holds s' (msg ++ taken) /\
    total_bytes s' = total_bytes s /\ buffer_len s' < 64 /\
    (buffer_len s' = 0 \/ rest = []) /\ len rest < 64.
Proof.
  revert s msg bytes. induction fuel as [|fuel IH]; intros s msg bytes Hs Hlt H0 Hfuel.
  { intros [= <- <-]. destruct bytes; [|simpl in Hfuel; lia].
    exists []. rewrite (app_nil_r msg). auto 8 using len_nil_lt. }
  cbn [update_blocks]. destruct (Z.leb_spec 64 (len bytes)) as [Hge|Hless].
  - intros Hrun. destruct H0 as [H0| ->]; [|done]. unfold len in Hge.
    apply (IH _ (msg ++ take 64 bytes)) in Hrun; fields; auto.
    + destruct Hrun as (taken & Hrest & Hs' & Ht & ?). exists (take 64 bytes ++ taken).
      rewrite <- app_assoc, <- Hrest, take_drop, app_assoc. auto.
    + unfold Holds in *. fields. rewrite H0 in Hs |- *. apply buffered_block; [done|].
      rewrite length_take. lia.
    + rewrite length_drop. lia.
  - intros [= <- <-]. exists []. rewrite app_nil_r. auto 7.
Qed.

(** A state that has absorbed [msg], between two calls. *)
Definition Absorbed (s : SoftwareSha256State) (msg : list byte) : Prop :=
  Holds s msg /\ buffer_len s < 64 /\ total_bytes s = Z.min (len msg) (2 ^ 128 - 1).

Lemma update_bytes_absorbs s msg bytes :
  Absorbed s msg -> Absorbed (update_bytes s bytes) (msg ++ bytes).
Proof.
  intros (Hs & Hlt & Htotal). unfold update_bytes. set (s0 := {| total_bytes := _ |}).
  assert (Ht0 : total_bytes s0 = Z.min (len (msg ++ bytes)) (2 ^ 128 - 1)).
  { unfold s0. cbn [total_bytes]. unfold saturating_add. rewrite Htotal.
    unfold len. rewrite length_app. lia. }
  destruct (fill_buffer s0 bytes) as [s1 rest1] eqn:H1.
  apply (fill_buffer_holds s0 msg) in H1 as (taken1 & -> & Hs1 & Ht1 & Hlt1 & Hz1); [|done..].
  destruct (update_blocks (length rest1) s1 rest1) as [s2 rest2] eqn:H2.
  apply (update_blocks_holds _ _ _ _ _ _ Hs1) in H2 as
    (taken2 & -> & Hs2 & Ht2 & Hlt2 & Hz2 & Hrest); [|done..].
  case_bool_decide as Hnil.
  - subst rest2. rewrite !app_nil_r in *. rewrite app_assoc in *.
    split_and!; [done..|by rewrite Ht2, Ht1, Ht0].
  - destruct Hz2 as [Hz2|]; [|done]. unfold Absorbed, Holds in *. fields.
    split_and!; [|done|by rewrite Ht2, Ht1, Ht0]. rewrite !app_assoc in *.
    change (len rest2) with (0 + len rest2). apply buffered_write; [by rewrite <- Hz2|lia].
Qed.

Lemma updates_absorb us s msg :
  Absorbed s msg -> Absorbed (foldl update_bytes s us) (msg ++ concat us).
Proof.
  revert s msg. induction us as [|u us IH]; intros s msg Hs; simpl; [by rewrite app_nil_r|].
  rewrite app_assoc. apply IH. by apply update_bytes_absorbs.
Qed.

Lemma absorbed_new : Absorbed new [].
Proof. split_and!; [apply holds_new|done..]. Qed.

(** ** Finishing *)

(** How many zero bytes of padding follow [n] buffered ones and the marker. *)
Lemma padding_zeros words buffer n msg :
  Buffered words buffer n msg -> (55 - len msg) mod 64 = (55 - n) mod 64.
Proof.
  intros (full & tail & -> & [q Hq] & _ & _ & -> & _). unfold len. rewrite length_app, Hq.
  replace (55 - Z.of_nat (64 * q + length tail)) with (55 - Z.of_nat (length tail) + - Z.of_nat q * 64)
    by lia.
  apply Z_mod_plus_full.
Qed.

Lemma len_replicate {A} n (x : A) : len (replicate n x) = Z.of_nat n.
Proof. unfold len. by rewrite length_replicate. Qed.

Lemma finalize_absorbed s msg :
  Absorbed s msg -> finalize s = digest_of (compress_all INITIAL_STATE (padded (message_bits msg) msg)).
Proof.
  intros (Hs & Hlt & Htotal). pose proof (padding_zeros _ _ _ _ Hs) as Hz.
  pose proof (buffered_range _ _ _ _ Hs) as Hr. unfold finalize.
  rewrite Htotal. fold (message_bits msg). set (bits := message_bits msg). clearbody bits.
  unfold Holds in Hs. fields.
  assert (Hm : Buffered (state s) (splice (buffer s) (buffer_len s) [byte_of_Z 0x80])
    (buffer_len s + 1) (msg ++ [byte_of_Z 0x80])) 
    by (apply (buffered_write _ _ _ _ [_] Hs); change (len [_]) with 1; lia).
  set (marked := splice _ _ _) in *. unfold padded, fill_zero. rewrite Hz.
  assert (Hlast : forall words buf n zeros,
    Buffered words buf n (msg ++ [byte_of_Z 0x80] ++ zeros) -> n <= 56 ->
    compress_words words (splice (splice buf n (replicate (Z.to_nat (56 - n)) x00)) 56 (be_bytes 8 bits)) =
    compress_all INITIAL_STATE (msg ++ [byte_of_Z 0x80] ++
      (zeros ++ replicate (Z.to_nat (56 - n)) x00) ++ be_bytes 8 bits)).
  { intros words buf n zeros Hb Hn. pose proof (buffered_range _ _ _ _ Hb).
    apply (buffered_write _ _ _ _ (replicate (Z.to_nat (56 - n)) x00)) in Hb;
      [|rewrite len_replicate; lia].
    rewrite len_replicate in Hb. replace (n + Z.of_nat (Z.to_nat (56 - n))) with 56 in Hb by lia.
    apply (buffered_write _ _ _ _ (be_bytes 8 bits)) in Hb; [|done].
    change (56 + len (be_bytes 8 bits)) with 64 in Hb.
    eapply (buffered_flush _ _ _ (replicate 64 x00)) in Hb as [-> _]; [|done].
    f_equal. by rewrite <- !app_assoc. }
  destruct (Z.ltb_spec 56 (buffer_len s + 1)) as [Hlong|Hshort]; fields.
  - apply (buffered_write _ _ _ _ (replicate (Z.to_nat (64 - (buffer_len s + 1))) x00)) in Hm;
      [|rewrite len_replicate; lia].
    rewrite len_replicate in Hm.
    replace (buffer_len s + 1 + _) with 64 in Hm by lia.
    apply (buffered_flush _ _ _ (replicate 64 x00)) in Hm as (_ & _ & Hm); [|done].
    unfold digest_of. do 3 f_equal. rewrite <- app_assoc in Hm. rewrite (Hlast _ _ _ _ Hm) by lia.
    rewrite <- replicate_add. do 5 f_equal. rewrite <- (Z.mod_unique (55 - buffer_len s) 64 (-1) (119 - buffer_len s)) by lia. lia.
  - unfold digest_of. do 3 f_equal. rewrite (Hlast _ _ _ []) by (done || lia).
    rewrite Z.mod_small by lia. cbn [app]. do 5 f_equal. lia.
Qed.

Lemma sha256_padded msg :
  sha256 msg = digest_of (compress_all INITIAL_STATE (padded (message_bits msg) msg)).
Proof.
  unfold sha256. apply finalize_absorbed.
  apply (update_bytes_absorbs new []), absorbed_new.
Qed.

Lemma finalize_updates us : finalize (foldl update_bytes new us) = sha256 (concat us).
Proof.
  rewrite sha256_padded. apply finalize_absorbed. apply (updates_absorb us new []), absorbed_new.
Qed.

(** The hasher the loader is given meets its contract. *)
#[export] Instance SoftwareSha256 : ContentHasher := {|
  begin_sha256 := new;
  digest_update := update_bytes;
  digest_finish := finalize;
  hasher_sha256 := sha256;
|}.
#[export] Instance SoftwareSha256_incremental : IncrementalHasher SoftwareSha256.
Proof. intros us. apply finalize_updates. Qed.

(** ** The functions of FIPS 180-4 *)

Definition is_word (x : Z) : Prop := 0 <= x < 2 ^ 32.

Lemma add32_word a b : is_word (add32 a b).
Proof. by apply Z.mod_pos_bound. Qed.

Lemma low_bits_up n x : 0 < n < 32 -> (x * 2 ^ (32 - n)) mod 2 ^ 32 = x mod 2 ^ n * 2 ^ (32 - n).
Proof.
  intros Hn. replace (2 ^ 32) with (2 ^ n * 2 ^ (32 - n)) by (rewrite <- Z.pow_add_r; f_equal; lia).
  apply Z.mul_mod_distr_r; apply Z.pow_nonzero; lia.
Qed.

Lemma rotr_ROTR n x : 0 < n < 32 -> is_word x -> rotr x n = FIPS.ROTR n x.
Proof.
  intros Hn [Hx Hx']. unfold rotr, rotate_right, FIPS.ROTR.
  rewrite Z.land_ones, Z.shiftl_mul_pow2, Z.shiftr_div_pow2, low_bits_up by lia.
  assert (x / 2 ^ n < 2 ^ (32 - n)).
  { apply Z.div_lt_upper_bound; [apply Z.pow_pos_nonneg; lia|]. rewrite <- Z.pow_add_r by lia. by replace (n + (32 - n)) with 32 by lia. }
  symmetry. apply Z.add_nocarry_lor, Z.bits_inj'. intros i Hi. rewrite Z.land_spec, Z.bits_0.
  destruct (Z_lt_le_dec i (32 - n)) as [Hlow|Hhigh].
  - by rewrite Z.mul_pow2_bits_low, andb_false_r by lia.
  - rewrite <- (Z.mod_small (x / 2 ^ n) (2 ^ (32 - n))), Z.mod_pow2_bits_high; [done|lia|].
    split; [apply Z.div_pos; [done|apply Z.pow_pos_nonneg; lia]|done].
Qed.

Lemma word_bits_high x i : is_word x -> 32 <= i -> Z.testbit x i = false.
Proof. intros Hx Hi. rewrite <- (Z.mod_small x (2 ^ 32)) by done. apply Z.mod_pow2_bits_high. lia. Qed.

Lemma lnot_w_sub x : is_word x -> lnot_w 32 x = 2 ^ 32 - 1 - x.
Proof.
  intros Hx. enough (x + lnot_w 32 x = Z.ones 32) by (change (2 ^ 32 - 1) with (Z.ones 32); lia).
  assert (Hbit : forall i, 0 <= i -> Z.testbit (lnot_w 32 x) i = xorb (Z.testbit x i) (i <? 32)).
  { intros i Hi. unfold lnot_w. by rewrite Z.lxor_spec, Z.testbit_ones_nonneg by lia. }
  rewrite Z.add_nocarry_lor; apply Z.bits_inj'; intros i Hi;
    rewrite ?Z.land_spec, ?Z.lor_spec, Hbit, ?Z.bits_0, ?Z.testbit_ones_nonneg by lia;
    destruct (Z.ltb_spec i 32) as [?|Hhigh]; try rewrite (word_bits_high x i Hx Hhigh); by destruct (Z.testbit x i).
Qed.

(** ** Rounds *)

Lemma round_step w kw : Forall is_word (working_words w) ->
  working_words (round w kw) = FIPS.step (working_words w) kw /\ Forall is_word (working_words (round w kw)).
Proof.
  destruct w as [a b c d e f g h], kw as [k s]. unfold working_words. cbn [a_ b_ c_ d_ e_ f_ g_ h_].
  intros H. do 8 (apply Forall_cons in H as [? H]). clear H.
  unfold round. cbn [a_ b_ c_ d_ e_ f_ g_ h_ FIPS.step]. split.
  - rewrite !rotr_ROTR, lnot_w_sub by (done || lia).
    unfold FIPS.Sigma0, FIPS.Sigma1, FIPS.Ch, FIPS.Maj, FIPS.xor3. change FIPS.sum with add32. reflexivity.
  - repeat apply Forall_cons_2; try done; apply add32_word.
Qed.

Lemma rounds_steps kws w : Forall is_word (working_words w) ->
  working_words (foldl round w kws) = foldl FIPS.step (working_words w) kws
  /\ Forall is_word (working_words (foldl round w kws)).
Proof.
  revert w. induction kws as [|kw kws IH]; intros w Hw; [done|]. cbn [foldl].
  apply (round_step w kw) in Hw as [<- Hw]. by apply IH.
Qed.

(** ** The schedule *)

Lemma nth_word t ws : Forall is_word ws -> is_word (nth t ws 0).
Proof.
  intros Hws. destruct (nth_in_or_default t ws 0) as [Hin| ->]; [|done].
  rewrite Forall_forall in Hws. by apply Hws, list_elem_of_In.
Qed.

Lemma length_W M n : length (FIPS.W M n) = n.
Proof. induction n as [|n IH]; [done|]. cbn [FIPS.W]. rewrite length_app, IH. simpl. lia. Qed.

Lemma W_words M n : Forall is_word M -> Forall is_word (FIPS.W M n).
Proof.
  intros HM. induction n as [|n IH]; [constructor|]. cbn [FIPS.W]. apply Forall_app. split; [done|].
  apply Forall_singleton. destruct (n <? 16)%nat; [by apply nth_word|by apply add32_word].
Qed.

Lemma W_start M n : (n <= 16)%nat -> length M = 16%nat -> FIPS.W M n = take n M.
Proof.
  intros Hn HM. induction n as [|n IH]; [done|]. cbn [FIPS.W]. rewrite IH by lia.
  rewrite (proj2 (Nat.ltb_lt n 16)) by lia.
  destruct (lookup_lt_is_Some_2 M n) as [x Hx]; [lia|]. by rewrite (nth_lookup_Some _ _ _ _ Hx), (take_S_r _ _ x).
Qed.

Lemma sum_four a b c d : FIPS.sum (FIPS.sum (FIPS.sum a b) c) d = (a + b + c + d) mod 2 ^ 32.
Proof.
  unfold FIPS.sum. rewrite Zplus_mod_idemp_l, <- Z.add_assoc, Zplus_mod_idemp_l. f_equal. lia.
Qed.

Lemma extend_schedule_W M turns n : Forall is_word M -> (16 <= n)%nat ->
  extend_schedule turns (FIPS.W M n) = FIPS.W M (n + turns).
Proof.
  intros HM. revert n. induction turns as [|turns IH]; intros n Hn; cbn [extend_schedule]; [by rewrite Nat.add_0_r|].
  rewrite <- Nat.add_succ_comm, <- IH by lia. f_equal. cbn [FIPS.W]. do 2 f_equal.
  rewrite (proj2 (Nat.ltb_ge n 16)) by lia. unfold schedule_word. rewrite length_W.
  rewrite !rotr_ROTR by (lia || by apply nth_word, W_words). rewrite !Z.shiftr_div_pow2 by lia.
  change add32 with FIPS.sum. rewrite !sum_four. unfold FIPS.sigma0, FIPS.sigma1, FIPS.SHR, FIPS.xor3. f_equal. lia.
Qed.

Lemma nth_chunks {A} n q (l : list A) t :
  (0 < n)%nat -> length l = (n * q)%nat -> (t < q)%nat ->
  chunks n l !! t = Some (take n (drop (n * t) l)).
Proof.
  intros Hn. revert l t. induction q as [|q IH]; intros l t Hl Ht; [lia|].
  rewrite <- (take_drop n l) at 1. assert (length (take n l) = n) by (rewrite length_take; lia).
  rewrite chunks_cons by done. destruct t as [|t]; [by rewrite Nat.mul_0_r|].
  change (chunks n (drop n l) !! t = Some (take n (drop (n * S t) l))). rewrite (IH (drop n l) t) by (rewrite ?length_drop; lia). rewrite drop_drop. do 3 f_equal. lia.
Qed.

Lemma length_chunks {A} n q (l : list A) : (0 < n)%nat -> length l = (n * q)%nat -> length (chunks n l) = q.
Proof.
  intros Hn. revert l. induction q as [|q IH]; intros l Hl; [by destruct l; [|simpl in Hl; lia]|].
  rewrite <- (take_drop n l). rewrite chunks_cons by (done || rewrite length_take; lia).
  cbn [length]. rewrite IH; [done|]. rewrite length_drop. lia.
Qed.

Lemma word_of_bytes bs : FIPS.word_of (map Z_of_byte bs) = be_value bs.
Proof.
  unfold FIPS.word_of, be_value. induction bs as [|b bs IH] using rev_ind; [done|].
  rewrite map_app, foldl_app, IH, rev_app_distr. simpl. lia.
Qed.

Lemma block_words_of block : length block = 64%nat ->
  block_words block = FIPS.words_of (map Z_of_byte block) /\ Forall is_word (block_words block).
Proof.
  intros Hb. unfold block_words. split.
  - apply list_eq. intros t. unfold FIPS.words_of. rewrite !list_lookup_fmap. destruct (decide (t < 16)%nat) as [Ht|Ht].
    + rewrite (nth_chunks 4 16), lookup_seq_lt by (done || lia). cbn [fmap option_fmap option_map].
      by rewrite skipn_map, firstn_map, word_of_bytes.
    + by rewrite lookup_seq_ge, lookup_ge_None_2 by (rewrite ?(length_chunks 4 16) by (done || lia); lia).
  - apply Forall_map, Forall_lookup. intros t c Hc.
    assert (t < 16)%nat by (apply lookup_lt_Some in Hc; by rewrite (length_chunks 4 16) in Hc by (done || lia)).
    rewrite (nth_chunks 4 16) in Hc by (done || lia). injection Hc as <-.
    unfold is_word, be_value. pose proof (le_value_bounds (rev (take 4 (drop (4 * t) block)))) as Hv.
    rewrite length_rev, length_take, length_drop, Nat.min_l in Hv by lia. exact Hv.
Qed.

(** ** Blocks and messages *)

Definition chaining (words : list Z) : Prop := length words = 8%nat /\ Forall is_word words.

Lemma working_words_working words : length words = 8%nat -> working_words (working words) = words.
Proof. by do 9 (destruct words as [|? words]; try done). Qed.

Lemma round_constants_are_fips : ROUND_CONSTANTS = FIPS.K.
Proof. vm_compute. reflexivity. Qed.
Lemma initial_state_is_fips : INITIAL_STATE = FIPS.H0.
Proof. vm_compute. reflexivity. Qed.

Lemma initial_chaining : chaining INITIAL_STATE.
Proof.
  split; [done|]. apply (bool_decide_eq_true_1 (Forall (fun x => 0 <= x < 2 ^ 32) INITIAL_STATE)). vm_compute. reflexivity.
Qed.

(** The compression function is that of FIPS 180-4. *)
Lemma compress_words_fips words block : chaining words -> length block = 64%nat ->
  compress_words words block = FIPS.compress words (map Z_of_byte block) /\ chaining (compress_words words block).
Proof.
  intros [Hl Hw] Hb. destruct (block_words_of block Hb) as [Hblock Hwords]. unfold compress_words, FIPS.compress.
  assert (Hs : extend_schedule 48 (block_words block) = FIPS.W (FIPS.words_of (map Z_of_byte block)) 64).
  { rewrite <- Hblock, <- (extend_schedule_W _ 48 16), W_start, take_ge by (done || rewrite Hblock; done). done. }
  rewrite Hs, <- round_constants_are_fips.
  assert (Hw' : Forall is_word (working_words (working words))) by by rewrite working_words_working.
  apply (rounds_steps (zip ROUND_CONSTANTS (FIPS.W (FIPS.words_of (map Z_of_byte block)) 64))) in Hw' as [-> Hw'].
  rewrite working_words_working in * by done. split; [done|]. split.
  - rewrite length_zip_with, Hl. apply Nat.min_l.
    set (kws := zip _ _). clearbody kws. clear -Hl. revert words Hl. induction kws as [|kw kws IH]; intros words Hl; [simpl; lia|].
    cbn [foldl]. apply IH. destruct kw. by do 9 (destruct words as [|? words]; try done).
  - generalize (foldl FIPS.step words (zip ROUND_CONSTANTS (FIPS.W (FIPS.words_of (map Z_of_byte block)) 64))).
    clear. intros ys. revert ys. induction words as [|x words IH]; intros [|y ys]; constructor; [apply add32_word|apply IH].
Qed.

Lemma compress_all_hash q words bytes : chaining words -> length bytes = (64 * q)%nat ->
  compress_all words bytes = FIPS.hash q words (map Z_of_byte bytes).
Proof.
  unfold compress_all. revert words bytes. induction q as [|q IH]; intros words bytes Hw Hl.
  { destruct bytes; [done|simpl in Hl; lia]. }
  assert (Ht : length (take 64 bytes) = 64%nat) by (rewrite length_take; lia).
  rewrite <- (take_drop 64 bytes) at 1. rewrite chunks_cons by (done || lia). cbn [foldl FIPS.hash].
  destruct (compress_words_fips words (take 64 bytes) Hw Ht) as [Hc Hw']. rewrite IH; [|done|rewrite length_drop; lia].
  by rewrite Hc, skipn_map, firstn_map.
Qed.

Lemma octets_of_bytes n z : map Z_of_byte (be_bytes n z) = FIPS.octets_of n z.
Proof.
  unfold be_bytes, FIPS.octets_of. rewrite !map_rev. f_equal. revert z. induction n as [|n IH]; intros z; [done|].
  cbn [le_bytes map seq]. rewrite Z_of_byte_of_Z, IH, <- seq_shift, map_map. f_equal; [by rewrite Z.div_1_r|].
  apply map_ext. intros i. by rewrite pow256_succ, Z.div_div by (try apply Z.pow_pos_nonneg; lia).
Qed.

Lemma padding_octets n : (448 - (8 * n + 1)) mod 512 / 8 = (55 - n) mod 64.
Proof.
  replace (448 - (8 * n + 1)) with (8 * (55 - n) + 7) by lia.
  replace ((8 * (55 - n) + 7) mod 512) with (8 * ((55 - n) mod 64) + 7).
  - symmetry. apply Z.div_unique with 7; lia.
  - apply Z.mod_unique with ((55 - n) / 64); pose proof (Z.mod_pos_bound (55 - n) 64); pose proof (Z.div_mod (55 - n) 64); lia.
Qed.

Lemma map_repeat_byte n : map Z_of_byte (replicate n x00) = replicate n 0.
Proof. induction n as [|n IH]; [done|]. cbn. by rewrite IH. Qed.

Lemma pad_padded msg : map Z_of_byte (padded (8 * len msg) msg) = FIPS.pad (map Z_of_byte msg).
Proof.
  unfold padded, FIPS.pad. rewrite !map_app, map_repeat_byte, octets_of_bytes, length_map.
  by rewrite padding_octets.
Qed.

Lemma padded_blocks msg bits : exists q, length (padded bits msg) = (64 * q)%nat.
Proof.
  unfold padded. rewrite !length_app, length_replicate. cbn [length].
  change (length (be_bytes 8 bits)) with 8%nat. unfold len.
  pose proof (Z.mod_pos_bound (55 - Z.of_nat (length msg)) 64). pose proof (Z.div_mod (55 - Z.of_nat (length msg)) 64).
  exists (Z.to_nat (1 - (55 - Z.of_nat (length msg)) / 64)). lia.
Qed.

Lemma digest_octets words : map Z_of_byte (as_bytes (digest_of words)) = concat (map (FIPS.octets_of 4) words).
Proof.
  unfold digest_of. cbn [as_bytes]. rewrite concat_map, map_map. f_equal. apply map_ext. intros w. apply octets_of_bytes.
Qed.

(** C14: However a message is cut into updates, the buffered incremental digest
    is the SHA-256 that FIPS 180-4 defines of the whole message, octet by octet. *)
Theorem incremental_sha256_is_fips (us : list (list byte)) :
  8 * len (concat us) < 2 ^ 64 ->
  map Z_of_byte (as_bytes (finalize (foldl update_bytes new us))) = FIPS.sha256 (map Z_of_byte (concat us)).
Proof.
  intros H. rewrite finalize_updates, sha256_padded, message_bits_small, digest_octets by done.
  unfold FIPS.sha256. rewrite <- pad_padded, length_map.
  destruct (padded_blocks (concat us) (8 * len (concat us))) as [q Hq].
  rewrite Hq, (Nat.mul_comm 64 q), Nat.div_mul, <- initial_state_is_fips by done.
  by rewrite (compress_all_hash q) by (apply initial_chaining || exact Hq).
Qed.

Lemma incremental_sha256_is_fips_witness :
  8 * len (concat [ascii "a"; ascii "bc"]) < 2 ^ 64 /\
  map Z_of_byte (as_bytes (finalize (foldl update_bytes new [ascii "a"; ascii "bc"]))) =
    FIPS.sha256 (map Z_of_byte (concat [ascii "a"; ascii "bc"])).
Proof.
  split; [reflexivity|]. apply (incremental_sha256_is_fips [ascii "a"; ascii "bc"]). reflexivity.
Defined.

(** ** The loader's digests with this hasher *)

Lemma package_content_digest_exact_witness :
  let r := {| content_kind := SourceContent; content_path := ascii "app.wr";
              content_digest := from_bytes (replicate 32 x01) |} in
  quiet (package_content_digest (ascii "m") [r]) = Ok (sha256 (content_encoding (ascii "m") [r])).
Proof.
  intros r.
  assert (canonical_content (ascii "m") [r]) as Hc.
  { split_and!; [discriminate|repeat constructor; discriminate|repeat constructor|reflexivity]. }
  destruct (proj1 (package_content_digest_exact SoftwareSha256_incremental (ascii "m") [r] calm start))
    as [[_ Hq]|[Hn _]]; [exact Hq|destruct (Hn Hc)].
Defined.

Lemma canonical_tree_digest_exact_witness :
  Forall tree_record_typed [one_file] /\
  exists m, quiet (canonical_tree_digest [one_file] standard) = Ok m /\
    measured_digest m = sha256 (tree_encoding [one_file]).
Proof.
  assert (Forall tree_record_typed [one_file]) as Ht by (repeat constructor; discriminate).
  split; [exact Ht|]. eexists. split.
  - apply (proj2 (proj1 (canonical_tree_digest_exact SoftwareSha256_incremental
      [one_file] standard _ calm start Ht))).
    split_and!; [reflexivity| |split_and!; (done || vm_compute; discriminate)|reflexivity].
    split_and!; [repeat constructor|repeat constructor|reflexivity].
  - reflexivity.
Defined.
