(* ===== verification/TestEvents.v ===== *)
(** The events of the host/guest test protocol: the event data of
    [crates/wrela-test-model], the limits, errors and event validation of
    [crates/wrela-test-protocol]. *)

From Stdlib Require Import Strings.Byte.
From stdpp Require Import base numbers list option strings.
From S2P Require Import Prelude Bytes Interrupt Text Source.

#[local] Open Scope Z_scope.

(** ** Event data *)

Definition TEST_PROTOCOL_VERSION : Z := 3.
Definition MAX_TEST_EVENT_BYTES : Z := 1024 * 1024.
Definition MAX_RUNTIME_TEST_EVENTS : Z := 1000000.

(** [TestId(u32)]. *)
Record TestId := { test_id : Z }.

Inductive LogLevel := Trace | Debug | Info | Warning | Error.
Inductive LanguageFatalCause := CheckedShiftResultLoss | InvalidShiftCount.

Inductive GuestTestOutcome :=
| Passed
| Failed (message : str)
| TimedOut (timeout_ns : Z)
| LanguageFatal (cause : LanguageFatalCause).

Record AssertionFailure := {
  expression : str;
  message : option str;
  source : option Span;
  expected : option str;
  actual : option str;
}.

Inductive TestEventKind :=
| RunStarted (test_count : Z)
| TestStarted (test : TestId)
| Log (test : option TestId) (level : LogLevel) (message : str)
| AssertionFailed (test : TestId) (failure : AssertionFailure)
| TestFinished (test : TestId) (outcome : GuestTestOutcome)
| Heartbeat (monotonic_ticks : Z)
| RunFinished (passed failed : Z).

Record TestEvent := { protocol : Z; sequence : Z; kind : TestEventKind }.

#[export] Instance TestId_eq_dec : EqDecision TestId.
Proof. solve_decision. Defined.
#[export] Instance LogLevel_eq_dec : EqDecision LogLevel.
Proof. solve_decision. Defined.
#[export] Instance LanguageFatalCause_eq_dec : EqDecision LanguageFatalCause.
Proof. solve_decision. Defined.

(** ** Protocol constants, limits and errors *)

Definition TEST_FRAME_MAGIC : list byte := ascii "WRELTST" ++ [x00].
Definition TEST_FRAME_VERSION : Z := 1.
Definition TEST_EVENT_VERSION : Z := 3.
Definition TEST_FRAME_HEADER_BYTES : Z := 32.
Definition MAX_PROTOCOL_FRAME_BYTES : Z := 1024 * 1024.
Definition MAX_PROTOCOL_STRING_BYTES : Z := 256 * 1024.
Definition MAX_PROTOCOL_EVENTS : Z := MAX_RUNTIME_TEST_EVENTS.
Definition MAX_PROTOCOL_STREAM_BYTES : Z := 1024 * 1024 * 1024.
Definition CANCELLATION_POLL_BYTES : Z := 4096.
Definition CANCELLATION_POLL_ENTRIES : Z := 1024.

Record ProtocolLimits := { frame_bytes : Z; string_bytes : Z; events : Z }.

Inductive ProtocolError :=
| Cancelled
| InvalidLimits
| ProtocolContractMismatch (reason : string)
| LimitTooLarge (resource : string) (maximum actual : Z)
| ResourceLimit (resource : string) (limit : Z)
| InvalidMagic
| UnsupportedFrameVersion (version : Z)
| UnsupportedEventVersion (version : Z)
| UnexpectedEnd
| InvalidUtf8
| InvalidSourceRange (start_ end_ : Z)
| InvalidTag (kind : string) (tag : Z)
| InvalidChecksum
| FrameTooLarge (limit actual : Z)
| StreamTooLarge (limit actual : Z)
| StringTooLarge (limit actual : Z)
| EventLimit (limit sequence : Z)
| SequenceMismatch (header event : Z)
| StreamSequenceMismatch (expected actual : Z)
| InvalidStreamOrder (sequence : Z) (reason : string)
| DuplicateTestStart (sequence test : Z)
| InvalidTestReference (sequence test : Z) (event : string)
| TestCountExceeded (sequence limit actual : Z)
| NonMonotonicHeartbeat (sequence previous actual : Z)
| StreamSummaryMismatch (sequence declared started finished observed_passed
    observed_failed reported_passed reported_failed : Z)
| TrailingBytes
| NonCanonical (reason : string).

(** [ProtocolLimits::standard]. *)
Definition standard : ProtocolLimits :=
  {| frame_bytes := MAX_PROTOCOL_FRAME_BYTES;
     string_bytes := MAX_PROTOCOL_STRING_BYTES;
     events := MAX_PROTOCOL_EVENTS |}.

Definition check_limit (resource : string) (actual maximum : Z) : result ProtocolError unit :=
  if maximum <? actual then Err (LimitTooLarge resource maximum actual) else Ok tt.

(** [ProtocolLimits::validate]. *)
Definition validate (l : ProtocolLimits) : result ProtocolError unit :=
  _ ← guard_err ((frame_bytes l <? TEST_FRAME_HEADER_BYTES)
                 || (string_bytes l =? 0) || (events l =? 0)
                 || (frame_bytes l <? string_bytes l)) InvalidLimits;
  _ ← check_limit "frame bytes" (frame_bytes l) MAX_PROTOCOL_FRAME_BYTES;
  _ ← check_limit "string bytes" (string_bytes l) MAX_PROTOCOL_STRING_BYTES;
  _ ← check_limit "events" (events l) MAX_PROTOCOL_EVENTS;
  _ ← guard_err (negb (MAX_PROTOCOL_FRAME_BYTES =? MAX_TEST_EVENT_BYTES))
        (ProtocolContractMismatch
          "frame ceiling differs from the test model event ceiling");
  guard_err (negb (TEST_EVENT_VERSION =? TEST_PROTOCOL_VERSION))
    (ProtocolContractMismatch
      "frame schema event version differs from the test model protocol version").

(** [ProtocolLimits::maximum_stream_bytes]. *)
Definition maximum_stream_bytes (l : ProtocolLimits) : result ProtocolError Z :=
  _ ← validate l;
  ok_or (option_map (fun bytes => Z.min bytes MAX_PROTOCOL_STREAM_BYTES)
           (checked_mul 64 (frame_bytes l) (events l))) InvalidLimits.

(** ** Event validation *)

(** The loop of [contains_non_whitespace] over [char_indices]. *)
Fixpoint find_non_whitespace (cs : list (Z * Z)) : prog ProtocolError bool :=
  match cs with
  | [] => _ ← poll Cancelled; mret false
  | (byte_offset, character) :: cs =>
      _ ← poll_when (Z.land byte_offset (CANCELLATION_POLL_BYTES - 1) =? 0) Cancelled;
      if negb (is_whitespace character) then mret true else find_non_whitespace cs
  end.
Definition contains_non_whitespace (value : str) : prog ProtocolError bool :=
  find_non_whitespace (char_indices value).

Definition validate_string (l : ProtocolLimits) (value : str) : result ProtocolError unit :=
  guard_err (string_bytes l <? len value) (StringTooLarge (string_bytes l) (len value)).

(** The three optional texts of a failure, in the order they are tested. *)
Fixpoint validate_strings (l : ProtocolLimits) (values : list (option str))
    : result ProtocolError unit :=
  match values with
  | [] => Ok tt
  | None :: values => validate_strings l values
  | Some value :: values => _ ← validate_string l value; validate_strings l values
  end.

Definition validate_failure (failure : AssertionFailure) (l : ProtocolLimits)
    : prog ProtocolError unit :=
  _ ← lift (validate_string l (expression failure));
  visible ← contains_non_whitespace (expression failure);
  _ ← fail_if (negb visible) (NonCanonical "assertion expression is empty");
  _ ← lift (validate_strings l [message failure; expected failure; actual failure]);
  _ ← fail_if match message failure with
              | Some message => negb (existsb (fun c => negb (is_whitespace c)) (chars message))
              | None => false
              end (NonCanonical "assertion message is empty");
  match source failure with
  | Some source =>
      fail_if (end_ (range source) <? start_ (range source))
        (InvalidSourceRange (start_ (range source)) (end_ (range source)))
  | None => mret tt
  end.

Definition validate_event (event : TestEvent) (l : ProtocolLimits)
    : prog ProtocolError unit :=
  _ ← poll Cancelled;
  _ ← lift (validate l);
  _ ← fail_if (negb (protocol event =? TEST_EVENT_VERSION))
        (UnsupportedEventVersion (protocol event));
  _ ← fail_if (events l <=? sequence event) (EventLimit (events l) (sequence event));
  match kind event with
  | Log _ _ message =>
      _ ← lift (validate_string l message);
      fail_if (bool_decide (message = [])) (NonCanonical "log message is empty")
  | AssertionFailed _ failure => validate_failure failure l
  | TestFinished _ (Failed message) =>
      _ ← lift (validate_string l message);
      visible ← contains_non_whitespace message;
      fail_if (negb visible) (NonCanonical "failed test message is empty")
  | TestFinished _ (TimedOut timeout_ns) =>
      fail_if (timeout_ns =? 0) (NonCanonical "test timeout must be nonzero")
  | RunFinished passed failed =>
      fail_if match checked_add 32 passed failed with
              | Some total => events l <? total
              | None => true
              end (ResourceLimit "terminal test count" (events l))
  | _ => mret tt
  end.

(** ** Limits and validation, characterised *)

Record limits_ok (l : ProtocolLimits) : Prop := {
  limits_frame : TEST_FRAME_HEADER_BYTES <= frame_bytes l <= MAX_PROTOCOL_FRAME_BYTES;
  limits_string : string_bytes l <= frame_bytes l /\ string_bytes l <= MAX_PROTOCOL_STRING_BYTES;
  limits_string_nonzero : string_bytes l <> 0;
  limits_events : events l <= MAX_PROTOCOL_EVENTS;
  limits_events_nonzero : events l <> 0;
}.

Lemma check_limit_Ok s a m u : check_limit s a m = Ok u <-> a <= m.
Proof. unfold check_limit. destruct u, (Z.ltb_spec m a); split; naive_solver lia. Qed.

Lemma validate_Ok l : validate l = Ok tt <-> limits_ok l.
Proof.
  unfold validate. split.
  - intros H. inv_ok.
    repeat match goal with H : check_limit _ _ _ = Ok _ |- _ => apply check_limit_Ok in H end.
    bool_to_prop. split; lia.
  - intros [Hf [Hs Hs'] Hz He Hez]. unfold check_limit.
    rewrite (proj2 (Z.ltb_ge (frame_bytes l) _)) by lia.
    rewrite (proj2 (Z.eqb_neq _ _) Hz), (proj2 (Z.eqb_neq _ _) Hez).
    rewrite (proj2 (Z.ltb_ge (frame_bytes l) (string_bytes l))) by lia. cbn [orb guard_err].
    rewrite (proj2 (Z.ltb_ge _ (frame_bytes l))) by lia.
    rewrite (proj2 (Z.ltb_ge _ (string_bytes l))) by lia.
    by rewrite (proj2 (Z.ltb_ge _ (events l))) by lia.
Qed.

Definition visible (s : str) : bool := existsb (fun c => negb (is_whitespace c)) (chars s).

Lemma existsb_indices (p : Z -> bool) offset cs :
  existsb (fun '(_, c) => p c) (indices_from offset cs) = existsb p cs.
Proof. revert offset. induction cs as [|c cs IH]; intros; [done|]. simpl. by rewrite IH. Qed.

Lemma quiet_contains_non_whitespace s : quiet (contains_non_whitespace s) = Ok (visible s).
Proof.
  unfold contains_non_whitespace, visible, char_indices. rewrite <- (existsb_indices _ 0).
  induction (indices_from _ _) as [|[i c] cs IH]; [done|].
  cbn [find_non_whitespace existsb]. rewrite quiet_bind, quiet_poll_when.
  unfold mbind, result_bind. by destruct (negb _).
Qed.
#[export] Hint Rewrite quiet_contains_non_whitespace : quiet.

(** An error the environment of a computation causes: cancellation, or a
    failed allocation. *)
Definition interruption (e : ProtocolError) : Prop :=
  match e with Cancelled | ResourceLimit _ _ => True | _ => False end.

#[export] Instance poll_interruptible : interruptible interruption (poll Cancelled).
Proof. by apply interruptible_poll. Qed.
#[export] Instance poll_when_interruptible b : interruptible interruption (poll_when b Cancelled).
Proof. by apply interruptible_poll_when. Qed.
#[export] Instance try_reserve_interruptible r n :
  interruptible interruption (try_reserve (ResourceLimit r n)).
Proof. by apply interruptible_try_reserve. Qed.

#[export] Instance contains_non_whitespace_interruptible s :
  interruptible interruption (contains_non_whitespace s).
Proof.
  unfold contains_non_whitespace. induction (char_indices s) as [|[i c] cs IH]; [apply _|].
  cbn [find_non_whitespace]. apply interruptible_bind; [apply _|].
  intros _. destruct (negb _); [apply _|done].
Qed.

#[export] Instance validate_event_interruptible e l :
  interruptible interruption (validate_event e l).
Proof. unfold validate_event, validate_failure. repeat case_match; apply _. Qed.

(** What an accepted event guarantees to the codec. *)
Lemma validate_event_Ok e l :
  quiet (validate_event e l) = Ok tt ->
  limits_ok l /\ protocol e = TEST_EVENT_VERSION /\ sequence e < events l.
Proof.
  unfold validate_event. intros H.
  apply quiet_bind_Ok in H as ([] & _ & H).
  apply quiet_bind_Ok in H as ([] & Hl & H). rewrite quiet_lift in Hl. apply validate_Ok in Hl.
  apply quiet_bind_Ok in H as ([] & Hp & H). rewrite quiet_fail_if in Hp.
  apply quiet_bind_Ok in H as ([] & Hs & _). rewrite quiet_fail_if in Hs.
  inv_ok. by bool_to_prop.
Qed.

Lemma validate_event_source e l test failure span :
  quiet (validate_event e l) = Ok tt -> kind e = AssertionFailed test failure ->
  source failure = Some span -> start_ (range span) <= end_ (range span).
Proof.
  unfold validate_event, validate_failure. intros H Hk Hs. rewrite Hk, Hs in H.
  autorewrite with quiet in H. inv_ok. autorewrite with quiet in *. inv_ok.
  autorewrite with quiet in *. inv_ok. repeat (autorewrite with quiet in *; inv_ok).
  by bool_to_prop.
Qed.
