(* ===== verification/Crc32c.v ===== *)
(** CRC-32C as [crates/wrela-test-protocol] computes it over a frame payload,
    bit by bit, polling for cancellation every 4096 bytes. *)

From Stdlib Require Import Strings.Byte.
From stdpp Require Import base numbers list option strings.
From S2P Require Import Prelude Bytes Interrupt TestEvents.

#[local] Open Scope Z_scope.

(** One round of the inner loop. *)
Definition crc_bit (checksum : Z) : Z :=
  Z.lxor (Z.shiftr checksum 1)
    (Z.land 0x82f63b78 (wrapping_sub 32 0 (Z.land checksum 1))).
Definition crc_byte (checksum : Z) (b : byte) : Z :=
  Nat.iter 8 crc_bit (Z.lxor checksum (Z_of_byte b)).

Fixpoint crc_chunks (checksum : Z) (pieces : list (list byte)) : prog ProtocolError Z :=
  match pieces with
  | [] => mret checksum
  | chunk :: pieces =>
      _ ← poll Cancelled;
      crc_chunks (foldl crc_byte checksum chunk) pieces
  end.

Definition crc32c_cancellable (bytes : list byte) : prog ProtocolError Z :=
  checksum ← crc_chunks (lnot_w 32 0) (chunks (Z.to_nat CANCELLATION_POLL_BYTES) bytes);
  _ ← poll Cancelled;
  mret (lnot_w 32 checksum).

(** The checksum itself. *)
Definition crc32c (bytes : list byte) : Z :=
  lnot_w 32 (foldl crc_byte (lnot_w 32 0) bytes).

Example crc32c_check_value : crc32c (ascii "123456789") = 0xE3069283.
Proof. vm_compute. reflexivity. Qed.

Lemma quiet_crc_chunks c pieces :
  quiet (crc_chunks c pieces) = Ok (foldl (foldl crc_byte) c pieces).
Proof.
  revert c. induction pieces as [|p pieces IH]; intros c; [done|].
  cbn [crc_chunks]. rewrite quiet_bind, quiet_poll. apply IH.
Qed.

Lemma quiet_crc32c bytes : quiet (crc32c_cancellable bytes) = Ok (crc32c bytes).
Proof.
  unfold crc32c_cancellable. rewrite quiet_bind, quiet_crc_chunks.
  rewrite foldl_concat, concat_chunks by (vm_compute; lia). done.
Qed.
#[export] Hint Rewrite quiet_crc32c : quiet.

#[export] Instance crc32c_interruptible bytes :
  interruptible interruption (crc32c_cancellable bytes).
Proof.
  unfold crc32c_cancellable. apply interruptible_bind; [|apply _].
  generalize (lnot_w 32 0) as c. induction (chunks _ bytes) as [|p ps IH]; intros c; [apply _|].
  cbn [crc_chunks]. apply interruptible_bind; [apply _|]. auto.
Qed.

(** ** The register as a linear map *)

Lemma crc_bit_alt c :
  crc_bit c = Z.lxor (Z.shiftr c 1) (if Z.testbit c 0 then 0x82f63b78 else 0).
Proof.
  unfold crc_bit. f_equal. change 1 with (Z.ones 1) at 1. rewrite Z.land_ones by lia.
  change (2 ^ 1) with 2. rewrite <- Z.bit0_mod. by destruct (Z.testbit c 0).
Qed.

Lemma crc_bit_linear a b : crc_bit (Z.lxor a b) = Z.lxor (crc_bit a) (crc_bit b).
Proof.
  rewrite !crc_bit_alt, Z.shiftr_lxor, Z.lxor_spec.
  apply Z.bits_inj. intros i.
  destruct (Z.testbit a 0), (Z.testbit b 0); cbn [xorb];
    rewrite ?Z.lxor_spec, ?Z.bits_0; by repeat destruct (Z.testbit _ i).
Qed.

Lemma crc_bit_double u : crc_bit (2 * u) = u.
Proof.
  rewrite crc_bit_alt, Z.testbit_even_0, Z.lxor_0_r, Z.shiftr_div_pow2 by lia.
  change (2 ^ 1) with 2. rewrite Z.mul_comm. by apply Z.div_mul.
Qed.

Lemma lxor_fits w a b : 0 <= w -> 0 <= a < 2 ^ w -> 0 <= b < 2 ^ w -> 0 <= Z.lxor a b < 2 ^ w.
Proof.
  intros Hw Ha Hb. enough (Z.lxor a b = Z.lxor a b mod 2 ^ w) as -> by (apply Z.mod_pos_bound; lia).
  rewrite <- (Z.mod_small a (2 ^ w)), <- (Z.mod_small b (2 ^ w)) by done.
  rewrite <- !Z.land_ones by done. apply Z.bits_inj'. intros i Hi.
  rewrite ?Z.land_spec, ?Z.lxor_spec, ?Z.land_spec.
  by destruct (Z.testbit (Z.ones w) i), (Z.testbit a i), (Z.testbit b i).
Qed.

Lemma crc_bit_fits c : 0 <= c < 2 ^ 32 -> 0 <= crc_bit c < 2 ^ 32.
Proof.
  intros Hc. rewrite crc_bit_alt. apply lxor_fits; [lia| |destruct (Z.testbit c 0); lia].
  rewrite Z.shiftr_div_pow2 by lia. change (2 ^ 1) with 2.
  Z.div_mod_to_equations; lia.
Qed.

(** The polynomial has its top bit set, so a round loses no information. *)
Lemma crc_bit_kernel c : 0 <= c < 2 ^ 32 -> crc_bit c = 0 -> c = 0.
Proof.
  rewrite crc_bit_alt, Z.shiftr_div_pow2 by lia. change (2 ^ 1) with 2.
  intros Hc H. apply Z.lxor_eq in H. pose proof (Z.bit0_mod c).
  destruct (Z.testbit c 0); cbn [Z.b2z] in *; Z.div_mod_to_equations; lia.
Qed.

Lemma crc_bits_linear n a b :
  Nat.iter n crc_bit (Z.lxor a b) = Z.lxor (Nat.iter n crc_bit a) (Nat.iter n crc_bit b).
Proof. induction n as [|n IH]; [done|]. simpl. by rewrite IH, crc_bit_linear. Qed.

Lemma crc_bits_fits n c : 0 <= c < 2 ^ 32 -> 0 <= Nat.iter n crc_bit c < 2 ^ 32.
Proof. intros Hc. induction n as [|n IH]; [done|]. simpl. by apply crc_bit_fits. Qed.

Lemma crc_bits_inj n a b :
  0 <= a < 2 ^ 32 -> 0 <= b < 2 ^ 32 ->
  Nat.iter n crc_bit a = Nat.iter n crc_bit b -> a = b.
Proof.
  intros Ha Hb. induction n as [|n IH]; [done|]. simpl. intros E. apply IH.
  apply Z.lxor_eq, crc_bit_kernel; [by apply lxor_fits; [lia|apply crc_bits_fits..]|].
  by rewrite crc_bit_linear, E, Z.lxor_nilpotent.
Qed.

Lemma crc_bits_shift n v : Nat.iter n crc_bit (2 ^ Z.of_nat n * v) = v.
Proof.
  revert v. induction n as [|n IH]; intros v; [simpl; lia|].
  rewrite Nat.iter_succ. rewrite Nat2Z.inj_succ, Z.pow_succ_r by lia.
  replace (2 * 2 ^ Z.of_nat n * v) with (2 ^ Z.of_nat n * (2 * v)) by lia.
  by rewrite IH, crc_bit_double.
Qed.

Lemma Z_of_byte_fits b : 0 <= Z_of_byte b < 2 ^ 32.
Proof. pose proof (Z_of_byte_range b). lia. Qed.

Lemma crc_byte_fits c b : 0 <= c < 2 ^ 32 -> 0 <= crc_byte c b < 2 ^ 32.
Proof. intros Hc. apply crc_bits_fits, lxor_fits; [lia|done|apply Z_of_byte_fits]. Qed.

Lemma crc_bytes_fits c bs : 0 <= c < 2 ^ 32 -> 0 <= foldl crc_byte c bs < 2 ^ 32.
Proof. revert c. induction bs; intros c Hc; [done|]. simpl. auto using crc_byte_fits. Qed.

Lemma crc_byte_bits c b : crc_byte c b = Nat.iter 8 crc_bit (Z.lxor c (Z_of_byte b)).
Proof. unfold crc_byte. reflexivity. Qed.

Lemma crc_byte_inj a b x :
  0 <= a < 2 ^ 32 -> 0 <= b < 2 ^ 32 -> crc_byte a x = crc_byte b x -> a = b.
Proof.
  intros Ha Hb E. pose proof (Z_of_byte_fits x) as Hx. rewrite !crc_byte_bits in E.
  apply (crc_bits_inj 8) in E; [|apply lxor_fits; lia..].
  apply (f_equal (Z.lxor (Z_of_byte x))) in E. rewrite !(Z.lxor_comm _ (Z_of_byte x)) in E.
  by rewrite <- !Z.lxor_assoc, Z.lxor_nilpotent, !Z.lxor_0_l in E.
Qed.

(** Equal registers stay equal only for equal registers before. *)
Lemma crc_bytes_inj bs a b :
  0 <= a < 2 ^ 32 -> 0 <= b < 2 ^ 32 ->
  foldl crc_byte a bs = foldl crc_byte b bs -> a = b.
Proof.
  revert a b. induction bs as [|x bs IH]; intros a b Ha Hb E; [done|].
  apply (crc_byte_inj a b x); [done..|]. apply IH; [by apply crc_byte_fits..|exact E].
Qed.

(** Up to four bytes enter the register like one little-endian word. *)
Lemma crc_bytes_word bs c :
  foldl crc_byte c bs = Nat.iter (8 * length bs) crc_bit (Z.lxor c (le_value bs)).
Proof.
  revert c. induction bs as [|b bs IH]; intros c; [simpl; by rewrite Z.lxor_0_r|].
  cbn [foldl length le_value]. rewrite IH.
  replace (8 * S (length bs))%nat with (8 * length bs + 8)%nat by lia.
  rewrite Nat.iter_add. f_equal. unfold crc_byte.
  pose proof (Z_of_byte_range b) as Hb. set (v := le_value bs).
  assert (Z_of_byte b + 256 * v = Z.lxor (Z_of_byte b) (2 ^ Z.of_nat 8 * v)) as ->.
  { change (2 ^ Z.of_nat 8) with 256.
    replace (256 * v) with (Z.shiftl v 8) by (rewrite Z.shiftl_mul_pow2; lia).
    apply Z.add_nocarry_lxor. apply Z.bits_inj_0. intros i. rewrite Z.land_spec.
    destruct (Z.lt_ge_cases i 8) as [Hi|Hi].
    - by rewrite (Z.shiftl_spec_low v 8 i), andb_false_r by lia.
    - rewrite (Z.bits_above_log2 (Z_of_byte b)); [done|lia|].
      destruct (Z.eq_dec (Z_of_byte b) 0) as [->|]; [simpl; lia|].
      apply Z.log2_lt_pow2; [lia|]. change 256 with (2 ^ 8) in Hb.
      eapply Z.lt_le_trans; [apply Hb|]. apply Z.pow_le_mono_r; lia. }
  by rewrite <- Z.lxor_assoc, (crc_bits_linear 8 _ (2 ^ Z.of_nat 8 * v)), crc_bits_shift.
Qed.

Lemma lnot_inj a b : 0 <= a < 2 ^ 32 -> 0 <= b < 2 ^ 32 -> lnot_w 32 a = lnot_w 32 b -> a = b.
Proof.
  unfold lnot_w. intros _ _ E. apply (f_equal (fun z => Z.lxor z (Z.ones 32))) in E.
  by rewrite !Z.lxor_assoc, Z.lxor_nilpotent, !Z.lxor_0_r in E.
Qed.

Lemma crc32c_fits bs : 0 <= crc32c bs < 2 ^ 32.
Proof.
  unfold crc32c, lnot_w at 1. apply lxor_fits; [lia| |vm_compute; split; congruence].
  apply crc_bytes_fits. vm_compute; split; congruence.
Qed.

(** The checksum detects every corruption of a payload that is confined to
    four consecutive bytes. *)
Theorem crc32c_detects_burst before a b after :
  length a = length b -> (length a <= 4)%nat -> a <> b ->
  crc32c (before ++ a ++ after) <> crc32c (before ++ b ++ after).
Proof.
  intros Hl H4 Hne E. apply Hne, (le_value_inj a b Hl).
  assert (Hi : 0 <= lnot_w 32 0 < 2 ^ 32) by (vm_compute; split; congruence).
  apply lnot_inj in E; [|by apply crc_bytes_fits..]. rewrite !foldl_app in E.
  pose proof (crc_bytes_fits _ before Hi) as Hs. revert E Hs.
  generalize (foldl crc_byte (lnot_w 32 0) before) as s. intros s E Hs.
  apply crc_bytes_inj in E; [|by apply crc_bytes_fits..].
  assert (Hw : forall x : list byte, (length x <= 4)%nat -> 0 <= le_value x < 2 ^ 32).
  { intros x Hx. pose proof (le_value_bounds x).
    pose proof (Z.pow_le_mono_r 256 (Z.of_nat (length x)) 4). lia. }
  rewrite !crc_bytes_word, Hl in E.
  apply crc_bits_inj in E; [|by apply lxor_fits; [lia|done|apply Hw; lia]..].
  apply (f_equal (Z.lxor s)) in E.
  by rewrite <- !Z.lxor_assoc, Z.lxor_nilpotent, !Z.lxor_0_l in E.
Qed.

Example crc32c_detects_burst_witness :
  crc32c (ascii "wre" ++ ascii "la" ++ ascii "!") <> crc32c (ascii "wre" ++ ascii "al" ++ ascii "!").
Proof.
  exact (crc32c_detects_burst (ascii "wre") (ascii "la") (ascii "al") (ascii "!") eq_refl
    ltac:(simpl; lia) ltac:(discriminate)).
Defined.
