(* ===== verification/TestFrames.v ===== *)
(** The canonical frame codec of the test protocol ([crates/wrela-test-protocol]):
    payload writer and reader, frame header, encoding and decoding of an event,
    and the interface [TestEventCodec] behind which a codec is used. *)

From Stdlib Require Import Strings.Byte.
From stdpp Require Import base numbers list option strings.
From S2P Require Import Prelude Bytes Interrupt Text Source TestEvents Crc32c.

#[local] Open Scope Z_scope.

Definition usize_max : Z := 2 ^ usize - 1.

Record FrameHeader := {
  frame_version : Z;
  event_version : Z;
  header_sequence : Z;
  payload_bytes : Z;
  checksum : Z;
}.
#[export] Instance FrameHeader_eq_dec : EqDecision FrameHeader.
Proof. solve_decision. Defined.

Record EncodedEventCandidate := { candidate_header : FrameHeader; candidate_bytes : list byte }.

(** The trait [TestEventCodec]. *)
Class TestEventCodec := {
  encode : TestEvent -> ProtocolLimits -> prog ProtocolError EncodedEventCandidate;
  inspect_header : list byte -> prog ProtocolError FrameHeader;
  decode : list byte -> ProtocolLimits -> prog ProtocolError TestEvent;
}.

(** ** [PayloadWriter] *)

Record PayloadWriter := { written : list byte; payload_limit : Z; frame_limit : Z }.
Abbreviation writer := (stateT PayloadWriter (prog ProtocolError)).

Module Writer.

Definition new (payload_limit frame_limit : Z) : PayloadWriter :=
  {| written := []; payload_limit := payload_limit; frame_limit := frame_limit |}.

Fixpoint push_chunks (output : list byte) (pieces : list (list byte))
    : prog ProtocolError (list byte) :=
  match pieces with
  | [] => mret output
  | chunk :: pieces => _ ← poll Cancelled; push_chunks (output ++ chunk) pieces
  end.

Definition extend (value : list byte) : writer unit := fun w =>
  actual ← lift (ok_or (checked_add usize (len (written w)) (len value))
                   (FrameTooLarge (frame_limit w) usize_max));
  _ ← fail_if (payload_limit w <? actual)
        (FrameTooLarge (frame_limit w) (saturating_add usize TEST_FRAME_HEADER_BYTES actual));
  _ ← try_reserve (ResourceLimit "encoded payload bytes" (frame_limit w));
  output ← push_chunks (written w) (chunks (Z.to_nat CANCELLATION_POLL_BYTES) value);
  mret (tt, {| written := output; payload_limit := payload_limit w; frame_limit := frame_limit w |}).

Definition u8 (value : Z) : writer unit := extend [byte_of_Z value].
Definition u32 (value : Z) : writer unit := extend (u32_le value).
Definition u64 (value : Z) : writer unit := extend (u64_le value).

Definition string_ (value : str) (l : ProtocolLimits) : writer unit :=
  length ← liftS (lift (ok_or (try_u32 (len value)) (StringTooLarge (string_bytes l) (len value))));
  _ ← liftS (fail_if (string_bytes l <? length) (StringTooLarge (string_bytes l) (len value)));
  _ ← u32 length;
  extend value.

Definition optional_string (value : option str) (l : ProtocolLimits) : writer unit :=
  match value with
  | None => u8 0
  | Some value => _ ← u8 1; string_ value l
  end.

Definition finish (w : PayloadWriter) : list byte := written w.

End Writer.

(** ** [PayloadReader] *)

Record PayloadReader := {
  reader_bytes : list byte;
  offset : Z;
  reader_limits : ProtocolLimits;
}.
Abbreviation reader := (stateT PayloadReader (prog ProtocolError)).

(** The inner loop of [copy_utf8] that moves a cut past continuation bytes;
    [bytes] is what follows the cut at [end_]. *)
Fixpoint skip_continuation (bytes : list byte) (end_ : Z) : Z :=
  match bytes with
  | b :: bytes =>
      if Z.land (Z_of_byte b) 0xC0 =? 0x80 then skip_continuation bytes (end_ + 1) else end_
  | [] => end_
  end.

Definition chunk_end (bytes : list byte) (offset : Z) : Z :=
  let end_ := Z.min (default (len bytes) (checked_add usize offset CANCELLATION_POLL_BYTES))
                (len bytes) in
  if end_ <? len bytes then skip_continuation (drop (Z.to_nat end_) bytes) end_ else end_.

(** The outer loop; each turn consumes at least one byte, so the length of the
    input is enough fuel. *)
Fixpoint copy_utf8_loop (fuel : nat) (bytes : list byte) (offset : Z) (output : str)
    : prog ProtocolError str :=
  if offset <? len bytes then
    match fuel with
    | O => Throw UnexpectedEnd
    | S fuel =>
        _ ← poll Cancelled;
        let end_ := chunk_end bytes offset in
        chunk ← lift (ok_or (get_range bytes offset end_) UnexpectedEnd);
        _ ← fail_if (negb (utf8_valid chunk)) InvalidUtf8;
        copy_utf8_loop fuel bytes end_ (output ++ chunk)
    end
  else mret output.

Definition copy_utf8 (bytes : list byte) : prog ProtocolError str :=
  _ ← try_reserve (ResourceLimit "decoded string bytes" (len bytes));
  output ← copy_utf8_loop (length bytes) bytes 0 [];
  _ ← poll Cancelled;
  mret output.

Module Reader.

Definition new (bytes : list byte) (l : ProtocolLimits) : PayloadReader :=
  {| reader_bytes := bytes; offset := 0; reader_limits := l |}.

Definition take (count : Z) : reader (list byte) := fun r =>
  _ ← poll Cancelled;
  end_ ← lift (ok_or (checked_add usize (offset r) count) UnexpectedEnd);
  value ← lift (ok_or (get_range (reader_bytes r) (offset r) end_) UnexpectedEnd);
  mret (value, {| reader_bytes := reader_bytes r; offset := end_; reader_limits := reader_limits r |}).

Definition u8 : reader Z :=
  value ← take 1;
  liftS (lift (ok_or (Z_of_byte <$> head value) UnexpectedEnd)).
Definition u32 : reader Z := value ← take 4; mret (le_value value).
Definition u64 : reader Z := value ← take 8; mret (le_value value).

Definition string_ : reader str := fun r =>
  '(length, r) ← u32 r;
  _ ← fail_if (string_bytes (reader_limits r) <? length)
        (StringTooLarge (string_bytes (reader_limits r)) length);
  '(bytes, r) ← take length r;
  text ← copy_utf8 bytes;
  mret (text, r).

Definition optional_string (kind : string) : reader (option str) :=
  tag ← u8;
  if tag =? 0 then mret None
  else if tag =? 1 then text ← string_; mret (Some text)
  else liftS (Throw (InvalidTag kind tag)).

Definition finish (r : PayloadReader) : prog ProtocolError unit :=
  _ ← poll Cancelled;
  fail_if (negb (offset r =? len (reader_bytes r))) TrailingBytes.

End Reader.

(** ** Event kinds *)

Definition log_level_tag (level : LogLevel) : Z :=
  match level with Trace => 0 | Debug => 1 | Info => 2 | Warning => 3 | Error => 4 end.
Definition decode_log_level (tag : Z) : result ProtocolError LogLevel :=
  if tag =? 0 then Ok Trace else if tag =? 1 then Ok Debug else if tag =? 2 then Ok Info
  else if tag =? 3 then Ok Warning else if tag =? 4 then Ok Error
  else Err (InvalidTag "log level" tag).

Definition language_fatal_cause_tag (cause : LanguageFatalCause) : Z :=
  match cause with CheckedShiftResultLoss => 0 | InvalidShiftCount => 1 end.
Definition decode_language_fatal_cause (tag : Z) : result ProtocolError LanguageFatalCause :=
  if tag =? 0 then Ok CheckedShiftResultLoss else if tag =? 1 then Ok InvalidShiftCount
  else Err (InvalidTag "language fatal cause" tag).

Definition encode_source (source : option Span) : writer unit :=
  match source with
  | None => Writer.u8 0
  | Some source =>
      _ ← Writer.u8 1;
      _ ← Writer.u32 (file_id (file source));
      _ ← Writer.u32 (start_ (range source));
      Writer.u32 (end_ (range source))
  end.

Definition encode_outcome (outcome : GuestTestOutcome) (l : ProtocolLimits) : writer unit :=
  match outcome with
  | Passed => Writer.u8 0
  | Failed message => _ ← Writer.u8 1; Writer.string_ message l
  | TimedOut timeout_ns => _ ← Writer.u8 2; Writer.u64 timeout_ns
  | LanguageFatal cause => _ ← Writer.u8 3; Writer.u8 (language_fatal_cause_tag cause)
  end.

Definition encode_event_kind (k : TestEventKind) (l : ProtocolLimits) : writer unit :=
  _ ← liftS (poll Cancelled);
  match k with
  | RunStarted test_count => _ ← Writer.u8 0; Writer.u32 test_count
  | TestStarted test => _ ← Writer.u8 1; Writer.u32 (test_id test)
  | Log test level message =>
      _ ← Writer.u8 2;
      _ ← match test with
          | None => Writer.u8 0
          | Some test => _ ← Writer.u8 1; Writer.u32 (test_id test)
          end;
      _ ← Writer.u8 (log_level_tag level);
      Writer.string_ message l
  | AssertionFailed test failure =>
      _ ← Writer.u8 3;
      _ ← Writer.u32 (test_id test);
      _ ← Writer.string_ (expression failure) l;
      _ ← Writer.optional_string (message failure) l;
      _ ← encode_source (source failure);
      _ ← Writer.optional_string (expected failure) l;
      Writer.optional_string (actual failure) l
  | TestFinished test outcome =>
      _ ← Writer.u8 4;
      _ ← Writer.u32 (test_id test);
      encode_outcome outcome l
  | Heartbeat monotonic_ticks => _ ← Writer.u8 5; Writer.u64 monotonic_ticks
  | RunFinished passed failed =>
      _ ← Writer.u8 6; _ ← Writer.u32 passed; Writer.u32 failed
  end.

Definition decode_test : reader (option TestId) :=
  tag ← Reader.u8;
  if tag =? 0 then mret None
  else if tag =? 1 then test ← Reader.u32; mret (Some {| test_id := test |})
  else liftS (Throw (InvalidTag "optional test" tag)).

Definition decode_source : reader (option Span) :=
  tag ← Reader.u8;
  if tag =? 0 then mret None
  else if tag =? 1 then
    id ← Reader.u32;
    start_ ← Reader.u32;
    end_ ← Reader.u32;
    range ← liftS (lift (map_err (fun _ => InvalidSourceRange start_ end_)
                      (TextRange_new start_ end_)));
    mret (Some {| file := {| file_id := id |}; range := range |})
  else liftS (Throw (InvalidTag "optional assertion source" tag)).

Definition decode_outcome : reader GuestTestOutcome :=
  tag ← Reader.u8;
  if tag =? 0 then mret Passed
  else if tag =? 1 then message ← Reader.string_; mret (Failed message)
  else if tag =? 2 then timeout_ns ← Reader.u64; mret (TimedOut timeout_ns)
  else if tag =? 3 then
    cause ← Reader.u8;
    cause ← liftS (lift (decode_language_fatal_cause cause));
    mret (LanguageFatal cause)
  else liftS (Throw (InvalidTag "guest outcome" tag)).

Definition decode_event_kind : reader TestEventKind :=
  tag ← Reader.u8;
  if tag =? 0 then test_count ← Reader.u32; mret (RunStarted test_count)
  else if tag =? 1 then test ← Reader.u32; mret (TestStarted {| test_id := test |})
  else if tag =? 2 then
    test ← decode_test;
    level ← Reader.u8;
    level ← liftS (lift (decode_log_level level));
    message ← Reader.string_;
    mret (Log test level message)
  else if tag =? 3 then
    test ← Reader.u32;
    expression ← Reader.string_;
    message ← Reader.optional_string "optional assertion message";
    source ← decode_source;
    expected ← Reader.optional_string "optional expected value";
    actual ← Reader.optional_string "optional actual value";
    mret (AssertionFailed {| test_id := test |}
      {| expression := expression; message := message; source := source;
         expected := expected; actual := actual |})
  else if tag =? 4 then
    test ← Reader.u32;
    outcome ← decode_outcome;
    mret (TestFinished {| test_id := test |} outcome)
  else if tag =? 5 then monotonic_ticks ← Reader.u64; mret (Heartbeat monotonic_ticks)
  else if tag =? 6 then
    passed ← Reader.u32; failed ← Reader.u32; mret (RunFinished passed failed)
  else liftS (Throw (InvalidTag "event" tag)).

(** ** Headers *)

Definition fixed_u32 (bytes : list byte) (offset : Z) : result ProtocolError Z :=
  end_ ← ok_or (checked_add usize offset 4) UnexpectedEnd;
  value ← ok_or (get_range bytes offset end_) UnexpectedEnd;
  mret (le_value value).
Definition fixed_u64 (bytes : list byte) (offset : Z) : result ProtocolError Z :=
  end_ ← ok_or (checked_add usize offset 8) UnexpectedEnd;
  value ← ok_or (get_range bytes offset end_) UnexpectedEnd;
  mret (le_value value).

Definition parse_header (frame : list byte) : result ProtocolError FrameHeader :=
  _ ← guard_err (len frame <? TEST_FRAME_HEADER_BYTES) UnexpectedEnd;
  _ ← guard_err (negb (bool_decide
        (get_range frame 0 (len TEST_FRAME_MAGIC) = Some TEST_FRAME_MAGIC))) InvalidMagic;
  frame_version ← fixed_u32 frame 8;
  event_version ← fixed_u32 frame 12;
  header_sequence ← fixed_u64 frame 16;
  payload_bytes ← fixed_u32 frame 24;
  checksum ← fixed_u32 frame 28;
  mret {| frame_version := frame_version; event_version := event_version;
          header_sequence := header_sequence; payload_bytes := payload_bytes;
          checksum := checksum |}.

Definition validate_frame_shape (frame : list byte) (header : FrameHeader) (l : ProtocolLimits)
    : prog ProtocolError unit :=
  _ ← poll Cancelled;
  _ ← lift (validate l);
  _ ← fail_if (len frame <? TEST_FRAME_HEADER_BYTES) UnexpectedEnd;
  _ ← fail_if (frame_bytes l <? len frame) (FrameTooLarge (frame_bytes l) (len frame));
  observed ← lift (parse_header frame);
  _ ← fail_if (negb (bool_decide (observed = header)))
        (NonCanonical "reported header differs from frame bytes");
  _ ← fail_if (negb (frame_version header =? TEST_FRAME_VERSION))
        (UnsupportedFrameVersion (frame_version header));
  _ ← fail_if (negb (event_version header =? TEST_EVENT_VERSION))
        (UnsupportedEventVersion (event_version header));
  _ ← fail_if (events l <=? header_sequence header)
        (EventLimit (events l) (header_sequence header));
  expected_frame_bytes ← lift (ok_or
        (checked_add usize TEST_FRAME_HEADER_BYTES (payload_bytes header))
        (FrameTooLarge (frame_bytes l) usize_max));
  _ ← fail_if (len frame <? expected_frame_bytes) UnexpectedEnd;
  _ ← fail_if (expected_frame_bytes <? len frame) TrailingBytes;
  _ ← fail_if (frame_bytes l <? expected_frame_bytes)
        (FrameTooLarge (frame_bytes l) expected_frame_bytes);
  payload ← lift (ok_or (get_range frame TEST_FRAME_HEADER_BYTES expected_frame_bytes)
                    UnexpectedEnd);
  computed ← crc32c_cancellable payload;
  fail_if (negb (computed =? checksum header)) InvalidChecksum.

(** ** [CanonicalTestEventCodec] *)

Definition header_bytes (header : FrameHeader) : list byte :=
  TEST_FRAME_MAGIC ++ u32_le (frame_version header) ++ u32_le (event_version header)
  ++ u64_le (header_sequence header) ++ u32_le (payload_bytes header)
  ++ u32_le (checksum header).

(** The writes of [encode] and the reads of [decode]. *)
Definition write_event (event : TestEvent) (l : ProtocolLimits) : writer unit :=
  _ ← Writer.u32 (protocol event);
  _ ← Writer.u64 (sequence event);
  encode_event_kind (kind event) l.
Definition read_event : reader TestEvent :=
  protocol ← Reader.u32;
  sequence ← Reader.u64;
  kind ← decode_event_kind;
  mret {| protocol := protocol; sequence := sequence; kind := kind |}.

Definition canonical_encode (event : TestEvent) (l : ProtocolLimits)
    : prog ProtocolError EncodedEventCandidate :=
  _ ← poll Cancelled;
  _ ← validate_event event l;
  payload_limit ← lift (ok_or (checked_sub (frame_bytes l) TEST_FRAME_HEADER_BYTES) InvalidLimits);
  '(_, payload) ← write_event event l (Writer.new payload_limit (frame_bytes l));
  _ ← poll Cancelled;
  let payload := Writer.finish payload in
  payload_bytes ← lift (ok_or (try_u32 (len payload))
                          (FrameTooLarge (frame_bytes l) (len payload)));
  checksum ← crc32c_cancellable payload;
  let header := {| frame_version := TEST_FRAME_VERSION; event_version := TEST_EVENT_VERSION;
                   header_sequence := sequence event; payload_bytes := payload_bytes;
                   checksum := checksum |} in
  capacity ← lift (ok_or (checked_add usize TEST_FRAME_HEADER_BYTES (len payload))
                     (FrameTooLarge (frame_bytes l) usize_max));
  _ ← fail_if (frame_bytes l <? capacity) (FrameTooLarge (frame_bytes l) capacity);
  _ ← try_reserve (ResourceLimit "encoded frame bytes" (frame_bytes l));
  mret {| candidate_header := header; candidate_bytes := header_bytes header ++ payload |}.

Definition canonical_inspect_header (frame : list byte) : prog ProtocolError FrameHeader :=
  _ ← poll Cancelled;
  lift (parse_header frame).

Definition canonical_decode (frame : list byte) (l : ProtocolLimits)
    : prog ProtocolError TestEvent :=
  _ ← poll Cancelled;
  _ ← lift (validate l);
  header ← lift (parse_header frame);
  _ ← validate_frame_shape frame header l;
  payload ← lift (ok_or (get_range frame TEST_FRAME_HEADER_BYTES (len frame)) UnexpectedEnd);
  '(event, reader) ← read_event (Reader.new payload l);
  _ ← Reader.finish reader;
  _ ← validate_event event l;
  _ ← fail_if (negb (protocol event =? event_version header)
               || negb (sequence event =? header_sequence header))
        (SequenceMismatch (header_sequence header) (sequence event));
  mret event.

#[export] Instance CanonicalTestEventCodec : TestEventCodec := {|
  encode := canonical_encode;
  inspect_header := canonical_inspect_header;
  decode := canonical_decode;
|}.

(** ** The chunked copy of a string *)

Lemma skip_continuation_spec bytes end_ :
  exists skipped rest, bytes = skipped ++ rest /\ starts_char rest
    /\ skip_continuation bytes end_ = end_ + len skipped.
Proof.
  revert end_. induction bytes as [|b bytes IH]; intros end_.
  { exists [], []. split_and!; [done..|]. simpl. unfold len. simpl. lia. }
  simpl. rewrite land_C0 by apply Z_of_byte_range. destruct (is_cont _) eqn:E.
  - destruct (IH (end_ + 1)) as (s & r & -> & Hr & ->). exists (b :: s), r.
    rewrite len_cons. split_and!; [done..|lia].
  - exists [], (b :: bytes). split_and!; [done..|]. unfold len. simpl. lia.
Qed.

(** A cut moves forward, stays inside the input and leaves no continuation byte
    behind it. *)
Lemma chunk_end_spec bytes o :
  0 <= o < len bytes ->
  o < chunk_end bytes o <= len bytes /\ starts_char (drop (Z.to_nat (chunk_end bytes o)) bytes).
Proof.
  intros Ho. unfold chunk_end.
  set (cut := Z.min _ _).
  assert (Hc : o < cut <= len bytes).
  { unfold cut, checked_add, CANCELLATION_POLL_BYTES. case_match; simpl; lia. }
  destruct (Z.ltb_spec cut (len bytes)) as [Hlt|Hge].
  - destruct (skip_continuation_spec (drop (Z.to_nat cut) bytes) cut) as (s & r & Hd & Hr & ->).
    pose proof (len_nonneg s).
    assert (Hl : len (drop (Z.to_nat cut) bytes) = len s + len r) by (rewrite Hd; apply len_app).
    unfold len in Hl at 1. rewrite length_drop in Hl. pose proof (len_nonneg r).
    split; [unfold len in *; lia|].
    replace (Z.to_nat (cut + len s)) with (Z.to_nat cut + length s)%nat by (unfold len in *; lia).
    by rewrite <- drop_drop, Hd, drop_app_length.
  - split; [lia|]. rewrite drop_ge; [done|unfold len in *; lia].
Qed.

Lemma copy_utf8_loop_spec fuel bytes o output :
  0 <= o <= len bytes -> len bytes - o <= Z.of_nat fuel ->
  quiet (copy_utf8_loop fuel bytes o output) =
    if utf8_valid (drop (Z.to_nat o) bytes)
    then Ok (output ++ drop (Z.to_nat o) bytes) else Err InvalidUtf8.
Proof.
  revert o output. induction fuel as [|fuel IH]; intros o output Ho Hf; cbn [copy_utf8_loop].
  all: destruct (Z.ltb_spec o (len bytes)) as [Hlt|Hge];
    [|rewrite drop_ge by (unfold len in *; lia); cbn; by rewrite app_nil_r].
  { lia. }
  destruct (chunk_end_spec bytes o ltac:(lia)) as [He Hs].
  set (e := chunk_end bytes o) in *.
  assert (Hd : drop (Z.to_nat o) bytes =
    take (Z.to_nat (e - o)) (drop (Z.to_nat o) bytes) ++ drop (Z.to_nat e) bytes).
  { rewrite <- (take_drop (Z.to_nat (e - o)) (drop (Z.to_nat o) bytes)) at 1.
    rewrite drop_drop. do 2 f_equal. lia. }
  rewrite quiet_bind, quiet_poll. cbn [mbind result_bind].
  rewrite quiet_bind, quiet_lift. unfold get_range at 1.
  rewrite (proj2 (Z.leb_le o e)), (proj2 (Z.leb_le e (len bytes))) by lia. cbn [andb ok_or mbind result_bind].
  rewrite quiet_bind, quiet_fail_if. set (chunk := take _ _) in *.
  rewrite Hd, utf8_valid_app by done.
  destruct (utf8_valid chunk); cbn [negb guard_err mbind result_bind andb]; [|done].
  rewrite IH by lia. rewrite <- app_assoc. done.
Qed.

Lemma quiet_copy_utf8 bytes :
  quiet (copy_utf8 bytes) = if utf8_valid bytes then Ok bytes else Err InvalidUtf8.
Proof.
  unfold copy_utf8. rewrite quiet_bind, quiet_try_reserve. cbn [mbind result_bind].
  rewrite quiet_bind, copy_utf8_loop_spec; unfold len; [|lia..].
  change (drop (Z.to_nat 0) bytes) with bytes. by destruct (utf8_valid bytes).
Qed.

(** Copying a string in pieces of 4096 bytes, each cut moved past the
    continuation bytes it would split, accepts and rejects exactly what
    validating the whole string at once does, and always comes to an end. *)
Theorem copy_utf8_is_from_utf8 bytes :
  quiet (copy_utf8 bytes) = if utf8_valid bytes then Ok bytes else Err InvalidUtf8.
Proof. apply quiet_copy_utf8. Qed.

(** ** What a writer appends

    [Writes P bs m]: undisturbed, [m] succeeds exactly when [P] holds and the
    payload limit leaves room for [bs], and it appends [bs]. *)

Definition appends (w : PayloadWriter) (bs : list byte) (w' : PayloadWriter) : Prop :=
  w' = {| written := written w ++ bs; payload_limit := payload_limit w; frame_limit := frame_limit w |}
  /\ len (written w ++ bs) <= payload_limit w.

Class Writes (P : Prop) (bs : list byte) (m : writer unit) : Prop :=
  writes w u w' : payload_limit w < 2 ^ usize ->
    quiet (m w) = Ok (u, w') <-> P /\ appends w bs w'.
#[export] Hint Mode Writes - - ! : typeclass_instances.
#[local] Typeclasses Opaque Writer.extend Writer.u8 Writer.u32 Writer.u64 Writer.string_
  Writer.optional_string encode_source encode_outcome.

Lemma appends_app w a b w' :
  appends w (a ++ b) w' <-> exists w1, appends w a w1 /\ appends w1 b w'.
Proof.
  unfold appends. split.
  - intros [-> Hl]. eexists. split; [split; [done|]|]; cbn.
    + rewrite !len_app in *. pose proof (len_nonneg b). lia.
    + by rewrite <- app_assoc.
  - intros (w1 & [-> _] & [-> Hl]). cbn in *. by rewrite app_assoc.
Qed.

#[export] Instance writes_bind P Q a b m n :
  Writes P a m -> Writes Q b n -> Writes (P /\ Q) (a ++ b) (m ≫= fun _ => n).
Proof.
  intros Hm Hn w u w' Hw. rewrite quietS_bind_Ok, appends_app. split.
  - intros (v & w1 & [HP H1]%Hm & H2); [|done]. apply Hn in H2 as [HQ H2].
    + eauto.
    + by destruct H1 as [-> _].
  - intros [[HP HQ] (w1 & H1 & H2)]. exists tt, w1. split; [by apply Hm|].
    apply Hn; [by destruct H1 as [-> _]|done].
Qed.

Lemma writes_eq P P' a a' m : Writes P a m -> (P <-> P') -> a = a' -> Writes P' a' m.
Proof. intros Hm HP <- w u w' Hw. rewrite <- HP. by apply Hm. Qed.

Lemma quiet_push_chunks output pieces :
  quiet (Writer.push_chunks output pieces) = Ok (output ++ concat pieces).
Proof.
  revert output. induction pieces as [|p ps IH]; intros output;
    cbn [Writer.push_chunks concat]; [by rewrite app_nil_r|].
  rewrite quiet_bind, quiet_poll. cbn [mbind result_bind]. by rewrite IH, <- app_assoc.
Qed.

#[export] Instance extend_writes value : Writes True value (Writer.extend value).
Proof.
  intros w [] w' Hw. unfold Writer.extend, appends. rewrite len_app. split.
  - intros H.
    apply quiet_bind_Ok in H as (n & Hn & H). rewrite quiet_lift in Hn.
    apply ok_or_Ok, checked_add_Some in Hn as [_ ->].
    apply quiet_bind_Ok in H as (? & Hf & H). rewrite quiet_fail_if in Hf. inv_ok. bool_to_prop.
    apply quiet_bind_Ok in H as (? & _ & H).
    apply quiet_bind_Ok in H as (out & Ho & H).
    rewrite quiet_push_chunks, concat_chunks in Ho by (vm_compute; lia). inv_ok.
    by injection H as <-.
  - intros (_ & -> & Hl). rewrite quiet_bind, quiet_lift. unfold checked_add.
    rewrite (proj2 (Z.ltb_lt _ _)) by lia. cbn [ok_or mbind result_bind].
    rewrite quiet_bind, quiet_fail_if, (proj2 (Z.ltb_ge _ _)) by lia.
    cbn [guard_err mbind result_bind].
    rewrite quiet_bind, quiet_try_reserve. cbn [mbind result_bind].
    rewrite quiet_bind, quiet_push_chunks, concat_chunks by (vm_compute; lia). done.
Qed.

#[export] Instance writer_u8_writes z : Writes True [byte_of_Z z] (Writer.u8 z).
Proof. apply extend_writes. Qed.
#[export] Instance writer_u32_writes z : Writes True (u32_le z) (Writer.u32 z).
Proof. apply extend_writes. Qed.
#[export] Instance writer_u64_writes z : Writes True (u64_le z) (Writer.u64 z).
Proof. apply extend_writes. Qed.

Definition string_fits (l : ProtocolLimits) (s : str) : Prop :=
  len s <= string_bytes l /\ len s <= u32_max.
Definition optional_fits (l : ProtocolLimits) (o : option str) : Prop :=
  match o with Some s => string_fits l s | None => True end.

Definition optional_layout {A} (enc : A -> list byte) (o : option A) : list byte :=
  match o with None => [byte_of_Z 0] | Some a => [byte_of_Z 1] ++ enc a end.

Lemma writes_guard {A} (r : result ProtocolError A) (P : A -> Prop) Q bs f :
  (forall a, r = Ok a -> Writes (P a) bs (f a)) ->
  (Q <-> exists a, r = Ok a /\ P a) ->
  Writes Q bs (liftS (lift r) ≫= f).
Proof.
  intros Hf HQ w u w' Hw. rewrite quietS_bind_Ok. split.
  - intros (a & w1 & [Hr ->]%quiet_liftS_Ok & H). rewrite quiet_lift in Hr.
    apply (Hf a Hr) in H as [HP H]; [|done]. split; [apply HQ; eauto|done].
  - intros [(a & Hr & HP)%HQ H]. exists a, w.
    rewrite quiet_liftS_Ok, quiet_lift. split; [done|]. by apply (Hf a Hr).
Qed.

Lemma lift_guard {E} bad (e : E) : fail_if bad e = lift (guard_err bad e).
Proof. by destruct bad. Qed.

#[export] Instance writer_string_writes l s :
  Writes (string_fits l s) (counted s) (Writer.string_ s l).
Proof.
  unfold Writer.string_, string_fits.
  apply (writes_guard _ (fun n => n <= string_bytes l /\ n = len s)).
  - intros n [Hn ->]%ok_or_Ok%try_u32_Some.
    rewrite lift_guard. apply (writes_guard _ (fun _ => True)).
    + intros _ _. eapply writes_eq; [apply _|tauto|done].
    + split.
      * intros [Hs _]. exists tt. split; [by apply guard_err_Ok, Z.ltb_ge|done].
      * intros (? & Hs%guard_err_Ok%Z.ltb_ge & _). done.
  - split.
    + intros [Hs Hn]. exists (len s). split; [|done]. by apply ok_or_Ok, try_u32_Some.
    + intros (n & [Hn ->]%ok_or_Ok%try_u32_Some & Hs & _). done.
Qed.

#[export] Instance writer_optional_writes l o :
  Writes (optional_fits l o) (optional_layout counted o) (Writer.optional_string o l).
Proof.
  destruct o; unfold Writer.optional_string; (eapply writes_eq; [apply _|simpl; tauto|done]).
Qed.

Definition span_layout (s : Span) : list byte :=
  u32_le (file_id (file s)) ++ u32_le (start_ (range s)) ++ u32_le (end_ (range s)).
Definition test_layout (t : TestId) : list byte := u32_le (test_id t).

Definition outcome_layout (o : GuestTestOutcome) : list byte :=
  match o with
  | Passed => [byte_of_Z 0]
  | Failed message => [byte_of_Z 1] ++ counted message
  | TimedOut timeout_ns => [byte_of_Z 2] ++ u64_le timeout_ns
  | LanguageFatal cause => [byte_of_Z 3] ++ [byte_of_Z (language_fatal_cause_tag cause)]
  end.
Definition outcome_fits (l : ProtocolLimits) (o : GuestTestOutcome) : Prop :=
  match o with Failed message => string_fits l message | _ => True end.

Definition failure_layout (f : AssertionFailure) : list byte :=
  counted (expression f) ++ optional_layout counted (message f)
  ++ optional_layout span_layout (source f)
  ++ optional_layout counted (expected f) ++ optional_layout counted (actual f).
Definition failure_fits (l : ProtocolLimits) (f : AssertionFailure) : Prop :=
  string_fits l (expression f) /\ optional_fits l (message f)
  /\ optional_fits l (expected f) /\ optional_fits l (actual f).

(** The wire form of an event kind. *)
Definition kind_layout (k : TestEventKind) : list byte :=
  match k with
  | RunStarted test_count => [byte_of_Z 0] ++ u32_le test_count
  | TestStarted test => [byte_of_Z 1] ++ test_layout test
  | Log test level message =>
      [byte_of_Z 2] ++ optional_layout test_layout test
      ++ [byte_of_Z (log_level_tag level)] ++ counted message
  | AssertionFailed test failure => [byte_of_Z 3] ++ test_layout test ++ failure_layout failure
  | TestFinished test outcome => [byte_of_Z 4] ++ test_layout test ++ outcome_layout outcome
  | Heartbeat monotonic_ticks => [byte_of_Z 5] ++ u64_le monotonic_ticks
  | RunFinished passed failed => [byte_of_Z 6] ++ u32_le passed ++ u32_le failed
  end.
Definition kind_fits (l : ProtocolLimits) (k : TestEventKind) : Prop :=
  match k with
  | Log _ _ message => string_fits l message
  | AssertionFailed _ failure => failure_fits l failure
  | TestFinished _ outcome => outcome_fits l outcome
  | _ => True
  end.

#[export] Instance encode_source_writes o :
  Writes True (optional_layout span_layout o) (encode_source o).
Proof. destruct o; unfold encode_source; (eapply writes_eq; [apply _|tauto|done]). Qed.

#[export] Instance encode_outcome_writes l o :
  Writes (outcome_fits l o) (outcome_layout o) (encode_outcome o l).
Proof. destruct o; unfold encode_outcome; (eapply writes_eq; [apply _|simpl; tauto|done]). Qed.

#[export] Instance encode_test_writes (test : option TestId) :
  Writes True (optional_layout test_layout test)
    match test with
    | None => Writer.u8 0
    | Some test => _ ← Writer.u8 1; Writer.u32 (test_id test)
    end.
Proof. destruct test; (eapply writes_eq; [apply _|tauto|done]). Qed.

Lemma writes_poll P bs m : Writes P bs m -> Writes P bs (liftS (poll Cancelled) ≫= fun _ => m).
Proof.
  intros Hm w u w' Hw. rewrite quietS_bind, quiet_liftS, quiet_poll.
  cbn [fmap result_fmap mbind result_bind]. by apply Hm.
Qed.

#[export] Instance encode_event_kind_writes k l :
  Writes (kind_fits l k) (kind_layout k) (encode_event_kind k l).
Proof.
  unfold encode_event_kind. apply writes_poll.
  destruct k; (eapply writes_eq; [apply _|simpl; unfold failure_fits; tauto|done]).
Qed.

(** ** What a reader accepts

    [Reads wf enc get]: undisturbed, [get] accepts precisely the encodings
    [enc a] of the values satisfying [wf], and consumes nothing else. *)

Definition reader_ok (r : PayloadReader) : Prop :=
  0 <= offset r /\ len (reader_bytes r) < 2 ^ usize.

Record consumes (r : PayloadReader) (bs : list byte) (r' : PayloadReader) : Prop := {
  consumes_ok : reader_ok r;
  consumes_end : r' = {| reader_bytes := reader_bytes r; offset := offset r + len bs;
                         reader_limits := reader_limits r |};
  consumes_inside : offset r + len bs <= len (reader_bytes r);
  consumes_bytes : exists rest, drop (Z.to_nat (offset r)) (reader_bytes r) = bs ++ rest;
}.

Lemma consumes_next r bs r' : consumes r bs r' -> reader_ok r'.
Proof. intros [[? ?] -> ? _]. split; [|done]. cbn. pose proof (len_nonneg bs). lia. Qed.
Lemma consumes_limits r bs r' : consumes r bs r' -> reader_limits r' = reader_limits r.
Proof. by intros [_ -> _ _]. Qed.
#[export] Hint Resolve consumes_ok consumes_next : wrela.

Lemma consumes_app r a b r' :
  consumes r (a ++ b) r' <-> exists r1, consumes r a r1 /\ consumes r1 b r'.
Proof.
  pose proof (len_nonneg a). pose proof (len_nonneg b). split.
  - intros [Hr -> Hl (rest & Hd)]. rewrite len_app in *. unfold reader_ok in *.
    eexists. split; [split; [done|done|lia|exists (b ++ rest); by rewrite app_assoc]|].
    split; cbn; [split; cbn; [lia|apply Hr]|f_equal; lia|lia|]. exists rest.
    replace (Z.to_nat (offset r + len a)) with (Z.to_nat (offset r) + length a)%nat
      by (unfold len; lia).
    by rewrite <- drop_drop, Hd, <- app_assoc, drop_app_length.
  - intros (r1 & [Hr -> Ha (ra & Hda)] & [_ -> Hb (rb & Hdb)]). cbn in *. unfold reader_ok in *.
    split; [done|rewrite len_app; f_equal; lia|rewrite len_app; lia|]. exists rb.
    replace (Z.to_nat (offset r + len a)) with (Z.to_nat (offset r) + length a)%nat in Hdb
      by (unfold len; lia).
    rewrite <- drop_drop, Hda, drop_app_length in Hdb. by rewrite Hda, Hdb, app_assoc.
Qed.

Class Reads {A} (wf : ProtocolLimits -> A -> Prop) (enc : A -> list byte) (get : reader A) : Prop :=
  reads r a r' : reader_ok r ->
    quiet (get r) = Ok (a, r') <-> consumes r (enc a) r' /\ wf (reader_limits r) a.
#[export] Hint Mode Reads + - - ! : typeclass_instances.

Lemma reads_then {A B} wf enc (m : reader A) `{!Reads wf enc m} (f : A -> reader B) r b r' :
  reader_ok r ->
  quiet ((m ≫= f) r) = Ok (b, r') <->
  exists a r1, consumes r (enc a) r1 /\ wf (reader_limits r) a /\ quiet (f a r1) = Ok (b, r').
Proof.
  intros Hr. rewrite quietS_bind_Ok. split.
  - intros (a & r1 & [H1 H2]%reads & H); [eauto|done].
  - intros (a & r1 & H1 & H2 & H). exists a, r1. split; [by apply reads|done].
Qed.

Lemma reads_lift {A B} (c : result ProtocolError A) (f : A -> reader B) r b r' :
  quiet ((liftS (lift c) ≫= f) r) = Ok (b, r') <->
  exists a, c = Ok a /\ quiet (f a r) = Ok (b, r').
Proof.
  rewrite quietS_bind_Ok. split.
  - intros (a & r1 & [Ha ->]%quiet_liftS_Ok & H). rewrite quiet_lift in Ha. eauto.
  - intros (a & Ha & H). exists a, r. by rewrite quiet_liftS_Ok, quiet_lift.
Qed.

Lemma reads_mret {A} (a b : A) (r r' : PayloadReader) :
  quiet ((mret a : reader A) r) = Ok (b, r') <-> b = a /\ r' = r.
Proof. unfold mret, stateT_ret. cbn. naive_solver. Qed.

Lemma reads_throw {A} (e : ProtocolError) r (b : A) r' :
  quiet ((liftS (Throw e) : reader A) r) = Ok (b, r') <-> False.
Proof. done. Qed.


Lemma reader_take_reads n : 0 <= n ->
  Reads (fun _ bs => len bs = n) (fun bs => bs) (Reader.take n).
Proof.
  intros Hn r bs r' [Ho Hl]. unfold Reader.take. split.
  - intros H. apply quiet_bind_Ok in H as ([] & _ & H).
    apply quiet_bind_Ok in H as (e & He & H). rewrite quiet_lift in He.
    apply ok_or_Ok, checked_add_Some in He as [_ ->].
    apply quiet_bind_Ok in H as (v & Hv & H). rewrite quiet_lift in Hv.
    apply ok_or_Ok, get_range_Some in Hv as (Hv & Hin & Hd); [|done..].
    injection H as <- <-. subst n. by repeat split.
  - intros [[_ -> Hin Hd] Hlen]. rewrite Hlen in Hin. rewrite quiet_bind, quiet_poll.
    cbn [mbind result_bind]. rewrite quiet_bind, quiet_lift. unfold checked_add.
    rewrite (proj2 (Z.ltb_lt _ _)) by lia. cbn [ok_or mbind result_bind].
    rewrite quiet_bind, quiet_lift, (proj2 (get_range_Some _ _ _ bs Ho Hn)) by done.
    cbn. by rewrite Hlen.
Qed.

#[export] Instance reader_u8_reads :
  Reads (fun _ z => 0 <= z < 256) (fun z => [byte_of_Z z]) Reader.u8.
Proof.
  intros r z r' Hr. unfold Reader.u8.
  rewrite (reads_then _ _ _ (Reads0 := reader_take_reads 1 ltac:(lia))) by done. split.
  - intros (bs & r1 & Hc & Hl & H).
    apply quiet_liftS_Ok in H as [H ->]. rewrite quiet_lift in H. apply ok_or_Ok in H.
    destruct bs as [|b [|? ?]]; [done| |unfold len in Hl; simpl in Hl; lia].
    injection H as <-. rewrite byte_of_Z_of_byte. split; [done|apply Z_of_byte_range].
  - intros [Hc Hz]. exists [byte_of_Z z], r'. split_and!; [done..|].
    apply quiet_liftS_Ok. rewrite quiet_lift. cbn. by rewrite Z_of_byte_of_Z, Z.mod_small.
Qed.

Lemma reader_fixed n :
  Reads (fun _ z => 0 <= z < 256 ^ Z.of_nat n) (le_bytes n)
    (value ← Reader.take (Z.of_nat n); mret (le_value value)).
Proof.
  intros r z r' Hr. rewrite (reads_then _ _ _ (Reads0 := reader_take_reads (Z.of_nat n) ltac:(lia))) by done.
  split.
  - intros (bs & r1 & Hc & Hl & [-> ->]%reads_mret).
    assert (length bs = n) as <- by (unfold len in Hl; lia).
    rewrite le_bytes_value. split; [done|apply le_value_bounds].
  - intros [Hc Hz]. exists (le_bytes n z), r'. split_and!; [done|apply len_le_bytes|].
    apply reads_mret. by rewrite le_value_bytes.
Qed.

Definition u32_ok (z : Z) : Prop := 0 <= z < 2 ^ 32.
Definition u64_ok (z : Z) : Prop := 0 <= z < 2 ^ 64.

#[export] Instance reader_u32_reads : Reads (fun _ => u32_ok) u32_le Reader.u32.
Proof. exact (reader_fixed 4). Qed.
#[export] Instance reader_u64_reads : Reads (fun _ => u64_ok) u64_le Reader.u64.
Proof. exact (reader_fixed 8). Qed.

Definition string_ok (l : ProtocolLimits) (s : str) : Prop :=
  utf8_valid s = true /\ string_fits l s.

#[export] Instance reader_string_reads : Reads string_ok counted Reader.string_.
Proof.
  intros r s r' Hr. unfold Reader.string_, string_ok, string_fits, counted. split.
  - intros H. apply quiet_bind_Ok in H as ([n r1] & Hn & H).
    apply (reads (get := Reader.u32)) in Hn as [Hn Hz]; [|done].
    apply quiet_bind_Ok in H as ([] & Hf & H). rewrite quiet_fail_if in Hf. inv_ok. bool_to_prop.
    apply quiet_bind_Ok in H as ([bs r2] & Ht & H).
    apply (reads (Reads := reader_take_reads n (proj1 Hz))) in Ht as [Ht Hl]; [|eauto with wrela].
    apply quiet_bind_Ok in H as (s' & Hs & H). rewrite quiet_copy_utf8 in Hs.
    destruct (utf8_valid bs) eqn:E; [|done]. injection Hs as <-. injection H as <- <-.
    rewrite (consumes_limits _ _ _ Hn) in *. subst n. unfold u32_ok, u32_max in *.
    split; [|split; [done|lia]]. apply consumes_app. eauto.
  - intros [(r1 & Hn & Ht)%consumes_app (Hu & Hs & Hm)].
    assert (Hz : u32_ok (len s)) by (pose proof (len_nonneg s); unfold u32_ok, u32_max in *; lia).
    rewrite quiet_bind, (proj2 (reads (get := Reader.u32) r (len s) r1 Hr)) by done.
    cbn [mbind result_bind].
    rewrite quiet_bind, quiet_fail_if, (consumes_limits _ _ _ Hn), (proj2 (Z.ltb_ge _ _)) by done.
    cbn [guard_err mbind result_bind]. rewrite quiet_bind.
    rewrite (proj2 (reads (Reads := reader_take_reads (len s) (proj1 Hz)) r1 s r'
      ltac:(eauto with wrela))) by done.
    cbn [mbind result_bind]. rewrite quiet_bind, quiet_copy_utf8, Hu. done.
Qed.

(** Express every limit by the limits of the first reader. *)
Ltac same_limits :=
  repeat match goal with
  | Hc : consumes ?r _ ?r1, H : context [reader_limits ?r1] |- _ =>
      rewrite (consumes_limits _ _ _ Hc) in H
  | Hc : consumes ?r _ ?r1 |- context [reader_limits ?r1] =>
      rewrite (consumes_limits _ _ _ Hc)
  end.

(** Take a successful read apart, along its tag tests. *)
Ltac unread H :=
  repeat match type of H with
  | quiet ((if ?t =? ?k then _ else _) _) = _ => destruct (Z.eqb_spec t k); [subst t|]
  | quiet ((liftS (lift _) ≫= _) _) = Ok _ => apply reads_lift in H as (? & ? & H)
  | quiet ((?m ≫= _) ?r) = Ok _ =>
      let Hr := fresh in assert (Hr : reader_ok r) by eauto with wrela;
      apply (reads_then _ _ m _ r _ _ Hr) in H; clear Hr;
      destruct H as (? & ? & ? & ? & H)
  | quiet (mret _ _) = Ok _ => apply reads_mret in H as [-> ->]
  | quiet (liftS (Throw _) _) = Ok _ => discriminate H
  end.

(** Glue the consumed pieces together. *)
Ltac glue :=
  repeat match goal with
  | |- consumes _ (_ ++ _) _ => apply consumes_app; eexists; split; [eassumption|]
  end; eassumption.

(** Replay the reads of an encoding. *)
Ltac reread H :=
  repeat match type of H with
  | consumes _ (_ ++ _) _ => apply consumes_app in H as (? & ? & H)
  end; same_limits;
  repeat match goal with
  | |- quiet ((liftS (lift _) ≫= _) _) = Ok _ => apply reads_lift; eexists; split; [eassumption|]
  | |- quiet ((?m ≫= _) ?r) = Ok _ =>
      apply (reads_then _ _ m _ r); [solve [eauto with wrela]|];
      do 2 eexists; split; [eassumption|split; [same_limits; first [eassumption | lia]|cbn [Z.eqb Pos.eqb]]]
  | |- quiet (mret _ _) = Ok _ => apply reads_mret; split; [|reflexivity]
  end.

Definition option_ok {A} (P : A -> Prop) (o : option A) : Prop :=
  match o with Some a => P a | None => True end.
Definition test_ok (t : TestId) : Prop := u32_ok (test_id t).
Definition span_ok (s : Span) : Prop :=
  u32_ok (file_id (file s)) /\ u32_ok (start_ (range s)) /\ u32_ok (end_ (range s))
  /\ start_ (range s) <= end_ (range s).

#[export] Instance optional_string_reads k :
  Reads (fun l => option_ok (string_ok l)) (optional_layout counted) (Reader.optional_string k).
Proof.
  intros r o r' Hr. unfold Reader.optional_string. split.
  - intros H. unread H; same_limits; cbn [option_ok optional_layout]; (split; [|done]); [done|glue].
  - intros [H Ho]. destruct o as [s|]; cbn [option_ok optional_layout] in *; by reread H.
Qed.

#[export] Instance decode_test_reads :
  Reads (fun _ => option_ok test_ok) (optional_layout test_layout) decode_test.
Proof.
  intros r o r' Hr. unfold decode_test, test_layout, test_ok. split.
  - intros H. unread H; cbn [option_ok optional_layout]; (split; [|done]); [done|glue].
  - intros [H Ho]. destruct o as [[t]|]; cbn [option_ok optional_layout test_id] in *; by reread H.
Qed.

Lemma TextRange_new_Ok a b r :
  TextRange_new a b = Ok r <-> r = {| start_ := a; end_ := b |} /\ a <= b.
Proof. unfold TextRange_new. destruct (Z.ltb_spec b a); naive_solver lia. Qed.

#[export] Instance decode_source_reads :
  Reads (fun _ => option_ok span_ok) (optional_layout span_layout) decode_source.
Proof.
  intros r o r' Hr. unfold decode_source, span_layout, span_ok. split.
  - intros H. unread H; [by split|].
    match goal with Hm : map_err _ _ = Ok _ |- _ =>
      apply map_err_Ok, TextRange_new_Ok in Hm as [-> ?] end.
    cbn [option_ok optional_layout file file_id range start_ end_]. split; [glue|done].
  - intros [H Ho]. destruct o as [[[i] [a b]]|];
      cbn [option_ok optional_layout file file_id range start_ end_] in *; [|by reread H].
    destruct Ho as (? & ? & ? & ?).
    assert (map_err (fun _ => InvalidSourceRange a b) (TextRange_new a b)
      = Ok {| start_ := a; end_ := b |}) by (by apply map_err_Ok, TextRange_new_Ok).
    reread H. done.
Qed.

Lemma decode_log_level_Ok t l : decode_log_level t = Ok l <-> t = log_level_tag l.
Proof.
  unfold decode_log_level. split.
  - repeat case_match; try done; intros [= <-]; bool_to_prop; done.
  - intros ->. by destruct l.
Qed.
Lemma decode_language_fatal_cause_Ok t c :
  decode_language_fatal_cause t = Ok c <-> t = language_fatal_cause_tag c.
Proof.
  unfold decode_language_fatal_cause. split.
  - repeat case_match; try done; intros [= <-]; bool_to_prop; done.
  - intros ->. by destruct c.
Qed.
Lemma log_level_tag_range l : 0 <= log_level_tag l < 256.
Proof. destruct l; simpl; lia. Qed.
Lemma language_fatal_cause_tag_range c : 0 <= language_fatal_cause_tag c < 256.
Proof. destruct c; simpl; lia. Qed.

Definition outcome_ok (l : ProtocolLimits) (o : GuestTestOutcome) : Prop :=
  match o with
  | Failed message => string_ok l message
  | TimedOut timeout_ns => u64_ok timeout_ns
  | _ => True
  end.

#[export] Instance decode_outcome_reads : Reads outcome_ok outcome_layout decode_outcome.
Proof.
  intros r o r' Hr. unfold decode_outcome. split.
  - intros H. unread H; same_limits; cbn [outcome_ok outcome_layout]; try (split; [glue|done]).
    match goal with Hm : decode_language_fatal_cause _ = Ok _ |- _ =>
        apply decode_language_fatal_cause_Ok in Hm as -> end. split; [glue|done].
  - intros [H Ho]. destruct o as [|m|t|c]; cbn [outcome_ok outcome_layout] in *; try by reread H.
    pose proof (language_fatal_cause_tag_range c).
    pose proof (proj2 (decode_language_fatal_cause_Ok _ c) eq_refl). by reread H.
Qed.

Definition failure_ok (l : ProtocolLimits) (f : AssertionFailure) : Prop :=
  string_ok l (expression f) /\ option_ok (string_ok l) (message f)
  /\ option_ok span_ok (source f)
  /\ option_ok (string_ok l) (expected f) /\ option_ok (string_ok l) (actual f).

Definition kind_ok (l : ProtocolLimits) (k : TestEventKind) : Prop :=
  match k with
  | RunStarted test_count => u32_ok test_count
  | TestStarted test => test_ok test
  | Log test _ message => option_ok test_ok test /\ string_ok l message
  | AssertionFailed test failure => test_ok test /\ failure_ok l failure
  | TestFinished test outcome => test_ok test /\ outcome_ok l outcome
  | Heartbeat monotonic_ticks => u64_ok monotonic_ticks
  | RunFinished passed failed => u32_ok passed /\ u32_ok failed
  end.

#[export] Instance decode_event_kind_reads : Reads kind_ok kind_layout decode_event_kind.
Proof.
  intros r k r' Hr. unfold decode_event_kind. split.
  - intros H. unread H; same_limits; cbn [kind_ok kind_layout];
      try match goal with Hm : decode_log_level _ = Ok _ |- _ =>
        apply decode_log_level_Ok in Hm as -> end;
      unfold failure_layout, failure_ok, test_ok, test_layout;
      cbn [test_id expression message source expected actual]; (split; [glue|by split_and?]).
  - intros [H Ho]. destruct k as [n|[t]|t l m|[t] [fe fm fs fx fa]|[t] o|n|p f];
      cbn [kind_ok kind_layout] in *;
      unfold failure_layout, failure_ok, test_ok, test_layout in *;
      cbn [test_id expression message source expected actual] in *; destruct_and? Ho;
      try (pose proof (log_level_tag_range l); pose proof (proj2 (decode_log_level_Ok _ l) eq_refl));
      by reread H.
Qed.

(** ** Typed events and the frame of an event *)

(** The invariants of the Rust types of an event: integers in range, valid
    UTF-8. *)
Definition span_typed (s : Span) : Prop :=
  u32_ok (file_id (file s)) /\ u32_ok (start_ (range s)) /\ u32_ok (end_ (range s)).
Definition text_typed (s : str) : Prop := utf8_valid s = true.
Definition outcome_typed (o : GuestTestOutcome) : Prop :=
  match o with
  | Failed message => text_typed message
  | TimedOut timeout_ns => u64_ok timeout_ns
  | _ => True
  end.
Definition failure_typed (f : AssertionFailure) : Prop :=
  text_typed (expression f) /\ option_ok text_typed (message f)
  /\ option_ok span_typed (source f)
  /\ option_ok text_typed (expected f) /\ option_ok text_typed (actual f).
Definition kind_typed (k : TestEventKind) : Prop :=
  match k with
  | RunStarted test_count => u32_ok test_count
  | TestStarted test => test_ok test
  | Log test _ message => option_ok test_ok test /\ text_typed message
  | AssertionFailed test failure => test_ok test /\ failure_typed failure
  | TestFinished test outcome => test_ok test /\ outcome_typed outcome
  | Heartbeat monotonic_ticks => u64_ok monotonic_ticks
  | RunFinished passed failed => u32_ok passed /\ u32_ok failed
  end.
Record event_typed (e : TestEvent) : Prop := {
  typed_protocol : u32_ok (protocol e);
  typed_sequence : u64_ok (sequence e);
  typed_kind : kind_typed (kind e);
}.

Definition source_ordered (k : TestEventKind) : Prop :=
  match k with
  | AssertionFailed _ failure =>
      option_ok (fun s => start_ (range s) <= end_ (range s)) (source failure)
  | _ => True
  end.

Lemma kind_ok_typed l k : kind_ok l k <-> kind_typed k /\ kind_fits l k /\ source_ordered k.
Proof.
  destruct k as [| |? ? ?|? [? [?|] [?|] [?|] [?|]]|? []| |];
    unfold kind_ok, kind_typed, kind_fits, source_ordered, failure_ok, failure_typed, failure_fits,
      outcome_ok, outcome_typed, outcome_fits, string_ok, text_typed, span_ok, span_typed;
    cbn [option_ok optional_fits TestEvents.expression TestEvents.message TestEvents.source
         TestEvents.expected TestEvents.actual]; tauto.
Qed.

Lemma validate_string_Ok l s u : limits_ok l -> validate_string l s = Ok u -> string_fits l s.
Proof.
  intros [? ? ? ?] H. unfold validate_string in H. inv_ok. bool_to_prop.
  unfold string_fits, u32_max, MAX_PROTOCOL_STRING_BYTES in *. lia.
Qed.

Lemma validate_failure_fits f l :
  limits_ok l -> quiet (validate_failure f l) = Ok tt -> failure_fits l f.
Proof.
  unfold validate_failure, failure_fits. intros Hl H.
  apply quiet_bind_Ok in H as ([] & H1 & H). rewrite quiet_lift in H1.
  apply quiet_bind_Ok in H as (? & _ & H).
  apply quiet_bind_Ok in H as ([] & _ & H).
  apply quiet_bind_Ok in H as ([] & H2 & _). rewrite quiet_lift in H2.
  apply validate_string_Ok in H1; [|done].
  destruct (message f), (expected f), (actual f); cbn in H2; inv_ok;
    split_and!; try done; by eapply validate_string_Ok.
Qed.

Lemma validate_event_fits e l :
  quiet (validate_event e l) = Ok tt -> kind_fits l (kind e) /\ source_ordered (kind e).
Proof.
  intros H. pose proof (validate_event_Ok _ _ H) as (Hl & _ & _).
  split; [|destruct (kind e) eqn:E; try done; cbn; destruct (source failure) eqn:Es; [|done];
           by eapply validate_event_source].
  unfold validate_event in H. do 4 apply quiet_bind_Ok in H as (? & _ & H).
  destruct (kind e) as [| |? ? m|? f|? []| |]; try done.
  - apply quiet_bind_Ok in H as (u & Hs & _). rewrite quiet_lift in Hs.
    by eapply validate_string_Ok.
  - by apply validate_failure_fits.
  - apply quiet_bind_Ok in H as (u & Hs & _). rewrite quiet_lift in Hs.
    by eapply validate_string_Ok.
Qed.

Definition event_payload (e : TestEvent) : list byte :=
  u32_le (protocol e) ++ u64_le (sequence e) ++ kind_layout (kind e).
Definition event_header (e : TestEvent) : FrameHeader :=
  {| frame_version := TEST_FRAME_VERSION; event_version := TEST_EVENT_VERSION;
     header_sequence := sequence e; payload_bytes := len (event_payload e);
     checksum := crc32c (event_payload e) |}.
Definition event_frame (e : TestEvent) : list byte :=
  header_bytes (event_header e) ++ event_payload e.

Lemma len_header_bytes h : len (header_bytes h) = TEST_FRAME_HEADER_BYTES.
Proof. unfold header_bytes. autorewrite with wrela_simpl. done. Qed.

Lemma len_event_frame e : len (event_frame e) = TEST_FRAME_HEADER_BYTES + len (event_payload e).
Proof. unfold event_frame. by rewrite len_app, len_header_bytes. Qed.

#[export] Instance write_event_writes e l :
  Writes (kind_fits l (kind e)) (event_payload e) (write_event e l).
Proof. unfold write_event. eapply writes_eq; [apply _|tauto|done]. Qed.

Lemma canonical_encode_inv e l c :
  quiet (canonical_encode e l) = Ok c ->
  quiet (validate_event e l) = Ok tt /\ len (event_frame e) <= frame_bytes l
  /\ c = {| candidate_header := event_header e; candidate_bytes := event_frame e |}.
Proof.
  rewrite len_event_frame. unfold canonical_encode. intros H. quiet_inv H.
  rename x into v, Hrun into Hv. destruct v.
  pose proof (validate_event_Ok _ _ Hv) as ([Hf _ _ _ _] & _).
  apply ok_or_Ok, checked_sub_Some in Hlift as [_ ->]. destruct x1 as [u w].
  apply (writes (m := write_event e l)) in Hrun0 as [_ [-> Hlen]];
    [|cbn; unfold TEST_FRAME_HEADER_BYTES, MAX_PROTOCOL_FRAME_BYTES, usize in *; lia].
  cbn [Writer.finish Writer.new written payload_limit app] in *.
  quiet_inv H. apply ok_or_Ok, try_u32_Some in Hlift as [_ ->].
  rewrite quiet_crc32c in Hrun. injection Hrun as <-.
  apply ok_or_Ok, checked_add_Some in Hlift0 as [_ ->]. by bool_to_prop.
Qed.

Lemma canonical_encode_run e l :
  quiet (validate_event e l) = Ok tt -> len (event_frame e) <= frame_bytes l ->
  quiet (canonical_encode e l) =
    Ok {| candidate_header := event_header e; candidate_bytes := event_frame e |}.
Proof.
  rewrite len_event_frame. intros Hv Hlen. unfold canonical_encode.
  pose proof (validate_event_Ok _ _ Hv) as ([Hf _ _ _ _] & _).
  destruct (validate_event_fits _ _ Hv) as [Hfits _].
  pose proof (len_nonneg (event_payload e)).
  unfold TEST_FRAME_HEADER_BYTES, MAX_PROTOCOL_FRAME_BYTES in Hf, Hlen.
  rewrite run_poll, (run_ok _ _ tt Hv).
  erewrite run_ok_or by (apply checked_sub_Some; unfold TEST_FRAME_HEADER_BYTES; split; [lia|done]).
  erewrite run_ok by (apply (writes (m := write_event e l) _ tt); [cbn; unfold TEST_FRAME_HEADER_BYTES, usize; lia|];
    split; [done|]; split; [reflexivity|cbn; unfold TEST_FRAME_HEADER_BYTES; lia]).
  cbn [Writer.finish Writer.new written payload_limit app]. rewrite run_poll.
  erewrite run_ok_or by (apply try_u32_Some; unfold u32_max; split; [lia|done]).
  rewrite (run_ok _ _ _ (quiet_crc32c _)).
  erewrite run_ok_or by (apply checked_add_Some; unfold TEST_FRAME_HEADER_BYTES, usize; split; [lia|done]).
  rewrite run_fail_if by (apply Z.ltb_ge; unfold TEST_FRAME_HEADER_BYTES; lia).
  by rewrite run_try_reserve.
Qed.

(** Encoding succeeds exactly on valid events whose frame fits. *)
Lemma canonical_encode_Ok e l c :
  quiet (canonical_encode e l) = Ok c <->
  quiet (validate_event e l) = Ok tt /\ len (event_frame e) <= frame_bytes l
  /\ c = {| candidate_header := event_header e; candidate_bytes := event_frame e |}.
Proof.
  split; [apply canonical_encode_inv|]. intros (Hv & Hlen & ->). by apply canonical_encode_run.
Qed.

(** ** Headers *)

Record header_typed (h : FrameHeader) : Prop := {
  typed_frame_version : u32_ok (frame_version h);
  typed_event_version : u32_ok (event_version h);
  typed_header_sequence : u64_ok (header_sequence h);
  typed_payload_bytes : u32_ok (payload_bytes h);
  typed_checksum : u32_ok (checksum h);
}.

Lemma fixed_u32_at l pre x post o :
  l = pre ++ x ++ post -> len pre = o -> len x = 4 -> o < 2 ^ 32 ->
  fixed_u32 l o = Ok (le_value x).
Proof.
  intros Hl Ho Hx Hb. unfold fixed_u32. unfold checked_add.
  rewrite (proj2 (Z.ltb_lt _ _)) by (unfold usize; lia). cbn [ok_or mbind result_bind].
  by rewrite (get_range_app l pre x post) by (done || lia).
Qed.
Lemma fixed_u64_at l pre x post o :
  l = pre ++ x ++ post -> len pre = o -> len x = 8 -> o < 2 ^ 32 ->
  fixed_u64 l o = Ok (le_value x).
Proof.
  intros Hl Ho Hx Hb. unfold fixed_u64. unfold checked_add.
  rewrite (proj2 (Z.ltb_lt _ _)) by (unfold usize; lia). cbn [ok_or mbind result_bind].
  by rewrite (get_range_app l pre x post) by (done || lia).
Qed.

Lemma len_magic : len TEST_FRAME_MAGIC = 8.
Proof. done. Qed.

Ltac field_offset :=
  first [done | by rewrite <- ?app_assoc | rewrite ?len_app, ?len_magic; lia].

(** A header read field by field. *)
Lemma parse_header_fields m v1 v2 v3 v4 v5 rest :
  len m = 8 -> len v1 = 4 -> len v2 = 4 -> len v3 = 8 -> len v4 = 4 -> len v5 = 4 ->
  parse_header (m ++ v1 ++ v2 ++ v3 ++ v4 ++ v5 ++ rest) =
    if bool_decide (m = TEST_FRAME_MAGIC)
    then Ok {| frame_version := le_value v1; event_version := le_value v2;
               header_sequence := le_value v3; payload_bytes := le_value v4;
               checksum := le_value v5 |}
    else Err InvalidMagic.
Proof.
  intros Hm H1 H2 H3 H4 H5. unfold parse_header. set (frame := m ++ _).
  rewrite (proj2 (Z.ltb_ge _ _)); [cbn [guard_err mbind result_bind]|
    unfold frame; autorewrite with wrela_simpl; pose proof (len_nonneg rest);
    unfold TEST_FRAME_HEADER_BYTES; lia].
  change (len TEST_FRAME_MAGIC) with 8.
  rewrite (get_range_app frame [] m (v1 ++ v2 ++ v3 ++ v4 ++ v5 ++ rest)) by done.
  destruct (bool_decide (m = TEST_FRAME_MAGIC)) eqn:Em.
  - apply bool_decide_eq_true in Em as ->. rewrite bool_decide_true by done.
    cbn [negb guard_err mbind result_bind].
    rewrite (fixed_u32_at frame TEST_FRAME_MAGIC v1 (v2 ++ v3 ++ v4 ++ v5 ++ rest) 8) by field_offset.
    cbn [mbind result_bind].
    rewrite (fixed_u32_at frame (TEST_FRAME_MAGIC ++ v1) v2 (v3 ++ v4 ++ v5 ++ rest) 12)
      by field_offset.
    cbn [mbind result_bind].
    rewrite (fixed_u64_at frame (TEST_FRAME_MAGIC ++ v1 ++ v2) v3 (v4 ++ v5 ++ rest) 16)
      by field_offset.
    cbn [mbind result_bind].
    rewrite (fixed_u32_at frame (TEST_FRAME_MAGIC ++ v1 ++ v2 ++ v3) v4 (v5 ++ rest) 24)
      by field_offset.
    cbn [mbind result_bind].
    by rewrite (fixed_u32_at frame (TEST_FRAME_MAGIC ++ v1 ++ v2 ++ v3 ++ v4) v5 rest 28)
      by field_offset.
  - apply bool_decide_eq_false in Em. rewrite bool_decide_false by congruence. done.
Qed.

(** Cut a frame of at least 32 bytes into the fields of its header. *)
Lemma frame_fields (frame : list byte) :
  TEST_FRAME_HEADER_BYTES <= len frame ->
  exists m v1 v2 v3 v4 v5 rest, frame = m ++ v1 ++ v2 ++ v3 ++ v4 ++ v5 ++ rest
    /\ len m = 8 /\ len v1 = 4 /\ len v2 = 4 /\ len v3 = 8 /\ len v4 = 4 /\ len v5 = 4.
Proof.
  unfold TEST_FRAME_HEADER_BYTES. intros Hl.
  destruct (split_len frame 8) as (m & r1 & -> & Hm); [lia|]. rewrite len_app in Hl.
  destruct (split_len r1 4) as (v1 & r2 & -> & H1); [lia|]. rewrite len_app in Hl.
  destruct (split_len r2 4) as (v2 & r3 & -> & H2); [lia|]. rewrite len_app in Hl.
  destruct (split_len r3 8) as (v3 & r4 & -> & H3); [lia|]. rewrite len_app in Hl.
  destruct (split_len r4 4) as (v4 & r5 & -> & H4); [lia|]. rewrite len_app in Hl.
  destruct (split_len r5 4) as (v5 & r6 & -> & H5); [lia|].
  by exists m, v1, v2, v3, v4, v5, r6.
Qed.

Lemma parse_header_Ok frame h :
  parse_header frame = Ok h <-> header_typed h /\ exists rest, frame = header_bytes h ++ rest.
Proof.
  split.
  - intros H. destruct (Z.le_gt_cases TEST_FRAME_HEADER_BYTES (len frame)) as [Hl|Hl];
      [|unfold parse_header in H; by rewrite (proj2 (Z.ltb_lt _ _) Hl) in H].
    destruct (frame_fields frame Hl) as (m & v1 & v2 & v3 & v4 & v5 & rest & -> & Hm & H1 & H2 & H3 & H4 & H5).
    rewrite parse_header_fields in H by done.
    destruct (bool_decide (m = TEST_FRAME_MAGIC)) eqn:Em; [|done].
    apply bool_decide_eq_true in Em as ->. injection H as <-.
    destruct (le_value_of_len 4 v1 _ H1 eq_refl) as [E1 R1].
    destruct (le_value_of_len 4 v2 _ H2 eq_refl) as [E2 R2].
    destruct (le_value_of_len 8 v3 _ H3 eq_refl) as [E3 R3].
    destruct (le_value_of_len 4 v4 _ H4 eq_refl) as [E4 R4].
    destruct (le_value_of_len 4 v5 _ H5 eq_refl) as [E5 R5].
    split; [by split|]. exists rest. unfold header_bytes, u32_le, u64_le.
    cbn [frame_version event_version header_sequence payload_bytes checksum].
    rewrite <- E1, <- E2, <- E3, <- E4, <- E5. by rewrite <- !app_assoc.
  - intros ([R1 R2 R3 R4 R5] & rest & ->). unfold header_bytes. rewrite <- !app_assoc.
    rewrite parse_header_fields by done. rewrite bool_decide_true by done.
    unfold u32_le, u64_le, u32_ok, u64_ok in *.
    rewrite !le_value_bytes by done. by destruct h.
Qed.

(** ** Frames *)

(** A well-formed frame: a supported header in front of the payload it
    describes. *)
Record shape_ok (l : ProtocolLimits) (frame : list byte) (h : FrameHeader) : Prop := {
  shape_limits : limits_ok l;
  shape_header : header_typed h;
  shape_frame_version : frame_version h = TEST_FRAME_VERSION;
  shape_event_version : event_version h = TEST_EVENT_VERSION;
  shape_sequence : header_sequence h < events l;
  shape_fits : len frame <= frame_bytes l;
  shape_payload : exists payload, frame = header_bytes h ++ payload
    /\ payload_bytes h = len payload /\ checksum h = crc32c payload;
}.

Lemma header_app_inj h p q : header_bytes h ++ p = header_bytes h ++ q -> p = q.
Proof. apply app_inv_head. Qed.

Lemma validate_frame_shape_Ok l frame h :
  quiet (validate_frame_shape frame h l) = Ok tt <-> shape_ok l frame h.
Proof.
  unfold validate_frame_shape. split.
  - intros H. quiet_inv H. destruct x. apply validate_Ok in Hlift.
    apply parse_header_Ok in Hlift0 as [Ht (p & ->)].
    apply ok_or_Ok, checked_add_Some in Hlift1 as [_ ->].
    rewrite quiet_crc32c in Hrun. injection Hrun as <-. rewrite quiet_fail_if in H. inv_ok.
    bool_to_prop. subst x0. rewrite len_app, len_header_bytes in *.
    assert (Hp : payload_bytes h = len p) by lia.
    split; try done; [by rewrite len_app, len_header_bytes|].
    exists p. split_and!; [done..|].
    rewrite (get_range_app _ (header_bytes h) p []) in Hlift2.
    + by injection Hlift2 as <-.
    + by rewrite app_nil_r.
    + apply len_header_bytes.
    + lia.
  - intros [Hl Ht Hfv Hev Hs Hf (p & -> & Hp & Hsum)]. pose proof (len_nonneg p).
    rewrite len_app, len_header_bytes in Hf. destruct Hl as [Hlf ? ? ? ?] eqn:El.
    pose proof Hlf as Hlf'. unfold TEST_FRAME_HEADER_BYTES, MAX_PROTOCOL_FRAME_BYTES in Hlf', Hf.
    assert (Hlen : len (header_bytes h ++ p) = 32 + len p) by (by rewrite len_app, len_header_bytes).
    rewrite run_poll, (run_lift _ _ tt) by (by apply validate_Ok). rewrite Hlen.
    rewrite !run_fail_if by (apply Z.ltb_ge; unfold TEST_FRAME_HEADER_BYTES; lia).
    rewrite (run_lift _ _ h) by (apply parse_header_Ok; eauto).
    rewrite bool_decide_true, Hfv, Hev, !Z.eqb_refl, Hp by done.
    rewrite !run_fail_if by (done || (by apply Z.leb_gt)).
    erewrite run_ok_or by (apply checked_add_Some; unfold TEST_FRAME_HEADER_BYTES, usize; split; [lia|done]).
    rewrite !run_fail_if by (apply Z.ltb_ge; unfold TEST_FRAME_HEADER_BYTES; lia).
    rewrite (run_ok_or _ _ _ p).
    + rewrite (run_ok _ _ _ (quiet_crc32c _)), Hsum, Z.eqb_refl. done.
    + apply (get_range_app _ (header_bytes h) p []); [by rewrite app_nil_r|apply len_header_bytes|done].
Qed.

Lemma event_header_shape e l :
  quiet (validate_event e l) = Ok tt -> event_typed e -> len (event_frame e) <= frame_bytes l ->
  shape_ok l (event_frame e) (event_header e).
Proof.
  intros Hv [_ Hs _] Hlen. pose proof (validate_event_Ok _ _ Hv) as (Hl & _ & Hseq).
  pose proof (len_event_frame e) as Hf. pose proof (len_nonneg (event_payload e)).
  split; try done; [|by exists (event_payload e)].
  split; try done. cbn. destruct Hl as [Hl _ _ _ _].
  unfold u32_ok, TEST_FRAME_HEADER_BYTES, MAX_PROTOCOL_FRAME_BYTES in *. lia.
  apply crc32c_fits.
Qed.

#[export] Instance read_event_reads :
  Reads (fun l e => u32_ok (protocol e) /\ u64_ok (sequence e) /\ kind_ok l (kind e))
    event_payload read_event.
Proof.
  intros r e r' Hr. unfold read_event, event_payload. split.
  - intros H. unread H. same_limits. cbn [protocol sequence kind]. split; [glue|done].
  - intros [H (? & ? & ?)]. destruct e as [p s k]. cbn [protocol sequence kind] in *. by reread H.
Qed.

Lemma consumes_all payload l r' :
  len payload < 2 ^ usize ->
  forall bs, consumes (Reader.new payload l) bs r' /\ offset r' = len payload <->
  bs = payload /\ r' = {| reader_bytes := payload; offset := len payload; reader_limits := l |}.
Proof.
  intros Hp bs. split.
  - intros [[_ -> Hin (rest & Hr)] Ho]. cbn in *. change (payload = bs ++ rest) in Hr. subst payload.
    rewrite len_app in Ho. assert (rest = []) as ->.
    { destruct rest; [done|]. unfold len in Ho. simpl in Ho. lia. }
    rewrite app_nil_r in *. done.
  - intros [-> ->]. split; [|done]. split; cbn; [split; cbn; [lia|done]|done|lia|].
    exists []. by rewrite app_nil_r.
Qed.

Lemma canonical_decode_inv frame l e :
  quiet (canonical_decode frame l) = Ok e ->
  event_typed e /\ quiet (validate_event e l) = Ok tt /\ frame = event_frame e
  /\ len frame <= frame_bytes l.
Proof.
  unfold canonical_decode. intros H. quiet_inv H. rename x0 into h, x1 into v, Hrun into Hshape.
  destruct v. apply validate_frame_shape_Ok in Hshape.
  destruct Hshape as [Hl Ht Hfv Hev Hs Hf (p & -> & Hp & Hsum)].
  assert (x2 = p) as ->.
  { rewrite (get_range_app _ (header_bytes h) p []) in Hlift1.
    - by injection Hlift1.
    - by rewrite app_nil_r.
    - apply len_header_bytes.
    - by rewrite len_app, len_header_bytes. }
  assert (Hsmall : len p < 2 ^ usize).
  { rewrite len_app, len_header_bytes in Hf. destruct Hl as [Hl _ _ _ _].
    unfold TEST_FRAME_HEADER_BYTES, MAX_PROTOCOL_FRAME_BYTES, usize in *. lia. }
  destruct x3 as [e' r].
  apply (reads (get := read_event)) in Hrun0 as [Hc (Hpr & Hsq & Hk)]; [|split; cbn; [lia|done]].
  quiet_inv H. repeat match goal with u : unit |- _ => destruct u end.
  unfold Reader.finish in Hrun. quiet_inv Hrun. rewrite quiet_fail_if in Hrun. inv_ok.
  apply kind_ok_typed in Hk as (Hk & _ & _). bool_to_prop.
  destruct (proj1 (consumes_all p l r Hsmall (event_payload e'))) as [<- _].
  { destruct Hc as [? Hr ? ?]. rewrite Hr in *. done. }
  split_and!; [by split|done| |done].
  unfold event_frame. f_equal. f_equal. destruct h. cbn in *. unfold event_header. congruence.
Qed.

Lemma canonical_decode_run e l :
  event_typed e -> quiet (validate_event e l) = Ok tt -> len (event_frame e) <= frame_bytes l ->
  quiet (canonical_decode (event_frame e) l) = Ok e.
Proof.
  intros Ht Hv Hlen. unfold canonical_decode.
  pose proof (event_header_shape e l Hv Ht Hlen) as Hs.
  pose proof (validate_event_Ok _ _ Hv) as (Hl & Hp & _).
  destruct (validate_event_fits _ _ Hv) as [Hfits Hord].
  assert (Hsmall : len (event_payload e) < 2 ^ usize).
  { rewrite len_event_frame in Hlen. destruct Hl as [Hl _ _ _ _].
    unfold TEST_FRAME_HEADER_BYTES, MAX_PROTOCOL_FRAME_BYTES, usize in *. lia. }
  rewrite run_poll, (run_lift _ _ tt) by (by apply validate_Ok).
  rewrite (run_lift _ _ (event_header e))
    by (apply parse_header_Ok; split; [apply Hs|by exists (event_payload e)]).
  rewrite (run_ok _ _ tt) by (by apply validate_frame_shape_Ok).
  rewrite (run_ok_or _ _ _ (event_payload e)).
  2:{ apply (get_range_app _ (header_bytes (event_header e)) _ []);
      [by rewrite app_nil_r|apply len_header_bytes|by rewrite len_event_frame]. }
  destruct Ht as [Htp Hts Htk].
  erewrite run_ok.
  2:{ apply (reads (get := read_event)); [split; cbn; [lia|done]|].
      split; [by apply consumes_all|]. split_and!; [done..|]. by apply kind_ok_typed. }
  unfold Reader.finish. cbn [offset reader_bytes event_version header_sequence event_header].
  rewrite Hp, !Z.eqb_refl. rewrite (run_ok _ _ tt) by done. by rewrite (run_ok _ _ tt Hv).
Qed.

(** C22: the canonical decoder is the exact inverse of the canonical encoder:
    it accepts a byte sequence, and returns [e], precisely when [e] is a typed
    event that encodes to these bytes. No other frame is accepted. *)
Theorem frame_codec_exact frame l e :
  quiet (canonical_decode frame l) = Ok e <->
  event_typed e /\ exists c, quiet (canonical_encode e l) = Ok c /\ candidate_bytes c = frame.
Proof.
  split.
  - intros (Ht & Hv & -> & Hlen)%canonical_decode_inv. split; [done|].
    eexists. split; [by apply canonical_encode_run|done].
  - intros (Ht & c & (Hv & Hlen & ->)%canonical_encode_inv & <-). by apply canonical_decode_run.
Qed.


Example sample_frame :
  let e := {| protocol := 3; sequence := 1; kind := Log (Some {| test_id := 7 |}) Info (ascii "hi") |} in
  match quiet (canonical_encode e standard) with
  | Ok c => len (candidate_bytes c) = 57 /\ quiet (canonical_decode (candidate_bytes c) standard) = Ok e
  | Err _ => False
  end.
Proof. vm_compute. split; reflexivity. Qed.

(** ** Interruption *)

#[export] Instance extend_interruptible v : interruptibleS interruption (Writer.extend v).
Proof.
  intros w. unfold Writer.extend. do 3 (apply interruptible_bind; [apply _|intros ?]).
  apply interruptible_bind; [|apply _].
  generalize (written w) as out. induction (chunks _ v) as [|p ps IH]; intros out; [apply _|].
  cbn [Writer.push_chunks]. apply interruptible_bind; [apply _|auto].
Qed.
#[export] Instance writer_u8_interruptible v : interruptibleS interruption (Writer.u8 v).
Proof. apply extend_interruptible. Qed.
#[export] Instance writer_u32_interruptible v : interruptibleS interruption (Writer.u32 v).
Proof. apply extend_interruptible. Qed.
#[export] Instance writer_u64_interruptible v : interruptibleS interruption (Writer.u64 v).
Proof. apply extend_interruptible. Qed.
#[export] Instance writer_string_interruptible v l : interruptibleS interruption (Writer.string_ v l).
Proof. unfold Writer.string_. apply _. Qed.
#[export] Instance writer_optional_interruptible v l :
  interruptibleS interruption (Writer.optional_string v l).
Proof. destruct v; unfold Writer.optional_string; apply _. Qed.
#[export] Instance encode_source_interruptible v : interruptibleS interruption (encode_source v).
Proof. destruct v; unfold encode_source; apply _. Qed.
#[export] Instance encode_outcome_interruptible v l :
  interruptibleS interruption (encode_outcome v l).
Proof. destruct v; unfold encode_outcome; apply _. Qed.
#[export] Instance write_event_interruptible e l : interruptibleS interruption (write_event e l).
Proof.
  unfold write_event, encode_event_kind. do 3 (apply interruptibleS_bind; [apply _|intros ?]).
  destruct (kind e) as [| |[?|]| | | |]; apply _.
Qed.

#[export] Instance copy_utf8_interruptible bs : interruptible interruption (copy_utf8 bs).
Proof.
  unfold copy_utf8. apply interruptible_bind; [apply _|intros _].
  apply interruptible_bind; [|apply _].
  generalize (length bs) as fuel, 0 as o, (@nil byte) as out.
  induction fuel as [|fuel IH]; intros o out; cbn [copy_utf8_loop]; destruct (_ <? _); try apply _.
Qed.
#[export] Instance reader_take_interruptible n : interruptibleS interruption (Reader.take n).
Proof. intros r. unfold Reader.take. apply _. Qed.
#[export] Instance reader_u8_interruptible : interruptibleS interruption Reader.u8.
Proof. unfold Reader.u8. apply _. Qed.
#[export] Instance reader_u32_interruptible : interruptibleS interruption Reader.u32.
Proof. unfold Reader.u32. apply _. Qed.
#[export] Instance reader_u64_interruptible : interruptibleS interruption Reader.u64.
Proof. unfold Reader.u64. apply _. Qed.
#[export] Instance reader_string_interruptible : interruptibleS interruption Reader.string_.
Proof.
  intros r. unfold Reader.string_. apply interruptible_bind; [apply reader_u32_interruptible|].
  intros [n r1]. apply interruptible_bind; [apply _|intros _].
  apply interruptible_bind; [apply reader_take_interruptible|]. intros [bs r2]. apply _.
Qed.

Ltac interruptible_cases :=
  repeat first [apply _ | apply interruptibleS_bind; [apply _|intros ?] | case_match].

#[export] Instance reader_optional_interruptible k :
  interruptibleS interruption (Reader.optional_string k).
Proof. unfold Reader.optional_string. interruptible_cases. Qed.
#[export] Instance decode_test_interruptible : interruptibleS interruption decode_test.
Proof. unfold decode_test. interruptible_cases. Qed.
#[export] Instance decode_source_interruptible : interruptibleS interruption decode_source.
Proof. unfold decode_source. interruptible_cases. Qed.
#[export] Instance decode_outcome_interruptible : interruptibleS interruption decode_outcome.
Proof. unfold decode_outcome. interruptible_cases. Qed.
#[export] Instance decode_event_kind_interruptible : interruptibleS interruption decode_event_kind.
Proof. unfold decode_event_kind. interruptible_cases. Qed.

#[export] Instance validate_frame_shape_interruptible f h l :
  interruptible interruption (validate_frame_shape f h l).
Proof. unfold validate_frame_shape. apply _. Qed.

(** A codec whose operations are only ever stopped by the environment. *)
Class InterruptibleCodec (codec : TestEventCodec) : Prop := {
  encode_interruptible e l :: interruptible interruption (encode e l);
  inspect_interruptible f :: interruptible interruption (inspect_header f);
  decode_interruptible f l :: interruptible interruption (decode f l);
}.

#[export] Instance canonical_interruptible : InterruptibleCodec CanonicalTestEventCodec.
Proof.
  split; cbn [encode inspect_header decode CanonicalTestEventCodec].
  - intros e l. unfold canonical_encode. do 3 (apply interruptible_bind; [apply _|intros ?]).
    apply interruptible_bind; [apply write_event_interruptible|]. intros [? ?]. apply _.
  - intros f. unfold canonical_inspect_header. apply _.
  - intros f l. unfold canonical_decode. do 5 (apply interruptible_bind; [apply _|intros ?]).
    apply interruptible_bind.
    + assert (interruptibleS interruption read_event) as Hr by (unfold read_event; apply _).
      apply Hr.
    + intros [? ?]. unfold Reader.finish. apply _.
Qed.
