(* ===== verification/TestCodec.v ===== *)
(** Sealing and verifying frames through any [TestEventCodec]
    ([crates/wrela-test-protocol]: [events_equal], [seal_encoded_event],
    [decode_and_verify_event]). *)

From Stdlib Require Import Strings.Byte.
From stdpp Require Import base numbers list option strings.
From S2P Require Import Prelude Bytes Interrupt Text Source TestEvents Crc32c TestFrames.

#[local] Open Scope Z_scope.

(** ** Comparing events *)

Fixpoint chunks_equal (pairs : list (list byte * list byte)) : prog ProtocolError bool :=
  match pairs with
  | [] => _ ← poll Cancelled; mret true
  | (left_, right_) :: pairs =>
      _ ← poll Cancelled;
      if bool_decide (left_ = right_) then chunks_equal pairs else mret false
  end.

Definition bytes_equal (left_ right_ : list byte) : prog ProtocolError bool :=
  _ ← poll Cancelled;
  if negb (len left_ =? len right_) then mret false
  else
    let n := Z.to_nat CANCELLATION_POLL_BYTES in
    chunks_equal (zip (chunks n left_) (chunks n right_)).

Definition optional_strings_equal (left_ right_ : option str) : prog ProtocolError bool :=
  match left_, right_ with
  | Some left_, Some right_ => bytes_equal left_ right_
  | None, None => mret true
  | _, _ => mret false
  end.

Definition outcomes_equal (left_ right_ : GuestTestOutcome) : prog ProtocolError bool :=
  match left_, right_ with
  | Passed, Passed => mret true
  | Failed left_, Failed right_ => bytes_equal left_ right_
  | TimedOut left_, TimedOut right_ => mret (left_ =? right_)
  | LanguageFatal left_, LanguageFatal right_ => mret (bool_decide (left_ = right_))
  | _, _ => mret false
  end.

(** [a && b?]: [b] is only computed when [a] holds. *)
Definition and_then (a : bool) (b : prog ProtocolError bool) : prog ProtocolError bool :=
  if a then b else mret false.

Definition failures_equal (left_ right_ : AssertionFailure) : prog ProtocolError bool :=
  and_then (bool_decide (source left_ = source right_))
    (a ← bytes_equal (expression left_) (expression right_);
     and_then a
       (b ← optional_strings_equal (message left_) (message right_);
        and_then b
          (c ← optional_strings_equal (expected left_) (expected right_);
           and_then c (optional_strings_equal (actual left_) (actual right_))))).

Definition events_equal (left_ right_ : TestEvent) : prog ProtocolError bool :=
  _ ← poll Cancelled;
  if negb (protocol left_ =? protocol right_) || negb (sequence left_ =? sequence right_)
  then mret false
  else
    match kind left_, kind right_ with
    | RunStarted left_, RunStarted right_ => mret (left_ =? right_)
    | TestStarted left_, TestStarted right_ => mret (bool_decide (left_ = right_))
    | Log left_test left_level left_message, Log right_test right_level right_message =>
        and_then (bool_decide (left_test = right_test) && bool_decide (left_level = right_level))
          (bytes_equal left_message right_message)
    | AssertionFailed left_test left_, AssertionFailed right_test right_ =>
        and_then (bool_decide (left_test = right_test)) (failures_equal left_ right_)
    | TestFinished left_test left_, TestFinished right_test right_ =>
        and_then (bool_decide (left_test = right_test)) (outcomes_equal left_ right_)
    | Heartbeat left_, Heartbeat right_ => mret (left_ =? right_)
    | RunFinished left_passed left_failed, RunFinished right_passed right_failed =>
        mret ((left_passed =? right_passed) && (left_failed =? right_failed))
    | _, _ => mret false
    end.

(** ** Sealing and verifying *)

Record EncodedEvent := { header : FrameHeader; bytes : list byte }.

Definition decode_and_verify_event (codec : TestEventCodec) (frame : list byte)
    (l : ProtocolLimits) : prog ProtocolError TestEvent :=
  _ ← poll Cancelled;
  _ ← lift (validate l);
  _ ← fail_if (frame_bytes l <? len frame) (FrameTooLarge (frame_bytes l) (len frame));
  header ← inspect_header frame;
  _ ← validate_frame_shape frame header l;
  event ← decode frame l;
  _ ← validate_event event l;
  _ ← fail_if (negb (header_sequence header =? sequence event))
        (SequenceMismatch (header_sequence header) (sequence event));
  canonical ← encode event l;
  _ ← validate_frame_shape (candidate_bytes canonical) (candidate_header canonical) l;
  same ← (if negb (bool_decide (candidate_header canonical = header)) then mret false
          else bytes_equal (candidate_bytes canonical) frame);
  _ ← fail_if (negb same)
        (NonCanonical "decoded event does not reproduce its complete frame");
  mret event.

Definition seal_encoded_event (codec : TestEventCodec) (event : TestEvent) (l : ProtocolLimits)
    : prog ProtocolError EncodedEvent :=
  _ ← poll Cancelled;
  _ ← validate_event event l;
  candidate ← encode event l;
  _ ← validate_frame_shape (candidate_bytes candidate) (candidate_header candidate) l;
  inspected ← inspect_header (candidate_bytes candidate);
  _ ← fail_if (negb (bool_decide (inspected = candidate_header candidate)))
        (NonCanonical "encoded header differs from its bytes");
  decoded ← decode_and_verify_event codec (candidate_bytes candidate) l;
  same ← events_equal event decoded;
  _ ← fail_if (negb same) (NonCanonical "encoded event differs from its input");
  mret {| header := candidate_header candidate; bytes := candidate_bytes candidate |}.

(** ** Comparison is equality *)

#[export] Instance AssertionFailure_eq_dec : EqDecision AssertionFailure.
Proof. solve_decision. Defined.
#[export] Instance GuestTestOutcome_eq_dec : EqDecision GuestTestOutcome.
Proof. solve_decision. Defined.
#[export] Instance TestEventKind_eq_dec : EqDecision TestEventKind.
Proof. solve_decision. Defined.
#[export] Instance TestEvent_eq_dec : EqDecision TestEvent.
Proof. solve_decision. Defined.

Lemma quiet_chunks_equal pairs :
  quiet (chunks_equal pairs) = Ok (forallb (fun '(a, b) => bool_decide (a = b)) pairs).
Proof.
  induction pairs as [|[a b] pairs IH]; [done|]. cbn [chunks_equal forallb].
  rewrite run_poll. by destruct (bool_decide (a = b)).
Qed.

Lemma quiet_bytes_equal a b : quiet (bytes_equal a b) = Ok (bool_decide (a = b)).
Proof.
  unfold bytes_equal. rewrite run_poll.
  destruct (Z.eqb_spec (len a) (len b)) as [Hl|Hl]; cbn [negb].
  - rewrite quiet_chunks_equal, chunks_zip_equal; [done|vm_compute; lia|unfold len in Hl; lia].
  - rewrite bool_decide_false; [done|]. by intros ->.
Qed.

Lemma quiet_optional_strings_equal a b :
  quiet (optional_strings_equal a b) = Ok (bool_decide (a = b)).
Proof.
  destruct a as [a|], b as [b|]; try done. cbn [optional_strings_equal].
  rewrite quiet_bytes_equal. f_equal. apply bool_decide_ext. naive_solver.
Qed.

Lemma quiet_outcomes_equal a b : quiet (outcomes_equal a b) = Ok (bool_decide (a = b)).
Proof.
  destruct a as [|ma|ta|ca], b as [|mb|tb|cb]; try done; cbn [outcomes_equal].
  - rewrite quiet_bytes_equal. f_equal. apply bool_decide_ext. naive_solver.
  - cbn. f_equal. apply eq_true_iff_eq. rewrite Z.eqb_eq, bool_decide_eq_true. naive_solver.
  - cbn. f_equal. apply bool_decide_ext. naive_solver.
Qed.

Lemma quiet_and_then a m P `{Decision P} :
  quiet m = Ok (bool_decide P) -> quiet (and_then a m) = Ok (a && bool_decide P).
Proof. by destruct a. Qed.

Lemma quiet_failures_equal a b : quiet (failures_equal a b) = Ok (bool_decide (a = b)).
Proof.
  destruct a as [ea ma sa xa aa], b as [eb mb sb xb ab]. unfold failures_equal, and_then.
  cbn [source expression message expected actual].
  destruct (bool_decide_reflect (sa = sb)) as [->|]; [|rewrite bool_decide_false; [done|congruence]].
  rewrite (run_ok _ _ _ (quiet_bytes_equal ea eb)).
  destruct (bool_decide_reflect (ea = eb)) as [->|]; [|rewrite bool_decide_false; [done|congruence]].
  rewrite (run_ok _ _ _ (quiet_optional_strings_equal ma mb)).
  destruct (bool_decide_reflect (ma = mb)) as [->|]; [|rewrite bool_decide_false; [done|congruence]].
  rewrite (run_ok _ _ _ (quiet_optional_strings_equal xa xb)).
  destruct (bool_decide_reflect (xa = xb)) as [->|]; [|rewrite bool_decide_false; [done|congruence]].
  rewrite quiet_optional_strings_equal. f_equal. apply bool_decide_ext. naive_solver.
Qed.

Lemma and_then_equal {A B} `{EqDecision A, EqDecision B} (a1 a2 : A) (b1 b2 : B) m P `{Decision P} :
  quiet m = Ok (bool_decide (b1 = b2)) -> (P <-> a1 = a2 /\ b1 = b2) ->
  quiet (and_then (bool_decide (a1 = a2)) m) = Ok (bool_decide P).
Proof.
  intros Hm HP. destruct (bool_decide_reflect (a1 = a2)) as [->|Hne]; simpl.
  - rewrite Hm. f_equal. apply bool_decide_ext. tauto.
  - rewrite bool_decide_false; [done|tauto].
Qed.

(** The field-by-field, cancellable comparison of two events decides their
    equality. *)
Lemma quiet_events_equal a b : quiet (events_equal a b) = Ok (bool_decide (a = b)).
Proof.
  destruct a as [pa sa ka], b as [pb sb kb]. unfold events_equal. rewrite run_poll.
  cbn [protocol sequence kind].
  destruct (Z.eqb_spec pa pb) as [->|]; cbn [negb orb]; [|rewrite bool_decide_false; [done|congruence]].
  destruct (Z.eqb_spec sa sb) as [->|]; cbn [negb orb]; [|rewrite bool_decide_false; [done|congruence]].
  destruct ka as [ca|ta|ta la ma|ta fa|ta oa|na|xa ya], kb as [cb|tb|tb lb mb|tb fb|tb ob|nb|xb yb];
    try (rewrite bool_decide_false; [done|congruence]).
  - cbn. f_equal. apply eq_true_iff_eq. rewrite Z.eqb_eq, bool_decide_eq_true. naive_solver.
  - cbn. f_equal. apply bool_decide_ext. naive_solver.
  - replace (bool_decide (ta = tb) && bool_decide (la = lb)) with (bool_decide ((ta, la) = (tb, lb)))
      by (rewrite <- bool_decide_and; apply bool_decide_ext; naive_solver).
    eapply and_then_equal; [apply quiet_bytes_equal|naive_solver].
  - eapply and_then_equal; [apply quiet_failures_equal|naive_solver].
  - eapply and_then_equal; [apply quiet_outcomes_equal|naive_solver].
  - cbn. f_equal. apply eq_true_iff_eq. rewrite Z.eqb_eq, bool_decide_eq_true. naive_solver.
  - cbn. f_equal. apply eq_true_iff_eq.
    rewrite andb_true_iff, !Z.eqb_eq, bool_decide_eq_true. naive_solver.
Qed.

(** ** Verification through an arbitrary codec *)

Ltac clear_units := repeat match goal with u : unit |- _ => destruct u end.

Lemma verify_inv codec frame l e :
  quiet (decode_and_verify_event codec frame l) = Ok e ->
  exists h, quiet (inspect_header frame) = Ok h /\ shape_ok l frame h
    /\ quiet (decode frame l) = Ok e /\ quiet (validate_event e l) = Ok tt
    /\ header_sequence h = sequence e
    /\ exists c, quiet (encode e l) = Ok c /\ candidate_header c = h /\ candidate_bytes c = frame.
Proof.
  unfold decode_and_verify_event. intros H. quiet_inv H. clear_units. bool_to_prop.
  apply validate_frame_shape_Ok in Hrun0. exists x0. split_and!; try done.
  eexists. split; [done|]. subst x6. revert Hrun5.
  destruct (bool_decide_reflect (candidate_header x4 = x0)) as [->|]; [|done].
  cbn [negb]. rewrite quiet_bytes_equal. intros [= Hsame].
  by apply bool_decide_eq_true in Hsame.
Qed.

(** Whatever codec it is given, a frame that [seal_encoded_event] hands out
    has the shape of the protocol (magic, versions, length, checksum), and the
    codec decodes it to the event that was to be encoded and encodes that
    event to it. *)
Theorem seal_sound codec e l s :
  quiet (seal_encoded_event codec e l) = Ok s ->
  shape_ok l (bytes s) (header s)
  /\ header_sequence (header s) = sequence e
  /\ quiet (inspect_header (bytes s)) = Ok (header s)
  /\ quiet (decode (bytes s) l) = Ok e
  /\ exists c, quiet (encode e l) = Ok c
       /\ candidate_bytes c = bytes s /\ candidate_header c = header s.
Proof.
  unfold seal_encoded_event. intros H. quiet_inv H. clear_units.
  rewrite quiet_events_equal in Hrun4. injection Hrun4 as Hsame.
  apply negb_false_iff, bool_decide_eq_true in Hguard. subst.
  apply negb_false_iff, bool_decide_eq_true in Hguard0. subst.
  apply verify_inv in Hrun3 as (h & Hi & Hshape & Hd & _ & Hs & c & Hc & Hh & Hb).
  assert (h = candidate_header x0) as -> by congruence. cbn [header bytes]. by eauto 10.
Qed.

(** ** The canonical codec always seals *)

Lemma canonical_inspect_Ok frame h :
  quiet (canonical_inspect_header frame) = Ok h <-> parse_header frame = Ok h.
Proof. unfold canonical_inspect_header. by rewrite run_poll, quiet_lift. Qed.

Lemma verify_canonical_run e l :
  event_typed e -> quiet (validate_event e l) = Ok tt -> len (event_frame e) <= frame_bytes l ->
  quiet (decode_and_verify_event CanonicalTestEventCodec (event_frame e) l) = Ok e.
Proof.
  intros Ht Hv Hlen. pose proof (event_header_shape e l Hv Ht Hlen) as Hs.
  pose proof (validate_event_Ok _ _ Hv) as (Hl & _ & _).
  unfold decode_and_verify_event.
  rewrite run_poll, (run_lift _ _ tt), run_fail_if by first [by apply validate_Ok|by apply Z.ltb_ge].
  rewrite (run_ok _ _ (event_header e))
    by (apply canonical_inspect_Ok, parse_header_Ok; split; [apply Hs|by exists (event_payload e)]).
  rewrite (run_ok _ _ tt) by (by apply validate_frame_shape_Ok).
  rewrite (run_ok _ _ e) by (by apply canonical_decode_run).
  rewrite (run_ok _ _ tt Hv). cbn [header_sequence event_header]. rewrite Z.eqb_refl, run_fail_if by done.
  erewrite run_ok by (by apply canonical_encode_run). cbn [candidate_bytes candidate_header].
  rewrite (run_ok _ _ tt) by (by apply validate_frame_shape_Ok).
  rewrite bool_decide_true by done. cbn [negb].
  rewrite (run_ok _ _ true); [done|]. by rewrite quiet_bytes_equal, bool_decide_true.
Qed.

Lemma verify_canonical_Ok frame l e :
  quiet (decode_and_verify_event CanonicalTestEventCodec frame l) = Ok e <->
  event_typed e /\ quiet (validate_event e l) = Ok tt /\ frame = event_frame e
  /\ len (event_frame e) <= frame_bytes l.
Proof.
  split.
  - intros (h & _ & _ & Hd & _)%verify_inv. apply canonical_decode_inv in Hd as (? & ? & -> & ?). done.
  - intros (Ht & Hv & -> & Hlen). by apply verify_canonical_run.
Qed.

(** The checks of [seal_encoded_event] never refuse the canonical codec:
    for a typed event it returns what [encode] returns, or fails with the
    error with which [encode] fails. *)
Theorem seal_canonical_complete e l :
  event_typed e ->
  quiet (seal_encoded_event CanonicalTestEventCodec e l) =
    (fun c => {| header := candidate_header c; bytes := candidate_bytes c |})
      <$> quiet (canonical_encode e l).
Proof.
  intros Ht. unfold seal_encoded_event. rewrite run_poll, quiet_bind.
  destruct (quiet (validate_event e l)) as [[]|err] eqn:Hv.
  2:{ cbn [mbind result_bind]. unfold canonical_encode. by rewrite run_poll, quiet_bind, Hv. }
  cbn [mbind result_bind]. rewrite quiet_bind. cbn [encode CanonicalTestEventCodec].
  destruct (quiet (canonical_encode e l)) as [c|err] eqn:Hc; [|done].
  cbn [mbind result_bind fmap result_fmap].
  apply canonical_encode_Ok in Hc as (_ & Hlen & ->). cbn [candidate_bytes candidate_header].
  pose proof (event_header_shape e l Hv Ht Hlen) as Hs.
  rewrite (run_ok _ _ tt) by (by apply validate_frame_shape_Ok).
  rewrite (run_ok _ _ (event_header e))
    by (apply canonical_inspect_Ok, parse_header_Ok; split; [apply Hs|by exists (event_payload e)]).
  rewrite run_fail_if by (by rewrite bool_decide_true).
  rewrite (run_ok _ _ e) by (by apply verify_canonical_run).
  rewrite (run_ok _ _ _ (quiet_events_equal e e)), bool_decide_true by done. done.
Qed.

Definition sample_event : TestEvent :=
  {| protocol := 3; sequence := 1;
     kind := TestFinished {| test_id := 7 |} (Failed (ascii "boom")) |}.

Lemma sample_event_typed : event_typed sample_event.
Proof.
  split; [cbv; split; congruence..|]. split; [cbv; split; congruence|vm_compute; reflexivity].
Qed.

Example seal_canonical_complete_witness :
  event_typed sample_event /\
  exists s, quiet (seal_encoded_event CanonicalTestEventCodec sample_event standard) = Ok s.
Proof.
  split; [exact sample_event_typed|]. eexists.
  refine (eq_trans (seal_canonical_complete sample_event standard sample_event_typed) _).
  vm_compute. reflexivity.
Defined.

Example seal_sound_witness :
  exists s, quiet (seal_encoded_event CanonicalTestEventCodec sample_event standard) = Ok s
    /\ quiet (decode (bytes s) standard) = Ok sample_event.
Proof.
  destruct (quiet (seal_encoded_event CanonicalTestEventCodec sample_event standard)) as [s|e] eqn:E.
  - exists s. split; [reflexivity|].
    exact (proj1 (proj2 (proj2 (proj2 (seal_sound CanonicalTestEventCodec sample_event standard s E))))).
  - exfalso. vm_compute in E. discriminate E.
Defined.

#[export] Instance bytes_equal_interruptible a b : interruptible interruption (bytes_equal a b).
Proof.
  unfold bytes_equal. apply interruptible_bind; [apply _|]. intros _. destruct (negb _); [apply _|].
  induction (zip _ _) as [|[x y] ps IH]; cbn [chunks_equal]; [apply _|].
  apply interruptible_bind; [apply _|]. intros _. by destruct (bool_decide _).
Qed.
