(* ===== verification/TestTable.v ===== *)
(** The table of test states of a stream ([crates/wrela-test-protocol],
    [TestStateTable]): an open-addressing hash table with linear probing, and
    the proof that it refines a finite map. *)

From stdpp Require Import base numbers list option strings gmap.
From S2P Require Import Prelude Interrupt TestEvents.

#[local] Open Scope Z_scope.

Inductive TrackedTestState := Active | Finished.
Record TestStateSlot := { slot_test : TestId; slot_state : TrackedTestState }.
Record TestStateTable := {
  slots : list (option TestStateSlot);
  entries : Z;
  maximum : Z;
}.
#[export] Instance TrackedTestState_eq_dec : EqDecision TrackedTestState.
Proof. solve_decision. Defined.

(** [TestStateTable::new] and [set_maximum]. *)
Definition new_table (maximum : Z) : TestStateTable :=
  {| slots := []; entries := 0; maximum := maximum |}.
Definition set_maximum (t : TestStateTable) (maximum : Z) : TestStateTable :=
  {| slots := slots t; entries := entries t; maximum := maximum |}.

Definition poll_entries (index : Z) : prog ProtocolError unit :=
  poll_when (Z.land index (CANCELLATION_POLL_ENTRIES - 1) =? 0) Cancelled.

Definition test_slot_start (test : TestId) (mask : Z) : Z :=
  Z.land (Z.lxor (wrapping_mul 32 (test_id test) 0x9e3779b9) (rotate_right 32 (test_id test) 16)) mask.

(** The probe loop of [find]: [n] turns are left. *)
Fixpoint find_loop (n : nat) (slots : list (option TestStateSlot)) (test : TestId)
    (mask probe index : Z) : prog ProtocolError (option Z) :=
  match n with
  | O => mret None
  | S n =>
      _ ← poll_entries probe;
      match slots !! Z.to_nat index with
      | Some (Some slot) =>
          if bool_decide (slot_test slot = test) then mret (Some index)
          else find_loop n slots test mask (probe + 1) (Z.land (index + 1) mask)
      | _ => mret None
      end
  end.

Definition find (t : TestStateTable) (test : TestId) : prog ProtocolError (option Z) :=
  match slots t with
  | [] => mret None
  | _ =>
      let mask := len (slots t) - 1 in
      find_loop (length (slots t)) (slots t) test mask 0 (test_slot_start test mask)
  end.

(** [state]. *)
Definition state (t : TestStateTable) (test : TestId)
    : prog ProtocolError (option TrackedTestState) :=
  index ← find t test;
  mret match index with
       | Some index =>
           match slots t !! Z.to_nat index with
           | Some (Some slot) => Some (slot_state slot)
           | _ => None
           end
       | None => None
       end.

Fixpoint place_loop (n : nat) (slots : list (option TestStateSlot)) (slot : TestStateSlot)
    (mask probe index : Z) : prog ProtocolError (bool * list (option TestStateSlot)) :=
  match n with
  | O => mret (false, slots)
  | S n =>
      _ ← poll_entries probe;
      match slots !! Z.to_nat index with
      | Some None => mret (true, <[Z.to_nat index := Some slot]> slots)
      | Some (Some _) => place_loop n slots slot mask (probe + 1) (Z.land (index + 1) mask)
      | None => mret (false, slots)
      end
  end.

Definition place_test_slot (slots : list (option TestStateSlot)) (slot : TestStateSlot)
    : prog ProtocolError (bool * list (option TestStateSlot)) :=
  match slots with
  | [] => mret (false, slots)
  | _ =>
      let mask := len slots - 1 in
      place_loop (length slots) slots slot mask 0 (test_slot_start (slot_test slot) mask)
  end.

(** [usize::checked_next_power_of_two]. *)
Definition checked_next_power_of_two (n : Z) : option Z :=
  let p := if n <=? 1 then 1 else 2 ^ Z.log2_up n in
  if p <? 2 ^ usize then Some p else None.

(** [slots.iter().flatten()]. *)
Definition occupied (slots : list (option TestStateSlot)) : list TestStateSlot := omap id slots.

(** The rehash loop. *)
Fixpoint rehash (index : Z) (old : list TestStateSlot) (slots : list (option TestStateSlot))
    : prog ProtocolError (list (option TestStateSlot)) :=
  match old with
  | [] => mret slots
  | slot :: old =>
      _ ← poll_entries index;
      '(placed, slots) ← place_test_slot slots slot;
      _ ← fail_if (negb placed) (ProtocolContractMismatch "test-state table rehash failed");
      rehash (index + 1) old slots
  end.

Definition ensure_insert_capacity (t : TestStateTable) : prog ProtocolError TestStateTable :=
  required ← lift (ok_or (checked_add usize (entries t) 1)
                     (ResourceLimit "test-state entries" (maximum t)));
  _ ← fail_if (maximum t <? required) (ResourceLimit "test-state entries" (maximum t));
  if negb (bool_decide (slots t = [])) && (required <=? len (slots t) / 2) then mret t
  else
    maximum_capacity ← lift (ok_or (checked_mul usize (maximum t) 2 ≫= checked_next_power_of_two)
                               (ResourceLimit "test-state table slots" (maximum t)));
    proposed ← (if bool_decide (slots t = []) then mret 2
                else lift (ok_or (checked_mul usize (len (slots t)) 2)
                             (ResourceLimit "test-state table slots" (maximum t))));
    let capacity := Z.min proposed maximum_capacity in
    _ ← fail_if ((capacity <=? len (slots t)) || (capacity <? required))
          (ResourceLimit "test-state table slots" (maximum t));
    _ ← try_reserve (ResourceLimit "test-state table slots" (maximum t));
    slots' ← rehash 0 (occupied (slots t)) (replicate (Z.to_nat capacity) None);
    mret {| slots := slots'; entries := entries t; maximum := maximum t |}.

Definition insert_active (t : TestStateTable) (test : TestId)
    : prog ProtocolError (bool * TestStateTable) :=
  found ← find t test;
  if found is Some _ then mret (false, t)
  else
    t ← ensure_insert_capacity t;
    '(placed, slots) ← place_test_slot (slots t) {| slot_test := test; slot_state := Active |};
    _ ← fail_if (negb placed)
          (ProtocolContractMismatch "test-state table has no insertion slot");
    entries ← lift (ok_or (checked_add usize (entries t) 1)
                      (ResourceLimit "test-state entries" (maximum t)));
    mret (true, {| slots := slots; entries := entries; maximum := maximum t |}).

Definition mark_finished (t : TestStateTable) (test : TestId)
    : prog ProtocolError (bool * TestStateTable) :=
  found ← find t test;
  match found with
  | None => mret (false, t)
  | Some index =>
      match slots t !! Z.to_nat index with
      | Some (Some slot) =>
          if negb (bool_decide (slot_state slot = Active)) then mret (false, t)
          else
            mret (true, {| slots := <[Z.to_nat index :=
                             Some {| slot_test := slot_test slot; slot_state := Finished |}]> (slots t);
                           entries := entries t; maximum := maximum t |})
      | _ => mret (false, t)
      end
  end.

(** ** The abstract table *)

Definition slot_pair (s : TestStateSlot) : Z * TrackedTestState := (test_id (slot_test s), slot_state s).
Definition view_of (slots : list (option TestStateSlot)) : gmap Z TrackedTestState :=
  list_to_map (map slot_pair (occupied slots)).
(** The finite map a table stands for. *)
Definition view (t : TestStateTable) : gmap Z TrackedTestState := view_of (slots t).

(** The [i]-th slot a probe for [test] looks at. *)
Definition probe_at (size : Z) (test : TestId) (i : Z) : Z :=
  (test_slot_start test (size - 1) + i) mod size.

Definition is_occupied (slots : list (option TestStateSlot)) (index : Z) : Prop :=
  exists s, slots !! Z.to_nat index = Some (Some s).

(** A slot is reached from the start of its test through occupied slots. *)
Definition reached (slots : list (option TestStateSlot)) (test : TestId) (j : nat) : Prop :=
  exists d, 0 <= d < len slots /\ Z.of_nat j = probe_at (len slots) test d
    /\ forall i, 0 <= i < d -> is_occupied slots (probe_at (len slots) test i).

Record slots_ok (slots : list (option TestStateSlot)) : Prop := {
  slots_size : exists k, 1 <= k <= 33 /\ len slots = 2 ^ k;
  slots_unique : NoDup (map (fun s => test_id (slot_test s)) (occupied slots));
  slots_reached : forall j s, slots !! j = Some (Some s) -> reached slots (slot_test s) j;
}.

Record table_ok (t : TestStateTable) : Prop := {
  table_slots : slots t = [] \/ slots_ok (slots t);
  table_entries : entries t = len (occupied (slots t));
  table_load : 2 * entries t <= len (slots t);
  table_maximum : 0 <= maximum t <= u32_max;
}.

(** ** Probing *)

Section probing.
  Context (slots : list (option TestStateSlot)).
  Context (k : Z) (Hk : 1 <= k <= 33) (Hsize : len slots = 2 ^ k).

Lemma size_pos : 2 <= len slots.
  Proof. rewrite Hsize. pose proof (Z.pow_le_mono_r 2 1 k). lia. Qed.

Lemma land_mask x : Z.land x (len slots - 1) = x mod len slots.
  Proof.
    replace (len slots - 1) with (Z.ones k) by (rewrite Z.ones_equiv; lia).
    rewrite Z.land_ones by lia. by rewrite Hsize.
  Qed.

Lemma probe_start test : test_slot_start test (len slots - 1) = probe_at (len slots) test 0.
  Proof.
    unfold probe_at, test_slot_start. rewrite Z.add_0_r, !land_mask, Z.mod_mod; [done|].
    pose proof size_pos. lia.
  Qed.

Lemma probe_next test i :
    Z.land (probe_at (len slots) test i + 1) (len slots - 1) = probe_at (len slots) test (i + 1).
  Proof.
    unfold probe_at. rewrite land_mask, Z.add_assoc.
    by rewrite Z.add_mod_idemp_l by (pose proof size_pos; lia).
  Qed.

Lemma probe_bounds test i : 0 <= probe_at (len slots) test i < len slots.
  Proof. apply Z.mod_pos_bound. pose proof size_pos. lia. Qed.

Lemma probe_lookup test i : exists o, slots !! Z.to_nat (probe_at (len slots) test i) = Some o.
  Proof.
    apply lookup_lt_is_Some. pose proof (probe_bounds test i). unfold len in *. lia.
  Qed.

  (** Every slot is on the probe sequence of every test. *)
Lemma probe_covers test j :
    (j < length slots)%nat ->
    exists d, 0 <= d < len slots /\ Z.of_nat j = probe_at (len slots) test d.
  Proof.
    intros Hj. pose proof size_pos as Hn.
    exists ((Z.of_nat j - test_slot_start test (len slots - 1)) mod len slots).
    split; [apply Z.mod_pos_bound; lia|]. unfold probe_at.
    rewrite Z.add_mod_idemp_r by lia.
    replace (_ + _) with (Z.of_nat j) by lia. symmetry. apply Z.mod_small. unfold len. lia.
  Qed.
End probing.

Definition find_result (slots : list (option TestStateSlot)) (test : TestId) (r : option Z) : Prop :=
  match r with
  | Some j => exists s, slots !! Z.to_nat j = Some (Some s) /\ slot_test s = test
  | None => forall j s, slots !! j = Some (Some s) -> slot_test s <> test
  end.

Lemma find_loop_ok slots test n i :
  slots_ok slots -> i + Z.of_nat n = len slots -> 0 <= i ->
  (forall i', 0 <= i' < i -> exists s,
     slots !! Z.to_nat (probe_at (len slots) test i') = Some (Some s) /\ slot_test s <> test) ->
  exists r, quiet (find_loop n slots test (len slots - 1) i (probe_at (len slots) test i)) = Ok r
    /\ find_result slots test r.
Proof.
  intros [(k & Hk & Hsize) _ Hreach]. revert i. induction n as [|n IH]; intros i Hin Hi Hbefore.
  - exists None. split; [done|]. intros j s Hj Ht.
    destruct (Hreach j s Hj) as (d & Hd & Hjd & _). rewrite Ht in *.
    destruct (Hbefore d ltac:(lia)) as (s' & Hs' & Hne).
    rewrite <- Hjd, Nat2Z.id in Hs'. congruence.
  - cbn [find_loop]. unfold poll_entries. rewrite run_poll_when.
    destruct (probe_lookup slots k Hk Hsize test i) as [o Ho]. rewrite Ho.
    destruct o as [s|].
    + destruct (bool_decide_reflect (slot_test s = test)) as [Heq|Hne];
        [eexists; split; [done|]; by exists s|].
      rewrite (probe_next slots k Hk Hsize). apply IH; [lia..|]. intros i' Hi'.
      destruct (decide (i' = i)) as [->|]; [by eauto|]. apply Hbefore. lia.
    + exists None. split; [done|]. intros j s Hj Ht.
      destruct (Hreach j s Hj) as (d & Hd & Hjd & Hocc). rewrite Ht in *.
      destruct (Z.lt_trichotomy d i) as [Hlt|[->|Hgt]].
      * destruct (Hbefore d ltac:(lia)) as (s' & Hs' & Hne).
        rewrite <- Hjd, Nat2Z.id in Hs'. congruence.
      * rewrite <- Hjd, Nat2Z.id in Ho. congruence.
      * destruct (Hocc i ltac:(lia)) as (s' & Hs'). congruence.
Qed.

Lemma find_ok t test :
  table_ok t -> exists r, quiet (find t test) = Ok r /\ find_result (slots t) test r.
Proof.
  intros [[Hnil|Hs] _ _ _]; unfold find.
  - rewrite Hnil. exists None. split; [done|]. intros j s Hj. by rewrite lookup_nil in Hj.
  - pose proof Hs as [(k & Hk & Hsize) _ _]. pose proof (size_pos _ k Hk Hsize).
    destruct (slots t) as [|o l] eqn:E; [done|]. rewrite <- E in *.
    rewrite (probe_start _ k Hk Hsize). apply find_loop_ok; [done|unfold len; lia|lia|intros; lia].
Qed.

(** ** Occupied slots and the map *)

Lemma occupied_split slots j o :
  slots !! j = Some o ->
  exists a b, slots = a ++ o :: b /\ length a = j
    /\ occupied slots = occupied a ++ option_list o ++ occupied b
    /\ forall o', occupied (<[j := o']> slots) = occupied a ++ option_list o' ++ occupied b.
Proof.
  intros Hj. exists (take j slots), (drop (S j) slots).
  pose proof (lookup_lt_Some _ _ _ Hj) as Hlt.
  assert (Hl : length (take j slots) = j) by (rewrite length_take; lia).
  assert (Hs : slots = take j slots ++ o :: drop (S j) slots) by (symmetry; by apply take_drop_middle).
  split_and!; [done|done| |].
  - rewrite Hs at 1. unfold occupied. rewrite omap_app. by destruct o.
  - intros o'. rewrite insert_take_drop by done. unfold occupied. rewrite omap_app. by destruct o'.
Qed.

Lemma elem_of_occupied slots s : s ∈ occupied slots <-> exists j, slots !! j = Some (Some s).
Proof.
  unfold occupied. rewrite list_elem_of_omap. split.
  - intros (o & Ho & Hs). apply list_elem_of_lookup_1 in Ho as [j Hj]. cbn in Hs. subst. eauto.
  - intros [j Hj]. exists (Some s). split; [|done]. by eapply list_elem_of_lookup_2.
Qed.

(** Writing into an empty slot adds one entry. *)
Lemma occupied_insert slots j s :
  slots !! j = Some None -> occupied (<[j := Some s]> slots) ≡ₚ s :: occupied slots.
Proof.
  intros (a & b & _ & _ & Ho & Hi)%occupied_split. rewrite Hi, Ho. simpl.
  by rewrite Permutation_middle.
Qed.

Lemma occupied_update slots j s s' :
  slots !! j = Some (Some s) ->
  exists rest, occupied slots ≡ₚ s :: rest /\ occupied (<[j := Some s']> slots) ≡ₚ s' :: rest.
Proof.
  intros (a & b & _ & _ & Ho & Hi)%occupied_split. exists (occupied a ++ occupied b).
  rewrite Hi, Ho. simpl. by rewrite !Permutation_middle.
Qed.

(** ** Placing *)

Lemma empty_slot_exists slots :
  (length (occupied slots) < length slots)%nat -> exists j, slots !! j = Some None.
Proof.
  induction slots as [|[s|] l IH]; simpl; [lia| |by exists 0%nat].
  intros Hl. destruct IH as [j Hj]; [exact (proj2 (Nat.succ_lt_mono _ _) Hl)|by exists (S j)].
Qed.

Lemma place_loop_ok slots slot n i :
  (exists k, 1 <= k <= 33 /\ len slots = 2 ^ k) ->
  i + Z.of_nat n = len slots -> 0 <= i ->
  (exists j, slots !! j = Some None) ->
  (forall i', 0 <= i' < i -> is_occupied slots (probe_at (len slots) (slot_test slot) i')) ->
  exists d, i <= d < len slots
    /\ slots !! Z.to_nat (probe_at (len slots) (slot_test slot) d) = Some None
    /\ (forall i', 0 <= i' < d -> is_occupied slots (probe_at (len slots) (slot_test slot) i'))
    /\ quiet (place_loop n slots slot (len slots - 1) i (probe_at (len slots) (slot_test slot) i))
       = Ok (true, <[Z.to_nat (probe_at (len slots) (slot_test slot) d) := Some slot]> slots).
Proof.
  intros (k & Hk & Hsize). revert i. induction n as [|n IH]; intros i Hin Hi Hempty Hbefore.
  - destruct Hempty as [j Hj].
    destruct (probe_covers slots k Hk Hsize (slot_test slot) j) as (d & Hd & Hjd);
      [by eapply lookup_lt_Some|].
    destruct (Hbefore d ltac:(lia)) as (s & Hs). rewrite <- Hjd, Nat2Z.id in Hs. congruence.
  - cbn [place_loop]. unfold poll_entries. rewrite run_poll_when.
    destruct (probe_lookup slots k Hk Hsize (slot_test slot) i) as [[s|] Ho]; rewrite Ho.
    + rewrite (probe_next slots k Hk Hsize).
      destruct (IH (i + 1)) as (d & Hd & Hne & Hocc & Hr); [lia|lia|done| |].
      { intros i' Hi'. destruct (decide (i' = i)) as [->|]; [by exists s|]. apply Hbefore. lia. }
      exists d. split_and!; [lia..|done|done|done].
    + exists i. split_and!; [lia..|done|done|done].
Qed.

Lemma is_occupied_insert slots j s x :
  is_occupied slots x -> is_occupied (<[j := Some s]> slots) x.
Proof.
  intros [s' Hs']. destruct (decide (j = Z.to_nat x)) as [->|].
  - exists s. apply list_lookup_insert_eq. by eapply lookup_lt_Some.
  - exists s'. by rewrite list_lookup_insert_ne.
Qed.

Lemma len_insert {A} (l : list A) j x : len (<[j := x]> l) = len l.
Proof. unfold len. by rewrite length_insert. Qed.

Lemma reached_insert slots j s test j' :
  reached slots test j' -> reached (<[j := Some s]> slots) test j'.
Proof.
  intros (d & Hd & Hj & Hocc). exists d. rewrite len_insert. split_and!; [lia|lia|done|].
  intros i Hi. by apply is_occupied_insert, Hocc.
Qed.

Lemma place_test_slot_loop slots slot :
  slots <> [] ->
  place_test_slot slots slot =
    place_loop (length slots) slots slot (len slots - 1) 0
      (test_slot_start (slot_test slot) (len slots - 1)).
Proof. by destruct slots. Qed.

Lemma place_ok slots slot :
  slots_ok slots -> len (occupied slots) < len slots ->
  slot_test slot ∉ map slot_test (occupied slots) ->
  exists slots', quiet (place_test_slot slots slot) = Ok (true, slots')
    /\ slots_ok slots' /\ len slots' = len slots
    /\ occupied slots' ≡ₚ slot :: occupied slots.
Proof.
  intros [Hsize Hnd Hreach] Hroom Hnew. pose proof Hsize as (k & Hk & Hs).
  pose proof (size_pos _ k Hk Hs).
  destruct (place_loop_ok slots slot (length slots) 0) as (d & Hd & Hj & Hocc & Hr);
    [done|unfold len; lia|lia| |intros; lia|].
  { apply empty_slot_exists. unfold len in Hroom. lia. }
  set (j := Z.to_nat _) in *. exists (<[j := Some slot]> slots).
  assert (Hperm : occupied (<[j := Some slot]> slots) ≡ₚ slot :: occupied slots)
    by (by apply occupied_insert).
  split_and!; [|split|apply len_insert|done].
  - rewrite place_test_slot_loop by (intros ->; done). by rewrite (probe_start _ k Hk Hs).
  - rewrite len_insert. eauto.
  - rewrite (Permutation_map _ Hperm). simpl. apply NoDup_cons. split; [|done].
    intros (s & Hs' & Hin)%list_elem_of_fmap. apply Hnew, list_elem_of_fmap. exists s.
    split; [|done]. destruct (slot_test slot), (slot_test s). simpl in Hs'. congruence.
  - intros j' s' Hj'. destruct (decide (j = j')) as [<-|Hne].
    + rewrite list_lookup_insert_eq in Hj' by (by eapply lookup_lt_Some). injection Hj' as <-.
      apply reached_insert. exists d. split_and!; [lia|lia| |done].
      unfold j. rewrite Z2Nat.id; [done|]. by apply (probe_bounds slots k).
    + rewrite list_lookup_insert_ne in Hj' by done. by apply reached_insert, Hreach.
Qed.

(** ** Rehashing *)

Lemma replicate_slots_ok k :
  1 <= k <= 33 ->
  let slots := replicate (Z.to_nat (2 ^ k)) (@None TestStateSlot) in
  slots_ok slots /\ len slots = 2 ^ k /\ occupied slots = [].
Proof.
  intros Hk slots. assert (Hl : len slots = 2 ^ k).
  { unfold len, slots. rewrite length_replicate. lia. }
  assert (Ho : occupied slots = []).
  { unfold slots. generalize (Z.to_nat (2 ^ k)) as n. induction n; [done|]. by simpl. }
  split_and!; [|done|done]. split; [by eauto|rewrite Ho; constructor|].
  intros j s Hj. by apply lookup_replicate in Hj as [? _].
Qed.

Lemma rehash_ok index old slots :
  slots_ok slots -> len (occupied slots) + len old < len slots ->
  NoDup (map slot_test (old ++ occupied slots)) ->
  exists slots', quiet (rehash index old slots) = Ok slots'
    /\ slots_ok slots' /\ len slots' = len slots
    /\ occupied slots' ≡ₚ old ++ occupied slots.
Proof.
  revert index slots. induction old as [|s old IH]; intros index slots Hok Hroom Hnd.
  { exists slots. split_and!; done. }
  rewrite len_cons in Hroom. pose proof (len_nonneg old).
  cbn [rehash app map] in *. apply NoDup_cons in Hnd as [Hnew Hnd].
  destruct (place_ok slots s) as (slots1 & Hp & Hok1 & Hl1 & Hperm1); [done|lia| |].
  { intros Hin. apply Hnew. rewrite map_app. apply elem_of_app. by right. }
  destruct (IH (index + 1) slots1) as (slots' & Hr & Hok' & Hl' & Hperm'); [done| | |].
  - unfold len at 1. rewrite Hperm1. fold (len (s :: occupied slots)). rewrite len_cons. lia.
  - rewrite Hperm1, <- Permutation_middle. simpl. by apply NoDup_cons.
  - exists slots'. split_and!; [|done|lia|by rewrite Hperm', Hperm1, <- Permutation_middle].
    unfold poll_entries. rewrite run_poll_when, (run_ok _ _ _ Hp). done.
Qed.

(** ** Growing *)

Lemma next_power_of_two n :
  2 <= n <= 2 ^ 33 ->
  exists m, checked_next_power_of_two n = Some (2 ^ m) /\ 1 <= m <= 33 /\ n <= 2 ^ m.
Proof.
  intros Hn. exists (Z.log2_up n). pose proof (Z.log2_up_spec n ltac:(lia)) as [_ Hle].
  assert (Hm : Z.log2_up n <= 33) by (apply Z.log2_up_le_pow2; lia).
  assert (Hp : 0 < Z.log2_up n) by (apply Z.log2_up_pos; lia).
  split_and!; [|lia|lia|done]. unfold checked_next_power_of_two.
  rewrite (proj2 (Z.leb_gt n 1)) by lia.
  rewrite (proj2 (Z.ltb_lt _ _)); [done|]. apply Z.pow_lt_mono_r; unfold usize; lia.
Qed.

Lemma pow2_even k : 1 <= k -> 2 ^ k = 2 * (2 ^ k / 2).
Proof.
  intros Hk. replace k with (Z.succ (k - 1)) by lia. rewrite Z.pow_succ_r by lia.
  rewrite (Z.mul_comm 2 (2 ^ (k - 1))), Z.div_mul by lia. lia.
Qed.

Definition grown (t t' : TestStateTable) : Prop :=
  slots_ok (slots t') /\ occupied (slots t') ≡ₚ occupied (slots t)
  /\ 2 * (entries t + 1) <= len (slots t')
  /\ entries t' = entries t /\ maximum t' = maximum t.

(** Growing to a power of two with room for one more entry. *)
Lemma grow_ok t m :
  table_ok t -> 1 <= m <= 33 -> 2 * (entries t + 1) <= 2 ^ m ->
  exists slots', quiet (rehash 0 (occupied (slots t)) (replicate (Z.to_nat (2 ^ m)) None)) = Ok slots'
    /\ grown t {| slots := slots'; entries := entries t; maximum := maximum t |}.
Proof.
  intros [Hslots Hent Hload _] Hm Hroom.
  destruct (replicate_slots_ok m Hm) as (Hrep & Hlen & Hocc).
  destruct (rehash_ok 0 (occupied (slots t)) (replicate (Z.to_nat (2 ^ m)) None))
    as (slots' & Hr & Hok & Hl & Hperm); [done| | |].
  - rewrite Hlen, Hocc, len_nil. lia.
  - rewrite Hocc, app_nil_r. destruct Hslots as [->|[_ Hnd _]]; [constructor|].
    eapply (NoDup_fmap_1 test_id). by rewrite <- list_fmap_compose.
  - exists slots'. split; [done|]. rewrite Hocc, app_nil_r in Hperm.
    repeat split; cbn; try done; try apply Hok. by rewrite Hl, Hlen.
Qed.

Lemma ensure_insert_capacity_ok t :
  table_ok t -> entries t + 1 <= maximum t ->
  exists t', quiet (ensure_insert_capacity t) = Ok t' /\ grown t t'.
Proof.
  intros Hok Hmax. pose proof Hok as [Hslots Hent Hload Hm].
  pose proof (len_nonneg (occupied (slots t))). unfold u32_max in Hm.
  unfold ensure_insert_capacity.
  erewrite run_ok_or by (apply checked_add_Some; unfold usize; split; [lia|done]).
  rewrite run_fail_if by (apply Z.ltb_ge; lia).
  destruct (next_power_of_two (maximum t * 2)) as (m & Hnext & Hm' & Hle); [lia|].
  assert (Hcap : checked_mul usize (maximum t) 2 ≫= checked_next_power_of_two = Some (2 ^ m)).
  { unfold checked_mul, usize. rewrite (proj2 (Z.ltb_lt _ _)) by lia. done. }
  destruct Hslots as [Hnil|Hs].
  - rewrite Hnil, bool_decide_true by done. cbn [negb andb].
    rewrite (run_ok_or _ _ _ _ Hcap), (run_ok _ _ 2) by done.
    rewrite Z.min_l by lia. rewrite Hnil in Hload. change (len []) with 0 in *.
    rewrite run_fail_if, run_try_reserve by (apply orb_false_iff; rewrite Z.leb_gt, Z.ltb_ge; lia).
    destruct (grow_ok t 1 Hok) as (slots' & Hr & Hg); [lia|lia|].
    rewrite Hnil in Hr. rewrite (run_ok _ _ _ Hr). eauto.
  - pose proof Hs as [(k & Hk & Hsize) _ _]. pose proof (pow2_even k ltac:(lia)) as Heven.
    rewrite bool_decide_false by (intros E; rewrite E in Hsize; pose proof (Z.pow_pos_nonneg 2 k);
                                  change (len (@nil (option TestStateSlot))) with 0 in Hsize; lia).
    cbn [negb andb]. rewrite Hsize.
    destruct (Z.leb_spec (entries t + 1) (2 ^ k / 2)).
    { exists t. split; [done|]. repeat split; try done; try apply Hs. lia. }
    rewrite (run_ok_or _ _ _ _ Hcap).
    assert (Hkm : k < m).
    { apply (Z.pow_lt_mono_r_iff 2); lia. }
    assert (Hdouble : 2 ^ k * 2 = 2 ^ (k + 1)) by (rewrite Z.pow_add_r; lia).
    pose proof (Z.pow_le_mono_r 2 (k + 1) m). pose proof (Z.pow_le_mono_r 2 (k + 1) 33).
    rewrite (run_ok_or _ _ _ (2 ^ (k + 1))) by (apply checked_mul_Some; unfold usize; lia).
    rewrite Z.min_l by lia.
    rewrite run_fail_if, run_try_reserve by (apply orb_false_iff; rewrite Z.leb_gt, Z.ltb_ge; lia).
    destruct (grow_ok t (k + 1) Hok) as (slots' & Hr & Hg); [lia|lia|].
    rewrite (run_ok _ _ _ Hr). eauto.
Qed.

(** ** The refinement *)

Lemma keys_of l : (map slot_pair l).*1 = map (fun s => test_id (slot_test s)) l.
Proof. by rewrite <- list_fmap_compose. Qed.

Lemma view_perm a b :
  NoDup (map (fun s => test_id (slot_test s)) (occupied a)) ->
  occupied b ≡ₚ occupied a -> view_of b = view_of a.
Proof.
  intros Hnd Hp. unfold view_of. symmetry. apply list_to_map_proper.
  - by rewrite keys_of.
  - by rewrite Hp.
Qed.

Lemma view_cons l a s :
  NoDup (map (fun s => test_id (slot_test s)) (s :: l)) -> occupied a ≡ₚ s :: l ->
  view_of a = <[test_id (slot_test s) := slot_state s]> (list_to_map (map slot_pair l)).
Proof.
  intros Hnd Hp. unfold view_of. symmetry.
  change (<[_ := _]> _) with (list_to_map (M := gmap Z TrackedTestState) (map slot_pair (s :: l))).
  apply list_to_map_proper; [by rewrite keys_of|by rewrite Hp].
Qed.

Lemma view_lookup slots test st :
  NoDup (map (fun s => test_id (slot_test s)) (occupied slots)) ->
  view_of slots !! test_id test = Some st <->
  {| slot_test := test; slot_state := st |} ∈ occupied slots.
Proof.
  intros Hnd. unfold view_of. destruct test as [i].
  rewrite <- elem_of_list_to_map by (by rewrite keys_of).
  rewrite list_elem_of_fmap. split.
  - by intros ([[i'] st'] & [= -> ->] & H).
  - intros H. by exists {| slot_test := {| test_id := i |}; slot_state := st |}.
Qed.

Lemma table_unique t :
  table_ok t -> NoDup (map (fun s => test_id (slot_test s)) (occupied (slots t))).
Proof. intros [[->|[_ Hnd _]] _ _ _]; [constructor|done]. Qed.


Lemma view_found t test j s :
  table_ok t -> slots t !! j = Some (Some s) -> slot_test s = test ->
  view t !! test_id test = Some (slot_state s).
Proof.
  intros Ht Hj <-. apply view_lookup; [by apply table_unique|].
  apply elem_of_occupied. exists j. by destruct s.
Qed.

Lemma view_absent t test :
  table_ok t -> (forall j s, slots t !! j = Some (Some s) -> slot_test s <> test) ->
  view t !! test_id test = None.
Proof.
  intros Ht Hno. destruct (view t !! test_id test) as [st|] eqn:E; [|done].
  apply view_lookup in E; [|by apply table_unique].
  apply elem_of_occupied in E as [j Hj]. by destruct (Hno j _ Hj).
Qed.

(** Looking a test up. *)
Lemma state_ok t test : table_ok t -> quiet (state t test) = Ok (view t !! test_id test).
Proof.
  intros Ht. destruct (find_ok t test Ht) as ([j|] & Hf & Hr); unfold state; rewrite (run_ok _ _ _ Hf).
  - destruct Hr as (s & Hj & Hs). rewrite Hj, (view_found t test _ s Ht Hj Hs). done.
  - by rewrite (view_absent t test Ht Hr).
Qed.

(** The operations of the map the table stands for. *)
Definition abs_insert (m : gmap Z TrackedTestState) (maximum : Z) (test : TestId)
    : result ProtocolError (bool * gmap Z TrackedTestState) :=
  if m !! test_id test is Some _ then Ok (false, m)
  else if maximum <? Z.of_nat (size m) + 1
  then Err (ResourceLimit "test-state entries" maximum)
  else Ok (true, <[test_id test := Active]> m).
Definition abs_finish (m : gmap Z TrackedTestState) (test : TestId) : bool * gmap Z TrackedTestState :=
  match m !! test_id test with
  | Some Active => (true, <[test_id test := Finished]> m)
  | _ => (false, m)
  end.

(** The table and the map take the same step. *)
Definition same_step (t : TestStateTable) (concrete : result ProtocolError (bool * TestStateTable))
    (abstract : result ProtocolError (bool * gmap Z TrackedTestState)) : Prop :=
  match concrete, abstract with
  | Ok (b, t'), Ok (b', m') => b = b' /\ view t' = m' /\ table_ok t' /\ maximum t' = maximum t
  | Err e, Err e' => e = e'
  | _, _ => False
  end.

Lemma insert_new_ok t test :
  table_ok t -> view t !! test_id test = None -> entries t + 1 <= maximum t ->
  (exists r, quiet (find t test) = Ok r /\ r = None) ->
  exists t', quiet (insert_active t test) = Ok (true, t')
    /\ table_ok t' /\ view t' = <[test_id test := Active]> (view t) /\ maximum t' = maximum t.
Proof.
  intros Ht Hnew Hmax (r & Hf & ->).
  destruct (ensure_insert_capacity_ok t Ht Hmax) as (t1 & He & Hs1 & Hp1 & Hl1 & He1 & Hm1).
  pose proof (table_entries _ Ht) as Hent. pose proof (table_unique _ Ht) as Hnd.
  pose proof (table_maximum _ Ht). pose proof (len_nonneg (occupied (slots t))).
  assert (Hlen : len (occupied (slots t1)) = entries t) by (unfold len in *; by rewrite Hp1).
  set (s := {| slot_test := test; slot_state := Active |}).
  destruct (place_ok (slots t1) s) as (slots' & Hpl & Hs' & Hl' & Hp'); [done|lia| |].
  { rewrite (Permutation_map _ Hp1). intros (s' & Hs' & Hin)%list_elem_of_fmap.
    cbn in Hs'. subst test. destruct s' as [test st]. cbn in Hnew. unfold view in Hnew.
    by rewrite (proj2 (view_lookup _ test st Hnd)) in Hnew. }
  assert (Hnd' : NoDup (map (fun s => test_id (slot_test s)) (s :: occupied (slots t)))).
  { pose proof (slots_unique _ Hs') as H'. by rewrite Hp', Hp1 in H'. }
  exists {| slots := slots'; entries := entries t + 1; maximum := maximum t |}. split_and!.
  - unfold insert_active. rewrite (run_ok _ _ _ Hf), (run_ok _ _ _ He), (run_ok _ _ _ Hpl).
    rewrite run_fail_if by done. rewrite He1, Hm1.
    erewrite run_ok_or; [done|]. apply checked_add_Some. unfold u32_max, usize in *. lia.
  - split; cbn; [by right| | |lia].
    + unfold len. rewrite Hp', Hp1. fold (len (s :: occupied (slots t))). rewrite len_cons. lia.
    + lia.
  - unfold view at 1. cbn [slots].
    rewrite (view_cons (occupied (slots t)) slots' s Hnd'); [done|by rewrite Hp', Hp1].
  - done.
Qed.

Lemma table_size t : table_ok t -> entries t = Z.of_nat (size (view t)).
Proof.
  intros Ht. rewrite (table_entries _ Ht). unfold view, view_of, len.
  rewrite map_size_list_to_map by (rewrite keys_of; by apply table_unique).
  by rewrite length_map.
Qed.

Lemma entries_small t : table_ok t -> 0 <= entries t < 2 ^ 33.
Proof.
  intros [Hs He Hl _]. pose proof (len_nonneg (occupied (slots t))).
  destruct Hs as [Hnil|[(k & Hk & Hsize) _ _]].
  - rewrite Hnil in Hl. change (len []) with 0 in Hl. lia.
  - pose proof (Z.pow_le_mono_r 2 k 33). lia.
Qed.

Lemma ensure_insert_capacity_full t :
  table_ok t -> maximum t < entries t + 1 ->
  quiet (ensure_insert_capacity t) = Err (ResourceLimit "test-state entries" (maximum t)).
Proof.
  intros Ht Hfull. pose proof (entries_small t Ht). unfold ensure_insert_capacity.
  erewrite run_ok_or by (apply checked_add_Some; unfold usize; split; [lia|done]).
  by rewrite (proj2 (Z.ltb_lt _ _) Hfull).
Qed.

Lemma insert_active_ok t test :
  table_ok t ->
  same_step t (quiet (insert_active t test)) (abs_insert (view t) (maximum t) test).
Proof.
  intros Ht. unfold abs_insert. rewrite <- table_size by done.
  destruct (find_ok t test Ht) as ([j|] & Hf & Hr).
  - destruct Hr as (s & Hj & Hs). rewrite (view_found t test _ s Ht Hj Hs).
    unfold insert_active. by rewrite (run_ok _ _ _ Hf).
  - rewrite (view_absent t test Ht Hr).
    destruct (Z.ltb_spec (maximum t) (entries t + 1)) as [Hlt|Hge].
    + unfold insert_active. by rewrite (run_ok _ _ _ Hf), quiet_bind, ensure_insert_capacity_full.
    + destruct (insert_new_ok t test Ht (view_absent t test Ht Hr) Hge) as (t' & -> & ? & ? & ?);
        [by eauto|done].
Qed.

Lemma mark_finished_ok t test :
  table_ok t -> same_step t (quiet (mark_finished t test)) (Ok (abs_finish (view t) test)).
Proof.
  intros Ht. unfold abs_finish, mark_finished.
  destruct (find_ok t test Ht) as ([j|] & Hf & Hr); rewrite (run_ok _ _ _ Hf);
    [|by rewrite (view_absent t test Ht Hr)].
  destruct Hr as (s & Hj & <-). rewrite Hj, (view_found t _ _ s Ht Hj eq_refl).
  destruct (slot_state s) eqn:Est; cbn [negb]; [|done].
  rewrite bool_decide_true by done. cbn [negb]. rewrite quiet_ret.
  set (s' := {| slot_test := slot_test s; slot_state := Finished |}).
  destruct (occupied_update (slots t) _ s s' Hj) as (rest & Hp & Hp').
  pose proof (table_unique _ Ht) as Hnd. rewrite Hp in Hnd.
  destruct Ht as [Hs He Hl Hm]. split; [done|]. split_and!; [| |done].
  - unfold view. cbn [slots]. rewrite (view_cons rest _ s' Hnd Hp'), (view_cons rest _ s Hnd Hp).
    cbn. by rewrite insert_insert_eq.
  - assert (Hlen : len (occupied (<[Z.to_nat j := Some s']> (slots t))) = len (occupied (slots t)))
      by (unfold len; rewrite Hp, Hp'; done).
    split; cbn [slots entries maximum]; [right|lia|by rewrite len_insert|done].
    destruct Hs as [Hnil|[Hsize Hu Hreach]]; [by rewrite Hnil, lookup_nil in Hj|].
    split; [by rewrite len_insert|by rewrite Hp'|]. intros i x Hi. apply reached_insert.
    destruct (decide (i = Z.to_nat j)) as [->|Hne].
    + rewrite list_lookup_insert_eq in Hi by (by eapply lookup_lt_Some). injection Hi as <-.
      by apply (Hreach _ s).
    + rewrite list_lookup_insert_ne in Hi by done. by apply Hreach.
Qed.

(** C25: the hash table is a finite map. On every table that satisfies the
    invariant, looking a test up, starting it and finishing it return what the
    map returns and keep the invariant; in particular probing finds every
    stored test, growing loses none, and an insertion fails only when the map
    already holds [maximum] tests. *)
Theorem table_refines_map t test :
  table_ok t ->
  quiet (state t test) = Ok (view t !! test_id test)
  /\ same_step t (quiet (insert_active t test)) (abs_insert (view t) (maximum t) test)
  /\ same_step t (quiet (mark_finished t test)) (Ok (abs_finish (view t) test)).
Proof.
  intros Ht. split; [by apply state_ok|].
  split; [by apply insert_active_ok|by apply mark_finished_ok].
Qed.

Lemma new_table_ok maximum : 0 <= maximum <= u32_max -> table_ok (new_table maximum).
Proof. intros H. split; try done. by left. Qed.

Definition three_tests : result ProtocolError (bool * TestStateTable) :=
  '(_, t) ← quiet (insert_active (new_table 3) {| test_id := 0 |});
  '(_, t) ← quiet (insert_active t {| test_id := 0x10000 |});
  quiet (insert_active t {| test_id := 5 |}).

Lemma inserted_ok t test b t' : table_ok t -> quiet (insert_active t test) = Ok (b, t') -> table_ok t'.
Proof.
  intros Ht H. pose proof (insert_active_ok t test Ht) as Hs. rewrite H in Hs. unfold same_step in Hs.
  destruct (abs_insert _ _ _) as [[]|]; [|done]. tauto.
Qed.

Lemma three_tests_ok b t : three_tests = Ok (b, t) -> table_ok t.
Proof.
  unfold three_tests. intros ([b1 t1] & H1 & ([b2 t2] & H2 & H3)%result_bind_Ok)%result_bind_Ok.
  do 2 (eapply inserted_ok; [|eassumption]). eapply inserted_ok; [|exact H1].
  apply new_table_ok. unfold u32_max. lia.
Qed.

Definition three_table : TestStateTable :=
  match three_tests with Ok (_, t) => t | Err _ => new_table 0 end.

(** The table of three tests has grown once and is at its maximum: it finds a
    test, marks it as finished, and refuses a fourth. *)
Example table_refines_map_witness :
  table_ok three_table
  /\ quiet (state three_table {| test_id := 0x10000 |}) = Ok (Some Active)
  /\ same_step three_table (quiet (mark_finished three_table {| test_id := 0x10000 |}))
       (Ok (true, <[0x10000 := Finished]> (view three_table)))
  /\ same_step three_table (quiet (insert_active three_table {| test_id := 7 |}))
       (Err (ResourceLimit "test-state entries" 3)).
Proof.
  assert (H : table_ok three_table).
  { destruct three_tests as [[b t]|e] eqn:E; [|vm_compute in E; discriminate].
    unfold three_table. rewrite E. exact (three_tests_ok b t E). }
  split; [exact H|].
  pose proof (table_refines_map three_table {| test_id := 0x10000 |} H) as (Hs & _ & Hf).
  pose proof (table_refines_map three_table {| test_id := 7 |} H) as (_ & Hi & _).
  split; [|split].
  - rewrite Hs. vm_compute. reflexivity.
  - assert (Hv : view three_table !! 0x10000 = Some Active) by (vm_compute; reflexivity).
    unfold abs_finish in Hf. cbn [test_id] in Hf. rewrite Hv in Hf. exact Hf.
  - assert (Ha : abs_insert (view three_table) (maximum three_table) {| test_id := 7 |}
      = Err (ResourceLimit "test-state entries" 3)) by (vm_compute; reflexivity).
    rewrite Ha in Hi. exact Hi.
Defined.

Example three_tests_grow :
  match three_tests with Ok (b, t) => b = true /\ len (slots t) = 8 | Err _ => False end.
Proof. vm_compute. split; reflexivity. Qed.

(** ** Interruption *)

#[export] Instance poll_entries_interruptible i : interruptible interruption (poll_entries i).
Proof. unfold poll_entries. apply _. Qed.
#[export] Instance find_loop_interruptible n l test m p i :
  interruptible interruption (find_loop n l test m p i).
Proof.
  revert p i. induction n as [|n IH]; intros p i; cbn [find_loop]; [apply _|].
  apply interruptible_bind; [apply _|intros _]. repeat case_match; apply _.
Qed.
#[export] Instance find_interruptible t test : interruptible interruption (find t test).
Proof. unfold find. destruct (slots t); apply _. Qed.
#[export] Instance state_interruptible t test : interruptible interruption (state t test).
Proof. unfold state. apply _. Qed.
#[export] Instance place_loop_interruptible n l s m p i :
  interruptible interruption (place_loop n l s m p i).
Proof.
  revert p i. induction n as [|n IH]; intros p i; cbn [place_loop]; [apply _|].
  apply interruptible_bind; [apply _|intros _]. repeat case_match; apply _.
Qed.
#[export] Instance place_interruptible l s : interruptible interruption (place_test_slot l s).
Proof. unfold place_test_slot. destruct l; apply _. Qed.
#[export] Instance rehash_interruptible i old l : interruptible interruption (rehash i old l).
Proof.
  revert i l. induction old as [|s old IH]; intros i l; cbn [rehash]; [apply _|].
  apply interruptible_bind; [apply _|intros _]. apply interruptible_bind; [apply _|intros [? ?]].
  apply _.
Qed.
#[export] Instance ensure_interruptible t : interruptible interruption (ensure_insert_capacity t).
Proof.
  unfold ensure_insert_capacity. do 2 (apply interruptible_bind; [apply _|intros ?]).
  case_match; [apply _|]. apply interruptible_bind; [apply _|intros ?].
  apply interruptible_bind; [case_match; apply _|intros ?]. apply _.
Qed.
#[export] Instance insert_interruptible t test : interruptible interruption (insert_active t test).
Proof.
  unfold insert_active. apply interruptible_bind; [apply _|intros [?|]]; [apply _|].
  apply interruptible_bind; [apply _|intros ?]. apply interruptible_bind; [apply _|intros [? ?]].
  apply _.
Qed.
#[export] Instance mark_interruptible t test : interruptible interruption (mark_finished t test).
Proof.
  unfold mark_finished. apply interruptible_bind; [apply _|intros ?].
  repeat case_match; apply _.
Qed.
