(* ===== verification/TestStream.v ===== *)
(** Streams of test events ([crates/wrela-test-protocol]): the order the
    events of a run must have ([StreamState]) and the decoding of a complete
    stream of frames ([decode_and_verify_stream]). *)

From Stdlib Require Import Strings.Byte Sorting.Sorted.
From stdpp Require Import base numbers list option strings gmap sorting.
From S2P Require Import Prelude Bytes Order Interrupt Text Source TestEvents Crc32c TestFrames TestCodec TestTable.

#[local] Open Scope Z_scope.

Record StreamState := {
  declared_tests : option Z;
  tests : TestStateTable;
  started : Z;
  finished : Z;
  passed : Z;
  failed : Z;
  language_fatal : bool;
  pending_assertion : option (TestId * str);
  last_heartbeat : option Z;
  terminal : bool;
}.

(** [StreamState::new]. *)
Definition new_state (maximum_tests : Z) : StreamState :=
  {| declared_tests := None; tests := new_table maximum_tests; started := 0; finished := 0;
     passed := 0; failed := 0; language_fatal := false; pending_assertion := None;
     last_heartbeat := None; terminal := false |}.

(** Assignments to the fields of [self]. *)
Definition declare (s : StreamState) (test_count : Z) : StreamState :=
  {| declared_tests := Some test_count; tests := set_maximum (tests s) test_count;
     started := started s; finished := finished s; passed := passed s; failed := failed s;
     language_fatal := language_fatal s; pending_assertion := pending_assertion s;
     last_heartbeat := last_heartbeat s; terminal := terminal s |}.
Definition with_started (s : StreamState) (tests : TestStateTable) (started : Z) : StreamState :=
  {| declared_tests := declared_tests s; tests := tests; started := started;
     finished := finished s; passed := passed s; failed := failed s;
     language_fatal := language_fatal s; pending_assertion := pending_assertion s;
     last_heartbeat := last_heartbeat s; terminal := terminal s |}.
Definition with_finished (s : StreamState) (tests : TestStateTable) (finished passed failed : Z)
    (fatal : bool) : StreamState :=
  {| declared_tests := declared_tests s; tests := tests; started := started s;
     finished := finished; passed := passed; failed := failed;
     language_fatal := language_fatal s || fatal; pending_assertion := None;
     last_heartbeat := last_heartbeat s; terminal := terminal s |}.
Definition with_pending (s : StreamState) (pending : TestId * str) : StreamState :=
  {| declared_tests := declared_tests s; tests := tests s; started := started s;
     finished := finished s; passed := passed s; failed := failed s;
     language_fatal := language_fatal s; pending_assertion := Some pending;
     last_heartbeat := last_heartbeat s; terminal := terminal s |}.
Definition with_heartbeat (s : StreamState) (ticks : Z) : StreamState :=
  {| declared_tests := declared_tests s; tests := tests s; started := started s;
     finished := finished s; passed := passed s; failed := failed s;
     language_fatal := language_fatal s; pending_assertion := pending_assertion s;
     last_heartbeat := Some ticks; terminal := terminal s |}.
Definition with_terminal (s : StreamState) : StreamState :=
  {| declared_tests := declared_tests s; tests := tests s; started := started s;
     finished := finished s; passed := passed s; failed := failed s;
     language_fatal := language_fatal s; pending_assertion := pending_assertion s;
     last_heartbeat := last_heartbeat s; terminal := true |}.

Definition checked_stream_count (value limit : Z) (resource : string) : result ProtocolError Z :=
  ok_or (match checked_add 32 value 1 with
         | Some value => if value <=? limit then Some value else None
         | None => None
         end) (ResourceLimit resource limit).

Definition require_active (s : StreamState) (sequence : Z) (test : TestId) (event : string)
    : prog ProtocolError unit :=
  st ← state (tests s) test;
  fail_if (negb (bool_decide (st = Some Active)))
    (InvalidTestReference sequence (test_id test) event).

Definition is_run_finished (k : TestEventKind) : bool :=
  match k with RunFinished _ _ => true | _ => false end.

(** The terminal event a failed assertion demands. *)
Definition finishes_assertion (asserted : TestId * str) (k : TestEventKind) : bool :=
  match k with
  | TestFinished test (Failed message) =>
      bool_decide (test = asserted.1) && bool_decide (message = asserted.2)
  | _ => false
  end.

Definition observe_started (s : StreamState) (sequence declared : Z) (test : TestId)
    : prog ProtocolError StreamState :=
  actual ← lift (ok_or (checked_add 32 (started s) 1) (ResourceLimit "started test count" declared));
  _ ← fail_if (declared <? actual) (TestCountExceeded sequence declared actual);
  '(inserted, tests) ← insert_active (tests s) test;
  _ ← fail_if (negb inserted) (DuplicateTestStart sequence (test_id test));
  mret (with_started s tests actual).

Definition observe_finished (s : StreamState) (sequence declared : Z) (test : TestId)
    (outcome : GuestTestOutcome) : prog ProtocolError StreamState :=
  _ ← require_active s sequence test "TestFinished";
  '(marked, tests) ← mark_finished (tests s) test;
  _ ← fail_if (negb marked) (InvalidTestReference sequence (test_id test) "TestFinished");
  finished ← lift (checked_stream_count (finished s) declared "finished tests");
  match outcome with
  | Passed =>
      passed ← lift (checked_stream_count (passed s) declared "passed tests");
      mret (with_finished s tests finished passed (failed s) false)
  | Failed _ | TimedOut _ =>
      failed ← lift (checked_stream_count (failed s) declared "failed tests");
      mret (with_finished s tests finished (passed s) failed false)
  | LanguageFatal _ =>
      failed ← lift (checked_stream_count (failed s) declared "failed tests");
      mret (with_finished s tests finished (passed s) failed true)
  end.

Definition observe_summary (s : StreamState) (sequence declared reported_passed reported_failed : Z)
    : prog ProtocolError StreamState :=
  _ ← fail_if (negb (started s =? declared) || negb (finished s =? declared)
               || negb (passed s =? reported_passed) || negb (failed s =? reported_failed)
               || negb (bool_decide (checked_add 32 reported_passed reported_failed = Some declared)))
        (StreamSummaryMismatch sequence declared (started s) (finished s) (passed s) (failed s)
           reported_passed reported_failed);
  mret (with_terminal s).

(** The [match] on the kind of an event that is not [RunStarted]. *)
Definition observe_kind (s : StreamState) (sequence declared : Z) (k : TestEventKind)
    : prog ProtocolError StreamState :=
  match k with
  | TestStarted test => observe_started s sequence declared test
  | Log (Some test) _ _ => _ ← require_active s sequence test "Log"; mret s
  | AssertionFailed test failure =>
      _ ← require_active s sequence test "AssertionFailed";
      mret (with_pending s (test, default (ascii "assertion failed") (message failure)))
  | TestFinished test outcome => observe_finished s sequence declared test outcome
  | Heartbeat monotonic_ticks =>
      _ ← match last_heartbeat s with
          | Some previous =>
              fail_if (monotonic_ticks <=? previous)
                (NonMonotonicHeartbeat sequence previous monotonic_ticks)
          | None => mret tt
          end;
      mret (with_heartbeat s monotonic_ticks)
  | RunFinished passed failed => observe_summary s sequence declared passed failed
  | Log None _ _ => mret s
  | RunStarted _ =>
      Throw (InvalidStreamOrder sequence "RunStarted must appear exactly once")
  end.

(** [StreamState::observe]. *)
Definition observe (s : StreamState) (event : TestEvent) : prog ProtocolError StreamState :=
  _ ← poll Cancelled;
  let n := sequence event in
  match kind event with
  | RunStarted test_count =>
      _ ← fail_if (bool_decide (is_Some (declared_tests s)) || negb (n =? 0))
            (InvalidStreamOrder n "RunStarted must appear exactly once at sequence zero");
      _ ← fail_if (maximum (tests s) <? test_count)
            (TestCountExceeded n (maximum (tests s)) test_count);
      mret (declare s test_count)
  | k =>
      declared ← lift (ok_or (declared_tests s)
                   (InvalidStreamOrder n "RunStarted must precede every other event"));
      _ ← fail_if (terminal s) (InvalidStreamOrder n "no event may follow RunFinished");
      _ ← fail_if (language_fatal s && negb (is_run_finished k))
            (InvalidStreamOrder n "LanguageFatal must be followed immediately by RunFinished");
      _ ← fail_if match pending_assertion s with
                  | Some asserted => negb (finishes_assertion asserted k)
                  | None => false
                  end
            (InvalidStreamOrder n
              "AssertionFailed must be followed immediately by its exact failed TestFinished");
      observe_kind s n declared k
  end.

(** The loop of [decode_and_verify_stream]. Every turn consumes a frame of at
    least 32 bytes, so the length of the stream is enough fuel. *)
Fixpoint stream_loop (fuel : nat) (codec : TestEventCodec) (stream : list byte)
    (l : ProtocolLimits) (offset : Z) (decoded : list TestEvent) (s : StreamState)
    : prog ProtocolError (list TestEvent) :=
  if offset <? len stream then
    match fuel with
    | O => Throw UnexpectedEnd
    | S fuel =>
        _ ← poll Cancelled;
        let expected_sequence := len decoded in
        _ ← fail_if (events l <=? expected_sequence) (EventLimit (events l) expected_sequence);
        remaining ← lift (ok_or (get_range stream offset (len stream)) UnexpectedEnd);
        header ← inspect_header remaining;
        size ← lift (ok_or (checked_add usize TEST_FRAME_HEADER_BYTES (payload_bytes header))
                      (FrameTooLarge (frame_bytes l) usize_max));
        _ ← fail_if (frame_bytes l <? size) (FrameTooLarge (frame_bytes l) size);
        end_ ← lift (ok_or (checked_add usize offset size) UnexpectedEnd);
        frame ← lift (ok_or (get_range stream offset end_) UnexpectedEnd);
        event ← decode_and_verify_event codec frame l;
        _ ← fail_if (negb (sequence event =? expected_sequence))
              (StreamSequenceMismatch expected_sequence (sequence event));
        s ← observe s event;
        _ ← try_reserve (ResourceLimit "decoded event entries" (events l));
        stream_loop fuel codec stream l end_ (decoded ++ [event]) s
    end
  else mret decoded.

Definition decode_and_verify_stream (codec : TestEventCodec) (stream : list byte)
    (l : ProtocolLimits) : prog ProtocolError (list TestEvent) :=
  _ ← poll Cancelled;
  maximum ← lift (maximum_stream_bytes l);
  _ ← fail_if (maximum <? len stream) (StreamTooLarge maximum (len stream));
  decoded ← stream_loop (length stream) codec stream l 0 [] (new_state (events l));
  _ ← poll Cancelled;
  mret decoded.

(** ** Histories *)

Fixpoint observe_all (s : StreamState) (evs : list TestEvent) : prog ProtocolError StreamState :=
  match evs with
  | [] => mret s
  | e :: evs => s ← observe s e; observe_all s evs
  end.

Definition declares_of (k : TestEventKind) : option Z :=
  match k with RunStarted test_count => Some test_count | _ => None end.
Definition starts_of (k : TestEventKind) : option Z :=
  match k with TestStarted test => Some (test_id test) | _ => None end.
Definition finishes_of (k : TestEventKind) : option (Z * GuestTestOutcome) :=
  match k with TestFinished test outcome => Some (test_id test, outcome) | _ => None end.
Definition beat_of (k : TestEventKind) : option Z :=
  match k with Heartbeat ticks => Some ticks | _ => None end.
Definition summary_of (k : TestEventKind) : option (Z * Z) :=
  match k with RunFinished passed failed => Some (passed, failed) | _ => None end.

(** What the events of a history contributed, in order. *)
Definition history {A} (f : TestEventKind -> option A) (h : list TestEvent) : list A :=
  omap (fun e => f (kind e)) h.
Definition started_ids (h : list TestEvent) : list Z := history starts_of h.
Definition finished_ids (h : list TestEvent) : list Z := map fst (history finishes_of h).
Definition is_pass (p : Z * GuestTestOutcome) : bool :=
  match p.2 with Passed => true | _ => false end.
Definition passed_count (h : list TestEvent) : Z :=
  len (List.filter is_pass (history finishes_of h)).
Definition failed_count (h : list TestEvent) : Z :=
  len (List.filter (fun p => negb (is_pass p)) (history finishes_of h)).

Lemma history_snoc {A} (f : TestEventKind -> option A) h e :
  history f (h ++ [e]) = history f h ++ match f (kind e) with Some a => [a] | None => [] end.
Proof. unfold history. rewrite omap_app. simpl. by destruct (f (kind e)). Qed.

(** The state a history has put a test in. *)
Definition status (h : list TestEvent) (id : Z) : option TrackedTestState :=
  if bool_decide (id ∈ finished_ids h) then Some Finished
  else if bool_decide (id ∈ started_ids h) then Some Active else None.

Record stream_inv (h : list TestEvent) (s : StreamState) : Prop := {
  inv_fresh : declared_tests s = None -> h = [] /\ s = new_state (maximum (tests s));
  inv_first : forall n, declared_tests s = Some n ->
    exists e rest, h = e :: rest /\ kind e = RunStarted n /\ history declares_of rest = [];
  inv_table : table_ok (tests s);
  inv_view : forall id, view (tests s) !! id = status h id;
  inv_started_unique : NoDup (started_ids h);
  inv_finished_unique : NoDup (finished_ids h);
  inv_finished_started : finished_ids h ⊆ started_ids h;
  inv_started : started s = len (started_ids h);
  inv_finished : finished s = len (finished_ids h);
  inv_passed : passed s = passed_count h;
  inv_failed : failed s = failed_count h;
  inv_beat : last_heartbeat s = last (history beat_of h);
  inv_beats : StronglySorted Z.lt (history beat_of h);
  inv_running : terminal s = false -> history summary_of h = [];
  inv_terminal : terminal s = true -> exists h' e,
    h = h' ++ [e] /\ kind e = RunFinished (passed s) (failed s)
    /\ declared_tests s = Some (started s) /\ finished s = started s
    /\ passed s + failed s = started s /\ history summary_of h' = [];
}.

Lemma inv_new M : 0 <= M <= u32_max -> stream_inv [] (new_state M).
Proof.
  intros HM. split; try done; cbn; [by apply new_table_ok|constructor..].
Qed.

(** A successful observation, without the questions and the early returns. *)
Lemma observe_cases s e s' :
  quiet (observe s e) = Ok s' ->
  (exists n, kind e = RunStarted n /\ declared_tests s = None /\ n <= maximum (tests s)
     /\ s' = declare s n)
  \/ (exists n, declares_of (kind e) = None /\ declared_tests s = Some n /\ terminal s = false
       /\ (language_fatal s = true -> is_run_finished (kind e) = true)
       /\ (forall a, pending_assertion s = Some a -> finishes_assertion a (kind e) = true)
       /\ quiet (observe_kind s (sequence e) n (kind e)) = Ok s').
Proof.
  unfold observe. rewrite run_poll. intros H. destruct (kind e) eqn:Hk.
  { left. quiet_inv H. apply orb_false_iff in Hguard as [Hd _]. apply bool_decide_eq_false in Hd.
    exists test_count. split_and!; try done; [by apply eq_None_not_Some|lia]. }
  all: right; quiet_inv H; apply ok_or_Ok in Hlift; exists x; rewrite <- Hk in *;
    split_and!; try done; [by rewrite Hk| |].
  all: try (intros Hf; rewrite Hf in Hguard0; by apply negb_false_iff in Hguard0).
  all: intros a Ha; rewrite Ha in Hguard1; by apply negb_false_iff in Hguard1.
Qed.

(** Compute what one more event of a known kind contributes. *)
Ltac contribution Hk :=
  unfold status, started_ids, finished_ids, passed_count, failed_count in *;
  rewrite ?history_snoc, ?Hk;
  cbn [declares_of starts_of finishes_of beat_of summary_of];
  rewrite ?app_nil_r.

Lemma first_snoc h s e :
  stream_inv h s -> declares_of (kind e) = None ->
  forall n, declared_tests s = Some n ->
  exists e' rest, h ++ [e] = e' :: rest /\ kind e' = RunStarted n /\ history declares_of rest = [].
Proof.
  intros Hi Hd n Hn. destruct (inv_first _ _ Hi n Hn) as (e' & rest & -> & Hk & Hr).
  exists e', (rest ++ [e]). split_and!; [done..|]. by rewrite history_snoc, Hr, Hd.
Qed.

(** Events that only touch the flags of the state. *)
Lemma inv_silent h s e s' n :
  stream_inv h s -> declared_tests s = Some n -> terminal s = false ->
  declares_of (kind e) = None -> starts_of (kind e) = None -> finishes_of (kind e) = None ->
  beat_of (kind e) = None -> summary_of (kind e) = None ->
  declared_tests s' = declared_tests s -> tests s' = tests s -> started s' = started s ->
  finished s' = finished s -> passed s' = passed s -> failed s' = failed s ->
  last_heartbeat s' = last_heartbeat s -> terminal s' = terminal s ->
  stream_inv (h ++ [e]) s'.
Proof.
  intros Hi Hn Ht Hd Hs Hf Hb Hr E1 E2 E3 E4 E5 E6 E7 E8.
  pose proof (first_snoc h s e Hi Hd) as Hfirst. destruct Hi.
  split; unfold status, started_ids, finished_ids, passed_count, failed_count in *;
    rewrite ?history_snoc, ?E1, ?E2, ?E3, ?E4, ?E5, ?E6, ?E7, ?E8, ?Hs, ?Hf, ?Hb, ?Hr;
    rewrite ?app_nil_r; try done.
  - intros E. congruence.
  - intros E. congruence.
Qed.

Lemma inv_declare e n M :
  0 <= n <= u32_max -> kind e = RunStarted n -> stream_inv [e] (declare (new_state M) n).
Proof.
  intros Hn Hk. split; unfold status, started_ids, finished_ids, passed_count, failed_count, history;
    cbn; rewrite ?Hk; cbn; try done.
  - intros m [= <-]. by exists e, [].
  - by apply new_table_ok.
  - constructor.
  - constructor.
  - constructor.
Qed.

Lemma status_started h id : status h id = None -> id ∉ started_ids h /\ id ∉ finished_ids h.
Proof. unfold status. repeat case_bool_decide; naive_solver. Qed.
Lemma status_active h id :
  status h id = Some Active -> id ∈ started_ids h /\ id ∉ finished_ids h.
Proof. unfold status. repeat case_bool_decide; naive_solver. Qed.

Lemma inv_start h s e n test t' :
  stream_inv h s -> declared_tests s = Some n -> terminal s = false -> kind e = TestStarted test ->
  status h (test_id test) = None ->
  table_ok t' -> view t' = <[test_id test := Active]> (view (tests s)) ->
  stream_inv (h ++ [e]) (with_started s t' (started s + 1)).
Proof.
  intros Hi Hn Ht Hk Hnew Hok Hview. apply status_started in Hnew as [Hns Hnf].
  pose proof (first_snoc h s e Hi) as Hfirst. rewrite Hk in Hfirst. specialize (Hfirst eq_refl).
  destruct Hi. split; cbn; contribution Hk; try done.
  - intros E. congruence.
  - intros id. rewrite Hview. destruct (decide (id = test_id test)) as [->|Hne].
    + rewrite lookup_insert_eq. rewrite bool_decide_false by done.
      rewrite bool_decide_true; [done|]. apply elem_of_app. right. by apply list_elem_of_singleton.
    + rewrite lookup_insert_ne, inv_view0 by done.
      replace (bool_decide (id ∈ history starts_of h ++ [test_id test]))
        with (bool_decide (id ∈ history starts_of h)); [done|]. apply bool_decide_ext.
      rewrite elem_of_app, list_elem_of_singleton. tauto.
  - apply NoDup_app. split_and!; [done| |apply NoDup_singleton].
    intros x Hx ->%list_elem_of_singleton. done.
  - intros x Hx. apply elem_of_app. left. by apply inv_finished_started0.
  - rewrite len_app, inv_started0. done.
  - intros E. congruence.
Qed.

Lemma filter_snoc {A} (p : A -> bool) l x :
  List.filter p (l ++ [x]) = List.filter p l ++ (if p x then [x] else []).
Proof. rewrite List.filter_app. simpl. done. Qed.

Lemma inv_finish h s e n test outcome t' p f fatal :
  stream_inv h s -> declared_tests s = Some n -> terminal s = false ->
  kind e = TestFinished test outcome ->
  status h (test_id test) = Some Active ->
  table_ok t' -> view t' = <[test_id test := Finished]> (view (tests s)) ->
  p = passed s + (if is_pass (test_id test, outcome) then 1 else 0) ->
  f = failed s + (if is_pass (test_id test, outcome) then 0 else 1) ->
  stream_inv (h ++ [e]) (with_finished s t' (finished s + 1) p f fatal).
Proof.
  intros Hi Hn Ht Hk Hact Hok Hview -> ->. apply status_active in Hact as [Hs Hnf].
  pose proof (first_snoc h s e Hi) as Hfirst. rewrite Hk in Hfirst. specialize (Hfirst eq_refl).
  destruct Hi. split; cbn; contribution Hk; rewrite ?map_app, ?filter_snoc; cbn [map fst]; try done.
  - intros E. congruence.
  - intros id. rewrite Hview. destruct (decide (id = test_id test)) as [->|Hne].
    + rewrite lookup_insert_eq. rewrite bool_decide_true; [done|].
      apply elem_of_app. right. by apply list_elem_of_singleton.
    + rewrite lookup_insert_ne, inv_view0 by done.
      replace (bool_decide (id ∈ map fst (history finishes_of h) ++ [test_id test]))
        with (bool_decide (id ∈ map fst (history finishes_of h))); [done|]. apply bool_decide_ext.
      rewrite elem_of_app, list_elem_of_singleton. tauto.
  - apply NoDup_app. split_and!; [done| |apply NoDup_singleton].
    intros x Hx ->%list_elem_of_singleton. done.
  - intros x [Hx| ->%list_elem_of_singleton]%elem_of_app; [by apply inv_finished_started0|done].
  - rewrite len_app, inv_finished0. done.
  - rewrite len_app, inv_passed0. by destruct (is_pass _).
  - rewrite len_app, inv_failed0. by destruct (is_pass _).
  - intros E. congruence.
Qed.

Lemma inv_heartbeat h s e n ticks :
  stream_inv h s -> declared_tests s = Some n -> terminal s = false ->
  kind e = Heartbeat ticks ->
  (forall previous, last_heartbeat s = Some previous -> previous < ticks) ->
  stream_inv (h ++ [e]) (with_heartbeat s ticks).
Proof.
  intros Hi Hn Ht Hk Hlt.
  pose proof (first_snoc h s e Hi) as Hfirst. rewrite Hk in Hfirst. specialize (Hfirst eq_refl).
  destruct Hi. split; cbn; contribution Hk; try done.
  - intros E. congruence.
  - by rewrite last_snoc.
  - apply strongly_sorted_snoc; [intros ? ? ?; lia|done|]. intros y Hy. apply Hlt. congruence.
  - intros E. congruence.
Qed.

Lemma inv_summary h s e n p f :
  stream_inv h s -> declared_tests s = Some n -> terminal s = false ->
  kind e = RunFinished p f ->
  started s = n -> finished s = n -> passed s = p -> failed s = f -> p + f = n ->
  stream_inv (h ++ [e]) (with_terminal s).
Proof.
  intros Hi Hn Ht Hk E1 E2 E3 E4 E5.
  pose proof (first_snoc h s e Hi) as Hfirst. rewrite Hk in Hfirst. specialize (Hfirst eq_refl).
  destruct Hi. split; cbn; contribution Hk; try done.
  - intros E. congruence.
  - intros _. exists h, e. subst. rewrite Hk. split_and!; auto; congruence.
Qed.

Lemma checked_stream_count_Ok v n r x :
  checked_stream_count v n r = Ok x <-> x = v + 1 /\ v + 1 <= n /\ v + 1 < 2 ^ 32.
Proof.
  unfold checked_stream_count. rewrite ok_or_Ok. unfold checked_add.
  destruct (Z.ltb_spec (v + 1) (2 ^ 32)); [|naive_solver lia].
  destruct (Z.leb_spec (v + 1) n); naive_solver lia.
Qed.

Lemma require_active_Ok s n test ev :
  table_ok (tests s) ->
  quiet (require_active s n test ev) = Ok tt <-> view (tests s) !! test_id test = Some Active.
Proof.
  intros Ht. unfold require_active. rewrite (run_ok _ _ _ (state_ok _ test Ht)), quiet_fail_if.
  rewrite guard_err_Ok, negb_false_iff, bool_decide_eq_true. done.
Qed.

Lemma observe_started_inv h s e n test s' :
  stream_inv h s -> declared_tests s = Some n -> terminal s = false -> kind e = TestStarted test ->
  quiet (observe_started s (sequence e) n test) = Ok s' ->
  stream_inv (h ++ [e]) s' /\ started s' <= n.
Proof.
  intros Hi Hn Ht Hk H. unfold observe_started in H. quiet_inv H.
  apply ok_or_Ok, checked_add_Some in Hlift as [_ ->]. destruct x0 as [inserted t'].
  quiet_inv H. apply negb_false_iff in Hguard0 as ->.
  pose proof (insert_active_ok (tests s) test (inv_table _ _ Hi)) as Hstep.
  unfold same_step in Hstep.
  rewrite Hrun in Hstep. unfold abs_insert in Hstep.
  rewrite (inv_view _ _ Hi) in Hstep.
  destruct (status h (test_id test)) eqn:Hst; [by destruct Hstep|].
  apply Z.ltb_ge in Hguard. destruct (_ <? _); [done|]. destruct Hstep as (_ & Hview & Hok & _).
  split; [by eapply inv_start|done].
Qed.

Lemma observe_finished_inv h s e n test outcome s' :
  stream_inv h s -> declared_tests s = Some n -> terminal s = false ->
  kind e = TestFinished test outcome ->
  quiet (observe_finished s (sequence e) n test outcome) = Ok s' ->
  stream_inv (h ++ [e]) s' /\ started s' = started s.
Proof.
  intros Hi Hn Ht Hk H. unfold observe_finished in H. quiet_inv H. clear_units.
  apply require_active_Ok in Hrun; [|apply Hi]. rewrite (inv_view _ _ Hi) in Hrun.
  destruct x0 as [marked t']. quiet_inv H. apply negb_false_iff in Hguard as ->.
  pose proof (mark_finished_ok (tests s) test (inv_table _ _ Hi)) as Hstep.
  unfold same_step in Hstep.
  rewrite Hrun0 in Hstep. unfold abs_finish in Hstep. rewrite (inv_view _ _ Hi), Hrun in Hstep.
  destruct Hstep as (_ & Hview & Hok & _).
  apply checked_stream_count_Ok in Hlift as (-> & _ & _).
  destruct outcome; quiet_inv H; apply checked_stream_count_Ok in Hlift as (-> & _ & _);
    (split; [|done]); (eapply inv_finish; [done..| |]); cbn; lia.
Qed.

(** Every accepted event keeps the invariant. *)
Lemma observe_ok h s e s' :
  stream_inv h s -> kind_typed (kind e) -> quiet (observe s e) = Ok s' ->
  stream_inv (h ++ [e]) s'.
Proof.
  intros Hi Htyped H. apply observe_cases in H as
    [(n & Hk & Hd & _ & ->)|(n & Hd & Hn & Ht & _ & _ & H)].
  { destruct (inv_fresh _ _ Hi Hd) as [-> Hs]. rewrite Hs. apply inv_declare; [|done].
    rewrite Hk in Htyped. cbn in Htyped. unfold u32_ok, u32_max in *. lia. }
  destruct (kind e) as [c|test|[test|] lv m|test f|test o|ticks|p f] eqn:Hk; cbn [observe_kind] in H.
  - done.
  - by eapply observe_started_inv.
  - quiet_inv H. by eapply inv_silent; rewrite ?Hk.
  - quiet_inv H. by eapply inv_silent; rewrite ?Hk.
  - quiet_inv H. by eapply inv_silent; rewrite ?Hk.
  - by eapply observe_finished_inv.
  - quiet_inv H. eapply inv_heartbeat; [done..|]. intros previous Hp. rewrite Hp in Hrun.
    rewrite quiet_fail_if in Hrun. apply guard_err_Ok, Z.leb_gt in Hrun. lia.
  - unfold observe_summary in H. quiet_inv H. bool_to_prop.
    match goal with Hc : checked_add _ _ _ = Some _ |- _ => apply checked_add_Some in Hc as [_ ?] end.
    by eapply inv_summary.
Qed.

Lemma observe_all_ok h s evs s' :
  stream_inv h s -> Forall (fun e => kind_typed (kind e)) evs ->
  quiet (observe_all s evs) = Ok s' -> stream_inv (h ++ evs) s'.
Proof.
  intros Hi Ht. revert h s Hi. induction Ht as [|e evs He _ IH]; intros h s Hi H.
  { injection H as <-. by rewrite app_nil_r. }
  cbn [observe_all] in H. apply quiet_bind_Ok in H as (s1 & H1 & H).
  apply (observe_ok h s e s1 Hi He) in H1. replace (h ++ e :: evs) with ((h ++ [e]) ++ evs) by (by rewrite <- app_assoc).
  by apply (IH _ s1).
Qed.

Lemma observe_all_app s a b s' :
  quiet (observe_all s (a ++ b)) = Ok s' <->
  exists s1, quiet (observe_all s a) = Ok s1 /\ quiet (observe_all s1 b) = Ok s'.
Proof.
  revert s. induction a as [|e a IH]; intros s; cbn [app observe_all].
  - split; [intros H; by exists s|intros (s1 & [= <-] & H); done].
  - rewrite !quiet_bind_Ok. setoid_rewrite IH. split.
    + intros (s2 & H2 & s1 & H3 & H4). exists s1. rewrite quiet_bind_Ok. eauto.
    + intros (s1 & (s2 & H2 & H3)%quiet_bind_Ok & H4). eauto.
Qed.

(** ** What an accepted run means *)

Lemma passed_failed h : passed_count h + failed_count h = len (finished_ids h).
Proof.
  unfold passed_count, failed_count, finished_ids, len. rewrite length_map.
  generalize (history finishes_of h) as l. induction l as [|x l IH]; [done|].
  cbn [List.filter]. destruct (is_pass x); cbn [negb length]; lia.
Qed.

(** C23: a run that is accepted up to its terminal event is complete and its
    report is true: it is framed by one [RunStarted] and one [RunFinished],
    exactly the declared number of distinct tests was started, exactly these
    were finished, each once, the reported numbers are the numbers of passed
    and of other outcomes, and the heartbeats strictly increase. *)
Theorem accepted_run_is_complete M evs s :
  0 <= M <= u32_max -> Forall (fun e => kind_typed (kind e)) evs ->
  quiet (observe_all (new_state M) evs) = Ok s -> terminal s = true ->
  exists n p f first body last,
    evs = first :: body ++ [last]
    /\ kind first = RunStarted n /\ kind last = RunFinished p f
    /\ history declares_of body = [] /\ history summary_of body = []
    /\ NoDup (started_ids evs) /\ len (started_ids evs) = n
    /\ finished_ids evs ≡ₚ started_ids evs
    /\ p = passed_count evs /\ f = failed_count evs /\ p + f = n
    /\ StronglySorted Z.lt (history beat_of evs).
Proof.
  intros HM Ht H Hterm. apply (observe_all_ok [] _ evs s (inv_new M HM) Ht) in H. cbn [app] in H.
  destruct (inv_terminal _ _ H Hterm) as (h' & last & Hevs & Hlast & Hd & Hfin & Hsum & Hns).
  destruct (inv_first _ _ H _ Hd) as (first & rest & Hevs' & Hfirst & Hnd).
  assert (exists body, h' = first :: body /\ rest = body ++ [last]) as (body & -> & ->).
  { destruct h' as [|x body]; [|exists body; by simplify_eq/=].
    exfalso. rewrite Hevs in Hevs'. simplify_eq/=. congruence. }
  rewrite history_snoc, Hlast, app_nil_r in Hnd. cbn in Hns. rewrite Hfirst in Hns. cbn in Hns.
  exists (started s), (passed s), (failed s), first, body, last. split_and!; try done; try apply H.
  - symmetry. apply H.
  - apply submseteq_length_Permutation.
    + apply NoDup_submseteq; apply H.
    + pose proof (inv_started _ _ H). pose proof (inv_finished _ _ H). unfold len in *. lia.
Qed.

Definition numbered (n : Z) (k : TestEventKind) : TestEvent :=
  {| protocol := 3; sequence := n; kind := k |}.
Definition sample_run : list TestEvent :=
  [ numbered 0 (RunStarted 2);
    numbered 1 (TestStarted {| test_id := 4 |});
    numbered 2 (Heartbeat 10);
    numbered 3 (AssertionFailed {| test_id := 4 |}
      {| expression := ascii "x"; message := None; source := None; expected := None; actual := None |});
    numbered 4 (TestFinished {| test_id := 4 |} (Failed (ascii "assertion failed")));
    numbered 5 (TestStarted {| test_id := 9 |});
    numbered 6 (TestFinished {| test_id := 9 |} Passed);
    numbered 7 (RunFinished 1 1) ].
Definition sample_result : result ProtocolError StreamState :=
  quiet (observe_all (new_state 10) sample_run).

Lemma sample_run_typed : Forall (fun e => kind_typed (kind e)) sample_run.
Proof. repeat constructor; cbv; try (split; congruence); intuition congruence. Qed.

Example accepted_run_is_complete_witness :
  exists s, quiet (observe_all (new_state 10) sample_run) = Ok s /\ terminal s = true
    /\ exists n p f, n = p + f /\ len (started_ids sample_run) = n.
Proof.
  destruct (quiet (observe_all (new_state 10) sample_run)) as [s|e] eqn:E;
    [|exfalso; vm_compute in E; discriminate E].
  assert (Ht : terminal s = true) by (vm_compute in E; injection E as <-; reflexivity).
  exists s. split; [reflexivity|]. split; [exact Ht|].
  destruct (accepted_run_is_complete 10 sample_run s ltac:(unfold u32_max; lia) sample_run_typed E Ht)
    as (n & p & f & _ & _ & _ & _ & _ & _ & _ & _ & _ & Hn & _ & _ & _ & Hs & _).
  exists n, p, f. split; [symmetry; exact Hs|exact Hn].
Defined.

(** The test an event speaks about while it runs. *)
Definition mentions (k : TestEventKind) : option TestId :=
  match k with
  | Log test _ _ => test
  | AssertionFailed test _ | TestFinished test _ => Some test
  | _ => None
  end.

Lemma observe_mentions h s e s' test :
  stream_inv h s -> quiet (observe s e) = Ok s' -> mentions (kind e) = Some test ->
  test_id test ∈ started_ids h /\ test_id test ∉ finished_ids h.
Proof.
  intros Hi H Hm. apply status_active. rewrite <- (inv_view _ _ Hi).
  apply observe_cases in H as [(n & Hk & _)|(n & _ & _ & _ & _ & _ & H)]; [by rewrite Hk in Hm|].
  destruct (kind e) as [c|t|[t|] lv m|t f|t o|ticks|p f]; simplify_eq/=.
  - quiet_inv H. clear_units. apply require_active_Ok in Hrun; [done|apply Hi].
  - quiet_inv H. clear_units. apply require_active_Ok in Hrun; [done|apply Hi].
  - unfold observe_finished in H. quiet_inv H. clear_units.
    apply require_active_Ok in Hrun; [done|apply Hi].
Qed.

Lemma observe_asserts s e s' test f :
  quiet (observe s e) = Ok s' -> kind e = AssertionFailed test f ->
  pending_assertion s' = Some (test, default (ascii "assertion failed") (message f)).
Proof.
  intros H Hk. apply observe_cases in H as [(n & Hk' & _)|(n & _ & _ & _ & _ & _ & H)]; [congruence|].
  rewrite Hk in H. cbn [observe_kind] in H. quiet_inv H. done.
Qed.

(** Order within an accepted run. An event that speaks about a test comes
    after the start of that test and before its end, and a failed assertion is
    followed at once by the failed end of its test with the same message. *)
Theorem accepted_run_is_ordered M before e after s :
  0 <= M <= u32_max -> Forall (fun e => kind_typed (kind e)) before ->
  quiet (observe_all (new_state M) (before ++ e :: after)) = Ok s ->
  (forall test, mentions (kind e) = Some test ->
     test_id test ∈ started_ids before /\ test_id test ∉ finished_ids before)
  /\ (forall test f e' rest, kind e = AssertionFailed test f -> after = e' :: rest ->
        kind e' = TestFinished test (Failed (default (ascii "assertion failed") (message f)))).
Proof.
  intros HM Ht (s1 & H1 & H)%observe_all_app.
  apply (observe_all_ok [] _ before s1 (inv_new M HM) Ht) in H1. cbn [app] in H1.
  cbn [observe_all] in H. apply quiet_bind_Ok in H as (s2 & H2 & H).
  split; [intros test Hm; by eapply observe_mentions|].
  intros test f e' rest Hk ->. cbn [observe_all] in H. apply quiet_bind_Ok in H as (s3 & H3 & _).
  pose proof (observe_asserts _ _ _ _ _ H2 Hk) as Hp.
  apply observe_cases in H3 as [(n & Hk' & Hd & _)|(n & _ & _ & _ & _ & Hpend & _)].
  - exfalso. assert (Hi2 : stream_inv (before ++ [e]) s2).
    { apply observe_cases in H2 as [(m & Hm & _)|(m & _ & Hm & Hter & _ & _ & H2)]; [congruence|].
      rewrite Hk in H2. cbn [observe_kind] in H2. quiet_inv H2.
      by eapply inv_silent; rewrite ?Hk. }
    apply (inv_fresh _ _ Hi2) in Hd as [Hnil _]. by destruct before.
  - specialize (Hpend _ Hp). unfold finishes_assertion in Hpend.
    destruct (kind e') as [| | | |t [|m| |]| |]; try done. split_andb. bool_to_prop. cbn in *. by subst.
Qed.

Example accepted_run_is_ordered_witness :
  exists s, quiet (observe_all (new_state 10) sample_run) = Ok s
    /\ 4 ∈ started_ids (take 4 sample_run).
Proof.
  destruct (quiet (observe_all (new_state 10) sample_run)) as [s|e] eqn:E;
    [|exfalso; vm_compute in E; discriminate E].
  exists s. split; [reflexivity|].
  exact (proj1 (proj1 (accepted_run_is_ordered 10 (take 4 sample_run)
    (numbered 4 (TestFinished {| test_id := 4 |} (Failed (ascii "assertion failed"))))
    (drop 5 sample_run) s ltac:(unfold u32_max; lia)
    ltac:(apply Forall_take; exact sample_run_typed) E) {| test_id := 4 |} eq_refl)).
Defined.

(** ** Decoding a complete stream *)

(** The events of a stream carry the numbers [n], [n + 1], ... *)
Fixpoint dense (n : Z) (evs : list TestEvent) : Prop :=
  match evs with [] => True | e :: evs => sequence e = n /\ dense (n + 1) evs end.

(** A typed, valid event whose frame fits. *)
Definition encodable (l : ProtocolLimits) (e : TestEvent) : Prop :=
  event_typed e /\ quiet (validate_event e l) = Ok tt /\ len (event_frame e) <= frame_bytes l.

Definition stream_of (evs : list TestEvent) : list byte := concat (map event_frame evs).

Lemma get_range_rest {A} (l : list A) from :
  0 <= from <= len l -> get_range l from (len l) = Some (drop (Z.to_nat from) l).
Proof.
  intros Hf. unfold get_range. rewrite !(proj2 (Z.leb_le _ _)) by lia. cbn [andb].
  rewrite take_ge; [done|]. rewrite length_drop. unfold len in *. lia.
Qed.

Lemma event_frame_long e : 32 <= len (event_frame e).
Proof.
  rewrite len_event_frame. pose proof (len_nonneg (event_payload e)).
  unfold TEST_FRAME_HEADER_BYTES. lia.
Qed.

Lemma stream_of_nil evs : stream_of evs = [] -> evs = [].
Proof.
  destruct evs as [|e evs]; [done|]. intros H%app_nil. destruct H as [H _].
  pose proof (event_frame_long e). rewrite H in *. done.
Qed.

Section stream_loop.
  Context (stream : list byte) (l : ProtocolLimits).
  Context (Hsmall : len stream < 2 ^ 32) (Hl : limits_ok l).

  (** One turn, forwards. *)
Lemma stream_turn_inv fuel o decoded s out :
    0 <= o < len stream ->
    quiet (stream_loop (S fuel) CanonicalTestEventCodec stream l o decoded s) = Ok out ->
    exists e s1, encodable l e /\ sequence e = len decoded
      /\ drop (Z.to_nat o) stream =
           event_frame e ++ drop (Z.to_nat (o + len (event_frame e))) stream
      /\ o + len (event_frame e) <= len stream
      /\ quiet (observe s e) = Ok s1
      /\ quiet (stream_loop fuel CanonicalTestEventCodec stream l (o + len (event_frame e))
                  (decoded ++ [e]) s1) = Ok out.
Proof.
    intros Ho H. cbn [stream_loop] in H. rewrite (proj2 (Z.ltb_lt _ _)) in H by lia.
    quiet_inv H. apply ok_or_Ok in Hlift. rewrite get_range_rest in Hlift by lia.
    injection Hlift as <-. apply canonical_inspect_Ok, parse_header_Ok in Hrun as [Hh _].
    apply ok_or_Ok, checked_add_Some in Hlift0 as [_ ->].
    apply ok_or_Ok, checked_add_Some in Hlift1 as [_ ->].
    apply ok_or_Ok in Hlift2. destruct Hh as [_ _ _ Hp _]. unfold u32_ok in Hp.
    apply get_range_Some in Hlift2 as (Hlen & Hin & rest & Hd);
      [|lia|unfold TEST_FRAME_HEADER_BYTES; lia].
    apply verify_canonical_Ok in Hrun0 as (Ht & Hv & -> & Hfit).
    apply negb_false_iff, Z.eqb_eq in Hguard1. rewrite <- Hlen in *.
    exists x4, x5. split_and!; try done. rewrite Hd. f_equal.
    pose proof (event_frame_long x4).
    replace (Z.to_nat (o + len (event_frame x4)))
      with (Z.to_nat o + length (event_frame x4))%nat by (unfold len in *; lia).
    by rewrite <- drop_drop, Hd, drop_app_length.
Qed.

  (** One turn, backwards. *)
Lemma stream_turn_run fuel o decoded s e rest s1 :
    0 <= o < len stream -> encodable l e -> sequence e = len decoded ->
    drop (Z.to_nat o) stream = event_frame e ++ rest -> quiet (observe s e) = Ok s1 ->
    quiet (stream_loop (S fuel) CanonicalTestEventCodec stream l o decoded s) =
    quiet (stream_loop fuel CanonicalTestEventCodec stream l (o + len (event_frame e))
             (decoded ++ [e]) s1).
Proof.
    intros Ho (Ht & Hv & Hfit) Hseq Hd Hobs. cbn [stream_loop].
    rewrite (proj2 (Z.ltb_lt _ _)), run_poll by lia.
    pose proof (validate_event_Ok _ _ Hv) as (_ & _ & Hlt).
    rewrite run_fail_if by (apply Z.leb_gt; lia).
    rewrite (run_ok_or _ _ _ _ (get_range_rest stream o ltac:(lia))).
    pose proof (event_header_shape e l Hv Ht Hfit) as Hshape.
    rewrite (run_ok _ _ (event_header e)).
    2:{ apply canonical_inspect_Ok, parse_header_Ok. split; [apply Hshape|].
        exists (event_payload e ++ rest). rewrite Hd. unfold event_frame. by rewrite <- app_assoc. }
    cbn [payload_bytes event_header]. pose proof (len_event_frame e) as Hlen.
    pose proof (event_frame_long e). pose proof (limits_frame _ Hl) as Hf.
    unfold MAX_PROTOCOL_FRAME_BYTES in Hf.
    assert (Hin : o + len (event_frame e) <= len stream).
    { apply (f_equal len) in Hd. rewrite len_app in Hd. pose proof (len_nonneg rest).
      unfold len in Hd at 1. rewrite length_drop in Hd. unfold len in *. lia. }
    rewrite (run_ok_or _ _ _ (len (event_frame e)))
      by (apply checked_add_Some; unfold usize; lia).
    rewrite run_fail_if by (apply Z.ltb_ge; lia).
    rewrite (run_ok_or _ _ _ (o + len (event_frame e)))
      by (apply checked_add_Some; unfold usize; lia).
    rewrite (run_ok_or _ _ _ (event_frame e)).
    2:{ apply get_range_Some; [lia|lia|]. split_and!; [done|done|]. by exists rest. }
    rewrite (run_ok _ _ e) by (apply verify_canonical_Ok; done).
    rewrite run_fail_if by (by rewrite Hseq, Z.eqb_refl).
    by rewrite (run_ok _ _ s1), run_try_reserve.
Qed.

Lemma stream_loop_Ok fuel o decoded s out :
    0 <= o <= len stream -> len stream - o <= Z.of_nat fuel ->
    quiet (stream_loop fuel CanonicalTestEventCodec stream l o decoded s) = Ok out <->
    exists rest, out = decoded ++ rest /\ drop (Z.to_nat o) stream = stream_of rest
      /\ Forall (encodable l) rest /\ dense (len decoded) rest
      /\ exists s', quiet (observe_all s rest) = Ok s'.
Proof.
    revert o decoded s. induction fuel as [|fuel IH]; intros o decoded s Ho Hf.
    all: destruct (decide (o = len stream)) as [->|Hne];
      [|first [lia|split]].
    1,2: unfold len at 2 3; rewrite drop_ge by (unfold len; lia);
      cbn [stream_loop]; rewrite Z.ltb_irrefl; split;
      [intros [= <-]; exists []; rewrite app_nil_r; repeat split; by eauto
      |intros (rest & -> & Hnil & _); symmetry in Hnil; apply stream_of_nil in Hnil as ->;
       by rewrite app_nil_r].
    - intros H. apply stream_turn_inv in H as (e & s1 & He & Hs & Hd & Hin & Hobs & H); [|lia].
      pose proof (event_frame_long e). apply IH in H as (rest & -> & Hr & Hall & Hdense & s' & Hs'); [|lia..].
      exists (e :: rest). rewrite <- app_assoc, Hd, Hr. split_and!; [done..|by constructor| |].
      + rewrite len_app in Hdense. split; [done|exact Hdense].
      + exists s'. cbn [observe_all]. by rewrite (run_ok _ _ _ Hobs).
    - intros (rest & -> & Hd & Hall & Hdense & s' & Hs').
      destruct rest as [|e rest].
      { exfalso. apply (f_equal len) in Hd. unfold len in Hd at 1. rewrite length_drop in Hd.
        change (len (stream_of [])) with 0 in Hd. unfold len in *. lia. }
      apply Forall_cons in Hall as [He Hall]. destruct Hdense as [Hseq Hdense].
      cbn [observe_all] in Hs'. apply quiet_bind_Ok in Hs' as (s1 & Hobs & Hs').
      change (stream_of (e :: rest)) with (event_frame e ++ stream_of rest) in Hd.
      rewrite (stream_turn_run fuel o decoded s e (stream_of rest) s1) by (done || lia).
      pose proof (event_frame_long e).
      assert (Hd' := f_equal len Hd). rewrite len_app in Hd'. unfold len in Hd' at 1.
      rewrite length_drop in Hd'. pose proof (len_nonneg (stream_of rest)).
      apply IH; [unfold len in *; lia..|]. exists rest. rewrite <- app_assoc, len_app.
      split_and!; [done| |done|exact Hdense|by exists s'].
      replace (Z.to_nat (o + len (event_frame e))) with (Z.to_nat o + length (event_frame e))%nat
        by (unfold len in *; lia).
      by rewrite <- drop_drop, Hd, drop_app_length.
Qed.
End stream_loop.

Lemma maximum_stream_bytes_Ok l m :
  maximum_stream_bytes l = Ok m <->
  limits_ok l /\ m = Z.min (frame_bytes l * events l) MAX_PROTOCOL_STREAM_BYTES.
Proof.
  unfold maximum_stream_bytes. split.
  - intros H. inv_ok. destruct x. apply validate_Ok in H. split; [done|].
    unfold checked_mul in H0. destruct (_ <? _); [|done]. by injection H0 as <-.
  - intros [Hl ->]. rewrite (proj2 (validate_Ok l) Hl). cbn [mbind result_bind].
    destruct Hl. unfold checked_mul, MAX_PROTOCOL_FRAME_BYTES, MAX_PROTOCOL_EVENTS,
      MAX_RUNTIME_TEST_EVENTS, TEST_FRAME_HEADER_BYTES in *.
    rewrite (proj2 (Z.ltb_lt _ _)); [done|]. nia.
Qed.

(** C8: decoding a stream accepts exactly the concatenations of the canonical
    frames of typed, valid events that are numbered from zero without gaps and
    whose order [StreamState] accepts, and returns these events; nothing may
    be missing, damaged or left over. *)
Theorem stream_decoding_exact stream l evs :
  quiet (decode_and_verify_stream CanonicalTestEventCodec stream l) = Ok evs <->
  limits_ok l
  /\ len stream <= Z.min (frame_bytes l * events l) MAX_PROTOCOL_STREAM_BYTES
  /\ stream = stream_of evs /\ Forall (encodable l) evs /\ dense 0 evs
  /\ exists s, quiet (observe_all (new_state (events l)) evs) = Ok s.
Proof.
  unfold decode_and_verify_stream. split.
  - intros H. quiet_inv H. apply maximum_stream_bytes_Ok in Hlift as [Hl ->].
    apply Z.ltb_ge in Hguard.
    assert (Hsmall : len stream < 2 ^ 32) by (unfold MAX_PROTOCOL_STREAM_BYTES in Hguard; lia).
    pose proof (len_nonneg stream).
    apply (stream_loop_Ok stream l Hsmall Hl) in Hrun as (rest & -> & Hd & Hall & Hdense & Hs);
      [|lia|unfold len; lia].
    change ([] ++ rest) with rest. by split_and!.
  - intros (Hl & Hlen & -> & Hall & Hdense & Hs).
    rewrite run_poll, (run_lift _ _ _ (proj2 (maximum_stream_bytes_Ok l _) (conj Hl eq_refl))).
    rewrite run_fail_if by (by apply Z.ltb_ge).
    assert (Hsmall : len (stream_of evs) < 2 ^ 32) by (unfold MAX_PROTOCOL_STREAM_BYTES in Hlen; lia).
    pose proof (len_nonneg (stream_of evs)).
    rewrite (run_ok _ _ evs); [done|].
    apply (stream_loop_Ok _ l Hsmall Hl); [lia|unfold len; lia|]. by exists evs.
Qed.

Example sample_stream_decodes :
  quiet (decode_and_verify_stream CanonicalTestEventCodec (stream_of sample_run) standard)
    = Ok sample_run.
Proof. vm_compute. reflexivity. Qed.

(** ** Interruption *)

#[export] Instance require_active_interruptible s n t ev :
  interruptible interruption (require_active s n t ev).
Proof. unfold require_active. apply _. Qed.
#[export] Instance observe_kind_interruptible s n d k :
  interruptible interruption (observe_kind s n d k).
Proof.
  destruct k as [| |[?|]| |t o| |]; cbn [observe_kind]; try apply _.
  - unfold observe_started. do 2 (apply interruptible_bind; [apply _|intros ?]).
    apply interruptible_bind; [apply _|intros [? ?]]. apply _.
  - unfold observe_finished. apply interruptible_bind; [apply _|intros ?].
    apply interruptible_bind; [apply _|intros [? ?]].
    do 2 (apply interruptible_bind; [apply _|intros ?]). destruct o; apply _.
  - apply interruptible_bind; [destruct (last_heartbeat s); apply _|]. apply _.
Qed.
#[export] Instance observe_interruptible s e : interruptible interruption (observe s e).
Proof. unfold observe. destruct (kind e); apply _. Qed.

#[export] Instance verify_interruptible codec f l :
  InterruptibleCodec codec -> interruptible interruption (decode_and_verify_event codec f l).
Proof.
  intros Hc. unfold decode_and_verify_event.
  do 10 (apply interruptible_bind; [apply _|intros ?]).
  apply interruptible_bind; [destruct (negb _); apply _|]. apply _.
Qed.

(** Whenever the caller cancels or an allocation fails, decoding a stream
    either stops with just that error or returns what it returns undisturbed;
    cancellation can never change which stream is accepted. *)
Theorem stream_decoding_interruption codec env stream l :
  InterruptibleCodec codec ->
  fst (run env start (decode_and_verify_stream codec stream l))
    = quiet (decode_and_verify_stream codec stream l)
  \/ exists e, fst (run env start (decode_and_verify_stream codec stream l)) = Err e
       /\ interruption e.
Proof.
  intros Hc. apply run_interruptible. unfold decode_and_verify_stream.
  do 3 (apply interruptible_bind; [apply _|intros ?]).
  apply interruptible_bind; [|apply _].
  generalize 0 as o, (@nil TestEvent) as decoded, (new_state (events l)) as s.
  induction (length stream) as [|fuel IH]; intros o decoded s; cbn [stream_loop];
    destruct (_ <? _); try apply _.
Qed.

Example stream_decoding_interruption_witness :
  fst (run {| cancelled_at := fun n => Nat.eqb n 9; exhausted_at := fun _ => false |} start
         (decode_and_verify_stream CanonicalTestEventCodec (stream_of sample_run) standard))
    = Err Cancelled
  /\ (fst (run calm start (decode_and_verify_stream CanonicalTestEventCodec (stream_of sample_run) standard))
        = quiet (decode_and_verify_stream CanonicalTestEventCodec (stream_of sample_run) standard)
      \/ exists e, fst (run calm start
            (decode_and_verify_stream CanonicalTestEventCodec (stream_of sample_run) standard)) = Err e
           /\ interruption e).
Proof.
  split; [vm_compute; reflexivity|].
  exact (stream_decoding_interruption CanonicalTestEventCodec calm (stream_of sample_run) standard
    canonical_interruptible).
Defined.
