(* ===== verification/FlowWir.v ===== *)
(** FlowWir, the typed SSA intermediate representation exchanged between the
    frontend and the backend: the data of [src/crates/wrela-flow-wir/src/lib.rs]
    that one function and its operations are made of, and the traversal of the
    operands of an operation.

    An operation is declared over the type of its operands. The IR's own
    operations, [FlowOperation ValueId], refer to values by their dense index;
    the operation a running program performs refers to run-time values. *)

From stdpp Require Import base numbers list option strings.
From S2P Require Import Prelude Source.

#[local] Open Scope Z_scope.

(** ** Identities *)

(** Every [id_type!] is a dense index, a [u32]. *)
Definition TypeId := N.
Definition FunctionId := N.
Definition BlockId := N.
Definition ValueId := N.
Definition InstructionId := N.
Definition GlobalId := N.
Definition ActorId := N.
Definition TaskId := N.
Definition DeviceId := N.
Definition PoolId := N.
Definition RegionId := N.
Definition ActivationId := N.
Definition ProofId := N.
Definition CheckpointId := N.
Definition FlowTestId := N.

(** ** Types *)

Inductive ScalarType :=
| TBool
| TCharacter
| TInteger (signed : bool) (bits : Z)
| TFloat32
| TFloat64
| TAddress.

Inductive FlowTypeKind :=
| KUnit
| KScalar (scalar : ScalarType)
| KStaticString (bytes : Z)
| KStaticBytes (bytes : Z)
| KBoundedString (capacity : Z)
| KTuple (fields : list TypeId)
| KArray (element : TypeId) (length : Z)
| KStruct (fields : list TypeId)
| KEnum (variants : list (list TypeId))
| KFunction (parameters : list TypeId) (result : TypeId)
| KActivation (result : TypeId)
| KRegionHandle (region : RegionId)
| KPoolHandle (pool : PoolId)
| KActorHandle (actor : ActorId)
| KTaskHandle (task : TaskId)
| KReservation
| KReceipt (payload error : TypeId)
| KDmaToken (pool : PoolId) (payload : TypeId)
| KOpaqueTarget (name : str).

Record FlowType := {
  type_id : TypeId;
  kind : FlowTypeKind;
  type_name : option str;
  copyable : bool;
  strict_linear : bool;
}.

#[export] Instance ScalarType_eq_dec : EqDecision ScalarType.
Proof. solve_decision. Defined.

(** ** Operations *)

Inductive UnaryOp := Negate | BoolNot | BitNot.

Inductive BinaryOp :=
| AddChecked | AddWrapping | SubChecked | SubWrapping | MulChecked | MulWrapping
| DivChecked | RemChecked | BitAnd | BitOr | BitXor
| ShiftLeftChecked | ShiftRightChecked
| Equal | NotEqual | Less | LessEqual | Greater | GreaterEqual
| ShiftLeftWrapping.

Inductive CastMode := CastChecked | CastExact | CastBitcast.
Inductive AccessKind := AccessRead | AccessMutate | AccessTake.
Inductive DmaOwnership := DmaCpu | DmaPrepared | DmaDevice | DmaCompleted | DmaQuarantined.
Inductive FenceKind :=
| FenceAcquire | FenceRelease | FenceAcquireRelease
| FenceDeviceRead | FenceDeviceWrite | FenceDeviceFull.
Inductive FailureKind :=
| FailBounds | FailArithmetic | FailConversion | FailCapacity | FailGeneration | FailDmaState
| FailDeviceValue | FailCancellation | FailDeadline | FailPeerFailure | FailTaskFailure
| FailFatalTarget.

#[export] Instance UnaryOp_eq_dec : EqDecision UnaryOp.
Proof. solve_decision. Defined.
#[export] Instance BinaryOp_eq_dec : EqDecision BinaryOp.
Proof. solve_decision. Defined.
#[export] Instance CastMode_eq_dec : EqDecision CastMode.
Proof. solve_decision. Defined.

(** A Rust [char] is its scalar value. *)
Inductive Immediate :=
| ImmUnit
| ImmBool (value : bool)
| ImmCharacter (value : Z)
| ImmInteger (bits : Z) (bytes_le : list byte)
| ImmFloat32 (value : Z)
| ImmFloat64 (value : Z)
| ImmBytes (bytes : list byte)
| ImmZero (ty : TypeId)
| ImmGlobalAddress (global : GlobalId)
| ImmFunctionAddress (function : FunctionId).

Record AssertionFailureDescriptor := {
  assertion_expression : str;
  assertion_message : option str;
  assertion_source : Span;
}.

Inductive BoundedStringPart (V : Type) :=
| PartText (value : str) (source : Span)
| PartBool (value : V) (source : Span)
| PartCharacter (value : V) (source : Span)
| PartInteger (value : V) (maximum_bytes : Z) (source : Span)
| PartStaticString (value : V) (bytes : Z) (source : Span).
Arguments PartText {V} value source.
Arguments PartBool {V} value source.
Arguments PartCharacter {V} value source.
Arguments PartInteger {V} value maximum_bytes source.
Arguments PartStaticString {V} value bytes source.

Inductive FlowOperation (V : Type) :=
| ImmediateOp (immediate : Immediate)
| ActorStateAddress (actor : ActorId) (region : RegionId) (proof : ProofId)
| Unary (op : UnaryOp) (value : V)
| Binary (op : BinaryOp) (left_ right_ : V)
| Cast (value : V) (to : TypeId) (mode : CastMode)
| MakeAggregate (ty : TypeId) (fields : list V)
| FormatBoundedString (ty : TypeId) (parts : list (BoundedStringPart V))
| MakeEnum (ty : TypeId) (variant : Z) (payload : option V)
| EnumTag (value : V)
| EnumPayload (value : V) (variant : option Z)
| ExtractField (aggregate : V) (field : Z)
| ExtractIndex (aggregate index : V) (proof : ProofId)
| InsertField (aggregate : V) (field : Z) (value : V)
| Select (condition then_value else_value : V)
| BeginAccess (place : V) (kind : AccessKind) (proof : ProofId)
| EndAccess (access : V)
| LoadOp (address : V) (proof : ProofId)
| StoreOp (address value : V) (proof : ProofId)
| Move (value : V)
| Copy (value : V)
| Drop (value : V)
| Call (function : FunctionId) (arguments : list V)
| AsyncCall (function : FunctionId) (arguments : list V) (plan : ActivationId)
| Allocate (region : RegionId) (ty : TypeId) (count : V) (proof : ProofId)
| RegionReset (region : RegionId)
| Promote (value : V) (destination : RegionId) (proof : ProofId)
| ActorCapability (actor : ActorId) (proof : ProofId)
| ActorReserve (actor : ActorId) (method : FunctionId) (proof : ProofId)
| ActorCommit (reservation : V) (arguments : list V)
| ActorReplyRequest (actor : ActorId) (method : FunctionId) (permit reply : ProofId)
| ActorReplyResolve (outcome : V) (reply : ProofId)
| ActorReject (reservation : V)
| MailboxReceive (actor : ActorId) (method : FunctionId)
| ReplyResolve (endpoint outcome : V)
| ReceiptCommit (receipt payload : V)
| ReceiptResolve (receipt outcome : V)
| TaskAcquireSlot (task : TaskId) (proof : ProofId)
| TaskStart (slot : V) (entry : FunctionId) (arguments : list V)
| TaskCancel (task : V)
| Park (wait_set : V)
| Wake (target : V)
| Checkpoint (id : CheckpointId) (proof : ProofId)
| DeadlineRead
| InterruptMask
| InterruptRestore (token : V)
| InterruptPublish (cell value : V)
| MmioRead (device : DeviceId) (register : Z)
| MmioWrite (device : DeviceId) (register : Z) (value : V)
| Fence (kind : FenceKind)
| DmaTransition (token : V) (device : DeviceId) (from to : DmaOwnership) (proof : ProofId)
| QueueReserve (device : DeviceId) (descriptors : V) (proof : ProofId)
| QueuePublish (reservation payload : V)
| ValidateDeviceValue (value : V) (proof : ProofId)
| CheckOp (condition : V) (failure : FailureKind) (proof : option ProofId)
| Assert (condition : V) (failure : AssertionFailureDescriptor)
| RecordEvent (kind : Z) (payload : V)
| ReplayEvent (kind : Z) (destination : V)
| TestEmit (payload : V)
| TestFinish (outcome : V).
Arguments ImmediateOp {V} immediate.
Arguments ActorStateAddress {V} actor region proof.
Arguments Unary {V} op value.
Arguments Binary {V} op left_ right_.
Arguments Cast {V} value to mode.
Arguments MakeAggregate {V} ty fields.
Arguments FormatBoundedString {V} ty parts.
Arguments MakeEnum {V} ty variant payload.
Arguments EnumTag {V} value.
Arguments EnumPayload {V} value variant.
Arguments ExtractField {V} aggregate field.
Arguments ExtractIndex {V} aggregate index proof.
Arguments InsertField {V} aggregate field value.
Arguments Select {V} condition then_value else_value.
Arguments BeginAccess {V} place kind proof.
Arguments EndAccess {V} access.
Arguments LoadOp {V} address proof.
Arguments StoreOp {V} address value proof.
Arguments Move {V} value.
Arguments Copy {V} value.
Arguments Drop {V} value.
Arguments Call {V} function arguments.
Arguments AsyncCall {V} function arguments plan.
Arguments Allocate {V} region ty count proof.
Arguments RegionReset {V} region.
Arguments Promote {V} value destination proof.
Arguments ActorCapability {V} actor proof.
Arguments ActorReserve {V} actor method proof.
Arguments ActorCommit {V} reservation arguments.
Arguments ActorReplyRequest {V} actor method permit reply.
Arguments ActorReplyResolve {V} outcome reply.
Arguments ActorReject {V} reservation.
Arguments MailboxReceive {V} actor method.
Arguments ReplyResolve {V} endpoint outcome.
Arguments ReceiptCommit {V} receipt payload.
Arguments ReceiptResolve {V} receipt outcome.
Arguments TaskAcquireSlot {V} task proof.
Arguments TaskStart {V} slot entry arguments.
Arguments TaskCancel {V} task.
Arguments Park {V} wait_set.
Arguments Wake {V} target.
Arguments Checkpoint {V} id proof.
Arguments DeadlineRead {V}.
Arguments InterruptMask {V}.
Arguments InterruptRestore {V} token.
Arguments InterruptPublish {V} cell value.
Arguments MmioRead {V} device register.
Arguments MmioWrite {V} device register value.
Arguments Fence {V} kind.
Arguments DmaTransition {V} token device from to proof.
Arguments QueueReserve {V} device descriptors proof.
Arguments QueuePublish {V} reservation payload.
Arguments ValidateDeviceValue {V} value proof.
Arguments CheckOp {V} condition failure proof.
Arguments Assert {V} condition failure.
Arguments RecordEvent {V} kind payload.
Arguments ReplayEvent {V} kind destination.
Arguments TestEmit {V} payload.
Arguments TestFinish {V} outcome.

(** ** Functions *)

Record Instruction := {
  instruction_id : InstructionId;
  results : list ValueId;
  operation : FlowOperation ValueId;
  instruction_source : option Span;
}.

Record SwitchCase (V : Type) := {
  case_value : Z;
  case_target : BlockId;
  case_arguments : list V;
}.
Arguments Build_SwitchCase {V} _ _ _.
Arguments case_value {V} _.
Arguments case_target {V} _.
Arguments case_arguments {V} _.

Inductive Terminator (V : Type) :=
| Jump (target : BlockId) (arguments : list V)
| Branch (condition : V) (then_block : BlockId) (then_arguments : list V)
         (else_block : BlockId) (else_arguments : list V)
| Switch (value : V) (cases : list (SwitchCase V)) (default : BlockId) (default_arguments : list V)
| Return (values : list V)
| Suspend (state : Z) (activation : V) (resume : BlockId)
| TailCall (function : FunctionId) (arguments : list V)
| Trap (failure : FailureKind) (detail : option V)
| Unreachable.
Arguments Jump {V} target arguments.
Arguments Branch {V} condition then_block then_arguments else_block else_arguments.
Arguments Switch {V} value cases default default_arguments.
Arguments Return {V} values.
Arguments Suspend {V} state activation resume.
Arguments TailCall {V} function arguments.
Arguments Trap {V} failure detail.
Arguments Unreachable {V}.

Record Block := {
  block_id : BlockId;
  block_parameters : list ValueId;
  instructions : list Instruction;
  terminator : Terminator ValueId;
  block_source : option Span;
}.

Record Value := {
  value_id : ValueId;
  value_ty : TypeId;
  value_source_name : option str;
  value_source : option Span;
}.

Inductive FunctionRole :=
| RoleOrdinary
| RoleActorTurn (actor : ActorId)
| RoleTaskEntry (task : TaskId)
| RoleIsr (device : DeviceId)
| RoleCleanup
| RoleImageEntry
| RoleTest.

Inductive FunctionColor := ColorSync | ColorAsync | ColorIsr.

Inductive FunctionOrigin :=
| SourceSemantic (semantic_function : Z)
| GeneratedImageEntry (semantic_function constructor : Z)
| GeneratedTestHarness (semantic_function group : Z)
| GeneratedAsyncState (semantic_function state : Z)
| GeneratedCleanup (semantic_function scope : Z).

Record FlowFunction := {
  function_id : FunctionId;
  function_name : str;
  function_origin : FunctionOrigin;
  role : FunctionRole;
  color : FunctionColor;
  parameters : list ValueId;
  result_types : list TypeId;
  values : list Value;
  blocks : list Block;
  entry : BlockId;
  stack_bound : Z;
  frame_bound : Z;
  function_proofs : list ProofId;
  function_source : option Span;
}.

(** ** Validation errors

    What validation reports; the optimiser passes it on. *)
Inductive ValidationError :=
| InvalidLimitsError
| CancelledError
| ResourceLimitError (resource : string) (limit : Z)
| TooManyErrors (limit : Z)
| UnsupportedVersion (version : Z)
| MissingImageName
| NonDenseId (kind : string) (expected actual : Z)
| UnknownFunction (function : FunctionId)
| UnknownBlock (function : FunctionId) (block : BlockId)
| UnknownValue (function : FunctionId) (value : ValueId)
| UnknownReference (kind : string) (id : Z)
| ValueDefinitionCount (function : FunctionId) (value : ValueId) (definitions : Z)
| UnreachableBlock (function : FunctionId) (block : BlockId)
| NonDominatingValueUse (function : FunctionId) (value : ValueId) (block : BlockId)
    (instruction : option InstructionId)
| ConflictingParallelEdgeArguments (function : FunctionId) (from to : BlockId)
| TerminatorTypeMismatch (function : FunctionId) (block : BlockId)
| DuplicateSwitchCase (function : FunctionId) (block : BlockId) (value : Z)
| SwitchCaseOutOfRange (function : FunctionId) (block : BlockId) (value : Z) (bits : option Z)
| TailCallResultMismatch (caller callee : FunctionId)
| InvalidRecord (kind : string) (id : Z)
| NonCanonicalReferences (kind : string) (owner : Z)
| CyclicReferences (kind : string)
| DuplicatePlanOwner (kind : string)
| CallArity (caller callee : FunctionId) (expected actual : Z)
| CallTypeMismatch (caller callee : FunctionId)
| CallResultMismatch (caller callee : FunctionId)
| EdgeArity (function : FunctionId) (target : BlockId) (expected actual : Z)
| EdgeTypeMismatch (function : FunctionId) (target : BlockId)
| ReturnArity (function : FunctionId) (expected actual : Z).
