(* ===== verification/ScalarFold.v ===== *)
(** Folding of scalar operations: the pure part of
    [src/crates/wrela-flow-opt/src/development.rs], from [fold_operation] to
    [signed_to_raw], and its agreement with the arithmetic of the language
    reference (docs/language, section 2.9): checked operations abandon on
    overflow, wrapping ones reduce modulo [2^width], division truncates,
    the remainder has the sign of the dividend, shift counts are checked.

    A [u128] is a [Z] in [0, 2^128), an [i128] a [Z] in [-2^127, 2^127). *)

From Stdlib Require Import Floats.SpecFloat.
From stdpp Require Import base numbers list option.
From S2P Require Import Prelude Bytes FlowWir.

#[local] Open Scope Z_scope.

(** ** The 128-bit operations used *)

Definition u128_max : Z := 2 ^ 128 - 1.
(** [i128::from_ne_bytes(value.to_ne_bytes())] and back. *)
Definition as_i128 (v : Z) : Z := if v <? 2 ^ 127 then v else v - 2 ^ 128.
Definition as_u128 (v : Z) : Z := v mod 2 ^ 128.
Definition i128_fits (v : Z) : bool := (- 2 ^ 127 <=? v) && (v <? 2 ^ 127).
Definition i128_try_from (v : Z) : option Z := if v <? 2 ^ 127 then Some v else None.
Definition i128_checked (v : Z) : option Z := if i128_fits v then Some v else None.
Definition u128_checked (v : Z) : option Z := if fits 128 v then Some v else None.
(** [i128::checked_div], [checked_rem] of a nonzero divisor: only
    [MIN / -1] overflows, and both refuse it. *)
Definition i128_checked_div (a b : Z) : option Z :=
  if (b =? 0) || ((a =? - 2 ^ 127) && (b =? -1)) then None else Some (Z.quot a b).
Definition i128_checked_rem (a b : Z) : option Z :=
  if (b =? 0) || ((a =? - 2 ^ 127) && (b =? -1)) then None else Some (Z.rem a b).
(** [left << count] on [u128], for a count below 128. *)
Definition u128_shl (v count : Z) : Z := Z.shiftl v count mod 2 ^ 128.

(** [f32::from_bits] and [f64::from_bits]: [p] bits of precision, exponents up
    to [emax]. *)
Definition float_from_bits (p emax bits : Z) : spec_float :=
  let mantissa := bits mod 2 ^ (p - 1) in
  let biased := bits / 2 ^ (p - 1) mod (2 * emax) in
  let sign := negb (bits / 2 ^ (p - 1) / (2 * emax) =? 0) in
  if biased =? 0 then
    match mantissa with
    | Zpos m => S754_finite sign m (3 - emax - p)
    | _ => S754_zero sign
    end
  else if biased =? 2 * emax - 1 then
    if mantissa =? 0 then S754_infinity sign else S754_nan
  else S754_finite sign (Z.to_pos (mantissa + 2 ^ (p - 1))) (biased + 2 - emax - p).
Definition f32_from_bits (bits : Z) : spec_float := float_from_bits 24 128 bits.
Definition f64_from_bits (bits : Z) : spec_float := float_from_bits 53 1024 bits.

(** ** Integers of a declared width *)

Definition integer_byte_width (bits : Z) : option nat :=
  if (bits =? 0) || (128 <? bits) then None else Some (Z.to_nat ((bits + 7) / 8)).

Definition integer_mask (bits : Z) : option Z :=
  if bits =? 128 then Some u128_max
  else if (1 <=? bits) && (bits <=? 127) then Some (Z.shiftl 1 bits - 1)
  else None.

Definition sign_extend (value bits : Z) : option Z :=
  mask ← integer_mask bits;
  let value := Z.land value mask in
  if bits =? 128 then Some (as_i128 value)
  else
    let sign := Z.shiftl 1 (bits - 1) in
    if Z.land value sign =? 0 then i128_try_from value
    else Some (as_i128 (Z.lor value (lnot_w 128 mask))).

Definition signed_fits (value bits : Z) : option bool :=
  if bits =? 128 then Some true
  else if (1 <=? bits) && (bits <=? 127) then
    let shift := bits - 1 in
    Some ((- Z.shiftl 1 shift <=? value) && (value <? Z.shiftl 1 shift))
  else None.

Definition signed_to_raw (value bits : Z) : option Z :=
  mask ← integer_mask bits; Some (Z.land (as_u128 value) mask).

(** ** Constants *)

Inductive ScalarConstant :=
| CBool (value : bool)
| CInteger (signed : bool) (bits value : Z)
| CFloat32 (value : Z)
| CFloat64 (value : Z).

#[export] Instance ScalarConstant_eq_dec : EqDecision ScalarConstant.
Proof. solve_decision. Defined.

Definition kind_of (types : list FlowType) (ty : TypeId) : option FlowTypeKind :=
  kind <$> types !! N.to_nat ty.

(** The loop [value |= u128::from(byte) << (index * 8)]. *)
Fixpoint or_bytes (index value : Z) (bytes : list byte) : Z :=
  match bytes with
  | [] => value
  | b :: bytes => or_bytes (index + 1) (Z.lor value (u128_shl (Z_of_byte b) (index * 8))) bytes
  end.

Definition constant_from_immediate (immediate : Immediate) (result_type : TypeId)
    (types : list FlowType) : option ScalarConstant :=
  k ← kind_of types result_type;
  match immediate, k with
  | ImmBool value, KScalar TBool => Some (CBool value)
  | ImmInteger bits bytes_le, KScalar (TInteger signed type_bits) =>
      if bits =? type_bits then
        width ← integer_byte_width bits;
        if Nat.eqb width (length bytes_le) then
          let value := or_bytes 0 0 bytes_le in
          mask ← integer_mask bits;
          if negb (Z.land value (lnot_w 128 mask) =? 0) then None
          else Some (CInteger signed bits value)
        else None
      else None
  | ImmFloat32 value, KScalar TFloat32 => Some (CFloat32 value)
  | ImmFloat64 value, KScalar TFloat64 => Some (CFloat64 value)
  | ImmZero ty, KScalar TBool => if (ty =? result_type)%N then Some (CBool false) else None
  | ImmZero ty, KScalar (TInteger signed bits) =>
      if (ty =? result_type)%N then Some (CInteger signed bits 0) else None
  | ImmZero ty, KScalar TFloat32 => if (ty =? result_type)%N then Some (CFloat32 0) else None
  | ImmZero ty, KScalar TFloat64 => if (ty =? result_type)%N then Some (CFloat64 0) else None
  | _, _ => None
  end.

(** The immediate spelled for a constant. The bytes of an integer take an
    allocation, after which the spelling is done; the pass that folds asks for
    it ([FoldPass.fold_succeeds]). *)
Definition constant_to_immediate (constant : ScalarConstant) (result_type : TypeId)
    (types : list FlowType) : option Immediate :=
  k ← kind_of types result_type;
  match constant, k with
  | CBool value, KScalar TBool => Some (ImmBool value)
  | CInteger signed bits value, KScalar (TInteger result_signed result_bits) =>
      if bool_decide (signed = result_signed) && (bits =? result_bits) then
        width ← integer_byte_width bits;
        Some (ImmInteger bits (take width (le_bytes 16 value)))
      else None
  | CFloat32 value, KScalar TFloat32 => Some (ImmFloat32 value)
  | CFloat64 value, KScalar TFloat64 => Some (ImmFloat64 value)
  | _, _ => None
  end.

(** ** Integer operations *)

Definition checked_integer_arithmetic (op : BinaryOp) (signed : bool) (bits left_ right_ : Z)
    : option Z :=
  if signed then
    left_ ← sign_extend left_ bits;
    right_ ← sign_extend right_ bits;
    result ← match op with
             | AddChecked => i128_checked (left_ + right_)
             | SubChecked => i128_checked (left_ - right_)
             | MulChecked => i128_checked (left_ * right_)
             | _ => None
             end;
    fit ← signed_fits result bits;
    if fit : bool then signed_to_raw result bits else None
  else
    result ← match op with
             | AddChecked => u128_checked (left_ + right_)
             | SubChecked => u128_checked (left_ - right_)
             | MulChecked => u128_checked (left_ * right_)
             | _ => None
             end;
    mask ← integer_mask bits;
    if result <=? mask then Some result else None.

Definition checked_integer_division (op : BinaryOp) (signed : bool) (bits left_ right_ : Z)
    : option Z :=
  if signed then
    left_ ← sign_extend left_ bits;
    right_ ← sign_extend right_ bits;
    if right_ =? 0 then None else
    result ← match op with
             | DivChecked => i128_checked_div left_ right_
             | RemChecked => i128_checked_rem left_ right_
             | _ => None
             end;
    fit ← match op with
          | DivChecked => signed_fits result bits
          | _ => Some true
          end;
    if fit : bool then signed_to_raw result bits else None
  else
    if right_ =? 0 then None else
    match op with
    | DivChecked => Some (left_ / right_)
    | RemChecked => Some (left_ mod right_)
    | _ => None
    end.

Definition checked_integer_shift (op : BinaryOp) (signed : bool) (bits left_ right_ : Z)
    : option Z :=
  negative ← (if signed then (fun r => r <? 0) <$> sign_extend right_ bits else Some false);
  if negative : bool then None else
  count ← try_u32 right_;
  if bits <=? count then None else
  mask ← integer_mask bits;
  let left_ := Z.land left_ mask in
  match op with
  | ShiftLeftChecked =>
      let shifted := Z.land (u128_shl left_ count) mask in
      roundtrips ← (if signed then
                      extended ← sign_extend shifted bits;
                      original ← sign_extend left_ bits;
                      Some (Z.shiftr extended count =? original)
                    else Some (Z.shiftr shifted count =? left_));
      if roundtrips : bool then Some shifted else None
  | ShiftLeftWrapping => Some (Z.land (u128_shl left_ count) mask)
  | ShiftRightChecked =>
      if signed then
        extended ← sign_extend left_ bits;
        signed_to_raw (Z.shiftr extended count) bits
      else Some (Z.shiftr left_ count)
  | _ => None
  end.

(** The four ordered comparisons. *)
Definition compare_values (op : BinaryOp) (left_ right_ : Z) : option bool :=
  match op with
  | Less => Some (left_ <? right_)
  | LessEqual => Some (left_ <=? right_)
  | Greater => Some (right_ <? left_)
  | GreaterEqual => Some (right_ <=? left_)
  | _ => None
  end.

Definition compare_integer (op : BinaryOp) (signed : bool) (bits left_ right_ : Z) : option bool :=
  if signed then
    left_ ← sign_extend left_ bits;
    right_ ← sign_extend right_ bits;
    compare_values op left_ right_
  else compare_values op left_ right_.

(** [==], [<] and the rest of [PartialEq] and [PartialOrd] for floats. *)
Definition compare_float (op : BinaryOp) (left_ right_ : spec_float) : option bool :=
  match op with
  | Equal => Some (SFeqb left_ right_)
  | NotEqual => Some (negb (SFeqb left_ right_))
  | Less => Some (SFltb left_ right_)
  | LessEqual => Some (SFleb left_ right_)
  | Greater => Some (SFltb right_ left_)
  | GreaterEqual => Some (SFleb right_ left_)
  | _ => None
  end.

Definition fold_integer_binary (op : BinaryOp) (signed : bool) (bits left_ right_ : Z)
    : option ScalarConstant :=
  mask ← integer_mask bits;
  let integer := fun value => CInteger signed bits (Z.land value mask) in
  match op with
  | AddWrapping => Some (integer (wrapping_add 128 left_ right_))
  | SubWrapping => Some (integer (wrapping_sub 128 left_ right_))
  | MulWrapping => Some (integer (wrapping_mul 128 left_ right_))
  | BitAnd => Some (integer (Z.land left_ right_))
  | BitOr => Some (integer (Z.lor left_ right_))
  | BitXor => Some (integer (Z.lxor left_ right_))
  | AddChecked | SubChecked | MulChecked =>
      integer <$> checked_integer_arithmetic op signed bits left_ right_
  | DivChecked | RemChecked => integer <$> checked_integer_division op signed bits left_ right_
  | ShiftLeftChecked | ShiftLeftWrapping | ShiftRightChecked =>
      integer <$> checked_integer_shift op signed bits left_ right_
  | Equal => Some (CBool (left_ =? right_))
  | NotEqual => Some (CBool (negb (left_ =? right_)))
  | Less | LessEqual | Greater | GreaterEqual =>
      CBool <$> compare_integer op signed bits left_ right_
  end.

(** ** Operations *)

(** The [match] of [fold_unary]. *)
Definition fold_unary_constant (op : UnaryOp) (operand : ScalarConstant) : option ScalarConstant :=
  match op, operand with
  | BoolNot, CBool value => Some (CBool (negb value))
  | BitNot, CInteger signed bits value =>
      mask ← integer_mask bits;
      Some (CInteger signed bits (Z.land (lnot_w 128 value) mask))
  | Negate, CInteger true bits value =>
      signed_value ← sign_extend value bits;
      negated ← i128_checked (- signed_value);
      fit ← signed_fits negated bits;
      if fit : bool then CInteger true bits <$> signed_to_raw negated bits else None
  | Negate, CFloat32 value => Some (CFloat32 (Z.lxor value (Z.shiftl 1 31)))
  | Negate, CFloat64 value => Some (CFloat64 (Z.lxor value (Z.shiftl 1 63)))
  | _, _ => None
  end.

Definition fold_unary (op : UnaryOp) (operand : ScalarConstant) (result_type : TypeId)
    (types : list FlowType) : option Immediate :=
  result ← fold_unary_constant op operand; constant_to_immediate result result_type types.

(** The comparison [fold_binary] computes for operands that are not both
    integers. *)
Definition fold_comparison (op : BinaryOp) (left_ right_ : ScalarConstant) : option bool :=
  match left_, right_ with
  | CBool l, CBool r =>
      match op with
      | Equal => Some (eqb l r)
      | NotEqual => Some (negb (eqb l r))
      | _ => None
      end
  | CFloat32 l, CFloat32 r => compare_float op (f32_from_bits l) (f32_from_bits r)
  | CFloat64 l, CFloat64 r => compare_float op (f64_from_bits l) (f64_from_bits r)
  | _, _ => None
  end.

Definition fold_binary (op : BinaryOp) (left_ right_ : ScalarConstant) (result_type : TypeId)
    (types : list FlowType) : option Immediate :=
  match left_, right_ with
  | CInteger left_signed left_bits left_value, CInteger right_signed right_bits right_value =>
      if negb (bool_decide (left_signed = right_signed)) || negb (left_bits =? right_bits)
      then None
      else
        value ← fold_integer_binary op left_signed left_bits left_value right_value;
        constant_to_immediate value result_type types
  | _, _ =>
      comparison ← fold_comparison op left_ right_;
      constant_to_immediate (CBool comparison) result_type types
  end.

Definition constant (value : ValueId) (constants : list (option ScalarConstant))
    : option ScalarConstant :=
  mjoin (constants !! N.to_nat value).

Definition fold_operation (op : FlowOperation ValueId) (result_type : TypeId)
    (constants : list (option ScalarConstant)) (types : list FlowType) : option Immediate :=
  match op with
  | Unary op value =>
      operand ← constant value constants; fold_unary op operand result_type types
  | Binary op left_ right_ =>
      left_ ← constant left_ constants;
      right_ ← constant right_ constants;
      fold_binary op left_ right_ result_type types
  | Select condition then_value else_value =>
      condition ← constant condition constants;
      match condition with
      | CBool condition =>
          selected ← constant (if condition then then_value else else_value) constants;
          constant_to_immediate selected result_type types
      | _ => None
      end
  | Cast value to CastExact =>
      if (to =? result_type)%N then
        value ← constant value constants; constant_to_immediate value result_type types
      else None
  | _ => None
  end.

(** ** The arithmetic of the language *)

(** Whether a mathematical integer is a value of the type. *)
Definition in_range (signed : bool) (bits v : Z) : bool :=
  if signed then (- 2 ^ (bits - 1) <=? v) && (v <? 2 ^ (bits - 1)) else fits bits v.
(** The mathematical integer a raw value stands for. *)
Definition denote (signed : bool) (bits raw : Z) : Z :=
  if signed && (2 ^ (bits - 1) <=? raw) then raw - 2 ^ bits else raw.

Arguments in_range : simpl never.
Arguments denote : simpl never.

(** What an operation does when it runs. *)
Inductive outcome :=
| Yields (value : ScalarConstant)
| Abandons.

Definition wrapping (signed : bool) (bits v : Z) : outcome :=
  Yields (CInteger signed bits (v mod 2 ^ bits)).
Definition checked (signed : bool) (bits v : Z) : outcome :=
  if in_range signed bits v then wrapping signed bits v else Abandons.
(** A shift whose count is valid. *)
Definition shifting (bits count : Z) (result : outcome) : outcome :=
  if (0 <=? count) && (count <? bits) then result else Abandons.

(** The meaning of a binary operation on two integers of one type. *)
Definition language_binary (op : BinaryOp) (signed : bool) (bits x y : Z) : outcome :=
  match op with
  | AddChecked => checked signed bits (x + y)
  | SubChecked => checked signed bits (x - y)
  | MulChecked => checked signed bits (x * y)
  | AddWrapping => wrapping signed bits (x + y)
  | SubWrapping => wrapping signed bits (x - y)
  | MulWrapping => wrapping signed bits (x * y)
  | DivChecked => if y =? 0 then Abandons else checked signed bits (Z.quot x y)
  | RemChecked => if y =? 0 then Abandons else checked signed bits (Z.rem x y)
  | BitAnd => wrapping signed bits (Z.land x y)
  | BitOr => wrapping signed bits (Z.lor x y)
  | BitXor => wrapping signed bits (Z.lxor x y)
  | ShiftLeftChecked => shifting bits y (checked signed bits (x * 2 ^ y))
  | ShiftLeftWrapping => shifting bits y (wrapping signed bits (x * 2 ^ y))
  | ShiftRightChecked => shifting bits y (wrapping signed bits (x / 2 ^ y))
  | Equal => Yields (CBool (x =? y))
  | NotEqual => Yields (CBool (negb (x =? y)))
  | Less => Yields (CBool (x <? y))
  | LessEqual => Yields (CBool (x <=? y))
  | Greater => Yields (CBool (y <? x))
  | GreaterEqual => Yields (CBool (y <=? x))
  end.

Definition language_unary (op : UnaryOp) (signed : bool) (bits x : Z) : option outcome :=
  match op with
  | Negate => Some (checked signed bits (- x))
  | BitNot => Some (wrapping signed bits (Z.lnot x))
  | BoolNot => None
  end.

(** A raw value of the declared width. *)
Definition canonical (c : ScalarConstant) : bool :=
  match c with
  | CBool _ => true
  | CInteger _ bits value => (1 <=? bits) && (bits <=? 128) && fits bits value
  | CFloat32 value => fits 32 value
  | CFloat64 value => fits 64 value
  end.

Definition yielded (o : outcome) : option ScalarConstant :=
  match o with Yields c => Some c | Abandons => None end.

(** ** Masks and sign extension *)

Lemma bits_high width r n : 0 <= width -> 0 <= r < 2 ^ width -> width <= n -> Z.testbit r n = false.
Proof. intros Hw Hr Hn. rewrite <- (Z.mod_small r (2 ^ width)) by done. apply Z.mod_pow2_bits_high. lia. Qed.

Section width.
  Context (bits : Z) (Hbits : 1 <= bits <= 128).

Lemma pow_half : 2 ^ bits = 2 * 2 ^ (bits - 1).
  Proof. rewrite <- Z.pow_succ_r by lia. f_equal. lia. Qed.
Lemma pow_half_pos : 0 < 2 ^ (bits - 1).
  Proof. apply Z.pow_pos_nonneg; lia. Qed.
Lemma pow_width : 2 ^ (bits - 1) <= 2 ^ 127.
  Proof. apply Z.pow_le_mono_r; lia. Qed.

Lemma integer_mask_ones : integer_mask bits = Some (Z.ones bits).
  Proof.
    unfold integer_mask. destruct (Z.eqb_spec bits 128) as [->|Hn]; [done|].
    replace ((1 <=? bits) && (bits <=? 127)) with true
      by (symmetry; apply andb_true_iff; rewrite !Z.leb_le; lia).
    by rewrite Z.ones_equiv, Z.shiftl_1_l, Z.sub_1_r.
  Qed.

Lemma mask_mod v : Z.land v (Z.ones bits) = v mod 2 ^ bits.
  Proof. apply Z.land_ones. lia. Qed.

Lemma mask_small v : 0 <= v < 2 ^ bits -> v mod 2 ^ bits = v.
  Proof. apply Z.mod_small. Qed.

Lemma mod_mod_width v : (v mod 2 ^ 128) mod 2 ^ bits = v mod 2 ^ bits.
  Proof.
    apply Z.mod_mod_divide. exists (2 ^ (128 - bits)). rewrite <- Z.pow_add_r by lia. f_equal. lia.
  Qed.

Lemma signed_to_raw_mod v : signed_to_raw v bits = Some (v mod 2 ^ bits).
  Proof. unfold signed_to_raw, as_u128. rewrite integer_mask_ones. simpl.
    by rewrite mask_mod, mod_mod_width. Qed.

  (** The sign bit of a [bits]-wide value. *)
Lemma sign_bit v : 0 <= v < 2 ^ bits ->
    (Z.land v (Z.shiftl 1 (bits - 1)) =? 0) = (v <? 2 ^ (bits - 1)).
  Proof.
    intros Hv. rewrite Z.shiftl_1_l. pose proof pow_half. pose proof pow_half_pos.
    assert (Hland : Z.land v (2 ^ (bits - 1)) = 2 ^ (bits - 1) * (v / 2 ^ (bits - 1))).
    { apply Z.bits_inj'. intros n Hn. rewrite Z.land_spec, Z.pow2_bits_eqb, Z.mul_comm by lia.
      rewrite Z.mul_pow2_bits by lia. destruct (Z_lt_le_dec n (bits - 1)) as [Hlt|Hge].
      - rewrite (Z.testbit_neg_r _ (n - _)) by lia.
        destruct (Z.eqb_spec (bits - 1) n); [lia|apply andb_false_r].
      - rewrite Z.div_pow2_bits by lia. replace (n - (bits - 1) + (bits - 1)) with n by lia.
        destruct (Z.eqb_spec (bits - 1) n) as [<-|Hne]; [apply andb_true_r|].
        rewrite andb_false_r, <- (Z.mod_small v (2 ^ bits)) by done.
        by rewrite Z.mod_pow2_bits_high by lia. }
    rewrite Hland. destruct (Z.ltb_spec v (2 ^ (bits - 1))) as [Hlt|Hge].
    - by rewrite Z.div_small, Z.mul_0_r by lia.
    - rewrite Z.eqb_neq. pose proof (Z.div_le_lower_bound v (2 ^ (bits - 1)) 1). lia.
  Qed.

Lemma high_ones : (2 ^ (128 - bits) - 1) * 2 ^ bits = 2 ^ 128 - 2 ^ bits.
  Proof.
    rewrite Z.mul_sub_distr_r, <- Z.pow_add_r, Z.mul_1_l by lia.
    by replace (128 - bits + bits) with 128 by lia.
  Qed.

  (** The complement of the mask has exactly the bits above the width. *)
Lemma complement_mask : lnot_w 128 (Z.ones bits) = 2 ^ 128 - 2 ^ bits.
  Proof.
    unfold lnot_w. rewrite <- high_ones, Z.sub_1_r, <- Z.ones_equiv, <- Z.shiftl_mul_pow2 by lia.
    apply Z.bits_inj'. intros n Hb. rewrite Z.shiftl_spec, Z.lxor_spec by lia.
    destruct (Z_lt_le_dec n bits).
    - by rewrite (Z.testbit_neg_r _ (n - bits)), !Z.ones_spec_low by lia.
    - rewrite (Z.ones_spec_high bits) by lia. destruct (Z_lt_le_dec n 128).
      + by rewrite !Z.ones_spec_low by lia.
      + by rewrite !Z.ones_spec_high by lia.
  Qed.

Lemma land_complement r : 0 <= r < 2 ^ bits -> Z.land r (2 ^ 128 - 2 ^ bits) = 0.
  Proof.
    intros Hr. apply Z.bits_inj'. intros n Hb. rewrite Z.land_spec, Z.bits_0, <- high_ones.
    rewrite Z.mul_pow2_bits by lia. destruct (Z_lt_le_dec n bits).
    - by rewrite (Z.testbit_neg_r _ (n - bits)), andb_false_r by lia.
    - by rewrite (bits_high bits r) by lia.
  Qed.

Lemma sign_extend_mod v : sign_extend v bits = Some (denote true bits (v mod 2 ^ bits)).
  Proof.
    unfold sign_extend. rewrite integer_mask_ones. simpl. rewrite mask_mod.
    pose proof pow_half as Hh. pose proof pow_half_pos. pose proof pow_width.
    pose proof (Z.mod_pos_bound v (2 ^ bits)) as Hr. set (r := v mod 2 ^ bits) in *.
    unfold denote. simpl. destruct (Z.eqb_spec bits 128) as [E|Hn].
    - unfold as_i128. replace (bits - 1) with 127 by lia. replace (2 ^ bits) with (2 ^ 128) by (by rewrite E).
      destruct (Z.ltb_spec r (2 ^ 127)), (Z.leb_spec (2 ^ 127) r); first [lia|done].
    - rewrite sign_bit by lia. destruct (Z.ltb_spec r (2 ^ (bits - 1))) as [Hlt|Hge];
        destruct (Z.leb_spec (2 ^ (bits - 1)) r); try lia.
      + unfold i128_try_from. destruct (Z.ltb_spec r (2 ^ 127)); [done|lia].
      + f_equal. assert (Hor : Z.lor r (lnot_w 128 (Z.ones bits)) = r + (2 ^ 128 - 2 ^ bits)).
        { by rewrite complement_mask, <- Z.add_nocarry_lor by (apply land_complement; lia). }
        rewrite Hor. unfold as_i128.
        assert (2 ^ bits <= 2 ^ 127) by (apply Z.pow_le_mono_r; lia).
        destruct (Z.ltb_spec (r + (2 ^ 128 - 2 ^ bits)) (2 ^ 127)); lia.
  Qed.

Lemma denote_range signed raw : 0 <= raw < 2 ^ bits -> in_range signed bits (denote signed bits raw) = true.
  Proof.
    intros Hr. pose proof pow_half. unfold in_range, denote. destruct signed; simpl.
    - rewrite andb_true_iff, Z.leb_le, Z.ltb_lt. destruct (Z.leb_spec (2 ^ (bits - 1)) raw); lia.
    - by apply fits_spec.
  Qed.

Lemma denote_mod signed raw : denote signed bits raw mod 2 ^ bits = raw mod 2 ^ bits.
  Proof.
    unfold denote. destruct (signed && _); [|done].
    replace (raw - 2 ^ bits) with (raw + (-1) * 2 ^ bits) by lia. apply Z.mod_add. pose proof pow_half.
    pose proof pow_half_pos. lia.
  Qed.

  (** Values of the type are what their low bits denote. *)
Lemma denote_encode signed v : in_range signed bits v = true -> denote signed bits (v mod 2 ^ bits) = v.
  Proof.
    intros Hv. pose proof pow_half. pose proof pow_half_pos.
    unfold in_range, denote in *. destruct signed; simpl; split_andb; bool_to_prop.
    - destruct (Z_lt_le_dec v 0) as [Hn|Hp].
      + replace (v mod 2 ^ bits) with (v + 2 ^ bits) by (apply (Z.mod_unique _ _ (-1)); lia).
        destruct (Z.leb_spec (2 ^ (bits - 1)) (v + 2 ^ bits)); lia.
      + rewrite Z.mod_small by lia. destruct (Z.leb_spec (2 ^ (bits - 1)) v); lia.
    - by apply Z.mod_small.
  Qed.

Lemma sign_extend_denote raw : 0 <= raw < 2 ^ bits -> sign_extend raw bits = Some (denote true bits raw).
  Proof. intros Hr. by rewrite sign_extend_mod, Z.mod_small. Qed.

Lemma in_range_i128 v : in_range true bits v = true -> i128_fits v = true.
  Proof.
    pose proof pow_width. unfold in_range, i128_fits.
    rewrite !andb_true_iff, !Z.leb_le, !Z.ltb_lt. lia.
  Qed.

Lemma signed_fits_range v : i128_fits v = true -> signed_fits v bits = Some (in_range true bits v).
  Proof.
    intros Hv. unfold signed_fits, in_range, i128_fits in *.
    destruct (Z.eqb_spec bits 128) as [->|Hn]; [change (128 - 1) with 127; by rewrite Hv|].
    replace ((1 <=? bits) && (bits <=? 127)) with true
      by (symmetry; apply andb_true_iff; rewrite !Z.leb_le; lia).
    by rewrite Z.shiftl_1_l.
  Qed.

  (** A signed result that passes both overflow tests. *)
Lemma signed_checked v :
    (result ← i128_checked v; fit ← signed_fits result bits;
     if fit : bool then signed_to_raw result bits else None)
    = if in_range true bits v then Some (v mod 2 ^ bits) else None.
  Proof.
    unfold i128_checked. destruct (i128_fits v) eqn:Hv; simpl.
    - rewrite signed_fits_range by done. simpl. by rewrite signed_to_raw_mod.
    - destruct (in_range true bits v) eqn:Hr; [|done]. apply in_range_i128 in Hr. congruence.
  Qed.

Lemma unsigned_checked v :
    (result ← u128_checked v; mask ← integer_mask bits; if result <=? mask then Some result else None)
    = if in_range false bits v then Some (v mod 2 ^ bits) else None.
  Proof.
    pose proof pow_half. pose proof pow_half_pos.
    assert (2 ^ bits <= 2 ^ 128) by (apply Z.pow_le_mono_r; lia).
    unfold u128_checked, in_range, fits. rewrite integer_mask_ones, Z.ones_equiv.
    destruct (Z.leb_spec 0 v), (Z.ltb_spec v (2 ^ 128)), (Z.ltb_spec v (2 ^ bits)); simpl; try done;
      try (destruct (Z.leb_spec v (Z.pred (2 ^ bits)))); try lia; try done.
    by rewrite Z.mod_small by lia.
  Qed.

Lemma fold_integer_mod signed v :
    CInteger signed bits (Z.land v (Z.ones bits)) = CInteger signed bits (v mod 2 ^ bits).
  Proof. by rewrite mask_mod. Qed.

Lemma yielded_checked signed v :
    (fun value => CInteger signed bits (Z.land value (Z.ones bits))) <$>
      (if in_range signed bits v then Some (v mod 2 ^ bits) else None)
    = yielded (checked signed bits v).
  Proof.
    unfold checked, wrapping. destruct (in_range signed bits v); [|done]. simpl.
    rewrite mask_mod, Z.mod_mod; [done|]. pose proof pow_half. pose proof pow_half_pos. lia.
  Qed.

  Context (signed : bool) (left_ right_ : Z).
  Context (Hleft : 0 <= left_ < 2 ^ bits) (Hright : 0 <= right_ < 2 ^ bits).
  #[local] Notation x := (denote signed bits left_).
  #[local] Notation y := (denote signed bits right_).
  #[local] Notation integer := (fun value => CInteger signed bits (Z.land value (Z.ones bits))).

Lemma checked_arithmetic_exact op (f : Z -> Z -> Z) :
    (op = AddChecked /\ f = Z.add) \/ (op = SubChecked /\ f = Z.sub) \/ (op = MulChecked /\ f = Z.mul) ->
    integer <$> checked_integer_arithmetic op signed bits left_ right_ = yielded (checked signed bits (f x y)).
  Proof.
    intros Hop. rewrite <- yielded_checked. f_equal. unfold checked_integer_arithmetic. destruct signed.
    - rewrite !sign_extend_denote by done. simpl. rewrite <- signed_checked. naive_solver.
    - rewrite <- unsigned_checked. naive_solver.
  Qed.

Lemma width_pos : 0 < 2 ^ bits.
  Proof. pose proof pow_half. pose proof pow_half_pos. lia. Qed.

Lemma wrapping_exact (f : Z -> Z -> Z) :
    (forall a b, f (a mod 2 ^ bits) (b mod 2 ^ bits) mod 2 ^ bits = f a b mod 2 ^ bits) ->
    integer (f left_ right_ mod 2 ^ 128) = CInteger signed bits (f x y mod 2 ^ bits).
  Proof.
    intros Hf. cbv beta. rewrite mask_mod, mod_mod_width, <- (Hf x y), !denote_mod.
    by rewrite (mask_small left_), (mask_small right_) by done.
  Qed.

Lemma mod_bits_ext u v :
    (forall i, 0 <= i < bits -> Z.testbit u i = Z.testbit v i) -> u mod 2 ^ bits = v mod 2 ^ bits.
  Proof.
    intros H. apply Z.bits_inj'. intros n Hn. destruct (Z_lt_le_dec n bits).
    - rewrite !Z.mod_pow2_bits_low by lia. by apply H.
    - by rewrite !Z.mod_pow2_bits_high by lia.
  Qed.

Lemma denote_testbit raw i : 0 <= i < bits -> Z.testbit (denote signed bits raw) i = Z.testbit raw i.
  Proof.
    intros Hi. rewrite <- (Z.mod_pow2_bits_low _ bits), denote_mod, Z.mod_pow2_bits_low by lia. done.
  Qed.

Lemma bitwise_exact (f : Z -> Z -> Z) (b : bool -> bool -> bool) :
    (forall u v i, 0 <= i -> Z.testbit (f u v) i = b (Z.testbit u i) (Z.testbit v i)) ->
    integer (f left_ right_) = CInteger signed bits (f x y mod 2 ^ bits).
  Proof.
    intros Hf. cbv beta. rewrite mask_mod. f_equal. apply mod_bits_ext. intros i Hi.
    by rewrite !Hf, !denote_testbit by lia.
  Qed.

Lemma denote_inj : (left_ =? right_) = (x =? y).
  Proof.
    apply eq_iff_eq_true. rewrite !Z.eqb_eq. split; [by intros ->|]. intros E.
    rewrite <- (mask_small left_), <- (mask_small right_) by done.
    by rewrite <- (denote_mod signed left_), E, denote_mod.
  Qed.

Lemma quot_fits a b : i128_fits a = true -> b <> 0 ->
    i128_checked_div a b = i128_checked (Z.quot a b).
  Proof.
    intros Ha Hb. unfold i128_checked_div, i128_checked, i128_fits in *. bool_to_prop.
    destruct (Z.eqb_spec b 0); [done|]. simpl. destruct (Z.eqb_spec b (-1)) as [->|Hb1].
    - replace (Z.quot a (-1)) with (- a) by (change (-1) with (- (1)); rewrite Z.quot_opp_r, Z.quot_1_r; lia).
      rewrite andb_true_r. destruct (Z.eqb_spec a (- 2 ^ 127)) as [->|]; [done|].
      destruct (Z.leb_spec (- 2 ^ 127) (- a)), (Z.ltb_spec (- a) (2 ^ 127)); simpl; done || lia.
    - rewrite andb_false_r.
      assert (Hs : - 2 ^ 127 <= Z.quot a b < 2 ^ 127).
      { destruct (Z.eqb_spec b 1) as [->|Hb2]; [rewrite Z.quot_1_r; lia|].
        pose proof (Z.quot_abs a b Hb) as Hq. rewrite Z.quot_div_nonneg in Hq by lia.
        pose proof (Z.div_le_upper_bound (Z.abs a) (Z.abs b) (2 ^ 126)). lia. }
      destruct (Z.leb_spec (- 2 ^ 127) (Z.quot a b)), (Z.ltb_spec (Z.quot a b) (2 ^ 127)); simpl; done || lia.
  Qed.

Lemma rem_in_range a b : in_range true bits a = true -> b <> 0 -> in_range true bits (Z.rem a b) = true.
  Proof.
    unfold in_range. rewrite !andb_true_iff, !Z.leb_le, !Z.ltb_lt. intros Ha Hb.
    assert (Hr : 0 <= Z.rem a b <= a \/ a <= Z.rem a b <= 0); [|lia].
    pose proof (Z.rem_sign_nz a b Hb) as Hs. pose proof (Z.rem_abs a b Hb) as Hm.
    rewrite Z.rem_mod_nonneg in Hm by lia.
    pose proof (Z.mod_le (Z.abs a) (Z.abs b)). destruct (Z.eq_dec (Z.rem a b) 0); [lia|].
    specialize (Hs n). lia.
  Qed.

  (** The least value of the widest type over -1 is the one remainder the
      host arithmetic of the compiler cannot compute. *)
Definition host_overflow (op : BinaryOp) : Prop :=
    signed = true /\ bits = 128 /\ op = RemChecked /\ x = - 2 ^ 127 /\ y = -1.

Lemma signed_i128 raw : signed = true -> 0 <= raw < 2 ^ bits -> i128_fits (denote signed bits raw) = true.
  Proof. intros -> Hr. apply in_range_i128. by apply denote_range. Qed.

Lemma div_checked_exact :
    integer <$> checked_integer_division DivChecked signed bits left_ right_
    = yielded (if y =? 0 then Abandons else checked signed bits (Z.quot x y)).
  Proof.
    unfold checked_integer_division. pose proof (signed_i128 left_) as Hx. destruct signed.
    - rewrite !sign_extend_denote by done. simpl. destruct (Z.eqb_spec (denote true bits right_) 0) as [|Hy]; [done|].
      rewrite quot_fits by auto. rewrite <- yielded_checked. f_equal. apply signed_checked.
    - unfold denote. simpl. destruct (Z.eqb_spec right_ 0) as [|Hy]; [done|].
      rewrite <- yielded_checked, Z.quot_div_nonneg by lia. f_equal.
      pose proof (Z.div_le_upper_bound left_ right_ left_). pose proof (Z.div_pos left_ right_).
      unfold in_range. replace (fits bits (left_ / right_)) with true by (symmetry; apply fits_spec; nia).
      by rewrite mask_small by nia.
  Qed.

Lemma rem_checked_exact :
    ~ host_overflow RemChecked ->
    integer <$> checked_integer_division RemChecked signed bits left_ right_
    = yielded (if y =? 0 then Abandons else checked signed bits (Z.rem x y)).
  Proof.
    intros Hhost. unfold checked_integer_division, host_overflow in *.
    pose proof (denote_range signed left_ Hleft) as Hx. destruct signed.
    - rewrite !sign_extend_denote by done. simpl. destruct (Z.eqb_spec (denote true bits right_) 0) as [|Hy]; [done|].
      rewrite <- yielded_checked, rem_in_range by done. f_equal. unfold i128_checked_rem.
      destruct (Z.eqb_spec (denote true bits right_) 0); [done|]. simpl.
      destruct ((denote true bits left_ =? - 2 ^ 127) && (denote true bits right_ =? -1)) eqn:E; [|apply signed_to_raw_mod].
      bool_to_prop. destruct Hhost. split_and!; try done. unfold in_range in Hx. bool_to_prop.
      destruct (Z.eq_dec bits 128); [done|].
      assert (2 ^ (bits - 1) <= 2 ^ 126) by (apply Z.pow_le_mono_r; lia). lia.
    - unfold denote in *. simpl. destruct (Z.eqb_spec right_ 0) as [|Hy]; [done|].
      rewrite <- yielded_checked, Z.rem_mod_nonneg by lia. f_equal.
      pose proof (Z.mod_le left_ right_). pose proof (Z.mod_pos_bound left_ right_).
      unfold in_range. replace (fits bits (left_ mod right_)) with true by (symmetry; apply fits_spec; lia).
      by rewrite mask_small by lia.
  Qed.

  (** Shifting a wrapped product back gives the operand exactly when nothing
      was lost. *)
Lemma shift_round_trip c : 0 <= c < bits ->
    (Z.shiftr (denote signed bits ((x * 2 ^ c) mod 2 ^ bits)) c =? x) = in_range signed bits (x * 2 ^ c).
  Proof.
    intros Hc. pose proof width_pos. assert (Hp : 0 < 2 ^ c) by (apply Z.pow_pos_nonneg; lia).
    assert (2 ^ c < 2 ^ bits) by (apply Z.pow_lt_mono_r; lia).
    apply eq_iff_eq_true. rewrite Z.eqb_eq, Z.shiftr_div_pow2 by lia. split.
    - set (w := denote _ _ _). intros Hw.
      assert (Hm : w mod 2 ^ bits = (x * 2 ^ c) mod 2 ^ bits) by (unfold w; rewrite denote_mod; apply Z.mod_mod; lia).
      pose proof (Z.div_mod w (2 ^ c)) as Hd. rewrite Hw in Hd.
      pose proof (Z.mod_pos_bound w (2 ^ c)).
      assert (Hk : w = x * 2 ^ c).
      { pose proof (Z.div_mod w (2 ^ bits)). pose proof (Z.div_mod (x * 2 ^ c) (2 ^ bits)).
        set (k := w / 2 ^ bits - x * 2 ^ c / 2 ^ bits).
        assert (w - x * 2 ^ c = 2 ^ bits * k) by lia.
        assert (Hk : 0 <= 2 ^ bits * k < 2 ^ bits) by lia. assert (k = 0) as -> by nia. lia. }
      rewrite <- Hk. apply denote_range. apply Z.mod_pos_bound. lia.
    - intros Hr. rewrite denote_encode by done. apply Z.div_mul. lia.
  Qed.

Lemma shl_mod c : 0 <= c < bits -> Z.land (u128_shl left_ c) (Z.ones bits) = (x * 2 ^ c) mod 2 ^ bits.
  Proof.
    intros Hc. unfold u128_shl. pose proof width_pos.
    rewrite mask_mod, mod_mod_width, Z.shiftl_mul_pow2 by lia.
    rewrite (Z.mul_mod left_), (Z.mul_mod x), denote_mod by lia. done.
  Qed.

  (** The count test accepts exactly the valid counts, and then reads them. *)
Lemma count_test {A} (k : Z -> option A) :
    (negative ← (if signed then (fun r => r <? 0) <$> sign_extend right_ bits else Some false);
     if negative : bool then None else count ← try_u32 right_; if bits <=? count then None else k count)
    = if (0 <=? y) && (y <? bits) then k y else None.
  Proof.
    assert (Hneg : (if signed then (fun r => r <? 0) <$> sign_extend right_ bits else Some false)
                   = Some (y <? 0)).
    { destruct signed; [by rewrite sign_extend_denote|]. unfold denote. simpl.
      f_equal. symmetry. apply Z.ltb_ge. lia. }
    rewrite Hneg. simpl. rewrite Z.leb_antisym.
    destruct (Z.ltb_spec y 0) as [|Hy]; [done|]. simpl.
    assert (Hyr : y = right_ \/ 2 ^ (bits - 1) <= right_ /\ y = right_ - 2 ^ bits).
    { unfold denote. destruct (Z.leb_spec (2 ^ (bits - 1)) right_); destruct signed; simpl; auto. }
    destruct Hyr as [Hyr|Hyr]; [|lia]. rewrite Hyr. unfold try_u32, u32_max.
    destruct (Z.leb_spec right_ 4294967295); simpl.
    - by rewrite Z.leb_antisym; destruct (right_ <? bits).
    - by destruct (Z.ltb_spec right_ bits); [lia|].
  Qed.

Lemma shift_left_exact :
    integer <$> checked_integer_shift ShiftLeftChecked signed bits left_ right_
    = yielded (shifting bits y (checked signed bits (x * 2 ^ y))).
  Proof.
    unfold checked_integer_shift, shifting. rewrite count_test. rewrite integer_mask_ones. simpl.
    destruct ((0 <=? y) && (y <? bits)) eqn:Hy; [|done]. bool_to_prop.
    rewrite <- yielded_checked, <- shift_round_trip by done. f_equal.
    rewrite (mask_mod left_), (mask_small left_), shl_mod by done. destruct signed; simpl.
    - rewrite !sign_extend_mod, (mask_small left_), Z.mod_mod by (done || pose proof width_pos; lia).
      simpl. by destruct (_ =? _).
    - unfold denote. simpl. by destruct (_ =? _).
  Qed.

Lemma shift_left_wrapping_exact :
    integer <$> checked_integer_shift ShiftLeftWrapping signed bits left_ right_
    = yielded (shifting bits y (wrapping signed bits (x * 2 ^ y))).
  Proof.
    unfold checked_integer_shift, shifting. rewrite count_test. rewrite integer_mask_ones. simpl.
    destruct ((0 <=? y) && (y <? bits)) eqn:Hy; [|done]. bool_to_prop.
    rewrite (mask_mod left_), (mask_small left_), shl_mod by done. simpl. unfold wrapping. simpl.
    by rewrite mask_mod, Z.mod_mod by (pose proof width_pos; lia).
  Qed.

Lemma shift_right_exact :
    integer <$> checked_integer_shift ShiftRightChecked signed bits left_ right_
    = yielded (shifting bits y (wrapping signed bits (x / 2 ^ y))).
  Proof.
    unfold checked_integer_shift, shifting. rewrite count_test. rewrite integer_mask_ones. simpl.
    destruct ((0 <=? y) && (y <? bits)) eqn:Hy; [|done]. bool_to_prop.
    rewrite (mask_mod left_), (mask_small left_) by done. unfold wrapping. simpl. destruct signed.
    - rewrite sign_extend_denote by done. simpl. rewrite signed_to_raw_mod, Z.shiftr_div_pow2 by done. simpl.
      by rewrite mask_mod, Z.mod_mod by (pose proof width_pos; lia).
    - rewrite Z.shiftr_div_pow2 by done. unfold denote. simpl. by rewrite mask_mod.
  Qed.

Lemma compare_exact op b : compare_values op x y = Some b -> compare_integer op signed bits left_ right_ = Some b.
  Proof.
    unfold compare_integer. destruct signed.
    - rewrite !sign_extend_denote by done. done.
    - done.
  Qed.

Lemma fold_integer_binary_language op :
    ~ host_overflow op ->
    fold_integer_binary op signed bits left_ right_ = yielded (language_binary op signed bits x y).
  Proof.
    intros Hhost. pose proof width_pos. unfold fold_integer_binary. rewrite integer_mask_ones. simpl.
    destruct op; cbn [language_binary].
    - apply (checked_arithmetic_exact AddChecked); auto.
    - apply (f_equal Some), (wrapping_exact Z.add). intros a b. by rewrite <- Z.add_mod by lia.
    - apply (checked_arithmetic_exact SubChecked); auto.
    - apply (f_equal Some), (wrapping_exact Z.sub). intros a b. by rewrite <- Zminus_mod.
    - apply (checked_arithmetic_exact MulChecked); auto.
    - apply (f_equal Some), (wrapping_exact Z.mul). intros a b. by rewrite <- Z.mul_mod by lia.
    - apply div_checked_exact.
    - by apply rem_checked_exact.
    - apply (f_equal Some), (bitwise_exact Z.land andb). intros. apply Z.land_spec.
    - apply (f_equal Some), (bitwise_exact Z.lor orb). intros. apply Z.lor_spec.
    - apply (f_equal Some), (bitwise_exact Z.lxor xorb). intros. apply Z.lxor_spec.
    - apply shift_left_exact.
    - apply shift_right_exact.
    - apply (f_equal (fun b => Some (CBool b))), denote_inj.
    - apply (f_equal (fun b => Some (CBool (negb b)))), denote_inj.
    - by erewrite compare_exact.
    - by erewrite compare_exact.
    - by erewrite compare_exact.
    - by erewrite compare_exact.
    - apply shift_left_wrapping_exact.
  Qed.
End width.

#[export] Instance host_overflow_dec bits signed l r op : Decision (host_overflow bits signed l r op).
Proof. unfold host_overflow. apply _. Defined.

Lemma host_overflow_refused op signed bits l r :
  host_overflow bits signed l r op -> canonical (CInteger signed bits l) = true ->
  canonical (CInteger signed bits r) = true -> fold_integer_binary op signed bits l r = None.
Proof.
  intros (-> & -> & -> & Hl & Hr) Hcl Hcr. unfold canonical in *. split_andb. bool_to_prop.
  unfold fold_integer_binary, checked_integer_division.
  by rewrite !sign_extend_denote, Hl, Hr by lia.
Qed.

(** C36: Folding is the arithmetic of the language. For any two canonical
    integers of the same type, [fold_integer_binary] yields exactly the value
    the operation yields when it runs, and refuses where it abandons (overflow,
    division by zero, an invalid shift count); it refuses in one case more, the
    checked remainder of the least signed 128-bit value by -1, which runs and
    yields zero. *)
Theorem fold_integer_binary_exact op signed bits left_ right_ :
  canonical (CInteger signed bits left_) = true -> canonical (CInteger signed bits right_) = true ->
  fold_integer_binary op signed bits left_ right_
  = (if decide (host_overflow bits signed left_ right_ op) then None
     else yielded (language_binary op signed bits (denote signed bits left_) (denote signed bits right_)))
  /\ (host_overflow bits signed left_ right_ op <->
      op = RemChecked /\ signed = true /\ bits = 128 /\ left_ = 2 ^ 127 /\ right_ = 2 ^ 128 - 1)
  /\ language_binary RemChecked true 128 (denote true 128 (2 ^ 127)) (denote true 128 (2 ^ 128 - 1))
     = Yields (CInteger true 128 0).
Proof.
  intros Hl Hr. split_and!.
  - case_decide as Hhost; [by apply host_overflow_refused|].
    unfold canonical in Hl, Hr. split_andb. bool_to_prop. by apply fold_integer_binary_language.
  - unfold canonical in Hl, Hr. split_andb. bool_to_prop. unfold host_overflow. split.
    + intros (-> & -> & -> & Hx & Hy). unfold denote in Hx, Hy.
      cbn [andb] in Hx, Hy. change (128 - 1) with 127 in Hx, Hy.
      destruct (Z.leb_spec (2 ^ 127) left_), (Z.leb_spec (2 ^ 127) right_); split_and!; done || lia.
    + intros (-> & -> & -> & -> & ->). done.
  - reflexivity.
Qed.

Lemma fold_integer_binary_exact_witness :
  fold_integer_binary AddChecked true 8 0x7f 1 = None
  /\ fold_integer_binary RemChecked true 8 0x80 0xff = Some (CInteger true 8 0)
  /\ fold_integer_binary ShiftLeftChecked true 8 0x20 2
     = (if decide (host_overflow 8 true 0x20 2 ShiftLeftChecked) then None
        else yielded (language_binary ShiftLeftChecked true 8 32 2)).
Proof.
  split_and!; [reflexivity..|].
  exact (proj1 (fold_integer_binary_exact ShiftLeftChecked true 8 0x20 2 eq_refl eq_refl)).
Defined.

(** ** Unary operations *)

Lemma negate_folds signed bits value :
  canonical (CInteger signed bits value) = true -> signed = true ->
  fold_unary_constant Negate (CInteger signed bits value)
  = yielded (checked signed bits (- denote signed bits value)).
Proof.
  unfold canonical. intros Hc ->. split_andb. bool_to_prop. assert (Hb : 1 <= bits <= 128) by lia.
  simpl. rewrite sign_extend_denote by done. simpl.
  pose proof (signed_checked bits Hb (- denote true bits value)) as Hs. simpl in Hs.
  unfold checked, wrapping. destruct (i128_checked _) as [v|]; simpl in *.
  - destruct (signed_fits v bits) as [[]|]; simpl in *.
    + rewrite Hs. by destruct (in_range _ _ _).
    + by destruct (in_range _ _ _).
    + by destruct (in_range _ _ _).
  - by destruct (in_range _ _ _).
Qed.

Lemma fold_integer_unary_language op signed bits value c :
  canonical (CInteger signed bits value) = true ->
  fold_unary_constant op (CInteger signed bits value) = Some c ->
  language_unary op signed bits (denote signed bits value) ≫= yielded = Some c.
Proof.
  intros Hc Hf. destruct op; [|done|].
  - destruct signed; [|done]. by rewrite negate_folds in Hf.
  - unfold canonical in Hc. split_andb. bool_to_prop. assert (Hb : 1 <= bits <= 128) by lia.
    simpl in *. rewrite integer_mask_ones in Hf by done. simpl in Hf. injection Hf as <-.
    unfold yielded, wrapping. do 2 f_equal.
    rewrite mask_mod by done. symmetry. apply mod_bits_ext; [done|]. intros i Hi.
    unfold lnot_w. rewrite Z.lxor_spec, Z.ones_spec_low, Z.lnot_spec by lia.
    rewrite denote_testbit by done. symmetry. apply xorb_true_r.
Qed.

(** ** Immediates *)

Lemma or_bytes_value index value bytes :
  0 <= index -> index + len bytes <= 16 -> 0 <= value < 256 ^ index ->
  or_bytes index value bytes = value + le_value bytes * 256 ^ index.
Proof.
  revert index value. induction bytes as [|b bytes IH]; intros index value Hi Hl Hv; cbn [or_bytes le_value].
  - lia.
  - rewrite len_cons in Hl. pose proof (len_nonneg bytes). pose proof (Z_of_byte_range b) as Hb.
    assert (Hp : 0 < 256 ^ index) by (apply Z.pow_pos_nonneg; lia).
    assert (Hs : u128_shl (Z_of_byte b) (index * 8) = Z_of_byte b * 256 ^ index).
    { unfold u128_shl. rewrite Z.shiftl_mul_pow2 by lia. rewrite Z.mul_comm with (n := index), Z.pow_mul_r by lia.
      change (2 ^ 8) with 256. apply Z.mod_small. split; [nia|].
      apply Z.lt_le_trans with (256 * 256 ^ index); [nia|].
      rewrite <- Z.pow_succ_r by lia. change (2 ^ 128) with (256 ^ 16). apply Z.pow_le_mono_r; lia. }
    rewrite Hs.
    assert (Ho : Z.lor value (Z_of_byte b * 256 ^ index) = value + Z_of_byte b * 256 ^ index).
    { rewrite <- Z.add_nocarry_lor; [done|]. apply Z.bits_inj'. intros n Hn.
      change 256 with (2 ^ 8) in *. rewrite <- Z.pow_mul_r in * by lia.
      rewrite Z.land_spec, Z.mul_pow2_bits, Z.bits_0 by lia.
      destruct (Z_lt_le_dec n (8 * index)); [by rewrite (Z.testbit_neg_r _ (n - _)), andb_false_r by lia|].
      by rewrite (bits_high (8 * index) value) by lia. }
    rewrite Ho, IH; [|lia|lia|rewrite Z.add_1_r, Z.pow_succ_r by lia; nia].
    rewrite Z.add_1_r, Z.pow_succ_r by lia. lia.
Qed.

Lemma integer_byte_width_Some bits width :
  integer_byte_width bits = Some width -> 0 <= bits -> 1 <= bits <= 128 /\ bits <= 8 * Z.of_nat width < bits + 8.
Proof.
  unfold integer_byte_width. intros H Hb. destruct ((bits =? 0) || (128 <? bits)) eqn:E; [done|].
  bool_to_prop. injection H as <-. split; [lia|]. rewrite Z2Nat.id by (apply Z.div_pos; lia).
  pose proof (Z.div_mod (bits + 7) 8). pose proof (Z.mod_pos_bound (bits + 7) 8). lia.
Qed.

Lemma take_le_bytes n width z : (n <= width)%nat -> take n (le_bytes width z) = le_bytes n z.
Proof.
  revert width z. induction n as [|n IH]; intros width z Hn; [done|].
  destruct width as [|width]; [lia|]. cbn [le_bytes take]. f_equal. apply IH. lia.
Qed.

(** A value that fits in [n] bytes has no bit above the mask exactly when it
    has the declared width. *)
Lemma above_mask bits v : 1 <= bits <= 128 -> 0 <= v < 2 ^ 128 ->
  (Z.land v (lnot_w 128 (Z.ones bits)) =? 0) = (v <? 2 ^ bits).
Proof.
  intros Hb Hv. rewrite complement_mask by done. apply eq_iff_eq_true. rewrite Z.eqb_eq, Z.ltb_lt. split.
  - intros Hz. rewrite <- (Z.mod_small v (2 ^ bits)) at 1.
    + apply Z.mod_pos_bound. apply Z.pow_pos_nonneg; lia.
    + split; [lia|]. apply Z.nle_gt. intros Hge.
      pose proof (Z.log2_le_mono _ _ Hge) as Hlog. rewrite Z.log2_pow2 in Hlog by lia.
      assert (Z.log2 v < 128) by (apply Z.log2_lt_pow2; lia).
      assert (Ht : Z.testbit (Z.land v (2 ^ 128 - 2 ^ bits)) (Z.log2 v) = true).
      { rewrite Z.land_spec, Z.bit_log2, <- complement_mask by lia. unfold lnot_w.
        by rewrite Z.lxor_spec, Z.ones_spec_high, Z.ones_spec_low by lia. }
      rewrite Hz, Z.bits_0 in Ht. done.
  - intros Hlt. apply land_complement; lia.
Qed.

(** The immediates that can be written in an integer type. *)
Lemma integer_immediate bits width value :
  integer_byte_width bits = Some width -> 0 <= bits -> 0 <= value < 2 ^ bits ->
  or_bytes 0 0 (le_bytes width value) = value.
Proof.
  intros Hw Hb Hv. apply integer_byte_width_Some in Hw as [Hr Hw]; [|done].
  rewrite or_bytes_value; [|lia|rewrite len_le_bytes; lia|lia].
  rewrite le_value_bytes; [simpl; lia|]. change 256 with (2 ^ 8). rewrite <- Z.pow_mul_r by lia.
  pose proof (Z.pow_le_mono_r 2 bits (8 * Z.of_nat width)). lia.
Qed.

#[local] Arguments le_bytes : simpl never.

(** The bits of an [Immediate] and of a type are a [u16], a float its bits. *)
Definition immediate_ok (i : Immediate) : bool :=
  match i with
  | ImmInteger bits _ => fits 16 bits
  | ImmFloat32 value => fits 32 value
  | ImmFloat64 value => fits 64 value
  | _ => true
  end.
(** Integer types have one of the 128 widths. *)
Definition types_ok (types : list FlowType) : Prop :=
  forall t signed bits, t ∈ types -> kind t = KScalar (TInteger signed bits) -> 1 <= bits <= 128.

Lemma kind_of_Some types ty k : kind_of types ty = Some k -> exists t, t ∈ types /\ kind t = k.
Proof.
  unfold kind_of. rewrite fmap_Some. intros (t & Ht & ->). exists t. split; [|done].
  by eapply list_elem_of_lookup_2.
Qed.

Lemma integer_kind_ok types ty signed bits :
  types_ok types -> kind_of types ty = Some (KScalar (TInteger signed bits)) -> 1 <= bits <= 128.
Proof. intros Hok (t & Ht & Hk)%kind_of_Some. by eapply Hok. Qed.

(** What [constant_from_immediate] accepts, by the immediate. *)
Lemma constant_from_immediate_integer bits bytes ty types c :
  constant_from_immediate (ImmInteger bits bytes) ty types = Some c ->
  0 <= bits ->
  exists signed width,
    kind_of types ty = Some (KScalar (TInteger signed bits)) /\ integer_byte_width bits = Some width
    /\ length bytes = width /\ c = CInteger signed bits (le_value bytes)
    /\ 1 <= bits <= 128 /\ 0 <= le_value bytes < 2 ^ bits.
Proof.
  unfold constant_from_immediate. destruct (kind_of types ty) as [k|]; [|done]. simpl. intros H Hb.
  destruct k as [|[| |signed type_bits| | |]| | | | | | | | | | | | | | | | |]; try done.
  destruct (Z.eqb_spec bits type_bits) as [E|]; [|done]. subst type_bits.
  destruct (integer_byte_width bits) as [width|] eqn:Hw; [|done]. simpl in H.
  destruct (Nat.eqb_spec width (length bytes)) as [Hl|]; [|done].
  apply integer_byte_width_Some in Hw as Hr; [|done]. destruct Hr as [Hr Hw8].
  rewrite integer_mask_ones in H by done. simpl in H. pose proof (le_value_bounds bytes) as Hv.
  rewrite <- Hl in Hv.
  assert (256 ^ Z.of_nat width <= 2 ^ 128).
  { change 256 with (2 ^ 8). rewrite <- Z.pow_mul_r by lia. apply Z.pow_le_mono_r; [lia|].
    unfold integer_byte_width in Hw. destruct (_ || _); [done|]. injection Hw as <-.
    rewrite Z2Nat.id by (apply Z.div_pos; lia). pose proof (Z.div_le_upper_bound (bits + 7) 8 16). lia. }
  rewrite or_bytes_value in H; [|lia| |lia].
  - change (256 ^ 0) with 1 in H. rewrite Z.add_0_l, Z.mul_1_r, above_mask in H by lia.
    destruct (Z.ltb_spec (le_value bytes) (2 ^ bits)); [|done]. injection H as <-.
    exists signed, width. split_and!; auto; lia.
  - unfold len. rewrite <- Hl. unfold integer_byte_width in Hw. destruct (_ || _); [done|].
    injection Hw as <-. rewrite Z2Nat.id by (apply Z.div_pos; lia).
    pose proof (Z.div_le_upper_bound (bits + 7) 8 16). lia.
Qed.

Lemma constant_canonical immediate ty types c :
  types_ok types -> immediate_ok immediate = true ->
  constant_from_immediate immediate ty types = Some c -> canonical c = true.
Proof.
  intros Ht Hi H. destruct immediate.
  4: { simpl in Hi. apply fits_spec in Hi.
       apply constant_from_immediate_integer in H as (sg & w & _ & _ & _ & -> & Hb & Hv); [|lia].
       unfold canonical. rewrite !andb_true_iff, !Z.leb_le, fits_spec. lia. }
  all: unfold constant_from_immediate in H; destruct (kind_of types ty) as [k|] eqn:Hk; [|done]; simpl in H;
    destruct k as [|[| |signed type_bits| | |]| | | | | | | | | | | | | | | | |]; try done;
    try (destruct (_ =? _)%N; [|done]); injection H as <-; try done; try exact Hi.
  apply integer_kind_ok in Hk; [|done].
  unfold canonical. rewrite !andb_true_iff, !Z.leb_le, fits_spec.
  pose proof (width_pos type_bits). lia.
Qed.

Lemma immediate_reads_back constant immediate ty types :
  canonical constant = true -> constant_to_immediate constant ty types = Some immediate ->
  constant_from_immediate immediate ty types = Some constant.
Proof.
  intros Hc. unfold constant_to_immediate, constant_from_immediate.
  destruct (kind_of types ty) as [k|]; [|done]. simpl.
  destruct constant as [v|sg bits v|v|v], k as [|[| |s b| | |]| | | | | | | | | | | | | | | | |]; try done;
    try (intros [= <-]; done).
  case_bool_decide as Es; [|done]. simpl. destruct (Z.eqb_spec bits b) as [E|]; [|done]. subst b s.
  destruct (integer_byte_width bits) as [w|] eqn:Hw; [|done]. simpl. intros [= <-].
  unfold canonical in Hc. split_andb. bool_to_prop.
  rewrite Z.eqb_refl, Hw. simpl. apply integer_byte_width_Some in Hw as Hr; [|lia].
  rewrite take_le_bytes, length_le_bytes, Nat.eqb_refl by lia.
  rewrite (integer_immediate bits), integer_mask_ones by (done || lia). simpl.
  assert (2 ^ bits <= 2 ^ 128) by (apply Z.pow_le_mono_r; lia).
  rewrite above_mask by lia. by destruct (Z.ltb_spec v (2 ^ bits)); [|lia].
Qed.

Lemma immediate_is_written constant immediate ty types :
  immediate_ok immediate = true ->
  constant_from_immediate immediate ty types = Some constant -> immediate <> ImmZero ty ->
  constant_to_immediate constant ty types = Some immediate.
Proof.
  intros Hi. destruct immediate as [|v|v|bits bytes|v|v|v|z|v|v].
  4: { intros H _. simpl in Hi. apply fits_spec in Hi.
       apply constant_from_immediate_integer in H as (sg & w & Hk & Hw & Hl & -> & Hb & Hv); [|lia].
       unfold constant_to_immediate. rewrite Hk. simpl. rewrite bool_decide_eq_true_2, Z.eqb_refl, Hw by done.
       simpl. apply integer_byte_width_Some in Hw as Hr; [|lia].
       by rewrite take_le_bytes, <- Hl, le_bytes_value by lia. }
  all: unfold constant_to_immediate, constant_from_immediate;
    destruct (kind_of types ty) as [k|]; [|done]; simpl;
    destruct k as [|[| |s b| | |]| | | | | | | | | | | | | | | | |]; try done;
    try (destruct (N.eqb_spec z ty) as [->|]); try done; intros [= <-]; done.
Qed.

(** Constants and immediates are two notations for the same scalars: an
    immediate written for a canonical constant reads back as that constant, and
    an immediate that reads as a constant (a [Zero] apart, which has another
    spelling) is the one written for it, byte for byte. *)
Theorem immediate_round_trip constant immediate ty types :
  canonical constant = true -> immediate_ok immediate = true ->
  (constant_to_immediate constant ty types = Some immediate ->
   constant_from_immediate immediate ty types = Some constant)
  /\ (constant_from_immediate immediate ty types = Some constant -> immediate <> ImmZero ty ->
      constant_to_immediate constant ty types = Some immediate).
Proof. intros Hc Hi. split; [by apply immediate_reads_back|by apply immediate_is_written]. Qed.

Definition u12_types : list FlowType :=
  [{| type_id := 0%N; kind := KScalar (TInteger true 12); type_name := None; copyable := true;
      strict_linear := false |}].

Lemma immediate_round_trip_witness :
  constant_to_immediate (CInteger true 12 0xabc) 0%N u12_types
    = Some (ImmInteger 12 [byte_of_Z 0xbc; byte_of_Z 0x0a])
  /\ constant_from_immediate (ImmInteger 12 [byte_of_Z 0xbc; byte_of_Z 0x0a]) 0%N u12_types
    = Some (CInteger true 12 0xabc)
  /\ constant_from_immediate (ImmInteger 12 [byte_of_Z 0xbc; byte_of_Z 0x1a]) 0%N u12_types = None.
Proof.
  split; [reflexivity|]. split; [|reflexivity].
  apply immediate_round_trip; reflexivity.
Defined.

(** The two readings of a raw value of each of the 128 widths are inverse:
    [signed_to_raw] always gives a value of the width, [sign_extend] a value in
    the two's complement range, and [signed_fits] accepts an [i128] exactly when
    it survives the way to its raw form and back. *)
Theorem signed_reading_bounds bits v raw :
  1 <= bits <= 128 -> i128_fits v = true -> 0 <= raw < 2 ^ bits ->
  (exists r, signed_to_raw v bits = Some r /\ 0 <= r < 2 ^ bits
             /\ (signed_fits v bits = Some true <-> sign_extend r bits = Some v))
  /\ (exists s, sign_extend raw bits = Some s /\ - 2 ^ (bits - 1) <= s < 2 ^ (bits - 1)
                /\ signed_to_raw s bits = Some raw).
Proof.
  intros Hb Hv Hr. pose proof (width_pos bits Hb) as Hp. split.
  - exists (v mod 2 ^ bits). rewrite signed_to_raw_mod by done.
    pose proof (Z.mod_pos_bound v (2 ^ bits) Hp) as Hm. split_and!; [done|lia|lia|].
    rewrite signed_fits_range, sign_extend_denote by done. split; intros [= E].
    + f_equal. by apply denote_encode.
    + f_equal. rewrite <- E at 1. by apply denote_range.
  - exists (denote true bits raw). rewrite sign_extend_denote, signed_to_raw_mod, denote_mod by done.
    rewrite Z.mod_small by done. pose proof (denote_range bits Hb true raw Hr) as Hd.
    unfold in_range in Hd. bool_to_prop. split_and!; done || lia.
Qed.

Lemma signed_reading_bounds_witness :
  signed_fits 200 8 = Some false /\ sign_extend 0x80 8 = Some (-128)
  /\ exists s, sign_extend 0xff 8 = Some s /\ - 2 ^ (8 - 1) <= s < 2 ^ (8 - 1)
               /\ signed_to_raw s 8 = Some 0xff.
Proof.
  split; [reflexivity|]. split; [reflexivity|].
  apply (signed_reading_bounds 8 200 0xff); [lia|reflexivity|lia].
Defined.
