(* ===== verification/Optimizer.v ===== *)
(** The optimiser's policy, limits, work meter and decision report:
    [src/crates/wrela-flow-opt/src/lib.rs] and the helpers every pass of
    [development.rs] uses. A pass is a computation over the work meter and the
    decision sink ([Session]) that may be cancelled at every checkpoint. *)

From stdpp Require Import base numbers list option strings pretty.
From S2P Require Import Prelude Bytes Interrupt Text BuildModel TestEvents FlowWir.

#[local] Open Scope Z_scope.

(** ** Errors *)

Inductive OptimizeError :=
| Cancelled
| UnsupportedOptimizationLevel (level : OptimizationLevel)
| InvalidProfile (reason : string)
| InvalidLimits
| ResourceLimit (resource : string) (limit : Z)
| InvalidReport (reason : string)
| InvalidOutput (errors : list ValidationError)
| ProofViolation (pass detail : string).

(** ** Limits *)

Record TestPlanLimits := {
  plan_tests : Z;
  plan_groups : Z;
  plan_scenarios : Z;
  plan_scenario_steps : Z;
  plan_payload_bytes : Z;
  plan_report_bytes : Z;
  events_per_group : Z;
  output_bytes_per_group : Z;
  execution_timeout_ns_per_group : Z;
}.

Definition TestPlanLimits_standard : TestPlanLimits := {|
  plan_tests := 1000000;
  plan_groups := 100000;
  plan_scenarios := 100000;
  plan_scenario_steps := 1000000;
  plan_payload_bytes := 64 * 1024 * 1024;
  plan_report_bytes := 1024 * 1024 * 1024;
  events_per_group := MAX_RUNTIME_TEST_EVENTS;
  output_bytes_per_group := 1024 * 1024 * 1024;
  execution_timeout_ns_per_group := 24 * 60 * 60 * 1000000000;
|}.

(** [TestPlanLimits::is_valid]. *)
Definition is_valid (l : TestPlanLimits) : bool :=
  (0 <? plan_tests l) && (0 <? plan_groups l) && (0 <? plan_scenarios l)
  && (0 <? plan_scenario_steps l) && (0 <? plan_payload_bytes l) && (0 <? plan_report_bytes l)
  && (0 <? events_per_group l) && (0 <? output_bytes_per_group l)
  && (0 <? execution_timeout_ns_per_group l).

Definition test_plan_limits_within (limits hard : TestPlanLimits) : bool :=
  (plan_tests limits <=? plan_tests hard)
  && (plan_groups limits <=? plan_groups hard)
  && (plan_scenarios limits <=? plan_scenarios hard)
  && (plan_scenario_steps limits <=? plan_scenario_steps hard)
  && (plan_payload_bytes limits <=? plan_payload_bytes hard)
  && (plan_report_bytes limits <=? plan_report_bytes hard)
  && (events_per_group limits <=? events_per_group hard)
  && (output_bytes_per_group limits <=? output_bytes_per_group hard)
  && (execution_timeout_ns_per_group limits <=? execution_timeout_ns_per_group hard).

Record OptimizationLimits := {
  limit_functions : Z;
  limit_tests : Z;
  limit_blocks : Z;
  limit_instructions : Z;
  limit_values : Z;
  limit_proofs : Z;
  limit_model_edges : Z;
  limit_payload_bytes : Z;
  limit_passes : Z;
  limit_decisions : Z;
  limit_report_bytes : Z;
  limit_work : Z;
  limit_validation_work : Z;
  limit_validation_errors : Z;
  test_plan : TestPlanLimits;
}.

Definition OptimizationLimits_standard : OptimizationLimits := {|
  limit_functions := 1000000;
  limit_tests := 1000000;
  limit_blocks := 16000000;
  limit_instructions := 256000000;
  limit_values := 256000000;
  limit_proofs := 64000000;
  limit_model_edges := 1000000000;
  limit_payload_bytes := 4 * 1024 * 1024 * 1024;
  limit_passes := 1024;
  limit_decisions := 64000000;
  limit_report_bytes := 1024 * 1024 * 1024;
  limit_work := 1100000000000;
  limit_validation_work := 1100000000000;
  limit_validation_errors := 100000;
  test_plan := TestPlanLimits_standard;
|}.

Definition OptimizationLimits_validate (l : OptimizationLimits) : result OptimizeError unit :=
  let hard := OptimizationLimits_standard in
  guard_err
    ((limit_functions l =? 0) || (limit_tests l =? 0) || (limit_blocks l =? 0)
     || (limit_instructions l =? 0) || (limit_values l =? 0) || (limit_proofs l =? 0)
     || (limit_model_edges l =? 0) || (limit_payload_bytes l =? 0) || (limit_passes l =? 0)
     || (limit_decisions l =? 0) || (limit_report_bytes l =? 0) || (limit_work l =? 0)
     || (limit_validation_work l =? 0) || (limit_validation_errors l =? 0)
     || negb (is_valid (test_plan l))
     || (limit_functions hard <? limit_functions l) || (limit_tests hard <? limit_tests l)
     || (limit_blocks hard <? limit_blocks l) || (limit_instructions hard <? limit_instructions l)
     || (limit_values hard <? limit_values l) || (limit_proofs hard <? limit_proofs l)
     || (limit_model_edges hard <? limit_model_edges l)
     || (limit_payload_bytes hard <? limit_payload_bytes l)
     || (limit_passes hard <? limit_passes l) || (limit_decisions hard <? limit_decisions l)
     || (limit_report_bytes hard <? limit_report_bytes l) || (limit_work hard <? limit_work l)
     || (limit_validation_work hard <? limit_validation_work l)
     || (limit_validation_errors hard <? limit_validation_errors l)
     || negb (test_plan_limits_within (test_plan l) (test_plan hard)))
    InvalidLimits.

(** ** Profiles *)

Record PipelineIdentity := {
  pipeline_name : str;
  pipeline_revision : Z;
  pipeline_implementation : Sha256Digest;
}.
Record OptimizationProfile := {
  profile_level : OptimizationLevel;
  pipeline : PipelineIdentity;
  verify_after_each_pass : bool;
  maximum_iterations : Z;
  maximum_ir_growth_percent : Z;
}.

Definition CANONICAL_PIPELINE_NAME : str := ascii "canonical-flow-opt-0.1".
Definition CANONICAL_PIPELINE_REVISION : Z := 3.

Definition OptimizationProfile_validate (p : OptimizationProfile) : result OptimizeError unit :=
  _ ← guard_err (4096 <? len (pipeline_name (pipeline p)))
        (InvalidProfile "pipeline name exceeds the hard ceiling");
  _ ← guard_err (forallb is_whitespace (chars (pipeline_name (pipeline p))))
        (InvalidProfile "pipeline name is empty");
  _ ← guard_err (pipeline_revision (pipeline p) =? 0)
        (InvalidProfile "pipeline revision must be nonzero");
  _ ← guard_err (forallb (fun b => bool_decide (b = Byte.x00)) (as_bytes (pipeline_implementation (pipeline p))))
        (InvalidProfile "pipeline implementation digest is zero");
  _ ← guard_err ((maximum_iterations p =? 0) || (1000000 <? maximum_iterations p))
        (InvalidProfile "maximum iterations must be nonzero");
  guard_err (10000 <? maximum_ir_growth_percent p)
    (InvalidProfile "maximum IR growth percent exceeds the hard ceiling").

(** The iteration and growth limits of each level. *)
Definition level_parameters (l : OptimizationLevel) : Z * Z :=
  match l with
  | OptNone => (1, 0)
  | OptDevelopment => (8, 25)
  | OptPerformance => (32, 100)
  | OptSize => (32, 0)
  end.

Definition validate_canonical_profile (p : OptimizationProfile) : result OptimizeError unit :=
  _ ← OptimizationProfile_validate p;
  _ ← guard_err (negb (bool_decide (pipeline_name (pipeline p) = CANONICAL_PIPELINE_NAME))
                 || negb (pipeline_revision (pipeline p) =? CANONICAL_PIPELINE_REVISION))
        (InvalidProfile "optimization requires the canonical pipeline identity");
  let '(iterations, growth) := level_parameters (profile_level p) in
  guard_err (negb (verify_after_each_pass p) || negb (maximum_iterations p =? iterations)
             || negb (maximum_ir_growth_percent p =? growth))
    (InvalidProfile "optimization policy parameters are noncanonical").

Definition canonical_pipeline_name : prog OptimizeError str :=
  _ ← try_reserve (ResourceLimit "optimization pipeline name bytes" 4096);
  mret CANONICAL_PIPELINE_NAME.

Definition from_build_policy (policy : OptimizationPolicy) (compiler_implementation : Sha256Digest)
    : prog OptimizeError OptimizationProfile :=
  _ ← fail_if (bool_decide (is_Some (BuildModel.profile_data policy)))
        (InvalidProfile "profile-guided optimization input is not implemented");
  let '(iterations, growth) := level_parameters (BuildModel.level policy) in
  name ← canonical_pipeline_name;
  let profile := {|
    profile_level := BuildModel.level policy;
    pipeline := {| pipeline_name := name; pipeline_revision := CANONICAL_PIPELINE_REVISION;
                   pipeline_implementation := compiler_implementation |};
    verify_after_each_pass := true;
    maximum_iterations := iterations;
    maximum_ir_growth_percent := growth |} in
  _ ← lift (validate_canonical_profile profile);
  mret profile.

(** ** Passes *)

Definition CONSTANT_FOLD_PASS : string := "scalar-constant-fold-v1".
Definition CONTROL_SIMPLIFY_PASS : string := "constant-control-flow-v1".
Definition UNREACHABLE_PASS : string := "unreachable-block-elimination-v1".
Definition PROVEN_TRUE_CHECK_PASS : string := "proven-true-check-elimination-v1".
Definition DEAD_PURE_PASS : string := "dead-pure-instruction-elimination-v1".
Definition DEVELOPMENT_PASSES : list string :=
  [CONSTANT_FOLD_PASS; CONTROL_SIMPLIFY_PASS; UNREACHABLE_PASS; DEAD_PURE_PASS].
Definition AGGRESSIVE_PASSES : list string :=
  [CONSTANT_FOLD_PASS; CONTROL_SIMPLIFY_PASS; UNREACHABLE_PASS; PROVEN_TRUE_CHECK_PASS;
   DEAD_PURE_PASS].

Definition pipeline_passes (l : OptimizationLevel) : result OptimizeError (list string) :=
  match l with
  | OptDevelopment => Ok DEVELOPMENT_PASSES
  | OptPerformance | OptSize => Ok AGGRESSIVE_PASSES
  | OptNone => Err (UnsupportedOptimizationLevel l)
  end.

Definition is_aggressive (l : OptimizationLevel) : bool :=
  match l with OptPerformance | OptSize => true | _ => false end.

(** ** Bounded counting *)

Definition ensure_limit (value : Z) (resource : string) (limit : Z) : result OptimizeError unit :=
  guard_err (limit <? value) (ResourceLimit resource limit).

Definition add_bounded (total amount : Z) (resource : string) (limit : Z) : result OptimizeError Z :=
  next ← ok_or (checked_add 64 total amount) (ResourceLimit resource limit);
  _ ← ensure_limit next resource limit;
  mret next.

(** ** The state of a pass *)

Record WorkMeter := { used : Z; work_limit : Z }.

Inductive DecisionKind := Removed | Folded | Inlined | Coalesced | Reordered | Retained.

Record OptimizationDecision := {
  decision_pass : str;
  decision_subject : str;
  decision_kind : DecisionKind;
  justification : str;
  relied_on : list ProofId;
}.

Record DecisionSink := {
  sink_decisions : list OptimizationDecision;
  sink_limits : OptimizationLimits;
  sink_report_bytes : Z;
}.

(** The two objects every pass updates. *)
Record Session := { work : WorkMeter; decisions : DecisionSink }.

(** A step of a pass. *)
Definition pass (A : Type) : Type := stateT Session (prog OptimizeError) A.

Definition fails {A} (e : OptimizeError) : pass A := liftS (Throw e).
Definition proof_violation {A} (pass_ detail : string) : pass A := fails (ProofViolation pass_ detail).
(** [?] on a pure [Result]. *)
Definition pure_result {A} (r : result OptimizeError A) : pass A := liftS (lift r).

Definition check_cancelled : prog OptimizeError unit := poll Cancelled.

Definition charge (amount : Z) : pass unit := fun s =>
  next ← lift (add_bounded (used (work s)) amount "optimizer work" (work_limit (work s)));
  mret (tt, {| work := {| used := next; work_limit := work_limit (work s) |};
               decisions := decisions s |}).

Definition checkpoint : pass unit := _ ← liftS check_cancelled; charge 1.

Definition reserve_items (count : Z) (resource : string) (limit : Z) : pass unit :=
  _ ← pure_result (ensure_limit count resource limit);
  liftS (try_reserve (ResourceLimit resource limit)).

Definition filled_vec {T} (length : nat) (value : T) (resource : string) (limit : Z) : pass (list T) :=
  _ ← reserve_items (Z.of_nat length) resource limit;
  mret (replicate length value).

Definition report_text (value : string) (limits : OptimizationLimits) : pass str :=
  let limit := limit_report_bytes limits in
  _ ← pure_result (ensure_limit (len (ascii value)) "optimization report bytes" limit);
  _ ← liftS (try_reserve (ResourceLimit "optimization report bytes" limit));
  mret (ascii value).

(** Decimal digits of a [u32], as [write!] prints it. *)
Definition decimal (n : N) : str := ascii (pretty n).

Definition subject (function : N) (kind : string) (id : N) : pass str :=
  _ ← liftS (try_reserve (ResourceLimit "optimization report bytes" 32));
  mret (ascii "f" ++ decimal function ++ ascii ":" ++ ascii kind ++ decimal id).
Definition instruction_subject (function : FunctionId) (instruction : InstructionId) : pass str := subject function "i" instruction.
Definition block_subject (function : FunctionId) (block : BlockId) : pass str := subject function "b" block.

(** Every adjacent pair increases. *)
Fixpoint strictly_increasing (l : list N) : bool :=
  match l with
  | a :: (b :: _) as l' => (a <? b)%N && strictly_increasing l'
  | _ => true
  end.

Definition DecisionSink_new (profile : OptimizationProfile) (limits : OptimizationLimits)
    : result OptimizeError DecisionSink :=
  let limit := limit_report_bytes limits in
  passes ← pipeline_passes (profile_level profile);
  report_bytes ← foldl (fun acc p =>
      report_bytes ← acc;
      ok_or (checked_add 64 report_bytes (len (ascii p))) (ResourceLimit "optimization report bytes" limit))
    (Ok (len (pipeline_name (pipeline profile)))) passes;
  _ ← ensure_limit report_bytes "optimization report bytes" limit;
  mret {| sink_decisions := []; sink_limits := limits; sink_report_bytes := report_bytes |}.

(** The bytes one decision adds to the report. *)
Definition decision_bytes (pass_ : string) (subject : str) (justification : string)
    (relied_on : list ProofId) : option Z :=
  bytes ← checked_add usize (len (ascii pass_)) (len subject);
  bytes ← checked_add usize bytes (len (ascii justification));
  links ← checked_mul usize (len relied_on) 4;
  checked_add usize bytes links.

(** [DecisionSink::push]. *)
Definition push (pass_ : string) (subject : str) (kind : DecisionKind) (justification : string)
    (relied_on : list ProofId) : pass unit := fun s =>
  let sink := decisions s in
  let limits := sink_limits sink in
  let bytes_error := ResourceLimit "optimization report bytes" (limit_report_bytes limits) in
  let count_error := ResourceLimit "optimization decisions" (limit_decisions limits) in
  next_count ← lift (ok_or (checked_add 64 (len (sink_decisions sink)) 1) count_error);
  _ ← lift (ensure_limit next_count "optimization decisions" (limit_decisions limits));
  _ ← fail_if (negb (strictly_increasing relied_on))
        (InvalidReport "optimization proof reliance must be sorted and unique");
  string_bytes ← lift (ok_or (decision_bytes pass_ subject justification relied_on) bytes_error);
  report_bytes ← lift (ok_or (checked_add 64 (sink_report_bytes sink) string_bytes) bytes_error);
  _ ← lift (ensure_limit report_bytes "optimization report bytes" (limit_report_bytes limits));
  _ ← try_reserve count_error;
  '(pass_text, s) ← report_text pass_ limits s;
  '(justification_text, s) ← report_text justification limits s;
  let decision := {| decision_pass := pass_text; decision_subject := subject; decision_kind := kind;
                     justification := justification_text; relied_on := relied_on |} in
  mret (tt, {| work := work s;
               decisions := {| sink_decisions := sink_decisions sink ++ [decision];
                               sink_limits := limits; sink_report_bytes := report_bytes |} |}).
