(* ===== verification/FlowOperands.v ===== *)
(** The operands of operations and terminators: the visitors and the rewriters
    at the end of [src/crates/wrela-flow-opt/src/development.rs]. The rewriters
    traverse in any monad; the passes use them with the renumbering of a
    compaction, the semantics with the values of a run. *)

From stdpp Require Import base numbers list option.
From S2P Require Import Prelude Interrupt FlowWir Optimizer.

#[local] Open Scope Z_scope.

(** ** Visiting *)

Definition part_values {V} (part : BoundedStringPart V) : list V :=
  match part with
  | PartText _ _ => []
  | PartBool value _ | PartCharacter value _ | PartInteger value _ _
  | PartStaticString value _ _ => [value]
  end.

(** The values of an operation in the order [for_each_operation_value] visits them. *)
Definition operation_values {V} (op : FlowOperation V) : list V :=
  match op with
  | ImmediateOp _ | ActorStateAddress _ _ _ | RegionReset _ | ActorCapability _ _
  | ActorReserve _ _ _ | ActorReplyRequest _ _ _ _ | MailboxReceive _ _ | TaskAcquireSlot _ _
  | Checkpoint _ _ | DeadlineRead | InterruptMask | MmioRead _ _ | Fence _ => []
  | Unary _ value | Cast value _ _ | Promote value _ _ | EnumTag value | EnumPayload value _
  | ExtractField value _ | EndAccess value | LoadOp value _ | Move value | Copy value | Drop value
  | ActorReject value | TaskCancel value | Park value | Wake value | InterruptRestore value
  | ValidateDeviceValue value _ | CheckOp value _ _ | Assert value _ | RecordEvent _ value
  | ReplayEvent _ value | TestEmit value | TestFinish value | ActorReplyResolve value _
  | MmioWrite _ _ value => [value]
  | Binary _ left_ right_ => [left_; right_]
  | ExtractIndex aggregate index _ => [aggregate; index]
  | MakeAggregate _ fields => fields
  | FormatBoundedString _ parts => concat (map part_values parts)
  | MakeEnum _ _ payload => option_list payload
  | InsertField aggregate _ value | StoreOp aggregate value _ | ReplyResolve aggregate value
  | ReceiptCommit aggregate value | ReceiptResolve aggregate value
  | InterruptPublish aggregate value | QueuePublish aggregate value => [aggregate; value]
  | ActorCommit reservation arguments => reservation :: arguments
  | Select condition then_value else_value => [condition; then_value; else_value]
  | BeginAccess place _ _ => [place]
  | Call _ arguments | AsyncCall _ arguments _ => arguments
  | Allocate _ _ count _ => [count]
  | TaskStart slot _ arguments => slot :: arguments
  | DmaTransition token _ _ _ _ => [token]
  | QueueReserve _ descriptors _ => [descriptors]
  end.

Definition terminator_values {V} (t : Terminator V) : list V :=
  match t with
  | Jump _ arguments | Return arguments | TailCall _ arguments => arguments
  | Branch condition _ then_arguments _ else_arguments =>
      condition :: then_arguments ++ else_arguments
  | Switch value cases _ default_arguments =>
      value :: concat (map case_arguments cases) ++ default_arguments
  | Suspend _ activation _ => [activation]
  | Trap _ detail => option_list detail
  | Unreachable => []
  end.

Definition terminator_edges {V} (t : Terminator V) : list BlockId :=
  match t with
  | Jump target _ => [target]
  | Branch _ then_block _ else_block _ => [then_block; else_block]
  | Switch _ cases default _ => map case_target cases ++ [default]
  | Suspend _ _ resume => [resume]
  | Return _ | TailCall _ _ | Trap _ _ | Unreachable => []
  end.

(** A checkpoint before every visit; [visit] updates what its closure captures. *)
Fixpoint for_each {X T} (visit : T -> X -> T) (xs : list X) (t : T) : pass T :=
  match xs with
  | [] => mret t
  | x :: xs => _ ← checkpoint; for_each visit xs (visit t x)
  end.

Definition for_each_operation_value {V T} (op : FlowOperation V) (visit : T -> V -> T) (t : T) : pass T :=
  for_each visit (operation_values op) t.
Definition for_each_terminator_value {V T} (tm : Terminator V) (visit : T -> V -> T) (t : T) : pass T :=
  for_each visit (terminator_values tm) t.
Definition for_each_edge {V T} (tm : Terminator V) (visit : T -> BlockId -> T) (t : T) : pass T :=
  for_each visit (terminator_edges tm) t.

(** ** Rewriting *)

Section traverse.
  Context {M : Type -> Type} `{MRet M, MBind M} {V W : Type} (f : V -> M W) (g : BlockId -> M BlockId).

Definition traverse_part (part : BoundedStringPart V) : M (BoundedStringPart W) :=
    match part with
    | PartText value source => mret (PartText value source)
    | PartBool value source => value ← f value; mret (PartBool value source)
    | PartCharacter value source => value ← f value; mret (PartCharacter value source)
    | PartInteger value maximum_bytes source =>
        value ← f value; mret (PartInteger value maximum_bytes source)
    | PartStaticString value bytes source =>
        value ← f value; mret (PartStaticString value bytes source)
    end.

Definition traverse_option (o : option V) : M (option W) :=
    match o with Some v => v ← f v; mret (Some v) | None => mret None end.

Definition traverse_operation (op : FlowOperation V) : M (FlowOperation W) :=
    match op with
    | ImmediateOp immediate => mret (ImmediateOp immediate)
    | ActorStateAddress actor region proof => mret (ActorStateAddress actor region proof)
    | RegionReset region => mret (RegionReset region)
    | ActorCapability actor proof => mret (ActorCapability actor proof)
    | ActorReserve actor method proof => mret (ActorReserve actor method proof)
    | ActorReplyRequest actor method permit reply => mret (ActorReplyRequest actor method permit reply)
    | MailboxReceive actor method => mret (MailboxReceive actor method)
    | TaskAcquireSlot task proof => mret (TaskAcquireSlot task proof)
    | Checkpoint id proof => mret (Checkpoint id proof)
    | DeadlineRead => mret DeadlineRead
    | InterruptMask => mret InterruptMask
    | MmioRead device register => mret (MmioRead device register)
    | Fence kind => mret (Fence kind)
    | Unary op value => value ← f value; mret (Unary op value)
    | Cast value to mode => value ← f value; mret (Cast value to mode)
    | Promote value destination proof => value ← f value; mret (Promote value destination proof)
    | EnumTag value => value ← f value; mret (EnumTag value)
    | EnumPayload value variant => value ← f value; mret (EnumPayload value variant)
    | ExtractField value field => value ← f value; mret (ExtractField value field)
    | EndAccess value => value ← f value; mret (EndAccess value)
    | LoadOp value proof => value ← f value; mret (LoadOp value proof)
    | Move value => value ← f value; mret (Move value)
    | Copy value => value ← f value; mret (Copy value)
    | Drop value => value ← f value; mret (Drop value)
    | ActorReject value => value ← f value; mret (ActorReject value)
    | TaskCancel value => value ← f value; mret (TaskCancel value)
    | Park value => value ← f value; mret (Park value)
    | Wake value => value ← f value; mret (Wake value)
    | InterruptRestore value => value ← f value; mret (InterruptRestore value)
    | ValidateDeviceValue value proof => value ← f value; mret (ValidateDeviceValue value proof)
    | CheckOp value failure proof => value ← f value; mret (CheckOp value failure proof)
    | Assert value failure => value ← f value; mret (Assert value failure)
    | RecordEvent kind value => value ← f value; mret (RecordEvent kind value)
    | ReplayEvent kind value => value ← f value; mret (ReplayEvent kind value)
    | TestEmit value => value ← f value; mret (TestEmit value)
    | TestFinish value => value ← f value; mret (TestFinish value)
    | ActorReplyResolve value reply => value ← f value; mret (ActorReplyResolve value reply)
    | MmioWrite device register value => value ← f value; mret (MmioWrite device register value)
    | Binary op left_ right_ => left_ ← f left_; right_ ← f right_; mret (Binary op left_ right_)
    | ExtractIndex aggregate index proof =>
        aggregate ← f aggregate; index ← f index; mret (ExtractIndex aggregate index proof)
    | MakeAggregate ty fields => fields ← mapM f fields; mret (MakeAggregate ty fields)
    | FormatBoundedString ty parts => parts ← mapM traverse_part parts; mret (FormatBoundedString ty parts)
    | MakeEnum ty variant payload =>
        payload ← traverse_option payload; mret (MakeEnum ty variant payload)
    | InsertField aggregate field value =>
        aggregate ← f aggregate; value ← f value; mret (InsertField aggregate field value)
    | StoreOp address value proof =>
        address ← f address; value ← f value; mret (StoreOp address value proof)
    | ReplyResolve endpoint outcome =>
        endpoint ← f endpoint; outcome ← f outcome; mret (ReplyResolve endpoint outcome)
    | ReceiptCommit receipt payload =>
        receipt ← f receipt; payload ← f payload; mret (ReceiptCommit receipt payload)
    | ReceiptResolve receipt outcome =>
        receipt ← f receipt; outcome ← f outcome; mret (ReceiptResolve receipt outcome)
    | InterruptPublish cell value =>
        cell ← f cell; value ← f value; mret (InterruptPublish cell value)
    | QueuePublish reservation payload =>
        reservation ← f reservation; payload ← f payload; mret (QueuePublish reservation payload)
    | ActorCommit reservation arguments =>
        reservation ← f reservation; arguments ← mapM f arguments; mret (ActorCommit reservation arguments)
    | Select condition then_value else_value =>
        condition ← f condition; then_value ← f then_value; else_value ← f else_value;
        mret (Select condition then_value else_value)
    | BeginAccess place kind proof => place ← f place; mret (BeginAccess place kind proof)
    | Call function arguments => arguments ← mapM f arguments; mret (Call function arguments)
    | AsyncCall function arguments plan =>
        arguments ← mapM f arguments; mret (AsyncCall function arguments plan)
    | Allocate region ty count proof => count ← f count; mret (Allocate region ty count proof)
    | TaskStart slot entry arguments =>
        slot ← f slot; arguments ← mapM f arguments; mret (TaskStart slot entry arguments)
    | DmaTransition token device from to proof =>
        token ← f token; mret (DmaTransition token device from to proof)
    | QueueReserve device descriptors proof =>
        descriptors ← f descriptors; mret (QueueReserve device descriptors proof)
    end.

Definition traverse_case (case : SwitchCase V) : M (SwitchCase W) :=
    target ← g (case_target case);
    arguments ← mapM f (case_arguments case);
    mret {| case_value := case_value case; case_target := target; case_arguments := arguments |}.

Definition traverse_terminator (t : Terminator V) : M (Terminator W) :=
    match t with
    | Jump target arguments => target ← g target; arguments ← mapM f arguments; mret (Jump target arguments)
    | Branch condition then_block then_arguments else_block else_arguments =>
        condition ← f condition;
        then_block ← g then_block;
        else_block ← g else_block;
        then_arguments ← mapM f then_arguments;
        else_arguments ← mapM f else_arguments;
        mret (Branch condition then_block then_arguments else_block else_arguments)
    | Switch value cases default default_arguments =>
        value ← f value;
        cases ← mapM traverse_case cases;
        default ← g default;
        default_arguments ← mapM f default_arguments;
        mret (Switch value cases default default_arguments)
    | Return values => values ← mapM f values; mret (Return values)
    | Suspend state activation resume =>
        resume ← g resume; activation ← f activation; mret (Suspend state activation resume)
    | TailCall function arguments => arguments ← mapM f arguments; mret (TailCall function arguments)
    | Trap failure detail => detail ← traverse_option detail; mret (Trap failure detail)
    | Unreachable => mret Unreachable
    end.
End traverse.
