(* ===== verification/FlowSemantics.v ===== *)
(** What a FlowWir function does when it runs: the specification the passes of
    the optimiser are proved against. It is not code of the repository; it
    follows the language reference (docs/language) and the meaning the
    scalar-fixture interpreter of the optimiser's own tests gives to the IR.

    Scalar operations are computed with the arithmetic of the language. Every
    other operation (memory, calls, actors, devices) is put to an environment,
    which sees everything the function did before and decides the results, so a
    statement about all environments covers every meaning of those operations. *)

From Stdlib Require Import Floats.SpecFloat.
From stdpp Require Import base numbers list option gmap.
From S2P Require Import Prelude Bytes FlowWir ScalarFold Optimizer FlowOperands.

#[local] Open Scope Z_scope.

(** ** The scalars of the language

    What immediates denote and how scalars compare, said with numbers: the
    folding code is not used here, [FoldSound] proves that it agrees. *)

(** A finite float is the number [significand * 2 ^ scale]. *)
Definition significand (x : spec_float) : Z :=
  match x with S754_finite sign m _ => if sign then Zneg m else Zpos m | _ => 0 end.

Definition scale (x : spec_float) : Z :=
  match x with S754_finite _ _ e => e | _ => 0 end.

Definition infinite (x : spec_float) : Z :=
  match x with S754_infinity sign => if sign then -1 else 1 | _ => 0 end.

(** The order of two floats as numbers: the zeros are equal, the infinities
    enclose the finite numbers, and [NaN] has no place. *)
Definition float_order (x y : spec_float) : option comparison :=
  match x, y with
  | S754_nan, _ | _, S754_nan => None
  | S754_infinity _, _ | _, S754_infinity _ => Some (infinite x ?= infinite y)
  | _, _ =>
      let least := Z.min (scale x) (scale y) in
      Some (significand x * 2 ^ (scale x - least) ?= significand y * 2 ^ (scale y - least))
  end.

(** What a comparison says of the order of its operands. *)
Definition judge (op : BinaryOp) (order : option comparison) : option bool :=
  match op with
  | Equal => Some (bool_decide (order = Some Eq))
  | NotEqual => Some (bool_decide (order <> Some Eq))
  | Less => Some (bool_decide (order = Some Lt))
  | LessEqual => Some (bool_decide (order = Some Lt \/ order = Some Eq))
  | Greater => Some (bool_decide (order = Some Gt))
  | GreaterEqual => Some (bool_decide (order = Some Gt \/ order = Some Eq))
  | _ => None
  end.

(** Comparisons of scalars other than integers. *)
Definition language_comparison (op : BinaryOp) (l r : ScalarConstant) : option bool :=
  match l, r with
  | CBool l, CBool r =>
      match op with
      | Equal => Some (bool_decide (l = r))
      | NotEqual => Some (bool_decide (l <> r))
      | _ => None
      end
  | CFloat32 l, CFloat32 r => judge op (float_order (f32_from_bits l) (f32_from_bits r))
  | CFloat64 l, CFloat64 r => judge op (float_order (f64_from_bits l) (f64_from_bits r))
  | _, _ => None
  end.

(** Negation of a float of the width changes its sign, the topmost bit. *)
Definition negated_float (width bits : Z) : Z := (bits + 2 ^ (width - 1)) mod 2 ^ width.

(** The scalar an immediate of the type [ty] denotes: an integer is spelled by
    the least number of bytes that hold its width, least significant first,
    and does not exceed it. *)
Definition language_immediate (immediate : Immediate) (ty : TypeId) (types : list FlowType) : option ScalarConstant :=
  k ← kind_of types ty;
  match immediate, k with
  | ImmBool b, KScalar TBool => Some (CBool b)
  | ImmInteger bits bytes, KScalar (TInteger signed type_bits) =>
      if decide (bits = type_bits /\ 1 <= bits <= 128 /\ bits <= 8 * len bytes < bits + 8 /\ le_value bytes < 2 ^ bits)
      then Some (CInteger signed bits (le_value bytes)) else None
  | ImmFloat32 bits, KScalar TFloat32 => Some (CFloat32 bits)
  | ImmFloat64 bits, KScalar TFloat64 => Some (CFloat64 bits)
  | ImmZero zero, KScalar scalar =>
      if decide (zero = ty) then
        match scalar with
        | TBool => Some (CBool false)
        | TInteger signed bits => Some (CInteger signed bits 0)
        | TFloat32 => Some (CFloat32 0)
        | TFloat64 => Some (CFloat64 0)
        | _ => None
        end
      else None
  | _, _ => None
  end.

Section semantics.
  (** Run-time values that are not scalars, and what the operations without an
      effect compute on them. *)
  Context {U : Type}.

Inductive rvalue :=
  | RScalar (c : ScalarConstant)
  | ROther (u : U).

  Context (other : FlowOperation rvalue -> option rvalue).
  Context (types : list FlowType).

  (** ** Values and types *)

Definition scalar_fits (c : ScalarConstant) (k : FlowTypeKind) : bool :=
    match c, k with
    | CBool _, KScalar TBool => true
    | CInteger signed bits _, KScalar (TInteger type_signed type_bits) =>
        bool_decide (signed = type_signed) && (bits =? type_bits)
    | CFloat32 _, KScalar TFloat32 => true
    | CFloat64 _, KScalar TFloat64 => true
    | _, _ => false
    end.

Definition scalar_kind (k : FlowTypeKind) : bool :=
    match k with
    | KScalar (TBool | TInteger _ _ | TFloat32 | TFloat64) => true
    | _ => false
    end.

  (** Whether a value may be bound to a variable of the type. *)
Definition value_fits (x : rvalue) (k : FlowTypeKind) : bool :=
    match x with
    | RScalar c => scalar_fits c k && canonical c
    | ROther _ => negb (scalar_kind k)
    end.

  (** ** Scalar operations *)

Inductive effect :=
  | Continues (x : rvalue)
  | Fails.

Definition effect_of (o : outcome) : effect :=
    match o with Yields c => Continues (RScalar c) | Abandons => Fails end.

  (** Operations without an effect on the environment. *)
Definition pure_operation {V} (op : FlowOperation V) : bool :=
    match op with
    | ImmediateOp _ | Unary _ _ | Binary _ _ _ | Select _ _ _ => true
    | _ => false
    end.

Definition evaluate_unary (op : UnaryOp) (c : ScalarConstant) : option effect :=
    match op, c with
    | BoolNot, CBool b => Some (Continues (RScalar (CBool (negb b))))
    | _, CInteger signed bits v => effect_of <$> language_unary op signed bits (denote signed bits v)
    | Negate, CFloat32 v => Some (Continues (RScalar (CFloat32 (negated_float 32 v))))
    | Negate, CFloat64 v => Some (Continues (RScalar (CFloat64 (negated_float 64 v))))
    | _, _ => None
    end.

Definition evaluate_binary (op : BinaryOp) (l r : ScalarConstant) : option effect :=
    match l, r with
    | CInteger ls lb lv, CInteger rs rb rv =>
        if bool_decide (ls = rs) && (lb =? rb)
        then Some (effect_of (language_binary op ls lb (denote ls lb lv) (denote ls lb rv)))
        else None
    | _, _ => (fun b => Continues (RScalar (CBool b))) <$> language_comparison op l r
    end.

  (** The computation of an operation whose result has type [ty]; [None] leaves
      it to the environment. *)
Definition evaluate (ty : TypeId) (op : FlowOperation rvalue) : option effect :=
    match op with
    | ImmediateOp i =>
        match language_immediate i ty types with
        | Some c => Some (Continues (RScalar c))
        | None => Continues <$> other op
        end
    | Unary u (RScalar c) =>
        match evaluate_unary u c with Some e => Some e | None => Continues <$> other op end
    | Binary b (RScalar l) (RScalar r) =>
        match evaluate_binary b l r with Some e => Some e | None => Continues <$> other op end
    | Select (RScalar (CBool c)) a b => Some (Continues (if c then a else b))
    | Cast (RScalar c) to CastExact =>
        k ← kind_of types to;
        if (to =? ty)%N && scalar_fits c k then Some (Continues (RScalar c)) else None
    | _ => if pure_operation op then Continues <$> other op else None
    end.

  (** ** States and reactions *)

Record state := { here : nat; pc : nat; env : gmap N rvalue }.

Inductive stop :=
  | Failed (failure : FailureKind)
  | Trapped (failure : FailureKind) (detail : option rvalue)
  | Returned (values : list rvalue)
  | TailCalled (function : FunctionId) (arguments : list rvalue).

  (** What the function asks of its environment: an operation, or to be resumed
      after a suspension. *)
Inductive request :=
  | Perform (op : FlowOperation rvalue)
  | Suspended (state : Z) (activation : rvalue).

Inductive reaction :=
  | Stuck
  | Silently (s : state)
  | Stops (how : stop)
  | Asks (what : request) (answers : nat) (continue : list rvalue -> option state).

Definition kind_of_value (vals : list Value) (v : ValueId) : option FlowTypeKind :=
    ty ← value_ty <$> vals !! N.to_nat v; kind_of types ty.

  (** Bind variables to values of their types. *)
Fixpoint bind_all (vals : list Value) (vs : list ValueId) (xs : list rvalue) (e : gmap N rvalue)
      : option (gmap N rvalue) :=
    match vs, xs with
    | [], [] => Some e
    | v :: vs, x :: xs =>
        k ← kind_of_value vals v;
        if value_fits x k then bind_all vals vs xs (<[v := x]> e) else None
    | _, _ => None
    end.

Definition advance (vals : list Value) (s : state) (vs : list ValueId) (xs : list rvalue) : option state :=
    e ← bind_all vals vs xs (env s); Some {| here := here s; pc := S (pc s); env := e |}.

Definition enter_block (vals : list Value) (target : BlockId) (params : list ValueId)
      (xs : list rvalue) (e : gmap N rvalue) : option state :=
    e ← bind_all vals params xs e; Some {| here := N.to_nat target; pc := 0; env := e |}.

Definition enter (f : FlowFunction) (target : BlockId) (xs : list rvalue) (e : gmap N rvalue) : option state :=
    b ← blocks f !! N.to_nat target;
    enter_block (values f) target (block_parameters b) xs e.

Definition silently (o : option state) : reaction :=
    match o with Some s => Silently s | None => Stuck end.

  (** The condition of a run-time check and the failure it guards against. *)
Definition check_of {V} (op : FlowOperation V) : option (V * FailureKind) :=
    match op with CheckOp condition failure _ => Some (condition, failure) | _ => None end.

Definition result_type (vals : list Value) (i : Instruction) : option TypeId :=
    r ← head (results i); value_ty <$> vals !! N.to_nat r.

Definition react_operation (vals : list Value) (s : state) (i : Instruction) (op : FlowOperation rvalue)
      : reaction :=
    match check_of op with
    | Some (RScalar (CBool true), _) => silently (advance vals s (results i) [])
    | Some (RScalar (CBool false), failure) => Stops (Failed failure)
    | Some _ => Stuck
    | None =>
        match ty ← result_type vals i; evaluate ty op with
        | Some (Continues x) => silently (advance vals s (results i) [x])
        | Some Fails => Stops (Failed FailArithmetic)
        | None =>
            if pure_operation op then Stuck
            else Asks (Perform op) (length (results i)) (advance vals s (results i))
        end
    end.

Definition react_instruction (vals : list Value) (s : state) (i : Instruction) : reaction :=
    match traverse_operation (fun v => env s !! v) (operation i) with
    | Some op => react_operation vals s i op
    | None => Stuck
    end.

  (** The value a [Switch] selects by. *)
Definition scrutinee (x : rvalue) : option Z :=
    match x with
    | RScalar (CBool b) => Some (Z.b2z b)
    | RScalar (CInteger _ _ v) => Some v
    | _ => None
    end.

  (** The edge a terminator with known operands takes: the first matching case. *)
Definition select_case {V} (selected : Z) (cases : list (SwitchCase V)) (default : BlockId)
      (default_arguments : list V) : BlockId * list V :=
    match find (fun c => case_value c =? selected) cases with
    | Some c => (case_target c, case_arguments c)
    | None => (default, default_arguments)
    end.

Definition react_terminator (f : FlowFunction) (s : state) (t : Terminator rvalue) : reaction :=
    match t with
    | Jump target arguments => silently (enter f target arguments (env s))
    | Branch (RScalar (CBool c)) then_block then_arguments else_block else_arguments =>
        silently (if c then enter f then_block then_arguments (env s)
                  else enter f else_block else_arguments (env s))
    | Branch _ _ _ _ _ => Stuck
    | Switch x cases default default_arguments =>
        match scrutinee x with
        | Some selected =>
            let '(target, arguments) := select_case selected cases default default_arguments in
            silently (enter f target arguments (env s))
        | None => Stuck
        end
    | Return xs => Stops (Returned xs)
    | Suspend n activation resume =>
        match blocks f !! N.to_nat resume with
        | Some b => Asks (Suspended n activation) (length (block_parameters b))
                      (fun xs => enter_block (values f) resume (block_parameters b) xs (env s))
        | None => Stuck
        end
    | TailCall function arguments => Stops (TailCalled function arguments)
    | Trap failure detail => Stops (Trapped failure detail)
    | Unreachable => Stuck
    end.

Definition react_end (f : FlowFunction) (s : state) (t : Terminator ValueId) : reaction :=
    match traverse_terminator (fun v => env s !! v) Some t with
    | Some t => react_terminator f s t
    | None => Stuck
    end.

Definition react (f : FlowFunction) (s : state) : reaction :=
    match blocks f !! here s with
    | None => Stuck
    | Some b =>
        match instructions b !! pc s with
        | Some i => react_instruction (values f) s i
        | None => react_end f s (terminator b)
        end
    end.

  (** A state the function may be in after one reaction. *)
Definition successor (f : FlowFunction) (s s1 : state) : Prop :=
    react f s = Silently s1
    \/ exists what n k xs, react f s = Asks what n k /\ k xs = Some s1.

  (** ** Runs *)

  (** One exchange with the environment. *)
Record exchange := { asked : request; answered : list rvalue }.

Inductive ending :=
  | Ended (how : stop)
  | GoesWrong
  | StillRunning.

  (** An environment answers a request by the exchanges before it. *)
Definition oracle : Type := list exchange -> request -> nat -> rvalue.

Fixpoint run (fuel : nat) (world : oracle) (f : FlowFunction) (s : state) (history : list exchange)
      : list exchange * ending :=
    match fuel with
    | O => (history, StillRunning)
    | S fuel =>
        match react f s with
        | Stuck => (history, GoesWrong)
        | Silently s => run fuel world f s history
        | Stops how => (history, Ended how)
        | Asks what n continue =>
            let answers := map (world history what) (seq 0 n) in
            match continue answers with
            | Some s => run fuel world f s (history ++ [{| asked := what; answered := answers |}])
            | None => (history, GoesWrong)
            end
        end
    end.

  (** A call: the parameters are bound, then the entry block is entered. *)
Definition start (f : FlowFunction) (arguments : list rvalue) : option state :=
    e ← bind_all (values f) (parameters f) arguments ∅; enter f (entry f) [] e.

Definition call (fuel : nat) (world : oracle) (f : FlowFunction) (arguments : list rvalue)
      : list exchange * ending :=
    match start f arguments with
    | Some s => run fuel world f s []
    | None => ([], GoesWrong)
    end.
End semantics.
Arguments rvalue : clear implicits.
Arguments state : clear implicits.
Arguments stop : clear implicits.
Arguments request : clear implicits.
Arguments reaction : clear implicits.
Arguments exchange : clear implicits.
Arguments ending : clear implicits.
Arguments oracle : clear implicits.

(** ** Refinement

    [f'] refines [f] when every run of [f] that does not go wrong is a run of
    [f'], against every environment and step by step. *)

Section refinement.
  Context {U : Type} (other : FlowOperation (rvalue U) -> option (rvalue U)) (types : list FlowType).

Definition goes_right (r : list (exchange U) * ending U) : Prop := snd r <> GoesWrong.

Definition refines (f f' : FlowFunction) : Prop :=
    forall fuel world arguments,
      goes_right (call other types fuel world f arguments) ->
      call other types fuel world f' arguments = call other types fuel world f arguments.

  (** One step of the simulation. *)
Definition reaction_refines (R : state U -> state U -> Prop) (r r' : reaction U) : Prop :=
    match r with
    | Stuck => True
    | Silently s => exists s', r' = Silently s' /\ R s s'
    | Stops how => r' = Stops how
    | Asks what n k =>
        exists k', r' = Asks what n k' /\
          forall xs s, k xs = Some s -> exists s', k' xs = Some s' /\ R s s'
    end.

Lemma simulation (R : state U -> state U -> Prop) f f' :
    (forall s s', R s s' -> reaction_refines R (react other types f s) (react other types f' s')) ->
    forall fuel world s s' history, R s s' ->
      goes_right (run other types fuel world f s history) ->
      run other types fuel world f' s' history = run other types fuel world f s history.
  Proof.
    intros Hstep fuel world. induction fuel as [|fuel IH]; intros s s' history HR Hright; [done|].
    cbn [run] in *. specialize (Hstep s s' HR). unfold reaction_refines in Hstep.
    destruct (react other types f s) as [|s1|how|what n k].
    - by destruct Hright.
    - destruct Hstep as (s1' & -> & HR1). by apply IH.
    - by rewrite Hstep.
    - destruct Hstep as (k' & -> & Hk).
      destruct (k (map (world history what) (seq 0 n))) as [s1|] eqn:Hs; [|by destruct Hright].
      destruct (Hk _ _ Hs) as (s1' & -> & HR1). by apply IH.
  Qed.

Lemma refines_refl f : refines f f.
  Proof. intros fuel world arguments _. done. Qed.

Lemma refines_trans f g h : refines f g -> refines g h -> refines f h.
  Proof.
    intros Hfg Hgh fuel world arguments Hright. rewrite <- (Hfg _ _ _ Hright). apply Hgh.
    by rewrite (Hfg _ _ _ Hright).
  Qed.

#[export] Instance refines_preorder : PreOrder refines.
  Proof. split; [exact refines_refl|exact refines_trans]. Qed.

  (** ** Binding *)

  (** Every bound variable holds a value of its type. *)
Definition env_typed (vals : list Value) (e : gmap N (rvalue U)) : Prop :=
    forall v x, e !! v = Some x -> exists k, kind_of_value types vals v = Some k /\ value_fits x k = true.

Lemma bind_all_typed vals vs xs e e' :
    env_typed vals e -> bind_all types vals vs xs e = Some e' -> env_typed vals e'.
  Proof.
    revert xs e. induction vs as [|v vs IH]; intros [|x xs] e He; simpl; try done.
    - by intros [= <-].
    - destruct (kind_of_value types vals v) as [k|] eqn:Hk; [|done]. simpl.
      destruct (value_fits x k) eqn:Hx; [|done]. apply IH.
      intros w y. rewrite lookup_insert. case_decide as Hw; [|apply He].
      subst w. intros [= <-]. eauto.
  Qed.

  (** A property of single bindings is kept when it holds for the new ones. *)
Lemma bind_all_forall vals (P : ValueId -> rvalue U -> Prop) vs xs e e' :
    (forall v x, e !! v = Some x -> P v x) -> Forall2 P vs xs ->
    bind_all types vals vs xs e = Some e' -> forall v x, e' !! v = Some x -> P v x.
  Proof.
    intros He HP. revert e He. induction HP as [|v x vs xs Hv HP IH]; intros e He; simpl.
    - by intros [= <-].
    - destruct (kind_of_value types vals v); [|done]. simpl. destruct (value_fits x _); [|done].
      apply IH. intros w y. rewrite lookup_insert. case_decide as Hw; [|apply He].
      subst w. by intros [= <-].
  Qed.

Lemma bind_all_length vals vs xs (e e' : gmap N (rvalue U)) :
    bind_all types vals vs xs e = Some e' -> length vs = length xs.
  Proof.
    revert xs e. induction vs as [|v vs IH]; intros [|x xs] e; simpl; try done.
    destruct (kind_of_value types vals v); [|done]. simpl. destruct (value_fits x _); [|done].
    intros H. f_equal. by eapply IH.
  Qed.

  (** How an instruction gets from one state to the next: it binds its results,
      an immediate to its value. *)
Definition instruction_step (vals : list Value) (s s1 : state U) (i : Instruction) : Prop :=
    react_instruction other types vals s i = Silently s1
    \/ exists what n k xs, react_instruction other types vals s i = Asks what n k /\ k xs = Some s1.

Lemma silently_Silently (o : option (state U)) s1 : silently o = Silently s1 -> o = Some s1.
  Proof. destruct o; simpl; congruence. Qed.

Lemma advance_Some vals (s : state U) vs xs s1 :
    advance types vals s vs xs = Some s1 -> bind_all types vals vs xs (env s) = Some (env s1).
  Proof. unfold advance. destruct (bind_all _ _ _ _ _); [|done]. by intros [= <-]. Qed.

Lemma instruction_step_binds vals s s1 i :
    instruction_step vals s s1 i ->
    exists xs, bind_all types vals (results i) xs (env s) = Some (env s1)
      /\ forall im, operation i = ImmediateOp im ->
           exists ty x, result_type vals i = Some ty
             /\ evaluate other types ty (ImmediateOp im) = Some (Continues x) /\ xs = [x].
  Proof.
    unfold instruction_step, react_instruction. intros H.
    destruct (traverse_operation _ (operation i)) as [op|] eqn:Hop; [|naive_solver].
    unfold react_operation in H. destruct (check_of op) as [[x failure]|] eqn:Hc.
    - destruct x as [[[]| | |]|]; destruct H as [H|(? & ? & ? & ? & H & _)]; try done.
      + apply silently_Silently, advance_Some in H. exists []. split; [done|]. intros im Him.
        rewrite Him in Hop. by injection Hop as <-.
      + exfalso. by destruct (advance _ _ _ _ _).
    - assert (Himm : forall im, operation i = ImmediateOp im -> op = ImmediateOp im).
      { intros im Him. rewrite Him in Hop. by injection Hop as <-. }
      destruct (result_type vals i) as [ty|] eqn:Hty; simpl in H;
        [destruct (evaluate other types ty op) as [[x|]|] eqn:Hev|].
      + destruct H as [H|(? & ? & ? & ? & H & _)]; [|exfalso; by destruct (advance _ _ _ _ _)].
        apply silently_Silently, advance_Some in H. exists [x]. split; [done|].
        intros im Him. exists ty, x. by rewrite (Himm im Him) in Hev.
      + naive_solver.
      + destruct (pure_operation op) eqn:Hpure; [naive_solver|].
        destruct H as [|(what & n & k & xs & [= <- <- <-] & H)]; [done|]. apply advance_Some in H.
        exists xs. split; [done|]. intros im Him. by rewrite (Himm im Him) in Hpure.
      + destruct (pure_operation op) eqn:Hpure; [naive_solver|].
        destruct H as [|(what & n & k & xs & [= <- <- <-] & H)]; [done|]. apply advance_Some in H.
        exists xs. split; [done|]. intros im Him. by rewrite (Himm im Him) in Hpure.
  Qed.

  (** A terminator gets to a block and binds its parameters. *)
Lemma react_end_binds f (s s1 : state U) t :
    (react_end (U := U) types f s t = Silently s1
     \/ exists what n k xs, react_end types f s t = Asks what n k /\ k xs = Some s1) ->
    exists b xs, b ∈ blocks f /\ bind_all types (values f) (block_parameters b) xs (env s) = Some (env s1).
  Proof.
    assert (Henter : forall target xs, enter types f target xs (env s) = Some s1 ->
      exists b xs, b ∈ blocks f /\ bind_all types (values f) (block_parameters b) xs (env s) = Some (env s1)).
    { intros target xs. unfold enter, enter_block. destruct (blocks f !! _) as [b|] eqn:Hb; [|done]. simpl.
      destruct (bind_all _ _ _ _ _) eqn:He; [|done]. intros [= <-]. exists b, xs. split; [|done].
      by eapply list_elem_of_lookup_2. }
    unfold react_end. intros H. destruct (traverse_terminator _ _ _) as [t'|]; [|naive_solver].
    assert (Hs : forall o, (silently o = Silently s1 \/ exists what n k xs, silently o = Asks what n k /\ k xs = Some s1) ->
      o = Some s1).
    { intros [] [Ho|(? & ? & ? & ? & Ho & _)]; simplify_eq/=; done. }
    destruct t' as [target xs|c tb xs eb ys|x cs d ys| |n a r| | |]; simpl in H;
      try (destruct H as [H|(? & ? & ? & ? & H & _)]; discriminate H).
    - by apply Hs, Henter in H.
    - destruct c as [[[]| | |]|]; try (destruct H as [H|(? & ? & ? & ? & H & _)]; discriminate H);
        by apply Hs, Henter in H.
    - destruct (scrutinee x); [|destruct H as [H|(? & ? & ? & ? & H & _)]; discriminate H].
      destruct (select_case _ _ _ _). by apply Hs, Henter in H.
    - destruct (blocks f !! _) as [b|] eqn:Hb; [|destruct H as [H|(? & ? & ? & ? & H & _)]; discriminate H].
      destruct H as [|(? & ? & ? & xs & [= <- <- <-] & H)]; [done|].
      exists b, xs. split; [by eapply list_elem_of_lookup_2|]. unfold enter_block in H.
      destruct (bind_all _ _ _ _ _) eqn:He; [|done]. by injection H as <-.
  Qed.

  (** ** Passes that keep the shape

    A pass that keeps the blocks, their parameters and the results of every
    instruction only has to justify each rewritten instruction or terminator
    where the original does not go wrong, in the environments that can occur. *)

Definition instruction_refines (vals : list Value) (P : gmap N (rvalue U) -> Prop) (i i' : Instruction) : Prop :=
    forall s, P (env s) ->
      react_instruction other types vals s i = Stuck
      \/ react_instruction other types vals s i' = react_instruction other types vals s i.

Definition terminator_refines (f : FlowFunction) (P : gmap N (rvalue U) -> Prop) (t t' : Terminator ValueId) : Prop :=
    forall s, P (env s) -> react_end types f s t = Stuck \/ react_end types f s t' = react_end types f s t.

Record block_refines (f : FlowFunction) (P : gmap N (rvalue U) -> Prop) (b b' : Block) : Prop := {
    refines_parameters : block_parameters b' = block_parameters b;
    refines_instructions : Forall2 (instruction_refines (values f) P) (instructions b) (instructions b');
    refines_terminator : terminator_refines f P (terminator b) (terminator b');
  }.

Definition same_parameters (f f' : FlowFunction) : Prop :=
    Forall2 (fun b b' => block_parameters b' = block_parameters b) (blocks f) (blocks f').

Lemma block_same f f' n : same_parameters f f' ->
    block_parameters <$> blocks f' !! n = block_parameters <$> blocks f !! n.
  Proof.
    intros Hb. unfold same_parameters in Hb. destruct (blocks f !! n) as [b|] eqn:Ht.
    - destruct (Forall2_lookup_l _ _ _ _ _ Hb Ht) as (b' & -> & Hp). simpl. by rewrite Hp.
    - destruct (blocks f' !! n) as [b'|] eqn:Ht'; [|done].
      destruct (Forall2_lookup_r _ _ _ _ _ Hb Ht') as (b & Hs & _). congruence.
  Qed.

Lemma enter_same f f' target xs (e : gmap N (rvalue U)) :
    values f' = values f -> same_parameters f f' -> enter types f' target xs e = enter types f target xs e.
  Proof.
    intros Hv Hb. pose proof (block_same f f' (N.to_nat target) Hb) as H. unfold enter.
    destruct (blocks f !! _), (blocks f' !! _); simplify_eq/=; [|done]. by rewrite H, Hv.
  Qed.

Lemma react_end_same f f' s t :
    values f' = values f -> same_parameters f f' -> react_end (U := U) types f' s t = react_end types f s t.
  Proof.
    intros Hv Hb. unfold react_end. destruct (traverse_terminator _ _ _) as [t'|]; [|done].
    destruct t' as [target xs|c tb xs eb ys|x cs d ys| |n a r| | |]; simpl; try done.
    - by rewrite (enter_same f f').
    - destruct c as [[[]| | |]|]; try done; by rewrite (enter_same f f').
    - destruct (scrutinee x); [|done]. destruct (select_case _ _ _ _). by rewrite (enter_same f f').
    - pose proof (block_same f f' (N.to_nat r) Hb) as H.
      destruct (blocks f !! _), (blocks f' !! _); simplify_eq/=; [|done]. by rewrite H, Hv.
  Qed.

Lemma refines_pointwise (P : gmap N (rvalue U) -> Prop) f f' :
    values f' = values f -> parameters f' = parameters f -> entry f' = entry f ->
    Forall2 (block_refines f P) (blocks f) (blocks f') ->
    (forall arguments s, start types f arguments = Some s -> P (env s)) ->
    (forall s s1, P (env s) -> successor other types f s s1 -> P (env s1)) ->
    refines f f'.
  Proof.
    intros Hv Hps Hentry Hblocks Hstart Hnext fuel world arguments. unfold call.
    assert (Hsame : same_parameters f f') by (eapply Forall2_impl; [exact Hblocks|]; apply refines_parameters).
    assert (Hst : start types f' arguments = start types f arguments).
    { unfold start. rewrite Hv, Hps, Hentry. destruct (bind_all _ _ _ _ _); [|done]. simpl. by apply enter_same. }
    rewrite Hst. destruct (start types f arguments) as [s|] eqn:Hs; [|done].
    apply (simulation (fun s s' => s' = s /\ P (env s))); [|by eauto].
    clear s Hs Hst. intros s ? [-> HP].
    assert (Hreact : react other types f s = Stuck \/ react other types f' s = react other types f s).
    { unfold react. destruct (blocks f !! here s) as [b|] eqn:Hb; [|by left].
      destruct (Forall2_lookup_l _ _ _ _ _ Hblocks Hb) as (b' & Hb' & Hr). rewrite Hb'.
      destruct (instructions b !! pc s) as [i|] eqn:Hi.
      - destruct (Forall2_lookup_l _ _ _ _ _ (refines_instructions _ _ _ _ Hr) Hi) as (i' & Hi' & Hri).
        rewrite Hi', Hv. by apply Hri.
      - assert (instructions b' !! pc s = None) as ->.
        { apply lookup_ge_None. rewrite <- (Forall2_length _ _ _ (refines_instructions _ _ _ _ Hr)).
          by apply lookup_ge_None. }
        rewrite (react_end_same f f') by done. by apply Hr. }
    destruct (react other types f s) as [|s1|how|what n k] eqn:E; simpl; [done|..];
      destruct Hreact as [|Hreact]; try done.
    - exists s1. split_and!; [done..|]. eapply Hnext; [done|]. by left.
    - exists k. split; [done|]. intros xs s1 Hk. exists s1. split_and!; [done..|].
      eapply Hnext; [done|]. right. by exists what, n, k, xs.
  Qed.
End refinement.
