(* ===== verification/FoldPass.v ===== *)
(** The constant-folding pass of [development.rs]: [fold_scalar_constants] and
    what it calls, on the functions of an image. The pure part of an operation is in
    [ScalarFold]; the one allocation of a fold is asked for here. *)

From stdpp Require Import base numbers list option gmap strings.
From S2P Require Import Prelude Interrupt FlowWir ScalarFold Optimizer FlowOperands FlowSemantics.

#[local] Open Scope Z_scope.

(** ** Loops over the IR *)

(** Rewrite every element in order, threading what the loop body updates. *)
Fixpoint map_accum {X Y T} (step : T -> X -> pass (Y * T)) (xs : list X) (t : T) : pass (list Y * T) :=
  match xs with
  | [] => mret ([], t)
  | x :: xs =>
      '(y, t) ← step t x;
      '(ys, t) ← map_accum step xs t;
      mret (y :: ys, t)
  end.

(** Visit every element in order, threading what the loop body updates. *)
Fixpoint fold_each {X T} (step : T -> X -> pass T) (xs : list X) (t : T) : pass T :=
  match xs with
  | [] => mret t
  | x :: xs => t ← step t x; fold_each step xs t
  end.

Definition single_result (i : Instruction) : option ValueId :=
  match results i with [result] => Some result | _ => None end.

Definition with_operation (i : Instruction) (op : FlowOperation ValueId) : Instruction :=
  {| instruction_id := instruction_id i; results := results i; operation := op;
     instruction_source := instruction_source i |}.
Definition with_instructions (b : Block) (ins : list Instruction) : Block :=
  {| block_id := block_id b; block_parameters := block_parameters b; instructions := ins;
     terminator := terminator b; block_source := block_source b |}.
Definition with_blocks (f : FlowFunction) (bs : list Block) : FlowFunction :=
  {| function_id := function_id f; function_name := function_name f;
     function_origin := function_origin f; role := role f; color := color f;
     parameters := parameters f; result_types := result_types f; values := values f;
     blocks := bs; entry := entry f; stack_bound := stack_bound f; frame_bound := frame_bound f;
     function_proofs := function_proofs f; function_source := function_source f |}.

(** The known constant of every value. *)
Definition Constants : Type := list (option ScalarConstant).

Definition type_of_value (vals : list Value) (v : ValueId) : option TypeId :=
  value_ty <$> vals !! N.to_nat v.

(** ** Seeding *)

Definition seed_instruction (types : list FlowType) (vals : list Value) (constants : Constants)
    (i : Instruction) : pass Constants :=
  _ ← checkpoint;
  match single_result i, operation i with
  | Some result, ImmediateOp immediate =>
      match type_of_value vals result with
      | Some result_type =>
          match constant_from_immediate immediate result_type types with
          | Some constant => mret (<[N.to_nat result := Some constant]> constants)
          | None => mret constants
          end
      | None => mret constants
      end
  | _, _ => mret constants
  end.

Definition seed_immediates (types : list FlowType) (f : FlowFunction) (constants : Constants)
    : pass Constants :=
  fold_each (fun constants b =>
    _ ← checkpoint; fold_each (seed_instruction types (values f)) (instructions b) constants)
    (blocks f) constants.

(** ** One round *)

(** The immediate [fold_operation] gives for an instruction. *)
Definition folded_immediate (types : list FlowType) (vals : list Value) (constants : Constants)
    (i : Instruction) : option Immediate :=
  match operation i with
  | ImmediateOp _ => None
  | op =>
      result ← single_result i;
      result_type ← type_of_value vals result;
      fold_operation op result_type constants types
  end.

(** The [try_reserve_exact(width).ok()?] of [constant_to_immediate], which every
    fold ends with: without memory for the bytes of an integer [fold_operation]
    gives nothing. *)
Definition fold_succeeds (folded : option Immediate) : pass bool :=
  match folded with
  | Some (ImmInteger _ _) => failed ← liftS (Ask Reserve Ret); mret (negb failed)
  | Some _ => mret true
  | None => mret false
  end.

(** What an instruction is folded to: its result and the constant it becomes. *)
Definition fold_to (types : list FlowType) (vals : list Value) (constants : Constants)
    (i : Instruction) : option (ValueId * Immediate * ScalarConstant) :=
  folded ← folded_immediate types vals constants i;
  result ← single_result i;
  result_type ← type_of_value vals result;
  constant ← constant_from_immediate folded result_type types;
  Some (result, folded, constant).

Definition fold_instruction (types : list FlowType) (function : FunctionId) (vals : list Value)
    (acc : Constants * bool) (i : Instruction) : pass (Instruction * (Constants * bool)) :=
  _ ← checkpoint;
  folds ← fold_succeeds (folded_immediate types vals acc.1 i);
  match (if folds : bool then fold_to types vals acc.1 i else None) with
  | None => mret (i, acc)
  | Some (result, folded, constant) =>
      subject ← instruction_subject function (instruction_id i);
      _ ← push CONSTANT_FOLD_PASS subject Folded
            "replaced an exact scalar operation with its canonical immediate value" [];
      mret (with_operation i (ImmediateOp folded),
            (<[N.to_nat result := Some constant]> acc.1, true))
  end.

Definition fold_block (types : list FlowType) (function : FunctionId) (vals : list Value)
    (acc : Constants * bool) (b : Block) : pass (Block * (Constants * bool)) :=
  _ ← checkpoint;
  '(ins, acc) ← map_accum (fold_instruction types function vals) (instructions b) acc;
  mret (with_instructions b ins, acc).

(** ** Rounds *)

(** An instruction that folds, given the memory. *)
Definition foldable (types : list FlowType) (vals : list Value) (constants : Constants)
    (i : Instruction) : bool :=
  bool_decide (is_Some (folded_immediate types vals constants i)).

(** [for .. { checkpoint; if test { return Ok(true) } } .. Ok(false)]. *)
Fixpoint any_instruction (test : Instruction -> pass bool) (ins : list Instruction) : pass bool :=
  match ins with
  | [] => mret false
  | i :: ins =>
      _ ← checkpoint;
      found ← test i;
      if found : bool then mret true else any_instruction test ins
  end.

Fixpoint has_foldable_scalar_operation (types : list FlowType) (vals : list Value)
    (constants : Constants) (bs : list Block) : pass bool :=
  match bs with
  | [] => mret false
  | b :: bs =>
      _ ← checkpoint;
      found ← any_instruction (fun i => fold_succeeds (folded_immediate types vals constants i)) (instructions b);
      if found : bool then mret true
      else has_foldable_scalar_operation types vals constants bs
  end.

(** The [loop]. Every round but the last folds an instruction, so a fuel above
    the number of instructions that are not immediates is never exhausted. *)
Fixpoint fold_loop (fuel : nat) (types : list FlowType) (maximum : Z) (function : FunctionId)
    (vals : list Value) (bs : list Block) (constants : Constants) (changed : bool) (iterations : Z)
    : pass (list Block * bool * Z) :=
  let exhausted := ResourceLimit "optimization iterations" maximum in
  match fuel with
  | O => fails exhausted
  | S fuel =>
      iterations ← pure_result (ok_or (checked_add 32 iterations 1) exhausted);
      '(bs, (constants, iteration_changed)) ←
        map_accum (fold_block types function vals) bs (constants, false);
      let changed := changed || iteration_changed in
      if negb iteration_changed then mret (bs, changed, iterations)
      else if iterations =? maximum then
        more ← has_foldable_scalar_operation types vals constants bs;
        if more : bool then fails exhausted else mret (bs, changed, iterations)
      else fold_loop fuel types maximum function vals bs constants changed iterations
  end.

(** How many instructions are not immediates. *)
Definition is_immediate (i : Instruction) : bool :=
  match operation i with ImmediateOp _ => true | _ => false end.
Definition block_work (b : Block) : nat := length (List.filter (fun i => negb (is_immediate i)) (instructions b)).
Definition total_work (bs : list Block) : nat := sum_list_with block_work bs.

(** The body of [for function in &mut wir.functions]. *)
Definition fold_function (types : list FlowType) (profile : OptimizationProfile)
    (limits : OptimizationLimits) (acc : bool * Z) (f : FlowFunction)
    : pass (FlowFunction * (bool * Z)) :=
  let '(changed, maximum_iterations_used) := acc in
  _ ← checkpoint;
  constants ← filled_vec (length (values f)) None "optimizer temporary values" (limit_values limits);
  constants ← seed_immediates types f constants;
  '(bs, changed, iterations) ←
    fold_loop (S (total_work (blocks f))) types (maximum_iterations profile) (function_id f)
      (values f) (blocks f) constants changed 0;
  mret (with_blocks f bs, (changed, Z.max maximum_iterations_used iterations)).

Definition fold_scalar_constants (types : list FlowType) (functions : list FlowFunction)
    (profile : OptimizationProfile) (limits : OptimizationLimits)
    : pass (list FlowFunction * (bool * Z)) :=
  map_accum (fold_function types profile limits) functions (false, 1).
