(* ===== verification/FoldSound.v ===== *)
(** Constant folding is correct: whatever the environment of the compiler
    answers, a fold that returns has rewritten every function into one that
    refines it, and its loop ends; undisturbed, it has folded everything that can
    be folded. The scalars of [FlowSemantics] are those of the folding code. *)

From Stdlib Require Import Floats.SpecFloat.
From stdpp Require Import base numbers list option gmap strings.
From S2P Require Import Prelude Bytes Interrupt FlowWir ScalarFold Optimizer FlowOperands FlowSemantics FoldPass.

#[local] Open Scope Z_scope.

(** ** Definitions of values *)

Definition block_definitions (b : Block) : list ValueId :=
  block_parameters b ++ concat (map results (instructions b)).
Definition definitions (ps : list ValueId) (bs : list Block) : list ValueId :=
  ps ++ concat (map block_definitions bs).

(** The SSA property: every value has at most one definition. *)
Definition single_assignment (f : FlowFunction) : Prop := NoDup (definitions (parameters f) (blocks f)).

Lemma elem_concat {A B} (g : B -> list A) (ls : list B) (x : A) :
  x ∈ concat (map g ls) <-> exists l, l ∈ ls /\ x ∈ g l.
Proof.
  induction ls as [|l ls IH]; simpl; [set_solver|]. rewrite elem_of_app, IH. set_solver.
Qed.

Lemma nodup_concat {A B} (g : B -> list A) (ls : list B) a b x :
  NoDup (concat (map g ls)) -> a ∈ ls -> b ∈ ls -> x ∈ g a -> x ∈ g b -> a = b.
Proof.
  induction ls as [|l ls IH]; simpl; [set_solver|].
  intros (_ & Hd & Hn)%NoDup_app Ha Hb Hxa Hxb.
  assert (Hin : forall c, c ∈ ls -> x ∈ g c -> x ∈ concat (map g ls)) by (intros c ??; apply elem_concat; eauto).
  apply elem_of_cons in Ha as [->|Ha], Hb as [->|Hb]; auto.
  - destruct (Hd x); eauto.
  - destruct (Hd x); eauto.
Qed.

Lemma nodup_concat_part {A B} (g : B -> list A) (ls : list B) a :
  NoDup (concat (map g ls)) -> a ∈ ls -> NoDup (g a).
Proof.
  induction ls as [|l ls IH]; simpl; [set_solver|]. intros (Hl & _ & Hn)%NoDup_app [->|Ha]%elem_of_cons; auto.
Qed.

(** [i] is an instruction of the blocks. *)
Definition occurs (i : Instruction) (bs : list Block) : Prop := exists b, b ∈ bs /\ i ∈ instructions b.

Lemma occurs_definitions i bs v : occurs i bs -> v ∈ results i ->
  exists b, b ∈ bs /\ i ∈ instructions b /\ v ∈ block_definitions b.
Proof.
  intros (b & Hb & Hi) Hv. exists b. split_and!; [done..|]. apply elem_of_app. right. apply elem_concat. eauto.
Qed.

(** The instruction that defines a value is unique, and no parameter has its value. *)
Lemma one_definition ps bs i j v :
  NoDup (definitions ps bs) -> occurs i bs -> occurs j bs -> v ∈ results i -> v ∈ results j -> i = j.
Proof.
  intros (_ & _ & Hn)%NoDup_app Hi Hj Hvi Hvj.
  destruct (occurs_definitions i bs v Hi Hvi) as (b & Hb & Hib & Hdb).
  destruct (occurs_definitions j bs v Hj Hvj) as (c & Hc & Hjc & Hdc).
  assert (b = c) as <- by by eapply nodup_concat.
  eapply nodup_concat_part in Hn; [|done]. apply NoDup_app in Hn as (_ & _ & Hn). by eapply nodup_concat.
Qed.

Lemma parameter_not_defined ps bs i v : NoDup (definitions ps bs) -> occurs i bs -> v ∈ results i -> v ∉ ps.
Proof.
  intros (_ & Hd & _)%NoDup_app Hi Hv Hp. destruct (occurs_definitions i bs v Hi Hv) as (b & Hb & _ & Hdb).
  apply (Hd v Hp). apply elem_concat. eauto.
Qed.

Lemma block_parameter_not_defined ps bs i b v :
  NoDup (definitions ps bs) -> occurs i bs -> v ∈ results i -> b ∈ bs -> v ∉ block_parameters b.
Proof.
  intros (_ & _ & Hn)%NoDup_app Hi Hv Hb Hp.
  destruct (occurs_definitions i bs v Hi Hv) as (c & Hc & Hic & Hdc).
  assert (b = c) as <-.
  { eapply nodup_concat; [done..| |done]. apply elem_of_app. by left. }
  eapply nodup_concat_part in Hn; [|done]. apply NoDup_app in Hn as (_ & Hd & _).
  apply (Hd v Hp). apply elem_concat. eauto.
Qed.

(** ** Agreement with the scalars of the language *)

Section floats.
  Context (p emin : Z) (Hp : 1 <= p).

  (** The spelling of a number by [float_from_bits] is unique: the significand
      has no leading zero but at the least exponent. *)
Definition normalised (x : spec_float) : Prop :=
    match x with
    | S754_finite _ m e => emin <= e /\ Zpos m < 2 ^ p /\ (e = emin \/ 2 ^ (p - 1) <= Zpos m)
    | _ => True
    end.

Lemma scaled_apart m1 e1 m2 e2 sign1 sign2 :
    normalised (S754_finite sign1 m1 e1) -> normalised (S754_finite sign2 m2 e2) -> e1 < e2 ->
    Zpos m1 < Zpos m2 * 2 ^ (e2 - e1).
  Proof.
    intros (He1 & Hm1 & _) (_ & _ & Hm2) He. destruct Hm2 as [|Hm2]; [lia|].
    replace (e2 - e1) with (1 + (e2 - e1 - 1)) by lia. rewrite Z.pow_add_r, Z.pow_1_r by lia.
    replace (2 ^ p) with (2 * 2 ^ (p - 1)) in Hm1 by (rewrite <- Z.pow_succ_r by lia; f_equal; lia).
    pose proof (Z.pow_pos_nonneg 2 (e2 - e1 - 1)). nia.
  Qed.

Lemma magnitude_order m1 e1 m2 e2 sign1 sign2 :
    normalised (S754_finite sign1 m1 e1) -> normalised (S754_finite sign2 m2 e2) ->
    (Zpos m1 * 2 ^ (e1 - Z.min e1 e2) ?= Zpos m2 * 2 ^ (e2 - Z.min e1 e2))
    = match e1 ?= e2 with Lt => Lt | Gt => Gt | Eq => Pos.compare_cont Eq m1 m2 end.
  Proof.
    intros H1 H2. destruct (Z.compare_spec e1 e2) as [<-|Hlt|Hgt].
    - by rewrite Z.min_id, Z.sub_diag, !Z.mul_1_r.
    - rewrite Z.min_l, Z.sub_diag, Z.mul_1_r by lia. apply Z.compare_lt_iff. by eapply scaled_apart.
    - rewrite Z.min_r, Z.sub_diag, Z.mul_1_r by lia. apply Z.compare_gt_iff. by eapply scaled_apart.
  Qed.

Lemma sign_order (sign : bool) m k :
    0 < k -> ((if sign then Zneg m else Zpos m) * k ?= 0) = (if sign then Lt else Gt)
    /\ (0 ?= (if sign then Zneg m else Zpos m) * k) = (if sign then Gt else Lt).
  Proof. intros Hk. destruct sign; rewrite ?Z.compare_lt_iff, ?Z.compare_gt_iff; lia. Qed.

Lemma float_order_compare x y : normalised x -> normalised y -> float_order x y = SFcompare x y.
  Proof.
    intros Hx Hy. destruct x as [s1|s1| |s1 m1 e1], y as [s2|s2| |s2 m2 e2]; try done; unfold float_order;
      cbn [significand scale SFcompare]; f_equal; try (by destruct s1, s2); try (by destruct s1); try (by destruct s2).
    - apply sign_order, Z.pow_pos_nonneg; lia.
    - apply sign_order, Z.pow_pos_nonneg; lia.
    - pose proof (magnitude_order m1 e1 m2 e2 s1 s2 Hx Hy) as Hm.
      assert (Hk1 : 0 < 2 ^ (e1 - Z.min e1 e2)) by (apply Z.pow_pos_nonneg; lia).
      assert (Hk2 : 0 < 2 ^ (e2 - Z.min e1 e2)) by (apply Z.pow_pos_nonneg; lia).
      destruct s1, s2; [|apply Z.compare_lt_iff; nia|apply Z.compare_gt_iff; nia|done].
      rewrite <- !Pos2Z.opp_pos, !Z.mul_opp_l, Z.compare_opp, Z.compare_antisym, Hm. by destruct (e1 ?= e2).
  Qed.
End floats.

Lemma float_order_antisym x y : float_order y x = CompOpp <$> float_order x y.
Proof.
  unfold float_order. destruct x, y; try done; cbn [fmap option_fmap option_map]; f_equal;
    rewrite <- Z.compare_antisym; try done; by rewrite Z.min_comm.
Qed.

Lemma float_from_bits_normalised p emax bits :
  1 <= p -> 2 <= emax -> normalised p (3 - emax - p) (float_from_bits p emax bits).
Proof.
  intros Hp He. unfold float_from_bits. cbv zeta. pose proof (Z.mod_pos_bound bits (2 ^ (p - 1))) as Hm.
  pose proof (Z.mod_pos_bound (bits / 2 ^ (p - 1)) (2 * emax)) as Hb.
  assert (Hpow : 0 < 2 ^ (p - 1)) by (apply Z.pow_pos_nonneg; lia).
  assert (Htwice : 2 ^ p = 2 * 2 ^ (p - 1)) by (rewrite <- Z.pow_succ_r by lia; f_equal; lia).
  destruct (Z.eqb_spec (bits / 2 ^ (p - 1) mod (2 * emax)) 0).
  - destruct (bits mod 2 ^ (p - 1)); try done. simpl. lia.
  - destruct (_ =? 2 * emax - 1); [by destruct (_ =? 0)|]. simpl. rewrite Z2Pos.id by lia. lia.
Qed.

(** The comparisons of the standard library read off the order of the numbers. *)
Lemma compare_float_judges p emin op x y :
  1 <= p -> normalised p emin x -> normalised p emin y -> compare_float op x y = judge op (float_order x y).
Proof.
  intros Hp Hx Hy. pose proof (float_order_antisym x y) as Hanti.
  rewrite (float_order_compare p emin Hp y x) in Hanti by done. rewrite (float_order_compare p emin Hp) in * by done.
  unfold compare_float, judge, SFeqb, SFltb, SFleb. rewrite Hanti. by destruct op, (SFcompare x y) as [[]|].
Qed.

Lemma fold_comparison_language op l r : fold_comparison op l r = language_comparison op l r.
Proof.
  destruct l as [[]| |l|l], r as [[]| |r|r]; try done; try (by destruct op); simpl;
    by eapply compare_float_judges; [|apply float_from_bits_normalised..].
Qed.

Lemma flip_is_negated n v : 1 <= n <= 128 -> 0 <= v < 2 ^ n -> Z.lxor v (Z.shiftl 1 (n - 1)) = negated_float n v.
Proof.
  intros Hn Hv. unfold negated_float. rewrite Z.shiftl_1_l.
  pose proof (pow_half n Hn) as Hhalf. pose proof (pow_half_pos n Hn).
  assert (Hflip : forall w, 0 <= w < 2 ^ (n - 1) -> Z.lxor w (2 ^ (n - 1)) = w + 2 ^ (n - 1)).
  { intros w Hw. symmetry. apply Z.add_nocarry_lxor, Z.eqb_eq. rewrite <- (Z.shiftl_1_l (n - 1)), sign_bit by lia.
    apply Z.ltb_lt. lia. }
  destruct (Z_lt_le_dec v (2 ^ (n - 1))).
  - rewrite Hflip, Z.mod_small by lia. done.
  - replace (v + 2 ^ (n - 1)) with (v - 2 ^ (n - 1) + 1 * 2 ^ n) by lia. rewrite Z.mod_add, Z.mod_small by lia.
    replace v with (Z.lxor (v - 2 ^ (n - 1)) (2 ^ (n - 1))) at 1 by (rewrite Hflip; lia).
    by rewrite Z.lxor_assoc, Z.lxor_nilpotent, Z.lxor_0_r.
Qed.

Lemma integer_byte_width_spec bits n :
  1 <= bits <= 128 -> integer_byte_width bits = Some n <-> bits <= 8 * Z.of_nat n < bits + 8.
Proof.
  intros Hb. unfold integer_byte_width. replace ((bits =? 0) || (128 <? bits)) with false
    by (symmetry; apply orb_false_iff; rewrite Z.eqb_neq, Z.ltb_ge; lia).
  pose proof (Z.div_mod (bits + 7) 8). pose proof (Z.mod_pos_bound (bits + 7) 8).
  split; [intros [= <-]; lia|]. intros Hn. f_equal. lia.
Qed.

Lemma constant_from_immediate_language immediate ty types :
  constant_from_immediate immediate ty types = language_immediate immediate ty types.
Proof.
  unfold constant_from_immediate, language_immediate. destruct (kind_of types ty) as [k|]; [|done]. cbn [mbind option_bind].
  destruct immediate as [| | |bits bytes| | | |zero| |], k as [|[| |signed type_bits| | |]| | | | | | | | | | | | | | | | |];
    try done; try (destruct (N.eqb_spec zero ty), (decide (zero = ty)); done); try (by destruct (decide (zero = ty))).
  destruct (Z.eqb_spec bits type_bits) as [<-|]; [|rewrite decide_False by tauto; done].
  destruct (decide (1 <= bits <= 128)) as [Hb|Hb].
  - rewrite integer_mask_ones by done. destruct (integer_byte_width bits) as [w|] eqn:Hw; cbn [mbind option_bind].
    + apply integer_byte_width_spec in Hw as Hw'; [|done]. destruct (Nat.eqb_spec w (length bytes)) as [->|Hl].
      * fold (len bytes) in Hw'. pose proof (le_value_bounds bytes) as Hv. fold (len bytes) in Hv.
        assert (256 ^ len bytes <= 2 ^ 128).
        { change 256 with (2 ^ 8). rewrite <- Z.pow_mul_r by lia. apply Z.pow_le_mono_r; lia. }
        rewrite or_bytes_value, Z.mul_1_r, Z.add_0_l, above_mask by lia.
        destruct (Z.ltb_spec (le_value bytes) (2 ^ bits)); [rewrite decide_True by lia|rewrite decide_False by lia]; done.
      * rewrite decide_False; [done|]. unfold len. lia.
    + rewrite decide_False; [done|]. intros (_ & _ & Hl & _). apply integer_byte_width_spec in Hl; [|done]. congruence.
  - rewrite decide_False by tauto. destruct (integer_byte_width bits); [|done]. cbn [mbind option_bind].
    destruct (Nat.eqb _ _); [|done]. unfold integer_mask. destruct (Z.eqb_spec bits 128); [lia|].
    by replace ((1 <=? bits) && (bits <=? 127)) with false by (symmetry; apply andb_false_iff; rewrite !Z.leb_gt; lia).
Qed.

(** ** What the table of constants means *)

Section fold.
  Context {U : Type} (other : FlowOperation (rvalue U) -> option (rvalue U)) (types : list FlowType).
  Context (Htypes : types_ok types).

(** Every constant is the value of an immediate the blocks define it with. *)
Definition known (vals : list Value) (bs : list Block) (constants : Constants) : Prop :=
    forall v c, constant v constants = Some c ->
      exists i im ty, occurs i bs /\ results i = [v] /\ operation i = ImmediateOp im
        /\ type_of_value vals v = Some ty /\ constant_from_immediate im ty types = Some c
        /\ canonical c = true.

Definition agrees (constants : Constants) (e : gmap N (rvalue U)) : Prop :=
    forall v x, e !! v = Some x -> forall c, constant v constants = Some c -> x = RScalar c.

Lemma agrees_bind vals constants vs xs e e' :
    agrees constants e -> bind_all types vals vs xs e = Some e' ->
    Forall2 (fun v x => forall c, constant v constants = Some c -> x = RScalar c) vs xs -> agrees constants e'.
  Proof. intros He Hb Hx. exact (bind_all_forall types vals _ vs xs e e' He Hx Hb). Qed.

Lemma agrees_bind_unknown vals constants vs xs e e' :
    agrees constants e -> bind_all types vals vs xs e = Some e' ->
    (forall v, v ∈ vs -> constant v constants = None) -> agrees constants e'.
  Proof.
    intros He Hb Hv. eapply agrees_bind; [done..|]. apply bind_all_length in Hb. clear He.
    revert xs Hb. induction vs as [|v vs IH]; intros [|x xs] Hb; simpl in Hb; try done; constructor.
    - intros c. by rewrite Hv by left.
    - apply IH; [|lia]. intros w Hw. apply Hv. by right.
  Qed.

  (** An instruction either defines one known immediate or nothing known. *)
Lemma known_cases ps vals bs constants i :
    NoDup (definitions ps bs) -> known vals bs constants -> occurs i bs ->
    (forall v, v ∈ results i -> constant v constants = None)
    \/ exists v im ty c, results i = [v] /\ operation i = ImmediateOp im /\ type_of_value vals v = Some ty
         /\ constant_from_immediate im ty types = Some c /\ constant v constants = Some c.
  Proof.
    intros Hn Hk Hi. destruct (decide (Forall (fun v => constant v constants = None) (results i))) as [Hall|Hsome].
    - left. by apply Forall_forall.
    - right. apply not_Forall_Exists in Hsome; [|apply _]. apply Exists_exists in Hsome as (v & Hv & Hc).
      simpl in Hc. destruct (constant v constants) as [c|] eqn:E; [|done].
      destruct (Hk v c E) as (j & im & ty & Hj & Hr & Ho & Ht & Hci & _).
      assert (j = i) as -> by (eapply (one_definition ps bs); [done..| |done]; rewrite Hr; by left).
      by exists v, im, ty, c.
  Qed.

  (** What an instruction binds agrees with the table. *)
Lemma instruction_step_agrees ps vals bs constants i (s s1 : state U) :
    NoDup (definitions ps bs) -> known vals bs constants -> occurs i bs -> agrees constants (env s) ->
    instruction_step other types vals s s1 i -> agrees constants (env s1).
  Proof.
    intros Hn Hk Hi Ha (xs & Hb & Him)%instruction_step_binds.
    destruct (known_cases ps vals bs constants i Hn Hk Hi) as [Hnone|(v & im & ty & c & Hr & Ho & Ht & Hc & Hcv)].
    - by eapply agrees_bind_unknown.
    - destruct (Him im Ho) as (ty' & x & Hty & Hev & ->). rewrite Hr in Hb. unfold result_type in Hty.
      rewrite Hr in Hty. simpl in Hty. unfold type_of_value in Ht. rewrite Ht in Hty. injection Hty as <-.
      simpl in Hev. rewrite <- constant_from_immediate_language, Hc in Hev. injection Hev as <-. eapply agrees_bind; [done..|].
      constructor; [|constructor]. intros c'. rewrite Hcv. by intros [= <-].
  Qed.

Lemma known_parameters ps vals bs constants v :
    NoDup (definitions ps bs) -> known vals bs constants ->
    v ∈ ps \/ (exists b, b ∈ bs /\ v ∈ block_parameters b) -> constant v constants = None.
  Proof.
    intros Hn Hk Hv. destruct (constant v constants) as [c|] eqn:E; [|done]. exfalso.
    destruct (Hk v c E) as (i & im & ty & Hi & Hr & _).
    assert (v ∈ results i) as Hvi by (rewrite Hr; by left). destruct Hv as [Hv|(b & Hb & Hv)].
    - by eapply parameter_not_defined.
    - by eapply block_parameter_not_defined.
  Qed.

  (** The table agrees with every environment a run reaches. *)
Lemma start_agrees f constants arguments s :
    single_assignment f -> known (values f) (blocks f) constants ->
    start types f arguments = Some s -> agrees constants (env s).
  Proof.
    intros Hn Hk. unfold start. destruct (bind_all _ _ _ _ _) as [e|] eqn:He; [|done]. simpl.
    assert (Ha : agrees constants e).
    { eapply agrees_bind_unknown; [|done|]; [by intros v x|]. intros v Hv. eapply known_parameters; eauto. }
    unfold enter, enter_block. destruct (blocks f !! _) as [b|] eqn:Hb; [|done]. simpl.
    destruct (bind_all types (values f) (block_parameters b) _ _) as [e'|] eqn:He'; [|done]. intros [= <-]. simpl.
    eapply agrees_bind_unknown; [done..|]. intros v Hv. eapply known_parameters; [done..|]. right.
    exists b. split; [by eapply list_elem_of_lookup_2|done].
  Qed.

Lemma successor_agrees f constants (s s1 : state U) :
    single_assignment f -> known (values f) (blocks f) constants ->
    agrees constants (env s) -> successor other types f s s1 -> agrees constants (env s1).
  Proof.
    intros Hn Hk Ha Hs. unfold successor, react in Hs.
    destruct (blocks f !! here s) as [b|] eqn:Hb; [|naive_solver].
    apply list_elem_of_lookup_2 in Hb as Hbin. destruct (instructions b !! pc s) as [i|] eqn:Hi.
    - eapply instruction_step_agrees; [done..| |done|exact Hs]. exists b. split; [done|].
      by eapply list_elem_of_lookup_2.
    - apply react_end_binds in Hs as (b' & xs & Hb' & He). eapply agrees_bind_unknown; [done..|].
      intros v Hv. eapply known_parameters; eauto.
  Qed.

  (** ** Folding one operation *)

Lemma fold_integer_binary_language_Some op signed bits l r c :
    canonical (CInteger signed bits l) = true -> canonical (CInteger signed bits r) = true ->
    fold_integer_binary op signed bits l r = Some c ->
    language_binary op signed bits (denote signed bits l) (denote signed bits r) = Yields c.
  Proof.
    intros Hl Hr Hf. assert (Hh : ~ host_overflow bits signed l r op).
    { intros Hh. rewrite host_overflow_refused in Hf; done. }
    unfold canonical in Hl, Hr. split_andb. bool_to_prop.
    rewrite fold_integer_binary_language in Hf by (done || lia).
    by destruct (language_binary _ _ _ _ _); simplify_eq/=.
  Qed.

Lemma wrapping_canonical signed bits v c : 1 <= bits <= 128 -> wrapping signed bits v = Yields c -> canonical c = true.
  Proof.
    intros Hb [= <-]. unfold canonical. pose proof (width_pos bits Hb).
    rewrite !andb_true_iff, !Z.leb_le, fits_spec. pose proof (Z.mod_pos_bound v (2 ^ bits)). lia.
  Qed.

Lemma checked_canonical signed bits v c : 1 <= bits <= 128 -> checked signed bits v = Yields c -> canonical c = true.
  Proof. unfold checked. destruct (in_range signed bits v); [apply wrapping_canonical|done]. Qed.
  #[local] Hint Resolve wrapping_canonical checked_canonical : core.

Lemma language_canonical op signed bits x y c :
    1 <= bits <= 128 -> language_binary op signed bits x y = Yields c -> canonical c = true.
  Proof.
    intros Hb. destruct op; cbn [language_binary];
      first [apply wrapping_canonical; exact Hb | apply checked_canonical; exact Hb
            | intros [= <-]; reflexivity | destruct (y =? 0); [discriminate|apply checked_canonical; exact Hb]
            | unfold shifting; destruct (_ && _); [|discriminate];
              first [apply checked_canonical; exact Hb | apply wrapping_canonical; exact Hb]].
  Qed.

Lemma language_unary_canonical op signed bits x o c :
    1 <= bits <= 128 -> language_unary op signed bits x = Some o -> o = Yields c -> canonical c = true.
  Proof. intros Hb Ho ->. destruct op; simpl in Ho; [|done|]; apply (inj Some) in Ho; eauto. Qed.

Lemma flip_sign n v : 0 < n -> fits n v = true -> fits n (Z.lxor v (Z.shiftl 1 (n - 1))) = true.
  Proof.
    intros Hn Hv. apply fits_spec in Hv. apply fits_spec. rewrite Z.shiftl_1_l.
    assert (Hp : 0 < 2 ^ (n - 1)) by (apply Z.pow_pos_nonneg; lia).
    split; [apply Z.lxor_nonneg; lia|].
    assert (Hx : 0 <= Z.lxor v (2 ^ (n - 1))) by (apply Z.lxor_nonneg; lia).
    rewrite <- (Z.mod_small v (2 ^ n)) by done.
    enough (Z.lxor (v mod 2 ^ n) (2 ^ (n - 1)) = Z.lxor v (2 ^ (n - 1)) mod 2 ^ n) as ->.
    { apply Z.mod_pos_bound. lia. }
    apply Z.bits_inj'. intros i Hi. destruct (Z_lt_le_dec i n).
    - rewrite Z.mod_pow2_bits_low, !Z.lxor_spec, Z.mod_pow2_bits_low by lia. done.
    - rewrite Z.mod_pow2_bits_high, Z.lxor_spec, Z.mod_pow2_bits_high, Z.pow2_bits_false by lia. done.
  Qed.

Lemma fold_unary_sound op a c :
    canonical a = true -> fold_unary_constant op a = Some c ->
    canonical c = true /\ @evaluate_unary U op a = Some (Continues (RScalar c)).
  Proof.
    intros Ha Hf. destruct a as [b|signed bits v|v|v].
    - destruct op; simplify_eq/=; done.
    - pose proof (fold_integer_unary_language _ _ _ _ _ Ha Hf) as Hl.
      destruct (language_unary op signed bits (denote signed bits v)) as [o|] eqn:Ho; [|done]. simpl in Hl.
      destruct o as [c'|]; [|done]. injection Hl as ->. unfold canonical in Ha. split_andb. bool_to_prop.
      split; [by eapply language_unary_canonical|].
      destruct op; [|done|]; unfold evaluate_unary; by rewrite Ho.
    - destruct op; simplify_eq/=. split; [by apply (flip_sign 32)|]. apply fits_spec in Ha. by rewrite <- flip_is_negated.
    - destruct op; simplify_eq/=. split; [by apply (flip_sign 64)|]. apply fits_spec in Ha. by rewrite <- flip_is_negated.
  Qed.

Definition fold_binary_constant (op : BinaryOp) (l r : ScalarConstant) : option ScalarConstant :=
    match l, r with
    | CInteger ls lb lv, CInteger rs rb rv =>
        if negb (bool_decide (ls = rs)) || negb (lb =? rb) then None else fold_integer_binary op ls lb lv rv
    | _, _ => CBool <$> fold_comparison op l r
    end.

Lemma fold_binary_split op l r ty :
    fold_binary op l r ty types = (c ← fold_binary_constant op l r; constant_to_immediate c ty types).
  Proof.
    unfold fold_binary, fold_binary_constant.
    destruct l, r; try done; try (by destruct (fold_comparison _ _ _)). by destruct (_ || _).
  Qed.

Lemma fold_binary_sound op l r c :
    canonical l = true -> canonical r = true -> fold_binary_constant op l r = Some c ->
    canonical c = true /\ @evaluate_binary U op l r = Some (Continues (RScalar c)).
  Proof.
    intros Hl Hr Hf. assert (Hcmp : forall b, CBool b = c -> canonical c = true) by (by intros b <-).
    unfold evaluate_binary, fold_binary_constant in *. rewrite <- fold_comparison_language.
    destruct l as [|ls lb lv| |], r as [|rs rb rv| |];
      try (destruct (fold_comparison op _ _); simplify_eq/=; by eauto).
    case_bool_decide as Hs; [|done]. subst rs. simpl in *. destruct (Z.eqb_spec lb rb) as [E|]; [|done].
    subst rb. simpl in *. apply fold_integer_binary_language_Some in Hf; [|done..]. rewrite Hf. split; [|done].
    unfold canonical in Hl. split_andb. bool_to_prop. by eapply language_canonical.
  Qed.

Definition canonical_constants (constants : Constants) : Prop :=
    forall v c, constant v constants = Some c -> canonical c = true.

Lemma known_canonical vals bs constants : known vals bs constants -> canonical_constants constants.
  Proof. intros Hk v c Hc. by destruct (Hk v c Hc) as (? & ? & ? & _ & _ & _ & _ & _ & ?). Qed.

Lemma constant_to_immediate_fits c ty im :
    constant_to_immediate c ty types = Some im -> exists k, kind_of types ty = Some k /\ scalar_fits c k = true.
  Proof.
    unfold constant_to_immediate. destruct (kind_of types ty) as [k|]; [|done]. simpl. intros H. exists k.
    split; [done|]. destruct c, k as [|[| |s b| | |]| | | | | | | | | | | | | | | | |]; try done. simpl.
    by destruct (bool_decide _ && _).
  Qed.

Lemma agrees_operand constants e v c x :
    agrees constants e -> constant v constants = Some c -> e !! v = Some x -> x = RScalar c.
  Proof. intros Ha Hc Hx. by eapply Ha. Qed.

  (** The constant an operation folds to is the one it computes. *)
Lemma fold_operation_sound constants op ty im :
    canonical_constants constants -> fold_operation op ty constants types = Some im ->
    exists c, canonical c = true /\ constant_from_immediate im ty types = Some c
      /\ forall e lop, agrees constants e -> traverse_operation (fun v => e !! v) op = Some lop ->
           check_of lop = None /\ evaluate other types ty lop = Some (Continues (RScalar c)).
  Proof.
    intros Hcan Hf. destruct op; try done; simpl in Hf.
    - destruct (constant value constants) as [a|] eqn:Ha; [|done]. simpl in Hf. unfold fold_unary in Hf.
      destruct (fold_unary_constant op a) as [c|] eqn:Hc; [|done]. simpl in Hf.
      destruct (fold_unary_sound op a c) as [Hcc Hev]; [by eapply Hcan|done|].
      exists c. split; [done|]. split; [by apply immediate_reads_back|]. intros e lop He Ht.
      simpl in Ht. destruct (e !! value) as [x|] eqn:Hx; [|done]. injection Ht as <-.
      rewrite (agrees_operand _ _ _ _ _ He Ha Hx). simpl. by rewrite Hev.
    - destruct (constant left_ constants) as [l|] eqn:Hl; [|done]. simpl in Hf.
      destruct (constant right_ constants) as [r|] eqn:Hr; [|done]. simpl in Hf.
      rewrite fold_binary_split in Hf.
      destruct (fold_binary_constant op l r) as [c|] eqn:Hc; [|done]. simpl in Hf.
      destruct (fold_binary_sound op l r c) as [Hcc Hev]; [by eapply Hcan..|done|].
      exists c. split; [done|]. split; [by apply immediate_reads_back|]. intros e lop He Ht.
      simpl in Ht. destruct (e !! left_) as [x|] eqn:Hx; [|done]. simpl in Ht.
      destruct (e !! right_) as [y|] eqn:Hy; [|done]. injection Ht as <-.
      rewrite (agrees_operand _ _ _ _ _ He Hl Hx), (agrees_operand _ _ _ _ _ He Hr Hy).
      simpl. by rewrite Hev.
    - destruct mode; try done. destruct (N.eqb_spec to ty) as [->|]; [|done].
      destruct (constant value constants) as [c|] eqn:Hc; [|done]. simpl in Hf.
      exists c. split; [by eapply Hcan|]. split; [apply immediate_reads_back; [by eapply Hcan|done]|].
      intros e lop He Ht. simpl in Ht. destruct (e !! value) as [x|] eqn:Hx; [|done]. injection Ht as <-.
      rewrite (agrees_operand _ _ _ _ _ He Hc Hx). split; [done|].
      destruct (constant_to_immediate_fits c ty im Hf) as (k & Hk & Hfit). simpl. rewrite Hk. simpl.
      by rewrite N.eqb_refl, Hfit.
    - destruct (constant condition constants) as [[b| | |]|] eqn:Hb; try done. simpl in Hf.
      destruct (constant (if b then then_value else else_value) constants) as [c|] eqn:Hc; [|done]. simpl in Hf.
      exists c. split; [by eapply Hcan|]. split; [apply immediate_reads_back; [by eapply Hcan|done]|].
      intros e lop He Ht. simpl in Ht. destruct (e !! condition) as [x|] eqn:Hx; [|done]. simpl in Ht.
      destruct (e !! then_value) as [y|] eqn:Hy; [|done]. simpl in Ht.
      destruct (e !! else_value) as [z|] eqn:Hz; [|done]. injection Ht as <-.
      rewrite (agrees_operand _ _ _ _ _ He Hb Hx). split; [done|]. simpl. do 2 f_equal.
      destruct b; by eapply agrees_operand.
  Qed.

End fold.

(** ** Runs that return

    A pass is looked at either in any environment ([may_returnS]) or in one that
    has memory for every integer; [refusing] is what an allocation that fails
    says of the environment. *)
Class judges (returns : forall A, pass A -> Session -> A -> Session -> Prop) (refusing : Prop) := {
  judges_bind {A B} (m : pass A) (f : A -> pass B) s b s' :
    returns B (m ≫= f) s b s' -> exists a s1, returns A m s a s1 /\ returns B (f a) s1 b s';
  judges_return {A} (m : pass A) s a s' : returns A m s a s' -> may_returnS m s a s';
  judges_memory s failed s' : returns bool (liftS (Ask Reserve Ret)) s failed s' -> failed = true -> refusing;
}.

Definition returns_undisturbed A (m : pass A) (s : Session) (a : A) (s' : Session) : Prop := quiet (m s) = Ok (a, s').

#[export] Instance judges_any : judges (@may_returnS Session OptimizeError) True.
Proof. split; [|done|done]. intros A B m f s b s'. apply may_returnS_bind. Qed.

#[export] Instance judges_undisturbed : judges returns_undisturbed False.
Proof.
  split.
  - intros A B m f s b s'. unfold returns_undisturbed, mbind at 1, stateT_bind. rewrite quiet_bind_Ok. intros ([a s1] & H). eauto.
  - intros A m s a s' H. by apply quiet_may_return.
  - intros s failed s' [= <- _]. done.
Qed.

Section folding.
  Context (types : list FlowType) (Htypes : types_ok types).

Lemma fold_operation_constant constants op ty im :
    canonical_constants constants -> fold_operation op ty constants types = Some im ->
    exists c, canonical c = true /\ constant_from_immediate im ty types = Some c.
  Proof.
    intros Hc Hf. destruct (fold_operation_sound (U := unit) (fun _ => None) types constants op ty im Hc Hf)
      as (c & ? & ? & _). eauto.
  Qed.

  (** ** Folding one instruction of a function *)

Definition replaces (i i' : Instruction) (bs bs' : list Block) : Prop :=
    exists pre b post ipre ipost,
      bs = pre ++ b :: post /\ instructions b = ipre ++ i :: ipost
      /\ bs' = pre ++ with_instructions b (ipre ++ i' :: ipost) :: post.

Inductive fold_one (vals : list Value) : list Block * Constants -> list Block * Constants -> Prop :=
  | fold_one_intro bs bs' constants i r im c :
      fold_to types vals constants i = Some (r, im, c) ->
      replaces i (with_operation i (ImmediateOp im)) bs bs' ->
      fold_one vals (bs, constants) (bs', <[N.to_nat r := Some c]> constants).

Lemma folded_immediate_Some vals constants i im :
    folded_immediate types vals constants i = Some im ->
    is_immediate i = false /\ exists r ty, results i = [r] /\ type_of_value vals r = Some ty
      /\ fold_operation (operation i) ty constants types = Some im.
  Proof.
    unfold folded_immediate, is_immediate, single_result. intros H.
    assert (H' : match operation i with ImmediateOp _ => true | _ => false end = false
      /\ (r ← match results i with [r] => Some r | _ => None end; ty ← type_of_value vals r;
          fold_operation (operation i) ty constants types) = Some im) by (destruct (operation i); split; done || exact H).
    destruct H' as [-> H']. split; [done|]. destruct (results i) as [|r [|]]; try done. simpl in H'.
    destruct (type_of_value vals r) as [ty|] eqn:Ht; [|done]. simpl in H'. exists r, ty. done.
  Qed.

Lemma fold_to_Some vals constants i r im c :
    fold_to types vals constants i = Some (r, im, c) ->
    is_immediate i = false /\ results i = [r] /\ exists ty, type_of_value vals r = Some ty
      /\ fold_operation (operation i) ty constants types = Some im
      /\ constant_from_immediate im ty types = Some c.
  Proof.
    unfold fold_to. intros (im' & Him & H)%bind_Some.
    apply folded_immediate_Some in Him as (Hi & r' & ty & Hr & Ht & Hf). unfold single_result in H. rewrite Hr in H.
    simpl in H. rewrite Ht in H. simpl in H. apply bind_Some in H as (c' & Hc & [= <- <- <-]). eauto 6.
  Qed.

Lemma replaces_definitions i i' ps bs bs' :
    results i' = results i -> replaces i i' bs bs' -> definitions ps bs' = definitions ps bs.
  Proof.
    intros Hr (pre & b & post & ipre & ipost & -> & Hb & ->). unfold definitions. f_equal.
    rewrite !map_app, !concat_app. simpl. do 2 f_equal. unfold block_definitions. simpl. rewrite Hb.
    f_equal. rewrite !map_app, !concat_app. simpl. by rewrite Hr.
  Qed.

Lemma replaces_occurs i i' bs bs' j : replaces i i' bs bs' -> occurs j bs -> j = i \/ occurs j bs'.
  Proof.
    intros (pre & b & post & ipre & ipost & -> & Hb & ->) (b0 & Hb0 & Hj).
    apply elem_of_app in Hb0 as [Hb0|[->|Hb0]%elem_of_cons].
    - right. exists b0. split; [|done]. apply elem_of_app. by left.
    - rewrite Hb in Hj. apply elem_of_app in Hj as [Hj|[->|Hj]%elem_of_cons]; [|by left|];
        right; eexists; (split; [apply elem_of_app; right; by left|]); simpl; apply elem_of_app;
        [by left|right; by right].
    - right. exists b0. split; [|done]. apply elem_of_app. right. by right.
  Qed.

Lemma replaces_occurs_inv i i' bs bs' j : replaces i i' bs bs' -> occurs j bs' -> j = i' \/ occurs j bs.
  Proof.
    intros (pre & b & post & ipre & ipost & -> & Hb & ->) (b0 & Hb0 & Hj).
    apply elem_of_app in Hb0 as [Hb0|[->|Hb0]%elem_of_cons].
    - right. exists b0. split; [|done]. apply elem_of_app. by left.
    - simpl in Hj. apply elem_of_app in Hj as [Hj|[->|Hj]%elem_of_cons]; [|by left|];
        right; exists b; (split; [apply elem_of_app; right; by left|]); rewrite Hb; apply elem_of_app;
        [by left|right; by right].
    - right. exists b0. split; [|done]. apply elem_of_app. right. by right.
  Qed.

Lemma replaces_new i i' bs bs' : replaces i i' bs bs' -> occurs i' bs'.
  Proof.
    intros (pre & b & post & ipre & ipost & _ & _ & ->). eexists. split; [apply elem_of_app; right; by left|].
    simpl. apply elem_of_app. right. by left.
  Qed.

Lemma constant_insert v w c c' constants :
    constant v (<[N.to_nat w := Some c]> constants) = Some c' ->
    (v = w /\ c' = c) \/ (v <> w /\ constant v constants = Some c').
  Proof.
    unfold constant. destruct (<[N.to_nat w := Some c]> constants !! N.to_nat v) as [o|] eqn:E; [|done].
    simpl. intros ->. apply list_lookup_insert_Some in E as [(E & [= ->] & _)|(E & H)].
    - left. split; [|done]. by apply N2Nat.inj.
    - right. split; [by intros ->|]. by rewrite H.
  Qed.

Lemma fold_one_known ps vals bs constants bs' constants' :
    NoDup (definitions ps bs) -> known types vals bs constants ->
    fold_one vals (bs, constants) (bs', constants') ->
    definitions ps bs' = definitions ps bs /\ known types vals bs' constants'.
  Proof.
    intros Hn Hk Hf. inversion Hf as [? ? ? i r im c Hto Hrep]; subst.
    apply fold_to_Some in Hto as (Himm & Hres & ty & Hty & Hfold & Hc).
    split; [by eapply replaces_definitions; [|done]|].
    intros v c' [[-> ->]|[Hne Hv]]%constant_insert.
    - exists (with_operation i (ImmediateOp im)), im, ty. split_and!; try done; [by eapply replaces_new|].
      destruct (fold_operation_constant constants _ ty im (known_canonical _ _ _ _ Hk) Hfold) as (c0 & ? & Hc0).
      by simplify_eq.
    - destruct (Hk v c' Hv) as (j & jm & jty & Hj & Hjr & Hjo & ?). exists j, jm, jty. split; [|done].
      destruct (replaces_occurs _ _ _ _ j Hrep Hj) as [->|]; [|done]. unfold is_immediate in Himm. by rewrite Hjo in Himm.
  Qed.

Lemma block_refines_refl {U} (other : FlowOperation (rvalue U) -> option (rvalue U)) f P b :
    block_refines other types f P b b.
  Proof.
    split; [done| |by right]. induction (instructions b); constructor; [by right|done].
  Qed.

Lemma fold_one_refines {U} (other : FlowOperation (rvalue U) -> option (rvalue U)) f constants bs' constants' :
    single_assignment f -> known types (values f) (blocks f) constants ->
    fold_one (values f) (blocks f, constants) (bs', constants') ->
    refines other types f (with_blocks f bs').
  Proof.
    intros Hn Hk Hf. apply (refines_pointwise other types (agrees constants)); [done..| | |].
    2: { intros arguments s. by apply start_agrees. }
    2: { intros s s1. by apply successor_agrees. }
    inversion Hf as [? ? ? i r im c Hto (pre & b & post & ipre & ipost & Hbs & Hb & Hbs')]; subst.
    simpl. rewrite Hbs. apply fold_to_Some in Hto as (Himm & Hres & ty & Hty & Hfold & Hc).
    apply Forall2_app; [|constructor]; [| |].
    1, 3: apply Forall_Forall2_diag, Forall_true; intros; apply block_refines_refl.
    split; [done| |by right]. simpl. rewrite Hb. apply Forall2_app; [|constructor].
    1, 3: apply Forall_Forall2_diag, Forall_true; intros; by right.
    intros s Ha. unfold react_instruction.
    destruct (traverse_operation (fun v => env s !! v) (operation i)) as [lop|] eqn:Ht; [|by left]. right.
    destruct (fold_operation_sound other types constants _ ty im (known_canonical _ _ _ _ Hk) Hfold)
      as (c0 & _ & Hc0 & Hsound).
    simplify_eq. destruct (Hsound (env s) lop Ha Ht) as [Hcheck Hev].
    unfold react_operation. simpl. rewrite Hcheck.
    assert (Hrt : result_type (values f) i = Some ty) by (unfold result_type; by rewrite Hres).
    assert (Hrt' : result_type (values f) (with_operation i (ImmediateOp im)) = Some ty) by done.
    rewrite Hrt, Hrt'. cbn [mbind option_bind]. rewrite Hev. simpl. by rewrite <- constant_from_immediate_language, Hc.
  Qed.

  (** ** What a pass that returns has done *)

  (** The outcome of a loop whose body relates what it is given to what it makes. *)
Inductive threads {X Y T} (step : T -> X -> Y * T -> Prop) : list X -> T -> list Y * T -> Prop :=
  | threads_nil t : threads step [] t ([], t)
  | threads_cons x xs t y t1 ys t2 :
      step t x (y, t1) -> threads step xs t1 (ys, t2) -> threads step (x :: xs) t (y :: ys, t2).

  Context {returns : forall A, pass A -> Session -> A -> Session -> Prop} {refusing : Prop}.
  Context `{!judges returns refusing}.

Lemma map_accum_threads {X Y T} (step : T -> X -> pass (Y * T)) (R : T -> X -> Y * T -> Prop) xs t s r s' :
    (forall t x s r s', returns _ (step t x) s r s' -> R t x r) ->
    returns _ (map_accum step xs t) s r s' -> threads R xs t r.
  Proof.
    intros Hp. revert t s r s'. induction xs as [|x xs IH]; intros t s r s'; cbn [map_accum].
    - intros [<- _]%judges_return%may_returnS_mret. constructor.
    - intros ([y t1] & s1 & Hx%Hp & H)%judges_bind. apply judges_bind in H as ([ys t2] & s2 & Hxs%IH & H).
      apply judges_return, may_returnS_mret in H as [<- _]. by econstructor.
  Qed.

Lemma fold_each_pure {X T} (step : T -> X -> pass T) (p : T -> X -> T) xs t s r s' :
    (forall t x s r s', may_returnS (step t x) s r s' -> r = p t x) ->
    may_returnS (fold_each step xs t) s r s' -> r = foldl p t xs.
  Proof.
    intros Hp. revert t s. induction xs as [|x xs IH]; intros t s; cbn [fold_each foldl].
    - by intros [<- _]%may_returnS_mret.
    - intros (t1 & s1 & Hx & H)%may_returnS_bind. apply Hp in Hx as <-. by eapply IH.
  Qed.

  (** An instruction is left as it is when nothing folds it, or for want of memory. *)
Definition folds_instruction (vals : list Value) (acc : Constants * bool) (i : Instruction)
      (r : Instruction * (Constants * bool)) : Prop :=
    (fold_to types vals acc.1 i = None \/ refusing) /\ r = (i, acc)
    \/ exists v im c, fold_to types vals acc.1 i = Some (v, im, c)
         /\ r = (with_operation i (ImmediateOp im), (<[N.to_nat v := Some c]> acc.1, true)).

Definition folds_block (vals : list Value) (acc : Constants * bool) (b : Block) (r : Block * (Constants * bool)) : Prop :=
    exists ins acc', r = (with_instructions b ins, acc') /\ threads (folds_instruction vals) (instructions b) acc (ins, acc').

Definition seed_instruction_pure (vals : list Value) (constants : Constants) (i : Instruction) : Constants :=
    match single_result i, operation i with
    | Some r, ImmediateOp im =>
        match ty ← type_of_value vals r; constant_from_immediate im ty types with
        | Some c => <[N.to_nat r := Some c]> constants
        | None => constants
        end
    | _, _ => constants
    end.
Definition seed_pure (vals : list Value) (bs : list Block) (constants : Constants) : Constants :=
    foldl (fun constants b => foldl (seed_instruction_pure vals) constants (instructions b)) constants bs.

Lemma fold_succeeds_false folded s s' :
    returns _ (fold_succeeds folded) s false s' -> folded = None \/ refusing.
  Proof.
    destruct folded as [[]|]; simpl; try (by intros [? _]%judges_return%may_returnS_mret); [|by left].
    intros (failed & s1 & Hf & H)%judges_bind. right.
    apply judges_return, may_returnS_mret in H as [Hn%negb_false_iff _]. by eapply judges_memory.
  Qed.

Lemma fold_instruction_returns function vals acc i s r s' :
    returns _ (fold_instruction types function vals acc i) s r s' -> folds_instruction vals acc i r.
  Proof.
    unfold fold_instruction. intros (_ & s1 & _ & H)%judges_bind. apply judges_bind in H as (folds & s2 & Hf & H).
    destruct folds; [destruct (fold_to types vals acc.1 i) as [[[r0 im] c]|] eqn:Hto|].
    - apply judges_bind in H as (? & ? & _ & H). apply judges_bind in H as (? & ? & _ & H).
      apply judges_return, may_returnS_mret in H as [<- _]. right. eauto 6.
    - apply judges_return, may_returnS_mret in H as [<- _]. left. eauto.
    - apply judges_return, may_returnS_mret in H as [<- _]. left. split; [|done].
      apply fold_succeeds_false in Hf as [Hn|?]; [left|by right]. unfold fold_to. by rewrite Hn.
  Qed.

Lemma fold_block_returns function vals acc b s r s' :
    returns _ (fold_block types function vals acc b) s r s' -> folds_block vals acc b r.
  Proof.
    unfold fold_block. intros (_ & s1 & _ & H)%judges_bind. apply judges_bind in H as ([ins acc'] & s2 & Hm & H).
    apply judges_return, may_returnS_mret in H as [<- _]. exists ins, acc'. split; [done|].
    eapply map_accum_threads; [|done]. intros. by eapply fold_instruction_returns.
  Qed.

Lemma seed_returns f constants s r s' :
    may_returnS (seed_immediates types f constants) s r s' -> r = seed_pure (values f) (blocks f) constants.
  Proof.
    apply fold_each_pure. clear. intros constants b s r s' (_ & s1 & _ & H)%may_returnS_bind.
    revert H. apply fold_each_pure. clear. intros constants i s r s' (_ & s1 & _ & H)%may_returnS_bind.
    unfold seed_instruction_pure. revert H.
    destruct (single_result i) as [v|], (operation i); try (by intros [<- _]%may_returnS_mret).
    destruct (type_of_value (values f) v) as [ty|]; simpl; [|by intros [<- _]%may_returnS_mret].
    destruct (constant_from_immediate _ ty types); by intros [<- _]%may_returnS_mret.
  Qed.

  (** A round is a sequence of single folds, and says truly whether it is empty. *)
Lemma with_instructions_same b : with_instructions b (instructions b) = b.
  Proof. by destruct b. Qed.

Lemma block_work_replace b ipre i i' ipost :
    instructions b = ipre ++ i :: ipost -> is_immediate i = false -> is_immediate i' = true ->
    block_work b = S (block_work (with_instructions b (ipre ++ i' :: ipost))).
  Proof.
    intros Hb Hi Hi'. unfold block_work. simpl. rewrite Hb, !List.filter_app, !length_app. simpl.
    rewrite Hi, Hi'. simpl. lia.
  Qed.

Lemma fold_one_work vals bs constants bs' constants' :
    fold_one vals (bs, constants) (bs', constants') -> total_work bs = S (total_work bs').
  Proof.
    inversion 1 as [? ? ? i r im c Hto (pre & b & post & ipre & ipost & -> & Hb & ->)]; subst.
    apply fold_to_Some in Hto as (Himm & _). unfold total_work. rewrite !sum_list_with_app. simpl.
    rewrite (block_work_replace b ipre i (with_operation i (ImmediateOp im)) ipost) by done. lia.
  Qed.

Lemma fold_instructions_steps vals pre b post ipre ins acc ins' acc' :
    threads (folds_instruction vals) ins acc (ins', acc') ->
    exists n,
      nsteps (fold_one vals) n
        (pre ++ with_instructions b (ipre ++ ins) :: post, acc.1)
        (pre ++ with_instructions b (ipre ++ ins') :: post, acc'.1)
      /\ acc'.2 = acc.2 || (0 <? n)%nat
      /\ (n = 0%nat -> ins' = ins /\ acc'.1 = acc.1
            /\ Forall (fun i => fold_to types vals acc.1 i = None \/ refusing) ins).
  Proof.
    intros H. remember (ins', acc') as r eqn:Hr. revert ipre ins' acc' Hr.
    induction H as [acc|i ins acc i' acc1 ys acc2 Hi H IH]; intros ipre ins' acc' [= <- <-].
    - exists 0%nat. rewrite orb_false_r. split_and!; [constructor|done|done].
    - destruct Hi as [[Hnone [= -> ->]]|(r & im & c & Hto & [= -> ->])].
      + destruct (IH (ipre ++ [i]) _ _ eq_refl) as (n & Hn & Hch & H0). rewrite <- !app_assoc in Hn. cbn [app] in Hn.
        exists n. split_and!; [done|done|]. intros ->. destruct H0 as (-> & -> & Hall); [done|].
        split_and!; [done|done|]. by constructor.
      + destruct (IH (ipre ++ [with_operation i (ImmediateOp im)]) _ _ eq_refl) as (n & Hn & Hch & _).
        exists (S n). split_and!; [|by rewrite Hch, orb_true_r|done].
        rewrite <- !app_assoc in Hn. cbn [app] in Hn. eapply nsteps_l; [|exact Hn].
        econstructor; [exact Hto|]. exists pre, (with_instructions b (ipre ++ i :: ins)), post, ipre, ins. done.
  Qed.

Lemma fold_blocks_steps vals pre bs acc bs' acc' :
    threads (folds_block vals) bs acc (bs', acc') ->
    exists n,
      nsteps (fold_one vals) n (pre ++ bs, acc.1) (pre ++ bs', acc'.1)
      /\ acc'.2 = acc.2 || (0 <? n)%nat
      /\ (n = 0%nat -> bs' = bs /\ acc'.1 = acc.1
            /\ forall i, occurs i bs -> fold_to types vals acc.1 i = None \/ refusing).
  Proof.
    intros H. remember (bs', acc') as r eqn:Hr. revert pre bs' acc' Hr.
    induction H as [acc|b bs acc b' acc1 ys acc2 Hb H IH]; intros pre bs' acc' [= <- <-].
    - exists 0%nat. rewrite orb_false_r. split_and!; [constructor|done|].
      intros _. split_and!; [done..|]. intros i (b & Hb & _). by apply not_elem_of_nil in Hb.
    - destruct Hb as (ins & ? & [= -> <-] & Hi).
      destruct (fold_instructions_steps vals pre b bs [] _ _ _ _ Hi) as (n1 & Hn1 & Hch1 & H1).
      rewrite !app_nil_l, with_instructions_same in Hn1.
      destruct (IH (pre ++ [with_instructions b ins]) _ _ eq_refl) as (n2 & Hn2 & Hch2 & H2).
      rewrite <- !app_assoc in Hn2. exists (n1 + n2)%nat. split_and!.
      + by eapply nsteps_trans.
      + rewrite Hch2, Hch1, <- orb_assoc. f_equal. by destruct n1.
      + intros Hz. destruct H1 as (-> & E1 & Hall); [lia|]. destruct H2 as (-> & E2 & Hrest); [lia|].
        rewrite with_instructions_same, E2, E1. split_and!; [done..|].
        intros i (b0 & [->|Hb0]%elem_of_cons & Hi0); [by rewrite Forall_forall in Hall; apply Hall|].
        rewrite <- E1. apply Hrest. by exists b0.
  Qed.

Lemma fold_steps f n bs constants bs' constants' :
    NoDup (definitions (parameters f) bs) -> known types (values f) bs constants ->
    nsteps (fold_one (values f)) n (bs, constants) (bs', constants') ->
    definitions (parameters f) bs' = definitions (parameters f) bs /\ known types (values f) bs' constants'
    /\ (forall U other, @refines U other types (with_blocks f bs) (with_blocks f bs'))
    /\ total_work bs = (n + total_work bs')%nat.
  Proof.
    revert bs constants. induction n as [|n IH]; intros bs constants Hd Hk H.
    - inversion H; subst. split_and!; [done..| |done]. intros U other. reflexivity.
    - inversion H as [|? ? [bs1 c1] ? H1 Hn]; subst.
      destruct (fold_one_known (parameters f) _ _ _ _ _ Hd Hk H1) as [Hd1 Hk1].
      assert (NoDup (definitions (parameters f) bs1)) as Hn1 by by rewrite Hd1.
      destruct (IH bs1 c1 Hn1 Hk1 Hn) as (Hd' & Hk' & Hr & Hw). split_and!; [congruence|done| |].
      + intros U other. etransitivity; [|exact (Hr U other)].
        exact (fold_one_refines other (with_blocks f bs) _ _ _ Hd Hk H1).
      + rewrite (fold_one_work _ _ _ _ _ H1), Hw. lia.
  Qed.

  (** ** The loop *)

Lemma unfoldable vals constants i :
    canonical_constants constants -> fold_to types vals constants i = None -> foldable types vals constants i = false.
  Proof.
    intros Hc Hto. apply bool_decide_eq_false. intros [im Him]. unfold fold_to in Hto. rewrite Him in Hto. simpl in Hto.
    apply folded_immediate_Some in Him as (_ & r & ty & Hr & Ht & Hf). unfold single_result in Hto. rewrite Hr in Hto.
    simpl in Hto. rewrite Ht in Hto. simpl in Hto.
    destruct (fold_operation_constant constants _ _ _ Hc Hf) as (c & _ & Hc'). by rewrite Hc' in Hto.
  Qed.

Lemma any_instruction_false test ins s s' :
    returns _ (any_instruction test ins) s false s' -> Forall (fun i => exists s1 s2, returns _ (test i) s1 false s2) ins.
  Proof.
    revert s. induction ins as [|i ins IH]; intros s; simpl; [constructor|].
    intros (_ & s1 & _ & H)%judges_bind. apply judges_bind in H as ([] & s2 & Hi & H).
    - by apply judges_return, may_returnS_mret in H as [? _].
    - constructor; [by do 2 eexists|]. by eapply IH.
  Qed.

Lemma has_foldable_false vals constants bs s s' :
    returns _ (has_foldable_scalar_operation types vals constants bs) s false s' ->
    forall i, occurs i bs -> foldable types vals constants i = false \/ refusing.
  Proof.
    revert s. induction bs as [|b bs IH]; intros s; simpl.
    - intros _ i (b & Hb & _). by apply not_elem_of_nil in Hb.
    - intros (_ & s1 & _ & H)%judges_bind. apply judges_bind in H as ([] & s2 & Ha & H).
      + by apply judges_return, may_returnS_mret in H as [? _].
      + intros i (b0 & [->|Hb]%elem_of_cons & Hi).
        * apply any_instruction_false in Ha. rewrite Forall_forall in Ha. destruct (Ha i Hi) as (? & ? & Hf).
          apply fold_succeeds_false in Hf as [Hn|?]; [left|by right]. unfold foldable. by rewrite Hn.
        * eapply IH; [done|]. by exists b0.
  Qed.

Lemma round_returns function vals bs constants s r s' :
    returns _ (map_accum (fold_block types function vals) bs (constants, false)) s r s' ->
    exists n bs1 c1, r = (bs1, (c1, (0 <? n)%nat)) /\ nsteps (fold_one vals) n (bs, constants) (bs1, c1)
      /\ (n = 0%nat -> bs1 = bs /\ c1 = constants
            /\ forall i, occurs i bs -> fold_to types vals constants i = None \/ refusing).
  Proof.
    intros Hr. eapply (map_accum_threads _ (folds_block vals)) in Hr; [|intros; by eapply fold_block_returns].
    destruct r as [bs1 [c1 ch]]. destruct (fold_blocks_steps vals [] bs _ _ _ Hr) as (n & Hn & Hch & H0).
    simpl in Hch. subst ch. by exists n, bs1, c1.
  Qed.

Lemma fold_loop_returns f fuel maximum function bs constants changed iterations s bs' changed' iterations' s' :
    NoDup (definitions (parameters f) bs) -> known types (values f) bs constants ->
    returns _ (fold_loop fuel types maximum function (values f) bs constants changed iterations)
      s (bs', changed', iterations') s' ->
    exists n constants', nsteps (fold_one (values f)) n (bs, constants) (bs', constants')
      /\ changed' = changed || (0 <? n)%nat
      /\ forall i, occurs i bs' -> foldable types (values f) constants' i = false \/ refusing.
  Proof.
    revert bs constants changed iterations s. induction fuel as [|fuel IH];
      intros bs constants changed iterations s Hd Hk; cbn [fold_loop]; [by intros [? _]%judges_return%may_returnS_liftS|].
    intros (it & s1 & _ & H)%judges_bind. apply judges_bind in H as (r & s2 & Hr & H).
    apply round_returns in Hr as (n & bs1 & c1 & -> & Hn & H0).
    destruct (fold_steps f n _ _ _ _ Hd Hk Hn) as (Hd1 & Hk1 & _). destruct (0 <? n)%nat eqn:En; cbn [negb] in H.
    - destruct (it =? maximum).
      + apply judges_bind in H as ([] & s3 & Hm & H); [by apply judges_return, may_returnS_liftS in H as [? _]|].
        apply judges_return, may_returnS_mret in H as [[= <- <- <-] _]. exists n, c1. rewrite En. split_and!; [done..|].
        by eapply has_foldable_false.
      + rewrite <- Hd1 in Hd. apply IH in H as (m & c2 & Hm & -> & Hno); [|done..].
        exists (n + m)%nat, c2. split_and!; [by eapply nsteps_trans| |done].
        rewrite orb_true_r. symmetry. apply orb_true_iff. right. apply Nat.ltb_lt. apply Nat.ltb_lt in En. lia.
    - apply judges_return, may_returnS_mret in H as [[= <- <- <-] _]. exists n, c1. rewrite En. split_and!; [done..|].
      apply Nat.ltb_ge in En. destruct H0 as (-> & -> & Hnone); [lia|]. intros i Hi.
      destruct (Hnone i Hi) as [Hto|?]; [left|by right]. apply unfoldable; [by eapply known_canonical|done].
  Qed.

  (** ** Seeding *)

Definition immediates_ok (bs : list Block) : Prop :=
    forall i im, occurs i bs -> operation i = ImmediateOp im -> immediate_ok im = true.

  (** Every immediate that defines a value is in the table. *)
Definition complete (vals : list Value) (bs : list Block) (constants : Constants) : Prop :=
    forall i v im ty c, occurs i bs -> results i = [v] -> operation i = ImmediateOp im ->
      type_of_value vals v = Some ty -> constant_from_immediate im ty types = Some c ->
      constant v constants = Some c.

Lemma seed_instruction_known vals bs constants i :
    immediates_ok bs -> occurs i bs -> known types vals bs constants -> known types vals bs (seed_instruction_pure vals constants i).
  Proof.
    intros Hok Hi Hk. unfold seed_instruction_pure, single_result.
    destruct (results i) as [|v [|]] eqn:Hr; [done| |done]. destruct (operation i) eqn:Ho; try done.
    destruct (type_of_value vals v) as [ty|] eqn:Hty; [|done]. simpl.
    destruct (constant_from_immediate immediate ty types) as [c|] eqn:Hc; [|done].
    intros w c' [[-> ->]|[_ Hw]]%constant_insert; [|by apply Hk].
    exists i, immediate, ty. split_and!; try done. eapply constant_canonical; [done| |done]. by eapply Hok.
  Qed.

Lemma seed_known_within vals bs todo constants :
    immediates_ok bs -> (forall b, b ∈ todo -> b ∈ bs) -> known types vals bs constants ->
    known types vals bs (seed_pure vals todo constants).
  Proof.
    intros Hok. assert (Hins : forall ins constants, Forall (fun i => occurs i bs) ins -> known types vals bs constants ->
              known types vals bs (foldl (seed_instruction_pure vals) constants ins)).
    { intros ins c Hins. revert c. induction Hins; intros c Hc; [done|]. by apply IHHins, seed_instruction_known. }
    unfold seed_pure. revert constants. induction todo as [|b todo IH]; intros constants Hsub Hk; simpl; [done|].
    apply IH; [intros b' Hb'; apply Hsub; by right|]. apply Hins; [|done].
    apply Forall_forall. intros i Hi. exists b. split; [apply Hsub; by left|done].
  Qed.

Lemma seed_known vals bs constants :
    immediates_ok bs -> known types vals bs constants -> known types vals bs (seed_pure vals bs constants).
  Proof. intros. by apply seed_known_within. Qed.

Lemma known_empty vals bs n : known types vals bs (replicate n None).
  Proof.
    intros v c. unfold constant. destruct (replicate n None !! N.to_nat v) as [o|] eqn:E; [|done].
    apply lookup_replicate in E as [-> _]. done.
  Qed.

  (** ** The table of a folded function is the table its immediates give *)

Lemma constant_inserted r c constants :
    (N.to_nat r < length constants)%nat -> constant r (<[N.to_nat r := Some c]> constants) = Some c.
  Proof. intros Hl. unfold constant. by rewrite list_lookup_insert_eq. Qed.

Lemma constant_kept v r o constants : v <> r -> constant v (<[N.to_nat r := o]> constants) = constant v constants.
  Proof. intros Hne. unfold constant. rewrite list_lookup_insert_ne; [done|]. by intros ?%N2Nat.inj. Qed.

Lemma type_of_value_range vals v ty : type_of_value vals v = Some ty -> (N.to_nat v < length vals)%nat.
  Proof. unfold type_of_value. intros (x & Hx & _)%fmap_Some. by eapply lookup_lt_Some. Qed.

Lemma seed_instruction_length vals constants i : length (seed_instruction_pure vals constants i) = length constants.
  Proof.
    unfold seed_instruction_pure. destruct (single_result i), (operation i); try done.
    destruct (_ ≫= _); [apply length_insert|done].
  Qed.

Lemma seed_instruction_records vals constants i v im ty c :
    length constants = length vals -> results i = [v] -> operation i = ImmediateOp im ->
    type_of_value vals v = Some ty -> constant_from_immediate im ty types = Some c ->
    constant v (seed_instruction_pure vals constants i) = Some c.
  Proof.
    intros Hl Hr Ho Ht Hc. unfold seed_instruction_pure, single_result. rewrite Hr, Ho, Ht. simpl. rewrite Hc.
    apply constant_inserted. rewrite Hl. by eapply type_of_value_range.
  Qed.

  Section table.
  Context (ps : list ValueId) (vals : list Value) (bs : list Block).
  Context (Hssa : NoDup (definitions ps bs)) (Himm : immediates_ok bs).

Lemma seed_instruction_keeps constants i v c :
    known types vals bs constants -> length constants = length vals -> occurs i bs -> constant v constants = Some c ->
    constant v (seed_instruction_pure vals constants i) = Some c.
  Proof.
    intros Hk Hl Hi Hv. destruct (decide (v ∈ results i)) as [Hin|Hout].
    - destruct (Hk v c Hv) as (j & im & ty & Hj & Hr & Ho & Ht & Hc & _).
      assert (j = i) as -> by (eapply (one_definition ps bs); [done..| |done]; rewrite Hr; by left).
      by eapply seed_instruction_records.
    - unfold seed_instruction_pure, single_result. destruct (results i) as [|r [|]]; try done.
      destruct (operation i); try done. destruct (_ ≫= _); [|done].
      rewrite constant_kept; [done|]. intros ->. apply Hout. by left.
  Qed.

  (** Seeding within the blocks keeps what is known and records what it visits. *)
Lemma seed_instructions_record constants ins :
    known types vals bs constants -> length constants = length vals -> Forall (fun i => occurs i bs) ins ->
    let constants' := foldl (seed_instruction_pure vals) constants ins in
    length constants' = length vals /\ known types vals bs constants'
    /\ (forall v c, constant v constants = Some c -> constant v constants' = Some c)
    /\ forall i v im ty c, i ∈ ins -> results i = [v] -> operation i = ImmediateOp im ->
         type_of_value vals v = Some ty -> constant_from_immediate im ty types = Some c ->
         constant v constants' = Some c.
  Proof.
    intros Hk Hl Hins. revert constants Hk Hl. induction Hins as [|i ins Hi Hins IH]; intros constants Hk Hl; simpl.
    - split_and!; [done..|]. intros ? ? ? ? ? []%not_elem_of_nil.
    - destruct (IH (seed_instruction_pure vals constants i)) as (Hl' & Hk' & Hkeep & Hrec);
        [by apply seed_instruction_known|by rewrite seed_instruction_length|].
      split_and!; [done|done| |].
      + intros v c Hv. apply Hkeep. by apply seed_instruction_keeps.
      + intros j v im ty c [->|Hj]%elem_of_cons Hr Ho Ht Hc; [|by eapply Hrec].
        apply Hkeep. by eapply seed_instruction_records.
  Qed.

Lemma seed_records constants todo :
    known types vals bs constants -> length constants = length vals -> (forall b, b ∈ todo -> b ∈ bs) ->
    let constants' := seed_pure vals todo constants in
    length constants' = length vals
    /\ (forall v c, constant v constants = Some c -> constant v constants' = Some c)
    /\ forall i v im ty c, occurs i todo -> results i = [v] -> operation i = ImmediateOp im ->
         type_of_value vals v = Some ty -> constant_from_immediate im ty types = Some c ->
         constant v constants' = Some c.
  Proof.
    unfold seed_pure. revert constants. induction todo as [|b todo IH]; intros constants Hk Hl Hsub; simpl.
    - split_and!; [done..|]. intros ? ? ? ? ? (? & []%not_elem_of_nil & _).
    - assert (Hins : Forall (fun i => occurs i bs) (instructions b)).
      { apply Forall_forall. intros i Hi. exists b. split; [apply Hsub; by left|done]. }
      destruct (seed_instructions_record constants _ Hk Hl Hins) as (Hl1 & Hk1 & Hkeep1 & Hrec1).
      destruct (IH _ Hk1 Hl1) as (Hl2 & Hkeep2 & Hrec2); [intros b' Hb'; apply Hsub; by right|].
      split_and!; [done|by auto|]. intros i v im ty c (b0 & [->|Hb0]%elem_of_cons & Hi) Hr Ho Ht Hc.
      + apply Hkeep2. by eapply Hrec1.
      + eapply Hrec2; [by exists b0|done..].
  Qed.

Definition table : Constants := seed_pure vals bs (replicate (length vals) None).

Lemma table_ok : length table = length vals /\ known types vals bs table /\ complete vals bs table.
  Proof.
    destruct (seed_records (replicate (length vals) None) bs) as (Hl & _ & Hrec);
      [apply known_empty|apply length_replicate|done|].
    split_and!; [done|apply seed_known; [done|apply known_empty]|exact Hrec].
  Qed.

Lemma table_determined constants :
    length constants = length vals -> known types vals bs constants -> complete vals bs constants -> constants = table.
  Proof.
    intros Hl Hk Hc. destruct table_ok as (Hl' & Hk' & Hc').
    assert (Heq : forall v, constant v constants = constant v table).
    { intros v. apply option_eq. intros c. split; intros Hv.
      - destruct (Hk v c Hv) as (i & im & ty & ? & ? & ? & ? & ? & _). by eapply Hc'.
      - destruct (Hk' v c Hv) as (i & im & ty & ? & ? & ? & ? & ? & _). by eapply Hc. }
    apply list_eq_same_length with (length vals); [done..|]. intros k x y Hlt Hx Hy.
    specialize (Heq (N.of_nat k)). unfold constant in Heq. rewrite Nat2N.id, Hx, Hy in Heq. done.
  Qed.
  End table.

Lemma fold_one_complete ps vals bs constants bs' constants' :
    NoDup (definitions ps bs) -> length constants = length vals -> complete vals bs constants ->
    fold_one vals (bs, constants) (bs', constants') ->
    length constants' = length vals /\ complete vals bs' constants'.
  Proof.
    intros Hn Hl Hcomp Hf. inversion Hf as [? ? ? i r im c Hto Hrep]; subst.
    apply fold_to_Some in Hto as (Hi & Hres & ty & Hty & _ & Hc). split; [etransitivity; [apply length_insert|exact Hl]|].
    intros j v jm jty jc Hj Hjr Hjo Hjt Hjc. apply (replaces_occurs_inv _ _ _ _ _ Hrep) in Hj as [->|Hj].
    - simpl in Hjr, Hjo. rewrite Hres in Hjr. simplify_eq. apply constant_inserted.
      rewrite Hl. by eapply type_of_value_range.
    - rewrite constant_kept; [by eapply Hcomp|]. intros ->.
      assert (Hio : occurs i bs).
      { destruct Hrep as (pre & b & post & ipre & ipost & -> & Hb & _). exists b.
        split; [apply elem_of_app; right; by left|]. rewrite Hb. apply elem_of_app. right. by left. }
      assert (j = i) as ->.
      { eapply (one_definition ps bs j i r); [done..| |]; [rewrite Hjr|rewrite Hres]; by left. }
      unfold is_immediate in Hi. by rewrite Hjo in Hi.
  Qed.

Lemma immediate_ok_canonical im ty c :
    constant_from_immediate im ty types = Some c -> canonical c = true -> immediate_ok im = true.
  Proof.
    intros Hc Hcan. destruct im as [|v|v|bits bytes|v|v|v|z|v|v]; try done;
      unfold constant_from_immediate in Hc; destruct (kind_of types ty) as [k|] eqn:Hk; try done; simpl in Hc;
      destruct k as [|[| |sg tb| | |]| | | | | | | | | | | | | | | | |]; try done.
    - destruct (Z.eqb_spec bits tb) as [E|]; [|done]. subst tb.
      apply integer_kind_ok in Hk; [|done]. simpl. apply fits_spec. lia.
    - by injection Hc as <-.
    - by injection Hc as <-.
  Qed.

Lemma fold_one_immediates vals bs constants bs' constants' :
    known types vals bs constants -> immediates_ok bs -> fold_one vals (bs, constants) (bs', constants') -> immediates_ok bs'.
  Proof.
    intros Hk Hok Hf. inversion Hf as [? ? ? i r im c Hto Hrep]; subst.
    apply fold_to_Some in Hto as (Hi & Hres & ty & Hty & Hfold & Hc).
    intros j jm Hj Hjo. apply (replaces_occurs_inv _ _ _ _ _ Hrep) in Hj as [->|Hj]; [|by eapply Hok].
    simpl in Hjo. injection Hjo as <-.
    destruct (fold_operation_constant constants _ _ _ (known_canonical _ _ _ _ Hk) Hfold) as (c' & Hcan & Hc').
    by eapply immediate_ok_canonical.
  Qed.

  (** What a sequence of folds keeps. *)
Lemma fold_steps_table f n bs constants bs' constants' :
    NoDup (definitions (parameters f) bs) -> immediates_ok bs -> known types (values f) bs constants ->
    length constants = length (values f) -> complete (values f) bs constants ->
    nsteps (fold_one (values f)) n (bs, constants) (bs', constants') ->
    immediates_ok bs' /\ length constants' = length (values f) /\ complete (values f) bs' constants'.
  Proof.
    revert bs constants. induction n as [|n IH]; intros bs constants Hd Hok Hk Hl Hc H.
    - by inversion H; subst.
    - inversion H as [|? ? [bs1 c1] ? H1 Hn]; subst.
      destruct (fold_one_known (parameters f) _ _ _ _ _ Hd Hk H1) as [Hd1 Hk1].
      destruct (fold_one_complete (parameters f) _ _ _ _ _ Hd Hl Hc H1) as [Hl1 Hc1].
      apply (IH bs1 c1); [by rewrite Hd1|exact (fold_one_immediates _ _ _ _ _ Hk Hok H1)|done..].
  Qed.
End folding.

(** ** The pass *)

Definition well_formed (f : FlowFunction) : Prop := single_assignment f /\ immediates_ok (blocks f).

Lemma filled_vec_returns {T} n (x : T) resource limit s r s' :
  may_returnS (filled_vec n x resource limit) s r s' -> r = replicate n x.
Proof.
  unfold filled_vec. intros (_ & ? & _ & H)%may_returnS_bind. by apply may_returnS_mret in H as [<- _].
Qed.

Section function.
  Context {returns : forall A, pass A -> Session -> A -> Session -> Prop} {refusing : Prop}.
  Context `{!judges returns refusing}.

(** A fold of one function that returns is a sequence of single folds from the
    table of its immediates until nothing can be folded. *)
Lemma fold_function_returns types profile limits acc f s f' acc' s' :
  types_ok types -> well_formed f ->
  returns _ (fold_function types profile limits acc f) s (f', acc') s' ->
  exists n constants', f' = with_blocks f (blocks f')
    /\ nsteps (fold_one types (values f)) n (blocks f, table types (values f) (blocks f)) (blocks f', constants')
    /\ acc'.1 = acc.1 || (0 <? n)%nat
    /\ forall i, occurs i (blocks f') -> foldable types (values f) constants' i = false \/ refusing.
Proof.
  intros Htypes [Hssa Himm]. unfold fold_function. destruct acc as [changed used].
  intros (_ & s1 & _ & H)%judges_bind. apply judges_bind in H as (c0 & s2 & Hc0 & H).
  apply judges_return, filled_vec_returns in Hc0 as ->. apply judges_bind in H as (c1 & s3 & Hc1 & H).
  apply judges_return, seed_returns in Hc1 as ->. apply judges_bind in H as ([[bs changed'] it] & s4 & Hl & H).
  apply judges_return, may_returnS_mret in H as [[= <- <-] _].
  destruct (table_ok types Htypes (parameters f) (values f) (blocks f) Hssa Himm) as (_ & Hk & _).
  eapply fold_loop_returns in Hl as (n & constants' & Hn & Hch & Hno); [|done..].
  exists n, constants'. done.
Qed.

Lemma fold_function_facts types profile limits acc f s f' acc' s' :
  types_ok types -> well_formed f ->
  returns _ (fold_function types profile limits acc f) s (f', acc') s' ->
  well_formed f' /\ (forall U other, @refines U other types f f')
  /\ f' = with_blocks f (blocks f')
  /\ forall i, occurs i (blocks f') -> foldable types (values f') (table types (values f') (blocks f')) i = false \/ refusing.
Proof.
  intros Htypes Hwf H.
  destruct (fold_function_returns types profile limits acc f s f' acc' s' Htypes Hwf H) as (n & c' & Hf' & Hn & _ & Hno).
  destruct Hwf as [Hssa Himm].
  destruct (table_ok types Htypes (parameters f) (values f) (blocks f) Hssa Himm) as (Hl & Hk & Hc).
  destruct (fold_steps_table types Htypes f n _ _ _ _ Hssa Himm Hk Hl Hc Hn) as (Himm' & Hl' & Hc').
  destruct (fold_steps types f n _ _ _ _ Hssa Hk Hn) as (Hd & Hk' & Hr & _).
  assert (NoDup (definitions (parameters f) (blocks f'))) as Hnd by by rewrite Hd.
  split_and!; [| |done|].
  - split; [|done]. unfold single_assignment. by rewrite Hf'.
  - intros U other. rewrite Hf'. destruct f. apply Hr.
  - assert (Hv : values f' = values f) by by rewrite Hf'. rewrite Hv.
    by rewrite <- (table_determined types Htypes (parameters f) (values f) (blocks f') Hnd Himm' c' Hl' Hk' Hc').
Qed.
End function.

(** Element by element, what a loop that rewrites a list does. *)
Lemma map_accum_Forall2 {X Y T} (step : T -> X -> pass (Y * T)) (P : X -> Y -> Prop) xs t s ys t' s' :
  (forall t x s y t' s', x ∈ xs -> may_returnS (step t x) s (y, t') s' -> P x y) ->
  may_returnS (map_accum step xs t) s (ys, t') s' -> Forall2 P xs ys.
Proof.
  revert t s ys t' s'. induction xs as [|x xs IH]; intros t s ys t' s' HP; cbn [map_accum].
  - intros [[= <- <-] _]%may_returnS_mret. constructor.
  - intros ([y t1] & s1 & Hx & H)%may_returnS_bind. apply may_returnS_bind in H as ([ys' t2] & s2 & Hxs & H).
    apply may_returnS_mret in H as [[= <- <-] _]. constructor; [eapply HP; [by left|done]|].
    eapply IH; [|done]. intros ? ? ? ? ? ? Hin. apply HP. by right.
Qed.


(** Constant folding folds everything that can be folded: in a function the
    pass has returned, undisturbed and with memory for every integer, no
    operation on immediates can be computed, whatever the chain of operations
    it came from. *)
Theorem constant_folding_complete types functions profile limits s functions' acc s' :
  types_ok types -> Forall well_formed functions ->
  quiet (fold_scalar_constants types functions profile limits s) = Ok ((functions', acc), s') ->
  Forall (fun f' => forall i, occurs i (blocks f') ->
    foldable types (values f') (table types (values f') (blocks f')) i = false) functions'.
Proof.
  intros Htypes Hwf. rewrite Forall_forall in Hwf. unfold fold_scalar_constants. generalize (false, 1). revert s functions' acc s'.
  induction functions as [|f functions IH]; intros s functions' acc s' t; cbn [map_accum]; [by intros [= <- _ _]|].
  intros ([f' t1] & s1 & Hf & H)%(judges_bind (returns := returns_undisturbed)).
  apply (judges_bind (returns := returns_undisturbed)) in H as ([fs t2] & s2 & Hfs & H).
  injection H as <- _ _. constructor; [|by eapply IH; [intros g Hg; apply Hwf; by right|]].
  apply fold_function_facts in Hf as (_ & _ & _ & Hno); [|done|apply Hwf; by left]. intros i Hi. by destruct (Hno i Hi).
Qed.
