(* ===== verification/FoldLoop.v ===== *)
(** The loop of the folding pass ends, and why a fold can fail. *)

From stdpp Require Import base numbers list option gmap strings.
From S2P Require Import Prelude Bytes Interrupt FlowWir ScalarFold Optimizer FlowOperands FoldPass FoldSound.

#[local] Open Scope Z_scope.

(** ** The errors of a pass *)

(** The limits a pass can run into while it works. *)
Definition working_error (e : OptimizeError) : Prop :=
  e = Cancelled \/ exists resource limit, e = ResourceLimit resource limit
    /\ resource ∈ ["optimizer work"; "optimization decisions"; "optimization report bytes";
                   "optimizer temporary values"].

Lemma working_limit resource limit :
  resource ∈ ["optimizer work"; "optimization decisions"; "optimization report bytes";
              "optimizer temporary values"] -> working_error (ResourceLimit resource limit).
Proof. intros H. right. eauto. Qed.
Lemma working_cancelled : working_error Cancelled.
Proof. by left. Qed.
#[local] Hint Resolve working_cancelled : core.

Ltac in_list := repeat (first [apply list_elem_of_here | apply list_elem_of_further]).

Lemma poll_raises {A} (k : unit -> prog OptimizeError A) e :
  may_throw (check_cancelled ≫= k) e -> e = Cancelled \/ may_throw (k tt) e.
Proof.
  intros [H|([] & _ & H)]%may_throw_bind; [|by right]. destruct H as [[] H]; [|done]. by left.
Qed.

Lemma reserve_raises {E} (err e : E) : may_throw (try_reserve err) e -> e = err.
Proof. by intros [[] H]. Qed.

Lemma ensure_limit_raises value resource limit e : ensure_limit value resource limit = Err e -> e = ResourceLimit resource limit.
Proof. unfold ensure_limit, guard_err. destruct (_ <? _); naive_solver. Qed.

Lemma checkpoint_raises : raises working_error checkpoint.
Proof.
  apply raises_bind; [apply raises_liftS|intros _ s e].
  - intros e [[] H]; [|done]. simpl in H. by subst e.
  - unfold charge. rewrite may_throw_bind, may_throw_lift. intros [H|(a & _ & [])].
    unfold add_bounded in H. assert (He : e = ResourceLimit "optimizer work" (work_limit (work s))).
    { destruct (checked_add 64 _ 1); simpl in H; [|by injection H].
      destruct (ensure_limit _ _ _) eqn:Hl; simpl in H; [done|]. injection H as <-. by eapply ensure_limit_raises. }
    subst e. apply working_limit. in_list.
Qed.

Lemma report_text_raises text limits : raises working_error (report_text text limits).
Proof.
  apply raises_bind; [|intros _; apply raises_bind; [|intros _; apply raises_mret]].
  - apply raises_liftS. intros e He%may_throw_lift%ensure_limit_raises. subst e. apply working_limit. in_list.
  - apply raises_liftS. intros e ->%reserve_raises. apply working_limit. in_list.
Qed.

Lemma instruction_subject_raises function instruction : raises working_error (instruction_subject function instruction).
Proof.
  apply raises_bind; [|intros _; apply raises_mret].
  apply raises_liftS. intros e ->%reserve_raises. apply working_limit. in_list.
Qed.

Lemma push_raises pass_ subject kind justification relied_on :
  strictly_increasing relied_on = true -> raises working_error (push pass_ subject kind justification relied_on).
Proof.
  intros Hrel s e. unfold push. cbv zeta. rewrite Hrel.
  assert (Hd : forall l, working_error (ResourceLimit "optimization decisions" l)) by (intros; apply working_limit; in_list).
  assert (Hb : forall l, working_error (ResourceLimit "optimization report bytes" l)) by (intros; apply working_limit; in_list).
  assert (Hok : forall (o : option Z) (err e' : OptimizeError), ok_or o err = Err e' -> e' = err) by (by intros [] err e' [= ->]).
  rewrite may_throw_bind, may_throw_lift. intros [->%Hok|(n & _ & H)]; [done|].
  rewrite may_throw_bind, may_throw_lift in H. destruct H as [->%ensure_limit_raises|([] & _ & H)]; [done|].
  rewrite may_throw_bind in H. destruct H as [[]|([] & _ & H)].
  rewrite may_throw_bind, may_throw_lift in H. destruct H as [->%Hok|(n2 & _ & H)]; [done|].
  rewrite may_throw_bind, may_throw_lift in H. destruct H as [->%Hok|(n3 & _ & H)]; [done|].
  rewrite may_throw_bind, may_throw_lift in H. destruct H as [->%ensure_limit_raises|([] & _ & H)]; [done|].
  rewrite may_throw_bind in H. destruct H as [->%reserve_raises|([] & _ & H)]; [done|].
  rewrite may_throw_bind in H. destruct H as [H|([t s1] & _ & H)]; [by eapply report_text_raises|].
  rewrite may_throw_bind in H. destruct H as [H|([t2 s2] & _ & H)]; [by eapply report_text_raises|]. done.
Qed.

Lemma map_accum_raises {X Y T} P (step : T -> X -> pass (Y * T)) xs t :
  (forall t x, raises P (step t x)) -> raises P (map_accum step xs t).
Proof.
  intros Hs. revert t. induction xs as [|x xs IH]; intros t; cbn [map_accum]; [apply raises_mret|].
  apply raises_bind; [apply Hs|intros [y t1]]. apply raises_bind; [apply IH|intros [ys t2]]. apply raises_mret.
Qed.

Lemma fold_each_raises {X T} P (step : T -> X -> pass T) xs t :
  (forall t x, raises P (step t x)) -> raises P (fold_each step xs t).
Proof.
  intros Hs. revert t. induction xs as [|x xs IH]; intros t; cbn [fold_each]; [apply raises_mret|].
  apply raises_bind; [apply Hs|intros y]. apply IH.
Qed.

Lemma fold_succeeds_raises P folded : raises P (fold_succeeds folded).
Proof.
  destruct folded as [[]|]; try apply raises_mret.
  apply raises_bind; [|intros failed; apply raises_mret]. apply raises_liftS. by intros e [].
Qed.

Lemma fold_block_raises types function vals acc b : raises working_error (fold_block types function vals acc b).
Proof.
  apply raises_bind; [apply checkpoint_raises|intros _]. apply raises_bind; [|intros [ins acc']; apply raises_mret].
  apply map_accum_raises. intros t i. apply raises_bind; [apply checkpoint_raises|intros _].
  apply raises_bind; [apply fold_succeeds_raises|intros folds].
  destruct (if folds : bool then fold_to types vals t.1 i else None) as [[[r im] c]|]; [|apply raises_mret].
  apply raises_bind; [apply instruction_subject_raises|intros sub].
  apply raises_bind; [by apply push_raises|intros _]. apply raises_mret.
Qed.

Lemma seed_raises types f constants : raises working_error (seed_immediates types f constants).
Proof.
  apply fold_each_raises. intros t b. apply raises_bind; [apply checkpoint_raises|intros _].
  apply fold_each_raises. intros t' i. apply raises_bind; [apply checkpoint_raises|intros _].
  destruct (single_result i) as [v|], (operation i); try apply raises_mret.
  destruct (type_of_value (values f) v) as [ty|]; [|apply raises_mret].
  destruct (constant_from_immediate _ ty types); apply raises_mret.
Qed.

Lemma has_foldable_raises types vals constants bs :
  raises working_error (has_foldable_scalar_operation types vals constants bs).
Proof.
  induction bs as [|b bs IH]; cbn [has_foldable_scalar_operation]; [apply raises_mret|].
  apply raises_bind; [apply checkpoint_raises|intros _]. apply raises_bind; [|intros []; [apply raises_mret|apply IH]].
  generalize (instructions b). intros ins. induction ins as [|i ins IHi]; simpl; [apply raises_mret|].
  apply raises_bind; [apply checkpoint_raises|intros _].
  apply raises_bind; [apply fold_succeeds_raises|intros []; [apply raises_mret|apply IHi]].
Qed.

(** ** The loop *)

Lemma any_instruction_true test ins s s' :
  may_returnS (any_instruction test ins) s true s' -> exists i s1 s2, i ∈ ins /\ may_returnS (test i) s1 true s2.
Proof.
  revert s. induction ins as [|i ins IH]; intros s; simpl.
  - by intros [? _]%may_returnS_mret.
  - intros (_ & s1 & _ & H)%may_returnS_bind. apply may_returnS_bind in H as ([] & s2 & Hi & H).
    + exists i, s1, s2. split; [by left|done].
    + destruct (IH _ H) as (j & s3 & s4 & Hj & Ht). exists j, s3, s4. split; [by right|done].
Qed.

Lemma has_foldable_work types vals constants bs s s' :
  may_returnS (has_foldable_scalar_operation types vals constants bs) s true s' -> (0 < total_work bs)%nat.
Proof.
  revert s. induction bs as [|b bs IH]; intros s; cbn [has_foldable_scalar_operation].
  - by intros [? _]%may_returnS_mret.
  - intros (_ & s1 & _ & H)%may_returnS_bind. apply may_returnS_bind in H as ([] & s2 & Ha & H).
    + apply any_instruction_true in Ha as (i & s3 & s4 & Hi & Hf).
      destruct (folded_immediate types vals constants i) as [im|] eqn:Hfold;
        [|by apply may_returnS_mret in Hf as [? _]].
      apply folded_immediate_Some in Hfold as [Him _]. unfold total_work. simpl.
      enough (0 < block_work b)%nat by lia. unfold block_work.
      assert (Hin : In i (List.filter (fun j => negb (is_immediate j)) (instructions b))).
      { apply filter_In. rewrite Him. split; [by apply list_elem_of_In|done]. }
      destruct (List.filter _ _); [done|simpl; lia].
    + unfold total_work. simpl. specialize (IH _ H). unfold total_work in IH. lia.
Qed.

Lemma round_work types vals n bs constants bs1 c1 :
  nsteps (fold_one types vals) n (bs, constants) (bs1, c1) -> total_work bs = (n + total_work bs1)%nat.
Proof.
  revert bs constants. induction n as [|n IH]; intros bs constants H; inversion H as [|? ? [bs2 c2] ? H1 Hn]; subst; [done|].
  rewrite (fold_one_work _ _ _ _ _ _ H1), (IH _ _ Hn). done.
Qed.

Definition iteration_error (maximum : Z) : OptimizeError := ResourceLimit "optimization iterations" maximum.

Lemma fold_loop_facts types maximum function vals env w fuel bs constants changed iterations s :
  0 <= iterations < maximum -> maximum <= u32_max -> (total_work bs < fuel)%nat ->
  (forall fuel', (total_work bs < fuel')%nat ->
     run env w (fold_loop fuel' types maximum function vals bs constants changed iterations s)
     = run env w (fold_loop fuel types maximum function vals bs constants changed iterations s))
  /\ forall e, fst (run env w (fold_loop fuel types maximum function vals bs constants changed iterations s)) = Err e ->
       working_error e \/ e = iteration_error maximum /\ maximum - iterations < Z.of_nat (total_work bs).
Proof.
  revert w bs constants changed iterations s.
  induction fuel as [|fuel IH]; intros w bs constants changed iterations s Hit Hmax Hfuel; [lia|].
  assert (Hadd : checked_add 32 iterations 1 = Some (iterations + 1)).
  { apply checked_add_Some. unfold u32_max in *. lia. }
  assert (Hunfold : forall fuel, run env w (fold_loop (S fuel) types maximum function vals bs constants changed iterations s)
    = match run env w (map_accum (fold_block types function vals) bs (constants, false) s) with
      | (Ok ((bs1, (c1, ch)), s1), w1) =>
          run env w1 ((if negb ch then mret (bs1, changed || ch, iterations + 1)
                       else if iterations + 1 =? maximum then
                         more ← has_foldable_scalar_operation types vals c1 bs1;
                         if more : bool then fails (iteration_error maximum)
                         else mret (bs1, changed || ch, iterations + 1)
                       else fold_loop fuel types maximum function vals bs1 c1 (changed || ch) (iterations + 1)) s1)
      | (Err e, w1) => (Err e, w1)
      end).
  { intros k. etransitivity; [apply runS_bind|]. unfold pure_result, liftS. rewrite Hadd. cbn [ok_or lift].
    etransitivity; [apply runS_bind|]. by destruct (run env w (map_accum _ bs _ s)) as [[[[bs1 [c1 ch]] s1]|e] w1]. }
  destruct (run env w (map_accum (fold_block types function vals) bs (constants, false) s))
    as [[[[bs1 [c1 ch]] s1]|e0] w1] eqn:Hround.
  - apply runS_may_return, (round_returns types (refusing := True)) in Hround as (n & bs1' & c1' & [= <- <- ->] & Hn & _).
    apply round_work in Hn. destruct (0 <? n)%nat eqn:En; cbn [negb] in Hunfold.
    + apply Nat.ltb_lt in En. destruct (Z.eq_dec (iterations + 1) maximum) as [He|Hne];
        [rewrite (proj2 (Z.eqb_eq _ _) He) in Hunfold|rewrite (proj2 (Z.eqb_neq _ _) Hne) in Hunfold].
      * split; [intros [|fuel'] Hf; [lia|]; by rewrite !Hunfold|]. intros e. rewrite Hunfold. cbn [negb].
        erewrite (runS_bind env w1 (has_foldable_scalar_operation types vals c1 bs1)).
        destruct (run env w1 (has_foldable_scalar_operation types vals c1 bs1 s1)) as [[[more s2]|e2] w2] eqn:Hmore; cbn.
        -- destruct more; [|done]. cbn. intros [= <-]. right. split; [done|].
           apply runS_may_return, has_foldable_work in Hmore. lia.
        -- intros [= <-]. left. eapply has_foldable_raises. by eapply run_may_throw; rewrite Hmore.
      * destruct (IH w1 bs1 c1 (changed || true) (iterations + 1) s1) as [IH1 IH2]; [lia..|]. split.
        -- intros [|fuel'] Hf; [lia|]. rewrite !Hunfold. apply IH1. lia.
        -- intros e. rewrite Hunfold. intros H. destruct (IH2 e H) as [|[-> ?]]; [by left|]. right. split; [done|]. lia.
    + split; [intros [|fuel'] Hf; [lia|]; by rewrite !Hunfold|]. intros e. by rewrite Hunfold.
  - split; [intros [|fuel'] Hf; [lia|]; by rewrite !Hunfold|]. intros e. rewrite Hunfold. intros [= <-]. left.
    eapply map_accum_raises; [intros t b; apply fold_block_raises|]. eapply run_may_throw. by rewrite Hround.
Qed.

(** ** The pass *)

Lemma filled_vec_raises {T} (n : nat) (x : T) limit :
  raises working_error (filled_vec n x "optimizer temporary values" limit).
Proof.
  apply raises_bind; [|intros _; apply raises_mret]. apply raises_bind; [|intros _].
  - apply raises_liftS. intros e He%may_throw_lift%ensure_limit_raises. subst e. apply working_limit. in_list.
  - apply raises_liftS. intros e ->%reserve_raises. apply working_limit. in_list.
Qed.

(** [e] is the error of a function with more instructions to fold than the
    rounds allowed. *)
Definition too_deep (maximum : Z) (bs : list Block) (e : OptimizeError) : Prop :=
  e = iteration_error maximum /\ maximum < Z.of_nat (total_work bs).

Lemma fold_function_raises types profile limits acc f :
  1 <= maximum_iterations profile <= u32_max ->
  forall s env w e, fst (run env w (fold_function types profile limits acc f s)) = Err e ->
    working_error e \/ too_deep (maximum_iterations profile) (blocks f) e.
Proof.
  intros Hmax s env w e. destruct acc as [changed used]. unfold fold_function. intros H.
  apply runS_bind_Err in H as [H|([] & s1 & w1 & _ & H)]; [left; by eapply run_raises, H; apply checkpoint_raises|].
  apply runS_bind_Err in H as [H|(c & s2 & w2 & _ & H)]; [left; by eapply run_raises, H; apply filled_vec_raises|].
  apply runS_bind_Err in H as [H|(c1 & s3 & w3 & _ & H)]; [left; by eapply run_raises, H; apply seed_raises|].
  apply runS_bind_Err in H as [H|([[bs ch] it] & s4 & w4 & _ & H)]; [|done].
  destruct (fold_loop_facts types (maximum_iterations profile) (function_id f) (values f) env w3
    (S (total_work (blocks f))) (blocks f) c1 changed 0 s3) as [_ Herr]; [lia..|].
  destruct (Herr e H) as [|[-> ?]]; [by left|right]. split; [done|lia].
Qed.

(** C37: the fixed point of constant folding is reached: once the fuel of the
    loop exceeds the number of instructions that are not immediates, more fuel
    never changes its outcome, in any environment, and the loop fails only
    when a working limit is hit or when more instructions than rounds remain. *)
Theorem fold_loop_terminates types profile function vals env w fuel bs constants changed s :
  1 <= maximum_iterations profile <= u32_max -> (total_work bs < fuel)%nat ->
  let outcome fuel :=
    run env w (fold_loop fuel types (maximum_iterations profile) function vals bs constants changed 0 s) in
  outcome fuel = outcome (S (total_work bs))
  /\ forall e, fst (outcome fuel) = Err e ->
       working_error e \/ too_deep (maximum_iterations profile) bs e.
Proof.
  intros Hmax Hfuel outcome. unfold outcome.
  destruct (fold_loop_facts types (maximum_iterations profile) function vals env w (S (total_work bs))
    bs constants changed 0 s) as [Hstable Herr]; [lia..|].
  rewrite Hstable by done. split; [done|]. intros e H.
  destruct (Herr e H) as [|[-> ?]]; [by left|right]. split; [done|lia].
Qed.

(** The only errors of the folding pass are cancellation, the limits on
    work, decisions, report bytes and temporaries, and the iteration limit;
    the last only for an image with a function that has more instructions to
    fold than the profile allows rounds. *)
Theorem fold_scalar_constants_errors types functions profile limits s env w e :
  1 <= maximum_iterations profile <= u32_max ->
  fst (run env w (fold_scalar_constants types functions profile limits s)) = Err e ->
  working_error e
  \/ exists f, f ∈ functions /\ too_deep (maximum_iterations profile) (blocks f) e.
Proof.
  intros Hmax. unfold fold_scalar_constants. generalize (false, 1). revert s w.
  induction functions as [|f functions IH]; intros s w acc; cbn [map_accum]; [done|]. intros H.
  apply runS_bind_Err in H as [H|([f' acc1] & s1 & w1 & _ & H)].
  - apply fold_function_raises in H as [|]; [by left| |done]. right. exists f. split; [by left|done].
  - apply runS_bind_Err in H as [H|([fs acc2] & s2 & w2 & _ & H)]; [|done].
    destruct (IH _ _ _ H) as [|(g & Hg & Hd)]; [by left|right]. exists g. split; [by right|done].
Qed.
