(* ===== verification/ControlPass.v ===== *)
(** The control-flow simplification of [development.rs]:
    [simplify_constant_control_flow] replaces every branch and switch on a known
    constant by a jump along the edge it takes. *)

From stdpp Require Import base numbers list option gmap strings.
From S2P Require Import Prelude Interrupt FlowWir ScalarFold Optimizer FlowOperands FlowSemantics FoldPass FoldSound.

#[local] Open Scope Z_scope.

(** ** The pass *)

Definition with_terminator (b : Block) (t : Terminator ValueId) : Block :=
  {| block_id := block_id b; block_parameters := block_parameters b; instructions := instructions b;
     terminator := t; block_source := block_source b |}.

Inductive ControlChoice :=
| ChooseBranch (value : bool)
| ChooseSwitch (value : Z).

Definition control_choice (constants : Constants) (t : Terminator ValueId) : option ControlChoice :=
  match t with
  | Branch condition _ _ _ _ =>
      match constant condition constants with
      | Some (CBool value) => Some (ChooseBranch value)
      | _ => None
      end
  | Switch value _ _ _ =>
      match constant value constants with
      | Some (CBool value) => Some (ChooseSwitch (Z.b2z value))
      | Some (CInteger _ _ value) => Some (ChooseSwitch value)
      | _ => None
      end
  | _ => None
  end.

(** The first case with the selected value. *)
Fixpoint find_case (selected : Z) (cases : list (SwitchCase ValueId)) : pass (option (SwitchCase ValueId)) :=
  match cases with
  | [] => mret None
  | case :: cases =>
      _ ← checkpoint; if case_value case =? selected then mret (Some case) else find_case selected cases
  end.

Definition apply_choice (original : Terminator ValueId) (choice : ControlChoice) : pass (Terminator ValueId) :=
  match original, choice with
  | Branch _ then_block then_arguments _ _, ChooseBranch true => mret (Jump then_block then_arguments)
  | Branch _ _ _ else_block else_arguments, ChooseBranch false => mret (Jump else_block else_arguments)
  | Switch _ cases default default_arguments, ChooseSwitch selected =>
      selected_case ← find_case selected cases;
      mret match selected_case with
           | Some case => Jump (case_target case) (case_arguments case)
           | None => Jump default default_arguments
           end
  | _, _ => proof_violation CONTROL_SIMPLIFY_PASS "control-flow choice no longer matches its terminator"
  end.

Definition simplify_block (constants : Constants) (function : FunctionId) (changed : bool) (b : Block)
    : pass (Block * bool) :=
  _ ← checkpoint;
  match control_choice constants (terminator b) with
  | None => mret (b, changed)
  | Some choice =>
      t ← apply_choice (terminator b) choice;
      subject ← block_subject function (block_id b);
      _ ← push CONTROL_SIMPLIFY_PASS subject Folded
            "replaced a constant branch or switch with its uniquely selected edge" [];
      mret (with_terminator b t, true)
  end.

(** The body of [for function in &mut wir.functions]. *)
Definition simplify_function (types : list FlowType) (limits : OptimizationLimits) (changed : bool)
    (f : FlowFunction) : pass (FlowFunction * bool) :=
  constants ← filled_vec (length (values f)) None "optimizer temporary values" (limit_values limits);
  constants ← seed_immediates types f constants;
  '(bs, changed) ← map_accum (simplify_block constants (function_id f)) (blocks f) changed;
  mret (with_blocks f bs, changed).

Definition simplify_constant_control_flow (types : list FlowType) (functions : list FlowFunction)
    (limits : OptimizationLimits) : pass (list FlowFunction * bool) :=
  map_accum (simplify_function types limits) functions false.

(** ** What the pass computes *)

Definition jump_of (choice : ControlChoice) (t : Terminator ValueId) : Terminator ValueId :=
  match t, choice with
  | Branch _ then_block then_arguments else_block else_arguments, ChooseBranch value =>
      if value then Jump then_block then_arguments else Jump else_block else_arguments
  | Switch _ cases default default_arguments, ChooseSwitch selected =>
      let '(target, arguments) := select_case selected cases default default_arguments in Jump target arguments
  | _, _ => t
  end.

Definition simplified (constants : Constants) (b : Block) : Block :=
  match control_choice constants (terminator b) with
  | Some choice => with_terminator b (jump_of choice (terminator b))
  | None => b
  end.

Lemma find_case_returns selected cases s r s' :
  may_returnS (find_case selected cases) s r s' -> r = find (fun c => case_value c =? selected) cases.
Proof.
  revert s. induction cases as [|c cases IH]; intros s; cbn [find_case find].
  - by intros [<- _]%may_returnS_mret.
  - intros (_ & s1 & _ & H)%may_returnS_bind. destruct (case_value c =? selected); [|by eapply IH].
    by apply may_returnS_mret in H as [<- _].
Qed.

Lemma apply_choice_returns t choice s t' s' :
  may_returnS (apply_choice t choice) s t' s' -> t' = jump_of choice t.
Proof.
  intros H. destruct t, choice as [[]|selected]; cbn [apply_choice jump_of] in *;
    try (by apply may_returnS_liftS in H as [[] _]); try (by apply may_returnS_mret in H as [<- _]).
  apply may_returnS_bind in H as (c & s1 & Hc & H). apply find_case_returns in Hc as ->.
  apply may_returnS_mret in H as [<- _]. unfold select_case. by destruct (find _ _).
Qed.

Lemma simplify_block_returns constants function changed b s b' changed' s' :
  may_returnS (simplify_block constants function changed b) s (b', changed') s' -> b' = simplified constants b.
Proof.
  unfold simplify_block, simplified. intros (_ & s1 & _ & H)%may_returnS_bind.
  destruct (control_choice constants (terminator b)) as [choice|].
  - apply may_returnS_bind in H as (t & s2 & Ht & H). apply apply_choice_returns in Ht as ->.
    apply may_returnS_bind in H as (sub & s3 & _ & H). apply may_returnS_bind in H as ([] & s4 & _ & H).
    by apply may_returnS_mret in H as [[= <- _] _].
  - by apply may_returnS_mret in H as [[= <- _] _].
Qed.

Lemma map_accum_map {X Y T} (step : T -> X -> pass (Y * T)) (g : X -> Y) xs t s ys t' s' :
  (forall t x s y t' s', may_returnS (step t x) s (y, t') s' -> y = g x) ->
  may_returnS (map_accum step xs t) s (ys, t') s' -> ys = map g xs.
Proof.
  intros Hg H. apply (map_accum_Forall2 _ (fun x y => y = g x)) in H; [|by intros; eapply Hg].
  by induction H as [|x y xs' ys' -> _ IH]; simpl; [|rewrite IH].
Qed.

Lemma simplify_function_returns types limits changed f s f' changed' s' :
  may_returnS (simplify_function types limits changed f) s (f', changed') s' ->
  f' = with_blocks f (map (simplified (table types (values f) (blocks f))) (blocks f)).
Proof.
  unfold simplify_function. intros (c0 & s1 & Hc0 & H)%may_returnS_bind. apply filled_vec_returns in Hc0 as ->.
  apply may_returnS_bind in H as (c1 & s2 & Hc1 & H). apply seed_returns in Hc1 as ->.
  apply may_returnS_bind in H as ([bs ch] & s3 & Hl & H). apply may_returnS_mret in H as [[= <- _] _].
  f_equal. eapply map_accum_map, Hl. intros. by eapply simplify_block_returns.
Qed.

(** ** The jump is the edge the terminator takes *)

Section simplify.
  Context {U : Type} (types : list FlowType).

Lemma mapM_case_find (e : gmap N (rvalue U)) selected (cases : list (SwitchCase ValueId)) cases' :
    mapM (traverse_case (fun v => e !! v) Some) cases = Some cases' ->
    match find (fun c => case_value c =? selected) cases with
    | Some c => exists xs, mapM (fun v => e !! v) (case_arguments c) = Some xs
        /\ find (fun c => case_value c =? selected) cases' = Some (Build_SwitchCase (case_value c) (case_target c) xs)
    | None => find (fun c => case_value c =? selected) cases' = None
    end.
  Proof.
    intros H. apply mapM_Some in H. induction H as [|c c' cases cases' Hc H IH]; [done|]. cbn [find].
    unfold traverse_case in Hc. cbn [mbind option_bind mret option_ret] in Hc.
    destruct (mapM _ (case_arguments c)) as [xs|] eqn:Hxs; [|done]. cbn in Hc. injection Hc as <-. cbn [case_value].
    destruct (case_value c =? selected); [|done]. by exists xs.
  Qed.

Lemma jump_refines f (constants : Constants) t choice :
    control_choice constants t = Some choice ->
    terminator_refines types f (agrees (U := U) constants) t (jump_of choice t).
  Proof.
    intros Hc s Ha. unfold react_end.
    destruct (traverse_terminator _ Some t) as [lt|] eqn:Hlt; [|by left]. right.
    destruct t as [|c tb ta eb ea|v cases d da| | | | |]; try done; cbn [control_choice] in Hc.
    - destruct (constant c constants) as [[b| | |]|] eqn:Hk; try done. injection Hc as <-.
      cbn [traverse_terminator mbind option_bind mret option_ret] in Hlt. destruct (env s !! c) as [x|] eqn:Hx; [|done].
      cbn [mbind option_bind mret option_ret] in Hlt. destruct (mapM _ ta) as [xs|] eqn:Hxs; [|done]. cbn [mbind option_bind mret option_ret] in Hlt.
      destruct (mapM _ ea) as [ys|] eqn:Hys; [|done]. cbn in Hlt. injection Hlt as <-.
      rewrite (Ha c x Hx _ Hk). destruct b; cbn [jump_of traverse_terminator mbind option_bind mret option_ret].
      + by rewrite Hxs.
      + by rewrite Hys.
    - cbn [traverse_terminator mbind option_bind mret option_ret] in Hlt. destruct (env s !! v) as [x|] eqn:Hx; [|done].
      cbn [mbind option_bind mret option_ret] in Hlt. destruct (mapM (traverse_case _ _) cases) as [cases'|] eqn:Hcs; [|done].
      cbn [mbind option_bind mret option_ret] in Hlt. destruct (mapM _ da) as [ys|] eqn:Hys; [|done]. cbn in Hlt. injection Hlt as <-.
      assert (Hsel : exists selected, choice = ChooseSwitch selected /\ scrutinee x = Some selected).
      { destruct (constant v constants) as [[b|sg bits z| |]|] eqn:Hk; try done; injection Hc as <-;
          rewrite (Ha v x Hx _ Hk); eauto. }
      destruct Hsel as (selected & -> & Hsel). cbn [jump_of react_terminator]. rewrite Hsel. unfold select_case.
      pose proof (mapM_case_find (env s) selected cases cases' Hcs) as Hfind.
      destruct (find _ cases) as [case|].
      + destruct Hfind as (xs & Hxs & ->). cbn [traverse_terminator mbind option_bind mret option_ret]. by rewrite Hxs.
      + rewrite Hfind. cbn [traverse_terminator mbind option_bind mret option_ret]. by rewrite Hys.
  Qed.
End simplify.

Lemma simplified_block constants b :
  block_parameters (simplified constants b) = block_parameters b
  /\ instructions (simplified constants b) = instructions b.
Proof. unfold simplified. by destruct (control_choice _ _). Qed.

Lemma simplified_definitions constants ps bs : definitions ps (map (simplified constants) bs) = definitions ps bs.
Proof.
  unfold definitions. f_equal. induction bs as [|b bs IH]; [done|]. simpl. rewrite IH. f_equal.
  unfold block_definitions. by destruct (simplified_block constants b) as [-> ->].
Qed.

Lemma simplified_occurs constants i bs : occurs i (map (simplified constants) bs) <-> occurs i bs.
Proof.
  split; intros (b & Hb & Hi).
  - apply list_elem_of_fmap in Hb as (b0 & -> & Hb0). exists b0. split; [done|].
    by destruct (simplified_block constants b0) as [_ <-].
  - exists (simplified constants b). split; [by apply list_elem_of_fmap_2|].
    by destruct (simplified_block constants b) as [_ ->].
Qed.

Lemma simplified_table types constants vals bs : table types vals (map (simplified constants) bs) = table types vals bs.
Proof.
  unfold table, seed_pure. generalize (replicate (length vals) (@None ScalarConstant)).
  induction bs as [|b bs IH]; intros c; [done|]. simpl. rewrite IH. f_equal.
  by destruct (simplified_block constants b) as [_ ->].
Qed.

Lemma jump_of_final constants t choice : control_choice constants t = Some choice ->
  control_choice constants (jump_of choice t) = None.
Proof.
  intros H. destruct t; try done; cbn [control_choice] in H.
  - destruct (constant _ _) as [[[]| | |]|]; by simplify_eq/=.
  - destruct choice; [by destruct (constant _ _) as [[]|]|]. cbn [jump_of]. by destruct (select_case _ _ _ _).
Qed.

Lemma simplify_function_facts types limits changed f s f' changed' s' :
  types_ok types -> well_formed f ->
  may_returnS (simplify_function types limits changed f) s (f', changed') s' ->
  well_formed f' /\ (forall U other, @refines U other types f f')
  /\ forall b, b ∈ blocks f' -> control_choice (table types (values f') (blocks f')) (terminator b) = None.
Proof.
  intros Htypes [Hssa Himm] ->%simplify_function_returns.
  destruct (table_ok types Htypes (parameters f) (values f) (blocks f) Hssa Himm) as (_ & Hk & _).
  set (constants := table types (values f) (blocks f)) in *. split; [|split].
  - split; [unfold single_assignment; simpl; by rewrite simplified_definitions|].
    intros i im Hi. simpl in Hi. rewrite simplified_occurs in Hi. by apply Himm.
  - intros U other. apply (refines_pointwise other types (agrees constants)); [done..| | |].
    + simpl. apply Forall2_fmap_r, Forall_Forall2_diag, Forall_true. intros b.
      destruct (simplified_block constants b) as [Hp Hi]. split; [done| |].
      * rewrite Hi. apply Forall_Forall2_diag, Forall_true. intros i s3 _. by right.
      * unfold simplified. destruct (control_choice constants (terminator b)) as [choice|] eqn:Hc;
          [by apply jump_refines|]. intros s3 _. by right.
    + intros arguments s3. by apply start_agrees.
    + intros s3 s4. by apply successor_agrees.
  - simpl. rewrite simplified_table. intros b (b0 & -> & _)%list_elem_of_fmap. fold constants. unfold simplified.
    destruct (control_choice constants (terminator b0)) as [choice|] eqn:Hc; [by apply jump_of_final|done].
Qed.

(** C29: Simplifying constant control flow preserves meaning and leaves nothing
    behind: when the pass returns, every function has become one that refines
    it, still in single-assignment form, and no branch or switch of it depends
    on a value that an immediate defines. *)
Theorem control_simplification_refines types functions limits s functions' changed s' :
  types_ok types -> Forall well_formed functions ->
  may_returnS (simplify_constant_control_flow types functions limits) s (functions', changed) s' ->
  Forall2 (fun f f' =>
    well_formed f' /\ (forall U other, @refines U other types f f')
    /\ forall b, b ∈ blocks f' -> control_choice (table types (values f') (blocks f')) (terminator b) = None)
    functions functions'.
Proof.
  intros Htypes Hwf. rewrite Forall_forall in Hwf. apply map_accum_Forall2.
  intros t f s1 f' t' s2 Hf. apply simplify_function_facts; auto.
Qed.
