(* ===== verification/CompactPass.v ===== *)
(** Renumbering a function after blocks or instructions were dropped:
    [compact_function] of [development.rs] and what it calls. *)

From stdpp Require Import base numbers list option gmap strings.
From S2P Require Import Prelude Interrupt FlowWir Optimizer FlowOperands FoldPass.

#[local] Open Scope Z_scope.

(** ** Counting *)

Definition index_as_u32 (index : nat) (resource : string) (limit : Z) : result OptimizeError N :=
  if u32_max <? Z.of_nat index then Err (ResourceLimit resource limit) else Ok (N.of_nat index).

Fixpoint count_true (resource : string) (limit : Z) (flags : list bool) (retained : Z) : pass Z :=
  match flags with
  | [] => mret retained
  | keep :: flags =>
      _ ← checkpoint;
      retained ← (if keep : bool
                  then pure_result (ok_or (checked_add usize retained 1) (ResourceLimit resource limit))
                  else mret retained);
      count_true resource limit flags retained
  end.

Definition count_retained (flags : list bool) (resource : string) (limit : Z) : pass Z :=
  retained ← count_true resource limit flags 0;
  _ ← pure_result (ensure_limit retained resource limit);
  mret retained.

Fixpoint all_retained (flags : list bool) : pass bool :=
  match flags with
  | [] => mret true
  | keep :: flags => _ ← checkpoint; if keep : bool then all_retained flags else mret false
  end.

(** How many flags are not set. *)
Definition unset (flags : list bool) : nat := length (List.filter negb flags).

(** ** Renaming *)

Definition violation {A} (detail : string) : pass A := proof_violation "compaction" detail.

Definition mark_value (context : string) (keep_values : list bool) (value : ValueId) : pass (list bool) :=
  match keep_values !! N.to_nat value with
  | Some _ => mret (<[N.to_nat value := true]> keep_values)
  | None => violation (context +:+ " refers to an unknown value")
  end.

(** [slice.get(id).copied().flatten()]. *)
Definition renamed (map_ : list (option N)) (id : N) : option N := mjoin (map_ !! N.to_nat id).

Definition map_value (value_map : list (option ValueId)) (value : ValueId) : pass ValueId :=
  _ ← checkpoint;
  match renamed value_map value with
  | Some value => mret value
  | None => violation "retained operation refers to a removed value"
  end.

Definition map_value_slice (value_map : list (option ValueId)) (vs : list ValueId) : pass (list ValueId) :=
  mapM (map_value value_map) vs.

Definition map_block (block_map : list (option BlockId)) (block : BlockId) : pass BlockId :=
  _ ← checkpoint;
  match renamed block_map block with
  | Some block => mret block
  | None => violation "retained control-flow edge refers to a removed block"
  end.

Definition map_operation_values (value_map : list (option ValueId)) (op : FlowOperation ValueId)
    : pass (FlowOperation ValueId) :=
  traverse_operation (map_value value_map) op.

Definition map_terminator (value_map : list (option ValueId)) (block_map : list (option BlockId))
    (t : Terminator ValueId) : pass (Terminator ValueId) :=
  traverse_terminator (map_value value_map) (map_block block_map) t.

(** ** The numbering of what is kept *)

(** Dense numbers for the blocks that are kept. *)
Fixpoint number_blocks (limit : Z) (keep_blocks : list bool) (index : nat)
    (block_map : list (option BlockId)) (next_block : Z) : pass (list (option BlockId)) :=
  match keep_blocks with
  | [] => mret block_map
  | keep :: keep_blocks =>
      _ ← checkpoint;
      if keep : bool then
        next ← pure_result (ok_or (checked_add 32 next_block 1) (ResourceLimit "FlowWir blocks" limit));
        number_blocks limit keep_blocks (S index) (<[index := Some (Z.to_N next_block)]> block_map) next
      else number_blocks limit keep_blocks (S index) block_map next_block
  end.

(** [removed_instructions.and_then(..) == Some(&true)]. *)
Definition is_removed (removed : option (list bool)) (i : Instruction) : bool :=
  match removed ≫= fun removed => removed !! N.to_nat (instruction_id i) with
  | Some removed => removed
  | None => false
  end.

Definition mark_all (context : string) (vs : list ValueId) (keep_values : list bool) : pass (list bool) :=
  fold_each (fun keep_values v => _ ← checkpoint; mark_value context keep_values v) vs keep_values.

Definition mark_instruction (removed : option (list bool)) (keep_values : list bool) (i : Instruction)
    : pass (list bool) :=
  _ ← checkpoint;
  if is_removed removed i then mret keep_values
  else mark_all "instruction result" (results i) keep_values.

(** [keep_blocks] has a flag for every block: [compact_function] checks it. *)
Definition mark_block (removed : option (list bool)) (keep_values : list bool) (kb : bool * Block)
    : pass (list bool) :=
  _ ← checkpoint;
  let '(keep, b) := kb in
  if negb keep then mret keep_values else
  keep_values ← mark_all "block parameter" (block_parameters b) keep_values;
  fold_each (mark_instruction removed) (instructions b) keep_values.

Definition with_value_id (v : Value) (id : ValueId) : Value :=
  {| value_id := id; value_ty := value_ty v; value_source_name := value_source_name v;
     value_source := value_source v |}.

(** Dense numbers for the values that are kept, with their renumbered records;
    [keep_values] has a flag for every value. *)
Fixpoint compact_values (limit : Z) (kept : list (bool * Value)) (index : nat)
    (value_map : list (option ValueId)) (vals : list Value) : pass (list (option ValueId) * list Value) :=
  match kept with
  | [] => mret (value_map, vals)
  | (keep, value) :: kept =>
      _ ← checkpoint;
      if negb keep then compact_values limit kept (S index) value_map vals else
      new_id ← pure_result (index_as_u32 (length vals) "FlowWir values" limit);
      compact_values limit kept (S index) (<[index := Some new_id]> value_map)
        (vals ++ [with_value_id value new_id])
  end.

(** ** Instructions and blocks *)

Section compact.
  Context (value_map : list (option ValueId)) (block_map : list (option BlockId)).
  Context (removed : option (list bool)) (limits : OptimizationLimits).

Let too_many : OptimizeError := ResourceLimit "FlowWir instructions" (limit_instructions limits).

Fixpoint count_instructions (ins : list Instruction) (retained : Z) : pass Z :=
  match ins with
  | [] => mret retained
  | i :: ins =>
      _ ← checkpoint;
      retained ← (if is_removed removed i then mret retained
                  else pure_result (ok_or (checked_add usize retained 1) too_many));
      count_instructions ins retained
  end.

Definition compact_instruction (i : Instruction) (next_instruction : Z) : pass Instruction :=
  rs ← map_value_slice value_map (results i);
  op ← map_operation_values value_map (operation i);
  mret {| instruction_id := Z.to_N next_instruction; results := rs; operation := op;
          instruction_source := instruction_source i |}.

Fixpoint compact_instructions (ins : list Instruction) (next_instruction : Z) : pass (list Instruction * Z) :=
  match ins with
  | [] => mret ([], next_instruction)
  | i :: ins =>
      _ ← checkpoint;
      if is_removed removed i then compact_instructions ins next_instruction else
      next ← pure_result (ok_or (checked_add 32 next_instruction 1) too_many);
      i' ← compact_instruction i next_instruction;
      '(ins', next) ← compact_instructions ins next;
      mret (i' :: ins', next)
  end.

Definition compact_block (index : nat) (b : Block) (next_instruction : Z) : pass (Block * Z) :=
  id ← match renamed block_map (N.of_nat index) with
       | Some id => mret id
       | None => violation "retained block has no dense remapping"
       end;
  ps ← map_value_slice value_map (block_parameters b);
  retained ← count_instructions (instructions b) 0;
  _ ← reserve_items retained "FlowWir instructions" (limit_instructions limits);
  '(ins, next) ← compact_instructions (instructions b) next_instruction;
  t ← map_terminator value_map block_map (terminator b);
  mret ({| block_id := id; block_parameters := ps; instructions := ins; terminator := t;
           block_source := block_source b |}, next).

Fixpoint compact_blocks (kept : list (bool * Block)) (index : nat) (next_instruction : Z) : pass (list Block) :=
  match kept with
  | [] => mret []
  | (keep, b) :: kept =>
      _ ← checkpoint;
      if negb keep then compact_blocks kept (S index) next_instruction else
      '(b', next) ← compact_block index b next_instruction;
      bs ← compact_blocks kept (S index) next;
      mret (b' :: bs)
  end.
End compact.

Definition compact_function (f : FlowFunction) (keep_blocks : list bool) (removed : option (list bool))
    (limits : OptimizationLimits) : pass FlowFunction :=
  if negb (length keep_blocks =? length (blocks f))%nat
  then violation "block keep-set length does not match the function" else
  block_map ← filled_vec (length (blocks f)) None "optimizer temporary blocks" (limit_blocks limits);
  block_map ← number_blocks (limit_blocks limits) keep_blocks 0 block_map 0;
  keep_values ← filled_vec (length (values f)) false "optimizer temporary values" (limit_values limits);
  keep_values ← mark_all "function parameter" (parameters f) keep_values;
  keep_values ← fold_each (mark_block removed) (zip keep_blocks (blocks f)) keep_values;
  value_map ← filled_vec (length (values f)) None "optimizer temporary values" (limit_values limits);
  retained_values ← count_retained keep_values "FlowWir values" (limit_values limits);
  _ ← reserve_items retained_values "FlowWir values" (limit_values limits);
  '(value_map, vals) ← compact_values (limit_values limits) (zip keep_values (values f)) 0 value_map [];
  ps ← map_value_slice value_map (parameters f);
  entry ← map_block block_map (entry f);
  retained_blocks ← count_retained keep_blocks "FlowWir blocks" (limit_blocks limits);
  _ ← reserve_items retained_blocks "FlowWir blocks" (limit_blocks limits);
  bs ← compact_blocks value_map block_map removed limits (zip keep_blocks (blocks f)) 0 0;
  mret {| function_id := function_id f; function_name := function_name f;
          function_origin := function_origin f; role := role f; color := color f; parameters := ps;
          result_types := result_types f; values := vals; blocks := bs; entry := entry;
          stack_bound := stack_bound f; frame_bound := frame_bound f;
          function_proofs := function_proofs f; function_source := function_source f |}.

(** ** Unreachable blocks *)

(** What the loop over the edges of a block updates: the marks, the blocks to
    visit (a stack), and whether an edge led nowhere. *)
Definition visit_edge (st : list bool * list BlockId * bool) (successor : BlockId)
    : list bool * list BlockId * bool :=
  let '(reachable, pending, invalid_edge) := st in
  match reachable !! N.to_nat successor with
  | None => (reachable, pending, true)
  | Some true => (reachable, pending, invalid_edge)
  | Some false => (<[N.to_nat successor := true]> reachable, successor :: pending, invalid_edge)
  end.

(** The [while let] loop. Every block is pushed at most once, so a fuel of the
    number of blocks is never exhausted. *)
Fixpoint reachable_loop (fuel : nat) (bs : list Block) (reachable : list bool) (pending : list BlockId)
    : pass (list bool) :=
  match pending, fuel with
  | [], _ | _, O => mret reachable
  | block :: pending, S fuel =>
      _ ← checkpoint;
      match bs !! N.to_nat block with
      | None => proof_violation UNREACHABLE_PASS "encountered an unknown block record"
      | Some b =>
          '(reachable, pending, invalid_edge) ←
            for_each_edge (terminator b) visit_edge (reachable, pending, false);
          if invalid_edge : bool then proof_violation UNREACHABLE_PASS "encountered an unknown block edge"
          else reachable_loop fuel bs reachable pending
      end
  end.

Definition reachable_blocks (f : FlowFunction) (limits : OptimizationLimits) : pass (list bool) :=
  reachable ← filled_vec (length (blocks f)) false "optimizer temporary blocks" (limit_blocks limits);
  _ ← reserve_items (Z.of_nat (length (blocks f))) "optimizer temporary blocks" (limit_blocks limits);
  match reachable !! N.to_nat (entry f) with
  | None => proof_violation UNREACHABLE_PASS "function entry is an unknown block"
  | Some _ =>
      reachable_loop (length (blocks f)) (blocks f) (<[N.to_nat (entry f) := true]> reachable) [entry f]
  end.

Definition report_removed (function : FunctionId) (limits : OptimizationLimits) (index : nat)
    (reachable : bool) : pass nat :=
  _ ← checkpoint;
  if reachable then mret (S index) else
  id ← pure_result (index_as_u32 index "FlowWir blocks" (limit_blocks limits));
  subject ← block_subject function id;
  _ ← push UNREACHABLE_PASS subject Removed
        "removed a block with no path from the function entry after control-flow simplification" [];
  mret (S index).

(** The body of [for function in &mut wir.functions]. *)
Definition eliminate_function (limits : OptimizationLimits) (changed : bool) (f : FlowFunction)
    : pass (FlowFunction * bool) :=
  _ ← checkpoint;
  reachable ← reachable_blocks f limits;
  retained ← all_retained reachable;
  if retained : bool then mret (f, changed) else
  _ ← fold_each (report_removed (function_id f) limits) reachable 0%nat;
  f ← compact_function f reachable None limits;
  mret (f, true).

Definition eliminate_unreachable_blocks (functions : list FlowFunction) (limits : OptimizationLimits)
    : pass (list FlowFunction * bool) :=
  map_accum (eliminate_function limits) functions false.
