(* ===== verification/DeadPass.v ===== *)
(** The two passes of [development.rs] that drop instructions: the checks on a
    condition known to hold, [eliminate_proven_true_checks], and the pure
    instructions whose results nothing uses, [eliminate_dead_pure_instructions]. *)

From stdpp Require Import base numbers list option gmap strings.
From S2P Require Import Prelude Interrupt FlowWir ScalarFold Optimizer FlowOperands FoldPass CompactPass.

#[local] Open Scope Z_scope.

(** ** Counting instructions *)

Fixpoint count_blocks (bs : list Block) (total : Z) : pass Z :=
  match bs with
  | [] => mret total
  | b :: bs =>
      _ ← checkpoint;
      total ← pure_result (ok_or (checked_add 64 total (Z.of_nat (length (instructions b))))
                             (InvalidReport "instruction count overflowed"));
      count_blocks bs total
  end.

Definition function_instruction_count (f : FlowFunction) : pass Z := count_blocks (blocks f) 0.

(** [proof] collected in a fresh vector. *)
Definition proof_vec (resource : string) (limits : OptimizationLimits) (proof : option ProofId) : pass (list ProofId) :=
  match proof with
  | Some proof => _ ← reserve_items 1 resource (limit_proofs limits); mret [proof]
  | None => mret []
  end.

(** ** Checks on a known condition *)

Definition remove_check (function : FunctionId) (limits : OptimizationLimits) (constants : Constants)
    (acc : list bool * bool) (i : Instruction) : pass (list bool * bool) :=
  _ ← checkpoint;
  let '(removed, function_changed) := acc in
  match operation i with
  | CheckOp condition _ proof =>
      if bool_decide (constant condition constants <> Some (CBool true)) then mret acc else
      match removed !! N.to_nat (instruction_id i) with
      | None => proof_violation PROVEN_TRUE_CHECK_PASS "check instruction ID is not dense"
      | Some _ =>
          let removed := <[N.to_nat (instruction_id i) := true]> removed in
          relied_on ← proof_vec "optimization proof links" limits proof;
          subject ← instruction_subject function (instruction_id i);
          _ ← push PROVEN_TRUE_CHECK_PASS subject Removed
                "removed a check whose canonical Boolean condition proves its failure edge unreachable" relied_on;
          mret (removed, true)
      end
  | _ => mret acc
  end.

Definition remove_checks (function : FunctionId) (limits : OptimizationLimits) (constants : Constants)
    (acc : list bool * bool) (b : Block) : pass (list bool * bool) :=
  _ ← checkpoint; fold_each (remove_check function limits constants) (instructions b) acc.

(** Drop the removed instructions, keeping every block. *)
Definition compact_removed (f : FlowFunction) (removed : list bool) (limits : OptimizationLimits) : pass FlowFunction :=
  keep_blocks ← filled_vec (length (blocks f)) true "optimizer temporary blocks" (limit_blocks limits);
  compact_function f keep_blocks (Some removed) limits.

(** The body of [for function in &mut wir.functions]. *)
Definition remove_checks_function (types : list FlowType) (limits : OptimizationLimits) (changed : bool)
    (f : FlowFunction) : pass (FlowFunction * bool) :=
  _ ← checkpoint;
  constants ← filled_vec (length (values f)) None "optimizer temporary values" (limit_values limits);
  constants ← seed_immediates types f constants;
  instruction_total ← function_instruction_count f;
  removed ← filled_vec (Z.to_nat instruction_total) false "optimizer temporary instructions"
              (limit_instructions limits);
  '(removed, function_changed) ←
    fold_each (remove_checks (function_id f) limits constants) (blocks f) (removed, false);
  if function_changed : bool then f ← compact_removed f removed limits; mret (f, true)
  else mret (f, changed).

Definition eliminate_proven_true_checks (types : list FlowType) (functions : list FlowFunction)
    (limits : OptimizationLimits) : pass (list FlowFunction * bool) :=
  map_accum (remove_checks_function types limits) functions false.

(** ** What may be dropped when its result is dead *)

Definition type_record (types : list FlowType) (vals : list Value) (v : ValueId) : option FlowType :=
  ty ← type_of_value vals v; types !! N.to_nat ty.

Definition is_integer (k : FlowTypeKind) : bool := match k with KScalar (TInteger _ _) => true | _ => false end.
Definition is_bool (k : FlowTypeKind) : bool := match k with KScalar TBool => true | _ => false end.
Definition is_float (k : FlowTypeKind) : bool := match k with KScalar (TFloat32 | TFloat64) => true | _ => false end.

Definition removable_immediate (types : list FlowType) (ty : TypeId) (result_kind : FlowTypeKind)
    (immediate : Immediate) : bool :=
  match immediate, result_kind with
  | ImmUnit, KUnit | ImmBool _, KScalar TBool | ImmFloat32 _, KScalar TFloat32
  | ImmFloat64 _, KScalar TFloat64 => true
  | (ImmGlobalAddress _ | ImmFunctionAddress _), KScalar TAddress => true
  | ImmInteger _ _, KScalar (TInteger _ _) => bool_decide (is_Some (constant_from_immediate immediate ty types))
  | ImmZero zero, (KUnit | KScalar _) => (zero =? ty)%N
  | _, _ => false
  end.

Definition removable_unary (op : UnaryOp) (result_kind : FlowTypeKind) : bool :=
  match op with
  | BoolNot => is_bool result_kind
  | BitNot => is_integer result_kind
  | Negate => is_float result_kind
  end.

Definition removable_binary (op : BinaryOp) (left_type result_type : FlowType) : bool :=
  match op with
  | AddWrapping | SubWrapping | MulWrapping | BitAnd | BitOr | BitXor =>
      (type_id left_type =? type_id result_type)%N && is_integer (kind left_type)
  | Equal | NotEqual | Less | LessEqual | Greater | GreaterEqual =>
      is_bool (kind result_type)
      && (is_bool (kind left_type) || is_integer (kind left_type) || is_float (kind left_type))
  | AddChecked | SubChecked | MulChecked | DivChecked | RemChecked | ShiftLeftChecked
  | ShiftLeftWrapping | ShiftRightChecked => false
  end.

Definition removable_operation (types : list FlowType) (vals : list Value) (ty : TypeId)
    (result_type : FlowType) (op : FlowOperation ValueId) : bool :=
  match op with
  | ImmediateOp immediate => removable_immediate types ty (kind result_type) immediate
  | Unary op value =>
      match type_record types vals value with
      | Some operand_type =>
          (type_id operand_type =? type_id result_type)%N && removable_unary op (kind result_type)
      | None => false
      end
  | Binary op left_ right_ =>
      match type_record types vals left_, type_record types vals right_ with
      | Some left_type, Some right_type =>
          (type_id left_type =? type_id right_type)%N && removable_binary op left_type result_type
      | _, _ => false
      end
  | Select condition then_value else_value =>
      match type_record types vals condition with
      | Some condition_type => is_bool (kind condition_type)
      | None => false
      end
      && bool_decide (type_id <$> type_record types vals then_value = Some (type_id result_type))
      && bool_decide (type_id <$> type_record types vals else_value = Some (type_id result_type))
      && match kind result_type with KUnit | KScalar _ => true | _ => false end
  | _ => false
  end.

Definition removable_when_dead (types : list FlowType) (vals : list Value) (i : Instruction) : bool :=
  match single_result i with
  | Some result =>
      match type_of_value vals result with
      | Some ty =>
          match types !! N.to_nat ty with
          | Some result_type =>
              if negb (copyable result_type) || strict_linear result_type then false
              else removable_operation types vals ty result_type (operation i)
          | None => false
          end
      | None => false
      end
  | None => false
  end.

(** ** Uses *)

(** The loop over the results of an instruction. *)
Fixpoint all_unused (rs : list ValueId) (use_counts : list Z) : result OptimizeError bool :=
  match rs with
  | [] => Ok true
  | r :: rs =>
      match use_counts !! N.to_nat r with
      | None => Err (ProofViolation DEAD_PURE_PASS "instruction result is an unknown value")
      | Some count => if negb (count =? 0) then Ok false else all_unused rs use_counts
      end
  end.

Definition results_are_dead (i : Instruction) (use_counts : list Z) : result OptimizeError bool :=
  dead ← all_unused (results i) use_counts;
  mret (dead && bool_decide (results i <> [])).

(** What the visitor of a use updates: the counts, whether a value is unknown,
    whether a count overflowed, and the uses seen. *)
Definition charge_use (st : list Z * bool * bool * Z) (value : ValueId) : list Z * bool * bool * Z :=
  let '(use_counts, invalid, overflow, uses) := st in
  match checked_add 64 uses 1 with
  | None => (use_counts, invalid, true, uses)
  | Some uses =>
      match use_counts !! N.to_nat value with
      | None => (use_counts, true, overflow, uses)
      | Some count =>
          match checked_add 64 count 1 with
          | None => (use_counts, invalid, true, uses)
          | Some next => (<[N.to_nat value := next]> use_counts, invalid, overflow, uses)
          end
      end
  end.

Definition charge_operation_uses (op : FlowOperation ValueId) (use_counts : list Z) : pass (list Z) :=
  '(use_counts, invalid, overflow, _) ← for_each_operation_value op charge_use (use_counts, false, false, 0);
  if invalid || overflow then proof_violation DEAD_PURE_PASS "operation use accounting overflowed"
  else mret use_counts.

Definition charge_terminator_uses (t : Terminator ValueId) (use_counts : list Z) : pass (list Z) :=
  '(use_counts, invalid, overflow, _) ← for_each_terminator_value t charge_use (use_counts, false, false, 0);
  if invalid || overflow then proof_violation DEAD_PURE_PASS "terminator use accounting overflowed"
  else mret use_counts.

(** ** Where instructions and values are defined *)

Definition Locations : Type := list (option (nat * nat)).
(** The instruction that defines each value. *)
Definition Definitions : Type := list (option N).

Definition instruction_at (f : FlowFunction) (locations : Locations) (id : N) : result OptimizeError Instruction :=
  match mjoin (locations !! N.to_nat id) with
  | None => Err (ProofViolation DEAD_PURE_PASS "instruction lookup failed during dead-code elimination")
  | Some (block, instruction) =>
      match b ← blocks f !! block; instructions b !! instruction with
      | Some i => Ok i
      | None => Err (ProofViolation DEAD_PURE_PASS "instruction location was not stable during dead-code elimination")
      end
  end.

Definition define_result (id : InstructionId) (definitions : Definitions) (result : ValueId) : pass Definitions :=
  _ ← checkpoint;
  match definitions !! N.to_nat result with
  | None => proof_violation DEAD_PURE_PASS "instruction defines an unknown value"
  | Some _ => mret (<[N.to_nat result := Some id]> definitions)
  end.

Record Tables := { locations : Locations; definitions_of : Definitions; uses : list Z }.

Definition index_instruction (block_index : nat) (acc : Tables * nat) (i : Instruction) : pass (Tables * nat) :=
  let '(t, instruction_index) := acc in
  _ ← checkpoint;
  match locations t !! N.to_nat (instruction_id i) with
  | None => proof_violation DEAD_PURE_PASS "instruction IDs are not dense"
  | Some _ =>
      definitions ← fold_each (define_result (instruction_id i)) (results i) (definitions_of t);
      use_counts ← charge_operation_uses (operation i) (uses t);
      mret ({| locations := <[N.to_nat (instruction_id i) := Some (block_index, instruction_index)]> (locations t);
               definitions_of := definitions; uses := use_counts |}, S instruction_index)
  end.

Definition index_block (acc : Tables * nat) (b : Block) : pass (Tables * nat) :=
  let '(t, block_index) := acc in
  _ ← checkpoint;
  '(t, _) ← fold_each (index_instruction block_index) (instructions b) (t, 0%nat);
  use_counts ← charge_terminator_uses (terminator b) (uses t);
  mret ({| locations := locations t; definitions_of := definitions_of t; uses := use_counts |}, S block_index).

(** ** The worklist *)

(** Indexing by the identity of an instruction cannot panic: the indexing loop
    has checked it against a vector of the same length. *)
Definition queue_instruction (types : list FlowType) (vals : list Value) (use_counts : list Z)
    (acc : list bool * list N) (i : Instruction) : pass (list bool * list N) :=
  _ ← checkpoint;
  let '(queued, pending) := acc in
  if removable_when_dead types vals i then
    dead ← pure_result (results_are_dead i use_counts);
    if dead : bool
    then mret (<[N.to_nat (instruction_id i) := true]> queued, instruction_id i :: pending)
    else mret acc
  else mret acc.

Definition queue_block (types : list FlowType) (vals : list Value) (use_counts : list Z)
    (acc : list bool * list N) (b : Block) : pass (list bool * list N) :=
  _ ← checkpoint; fold_each (queue_instruction types vals use_counts) (instructions b) acc.

Definition release_use (st : list Z * bool) (operand : ValueId) : list Z * bool :=
  let '(use_counts, failed) := st in
  match use_counts !! N.to_nat operand ≫= fun count => checked_sub count 1 with
  | Some next => (<[N.to_nat operand := next]> use_counts, failed)
  | None => (use_counts, true)
  end.

Definition queue_definition (types : list FlowType) (f : FlowFunction) (locations : Locations)
    (definitions : Definitions) (use_counts : list Z) (st : list bool * list N * bool) (operand : ValueId)
    : list bool * list N * bool :=
  let '(queued, pending, failed) := st in
  if bool_decide (use_counts !! N.to_nat operand <> Some 0) then st else
  match mjoin (definitions !! N.to_nat operand) with
  | None => st
  | Some definition =>
      match queued !! N.to_nat definition with
      | None => (queued, pending, true)
      | Some true => st
      | Some false =>
          match i ← instruction_at f locations definition;
                is_dead ← results_are_dead i use_counts; Ok (i, is_dead) with
          | Err _ => (queued, pending, true)
          | Ok (i, is_dead) =>
              if removable_when_dead types (values f) i && is_dead
              then (<[N.to_nat definition := true]> queued, definition :: pending, failed)
              else st
          end
      end
  end.

(** The [while let] loop. An instruction is pushed once for each time it is
    queued by the scan and at most once later, when its flag is set, so a fuel
    of the pending entries and the flags not set is never exhausted. *)
Fixpoint dead_loop (fuel : nat) (types : list FlowType) (f : FlowFunction) (locations : Locations)
    (definitions : Definitions) (use_counts : list Z) (removed queued : list bool) (pending : list N)
    : pass (list bool * list Z) :=
  match pending, fuel with
  | [], _ | _, O => mret (removed, use_counts)
  | id :: pending, S fuel =>
      _ ← checkpoint;
      match removed !! N.to_nat id with
      | None => proof_violation DEAD_PURE_PASS "dead-instruction worklist contains an unknown instruction"
      | Some true => dead_loop fuel types f locations definitions use_counts removed queued pending
      | Some false =>
          i ← pure_result (instruction_at f locations id);
          dead ← (if removable_when_dead types (values f) i
                  then pure_result (results_are_dead i use_counts) else mret false);
          if negb dead then dead_loop fuel types f locations definitions use_counts removed queued pending else
          let removed := <[N.to_nat id := true]> removed in
          '(use_counts, use_accounting_failed) ←
            for_each_operation_value (operation i) release_use (use_counts, false);
          if use_accounting_failed : bool
          then proof_violation DEAD_PURE_PASS "dead-instruction operand use accounting underflowed" else
          '(queued, pending, dependency_lookup_failed) ←
            for_each_operation_value (operation i)
              (queue_definition types f locations definitions use_counts) (queued, pending, false);
          if dependency_lookup_failed : bool
          then proof_violation DEAD_PURE_PASS "dead-instruction dependency lookup failed" else
          dead_loop fuel types f locations definitions use_counts removed queued pending
      end
  end.

(** ** The report *)

Definition proof_of (op : FlowOperation ValueId) : option ProofId :=
  match op with
  | BeginAccess _ _ proof | LoadOp _ proof | StoreOp _ _ proof | Allocate _ _ _ proof
  | Promote _ _ proof | ActorReserve _ _ proof | TaskAcquireSlot _ proof | Checkpoint _ proof
  | DmaTransition _ _ _ _ proof | QueueReserve _ _ proof | ValidateDeviceValue _ proof => Some proof
  | CheckOp _ _ proof => proof
  | _ => None
  end.

Definition operation_proofs (op : FlowOperation ValueId) (limits : OptimizationLimits) : pass (list ProofId) :=
  proof_vec "optimization proof reliance" limits (proof_of op).

Definition report_instruction (types : list FlowType) (f : FlowFunction) (limits : OptimizationLimits)
    (use_counts : list Z) (removed : list bool) (function_changed : bool) (i : Instruction) : pass bool :=
  _ ← checkpoint;
  let decide_ (kind : DecisionKind) (text : string) (relied_on : list ProofId) : pass unit :=
    subject ← instruction_subject (function_id f) (instruction_id i);
    push DEAD_PURE_PASS subject kind text relied_on in
  if bool_decide (removed !! N.to_nat (instruction_id i) = Some true) then
    _ ← decide_ Removed "removed a result-dead scalar instruction proven free of traps and observable effects" [];
    mret true
  else
    proofs ← operation_proofs (operation i) limits;
    if bool_decide (proofs <> []) then
      _ ← decide_ Retained "retained a proof-constrained operation without changing its safety obligation" proofs;
      mret function_changed
    else
      dead ← (if bool_decide (results i <> []) then pure_result (results_are_dead i use_counts) else mret false);
      if dead && negb (removable_when_dead types (values f) i) then
        _ ← decide_ Retained
              "retained a result-dead operation because it may trap or has observable ownership, memory, runtime, or device effects" [];
        mret function_changed
      else mret function_changed.

Definition report_block (types : list FlowType) (f : FlowFunction) (limits : OptimizationLimits)
    (use_counts : list Z) (removed : list bool) (function_changed : bool) (b : Block) : pass bool :=
  _ ← checkpoint; fold_each (report_instruction types f limits use_counts removed) (instructions b) function_changed.

(** ** The pass *)

(** The body of [for function in &mut wir.functions]. *)
Definition remove_dead_function (types : list FlowType) (limits : OptimizationLimits) (changed : bool)
    (f : FlowFunction) : pass (FlowFunction * bool) :=
  _ ← checkpoint;
  instruction_total ← function_instruction_count f;
  let total := Z.to_nat instruction_total in
  use_counts ← filled_vec (length (values f)) 0 "optimizer temporary values" (limit_values limits);
  definitions ← filled_vec (length (values f)) None "optimizer temporary values" (limit_values limits);
  locations_ ← filled_vec total None "optimizer temporary instructions" (limit_instructions limits);
  '(t, _) ← fold_each index_block (blocks f)
              ({| locations := locations_; definitions_of := definitions; uses := use_counts |}, 0%nat);
  removed ← filled_vec total false "optimizer temporary instructions" (limit_instructions limits);
  queued ← filled_vec total false "optimizer temporary instructions" (limit_instructions limits);
  _ ← reserve_items instruction_total "optimizer temporary instructions" (limit_instructions limits);
  '(queued, pending) ← fold_each (queue_block types (values f) (uses t)) (blocks f) (queued, []);
  '(removed, use_counts) ←
    dead_loop (length pending + unset queued) types f (locations t) (definitions_of t) (uses t) removed queued pending;
  function_changed ← fold_each (report_block types f limits use_counts removed) (blocks f) false;
  if function_changed : bool then f ← compact_removed f removed limits; mret (f, true)
  else mret (f, changed).

Definition eliminate_dead_pure_instructions (types : list FlowType) (functions : list FlowFunction)
    (limits : OptimizationLimits) : pass (list FlowFunction * bool) :=
  map_accum (remove_dead_function types limits) functions false.
