(* ===== verification/FlowModule.v ===== *)
(** The whole image module of [src/crates/wrela-flow-wir/src/lib.rs], its plans
    and proofs, and the compiled test group it carries from
    [src/crates/wrela-test-model/src/lib.rs]; with the equality of all its data
    that Rust derives. *)

From stdpp Require Import base numbers list option strings.
From S2P Require Import Prelude Bytes Text BuildModel Source TestEvents FlowWir Optimizer.

#[local] Open Scope Z_scope.

(** ** The compiled test group (test model) *)

Definition ScenarioId := Z.
Definition ImageGroupId := Z.
Record FunctionKey := { key_digest : Sha256Digest }.

Inductive TestKind := ComptimeUnit | IntegrationImage | DeclaredImage.

Record TestDescriptor := {
  descriptor_id : TestId;
  descriptor_name : str;
  descriptor_kind : TestKind;
  descriptor_source : option Span;
  descriptor_timeout_ns : Z;
}.

Inductive ImageRoot :=
| GeneratedHarness (harness_name : str)
| DeclaredRoot (image_name : str) (scenario : ScenarioId).

Inductive ImageTestInvocation :=
| GeneratedFunction (function_key : FunctionKey)
| DeclaredScenario.

Record PlannedAssertionDescriptor := {
  planned_source : Span;
  planned_expression : str;
  planned_message : option str;
}.

Record ImageTest := {
  image_descriptor : TestDescriptor;
  invocation : ImageTestInvocation;
  planned_assertions : list PlannedAssertionDescriptor;
}.

Record FullImageTestGroup := {
  group_id : ImageGroupId;
  group_name : str;
  group_root : ImageRoot;
  group_tests : list ImageTest;
  deterministic_seed : option Z;
  boot_timeout_ns : Z;
  shutdown_timeout_ns : Z;
  group_maximum_events : Z;
  maximum_output_bytes : Z;
}.

(** ** Plans *)

Inductive PlanOwner :=
| OwnerRuntime
| OwnerActor (actor : ActorId)
| OwnerTask (task : TaskId)
| OwnerDevice (device : DeviceId)
| OwnerPool (pool : PoolId)
| BakedArtifact (artifact : Z).

Record FlowGlobal := {
  global_id : GlobalId;
  global_name : str;
  global_ty : TypeId;
  initializer : Immediate;
  mutable : bool;
  global_owner : PlanOwner;
}.

Record ActorPlan := {
  actor_id : ActorId;
  actor_name : str;
  state_type : TypeId;
  mailbox_capacity : Z;
  message_types : list TypeId;
  turn_functions : list FunctionId;
  actor_priority : Z;
  actor_supervisor : option ActorId;
}.

Record TaskPlan := {
  task_id : TaskId;
  task_name : str;
  task_entry : FunctionId;
  slots : Z;
  task_priority : Z;
  frame_bytes_bound : Z;
  task_supervisor : option ActorId;
}.

Record DevicePlan := {
  device_id : DeviceId;
  device_name : str;
  target_binding : str;
  device_owner : ActorId;
  queue_capacity : option Z;
  maximum_in_flight : option Z;
  required_features : list str;
  optional_features : list str;
  interrupt_functions : list FunctionId;
  device_reset_timeout_ns : Z;
}.

Record PoolPlan := {
  pool_id : PoolId;
  pool_name : str;
  element_type : TypeId;
  pool_capacity : Z;
  pool_alignment : Z;
  pool_devices : list DeviceId;
}.

Inductive RegionClass :=
| RegionImage | RegionTaskFrame | RegionCall | RegionRequest | RegionPool (pool : PoolId) | RegionStatic.

Record RegionPlan := {
  region_id : RegionId;
  region_name : str;
  region_class : RegionClass;
  capacity_bytes : Z;
  region_alignment : Z;
  reset_function : option FunctionId;
  region_owner : PlanOwner;
  region_capacity_proof : ProofId;
  region_source : Span;
}.

Inductive ActivationCancellation := DropCalleeThenPropagate.

Record ActivationPlan := {
  activation_id : ActivationId;
  caller : FunctionId;
  callee : FunctionId;
  activation_region : RegionId;
  frame_bytes : Z;
  maximum_live : Z;
  cancellation : ActivationCancellation;
  activation_capacity_proof : ProofId;
  activation_source : Span;
}.

Record SchedulerPlan := {
  core : Z;
  scheduler_actors : list ActorId;
  scheduler_tasks : list TaskId;
}.

Record SourceSummary := {
  semantic_wir_version : Z;
  semantic_functions : Z;
  hir_files : Z;
  hir_declarations : Z;
  reachable_declarations : Z;
  monomorphized_instantiations : Z;
  resolved_interface_calls : Z;
}.

Inductive ProofKind :=
| TypeChecked | EffectsAllowed | DefiniteInitialization | Ownership | AccessExclusive
| ViewDoesNotEscape | RegionBound | CapacityBound | ActorReplyExactlyOnce | WaitGraphAcyclic
| CleanupAcyclic | WorkBound | StackBound | IsrSafe | ProofDmaTransition | MmioPartition
| DeviceValueValidated | WireLayout | ReceiptLineage | ActorAsIf | SupervisionComplete | ImageClosed
| FlowControl | ValueRange | Alignment | NoAlias.

Record Proof_ := {
  proof_id : ProofId;
  proof_kind : ProofKind;
  proof_subject : str;
  proof_sources : list Span;
  depends_on : list ProofId;
  bound : option Z;
  explanation : list str;
}.

Record CheckpointPlan := {
  checkpoint_id : CheckpointId;
  checkpoint_function : FunctionId;
  checkpoint_source : Span;
  uninterrupted_bound : Z;
  may_observe_cancellation : bool;
  may_yield : bool;
}.

Inductive FlowTestKind := TestComptime | TestIntegration | TestImage.

Record TestEntry := {
  entry_id : FlowTestId;
  plan_id : Z;
  entry_function_key : Sha256Digest;
  entry_name : str;
  entry_function : FunctionId;
  entry_kind : FlowTestKind;
  entry_source : Span;
  entry_timeout_ns : Z;
}.

(** ** The module *)

Record FlowWir := {
  version : Z;
  wir_name : str;
  build : BuildIdentity;
  source_summary : SourceSummary;
  types : list FlowType;
  globals : list FlowGlobal;
  functions : list FlowFunction;
  actors : list ActorPlan;
  tasks : list TaskPlan;
  devices : list DevicePlan;
  pools : list PoolPlan;
  regions : list RegionPlan;
  activations : list ActivationPlan;
  schedulers : list SchedulerPlan;
  proofs : list Proof_;
  checkpoints : list CheckpointPlan;
  tests : list TestEntry;
  compiled_test_group : option FullImageTestGroup;
  startup_order : list PlanOwner;
  shutdown_order : list PlanOwner;
  image_entry : FunctionId;
  wir_static_bytes : Z;
  wir_peak_bytes : Z;
}.

(** ** The report of the optimiser *)

Record PassStatistics := {
  statistics_pass : str;
  iterations : Z;
  statistics_changed : bool;
  instructions_before : Z;
  instructions_after : Z;
  test_entries_before : Z;
  test_entries_after : Z;
  test_table_preserved : bool;
}.

Record OptimizationReport := {
  report_profile : OptimizationProfile;
  passes : list PassStatistics;
  report_decisions : list OptimizationDecision;
}.

(** ** Derived equality *)

#[export] Instance FunctionKey_eq_dec : EqDecision FunctionKey.
Proof. solve_decision. Defined.
#[export] Instance TestKind_eq_dec : EqDecision TestKind.
Proof. solve_decision. Defined.
#[export] Instance ImageTestInvocation_eq_dec : EqDecision ImageTestInvocation.
Proof. solve_decision. Defined.
#[export] Instance PlanOwner_eq_dec : EqDecision PlanOwner.
Proof. solve_decision. Defined.
#[export] Instance Immediate_eq_dec : EqDecision Immediate.
Proof. solve_decision. Defined.
#[export] Instance RegionClass_eq_dec : EqDecision RegionClass.
Proof. solve_decision. Defined.
#[export] Instance ActivationCancellation_eq_dec : EqDecision ActivationCancellation.
Proof. solve_decision. Defined.
#[export] Instance ActivationPlan_eq_dec : EqDecision ActivationPlan.
Proof. solve_decision. Defined.
#[export] Instance SchedulerPlan_eq_dec : EqDecision SchedulerPlan.
Proof. solve_decision. Defined.
#[export] Instance SourceSummary_eq_dec : EqDecision SourceSummary.
Proof. solve_decision. Defined.
#[export] Instance ProofKind_eq_dec : EqDecision ProofKind.
Proof. solve_decision. Defined.
#[export] Instance CheckpointPlan_eq_dec : EqDecision CheckpointPlan.
Proof. solve_decision. Defined.
#[export] Instance FlowTestKind_eq_dec : EqDecision FlowTestKind.
Proof. solve_decision. Defined.
#[export] Instance AssertionFailureDescriptor_eq_dec : EqDecision AssertionFailureDescriptor.
Proof. solve_decision. Defined.
#[export] Instance AccessKind_eq_dec : EqDecision AccessKind.
Proof. solve_decision. Defined.
#[export] Instance DmaOwnership_eq_dec : EqDecision DmaOwnership.
Proof. solve_decision. Defined.
#[export] Instance FenceKind_eq_dec : EqDecision FenceKind.
Proof. solve_decision. Defined.
#[export] Instance FailureKind_eq_dec : EqDecision FailureKind.
Proof. solve_decision. Defined.
#[export] Instance BoundedStringPart_eq_dec {V} `{EqDecision V} : EqDecision (BoundedStringPart V).
Proof. solve_decision. Defined.
#[export] Instance FlowOperation_eq_dec {V} `{EqDecision V} : EqDecision (FlowOperation V).
Proof. solve_decision. Defined.
#[export] Instance SwitchCase_eq_dec {V} `{EqDecision V} : EqDecision (SwitchCase V).
Proof. solve_decision. Defined.
#[export] Instance Terminator_eq_dec {V} `{EqDecision V} : EqDecision (Terminator V).
Proof. solve_decision. Defined.
#[export] Instance FlowTypeKind_eq_dec : EqDecision FlowTypeKind.
Proof. solve_decision. Defined.
#[export] Instance FunctionRole_eq_dec : EqDecision FunctionRole.
Proof. solve_decision. Defined.
#[export] Instance FunctionColor_eq_dec : EqDecision FunctionColor.
Proof. solve_decision. Defined.
#[export] Instance FunctionOrigin_eq_dec : EqDecision FunctionOrigin.
Proof. solve_decision. Defined.
#[export] Instance DecisionKind_eq_dec : EqDecision DecisionKind.
Proof. solve_decision. Defined.
