(* ===== verification/ModelEqual.v ===== *)
(** The bounded, cancellable comparison of two modules and two reports, with
    which [seal] of [src/crates/wrela-flow-opt/src/lib.rs] decides whether an
    optimiser's output is the expected one.

    The comparators only poll for cancellation; [decides] says what their
    answer means. *)

From stdpp Require Import base numbers list option strings.
From S2P Require Import Prelude Bytes Text Interrupt BuildModel Source TestEvents FlowWir Optimizer FlowModule.

#[local] Open Scope Z_scope.

(** ** Comparators *)

Definition verdict : Type := prog OptimizeError bool.

(** [a && b?]: the right side runs only when the left side holds. *)
Definition and_then (a b : verdict) : verdict := same ← a; if same : bool then b else mret false.
#[local] Infix "&&?" := and_then (at level 40, left associativity).

(** [left == right] on data with derived equality. *)
Definition same {A} `{EqDecision A} (left_ right_ : A) : verdict := mret (bool_decide (left_ = right_)).

(** The loop over two zipped sequences. *)
Fixpoint elements_equal {T} (element_equal : T -> T -> verdict) (left_ right_ : list T) : verdict :=
  match left_, right_ with
  | l :: left_, r :: right_ =>
      _ ← check_cancelled;
      equal ← element_equal l r;
      if equal : bool then elements_equal element_equal left_ right_ else mret false
  | _, _ => _ ← check_cancelled; mret true
  end.

Definition sequence_equal {T} (element_equal : T -> T -> verdict) (left_ right_ : list T) : verdict :=
  _ ← check_cancelled;
  if negb (length left_ =? length right_)%nat then mret false else elements_equal element_equal left_ right_.

Definition fixed_sequence_equal {T} `{EqDecision T} (left_ right_ : list T) : verdict :=
  sequence_equal (fun left_ right_ => same left_ right_) left_ right_.

Definition CANCELLABLE_COMPARISON_CHUNK_BYTES : Z := 64 * 1024.

Definition bytes_equal (left_ right_ : list byte) : verdict :=
  _ ← check_cancelled;
  if negb (length left_ =? length right_)%nat then mret false else
  let pieces := chunks (Z.to_nat CANCELLABLE_COMPARISON_CHUNK_BYTES) in
  elements_equal (fun left_ right_ => same left_ right_) (pieces left_) (pieces right_).

Definition text_equal (left_ right_ : str) : verdict := bytes_equal left_ right_.

Definition optional_text_equal (left_ right_ : option str) : verdict :=
  _ ← check_cancelled;
  match left_, right_ with
  | Some left_, Some right_ => text_equal left_ right_
  | None, None => mret true
  | _, _ => mret false
  end.

Definition string_sequence_equal (left_ right_ : list str) : verdict := sequence_equal text_equal left_ right_.

Definition build_identity_equal (left_ right_ : BuildIdentity) : verdict :=
  _ ← check_cancelled;
  same (compiler left_) (compiler right_)
  &&? same (language left_) (language right_)
  &&? text_equal (target_as_str (target left_)) (target_as_str (target right_))
  &&? same (target_package left_) (target_package right_)
  &&? same (standard_library left_) (standard_library right_)
  &&? same (source_graph left_) (source_graph right_)
  &&? same (request left_) (request right_)
  &&? same (profile_digest left_) (profile_digest right_).

Definition type_kind_equal (left_ right_ : FlowTypeKind) : verdict :=
  _ ← check_cancelled;
  match left_, right_ with
  | KTuple left_, KTuple right_ | KStruct left_, KStruct right_ => fixed_sequence_equal left_ right_
  | KEnum left_, KEnum right_ => sequence_equal fixed_sequence_equal left_ right_
  | KFunction left_parameters left_result, KFunction right_parameters right_result =>
      same left_result right_result &&? fixed_sequence_equal left_parameters right_parameters
  | KOpaqueTarget left_, KOpaqueTarget right_ => text_equal left_ right_
  | _, _ => same left_ right_
  end.

Definition flow_type_equal (left_ right_ : FlowType) : verdict :=
  _ ← check_cancelled;
  same (type_id left_) (type_id right_)
  &&? type_kind_equal (kind left_) (kind right_)
  &&? optional_text_equal (type_name left_) (type_name right_)
  &&? same (copyable left_) (copyable right_)
  &&? same (strict_linear left_) (strict_linear right_).

Definition immediate_equal (left_ right_ : Immediate) : verdict :=
  _ ← check_cancelled;
  match left_, right_ with
  | ImmInteger left_bits left_, ImmInteger right_bits right_ => same left_bits right_bits &&? bytes_equal left_ right_
  | ImmBytes left_, ImmBytes right_ => bytes_equal left_ right_
  | _, _ => same left_ right_
  end.

Definition operation_equal (left_ right_ : FlowOperation ValueId) : verdict :=
  _ ← check_cancelled;
  match left_, right_ with
  | ImmediateOp left_, ImmediateOp right_ => immediate_equal left_ right_
  | MakeAggregate left_ty left_, MakeAggregate right_ty right_ =>
      same left_ty right_ty &&? fixed_sequence_equal left_ right_
  | Call left_function left_, Call right_function right_ =>
      same left_function right_function &&? fixed_sequence_equal left_ right_
  | AsyncCall left_function left_ left_plan, AsyncCall right_function right_ right_plan =>
      same left_function right_function &&? same left_plan right_plan &&? fixed_sequence_equal left_ right_
  | TaskStart left_slot left_entry left_, TaskStart right_slot right_entry right_ =>
      same left_slot right_slot &&? same left_entry right_entry &&? fixed_sequence_equal left_ right_
  | _, _ => same left_ right_
  end.

Definition instruction_equal (left_ right_ : Instruction) : verdict :=
  _ ← check_cancelled;
  same (instruction_id left_) (instruction_id right_)
  &&? fixed_sequence_equal (results left_) (results right_)
  &&? operation_equal (operation left_) (operation right_)
  &&? same (instruction_source left_) (instruction_source right_).

Definition switch_case_equal (left_ right_ : SwitchCase ValueId) : verdict :=
  _ ← check_cancelled;
  same (case_value left_) (case_value right_)
  &&? same (case_target left_) (case_target right_)
  &&? fixed_sequence_equal (case_arguments left_) (case_arguments right_).

Definition terminator_equal (left_ right_ : Terminator ValueId) : verdict :=
  _ ← check_cancelled;
  match left_, right_ with
  | Jump left_target left_, Jump right_target right_ =>
      same left_target right_target &&? fixed_sequence_equal left_ right_
  | Branch left_condition left_then left_then_arguments left_else left_else_arguments,
    Branch right_condition right_then right_then_arguments right_else right_else_arguments =>
      same left_condition right_condition
      &&? same left_then right_then
      &&? same left_else right_else
      &&? fixed_sequence_equal left_then_arguments right_then_arguments
      &&? fixed_sequence_equal left_else_arguments right_else_arguments
  | Switch left_value left_cases left_default left_arguments,
    Switch right_value right_cases right_default right_arguments =>
      same left_value right_value
      &&? same left_default right_default
      &&? sequence_equal switch_case_equal left_cases right_cases
      &&? fixed_sequence_equal left_arguments right_arguments
  | Return left_, Return right_ => fixed_sequence_equal left_ right_
  | TailCall left_function left_, TailCall right_function right_ =>
      same left_function right_function &&? fixed_sequence_equal left_ right_
  | _, _ => same left_ right_
  end.

Definition block_equal (left_ right_ : Block) : verdict :=
  _ ← check_cancelled;
  same (block_id left_) (block_id right_)
  &&? fixed_sequence_equal (block_parameters left_) (block_parameters right_)
  &&? sequence_equal instruction_equal (instructions left_) (instructions right_)
  &&? terminator_equal (terminator left_) (terminator right_)
  &&? same (block_source left_) (block_source right_).

Definition value_equal (left_ right_ : Value) : verdict :=
  _ ← check_cancelled;
  same (value_id left_) (value_id right_)
  &&? same (value_ty left_) (value_ty right_)
  &&? optional_text_equal (value_source_name left_) (value_source_name right_)
  &&? same (value_source left_) (value_source right_).

Definition function_equal (left_ right_ : FlowFunction) : verdict :=
  _ ← check_cancelled;
  same (function_id left_) (function_id right_)
  &&? text_equal (function_name left_) (function_name right_)
  &&? same (function_origin left_) (function_origin right_)
  &&? same (role left_) (role right_)
  &&? same (color left_) (color right_)
  &&? fixed_sequence_equal (parameters left_) (parameters right_)
  &&? fixed_sequence_equal (result_types left_) (result_types right_)
  &&? sequence_equal value_equal (values left_) (values right_)
  &&? sequence_equal block_equal (blocks left_) (blocks right_)
  &&? same (entry left_) (entry right_)
  &&? same (stack_bound left_) (stack_bound right_)
  &&? same (frame_bound left_) (frame_bound right_)
  &&? fixed_sequence_equal (function_proofs left_) (function_proofs right_)
  &&? same (function_source left_) (function_source right_).

Definition global_equal (left_ right_ : FlowGlobal) : verdict :=
  _ ← check_cancelled;
  same (global_id left_) (global_id right_)
  &&? text_equal (global_name left_) (global_name right_)
  &&? same (global_ty left_) (global_ty right_)
  &&? immediate_equal (initializer left_) (initializer right_)
  &&? same (mutable left_) (mutable right_)
  &&? same (global_owner left_) (global_owner right_).

Definition actor_equal (left_ right_ : ActorPlan) : verdict :=
  _ ← check_cancelled;
  same (actor_id left_) (actor_id right_)
  &&? text_equal (actor_name left_) (actor_name right_)
  &&? same (state_type left_) (state_type right_)
  &&? same (mailbox_capacity left_) (mailbox_capacity right_)
  &&? fixed_sequence_equal (message_types left_) (message_types right_)
  &&? fixed_sequence_equal (turn_functions left_) (turn_functions right_)
  &&? same (actor_priority left_) (actor_priority right_)
  &&? same (actor_supervisor left_) (actor_supervisor right_).

Definition task_equal (left_ right_ : TaskPlan) : verdict :=
  _ ← check_cancelled;
  same (task_id left_) (task_id right_)
  &&? text_equal (task_name left_) (task_name right_)
  &&? same (task_entry left_) (task_entry right_)
  &&? same (slots left_) (slots right_)
  &&? same (task_priority left_) (task_priority right_)
  &&? same (frame_bytes_bound left_) (frame_bytes_bound right_)
  &&? same (task_supervisor left_) (task_supervisor right_).

Definition device_equal (left_ right_ : DevicePlan) : verdict :=
  _ ← check_cancelled;
  same (device_id left_) (device_id right_)
  &&? text_equal (device_name left_) (device_name right_)
  &&? text_equal (target_binding left_) (target_binding right_)
  &&? same (device_owner left_) (device_owner right_)
  &&? same (queue_capacity left_) (queue_capacity right_)
  &&? same (maximum_in_flight left_) (maximum_in_flight right_)
  &&? string_sequence_equal (required_features left_) (required_features right_)
  &&? string_sequence_equal (optional_features left_) (optional_features right_)
  &&? fixed_sequence_equal (interrupt_functions left_) (interrupt_functions right_)
  &&? same (device_reset_timeout_ns left_) (device_reset_timeout_ns right_).

Definition pool_equal (left_ right_ : PoolPlan) : verdict :=
  _ ← check_cancelled;
  same (pool_id left_) (pool_id right_)
  &&? text_equal (pool_name left_) (pool_name right_)
  &&? same (element_type left_) (element_type right_)
  &&? same (pool_capacity left_) (pool_capacity right_)
  &&? same (pool_alignment left_) (pool_alignment right_)
  &&? fixed_sequence_equal (pool_devices left_) (pool_devices right_).

Definition region_equal (left_ right_ : RegionPlan) : verdict :=
  _ ← check_cancelled;
  same (region_id left_) (region_id right_)
  &&? text_equal (region_name left_) (region_name right_)
  &&? same (region_class left_) (region_class right_)
  &&? same (capacity_bytes left_) (capacity_bytes right_)
  &&? same (region_alignment left_) (region_alignment right_)
  &&? same (reset_function left_) (reset_function right_)
  &&? same (region_owner left_) (region_owner right_)
  &&? same (region_capacity_proof left_) (region_capacity_proof right_)
  &&? same (region_source left_) (region_source right_).

Definition proof_equal (left_ right_ : Proof_) : verdict :=
  _ ← check_cancelled;
  same (proof_id left_) (proof_id right_)
  &&? same (proof_kind left_) (proof_kind right_)
  &&? text_equal (proof_subject left_) (proof_subject right_)
  &&? fixed_sequence_equal (proof_sources left_) (proof_sources right_)
  &&? fixed_sequence_equal (depends_on left_) (depends_on right_)
  &&? same (bound left_) (bound right_)
  &&? string_sequence_equal (explanation left_) (explanation right_).

Definition test_entry_equal (left_ right_ : TestEntry) : verdict :=
  _ ← check_cancelled;
  same (entry_id left_) (entry_id right_)
  &&? same (plan_id left_) (plan_id right_)
  &&? same (entry_function_key left_) (entry_function_key right_)
  &&? text_equal (entry_name left_) (entry_name right_)
  &&? same (entry_function left_) (entry_function right_)
  &&? same (entry_kind left_) (entry_kind right_)
  &&? same (entry_source left_) (entry_source right_)
  &&? same (entry_timeout_ns left_) (entry_timeout_ns right_).

Definition test_descriptor_equal (left_ right_ : TestDescriptor) : verdict :=
  _ ← check_cancelled;
  same (descriptor_id left_) (descriptor_id right_)
  &&? text_equal (descriptor_name left_) (descriptor_name right_)
  &&? same (descriptor_kind left_) (descriptor_kind right_)
  &&? same (descriptor_source left_) (descriptor_source right_)
  &&? same (descriptor_timeout_ns left_) (descriptor_timeout_ns right_).

Definition image_test_equal (left_ right_ : ImageTest) : verdict :=
  _ ← check_cancelled;
  test_descriptor_equal (image_descriptor left_) (image_descriptor right_)
  &&? same (invocation left_) (invocation right_).

Definition image_root_equal (left_ right_ : ImageRoot) : verdict :=
  _ ← check_cancelled;
  match left_, right_ with
  | GeneratedHarness left_, GeneratedHarness right_ => text_equal left_ right_
  | DeclaredRoot left_ left_scenario, DeclaredRoot right_ right_scenario =>
      same left_scenario right_scenario &&? text_equal left_ right_
  | _, _ => mret false
  end.

Definition compiled_test_group_equal (left_ right_ : FullImageTestGroup) : verdict :=
  _ ← check_cancelled;
  same (group_id left_) (group_id right_)
  &&? text_equal (group_name left_) (group_name right_)
  &&? image_root_equal (group_root left_) (group_root right_)
  &&? sequence_equal image_test_equal (group_tests left_) (group_tests right_)
  &&? same (deterministic_seed left_) (deterministic_seed right_)
  &&? same (boot_timeout_ns left_) (boot_timeout_ns right_)
  &&? same (shutdown_timeout_ns left_) (shutdown_timeout_ns right_)
  &&? same (group_maximum_events left_) (group_maximum_events right_)
  &&? same (maximum_output_bytes left_) (maximum_output_bytes right_).

Definition optional_compiled_test_group_equal (left_ right_ : option FullImageTestGroup) : verdict :=
  _ ← check_cancelled;
  match left_, right_ with
  | Some left_, Some right_ => compiled_test_group_equal left_ right_
  | None, None => mret true
  | _, _ => mret false
  end.

Definition flow_wir_equal (left_ right_ : FlowWir) : verdict :=
  _ ← check_cancelled;
  same (version left_) (version right_)
  &&? text_equal (wir_name left_) (wir_name right_)
  &&? build_identity_equal (build left_) (build right_)
  &&? same (source_summary left_) (source_summary right_)
  &&? sequence_equal flow_type_equal (types left_) (types right_)
  &&? sequence_equal global_equal (globals left_) (globals right_)
  &&? sequence_equal function_equal (functions left_) (functions right_)
  &&? sequence_equal actor_equal (actors left_) (actors right_)
  &&? sequence_equal task_equal (tasks left_) (tasks right_)
  &&? sequence_equal device_equal (devices left_) (devices right_)
  &&? sequence_equal pool_equal (pools left_) (pools right_)
  &&? sequence_equal region_equal (regions left_) (regions right_)
  &&? fixed_sequence_equal (activations left_) (activations right_)
  &&? sequence_equal proof_equal (proofs left_) (proofs right_)
  &&? fixed_sequence_equal (checkpoints left_) (checkpoints right_)
  &&? sequence_equal test_entry_equal (tests left_) (tests right_)
  &&? optional_compiled_test_group_equal (compiled_test_group left_) (compiled_test_group right_)
  &&? fixed_sequence_equal (startup_order left_) (startup_order right_)
  &&? fixed_sequence_equal (shutdown_order left_) (shutdown_order right_)
  &&? same (image_entry left_) (image_entry right_)
  &&? same (wir_static_bytes left_) (wir_static_bytes right_)
  &&? same (wir_peak_bytes left_) (wir_peak_bytes right_).

Definition optimization_profile_equal (left_ right_ : OptimizationProfile) : verdict :=
  _ ← check_cancelled;
  same (profile_level left_) (profile_level right_)
  &&? text_equal (pipeline_name (pipeline left_)) (pipeline_name (pipeline right_))
  &&? same (pipeline_revision (pipeline left_)) (pipeline_revision (pipeline right_))
  &&? same (pipeline_implementation (pipeline left_)) (pipeline_implementation (pipeline right_))
  &&? same (verify_after_each_pass left_) (verify_after_each_pass right_)
  &&? same (maximum_iterations left_) (maximum_iterations right_)
  &&? same (maximum_ir_growth_percent left_) (maximum_ir_growth_percent right_).

Definition pass_statistics_equal (left_ right_ : PassStatistics) : verdict :=
  _ ← check_cancelled;
  text_equal (statistics_pass left_) (statistics_pass right_)
  &&? same (iterations left_) (iterations right_)
  &&? same (statistics_changed left_) (statistics_changed right_)
  &&? same (instructions_before left_) (instructions_before right_)
  &&? same (instructions_after left_) (instructions_after right_)
  &&? same (test_entries_before left_) (test_entries_before right_)
  &&? same (test_entries_after left_) (test_entries_after right_)
  &&? same (test_table_preserved left_) (test_table_preserved right_).

Definition optimization_decision_equal (left_ right_ : OptimizationDecision) : verdict :=
  _ ← check_cancelled;
  text_equal (decision_pass left_) (decision_pass right_)
  &&? text_equal (decision_subject left_) (decision_subject right_)
  &&? same (decision_kind left_) (decision_kind right_)
  &&? text_equal (justification left_) (justification right_)
  &&? fixed_sequence_equal (relied_on left_) (relied_on right_).

Definition optimization_report_equal (left_ right_ : OptimizationReport) : verdict :=
  _ ← check_cancelled;
  optimization_profile_equal (report_profile left_) (report_profile right_)
  &&? sequence_equal pass_statistics_equal (passes left_) (passes right_)
  &&? sequence_equal optimization_decision_equal (report_decisions left_) (report_decisions right_).

(** ** What the comparison sees

    The comparators skip two fields: the [schedulers] of a module and the
    [assertions] of the tests of its compiled group. *)

Definition compared_test (t : ImageTest) : ImageTest :=
  {| image_descriptor := image_descriptor t; invocation := invocation t; planned_assertions := [] |}.

Definition compared_group (g : FullImageTestGroup) : FullImageTestGroup := {|
  group_id := group_id g;
  group_name := group_name g;
  group_root := group_root g;
  group_tests := map compared_test (group_tests g);
  deterministic_seed := deterministic_seed g;
  boot_timeout_ns := boot_timeout_ns g;
  shutdown_timeout_ns := shutdown_timeout_ns g;
  group_maximum_events := group_maximum_events g;
  maximum_output_bytes := maximum_output_bytes g;
|}.

Definition compared (w : FlowWir) : FlowWir := {|
  version := version w;
  wir_name := wir_name w;
  build := build w;
  source_summary := source_summary w;
  types := types w;
  globals := globals w;
  functions := functions w;
  actors := actors w;
  tasks := tasks w;
  devices := devices w;
  pools := pools w;
  regions := regions w;
  activations := activations w;
  schedulers := [];
  proofs := proofs w;
  checkpoints := checkpoints w;
  tests := tests w;
  compiled_test_group := compared_group <$> compiled_test_group w;
  startup_order := startup_order w;
  shutdown_order := shutdown_order w;
  image_entry := image_entry w;
  wir_static_bytes := wir_static_bytes w;
  wir_peak_bytes := wir_peak_bytes w;
|}.

(** ** Deciding comparisons

    [decides m P]: left alone, [m] answers whether [P] holds, and the
    environment can only turn that answer into [Cancelled]. *)

Definition decides (m : verdict) (P : Prop) : Prop :=
  (exists b, quiet m = Ok b /\ (b = true <-> P)) /\ interruptible (eq Cancelled) m.

Create HintDb compare discriminated.
#[export] Hint Constants Opaque : compare.

Lemma decides_iff m P Q : decides m P -> (P <-> Q) -> decides m Q.
Proof. intros [(b & Hb & HP) Hi] HPQ. split; [|done]. exists b. by rewrite <- HPQ. Qed.

Lemma decides_run m P env w :
  decides m P ->
  fst (Interrupt.run env w m) = Err Cancelled
  \/ exists answer, fst (Interrupt.run env w m) = Ok answer /\ (answer = true <-> P).
Proof.
  intros [(b & Hb & HP) Hi].
  destruct (run_interruptible _ env w _ Hi) as [->|(e & -> & <-)]; [right; eauto|by left].
Qed.

Lemma decides_poll m P : decides m P -> decides (_ ← check_cancelled; m) P.
Proof.
  intros [(b & Hb & HP) Hi]. split; [by exists b|].
  apply interruptible_bind; [by apply interruptible_poll|done].
Qed.

Lemma decides_ret b P : (b = true <-> P) -> decides (mret b) P.
Proof. intros H. split; [by exists b|apply _]. Qed.

Lemma decides_and_then a b P Q : decides a P -> decides b Q -> decides (a &&? b) (P /\ Q).
Proof.
  intros [(x & Hx & HP) Hi] [(y & Hy & HQ) Hj]. split.
  - exists (x && y). split.
    + unfold and_then. rewrite quiet_bind, Hx. by destruct x.
    + rewrite andb_true_iff. by rewrite HP, HQ.
  - apply interruptible_bind; [done|]. by intros [].
Qed.

Lemma decides_same {A} `{EqDecision A} (x y : A) : decides (same x y) (x = y).
Proof. apply decides_ret, bool_decide_eq_true. Qed.

Lemma decides_false (P : Prop) : ~ P -> decides (mret false) P.
Proof. intros H. by apply decides_ret. Qed.

Lemma decides_true (P : Prop) : P -> decides (mret true) P.
Proof. intros H. by apply decides_ret. Qed.

Lemma elements_equal_decides {T} element_equal (R : T -> T -> Prop) left_ right_ :
  (forall x y, decides (element_equal x y) (R x y)) -> length left_ = length right_ ->
  decides (elements_equal element_equal left_ right_) (Forall2 R left_ right_).
Proof.
  intros He. revert right_. induction left_ as [|x left_ IH]; intros [|y right_] Hlen; try done; simpl.
  - by apply decides_poll, decides_true.
  - apply decides_poll. eapply decides_iff; [apply (decides_and_then _ _ _ _ (He x y) (IH right_ ltac:(simpl in Hlen; lia)))|].
    by rewrite Forall2_cons.
Qed.

Lemma sequence_equal_decides {T U} element_equal (f : T -> U) left_ right_ :
  (forall x y, decides (element_equal x y) (f x = f y)) ->
  decides (sequence_equal element_equal left_ right_) (map f left_ = map f right_).
Proof.
  intros He. apply decides_poll. destruct (Nat.eqb_spec (length left_) (length right_)) as [Hlen|Hlen]; simpl.
  - eapply decides_iff; [by apply (elements_equal_decides _ (fun x y => f x = f y))|].
    change (map f) with (fmap f : list T -> list U). by rewrite list_eq_Forall2, Forall2_fmap.
  - apply decides_false. intros H. apply Hlen. by rewrite <- (length_map f), H, length_map.
Qed.

Lemma sequence_equal_exact {T} element_equal (left_ right_ : list T) :
  (forall x y, decides (element_equal x y) (x = y)) ->
  decides (sequence_equal element_equal left_ right_) (left_ = right_).
Proof.
  intros He. eapply decides_iff; [by apply (sequence_equal_decides _ (fun x => x))|].
  by rewrite !map_id.
Qed.

Lemma fixed_sequence_equal_exact {T} `{EqDecision T} (left_ right_ : list T) :
  decides (fixed_sequence_equal left_ right_) (left_ = right_).
Proof. apply sequence_equal_exact. intros. apply decides_same. Qed.

Lemma chunk_positive : (0 < Z.to_nat CANCELLABLE_COMPARISON_CHUNK_BYTES)%nat.
Proof. unfold CANCELLABLE_COMPARISON_CHUNK_BYTES. lia. Qed.

Lemma bytes_equal_exact left_ right_ : decides (bytes_equal left_ right_) (left_ = right_).
Proof.
  apply decides_poll. destruct (Nat.eqb_spec (length left_) (length right_)) as [Hlen|Hlen]; simpl.
  - eapply decides_iff.
    + apply (elements_equal_decides _ eq); [intros; apply decides_same|]. by apply length_chunks_ext.
    + rewrite <- list_eq_Forall2. split; [|by intros ->].
      intros H. rewrite <- (concat_chunks (Z.to_nat CANCELLABLE_COMPARISON_CHUNK_BYTES) left_) by apply chunk_positive.
      rewrite H. apply concat_chunks, chunk_positive.
  - apply decides_false. intros ->. done.
Qed.

#[export] Hint Resolve decides_same fixed_sequence_equal_exact bytes_equal_exact : compare.
#[export] Hint Resolve sequence_equal_exact : compare.

(** Split a comparison into its conjuncts, decide each with the lemmas of
    [compare], and compare the records field by field. *)
Ltac decide_conjuncts :=
  repeat lazymatch goal with
  | |- decides (_ ← check_cancelled; _) _ => apply decides_poll
  | |- decides (_ &&? _) _ => apply decides_and_then
  end; eauto with compare.
Ltac decide_fields :=
  eapply decides_iff; [decide_conjuncts|].
Ltac by_fields :=
  unfold compared, compared_group, compared_test; simpl;
  split; [intros; destruct_and?; subst; f_equal; (reflexivity || assumption)|intros [=]; subst; repeat split; assumption].
Ltac decide_record l r := decide_fields; destruct l, r; by_fields.

Lemma text_equal_exact l r : decides (text_equal l r) (l = r).
Proof. apply bytes_equal_exact. Qed.
#[export] Hint Resolve text_equal_exact : compare.

Lemma optional_text_equal_exact l r : decides (optional_text_equal l r) (l = r).
Proof.
  apply decides_poll. destruct l as [l|], r as [r|];
    [|by apply decides_false|by apply decides_false|by apply decides_true].
  eapply decides_iff; [apply text_equal_exact|]. naive_solver.
Qed.
#[export] Hint Resolve optional_text_equal_exact : compare.

Lemma string_sequence_equal_exact l r : decides (string_sequence_equal l r) (l = r).
Proof. unfold string_sequence_equal. eauto with compare. Qed.
#[export] Hint Resolve string_sequence_equal_exact : compare.

Lemma build_identity_equal_exact l r : decides (build_identity_equal l r) (l = r).
Proof.
  unfold build_identity_equal. decide_fields. destruct l as [? ? []], r as [? ? []]. by_fields.
Qed.
#[export] Hint Resolve build_identity_equal_exact : compare.

Lemma type_kind_equal_exact l r : decides (type_kind_equal l r) (l = r).
Proof.
  apply decides_poll. destruct l; try apply decides_same; destruct r; try apply decides_same;
    decide_fields; by_fields.
Qed.
#[export] Hint Resolve type_kind_equal_exact : compare.

Lemma flow_type_equal_exact l r : decides (flow_type_equal l r) (l = r).
Proof. unfold flow_type_equal. decide_record l r. Qed.
#[export] Hint Resolve flow_type_equal_exact : compare.

Lemma immediate_equal_exact l r : decides (immediate_equal l r) (l = r).
Proof.
  apply decides_poll. destruct l; try apply decides_same; destruct r; try apply decides_same;
    decide_fields; by_fields.
Qed.
#[export] Hint Resolve immediate_equal_exact : compare.

Lemma operation_equal_exact l r : decides (operation_equal l r) (l = r).
Proof.
  apply decides_poll. destruct l; try apply decides_same; destruct r; try apply decides_same;
    decide_fields; by_fields.
Qed.
#[export] Hint Resolve operation_equal_exact : compare.

Lemma instruction_equal_exact l r : decides (instruction_equal l r) (l = r).
Proof. unfold instruction_equal. decide_record l r. Qed.
#[export] Hint Resolve instruction_equal_exact : compare.

Lemma switch_case_equal_exact l r : decides (switch_case_equal l r) (l = r).
Proof. unfold switch_case_equal. decide_record l r. Qed.
#[export] Hint Resolve switch_case_equal_exact : compare.

Lemma terminator_equal_exact l r : decides (terminator_equal l r) (l = r).
Proof.
  apply decides_poll. destruct l; try apply decides_same; destruct r; try apply decides_same;
    decide_fields; by_fields.
Qed.
#[export] Hint Resolve terminator_equal_exact : compare.

Lemma block_equal_exact l r : decides (block_equal l r) (l = r).
Proof. unfold block_equal. decide_record l r. Qed.
#[export] Hint Resolve block_equal_exact : compare.

Lemma value_equal_exact l r : decides (value_equal l r) (l = r).
Proof. unfold value_equal. decide_record l r. Qed.
#[export] Hint Resolve value_equal_exact : compare.

Lemma function_equal_exact l r : decides (function_equal l r) (l = r).
Proof. unfold function_equal. decide_record l r. Qed.
#[export] Hint Resolve function_equal_exact : compare.

Lemma global_equal_exact l r : decides (global_equal l r) (l = r).
Proof. unfold global_equal. decide_record l r. Qed.
#[export] Hint Resolve global_equal_exact : compare.

Lemma actor_equal_exact l r : decides (actor_equal l r) (l = r).
Proof. unfold actor_equal. decide_record l r. Qed.
#[export] Hint Resolve actor_equal_exact : compare.

Lemma task_equal_exact l r : decides (task_equal l r) (l = r).
Proof. unfold task_equal. decide_record l r. Qed.
#[export] Hint Resolve task_equal_exact : compare.

Lemma device_equal_exact l r : decides (device_equal l r) (l = r).
Proof. unfold device_equal. decide_record l r. Qed.
#[export] Hint Resolve device_equal_exact : compare.

Lemma pool_equal_exact l r : decides (pool_equal l r) (l = r).
Proof. unfold pool_equal. decide_record l r. Qed.
#[export] Hint Resolve pool_equal_exact : compare.

Lemma region_equal_exact l r : decides (region_equal l r) (l = r).
Proof. unfold region_equal. decide_record l r. Qed.
#[export] Hint Resolve region_equal_exact : compare.

Lemma proof_equal_exact l r : decides (proof_equal l r) (l = r).
Proof. unfold proof_equal. decide_record l r. Qed.
#[export] Hint Resolve proof_equal_exact : compare.

Lemma test_entry_equal_exact l r : decides (test_entry_equal l r) (l = r).
Proof. unfold test_entry_equal. decide_record l r. Qed.
#[export] Hint Resolve test_entry_equal_exact : compare.

Lemma test_descriptor_equal_exact l r : decides (test_descriptor_equal l r) (l = r).
Proof. unfold test_descriptor_equal. decide_record l r. Qed.
#[export] Hint Resolve test_descriptor_equal_exact : compare.

Lemma image_root_equal_exact l r : decides (image_root_equal l r) (l = r).
Proof.
  apply decides_poll. destruct l, r; try (by apply decides_false); decide_fields; by_fields.
Qed.
#[export] Hint Resolve image_root_equal_exact : compare.

Lemma image_test_equal_compares l r : decides (image_test_equal l r) (compared_test l = compared_test r).
Proof. unfold image_test_equal. decide_record l r. Qed.

Lemma image_tests_equal_compares l r :
  decides (sequence_equal image_test_equal l r) (map compared_test l = map compared_test r).
Proof. apply sequence_equal_decides, image_test_equal_compares. Qed.
#[export] Hint Resolve image_tests_equal_compares : compare.

Lemma compiled_test_group_equal_compares l r :
  decides (compiled_test_group_equal l r) (compared_group l = compared_group r).
Proof. unfold compiled_test_group_equal. decide_record l r. Qed.

Lemma optional_compiled_test_group_equal_compares l r :
  decides (optional_compiled_test_group_equal l r) (compared_group <$> l = compared_group <$> r).
Proof.
  apply decides_poll. destruct l as [l|], r as [r|];
    [|by apply decides_false|by apply decides_false|by apply decides_true].
  eapply decides_iff; [apply compiled_test_group_equal_compares|].
  split; [by intros H; simpl; rewrite H|by intros H%(inj Some)].
Qed.
#[export] Hint Resolve optional_compiled_test_group_equal_compares : compare.

Lemma optimization_profile_equal_exact l r : decides (optimization_profile_equal l r) (l = r).
Proof. unfold optimization_profile_equal. decide_fields. destruct l as [? []], r as [? []]. by_fields. Qed.
#[export] Hint Resolve optimization_profile_equal_exact : compare.

Lemma pass_statistics_equal_exact l r : decides (pass_statistics_equal l r) (l = r).
Proof. unfold pass_statistics_equal. decide_record l r. Qed.
#[export] Hint Resolve pass_statistics_equal_exact : compare.

Lemma optimization_decision_equal_exact l r : decides (optimization_decision_equal l r) (l = r).
Proof. unfold optimization_decision_equal. decide_record l r. Qed.
#[export] Hint Resolve optimization_decision_equal_exact : compare.

Lemma flow_wir_equal_compares l r : decides (flow_wir_equal l r) (compared l = compared r).
Proof. unfold flow_wir_equal. decide_record l r. Qed.

(** ** The comparison of modules and of reports *)

(** C32: in every environment, [flow_wir_equal] either is cancelled or answers
    exactly whether the two modules agree on everything it compares: every
    field but the schedulers and the assertions of the compiled tests. *)
Theorem flow_wir_equal_exact left_ right_ env w :
  fst (Interrupt.run env w (flow_wir_equal left_ right_)) = Err Cancelled
  \/ exists answer, fst (Interrupt.run env w (flow_wir_equal left_ right_)) = Ok answer
       /\ (answer = true <-> compared left_ = compared right_).
Proof. apply decides_run, flow_wir_equal_compares. Qed.

(** A module with other schedulers. *)
Definition with_schedulers (m : FlowWir) (plans : list SchedulerPlan) : FlowWir := {|
  version := version m;
  wir_name := wir_name m;
  build := build m;
  source_summary := source_summary m;
  types := types m;
  globals := globals m;
  functions := functions m;
  actors := actors m;
  tasks := tasks m;
  devices := devices m;
  pools := pools m;
  regions := regions m;
  activations := activations m;
  schedulers := plans;
  proofs := proofs m;
  checkpoints := checkpoints m;
  tests := tests m;
  compiled_test_group := compiled_test_group m;
  startup_order := startup_order m;
  shutdown_order := shutdown_order m;
  image_entry := image_entry m;
  wir_static_bytes := wir_static_bytes m;
  wir_peak_bytes := wir_peak_bytes m;
|}.

(** The comparison cannot tell two modules apart by their schedulers alone,
    although [seal] is documented to accept only an exactly equal module. *)
Lemma schedulers_are_not_compared m plans :
  quiet (flow_wir_equal m (with_schedulers m plans)) = Ok true.
Proof.
  destruct (flow_wir_equal_compares m (with_schedulers m plans)) as [(b & -> & Hb) _].
  f_equal. by apply Hb.
Qed.

(** In every environment, [optimization_report_equal] either is cancelled
    or answers exactly whether the two reports are equal, text by text and
    decision by decision. *)
Theorem optimization_report_equal_exact left_ right_ env w :
  fst (Interrupt.run env w (optimization_report_equal left_ right_)) = Err Cancelled
  \/ exists answer, fst (Interrupt.run env w (optimization_report_equal left_ right_)) = Ok answer
       /\ (answer = true <-> left_ = right_).
Proof. apply decides_run. unfold optimization_report_equal. decide_record left_ right_. Qed.
