(* ===== verification/ModelScan.v ===== *)
(** The resource scan of [src/crates/wrela-flow-opt/src/lib.rs]: [scan_model]
    measures a module against the limits of the optimiser before it is worked
    on, [scan_report] a report, charging the work as they go. *)

From stdpp Require Import base numbers list option strings.
From S2P Require Import Prelude Bytes Interrupt BuildModel FlowWir Optimizer FlowOperands FoldPass FlowModule.

#[local] Open Scope Z_scope.

(** ** The meter *)

Record ModelResources := {
  res_functions : Z;
  res_tests : Z;
  res_blocks : Z;
  res_instructions : Z;
  res_values : Z;
  res_proofs : Z;
  model_edges : Z;
  payload_bytes : Z;
  scan_work : Z;
}.

Definition no_resources : ModelResources := {|
  res_functions := 0; res_tests := 0; res_blocks := 0; res_instructions := 0; res_values := 0;
  res_proofs := 0; model_edges := 0; payload_bytes := 0; scan_work := 0 |}.

(** A step of the scan: it updates the resources and charges the work meter. *)
Definition meter (A : Type) : Type := stateT ModelResources pass A.

Definition on_work {A} (m : pass A) : meter A := liftS m.
(** Replace the resources by a computed record. *)
Definition update (g : ModelResources -> result OptimizeError ModelResources) : meter unit := fun r =>
  r ← pure_result (g r); mret (tt, r).

(** Visit the elements of a collection. *)
Fixpoint each {X} (step : X -> meter unit) (xs : list X) : meter unit :=
  match xs with
  | [] => mret tt
  | x :: xs => _ ← step x; each step xs
  end.

Section meter.
  Context (limits : OptimizationLimits).

  (** [scan_work.checked_add(amount)]. *)
Definition add_scan_work (amount : Z) (r : ModelResources) : result OptimizeError ModelResources :=
    next ← ok_or (checked_add 64 (scan_work r) amount) (ResourceLimit "optimizer work" (limit_work limits));
    mret {| res_functions := res_functions r; res_tests := res_tests r; res_blocks := res_blocks r;
            res_instructions := res_instructions r; res_values := res_values r; res_proofs := res_proofs r;
            model_edges := model_edges r; payload_bytes := payload_bytes r; scan_work := next |}.

Definition add_edges (amount : Z) (r : ModelResources) : result OptimizeError ModelResources :=
    next ← add_bounded (model_edges r) amount "FlowWir model edges" (limit_model_edges limits);
    mret {| res_functions := res_functions r; res_tests := res_tests r; res_blocks := res_blocks r;
            res_instructions := res_instructions r; res_values := res_values r; res_proofs := res_proofs r;
            model_edges := next; payload_bytes := payload_bytes r; scan_work := scan_work r |}.

Definition add_payload (amount : Z) (r : ModelResources) : result OptimizeError ModelResources :=
    next ← add_bounded (payload_bytes r) amount "FlowWir payload bytes" (limit_payload_bytes limits);
    mret {| res_functions := res_functions r; res_tests := res_tests r; res_blocks := res_blocks r;
            res_instructions := res_instructions r; res_values := res_values r; res_proofs := res_proofs r;
            model_edges := model_edges r; payload_bytes := next; scan_work := scan_work r |}.

  (** [ModelMeter::visit]. *)
Definition visit : meter unit := _ ← update (add_scan_work 1); on_work checkpoint.

  (** [ModelMeter::collection]. *)
Definition collection {X} (xs : list X) : meter unit :=
    let length := len xs in
    _ ← update (add_edges length);
    _ ← update (add_scan_work length);
    _ ← on_work (charge length);
    on_work checkpoint.

  (** [ModelMeter::payload]. *)
Definition payload (bytes : str) : meter unit :=
    let length := len bytes in
    _ ← update (add_payload length);
    _ ← update (add_scan_work length);
    _ ← on_work (charge length);
    on_work checkpoint.

  (** [ModelMeter::functions], [proofs] and [tests]: the field is set, then checked. *)
Definition meter_functions (length : Z) : meter unit := update (fun r =>
    _ ← ensure_limit length "FlowWir functions" (limit_functions limits);
    mret {| res_functions := length; res_tests := res_tests r; res_blocks := res_blocks r;
            res_instructions := res_instructions r; res_values := res_values r; res_proofs := res_proofs r;
            model_edges := model_edges r; payload_bytes := payload_bytes r; scan_work := scan_work r |}).
Definition meter_proofs (length : Z) : meter unit := update (fun r =>
    _ ← ensure_limit length "FlowWir proofs" (limit_proofs limits);
    mret {| res_functions := res_functions r; res_tests := res_tests r; res_blocks := res_blocks r;
            res_instructions := res_instructions r; res_values := res_values r; res_proofs := length;
            model_edges := model_edges r; payload_bytes := payload_bytes r; scan_work := scan_work r |}).
Definition meter_tests (length : Z) : meter unit := update (fun r =>
    _ ← ensure_limit length "FlowWir tests" (limit_tests limits);
    mret {| res_functions := res_functions r; res_tests := length; res_blocks := res_blocks r;
            res_instructions := res_instructions r; res_values := res_values r; res_proofs := res_proofs r;
            model_edges := model_edges r; payload_bytes := payload_bytes r; scan_work := scan_work r |}).

  (** [ModelMeter::add_blocks], [add_instructions] and [add_values]. *)
Definition add_blocks (length : Z) : meter unit := update (fun r =>
    next ← add_bounded (res_blocks r) length "FlowWir blocks" (limit_blocks limits);
    mret {| res_functions := res_functions r; res_tests := res_tests r; res_blocks := next;
            res_instructions := res_instructions r; res_values := res_values r; res_proofs := res_proofs r;
            model_edges := model_edges r; payload_bytes := payload_bytes r; scan_work := scan_work r |}).
Definition add_instructions (length : Z) : meter unit := update (fun r =>
    next ← add_bounded (res_instructions r) length "FlowWir instructions" (limit_instructions limits);
    mret {| res_functions := res_functions r; res_tests := res_tests r; res_blocks := res_blocks r;
            res_instructions := next; res_values := res_values r; res_proofs := res_proofs r;
            model_edges := model_edges r; payload_bytes := payload_bytes r; scan_work := scan_work r |}).
Definition add_values (length : Z) : meter unit := update (fun r =>
    next ← add_bounded (res_values r) length "FlowWir values" (limit_values limits);
    mret {| res_functions := res_functions r; res_tests := res_tests r; res_blocks := res_blocks r;
            res_instructions := res_instructions r; res_values := next; res_proofs := res_proofs r;
            model_edges := model_edges r; payload_bytes := payload_bytes r; scan_work := scan_work r |}).

  (** ** The parts of a module *)

Definition optional_payload (name : option str) : meter unit :=
    match name with Some name => payload name | None => mret tt end.
Definition named (name : str) : meter unit := _ ← visit; payload name.

Definition scan_immediate (immediate : Immediate) : meter unit :=
    _ ← visit;
    match immediate with
    | ImmInteger _ bytes_le | ImmBytes bytes_le => payload bytes_le
    | _ => mret tt
    end.

Definition scan_part (part : BoundedStringPart ValueId) : meter unit :=
    _ ← visit; match part with PartText value _ => payload value | _ => mret tt end.

Definition scan_operation (op : FlowOperation ValueId) : meter unit :=
    _ ← visit;
    match op with
    | ImmediateOp value => scan_immediate value
    | MakeAggregate _ fields | Call _ fields | AsyncCall _ fields _ | TaskStart _ _ fields => collection fields
    | FormatBoundedString _ parts => _ ← collection parts; each scan_part parts
    | _ => mret tt
    end.

Definition scan_case (case : SwitchCase ValueId) : meter unit :=
    _ ← visit; collection (case_arguments case).

Definition scan_terminator (t : Terminator ValueId) : meter unit :=
    _ ← visit;
    match t with
    | Jump _ arguments | Return arguments | TailCall _ arguments => collection arguments
    | Branch _ _ then_arguments _ else_arguments => _ ← collection then_arguments; collection else_arguments
    | Switch _ cases _ default_arguments =>
        _ ← collection cases;
        _ ← each scan_case cases;
        collection default_arguments
    | Suspend _ _ _ | Trap _ _ | Unreachable => mret tt
    end.

Definition scan_variant (variant : list TypeId) : meter unit := _ ← visit; collection variant.

Definition scan_type (ty : FlowType) : meter unit :=
    _ ← visit;
    _ ← optional_payload (type_name ty);
    match kind ty with
    | KTuple fields | KStruct fields => collection fields
    | KEnum variants => _ ← collection variants; each scan_variant variants
    | KFunction parameters _ => collection parameters
    | KOpaqueTarget name => payload name
    | _ => mret tt
    end.

Definition scan_global (g : FlowGlobal) : meter unit :=
    _ ← visit; _ ← payload (global_name g); scan_immediate (initializer g).

Definition scan_value (v : Value) : meter unit := _ ← visit; optional_payload (value_source_name v).

Definition scan_instruction (i : Instruction) : meter unit :=
    _ ← visit; _ ← collection (results i); scan_operation (operation i).

Definition scan_block (b : Block) : meter unit :=
    _ ← visit;
    _ ← collection (block_parameters b);
    _ ← add_instructions (len (instructions b));
    _ ← collection (instructions b);
    _ ← each scan_instruction (instructions b);
    scan_terminator (terminator b).

Definition scan_function (f : FlowFunction) : meter unit :=
    _ ← visit;
    _ ← payload (function_name f);
    _ ← collection (parameters f);
    _ ← collection (result_types f);
    _ ← collection (function_proofs f);
    _ ← add_values (len (values f));
    _ ← collection (values f);
    _ ← each scan_value (values f);
    _ ← add_blocks (len (blocks f));
    _ ← collection (blocks f);
    each scan_block (blocks f).

Definition scan_actor (a : ActorPlan) : meter unit :=
    _ ← visit; _ ← payload (actor_name a); _ ← collection (message_types a); collection (turn_functions a).
Definition scan_task (t : TaskPlan) : meter unit := named (task_name t).
Definition scan_device (d : DevicePlan) : meter unit :=
    _ ← visit;
    _ ← payload (device_name d);
    _ ← payload (target_binding d);
    _ ← collection (required_features d);
    _ ← each named (required_features d);
    _ ← collection (optional_features d);
    _ ← each named (optional_features d);
    collection (interrupt_functions d).
Definition scan_pool (p : PoolPlan) : meter unit := _ ← visit; _ ← payload (pool_name p); collection (pool_devices p).
Definition scan_region (r : RegionPlan) : meter unit := named (region_name r).
Definition scan_proof (p : Proof_) : meter unit :=
    _ ← visit;
    _ ← payload (proof_subject p);
    _ ← collection (proof_sources p);
    _ ← collection (depends_on p);
    _ ← collection (explanation p);
    each named (explanation p).
Definition scan_test (t : TestEntry) : meter unit := named (entry_name t).

  (** ** The compiled test group *)

  (** The payload of the group is counted on its own as well. *)
Definition scan_compiled_test_group_text (text : str) (group_payload_bytes group_payload_limit : Z) : meter Z :=
    next ← on_work (pure_result (add_bounded group_payload_bytes (len text)
      "compiled test-group payload bytes" group_payload_limit));
    _ ← payload text;
    mret next.

Fixpoint scan_group_tests (tests : list ImageTest) (group_payload_bytes group_payload_limit : Z) : meter unit :=
    match tests with
    | [] => mret tt
    | test :: tests =>
        _ ← visit;
        next ← scan_compiled_test_group_text (descriptor_name (image_descriptor test)) group_payload_bytes
                 group_payload_limit;
        scan_group_tests tests next group_payload_limit
    end.

Definition root_name (root : ImageRoot) : str :=
    match root with GeneratedHarness harness_name => harness_name | DeclaredRoot image_name _ => image_name end.

Definition scan_compiled_test_group (g : FullImageTestGroup) : meter unit :=
    let plan := test_plan limits in
    _ ← on_work (pure_result (ensure_limit (len (group_tests g)) "compiled test-group tests" (plan_tests plan)));
    _ ← visit;
    bytes ← scan_compiled_test_group_text (group_name g) 0 (plan_payload_bytes plan);
    bytes ← scan_compiled_test_group_text (root_name (group_root g)) bytes (plan_payload_bytes plan);
    _ ← collection (group_tests g);
    scan_group_tests (group_tests g) bytes (plan_payload_bytes plan).

Definition scan_module (w : FlowWir) : meter unit :=
    _ ← visit;
    _ ← payload (wir_name w);
    _ ← payload (target_as_str (target (build w)));
    _ ← collection (types w); _ ← each scan_type (types w);
    _ ← collection (globals w); _ ← each scan_global (globals w);
    _ ← meter_functions (len (functions w));
    _ ← collection (functions w); _ ← each scan_function (functions w);
    _ ← collection (actors w); _ ← each scan_actor (actors w);
    _ ← collection (tasks w); _ ← each scan_task (tasks w);
    _ ← collection (devices w); _ ← each scan_device (devices w);
    _ ← collection (pools w); _ ← each scan_pool (pools w);
    _ ← collection (regions w); _ ← each scan_region (regions w);
    _ ← collection (activations w); _ ← each (fun _ => visit) (activations w);
    _ ← meter_proofs (len (proofs w));
    _ ← collection (proofs w); _ ← each scan_proof (proofs w);
    _ ← collection (checkpoints w); _ ← each (fun _ => visit) (checkpoints w);
    _ ← meter_tests (len (tests w));
    _ ← collection (tests w); _ ← each scan_test (tests w);
    _ ← match compiled_test_group w with Some g => scan_compiled_test_group g | None => mret tt end;
    _ ← collection (startup_order w);
    _ ← collection (shutdown_order w);
    visit.

Definition scan_model (w : FlowWir) : pass ModelResources :=
    '(_, resources) ← scan_module w no_resources; mret resources.

  (** ** The report *)

Definition add_report_payload (total length : Z) : pass Z :=
    total ← pure_result (add_bounded total length "optimization report bytes" (limit_report_bytes limits));
    _ ← charge length;
    _ ← checkpoint;
    mret total.

Definition scan_statistics (bytes : Z) (st : PassStatistics) : pass Z :=
    _ ← checkpoint; add_report_payload bytes (len (statistics_pass st)).

Definition scan_decision (bytes : Z) (d : OptimizationDecision) : pass Z :=
    _ ← checkpoint;
    bytes ← add_report_payload bytes (len (decision_pass d));
    bytes ← add_report_payload bytes (len (decision_subject d));
    bytes ← add_report_payload bytes (len (justification d));
    proof_bytes ← pure_result (ok_or (checked_mul usize (len (relied_on d)) 4)
      (ResourceLimit "optimization report bytes" (limit_report_bytes limits)));
    bytes ← add_report_payload bytes proof_bytes;
    _ ← fold_each (fun u _ => _ ← checkpoint; mret u) (relied_on d) tt;
    mret bytes.

  (** [work.used]. *)
Definition used_work : pass Z := fun s => mret (used (work s), s).

Definition scan_report (report : OptimizationReport) : pass Z :=
    work_before ← used_work;
    let passes_ := len (passes report) in
    _ ← pure_result (ensure_limit passes_ "optimization passes" (limit_passes limits));
    let decisions_ := len (report_decisions report) in
    _ ← pure_result (ensure_limit decisions_ "optimization decisions" (limit_decisions limits));
    bytes ← add_report_payload 0 (len (pipeline_name (pipeline (report_profile report))));
    _ ← charge passes_;
    bytes ← fold_each scan_statistics (passes report) bytes;
    _ ← charge decisions_;
    _ ← fold_each scan_decision (report_decisions report) bytes;
    _ ← checkpoint;
    now ← used_work;
    pure_result (ok_or (checked_sub now work_before) (ResourceLimit "optimizer work" (limit_work limits))).
End meter.
