(* ===== verification/FlowContext.v ===== *)
(** The context in which [src/crates/wrela-flow-wir/src/lib.rs] validates a
    module: collected errors, cancellation and bounded scratch memory, with the
    stable, cancellable merge sort it uses.

    A validator reports what it finds and goes on; it returns early only when
    it is cancelled or out of scratch memory. [validating A] is a computation
    over the context that may return from the function around it. *)

From stdpp Require Import base numbers list option strings.
From S2P Require Import Prelude Interrupt FlowWir Optimizer.

#[local] Open Scope Z_scope.

(** ** Limits and failures *)

Record ValidationLimits := {
  arena_records : Z;
  limit_edges : Z;
  limit_payload : Z;
  validation_work : Z;
  limit_errors : Z;
  limit_test_plan : TestPlanLimits;
}.

Definition ValidationLimits_standard : ValidationLimits := {|
  arena_records := 256000000;
  limit_edges := 1000000000;
  limit_payload := 4 * 1024 * 1024 * 1024;
  validation_work := 1100000000000;
  limit_errors := 100000;
  limit_test_plan := TestPlanLimits_standard;
|}.

Definition ValidationLimits_is_valid (l : ValidationLimits) : bool :=
  (0 <? arena_records l) && (arena_records l <=? u32_max) && (0 <? limit_edges l)
  && (0 <? limit_payload l) && (0 <? validation_work l) && (0 <? limit_errors l)
  && is_valid (limit_test_plan l).

Inductive ValidationFailure :=
| FailureInvalidLimits
| FailureCancelled
| FailureResourceLimit (resource : string) (limit : Z)
| FailureInvalid (errors : list ValidationError).

(** ** The context *)

Record ValidationContext := {
  errors : list ValidationError;
  context_limits : ValidationLimits;
  cancelled : bool;
  allocation_failure : option (string * Z);
  capped : bool;
}.

Definition new_context (limits : ValidationLimits) : ValidationContext := {|
  errors := []; context_limits := limits; cancelled := false; allocation_failure := None; capped := false |}.

Definition with_cancelled (c : ValidationContext) : ValidationContext := {|
  errors := errors c; context_limits := context_limits c; cancelled := true;
  allocation_failure := allocation_failure c; capped := capped c |}.
Definition with_failure (resource : string) (limit : Z) (c : ValidationContext) : ValidationContext := {|
  errors := errors c; context_limits := context_limits c; cancelled := cancelled c;
  allocation_failure := Some (resource, limit); capped := capped c |}.
Definition with_error (e : ValidationError) (cap : bool) (c : ValidationContext) : ValidationContext := {|
  errors := errors c ++ [e]; context_limits := context_limits c; cancelled := cancelled c;
  allocation_failure := allocation_failure c; capped := cap |}.

(** A bug of the validator itself: an index out of bounds, or a loop that needs
    more turns than the model gives it. *)
Inductive fault := IndexOutOfBounds | OutOfFuel.

(** [None]: the function around the computation returns. *)
Definition validating (A : Type) : Type := ValidationContext -> prog fault (option A * ValidationContext).

#[export] Instance validating_ret : MRet validating := fun A a c => Ret (Some a, c).
#[export] Instance validating_bind : MBind validating := fun A B f m c =>
  '(o, c) ← m c; match o with Some a => f a c | None => Ret (None, c) end.

Definition leave {A} : validating A := fun c => Ret (None, c).
(** A call of a function without a result: its own early return ends there. *)
Definition calling (m : validating unit) : validating unit := fun c => '(_, c) ← m c; Ret (Some tt, c).
Definition faults {A} (e : fault) : validating A := fun _ => Throw e.
Definition context_of : validating ValidationContext := fun c => Ret (Some c, c).
Definition replacing (c : ValidationContext) : validating unit := fun _ => Ret (Some tt, c).
Definition limits_of : validating ValidationLimits := c ← context_of; mret (context_limits c).

(** [values[index]]. *)
Definition at_index {A} (xs : list A) (index : nat) : validating A :=
  match xs !! index with Some x => mret x | None => faults IndexOutOfBounds end.

(** [ValidationContext::poll]: the callback is not asked again once it has
    cancelled. *)
Definition poll_context : validating bool := fun c =>
  if cancelled c then Ret (Some false, c) else
  b ← is_cancelled;
  if b : bool then Ret (Some false, with_cancelled c) else Ret (Some true, c).

(** [if !errors.poll() { return; }]. *)
Definition polled : validating unit :=
  going ← poll_context; if going : bool then mret tt else leave.

(** [self.allocation_failure = Some(..)], then a [return] that says so. *)
Definition exhausted {A} (resource : string) (limit : Z) : validating A := fun c =>
  Ret (None, with_failure resource limit c).

Definition SCRATCH : string := "validation scratch entries".

(** [try_reserve] for a vector to hold [capacity] elements: [exhausted] when it
    fails, as it always does for a capacity that is not a [usize]. *)
Definition reserving (resource : string) (limit : Z) (capacity : Z) : validating unit := fun c =>
  Ask Reserve (fun failed =>
    if failed || (2 ^ usize <=? capacity) then exhausted resource limit c else Ret (Some tt, c)).

Definition push_error (e : ValidationError) : validating unit :=
  going ← poll_context;
  c ← context_of;
  if negb going || capped c || bool_decide (is_Some (allocation_failure c)) then mret tt else
  let limit := limit_errors (context_limits c) in
  let last_one := limit <=? saturating_add usize (len (errors c)) 1 in
  calling (_ ← reserving "validation error scratch" limit (len (errors c) + 1);
           replacing (if last_one then with_error (TooManyErrors limit) true c else with_error e (capped c) c)).

(** [ValidationContext::scratch]; the [return] is the caller's [let .. else]. *)
Definition scratch {A} (capacity : Z) : validating (list A) :=
  _ ← polled;
  limits ← limits_of;
  _ ← (if limit_edges limits <? capacity then exhausted SCRATCH (limit_edges limits) else mret tt);
  _ ← reserving SCRATCH (limit_edges limits) capacity;
  mret [].

Definition filled {A} (length : nat) (value : A) : validating (list A) :=
  _ ← scratch (A := A) (Z.of_nat length); mret (replicate length value).

(** The checks of [ValidationContext::scratch_push] on a vector of a length. *)
Definition scratch_room (length : Z) : validating unit :=
  _ ← polled;
  limits ← limits_of;
  _ ← (if limit_edges limits <=? length then exhausted SCRATCH (limit_edges limits) else mret tt);
  reserving SCRATCH (limit_edges limits) (length + 1).

Definition scratch_push {A} (xs : list A) (x : A) : validating (list A) :=
  _ ← scratch_room (len xs); mret (xs ++ [x]).

(** [ValidationContext::finish]. *)
Definition finish_context (c : ValidationContext) : prog ValidationFailure (list ValidationError) :=
  b ← (if cancelled c then mret true else is_cancelled);
  if b : bool then Throw FailureCancelled else
  match allocation_failure c with
  | Some (resource, limit) => Throw (FailureResourceLimit resource limit)
  | None => mret (errors c)
  end.

(** ** Loops *)

(** [for x in xs]. *)
Fixpoint each_of {A} (xs : list A) (body : A -> validating unit) : validating unit :=
  match xs with
  | [] => mret tt
  | x :: xs => _ ← body x; each_of xs body
  end.

(** [for x in xs] over local variables. *)
Fixpoint fold_of {A S} (body : S -> A -> validating S) (xs : list A) (s : S) : validating S :=
  match xs with
  | [] => mret s
  | x :: xs => s ← body s x; fold_of body xs s
  end.

(** [for (index, x) in xs.iter().enumerate()]. *)
Fixpoint enumerate_from {A} (index : nat) (xs : list A) : list (nat * A) :=
  match xs with [] => [] | x :: xs => (index, x) :: enumerate_from (S index) xs end.
Definition enumerate {A} (xs : list A) : list (nat * A) := enumerate_from 0 xs.

(** [slice::windows(2)]. *)
Definition windows2 {A} (xs : list A) : list (A * A) := zip xs (drop 1 xs).

(** ** Sorting *)

Section sort.
  Context {A : Type} (compare : A -> A -> comparison).

  (** The inner loop of [merge_sort_pass]: [count] elements of two runs. *)
Fixpoint merge_runs (count : nat) (left_ right_ : list A) : validating (list A) :=
    match count with
    | O => mret []
    | S count =>
        _ ← polled;
        let take_left := match right_, left_ with
                         | [], _ => true
                         | _, [] => false
                         | r :: _, l :: _ => match compare l r with Gt => false | _ => true end
                         end in
        match take_left, left_, right_ with
        | true, l :: left_, _ => rest ← merge_runs count left_ right_; mret (l :: rest)
        | false, _, r :: right_ => rest ← merge_runs count left_ right_; mret (r :: rest)
        | _, _, _ => faults IndexOutOfBounds
        end
    end.

  (** One pass over the runs of [width] elements. *)
Fixpoint merge_sort_pass (fuel : nat) (width : nat) (source : list A) : validating (list A) :=
    match source with
    | [] => mret []
    | _ =>
        match fuel with
        | O => faults OutOfFuel
        | S fuel =>
            let left_ := take width source in
            let right_ := take width (drop width source) in
            merged ← merge_runs (length left_ + length right_) left_ right_;
            rest ← merge_sort_pass fuel width (drop (width + width) source);
            mret (merged ++ rest)
        end
    end.

  (** Passes with doubled width; every other one ends in the buffer. *)
Fixpoint sort_passes (fuel : nat) (width : Z) (source_is_values : bool) (xs : list A)
      : validating (bool * list A) :=
    if width <? len xs then
      match fuel with
      | O => faults OutOfFuel
      | S fuel =>
          xs ← merge_sort_pass (length xs) (Z.to_nat width) xs;
          sort_passes fuel (default (len xs) (checked_mul usize width 2)) (negb source_is_values) xs
      end
    else mret (source_is_values, xs).

Definition sort_scratch_by (xs : list A) : validating (list A) :=
    match xs with
    | [] => _ ← polled; mret []
    | first :: _ =>
        _ ← filled (length xs) first;
        '(source_is_values, xs) ← sort_passes (length xs) 1 true xs;
        _ ← (if source_is_values : bool then mret tt else each_of xs (fun _ => polled));
        mret xs
    end.
End sort.
