(* ===== verification/FlowSsa.v ===== *)
(** Control flow and single assignment, as [src/crates/wrela-flow-wir/src/lib.rs]
    validates them: [validate_control_flow_and_ssa] finds the blocks reachable
    from the entry and their immediate dominators, and requires every use of a
    value to be dominated by its definition. *)

From stdpp Require Import base numbers list option strings.
From S2P Require Import Prelude Order Interrupt FlowWir Optimizer FlowOperands FlowModule FlowContext.

#[local] Open Scope Z_scope.

Definition N_compare (a b : N) : comparison := N.compare a b.

(** ** Operands *)

(** [for_each_flow_operation_value]: the operands in the order they are visited. *)
Definition flow_operation_values (op : FlowOperation ValueId) : list ValueId :=
  match op with
  | ImmediateOp _ | ActorStateAddress _ _ _ | RegionReset _ | ActorCapability _ _ | ActorReserve _ _ _
  | ActorReplyRequest _ _ _ _ | MailboxReceive _ _ | TaskAcquireSlot _ _ | Checkpoint _ _ | DeadlineRead
  | InterruptMask | MmioRead _ _ | Fence _ => []
  | Unary _ value | Cast value _ _ | Promote value _ _ | EnumTag value | EnumPayload value _ | ExtractField value _
  | EndAccess value | LoadOp value _ | Move value | Copy value | Drop value | ActorReject value | TaskCancel value
  | Park value | Wake value | InterruptRestore value | ValidateDeviceValue value _ | CheckOp value _ _ | Assert value _
  | RecordEvent _ value | ReplayEvent _ value | TestEmit value | TestFinish value => [value]
  | ActorReplyResolve outcome _ => [outcome]
  | Binary _ left_ right_ => [left_; right_]
  | ExtractIndex aggregate index _ => [aggregate; index]
  | MakeAggregate _ fields => fields
  | FormatBoundedString _ parts =>
      concat (map (fun part => match part with
                               | PartText _ _ => []
                               | PartBool value _ | PartCharacter value _ | PartInteger value _ _
                               | PartStaticString value _ _ => [value]
                               end) parts)
  | MakeEnum _ _ payload => match payload with Some payload => [payload] | None => [] end
  | InsertField aggregate _ value | StoreOp aggregate value _ | ReplyResolve aggregate value
  | ReceiptCommit aggregate value | ReceiptResolve aggregate value | InterruptPublish aggregate value
  | QueuePublish aggregate value => [aggregate; value]
  | ActorCommit reservation arguments => reservation :: arguments
  | Select condition then_value else_value => [condition; then_value; else_value]
  | BeginAccess place _ _ => [place]
  | Call _ arguments | AsyncCall _ arguments _ => arguments
  | Allocate _ _ count _ => [count]
  | TaskStart slot _ arguments => slot :: arguments
  | MmioWrite _ _ value => [value]
  | DmaTransition token _ _ _ _ => [token]
  | QueueReserve _ descriptors _ => [descriptors]
  end.

(** [for_each_flow_terminator_value]. *)
Definition flow_terminator_values (t : Terminator ValueId) : list ValueId :=
  match t with
  | Jump _ arguments => arguments
  | Branch condition _ then_arguments _ else_arguments => condition :: then_arguments ++ else_arguments
  | Switch value cases _ default_arguments => value :: concat (map case_arguments cases) ++ default_arguments
  | Return values => values
  | Suspend _ activation _ => [activation]
  | TailCall _ arguments => arguments
  | Trap _ detail => match detail with Some value => [value] | None => [] end
  | Unreachable => []
  end.

(** The visitors of the optimiser visit the same operands in the same order. *)
Lemma flow_operation_values_eq op : flow_operation_values op = operation_values op.
Proof. by destruct op. Qed.
Lemma flow_terminator_values_eq t : flow_terminator_values t = terminator_values t.
Proof. by destruct t. Qed.

(** ** Edges *)

(** [for_each_flow_edge]: the edges of a terminator with their arguments. *)
Definition flow_edges (t : Terminator ValueId) : list (BlockId * list ValueId) :=
  match t with
  | Jump target arguments => [(target, arguments)]
  | Branch _ then_block then_arguments else_block else_arguments =>
      [(then_block, then_arguments); (else_block, else_arguments)]
  | Switch _ cases default default_arguments =>
      map (fun c => (case_target c, case_arguments c)) cases ++ [(default, default_arguments)]
  | Suspend _ _ resume => [(resume, [])]
  | Return _ | TailCall _ _ | Trap _ _ | Unreachable => []
  end.

(** [usize::try_from(id.0).ok().filter(|index| *index < length)]. *)
Definition index_below (id : N) (length : nat) : option nat :=
  if (N.to_nat id <? length)%nat then Some (N.to_nat id) else None.

Abbreviation Adjacency := (list (list nat)).
Abbreviation EdgeArguments := (list (BlockId * list ValueId * nat)).

(** Push an index to the list at an index: [scratch_push(&mut xs[at], x)]. *)
Definition push_at (xs : Adjacency) (at_ x : nat) : validating Adjacency :=
  row ← at_index xs at_;
  row ← scratch_push row x;
  mret (<[at_ := row]> xs).

Definition record_edge (block_count source : nat) (st : Adjacency * Adjacency * EdgeArguments * nat)
    (edge : BlockId * list ValueId) : validating (Adjacency * Adjacency * EdgeArguments * nat) :=
  let '(successors, predecessors, arguments_by_target, edge_index) := st in
  match index_below edge.1 block_count with
  | None => mret st
  | Some target_index =>
      successors ← push_at successors source target_index;
      predecessors ← push_at predecessors target_index source;
      arguments_by_target ← scratch_push arguments_by_target (edge.1, edge.2, edge_index);
      match checked_add usize (Z.of_nat edge_index) 1 with
      | Some _ => mret (successors, predecessors, arguments_by_target, S edge_index)
      | None => limits ← limits_of; exhausted SCRATCH (limit_edges limits)
      end
  end.

(** Edges to one target must agree on the arguments. *)
Definition mark_conflict (conflicting : list bool) (pair : (BlockId * list ValueId * nat) * (BlockId * list ValueId * nat))
    : validating (list bool) :=
  _ ← polled;
  let '((target, arguments, _), (target', arguments', index)) := pair in
  if bool_decide (target = target') && negb (bool_decide (arguments = arguments')) then
    match conflicting !! index with
    | Some _ => mret (<[index := true]> conflicting)
    | None => limits ← limits_of; exhausted SCRATCH (limit_edges limits)
    end
  else mret conflicting.

Definition report_conflict (function : FunctionId) (from : BlockId) (conflicting : list bool)
    (entry : BlockId * list ValueId * nat) : validating unit :=
  _ ← polled;
  conflict ← at_index conflicting entry.2;
  if conflict : bool then push_error (ConflictingParallelEdgeArguments function from entry.1.1) else mret tt.

(** [Vec::dedup]. *)
Fixpoint dedup (xs : list nat) : list nat :=
  match xs with
  | x :: (y :: _) as xs' => if bool_decide (x = y) then dedup xs' else x :: dedup xs'
  | _ => xs
  end.

Definition sort_row (xs : Adjacency) (at_ : nat) : validating Adjacency :=
  row ← at_index xs at_;
  row ← sort_scratch_by Nat.compare row;
  mret (<[at_ := dedup row]> xs).

(** The check of the edges of a block that have the same target. *)
Definition check_parallel (f : FlowFunction) (b : Block) (arguments_by_target : EdgeArguments) : validating unit :=
  by_target ← sort_scratch_by (fun l r => N_compare l.1.1 r.1.1) arguments_by_target;
  conflicting ← filled (length by_target) false;
  conflicting ← fold_of mark_conflict (windows2 by_target) conflicting;
  by_index ← sort_scratch_by (fun l r => Nat.compare l.2 r.2) by_target;
  each_of by_index (report_conflict (function_id f) (block_id b) conflicting).

(** The body of the loop over the blocks that collects the edges. *)
Definition record_block (f : FlowFunction) (adjacency : Adjacency * Adjacency) (block : nat * Block)
    : validating (Adjacency * Adjacency) :=
  let '(source, b) := block in
  let block_count := length (blocks f) in
  _ ← polled;
  arguments_by_target ← scratch 0;
  '(successors, predecessors, arguments_by_target, _) ←
    fold_of (record_edge block_count source) (flow_edges (terminator b)) (adjacency, arguments_by_target, 0%nat);
  _ ← check_parallel f b arguments_by_target;
  successors ← sort_row successors source;
  mret (successors, predecessors).

(** ** Depth-first search *)

(** The stack is kept with its top at the head. *)
Definition push_pending (pending : list (nat * bool)) (entry : nat * bool) : validating (list (nat * bool)) :=
  _ ← scratch_room (len pending); mret (entry :: pending).

Definition push_successor (reachable : list bool) (pending : list (nat * bool)) (successor : nat)
    : validating (list (nat * bool)) :=
  seen ← at_index reachable successor;
  if seen : bool then mret pending else push_pending pending (successor, false).

(** [while let Some((block, expanded)) = pending.pop()]. *)
Fixpoint search (fuel : nat) (successors : Adjacency) (reachable : list bool) (postorder : list nat)
    (pending : list (nat * bool)) : validating (list bool * list nat) :=
  match pending with
  | [] => mret (reachable, postorder)
  | (block, expanded) :: pending =>
      match fuel with
      | O => faults OutOfFuel
      | S fuel =>
          _ ← polled;
          if expanded : bool then
            postorder ← scratch_push postorder block;
            search fuel successors reachable postorder pending
          else
            seen ← at_index reachable block;
            let reachable := <[block := true]> reachable in
            if seen : bool then search fuel successors reachable postorder pending else
            pending ← push_pending pending (block, true);
            row ← at_index successors block;
            pending ← fold_of (push_successor reachable) (rev row) pending;
            search fuel successors reachable postorder pending
      end
  end.

Definition report_unreachable (function : FunctionId) (block : nat * bool) : validating unit :=
  _ ← polled;
  if block.2 then mret tt else
  if u32_max <? Z.of_nat block.1 then limits ← limits_of; exhausted SCRATCH (limit_edges limits)
  else push_error (UnreachableBlock function (N.of_nat block.1)).

(** [postorder.swap(index, opposite)] for the first half of the indices. *)
Definition swap (xs : list nat) (i j : nat) : validating (list nat) :=
  a ← at_index xs i; b ← at_index xs j; mret (<[j := a]> (<[i := b]> xs)).
Definition reverse_step (xs : list nat) (index : nat) : validating (list nat) :=
  _ ← polled; swap xs index (length xs - index - 1).
Definition reverse_scratch (xs : list nat) : validating (list nat) :=
  fold_of reverse_step (seq 0 (length xs / 2)) xs.

(** ** Dominators *)

Abbreviation Positions := (list Z).
Abbreviation Dominators := (list (option nat)).

Definition position_block (positions : Positions) (entry : nat * nat) : validating Positions :=
  _ ← polled;
  _ ← at_index positions entry.2;
  mret (<[entry.2 := Z.of_nat entry.1]> positions).

(** One side of [intersect_flow_dominators] climbs to the other's position. *)
Fixpoint climb (fuel : nat) (immediate_dominator : Dominators) (reverse_postorder : Positions)
    (node : nat) (bound : Z) : validating nat :=
  position ← at_index reverse_postorder node;
  if bound <? position then
    match fuel with
    | O => faults OutOfFuel
    | S fuel =>
        _ ← polled;
        parent ← at_index immediate_dominator node;
        climb fuel immediate_dominator reverse_postorder (default node parent) bound
    end
  else mret node.

Fixpoint intersect_flow_dominators (fuel : nat) (left_ right_ : nat) (immediate_dominator : Dominators)
    (reverse_postorder : Positions) : validating nat :=
  if bool_decide (left_ = right_) then mret left_ else
  match fuel with
  | O => faults OutOfFuel
  | S fuel =>
      let climb_fuel := length reverse_postorder in
      _ ← polled;
      bound ← at_index reverse_postorder right_;
      left_ ← climb climb_fuel immediate_dominator reverse_postorder left_ bound;
      bound ← at_index reverse_postorder left_;
      right_ ← climb climb_fuel immediate_dominator reverse_postorder right_ bound;
      intersect_flow_dominators fuel left_ right_ immediate_dominator reverse_postorder
  end.

(** The common dominator of the predecessors that have one already. *)
Definition join_predecessor (immediate_dominator : Dominators) (reverse_postorder : Positions)
    (candidate : option nat) (predecessor : nat) : validating (option nat) :=
  _ ← polled;
  known ← at_index immediate_dominator predecessor;
  match known, candidate with
  | None, _ => mret candidate
  | Some _, None => mret (Some predecessor)
  | Some _, Some candidate =>
      intersection ← intersect_flow_dominators (length reverse_postorder + length reverse_postorder) candidate
        predecessor immediate_dominator reverse_postorder;
      mret (Some intersection)
  end.

Definition dominate_block (predecessors : Adjacency) (reverse_postorder : Positions)
    (st : Dominators * bool) (block : nat) : validating (Dominators * bool) :=
  let '(immediate_dominator, changed) := st in
  _ ← polled;
  row ← at_index predecessors block;
  candidate ← fold_of (join_predecessor immediate_dominator reverse_postorder) row None;
  match candidate with
  | None => mret st
  | Some candidate =>
      current ← at_index immediate_dominator block;
      if bool_decide (current <> Some candidate)
      then mret (<[block := Some candidate]> immediate_dominator, true) else mret st
  end.

(** [loop { .. if !changed { break; } }]. *)
Fixpoint dominate (fuel : nat) (predecessors : Adjacency) (reverse_postorder : Positions) (order : list nat)
    (immediate_dominator : Dominators) : validating Dominators :=
  match fuel with
  | O => faults OutOfFuel
  | S fuel =>
      '(immediate_dominator, changed) ←
        fold_of (dominate_block predecessors reverse_postorder) order (immediate_dominator, false);
      if changed : bool then dominate fuel predecessors reverse_postorder order immediate_dominator
      else mret immediate_dominator
  end.

(** [flow_block_dominates]: a walk up the tree. *)
Fixpoint ascend (fuel : nat) (immediate_dominator : Dominators) (dominator cursor : nat) : validating bool :=
  match fuel with
  | O => faults OutOfFuel
  | S fuel =>
      going ← poll_context;
      if negb going then mret false else
      if bool_decide (cursor = dominator) then mret true else
      match mjoin (immediate_dominator !! cursor) with
      | None => mret false
      | Some parent =>
          if bool_decide (parent = cursor) then mret false
          else ascend fuel immediate_dominator dominator parent
      end
  end.

Definition flow_block_dominates (dominator block : nat) (immediate_dominator : Dominators)
    (reachable : list bool) : validating bool :=
  if negb (default false (reachable !! dominator)) || negb (default false (reachable !! block)) then mret false
  else ascend (S (length immediate_dominator)) immediate_dominator dominator block.

(** ** Definitions and uses *)

Inductive ValueDefinitionSite :=
| FunctionParameter
| BlockParameter (block : nat)
| InstructionSite (block index : nat).

Abbreviation Sites := (list (option ValueDefinitionSite)).

(** The first definition of a value counts. *)
Definition record_flow_definition (site : ValueDefinitionSite) (definitions : Sites) (value : ValueId) : Sites :=
  match definitions !! N.to_nat value with
  | Some None => <[N.to_nat value := Some site]> definitions
  | _ => definitions
  end.

Definition define_each (site : ValueDefinitionSite) (definitions : Sites) (value : ValueId) : validating Sites :=
  _ ← polled; mret (record_flow_definition site definitions value).

Definition define_instruction (block : nat) (definitions : Sites) (entry : nat * Instruction) : validating Sites :=
  _ ← polled; fold_of (define_each (InstructionSite block entry.1)) (results entry.2) definitions.

Definition define_block (definitions : Sites) (entry : nat * Block) : validating Sites :=
  _ ← polled;
  definitions ← fold_of (define_each (BlockParameter entry.1)) (block_parameters entry.2) definitions;
  fold_of (define_instruction entry.1) (enumerate (instructions entry.2)) definitions.

(** What the checks of one function share. *)
Record Flow := {
  sites : Sites;
  tree : Dominators;
  marks : list bool;
}.

Definition validate_flow_value_dominance (f : FlowFunction) (flow : Flow) (use_block : nat)
    (use_instruction : option nat) (value : ValueId) : validating unit :=
  match mjoin (sites flow !! N.to_nat value) with
  | None => mret tt
  | Some definition =>
      valid ← match definition with
              | FunctionParameter => mret true
              | BlockParameter block => flow_block_dominates block use_block (tree flow) (marks flow)
              | InstructionSite block index =>
                  if bool_decide (block = use_block)
                  then mret (match use_instruction with Some use_index => (index <? use_index)%nat | None => true end)
                  else flow_block_dominates block use_block (tree flow) (marks flow)
              end;
      if valid : bool then mret tt else
      instruction ← match use_instruction with
                    | Some index => b ← at_index (blocks f) use_block;
                                    i ← at_index (instructions b) index; mret (Some (instruction_id i))
                    | None => mret None
                    end;
      push_error (NonDominatingValueUse (function_id f) value (N.of_nat use_block) instruction)
  end.

(** ** Types at a terminator *)

Definition value_type (f : FlowFunction) (value : ValueId) : option TypeId :=
  value_ty <$> values f !! N.to_nat value.
Definition type_at (module : FlowWir) (ty : TypeId) : option FlowType := types module !! N.to_nat ty.

(** The bits a [Switch] may select by. *)
Definition switch_bits (ty : FlowType) : option Z :=
  match kind ty with
  | KScalar TBool => Some 1
  | KScalar (TInteger _ bits) => Some bits
  | _ => None
  end.

Definition mark_duplicate (duplicate : list bool) (pair : (Z * nat) * (Z * nat)) : validating (list bool) :=
  _ ← polled;
  let '((value, _), (value', index)) := pair in
  if value =? value' then _ ← at_index duplicate index; mret (<[index := true]> duplicate) else mret duplicate.

Definition out_of_range (bits : option Z) (value : Z) : bool :=
  match bits with
  | None => true
  | Some bits => (bits =? 0) || ((bits <? 128) && (Z.shiftl 1 bits <=? value))
  end.

Definition check_case (f : FlowFunction) (b : Block) (bits : option Z) (duplicate : list bool)
    (entry : nat * SwitchCase ValueId) : validating unit :=
  _ ← polled;
  let value := case_value entry.2 in
  is_duplicate ← at_index duplicate entry.1;
  _ ← (if is_duplicate : bool then push_error (DuplicateSwitchCase (function_id f) (block_id b) value) else mret tt);
  if out_of_range bits value then push_error (SwitchCaseOutOfRange (function_id f) (block_id b) value bits)
  else mret tt.

Definition delivered_by (ty : FlowType) : option TypeId :=
  match kind ty with KActivation result => Some result | _ => None end.

(** The type of the one parameter of the block resumed. *)
Definition only_parameter_type (f : FlowFunction) (resume : Block) : option TypeId :=
  match block_parameters resume with [parameter] => value_type f parameter | _ => None end.

Definition validate_flow_terminator_types (module : FlowWir) (f : FlowFunction) (b : Block) : validating unit :=
  let mismatch := push_error (TerminatorTypeMismatch (function_id f) (block_id b)) in
  match terminator b with
  | Branch condition _ _ _ _ =>
      let is_bool := match value_type f condition ≫= type_at module with
                     | Some ty => bool_decide (kind ty = KScalar TBool)
                     | None => false
                     end in
      if negb is_bool then mismatch else mret tt
  | Switch value cases _ _ =>
      let bits := ty ← value_type f value; type_at module ty ≫= switch_bits in
      seen ← scratch (len cases);
      seen ← fold_of (fun seen entry => scratch_push seen (case_value entry.2, entry.1)) (enumerate cases) seen;
      seen ← sort_scratch_by (pair_cmp Z.compare Nat.compare) seen;
      duplicate ← filled (length cases) false;
      duplicate ← fold_of mark_duplicate (windows2 seen) duplicate;
      each_of (enumerate cases) (check_case f b bits duplicate)
  | Return vs =>
      if bool_decide (omap (value_type f) vs = result_types f) then mret tt else mismatch
  | TailCall callee _ =>
      match functions module !! N.to_nat callee with
      | Some target =>
          if bool_decide (result_types target = result_types f) then mret tt
          else push_error (TailCallResultMismatch (function_id f) callee)
      | None => mret tt
      end
  | Suspend _ activation resume =>
      let delivered := ty ← value_type f activation; type_at module ty ≫= delivered_by in
      let resume_parameter := blocks f !! N.to_nat resume ≫= only_parameter_type f in
      if bool_decide (delivered = None) || negb (bool_decide (delivered = resume_parameter)) then mismatch
      else mret tt
  | Jump _ _ | Trap _ _ | Unreachable => mret tt
  end.

(** ** The whole check *)

Definition validate_uses (module : FlowWir) (f : FlowFunction) (flow : Flow) (entry : nat * Block) : validating unit :=
  let '(block_index, b) := entry in
  _ ← polled;
  _ ← each_of (enumerate (instructions b)) (fun '(instruction_index, i) =>
        _ ← polled;
        each_of (flow_operation_values (operation i))
          (validate_flow_value_dominance f flow block_index (Some instruction_index)));
  _ ← each_of (flow_terminator_values (terminator b)) (validate_flow_value_dominance f flow block_index None);
  calling (validate_flow_terminator_types module f b).

(** The tree of immediate dominators of a function and the blocks it reaches. *)
Definition find_dominators (f : FlowFunction) (entry : nat) : validating (Dominators * list bool) :=
  let block_count := length (blocks f) in
  successors ← filled block_count [];
  predecessors ← filled block_count [];
  '(successors, predecessors) ← fold_of (record_block f) (enumerate (blocks f)) (successors, predecessors);
  predecessors ← fold_of sort_row (seq 0 block_count) predecessors;
  reachable ← filled block_count false;
  postorder ← scratch (Z.of_nat block_count);
  pending ← scratch 0;
  pending ← push_pending pending (entry, false);
  '(reachable, postorder) ←
    search (S (block_count + sum_list_with length successors)) successors reachable postorder pending;
  _ ← each_of (enumerate reachable) (report_unreachable (function_id f));
  postorder ← reverse_scratch postorder;
  reverse_postorder ← filled block_count u64_max;
  reverse_postorder ← fold_of position_block (enumerate postorder) reverse_postorder;
  immediate_dominator ← filled block_count None;
  _ ← at_index immediate_dominator entry;
  tree ← dominate (S (S block_count)) predecessors reverse_postorder (drop 1 postorder)
           (<[entry := Some entry]> immediate_dominator);
  mret (tree, reachable).

Definition find_sites (f : FlowFunction) : validating Sites :=
  definitions ← filled (length (values f)) None;
  definitions ← fold_of (define_each FunctionParameter) (parameters f) definitions;
  fold_of define_block (enumerate (blocks f)) definitions.

Definition validate_control_flow_and_ssa (module : FlowWir) (f : FlowFunction) : validating unit :=
  match index_below (entry f) (length (blocks f)) with
  | None => mret tt
  | Some start =>
      '(tree, marks) ← find_dominators f start;
      sites ← find_sites f;
      each_of (enumerate (blocks f))
        (validate_uses module f {| sites := sites; tree := tree; marks := marks |})
  end.
