(* ===== verification/FlowMeter.v ===== *)
(** The resource meter of [src/crates/wrela-flow-wir/src/lib.rs]: before a model
    is validated, [validate_model_resources] charges its records, vector
    elements, texts and the work that validating it may take against the limits;
    and the proof that it refuses exactly the models that exceed them. *)

From stdpp Require Import base numbers list option strings.
From S2P Require Import Prelude Bytes Interrupt BuildModel TestEvents FlowWir Optimizer FlowOperands FlowModule FlowContext FlowSsa.

#[local] Open Scope Z_scope.

(** ** The meter *)

Record ResourceMeter := {
  metered_edges : Z;
  metered_payload : Z;
  metered_work : Z;
}.
Definition new_meter : ResourceMeter := {| metered_edges := 0; metered_payload := 0; metered_work := 0 |}.

Abbreviation metering := (stateT ResourceMeter (prog ValidationFailure)).

(** [total.checked_add(amount).filter(|total| *total <= limit)]. *)
Definition add_within (total amount limit : Z) : option Z :=
  total ← checked_add 64 total amount; if total <=? limit then Some total else None.

Section meter.
  Context (limits : ValidationLimits).

Definition EDGES : ValidationFailure := FailureResourceLimit "model edges" (limit_edges limits).
Definition PAYLOAD : ValidationFailure := FailureResourceLimit "payload bytes" (limit_payload limits).
Definition WORK : ValidationFailure := FailureResourceLimit "validation work" (validation_work limits).

  (** [.ok_or(failure)?]. *)
Definition demand {A} (o : option A) (failure : ValidationFailure) : metering A := liftS (lift (ok_or o failure)).

  (** Replace the meter, or fail. *)
Definition charge (step : ResourceMeter -> option ResourceMeter) (failure : ValidationFailure) : metering unit :=
    fun m => lift (ok_or (step m) failure) ≫= fun m => Ret (tt, m).

Definition meter_poll : metering unit := liftS (poll FailureCancelled).

  (** [ResourceMeter::length]; a [usize] is a [u64]. *)
Definition meter_length (resource : string) (length limit : Z) : metering Z :=
    _ ← meter_poll;
    _ ← liftS (fail_if (limit <? length) (FailureResourceLimit resource limit));
    mret length.

Fixpoint poll_chunks (chunks : nat) : metering unit :=
    match chunks with O => mret tt | S chunks => _ ← meter_poll; poll_chunks chunks end.

  (** [ResourceMeter::edges]. *)
Definition meter_edges (amount : Z) : metering unit :=
    padded ← demand (checked_add 64 amount 4095) EDGES;
    _ ← poll_chunks (Z.to_nat (padded / 4096));
    charge (fun m => edges ← add_within (metered_edges m) amount (limit_edges limits);
                   Some {| metered_edges := edges; metered_payload := metered_payload m; metered_work := metered_work m |}) EDGES.

Definition arena (resource : string) (length : Z) : metering unit :=
    length ← meter_length resource length (arena_records limits); meter_edges length.
Definition edge_slice {A} (values : list A) : metering unit :=
    length ← meter_length "model edges" (len values) (limit_edges limits); meter_edges length.

Definition meter_payload (length : Z) : metering unit :=
    _ ← meter_poll;
    charge (fun m => payload ← add_within (metered_payload m) length (limit_payload limits);
                   Some {| metered_edges := metered_edges m; metered_payload := payload; metered_work := metered_work m |}) PAYLOAD.
Definition meter_text (value : str) : metering unit := meter_payload (len value).

Definition meter_work (amount : Z) : metering unit :=
    _ ← meter_poll;
    charge (fun m => work ← add_within (metered_work m) amount (validation_work limits);
                   Some {| metered_edges := metered_edges m; metered_payload := metered_payload m; metered_work := work |}) WORK.
Definition work_product (left_ right_ : Z) : metering unit :=
    amount ← demand (checked_mul 64 left_ right_) WORK; meter_work amount.

  (** [for x in xs], polling first. *)
Fixpoint meter_each {A} (xs : list A) (body : A -> metering unit) : metering unit :=
    match xs with
    | [] => mret tt
    | x :: xs => _ ← meter_poll; _ ← body x; meter_each xs body
    end.
  (** The same over local counters. *)
Fixpoint meter_fold {A S} (body : S -> A -> metering S) (xs : list A) (s : S) : metering S :=
    match xs with
    | [] => mret s
    | x :: xs => _ ← meter_poll; s ← body s x; meter_fold body xs s
    end.

(** ** Parts of a model *)

Definition meter_immediate (immediate : Immediate) : metering unit :=
    match immediate with
    | ImmInteger _ bytes | ImmBytes bytes => meter_payload (len bytes)
    | ImmUnit | ImmBool _ | ImmCharacter _ | ImmFloat32 _ | ImmFloat64 _ | ImmZero _ | ImmGlobalAddress _
    | ImmFunctionAddress _ => meter_poll
    end.

Definition meter_option {A} (o : option A) (body : A -> metering unit) : metering unit :=
    match o with Some a => body a | None => mret tt end.

  (** Count what a visitor visits, in a [u64]. *)
Definition count_uses {A} (xs : list A) : option Z :=
    foldl (fun uses _ => count ← uses; checked_add 64 count 1) (Some 0) xs.

Definition meter_part (part : BoundedStringPart ValueId) : metering unit :=
    match part with PartText value _ => meter_text value | _ => mret tt end.

Definition meter_operation (operation : FlowOperation ValueId) : metering Z :=
    _ ← meter_poll;
    _ ← match operation with
        | ImmediateOp immediate => meter_immediate immediate
        | MakeAggregate _ fields => edge_slice fields
        | FormatBoundedString _ parts => _ ← edge_slice parts; meter_each parts meter_part
        | Call _ arguments | AsyncCall _ arguments _ | ActorCommit _ arguments => edge_slice arguments
        | TaskStart _ _ arguments => edge_slice arguments
        | Assert _ failure =>
            _ ← meter_text (assertion_expression failure); meter_option (assertion_message failure) meter_text
        | _ => mret tt
        end;
    demand (count_uses (flow_operation_values operation)) WORK.

Definition meter_case (case : SwitchCase ValueId) : metering unit := edge_slice (case_arguments case).

Definition meter_terminator (terminator : Terminator ValueId) : metering (Z * Z) :=
    _ ← meter_poll;
    cfg_edges ← match terminator with
                | Jump _ arguments => _ ← edge_slice arguments; mret 1
                | Branch _ _ then_arguments _ else_arguments =>
                    _ ← edge_slice then_arguments; _ ← edge_slice else_arguments; mret 2
                | Switch _ cases _ default_arguments =>
                    _ ← edge_slice cases; _ ← edge_slice default_arguments;
                    _ ← meter_each cases meter_case;
                    demand (checked_add 64 (len cases) 1) WORK
                | Suspend _ _ _ => mret 1
                | Return values => _ ← edge_slice values; mret 0
                | TailCall _ arguments => _ ← edge_slice arguments; mret 0
                | Trap _ _ | Unreachable => mret 0
                end;
    uses ← demand (count_uses (flow_terminator_values terminator)) WORK;
    mret (cfg_edges, uses).

Definition meter_instruction (value_uses : Z) (i : Instruction) : metering Z :=
    _ ← edge_slice (results i);
    uses ← meter_operation (operation i);
    demand (checked_add 64 value_uses uses) WORK.

  (** [(instruction_count, cfg_edges, value_uses)] of a function. *)
Definition meter_block (st : Z * Z * Z) (b : Block) : metering (Z * Z * Z) :=
    let '(instruction_count, cfg_edges, value_uses) := st in
    _ ← edge_slice (block_parameters b);
    _ ← arena "block instructions" (len (instructions b));
    instruction_count ← demand (checked_add 64 instruction_count (len (instructions b))) EDGES;
    value_uses ← meter_fold meter_instruction (instructions b) value_uses;
    '(block_edges, block_uses) ← meter_terminator (terminator b);
    cfg_edges ← demand (checked_add 64 cfg_edges block_edges) WORK;
    value_uses ← demand (checked_add 64 value_uses block_uses) WORK;
    mret (instruction_count, cfg_edges, value_uses).

Definition meter_function (f : FlowFunction) : metering unit :=
    _ ← meter_text (function_name f);
    _ ← edge_slice (parameters f);
    _ ← edge_slice (result_types f);
    _ ← edge_slice (function_proofs f);
    _ ← arena "function values" (len (values f));
    _ ← arena "function blocks" (len (blocks f));
    _ ← meter_each (values f) (fun value => meter_option (value_source_name value) meter_text);
    '(instruction_count, cfg_edges, value_uses) ← meter_fold meter_block (blocks f) (0, 0, 0);
    let blocks := len (blocks f) in
    _ ← meter_work instruction_count;
    product ← demand (checked_add 64 blocks cfg_edges) WORK;
    _ ← work_product blocks product;
    work_product value_uses (Z.max blocks 1).

Definition meter_type (ty : FlowType) : metering unit :=
    _ ← meter_option (type_name ty) meter_text;
    match kind ty with
    | KTuple items | KStruct items => edge_slice items
    | KEnum variants => _ ← edge_slice variants; meter_each variants edge_slice
    | KFunction parameters _ => edge_slice parameters
    | KOpaqueTarget name => meter_text name
    | KUnit | KScalar _ | KStaticString _ | KStaticBytes _ | KBoundedString _ | KArray _ _ | KActivation _
    | KRegionHandle _ | KPoolHandle _ | KActorHandle _ | KTaskHandle _ | KReservation | KReceipt _ _
    | KDmaToken _ _ => mret tt
    end.

Definition meter_assertion (assertion : PlannedAssertionDescriptor) : metering unit :=
    _ ← meter_text (planned_expression assertion); meter_option (planned_message assertion) meter_text.
Definition meter_test (test : ImageTest) : metering unit :=
    _ ← meter_text (descriptor_name (image_descriptor test));
    _ ← edge_slice (planned_assertions test);
    meter_each (planned_assertions test) meter_assertion.
Definition root_name (root : ImageRoot) : str :=
    match root with GeneratedHarness harness_name => harness_name | DeclaredRoot image_name _ => image_name end.
Definition meter_group (group : FullImageTestGroup) : metering unit :=
    _ ← edge_slice (group_tests group);
    _ ← meter_text (group_name group);
    _ ← meter_text (root_name (group_root group));
    meter_each (group_tests group) meter_test.

Definition meter_scheduler (plan : SchedulerPlan) : metering unit :=
    _ ← edge_slice (scheduler_actors plan); edge_slice (scheduler_tasks plan).
Definition meter_global (global : FlowGlobal) : metering unit :=
    _ ← meter_text (global_name global); meter_immediate (initializer global).
Definition meter_actor (actor : ActorPlan) : metering unit :=
    _ ← meter_text (actor_name actor); _ ← edge_slice (message_types actor); edge_slice (turn_functions actor).
Definition meter_device (device : DevicePlan) : metering unit :=
    _ ← meter_text (device_name device);
    _ ← meter_text (target_binding device);
    _ ← edge_slice (required_features device);
    _ ← edge_slice (optional_features device);
    _ ← edge_slice (interrupt_functions device);
    meter_each (required_features device ++ optional_features device) meter_text.
Definition meter_pool (pool : PoolPlan) : metering unit :=
    _ ← meter_text (pool_name pool); edge_slice (pool_devices pool).
Definition meter_proof (proof : Proof_) : metering unit :=
    _ ← meter_text (proof_subject proof);
    _ ← edge_slice (proof_sources proof);
    _ ← edge_slice (depends_on proof);
    _ ← edge_slice (explanation proof);
    meter_each (explanation proof) meter_text.

(** ** The model *)

Definition meter_arenas (module : FlowWir) : metering unit :=
    _ ← arena "types" (len (types module));
    _ ← arena "globals" (len (globals module));
    _ ← arena "functions" (len (functions module));
    _ ← arena "actors" (len (actors module));
    _ ← arena "tasks" (len (tasks module));
    _ ← arena "devices" (len (devices module));
    _ ← arena "pools" (len (pools module));
    _ ← arena "regions" (len (regions module));
    _ ← arena "activations" (len (activations module));
    _ ← arena "schedulers" (len (schedulers module));
    _ ← arena "proofs" (len (proofs module));
    _ ← arena "checkpoints" (len (checkpoints module));
    arena "tests" (len (tests module)).

Definition meter_module (module : FlowWir) : metering unit :=
    _ ← meter_text (wir_name module);
    _ ← meter_text (target_as_str (target (build module)));
    _ ← meter_arenas module;
    _ ← edge_slice (startup_order module);
    _ ← edge_slice (shutdown_order module);
    _ ← meter_each (schedulers module) meter_scheduler;
    _ ← meter_option (compiled_test_group module) meter_group;
    _ ← meter_each (types module) meter_type;
    _ ← meter_each (globals module) meter_global;
    _ ← meter_each (functions module) meter_function;
    _ ← meter_each (actors module) meter_actor;
    _ ← meter_each (tasks module) (fun task => meter_text (task_name task));
    _ ← meter_each (devices module) meter_device;
    _ ← meter_each (pools module) meter_pool;
    _ ← meter_each (regions module) (fun region => meter_text (region_name region));
    _ ← meter_each (activations module) (fun _ => mret tt);
    _ ← meter_each (proofs module) meter_proof;
    _ ← meter_each (tests module) (fun test => meter_text (entry_name test));
    meter_poll.
End meter.

Definition validate_model_resources (module : FlowWir) (limits : ValidationLimits) : prog ValidationFailure unit :=
  '(_, _) ← meter_module limits module new_meter; mret tt.

(** ** What a model costs

    The same resources without a meter: plain sums over the model. *)

Definition plus_cost (c d : ResourceMeter) : ResourceMeter := {|
  metered_edges := metered_edges c + metered_edges d;
  metered_payload := metered_payload c + metered_payload d;
  metered_work := metered_work c + metered_work d |}.
Create HintDb meter discriminated.
#[local] Infix "⊕" := plus_cost (at level 50, left associativity).

Definition edges_cost (n : Z) : ResourceMeter := {| metered_edges := n; metered_payload := 0; metered_work := 0 |}.
Definition payload_cost (n : Z) : ResourceMeter := {| metered_edges := 0; metered_payload := n; metered_work := 0 |}.
Definition work_cost (n : Z) : ResourceMeter := {| metered_edges := 0; metered_payload := 0; metered_work := n |}.
Definition vector_cost {A} (xs : list A) : ResourceMeter := edges_cost (len xs).
Definition text_cost (s : str) : ResourceMeter := payload_cost (len s).
Definition costs {A} (c : A -> ResourceMeter) (xs : list A) : ResourceMeter := foldr (fun x d => c x ⊕ d) new_meter xs.
Definition option_cost {A} (c : A -> ResourceMeter) (o : option A) : ResourceMeter := costs c (option_list o).

Definition immediate_cost (immediate : Immediate) : ResourceMeter :=
  match immediate with ImmInteger _ bytes | ImmBytes bytes => payload_cost (len bytes) | _ => new_meter end.
Definition part_cost (part : BoundedStringPart ValueId) : ResourceMeter :=
  match part with PartText value _ => text_cost value | _ => new_meter end.
Definition operation_cost (operation : FlowOperation ValueId) : ResourceMeter :=
  match operation with
  | ImmediateOp immediate => immediate_cost immediate
  | MakeAggregate _ fields => vector_cost fields
  | FormatBoundedString _ parts => vector_cost parts ⊕ costs part_cost parts
  | Call _ arguments | AsyncCall _ arguments _ | ActorCommit _ arguments | TaskStart _ _ arguments => vector_cost arguments
  | Assert _ failure => text_cost (assertion_expression failure) ⊕ option_cost text_cost (assertion_message failure)
  | _ => new_meter
  end.
Definition case_cost (case : SwitchCase ValueId) : ResourceMeter := vector_cost (case_arguments case).
Definition terminator_cost (t : Terminator ValueId) : ResourceMeter :=
  match t with
  | Jump _ arguments | Return arguments | TailCall _ arguments => vector_cost arguments
  | Branch _ _ then_arguments _ else_arguments => vector_cost then_arguments ⊕ vector_cost else_arguments
  | Switch _ cases _ default_arguments => vector_cost cases ⊕ vector_cost default_arguments ⊕ costs case_cost cases
  | Suspend _ _ _ | Trap _ _ | Unreachable => new_meter
  end.
Definition instruction_cost (i : Instruction) : ResourceMeter := vector_cost (results i) ⊕ operation_cost (operation i).
Definition block_cost (b : Block) : ResourceMeter :=
  vector_cost (block_parameters b) ⊕ vector_cost (instructions b) ⊕ costs instruction_cost (instructions b)
  ⊕ terminator_cost (terminator b).

(** The work of validating a function: its instructions, an edge of the control
    flow or a block for every block, and a block for every operand. *)
Definition block_uses (b : Block) : Z :=
  sum_of (fun i => len (operation_values (operation i))) (instructions b) + len (terminator_values (terminator b)).
Definition function_uses (f : FlowFunction) : Z := sum_of block_uses (blocks f).
Definition function_edges (f : FlowFunction) : Z := sum_of (fun b => len (terminator_edges (terminator b))) (blocks f).
Definition function_instructions (f : FlowFunction) : Z := sum_of (fun b => len (instructions b)) (blocks f).
Definition function_work (f : FlowFunction) : Z :=
  function_instructions f + len (blocks f) * (len (blocks f) + function_edges f)
  + function_uses f * Z.max (len (blocks f)) 1.
Definition function_cost (f : FlowFunction) : ResourceMeter :=
  text_cost (function_name f) ⊕ vector_cost (parameters f) ⊕ vector_cost (result_types f) ⊕ vector_cost (function_proofs f)
  ⊕ vector_cost (values f) ⊕ vector_cost (blocks f) ⊕ costs (fun value => option_cost text_cost (value_source_name value)) (values f)
  ⊕ costs block_cost (blocks f) ⊕ work_cost (function_work f).

Definition type_cost (ty : FlowType) : ResourceMeter :=
  option_cost text_cost (type_name ty)
  ⊕ match kind ty with
    | KTuple items | KStruct items | KFunction items _ => vector_cost items
    | KEnum variants => vector_cost variants ⊕ costs vector_cost variants
    | KOpaqueTarget name => text_cost name
    | _ => new_meter
    end.
Definition assertion_cost (assertion : PlannedAssertionDescriptor) : ResourceMeter :=
  text_cost (planned_expression assertion) ⊕ option_cost text_cost (planned_message assertion).
Definition test_cost (test : ImageTest) : ResourceMeter :=
  text_cost (descriptor_name (image_descriptor test)) ⊕ vector_cost (planned_assertions test)
  ⊕ costs assertion_cost (planned_assertions test).
Definition group_cost (group : FullImageTestGroup) : ResourceMeter :=
  vector_cost (group_tests group) ⊕ text_cost (group_name group) ⊕ text_cost (root_name (group_root group))
  ⊕ costs test_cost (group_tests group).
Definition device_cost (device : DevicePlan) : ResourceMeter :=
  text_cost (device_name device) ⊕ text_cost (target_binding device) ⊕ vector_cost (required_features device)
  ⊕ vector_cost (optional_features device) ⊕ vector_cost (interrupt_functions device)
  ⊕ costs text_cost (required_features device ++ optional_features device).
Definition proof_cost (proof : Proof_) : ResourceMeter :=
  text_cost (proof_subject proof) ⊕ vector_cost (proof_sources proof) ⊕ vector_cost (depends_on proof)
  ⊕ vector_cost (explanation proof) ⊕ costs text_cost (explanation proof).

(** The dense tables, each bounded by itself as well. *)
Definition arenas (module : FlowWir) : list Z :=
  [len (types module); len (globals module); len (functions module); len (actors module); len (tasks module);
   len (devices module); len (pools module); len (regions module); len (activations module); len (schedulers module);
   len (proofs module); len (checkpoints module); len (tests module)].
Definition function_arenas (f : FlowFunction) : list Z :=
  len (values f) :: len (blocks f) :: map (fun b => len (instructions b)) (blocks f).
Definition all_arenas (module : FlowWir) : list Z := arenas module ++ concat (map function_arenas (functions module)).

Definition module_cost (module : FlowWir) : ResourceMeter :=
  text_cost (wir_name module) ⊕ text_cost (target_as_str (target (build module))) ⊕ costs edges_cost (arenas module)
  ⊕ vector_cost (startup_order module) ⊕ vector_cost (shutdown_order module)
  ⊕ costs (fun plan => vector_cost (scheduler_actors plan) ⊕ vector_cost (scheduler_tasks plan)) (schedulers module)
  ⊕ option_cost group_cost (compiled_test_group module)
  ⊕ costs type_cost (types module)
  ⊕ costs (fun global => text_cost (global_name global) ⊕ immediate_cost (initializer global)) (globals module)
  ⊕ costs function_cost (functions module)
  ⊕ costs (fun actor => text_cost (actor_name actor) ⊕ vector_cost (message_types actor) ⊕ vector_cost (turn_functions actor)) (actors module)
  ⊕ costs (fun task => text_cost (task_name task)) (tasks module)
  ⊕ costs device_cost (devices module)
  ⊕ costs (fun pool => text_cost (pool_name pool) ⊕ vector_cost (pool_devices pool)) (pools module)
  ⊕ costs (fun region => text_cost (region_name region)) (regions module)
  ⊕ costs proof_cost (proofs module)
  ⊕ costs (fun test => text_cost (entry_name test)) (tests module).

(** ** A metered step

    [meters d a c ok]: without interruption, from a meter within the limits, [d]
    adds the cost [c] and returns [a] if [ok] and the cost fits, and otherwise
    fails with a limit. *)

Definition fine_cost (c : ResourceMeter) : Prop := 0 <= metered_edges c /\ 0 <= metered_payload c /\ 0 <= metered_work c.

Section exact.
  Context (limits : ValidationLimits).
  Hypothesis Hedges : limit_edges limits + 4095 < 2 ^ 64.
  Hypothesis Hpayload : limit_payload limits < 2 ^ 64.
  Hypothesis Hwork : validation_work limits < 2 ^ 64.

Definition within (c : ResourceMeter) : bool :=
    (metered_edges c <=? limit_edges limits) && (metered_payload c <=? limit_payload limits)
    && (metered_work c <=? validation_work limits).

Definition meters {A} (d : metering A) (a : A) (c : ResourceMeter) (ok : bool) : Prop :=
    fine_cost c /\ forall m, fine_cost m -> within m = true ->
      if ok && within (m ⊕ c) then quiet (d m) = Ok (a, m ⊕ c)
      else exists resource limit, quiet (d m) = Err (FailureResourceLimit resource limit).

Lemma within_spec c : within c = true <->
    metered_edges c <= limit_edges limits /\ metered_payload c <= limit_payload limits /\ metered_work c <= validation_work limits.
  Proof. unfold within. rewrite !andb_true_iff, !Z.leb_le. tauto. Qed.

Lemma fine_plus c d : fine_cost c -> fine_cost d -> fine_cost (c ⊕ d).
  Proof. unfold fine_cost. simpl. lia. Qed.
Lemma plus_assoc c d e : c ⊕ (d ⊕ e) = c ⊕ d ⊕ e.
  Proof. unfold plus_cost. simpl. f_equal; lia. Qed.
Lemma plus_none c : c ⊕ new_meter = c.
  Proof. destruct c. unfold plus_cost. simpl. f_equal; lia. Qed.
Lemma none_plus c : new_meter ⊕ c = c.
  Proof. by destruct c. Qed.
Lemma fine_none : fine_cost new_meter.
  Proof. unfold fine_cost. simpl. lia. Qed.

Lemma within_less c d : fine_cost d -> within (c ⊕ d) = true -> within c = true.
  Proof. rewrite !within_spec. unfold fine_cost. simpl. lia. Qed.

Lemma meters_bind {A B} (d : metering A) (f : A -> metering B) a b c c' ok ok' :
    meters d a c ok -> fine_cost c' -> (ok = true -> meters (f a) b c' ok') -> meters (d ≫= f) b (c ⊕ c') (ok && ok').
  Proof.
    intros [Hc Hd] Hc' Hf. split; [by apply fine_plus|]. intros m Hm Hw. specialize (Hd m Hm Hw).
    rewrite (quietS_bind d f m), plus_assoc. destruct ok; [|simpl in *; destruct Hd as (r & l & ->); simpl; by eauto].
    destruct (Hf eq_refl) as [_ Hf']. simpl in Hd. destruct (within (m ⊕ c)) eqn:E.
    - rewrite Hd. cbn [mbind result_bind]. apply (Hf' (m ⊕ c)); [by apply fine_plus|done].
    - destruct Hd as (r & l & ->). destruct (within (m ⊕ c ⊕ c')) eqn:E'; [apply within_less in E'; [congruence|done]|].
      rewrite andb_false_r. simpl. by eauto.
  Qed.

Lemma meters_eq {A} (d : metering A) a c ok a' c' ok' :
    meters d a c ok -> a = a' -> c = c' -> (within c' = true -> ok = ok') -> meters d a' c' ok'.
  Proof.
    intros [Hc Hd] <- <- Hok. split; [done|]. intros m Hm Hw. specialize (Hd m Hm Hw).
    destruct (within (m ⊕ c)) eqn:E; [|by rewrite !andb_false_r in *]. rewrite <- Hok; [done|].
    revert E. rewrite !within_spec. unfold fine_cost in Hm. simpl. lia.
  Qed.

Lemma meters_mret {A} (a : A) : meters (mret a) a new_meter true.
  Proof. split; [apply fine_none|]. intros m _ Hw. by rewrite plus_none, Hw. Qed.

Lemma meters_poll : meters meter_poll tt new_meter true.
  Proof. split; [apply fine_none|]. intros m _ Hw. by rewrite plus_none, Hw. Qed.

Lemma meters_demand {A} (o : option A) a ok resource limit :
    (if ok : bool then o = Some a else o = None) -> meters (demand o (FailureResourceLimit resource limit)) a new_meter ok.
  Proof.
    intros Ho. split; [apply fine_none|]. intros m _ Hw. rewrite plus_none, Hw, andb_true_r. unfold demand.
    rewrite quiet_liftS. destruct ok; subst; [done|]. simpl. by eauto.
  Qed.

Lemma meters_checked_add a b resource limit :
    meters (demand (checked_add 64 a b) (FailureResourceLimit resource limit)) (a + b) new_meter (a + b <? 2 ^ 64).
  Proof. apply meters_demand. unfold checked_add. by destruct (_ <? _). Qed.

Lemma meters_charge step failure c :
    fine_cost c -> (exists r l, failure = FailureResourceLimit r l) ->
    (forall m, within m = true -> fine_cost m -> step m = if within (m ⊕ c) then Some (m ⊕ c) else None) ->
    meters (charge step failure) tt c true.
  Proof.
    intros Hc (r & l & ->) Hs. split; [done|]. intros m Hm Hw. unfold charge. rewrite quiet_bind, quiet_lift, Hs by done.
    simpl. destruct (within (m ⊕ c)); [done|]. simpl. by eauto.
  Qed.

Lemma meters_polls n : meters (poll_chunks n) tt new_meter true.
  Proof.
    induction n as [|n IH]; cbn [poll_chunks]; [apply meters_mret|].
    eapply meters_eq; [eapply meters_bind; [apply meters_poll|apply fine_none|intros _; exact IH]|done|apply plus_none|done].
  Qed.

Lemma meters_seq {A B} (d : metering A) (f : A -> metering B) a b c c' ok ok' :
    meters d a c ok -> meters (f a) b c' ok' -> meters (d ≫= f) b (c ⊕ c') (ok && ok').
  Proof. intros Hd Hf. apply (meters_bind d f a b); [done|apply Hf|done]. Qed.

Lemma add_within_spec total amount limit : limit < 2 ^ 64 ->
    add_within total amount limit = if total + amount <=? limit then Some (total + amount) else None.
  Proof.
    intros Hl. unfold add_within, checked_add. destruct (Z.ltb_spec (total + amount) (2 ^ 64)); [done|]. simpl.
    destruct (Z.leb_spec (total + amount) limit); [lia|done].
  Qed.

  (** Charging one of the three counters. *)
Ltac charged := intros m [? ?]%andb_true_iff Hm; rewrite add_within_spec by lia; bool_to_prop;
    match goal with |- context [?x <=? ?y] => destruct (Z.leb_spec x y) end;
    [replace (within _) with true by (symmetry; apply within_spec; simpl; lia); unfold plus_cost; simpl; do 2 f_equal; lia
    |replace (within _) with false by (symmetry; apply not_true_is_false; rewrite within_spec; simpl; lia); done].

Lemma meters_edges n : 0 <= n -> meters (meter_edges limits n) tt (edges_cost n) true.
  Proof.
    intros Hn. unfold meter_edges. eapply meters_eq; [eapply meters_seq; [apply meters_checked_add|]|done| |].
    - eapply meters_seq; [apply meters_polls|]. apply (meters_charge _ _ (edges_cost n)); [unfold fine_cost; simpl; lia|by eexists _, _|].
      charged.
    - by rewrite !none_plus.
    - intros [Hw _]%within_spec. simpl in Hw. rewrite andb_true_r. apply Z.ltb_lt. lia.
  Qed.

Lemma meters_check b resource limit : meters (liftS (fail_if b (FailureResourceLimit resource limit))) tt new_meter (negb b).
  Proof.
    split; [apply fine_none|]. intros m _ Hw. rewrite plus_none, Hw, andb_true_r, quiet_liftS, quiet_fail_if.
    destruct b; simpl; [by eauto|done].
  Qed.

Lemma meters_length resource n limit : meters (meter_length resource n limit) n new_meter (n <=? limit).
  Proof.
    unfold meter_length.
    eapply meters_eq; [eapply meters_seq; [apply meters_poll|eapply meters_seq; [apply meters_check|apply meters_mret]]|done|done|].
    intros _. by rewrite andb_true_r, Z.ltb_antisym, negb_involutive.
  Qed.

Lemma meters_arena resource n : 0 <= n -> meters (arena limits resource n) tt (edges_cost n) (n <=? arena_records limits).
  Proof.
    intros Hn. unfold arena. eapply meters_eq; [eapply meters_seq; [apply meters_length|by apply meters_edges]|done|apply none_plus|].
    intros _. apply andb_true_r.
  Qed.

Lemma meters_slice {A} (xs : list A) : meters (edge_slice limits xs) tt (vector_cost xs) true.
  Proof.
    pose proof (len_nonneg xs) as Hn. unfold edge_slice.
    eapply meters_eq; [eapply meters_seq; [apply meters_length|by apply meters_edges]|done|apply none_plus|].
    intros [Hw _]%within_spec. simpl in Hw. rewrite andb_true_r. apply Z.leb_le. lia.
  Qed.

Lemma meters_payload n : 0 <= n -> meters (meter_payload limits n) tt (payload_cost n) true.
  Proof.
    intros Hn. unfold meter_payload. eapply meters_eq; [eapply meters_seq; [apply meters_poll|]|done|apply none_plus|done].
    apply (meters_charge _ _ (payload_cost n)); [unfold fine_cost; simpl; lia|by eexists _, _|]. charged.
  Qed.

Lemma meters_text s : meters (meter_text limits s) tt (text_cost s) true.
  Proof. apply meters_payload, len_nonneg. Qed.

Lemma meters_work n : 0 <= n -> meters (meter_work limits n) tt (work_cost n) true.
  Proof.
    intros Hn. unfold meter_work. eapply meters_eq; [eapply meters_seq; [apply meters_poll|]|done|apply none_plus|done].
    apply (meters_charge _ _ (work_cost n)); [unfold fine_cost; simpl; lia|by eexists _, _|]. charged.
  Qed.

Lemma meters_product m n : 0 <= m -> 0 <= n -> meters (work_product limits m n) tt (work_cost (m * n)) true.
  Proof.
    intros Hm Hn. unfold work_product. eapply meters_eq; [eapply meters_seq|done| |].
    - apply (meters_demand _ (m * n) (m * n <? 2 ^ 64)). unfold checked_mul. by destruct (_ <? _).
    - apply meters_work. lia.
    - apply none_plus.
    - intros (_ & _ & Hw)%within_spec. simpl in Hw. rewrite andb_true_r. apply Z.ltb_lt. lia.
  Qed.

Lemma count_uses_exact {A} (xs : list A) :
    count_uses xs = if len xs <? 2 ^ 64 then Some (len xs) else None.
  Proof.
    induction xs as [|x xs IH] using rev_ind; [done|]. unfold count_uses in *. rewrite foldl_snoc, IH, len_app.
    change (len [x]) with 1. unfold checked_add. pose proof (len_nonneg xs).
    destruct (Z.ltb_spec (len xs) (2 ^ 64)); simpl; [done|]. destruct (Z.ltb_spec (len xs + 1) (2 ^ 64)); [lia|done].
  Qed.

Lemma meters_uses {A} (xs : list A) resource limit :
    meters (demand (count_uses xs) (FailureResourceLimit resource limit)) (len xs) new_meter (len xs <? 2 ^ 64).
  Proof. apply meters_demand. rewrite count_uses_exact. by destruct (_ <? _). Qed.

Lemma meters_option {A} (o : option A) body c :
    (forall x, meters (body x) tt (c x) true) -> meters (meter_option o body) tt (option_cost c o) true.
  Proof.
    intros H. destruct o as [x|]; [|apply meters_mret]. eapply meters_eq; [apply H|done| |done].
    unfold option_cost. simpl. by rewrite plus_none.
  Qed.

Lemma meters_each {A} (xs : list A) body c ok :
    (forall x, meters (body x) tt (c x) (ok x)) -> meters (meter_each xs body) tt (costs c xs) (forallb ok xs).
  Proof.
    intros H. induction xs as [|x xs IH]; cbn [meter_each]; [apply meters_mret|].
    eapply meters_eq; [eapply meters_seq; [apply meters_poll|eapply meters_seq; [apply H|exact IH]]|done|apply none_plus|done].
  Qed.

Lemma fine_costs {A} (c : A -> ResourceMeter) xs : (forall x, fine_cost (c x)) -> fine_cost (costs c xs).
  Proof. intros H. induction xs as [|x xs IH]; [apply fine_none|by apply fine_plus]. Qed.

Lemma forallb_true {A} (xs : list A) : forallb (fun _ => true) xs = true.
  Proof. by induction xs. Qed.
Lemma meters_each_true {A} (xs : list A) body c :
    (forall x, meters (body x) tt (c x) true) -> meters (meter_each xs body) tt (costs c xs) true.
  Proof. intros H. rewrite <- (forallb_true xs). by apply meters_each. Qed.

  (** A loop over counters that only grow, and must stay [good]. *)
Lemma meters_fold {A S} (body : S -> A -> metering S) (step : S -> A -> S) (inv : S -> Prop) (good : S -> bool) c ok xs s :
    (forall s x, inv s -> good s = true -> meters (body s x) (step s x) (c x) (ok x && good (step s x))) ->
    (forall s x, inv s -> inv (step s x) /\ (good (step s x) = true -> good s = true)) -> (forall x, fine_cost (c x)) ->
    inv s -> good s = true ->
    meters (meter_fold body xs s) (foldl step s xs) (costs c xs) (forallb ok xs && good (foldl step s xs)).
  Proof.
    intros Hb Hg Hc. revert s. induction xs as [|x xs IH]; intros s Hi Hs; cbn [meter_fold].
    - simpl. rewrite Hs. apply meters_mret.
    - destruct (Hg s x Hi) as [Hi' _]. eapply meters_eq; [eapply meters_seq; [apply meters_poll|]|done|apply none_plus|].
      + eapply (meters_bind _ _ _ (foldl step (step s x) xs)); [by apply Hb| |intros [_ Hg']%andb_true_iff; by apply IH].
        by apply fine_costs.
      + intros _. simpl. rewrite <- !andb_assoc. f_equal. destruct (good (step s x)) eqn:E; simpl; [done|].
        destruct (good (foldl step (step s x) xs)) eqn:E'; [|by rewrite andb_false_r].
        assert (Hback : forall ys t, inv t -> good (foldl step t ys) = true -> good t = true).
        { intros ys. induction ys as [|y ys IHys]; [done|]. intros t Ht Hgt. destruct (Hg t y Ht) as [Ht' Hgy].
          by apply Hgy, IHys. }
        apply Hback in E'; congruence.
  Qed.

  (** Walk through a metered step; then compare its cost and its condition. *)
Ltac metered_atom := first
    [ apply meters_mret | apply meters_poll | apply meters_text | apply meters_slice | apply meters_uses
    | apply meters_checked_add | by apply meters_payload, len_nonneg | by apply meters_arena, len_nonneg
    | apply meters_option; intros ? | apply meters_each_true; intros ? | eassumption | solve [eauto 1 with meter] ].
Ltac metered_walk :=
    lazymatch goal with
    | |- meters (_ ≫= _) _ _ _ => eapply meters_seq; [metered_walk|cbv beta iota; metered_walk]
    | |- meters (match ?x with _ => _ end) _ _ _ => fail
    | |- _ => metered_atom; metered_walk
    | |- _ => idtac
    end.
Ltac same_cost := rewrite ?none_plus, ?plus_none, ?plus_assoc; reflexivity.
Ltac metered := eapply meters_eq; [metered_walk|try reflexivity|try same_cost|try done].

Lemma meters_immediate im : meters (meter_immediate limits im) tt (immediate_cost im) true.
  Proof. destruct im; apply meters_poll || apply meters_payload, len_nonneg. Qed.

Lemma meters_part part : meters (meter_part limits part) tt (part_cost part) true.
  Proof. destruct part; apply meters_mret || apply meters_text. Qed.
#[local] Hint Resolve meters_immediate meters_part : meter.

Lemma meters_operation op :
    meters (meter_operation limits op) (len (operation_values op)) (operation_cost op) (len (operation_values op) <? 2 ^ 64).
  Proof.
    unfold meter_operation. rewrite flow_operation_values_eq.
    assert (H : forall (d : metering unit) c, meters d tt c true ->
      meters (_ ← meter_poll; _ ← d; demand (count_uses (operation_values op)) (WORK limits))
        (len (operation_values op)) c (len (operation_values op) <? 2 ^ 64)).
    { intros d c Hd. metered. }
    destruct op; apply H; try apply meters_mret; try apply meters_slice; metered.
  Qed.

Lemma meters_case case : meters (meter_case limits case) tt (case_cost case) true.
  Proof. apply meters_slice. Qed.
#[local] Hint Resolve meters_operation meters_case : meter.

Lemma meters_terminator t :
    meters (meter_terminator limits t) (len (terminator_edges t), len (terminator_values t)) (terminator_cost t)
      ((len (terminator_edges t) <? 2 ^ 64) && (len (terminator_values t) <? 2 ^ 64)).
  Proof.
    assert (Hcases : forall (cases : list (SwitchCase ValueId)) d, len (map case_target cases ++ [d]) = len cases + 1).
    { intros cases d. rewrite len_app. unfold len. by rewrite length_map. }
    unfold meter_terminator. rewrite flow_terminator_values_eq. destruct t; cbn [terminator_edges]; rewrite ?Hcases; metered.
    all: intros _; simpl; by rewrite ?andb_true_r.
  Qed.

Lemma foldl_add {A} (f : A -> Z) xs s : foldl (fun s x => s + f x) s xs = s + sum_of f xs.
  Proof. revert s. induction xs as [|x xs IH]; intros s; simpl; [lia|]. rewrite IH. fold (sum_of f xs). lia. Qed.

  (** A counter that may be added to. *)
Definition counter (n : Z) : bool := n <? 2 ^ 64.

Lemma meters_instruction uses i : 0 <= uses ->
    meters (meter_instruction limits uses i) (uses + len (operation_values (operation i))) (instruction_cost i)
      (counter (uses + len (operation_values (operation i)))).
  Proof.
    intros Hu. pose proof (len_nonneg (operation_values (operation i))) as Hn. unfold meter_instruction. metered.
    intros _. unfold counter. simpl. apply eq_true_iff_eq. rewrite andb_true_iff, !Z.ltb_lt. lia.
  Qed.

Lemma meters_instructions is_ uses : 0 <= uses -> counter uses = true ->
    let total := uses + sum_of (fun i => len (operation_values (operation i))) is_ in
    meters (meter_fold (meter_instruction limits) is_ uses) total (costs instruction_cost is_) (counter total).
  Proof.
    intros Hu Hc total. unfold total. rewrite <- foldl_add.
    eapply meters_eq; [apply (meters_fold _ (fun u i => u + len (operation_values (operation i))) (fun u => 0 <= u) counter instruction_cost (fun _ => true))|..]; try done.
    - intros u i Hi _. by apply meters_instruction.
    - intros u i Hi. pose proof (len_nonneg (operation_values (operation i))). unfold counter. rewrite !Z.ltb_lt. lia.
    - intros i. apply (meters_instruction 0 i). lia.
    - intros _. by rewrite forallb_true.
  Qed.

Definition count_block (st : Z * Z * Z) (b : Block) : Z * Z * Z :=
    let '(instructions_, edges, uses) := st in
    (instructions_ + len (instructions b), edges + len (terminator_edges (terminator b)), uses + block_uses b).
Definition counting (st : Z * Z * Z) : Prop := let '(instructions_, edges, uses) := st in 0 <= instructions_ /\ 0 <= edges /\ 0 <= uses.
Definition counters (st : Z * Z * Z) : bool :=
    let '(instructions_, edges, uses) := st in counter instructions_ && counter edges && counter uses.

Lemma block_uses_nonneg b : 0 <= block_uses b.
  Proof.
    unfold block_uses. pose proof (len_nonneg (terminator_values (terminator b))).
    enough (0 <= sum_of (fun i => len (operation_values (operation i))) (instructions b)) by lia.
    apply sum_of_nonneg. intros i. apply len_nonneg.
  Qed.

Lemma meters_block st b : counting st -> counters st = true ->
    meters (meter_block limits st b) (count_block st b) (block_cost b)
      ((len (instructions b) <=? arena_records limits) && counters (count_block st b)).
  Proof.
    destruct st as [[n e] u]. unfold counting, counters, counter. intros (Hn & He & Hu) Hc. bool_to_prop.
    unfold meter_block, count_block, block_uses.
    pose proof (len_nonneg (instructions b)). pose proof (len_nonneg (terminator_edges (terminator b))).
    pose proof (len_nonneg (terminator_values (terminator b))).
    assert (0 <= sum_of (fun i => len (operation_values (operation i))) (instructions b)) by (apply sum_of_nonneg; intros; apply len_nonneg).
    eapply meters_eq.
    - eapply meters_seq; [apply meters_slice|]. eapply meters_seq; [by apply meters_arena|].
      eapply meters_seq; [apply meters_checked_add|].
      eapply meters_seq; [apply meters_instructions; [done|by apply Z.ltb_lt]|].
      eapply meters_seq; [apply meters_terminator|]. cbv beta iota. metered_walk.
    - by rewrite Z.add_assoc.
    - same_cost.
    - intros _. unfold counter. apply eq_true_iff_eq. rewrite !andb_true_iff, !Z.leb_le, !Z.ltb_lt. lia.
  Qed.

Lemma fine_block b : fine_cost (block_cost b).
  Proof. apply (meters_block (0, 0, 0) b); [unfold counting; lia|done]. Qed.

Lemma foldl_blocks bs n e u : foldl count_block (n, e, u) bs =
    (n + sum_of (fun b => len (instructions b)) bs, e + sum_of (fun b => len (terminator_edges (terminator b))) bs,
     u + sum_of block_uses bs).
  Proof.
    revert n e u. induction bs as [|b bs IH]; intros n e u; cbn [foldl count_block]; [by rewrite !sum_of_nil, !Z.add_0_r|].
    rewrite IH, !sum_of_cons. by rewrite !Z.add_assoc.
  Qed.

Lemma meters_blocks bs st : counting st -> counters st = true ->
    meters (meter_fold (meter_block limits) bs st) (foldl count_block st bs) (costs block_cost bs)
      (forallb (fun b => len (instructions b) <=? arena_records limits) bs && counters (foldl count_block st bs)).
  Proof.
    intros Hi Hc. apply (meters_fold _ _ counting counters block_cost); try done.
    - intros s b Hs Hg. by apply meters_block.
    - intros [[n e] u] b (Hn & He & Hu). pose proof (len_nonneg (instructions b)).
      pose proof (len_nonneg (terminator_edges (terminator b))). pose proof (block_uses_nonneg b).
      unfold counting, counters, counter, count_block. rewrite !andb_true_iff, !Z.ltb_lt. lia.
    - apply fine_block.
  Qed.

  (** The tables of a module or a function that fit the limit of records. *)
Definition records_fit (lengths : list Z) : bool := forallb (fun n => n <=? arena_records limits) lengths.

Lemma records_app l k : records_fit (l ++ k) = records_fit l && records_fit k.
  Proof. apply forallb_app. Qed.
Lemma records_blocks bs : records_fit (map (fun b => len (instructions b)) bs) = forallb (fun b => len (instructions b) <=? arena_records limits) bs.
  Proof. unfold records_fit. induction bs as [|b bs IH]; [done|]. simpl. by rewrite IH. Qed.

Lemma function_work_bounds f :
    0 <= function_instructions f /\ 0 <= function_edges f /\ 0 <= function_uses f
    /\ (len (blocks f) = 0 -> function_edges f = 0).
  Proof.
    split_and!; [apply sum_of_nonneg; intros; apply len_nonneg|apply sum_of_nonneg; intros; apply len_nonneg
      |apply sum_of_nonneg; apply block_uses_nonneg|].
    unfold function_edges. destruct (blocks f); [done|]. rewrite len_cons. pose proof (len_nonneg l). lia.
  Qed.

Lemma fine_vector {A} (xs : list A) : fine_cost (vector_cost xs).
  Proof. pose proof (len_nonneg xs). unfold fine_cost. simpl. lia. Qed.
Lemma fine_text s : fine_cost (text_cost s).
  Proof. pose proof (len_nonneg s). unfold fine_cost. simpl. lia. Qed.
#[local] Hint Resolve fine_plus fine_none fine_vector fine_text fine_costs fine_block : meter.

Lemma meters_function f : meters (meter_function limits f) tt (function_cost f) (records_fit (function_arenas f)).
  Proof.
    destruct (function_work_bounds f) as (Hn & He & Hu & H0). pose proof (len_nonneg (blocks f)) as Hb.
    unfold meter_function. eapply meters_eq.
    - eapply meters_seq; [apply meters_text|]. do 3 (eapply meters_seq; [apply meters_slice|]).
      do 2 (eapply meters_seq; [apply meters_arena, len_nonneg|]).
      eapply meters_seq; [apply meters_each_true; intros value; apply meters_option, meters_text|].
      eapply meters_seq; [apply meters_blocks; [unfold counting; lia|done]|]. rewrite foldl_blocks. cbv beta iota.
      rewrite !Z.add_0_l. fold (function_instructions f) (function_edges f) (function_uses f).
      eapply meters_seq; [by apply meters_work|]. eapply meters_seq; [apply meters_checked_add|].
      eapply meters_seq; [apply meters_product; lia|]. apply meters_product; lia.
    - done.
    - unfold function_cost. rewrite ?none_plus, ?plus_none, ?plus_assoc.
      enough (work_cost (function_instructions f) ⊕ work_cost (len (blocks f) * (len (blocks f) + function_edges f))
        ⊕ work_cost (function_uses f * Z.max (len (blocks f)) 1) = work_cost (function_work f)) as H.
      { rewrite <- H, !plus_assoc. reflexivity. }
      unfold work_cost, plus_cost. simpl. done.
    - intros Hw. assert (function_work f < 2 ^ 64) as Hlimit.
      { enough (fine_cost (text_cost (function_name f) ⊕ vector_cost (parameters f) ⊕ vector_cost (result_types f)
          ⊕ vector_cost (function_proofs f) ⊕ vector_cost (values f) ⊕ vector_cost (blocks f)
          ⊕ costs (fun value => option_cost text_cost (value_source_name value)) (values f) ⊕ costs block_cost (blocks f))) as Hf.
        - unfold function_cost in Hw. apply within_spec in Hw as (_ & _ & Hw). destruct Hf as (_ & _ & Hf). simpl in *. lia.
        - repeat apply fine_plus; auto with meter. apply fine_costs. intros v. apply fine_costs. auto with meter. }
      unfold function_arenas. cbn [records_fit forallb]. fold (records_fit (map (fun b => len (instructions b)) (blocks f))).
      rewrite records_blocks, foldl_blocks, !Z.add_0_l. unfold counters, counter, function_work in *.
      fold (function_instructions f) (function_edges f) (function_uses f).
      apply eq_true_iff_eq. rewrite !andb_true_iff, !Z.leb_le, !Z.ltb_lt.
      assert (function_edges f <= len (blocks f) * (len (blocks f) + function_edges f)) by nia.
      assert (len (blocks f) + function_edges f <= len (blocks f) * (len (blocks f) + function_edges f)) by nia.
      assert (function_uses f <= function_uses f * Z.max (len (blocks f)) 1) by nia.
      intuition lia.
  Qed.
#[local] Hint Resolve meters_function : meter.

Lemma meters_type ty : meters (meter_type limits ty) tt (type_cost ty) true.
  Proof. unfold meter_type, type_cost. destruct (kind ty); metered. Qed.
Lemma meters_assertion a : meters (meter_assertion limits a) tt (assertion_cost a) true.
  Proof. unfold meter_assertion. metered. Qed.
#[local] Hint Resolve meters_type meters_assertion : meter.
Lemma meters_test test : meters (meter_test limits test) tt (test_cost test) true.
  Proof. unfold meter_test. metered. Qed.
#[local] Hint Resolve meters_test : meter.
Lemma meters_group group : meters (meter_group limits group) tt (group_cost group) true.
  Proof. unfold meter_group. metered. Qed.
Lemma meters_device device : meters (meter_device limits device) tt (device_cost device) true.
  Proof. unfold meter_device. metered. Qed.
Lemma meters_proof proof : meters (meter_proof limits proof) tt (proof_cost proof) true.
  Proof. unfold meter_proof. metered. Qed.
Lemma meters_scheduler plan :
    meters (meter_scheduler limits plan) tt (vector_cost (scheduler_actors plan) ⊕ vector_cost (scheduler_tasks plan)) true.
  Proof. unfold meter_scheduler. metered. Qed.
Lemma meters_global global :
    meters (meter_global limits global) tt (text_cost (global_name global) ⊕ immediate_cost (initializer global)) true.
  Proof. unfold meter_global. metered. Qed.
Lemma meters_actor actor : meters (meter_actor limits actor) tt
    (text_cost (actor_name actor) ⊕ vector_cost (message_types actor) ⊕ vector_cost (turn_functions actor)) true.
  Proof. unfold meter_actor. metered. Qed.
Lemma meters_pool pool : meters (meter_pool limits pool) tt (text_cost (pool_name pool) ⊕ vector_cost (pool_devices pool)) true.
  Proof. unfold meter_pool. metered. Qed.
Lemma meters_none {A} (xs : list A) : meters (meter_each xs (fun _ => mret tt)) tt new_meter true.
  Proof.
    eapply meters_eq; [apply (meters_each_true _ _ (fun _ => new_meter)); intros _; apply meters_mret|done| |done].
    induction xs as [|x xs IH]; [done|]. simpl. by rewrite IH.
  Qed.
#[local] Hint Resolve meters_group meters_device meters_proof meters_scheduler meters_global meters_actor meters_pool meters_none : meter.

Lemma meters_arenas module : meters (meter_arenas limits module) tt (costs edges_cost (arenas module)) (records_fit (arenas module)).
  Proof.
    unfold meter_arenas. eapply meters_eq.
    - do 12 (eapply meters_seq; [apply meters_arena, len_nonneg|]). apply meters_arena, len_nonneg.
    - done.
    - unfold arenas, costs. cbn [foldr]. by rewrite plus_none.
    - intros _. unfold records_fit, arenas. cbn [forallb]. by rewrite andb_true_r.
  Qed.
#[local] Hint Resolve meters_arenas : meter.

Lemma meters_functions fs :
    meters (meter_each fs (meter_function limits)) tt (costs function_cost fs) (records_fit (concat (map function_arenas fs))).
  Proof.
    eapply meters_eq; [apply (meters_each _ _ function_cost (fun f => records_fit (function_arenas f))); intros; apply meters_function|done|done|].
    intros _. induction fs as [|f fs IH]; [done|]. cbn [forallb map concat]. by rewrite records_app, IH.
  Qed.
#[local] Hint Resolve meters_functions : meter.

Lemma meters_module module : meters (meter_module limits module) tt (module_cost module) (records_fit (all_arenas module)).
  Proof.
    unfold meter_module. eapply meters_eq.
    - do 2 (eapply meters_seq; [apply meters_text|]). eapply meters_seq; [apply meters_arenas|].
      do 2 (eapply meters_seq; [apply meters_slice|]).
      eapply meters_seq; [apply meters_each_true, meters_scheduler|].
      eapply meters_seq; [apply meters_option, meters_group|].
      eapply meters_seq; [apply meters_each_true, meters_type|].
      eapply meters_seq; [apply meters_each_true, meters_global|].
      eapply meters_seq; [apply meters_functions|].
      eapply meters_seq; [apply meters_each_true, meters_actor|].
      eapply meters_seq; [apply meters_each_true; intros task; apply meters_text|].
      eapply meters_seq; [apply meters_each_true, meters_device|].
      eapply meters_seq; [apply meters_each_true, meters_pool|].
      eapply meters_seq; [apply meters_each_true; intros region; apply meters_text|].
      eapply meters_seq; [apply meters_none|].
      eapply meters_seq; [apply meters_each_true, meters_proof|].
      eapply meters_seq; [apply meters_each_true; intros test; apply meters_text|]. apply meters_poll.
    - done.
    - unfold module_cost. rewrite ?none_plus, ?plus_none, ?plus_assoc. reflexivity.
    - intros _. unfold all_arenas. by rewrite records_app, !andb_true_r.
  Qed.
End exact.

(** ** What is refused *)

(** Every table, the vector elements, the texts and the work of a model are
    within the limits. *)
Definition affordable (limits : ValidationLimits) (module : FlowWir) : Prop :=
  Forall (fun n => n <= arena_records limits) (all_arenas module)
  /\ metered_edges (module_cost module) <= limit_edges limits
  /\ metered_payload (module_cost module) <= limit_payload limits
  /\ metered_work (module_cost module) <= validation_work limits.

Definition resource_interruption (e : ValidationFailure) : Prop := e = FailureCancelled.

(** Every step is looked up by its name. *)
#[local] Typeclasses Opaque demand charge meter_poll poll_chunks meter_each meter_fold meter_option meter_length meter_edges
  arena edge_slice meter_payload meter_text meter_work work_product meter_immediate meter_part meter_operation meter_case
  meter_terminator meter_instruction meter_block meter_function meter_type meter_assertion meter_test meter_group
  meter_scheduler meter_global meter_actor meter_device meter_pool meter_proof meter_arenas meter_module.

Section stops.
  Context (limits : ValidationLimits).
  Notation stops := (interruptibleS resource_interruption).

#[local] Instance stops_poll : stops meter_poll.
  Proof. apply interruptibleS_liftS. by apply interruptible_poll. Qed.
#[local] Instance stops_demand {A} (o : option A) e : stops (demand o e).
  Proof. unfold demand. apply _. Qed.
#[local] Instance stops_charge step e : stops (charge step e).
  Proof. intros m. unfold charge. apply _. Qed.
#[local] Instance stops_chunks n : stops (poll_chunks n).
  Proof. induction n; cbn [poll_chunks]; apply _. Qed.
#[local] Instance stops_each {A} (xs : list A) body : (forall x, stops (body x)) -> stops (meter_each xs body).
  Proof. intros H. induction xs; cbn [meter_each]; apply _. Qed.
#[local] Instance stops_fold {A S} (body : S -> A -> metering S) xs s : (forall s x, stops (body s x)) -> stops (meter_fold body xs s).
  Proof. intros H. revert s. induction xs; intros s; cbn [meter_fold]; apply _. Qed.
#[local] Instance stops_option {A} (o : option A) body : (forall x, stops (body x)) -> stops (meter_option o body).
  Proof. intros H. destruct o; cbn [meter_option]; apply _. Qed.
#[local] Instance stops_length r n l : stops (meter_length r n l).
Proof. unfold meter_length. uninterrupted. Qed.
#[local] Instance stops_edges n : stops (meter_edges limits n).
Proof. unfold meter_edges. uninterrupted. Qed.
#[local] Instance stops_arena r n : stops (arena limits r n).
Proof. unfold arena. uninterrupted. Qed.
#[local] Instance stops_slice {A} (xs : list A) : stops (edge_slice limits xs).
Proof. unfold edge_slice. uninterrupted. Qed.
#[local] Instance stops_payload n : stops (meter_payload limits n).
Proof. unfold meter_payload. uninterrupted. Qed.
#[local] Instance stops_text s : stops (meter_text limits s).
Proof. unfold meter_text. uninterrupted. Qed.
#[local] Instance stops_work n : stops (meter_work limits n).
Proof. unfold meter_work. uninterrupted. Qed.
#[local] Instance stops_immediate im : stops (meter_immediate limits im).
Proof. unfold meter_immediate. uninterrupted. Qed.
#[local] Instance stops_part part : stops (meter_part limits part).
Proof. unfold meter_part. uninterrupted. Qed.
#[local] Instance stops_operation op : stops (meter_operation limits op).
Proof. unfold meter_operation. uninterrupted. Qed.
#[local] Instance stops_case case : stops (meter_case limits case).
Proof. unfold meter_case. uninterrupted. Qed.
#[local] Instance stops_terminator t : stops (meter_terminator limits t).
Proof. unfold meter_terminator. uninterrupted. Qed.
#[local] Instance stops_instruction u i : stops (meter_instruction limits u i).
Proof. unfold meter_instruction. uninterrupted. Qed.
#[local] Instance stops_block st b : stops (meter_block limits st b).
Proof. unfold meter_block. uninterrupted. Qed.
#[local] Instance stops_product m n : stops (work_product limits m n).
Proof. unfold work_product. uninterrupted. Qed.
#[local] Instance stops_function f : stops (meter_function limits f).
Proof. unfold meter_function. uninterrupted. Qed.
#[local] Instance stops_type ty : stops (meter_type limits ty).
Proof. unfold meter_type. uninterrupted. Qed.
#[local] Instance stops_assertion a : stops (meter_assertion limits a).
Proof. unfold meter_assertion. uninterrupted. Qed.
#[local] Instance stops_test test : stops (meter_test limits test).
Proof. unfold meter_test. uninterrupted. Qed.
#[local] Instance stops_group group : stops (meter_group limits group).
Proof. unfold meter_group. uninterrupted. Qed.
#[local] Instance stops_device device : stops (meter_device limits device).
Proof. unfold meter_device. uninterrupted. Qed.
#[local] Instance stops_proof proof : stops (meter_proof limits proof).
Proof. unfold meter_proof. uninterrupted. Qed.
#[local] Instance stops_scheduler plan : stops (meter_scheduler limits plan).
Proof. unfold meter_scheduler. uninterrupted. Qed.
#[local] Instance stops_global global : stops (meter_global limits global).
Proof. unfold meter_global. uninterrupted. Qed.
#[local] Instance stops_actor actor : stops (meter_actor limits actor).
Proof. unfold meter_actor. uninterrupted. Qed.
#[local] Instance stops_pool pool : stops (meter_pool limits pool).
Proof. unfold meter_pool. uninterrupted. Qed.
#[local] Instance stops_arenas module : stops (meter_arenas limits module).
Proof. unfold meter_arenas. uninterrupted. Qed.
#[export] Instance stops_module module : stops (meter_module limits module).
Proof. unfold meter_module. uninterrupted. Qed.
End stops.

#[export] Instance stops_validate_model_resources module limits :
  interruptible resource_interruption (validate_model_resources module limits).
Proof. unfold validate_model_resources. apply interruptible_bind; [apply _|]. by intros [? ?]. Qed.

Lemma meter_admits module limits : affordable limits module <->
  records_fit limits (all_arenas module) && within limits (module_cost module) = true.
Proof.
  unfold affordable, records_fit. rewrite andb_true_iff, within_spec, forallb_forall, Forall_forall.
  setoid_rewrite list_elem_of_In. setoid_rewrite Z.leb_le. done.
Qed.

(** C21: the resource meter refuses exactly the models that exceed the limits.
    Undisturbed, it returns if and only if no table holds more than
    [arena_records] records, the vectors of the model together hold at most
    [model_edges] elements, its texts at most [payload_bytes] bytes, and the
    work of validating it ([function_work]: for every function, its instructions,
    its blocks times its blocks and control-flow edges, and its operands times
    its blocks) is at most [validation_work]; otherwise it fails with a limit.
    No overflow of a counter changes that. A cancellation can only turn the
    outcome into [Cancelled]. *)
Theorem validate_model_resources_exact module limits env w :
  ValidationLimits_is_valid limits = true ->
  limit_edges limits + 4095 < 2 ^ 64 -> limit_payload limits < 2 ^ 64 -> validation_work limits < 2 ^ 64 ->
  (quiet (validate_model_resources module limits) = Ok tt <-> affordable limits module)
  /\ (quiet (validate_model_resources module limits) = Ok tt
      \/ exists resource limit, quiet (validate_model_resources module limits) = Err (FailureResourceLimit resource limit))
  /\ (fst (run env w (validate_model_resources module limits)) = quiet (validate_model_resources module limits)
      \/ fst (run env w (validate_model_resources module limits)) = Err FailureCancelled).
Proof.
  intros Hv He Hp Hw. split; [|split].
  3: { destruct (run_interruptible resource_interruption env w (validate_model_resources module limits) _) as [H|(e & H & ->)]; auto. }
  all: unfold ValidationLimits_is_valid in Hv; bool_to_prop.
  all: destruct (meters_module limits He Hp Hw module) as [_ Hm]; specialize (Hm new_meter fine_none).
  all: rewrite none_plus in Hm; unfold validate_model_resources; rewrite quiet_bind.
  all: assert (within limits new_meter = true) as Hn by (apply within_spec; simpl; lia); specialize (Hm Hn).
  - rewrite meter_admits. destruct (_ && _); [by rewrite Hm|]. destruct Hm as (r & l & ->). done.
  - destruct (_ && _); [left; by rewrite Hm|right]. destruct Hm as (r & l & ->). by exists r, l.
Qed.
