(* ===== verification/FlowAccept.v ===== *)
(** Reasoning about validators.

    [returns m P]: [m] never runs into a fault, and what it goes on with
    satisfies [P]. [honest m]: an error, a cancellation or a lack of memory is
    never forgotten, and [m] returns early only after one of the last two.
    [accepts m P]: when nothing was found, [P] holds. *)

From Stdlib Require Import Sorting.Sorted.
From stdpp Require Import base numbers list option sorting.
From S2P Require Import Prelude Order Interrupt FlowWir Optimizer FlowContext.

#[local] Open Scope Z_scope.

Definition clean (c : ValidationContext) : Prop :=
  errors c = [] /\ cancelled c = false /\ allocation_failure c = None /\ capped c = false.

Definition returns {A} (m : validating A) (P : A -> Prop) : Prop :=
  forall c, (forall e, ~ may_throw (m c) e) /\ forall a c', may_return (m c) (Some a, c') -> P a.

Definition honest {A} (m : validating A) : Prop :=
  forall c o c', may_return (m c) (o, c') -> clean c' -> clean c /\ o <> None.

Definition accepts {A} (m : validating A) (P : A -> Prop) : Prop :=
  forall c a c', may_return (m c) (Some a, c') -> clean c' -> P a.

(** ** The monad *)

Section monad.
  Context {A B : Type}.
  Implicit Types (m : validating A) (f : A -> validating B) (P : A -> Prop) (Q : B -> Prop).

Lemma validating_bind_returns m f c o c2 :
    may_return ((m ≫= f) c) (o, c2) <->
    exists o1 c1, may_return (m c) (o1, c1)
      /\ match o1 with Some a => may_return (f a c1) (o, c2) | None => o = None /\ c2 = c1 end.
  Proof.
    unfold mbind at 1, validating_bind. rewrite may_return_bind. split.
    - intros ([o1 c1] & H & H'). exists o1, c1. split; [done|]. destruct o1; [done|]. by injection H' as <- <-.
    - intros (o1 & c1 & H & H'). exists (o1, c1). split; [done|]. destruct o1; [done|]. by destruct H' as [-> ->].
  Qed.

Lemma validating_bind_throws m f c e :
    may_throw ((m ≫= f) c) e <->
    may_throw (m c) e \/ exists a c1, may_return (m c) (Some a, c1) /\ may_throw (f a c1) e.
  Proof.
    unfold mbind at 1, validating_bind. rewrite may_throw_bind. split; (intros [H|H]; [by left|right]).
    - destruct H as ([[a|] c1] & H & H'); [by exists a, c1|done].
    - destruct H as (a & c1 & H & H'). by exists (Some a, c1).
  Qed.

Lemma returns_bind m f P Q : returns m P -> (forall a, P a -> returns (f a) Q) -> returns (m ≫= f) Q.
  Proof.
    intros Hm Hf c. destruct (Hm c) as [Hm1 Hm2]. split.
    - intros e [H|(a & c1 & H & H')]%validating_bind_throws; [by eapply Hm1|].
      by eapply Hf; [eapply Hm2|].
    - intros b c2 (o1 & c1 & H & H')%validating_bind_returns. destruct o1 as [a|]; [|by destruct H'].
      eapply Hf; [by eapply Hm2|done].
  Qed.

Lemma returns_mono m P P' : returns m P -> (forall a, P a -> P' a) -> returns m P'.
  Proof. intros Hm HP c. destruct (Hm c) as [H1 H2]. split; [done|]. intros a c' H. by eapply HP, H2. Qed.

Lemma returns_mret (a : A) P : P a -> returns (mret a) P.
  Proof. intros HP c. split; [intros e []|]. intros b c' H. by injection H as <- <-. Qed.

Lemma returns_leave P : returns leave P.
  Proof. intros c. split; [intros e []|]. intros b c' H. done. Qed.

Lemma honest_bind m f : honest m -> (forall a, honest (f a)) -> honest (m ≫= f).
  Proof.
    intros Hm Hf c o c2 (o1 & c1 & H & H')%validating_bind_returns Hc.
    destruct o1 as [a|].
    - destruct (Hf _ _ _ _ H' Hc) as [Hc1 Ho]. by destruct (Hm _ _ _ H Hc1).
    - destruct H' as [-> ->]. by destruct (Hm _ _ _ H Hc).
  Qed.

Lemma honest_mret (a : A) : honest (mret a).
  Proof. intros c o c' H Hc. by injection H as <- <-. Qed.

Lemma accepts_bind m f P Q :
    (forall a, honest (f a)) -> accepts m P -> (forall a, P a -> accepts (f a) Q) -> accepts (m ≫= f) Q.
  Proof.
    intros Hh Hm Hf c b c2 (o1 & c1 & H & H')%validating_bind_returns Hc.
    destruct o1 as [a|]; [|by destruct H']. destruct (Hh _ _ _ _ H' Hc) as [Hc1 _].
    eapply Hf; [by eapply Hm|done..].
  Qed.

Lemma accepts_mono m P P' : accepts m P -> (forall a, P a -> P' a) -> accepts m P'.
  Proof. intros Hm HP c a c' H Hc. by eapply HP, Hm. Qed.

Lemma accepts_mret (a : A) P : P a -> accepts (mret a) P.
  Proof. intros HP c b c' H _. by injection H as <- <-. Qed.

Lemma accepts_returns m P : returns m P -> accepts m P.
  Proof. intros Hm c a c' H _. by eapply Hm. Qed.

Lemma accepts_and m P P' : accepts m P -> accepts m P' -> accepts m (fun a => P a /\ P' a).
  Proof. intros H H' c a c' Hr Hc. split; [by eapply H|by eapply H']. Qed.

Lemma accepts_any m : accepts m (fun _ => True).
  Proof. done. Qed.

Lemma returns_faults e P : ~ returns (faults (A := A) e) P.
  Proof. intros H. by destruct (H (new_context ValidationLimits_standard)) as [H' _]; eapply H'. Qed.

Lemma honest_faults e : honest (faults (A := A) e).
  Proof. intros c o c' []. Qed.
Lemma accepts_faults e P : accepts (faults (A := A) e) P.
  Proof. intros c o c' []. Qed.
End monad.

Create HintDb flow discriminated.
#[export] Hint Resolve honest_mret honest_faults returns_leave : flow.
#[export] Hint Constants Opaque : flow.

(** ** The primitives *)

Lemma returns_at_index {A} (xs : list A) i (P : A -> Prop) x :
  xs !! i = Some x -> P x -> returns (at_index xs i) P.
Proof. unfold at_index. intros -> Hx. by apply returns_mret. Qed.
Lemma honest_at_index {A} (xs : list A) i : honest (at_index xs i).
Proof. unfold at_index. destruct (xs !! i); auto with flow. Qed.
Lemma accepts_at_index {A} (xs : list A) i : accepts (at_index xs i) (fun x => xs !! i = Some x).
Proof. unfold at_index. destruct (xs !! i); [by apply accepts_mret|apply accepts_faults]. Qed.

Lemma returns_poll_context : returns poll_context (fun _ => True).
Proof.
  intros c. split; [|done]. unfold poll_context. destruct (cancelled c); [intros e []|].
  intros e [[b []]|([] & _ & [])]%may_throw_bind.
Qed.
Lemma honest_poll_context : honest poll_context.
Proof.
  unfold poll_context. intros c o c'. destruct (cancelled c) eqn:E.
  - intros H (_ & Hc & _). injection H as <- <-. congruence.
  - intros (b & _ & H)%may_return_bind Hc. destruct b; injection H as <- <-; [by destruct Hc as (_ & ? & _)|done].
Qed.
Lemma accepts_poll_context : accepts poll_context (fun b => b = true).
Proof.
  unfold poll_context. intros c a c'. destruct (cancelled c) eqn:E.
  - intros H (_ & Hc & _). injection H as <- <-. congruence.
  - intros (b & _ & H)%may_return_bind Hc. destruct b; injection H as <- <-; [by destruct Hc as (_ & ? & _)|done].
Qed.

Lemma returns_true {A} (m : validating A) P : returns m P -> returns m (fun _ => True).
Proof. intros H. by eapply returns_mono. Qed.

Lemma returns_polled (P : unit -> Prop) : P tt -> returns polled P.
Proof.
  intros HP. eapply returns_bind; [apply returns_poll_context|]. intros [] _; [by apply returns_mret|apply returns_leave].
Qed.
Lemma honest_polled : honest polled.
Proof.
  unfold polled. intros c o c2 (o1 & c1 & H & H')%validating_bind_returns Hc. destruct o1 as [[]|].
  - injection H' as <- <-. by destruct (honest_poll_context _ _ _ H Hc).
  - injection H' as <- <-. by pose proof (accepts_poll_context _ _ _ H Hc).
  - destruct H' as [-> ->]. by destruct (honest_poll_context _ _ _ H Hc).
Qed.

Lemma returns_limits (P : ValidationLimits -> Prop) : (forall l, P l) -> returns limits_of P.
Proof.
  intros HP. eapply (returns_bind _ _ (fun _ => True)); [|intros c _; by apply returns_mret].
  intros c. split; [intros e []|done].
Qed.
Lemma honest_limits : honest limits_of.
Proof.
  unfold limits_of, context_of. intros c o c2 (o1 & c1 & H & H')%validating_bind_returns Hc.
  injection H as <- <-. by injection H' as <- <-.
Qed.

Lemma returns_exhausted {A} r l (P : A -> Prop) : returns (exhausted r l) P.
Proof. intros c. split; [intros e []|done]. Qed.
Lemma honest_exhausted {A} r l : honest (exhausted (A := A) r l).
Proof. intros c o c' H (_ & _ & Hc & _). by injection H as <- <-. Qed.

Lemma returns_reserving r l n (P : unit -> Prop) : (n < 2 ^ usize -> P tt) -> returns (reserving r l n) P.
Proof.
  intros HP c. split; [intros e [b H]; by destruct (_ || _)|]. intros [] c' [b H].
  destruct b; [done|]. simpl in H. destruct (Z.leb_spec (2 ^ usize) n); [done|]. by apply HP.
Qed.
Lemma honest_reserving r l n : honest (reserving r l n).
Proof.
  intros c o c' [b H] Hc. destruct (_ || _); injection H as <- <-; [|done]. by destruct Hc as (_ & _ & ? & _).
Qed.
#[export] Hint Resolve honest_at_index honest_poll_context honest_polled honest_limits honest_exhausted
  honest_reserving returns_exhausted : flow.

(** Walk through a validator; [honest] is proved by its shape. *)
Ltac honest :=
  repeat lazymatch goal with
  | |- honest (_ ≫= _) => apply honest_bind; [|intros ?]
  | |- honest (match ?x with _ => _ end) => destruct x
  | |- honest (let '(_, _) := ?x in _) => destruct x
  | |- forall _, _ => intros ?
  | |- _ => solve [auto with flow nocore]
  end.

Lemma returns_calling m (P : unit -> Prop) : returns m (fun _ => True) -> P tt -> returns (calling m) P.
Proof.
  intros Hm HP c. destruct (Hm c) as [H1 H2]. split.
  - intros e [H|([o c1] & _ & [])]%may_throw_bind. by eapply H1.
  - intros [] c' _. done.
Qed.
Lemma honest_calling m : honest m -> honest (calling m).
Proof.
  intros Hm c o c' ([o1 c1] & H & H')%may_return_bind Hc. injection H' as <- <-. by destruct (Hm _ _ _ H Hc).
Qed.
Lemma accepts_calling m P : honest m -> accepts m P -> accepts (calling m) P.
Proof.
  intros Hm HP c [] c' ([o1 c1] & H & H')%may_return_bind Hc. injection H' as <-.
  destruct (Hm _ _ _ H Hc) as [_ Ho]. destruct o1 as [[]|]; [|done]. by eapply HP.
Qed.
#[export] Hint Resolve honest_calling : flow.

Lemma push_unclean e c o c' : may_return (push_error e c) (o, c') -> ~ clean c'.
Proof.
  unfold push_error. intros (o1 & c1 & H & H')%validating_bind_returns Hc.
  destruct o1 as [going|]; [|destruct H' as [-> ->]; by destruct (honest_poll_context _ _ _ H Hc)].
  apply validating_bind_returns in H' as (o2 & c2 & H2 & H'). injection H2 as <- <-.
  destruct (negb going || capped c1 || bool_decide (is_Some (allocation_failure c1))) eqn:E.
  - injection H' as <- <-. pose proof Hc as (_ & Ha & Hb & Hd). pose proof (accepts_poll_context _ _ _ H Hc) as ->.
    rewrite Hd, Hb in E. done.
  - apply may_return_bind in H' as ([o3 c3] & H3 & H'). injection H' as <- <-.
    apply validating_bind_returns in H3 as (o4 & c4 & H4 & H3).
    destruct o4 as [[]|].
    + injection H3 as <- <-. destruct Hc as (Hc & _). revert Hc. destruct (_ <=? _); simpl; by destruct (errors c1).
    + destruct H3 as [-> ->]. by destruct (honest_reserving _ _ _ _ _ _ H4 Hc).
Qed.

Lemma returns_push e (P : unit -> Prop) : P tt -> returns (push_error e) P.
Proof.
  intros HP. unfold push_error. eapply returns_bind; [apply returns_poll_context|intros going _].
  eapply (returns_bind _ _ (fun _ => True)); [intros c; split; [intros e' []|done]|intros c _].
  destruct (_ || _); [by apply returns_mret|]. apply returns_calling; [|done].
  eapply (returns_bind _ _ (fun _ => True)); [by apply returns_reserving|].
  intros _ _ c1. split; [intros e' []|done].
Qed.
Lemma honest_push e : honest (push_error e).
Proof. intros c o c' H Hc. by apply push_unclean in H. Qed.
Lemma accepts_push e P : accepts (push_error e) P.
Proof. intros c o c' H Hc. by apply push_unclean in H. Qed.
#[export] Hint Resolve honest_push : flow.

(** ** Scratch memory *)

Lemma returns_scratch {A} n (P : list A -> Prop) : (n < 2 ^ usize -> P []) -> returns (scratch n) P.
Proof.
  intros HP. unfold scratch. eapply (returns_bind _ _ (fun _ => True)); [by apply returns_polled|intros _ _].
  eapply (returns_bind _ _ (fun _ => True)); [by apply returns_limits|intros l _].
  eapply (returns_bind _ _ (fun _ => True)); [destruct (_ <? _); [apply returns_exhausted|by apply returns_mret]|intros _ _].
  eapply (returns_bind _ _ (fun _ => n < 2 ^ usize)); [by apply returns_reserving|intros ? ?]. apply returns_mret. auto.
Qed.
Lemma honest_scratch {A} n : honest (scratch (A := A) n).
Proof. unfold scratch. honest. Qed.
#[export] Hint Resolve honest_scratch : flow.

Lemma returns_filled {A} n (x : A) (P : list A -> Prop) :
  (Z.of_nat n < 2 ^ usize -> P (replicate n x)) -> returns (filled n x) P.
Proof.
  intros HP. eapply (returns_bind _ _ (fun _ => Z.of_nat n < 2 ^ usize)); [by apply returns_scratch|intros ? ?].
  apply returns_mret. auto.
Qed.
Lemma honest_filled {A} n (x : A) : honest (filled n x).
Proof. unfold filled. honest. Qed.

Lemma returns_scratch_room n (P : unit -> Prop) : (n + 1 < 2 ^ usize -> P tt) -> returns (scratch_room n) P.
Proof.
  intros HP. unfold scratch_room. eapply (returns_bind _ _ (fun _ => True)); [by apply returns_polled|intros _ _].
  eapply (returns_bind _ _ (fun _ => True)); [by apply returns_limits|intros l _].
  eapply (returns_bind _ _ (fun _ => True)); [destruct (_ <=? _); [apply returns_exhausted|by apply returns_mret]|intros _ _].
  by apply returns_reserving.
Qed.
Lemma honest_scratch_room n : honest (scratch_room n).
Proof. unfold scratch_room. honest. Qed.
#[export] Hint Resolve honest_filled honest_scratch_room : flow.

Lemma returns_scratch_push {A} (xs : list A) x (P : list A -> Prop) :
  (len xs + 1 < 2 ^ usize -> P (xs ++ [x])) -> returns (scratch_push xs x) P.
Proof.
  intros HP. eapply (returns_bind _ _ (fun _ => len xs + 1 < 2 ^ usize)); [by apply returns_scratch_room|intros ? ?].
  apply returns_mret. auto.
Qed.
Lemma honest_scratch_push {A} (xs : list A) x : honest (scratch_push xs x).
Proof. unfold scratch_push. honest. Qed.
#[export] Hint Resolve honest_scratch_push : flow.

(** ** Loops *)

Section loops.
  Context {A S : Type}.

Lemma honest_each (xs : list A) body : (forall x, honest (body x)) -> honest (each_of xs body).
  Proof. intros H. induction xs; cbn [each_of]; honest. Qed.

Lemma returns_each (xs : list A) body (P : unit -> Prop) :
    (forall x, x ∈ xs -> returns (body x) (fun _ => True)) -> P tt -> returns (each_of xs body) P.
  Proof.
    intros H HP. induction xs as [|x xs IH]; cbn [each_of]; [by apply returns_mret|].
    eapply returns_bind; [apply H; left|intros _ _]. apply IH. intros y Hy. apply H. by right.
  Qed.

Lemma accepts_each (xs : list A) body (P : A -> Prop) :
    (forall x, honest (body x)) -> (forall x, x ∈ xs -> accepts (body x) (fun _ => P x)) ->
    accepts (each_of xs body) (fun _ => Forall P xs).
  Proof.
    intros Hh H. induction xs as [|x xs IH]; cbn [each_of]; [by apply accepts_mret|].
    eapply accepts_bind; [intros ?; by apply honest_each|apply H; left|]. intros ? Hx.
    eapply accepts_mono; [apply IH; intros y Hy; apply H; by right|]. intros ? Hxs. by constructor.
  Qed.

Lemma honest_fold (body : S -> A -> validating S) xs s : (forall s x, honest (body s x)) -> honest (fold_of body xs s).
  Proof. intros H. revert s. induction xs; intros s; cbn [fold_of]; honest. Qed.

  (** A loop keeps an invariant of the elements it has been through. *)
Lemma returns_fold (body : S -> A -> validating S) (I : list A -> S -> Prop) xs s :
    I [] s ->
    (forall past x rest s, xs = past ++ x :: rest -> I past s -> returns (body s x) (I (past ++ [x]))) ->
    returns (fold_of body xs s) (I xs).
  Proof.
    intros Hs Hstep. enough (forall past rest s, xs = past ++ rest -> I past s ->
      returns (fold_of body rest s) (I xs)) as H by (by apply (H [])).
    intros past rest. revert past. clear s Hs. induction rest as [|x rest IH]; intros past s Hxs Hs; cbn [fold_of].
    - apply returns_mret. by rewrite Hxs, app_nil_r.
    - eapply returns_bind; [by eapply Hstep|]. intros s' Hs'. eapply IH; [|done]. by rewrite <- app_assoc.
  Qed.

Lemma accepts_fold (body : S -> A -> validating S) (I : list A -> S -> Prop) xs s :
    (forall s x, honest (body s x)) ->
    I [] s ->
    (forall past x rest s, xs = past ++ x :: rest -> I past s -> accepts (body s x) (I (past ++ [x]))) ->
    accepts (fold_of body xs s) (I xs).
  Proof.
    intros Hh Hs Hstep. enough (forall past rest s, xs = past ++ rest -> I past s ->
      accepts (fold_of body rest s) (I xs)) as H by (by apply (H [])).
    intros past rest. revert past. clear s Hs. induction rest as [|x rest IH]; intros past s Hxs Hs; cbn [fold_of].
    - apply accepts_mret. by rewrite Hxs, app_nil_r.
    - eapply accepts_bind; [intros ?; by apply honest_fold|by eapply Hstep|]. intros s' Hs'.
      eapply IH; [|done]. by rewrite <- app_assoc.
  Qed.
End loops.
#[export] Hint Resolve honest_each honest_fold : flow.

Ltac honest ::=
  repeat lazymatch goal with
  | |- honest (_ ≫= _) => apply honest_bind; [|intros ?]
  | |- honest (each_of _ _) => apply honest_each; intros ?
  | |- honest (match ?x with _ => _ end) => destruct x
  | |- honest (let '(_, _) := ?x in _) => destruct x
  | |- forall _, _ => intros ?
  | |- _ => solve [auto with flow nocore]
  end.

(** ** Sorting *)

Section sort.
  Context {A : Type} (compare : A -> A -> comparison).

Lemma honest_merge_runs n l r : honest (merge_runs compare n l r).
  Proof. revert l r. induction n; intros l r; cbn [merge_runs]; honest. Qed.
#[local] Hint Resolve honest_merge_runs : flow.
Lemma honest_merge_sort_pass fuel w xs : honest (merge_sort_pass compare fuel w xs).
  Proof. revert xs. induction fuel; intros xs; cbn [merge_sort_pass]; honest. Qed.
#[local] Hint Resolve honest_merge_sort_pass : flow.
Lemma honest_sort_passes fuel w b xs : honest (sort_passes compare fuel w b xs).
  Proof. revert w b xs. induction fuel; intros w b xs; cbn [sort_passes]; honest. Qed.
#[local] Hint Resolve honest_sort_passes : flow.
Lemma honest_sort xs : honest (sort_scratch_by compare xs).
  Proof. unfold sort_scratch_by. honest. Qed.

  Context (Htotal : forall a b, compare a b = Gt -> compare b a <> Gt)
          (Htrans : forall a b c, compare a b <> Gt -> compare b c <> Gt -> compare a c <> Gt).

Definition below (a b : A) : Prop := compare a b <> Gt.
Notation sorted := (StronglySorted below).

Lemma sorted_cons_below x l y r : sorted (x :: l) -> sorted (y :: r) -> below x y -> Forall (below x) (l ++ y :: r).
  Proof.
    intros [_ Hl]%StronglySorted_inv [_ Hr]%StronglySorted_inv Hxy. apply Forall_app. split; [done|].
    constructor; [done|]. eapply Forall_impl; [exact Hr|]. intros z. by apply Htrans.
  Qed.

Lemma returns_merge_runs n l r : (n = length l + length r)%nat -> sorted l -> sorted r ->
    returns (merge_runs compare n l r) (fun xs => xs ≡ₚ l ++ r /\ sorted xs).
  Proof.
    revert l r. induction n as [|n IH]; intros l r Hn Hl Hr; cbn [merge_runs].
    - destruct l, r; try done. apply returns_mret. split; [done|constructor].
    - eapply returns_bind; [by apply (returns_polled (fun _ => True))|intros _ _]. destruct r as [|y r].
      + destruct l as [|x l]; [done|]. pose proof Hl as [Hl' Hx]%StronglySorted_inv.
        eapply returns_bind; [apply IH; [simpl in *; lia|done..]|]. intros xs [Hp Hs]. apply returns_mret.
        split; [by rewrite Hp|]. constructor; [done|]. rewrite app_nil_r in Hp. by rewrite Hp.
      + destruct l as [|x l].
        * pose proof Hr as [Hr' Hy]%StronglySorted_inv.
          eapply returns_bind; [apply IH; [simpl in *; lia|done..]|]. intros xs [Hp Hs]. apply returns_mret.
          split; [by rewrite Hp|]. constructor; [done|]. by rewrite Hp.
        * pose proof Hr as [Hr' _]%StronglySorted_inv. pose proof Hl as [Hl' _]%StronglySorted_inv.
          assert (Hcase : compare x y = Gt \/ below x y) by (unfold below; destruct (compare x y); auto).
          destruct Hcase as [E|E].
          -- rewrite E. eapply returns_bind; [apply IH; [simpl in *; lia|done..]|]. intros xs [Hp Hs]. apply returns_mret.
             split; [by rewrite Hp, Permutation_middle|]. constructor; [done|]. rewrite Hp, Permutation_app_comm.
             by apply (sorted_cons_below y r x l); [..|apply Htotal].
          -- replace (match compare x y with Gt => false | _ => true end) with true by (by unfold below in E; destruct (compare x y)).
             eapply returns_bind; [apply IH; [simpl in *; lia|done..]|]. intros xs [Hp Hs]. apply returns_mret.
             split; [by rewrite Hp|]. constructor; [done|]. rewrite Hp. by apply sorted_cons_below.
  Qed.

  (** Every run of [w] elements is sorted. *)
Definition runs_sorted (w : nat) (xs : list A) : Prop := forall k, sorted (take w (drop (k * w) xs)).

Lemma runs_sorted_drop w n xs : runs_sorted w xs -> runs_sorted w (drop (n * w) xs).
  Proof. intros H k. rewrite drop_drop, <- Nat.mul_add_distr_r. apply H. Qed.

Lemma returns_merge_sort_pass fuel w xs : (0 < w)%nat -> (length xs <= fuel)%nat -> runs_sorted w xs ->
    returns (merge_sort_pass compare fuel w xs) (fun ys => ys ≡ₚ xs /\ runs_sorted (w + w) ys).
  Proof.
    intros Hw. revert xs. induction fuel as [|fuel IH]; intros xs Hlen Hs; destruct xs as [|x xs]; try (simpl in Hlen; lia).
    - cbn [merge_sort_pass]. apply returns_mret. split; [done|]. intros k. rewrite drop_nil, take_nil. constructor.
    - cbn [merge_sort_pass]. apply returns_mret. split; [done|]. intros k. rewrite drop_nil, take_nil. constructor.
    - remember (x :: xs) as source eqn:Hx. assert (Hpos : (0 < length source)%nat) by (subst; simpl; lia).
      cbn [merge_sort_pass]. rewrite Hx at 1. clear x xs Hx.
      eapply returns_bind; [apply returns_merge_runs; [done|..]|].
      + apply (Hs 0%nat).
      + specialize (Hs 1%nat). by rewrite Nat.mul_1_l in Hs.
      + intros merged [Hm Hsm]. eapply returns_bind; [apply IH|].
        * rewrite length_drop. lia.
        * replace (w + w)%nat with (2 * w)%nat by lia. by apply runs_sorted_drop.
        * intros rest [Hr Hsr]. apply returns_mret. split.
          -- rewrite Hm, Hr. rewrite <- drop_drop, <- app_assoc, !take_drop. done.
          -- apply Permutation_length in Hm as Hlm. rewrite length_app, !length_take, length_drop in Hlm.
             apply Permutation_length in Hr as Hlr. rewrite length_drop in Hlr.
             destruct (decide (w + w <= length source)%nat) as [Hle|Hgt].
             ++ intros [|k].
                ** rewrite Nat.mul_0_l, drop_0, take_app_le by lia. by rewrite take_ge by lia.
                ** rewrite drop_app_ge by lia. replace (S k * (w + w) - length merged)%nat with (k * (w + w))%nat by lia.
                   apply Hsr.
             ++ destruct rest; [|simpl in Hlr; lia]. rewrite app_nil_r. intros [|k].
                ** rewrite Nat.mul_0_l, drop_0. by rewrite take_ge by lia.
                ** rewrite drop_ge by lia. rewrite take_nil. constructor.
  Qed.

Lemma returns_sort_passes fuel w b xs : 1 <= w -> len xs <= w + Z.of_nat fuel -> len xs < 2 ^ usize ->
    runs_sorted (Z.to_nat w) xs ->
    returns (sort_passes compare fuel w b xs) (fun r => r.2 ≡ₚ xs /\ sorted r.2).
  Proof.
    revert w b xs. induction fuel as [|fuel IH]; intros w b xs Hw Hf Hmax Hs; cbn [sort_passes];
      destruct (Z.ltb_spec w (len xs)) as [Hlt|Hge]; try (unfold len in *; lia).
    - apply returns_mret. split; [done|]. specialize (Hs 0%nat). rewrite Nat.mul_0_l, drop_0, take_ge in Hs; [done|]. unfold len in *. lia.
    - eapply returns_bind; [apply returns_merge_sort_pass; [lia|done..]|]. intros ys [Hp Hs'].
      assert (Hl : len ys = len xs) by (unfold len; by rewrite Hp).
      eapply returns_mono; [apply IH|intros r [Hr ?]; split; [by rewrite Hr|done]].
      + destruct (checked_mul usize w 2) as [v|] eqn:E; simpl; [apply checked_mul_Some in E as [_ ->]|]; lia.
      + rewrite Hl. destruct (checked_mul usize w 2) as [v|] eqn:E; simpl; [apply checked_mul_Some in E as [_ ->]|]; lia.
      + by rewrite Hl.
      + destruct (checked_mul usize w 2) as [v|] eqn:E; simpl.
        * apply checked_mul_Some in E as [_ ->]. by replace (Z.to_nat (w * 2)) with (Z.to_nat w + Z.to_nat w)%nat by lia.
        * assert (2 ^ usize <= w * 2) by (unfold checked_mul in E; destruct (Z.ltb_spec (w * 2) (2 ^ usize)); [done|lia]).
          specialize (Hs' 0%nat). rewrite Nat.mul_0_l, drop_0, take_ge in Hs' by (unfold len in *; lia). intros k.
          destruct k as [|k]; [by rewrite Nat.mul_0_l, drop_0, take_ge by (unfold len in *; lia)|].
          rewrite drop_ge by (unfold len in *; lia). rewrite take_nil. constructor.
    - apply returns_mret. split; [done|]. specialize (Hs 0%nat). rewrite Nat.mul_0_l, drop_0, take_ge in Hs; [done|]. unfold len in *. lia.
  Qed.

  (** The sort sorts. *)
Lemma returns_sort xs : returns (sort_scratch_by compare xs) (fun ys => ys ≡ₚ xs /\ sorted ys).
  Proof.
    unfold sort_scratch_by. destruct xs as [|first xs].
    - eapply (returns_bind _ _ (fun _ => True)); [by apply returns_polled|intros _ _]. apply returns_mret. by split; [|constructor].
    - remember (first :: xs) as source. clear Heqsource.
      eapply (returns_bind _ _ (fun _ => len source < 2 ^ usize)); [by apply returns_filled|intros _ Hmax].
      eapply returns_bind; [apply returns_sort_passes; [lia|unfold len; lia|done|]|].
      + intros k. change (Z.to_nat 1) with 1%nat. destruct (drop (k * 1) source) as [|x l]; [constructor|].
        simpl. rewrite take_0. repeat constructor.
      + intros [b ys] [Hp Hs].
        eapply (returns_bind _ _ (fun _ => True)); [|intros _ _; by apply returns_mret].
        destruct b; [by apply returns_mret|]. apply returns_each; [|done]. intros x _. by apply returns_polled.
  Qed.
End sort.
#[export] Hint Resolve honest_sort : flow.

(** ** Enumeration *)

Lemma elem_enumerate_from {A} n (xs : list A) i x : (i, x) ∈ enumerate_from n xs <-> (n <= i)%nat /\ xs !! (i - n)%nat = Some x.
Proof.
  revert n. induction xs as [|y xs IH]; intros n; cbn [enumerate_from].
  - rewrite lookup_nil. split; [by intros ?%not_elem_of_nil|naive_solver].
  - rewrite elem_of_cons, IH. split.
    + intros [[= -> ->]|[Hi Hx]]; [by rewrite Nat.sub_diag|]. split; [lia|].
      by replace (i - n)%nat with (S (i - S n)) by lia.
    + intros [Hi Hx]. destruct (decide (i = n)) as [->|Hne].
      * rewrite Nat.sub_diag in Hx. left. by injection Hx as ->.
      * right. split; [lia|]. by replace (i - n)%nat with (S (i - S n)) in Hx by lia.
Qed.
Lemma elem_enumerate {A} (xs : list A) i x : (i, x) ∈ enumerate xs <-> xs !! i = Some x.
Proof. unfold enumerate. rewrite elem_enumerate_from, Nat.sub_0_r. naive_solver lia. Qed.
