(* ===== verification/Dominators.v ===== *)
(** Dominators of a control-flow graph, and the tree by which
    [validate_control_flow_and_ssa] of [src/crates/wrela-flow-wir/src/lib.rs]
    represents them while it is computed (the algorithm of Cooper, Harvey and
    Kennedy).

    Nodes are visited in an order [pos] in which every reachable node but the
    entry has a predecessor before it. While the tree is computed it loses no
    dominator ([covers]); after [j] rounds a parent is on every walk with fewer
    than [j] steps back in the order ([within]), so after as many rounds as there
    are nodes the tree is exact and the next round changes nothing. *)

From stdpp Require Import base numbers list option relations.
From S2P Require Import Prelude.

#[local] Open Scope Z_scope.

Section graph.
  Context (entry : nat) (edge : nat -> nat -> Prop).

  (** ** Walks and dominators *)

  (** A walk from the entry, and the nodes on it, the last one first. *)
Inductive walk : nat -> list nat -> Prop :=
  | walk_entry : walk entry [entry]
  | walk_step p b l : walk p l -> edge p b -> walk b (b :: l).

Definition dominates (d b : nat) : Prop := forall l, walk b l -> d ∈ l.
Definition attained (b : nat) : Prop := exists l, walk b l.

Lemma walk_head b l : walk b l -> b ∈ l.
  Proof. destruct 1; left. Qed.

  (** A walk up to one of its nodes. *)
Lemma walk_prefix b l a : walk b l -> a ∈ l -> exists l', walk a l' /\ l' `suffix_of` l.
  Proof.
    induction 1 as [|p b l Hw IH He]; intros Ha.
    - apply list_elem_of_singleton in Ha as ->. exists [entry]. split; [constructor|done].
    - apply elem_of_cons in Ha as [->|Ha]; [exists (b :: l); split; [by eapply walk_step|done]|].
      destruct (IH Ha) as (l' & Hl' & Hs). exists l'. split; [done|]. by apply suffix_cons_r.
  Qed.

  (** A walk without detours. *)
Lemma walk_simple b l : walk b l -> exists l', walk b l' /\ NoDup l' /\ l' ⊆ l.
  Proof.
    induction 1 as [|p b l Hw (l' & Hl' & Hn & Hs) He]; [exists [entry]; split_and!; [constructor|apply NoDup_singleton|done]|].
    destruct (decide (b ∈ l')) as [Hb|Hb].
    - destruct (walk_prefix _ _ _ Hl' Hb) as (l2 & Hl2 & [k ->]). exists l2. split_and!; [done|by apply NoDup_app in Hn as (_ & _ & ?)|].
      intros x Hx. right. apply Hs. apply elem_of_app. by right.
    - exists (b :: l'). split_and!; [by eapply walk_step|by constructor|].
      intros x [->|Hx]%elem_of_cons; [left|right; by apply Hs].
  Qed.

Lemma dominates_refl b : dominates b b.
  Proof. intros l. apply walk_head. Qed.

Lemma dominates_pred d b p : dominates d b -> d <> b -> edge p b -> dominates d p.
  Proof.
    intros Hd Hne He l Hl. specialize (Hd _ (walk_step _ _ _ Hl He)). by apply elem_of_cons in Hd as [->|].
  Qed.

Lemma dominates_entry d : dominates d entry -> d = entry.
  Proof. intros H. specialize (H _ walk_entry). by apply list_elem_of_singleton in H. Qed.

Lemma dominates_trans d a b : dominates d a -> dominates a b -> dominates d b.
  Proof.
    intros Hda Hab l Hl. destruct (walk_prefix _ _ _ Hl (Hab _ Hl)) as (l' & Hl' & [k ->]).
    apply elem_of_app. right. by apply Hda.
  Qed.

  (** ** The tree *)

  Context (pos : nat -> Z).

  (** A step of the order on attained nodes. *)
Definition up (a b : nat) : Prop := attained a /\ edge a b /\ pos a < pos b.

  Context (pos_nonneg : forall b, 0 <= pos b)
          (pos_inj : forall a b, attained a -> attained b -> pos a = pos b -> a = b)
          (pos_up : forall b, attained b -> b <> entry -> exists a, up a b).

Definition parents := nat -> option nat.

Inductive above (T : parents) : nat -> nat -> Prop :=
  | above_refl b : above T b b
  | above_parent b a c : b <> entry -> T b = Some a -> above T a c -> above T b c.

Record tree_ok (T : parents) : Prop := {
  root_ok : T entry = Some entry;
  parent_ok b a : b <> entry -> T b = Some a -> is_Some (T a) /\ tc up a b;
}.

Lemma tc_up_pos a b : tc up a b -> pos a < pos b.
  Proof. induction 1 as [a b (_ & _ & ?)|a c b (_ & _ & ?)]; lia. Qed.
Lemma rtc_up_pos a b : rtc up a b -> a = b \/ pos a < pos b.
  Proof. intros [->|H]%rtc_tc; [by left|right; by apply tc_up_pos]. Qed.
Lemma up_attained a b : up a b -> attained b.
  Proof. intros ((l & Hl) & He & _). exists (b :: l). by eapply walk_step. Qed.
Lemma tc_up_attained a b : tc up a b -> attained a /\ attained b.
  Proof.
    induction 1 as [a b H|a c b H _ IH]; [split; [apply H|by eapply up_attained]|]. split; [apply H|apply IH].
  Qed.

Lemma above_trans T a b c : above T a b -> above T b c -> above T a c.
  Proof. induction 1; [done|]. intros. econstructor; eauto. Qed.

Lemma above_rises T b c : tree_ok T -> above T b c -> rtc up c b.
  Proof.
    intros HT. induction 1 as [b|b a c Hb Ha Hac IH]; [done|].
    destruct (parent_ok T HT _ _ Hb Ha) as [_ H]. etrans; [done|]. by apply tc_rtc.
  Qed.
Lemma above_pos T b c : tree_ok T -> above T b c -> b = c \/ pos c < pos b.
  Proof. intros HT H. destruct (rtc_up_pos _ _ (above_rises _ _ _ HT H)); auto. Qed.
Lemma above_known T b c : tree_ok T -> above T b c -> is_Some (T b) -> is_Some (T c).
  Proof. intros HT. induction 1 as [|b a c Hb Ha Hac IH]; [done|]. intros _. apply IH. by apply (parent_ok T HT b). Qed.
Lemma known_attained T b : tree_ok T -> is_Some (T b) -> attained b.
  Proof.
    intros HT [a Ha]. destruct (decide (b = entry)) as [->|Hb]; [exists [entry]; constructor|].
    by destruct (parent_ok T HT _ _ Hb Ha) as [_ [_ ?]%tc_up_attained].
  Qed.
Lemma above_linear T b x y : above T b x -> above T b y -> above T x y \/ above T y x.
  Proof.
    induction 1 as [|b a x Hb Ha Hax IH]; [by left|]. intros Hy. destruct Hy as [|? a' ? _ Ha' Hy].
    - right. by eapply above_parent.
    - apply IH. congruence.
  Qed.

  (** Induction along the order. *)
Lemma pos_induction (P : nat -> Prop) : (forall b, (forall a, pos a < pos b -> P a) -> P b) -> forall b, P b.
  Proof.
    intros H. enough (Hn : forall n b, (Z.to_nat (pos b) < n)%nat -> P b) by (intros b; apply (Hn (S (Z.to_nat (pos b)))); lia).
    induction n as [|n IH]; intros b Hb; [lia|]. apply H. intros a Ha. apply IH. pose proof (pos_nonneg a). lia.
  Qed.

Lemma above_entry T b : tree_ok T -> is_Some (T b) -> above T b entry.
  Proof.
    intros HT. induction b as [b IH] using pos_induction. intros Hb.
    destruct (decide (b = entry)) as [->|Hne]; [constructor|]. destruct Hb as [a Ha].
    destruct (parent_ok T HT _ _ Hne Ha) as [Hk Hup]. econstructor; [done..|]. apply IH; [by apply tc_up_pos|done].
  Qed.

Lemma entry_first b : attained b -> b <> entry -> pos entry < pos b.
  Proof.
    induction b as [b IH] using pos_induction. intros Hb Hne. destruct (pos_up b Hb Hne) as (a & Ha & He & Hlt).
    destruct (decide (a = entry)) as [->|Hae]; [done|]. specialize (IH a Hlt Ha Hae). lia.
  Qed.

  (** [x] is the closest common ancestor of [l] and [r]. *)
Definition joins (T : parents) (l r x : nat) : Prop :=
    above T l x /\ above T r x /\ forall y, above T l y -> above T r y -> above T x y.

Lemma joins_refl T b : joins T b b b.
  Proof. split_and!; [constructor..|done]. Qed.

  (** The lower of two nodes can be replaced by its parent. *)
Lemma joins_climb T l r x p : tree_ok T -> is_Some (T r) -> pos r < pos l -> T l = Some p ->
    joins T p r x -> joins T l r x.
  Proof.
    intros HT Hr Hlt Hp (Hpx & Hrx & Hx).
    assert (Hl : l <> entry).
    { intros ->. destruct (decide (r = entry)) as [->|Hre]; [lia|]. pose proof (entry_first r (known_attained _ _ HT Hr) Hre). lia. }
    split_and!; [by econstructor|done|]. intros y Hly Hry. apply Hx; [|done].
    inversion Hly as [? Hy|? p' ? _ Hp' Hpy]; subst; [|congruence].
    destruct (above_pos _ _ _ HT Hry) as [->|]; lia.
  Qed.
Lemma joins_sym T l r x : joins T l r x -> joins T r l x.
  Proof. intros (H1 & H2 & H3). split_and!; [done..|]. intros y Hr Hl. by apply H3. Qed.

  (** ** One step of the computation *)

Definition insert_parent (T : parents) (b c : nat) : parents := fun x => if decide (x = b) then Some c else T x.

  (** [c] is the closest common ancestor of the known predecessors of [b]. *)
Record candidate (T : parents) (b c : nat) : Prop := {
    candidate_above p : edge p b -> is_Some (T p) -> above T p c;
    candidate_least y : (forall p, edge p b -> is_Some (T p) -> above T p y) -> above T c y;
    candidate_up : exists q, up q b /\ is_Some (T q);
}.

  (** No dominator of a known node is missing. *)
Definition covers (T : parents) : Prop := forall b d, is_Some (T b) -> dominates d b -> above T b d.

Lemma insert_parent_eq T b c : insert_parent T b c b = Some c.
  Proof. unfold insert_parent. by rewrite decide_True. Qed.
Lemma insert_parent_ne T b c x : x <> b -> insert_parent T b c x = T x.
  Proof. intros H. unfold insert_parent. by rewrite decide_False. Qed.
Lemma insert_parent_known T b c x : is_Some (T x) -> is_Some (insert_parent T b c x).
  Proof. unfold insert_parent. by destruct (decide (x = b)). Qed.

Lemma candidate_pos T b c : tree_ok T -> candidate T b c -> is_Some (T c) /\ tc up c b.
  Proof.
    intros HT [Ha _ (q & Hq & Hk)]. assert (Hqc : above T q c) by (apply Ha; [apply Hq|done]). split.
    - by eapply above_known.
    - eapply tc_rtc_l; [by eapply above_rises|]. by apply tc_once.
  Qed.

Lemma insert_parent_ok T b c : tree_ok T -> b <> entry -> candidate T b c -> tree_ok (insert_parent T b c).
  Proof.
    intros HT Hb Hc. destruct (candidate_pos T b c HT Hc) as [Hk Hup]. split.
    - rewrite insert_parent_ne by done. apply HT.
    - intros x a Hx Ha. destruct (decide (x = b)) as [->|Hne].
      + rewrite insert_parent_eq in Ha. injection Ha as <-. split; [by apply insert_parent_known|done].
      + rewrite insert_parent_ne in Ha by done. destruct (parent_ok T HT _ _ Hx Ha). split; [by apply insert_parent_known|done].
  Qed.

  (** Below [b] the new tree is the old one. *)
Lemma above_low T b c x d : tree_ok T -> pos x < pos b -> above T x d -> above (insert_parent T b c) x d.
  Proof.
    intros HT. intros Hlt H. induction H as [|x a d Hx Ha Had IH]; [constructor|].
    econstructor; [done|rewrite insert_parent_ne; [done|intros ->; lia]|]. apply IH.
    destruct (parent_ok T HT _ _ Hx Ha) as [_ ?%tc_up_pos]. lia.
  Qed.

  (** An ancestor is still one, or the way to it went through [b]. *)
Lemma above_split T b c x d : above T x d ->
    above (insert_parent T b c) x d
    \/ (above T x b /\ above (insert_parent T b c) x b /\ b <> d /\ above T b d).
  Proof.
    induction 1 as [x|x a d Hx Ha Had IH]; [left; constructor|]. destruct (decide (x = b)) as [->|Hne].
    - destruct (decide (b = d)) as [->|Hd]; [left; constructor|right]. split_and!; [constructor..|done|by eapply above_parent].
    - assert (Ha' : insert_parent T b c x = Some a) by (by rewrite insert_parent_ne).
      destruct IH as [IH|(H1 & H2 & H3 & H4)]; [left|right; split_and!]; try (by eapply above_parent); done.
  Qed.

  (** A walk continued upwards meets nothing before its end. *)
Lemma walk_rises b x l : walk b l -> rtc up b x -> exists l', walk x (l' ++ l) /\ Forall (fun y => pos b < pos y) l'.
  Proof.
    intros Hl H. induction H as [b|b a x (_ & He & Hlt) Hax IH] in l, Hl |- *; [by exists []|].
    destruct (IH (a :: l)) as (l' & Hw & Hf); [by eapply walk_step|]. exists (l' ++ [a]). rewrite <- app_assoc. split; [done|].
    apply Forall_app. split; [eapply Forall_impl; [done|]; simpl; intros; lia|by repeat constructor].
  Qed.

Lemma dominates_below b x d : attained b -> dominates d x -> rtc up b x -> pos d < pos b -> dominates d b.
  Proof.
    intros Hb Hd Hup Hlt l Hl. destruct (walk_rises b x l Hl Hup) as (l' & Hw & Hf).
    specialize (Hd _ Hw). apply elem_of_app in Hd as [Hd|]; [|done]. rewrite Forall_forall in Hf. specialize (Hf _ Hd). lia.
  Qed.

Lemma insert_parent_covers T b c : tree_ok T -> b <> entry -> candidate T b c -> covers T -> covers (insert_parent T b c).
  Proof.
    intros HT Hb Hc Hcov. pose proof (insert_parent_ok T b c HT Hb Hc) as HT'.
    destruct (candidate_pos T b c HT Hc) as [Hkc Hup]. destruct (tc_up_attained _ _ Hup) as [_ Hatt].
    assert (Hbd : forall d, dominates d b -> above (insert_parent T b c) b d).
    { intros d Hd. destruct (decide (d = b)) as [->|Hne]; [constructor|].
      apply (above_parent _ b c); [done|apply insert_parent_eq|]. apply above_low; [done|by apply tc_up_pos|].
      apply (candidate_least T b c Hc). intros p Hp Hk. apply Hcov; [done|]. by eapply dominates_pred. }
    intros x d Hx Hd. destruct (decide (x = b)) as [->|Hne]; [by apply Hbd|].
    rewrite insert_parent_ne in Hx by done. destruct (above_split T b c x d (Hcov _ _ Hx Hd)) as [|(H1 & H2 & H3 & H4)]; [done|].
    eapply above_trans; [done|]. apply Hbd. eapply dominates_below; [done|done|by eapply above_rises|].
    destruct (above_pos T b d HT H4); [done|done].
  Qed.

  (** ** Exactness *)

Definition exact (T : parents) : Prop := forall b d, above T b d -> dominates d b.

  (** A tree that is its own candidate everywhere is exact. *)
Lemma stable_exact T : tree_ok T -> (forall b, attained b -> is_Some (T b)) ->
    (forall b c p, b <> entry -> T b = Some c -> edge p b -> is_Some (T p) -> above T p c) -> exact T.
  Proof.
    intros HT Hall Hst b d Hbd l Hl. revert d Hbd. induction Hl as [|p b l Hl IH He]; intros d Hbd.
    - inversion Hbd; [left|done].
    - inversion Hbd as [|? c ? Hb Hc Hcd]; subst; [left|]. right. apply IH.
      eapply above_trans; [|done]. eapply Hst; [done..|]. apply Hall. by exists l.
  Qed.

  (** ** Rounds *)

  (** A walk with at most [k] steps back in the order. *)
Inductive backwalk : nat -> nat -> list nat -> Prop :=
  | backwalk_entry k : backwalk k entry [entry]
  | backwalk_up k p b l : backwalk k p l -> edge p b -> pos p < pos b -> backwalk k b (b :: l)
  | backwalk_back k p b l : backwalk k p l -> edge p b -> backwalk (S k) b (b :: l).

Lemma backwalk_walk k b l : backwalk k b l -> walk b l.
  Proof. induction 1; [constructor|by eapply walk_step..]. Qed.
Lemma walk_backwalk b l : walk b l -> backwalk (pred (length l)) b l.
  Proof.
    induction 1 as [|p b l H IH He]; [constructor|]. destruct l as [|x l]; [by inversion H|].
    change (pred (length (b :: x :: l))) with (S (pred (length (x :: l)))). by eapply backwalk_back.
  Qed.
Lemma backwalk_prefix k b l a : backwalk k b l -> a ∈ l -> exists k' l', (k' <= k)%nat /\ backwalk k' a l' /\ l' `suffix_of` l.
  Proof.
    induction 1 as [k|k p b l H IH He Hlt|k p b l H IH He]; intros Ha.
    - apply list_elem_of_singleton in Ha as ->. exists k, [entry]. split_and!; [done|constructor|done].
    - apply elem_of_cons in Ha as [->|Ha]; [exists k, (b :: l); split_and!; [done|by eapply backwalk_up|done]|].
      destruct (IH Ha) as (k' & l' & Hk & Hl & Hs). exists k', l'. split_and!; [lia|done|by apply suffix_cons_r].
    - apply elem_of_cons in Ha as [->|Ha]; [exists (S k), (b :: l); split_and!; [done|by eapply backwalk_back|done]|].
      destruct (IH Ha) as (k' & l' & Hk & Hl & Hs). exists k', l'. split_and!; [lia|done|by apply suffix_cons_r].
  Qed.

  (** [d] is on every walk to [b] with fewer than [j] steps back. *)
Definition met (j b d : nat) : Prop := forall k l, (k < j)%nat -> backwalk k b l -> d ∈ l.

Lemma met_le i j b d : (i <= j)%nat -> met j b d -> met i b d.
  Proof. intros Hij H k l Hk. apply H. lia. Qed.
Lemma met_trans j b a d : met j b a -> met j a d -> met j b d.
  Proof.
    intros Hba Had k l Hk Hl. destruct (backwalk_prefix _ _ _ _ Hl (Hba _ _ Hk Hl)) as (k' & l' & Hk' & Hl' & [x ->]).
    apply elem_of_app. right. apply (Had k'); [lia|done].
  Qed.

  (** In the round after [j] others, nodes before position [m] have been visited. *)
Definition level (j : nat) (m : Z) (b : nat) : nat := if pos b <? m then S j else j.
Definition within (T : parents) (j : nat) (m : Z) : Prop :=
    forall b a, b <> entry -> T b = Some a -> met (level j m b) b a.

Lemma level_up j m a b : pos a < pos b -> (level j m b <= level j m a)%nat.
  Proof. intros H. unfold level. destruct (Z.ltb_spec (pos a) m), (Z.ltb_spec (pos b) m); lia. Qed.

Lemma within_above T j m b d : tree_ok T -> within T j m -> above T b d -> met (level j m b) b d.
  Proof.
    intros HT Hw. induction 1 as [b|b a d Hb Ha Had IH].
    - intros k l _ Hl. by eapply walk_head, backwalk_walk.
    - eapply met_trans; [by apply Hw|]. eapply met_le; [|done]. apply level_up.
      destruct (parent_ok T HT _ _ Hb Ha) as [_ H]. by apply tc_up_pos.
  Qed.

Lemma candidate_met T j b c : tree_ok T -> within T j (pos b) -> candidate T b c -> b <> entry ->
    (forall p, attained p -> (pos p < pos b \/ (0 < j)%nat) -> is_Some (T p)) -> met (S j) b c.
  Proof.
    intros HT Hw Hc Hb Hknown k l Hk Hl. inversion Hl as [|? p ? l' Hl' He Hlt|k' p ? l' Hl' He]; subst; [done|..]; right.
    - assert (Hp : is_Some (T p)) by (apply Hknown; [exists l'; by eapply backwalk_walk|by left]).
      pose proof (within_above _ _ _ _ _ HT Hw (candidate_above _ _ _ Hc p He Hp)) as Hm.
      apply (Hm k); [|done]. unfold level. destruct (Z.ltb_spec (pos p) (pos b)); lia.
    - assert (Hp : is_Some (T p)) by (apply Hknown; [exists l'; by eapply backwalk_walk|right; lia]).
      pose proof (within_above _ _ _ _ _ HT Hw (candidate_above _ _ _ Hc p He Hp)) as Hm.
      apply (Hm k'); [|done]. unfold level. destruct (Z.ltb_spec (pos p) (pos b)); lia.
  Qed.

Lemma within_insert T j b c : tree_ok T -> within T j (pos b) -> met (S j) b c -> attained b ->
    within (insert_parent T b c) j (pos b + 1).
  Proof.
    intros HT Hw Hm Hb x a Hx Ha. destruct (decide (x = b)) as [->|Hne].
    - rewrite insert_parent_eq in Ha. injection Ha as <-. eapply met_le; [|done].
      unfold level. destruct (_ <? _); lia.
    - rewrite insert_parent_ne in Ha by done. eapply met_le; [|by apply Hw]. unfold level.
      destruct (Z.ltb_spec (pos x) (pos b + 1)), (Z.ltb_spec (pos x) (pos b)); try lia.
      destruct Hne. apply pos_inj; [|done|lia]. apply (known_attained T); [done|by exists a].
  Qed.

  (** Nothing changes when the candidate is the parent already. *)
Lemma within_keep T j b c : tree_ok T -> within T j (pos b) -> met (S j) b c -> attained b -> T b = Some c ->
    within T j (pos b + 1).
  Proof.
    intros HT Hw Hm Hb Hc x a Hx Ha. destruct (decide (x = b)) as [->|Hne].
    - assert (a = c) as -> by congruence. eapply met_le; [|done]. unfold level. destruct (_ <? _); lia.
    - eapply met_le; [|by apply Hw]. unfold level. destruct (Z.ltb_spec (pos x) (pos b + 1)), (Z.ltb_spec (pos x) (pos b)); try lia.
      destruct Hne. apply pos_inj; [|done|lia]. apply (known_attained T); [done|by exists a].
  Qed.

  (** The next round starts behind the entry. *)
Lemma within_next T j m : tree_ok T -> (forall b, is_Some (T b) -> pos b < m) -> within T j m -> within T (S j) 1.
  Proof.
    intros HT Hm Hw b a Hb Ha. assert (Hk : is_Some (T b)) by (by exists a). specialize (Hm b Hk).
    eapply met_le; [|by apply Hw]. unfold level.
    pose proof (entry_first b (known_attained _ _ HT Hk) Hb). pose proof (pos_nonneg entry).
    destruct (Z.ltb_spec (pos b) 1), (Z.ltb_spec (pos b) m); lia.
  Qed.

  (** More rounds than nodes find every dominator. *)
Lemma within_exact T n : tree_ok T -> (forall b, attained b -> (b < n)%nat) -> within T (S n) 1 -> exact T.
  Proof.
    intros HT Hn Hw b d Hbd l Hl. destruct (walk_simple b l Hl) as (l' & Hl' & Hnd & Hs). apply Hs.
    apply (within_above _ _ _ _ _ HT Hw Hbd (pred (length l'))); [|by apply walk_backwalk].
    assert (Hlen : (length l' <= n)%nat).
    { rewrite <- (length_seq n 0). apply submseteq_length, NoDup_submseteq; [done|].
      intros x Hx. apply elem_of_seq. split; [lia|]. simpl. apply Hn.
      destruct (walk_prefix _ _ _ Hl' Hx) as (l2 & Hl2 & _). by exists l2. }
    unfold level. destruct (_ <? _); lia.
  Qed.

Lemma above_antisym T a b : tree_ok T -> above T a b -> above T b a -> a = b.
  Proof.
    intros HT Hab Hba. destruct (above_pos _ _ _ HT Hab) as [->|]; [done|].
    destruct (above_pos _ _ _ HT Hba) as [->|]; [done|lia].
  Qed.

  (** An exact tree does not change. *)
Lemma exact_stable T b c : tree_ok T -> exact T -> covers T -> (forall x, attained x -> is_Some (T x)) ->
    b <> entry -> candidate T b c -> T b = Some c.
  Proof.
    intros HT Hex Hcov Hall Hb Hc. destruct (candidate_pos T b c HT Hc) as [Hkc Hup].
    destruct (tc_up_attained _ _ Hup) as [_ Hatt]. destruct (Hall b Hatt) as [a Ha]. rewrite Ha. f_equal.
    destruct (parent_ok T HT _ _ Hb Ha) as [Hka Hua].
    apply (above_antisym T); [done| |].
    - assert (Hd : dominates c b).
      { intros l Hl. inversion Hl as [|p ? l' Hl' He]; subst; [done|]. right.
        apply (Hex p c); [|done]. apply (candidate_above _ _ _ Hc); [done|]. apply Hall. by exists l'. }
      pose proof (Hcov b c (Hall b Hatt) Hd) as Hbc. inversion Hbc as [? Heq|? a' ? _ Ha' Hac]; subst.
      + apply tc_up_pos in Hup. lia.
      + congruence.
    - apply (candidate_least _ _ _ Hc). intros p Hp Hk. apply Hcov; [done|]. eapply dominates_pred; [|..|done].
      + apply Hex. econstructor; [done..|constructor].
      + intros ->. apply tc_up_pos in Hua. lia.
  Qed.

  (** ** Trees that agree *)

Section agree.
  Context (T T' : parents) (Hext : forall x, T x = T' x).

Lemma above_agree b c : above T b c -> above T' b c.
  Proof. induction 1; [constructor|]. econstructor; [done| |done]. by rewrite <- Hext. Qed.
Lemma tree_ok_agree : tree_ok T -> tree_ok T'.
  Proof.
    intros [H1 H2]. split; [by rewrite <- Hext|]. intros b a Hb Ha. rewrite <- Hext in Ha.
    destruct (H2 b a Hb Ha). by rewrite <- Hext.
  Qed.
Lemma covers_agree : covers T -> covers T'.
  Proof. intros H b d Hb Hd. apply above_agree, H; [by rewrite Hext|done]. Qed.
Lemma within_agree j m : within T j m -> within T' j m.
  Proof. intros H b a Hb Ha. apply H; [done|by rewrite Hext]. Qed.
End agree.
End graph.
