(* ===== verification/FlowTree.v ===== *)
(** The computation of dominators in [validate_control_flow_and_ssa] is
    correct: whatever interrupts it, what it goes on with is exact. *)

From stdpp Require Import base numbers list option sorting relations.
From S2P Require Import Prelude Order Interrupt FlowWir Optimizer FlowOperands FlowModule FlowContext FlowSsa FlowAccept Dominators.

#[local] Open Scope Z_scope.

(** ** The graph of a function *)

Definition edge_to (f : FlowFunction) (es : list (BlockId * list ValueId)) (b : nat) : Prop :=
  exists e, e ∈ es /\ index_below e.1 (length (blocks f)) = Some b.
Definition edge (f : FlowFunction) (a b : nat) : Prop :=
  exists blk, blocks f !! a = Some blk /\ edge_to f (flow_edges (terminator blk)) b.

Lemma index_below_Some id n i : index_below id n = Some i <-> i = N.to_nat id /\ (i < n)%nat.
Proof. unfold index_below. destruct (Nat.ltb_spec (N.to_nat id) n); naive_solver lia. Qed.

Lemma edge_below f a b : edge f a b -> (a < length (blocks f))%nat /\ (b < length (blocks f))%nat.
Proof.
  intros (blk & Hb & e & _ & He). split; [by apply lookup_lt_Some in Hb|]. by apply index_below_Some in He as [_ ?].
Qed.

Lemma edge_to_snoc f es e b :
  edge_to f (es ++ [e]) b <-> edge_to f es b \/ index_below e.1 (length (blocks f)) = Some b.
Proof.
  unfold edge_to. split.
  - intros (e' & [?|He]%elem_of_app & ?); [left; by exists e'|right]. apply list_elem_of_singleton in He as ->. done.
  - intros [(e' & ? & ?)|?]; [exists e'|exists e]; rewrite elem_of_app, list_elem_of_singleton; auto.
Qed.

(** The rows of an adjacency list are the neighbours in a relation. *)
Definition adjacent (n : nat) (xs : Adjacency) (R : nat -> nat -> Prop) : Prop :=
  length xs = n /\ forall a row, xs !! a = Some row -> forall b, b ∈ row <-> R a b.

Lemma adjacent_iff n xs R R' : adjacent n xs R -> (forall a b, R a b <-> R' a b) -> adjacent n xs R'.
Proof. intros [Hl H] HR. split; [done|]. intros a row Ha b. by rewrite (H a row Ha b). Qed.

Lemma honest_push_at xs i x : honest (push_at xs i x).
Proof. unfold push_at. honest. Qed.
#[export] Hint Resolve honest_push_at : flow.

Lemma returns_push_at n xs i x R : adjacent n xs R -> (i < n)%nat ->
  returns (push_at xs i x) (fun ys => adjacent n ys (fun a b => R a b \/ a = i /\ b = x)).
Proof.
  intros [Hl H] Hi. destruct (lookup_lt_is_Some_2 xs i) as [row Hrow]; [lia|].
  eapply returns_bind; [by apply (returns_at_index _ _ (fun r => r = row) row)|intros ? ->].
  eapply returns_bind; [apply (returns_scratch_push _ _ (fun r => r = row ++ [x])); done|intros ? ->].
  apply returns_mret. split; [by rewrite length_insert|]. intros a r Ha b.
  apply list_lookup_insert_Some in Ha as [(-> & <- & _)|(Hne & Ha)].
  - rewrite elem_of_app, list_elem_of_singleton, (H a row Hrow b). naive_solver.
  - rewrite (H a r Ha b). naive_solver.
Qed.

(** ** Collecting the edges *)

(** The edges recorded so far, in both directions. *)
Definition recorded (n : nat) (st : Adjacency * Adjacency) (R : nat -> nat -> Prop) : Prop :=
  adjacent n st.1 R /\ adjacent n st.2 (fun b a => R a b).

(** The edges of one block, with the target in range, in order. *)
Definition edges_below (n : nat) (es : list (BlockId * list ValueId)) : list (BlockId * list ValueId) :=
  List.filter (fun e => bool_decide (is_Some (index_below e.1 n))) es.
Definition numbered_edges (n : nat) (es : list (BlockId * list ValueId)) (st : EdgeArguments * nat) : Prop :=
  st.2 = length st.1 /\ map fst st.1 = edges_below n es /\ forall i x, st.1 !! i = Some x -> x.2 = i.

Lemma edges_below_app n es es' : edges_below n (es ++ es') = edges_below n es ++ edges_below n es'.
Proof. unfold edges_below. by rewrite List.filter_app. Qed.

Lemma edges_below_one n e :
  edges_below n [e] = match index_below e.1 n with Some _ => [e] | None => [] end.
Proof.
  unfold edges_below. cbn [List.filter]. destruct (index_below e.1 n) as [i|] eqn:E; case_bool_decide as H; try done.
  - destruct H. exact (mk_is_Some _ _ E).
  - destruct H as [i Hi]. by pose proof (eq_trans (eq_sym E) Hi).
Qed.

Lemma honest_record_edge n source st e : honest (record_edge n source st e).
Proof. destruct st as [[[s p] a] i]. unfold record_edge. honest. Qed.
#[export] Hint Resolve honest_record_edge : flow.

Lemma returns_record_edges f source es adjacency R : (source < length (blocks f))%nat ->
  recorded (length (blocks f)) adjacency R ->
  returns (fold_of (record_edge (length (blocks f)) source) es (adjacency, [], 0%nat))
    (fun st => recorded (length (blocks f)) st.1.1 (fun a b => R a b \/ a = source /\ edge_to f es b)
               /\ numbered_edges (length (blocks f)) es (st.1.2, st.2)).
Proof.
  intros Hs HR. set (n := length (blocks f)) in *.
  apply (returns_fold _ (fun past st => recorded n st.1.1 (fun a b => R a b \/ a = source /\ edge_to f past b)
    /\ numbered_edges n past (st.1.2, st.2))).
  - split; [|split_and!; done]. destruct HR as [H1 H2].
    split; (eapply adjacent_iff; [eassumption|]); intros a b; unfold edge_to; set_solver.
  - intros past e rest [[[s p] abt] i] _ ([H1 H2] & Hi & Hm & Hn). simpl in *. unfold record_edge.
    destruct (index_below e.1 n) as [t|] eqn:Ht.
    + eapply returns_bind; [by apply returns_push_at|intros s' Hs'].
      eapply returns_bind; [apply (returns_push_at n p t source _ H2); by apply index_below_Some in Ht as [_ ?]|intros p' Hp'].
      eapply returns_bind; [apply (returns_scratch_push _ _ (fun x => x = abt ++ [(e.1, e.2, i)])); done|intros ? ->].
      destruct (checked_add usize (Z.of_nat i) 1); [|eapply returns_bind; [by apply (returns_limits (fun _ => True))|intros; apply returns_exhausted]].
      apply returns_mret. cbn [fst snd]. split.
      * split; [eapply adjacent_iff; [exact Hs'|]|eapply adjacent_iff; [exact Hp'|]]; intros a b;
          rewrite edge_to_snoc; fold n; rewrite Ht; naive_solver congruence.
      * split_and!; simpl; rewrite ?length_app; simpl; [lia| |].
        -- rewrite map_app, edges_below_app, edges_below_one, Ht, Hm. by destruct e.
        -- intros j x [Hj|[Hj Hx]]%lookup_app_Some; [by apply Hn|]. apply list_lookup_singleton_Some in Hx as [? <-]. simpl. lia.
    + apply returns_mret. cbn [fst snd]. split.
      * split; (eapply adjacent_iff; [eassumption|]); intros a b; rewrite edge_to_snoc; fold n; rewrite Ht; naive_solver congruence.
      * split_and!; simpl; [done| |done]. by rewrite edges_below_app, edges_below_one, Ht, app_nil_r.
Qed.

(** ** Parallel edges *)

(** The comparisons of the sorts are total. *)
Lemma key_total {A K} (key : A -> K) (cmp : K -> K -> comparison) `{!TotalOrder cmp} a b :
  cmp (key a) (key b) = Gt -> cmp (key b) (key a) <> Gt.
Proof. rewrite (cmp_opp (cmp := cmp) (key a)). by destruct (cmp (key a) (key b)). Qed.
Lemma key_trans {A K} (key : A -> K) (cmp : K -> K -> comparison) `{!TotalOrder cmp} a b c :
  cmp (key a) (key b) <> Gt -> cmp (key b) (key c) <> Gt -> cmp (key a) (key c) <> Gt.
Proof. apply (le_by_trans cmp). Qed.

#[export] Instance nat_compare_order : TotalOrder Nat.compare.
Proof.
  split.
  - apply Nat.compare_eq_iff.
  - intros. apply Nat.compare_antisym.
  - intros a b c. rewrite !Nat.compare_lt_iff. lia.
Qed.
#[export] Instance N_compare_order : TotalOrder N_compare.
Proof.
  split; unfold N_compare.
  - apply N.compare_eq_iff.
  - intros. apply N.compare_antisym.
  - intros a b c. rewrite !N.compare_lt_iff. lia.
Qed.

Lemma returns_sort_key {A K} (key : A -> K) (cmp : K -> K -> comparison) `{!TotalOrder cmp} xs :
  returns (sort_scratch_by (fun a b => cmp (key a) (key b)) xs)
    (fun ys => ys ≡ₚ xs /\ StronglySorted (fun a b => cmp (key a) (key b) <> Gt) ys).
Proof. apply returns_sort; intros; [by apply key_total|by eapply key_trans]. Qed.

Lemma windows2_cons {A} (x y : A) l : windows2 (x :: y :: l) = (x, y) :: windows2 (y :: l).
Proof. done. Qed.
Lemma windows2_elem {A} (x y : A) l : (x, y) ∈ windows2 l -> x ∈ l /\ y ∈ l.
Proof.
  unfold windows2. intros H. apply list_elem_of_lookup in H as (i & Hi). apply lookup_zip_with_Some in Hi as (a & b & [= <- <-] & Ha & Hb).
  rewrite lookup_drop in Hb. split; by eapply list_elem_of_lookup_2.
Qed.

(** Neighbours that agree make all agree that share a key. *)
Lemma sorted_agree {A K B} (key : A -> K) (value : A -> B) (cmp : K -> K -> comparison) `{!TotalOrder cmp} l :
  StronglySorted (fun a b => cmp (key a) (key b) <> Gt) l ->
  Forall (fun p => key p.1 = key p.2 -> value p.1 = value p.2) (windows2 l) ->
  forall x y, x ∈ l -> y ∈ l -> key x = key y -> value x = value y.
Proof.
  induction l as [|a l IH]; intros Hs Hf x y Hx Hy Hk; [by apply not_elem_of_nil in Hx|].
  apply StronglySorted_inv in Hs as [Hs Ha].
  assert (Hf' : Forall (fun p => key p.1 = key p.2 -> value p.1 = value p.2) (windows2 l)).
  { destruct l as [|b l]; [constructor|]. rewrite windows2_cons in Hf. by apply Forall_cons in Hf as [_ ?]. }
  assert (Hhead : forall z, z ∈ l -> key a = key z -> value a = value z).
  { intros z Hz Haz. destruct l as [|b l]; [by apply not_elem_of_nil in Hz|].
    rewrite windows2_cons in Hf. apply Forall_cons in Hf as [Hab _]. simpl in Hab.
    assert (Hb : key a = key b).
    { apply elem_of_cons in Hz as [->|Hz]; [done|]. apply StronglySorted_inv in Hs as [_ Hb].
      rewrite Forall_forall in Hb. specialize (Hb z Hz). apply Forall_cons in Ha as [Hle _]. rewrite Haz in Hle |- *.
      by apply (le_by_anti cmp). }
    rewrite (Hab Hb). apply (IH Hs Hf'); [left|done|congruence]. }
  apply elem_of_cons in Hx as [->|Hx], Hy as [->|Hy]; [done|by apply Hhead| |by apply IH].
  symmetry. by apply Hhead.
Qed.

(** Edges to one block agree on its arguments. *)
Definition parallel_agree (n : nat) (es : list (BlockId * list ValueId)) : Prop :=
  forall e e', e ∈ edges_below n es -> e' ∈ edges_below n es -> e.1 = e'.1 -> e.2 = e'.2.

Lemma honest_mark_conflict c p : honest (mark_conflict c p).
Proof. destruct p as [[[t a] i] [[t' a'] i']]. unfold mark_conflict. honest. Qed.
Lemma honest_report_conflict f b c e : honest (report_conflict f b c e).
Proof. unfold report_conflict. honest. Qed.
#[export] Hint Resolve honest_mark_conflict honest_report_conflict : flow.
Lemma honest_check_parallel f b abt : honest (check_parallel f b abt).
Proof. unfold check_parallel. honest. Qed.
#[export] Hint Resolve honest_check_parallel : flow.

(** The marks made after some of the neighbours. *)
Definition conflicts_marked (n : nat) (past : list ((BlockId * list ValueId * nat) * (BlockId * list ValueId * nat)))
    (conflicting : list bool) : Prop :=
  length conflicting = n
  /\ Forall (fun p => p.1.1.1 = p.2.1.1 -> p.1.1.2 <> p.2.1.2 -> conflicting !! p.2.2 = Some true) past.

Lemma returns_mark_conflicts n pairs c :
  length c = n -> Forall (fun p => (p.2.2 < n)%nat) pairs ->
  returns (fold_of mark_conflict pairs c) (conflicts_marked n pairs).
Proof.
  intros Hc Hp. apply (returns_fold _ (conflicts_marked n)); [by split|].
  intros past [[[t a] i] [[t' a'] i']] rest c' -> [Hl Hm]. unfold mark_conflict.
  apply Forall_app in Hp as [_ [Hi _]%Forall_cons]. simpl in Hi.
  eapply (returns_bind _ _ (fun _ => True)); [by apply returns_polled|intros _ _].
  case_bool_decide as Ht; simpl; [destruct (bool_decide (a = a')) eqn:Ha; simpl|].
  - apply returns_mret. split; [done|]. apply Forall_app. split; [done|]. apply bool_decide_eq_true in Ha. repeat constructor. done.
  - destruct (lookup_lt_is_Some_2 c' i') as [x Hx]; [lia|]. rewrite Hx. apply returns_mret.
    split; [by rewrite length_insert|]. apply Forall_app. split; [|repeat constructor; simpl; by rewrite list_lookup_insert_eq by lia].
    eapply Forall_impl; [exact Hm|]. intros p Hmark H1 H2. specialize (Hmark H1 H2).
    destruct (decide (i' = p.2.2)) as [->|]; [by rewrite list_lookup_insert_eq by lia|by rewrite list_lookup_insert_ne].
  - apply returns_mret. split; [done|]. apply Forall_app. split; [done|]. by repeat constructor.
Qed.

Section parallel.
  Context (f : FlowFunction) (b : Block) (n : nat) (es : list (BlockId * list ValueId)) (abt : EdgeArguments).
  Context (Hedges : numbered_edges n es (abt, length abt)).

Lemma edge_index_below by_target e : by_target ≡ₚ abt -> e ∈ by_target -> (e.2 < length by_target)%nat.
  Proof.
    destruct Hedges as (_ & _ & Hn). intros Hp He. rewrite Hp in He |- *.
    apply list_elem_of_lookup in He as (i & Hi). rewrite (Hn i e Hi). by apply lookup_lt_Some in Hi.
  Qed.

Lemma returns_marked by_target : by_target ≡ₚ abt ->
    returns (fold_of mark_conflict (windows2 by_target) (replicate (length by_target) false))
      (conflicts_marked (length by_target) (windows2 by_target)).
  Proof.
    intros Hp. apply returns_mark_conflicts; [by rewrite length_replicate|]. rewrite Forall_forall.
    intros [x y] [_ Hy]%windows2_elem. by apply edge_index_below.
  Qed.

Lemma returns_check_parallel : returns (check_parallel f b abt) (fun _ => True).
  Proof.
    unfold check_parallel. eapply returns_bind; [apply (returns_sort_key (fun e => e.1.1) N_compare)|intros by_target [Hp _]].
    eapply returns_bind; [apply (returns_filled _ _ (fun c => c = replicate (length by_target) false)); done|intros ? ->].
    eapply returns_bind; [by apply returns_marked|intros c [Hl _]].
    eapply returns_bind; [apply (returns_sort_key (fun e => e.2) Nat.compare)|intros by_index [Hi _]].
    apply returns_each; [|done]. intros e He. rewrite Hi in He. unfold report_conflict.
    eapply (returns_bind _ _ (fun _ => True)); [by apply returns_polled|intros _ _].
    destruct (lookup_lt_is_Some_2 c e.2) as [x Hx]; [rewrite Hl; by apply edge_index_below|].
    eapply returns_bind; [by apply (returns_at_index _ _ (fun _ => True) x)|intros [] _];
      [by apply returns_push|by apply returns_mret].
  Qed.

Lemma accepts_check_parallel : accepts (check_parallel f b abt) (fun _ => parallel_agree n es).
  Proof.
    unfold check_parallel.
    eapply accepts_bind; [honest|apply accepts_returns, (returns_sort_key (fun e => e.1.1) N_compare)|intros by_target [Hp Hs]].
    eapply accepts_bind; [honest|apply accepts_returns, (returns_filled _ _ (fun c => c = replicate (length by_target) false)); done|intros ? ->].
    eapply accepts_bind; [honest|by apply accepts_returns, returns_marked|intros c [Hl Hm]].
    eapply accepts_bind; [honest|apply accepts_returns, (returns_sort_key (fun e => e.2) Nat.compare)|intros by_index [Hi _]].
    eapply accepts_mono.
    { apply (accepts_each _ _ (fun e => c !! e.2 = Some false)); [intros e; apply honest_report_conflict|].
      intros e He. unfold report_conflict. eapply accepts_bind; [honest|apply accepts_any|intros _ _].
      eapply accepts_bind; [honest|apply accepts_at_index|]. intros [] Hc; [apply accepts_push|by apply accepts_mret]. }
    intros ? Hfalse. cbv beta in Hfalse. rewrite Forall_forall in Hfalse. destruct Hedges as (_ & Hmap & _).
    intros e e' He He' Hk. rewrite <- Hmap in He, He'.
    apply list_elem_of_fmap_1 in He as (x & -> & Hx). apply list_elem_of_fmap_1 in He' as (y & -> & Hy).
    apply (sorted_agree (fun e => e.1.1) (fun e => e.1.2) N_compare by_target Hs); [|by rewrite Hp..|done].
    apply Forall_forall. intros [u v] Huv Hkey. simpl in *. destruct (decide (u.1.2 = v.1.2)) as [|Hne]; [done|exfalso].
    rewrite Forall_forall in Hm. specialize (Hm _ Huv Hkey Hne). simpl in Hm.
    apply windows2_elem in Huv as [_ Hv]. rewrite <- Hi in Hv. rewrite (Hfalse _ Hv) in Hm. done.
  Qed.
End parallel.

(** ** All edges *)

Lemma dedup_elem xs x : x ∈ dedup xs <-> x ∈ xs.
Proof.
  induction xs as [|y xs IH]; [done|]. cbn [dedup]. destruct xs as [|z xs]; [done|].
  case_bool_decide as Hyz; [rewrite IH; subst; set_solver|]. rewrite elem_of_cons, IH. by rewrite (elem_of_cons (z :: xs)).
Qed.

Lemma honest_sort_row xs i : honest (sort_row xs i).
Proof. unfold sort_row. honest. Qed.
#[export] Hint Resolve honest_sort_row : flow.

Lemma returns_sort_row n xs i R : (i < n)%nat -> adjacent n xs R -> returns (sort_row xs i) (fun ys => adjacent n ys R).
Proof.
  intros Hi [Hl H]. unfold sort_row. destruct (lookup_lt_is_Some_2 xs i) as [row Hrow]; [lia|].
  eapply returns_bind; [by apply (returns_at_index _ _ (fun r => r = row) row)|intros ? ->].
  eapply returns_bind; [apply (returns_sort_key (fun x => x) Nat.compare)|intros sorted [Hp _]].
  apply returns_mret. split; [by rewrite length_insert|]. intros a r Ha b.
  apply list_lookup_insert_Some in Ha as [(-> & <- & _)|(Hne & Ha)]; [|by apply (H a r Ha)].
  rewrite dedup_elem, Hp. by apply (H a row Hrow).
Qed.

Lemma returns_sort_rows n xs R : adjacent n xs R -> returns (fold_of sort_row (seq 0 n) xs) (fun ys => adjacent n ys R).
Proof.
  intros H. apply (returns_fold _ (fun _ ys => adjacent n ys R)); [done|].
  intros past i rest ys Hseq Hys. apply returns_sort_row; [|done].
  assert (i ∈ seq 0 n) as Hi%elem_of_seq by (rewrite Hseq; set_solver). lia.
Qed.

Lemma honest_record_block f st block : honest (record_block f st block).
Proof. destruct block. unfold record_block. honest. Qed.
#[export] Hint Resolve honest_record_block : flow.

Lemma returns_record_block f st source b R : blocks f !! source = Some b ->
  recorded (length (blocks f)) st R ->
  returns (record_block f st (source, b)) (fun st' =>
    recorded (length (blocks f)) st' (fun x y => R x y \/ x = source /\ edge_to f (flow_edges (terminator b)) y)).
Proof.
  intros Hb HR. unfold record_block. assert (Hs : (source < length (blocks f))%nat) by (by eapply lookup_lt_Some).
  eapply (returns_bind _ _ (fun _ => True)); [by apply returns_polled|intros _ _].
  eapply (returns_bind _ _ (fun x => x = [])); [by apply returns_scratch|intros ? ->].
  eapply returns_bind; [by apply returns_record_edges|]. intros [[[s p] abt] i] [[H1 H2] Hn]. cbn [fst snd] in *.
  pose proof Hn as (Hi & _). simpl in Hi. subst i.
  eapply returns_bind; [by eapply returns_check_parallel|intros _ _].
  eapply returns_bind; [by apply returns_sort_row|intros s' Hs']. apply returns_mret. by split.
Qed.

Lemma adjacent_empty n (R : nat -> nat -> Prop) : (forall x y, ~ R x y) -> adjacent n (replicate n []) R.
Proof.
  intros HR. split; [by rewrite length_replicate|]. intros a row [-> _]%lookup_replicate b.
  split; [by intros ?%not_elem_of_nil|by intros ?%HR].
Qed.

Lemma returns_record_blocks f :
  returns (fold_of (record_block f) (enumerate (blocks f)) (replicate (length (blocks f)) [], replicate (length (blocks f)) []))
    (fun st => recorded (length (blocks f)) st (edge f)).
Proof.
  set (n := length (blocks f)).
  eapply returns_mono; [apply (returns_fold _ (fun past st => recorded n st
    (fun x y => exists b, (x, b) ∈ past /\ edge_to f (flow_edges (terminator b)) y)))|].
  - split; apply adjacent_empty; by intros x y (b & ?%not_elem_of_nil & _).
  - intros past [source b] rest st Hseq HR.
    assert (Hb : blocks f !! source = Some b) by (apply elem_enumerate; rewrite Hseq; set_solver).
    eapply returns_mono; [by eapply returns_record_block|]. intros st' [H1 H2].
    assert (Hiff : forall x y, (exists b0, (x, b0) ∈ past /\ edge_to f (flow_edges (terminator b0)) y)
        \/ x = source /\ edge_to f (flow_edges (terminator b)) y <->
      exists b0, (x, b0) ∈ past ++ [(source, b)] /\ edge_to f (flow_edges (terminator b0)) y).
    { intros x y. setoid_rewrite elem_of_app. setoid_rewrite list_elem_of_singleton. naive_solver. }
    split; (eapply adjacent_iff; [eassumption|]); intros x y; apply Hiff.
  - intros st [H1 H2]. assert (Hiff : forall x y, (exists b, (x, b) ∈ enumerate (blocks f) /\ edge_to f (flow_edges (terminator b)) y) <-> edge f x y).
    { intros x y. unfold edge. by setoid_rewrite elem_enumerate. }
    split; (eapply adjacent_iff; [eassumption|]); intros x y; apply Hiff.
Qed.

Lemma accepts_record_block f st source b R : blocks f !! source = Some b ->
  recorded (length (blocks f)) st R ->
  accepts (record_block f st (source, b)) (fun _ => parallel_agree (length (blocks f)) (flow_edges (terminator b))).
Proof.
  intros Hb HR. unfold record_block. assert (Hs : (source < length (blocks f))%nat) by (by eapply lookup_lt_Some).
  eapply accepts_bind; [honest|apply accepts_any|intros _ _].
  eapply (accepts_bind _ _ (fun x => x = [])); [honest|apply accepts_returns; by apply returns_scratch|intros ? ->].
  eapply accepts_bind; [honest|by apply accepts_returns, returns_record_edges|].
  intros [[[s p] abt] i] [_ Hn]. cbn [fst snd] in *. pose proof Hn as (Hi & _). simpl in Hi. subst i.
  eapply accepts_bind; [honest|by apply accepts_check_parallel|intros ? Hag].
  eapply accepts_bind; [honest|apply accepts_any|intros s' _]. by apply accepts_mret.
Qed.

Lemma accepts_record_blocks f :
  accepts (fold_of (record_block f) (enumerate (blocks f)) (replicate (length (blocks f)) [], replicate (length (blocks f)) []))
    (fun _ => Forall (fun b => parallel_agree (length (blocks f)) (flow_edges (terminator b))) (blocks f)).
Proof.
  set (n := length (blocks f)).
  eapply accepts_mono; [apply (accepts_fold _ (fun past st => (exists R, recorded n st R)
    /\ Forall (fun e => parallel_agree n (flow_edges (terminator e.2))) past))|].
  - intros; apply honest_record_block.
  - split; [|constructor]. exists (fun _ _ => False).
    split; apply adjacent_empty; intros x y [].
  - intros past [source b] rest st Hseq [[R HR] Hf].
    assert (Hb : blocks f !! source = Some b) by (apply elem_enumerate; rewrite Hseq; set_solver).
    eapply accepts_mono; [apply accepts_and; [apply accepts_returns; by eapply returns_record_block|by eapply accepts_record_block]|].
    intros st' [H1 H2]. split; [by eexists|]. apply Forall_app. split; [done|by repeat constructor].
  - intros st [_ Hf]. cbv beta. apply Forall_forall. intros b Hb. pose proof (proj1 (Forall_forall _ _) Hf) as Hf'. apply list_elem_of_lookup in Hb as (i & Hi).
    apply elem_enumerate in Hi. apply (Hf' (i, b) Hi).
Qed.
