(* ===== verification/FlowSearch.v ===== *)
(** The depth-first search of [validate_control_flow_and_ssa]: it ends, marks
    the blocks the entry reaches, and lists each before a predecessor of it, the
    entry last; so reversed it is an order for the computation of dominators. *)

From stdpp Require Import base numbers list option sorting relations.
From S2P Require Import Prelude Order Interrupt FlowWir Optimizer FlowOperands FlowModule FlowContext FlowSsa FlowAccept Dominators FlowTree.

#[local] Open Scope nat_scope.

Lemma elem_rev {A} (xs : list A) x : x ∈ rev xs <-> x ∈ xs.
Proof. by rewrite !list_elem_of_In, <- in_rev. Qed.

Section search.
  Context (n entry : nat) (succs : Adjacency) (E : nat -> nat -> Prop).
  Context (Hsucc : adjacent n succs E) (Hentry : entry < n) (Hbelow : forall a b, E a b -> b < n).

Notation attained := (attained entry E).

Definition grays (pending : list (nat * bool)) : list nat := omap (fun e : nat * bool => if e.2 then Some e.1 else None) pending.

Lemma grays_elem pending b : b ∈ grays pending <-> (b, true) ∈ pending.
  Proof.
    unfold grays. rewrite list_elem_of_omap. split.
    - intros ([x []] & Hx & [=]). by subst.
    - intros H. by exists (b, true).
  Qed.

  (** Every block on the stack has a predecessor being expanded below it. *)
Fixpoint stacked (pending : list (nat * bool)) : Prop :=
    match pending with
    | [] => True
    | (b, _) :: pending => (b = entry \/ exists p, E p b /\ (p, true) ∈ pending) /\ stacked pending
    end.

  (** A block being expanded has its unmarked successors above it. *)
Fixpoint expanding (R : list bool) (top pending : list (nat * bool)) : Prop :=
    match pending with
    | [] => True
    | (b, flag) :: pending =>
        (flag = true -> forall c, E b c -> R !! c = Some true \/ (c, false) ∈ top)
        /\ expanding R ((b, flag) :: top) pending
    end.

  (** Every listed block has a predecessor after it or being expanded. *)
Fixpoint listed (pending : list (nat * bool)) (post : list nat) : Prop :=
    match post with
    | [] => True
    | b :: post => (b = entry \/ exists p, E p b /\ (p ∈ post \/ (p, true) ∈ pending)) /\ listed pending post
    end.

Lemma expanding_mono R R' top top' pending :
    (forall c, R !! c = Some true -> R' !! c = Some true) ->
    (forall c, (c, false) ∈ top -> R' !! c = Some true \/ (c, false) ∈ top') ->
    expanding R top pending -> expanding R' top' pending.
  Proof.
    intros HR. revert top top'. induction pending as [|[b flag] pending IH]; intros top top' Ht H; [done|].
    destruct H as [H1 H2]. split.
    - intros Hf c Hc. destruct (H1 Hf c Hc) as [?%HR|?%Ht]; auto.
    - eapply IH; [|done]. intros c [[= -> ->]|Hc]%elem_of_cons; [right; left|]. destruct (Ht c Hc); [by left|right; by right].
  Qed.

Lemma stacked_app news pending b :
    (b, true) ∈ pending -> (forall e, e ∈ news -> E b e.1) -> stacked pending -> stacked (news ++ pending).
  Proof.
    intros Hb. induction news as [|[c flag] news IH]; intros Hn Hs; [done|]. split.
    - right. exists b. split; [apply (Hn (c, flag)); left|]. apply elem_of_app. by right.
    - apply IH; [|done]. intros e He. apply Hn. by right.
  Qed.

Lemma listed_mono pending pending' post :
    (forall p, (p, true) ∈ pending -> (p, true) ∈ pending') -> listed pending post -> listed pending' post.
  Proof.
    intros Hp. induction post as [|b post IH]; [done|]. intros [[->|(p & He & [Hin|Hin%Hp])] H2]; (split; [|by apply IH]).
    - by left.
    - right. exists p. auto.
    - right. exists p. auto.
  Qed.

Lemma listed_snoc pending post b :
    (b = entry \/ exists p, E p b /\ (p, true) ∈ pending) -> listed ((b, true) :: pending) post -> listed pending (post ++ [b]).
  Proof.
    intros Hb. induction post as [|c post IH]; simpl.
    - intros _. split; [|done]. destruct Hb as [|(p & ? & ?)]; [by left|right; exists p; auto].
    - intros [Hc Hp]. split; [|by apply IH]. destruct Hc as [|(p & Hp' & Hin)]; [by left|right; exists p; split; [done|]].
      rewrite elem_of_app, list_elem_of_singleton. destruct Hin as [|[[= ->]|]%elem_of_cons]; auto.
  Qed.

  (** What the search keeps. *)
Record searching (R : list bool) (post : list nat) (pending : list (nat * bool)) : Prop := {
    s_length : length R = n;
    s_marked b : R !! b = Some true <-> b ∈ post \/ (b, true) ∈ pending;
    s_nodup : NoDup (post ++ grays pending);
    s_attained b flag : (b, flag) ∈ pending -> attained b;
    s_below b flag : (b, flag) ∈ pending -> b < n;
    s_stacked : stacked pending;
    s_listed : listed pending post;
    s_done b c : b ∈ post -> E b c -> R !! c = Some true;
    s_expanding : expanding R [] pending;
    s_entry : (entry, false) ∈ pending \/ R !! entry = Some true;
    s_seen b : b ∈ post -> attained b;
  }.

Lemma searching_start : searching (replicate n false) [] [(entry, false)].
  Proof.
    split; try done.
    - by rewrite length_replicate.
    - intros b. split; [by intros [? _]%lookup_replicate|]. intros [?%not_elem_of_nil|?%list_elem_of_singleton]; [done|congruence].
    - constructor.
    - intros b flag [= -> ->]%list_elem_of_singleton. exists [entry]. constructor.
    - intros b flag [= -> ->]%list_elem_of_singleton. done.
    - split; [by left|done].
    - by intros b c ?%not_elem_of_nil.
    - left. by apply list_elem_of_singleton.
    - by intros b ?%not_elem_of_nil.
  Qed.

Lemma searching_expanded R post b pending :
    searching R post ((b, true) :: pending) -> searching R (post ++ [b]) pending.
  Proof.
    intros [H1 H2 H3 H4 H5 [H6a H6] H7 H8 [H9a H9] H10 H11]. split; try done.
    - intros c. rewrite H2, elem_of_app, elem_of_cons, list_elem_of_singleton. naive_solver.
    - rewrite <- app_assoc. exact H3.
    - intros c flag Hc. apply (H4 c flag). by right.
    - intros c flag Hc. apply (H5 c flag). by right.
    - by apply listed_snoc.
    - intros c d [Hc| ->%list_elem_of_singleton]%elem_of_app Hd; [by apply (H8 c)|].
      by destruct (H9a eq_refl d Hd) as [|?%not_elem_of_nil].
    - eapply expanding_mono; [done| |exact H9]. intros c [[=]|?%not_elem_of_nil]%elem_of_cons. done.
    - destruct H10 as [[[=]|]%elem_of_cons|]; auto.
    - intros c [Hc| ->%list_elem_of_singleton]%elem_of_app; [by apply H11|]. apply (H4 b true). left.
  Qed.

Lemma searching_seen R post b pending : R !! b = Some true ->
    searching R post ((b, false) :: pending) -> searching R post pending.
  Proof.
    intros Hb [H1 H2 H3 H4 H5 [H6a H6] H7 H8 [H9a H9] H10 H11]. split; try done.
    - intros c. rewrite H2, elem_of_cons. naive_solver.
    - intros c flag Hc. apply (H4 c flag). by right.
    - intros c flag Hc. apply (H5 c flag). by right.
    - eapply listed_mono; [|exact H7]. by intros p [[=]|]%elem_of_cons.
    - eapply expanding_mono; [done| |exact H9]. intros c [[= ->]|Hc]%elem_of_cons; [by left|]. by apply not_elem_of_nil in Hc.
    - destruct H10 as [[[= ->]|]%elem_of_cons|]; auto.
  Qed.

Lemma searching_new R post b pending news : R !! b = Some false ->
    (forall e, e ∈ news <-> exists c, E b c /\ <[b := true]> R !! c = Some false /\ e = (c, false)) ->
    searching R post ((b, false) :: pending) -> searching (<[b := true]> R) post (news ++ (b, true) :: pending).
  Proof.
    intros Hb Hnews [H1 H2 H3 H4 H5 [H6a H6] H7 H8 [H9a H9] H10 H11].
    assert (Hbn : b < length R) by (by eapply lookup_lt_Some).
    assert (Hmark : forall c, <[b := true]> R !! c = Some true <-> c = b \/ R !! c = Some true).
    { intros c. destruct (decide (c = b)) as [->|Hne]; [rewrite list_lookup_insert_eq by done; naive_solver|].
      rewrite list_lookup_insert_ne by done. naive_solver. }
    assert (Hfresh : b ∉ post /\ (b, true) ∉ pending).
    { assert (~ R !! b = Some true) as Hno by congruence. rewrite H2 in Hno. set_solver. }
    assert (Hgnews : grays news = []).
    { apply elem_of_nil_inv. intros c (d & _ & _ & [=])%grays_elem%Hnews. }
    assert (Hatt : attained b) by (apply (H4 b false); left).
    assert (Hflag : forall e, e ∈ news -> e.2 = false /\ E b e.1) by (intros e (c & Hc & _ & ->)%Hnews; done).
    split; try done.
    - by rewrite length_insert.
    - intros c. rewrite Hmark, H2, elem_of_app, !elem_of_cons, Hnews. naive_solver.
    - unfold grays. rewrite omap_app. fold (grays news). rewrite Hgnews. simpl. fold (grays pending).
      simpl in H3. fold (grays pending) in H3. apply NoDup_app in H3 as (Hn1 & Hn2 & Hn3). apply NoDup_app. split_and!; [done| |].
      + intros c Hc [->|Hc']%elem_of_cons; [by destruct Hfresh|by apply (Hn2 c)].
      + apply NoDup_cons. split; [|done]. rewrite grays_elem. apply Hfresh.
    - intros c flag [(d & Hd & _ & [= -> ->])%Hnews|[[= -> ->]|Hc]%elem_of_cons]%elem_of_app; [|done|apply (H4 c flag); by right].
      destruct Hatt as (l & Hl). exists (d :: l). by eapply walk_step.
    - intros c flag [(d & Hd & _ & [= -> ->])%Hnews|[[= -> ->]|Hc]%elem_of_cons]%elem_of_app; [by eapply Hbelow|lia|apply (H5 c flag); by right].
    - apply (stacked_app _ _ b); [left|by intros e [_ He]%Hflag|]. by split.
    - eapply listed_mono; [|exact H7]. intros p [[=]|Hp]%elem_of_cons. apply elem_of_app. right. by right.
    - intros c d Hc Hd. apply Hmark. right. by apply (H8 c).
    - assert (Hgo : forall top, expanding (<[b := true]> R) (reverse news ++ top) ((b, true) :: pending) ->
        expanding (<[b := true]> R) top (news ++ (b, true) :: pending)).
      { clear -Hflag. induction news as [|[c flag] news IH]; intros top H; [done|]. destruct (Hflag (c, flag)) as [Hf _]; [left|].
        simpl in Hf. subst flag. split; [done|]. apply IH; [intros e He; apply Hflag; by right|].
        by rewrite reverse_cons, <- app_assoc in H. }
      apply Hgo. clear Hgo. rewrite app_nil_r. split.
      + intros _ c Hc. destruct (<[b := true]> R !! c) as [[]|] eqn:Ec; [by left|right|].
        * apply elem_of_reverse, Hnews. by exists c.
        * apply Hbelow in Hc. apply lookup_ge_None in Ec. rewrite length_insert in Ec. lia.
      + eapply expanding_mono; [| |exact H9].
        * intros c Hc. apply Hmark. by right.
        * intros c [[= ->]|?%not_elem_of_nil]%elem_of_cons; [|done]. left. apply Hmark. by left.
    - destruct H10 as [[[= <-]|Hin]%elem_of_cons|Hm].
      + right. apply Hmark. by left.
      + left. apply elem_of_app. right. by right.
      + right. apply Hmark. by right.
  Qed.

  (** ** The loop *)

  (** What is left to push: a block not marked yet costs one turn for its
      expansion and one for every successor. *)
Fixpoint unmarked (R : list bool) (rows : Adjacency) : nat :=
    match R, rows with
    | seen :: R, row :: rows => (if seen : bool then 0 else S (length row)) + unmarked R rows
    | _, _ => 0
    end.

Lemma unmarked_insert R rows b row : R !! b = Some false -> rows !! b = Some row ->
    unmarked (<[b := true]> R) rows + S (length row) = unmarked R rows.
  Proof.
    clear. revert R rows. induction b as [|b IH]; intros [|seen R] [|r rows] HR Hr; try done; simpl in *.
    - injection HR as ->. injection Hr as ->. lia.
    - specialize (IH R rows HR Hr). lia.
  Qed.

Lemma unmarked_start rows : unmarked (replicate (length rows) false) rows = length rows + sum_list_with length rows.
  Proof. clear. induction rows as [|row rows IH]; simpl; [done|]. lia. Qed.

Lemma honest_push_pending pending e : honest (push_pending pending e).
  Proof. unfold push_pending. honest. Qed.
#[local] Hint Resolve honest_push_pending : flow.
Lemma honest_push_successor R pending c : honest (push_successor R pending c).
  Proof. unfold push_successor. honest. Qed.
#[local] Hint Resolve honest_push_successor : flow.
Lemma honest_search fuel rows R post pending : honest (search fuel rows R post pending).
  Proof. revert R post pending. induction fuel; intros R post [|[b []] pending]; cbn [search]; honest. Qed.

Lemma returns_push_pending pending e (P : list (nat * bool) -> Prop) : P (e :: pending) -> returns (push_pending pending e) P.
  Proof.
    intros HP. unfold push_pending. eapply (returns_bind _ _ (fun _ => True)); [by apply returns_scratch_room|intros _ _].
    by apply returns_mret.
  Qed.

  (** The successors pushed are the unmarked ones. *)
Lemma returns_push_successors R row pending : Forall (fun c => c < length R) row ->
    returns (fold_of (push_successor R) (rev row) pending) (fun pending' => exists news,
      pending' = news ++ pending /\ length news <= length row
      /\ forall e, e ∈ news <-> exists c, c ∈ row /\ R !! c = Some false /\ e = (c, false)).
  Proof.
    intros Hrow. rewrite Forall_forall in Hrow.
    eapply returns_mono; [apply (returns_fold _ (fun past pending' => exists news, pending' = news ++ pending
      /\ length news <= length past
      /\ forall e, e ∈ news <-> exists c, c ∈ past /\ R !! c = Some false /\ e = (c, false)))|].
    - exists []. split_and!; [done..|]. intros e. split; [by intros ?%not_elem_of_nil|by intros (c & ?%not_elem_of_nil & _)].
    - intros past c rest ? Hseq (news & -> & Hlen & Hn). unfold push_successor.
      assert (Hc : c < length R). { apply Hrow, elem_rev. rewrite Hseq. set_solver. }
      destruct (lookup_lt_is_Some_2 R c Hc) as [seen Hseen].
      eapply returns_bind; [by apply (returns_at_index _ _ (fun x => x = seen) seen)|intros ? ->]. destruct seen.
      + apply returns_mret. exists news. rewrite length_app. simpl. split_and!; [done|lia|]. intros e. rewrite Hn. split.
        * intros (d & Hd & ?). exists d. rewrite elem_of_app. auto.
        * intros (d & [Hd| ->%list_elem_of_singleton]%elem_of_app & Hf & ?); [by exists d|congruence].
      + apply returns_push_pending. exists ((c, false) :: news). rewrite length_app. simpl. split_and!; [done|lia|]. intros e.
        rewrite elem_of_cons, Hn. setoid_rewrite elem_of_app. setoid_rewrite list_elem_of_singleton. naive_solver.
    - intros ? (news & -> & Hlen & Hn). exists news. rewrite length_rev in Hlen. split_and!; [done..|]. intros e. rewrite Hn.
      by setoid_rewrite elem_rev.
  Qed.

Lemma returns_search fuel R post pending :
    searching R post pending -> length pending + unmarked R succs <= fuel ->
    returns (search fuel succs R post pending) (fun r => searching r.1 r.2 []).
  Proof.
    revert R post pending. induction fuel as [|fuel IH]; intros R post [|[b flag] pending] Hs Hf;
      cbn [search]; try (by apply returns_mret); [simpl in Hf; lia|].
    eapply (returns_bind _ _ (fun _ => True)); [by apply returns_polled|intros _ _]. simpl in Hf. destruct flag.
    - eapply returns_bind; [apply (returns_scratch_push _ _ (fun x => x = post ++ [b])); done|intros ? ->].
      apply IH; [by apply searching_expanded|lia].
    - assert (Hb : b < length R) by (rewrite (s_length _ _ _ Hs); apply (s_below _ _ _ Hs b false); left).
      destruct (lookup_lt_is_Some_2 R b Hb) as [seen Hseen].
      eapply returns_bind; [by apply (returns_at_index _ _ (fun x => x = seen) seen)|intros ? ->]. destruct seen.
      + rewrite (list_insert_id R b true Hseen). apply IH; [by eapply searching_seen|lia].
      + eapply returns_bind; [by apply (returns_push_pending _ _ (fun x => x = (b, true) :: pending))|intros ? ->].
        destruct Hsucc as [Hl Hrows]. pose proof (s_length _ _ _ Hs) as HlR.
        destruct (lookup_lt_is_Some_2 succs b) as [row Hrow]; [lia|].
        eapply returns_bind; [by apply (returns_at_index _ _ (fun x => x = row) row)|intros ? ->].
        eapply returns_bind; [apply returns_push_successors|].
        * apply Forall_forall. intros c Hc%(Hrows b row Hrow)%Hbelow. rewrite length_insert. lia.
        * intros ? (news & -> & Hlen & Hnews). pose proof (unmarked_insert R succs b row Hseen Hrow) as Hw.
          apply IH; [apply searching_new; [done| |done]|].
          -- intros e. rewrite Hnews. setoid_rewrite (Hrows b row Hrow). naive_solver.
          -- rewrite length_app. simpl. lia.
  Qed.

  (** What is found in the end. *)
Record found (R : list bool) (post : list nat) : Prop := {
    f_length : length R = n;
    f_marks b : R !! b = Some true <-> attained b;
    f_nodup : NoDup post;
    f_post b : b ∈ post <-> attained b;
    f_last : last post = Some entry;
    f_listed : listed [] post;
  }.

Lemma searching_found R post : searching R post [] -> found R post.
  Proof.
    intros [H1 H2 H3 H4 H5 H6 H7 H8 H9 H10 H11].
    assert (Hpost : forall b, R !! b = Some true <-> b ∈ post).
    { intros b. rewrite H2. split; [intros [|?%not_elem_of_nil]; done|by left]. }
    destruct H10 as [?%not_elem_of_nil|Hen]; [done|].
    assert (Hatt : forall b, b ∈ post <-> attained b).
    { intros b. split; [apply H11|]. intros (l & Hl). induction Hl as [|p b l Hl IH He]; [by apply Hpost|].
      apply Hpost. by apply (H8 p). }
    split; try done.
    - intros b. by rewrite Hpost.
    - by rewrite app_nil_r in H3.
    - clear -Hen Hpost H7. assert (Hne : post <> []) by (intros ->; by apply Hpost, not_elem_of_nil in Hen).
      clear Hen Hpost. induction post as [|b post IH]; [done|]. destruct post as [|c post].
      + destruct H7 as [[->|(p & _ & [?%not_elem_of_nil|?%not_elem_of_nil])] _]; done.
      + apply IH; [|done]. apply H7.
  Qed.
End search.
