(* ===== verification/FlowDominance.v ===== *)
(** The tree of dominators that [validate_control_flow_and_ssa] computes: the
    loop ends after at most two more rounds than there are blocks, and the tree
    is exact, so [flow_block_dominates] decides dominance. *)

From stdpp Require Import base numbers list option sorting relations.
From S2P Require Import Prelude Order Interrupt FlowWir Optimizer FlowOperands FlowModule FlowContext FlowSsa FlowAccept Dominators FlowTree FlowSearch.

#[local] Open Scope Z_scope.

(** ** The order of the visits *)

Lemma honest_reverse_scratch xs : honest (reverse_scratch xs).
Proof. apply honest_fold. intros ys i. unfold reverse_step, swap. honest. Qed.

Lemma returns_reverse_scratch xs : returns (reverse_scratch xs) (fun ys => ys = reverse xs).
Proof.
  set (l := length xs). unfold reverse_scratch. fold l.
  eapply returns_mono; [apply (returns_fold _ (fun past ys => length ys = l /\ forall j, (j < l)%nat ->
    ys !! j = if decide (j < length past \/ l - length past <= j)%nat then xs !! (l - 1 - j)%nat else xs !! j))|].
  - split; [done|]. intros j Hj. by rewrite decide_False by (simpl; lia).
  - intros past i rest ys Hseq [Hl Hys].
    assert (i = length past) as ->.
    { assert (H : seq 0 (l / 2) !! length past = Some i) by (by rewrite Hseq, list_lookup_middle). apply lookup_seq in H. lia. }
    assert (Hhalf : (length past < l / 2)%nat).
    { assert (H : length (seq 0 (l / 2)) = (length past + S (length rest))%nat) by (rewrite Hseq, length_app; done).
      rewrite length_seq in H. lia. }
    assert (Hdiv : (2 * (l / 2) <= l)%nat) by (apply Nat.Div0.mul_div_le).
    set (k := length past) in *. unfold reverse_step, swap. rewrite Hl.
    eapply (returns_bind _ _ (fun _ => True)); [by apply returns_polled|intros _ _].
    destruct (lookup_lt_is_Some_2 ys k) as [a Ha]; [lia|]. destruct (lookup_lt_is_Some_2 ys (l - k - 1)) as [b Hb]; [lia|].
    eapply returns_bind; [by apply (returns_at_index _ _ (fun x => x = a) a)|intros ? ->].
    eapply returns_bind; [by apply (returns_at_index _ _ (fun x => x = b) b)|intros ? ->].
    apply returns_mret. split; [by rewrite !length_insert|]. intros j Hj. rewrite length_app. simpl. fold k.
    rewrite Hys in Ha by lia. rewrite decide_False in Ha by lia. rewrite Hys in Hb by lia. rewrite decide_False in Hb by lia.
    destruct (decide (j = l - k - 1)%nat) as [->|Hj1].
    + rewrite list_lookup_insert_eq by (rewrite length_insert; lia). rewrite decide_True by lia.
      rewrite <- Ha. f_equal. lia.
    + rewrite list_lookup_insert_ne by lia. destruct (decide (j = k)) as [->|Hj2].
      * rewrite list_lookup_insert_eq by lia. rewrite decide_True by lia. rewrite <- Hb. f_equal. lia.
      * rewrite list_lookup_insert_ne by lia. rewrite Hys by lia.
        destruct (decide (j < k \/ l - k <= j)%nat); [by rewrite decide_True by lia|by rewrite decide_False by lia].
  - intros ys [Hl Hys]. rewrite length_seq in Hys. assert (Hdiv : (l <= 2 * (l / 2) + 1)%nat).
    { pose proof (Nat.div_mod_eq l 2). pose proof (Nat.mod_upper_bound l 2). lia. }
    apply list_eq. intros j. destruct (decide (j < l)%nat) as [Hj|Hj].
    + rewrite Hys, reverse_lookup by lia. fold l. destruct (decide _) as [_|Hn]; [f_equal; lia|].
      assert (j = l - 1 - j)%nat by lia. f_equal. lia.
    + rewrite !lookup_ge_None_2; [done|rewrite length_reverse; fold l; lia|lia].
Qed.

(** Every block in the order has a predecessor before it, but for the entry. *)
Record ordered (entry : nat) (E : nat -> nat -> Prop) (order : list nat) : Prop := {
  o_nodup : NoDup order;
  o_attained b : b ∈ order <-> attained entry E b;
  o_entry : order !! 0%nat = Some entry;
  o_before i b : order !! i = Some b -> b <> entry -> exists j p, (j < i)%nat /\ order !! j = Some p /\ E p b;
}.

Lemma listed_before entry E pending post : listed entry E pending post ->
  forall i b, post !! i = Some b -> b <> entry ->
    exists p, E p b /\ ((exists j, (i < j)%nat /\ post !! j = Some p) \/ (p, true) ∈ pending).
Proof.
  induction post as [|c post IH]; [done|]. intros [Hc Hl] i b Hi Hb. destruct i as [|i].
  - injection Hi as ->. destruct Hc as [|(p & Hp & [Hin|Hin])]; [done|..]; exists p; (split; [done|]); [left|by right].
    apply list_elem_of_lookup in Hin as (j & Hj). exists (S j). split; [lia|done].
  - destruct (IH Hl i b Hi Hb) as (p & Hp & [(j & Hj & Hlk)|Hin]); exists p; (split; [done|]); [left|by right].
    exists (S j). split; [lia|done].
Qed.

Lemma found_ordered n entry E R post : found n entry E R post -> ordered entry E (reverse post).
Proof.
  intros [H1 H2 H3 H4 H5 H6]. split.
  - by rewrite reverse_Permutation.
  - intros b. by rewrite elem_of_reverse.
  - rewrite reverse_lookup by (destruct post; simpl; [done|lia]). rewrite <- H5, last_lookup. f_equal. lia.
  - intros i b Hi Hb. assert (Hlt : (i < length post)%nat) by (rewrite <- (length_reverse post); by eapply lookup_lt_Some).
    rewrite reverse_lookup in Hi by done. destruct (listed_before _ _ _ _ H6 _ _ Hi Hb) as (p & Hp & [(j & Hj & Hlk)|?%not_elem_of_nil]); [|done].
    pose proof (lookup_lt_Some _ _ _ Hlk). exists (length post - S j)%nat, p. split_and!; [lia| |done].
    rewrite reverse_lookup by lia. rewrite <- Hlk. f_equal. lia.
Qed.

Lemma honest_position_block ps e : honest (position_block ps e).
Proof. unfold position_block. honest. Qed.
#[export] Hint Resolve honest_position_block honest_reverse_scratch : flow.

Lemma returns_positions n order : NoDup order -> Forall (fun b => (b < n)%nat) order ->
  returns (fold_of position_block (enumerate order) (replicate n u64_max))
    (fun ps => length ps = n /\ (forall i b, order !! i = Some b -> ps !! b = Some (Z.of_nat i))
               /\ forall b p, ps !! b = Some p -> 0 <= p).
Proof.
  intros Hnd Hn. rewrite Forall_forall in Hn.
  eapply returns_mono; [apply (returns_fold _ (fun past ps => length ps = n
    /\ (forall i b, (i, b) ∈ past -> ps !! b = Some (Z.of_nat i)) /\ forall b p, ps !! b = Some p -> 0 <= p))|].
  - split_and!; [by rewrite length_replicate|by intros i b ?%not_elem_of_nil|]. by intros b p [-> _]%lookup_replicate.
  - intros past [i b] rest ps Hseq (Hl & Hps & Hpos). unfold position_block. cbn [fst snd].
    assert (Hi : order !! i = Some b) by (apply elem_enumerate; rewrite Hseq; set_solver).
    assert (Hb : (b < n)%nat) by (apply Hn; by eapply list_elem_of_lookup_2).
    eapply (returns_bind _ _ (fun _ => True)); [by apply returns_polled|intros _ _].
    destruct (lookup_lt_is_Some_2 ps b) as [x Hx]; [lia|].
    eapply returns_bind; [by apply (returns_at_index _ _ (fun _ => True) x)|intros _ _]. apply returns_mret.
    split_and!; [by rewrite length_insert|..].
    + intros j c [Hj|[= -> ->]%list_elem_of_singleton]%elem_of_app; [|by rewrite list_lookup_insert_eq by lia].
      assert (Hc : order !! j = Some c) by (apply elem_enumerate; rewrite Hseq; set_solver).
      destruct (decide (b = c)) as [->|Hne]; [|rewrite list_lookup_insert_ne by done; by apply Hps].
      rewrite (NoDup_lookup _ _ _ _ Hnd Hc Hi). by rewrite list_lookup_insert_eq by lia.
    + intros c p Hcp. apply list_lookup_insert_Some in Hcp as [(_ & <- & _)|(_ & Hcp)]; [lia|by eapply Hpos].
  - intros ps (Hl & Hps & Hpos). split_and!; [done| |done]. intros i b Hi. apply Hps. by apply elem_enumerate.
Qed.

(** ** The rounds *)

Definition tree_of (l : Dominators) (b : nat) : option nat := mjoin (l !! b).

Lemma tree_of_insert l b c x : (b < length l)%nat -> insert_parent (tree_of l) b c x = tree_of (<[b := Some c]> l) x.
Proof.
  intros Hb. unfold insert_parent, tree_of. destruct (decide (x = b)) as [->|Hne].
  - by rewrite list_lookup_insert_eq.
  - by rewrite list_lookup_insert_ne.
Qed.

Section rounds.
  Context (n entry : nat) (E : nat -> nat -> Prop) (preds : Adjacency) (order : list nat) (rpo : Positions).
  Context (Hpreds : adjacent n preds (fun b a => E a b)) (Hbelow : forall a b, E a b -> (a < n)%nat /\ (b < n)%nat)
          (Hentry : (entry < n)%nat) (Hord : ordered entry E order) (Hlen : length rpo = n)
          (Hrpo : forall i b, order !! i = Some b -> rpo !! b = Some (Z.of_nat i))
          (Hnonneg : forall b p, rpo !! b = Some p -> 0 <= p).

Definition pos (b : nat) : Z := default u64_max (rpo !! b).
Notation attained := (attained entry E).
Notation up := (up entry E pos).
Notation above := (above entry).
Notation tree_ok := (tree_ok entry E pos).
Notation candidate := (candidate entry E pos).
Notation joins := (joins entry).

Lemma pos_nonneg b : 0 <= pos b.
  Proof. unfold pos. destruct (rpo !! b) eqn:H; simpl; [by eapply Hnonneg|done]. Qed.

Lemma attained_position b : attained b -> exists i, order !! i = Some b /\ pos b = Z.of_nat i.
  Proof.
    intros (i & Hi)%(o_attained _ _ _ Hord)%list_elem_of_lookup. exists i. split; [done|].
    unfold pos. by rewrite (Hrpo i b Hi).
  Qed.

Lemma pos_inj a b : attained a -> attained b -> pos a = pos b -> a = b.
  Proof.
    intros (i & Hi & Hpi)%attained_position (j & Hj & Hpj)%attained_position Heq.
    assert (i = j) as -> by lia. congruence.
  Qed.

Lemma pos_up b : attained b -> b <> entry -> exists a, up a b.
  Proof.
    intros (i & Hi & Hpi)%attained_position Hb. destruct (o_before _ _ _ Hord i b Hi Hb) as (j & p & Hj & Hp & He).
    assert (Hatt : attained p) by (apply (o_attained _ _ _ Hord); by eapply list_elem_of_lookup_2).
    exists p. split_and!; [done..|]. destruct (attained_position p Hatt) as (k & Hk & Hpk).
    rewrite (NoDup_lookup _ _ _ _ (o_nodup _ _ _ Hord) Hk Hp) in Hpk. lia.
  Qed.

Lemma attained_below b : attained b -> (b < n)%nat.
  Proof. intros (l & Hl). inversion Hl as [|p ? l' _ He]; subst; [done|]. by apply (Hbelow p b). Qed.

Lemma position_below b : attained b -> pos b < Z.of_nat n.
  Proof.
    intros Hb. destruct (attained_position b Hb) as (i & Hi & ->). apply lookup_lt_Some in Hi.
    assert (Hle : (length order <= length (seq 0 n))%nat).
    { apply submseteq_length, NoDup_submseteq; [apply (o_nodup _ _ _ Hord)|]. intros x Hx%(o_attained _ _ _ Hord)%attained_below.
      apply elem_of_seq. lia. }
    rewrite length_seq in Hle. lia.
  Qed.

Lemma position_lookup b : attained b -> rpo !! b = Some (pos b).
  Proof. intros (i & Hi & ->)%attained_position. by apply Hrpo. Qed.

  (** ** Intersection *)

Lemma honest_climb fuel l x bound : honest (climb fuel l rpo x bound).
  Proof. revert x. induction fuel; intros x; cbn [climb]; honest. Qed.

Lemma returns_climb fuel l node other : tree_ok (tree_of l) -> length l = n ->
    is_Some (tree_of l node) -> is_Some (tree_of l other) -> pos node <= Z.of_nat fuel ->
    returns (climb fuel l rpo node (pos other)) (fun node' =>
      is_Some (tree_of l node') /\ pos node' <= pos other /\ pos node' <= pos node
      /\ (pos other < pos node -> pos node' < pos node)
      /\ forall x, joins (tree_of l) node' other x -> joins (tree_of l) node other x).
  Proof.
    intros HT Hl Hn Ho. revert node Hn. induction fuel as [|fuel IH]; intros node Hn Hf; cbn [climb];
      (eapply returns_bind; [apply (returns_at_index _ _ (fun x => x = pos node) (pos node));
        [apply position_lookup; by eapply known_attained|done]|intros ? ->]); destruct (Z.ltb_spec (pos other) (pos node)) as [Hlt|Hge].
    - pose proof (pos_nonneg other). lia.
    - apply returns_mret. split_and!; try done; lia.
    - eapply (returns_bind _ _ (fun _ => True)); [by apply returns_polled|intros _ _].
      assert (Hne : node <> entry).
      { intros ->. pose proof (known_attained _ _ _ _ _ HT Ho) as Hatt. destruct (decide (other = entry)) as [->|Hoe]; [lia|].
        pose proof (entry_first entry E pos pos_nonneg pos_up other Hatt Hoe). lia. }
      destruct Hn as [parent Hp]. destruct (parent_ok _ _ _ _ HT _ _ Hne Hp) as [Hk Hup].
      assert (Hlk : l !! node = Some (Some parent)) by (unfold tree_of in Hp; by destruct (l !! node) as [[]|]; simplify_eq/=).
      eapply returns_bind; [by apply (returns_at_index _ _ (fun x => x = Some parent) (Some parent))|intros ? ->].
      apply tc_up_pos in Hup as Hpp. simpl. eapply returns_mono; [apply IH; [done|lia]|].
      intros node' (H1 & H2 & H3 & H4 & H5). split_and!; [done|done|lia|lia|]. intros x Hx.
      eapply joins_climb; [apply pos_nonneg|apply pos_up|done..|]. by apply H5.
    - apply returns_mret. split_and!; try done; lia.
  Qed.

Lemma honest_intersect fuel a b l : honest (intersect_flow_dominators fuel a b l rpo).
  Proof.
    revert a b. induction fuel; intros a b; cbn [intersect_flow_dominators];
      (case_bool_decide; [by apply honest_mret|]); honest; apply honest_climb.
  Qed.

Lemma returns_intersect fuel l a b : tree_ok (tree_of l) -> length l = n ->
    is_Some (tree_of l a) -> is_Some (tree_of l b) -> pos a + pos b <= Z.of_nat fuel ->
    returns (intersect_flow_dominators fuel a b l rpo) (fun x => is_Some (tree_of l x) /\ joins (tree_of l) a b x).
  Proof.
    intros HT Hl. revert a b. induction fuel as [|fuel IH]; intros a b Ha Hb Hf; cbn [intersect_flow_dominators];
      pose proof (known_attained _ _ _ _ _ HT Ha) as Haa; pose proof (known_attained _ _ _ _ _ HT Hb) as Hab;
      (case_bool_decide as Hab'; [subst; apply returns_mret; split; [done|apply joins_refl]|]).
    - pose proof (pos_nonneg a). pose proof (pos_nonneg b). destruct Hab'. apply pos_inj; [done..|lia].
    - assert (Hne : pos a <> pos b) by (intros ?; by apply Hab', pos_inj).
      eapply (returns_bind _ _ (fun _ => True)); [by apply returns_polled|intros _ _].
      eapply returns_bind; [by apply (returns_at_index _ _ (fun x => x = pos b) (pos b)); [apply position_lookup|]|intros ? ->].
      eapply returns_bind; [apply returns_climb; [done..|rewrite Hlen; pose proof (position_below a Haa); lia]|].
      intros a' (Ha1 & Ha2 & Ha3 & Ha4 & Ha5). pose proof (known_attained _ _ _ _ _ HT Ha1) as Haa'.
      eapply returns_bind; [by apply (returns_at_index _ _ (fun x => x = pos a') (pos a')); [apply position_lookup|]|intros ? ->].
      eapply returns_bind; [apply returns_climb; [done..|rewrite Hlen; pose proof (position_below b Hab); lia]|].
      intros b' (Hb1 & Hb2 & Hb3 & Hb4 & Hb5).
      eapply returns_mono; [apply IH; [done..|lia]|]. intros x [Hk Hx]. split; [done|].
      apply Ha5, joins_sym, Hb5, joins_sym, Hx.
  Qed.

  (** ** The candidate of a block *)

Lemma honest_join l c p : honest (join_predecessor l rpo c p).
  Proof. unfold join_predecessor. honest. apply honest_intersect. Qed.
Lemma honest_dominate_block st b : honest (dominate_block preds rpo st b).
  Proof. destruct st as [l ch]. unfold dominate_block. honest. apply honest_fold. intros. apply honest_join. Qed.
Lemma honest_dominate fuel bs l : honest (dominate fuel preds rpo bs l).
  Proof.
    revert l. induction fuel; intros l; cbn [dominate]; honest. apply honest_fold. intros. apply honest_dominate_block.
  Qed.

  (** The closest common ancestor of the known ones among some nodes. *)
Definition joined (T : nat -> option nat) (ps : list nat) (c : option nat) : Prop :=
    match c with
    | None => forall p, p ∈ ps -> T p = None
    | Some c => is_Some (T c) /\ (forall p, p ∈ ps -> is_Some (T p) -> above T p c)
                /\ forall y, (forall p, p ∈ ps -> is_Some (T p) -> above T p y) -> above T c y
    end.

Lemma tree_of_lookup l b o : l !! b = Some o -> tree_of l b = o.
  Proof. unfold tree_of. by intros ->. Qed.

Lemma returns_join_row l row : tree_ok (tree_of l) -> length l = n -> Forall (fun p => (p < n)%nat) row ->
    returns (fold_of (join_predecessor l rpo) row None) (joined (tree_of l) row).
  Proof.
    intros HT Hl Hrow. rewrite Forall_forall in Hrow. apply (returns_fold _ (joined (tree_of l))); [by intros p ?%not_elem_of_nil|].
    intros past p rest c Hseq Hc. unfold join_predecessor.
    eapply (returns_bind _ _ (fun _ => True)); [by apply returns_polled|intros _ _].
    destruct (lookup_lt_is_Some_2 l p) as [known Hknown]; [rewrite Hl; apply Hrow; rewrite Hseq; set_solver|].
    eapply returns_bind; [by apply (returns_at_index _ _ (fun x => x = known) known)|intros ? ->].
    pose proof (tree_of_lookup _ _ _ Hknown) as Hp. destruct known as [parent|].
    - destruct c as [c|].
      + destruct Hc as (Hk & Ha & Hleast).
        eapply returns_bind; [apply returns_intersect; [done..|by rewrite Hp|]|].
        { pose proof (position_below c (known_attained _ _ _ _ _ HT Hk)).
          assert (Hkp : is_Some (tree_of l p)) by (by rewrite Hp). pose proof (position_below p (known_attained _ _ _ _ _ HT Hkp)).
          rewrite Hlen. lia. }
        intros x [Hkx (Hcx & Hpx & Hx)]. apply returns_mret. split_and!; [done|..].
        * intros q [Hq| ->%list_elem_of_singleton]%elem_of_app Hkq; [|done]. eapply above_trans; [by apply Ha|done].
        * intros y Hy. apply Hx; [apply Hleast; intros q Hq; apply Hy; apply elem_of_app; by left|].
          apply Hy; [apply elem_of_app; right; by apply list_elem_of_singleton|by rewrite Hp].
      + apply returns_mret. split_and!; [by rewrite Hp|..].
        * intros q [Hq%Hc| ->%list_elem_of_singleton]%elem_of_app [? Hkq]; [congruence|constructor].
        * intros y Hy. apply Hy; [apply elem_of_app; right; by apply list_elem_of_singleton|by rewrite Hp].
    - apply returns_mret. destruct c as [c|].
      + destruct Hc as (Hk & Ha & Hleast). split_and!; [done|..].
        * intros q [Hq| ->%list_elem_of_singleton]%elem_of_app Hkq; [by apply Ha|]. rewrite Hp in Hkq. by destruct Hkq.
        * intros y Hy. apply Hleast. intros q Hq. apply Hy, elem_of_app. by left.
      + intros q [Hq| ->%list_elem_of_singleton]%elem_of_app; [by apply Hc|done].
  Qed.

Lemma joined_candidate T b row c : (forall p, p ∈ row <-> E p b) -> (exists q, up q b /\ is_Some (T q)) ->
    joined T row (Some c) -> candidate T b c.
  Proof.
    intros Hrow Hup (_ & Ha & Hl). split; [|intros y Hy; apply Hl|done].
    - intros p Hp. apply Ha. by apply Hrow.
    - intros p Hp. apply Hy. by apply Hrow.
  Qed.

  (** ** One round *)

  (** The tree in the round after [j] others, before the node at position [m]. *)
Record progress (l : Dominators) (j : nat) (m : Z) : Prop := {
    p_length : length l = n;
    p_tree : tree_ok (tree_of l);
    p_covers : covers entry E (tree_of l);
    p_within : within entry E pos (tree_of l) j m;
    p_known b : attained b -> pos b < m \/ (0 < j)%nat -> is_Some (tree_of l b);
  }.

Lemma returns_dominate_block l j b changed : progress l j (pos b) -> attained b -> b <> entry ->
    returns (dominate_block preds rpo (l, changed) b) (fun st =>
      progress st.1 j (pos b + 1) /\ exists c, candidate (tree_of l) b c /\ tree_of st.1 b = Some c
        /\ ((st = (l, changed) /\ tree_of l b = Some c) \/ st.2 = true /\ tree_of l b <> Some c)).
  Proof.
    intros [H1 H2 H3 H4 H5] Hb Hne. unfold dominate_block.
    eapply (returns_bind _ _ (fun _ => True)); [by apply returns_polled|intros _ _].
    pose proof (attained_below b Hb) as Hbn. destruct Hpreds as [Hlp Hrows].
    destruct (lookup_lt_is_Some_2 preds b) as [row Hrow]; [lia|]. specialize (Hrows b row Hrow).
    eapply returns_bind; [by apply (returns_at_index _ _ (fun x => x = row) row)|intros ? ->].
    eapply returns_bind; [apply returns_join_row; [done..|]|].
    { apply Forall_forall. intros p Hp%Hrows. by apply (Hbelow p b). }
    assert (Hup : exists q, up q b /\ is_Some (tree_of l q)).
    { destruct (pos_up b Hb Hne) as (q & Hq). exists q. split; [done|]. apply H5; [apply Hq|left; apply Hq]. }
    intros [c|] Hc.
    - pose proof (joined_candidate _ _ _ _ Hrows Hup Hc) as Hcand.
      assert (Hmet : met entry E pos (S j) b c) by (eapply candidate_met; eauto using pos_nonneg, pos_inj, pos_up).
      assert (Hknown' : forall x (T' : nat -> option nat), (forall y, is_Some (tree_of l y) -> is_Some (T' y)) -> is_Some (T' b) ->
        attained x -> pos x < pos b + 1 \/ (0 < j)%nat -> is_Some (T' x)).
      { intros x T' HT' HTb Hx Hcase. destruct (decide (x = b)) as [->|Hxb]; [done|]. apply HT', H5; [done|].
        destruct Hcase as [Hlt|]; [left|by right]. destruct (decide (pos x = pos b)) as [Heq%pos_inj|]; [done..|lia]. }
      destruct (lookup_lt_is_Some_2 l b) as [current Hcur]; [lia|].
      eapply returns_bind; [by apply (returns_at_index _ _ (fun x => x = current) current)|intros ? ->].
      pose proof (tree_of_lookup _ _ _ Hcur) as Hcur'. case_bool_decide as Hdiff; apply returns_mret; cbn [fst snd].
      + assert (Hext : forall x, insert_parent (tree_of l) b c x = tree_of (<[b := Some c]> l) x) by (intros x; apply tree_of_insert; lia).
        split; [split|].
        * by rewrite length_insert.
        * eapply tree_ok_agree; [exact Hext|]. eapply insert_parent_ok; eauto using pos_nonneg, pos_inj, pos_up.
        * eapply covers_agree; [exact Hext|]. eapply insert_parent_covers; eauto using pos_nonneg, pos_inj, pos_up.
        * eapply within_agree; [exact Hext|]. eapply within_insert; eauto using pos_nonneg, pos_inj, pos_up.
        * intros x Hx Hcase. rewrite <- Hext. eapply Hknown'; [|..|done|done].
          -- intros y. apply insert_parent_known.
          -- rewrite insert_parent_eq. done.
        * exists c. split_and!; [done|by rewrite <- Hext, insert_parent_eq|]. right. split; [done|]. congruence.
      + split; [split|].
        * done.
        * done.
        * done.
        * eapply within_keep; eauto using pos_nonneg, pos_inj, pos_up. congruence.
        * intros x Hx Hcase. eapply Hknown'; [done| |done..]. rewrite Hcur', Hdiff. done.
        * exists c. split_and!; [done|congruence|]. left. split; [done|congruence].
    - exfalso. destruct Hup as (q & (_ & Hq & _) & Hk). rewrite (Hc q) in Hk; [by destruct Hk|]. by apply Hrows.
  Qed.

Lemma order_split : order = entry :: drop 1 order.
  Proof. pose proof (o_entry _ _ _ Hord) as H. destruct order as [|x l]; [done|]. by injection H as ->. Qed.

Lemma later_block b : b ∈ drop 1 order <-> attained b /\ b <> entry.
  Proof.
    assert (Hin : b ∈ order <-> b = entry \/ b ∈ drop 1 order) by (rewrite order_split at 1; apply elem_of_cons).
    assert (Hnd : NoDup (entry :: drop 1 order)) by (rewrite <- order_split; apply (o_nodup _ _ _ Hord)).
    apply NoDup_cons in Hnd as [Hn _]. rewrite <- (o_attained _ _ _ Hord), Hin. split; [|naive_solver].
    intros Hb. split; [by right|]. by intros ->.
  Qed.

Lemma attained_lt b : attained b -> pos b < Z.of_nat (S (length (drop 1 order))).
  Proof.
    intros (i & Hi & ->)%attained_position. apply lookup_lt_Some in Hi. rewrite order_split in Hi. simpl in Hi. lia.
  Qed.

  (** A round: it makes progress, and what it leaves alone was right. *)
Lemma returns_round l j : progress l j 1 ->
    returns (fold_of (dominate_block preds rpo) (drop 1 order) (l, false)) (fun st =>
      progress st.1 j (Z.of_nat (S (length (drop 1 order))))
      /\ (st.2 = false -> st.1 = l /\ forall b, b ∈ drop 1 order -> exists c, candidate (tree_of l) b c /\ tree_of l b = Some c)
      /\ (exact entry E (tree_of l) -> (forall b, attained b -> is_Some (tree_of l b)) -> st.2 = false)).
  Proof.
    intros Hp. apply (returns_fold _ (fun past st => progress st.1 j (Z.of_nat (S (length past)))
      /\ (st.2 = false -> st.1 = l /\ forall b, b ∈ past -> exists c, candidate (tree_of l) b c /\ tree_of l b = Some c)
      /\ (exact entry E (tree_of l) -> (forall b, attained b -> is_Some (tree_of l b)) -> st.2 = false))).
    - split_and!; [done| |done]. intros _. split; [done|]. by intros b ?%not_elem_of_nil.
    - intros past b rest [l' changed] Hseq (H1 & H2 & H3).
      assert (Hb : attained b /\ b <> entry) by (apply later_block; rewrite Hseq; set_solver). destruct Hb as [Hb Hne].
      assert (Hpos : Z.of_nat (S (length past)) = pos b).
      { destruct (attained_position b Hb) as (i & Hi & ->). f_equal.
        apply (NoDup_lookup order _ _ b (o_nodup _ _ _ Hord)); [|done].
        by rewrite order_split, Hseq, lookup_cons, list_lookup_middle. }
      cbn [fst snd] in *. rewrite Hpos in H1. eapply returns_mono; [by apply (returns_dominate_block _ _ _ changed H1)|].
      intros [l2 ch2] (H4 & c & Hc & Ht & Hcase). cbn [fst snd] in *. rewrite length_app, Nat.add_1_r. split_and!.
      + replace (Z.of_nat (S (S (length past)))) with (pos b + 1) by lia. done.
      + intros ->. destruct Hcase as [[[= -> <-] Hkeep]|[]]; [|done]. destruct (H2 eq_refl) as [-> Hpast]. split; [done|].
        intros x [Hx| ->%list_elem_of_singleton]%elem_of_app; [by apply Hpast|]. by exists c.
      + intros Hex Hall. specialize (H3 Hex Hall). subst changed. destruct (H2 eq_refl) as [-> _].
        destruct Hcase as [[[= _ <-] _]|[_ Hno]]; [done|]. destruct Hno.
        eapply exact_stable; eauto using pos_nonneg, pos_inj, pos_up, p_tree, p_covers.
  Qed.

  (** The tree when nothing changes any more. *)
Record dominator_tree (l : Dominators) : Prop := {
    d_length : length l = n;
    d_tree : tree_ok (tree_of l);
    d_above b d : attained b -> above (tree_of l) b d <-> dominates entry E d b;
    d_known b : attained b -> is_Some (tree_of l b);
  }.

Lemma returns_dominate fuel l j : (0 < fuel)%nat -> (S (S n) <= j + fuel)%nat -> progress l j 1 ->
    returns (dominate fuel preds rpo (drop 1 order) l) dominator_tree.
  Proof.
    revert l j. induction fuel as [|fuel IH]; intros l j Hpos Hf Hp; [lia|]. cbn [dominate].
    eapply returns_bind; [by apply returns_round|]. intros [l' changed] (H1 & H2 & H3). cbn [fst snd] in *. destruct changed.
    - assert (Hknown : forall b, attained b -> is_Some (tree_of l' b)).
      { intros b Hb. apply (p_known _ _ _ H1); [done|left; by apply attained_lt]. }
      assert (Hj : (j < S n)%nat).
      { destruct (decide (j < S n)%nat) as [|Hge]; [done|exfalso].
        assert (Hall : forall b, attained b -> is_Some (tree_of l b)) by (intros b Hb; apply (p_known _ _ _ Hp); [done|right; lia]).
        assert (Hex : exact entry E (tree_of l)); [|by pose proof (H3 Hex Hall)].
        apply (within_exact entry E pos _ n); [by apply Hp|by apply attained_below|].
        intros b a Hb Ha. eapply met_le; [|by apply (p_within _ _ _ Hp)]. unfold level. destruct (_ <? _); lia. }
      apply (IH _ (S j)); [lia|lia|]. destruct H1 as [H4 H5 H6 H7 H8]. split; try done.
      + eapply within_next; eauto using pos_nonneg, pos_inj, pos_up. intros b Hb. by apply attained_lt, (known_attained _ _ _ _ _ H5).
      + intros b Hb _. by apply Hknown.
    - destruct (H2 eq_refl) as [-> Hst]. apply returns_mret. destruct Hp as [H4 H5 H6 H7 H8].
      assert (Hall : forall b, attained b -> is_Some (tree_of l b)).
      { intros b Hb. destruct (decide (b = entry)) as [->|Hne]; [rewrite (root_ok _ _ _ _ H5); done|].
        destruct (Hst b) as (c & _ & ->); [by apply later_block|done]. }
      assert (Hex : exact entry E (tree_of l)).
      { eapply stable_exact; [done..|]. intros b c p Hb Hc He Hk.
        destruct (Hst b) as (c' & Hc' & Heq).
        - apply later_block. split; [|done]. apply (known_attained _ _ _ _ _ H5). by exists c.
        - assert (c' = c) as <- by congruence. by apply (candidate_above _ _ _ _ _ _ Hc'). }
      split; [done..| |done]. intros b d Hb. split; [apply Hex|]. intros Hd. apply H6; [by apply Hall|done].
  Qed.

Lemma progress_start : progress (<[entry := Some entry]> (replicate n None)) 0 1.
  Proof.
    assert (Hroot : tree_of (<[entry := Some entry]> (replicate n None)) entry = Some entry).
    { unfold tree_of. by rewrite list_lookup_insert_eq by (by rewrite length_replicate). }
    assert (Hother : forall b, b <> entry -> tree_of (<[entry := Some entry]> (replicate n None)) b = None).
    { intros b Hb. unfold tree_of. rewrite list_lookup_insert_ne by done.
      destruct (replicate n None !! b) as [o|] eqn:E0; [|done]. by apply lookup_replicate in E0 as [-> _]. }
    split.
    - by rewrite length_insert, length_replicate.
    - split; [done|]. intros b a Hb. by rewrite Hother.
    - intros b d Hk Hd. destruct (decide (b = entry)) as [->|Hne].
      + apply dominates_entry in Hd as ->. constructor.
      + rewrite Hother in Hk by done. by destruct Hk.
    - intros b a Hb. by rewrite Hother.
    - intros b Hb [Hlt|]; [|lia]. destruct (decide (b = entry)) as [->|Hne]; [by rewrite Hroot|].
      pose proof (entry_first entry E pos pos_nonneg pos_up b Hb Hne). pose proof (pos_nonneg entry). lia.
  Qed.

  (** ** Deciding dominance *)

Lemma honest_ascend fuel l d x : honest (ascend fuel l d x).
  Proof. revert x. induction fuel; intros x; cbn [ascend]; honest. Qed.

Lemma ascend_step l x : dominator_tree l -> attained x ->
    exists parent, mjoin (l !! x) = Some parent
      /\ ((x = entry /\ parent = x) \/ (x <> entry /\ parent <> x /\ attained parent /\ pos parent < pos x)).
  Proof.
    intros [H1 H2 H3 H4] Hx. destruct (H4 x Hx) as [parent Hp]. exists parent. split; [done|].
    destruct (decide (x = entry)) as [->|Hne].
    - left. pose proof (root_ok _ _ _ _ H2). split; [done|congruence].
    - right. destruct (parent_ok _ _ _ _ H2 _ _ Hne Hp) as [Hk Hup]. pose proof (tc_up_pos _ _ _ _ _ Hup).
      split_and!; [done|intros ->; lia|by destruct (tc_up_attained _ _ _ _ _ Hup)|done].
  Qed.

#[local] Hint Resolve honest_ascend honest_join honest_dominate_block honest_dominate : flow.

Lemma returns_ascend fuel l d x : dominator_tree l -> attained x -> pos x < Z.of_nat fuel ->
    returns (ascend fuel l d x) (fun _ => True).
  Proof.
    intros Hl. revert x. induction fuel as [|fuel IH]; intros x Hx Hf; [pose proof (pos_nonneg x); lia|]. cbn [ascend].
    eapply returns_bind; [apply returns_poll_context|intros going _]. destruct going; [|by apply returns_mret]. simpl.
    case_bool_decide; [by apply returns_mret|]. destruct (ascend_step l x Hl Hx) as (parent & -> & [[-> ->]|(H1 & H2 & H3 & H4)]).
    - rewrite bool_decide_eq_true_2 by done. by apply returns_mret.
    - rewrite bool_decide_eq_false_2 by done. apply IH; [done|lia].
  Qed.

Lemma accepts_ascend fuel l d x : dominator_tree l -> attained x ->
    accepts (ascend fuel l d x) (fun b => b = true <-> above (tree_of l) x d).
  Proof.
    intros Hl. revert x. induction fuel as [|fuel IH]; intros x Hx; cbn [ascend]; [apply accepts_faults|].
    eapply accepts_bind; [honest|apply accepts_poll_context|]. intros ? ->. simpl.
    case_bool_decide as Hxd; [apply accepts_mret; subst; split; [constructor|done]|].
    pose proof (d_tree _ Hl) as HT. destruct (ascend_step l x Hl Hx) as (parent & Hp & Hcase). rewrite Hp.
    destruct Hcase as [[-> ->]|(H1 & H2 & H3 & H4)].
    - rewrite bool_decide_eq_true_2 by done. apply accepts_mret. split; [done|]. intros H. by inversion H.
    - rewrite bool_decide_eq_false_2 by done. eapply accepts_mono; [by apply IH|]. intros r ->. split.
      + intros H. by eapply above_parent.
      + intros H. inversion H as [|? a ? _ Ha]; subst; [done|]. unfold tree_of in Ha. by simplify_eq.
  Qed.

  Context (l : Dominators) (marks : list bool) (Hl : dominator_tree l)
          (Hmarks : forall b, marks !! b = Some true <-> attained b).

Lemma marked b : default false (marks !! b) = true <-> attained b.
  Proof. rewrite <- Hmarks. destruct (marks !! b) as [[]|]; naive_solver. Qed.

Lemma returns_flow_block_dominates d b : returns (flow_block_dominates d b l marks) (fun _ => True).
  Proof.
    unfold flow_block_dominates. destruct (default false (marks !! d)) eqn:Hd; [|by apply returns_mret].
    destruct (default false (marks !! b)) eqn:Hb; [|by apply returns_mret]. cbn [negb orb]. apply marked in Hb.
    apply (returns_ascend (S (length l))); [done..|]. rewrite (d_length _ Hl). pose proof (position_below b Hb). lia.
  Qed.

Lemma accepts_flow_block_dominates d b :
    accepts (flow_block_dominates d b l marks) (fun r => r = true <-> attained b /\ dominates entry E d b).
  Proof.
    unfold flow_block_dominates. destruct (default false (marks !! b)) eqn:Hb.
    - apply marked in Hb. destruct (default false (marks !! d)) eqn:Hd; cbn [negb orb].
      + eapply accepts_mono; [by apply accepts_ascend|]. intros r ->. rewrite (d_above _ Hl) by done. naive_solver.
      + apply accepts_mret. split; [done|]. intros [(w & Hw) Hdom].
        destruct (walk_prefix _ _ _ _ _ Hw (Hdom _ Hw)) as (w' & Hw' & _). assert (Ha : attained d) by (by exists w').
        apply marked in Ha. congruence.
    - rewrite orb_true_r. apply accepts_mret. split; [done|]. intros [Ha _]. apply marked in Ha. congruence.
  Qed.
End rounds.

(** ** The whole computation *)

Lemma honest_report_unreachable f e : honest (report_unreachable f e).
Proof. unfold report_unreachable. honest. Qed.
#[export] Hint Resolve honest_report_unreachable honest_search honest_push_pending honest_dominate honest_ascend : flow.

Lemma honest_find_dominators f e : honest (find_dominators f e).
Proof.
  unfold find_dominators. honest; try (apply honest_fold; intros; auto with flow). 
Qed.
#[export] Hint Resolve honest_find_dominators : flow.

(** The tree and the marks that are found answer every question right. *)
Record solved (f : FlowFunction) (start : nat) (tree : Dominators) (marks : list bool) : Prop := {
  solved_marks b : marks !! b = Some true <-> attained start (edge f) b;
  solved_length : length marks = length (blocks f);
  solved_returns d b : returns (flow_block_dominates d b tree marks) (fun _ => True);
  solved_accepts d b : accepts (flow_block_dominates d b tree marks)
    (fun r => r = true <-> attained start (edge f) b /\ dominates start (edge f) d b);
}.

Definition agreeing (f : FlowFunction) : Prop :=
  Forall (fun b => parallel_agree (length (blocks f)) (flow_edges (terminator b))) (blocks f).

Section find.
  Context (f : FlowFunction) (start : nat) (Hstart : (start < length (blocks f))%nat).
  Notation n := (length (blocks f)).

  (** The computation behind the collection of the edges. *)
Definition solve (st : Adjacency * Adjacency) : validating (Dominators * list bool) :=
    let '(successors, predecessors) := st in
    predecessors ← fold_of sort_row (seq 0 n) predecessors;
    reachable ← filled n false;
    postorder ← scratch (Z.of_nat n);
    pending ← scratch 0;
    pending ← push_pending pending (start, false);
    '(reachable, postorder) ←
      search (S (n + sum_list_with length successors)) successors reachable postorder pending;
    _ ← each_of (enumerate reachable) (report_unreachable (function_id f));
    postorder ← reverse_scratch postorder;
    reverse_postorder ← filled n u64_max;
    reverse_postorder ← fold_of position_block (enumerate postorder) reverse_postorder;
    immediate_dominator ← filled n None;
    _ ← at_index immediate_dominator start;
    tree ← dominate (S (S n)) predecessors reverse_postorder (drop 1 postorder)
             (<[start := Some start]> immediate_dominator);
    mret (tree, reachable).

Lemma find_dominators_solve : find_dominators f start =
    (successors ← filled n [];
     predecessors ← filled n [];
     fold_of (record_block f) (enumerate (blocks f)) (successors, predecessors) ≫= solve).
  Proof. done. Qed.

Lemma honest_solve st : honest (solve st).
  Proof. destruct st. unfold solve. honest. Qed.
#[local] Hint Resolve honest_solve : flow.

  (** The tree in an order that was found. *)
Lemma returns_solve_order predecessors R post :
    adjacent n predecessors (fun b a => edge f a b) -> found n start (edge f) R post ->
    returns (postorder ← reverse_scratch post;
             reverse_postorder ← filled n u64_max;
             reverse_postorder ← fold_of position_block (enumerate postorder) reverse_postorder;
             immediate_dominator ← filled n None;
             _ ← at_index immediate_dominator start;
             tree ← dominate (S (S n)) predecessors reverse_postorder (drop 1 postorder)
                      (<[start := Some start]> immediate_dominator);
             mret (tree, R)) (fun r => solved f start r.1 r.2).
  Proof.
    intros Hp Hf. pose proof (found_ordered _ _ _ _ _ Hf) as Hord.
    eapply returns_bind; [apply returns_reverse_scratch|intros order ->]. set (order := reverse post) in *.
    assert (Hbelow : Forall (fun b => (b < n)%nat) order).
    { apply Forall_forall. intros b (l & Hl)%(o_attained _ _ _ Hord). inversion Hl as [|p ? l' _ He]; subst; [done|].
      by apply edge_below in He as [_ ?]. }
    eapply returns_bind; [apply (returns_filled _ _ (fun ps => ps = replicate n u64_max)); done|intros ? ->].
    eapply returns_bind; [apply returns_positions; [by apply (o_nodup _ _ _ Hord)|done]|intros rpo (Hlen & Hrpo & Hnn)].
    eapply returns_bind; [apply (returns_filled _ _ (fun l => l = replicate n None)); done|intros ? ->].
    eapply returns_bind; [by apply (returns_at_index _ _ (fun _ => True) None); [rewrite lookup_replicate_2|]|intros _ _].
    assert (Hstep : progress n start (edge f) rpo (<[start := Some start]> (replicate n None)) 0 1)
      by (eapply progress_start; eauto using edge_below).
    eapply returns_bind; [eapply returns_dominate with (j := 0%nat); eauto using edge_below; lia|].
    intros tree Ht. apply returns_mret. cbn [fst snd].
    assert (Hmarks : forall b, R !! b = Some true <-> attained start (edge f) b) by apply Hf. split.
    - done.
    - apply Hf.
    - intros d b. eapply (returns_flow_block_dominates n start (edge f)); eauto using edge_below.
    - intros d b. eapply (accepts_flow_block_dominates n start (edge f)); eauto using edge_below.
  Qed.

Lemma returns_find_dominators : returns (find_dominators f start) (fun r => solved f start r.1 r.2).
  Proof.
    rewrite find_dominators_solve.
    eapply returns_bind; [apply (returns_filled _ _ (fun l => l = replicate n [])); done|intros ? ->].
    eapply returns_bind; [apply (returns_filled _ _ (fun l => l = replicate n [])); done|intros ? ->].
    eapply returns_bind; [apply returns_record_blocks|intros [successors predecessors] [Hs Hp]]. unfold solve.
    eapply returns_bind; [by apply returns_sort_rows|]. intros predecessors' Hp'.
    eapply returns_bind; [apply (returns_filled _ _ (fun l => l = replicate n false)); done|intros ? ->].
    eapply returns_bind; [apply (returns_scratch _ (fun l => l = [])); done|intros ? ->].
    eapply returns_bind; [apply (returns_scratch _ (fun l => l = [])); done|intros ? ->].
    eapply returns_bind; [apply (returns_push_pending _ _ (fun l => l = [(start, false)])); done|intros ? ->].
    eapply returns_bind; [apply (returns_search n start successors (edge f)); [done|done| |by apply searching_start|]|].
    - intros a b He. by apply edge_below in He as [_ ?].
    - destruct Hs as [Hl _]. cbn [fst] in Hl. rewrite <- Hl at 1. rewrite unmarked_start, Hl. simpl. lia.
    - intros [R post] Hf%searching_found. cbn [fst snd] in Hf.
      eapply (returns_bind _ _ (fun _ => True)); [|intros _ _; by apply returns_solve_order].
      apply returns_each; [|done]. intros [b mark] _. unfold report_unreachable. cbn [fst snd].
      eapply (returns_bind _ _ (fun _ => True)); [by apply returns_polled|intros _ _].
      destruct mark; [by apply returns_mret|]. destruct (_ <? _); [|by apply returns_push].
      eapply (returns_bind _ _ (fun _ => True)); [by apply returns_limits|intros; apply returns_exhausted].
  Qed.

  (** What an accepted function has. *)
Lemma accepts_find_dominators :
    accepts (find_dominators f start) (fun r => solved f start r.1 r.2
      /\ (forall b, (b < n)%nat -> attained start (edge f) b) /\ agreeing f).
  Proof.
    apply accepts_and; [apply accepts_returns, returns_find_dominators|]. rewrite find_dominators_solve.
    eapply accepts_bind; [honest|apply accepts_returns, (returns_filled _ _ (fun l => l = replicate n [])); done|intros ? ->].
    eapply accepts_bind; [honest|apply accepts_returns, (returns_filled _ _ (fun l => l = replicate n [])); done|intros ? ->].
    eapply accepts_bind; [honest|apply accepts_and; [apply accepts_returns, returns_record_blocks|apply accepts_record_blocks]|].
    intros [successors predecessors] [[Hs Hp] Hag]. eapply (accepts_mono _ (fun _ => forall b, (b < n)%nat -> attained start (edge f) b)); [|done].
    unfold solve.
    eapply accepts_bind; [honest|apply accepts_any|intros ps _].
    eapply accepts_bind; [honest|apply accepts_returns, (returns_filled _ _ (fun l => l = replicate n false)); done|intros ? ->].
    eapply accepts_bind; [honest|apply accepts_returns, (returns_scratch _ (fun l => l = [])); done|intros ? ->].
    eapply accepts_bind; [honest|apply accepts_returns, (returns_scratch _ (fun l => l = [])); done|intros ? ->].
    eapply accepts_bind; [honest|apply accepts_returns, (returns_push_pending _ _ (fun l => l = [(start, false)])); done|intros ? ->].
    eapply accepts_bind; [honest|apply accepts_returns, (returns_search n start successors (edge f)); [done|done| |by apply searching_start|]|].
    - intros a b He. by apply edge_below in He as [_ ?].
    - destruct Hs as [Hl _]. cbn [fst] in Hl. rewrite <- Hl at 1. rewrite unmarked_start, Hl. simpl. lia.
    - intros [R post] Hf%searching_found. cbn [fst snd] in Hf.
      eapply (accepts_bind _ _ (fun _ => Forall (fun e => e.2 = true) (enumerate R))); [honest| |].
      + apply accepts_each; [intros; apply honest_report_unreachable|]. intros [b mark] _. unfold report_unreachable. cbn [fst snd].
        eapply accepts_bind; [honest|apply accepts_any|intros _ _]. destruct mark; [by apply accepts_mret|].
        destruct (_ <? _); [|apply accepts_push]. eapply accepts_bind; [honest|apply accepts_any|]. intros ? _ c a c' H. done.
      + intros ? Hall. repeat (eapply accepts_bind; [honest|apply accepts_any|intros ? _]). apply accepts_mret. intros b Hb.
        apply (f_marks _ _ _ _ _ Hf). rewrite <- (f_length _ _ _ _ _ Hf) in Hb.
        destruct (lookup_lt_is_Some_2 R b Hb) as [mark Hmark]. rewrite Hmark. f_equal.
        apply elem_enumerate in Hmark. rewrite Forall_forall in Hall. by specialize (Hall _ Hmark).
  Qed.
End find.

(** C3: the dominator tree is exact. When the computation returns, whatever its
    environment, the marked blocks are those reachable from the entry, and a walk
    up the tree answers that one block dominates another just when it does, that
    is when the second is reachable and the first is on every path to it. *)
Theorem find_dominators_exact f start c tree marks c1 : (start < length (blocks f))%nat ->
  may_return (find_dominators f start c) (Some (tree, marks), c1) ->
  (forall b, marks !! b = Some true <-> attained start (edge f) b)
  /\ forall d b c2 answer c3, may_return (flow_block_dominates d b tree marks c2) (Some answer, c3) -> clean c3 ->
       (answer = true <-> attained start (edge f) b /\ dominates start (edge f) d b).
Proof.
  intros Hstart Hr. destruct (returns_find_dominators f start Hstart c) as [_ H]. apply H in Hr as [Hm _ _ Ha].
  split; [exact Hm|]. intros d b c2 answer c3 Hw Hc. exact (Ha d b c2 answer c3 Hw Hc).
Qed.
