(* ===== verification/FlowUses.v ===== *)
(** What [validate_control_flow_and_ssa] of [src/crates/wrela-flow-wir/src/lib.rs]
    accepts: functions whose blocks are all reachable, whose values are only
    used where their definition dominates, and whose terminators are typed. *)

From stdpp Require Import base numbers list option sorting relations.
From S2P Require Import Prelude Order Interrupt FlowWir Optimizer FlowOperands FlowModule FlowContext FlowSsa FlowAccept Dominators FlowTree FlowSearch FlowDominance.

#[local] Open Scope Z_scope.

(** ** Definition sites *)

Definition defined_at (f : FlowFunction) (s : ValueDefinitionSite) (v : ValueId) : Prop :=
  match s with
  | FunctionParameter => v ∈ parameters f
  | BlockParameter b => exists blk, blocks f !! b = Some blk /\ v ∈ block_parameters blk
  | InstructionSite b i => exists blk ins, blocks f !! b = Some blk /\ instructions blk !! i = Some ins /\ v ∈ results ins
  end.

(** The sites hold the definitions in [D] of the values below [n]. *)
Record holds (n : nat) (D : ValueDefinitionSite -> ValueId -> Prop) (S : Sites) : Prop := {
  holds_length : length S = n;
  holds_sound v s : mjoin (S !! N.to_nat v) = Some s -> D s v;
  holds_complete v s : D s v -> (N.to_nat v < n)%nat -> is_Some (mjoin (S !! N.to_nat v));
}.

Lemma holds_iff n D D' S : holds n D S -> (forall s v, D s v <-> D' s v) -> holds n D' S.
Proof. intros [H1 H2 H3] HD. split; [done|..]; intros v s; rewrite <- HD; [apply H2|apply H3]. Qed.

Lemma honest_define_each site S v : honest (define_each site S v).
Proof. unfold define_each. honest. Qed.
#[export] Hint Resolve honest_define_each : flow.
Lemma honest_define_instruction b S e : honest (define_instruction b S e).
Proof. unfold define_instruction. honest. Qed.
#[export] Hint Resolve honest_define_instruction : flow.
Lemma honest_define_block S e : honest (define_block S e).
Proof. unfold define_block. honest. Qed.
#[export] Hint Resolve honest_define_block : flow.
Lemma honest_find_sites f : honest (find_sites f).
Proof. unfold find_sites. honest. Qed.
#[export] Hint Resolve honest_find_sites : flow.

Lemma holds_record n D S site v : holds n D S ->
  holds n (fun s x => D s x \/ s = site /\ x = v) (record_flow_definition site S v).
Proof.
  intros [H1 H2 H3]. unfold record_flow_definition. destruct (S !! N.to_nat v) as [[s0|]|] eqn:E.
  - split; [done|intros x s Hx; left; by apply H2|]. intros x s [Hx|[-> ->]] Hlt; [by eapply H3|]. by rewrite E.
  - assert (Hlt : (N.to_nat v < length S)%nat) by (by eapply lookup_lt_Some). split.
    + by rewrite length_insert.
    + intros x s Hx. destruct (decide (x = v)) as [->|Hne].
      * rewrite list_lookup_insert_eq in Hx by done. simpl in Hx. right. split; [congruence|done].
      * rewrite list_lookup_insert_ne in Hx by lia. left. by apply H2.
    + intros x s Hx Hn. destruct (decide (x = v)) as [->|Hne]; [by rewrite list_lookup_insert_eq|].
      rewrite list_lookup_insert_ne by lia. destruct Hx as [Hx|[_ ?]]; [by eapply H3|done].
  - apply lookup_ge_None in E. split; [done|intros x s Hx; left; by apply H2|].
    intros x s [Hx|[-> ->]] Hlt; [by eapply H3|lia].
Qed.

Lemma returns_define_each n D S site vs : holds n D S ->
  returns (fold_of (define_each site) vs S) (holds n (fun s x => D s x \/ s = site /\ x ∈ vs)).
Proof.
  intros HS. apply (returns_fold _ (fun past S => holds n (fun s x => D s x \/ s = site /\ x ∈ past) S)).
  - eapply holds_iff; [done|]. intros s v. set_solver.
  - intros past v rest S' _ HS'. unfold define_each.
    eapply (returns_bind _ _ (fun _ => True)); [by apply returns_polled|intros _ _]. apply returns_mret.
    eapply holds_iff; [by apply holds_record|]. intros s x. cbv beta. set_solver.
Qed.

Lemma returns_define_block f n D S b blk : blocks f !! b = Some blk -> holds n D S ->
  returns (define_block S (b, blk)) (holds n (fun s v => D s v
    \/ (s = BlockParameter b /\ v ∈ block_parameters blk)
    \/ exists i ins, s = InstructionSite b i /\ instructions blk !! i = Some ins /\ v ∈ results ins)).
Proof.
  intros Hb HS. unfold define_block. cbn [fst snd].
  eapply (returns_bind _ _ (fun _ => True)); [by apply returns_polled|intros _ _].
  eapply returns_bind; [by apply returns_define_each|intros S' HS'].
  eapply returns_mono; [apply (returns_fold _ (fun past S => holds n (fun s v =>
    (D s v \/ s = BlockParameter b /\ v ∈ block_parameters blk)
    \/ exists i ins, s = InstructionSite b i /\ (i, ins) ∈ past /\ v ∈ results ins) S))|].
  - eapply holds_iff; [done|]. intros s v. cbv beta. split; [by left|]. intros [?|(i & ins & _ & ?%not_elem_of_nil & _)]; done.
  - intros past [i ins] rest S2 _ HS2. unfold define_instruction. cbn [fst snd].
    eapply (returns_bind _ _ (fun _ => True)); [by apply returns_polled|intros _ _].
    eapply returns_mono; [by apply returns_define_each|]. intros S3 HS3. eapply holds_iff; [done|].
    intros s v. cbv beta. setoid_rewrite elem_of_app. setoid_rewrite list_elem_of_singleton. naive_solver.
  - intros S2 HS2. eapply holds_iff; [done|]. intros s v. cbv beta. setoid_rewrite elem_enumerate. naive_solver.
Qed.

Lemma returns_find_sites f : returns (find_sites f) (holds (length (values f)) (defined_at f)).
Proof.
  unfold find_sites. set (n := length (values f)).
  eapply returns_bind; [apply (returns_filled _ _ (fun S => S = replicate n None)); done|intros ? ->].
  eapply returns_bind; [apply (returns_define_each n (fun _ _ => False))|intros S HS].
  { split; [by rewrite length_replicate| |done]. intros v s. destruct (replicate n None !! N.to_nat v) as [o|] eqn:E; [|done].
    by apply lookup_replicate in E as [-> _]. }
  eapply returns_mono; [apply (returns_fold _ (fun past S => holds n (fun s v =>
    (s = FunctionParameter /\ v ∈ parameters f)
    \/ exists b blk, (b, blk) ∈ past /\ ((s = BlockParameter b /\ v ∈ block_parameters blk)
      \/ exists i ins, s = InstructionSite b i /\ instructions blk !! i = Some ins /\ v ∈ results ins)) S))|].
  - eapply holds_iff; [done|]. intros s v. cbv beta. split; [intros [[]|?]; by left|].
    intros [?|(b & blk & ?%not_elem_of_nil & _)]; [by right|done].
  - intros past [b blk] rest S2 Hseq HS2.
    assert (Hb : blocks f !! b = Some blk) by (apply elem_enumerate; rewrite Hseq; set_solver).
    eapply returns_mono; [by eapply returns_define_block|]. intros S3 HS3. eapply holds_iff; [done|].
    intros s v. cbv beta. split.
    + intros [[Hp|(c & blk' & Hc & H)]|H]; [by left| |right].
      * right. exists c, blk'. split; [set_solver|done].
      * exists b, blk. split; [set_solver|done].
    + intros [Hp|(c & blk' & [Hc|[= -> ->]%list_elem_of_singleton]%elem_of_app & H)]; [by left; left| |by right].
      left; right. by exists c, blk'.
  - intros S2 HS2. eapply holds_iff; [done|]. intros s v. cbv beta. split.
    + intros [[-> ?]|(b & blk & Hb%elem_enumerate & [[-> ?]|(i & ins & -> & ? & ?)])]; simpl; eauto 10.
    + destruct s as [|b|b i]; simpl; [by left|intros (blk & Hb & ?)|intros (blk & ins & Hb & ? & ?)]; right;
        exists b, blk; (split; [by apply elem_enumerate|]); eauto 10.
Qed.

(** ** Uses *)

(** The use of a value at an instruction of a block, or at its end, is
    dominated by a definition at [s]. *)
Definition reached_from (f : FlowFunction) (start : nat) (s : ValueDefinitionSite) (b : nat) (i : option nat) : Prop :=
  match s with
  | FunctionParameter => True
  | BlockParameter d => attained start (edge f) b /\ dominates start (edge f) d b
  | InstructionSite d j =>
      if decide (d = b) then match i with Some i => (j < i)%nat | None => True end
      else attained start (edge f) b /\ dominates start (edge f) d b
  end.

Section uses.
  Context (f : FlowFunction) (start : nat) (flow : Flow).
  Context (Hsolved : solved f start (tree flow) (marks flow)).

Lemma honest_dominates d b l m : honest (flow_block_dominates d b l m).
  Proof. unfold flow_block_dominates. honest. Qed.
#[local] Hint Resolve honest_dominates : flow.
Lemma honest_value_dominance b i v : honest (validate_flow_value_dominance f flow b i v).
  Proof. unfold validate_flow_value_dominance. honest. Qed.

  (** The point of a use exists. *)
Definition point (b : nat) (i : option nat) : Prop :=
    exists blk, blocks f !! b = Some blk /\ forall k, i = Some k -> is_Some (instructions blk !! k).

Lemma returns_value_dominance b i v : point b i -> returns (validate_flow_value_dominance f flow b i v) (fun _ => True).
  Proof.
    intros (blk & Hb & Hi). unfold validate_flow_value_dominance. destruct (mjoin _) as [s|]; [|by apply returns_mret].
    eapply (returns_bind _ _ (fun _ => True)).
    - destruct s as [|d|d j]; [by apply returns_mret|apply Hsolved|]. case_bool_decide; [by apply returns_mret|apply Hsolved].
    - intros valid _. destruct valid; [by apply returns_mret|].
      eapply (returns_bind _ _ (fun _ => True)); [|intros; by apply returns_push].
      destruct i as [k|]; [|by apply returns_mret]. destruct (Hi k eq_refl) as [ins Hins].
      eapply returns_bind; [by apply (returns_at_index _ _ (fun x => x = blk) blk)|intros ? ->].
      eapply returns_bind; [by apply (returns_at_index _ _ (fun _ => True) ins)|intros ? _]. by apply returns_mret.
  Qed.

Lemma accepts_value_dominance b i v s : mjoin (sites flow !! N.to_nat v) = Some s ->
    accepts (validate_flow_value_dominance f flow b i v) (fun _ => reached_from f start s b i).
  Proof.
    intros Hs. unfold validate_flow_value_dominance. rewrite Hs.
    eapply (accepts_bind _ _ (fun valid => valid = true <-> reached_from f start s b i)); [honest| |].
    - destruct s as [|d|d j]; simpl.
      + by apply accepts_mret.
      + apply Hsolved.
      + destruct (decide (d = b)) as [->|Hne].
        * rewrite bool_decide_eq_true_2 by done. apply accepts_mret. destruct i; [|done]. apply Nat.ltb_lt.
        * rewrite bool_decide_eq_false_2 by done. apply Hsolved.
    - intros valid Hvalid. destruct valid; [apply accepts_mret; by apply Hvalid|].
      eapply accepts_bind; [honest|apply accepts_any|intros ? _]. apply accepts_push.
  Qed.
End uses.
#[export] Hint Resolve honest_value_dominance : flow.

(** ** Types at a terminator *)

(** The bits of the value a switch selects by. *)
Definition bits_of (module : FlowWir) (f : FlowFunction) (v : ValueId) : option Z :=
  ty ← value_type f v; type_at module ty ≫= switch_bits.
Definition delivered (module : FlowWir) (f : FlowFunction) (v : ValueId) : option TypeId :=
  ty ← value_type f v; type_at module ty ≫= delivered_by.

Definition terminator_typed (module : FlowWir) (f : FlowFunction) (t : Terminator ValueId) : Prop :=
  match t with
  | Branch condition _ _ _ _ => kind <$> (value_type f condition ≫= type_at module) = Some (KScalar TBool)
  | Switch value cases _ _ =>
      NoDup (map case_value cases)
      /\ Forall (fun c => out_of_range (bits_of module f value) (case_value c) = false) cases
  | Return vs => omap (value_type f) vs = result_types f
  | TailCall callee _ =>
      forall target, functions module !! N.to_nat callee = Some target -> result_types target = result_types f
  | Suspend _ activation resume =>
      is_Some (delivered module f activation)
      /\ delivered module f activation = blocks f !! N.to_nat resume ≫= only_parameter_type f
  | Jump _ _ | Trap _ _ | Unreachable => True
  end.

Section switch.
  Context (module : FlowWir) (f : FlowFunction) (b : Block) (cases : list (SwitchCase ValueId)).

Definition seen_cases : list (Z * nat) := map (fun entry => (case_value entry.2, entry.1)) (enumerate cases).

Lemma seen_case x : x ∈ seen_cases <-> exists c, cases !! x.2 = Some c /\ case_value c = x.1.
  Proof.
    unfold seen_cases. split.
    - intros ([i c] & -> & H%elem_enumerate)%list_elem_of_fmap_1. by exists c.
    - destruct x as [v i]. cbn [fst snd]. intros (c & Hc & Hv). subst v.
      apply (list_elem_of_fmap_2 (fun entry : nat * SwitchCase ValueId => (case_value entry.2, entry.1)) _ (i, c)), elem_enumerate, Hc.
  Qed.

Lemma returns_seen : returns (fold_of (fun seen entry => scratch_push seen (case_value entry.2, entry.1)) (enumerate cases) [])
    (fun seen => seen = seen_cases).
  Proof.
    eapply returns_mono; [apply (returns_fold _ (fun past seen => seen = map (fun entry => (case_value entry.2, entry.1)) past))|].
    - done.
    - intros past x rest s _ ->. apply returns_scratch_push. intros _. by rewrite map_app.
    - done.
  Qed.

Lemma returns_sort_cases : returns (sort_scratch_by (pair_cmp Z.compare Nat.compare) seen_cases)
    (fun ys => ys ≡ₚ seen_cases /\ StronglySorted (fun a b => Z.compare a.1 b.1 <> Gt) ys).
  Proof.
    eapply returns_mono; [apply (returns_sort_key (fun x => x) (pair_cmp Z.compare Nat.compare))|]. intros ys [Hp Hs].
    split; [done|]. clear Hp. induction Hs as [|x l _ IH Hx]; constructor; [done|]. eapply Forall_impl; [exact Hx|].
    intros y. unfold pair_cmp, then_cmp. by destruct (x.1 ?= y.1).
  Qed.

  (** The later one of two neighbours with one value is marked. *)
Definition repeats_marked (past : list ((Z * nat) * (Z * nat))) (marks : list bool) : Prop :=
    length marks = length cases /\ Forall (fun p => p.1.1 = p.2.1 -> marks !! p.2.2 = Some true) past.

Lemma returns_mark_duplicates pairs : Forall (fun p => (p.2.2 < length cases)%nat) pairs ->
    returns (fold_of mark_duplicate pairs (replicate (length cases) false)) (repeats_marked pairs).
  Proof.
    intros Hp. apply (returns_fold _ repeats_marked); [split; [by rewrite length_replicate|constructor]|].
    intros past [[v i] [v' i']] rest c -> [Hl Hm]. unfold mark_duplicate.
    apply Forall_app in Hp as [_ [Hi _]%Forall_cons]. simpl in Hi.
    eapply (returns_bind _ _ (fun _ => True)); [by apply returns_polled|intros _ _].
    destruct (Z.eqb_spec v v') as [->|Hne].
    - destruct (lookup_lt_is_Some_2 c i') as [x Hx]; [lia|].
      eapply returns_bind; [by apply (returns_at_index _ _ (fun _ => True) x)|intros ? _]. apply returns_mret.
      split; [by rewrite length_insert|]. apply Forall_app. split; [|repeat constructor; simpl; by rewrite list_lookup_insert_eq by lia].
      eapply Forall_impl; [exact Hm|]. intros p Hmark H1. specialize (Hmark H1).
      destruct (decide (i' = p.2.2)) as [->|]; [by rewrite list_lookup_insert_eq by lia|by rewrite list_lookup_insert_ne].
    - apply returns_mret. split; [done|]. apply Forall_app. split; [done|]. by repeat constructor.
  Qed.

Lemma seen_below seen p : seen ≡ₚ seen_cases -> p ∈ windows2 seen -> (p.2.2 < length cases)%nat.
  Proof.
    destruct p as [x y]. intros Hp [_ Hy]%windows2_elem. rewrite Hp, seen_case in Hy. destruct Hy as (c & Hc & _).
    by apply lookup_lt_Some in Hc.
  Qed.

Lemma unmarked_distinct seen marks :
    seen ≡ₚ seen_cases -> StronglySorted (fun a b => Z.compare a.1 b.1 <> Gt) seen ->
    repeats_marked (windows2 seen) marks -> Forall (fun entry : nat * SwitchCase ValueId => marks !! entry.1 = Some false) (enumerate cases) ->
    NoDup (map case_value cases).
  Proof.
    intros Hp Hs [_ Hm] Hf. rewrite Forall_forall in Hm. rewrite Forall_forall in Hf. apply NoDup_alt. intros i j v Hi Hj.
    rewrite list_lookup_fmap_Some in Hi, Hj. destruct Hi as (c & Hv & Hi), Hj as (c' & Hv' & Hj).
    enough (Forall (fun p => p.1.1 = p.2.1 -> p.1.2 = p.2.2) (windows2 seen)) as Hagree.
    { by apply (sorted_agree fst snd Z.compare seen Hs Hagree (v, i) (v, j)); [rewrite Hp; apply seen_case; by eexists..|]. }
    apply Forall_forall. intros [x y] Hxy Hk. exfalso. specialize (Hm _ Hxy Hk). simpl in Hm.
    apply windows2_elem in Hxy as [_ Hy]. rewrite Hp, seen_case in Hy. destruct Hy as (d & Hd & _).
    specialize (Hf (y.2, d)). rewrite elem_enumerate in Hf. specialize (Hf Hd). simpl in Hf. congruence.
  Qed.
End switch.

Lemma honest_mark_duplicate c p : honest (mark_duplicate c p).
Proof. unfold mark_duplicate. honest. Qed.
Lemma honest_check_case f b bits d e : honest (check_case f b bits d e).
Proof. unfold check_case. honest. Qed.
#[export] Hint Resolve honest_mark_duplicate honest_check_case : flow.
Lemma honest_terminator_types module f b : honest (validate_flow_terminator_types module f b).
Proof. unfold validate_flow_terminator_types. honest. Qed.
#[export] Hint Resolve honest_terminator_types : flow.

Section types.
  Context (module : FlowWir) (f : FlowFunction) (b : Block).

Lemma returns_terminator_types : returns (validate_flow_terminator_types module f b) (fun _ => True).
  Proof.
    unfold validate_flow_terminator_types. destruct (terminator b) as [| |v cases d das| |vs| | |];
      repeat case_match; try (by apply returns_mret); try (by apply returns_push).
    eapply returns_bind; [apply (returns_scratch _ (fun l => l = [])); done|intros ? ->].
    eapply returns_bind; [apply returns_seen|intros ? ->].
    eapply returns_bind; [apply returns_sort_cases|intros seen [Hp _]].
    eapply returns_bind; [apply (returns_filled _ _ (fun l => l = replicate (length cases) false)); done|intros ? ->].
    eapply returns_bind; [apply returns_mark_duplicates, Forall_forall; intros p; by apply seen_below|intros marks [Hl _]].
    apply returns_each; [|done]. intros [i c] Hi%elem_enumerate. unfold check_case.
    eapply (returns_bind _ _ (fun _ => True)); [by apply returns_polled|intros _ _].
    apply lookup_lt_Some in Hi. destruct (lookup_lt_is_Some_2 marks i) as [x Hx]; [lia|].
    eapply returns_bind; [by apply (returns_at_index _ _ (fun _ => True) x)|intros [] _];
      (eapply (returns_bind _ _ (fun _ => True)); [first [by apply returns_push|by apply returns_mret]|intros _ _]);
      (destruct (out_of_range _ _); [by apply returns_push|by apply returns_mret]).
  Qed.

Lemma accepts_terminator_types : accepts (validate_flow_terminator_types module f b)
    (fun _ => terminator_typed module f (terminator b)).
  Proof.
    unfold validate_flow_terminator_types. destruct (terminator b) as [|c|v cases d das|vs|s a r|callee args| |]; simpl;
      try (by apply accepts_mret).
    - destruct (value_type f c ≫= type_at module) as [ty|]; [|apply accepts_push]. simpl.
      case_bool_decide as Hk; [|apply accepts_push]. apply accepts_mret. by rewrite Hk.
    - eapply accepts_bind; [honest|apply accepts_returns, (returns_scratch _ (fun l => l = [])); done|intros ? ->].
      eapply accepts_bind; [honest|apply accepts_returns, returns_seen|intros ? ->].
      eapply accepts_bind; [honest|apply accepts_returns, returns_sort_cases|intros seen [Hp Hs]].
      eapply accepts_bind; [honest|apply accepts_returns, (returns_filled _ _ (fun l => l = replicate (length cases) false)); done|intros ? ->].
      eapply accepts_bind; [honest|apply accepts_returns, returns_mark_duplicates, Forall_forall; intros p; by apply seen_below|intros marks Hm].
      eapply accepts_mono; [apply (accepts_each _ _ (fun e => marks !! e.1 = Some false /\ out_of_range (bits_of module f v) (case_value e.2) = false))|].
      + intros e. honest.
      + intros [i c] _. unfold check_case. simpl.
        eapply accepts_bind; [honest|apply accepts_any|intros _ _]. eapply accepts_bind; [honest|apply accepts_at_index|intros x Hx].
        eapply (accepts_bind _ _ (fun _ => x = false)); [honest|destruct x; [apply accepts_push|by apply accepts_mret]|intros ? ->].
        destruct (out_of_range _ _) eqn:E; [apply accepts_push|by apply accepts_mret].
      + intros ? [H1 H2]%Forall_and. split; [by eapply unmarked_distinct|]. rewrite Forall_forall in H2. apply Forall_forall.
        intros c Hc. apply list_elem_of_lookup in Hc as [i Hc]. apply elem_enumerate in Hc. by apply (H2 (i, c)).
    - case_bool_decide; [by apply accepts_mret|apply accepts_push].
    - fold (delivered module f a). case_bool_decide as H1; [apply accepts_push|]. case_bool_decide as H2; [|apply accepts_push].
      apply accepts_mret. split; [by destruct (delivered module f a)|done].
    - destruct (functions module !! N.to_nat callee) as [target|]; [|by apply accepts_mret].
      case_bool_decide; [|apply accepts_push]. apply accepts_mret. by intros ? [= <-].
  Qed.
End types.

(** ** One block *)

Definition used_in (b : Block) (v : ValueId) (i : option nat) : Prop :=
  match i with
  | Some i => exists ins, instructions b !! i = Some ins /\ v ∈ flow_operation_values (operation ins)
  | None => v ∈ flow_terminator_values (terminator b)
  end.

(** Every use of a value that is defined is dominated by its definition. *)
Definition uses_dominated (f : FlowFunction) (start : nat) (S : Sites) : Prop :=
  forall n b v i s, blocks f !! n = Some b -> used_in b v i -> mjoin (S !! N.to_nat v) = Some s ->
    reached_from f start s n i.

Section block.
  Context (module : FlowWir) (f : FlowFunction) (start : nat) (flow : Flow).
  Context (Hsolved : solved f start (tree flow) (marks flow)).

Lemma honest_validate_uses e : honest (validate_uses module f flow e).
  Proof. destruct e. unfold validate_uses. honest. Qed.

Lemma returns_validate_uses n b : blocks f !! n = Some b -> returns (validate_uses module f flow (n, b)) (fun _ => True).
  Proof.
    intros Hb. unfold validate_uses. eapply (returns_bind _ _ (fun _ => True)); [by apply returns_polled|intros _ _].
    eapply (returns_bind _ _ (fun _ => True)).
    { apply returns_each; [|done]. intros [i ins] Hi%elem_enumerate.
      eapply (returns_bind _ _ (fun _ => True)); [by apply returns_polled|intros _ _].
      apply returns_each; [|done]. intros v _. apply returns_value_dominance with start; [done|]. exists b. split; [done|]. by intros ? [= <-]. }
    intros _ _. eapply (returns_bind _ _ (fun _ => True)).
    { apply returns_each; [|done]. intros v _. apply returns_value_dominance with start; [done|]. by exists b. }
    intros _ _. apply returns_calling; [apply returns_terminator_types|done].
  Qed.

Lemma accepts_validate_uses n b : blocks f !! n = Some b -> accepts (validate_uses module f flow (n, b)) (fun _ =>
    (forall v i s, used_in b v i -> mjoin (sites flow !! N.to_nat v) = Some s -> reached_from f start s n i)
    /\ terminator_typed module f (terminator b)).
  Proof.
    intros Hb. unfold validate_uses. eapply (accepts_bind _ _ (fun _ => True)); [honest|apply accepts_any|intros ? _].
    eapply (accepts_bind _ _ (fun _ => Forall (fun e => Forall (fun v => forall s, mjoin (sites flow !! N.to_nat v) = Some s ->
      reached_from f start s n (Some e.1)) (flow_operation_values (operation e.2))) (enumerate (instructions b)))); [honest| |intros ? H1].
    { apply accepts_each; [intros []; honest|]. intros [i ins] _.
      eapply accepts_bind; [honest|apply accepts_any|intros _ _]. apply accepts_each; [honest|].
      intros v _. destruct (mjoin (sites flow !! N.to_nat v)) as [s|] eqn:E; [|by intros ????].
      eapply accepts_mono; [by eapply accepts_value_dominance|]. simpl. congruence. }
    eapply (accepts_bind _ _ (fun _ => Forall (fun v => forall s, mjoin (sites flow !! N.to_nat v) = Some s ->
      reached_from f start s n None) (flow_terminator_values (terminator b)))); [honest| |intros ? H2].
    { apply accepts_each; [honest|]. intros v _. destruct (mjoin (sites flow !! N.to_nat v)) as [s|] eqn:E; [|by intros ????].
      eapply accepts_mono; [by eapply accepts_value_dominance|]. simpl. congruence. }
    apply accepts_calling; [honest|]. eapply accepts_mono; [apply accepts_terminator_types|]. intros ? Ht. split; [|done].
    rewrite Forall_forall in H1. rewrite Forall_forall in H2. intros v [i|] s Hu Hs; [|by eapply H2].
    destruct Hu as (ins & Hi & Hv). specialize (H1 (i, ins)). rewrite elem_enumerate in H1. specialize (H1 Hi).
    rewrite Forall_forall in H1. by eapply H1.
  Qed.
End block.
#[export] Hint Resolve honest_validate_uses : flow.

(** ** The whole check *)

Lemma honest_validate_ssa module f : honest (validate_control_flow_and_ssa module f).
Proof. unfold validate_control_flow_and_ssa. honest. Qed.

(** The check of control flow and single assignment returns: whatever the
    function and the environment, it never indexes out of bounds and each of its
    loops ends within the turns the model gives it. *)
Lemma validate_ssa_total module f : returns (validate_control_flow_and_ssa module f) (fun _ => True).
Proof.
  unfold validate_control_flow_and_ssa, index_below. destruct (Nat.ltb_spec (N.to_nat (entry f)) (length (blocks f))) as [Hlt|]; [|by apply returns_mret].
  eapply returns_bind; [by apply returns_find_dominators|intros [t m] Hsolved]. cbn [fst snd] in Hsolved.
  eapply returns_bind; [apply returns_find_sites|intros S _]. apply returns_each; [|done].
  intros [n b] Hn%elem_enumerate. by eapply returns_validate_uses.
Qed.

(** What an accepted function satisfies. *)
Record ssa_valid (module : FlowWir) (f : FlowFunction) : Prop := {
  valid_reachable b : (b < length (blocks f))%nat -> attained (N.to_nat (entry f)) (edge f) b;
  valid_parallel : agreeing f;
  valid_uses n b v i : blocks f !! n = Some b -> used_in b v i -> (N.to_nat v < length (values f))%nat ->
    (exists s, defined_at f s v) -> exists s, defined_at f s v /\ reached_from f (N.to_nat (entry f)) s n i;
  valid_terminators : Forall (fun b => terminator_typed module f (terminator b)) (blocks f);
}.

(** A function whose entry is one of its blocks passes the check without an
    error only if every block is reachable from the entry, edges that lead to one
    block from one terminator agree on their arguments, every use of a value is
    dominated by a definition of it (in the same block: preceded), and every
    terminator is typed: conditions are Booleans, the cases of a switch are
    distinct and fit the value, returned, tail-called and delivered types match. *)
Theorem validate_ssa_accepts module f : (N.to_nat (entry f) < length (blocks f))%nat ->
  accepts (validate_control_flow_and_ssa module f) (fun _ => ssa_valid module f).
Proof.
  intros Hlt. unfold validate_control_flow_and_ssa, index_below. destruct (Nat.ltb_spec (N.to_nat (entry f)) (length (blocks f))); [|lia].
  eapply accepts_bind; [intros []; honest|by apply accepts_find_dominators|intros [t m] (Hsolved & Hreach & Hag)].
  cbn [fst snd] in *. eapply accepts_bind; [honest|apply accepts_returns, returns_find_sites|intros S HS].
  eapply accepts_mono; [apply (accepts_each _ _ (fun e : nat * Block =>
    (forall v i s, used_in e.2 v i -> mjoin (S !! N.to_nat v) = Some s -> reached_from f (N.to_nat (entry f)) s e.1 i)
    /\ terminator_typed module f (terminator e.2))); [honest|]|].
  - intros [n b] Hn%elem_enumerate. by apply (accepts_validate_uses module f _ {| sites := S; tree := t; marks := m |}).
  - intros ? Hall. cbv beta in Hall. rewrite Forall_forall in Hall. split; [done|done| |].
    + intros n b v i Hb Hu Hv [s Hs]. destruct HS as [_ H1 H2]. destruct (H2 _ _ Hs Hv) as [s' Hs'].
      exists s'. split; [by apply H1|]. destruct (Hall (n, b)) as [Huse _]; [by apply elem_enumerate|]. by eapply Huse.
    + apply Forall_forall. intros b Hb. apply list_elem_of_lookup in Hb as [n Hn].
      by destruct (Hall (n, b)) as [_ ?]; [apply elem_enumerate|].
Qed.
