(* ===== verification/FlowChecks.v ===== *)
(** What [src/crates/wrela-flow-wir/src/lib.rs] checks of the references of a
    function: dense identities, definitions, types, edges, calls and the
    operands of terminators. *)

From Stdlib Require Import Strings.Byte.
From stdpp Require Import base numbers list option strings.
From S2P Require Import Prelude Bytes Text BuildModel Source Interrupt FlowWir Optimizer FlowOperands FlowModule FlowContext FlowSsa.

#[local] Open Scope Z_scope.

(** ** Identities *)

Definition require_id (kind : string) (id : N) (length : nat) : validating unit :=
  calling (_ ← polled;
           if (length <=? N.to_nat id)%nat then push_error (UnknownReference kind (Z.of_N id)) else mret tt).

Definition check_dense (kind : string) (ids : list N) : validating unit :=
  calling (each_of (enumerate ids) (fun '(expected, actual) =>
    _ ← polled;
    if bool_decide (N.to_nat actual <> expected)
    then push_error (NonDenseId kind (Z.of_nat expected) (Z.of_N actual)) else mret tt)).

Definition canonical_step (st : option N * bool) (id : N) : validating (option N * bool) :=
  _ ← polled;
  mret (Some id, st.2 && match st.1 with None => true | Some prior => (prior <? id)%N end).
Definition require_canonical_ids (kind : string) (owner : N) (ids : list N) : validating unit :=
  calling ('(_, canonical) ← fold_of canonical_step ids (None, true);
           if negb canonical then push_error (NonCanonicalReferences kind (Z.of_N owner)) else mret tt).

(** The counts of definitions are [u8]s. *)
Definition define_value (function : FunctionId) (definitions : list Z) (value : ValueId) : validating (list Z) :=
  match definitions !! N.to_nat value with
  | None => _ ← push_error (UnknownValue function value); mret definitions
  | Some count => mret (<[N.to_nat value := saturating_add 8 count 1]> definitions)
  end.

Definition valid_source_span (module : FlowWir) (span : Span) : bool :=
  (file_id (file span) <? hir_files (source_summary module)) && (start_ (range span) <=? end_ (range span)).
(** [source.is_some_and(|span| !valid_source_span(module, span))]. *)
Definition bad_source (module : FlowWir) (source : option Span) : bool :=
  match source with Some span => negb (valid_source_span module span) | None => false end.

(** [slice::binary_search] of the standard library, which halves the slice
    without comparing for equality until one element is left. *)
Fixpoint binary_search_from (fuel : nat) (xs : list N) (x : N) (base size : nat) : nat :=
  match fuel with
  | O => base
  | S fuel =>
      if (size <=? 1)%nat then base else
      let half := (size / 2)%nat in
      let mid := (base + half)%nat in
      let base := match xs !! mid with
                  | Some y => if (x <? y)%N then base else mid
                  | None => base
                  end in
      binary_search_from fuel xs x base (size - half)
  end.
Definition binary_search_is_ok (xs : list N) (x : N) : bool :=
  bool_decide (xs !! binary_search_from (length xs) xs x 0 (length xs) = Some x).

(** ** Values and their types *)

(** The type record of a value. *)
Definition record_of (module : FlowWir) (f : FlowFunction) (v : ValueId) : option FlowType :=
  value_type f v ≫= type_at module.
Definition record_is (module : FlowWir) (ty : TypeId) (p : FlowType -> bool) : bool :=
  match type_at module ty with Some record => p record | None => false end.
Definition value_record_is (module : FlowWir) (f : FlowFunction) (v : ValueId) (p : FlowType -> bool) : bool :=
  match record_of module f v with Some record => p record | None => false end.
Definition value_has_type (f : FlowFunction) (v : ValueId) (ty : TypeId) : bool :=
  bool_decide (value_type f v = Some ty).
(** [matches!(results, [result] if ..)]. *)
Definition only_result (i : Instruction) (p : ValueId -> bool) : bool :=
  match results i with [result] => p result | _ => false end.

Definition plain (record : FlowType) : bool := copyable record && negb (strict_linear record).
Definition kind_is (k : FlowTypeKind) (record : FlowType) : bool := bool_decide (kind record = k).
Definition u64_type : FlowTypeKind := KScalar (TInteger false 64).
Definition named (name : str) (record : FlowType) : bool := bool_decide (type_name record = Some name).

(** The scalars an enum may carry. *)
Definition payload_scalar (k : FlowTypeKind) : bool :=
  match k with
  | KScalar (TBool | TFloat32 | TFloat64) => true
  | KScalar (TInteger _ bits) => bool_decide (bits ∈ [8; 16; 32; 64; 128])
  | _ => false
  end.

Definition is_activation (k : FlowTypeKind) : bool := match k with KActivation _ => true | _ => false end.
Definition is_activation_value (module : FlowWir) (f : FlowFunction) (v : ValueId) : bool :=
  value_record_is module f v (fun record => is_activation (kind record)).

Definition activation_result_matches_function (module : FlowWir) (activation_result : TypeId) (callee : FlowFunction) : bool :=
  match result_types callee with
  | [] => record_is module activation_result (fun ty => kind_is KUnit ty)
  | [result] => bool_decide (result = activation_result)
  | _ => false
  end.

(** ** Enum profiles *)

Definition join_payload (payload : option TypeId) (variant : list TypeId) : option (option TypeId) :=
  match variant with
  | [] => Some payload
  | [candidate] =>
      if match payload with None => true | Some payload => bool_decide (payload = candidate) end
      then Some (Some candidate) else None
  | _ => None
  end.
Fixpoint join_payloads (payload : option TypeId) (variants : list (list TypeId)) : option (option TypeId) :=
  match variants with
  | [] => Some payload
  | variant :: variants => payload ← join_payload payload variant; join_payloads payload variants
  end.
Definition plain_scalar (module : FlowWir) (ty : TypeId) : bool :=
  record_is module ty (fun record => plain record && payload_scalar (kind record)).
Definition canonical_enum_payload (module : FlowWir) (variants : list (list TypeId)) : option TypeId :=
  if bool_decide (variants = []) || (256 <? len variants) then None else
  payload ← mjoin (join_payloads None variants);
  if plain_scalar module payload then Some payload else None.

Definition named_scalar (module : FlowWir) (ty : TypeId) : bool :=
  record_is module ty (fun record => bool_decide (type_id record = ty) && plain record && payload_scalar (kind record)).
Definition is_u64_record (module : FlowWir) (ty : TypeId) : bool :=
  record_is module ty (fun record => bool_decide (type_id record = ty) && plain record && kind_is u64_type record).

Definition exact_cause (module : FlowWir) (ty : TypeId) (name : str) : bool :=
  record_is module ty (fun record => bool_decide (type_id record = ty) && plain record && named name record && kind_is (KStruct []) record).
Definition exact_async_exit_enum_profile (module : FlowWir) (variants : list (list TypeId)) : bool :=
  match variants with
  | [[operation]; [cancelled]; [deadline_rejected]; [deadline_exceeded]] =>
      is_u64_record module operation
      && negb (bool_decide (cancelled = deadline_rejected)) && negb (bool_decide (cancelled = deadline_exceeded))
      && negb (bool_decide (deadline_rejected = deadline_exceeded))
      && exact_cause module cancelled (ascii "Cancelled")
      && exact_cause module deadline_rejected (ascii "DeadlineRejected")
      && exact_cause module deadline_exceeded (ascii "DeadlineExceeded")
  | _ => false
  end.

Definition exact_async_outcome_enum_profile (module : FlowWir) (variants : list (list TypeId)) : bool :=
  match variants with
  | [[ok]; [exit]] =>
      is_u64_record module ok
      && record_is module exit (fun record =>
           bool_decide (type_id record = exit) && named (ascii "AsyncExit") record
           && match kind record with KEnum variants => exact_async_exit_enum_profile module variants | _ => false end)
  | _ => false
  end.

Definition exact_heterogeneous_scalar_enum_profile (module : FlowWir) (variants : list (list TypeId)) : bool :=
  match variants with
  | [[left_]; [right_]] => negb (bool_decide (left_ = right_)) && named_scalar module left_ && named_scalar module right_
  | _ => false
  end.

Definition flat_nominal_enum_payload (module : FlowWir) (ty : TypeId) : bool :=
  record_is module ty (fun record =>
    bool_decide (type_id record = ty) && bool_decide (is_Some (type_name record)) && plain record
    && match kind record with
       | KStruct fields => negb (bool_decide (fields = [])) && forallb (plain_scalar module) fields
       | _ => false
       end).

Definition exact_fixed_flat_enum_profile (module : FlowWir) (variants : list (list TypeId)) : bool :=
  match variants with
  | [[left_]; [right_]] =>
      if bool_decide (left_ = right_) then false else
      (flat_nominal_enum_payload module left_ && named_scalar module right_)
      || (named_scalar module left_ && flat_nominal_enum_payload module right_)
  | _ => false
  end.

Definition canonical_enum_shape (module : FlowWir) (variants : list (list TypeId)) : bool :=
  negb (bool_decide (variants = [])) && (len variants <=? 256)
  && (forallb (fun variant => bool_decide (variant = [])) variants
      || bool_decide (is_Some (canonical_enum_payload module variants))
      || exact_fixed_flat_enum_profile module variants
      || exact_heterogeneous_scalar_enum_profile module variants
      || exact_async_exit_enum_profile module variants
      || exact_async_outcome_enum_profile module variants).

(** ** Types *)

Definition canonical_static_bytes_name (name : option str) (bytes : Z) : bool :=
  match name ← name; name ← strip_prefix name (ascii "Static[Bytes["); strip_suffix name (ascii "]]") with
  | None => false
  | Some extent =>
      negb (bool_decide (extent = [])) && (bool_decide (extent = ascii "0") || negb (starts_with extent (ascii "0")))
      && forallb is_ascii_digit extent && bool_decide (parse_digits 64 0 extent = Some bytes)
  end.

Definition canonical_text (ty : FlowType) : bool :=
  match kind ty with
  | KScalar TCharacter | KStaticString _ => plain ty
  | KBoundedString capacity => (0 <? capacity) && negb (copyable ty) && negb (strict_linear ty)
  | _ => true
  end.

Definition push_if (bad : bool) (e : ValidationError) : validating unit := if bad then push_error e else mret tt.
Definition invalid_record (kind : string) (id : N) : ValidationError := InvalidRecord kind (Z.of_N id).

Definition use_type (module : FlowWir) (id : TypeId) : validating unit :=
  require_id "type reference" id (length (types module)).

Definition validate_type (module : FlowWir) (ty : FlowType) : validating unit :=
  _ ← match kind ty with
      | KTuple types | KStruct types => each_of types (use_type module)
      | KArray element _ | KActivation element => use_type module element
      | KEnum variants =>
          _ ← each_of (concat variants) (use_type module);
          push_if (negb (plain ty && canonical_enum_shape module variants
              && (negb (exact_async_exit_enum_profile module variants) || named (ascii "AsyncExit") ty)
              && (negb (exact_async_outcome_enum_profile module variants) || named (ascii "Result") ty)))
            (invalid_record "closed enum type" (type_id ty))
      | KFunction parameters result => _ ← each_of parameters (use_type module); use_type module result
      | KRegionHandle id => require_id "region type" id (length (regions module))
      | KPoolHandle id => require_id "pool type" id (length (pools module))
      | KActorHandle id => require_id "actor type" id (length (actors module))
      | KTaskHandle id => require_id "task type" id (length (tasks module))
      | KReceipt payload error => _ ← use_type module payload; use_type module error
      | KDmaToken pool payload => _ ← require_id "DMA pool type" pool (length (pools module)); use_type module payload
      | KUnit | KScalar _ | KStaticString _ | KStaticBytes _ | KBoundedString _ | KReservation | KOpaqueTarget _ => mret tt
      end;
  let linear := copyable ty || negb (strict_linear ty) in
  _ ← push_if (is_activation (kind ty) && linear) (invalid_record "activation type" (type_id ty));
  _ ← push_if (kind_is KReservation ty && linear) (invalid_record "actor reservation type" (type_id ty));
  _ ← push_if (negb (canonical_text ty)) (invalid_record "bounded text type" (type_id ty));
  push_if match kind ty with
          | KStaticBytes bytes => negb (plain ty) || negb (canonical_static_bytes_name (type_name ty) bytes)
          | _ => false
          end (invalid_record "static bytes type" (type_id ty)).

(** ** Calls, edges and terminators *)

(** An argument and the parameter it is for; [None] when a value is unknown. *)
Definition types_differ (argument parameter : option TypeId) : bool :=
  match argument, parameter with Some a, Some p => negb (bool_decide (a = p)) | _, _ => false end.

Definition validate_call_arguments (module : FlowWir) (caller : FlowFunction) (callee : FunctionId) (arguments : list ValueId)
    : validating unit :=
  match functions module !! N.to_nat callee with
  | None => mret tt
  | Some callee =>
      if negb (length arguments =? length (parameters callee))%nat
      then push_error (CallArity (function_id caller) (function_id callee) (len (parameters callee)) (len arguments))
      else each_of (zip arguments (parameters callee)) (fun '(argument, parameter) =>
        push_if (types_differ (value_type caller argument) (value_type callee parameter))
          (CallTypeMismatch (function_id caller) (function_id callee)))
  end.

Definition validate_edge (f : FlowFunction) (target : BlockId) (arguments : list ValueId) : validating unit :=
  match blocks f !! N.to_nat target with
  | None => mret tt
  | Some block =>
      if negb (length arguments =? length (block_parameters block))%nat
      then push_error (EdgeArity (function_id f) target (len (block_parameters block)) (len arguments))
      else each_of (zip arguments (block_parameters block)) (fun '(argument, parameter) =>
        push_if (types_differ (value_type f argument) (value_type f parameter)) (EdgeTypeMismatch (function_id f) target))
  end.

Definition terminator_value (f : FlowFunction) (id : ValueId) : validating unit :=
  require_id "terminator value" id (length (values f)).
Definition terminator_block (f : FlowFunction) (id : BlockId) : validating unit :=
  require_id "terminator block" id (length (blocks f)).

Definition callee_is_async (module : FlowWir) (callee : FunctionId) : bool :=
  match functions module !! N.to_nat callee with
  | Some callee => match color callee with ColorAsync => true | _ => false end
  | None => false
  end.

Definition validate_terminator (module : FlowWir) (f : FlowFunction) (t : Terminator ValueId) : validating unit :=
  match t with
  | Jump target arguments =>
      _ ← terminator_block f target;
      _ ← each_of arguments (terminator_value f);
      validate_edge f target arguments
  | Branch condition then_block then_arguments else_block else_arguments =>
      _ ← terminator_value f condition;
      _ ← terminator_block f then_block;
      _ ← terminator_block f else_block;
      _ ← each_of (then_arguments ++ else_arguments) (terminator_value f);
      _ ← validate_edge f then_block then_arguments;
      validate_edge f else_block else_arguments
  | Switch switched cases default default_arguments =>
      _ ← terminator_value f switched;
      _ ← terminator_block f default;
      _ ← each_of default_arguments (terminator_value f);
      _ ← validate_edge f default default_arguments;
      each_of cases (fun case =>
        _ ← terminator_block f (case_target case);
        _ ← each_of (case_arguments case) (terminator_value f);
        validate_edge f (case_target case) (case_arguments case))
  | Return values =>
      _ ← each_of values (terminator_value f);
      push_if (negb (length values =? length (result_types f))%nat)
        (ReturnArity (function_id f) (len (result_types f)) (len values))
  | Suspend _ activation resume =>
      _ ← terminator_block f resume;
      _ ← terminator_value f activation;
      push_if match color f with ColorAsync => false | _ => true end
        (invalid_record "suspend in non-async function" (function_id f))
  | TailCall callee arguments =>
      _ ← require_id "tail callee" callee (length (functions module));
      _ ← each_of arguments (terminator_value f);
      _ ← validate_call_arguments module f callee arguments;
      push_if (callee_is_async module callee) (invalid_record "tail call to async function" (function_id f))
  | Trap _ detail => each_of (option_list detail) (terminator_value f)
  | Unreachable => mret tt
  end.
