(* ===== verification/FlowValidate.v ===== *)
(** What [src/crates/wrela-flow-wir/src/lib.rs] checks of one function: its
    operations, the delivery of its activations, and the checks of
    [validate_module] that go through its record, values and blocks. *)

From Stdlib Require Import Strings.Byte.
From stdpp Require Import base numbers list option strings.
From S2P Require Import Prelude Bytes Text BuildModel Source Order Interrupt FlowWir Optimizer FlowOperands FlowModule FlowContext FlowSsa FlowChecks.

#[local] Open Scope Z_scope.

(** ** Bounded text *)

(** [u128::ilog10]. *)
Fixpoint ilog10 (fuel : nat) (value : Z) : Z :=
  match fuel with
  | O => 0
  | S fuel => if value <? 10 then 0 else 1 + ilog10 fuel (value / 10)
  end.
Definition decimal_digits (value : Z) : Z := if value =? 0 then 1 else ilog10 39 value + 1.

Definition integer_maximum_bytes (signed : bool) (bits : Z) : option Z :=
  if negb (bool_decide (bits ∈ [8; 16; 32; 64; 128])) then None
  else if signed then checked_add 64 (decimal_digits (Z.shiftl 1 (bits - 1))) 1
  else Some (decimal_digits (if bits =? 128 then 2 ^ 128 - 1 else Z.shiftl 1 bits - 1)).

Definition ordered_range (source : Span) : bool := start_ (range source) <=? end_ (range source).

(** The bytes a part may take, when it is valid. *)
Definition part_bytes (module : FlowWir) (f : FlowFunction) (part : BoundedStringPart ValueId) : Z * bool :=
  match part with
  | PartText value source => (len value, ordered_range source)
  | PartBool value source => (5, ordered_range source && value_record_is module f value (kind_is (KScalar TBool)))
  | PartCharacter value source => (4, ordered_range source && value_record_is module f value (kind_is (KScalar TCharacter)))
  | PartInteger value maximum_bytes source =>
      let expected := record ← record_of module f value;
                      match kind record with KScalar (TInteger signed bits) => integer_maximum_bytes signed bits | _ => None end in
      (maximum_bytes, ordered_range source && bool_decide (expected = Some maximum_bytes))
  | PartStaticString value bytes source =>
      (bytes, ordered_range source && value_record_is module f value (fun record => kind_is (KStaticString bytes) record && plain record))
  end.

Fixpoint total_bytes (module : FlowWir) (f : FlowFunction) (total : Z) (parts : list (BoundedStringPart ValueId)) : option Z :=
  match parts with
  | [] => Some total
  | part :: parts =>
      let '(bytes, valid) := part_bytes module f part in
      if negb valid then None else total ← checked_add 64 total bytes; total_bytes module f total parts
  end.

Definition validate_bounded_string_operation (module : FlowWir) (f : FlowFunction) (i : Instruction) (ty : TypeId)
    (parts : list (BoundedStringPart ValueId)) : bool :=
  match record ← type_at module ty;
        match kind record with
        | KBoundedString capacity => if negb (copyable record) && negb (strict_linear record) then Some capacity else None
        | _ => None
        end with
  | None => false
  | Some capacity =>
      only_result i (fun result => value_has_type f result ty)
      && match total_bytes module f 0 parts with
         | None => false
         | Some total => negb (bool_decide (parts = [])) && (total =? capacity)
         end
  end.

(** ** Operations *)

Definition ASSERTION_EXPRESSION_BYTES_MAX : Z := 4096.

Definition validate_immediate (module : FlowWir) (immediate : Immediate) : validating unit :=
  match immediate with
  | ImmZero ty => require_id "immediate type" ty (length (types module))
  | ImmGlobalAddress id => require_id "immediate global" id (length (globals module))
  | ImmFunctionAddress id => require_id "immediate function" id (length (functions module))
  | ImmUnit | ImmBool _ | ImmCharacter _ | ImmInteger _ _ | ImmFloat32 _ | ImmFloat64 _ | ImmBytes _ => mret tt
  end.

Definition exact_text_or_character (module : FlowWir) (f : FlowFunction) (i : Instruction) (immediate : Immediate) : bool :=
  match immediate with
  | ImmBytes bytes =>
      match results i with
      | [result] =>
          match values f !! N.to_nat result with
          | Some value =>
              match type_at module (value_ty value) with
              | None => true
              | Some record =>
                  match kind record with
                  | KStaticString extent => extent =? len bytes
                  | KStaticBytes extent =>
                      (extent =? len bytes) && bool_decide (is_Some (instruction_source i))
                      && bool_decide (value_source value = instruction_source i)
                  | _ => true
                  end
              end
          | None => true
          end
      | _ => true
      end
  | ImmCharacter _ => only_result i (fun result => value_record_is module f result (kind_is (KScalar TCharacter)))
  | _ => true
  end.

Definition proof_is (module : FlowWir) (id : ProofId) (p : Proof_ -> bool) : bool :=
  match proofs module !! N.to_nat id with Some proof => p proof | None => false end.
Definition is_image_state (actor : ActorId) (actor_plan : ActorPlan) (region_plan : RegionPlan) : bool :=
  bool_decide (region_owner region_plan = OwnerActor actor) && bool_decide (region_class region_plan = RegionImage)
  && (capacity_bytes region_plan =? 8) && (region_alignment region_plan =? 8)
  && bool_decide (strip_suffix (region_name region_plan) (ascii ".state") = Some (actor_name actor_plan)).
Definition actor_state_is (module : FlowWir) (actor : ActorId) (region : RegionId) (p : RegionPlan -> bool) : bool :=
  match actors module !! N.to_nat actor, regions module !! N.to_nat region with
  | Some actor_plan, Some region_plan => is_image_state actor actor_plan region_plan && p region_plan
  | _, _ => false
  end.

Definition valid_actor_state_address (module : FlowWir) (f : FlowFunction) (i : Instruction)
    (actor : ActorId) (region : RegionId) (capacity : ProofId) : bool :=
  bool_decide (role f = RoleActorTurn actor)
  && actor_state_is module actor region (fun region_plan =>
       bool_decide (region_capacity_proof region_plan = capacity)
       && proof_is module capacity (fun proof =>
            bool_decide (proof_kind proof = CapacityBound) && bool_decide (bound proof = Some 1)
            && bool_decide (proof_sources proof = [region_source region_plan]) && bool_decide (depends_on proof = [])))
  && only_result i (fun result => value_record_is module f result (kind_is (KScalar TAddress))).

Definition valid_make_enum (module : FlowWir) (f : FlowFunction) (i : Instruction) (ty : TypeId) (variant : Z) (payload : option ValueId) : bool :=
  record_is module ty (fun record =>
    match kind record with
    | KEnum variants =>
        match variants !! Z.to_nat variant, payload with
        | Some [], None => true
        | Some [expected], Some payload => value_has_type f payload expected
        | _, _ => false
        end
    | _ => false
    end && only_result i (fun result => value_has_type f result ty)).

Definition valid_enum_tag (module : FlowWir) (f : FlowFunction) (i : Instruction) (value : ValueId) : bool :=
  value_record_is module f value (fun record => match kind record with KEnum variants => canonical_enum_shape module variants | _ => false end)
  && only_result i (fun result => value_record_is module f result (kind_is (KScalar (TInteger false 8)))).

Definition enum_payload_type (module : FlowWir) (f : FlowFunction) (value : ValueId) (variant : option Z) : option TypeId :=
  record ← record_of module f value;
  match kind record with
  | KEnum variants =>
      match variant with
      | None => canonical_enum_payload module variants
      | Some variant =>
          if exact_heterogeneous_scalar_enum_profile module variants || exact_fixed_flat_enum_profile module variants
             || exact_async_exit_enum_profile module variants || exact_async_outcome_enum_profile module variants
          then variants !! Z.to_nat variant ≫= head else None
      end
  | _ => None
  end.
Definition valid_enum_payload (module : FlowWir) (f : FlowFunction) (i : Instruction) (value : ValueId) (variant : option Z) : bool :=
  match enum_payload_type module f value variant with
  | Some expected => only_result i (fun result => value_has_type f result expected)
  | None => false
  end.

Definition array_proof (length : Z) (capacity : ProofId) (proof : Proof_) : bool :=
  bool_decide (proof_id proof = capacity) && bool_decide (proof_kind proof = CapacityBound)
  && bool_decide ((proof_subject proof, len (proof_sources proof)) ∈
       [(ascii "inline fixed-array iteration", 1); (ascii "inline fixed-array pattern match", 1); (ascii "stored fixed-array iteration", 2)])
  && bool_decide (bound proof = Some length) && bool_decide (depends_on proof = []).
Definition valid_extract_index (module : FlowWir) (f : FlowFunction) (i : Instruction) (aggregate index : ValueId) (capacity : ProofId) : bool :=
  value_record_is module f aggregate (fun record =>
    match kind record with
    | KArray element length =>
        (0 <? length)
        && value_record_is module f index (kind_is u64_type)
        && proof_is module capacity (array_proof length capacity)
        && binary_search_is_ok (function_proofs f) capacity
        && only_result i (fun result => value_has_type f result element)
    | _ => false
    end).

Definition valid_insert_field (module : FlowWir) (f : FlowFunction) (i : Instruction) (aggregate : ValueId) (field : Z) (inserted : ValueId) : bool :=
  match ty ← value_type f aggregate;
        record ← type_at module ty;
        field_ty ← match kind record with KStruct fields => fields !! Z.to_nat field | _ => None end;
        Some (ty, field_ty) with
  | Some (aggregate_ty, field_ty) =>
      value_has_type f inserted field_ty && only_result i (fun result => value_has_type f result aggregate_ty)
  | None => false
  end.

Definition call_results_match (module : FlowWir) (f : FlowFunction) (i : Instruction) (callee : FlowFunction) : bool :=
  bool_decide (omap (value_type f) (results i) = result_types callee)
  || (bool_decide (result_types callee = []) && only_result i (fun result => value_record_is module f result (kind_is KUnit))).

Definition async_result_matches (module : FlowWir) (f : FlowFunction) (i : Instruction) (callee : FlowFunction) : bool :=
  match results i with
  | [result] =>
      match record ← record_of module f result; delivered_by record with
      | Some result => activation_result_matches_function module result callee
      | None => false
      end
  | _ => false
  end.

Definition valid_promotion (module : FlowWir) (f : FlowFunction) (i : Instruction) (promoted : ValueId) (destination : RegionId) (proof : ProofId) : bool :=
  match role f with RoleActorTurn actor => actor_state_is module actor destination (fun _ => true) | _ => false end
  && value_record_is module f promoted (kind_is u64_type)
  && proof_is module proof (fun proof =>
       bool_decide (proof_kind proof = RegionBound) && starts_with (proof_subject proof) (ascii "alloc:")
       && bool_decide (bound proof = Some 8)
       && match instruction_source i with Some source => bool_decide (proof_sources proof = [source]) | None => false end
       && bool_decide (depends_on proof = [])
       && bool_decide (explanation proof = [ascii "actor state store outlives its non-reentrant turn frame"]))
  && binary_search_is_ok (function_proofs f) proof
  && bool_decide (results i = []).

Definition valid_actor_capability (module : FlowWir) (f : FlowFunction) (i : Instruction) (actor : ActorId) (proof : ProofId) : bool :=
  only_result i (fun result =>
    value_record_is module f result (fun ty => kind_is (KActorHandle actor) ty && plain ty)
    && proof_is module proof (fun proof =>
         bool_decide (proof_kind proof = ActorAsIf) && bool_decide (bound proof = Some 1)
         && (len (proof_sources proof) =? 1) && bool_decide (depends_on proof = []))).

(** [find]: the first proof of the target that says it is type checked. *)
Definition type_proof_of (module : FlowWir) (target : FlowFunction) : option ProofId :=
  find (fun candidate => proof_is module candidate (fun record => bool_decide (proof_kind record = TypeChecked))) (function_proofs target).
Definition sort_two (a b : N) : list N := if (b <? a)%N then [b; a] else [a; b].

Definition valid_actor_reply_request (module : FlowWir) (f : FlowFunction) (i : Instruction) (actor : ActorId) (method : FunctionId)
    (permit reply : ProofId) : bool :=
  only_result i (fun result => value_record_is module f result (fun ty => kind_is u64_type ty && plain ty))
  && match functions module !! N.to_nat method with
     | Some target =>
         bool_decide (role target = RoleActorTurn actor) && match color target with ColorAsync => true | _ => false end
         && (len (result_types target) =? 1)
     | None => false
     end
  && proof_is module permit (fun proof => bool_decide (proof_kind proof = CapacityBound) && bool_decide (bound proof = Some 1))
  && proof_is module reply (fun proof =>
       bool_decide (proof_kind proof = ActorReplyExactlyOnce) && bool_decide (bound proof = Some 1)
       && match target ← functions module !! N.to_nat method; type_proof_of module target with
          | Some type_proof => bool_decide (depends_on proof = sort_two type_proof permit)
          | None => false
          end).

Definition valid_actor_reply_resolve (module : FlowWir) (i : Instruction) (reply : ProofId) : bool :=
  bool_decide (results i = [])
  && proof_is module reply (fun proof => bool_decide (proof_kind proof = ActorReplyExactlyOnce) && bool_decide (bound proof = Some 1)).

Definition blank (s : str) : bool := forallb is_whitespace (chars s).
Definition bad_assertion (failure : AssertionFailureDescriptor) : bool :=
  blank (assertion_expression failure) || (ASSERTION_EXPRESSION_BYTES_MAX <? len (assertion_expression failure))
  || match assertion_message failure with
     | Some message => blank message || (ASSERTION_EXPRESSION_BYTES_MAX <? len message)
     | None => false
     end
  || negb (ordered_range (assertion_source failure)).

Definition instruction_value (f : FlowFunction) (id : ValueId) : validating unit :=
  require_id "instruction value" id (length (values f)).
Definition instruction_proof (module : FlowWir) (id : ProofId) : validating unit :=
  require_id "instruction proof" id (length (proofs module)).

Definition is_async (f : FlowFunction) : bool := match color f with ColorAsync => true | _ => false end.

Definition validate_operation (module : FlowWir) (f : FlowFunction) (i : Instruction) : validating unit :=
  let value := instruction_value f in
  let proof := instruction_proof module in
  let require_valid (valid : bool) (kind : string) := push_if (negb valid) (invalid_record kind (instruction_id i)) in
  match operation i with
  | ImmediateOp immediate =>
      _ ← validate_immediate module immediate;
      require_valid (exact_text_or_character module f i immediate) "static data immediate"
  | ActorStateAddress actor region capacity =>
      _ ← require_id "actor state actor" actor (length (actors module));
      _ ← require_id "actor state region" region (length (regions module));
      _ ← proof capacity;
      require_valid (valid_actor_state_address module f i actor region capacity) "actor state address"
  | Unary _ operand => value operand
  | Binary _ left_ right_ => _ ← value left_; value right_
  | Cast operand to _ => _ ← value operand; require_id "cast type" to (length (types module))
  | MakeAggregate ty fields => _ ← require_id "aggregate type" ty (length (types module)); each_of fields value
  | FormatBoundedString ty parts =>
      _ ← require_id "bounded string type" ty (length (types module));
      _ ← each_of (concat (map part_values parts)) value;
      require_valid (validate_bounded_string_operation module f i ty parts) "bounded string construction"
  | MakeEnum ty variant payload =>
      _ ← require_id "enum type" ty (length (types module));
      _ ← each_of (option_list payload) value;
      require_valid (valid_make_enum module f i ty variant payload) "enum construction"
  | EnumTag operand => _ ← value operand; require_valid (valid_enum_tag module f i operand) "enum projection"
  | EnumPayload operand variant =>
      _ ← value operand; require_valid (valid_enum_payload module f i operand variant) "enum payload projection"
  | ExtractField aggregate _ => value aggregate
  | ExtractIndex aggregate index capacity =>
      _ ← value aggregate; _ ← value index; _ ← proof capacity;
      require_valid (valid_extract_index module f i aggregate index capacity) "fixed-array index"
  | InsertField aggregate field inserted =>
      _ ← value aggregate; _ ← value inserted;
      require_valid (valid_insert_field module f i aggregate field inserted) "field insertion"
  | Select condition then_value else_value => _ ← value condition; _ ← value then_value; value else_value
  | BeginAccess place _ p => _ ← value place; proof p
  | EndAccess access => value access
  | LoadOp address p => _ ← value address; proof p
  | StoreOp address stored p => _ ← value address; _ ← value stored; proof p
  | Move operand | Copy operand | Drop operand => value operand
  | Call callee arguments =>
      _ ← require_id "callee" callee (length (functions module));
      _ ← each_of arguments value;
      _ ← validate_call_arguments module f callee arguments;
      match functions module !! N.to_nat callee with
      | None => mret tt
      | Some callee =>
          _ ← push_if (is_async callee) (invalid_record "ordinary call to async function" (instruction_id i));
          push_if (negb (call_results_match module f i callee)) (CallResultMismatch (function_id f) (function_id callee))
      end
  | AsyncCall callee arguments plan =>
      _ ← require_id "async callee" callee (length (functions module));
      _ ← require_id "async activation plan" plan (length (activations module));
      _ ← each_of arguments value;
      _ ← validate_call_arguments module f callee arguments;
      match functions module !! N.to_nat callee with
      | None => mret tt
      | Some callee =>
          _ ← push_if (negb (is_async f) || negb (is_async callee)) (invalid_record "async call color" (instruction_id i));
          push_if (negb (async_result_matches module f i callee)) (CallResultMismatch (function_id f) (function_id callee))
      end
  | Allocate region ty count p =>
      _ ← require_id "allocation region" region (length (regions module));
      _ ← require_id "allocation type" ty (length (types module));
      _ ← value count; proof p
  | RegionReset region => require_id "reset region" region (length (regions module))
  | Promote promoted destination promotion_proof =>
      _ ← value promoted;
      _ ← require_id "promotion region" destination (length (regions module));
      _ ← proof promotion_proof;
      push_if (negb (valid_promotion module f i promoted destination promotion_proof)) (invalid_record "promotion" promotion_proof)
  | ActorCapability actor p =>
      _ ← require_id "actor capability" actor (length (actors module)); _ ← proof p;
      require_valid (valid_actor_capability module f i actor p) "actor capability"
  | ActorReserve actor _ p => _ ← require_id "actor reserve" actor (length (actors module)); proof p
  | ActorCommit reservation arguments => _ ← value reservation; each_of arguments value
  | ActorReplyRequest actor method permit reply =>
      _ ← require_id "actor reply target" actor (length (actors module));
      _ ← require_id "actor reply method" method (length (functions module));
      _ ← proof permit; _ ← proof reply;
      require_valid (valid_actor_reply_request module f i actor method permit reply) "actor reply request"
  | ActorReplyResolve outcome reply =>
      _ ← value outcome; _ ← proof reply;
      require_valid (valid_actor_reply_resolve module i reply) "actor reply resolve"
  | ActorReject reservation => value reservation
  | MailboxReceive actor _ => require_id "mailbox actor" actor (length (actors module))
  | ReplyResolve endpoint outcome => _ ← value endpoint; value outcome
  | ReceiptCommit receipt payload => _ ← value receipt; value payload
  | ReceiptResolve receipt outcome => _ ← value receipt; value outcome
  | TaskAcquireSlot task p => _ ← require_id "task slot" task (length (tasks module)); proof p
  | TaskStart slot entry arguments =>
      _ ← value slot;
      _ ← require_id "task start" entry (length (functions module));
      _ ← each_of arguments value;
      _ ← validate_call_arguments module f entry arguments;
      push_error (invalid_record "task start slot provenance is not sealed" (instruction_id i))
  | TaskCancel task => value task
  | Park wait_set => value wait_set
  | Wake target => value target
  | Checkpoint id p => _ ← require_id "checkpoint" id (length (checkpoints module)); proof p
  | InterruptRestore token => value token
  | InterruptPublish cell published => _ ← value cell; value published
  | MmioRead device _ => require_id "MMIO device" device (length (devices module))
  | MmioWrite device _ written => _ ← require_id "MMIO device" device (length (devices module)); value written
  | DmaTransition token device _ _ p => _ ← value token; _ ← require_id "DMA device" device (length (devices module)); proof p
  | QueueReserve device descriptors p => _ ← require_id "queue device" device (length (devices module)); _ ← value descriptors; proof p
  | QueuePublish reservation payload => _ ← value reservation; value payload
  | ValidateDeviceValue checked p => _ ← value checked; proof p
  | CheckOp condition _ p => _ ← value condition; each_of (option_list p) proof
  | Assert condition failure =>
      _ ← value condition;
      push_if (bad_assertion failure) (invalid_record "runtime assertion descriptor" (instruction_id i))
  | RecordEvent _ payload => value payload
  | ReplayEvent _ destination => value destination
  | TestEmit payload => value payload
  | TestFinish outcome => value outcome
  | DeadlineRead | InterruptMask | Fence _ => mret tt
  end.

(** ** Activations *)

Definition count_up (counts : list Z) (value : ValueId) : list Z := alter (fun count => saturating_add 8 count 1) (N.to_nat value) counts.

Definition is_async_call (op : FlowOperation ValueId) : bool := match op with AsyncCall _ _ _ => true | _ => false end.

Definition count_activation (module : FlowWir) (f : FlowFunction) (i : Instruction) (definitions : list Z) (result : ValueId)
    : validating (list Z) :=
  _ ← polled;
  if is_activation_value module f result then
    if is_async_call (operation i) && (len (results i) =? 1) then mret (count_up definitions result)
    else _ ← push_error (invalid_record "activation definition" result); mret definitions
  else mret definitions.

(** Report the first operand that is an activation. *)
Definition no_activation (module : FlowWir) (f : FlowFunction) (kind : string) (operands : list ValueId) : validating unit :=
  match find (is_activation_value module f) operands with
  | Some value => push_error (invalid_record kind value)
  | None => mret tt
  end.

Definition is_immediate_suspend (b : Block) (index : nat) (i : Instruction) : bool :=
  (S index =? length (instructions b))%nat
  && match terminator b, head (results i) with
     | Suspend _ suspended _, Some activation => bool_decide (suspended = activation)
     | _, _ => false
     end.

Definition deliver_instruction (module : FlowWir) (f : FlowFunction) (b : Block) (definitions : list Z) (entry : nat * Instruction)
    : validating (list Z) :=
  let '(index, i) := entry in
  _ ← polled;
  definitions ← fold_of (count_activation module f i) (results i) definitions;
  _ ← no_activation module f "activation operation operand" (flow_operation_values (operation i));
  _ ← push_if (is_async_call (operation i) && negb (is_immediate_suspend b index i))
        (invalid_record "activation immediate suspend" (instruction_id i));
  mret definitions.

Definition immediately_defined (b : Block) (activation : ValueId) : bool :=
  match last (instructions b) with
  | Some i => is_async_call (operation i) && bool_decide (results i = [activation])
  | None => false
  end.

Definition deliver_terminator (module : FlowWir) (f : FlowFunction) (b : Block) (suspends : list Z) (states : list Z)
    : validating (list Z * list Z) :=
  match terminator b with
  | Suspend state activation _ =>
      states ← scratch_push states state;
      _ ← push_if (negb (immediately_defined b activation)) (invalid_record "suspend activation definition" activation);
      mret (count_up suspends activation, states)
  | t => _ ← no_activation module f "activation terminator operand" (flow_terminator_values t); mret (suspends, states)
  end.

Definition deliver_block (module : FlowWir) (f : FlowFunction) (st : list Z * list Z * list Z) (b : Block)
    : validating (list Z * list Z * list Z) :=
  let '(definitions, suspends, states) := st in
  _ ← polled;
  _ ← each_of (block_parameters b) (fun parameter =>
        push_if (is_activation_value module f parameter) (invalid_record "activation block parameter" parameter));
  definitions ← fold_of (deliver_instruction module f b) (enumerate (instructions b)) definitions;
  '(suspends, states) ← deliver_terminator module f b suspends states;
  mret (definitions, suspends, states).

Definition delivered_once (definitions suspends : list Z) (value : ValueId) : bool :=
  match definitions !! N.to_nat value, suspends !! N.to_nat value with
  | Some definitions, Some suspends => (definitions =? 1) && (suspends =? 1)
  | _, _ => false
  end.

Definition validate_activation_contract (module : FlowWir) (f : FlowFunction) : validating unit :=
  definitions ← filled (length (values f)) 0;
  suspends ← filled (length (values f)) 0;
  _ ← each_of (parameters f) (fun parameter =>
        _ ← polled;
        push_if (is_activation_value module f parameter) (invalid_record "activation function parameter" parameter));
  states ← scratch 0;
  '(definitions, suspends, states) ← fold_of (deliver_block module f) (blocks f) (definitions, suspends, states);
  states ← sort_scratch_by Z.compare states;
  _ ← each_of (enumerate states) (fun '(expected, actual) =>
        _ ← polled; push_if (negb (actual =? Z.of_nat expected)) (InvalidRecord "async state order" actual));
  each_of (values f) (fun value =>
    _ ← polled;
    push_if (is_activation_value module f (value_id value) && negb (delivered_once definitions suspends (value_id value)))
      (invalid_record "activation delivery" (value_id value))).

(** ** One function *)

Definition origin_is_valid (module : FlowWir) (f : FlowFunction) : Z * bool :=
  let no_source := bool_decide (function_source f = None) in
  let is_entry := match role f with RoleImageEntry => true | _ => false end in
  match function_origin f with
  | SourceSemantic semantic_function => (semantic_function, negb no_source && negb is_entry)
  | GeneratedImageEntry semantic_function constructor =>
      (semantic_function, no_source && is_entry && (constructor <? hir_declarations (source_summary module)))
  | GeneratedTestHarness semantic_function _ => (semantic_function, no_source && is_entry)
  | GeneratedAsyncState semantic_function _ | GeneratedCleanup semantic_function _ => (semantic_function, negb is_entry)
  end.

Definition role_color_matches (f : FlowFunction) : bool :=
  match role f, color f with
  | (RoleActorTurn _ | RoleTaskEntry _), ColorAsync => true
  | (RoleActorTurn _ | RoleTaskEntry _), _ => false
  | RoleIsr _, ColorIsr => true
  | RoleIsr _, _ => false
  | RoleOrdinary, ColorIsr => false
  | RoleOrdinary, _ => true
  | (RoleCleanup | RoleImageEntry | RoleTest), ColorSync => true
  | (RoleCleanup | RoleImageEntry | RoleTest), _ => false
  end.

Definition valid_function_record (module : FlowWir) (f : FlowFunction) : bool :=
  let '(semantic_function, valid_origin) := origin_is_valid module f in
  negb (blank (function_name f)) && (semantic_function <? semantic_functions (source_summary module))
  && valid_origin && role_color_matches f && negb (bad_source module (function_source f)).

Definition require_role (module : FlowWir) (f : FlowFunction) : validating unit :=
  match role f with
  | RoleActorTurn id => require_id "function actor role" id (length (actors module))
  | RoleTaskEntry id => require_id "function task role" id (length (tasks module))
  | RoleIsr id => require_id "function ISR role" id (length (devices module))
  | RoleOrdinary | RoleCleanup | RoleImageEntry | RoleTest => mret tt
  end.

(** A value for which [errors.poll()] is asked and which is then counted. *)
Definition define_polled (f : FlowFunction) (definitions : list Z) (value : ValueId) : validating (list Z) :=
  _ ← polled; define_value (function_id f) definitions value.

Definition validate_instruction (module : FlowWir) (f : FlowFunction) (st : list Z * list N) (i : Instruction) : validating (list Z * list N) :=
  let '(definitions, instruction_ids) := st in
  _ ← polled;
  _ ← push_if (bad_source module (instruction_source i)) (invalid_record "instruction source" (instruction_id i));
  instruction_ids ← scratch_push instruction_ids (instruction_id i);
  definitions ← fold_of (define_polled f) (results i) definitions;
  _ ← calling (validate_operation module f i);
  mret (definitions, instruction_ids).

Definition validate_block (module : FlowWir) (f : FlowFunction) (st : list Z * list N) (b : Block) : validating (list Z * list N) :=
  let '(definitions, instruction_ids) := st in
  _ ← polled;
  _ ← push_if (bad_source module (block_source b)) (invalid_record "block source" (block_id b));
  definitions ← fold_of (define_polled f) (block_parameters b) definitions;
  st ← fold_of (validate_instruction module f) (instructions b) (definitions, instruction_ids);
  _ ← calling (validate_terminator module f (terminator b));
  mret st.

Definition check_count (f : FlowFunction) (entry : nat * Z) : validating unit :=
  _ ← polled;
  push_if (negb (entry.2 =? 1)) (ValueDefinitionCount (function_id f) (N.of_nat entry.1) entry.2).

(** The body of the loop of [validate_module] over the functions. *)
Definition validate_function (module : FlowWir) (f : FlowFunction) : validating unit :=
  _ ← polled;
  _ ← push_if (negb (valid_function_record module f)) (invalid_record "function" (function_id f));
  _ ← check_dense "value" (map value_id (values f));
  _ ← check_dense "block" (map block_id (blocks f));
  _ ← each_of (values f) (fun value =>
        _ ← polled;
        _ ← require_id "value type" (value_ty value) (length (types module));
        push_if (bad_source module (value_source value)) (invalid_record "value source" (value_id value)));
  _ ← require_role module f;
  _ ← each_of (result_types f) (fun result =>
        _ ← polled;
        _ ← require_id "function result type" result (length (types module));
        push_if (record_is module result (fun ty => is_activation (kind ty))) (invalid_record "activation function result" (function_id f)));
  _ ← each_of (function_proofs f) (fun proof => _ ← polled; require_id "function proof" proof (length (proofs module)));
  _ ← require_canonical_ids "function proofs" (function_id f) (function_proofs f);
  _ ← push_if (length (blocks f) <=? N.to_nat (entry f))%nat (UnknownBlock (function_id f) (entry f));
  definitions ← filled (length (values f)) 0;
  definitions ← fold_of (define_polled f) (parameters f) definitions;
  instruction_ids ← scratch 0;
  '(definitions, instruction_ids) ← fold_of (validate_block module f) (blocks f) (definitions, instruction_ids);
  _ ← check_dense "instruction" instruction_ids;
  _ ← each_of (enumerate definitions) (check_count f);
  _ ← calling (validate_activation_contract module f);
  calling (validate_control_flow_and_ssa module f).

Definition validate_functions (module : FlowWir) : validating unit :=
  each_of (functions module) (validate_function module).
