(* ===== verification/FlowTotal.v ===== *)
(** The checks of functions of [src/crates/wrela-flow-wir/src/lib.rs] return,
    whatever the module, the limits and the answers of the environment: no index
    is out of bounds and every loop ends. *)

From stdpp Require Import base numbers list option strings sorting.
From S2P Require Import Prelude Bytes Text BuildModel Source Order Interrupt FlowWir Optimizer FlowOperands FlowModule FlowContext FlowSsa FlowAccept FlowTree FlowUses FlowChecks FlowValidate.

#[local] Open Scope Z_scope.

Definition total {A} (m : validating A) : Prop := returns m (fun _ => True).

Lemma total_mret {A} (a : A) : total (mret a).
Proof. by apply returns_mret. Qed.
Lemma total_push e : total (push_error e).
Proof. by apply returns_push. Qed.
Lemma total_polled : total polled.
Proof. by apply returns_polled. Qed.
Lemma total_filled {A} n (x : A) : total (filled n x).
Proof. by apply (returns_filled n x (fun _ => True)). Qed.
Lemma total_scratch {A} n : total (scratch (A := A) n).
Proof. by apply (returns_scratch n (fun _ => True)). Qed.
Lemma total_scratch_push {A} (xs : list A) x : total (scratch_push xs x).
Proof. by apply (returns_scratch_push xs x (fun _ => True)). Qed.
Lemma total_calling m : total m -> total (calling m).
Proof. intros H. by apply returns_calling. Qed.
Lemma total_bind {A B} (m : validating A) (f : A -> validating B) : total m -> (forall a, total (f a)) -> total (m ≫= f).
Proof. intros Hm Hf. eapply returns_bind; [exact Hm|]. intros a _. apply Hf. Qed.
Lemma total_each {A} (xs : list A) body : (forall x, total (body x)) -> total (each_of xs body).
Proof. intros H. apply returns_each; [|done]. intros x _. apply H. Qed.
Lemma total_fold {A S} (body : S -> A -> validating S) xs s : (forall s x, total (body s x)) -> total (fold_of body xs s).
Proof. intros H. apply (returns_fold _ (fun _ _ => True)); [done|]. intros. apply H. Qed.
Lemma total_sort_states (xs : list Z) : total (sort_scratch_by Z.compare xs).
Proof. eapply returns_true, (returns_sort_key (fun x => x) Z.compare). Qed.

Create HintDb total discriminated.
#[export] Hint Resolve total_mret total_push total_polled total_filled total_scratch total_scratch_push total_sort_states : total.
#[export] Hint Constants Opaque : total.

(** A validator without an index or a recursion of its own is total by its shape. *)
Ltac total :=
  repeat lazymatch goal with
  | |- total (_ ≫= _) => apply total_bind; [|intros ?]
  | |- total (each_of _ _) => apply total_each; intros ?
  | |- total (fold_of _ _ _) => apply total_fold; intros ? ?
  | |- total (calling _) => apply total_calling
  | |- total (match ?x with _ => _ end) => destruct x
  | |- total (let '(_, _) := ?x in _) => destruct x
  | |- _ => solve [auto with total nocore]
  end.

Lemma total_push_if b e : total (push_if b e).
Proof. unfold push_if. total. Qed.
Lemma total_require_id k id n : total (require_id k id n).
Proof. unfold require_id. total. Qed.
Lemma total_check_dense k ids : total (check_dense k ids).
Proof. unfold check_dense. total. Qed.
Lemma total_canonical_step st id : total (canonical_step st id).
Proof. unfold canonical_step. total. Qed.
#[export] Hint Resolve total_push_if total_require_id total_check_dense total_canonical_step : total.
Lemma total_require_canonical k o ids : total (require_canonical_ids k o ids).
Proof. unfold require_canonical_ids. total. Qed.
Lemma total_define_polled f d v : total (define_polled f d v).
Proof. unfold define_polled, define_value. total. Qed.
Lemma total_call_arguments module f callee args : total (validate_call_arguments module f callee args).
Proof. unfold validate_call_arguments. total. Qed.
Lemma total_edge f target args : total (validate_edge f target args).
Proof. unfold validate_edge. total. Qed.
#[export] Hint Resolve total_require_canonical total_define_polled total_call_arguments total_edge : total.
Lemma total_use_type module id : total (use_type module id).
Proof. unfold use_type. total. Qed.
#[export] Hint Resolve total_use_type : total.
Lemma total_type module ty : total (validate_type module ty).
Proof. unfold validate_type. total. Qed.
Lemma total_terminator module f t : total (validate_terminator module f t).
Proof. unfold validate_terminator, terminator_value, terminator_block. total. Qed.
Lemma total_operation module f i : total (validate_operation module f i).
Proof. unfold validate_operation, validate_immediate, instruction_value, instruction_proof. total. Qed.
#[export] Hint Resolve total_type total_terminator total_operation : total.
Lemma total_no_activation module f k vs : total (no_activation module f k vs).
Proof. unfold no_activation. total. Qed.
Lemma total_count_activation module f i d v : total (count_activation module f i d v).
Proof. unfold count_activation. total. Qed.
#[export] Hint Resolve total_no_activation total_count_activation : total.
Lemma total_deliver_block module f st b : total (deliver_block module f st b).
Proof. unfold deliver_block, deliver_instruction, deliver_terminator. total. Qed.
#[export] Hint Resolve total_deliver_block : total.
Lemma total_activation_contract module f : total (validate_activation_contract module f).
Proof. unfold validate_activation_contract. total. Qed.
Lemma total_ssa module f : total (validate_control_flow_and_ssa module f).
Proof. apply validate_ssa_total. Qed.
Lemma total_validate_block module f st b : total (validate_block module f st b).
Proof. unfold validate_block, validate_instruction. total. Qed.
#[export] Hint Resolve total_activation_contract total_ssa total_validate_block : total.

(** C38: the validation of the functions of a module returns. Whatever the module,
    the limits and the answers of the environment, it runs into no index out of
    bounds, and its loops (the sorts, the search for reachable blocks, the rounds
    of the dominator computation and the walks up the tree among them) end within
    the turns the model gives them. *)
Theorem validate_functions_returns module c : forall e, ~ may_throw (validate_functions module c) e.
Proof.
  enough (total (validate_functions module)) as H by apply H.
  unfold validate_functions, validate_function, require_role, check_count. total.
Qed.
