(* ===== verification/FlowValid.v ===== *)
(** What [validate_module] of [src/crates/wrela-flow-wir/src/lib.rs] accepts as a
    function: dense identities, every value defined exactly once, references to
    records that exist, edges and calls that fit, activations that are delivered
    at once, and the control flow of [validate_control_flow_and_ssa]. *)

From Stdlib Require Import Sorting.Sorted.
From stdpp Require Import base numbers list option strings sorting.
From S2P Require Import Prelude Bytes Text BuildModel Source Order Interrupt FlowWir Optimizer FlowOperands FoldSound FlowModule FlowContext FlowSsa FlowAccept Dominators FlowTree FlowDominance FlowUses FlowChecks FlowValidate.

#[local] Open Scope Z_scope.

(** ** The small checks *)

Lemma honest_push_if b e : honest (push_if b e).
Proof. unfold push_if. honest. Qed.
#[export] Hint Resolve honest_push_if : flow.
Lemma honest_require_id k id n : honest (require_id k id n).
Proof. unfold require_id. apply honest_calling. honest. Qed.
#[export] Hint Resolve honest_require_id : flow.
Lemma honest_check_dense k ids : honest (check_dense k ids).
Proof. unfold check_dense. apply honest_calling. honest. Qed.
Lemma honest_canonical_step st id : honest (canonical_step st id).
Proof. unfold canonical_step. honest. Qed.
#[export] Hint Resolve honest_check_dense honest_canonical_step : flow.
Lemma honest_require_canonical k o ids : honest (require_canonical_ids k o ids).
Proof. unfold require_canonical_ids. apply honest_calling. honest. Qed.
Lemma honest_define_value f d v : honest (define_value f d v).
Proof. unfold define_value. honest. Qed.
Lemma honest_call_arguments module f callee args : honest (validate_call_arguments module f callee args).
Proof. unfold validate_call_arguments. honest. Qed.
Lemma honest_edge f target args : honest (validate_edge f target args).
Proof. unfold validate_edge. honest. Qed.
#[export] Hint Resolve honest_require_canonical honest_define_value honest_call_arguments honest_edge : flow.
Lemma honest_use_type module id : honest (use_type module id).
Proof. unfold use_type. honest. Qed.
Lemma honest_terminator_value f id : honest (terminator_value f id).
Proof. unfold terminator_value. honest. Qed.
Lemma honest_terminator_block f id : honest (terminator_block f id).
Proof. unfold terminator_block. honest. Qed.
Lemma honest_instruction_value f id : honest (instruction_value f id).
Proof. unfold instruction_value. honest. Qed.
Lemma honest_instruction_proof module id : honest (instruction_proof module id).
Proof. unfold instruction_proof. honest. Qed.
Lemma honest_immediate module im : honest (validate_immediate module im).
Proof. unfold validate_immediate. honest. Qed.
#[export] Hint Resolve honest_use_type honest_terminator_value honest_terminator_block honest_instruction_value
  honest_instruction_proof honest_immediate : flow.
Lemma honest_terminator module f t : honest (validate_terminator module f t).
Proof. unfold validate_terminator. honest. Qed.
Lemma honest_operation module f i : honest (validate_operation module f i).
Proof. unfold validate_operation. honest. Qed.
#[export] Hint Resolve honest_terminator honest_operation : flow.
Lemma honest_no_activation module f k vs : honest (no_activation module f k vs).
Proof. unfold no_activation. honest. Qed.
Lemma honest_count_activation module f i d v : honest (count_activation module f i d v).
Proof. unfold count_activation. honest. Qed.
#[export] Hint Resolve honest_no_activation honest_count_activation : flow.
Lemma honest_deliver_instruction module f b d e : honest (deliver_instruction module f b d e).
Proof. unfold deliver_instruction. honest. Qed.
Lemma honest_deliver_terminator module f b d e : honest (deliver_terminator module f b d e).
Proof. unfold deliver_terminator. honest. Qed.
#[export] Hint Resolve honest_deliver_instruction honest_deliver_terminator : flow.
Lemma honest_deliver_block module f st b : honest (deliver_block module f st b).
Proof. unfold deliver_block. honest. Qed.
#[export] Hint Resolve honest_deliver_block : flow.
Lemma honest_activation_contract module f : honest (validate_activation_contract module f).
Proof. unfold validate_activation_contract. honest. Qed.
Lemma honest_define_polled f d v : honest (define_polled f d v).
Proof. unfold define_polled. honest. Qed.
#[export] Hint Resolve honest_activation_contract honest_define_polled honest_validate_ssa : flow.
Lemma honest_validate_instruction module f st i : honest (validate_instruction module f st i).
Proof. unfold validate_instruction. honest. Qed.
#[export] Hint Resolve honest_validate_instruction : flow.
Lemma honest_validate_block module f st b : honest (validate_block module f st b).
Proof. unfold validate_block. honest. Qed.
Lemma honest_require_role module f : honest (require_role module f).
Proof. unfold require_role. honest. Qed.
Lemma honest_check_count f e : honest (check_count f e).
Proof. unfold check_count. honest. Qed.
#[export] Hint Resolve honest_validate_block honest_require_role honest_check_count : flow.
Lemma honest_validate_function module f : honest (validate_function module f).
Proof. unfold validate_function. honest. Qed.
#[export] Hint Resolve honest_validate_function : flow.

(** ** What they accept *)

Definition known (n : nat) (id : N) : Prop := (N.to_nat id < n)%nat.

Lemma accepts_push_if b e : accepts (push_if b e) (fun _ => b = false).
Proof. unfold push_if. destruct b; [apply accepts_push|by apply accepts_mret]. Qed.
Lemma accepts_require_id k id n : accepts (require_id k id n) (fun _ => known n id).
Proof.
  unfold require_id. apply accepts_calling; [honest|]. eapply accepts_bind; [honest|apply accepts_any|intros _ _].
  destruct (Nat.leb_spec n (N.to_nat id)); [apply accepts_push|by apply accepts_mret].
Qed.

Lemma accepts_instruction_values f vs :
  accepts (each_of vs (instruction_value f)) (fun _ => Forall (known (length (values f))) vs).
Proof. apply accepts_each; [honest|]. intros v _. apply accepts_require_id. Qed.
Lemma accepts_terminator_values f vs :
  accepts (each_of vs (terminator_value f)) (fun _ => Forall (known (length (values f))) vs).
Proof. apply accepts_each; [honest|]. intros v _. apply accepts_require_id. Qed.

Lemma Forall_zip {A B} (R : A -> B -> Prop) l k :
  length l = length k -> Forall (fun p => R p.1 p.2) (zip l k) -> Forall2 R l k.
Proof.
  revert k. induction l as [|x l IH]; intros [|y k] Hl; simpl; try done.
  intros [? ?]%Forall_cons. constructor; [done|]. apply IH; [simpl in Hl; lia|done].
Qed.

(** ** Edges, calls and terminators *)

(** The arguments [xs] of [f] fit the parameters [ps] of [g]. *)
Definition arguments_fit (f g : FlowFunction) (xs ps : list ValueId) : Prop :=
  Forall2 (fun x p => types_differ (value_type f x) (value_type g p) = false) xs ps.
Definition edge_fits (f : FlowFunction) (target : BlockId) (xs : list ValueId) : Prop :=
  exists b, blocks f !! N.to_nat target = Some b /\ arguments_fit f f xs (block_parameters b).
Definition call_fits (module : FlowWir) (f : FlowFunction) (callee : FunctionId) (xs : list ValueId) : Prop :=
  exists g, functions module !! N.to_nat callee = Some g /\ arguments_fit f g xs (parameters g).

Lemma accepts_edge f target xs : known (length (blocks f)) target ->
  accepts (validate_edge f target xs) (fun _ => edge_fits f target xs).
Proof.
  intros [b Hb]%lookup_lt_is_Some. unfold validate_edge, edge_fits. rewrite Hb.
  destruct (Nat.eqb_spec (length xs) (length (block_parameters b))) as [Hl|]; [|apply accepts_push]. simpl.
  eapply accepts_mono; [apply (accepts_each _ _ (fun p => types_differ (value_type f p.1) (value_type f p.2) = false))|].
  - intros []. honest.
  - intros [x p] _. apply accepts_push_if.
  - intros ? H. exists b. split; [done|]. by apply Forall_zip.
Qed.

Lemma accepts_call module f callee xs : known (length (functions module)) callee ->
  accepts (validate_call_arguments module f callee xs) (fun _ => call_fits module f callee xs).
Proof.
  intros [g Hg]%lookup_lt_is_Some. unfold validate_call_arguments, call_fits. rewrite Hg.
  destruct (Nat.eqb_spec (length xs) (length (parameters g))) as [Hl|]; [|apply accepts_push]. simpl.
  eapply accepts_mono; [apply (accepts_each _ _ (fun p => types_differ (value_type f p.1) (value_type g p.2) = false))|].
  - intros []. honest.
  - intros [x p] _. apply accepts_push_if.
  - intros ? H. exists g. split; [done|]. by apply Forall_zip.
Qed.

(** What is required of a terminator besides its types. *)
Definition terminator_shape (module : FlowWir) (f : FlowFunction) (t : Terminator ValueId) : Prop :=
  match t with
  | Jump target xs => edge_fits f target xs
  | Branch _ target xs target' ys => edge_fits f target xs /\ edge_fits f target' ys
  | Switch _ cases default xs =>
      edge_fits f default xs /\ Forall (fun c => edge_fits f (case_target c) (case_arguments c)) cases
  | Return vs => length vs = length (result_types f)
  | Suspend _ _ resume => known (length (blocks f)) resume /\ color f = ColorAsync
  | TailCall callee xs => call_fits module f callee xs /\ callee_is_async module callee = false
  | Trap _ _ | Unreachable => True
  end.

(** Bind what an atomic check accepts. *)
Tactic Notation "checked" uconstr(lemma) "as" ident(p) :=
  eapply accepts_bind; [honest|by apply lemma|intros ? p; cbv beta in p].

Lemma accepts_terminator module f t : accepts (validate_terminator module f t)
  (fun _ => Forall (known (length (values f))) (terminator_values t) /\ terminator_shape module f t).
Proof.
  destruct t as [target xs|c tb xs eb ys|v cases d ds|vs|s a r|callee xs|failure detail|]; cbn [validate_terminator terminator_values terminator_shape].
  - checked accepts_require_id as Ht. checked accepts_terminator_values as Hx.
    eapply accepts_mono; [by apply accepts_edge|]. intros ? He. by split.
  - checked accepts_require_id as Hc. checked accepts_require_id as Ht. checked accepts_require_id as Ht'.
    checked accepts_terminator_values as Hx. checked accepts_edge as He.
    eapply accepts_mono; [by apply accepts_edge|]. intros ? He'. split; [by constructor|done].
  - checked accepts_require_id as Hv. checked accepts_require_id as Hd. checked accepts_terminator_values as Hx.
    checked accepts_edge as He. eapply accepts_mono;
      [apply (accepts_each _ _ (fun c => Forall (known (length (values f))) (case_arguments c) /\ edge_fits f (case_target c) (case_arguments c)))|].
    + honest.
    + intros c _. checked accepts_require_id as Hc. checked accepts_terminator_values as Hcx.
      eapply accepts_mono; [by apply accepts_edge|]. intros ? Hce. by split.
    + intros ? [Hc1 Hc2]%Forall_and. split; [|done]. constructor; [done|]. apply Forall_app. split; [|done].
      by apply Forall_concat, Forall_map.
  - checked accepts_terminator_values as Hx. eapply accepts_mono; [apply accepts_push_if|]. intros ? Hl.
    apply negb_false_iff, Nat.eqb_eq in Hl. done.
  - checked accepts_require_id as Ht. checked accepts_require_id as Ha. eapply accepts_mono; [apply accepts_push_if|].
    intros ? Hl. split; [by repeat constructor|]. split; [done|]. by destruct (color f).
  - checked accepts_require_id as Ht. checked accepts_terminator_values as Hx. checked accepts_call as Hcall.
    eapply accepts_mono; [apply accepts_push_if|]. intros ? Hl. done.
  - eapply accepts_mono; [apply accepts_terminator_values|]. intros ? H. done.
  - apply accepts_mret. by split.
Qed.

(** ** Operations *)

(** The tables of a module that an identity may refer to. *)
Inductive arena :=
| TypeTable | GlobalTable | FunctionTable | ProofTable | ActorTable | TaskTable | DeviceTable | RegionTable
| ActivationTable | CheckpointTable.

Definition arena_length (module : FlowWir) (t : arena) : nat :=
  match t with
  | TypeTable => length (types module)
  | GlobalTable => length (globals module)
  | FunctionTable => length (functions module)
  | ProofTable => length (proofs module)
  | ActorTable => length (actors module)
  | TaskTable => length (tasks module)
  | DeviceTable => length (devices module)
  | RegionTable => length (regions module)
  | ActivationTable => length (activations module)
  | CheckpointTable => length (checkpoints module)
  end.

(** The record a reference names exists. *)
Definition recorded (module : FlowWir) (reference : arena * N) : Prop :=
  known (arena_length module reference.1) reference.2.

Definition immediate_records (immediate : Immediate) : list (arena * N) :=
  match immediate with
  | ImmZero ty => [(TypeTable, ty)]
  | ImmGlobalAddress id => [(GlobalTable, id)]
  | ImmFunctionAddress id => [(FunctionTable, id)]
  | ImmUnit | ImmBool _ | ImmCharacter _ | ImmInteger _ _ | ImmFloat32 _ | ImmFloat64 _ | ImmBytes _ => []
  end.

(** Every record that an operation names, but for the methods of [ActorReserve]
    and [MailboxReceive], which the checks of the actor messages of the whole
    module look up. *)
Definition operation_records {V} (op : FlowOperation V) : list (arena * N) :=
  match op with
  | ImmediateOp immediate => immediate_records immediate
  | ActorStateAddress actor region p => [(ActorTable, actor); (RegionTable, region); (ProofTable, p)]
  | Cast _ ty _ | MakeAggregate ty _ | FormatBoundedString ty _ | MakeEnum ty _ _ => [(TypeTable, ty)]
  | ExtractIndex _ _ p | BeginAccess _ _ p | LoadOp _ p | StoreOp _ _ p | ActorReplyResolve _ p
  | ValidateDeviceValue _ p => [(ProofTable, p)]
  | Call function _ | TaskStart _ function _ => [(FunctionTable, function)]
  | AsyncCall function _ plan => [(FunctionTable, function); (ActivationTable, plan)]
  | Allocate region ty _ p => [(RegionTable, region); (TypeTable, ty); (ProofTable, p)]
  | RegionReset region => [(RegionTable, region)]
  | Promote _ region p => [(RegionTable, region); (ProofTable, p)]
  | ActorCapability actor p | ActorReserve actor _ p => [(ActorTable, actor); (ProofTable, p)]
  | ActorReplyRequest actor method permit reply =>
      [(ActorTable, actor); (FunctionTable, method); (ProofTable, permit); (ProofTable, reply)]
  | MailboxReceive actor _ => [(ActorTable, actor)]
  | TaskAcquireSlot task p => [(TaskTable, task); (ProofTable, p)]
  | Checkpoint id p => [(CheckpointTable, id); (ProofTable, p)]
  | MmioRead device _ | MmioWrite device _ _ => [(DeviceTable, device)]
  | DmaTransition _ device _ _ p | QueueReserve device _ p => [(DeviceTable, device); (ProofTable, p)]
  | CheckOp _ _ p => map (pair ProofTable) (option_list p)
  | Unary _ _ | Binary _ _ _ | EnumTag _ | EnumPayload _ _ | ExtractField _ _ | InsertField _ _ _ | Select _ _ _
  | EndAccess _ | Move _ | Copy _ | Drop _ | ActorCommit _ _ | ActorReject _ | ReplyResolve _ _ | ReceiptCommit _ _
  | ReceiptResolve _ _ | TaskCancel _ | Park _ | Wake _ | DeadlineRead | InterruptMask | InterruptRestore _
  | InterruptPublish _ _ | Fence _ | QueuePublish _ _ | Assert _ _ | RecordEvent _ _ | ReplayEvent _ _ | TestEmit _
  | TestFinish _ => []
  end.

(** What is required of an operation besides known references. *)
Definition operation_shape (module : FlowWir) (f : FlowFunction) (i : Instruction) : Prop :=
  match operation i with
  | ImmediateOp immediate => exact_text_or_character module f i immediate = true
  | ActorStateAddress actor region capacity => valid_actor_state_address module f i actor region capacity = true
  | FormatBoundedString ty parts => validate_bounded_string_operation module f i ty parts = true
  | MakeEnum ty variant payload => valid_make_enum module f i ty variant payload = true
  | EnumTag value => valid_enum_tag module f i value = true
  | EnumPayload value variant => valid_enum_payload module f i value variant = true
  | ExtractIndex aggregate index capacity => valid_extract_index module f i aggregate index capacity = true
  | InsertField aggregate field value => valid_insert_field module f i aggregate field value = true
  | Call callee xs => call_fits module f callee xs /\ exists g, functions module !! N.to_nat callee = Some g
      /\ is_async g = false /\ call_results_match module f i g = true
  | AsyncCall callee xs plan => call_fits module f callee xs /\ exists g, functions module !! N.to_nat callee = Some g
      /\ is_async f = true /\ is_async g = true /\ async_result_matches module f i g = true
  | Promote value destination proof => valid_promotion module f i value destination proof = true
  | ActorCapability actor proof => valid_actor_capability module f i actor proof = true
  | ActorReplyRequest actor method permit reply => valid_actor_reply_request module f i actor method permit reply = true
  | ActorReplyResolve _ reply => valid_actor_reply_resolve module i reply = true
  | TaskStart _ _ _ => False
  | Assert _ failure => bad_assertion failure = false
  | _ => True
  end.

Record operation_valid (module : FlowWir) (f : FlowFunction) (i : Instruction) : Prop := {
  operation_known : Forall (known (length (values f))) (operation_values (operation i));
  operation_recorded : Forall (recorded module) (operation_records (operation i));
  operation_shaped : operation_shape module f i;
}.

Lemma accepts_immediate module im : accepts (validate_immediate module im) (fun _ => Forall (recorded module) (immediate_records im)).
Proof.
  destruct im; cbn [validate_immediate immediate_records]; try (apply accepts_mret; constructor);
    (eapply accepts_mono; [apply accepts_require_id|intros ? H; by apply Forall_singleton]).
Qed.

Ltac accepts_last :=
  lazymatch goal with
  | |- accepts (push_if _ _) _ => eapply accepts_mono; [apply accepts_push_if|intros ? ?]
  | |- accepts (instruction_value _ _) _ => eapply accepts_mono; [apply accepts_require_id|intros ? ?]
  | |- accepts (instruction_proof _ _) _ => eapply accepts_mono; [apply accepts_require_id|intros ? ?]
  | |- accepts (require_id _ _ _) _ => eapply accepts_mono; [apply accepts_require_id|intros ? ?]
  | |- accepts (mret _) _ => apply accepts_mret
  | |- accepts (push_error _) _ => apply accepts_push
  | |- accepts (each_of _ (instruction_value _)) _ => eapply accepts_mono; [apply accepts_instruction_values|intros ? ?]
  | |- accepts (each_of _ (instruction_proof _)) _ =>
      eapply accepts_mono; [eapply accepts_each; [honest|intros; apply accepts_require_id]|intros ? ?]
  end.
Ltac accepts_all :=
  repeat lazymatch goal with
  | |- accepts (_ ≫= _) _ =>
      eapply accepts_bind;
        [honest
        |lazymatch goal with
         | |- accepts (push_if _ _) _ => apply accepts_push_if
         | |- accepts (validate_immediate _ _) _ => apply accepts_immediate
         | |- accepts (instruction_value _ _) _ => apply accepts_require_id
         | |- accepts (instruction_proof _ _) _ => apply accepts_require_id
         | |- accepts (require_id _ _ _) _ => apply accepts_require_id
         | |- accepts (each_of _ (instruction_value _)) _ => apply accepts_instruction_values
         | |- accepts (validate_call_arguments _ _ _ _) _ => by apply accepts_call
         | |- accepts _ _ => apply accepts_any
         end
        |let H := fresh in intros ? H; cbv beta in H]
  end.

Lemma accepts_operation module f i : accepts (validate_operation module f i) (fun _ => operation_valid module f i).
Proof.
  enough (accepts (validate_operation module f i) (fun _ => Forall (known (length (values f))) (operation_values (operation i))
    /\ Forall (recorded module) (operation_records (operation i)) /\ operation_shape module f i)) as H.
  { eapply accepts_mono; [exact H|]. by intros ? (? & ? & ?). }
  unfold validate_operation, operation_shape. destruct (operation i); cbn [operation_values operation_records immediate_records]; accepts_all.
  all: try (accepts_last; split_and!; [repeat (done || constructor)..|try done; by apply negb_false_iff]).
  - destruct (lookup_lt_is_Some_2 (functions module) (N.to_nat function)) as [g Hg]; [done|]. rewrite Hg. accepts_all. accepts_last.
    split_and!; [done|by repeat constructor|done|]. exists g. split_and!; [done..|by apply negb_false_iff].
  - destruct (lookup_lt_is_Some_2 (functions module) (N.to_nat function)) as [g Hg]; [done|]. rewrite Hg. accepts_all. accepts_last.
    match goal with H : _ || _ = false |- _ => apply orb_false_iff in H as [?%negb_false_iff ?%negb_false_iff] end.
    split_and!; [done|by repeat constructor|done|]. exists g. split_and!; [done..|by apply negb_false_iff].
  - apply accepts_push.
  - by apply Forall_map.
Qed.

(** ** Definitions *)

(** How often a value is defined. *)
Definition occurrences (v : nat) (vs : list ValueId) : Z := len (filter (fun x => N.to_nat x = v) vs).

Lemma occurrences_app v vs vs' : occurrences v (vs ++ vs') = occurrences v vs + occurrences v vs'.
Proof. unfold occurrences. by rewrite filter_app, len_app. Qed.
Lemma occurrences_nonneg v vs : 0 <= occurrences v vs.
Proof. apply len_nonneg. Qed.
Lemma occurrences_one v x : occurrences v [x] = if decide (N.to_nat x = v) then 1 else 0.
Proof. unfold occurrences. rewrite filter_cons, filter_nil. by case_decide. Qed.

Lemma single_occurrences vs : (forall v, occurrences v vs <= 1) -> NoDup vs.
Proof.
  induction vs as [|x vs IH]; intros H; [constructor|].
  assert (Hstep : forall v, occurrences v vs <= occurrences v (x :: vs)).
  { intros v. change (x :: vs) with ([x] ++ vs). rewrite occurrences_app. pose proof (occurrences_nonneg v [x]). lia. }
  constructor; [|apply IH; intros v; specialize (H v); specialize (Hstep v); lia].
  intros Hx. specialize (H (N.to_nat x)). change (x :: vs) with ([x] ++ vs) in H. rewrite occurrences_app, occurrences_one in H.
  rewrite decide_True in H by done. apply list_elem_of_split in Hx as (l & k & ->). change (x :: k) with ([x] ++ k) in H.
  rewrite !occurrences_app, occurrences_one, decide_True in H by done.
  pose proof (occurrences_nonneg (N.to_nat x) l). pose proof (occurrences_nonneg (N.to_nat x) k). lia.
Qed.

(** The [u8] counts of the definitions of the values below [n]. *)
Record counted (n : nat) (past : list ValueId) (counts : list Z) : Prop := {
  counted_length : length counts = n;
  counted_count v c : counts !! v = Some c -> c = Z.min 255 (occurrences v past);
}.

Lemma counted_start n : counted n [] (replicate n 0).
Proof. split; [by rewrite length_replicate|]. intros v c [-> _]%lookup_replicate. done. Qed.

Lemma returns_define_polled f n past counts v : counted n past counts ->
  returns (define_polled f counts v) (fun counts' => known n v -> counted n (past ++ [v]) counts').
Proof.
  intros [Hl Hc]. unfold define_polled, define_value. eapply (returns_bind _ _ (fun _ => True)); [by apply returns_polled|intros _ _].
  destruct (counts !! N.to_nat v) as [c|] eqn:E.
  - apply returns_mret. intros _. split; [by rewrite length_insert|]. intros w d. rewrite occurrences_app, occurrences_one. case_decide as Hw.
    + subst w. rewrite list_lookup_insert_eq by (by eapply lookup_lt_Some). intros [= <-]. apply Hc in E as ->.
      unfold saturating_add. pose proof (occurrences_nonneg (N.to_nat v) past). change (2 ^ 8 - 1) with 255. lia.
    + rewrite list_lookup_insert_ne by done. intros Hd. apply Hc in Hd as ->. lia.
  - apply lookup_ge_None in E. eapply (returns_bind _ _ (fun _ => True)); [by apply returns_push|intros _ _]. apply returns_mret.
    unfold known. lia.
Qed.

Lemma accepts_define_polled f n past counts v : counted n past counts ->
  accepts (define_polled f counts v) (fun counts' => known n v /\ counted n (past ++ [v]) counts').
Proof.
  intros H. eapply accepts_mono; [apply accepts_and; [by apply accepts_returns, returns_define_polled|]|].
  - apply (fun m => m : accepts (define_polled f counts v) (fun _ => known n v)).
    unfold define_polled. eapply accepts_bind; [honest|apply accepts_any|intros _ _]. unfold define_value.
    destruct (counts !! N.to_nat v) as [c|] eqn:E; [apply accepts_mret|].
    + apply lookup_lt_Some in E. unfold known. by rewrite <- (counted_length _ _ _ H).
    + eapply accepts_bind; [honest|apply (accepts_push _ (fun _ => False))|done].
  - intros counts' [Hc Hk]. cbv beta in *. auto.
Qed.

Lemma accepts_define_all f n past counts vs : counted n past counts ->
  accepts (fold_of (define_polled f) vs counts) (fun counts' => Forall (known n) vs /\ counted n (past ++ vs) counts').
Proof.
  intros H. apply (accepts_fold _ (fun vs counts => Forall (known n) vs /\ counted n (past ++ vs) counts)).
  - honest.
  - by rewrite app_nil_r.
  - intros vs' v rest c _ [Hk Hc]. eapply accepts_mono; [by apply accepts_define_polled|]. intros c' [Hv Hc'].
    rewrite <- app_assoc in Hc'. split; [|done]. apply Forall_app. auto.
Qed.

(** Counts of one make the definitions a permutation of the values. *)
Lemma counted_permutation n vs counts : counted n vs counts -> Forall (known n) vs ->
  Forall (fun e : nat * Z => e.2 = 1) (enumerate counts) -> vs ≡ₚ map N.of_nat (seq 0 n).
Proof.
  intros [Hl Hc] Hk H1. rewrite Forall_forall in H1. rewrite Forall_forall in Hk.
  assert (Hocc : forall v, (v < n)%nat -> occurrences v vs = 1).
  { intros v Hv. destruct (lookup_lt_is_Some_2 counts v) as [c E]; [lia|]. specialize (H1 (v, c)).
    rewrite elem_enumerate in H1. specialize (H1 E). simpl in H1. apply Hc in E. lia. }
  apply NoDup_Permutation.
  - apply single_occurrences. intros v. destruct (decide (v < n)%nat) as [Hv|Hv]; [by rewrite Hocc|].
    unfold occurrences. destruct (filter _ vs) as [|x l] eqn:E; [done|exfalso].
    assert (Hx : x ∈ filter (fun x => N.to_nat x = v) vs) by (rewrite E; left).
    apply list_elem_of_filter in Hx as [Hx Hin]. apply Hk in Hin. unfold known in Hin. lia.
  - apply NoDup_fmap_2_strong, NoDup_seq. intros. lia.
  - intros x. split.
    + intros Hx%Hk. apply list_elem_of_fmap. exists (N.to_nat x). rewrite elem_of_seq. unfold known in Hx. split; lia.
    + intros (v & -> & Hv%elem_of_seq)%list_elem_of_fmap. specialize (Hocc v ltac:(lia)). unfold occurrences in Hocc.
      destruct (filter _ vs) as [|x l] eqn:E; [done|].
      assert (Hx : x ∈ filter (fun x => N.to_nat x = v) vs) by (rewrite E; left).
      apply list_elem_of_filter in Hx as [Hx Hin]. by replace (N.of_nat v) with x by lia.
Qed.

(** ** Activations *)

Definition no_activations (module : FlowWir) (f : FlowFunction) (vs : list ValueId) : Prop :=
  Forall (fun v => is_activation_value module f v = false) vs.

Record instruction_delivers (module : FlowWir) (f : FlowFunction) (b : Block) (index : nat) (i : Instruction) : Prop := {
  results_delivered : Forall (fun r => is_activation_value module f r = true -> is_async_call (operation i) = true /\ results i = [r]) (results i);
  operands_delivered : no_activations module f (flow_operation_values (operation i));
  call_delivered : is_async_call (operation i) = true -> is_immediate_suspend b index i = true;
}.

Definition terminator_delivers (module : FlowWir) (f : FlowFunction) (b : Block) : Prop :=
  match terminator b with
  | Suspend _ activation _ => immediately_defined b activation = true
  | t => no_activations module f (flow_terminator_values t)
  end.

Record block_delivers (module : FlowWir) (f : FlowFunction) (b : Block) : Prop := {
  block_parameters_delivered : no_activations module f (block_parameters b);
  instructions_delivered index i : instructions b !! index = Some i -> instruction_delivers module f b index i;
  terminator_delivered : terminator_delivers module f b;
}.

Definition suspend_state (b : Block) : list Z := match terminator b with Suspend state _ _ => [state] | _ => [] end.

(** An activation is the only result of an asynchronous call at the end of a
    block, which suspends on it; nothing else uses it. The suspensions are
    numbered from zero. *)
Record activations_delivered (module : FlowWir) (f : FlowFunction) : Prop := {
  delivered_parameters : no_activations module f (parameters f);
  delivered_blocks : Forall (block_delivers module f) (blocks f);
  delivered_states : concat (map suspend_state (blocks f)) ≡ₚ map Z.of_nat (seq 0 (length (concat (map suspend_state (blocks f)))));
}.

Lemma find_none_Forall {A} (p : A -> bool) l : find p l = None -> Forall (fun x => p x = false) l.
Proof. intros H. apply Forall_forall. intros x Hx. apply (List.find_none _ _ H). by apply list_elem_of_In. Qed.

Lemma accepts_no_activation module f k vs : accepts (no_activation module f k vs) (fun _ => no_activations module f vs).
Proof.
  unfold no_activation. destruct (find _ vs) eqn:E; [apply accepts_push|]. apply accepts_mret. by apply find_none_Forall.
Qed.

Lemma accepts_count_activations module f i d : accepts (fold_of (count_activation module f i) (results i) d)
  (fun _ => Forall (fun r => is_activation_value module f r = true -> is_async_call (operation i) = true /\ results i = [r]) (results i)).
Proof.
  apply (accepts_fold _ (fun past _ => Forall (fun r => is_activation_value module f r = true -> is_async_call (operation i) = true /\ results i = [r]) past));
    [honest|constructor|]. intros past r rest d' Hr Hpast. unfold count_activation.
  eapply accepts_bind; [honest|apply accepts_any|intros _ _].
  eapply (accepts_mono _ (fun _ => is_activation_value module f r = true -> is_async_call (operation i) = true /\ results i = [r])).
  - destruct (is_activation_value module f r); [|by apply accepts_mret].
    destruct (is_async_call (operation i)); simpl.
    + destruct (Z.eqb_spec (len (results i)) 1) as [Hl|]; [|eapply accepts_bind; [honest|apply (accepts_push _ (fun _ => False))|done]].
      apply accepts_mret. intros _. split; [done|]. rewrite Hr in Hl |- *. unfold len in Hl. rewrite length_app in Hl. simpl in Hl.
      destruct past; [|simpl in Hl; lia]. destruct rest; [done|simpl in Hl; lia].
    + eapply accepts_bind; [honest|apply (accepts_push _ (fun _ => False))|done].
  - intros ? H. apply Forall_app. split; [done|]. by apply Forall_singleton.
Qed.

Lemma accepts_deliver_instruction module f b d index i :
  accepts (deliver_instruction module f b d (index, i)) (fun _ => instruction_delivers module f b index i).
Proof.
  unfold deliver_instruction. eapply accepts_bind; [honest|apply accepts_any|intros _ _].
  checked accepts_count_activations as H1. checked accepts_no_activation as H2. checked accepts_push_if as H3.
  apply accepts_mret. split; [done|done|]. intros E. rewrite E in H3. by apply negb_false_iff in H3.
Qed.

Lemma accepts_deliver_terminator module f b s states :
  accepts (deliver_terminator module f b s states) (fun r => r.2 = states ++ suspend_state b /\ terminator_delivers module f b).
Proof.
  unfold deliver_terminator, suspend_state, terminator_delivers. destruct (terminator b);
    try (checked accepts_no_activation as H; apply accepts_mret; by rewrite app_nil_r).
  eapply accepts_bind; [honest|apply accepts_returns, (returns_scratch_push _ _ (fun l => l = states ++ [state])); done|intros ? ->].
  checked accepts_push_if as H. apply accepts_mret. split; [done|]. by apply negb_false_iff in H.
Qed.

Lemma accepts_deliver_block module f st b :
  accepts (deliver_block module f st b) (fun r => r.2 = st.2 ++ suspend_state b /\ block_delivers module f b).
Proof.
  destruct st as [[d s] states]. unfold deliver_block. eapply accepts_bind; [honest|apply accepts_any|intros _ _].
  eapply accepts_bind; [honest|apply accepts_each; [honest|intros ? _; apply accepts_push_if]|intros ? H1; cbv beta in H1].
  eapply (accepts_bind _ _ (fun _ => Forall (fun e => instruction_delivers module f b e.1 e.2) (enumerate (instructions b)))); [honest| |intros ? H2].
  { apply (accepts_fold _ (fun past _ => Forall (fun e => instruction_delivers module f b e.1 e.2) past)); [honest|constructor|].
    intros past [index i] rest d' _ Hpast. eapply accepts_mono; [apply accepts_deliver_instruction|]. intros ? H.
    apply Forall_app. split; [done|]. by apply Forall_singleton. }
  eapply accepts_bind; [honest|apply accepts_deliver_terminator|]. intros [s' states'] [Hstates Ht]. simpl in Hstates. subst states'. apply accepts_mret.
  split; [done|]. split; [done| |done]. intros index i Hi. rewrite Forall_forall in H2. apply (H2 (index, i)). by apply elem_enumerate.
Qed.

Lemma dense_list {A} (f : nat -> A) (xs : list A) :
  (forall i x, xs !! i = Some x -> x = f i) -> xs = map f (seq 0 (length xs)).
Proof.
  intros H. apply list_eq. intros i. rewrite list_lookup_fmap. destruct (xs !! i) as [x|] eqn:E.
  - rewrite lookup_seq_lt by (by eapply lookup_lt_Some). simpl. f_equal. by apply H.
  - apply lookup_ge_None in E. by rewrite lookup_seq_ge by done.
Qed.

Lemma accepts_activation_contract module f :
  accepts (validate_activation_contract module f) (fun _ => activations_delivered module f).
Proof.
  unfold validate_activation_contract. eapply accepts_bind; [honest|apply accepts_any|intros d _].
  eapply accepts_bind; [honest|apply accepts_any|intros s _].
  eapply (accepts_bind _ _ (fun _ => no_activations module f (parameters f))); [honest| |intros ? H1].
  { apply accepts_each; [honest|intros p _]. eapply accepts_bind; [honest|apply accepts_any|intros _ _]. apply accepts_push_if. }
  eapply accepts_bind; [honest|apply accepts_returns, (returns_scratch _ (fun l : list Z => l = [])); done|intros ? ->].
  eapply (accepts_bind _ _ (fun r => r.2 = concat (map suspend_state (blocks f)) /\ Forall (block_delivers module f) (blocks f))); [honest| |].
  { apply (accepts_fold _ (fun past r => r.2 = concat (map suspend_state past) /\ Forall (block_delivers module f) past)); [honest|by split|].
    intros past b rest st _ [Hs Hd]. eapply accepts_mono; [apply accepts_deliver_block|]. intros r [-> Hb].
    rewrite Hs, map_app, concat_app. simpl. rewrite app_nil_r. split; [done|]. apply Forall_app. auto. }
  intros [[d' s'] states] [Hstates Hblocks]. simpl in Hstates. subst states.
  eapply accepts_bind; [honest|apply accepts_returns, (returns_sort_key (fun x => x) Z.compare)|intros states [Hp _]].
  eapply (accepts_bind _ _ (fun _ => Forall (fun e : nat * Z => e.2 = Z.of_nat e.1) (enumerate states))); [honest| |intros ? H2].
  { apply accepts_each; [intros []; honest|intros [index state] _]. eapply accepts_bind; [honest|apply accepts_any|intros _ _].
    eapply accepts_mono; [apply accepts_push_if|]. intros ? H%negb_false_iff%Z.eqb_eq. done. }
  eapply accepts_mono; [apply accepts_any|]. intros ? _. split; [done|done|].
  rewrite <- Hp at 1. rewrite <- (Permutation_length Hp). rewrite <- (dense_list Z.of_nat states) at 1; [done|].
  intros i x Hx. rewrite Forall_forall in H2. apply (H2 (i, x)). by apply elem_enumerate.
Qed.

(** ** Sources, references and records *)

(** A source span lies in a file of the module. *)
Definition sourced (module : FlowWir) (source : option Span) : Prop :=
  match source with
  | Some span => file_id (file span) < hir_files (source_summary module) /\ start_ (range span) <= end_ (range span)
  | None => True
  end.

Lemma bad_source_sourced module source : bad_source module source = false -> sourced module source.
Proof.
  destruct source as [span|]; [|done]. unfold bad_source, valid_source_span. intros H%negb_false_iff. split_andb. by bool_to_prop.
Qed.

Definition role_records (r : FunctionRole) : list (arena * N) :=
  match r with
  | RoleActorTurn id => [(ActorTable, id)]
  | RoleTaskEntry id => [(TaskTable, id)]
  | RoleIsr id => [(DeviceTable, id)]
  | RoleOrdinary | RoleCleanup | RoleImageEntry | RoleTest => []
  end.

Lemma accepts_role module f : accepts (require_role module f) (fun _ => Forall (recorded module) (role_records (role f))).
Proof.
  unfold require_role. destruct (role f); cbn [role_records]; try (apply accepts_mret; constructor);
    (eapply accepts_mono; [apply accepts_require_id|intros ? H; by apply Forall_singleton]).
Qed.

Lemma accepts_canonical k o ids : accepts (require_canonical_ids k o ids) (fun _ => StronglySorted N.lt ids).
Proof.
  unfold require_canonical_ids. apply accepts_calling; [honest|].
  eapply (accepts_bind _ _ (fun st => st.1 = last ids /\ (st.2 = true -> StronglySorted N.lt ids))); [honest| |].
  - apply (accepts_fold _ (fun past st => st.1 = last past /\ (st.2 = true -> StronglySorted N.lt past))); [honest|by split; [|constructor]|].
    intros past x rest [prior ok] _ [Hprior Hok]. cbn [fst snd] in *. unfold canonical_step.
    eapply accepts_bind; [honest|apply accepts_any|intros _ _]. apply accepts_mret. cbn [fst snd].
    split; [by rewrite last_snoc|]. intros [Hp Hlt]%andb_true_iff. apply strongly_sorted_snoc; [intros ? ? ?; lia|auto|].
    intros y Hy. rewrite Hprior, Hy in Hlt. by apply N.ltb_lt.
  - intros [prior ok] [_ Hok]. cbn [fst snd] in *. destruct ok; [by apply accepts_mret, Hok|apply accepts_push].
Qed.

(** What the record of a function says of itself. *)
Record function_recorded (module : FlowWir) (f : FlowFunction) : Prop := {
  function_named : blank (function_name f) = false;
  function_semantic : (origin_is_valid module f).1 < semantic_functions (source_summary module);
  function_origin_fits : (origin_is_valid module f).2 = true;
  function_color_fits : role_color_matches f = true;
  function_sourced : sourced module (function_source f);
}.

Lemma valid_record_recorded module f : valid_function_record module f = true -> function_recorded module f.
Proof.
  unfold valid_function_record. destruct (origin_is_valid module f) as [semantic origin] eqn:E. intros H. split_andb. bool_to_prop.
  split; rewrite ?E; cbn [fst snd]; try done. by apply bad_source_sourced.
Qed.

(** ** One function *)

Definition instruction_checked (module : FlowWir) (f : FlowFunction) (i : Instruction) : Prop :=
  sourced module (instruction_source i) /\ operation_valid module f i.

Record block_checked (module : FlowWir) (f : FlowFunction) (b : Block) : Prop := {
  block_sourced : sourced module (block_source b);
  block_defines : Forall (known (length (values f))) (block_definitions b);
  block_operations : Forall (instruction_checked module f) (instructions b);
  block_terminator_known : Forall (known (length (values f))) (terminator_values (terminator b));
  block_terminator_shape : terminator_shape module f (terminator b);
}.

Record function_valid (module : FlowWir) (f : FlowFunction) : Prop := {
  valid_record : function_recorded module f;
  valid_role : Forall (recorded module) (role_records (role f));
  valid_proofs : Forall (known (length (proofs module))) (function_proofs f);
  valid_proof_order : StronglySorted N.lt (function_proofs f);
  valid_value_ids : map value_id (values f) = map N.of_nat (seq 0 (length (values f)));
  valid_block_ids : map block_id (blocks f) = map N.of_nat (seq 0 (length (blocks f)));
  valid_instruction_ids : map instruction_id (concat (map instructions (blocks f)))
    = map N.of_nat (seq 0 (length (concat (map instructions (blocks f)))));
  valid_value_types : Forall (fun v => known (length (types module)) (value_ty v) /\ sourced module (value_source v)) (values f);
  valid_result_types : Forall (fun ty => known (length (types module)) ty
    /\ record_is module ty (fun record => is_activation (kind record)) = false) (result_types f);
  valid_entry : known (length (blocks f)) (entry f);
  valid_definitions : definitions (parameters f) (blocks f) ≡ₚ map N.of_nat (seq 0 (length (values f)));
  valid_blocks : Forall (block_checked module f) (blocks f);
  valid_activations : activations_delivered module f;
  valid_ssa : ssa_valid module f;
}.

Lemma dense_ids (ids : list N) : Forall (fun e : nat * N => N.to_nat e.2 = e.1) (enumerate ids) -> ids = map N.of_nat (seq 0 (length ids)).
Proof.
  intros H. apply dense_list. intros i x Hx. rewrite Forall_forall in H. specialize (H (i, x)).
  rewrite elem_enumerate in H. specialize (H Hx). simpl in H. lia.
Qed.

Lemma accepts_check_dense k ids : accepts (check_dense k ids) (fun _ => ids = map N.of_nat (seq 0 (length ids))).
Proof.
  unfold check_dense. apply accepts_calling; [honest|].
  eapply accepts_mono; [apply (accepts_each _ _ (fun e : nat * N => N.to_nat e.2 = e.1))|].
  - intros []. honest.
  - intros [expected actual] _. eapply accepts_bind; [honest|apply accepts_any|intros _ _].
    case_bool_decide; [apply accepts_push|]. apply accepts_mret. simpl. destruct (decide (N.to_nat actual = expected)); [done|exfalso; auto].
  - intros ? H. by apply dense_ids.
Qed.

Lemma accepts_operation_called module f i : accepts (calling (validate_operation module f i)) (fun _ => operation_valid module f i).
Proof. apply accepts_calling; [honest|apply accepts_operation]. Qed.

Lemma accepts_validate_instruction module f n past counts ids i : counted n past counts ->
  accepts (validate_instruction module f (counts, ids) i) (fun r =>
    (Forall (known n) (results i) /\ counted n (past ++ results i) r.1) /\ r.2 = ids ++ [instruction_id i] /\ instruction_checked module f i).
Proof.
  intros Hc. unfold validate_instruction. eapply accepts_bind; [honest|apply accepts_any|intros _ _].
  checked accepts_push_if as Hsource. apply bad_source_sourced in Hsource.
  eapply accepts_bind; [honest|apply accepts_returns, (returns_scratch_push _ _ (fun l => l = ids ++ [instruction_id i])); done|intros ? ->].
  checked accepts_define_all as Hd. checked accepts_operation_called as Hop. by apply accepts_mret.
Qed.

Lemma accepts_validate_block module f past counts ids b : counted (length (values f)) past counts ->
  accepts (validate_block module f (counts, ids) b) (fun r =>
    counted (length (values f)) (past ++ block_definitions b) r.1 /\ r.2 = ids ++ map instruction_id (instructions b)
    /\ block_checked module f b).
Proof.
  intros Hc. unfold validate_block. eapply accepts_bind; [honest|apply accepts_any|intros _ _].
  checked accepts_push_if as Hsource. apply bad_source_sourced in Hsource. checked accepts_define_all as Hd. destruct Hd as [Hkp Hcp].
  eapply (accepts_bind _ _ (fun r => (Forall (known (length (values f))) (concat (map results (instructions b)))
    /\ counted (length (values f)) (past ++ block_definitions b) r.1)
    /\ r.2 = ids ++ map instruction_id (instructions b) /\ Forall (instruction_checked module f) (instructions b))); [honest| |].
  { apply (accepts_fold _ (fun done r => (Forall (known (length (values f))) (concat (map results done))
      /\ counted (length (values f)) (past ++ block_parameters b ++ concat (map results done)) r.1)
      /\ r.2 = ids ++ map instruction_id done /\ Forall (instruction_checked module f) done)).
    - honest.
    - simpl. rewrite !app_nil_r. done.
    - intros done i rest [counts' ids'] _ ([Hk Hcd] & Hids & Hop). simpl in Hids. subst ids'.
      eapply accepts_mono; [by apply accepts_validate_instruction|]. intros r ([Hki Hci] & -> & Hopi).
      rewrite !map_app, !concat_app. simpl. rewrite app_nil_r. rewrite <- !app_assoc in Hci. rewrite <- app_assoc.
      split_and!; [by apply Forall_app|exact Hci|reflexivity|]. apply Forall_app. split; [exact Hop|by apply Forall_singleton]. }
  intros [counts' ids'] ([Hk Hcd] & Hids & Hop). eapply accepts_bind; [honest|apply accepts_calling; [honest|apply accepts_terminator]|].
  intros ? [Hv Ht]. apply accepts_mret. split_and!; [done..|]. split; [done|by apply Forall_app|done..].
Qed.

Lemma accepts_result_types module f :
  accepts (each_of (result_types f) (fun result =>
        _ ← polled;
        _ ← require_id "function result type" result (length (types module));
        push_if (record_is module result (fun ty => is_activation (kind ty))) (invalid_record "activation function result" (function_id f))))
    (fun _ => Forall (fun ty => known (length (types module)) ty
      /\ record_is module ty (fun record => is_activation (kind record)) = false) (result_types f)).
Proof.
  apply accepts_each; [honest|intros ty _]. eapply accepts_bind; [honest|apply accepts_any|intros _ _].
  checked accepts_require_id as H. eapply accepts_mono; [apply accepts_push_if|]. intros ? Ha. done.
Qed.

Lemma accepts_value_types module f :
  accepts (each_of (values f) (fun value =>
        _ ← polled;
        _ ← require_id "value type" (value_ty value) (length (types module));
        push_if (bad_source module (value_source value)) (invalid_record "value source" (value_id value))))
    (fun _ => Forall (fun v => known (length (types module)) (value_ty v) /\ sourced module (value_source v)) (values f)).
Proof.
  apply accepts_each; [honest|intros ty _]. eapply accepts_bind; [honest|apply accepts_any|intros _ _].
  checked accepts_require_id as H. eapply accepts_mono; [apply accepts_push_if|]. intros ? Ha%bad_source_sourced. done.
Qed.

Lemma accepts_blocks module f counts ids : counted (length (values f)) (parameters f) counts ->
  accepts (fold_of (validate_block module f) (blocks f) (counts, ids)) (fun r =>
    counted (length (values f)) (definitions (parameters f) (blocks f)) r.1
    /\ r.2 = ids ++ map instruction_id (concat (map instructions (blocks f))) /\ Forall (block_checked module f) (blocks f)).
Proof.
  intros Hc. apply (accepts_fold _ (fun past r =>
    counted (length (values f)) (definitions (parameters f) past) r.1
    /\ r.2 = ids ++ map instruction_id (concat (map instructions past)) /\ Forall (block_checked module f) past)).
  - honest.
  - unfold definitions. simpl. rewrite !app_nil_r. done.
  - intros past b rest [counts' ids'] _ (Hcp & Hids & Hb). simpl in Hids. subst ids'.
    eapply accepts_mono; [by apply accepts_validate_block|]. intros r (Hcr & -> & Hbr).
    unfold definitions in *. rewrite !map_app, !concat_app, map_app. simpl. rewrite !app_nil_r. rewrite <- app_assoc in Hcr. rewrite <- app_assoc.
    split_and!; [exact Hcr|reflexivity|]. apply Forall_app. split; [exact Hb|by apply Forall_singleton].
Qed.

Lemma definitions_known module f : Forall (known (length (values f))) (parameters f) -> Forall (block_checked module f) (blocks f) ->
  Forall (known (length (values f))) (definitions (parameters f) (blocks f)).
Proof.
  intros Hp Hb. apply Forall_app. split; [done|]. apply Forall_concat, Forall_map. eapply Forall_impl; [exact Hb|]. by intros b [].
Qed.

Lemma accepts_function_proofs module f :
  accepts (each_of (function_proofs f) (fun proof => _ ← polled; require_id "function proof" proof (length (proofs module))))
    (fun _ => Forall (known (length (proofs module))) (function_proofs f)).
Proof.
  apply accepts_each; [honest|intros p _]. eapply accepts_bind; [honest|apply accepts_any|intros _ _]. apply accepts_require_id.
Qed.

Lemma accepts_function module f : accepts (validate_function module f) (fun _ => function_valid module f).
Proof.
  unfold validate_function. eapply accepts_bind; [honest|apply accepts_any|intros _ _].
  checked accepts_push_if as Hrecord. apply negb_false_iff, valid_record_recorded in Hrecord.
  checked accepts_check_dense as Hvalues. checked accepts_check_dense as Hblocks. checked accepts_value_types as Hty.
  checked accepts_role as Hrole. checked accepts_result_types as Hresults.
  checked accepts_function_proofs as Hproofs. checked accepts_canonical as Horder.
  checked accepts_push_if as Hentry. apply Nat.leb_gt in Hentry.
  eapply accepts_bind; [honest|apply accepts_returns, (returns_filled _ _ (fun l => l = replicate (length (values f)) 0)); done|intros ? ->].
  eapply accepts_bind; [honest|apply accepts_define_all, counted_start|intros counts [Hkp Hcp]].
  eapply accepts_bind; [honest|apply accepts_returns, (returns_scratch _ (fun l : list N => l = [])); done|intros ? ->].
  eapply accepts_bind; [honest|by apply accepts_blocks|intros [counts' ids] (Hc & Hids & Hchecked)]. simpl in Hids. subst ids.
  checked accepts_check_dense as Hinstructions.
  eapply (accepts_bind _ _ (fun _ => Forall (fun e : nat * Z => e.2 = 1) (enumerate counts'))); [honest| |intros ? H1].
  { apply accepts_each; [honest|intros e _]. unfold check_count. eapply accepts_bind; [honest|apply accepts_any|intros _ _].
    eapply accepts_mono; [apply accepts_push_if|]. intros ? H%negb_false_iff%Z.eqb_eq. done. }
  eapply accepts_bind; [honest|apply accepts_calling; [honest|apply accepts_activation_contract]|intros ? Hact].
  eapply accepts_mono; [apply accepts_calling; [honest|by apply validate_ssa_accepts]|]. intros ? Hssa.
  rewrite length_map in Hvalues, Hblocks, Hinstructions. split; try done.
  eapply counted_permutation; [done| |done]. by eapply definitions_known.
Qed.

Lemma accepts_functions module : accepts (validate_functions module) (fun _ => Forall (function_valid module) (functions module)).
Proof. apply accepts_each; [honest|]. intros f _. apply accepts_function. Qed.

(** C4: validation accepts only valid functions. When the checks of the functions
    of a module end without an error, an interruption or a lack of memory, every
    function has a consistent record and ordered proofs, keeps its sources inside
    the files of the module, has dense identities, defines each of its values
    exactly once, and refers only to values, blocks and records (types, globals,
    functions, proofs, actors, tasks, devices, regions, activations, checkpoints)
    that exist; the methods of [ActorReserve] and [MailboxReceive] alone are left
    to the checks of the whole module. The arguments of edges and calls have the
    number and types of the parameters they are for, returns the number of the
    results, every activation is delivered at once, all blocks are reachable, and
    values are used only where a definition dominates. *)
Theorem validate_functions_accepts module limits c :
  may_return (validate_functions module (new_context limits)) (Some tt, c) -> clean c ->
  Forall (function_valid module) (functions module).
Proof. intros Hrun Hc. exact (accepts_functions module _ _ _ Hrun Hc). Qed.
