(* ===== verification/Pipeline.v ===== *)
(** The driver of [src/crates/wrela-flow-opt/src/development.rs]: the checks
    made after every pass, the links between the test table and the functions,
    the canonical sequence of passes, and the report on it. *)

From stdpp Require Import base numbers list option gmap strings.
From S2P Require Import Prelude Bytes Interrupt BuildModel FlowWir ScalarFold Optimizer FlowOperands FoldPass ControlPass CompactPass DeadPass FlowModule ModelScan.

#[local] Open Scope Z_scope.

(** ** Updating a module *)

Definition with_functions_and_tests (w : FlowWir) (functions : list FlowFunction) (tests : list TestEntry) : FlowWir := {|
  version := version w;
  wir_name := wir_name w;
  build := build w;
  source_summary := source_summary w;
  types := types w;
  globals := globals w;
  functions := functions;
  actors := actors w;
  tasks := tasks w;
  devices := devices w;
  pools := pools w;
  regions := regions w;
  activations := activations w;
  schedulers := schedulers w;
  proofs := proofs w;
  checkpoints := checkpoints w;
  tests := tests;
  compiled_test_group := compiled_test_group w;
  startup_order := startup_order w;
  shutdown_order := shutdown_order w;
  image_entry := image_entry w;
  wir_static_bytes := wir_static_bytes w;
  wir_peak_bytes := wir_peak_bytes w;
|}.
Definition with_functions (w : FlowWir) (functions : list FlowFunction) : FlowWir :=
  with_functions_and_tests w functions (tests w).
Definition with_tests (w : FlowWir) (tests : list TestEntry) : FlowWir :=
  with_functions_and_tests w (functions w) tests.

(** ** Counting *)

Definition add_function_count (total : Z) (f : FlowFunction) : pass Z :=
  _ ← checkpoint;
  function_count ← function_instruction_count f;
  pure_result (ok_or (checked_add 64 total function_count) (InvalidReport "instruction count overflowed")).

Definition instruction_count (w : FlowWir) : pass Z := fold_each add_function_count (functions w) 0.

(** ** The checks after a pass *)

Definition define_verified_value (pass_ : string) (definitions : list Z) (value : ValueId) : pass (list Z) :=
  match definitions !! N.to_nat value with
  | None => proof_violation pass_ "a definition names an unknown value"
  | Some count =>
      match checked_add 8 count 1 with
      | None => proof_violation pass_ "value definition count overflowed"
      | Some next => mret (<[N.to_nat value := next]> definitions)
      end
  end.

(** [for value in values { work.checkpoint()?; define_verified_value(..)? }]. *)
Definition define_verified_values (pass_ : string) (vs : list ValueId) (definitions : list Z) : pass (list Z) :=
  fold_each (fun definitions v => _ ← checkpoint; define_verified_value pass_ definitions v) vs definitions.

Definition verify_operation_references (op : FlowOperation ValueId) (f : FlowFunction) (w : FlowWir)
    (pass_ : string) (limits : OptimizationLimits) : pass unit :=
  invalid_value ← for_each_operation_value op
    (fun invalid_value v => invalid_value || (length (values f) <=? N.to_nat v)%nat) false;
  if invalid_value : bool then proof_violation pass_ "an operation names an unknown value" else
  proofs_ ← operation_proofs op limits;
  if existsb (fun proof => length (proofs w) <=? N.to_nat proof)%nat proofs_
  then proof_violation pass_ "an operation names an unknown proof" else mret tt.

Definition verify_terminator_references (t : Terminator ValueId) (f : FlowFunction) (pass_ : string) : pass unit :=
  invalid_value ← for_each_terminator_value t
    (fun invalid_value v => invalid_value || (length (values f) <=? N.to_nat v)%nat) false;
  invalid_block ← for_each_edge t
    (fun invalid_block b => invalid_block || (length (blocks f) <=? N.to_nat b)%nat) false;
  if invalid_value || invalid_block
  then proof_violation pass_ "a terminator names an unknown value or block" else mret tt.

Definition verify_value (pass_ : string) (expected : nat) (v : Value) : pass nat :=
  _ ← checkpoint;
  if negb (N.to_nat (value_id v) =? expected)%nat then proof_violation pass_ "value IDs are not dense"
  else mret (S expected).

Definition verify_instruction (f : FlowFunction) (w : FlowWir) (pass_ : string) (limits : OptimizationLimits)
    (acc : list Z * Z) (i : Instruction) : pass (list Z * Z) :=
  let '(definitions, expected_instruction) := acc in
  _ ← checkpoint;
  if negb (Z.of_N (instruction_id i) =? expected_instruction)
  then proof_violation pass_ "instruction IDs are not dense" else
  expected_instruction ← pure_result (ok_or (checked_add 32 expected_instruction 1)
    (ResourceLimit "FlowWir instructions" (limit_instructions limits)));
  definitions ← define_verified_values pass_ (results i) definitions;
  _ ← verify_operation_references (operation i) f w pass_ limits;
  mret (definitions, expected_instruction).

Definition verify_block (f : FlowFunction) (w : FlowWir) (pass_ : string) (limits : OptimizationLimits)
    (acc : list Z * Z * nat) (b : Block) : pass (list Z * Z * nat) :=
  let '(definitions, expected_instruction, expected_block) := acc in
  _ ← checkpoint;
  if negb (N.to_nat (block_id b) =? expected_block)%nat
  then proof_violation pass_ "block IDs are not dense" else
  definitions ← define_verified_values pass_ (block_parameters b) definitions;
  '(definitions, expected_instruction) ←
    fold_each (verify_instruction f w pass_ limits) (instructions b) (definitions, expected_instruction);
  _ ← verify_terminator_references (terminator b) f pass_;
  mret (definitions, expected_instruction, S expected_block).

Definition verify_definition_count (pass_ : string) (u : unit) (count : Z) : pass unit :=
  _ ← checkpoint;
  if negb (count =? 1) then proof_violation pass_ "a value does not have exactly one definition" else mret u.

(** The body of [for function in &wir.functions]. *)
Definition verify_function (w : FlowWir) (limits : OptimizationLimits) (pass_ : string) (require_reachable : bool)
    (u : unit) (f : FlowFunction) : pass unit :=
  _ ← checkpoint;
  if (length (blocks f) <=? N.to_nat (entry f))%nat
  then proof_violation pass_ "function entry is not a known block" else
  definitions ← filled_vec (length (values f)) 0 "optimizer verification values" (limit_values limits);
  _ ← fold_each (verify_value pass_) (values f) 0%nat;
  definitions ← define_verified_values pass_ (parameters f) definitions;
  '(definitions, _, _) ← fold_each (verify_block f w pass_ limits) (blocks f) (definitions, 0, 0%nat);
  _ ← fold_each (verify_definition_count pass_) definitions tt;
  if require_reachable then
    reachable ← reachable_blocks f limits;
    retained ← all_retained reachable;
    if retained : bool then mret u else proof_violation pass_ "the pass left an unreachable block"
  else mret u.

Definition verify_after_pass (w : FlowWir) (profile : OptimizationProfile) (limits : OptimizationLimits)
    (pass_ : string) (require_reachable : bool) : pass unit :=
  if negb (verify_after_each_pass profile) then mret tt
  else fold_each (verify_function w limits pass_ require_reachable) (functions w) tt.

(** ** The test table *)

Definition link_test (functions : list FlowFunction) (pass_ : string) (acc : list bool * nat) (test : TestEntry)
    : pass (list bool * nat) :=
  let '(listed, expected) := acc in
  _ ← checkpoint;
  match functions !! N.to_nat (entry_function test) with
  | None => proof_violation pass_ "test metadata names an unknown function"
  | Some f =>
      match listed !! N.to_nat (entry_function test) with
      | None => proof_violation pass_ "test metadata function lookup failed"
      | Some slot =>
          if negb (N.to_nat (entry_id test) =? expected)%nat || slot || negb (bool_decide (role f = RoleTest))
          then proof_violation pass_ "test metadata is non-dense, duplicated, or names a non-test function"
          else mret (<[N.to_nat (entry_function test) := true]> listed, S expected)
      end
  end.

(** Indexing [listed] by the position of a function cannot panic: the vector is
    as long as the functions. *)
Definition check_listed (pass_ : string) (u : unit) (fl : FlowFunction * bool) : pass unit :=
  _ ← checkpoint;
  if negb (bool_decide (bool_decide (role fl.1 = RoleTest) = fl.2))
  then proof_violation pass_ "test function set drifted from test metadata" else mret u.

Definition verify_test_table_links (functions : list FlowFunction) (tests : list TestEntry)
    (limits : OptimizationLimits) (pass_ : string) : pass unit :=
  _ ← pure_result (ensure_limit (len tests) "FlowWir tests" (limit_tests limits));
  listed ← filled_vec (length functions) false "optimizer test function set" (limit_functions limits);
  '(listed, _) ← fold_each (link_test functions pass_) tests (listed, 0%nat);
  fold_each (check_listed pass_) (zip functions listed) tt.

(** ** The sequence of passes *)

(** The checks between two passes. *)
Definition verify_pass (w : FlowWir) (tests : list TestEntry) (profile : OptimizationProfile)
    (limits : OptimizationLimits) (pass_ : string) (require_reachable : bool) : pass unit :=
  _ ← verify_after_pass w profile limits pass_ require_reachable;
  verify_test_table_links (functions w) tests limits pass_.

(** The entry of a pass in the report. *)
Definition pass_statistics (pass_ : string) (limits : OptimizationLimits) (iterations_ : Z) (changed : bool)
    (before after test_entries : Z) : pass PassStatistics :=
  name ← report_text pass_ limits;
  mret {| statistics_pass := name; iterations := iterations_; statistics_changed := changed;
          instructions_before := before; instructions_after := after;
          test_entries_before := test_entries; test_entries_after := test_entries;
          test_table_preserved := true |}.

(** One pass that may drop instructions: run, recount, verify, report. *)
Definition shrinking_pass (pass_ : string) (run_pass : pass (list FlowFunction * bool)) (w : FlowWir)
    (tests : list TestEntry) (profile : OptimizationProfile) (limits : OptimizationLimits)
    (before test_entries : Z) : pass (FlowWir * Z * PassStatistics) :=
  '(fs, removed) ← run_pass;
  let w := with_functions w fs in
  current ← instruction_count w;
  _ ← verify_pass w tests profile limits pass_ true;
  statistics ← pass_statistics pass_ limits 1 removed before current test_entries;
  mret (w, current, statistics).

(** The mutable pipeline between taking the tests out and putting them back. *)
Definition run_passes (w : FlowWir) (tests : list TestEntry) (profile : OptimizationProfile)
    (limits : OptimizationLimits) (current test_entries : Z) : pass (FlowWir * list PassStatistics) :=
  let types := types w in
  _ ← verify_test_table_links (functions w) tests limits "pipeline-input";
  '(fs, (folded, fold_iterations)) ← fold_scalar_constants types (functions w) profile limits;
  let w := with_functions w fs in
  _ ← verify_pass w tests profile limits CONSTANT_FOLD_PASS false;
  fold_statistics ← pass_statistics CONSTANT_FOLD_PASS limits fold_iterations folded current current test_entries;
  '(fs, simplified) ← simplify_constant_control_flow types (functions w) limits;
  let w := with_functions w fs in
  _ ← verify_pass w tests profile limits CONTROL_SIMPLIFY_PASS false;
  control_statistics ← pass_statistics CONTROL_SIMPLIFY_PASS limits 1 simplified current current test_entries;
  '(w, current, unreachable_statistics) ←
    shrinking_pass UNREACHABLE_PASS (eliminate_unreachable_blocks (functions w) limits) w tests profile limits
      current test_entries;
  '(w, current, check_statistics) ←
    (if is_aggressive (profile_level profile) then
       '(w, current, statistics) ←
         shrinking_pass PROVEN_TRUE_CHECK_PASS (eliminate_proven_true_checks types (functions w) limits) w tests
           profile limits current test_entries;
       mret (w, current, [statistics])
     else mret (w, current, []));
  '(w, _, dead_statistics) ←
    shrinking_pass DEAD_PURE_PASS (eliminate_dead_pure_instructions types (functions w) limits) w tests profile
      limits current test_entries;
  mret (w, [fold_statistics; control_statistics; unreachable_statistics] ++ check_statistics ++ [dead_statistics]).

(** The decisions of a session belong to the pipeline: it starts with an empty
    sink and hands out what was collected ([DecisionSink::finish]). *)
Definition set_sink (sink : DecisionSink) : pass unit := fun s => mret (tt, {| work := work s; decisions := sink |}).
Definition finish : pass (list OptimizationDecision) := fun s => mret (sink_decisions (decisions s), s).

Definition execute_pipeline (w : FlowWir) (profile : OptimizationProfile) (limits : OptimizationLimits)
    (input_resources : ModelResources) : pass (FlowWir * OptimizationReport) :=
  names ← pure_result (pipeline_passes (profile_level profile));
  _ ← pure_result (ensure_limit (len names) "optimization passes" (limit_passes limits));
  _ ← reserve_items (len names) "optimization passes" (limit_passes limits);
  sink ← pure_result (DecisionSink_new profile limits);
  _ ← set_sink sink;
  let tests_ := tests w in
  let w := with_tests w [] in
  test_entries ← pure_result (ok_or (try_u32 (len tests_)) (ResourceLimit "FlowWir tests" (limit_tests limits)));
  '(w, statistics) ← run_passes w tests_ profile limits (res_instructions input_resources) test_entries;
  collected ← finish;
  mret (with_tests w tests_,
        {| report_profile := profile; passes := statistics; report_decisions := collected |}).

(** ** The report *)

Definition enforce_growth (profile : OptimizationProfile) (input output : ModelResources) : result OptimizeError unit :=
  let overflow := InvalidReport "optimization growth calculation overflow" in
  product ← ok_or (checked_mul 64 (res_instructions input) (maximum_ir_growth_percent profile)) overflow;
  allowed ← ok_or (checked_add 64 (res_instructions input) (product / 100)) overflow;
  ensure_limit (res_instructions output) "optimized IR instructions" allowed.

Definition noncanonical_statistics (profile : OptimizationProfile) (test_entries previous : Z)
    (st : PassStatistics) (expected_name : string) : bool :=
  negb (bool_decide (statistics_pass st = ascii expected_name))
  || (iterations st =? 0)
  || (maximum_iterations profile <? iterations st)
  || negb (instructions_before st =? previous)
  || (negb (statistics_changed st) && negb (instructions_before st =? instructions_after st))
  || negb (test_entries_before st =? test_entries)
  || negb (test_entries_after st =? test_entries)
  || negb (test_table_preserved st).

Definition check_statistics (profile : OptimizationProfile) (test_entries previous : Z)
    (row : PassStatistics * string) : pass Z :=
  _ ← checkpoint;
  if noncanonical_statistics profile test_entries previous row.1 row.2
  then fails (InvalidReport "optimizer pass statistics are noncanonical")
  else mret (instructions_after row.1).

Definition check_decision (expected_passes : list string) (u : unit) (d : OptimizationDecision) : pass unit :=
  _ ← checkpoint;
  if negb (bool_decide (decision_pass d ∈ map ascii expected_passes))
     || bool_decide (decision_subject d = []) || bool_decide (justification d = [])
     || negb (strictly_increasing (relied_on d))
  then fails (InvalidReport "optimization decision is noncanonical") else mret u.

Definition validate_report_shape (report : OptimizationReport)
    (input_instructions output_instructions input_tests output_tests : Z) : pass unit :=
  expected_passes ← pure_result (pipeline_passes (profile_level (report_profile report)));
  _ ← pure_result (guard_err (negb (length (passes report) =? length expected_passes)%nat)
        (InvalidReport "optimizer report does not contain the canonical pass sequence"));
  _ ← pure_result (guard_err (negb (input_tests =? output_tests))
        (InvalidReport "optimization changed the test table length"));
  test_entries ← pure_result (ok_or (try_u32 input_tests)
        (InvalidReport "optimizer test table length cannot be reported"));
  previous ← fold_each (check_statistics (report_profile report) test_entries)
    (zip (passes report) expected_passes) input_instructions;
  _ ← pure_result (guard_err (negb (previous =? output_instructions))
        (InvalidReport "development pass statistics do not end at the output"));
  fold_each (check_decision expected_passes) (report_decisions report) tt.
