(* ===== verification/RenameSound.v ===== *)
(** Lemmas the passes of the optimiser share: traversals of operands and
    operations, renamings of the values and blocks of a function, and the removal
    of instructions that nothing depends on. *)

From stdpp Require Import base numbers list option gmap.
From S2P Require Import Prelude Interrupt FlowWir Optimizer FlowOperands ScalarFold FlowSemantics FoldPass FoldSound CompactPass.

#[local] Open Scope Z_scope.

(** ** Visiting *)

Lemma for_each_returns {X T} (visit : T -> X -> T) xs t s r s' :
  may_returnS (for_each visit xs t) s r s' -> r = foldl visit t xs.
Proof.
  revert t s. induction xs as [|x xs IH]; intros t s; cbn [for_each foldl].
  - by intros [-> _]%may_returnS_mret.
  - intros (_ & s1 & _ & H)%may_returnS_bind. by eapply IH.
Qed.

(** ** A traversal that returns is a traversal without effects *)

Section returns.
  Context {V W : Type} (f : V -> pass W) (g : BlockId -> pass BlockId).
  Context (f0 : V -> option W) (g0 : BlockId -> option BlockId).
  Context (Hf : forall v s w s', may_returnS (f v) s w s' -> f0 v = Some w).
  Context (Hg : forall b s c s', may_returnS (g b) s c s' -> g0 b = Some c).

Lemma mapM_returns {X Y} (step : X -> pass Y) (step0 : X -> option Y) xs s ys s' :
    (forall x s y s', may_returnS (step x) s y s' -> step0 x = Some y) ->
    may_returnS (mapM step xs) s ys s' -> mapM step0 xs = Some ys.
  Proof.
    intros Hs. revert s ys s'. induction xs as [|x xs IH]; intros s ys s'; cbn [mapM].
    - by intros [<- _]%may_returnS_mret.
    - intros (y & s1 & Hy%Hs & H)%may_returnS_bind. apply may_returnS_bind in H as (ys' & s2 & Hys%IH & H).
      apply may_returnS_mret in H as [<- _]. rewrite Hy. cbn [mbind option_bind]. by rewrite Hys.
  Qed.

  (** Take the head of a traversal apart. *)
Ltac returned H :=
    repeat first
      [ apply may_returnS_mret in H as [<- _]
      | let y := fresh "y" in let s1 := fresh "s1" in let Hy := fresh "Hy" in
        apply may_returnS_bind in H as (y & s1 & Hy & H);
        first [apply Hf in Hy | apply Hg in Hy | eapply mapM_returns in Hy; [|first [exact Hf|eassumption]] | idtac];
        cbn [mbind option_bind]; try rewrite Hy; cbn [mbind option_bind] ].

Lemma traverse_part_returns part s part' s' :
    may_returnS (traverse_part f part) s part' s' -> traverse_part f0 part = Some part'.
  Proof. intros H. destruct part; cbn [traverse_part] in *; returned H; done. Qed.

Lemma traverse_option_returns o s o' s' :
    may_returnS (traverse_option f o) s o' s' -> traverse_option f0 o = Some o'.
  Proof. intros H. destruct o; cbn [traverse_option] in *; returned H; done. Qed.

Lemma traverse_operation_returns op s op' s' :
    may_returnS (traverse_operation f op) s op' s' -> traverse_operation f0 op = Some op'.
  Proof.
    intros H. pose proof traverse_part_returns as Hpart.
    destruct op; cbn [traverse_operation] in *; returned H; try done.
    apply traverse_option_returns in Hy. by rewrite Hy.
  Qed.

Lemma traverse_case_returns c s c' s' :
    may_returnS (traverse_case f g c) s c' s' -> traverse_case f0 g0 c = Some c'.
  Proof. intros H. unfold traverse_case in *. returned H. done. Qed.

Lemma traverse_terminator_returns t s t' s' :
    may_returnS (traverse_terminator f g t) s t' s' -> traverse_terminator f0 g0 t = Some t'.
  Proof.
    intros H. pose proof traverse_case_returns as Hcase.
    destruct t; cbn [traverse_terminator] in *; returned H; try done.
    apply traverse_option_returns in Hy. by rewrite Hy.
  Qed.
End returns.

(** ** Reading renamed operands *)

Section rename.
  Context {V W X : Type} (rename : V -> option W) (block : BlockId -> option BlockId).
  Context (read : V -> option X) (read' : W -> option X).
  Context (Hread : forall v w x, rename v = Some w -> read v = Some x -> read' w = Some x).

Lemma mapM_compose {A B C} (r : A -> option B) (e : A -> option C) (e' : B -> option C) xs ys zs :
    (forall a b c, r a = Some b -> e a = Some c -> e' b = Some c) ->
    mapM r xs = Some ys -> mapM e xs = Some zs -> mapM e' ys = Some zs.
  Proof.
    intros He Hr%mapM_Some Hz%mapM_Some. apply mapM_Some. revert zs Hz.
    induction Hr as [|x y xs ys Hxy Hr IH]; intros zs Hz; inversion Hz as [|? z ? zs' Hxz Hz']; subst; constructor.
    - by eapply He.
    - by apply IH.
  Qed.

  (** Both traversals succeed on every operand. *)
Ltac compose H H' :=
    repeat match type of H with
    | context [rename ?v] => let E := fresh "E" in destruct (rename v) eqn:E; cbn [mbind option_bind] in H; [|discriminate H]
    | context [block ?v] => let E := fresh "E" in destruct (block v) eqn:E; cbn [mbind option_bind] in H; [|discriminate H]
    | context [mapM ?g ?l] => let E := fresh "E" in destruct (mapM g l) eqn:E; cbn [mbind option_bind] in H; [|discriminate H]
    end;
    repeat match type of H' with
    | context [read ?v] => let E := fresh "E" in destruct (read v) eqn:E; cbn [mbind option_bind] in H'; [|discriminate H']
    | context [mapM ?g ?l] => let E := fresh "E" in destruct (mapM g l) eqn:E; cbn [mbind option_bind] in H'; [|discriminate H']
    end;
    injection H as <-; injection H' as <-.
Ltac reread Hpart :=
    repeat match goal with
    | E : rename ?v = Some ?w, E' : read ?v = Some ?x |- context [read' ?w] =>
        rewrite (Hread _ _ _ E E'); cbn [mbind option_bind]
    | E : mapM rename ?l = Some ?l', E' : mapM read ?l = Some ?l2 |- context [mapM read' ?l'] =>
        rewrite (mapM_compose _ _ _ _ _ _ Hread E E'); cbn [mbind option_bind]
    | E : mapM _ ?l = Some ?l', E' : mapM _ ?l = Some ?l2 |- context [mapM _ ?l'] =>
        rewrite (mapM_compose _ _ _ _ _ _ Hpart E E'); cbn [mbind option_bind]
    end.

Lemma part_compose part part' x :
    traverse_part rename part = Some part' -> traverse_part read part = Some x -> traverse_part read' part' = Some x.
  Proof. intros H H'. destruct part; cbn [traverse_part] in *; compose H H'; cbn [traverse_part]; reread I; done. Qed.

Lemma option_compose o o' x :
    traverse_option rename o = Some o' -> traverse_option read o = Some x -> traverse_option read' o' = Some x.
  Proof. intros H H'. destruct o; cbn [traverse_option] in *; compose H H'; cbn [traverse_option]; reread I; done. Qed.

Lemma operation_compose op op' x :
    traverse_operation rename op = Some op' -> traverse_operation read op = Some x ->
    traverse_operation read' op' = Some x.
  Proof.
    intros H H'. destruct op; cbn [traverse_operation] in *.
    8: { destruct (traverse_option rename payload) eqn:E; cbn [mbind option_bind] in H; [|discriminate H].
         destruct (traverse_option read payload) eqn:E'; cbn [mbind option_bind] in H'; [|discriminate H'].
         injection H as <-. injection H' as <-. cbn [traverse_operation]. by rewrite (option_compose _ _ _ E E'). }
    all: compose H H'; cbn [traverse_operation]; reread part_compose; done.
  Qed.

Lemma case_compose c c' x :
    traverse_case rename block c = Some c' -> traverse_case read Some c = Some x ->
    exists y, traverse_case read' Some c' = Some y /\ case_value y = case_value x
      /\ case_arguments y = case_arguments x /\ block (case_target x) = Some (case_target y).
  Proof.
    intros H H'. unfold traverse_case in *. compose H H'. cbn [case_target case_arguments case_value mbind option_bind].
    reread I. eexists. split_and!; [reflexivity|done..].
  Qed.
End rename.

(** ** Renamings *)

Section renaming.
  Context (skip : Instruction -> bool).
  Context (value_map : list (option ValueId)) (block_map : list (option BlockId)).

Notation value := (renamed value_map).
Notation block := (renamed block_map).

Record instruction_renamed (i i' : Instruction) : Prop := {
    renamed_results : mapM value (results i) = Some (results i');
    renamed_operation : traverse_operation value (operation i) = Some (operation i');
  }.

  (** The instructions of a block that stay. *)
Definition retained (ins : list Instruction) : list Instruction := List.filter (fun i => negb (skip i)) ins.

Record block_renamed (b b' : Block) : Prop := {
    renamed_parameters : mapM value (block_parameters b) = Some (block_parameters b');
    renamed_instructions : Forall2 instruction_renamed (retained (instructions b)) (instructions b');
    renamed_terminator : traverse_terminator value block (terminator b) = Some (terminator b');
  }.

Definition injective (m : list (option N)) : Prop :=
    forall v w x, renamed m v = Some x -> renamed m w = Some x -> v = w.

Record function_renamed (f f' : FlowFunction) : Prop := {
    values_injective : injective value_map;
    blocks_injective : injective block_map;
    types_renamed : forall v v', value v = Some v' -> type_of_value (values f') v' = type_of_value (values f) v;
    parameters_renamed : mapM value (parameters f) = Some (parameters f');
    entry_renamed : block (entry f) = Some (entry f');
    blocks_renamed : forall n n' b, block n = Some n' -> blocks f !! N.to_nat n = Some b ->
      exists b', blocks f' !! N.to_nat n' = Some b' /\ block_renamed b b';
  }.
End renaming.

(** ** Positions among the instructions that stay *)

Section positions.
  Context (skip : Instruction -> bool).

  (** The position of an instruction after the others are dropped. *)
Definition before (ins : list Instruction) (n : nat) : nat := length (retained skip (take n ins)).

Lemma before_step ins n i : ins !! n = Some i ->
    before ins (S n) = ((if skip i then 0 else 1) + before ins n)%nat.
  Proof.
    intros Hi. unfold before, retained. erewrite take_S_r by exact Hi. rewrite List.filter_app, length_app.
    simpl. destruct (skip i); simpl; lia.
  Qed.

Lemma retained_lookup ins n i : ins !! n = Some i -> skip i = false -> retained skip ins !! before ins n = Some i.
  Proof.
    intros Hi Hs. unfold before, retained. set (k := length _). rewrite <- (take_drop_middle ins n i Hi).
    rewrite List.filter_app. simpl. rewrite Hs. simpl. by apply list_lookup_middle.
  Qed.

Lemma retained_end ins n : ins !! n = None -> retained skip ins !! before ins n = None.
  Proof.
    intros Hn%lookup_ge_None. unfold before. rewrite take_ge by done. by apply lookup_ge_None.
  Qed.
End positions.

(** ** The simulation *)

Section simulate.
  Context {U : Type} (other : FlowOperation (rvalue U) -> option (rvalue U)) (types : list FlowType).
  Context (skip : Instruction -> bool).
  Context (value_map : list (option ValueId)) (block_map : list (option BlockId)) (f f' : FlowFunction).
  Context (Hf : function_renamed skip value_map block_map f f').

Notation value := (renamed value_map).
Notation block := (renamed block_map).

  (** The renamed environment has every renamed value. *)
Definition env_renamed (e e' : gmap N (rvalue U)) : Prop :=
    forall (v v' : ValueId) x, value v = Some v' -> e !! v = Some x -> e' !! v' = Some x.

Record state_renamed (s s' : state U) : Prop := {
    renamed_here : block (N.of_nat (here s)) = Some (N.of_nat (here s'));
    renamed_pc : forall b, blocks f !! here s = Some b -> pc s' = before skip (instructions b) (pc s);
    renamed_env : env_renamed (env s) (env s');
  }.

Lemma kind_renamed v v' : value v = Some v' ->
    kind_of_value types (values f') v' = kind_of_value types (values f) v.
  Proof.
    intros Hv. apply (types_renamed _ _ _ _ _ Hf) in Hv. unfold type_of_value in Hv. unfold kind_of_value. by rewrite Hv.
  Qed.

Lemma bind_all_renamed vs vs' xs e e' e1 :
    mapM value vs = Some vs' -> env_renamed e e' -> bind_all types (values f) vs xs e = Some e1 ->
    exists e1', bind_all types (values f') vs' xs e' = Some e1' /\ env_renamed e1 e1'.
  Proof.
    intros Hvs%mapM_Some. revert xs e e'. induction Hvs as [|v v' vs vs' Hv Hvs IH]; intros [|x xs] e e' He; simpl; try done.
    - intros [= <-]. by exists e'.
    - rewrite (kind_renamed v v' Hv). destruct (kind_of_value types (values f) v) as [k|]; [|done]. simpl.
      destruct (value_fits x k); [|done]. apply IH. intros w w' y Hw. rewrite !lookup_insert.
      case_decide as Hvw.
      + subst w. intros [= <-]. rewrite Hv in Hw. injection Hw as <-. by rewrite decide_True.
      + rewrite decide_False; [by apply He|]. intros ->. apply Hvw. by eapply (values_injective _ _ _ _ _ Hf).
  Qed.

Lemma advance_renamed vs vs' xs s s' s1 :
    state_renamed s s' ->
    (forall b, blocks f !! here s = Some b ->
       before skip (instructions b) (S (pc s)) = S (before skip (instructions b) (pc s))) ->
    mapM value vs = Some vs' -> advance types (values f) s vs xs = Some s1 ->
    exists s1', advance types (values f') s' vs' xs = Some s1' /\ state_renamed s1 s1'.
  Proof.
    intros [Hh Hp He] Hstep Hvs. unfold advance. destruct (bind_all types (values f) vs xs (env s)) as [e1|] eqn:Hb; [|done].
    intros [= <-]. destruct (bind_all_renamed _ _ _ _ _ _ Hvs He Hb) as (e1' & -> & He1).
    eexists. split; [reflexivity|]. split; simpl; [done| |done].
    intros b Hb'. by rewrite (Hp b Hb'), Hstep.
  Qed.

Lemma enter_renamed target target' xs e e' s1 :
    block target = Some target' -> env_renamed e e' -> enter types f target xs e = Some s1 ->
    exists s1', enter types f' target' xs e' = Some s1' /\ state_renamed s1 s1'.
  Proof.
    intros Ht He. unfold enter, enter_block. destruct (blocks f !! N.to_nat target) as [b|] eqn:Hb; [|done].
    destruct (blocks_renamed _ _ _ _ _ Hf target target' b Ht Hb) as (b' & -> & Hr). cbn [mbind option_bind].
    destruct (bind_all _ (values f) _ _ _) as [e1|] eqn:Hbind; [|done]. intros [= <-].
    destruct (bind_all_renamed _ _ _ _ _ _ (renamed_parameters _ _ _ _ _ Hr) He Hbind) as (e1' & -> & He1).
    eexists. split; [reflexivity|]. by split; simpl; [rewrite !N2Nat.id| |].
  Qed.

Lemma silently_renamed o o' :
    (forall s1, o = Some s1 -> exists s1', o' = Some s1' /\ state_renamed s1 s1') ->
    reaction_refines state_renamed (silently o) (silently o').
  Proof. intros Ho. destruct o as [s1|]; [|done]. destruct (Ho s1 eq_refl) as (s1' & -> & HR). by exists s1'. Qed.

Lemma result_type_renamed i i' : mapM value (results i) = Some (results i') ->
    result_type (values f') i' = result_type (values f) i.
  Proof.
    intros Hr%mapM_Some. unfold result_type. inversion Hr as [|v v' vs vs' Hv Hvs E E']; [done|].
    simpl. by apply (types_renamed _ _ _ _ _ Hf) in Hv.
  Qed.

Lemma react_instruction_renamed s s' b i i' :
    state_renamed s s' -> blocks f !! here s = Some b -> instructions b !! pc s = Some i -> skip i = false ->
    instruction_renamed value_map i i' ->
    reaction_refines state_renamed (react_instruction other types (values f) s i)
      (react_instruction other types (values f') s' i').
  Proof.
    intros HR Hb Hi Hskip [Hres Hop]. unfold react_instruction.
    assert (Hstep : forall b, blocks f !! here s = Some b ->
      before skip (instructions b) (S (pc s)) = S (before skip (instructions b) (pc s))).
    { intros b' Hb'. simplify_eq. by rewrite (before_step skip _ _ _ Hi), Hskip. }
    destruct (traverse_operation (fun v : ValueId => env s !! v) (operation i)) as [op|] eqn:Hread; [|done].
    rewrite (operation_compose (V := ValueId) (W := ValueId) value (fun v : ValueId => env s !! v) (fun v : ValueId => env s' !! v)
      (renamed_env _ _ HR) _ _ _ Hop Hread).
    unfold react_operation. rewrite (result_type_renamed i i' Hres).
    assert (Hadv : forall xs, reaction_refines state_renamed (silently (advance types (values f) s (results i) xs))
      (silently (advance types (values f') s' (results i') xs))).
    { intros xs. apply silently_renamed. intros s1. by apply advance_renamed. }
    destruct (check_of op) as [[x failure]|].
    - destruct x as [[[]| | |]|]; done.
    - destruct (result_type (values f) i ≫= _) as [[x|]|]; [apply Hadv|done|].
      destruct (pure_operation op); [done|]. cbn [reaction_refines].
      apply mapM_Some in Hres as Hlen.
      assert (length (results i') = length (results i)) as -> by (symmetry; exact (Forall2_length _ _ _ Hlen)).
      eexists. split; [reflexivity|]. intros xs s1. by apply advance_renamed.
  Qed.

  (** Terminators: the operands are read, then the renamed edge is entered. *)
Lemma reads_renamed s s' vs vs' xs :
    state_renamed s s' -> mapM value vs = Some vs' -> mapM (fun v : ValueId => env s !! v) vs = Some xs ->
    mapM (fun v : ValueId => env s' !! v) vs' = Some xs.
  Proof. intros HR. apply mapM_compose. exact (renamed_env _ _ HR). Qed.

Lemma enter_silently s s' target target' xs :
    state_renamed s s' -> block target = Some target' ->
    reaction_refines state_renamed (silently (enter types f target xs (env s)))
      (silently (enter types f' target' xs (env s'))).
  Proof. intros HR Ht. apply silently_renamed. intros s1. apply enter_renamed; [done|]. exact (renamed_env _ _ HR). Qed.

Lemma select_case_renamed s s' cases cases' lcases d d' ds :
    state_renamed s s' -> mapM (traverse_case value block) cases = Some cases' ->
    mapM (traverse_case (fun v : ValueId => env s !! v) Some) cases = Some lcases ->
    block d = Some d' ->
    exists lcases', mapM (traverse_case (fun v : ValueId => env s' !! v) Some) cases' = Some lcases'
      /\ forall selected, exists t t' xs, block t = Some t' /\ select_case selected lcases d ds = (t, xs)
           /\ select_case selected lcases' d' ds = (t', xs).
  Proof.
    intros HR Hr%mapM_Some Hl%mapM_Some Hd. revert lcases Hl.
    induction Hr as [|c c' cases cases' Hc Hr IH]; intros lcases Hl; inversion Hl as [|? l ? ls Hcl Hls]; subst.
    - exists []. split; [done|]. intros selected. by exists d, d', ds.
    - destruct (IH ls Hls) as (ls' & Hls' & Hsel).
      destruct (case_compose (V := ValueId) (W := ValueId) value block (fun v : ValueId => env s !! v)
        (fun v : ValueId => env s' !! v) (renamed_env _ _ HR) c c' l Hc Hcl) as (l' & Hl' & Hv & Ha & Ht).
      exists (l' :: ls'). cbn [mapM]. rewrite Hl'. cbn [mbind option_bind]. rewrite Hls'. split; [done|].
      intros selected. specialize (Hsel selected). unfold select_case in *. cbn [find]. rewrite Hv.
      destruct (case_value l =? selected); [|done].
      exists (case_target l), (case_target l'), (case_arguments l). by rewrite Ha.
  Qed.

Ltac read_step H x Hx := apply bind_Some in H as (x & Hx & H).

Lemma react_end_renamed s s' t t' :
    state_renamed s s' -> traverse_terminator value block t = Some t' ->
    reaction_refines state_renamed (react_end types f s t) (react_end types f' s' t').
  Proof.
    intros HR Ht. pose proof (renamed_env _ _ HR) as He. unfold react_end.
    destruct (traverse_terminator (fun v : ValueId => env s !! v) Some t) as [lt|] eqn:Hl; [|done].
    destruct t as [target vs|c tb ta eb ea|v cases d da|vs|n a r|g vs|failure [v|]|]; cbn [traverse_terminator] in Ht, Hl.
    - read_step Ht target' Htg. read_step Ht vs' Hvs. read_step Hl target0 Ht0. injection Ht0 as <-. read_step Hl xs Hxs.
      injection Ht as <-. injection Hl as <-. cbn [traverse_terminator mbind option_bind].
      rewrite (reads_renamed s s' vs vs' xs HR Hvs Hxs). by apply enter_silently.
    - read_step Ht c' Hc. read_step Ht tb' Htb. read_step Ht eb' Heb. read_step Ht ta' Hta. read_step Ht ea' Hea.
      read_step Hl x Hx. read_step Hl tb0 H0. injection H0 as <-. read_step Hl eb0 H0. injection H0 as <-.
      read_step Hl xs Hxs. read_step Hl ys Hys.
      injection Ht as <-. injection Hl as <-. cbn [traverse_terminator mbind option_bind].
      rewrite (He _ _ _ Hc Hx). cbn [mbind option_bind]. rewrite (reads_renamed s s' ta ta' xs HR Hta Hxs).
      cbn [mbind option_bind]. rewrite (reads_renamed s s' ea ea' ys HR Hea Hys). cbn [mbind option_bind].
      destruct x as [[[]| | |]|]; try done; by apply enter_silently.
    - read_step Ht v' Hv. read_step Ht cases' Hcs. read_step Ht d' Hd. read_step Ht da' Hda.
      read_step Hl x Hx. read_step Hl lcases Hls. read_step Hl d0 H0. injection H0 as <-. read_step Hl ys Hys.
      injection Ht as <-. injection Hl as <-. cbn [traverse_terminator mbind option_bind].
      rewrite (He _ _ _ Hv Hx). cbn [mbind option_bind react_terminator].
      destruct (select_case_renamed s s' cases cases' lcases d d' ys HR Hcs Hls Hd) as (ls' & Hls' & Hsel).
      rewrite Hls'. cbn [mbind option_bind]. rewrite (reads_renamed s s' da da' ys HR Hda Hys).
      cbn [mbind option_bind mret option_ret react_terminator]. destruct (scrutinee x) as [selected|]; [|done].
      destruct (Hsel selected) as (t & t' & xs & Htt & -> & ->). by apply enter_silently.
    - read_step Ht vs' Hvs. read_step Hl xs Hxs.
      injection Ht as <-. injection Hl as <-. cbn [traverse_terminator mbind option_bind].
      by rewrite (reads_renamed s s' vs vs' xs HR Hvs Hxs).
    - read_step Ht r' Hr. read_step Ht a' Ha. read_step Hl r0 H0. injection H0 as <-. read_step Hl x Hx.
      injection Ht as <-. injection Hl as <-. cbn [traverse_terminator mbind option_bind].
      rewrite (He _ _ _ Ha Hx). cbn [mbind option_bind mret option_ret react_terminator].
      destruct (blocks f !! N.to_nat r) as [b|] eqn:Hb; [|done].
      destruct (blocks_renamed _ _ _ _ _ Hf r r' b Hr Hb) as (b' & Hb' & Hbr). rewrite Hb'. cbn [reaction_refines].
      pose proof (renamed_parameters _ _ _ _ _ Hbr) as Hp. apply mapM_Some in Hp as Hlen.
      assert (length (block_parameters b') = length (block_parameters b)) as ->
        by (symmetry; exact (Forall2_length _ _ _ Hlen)).
      eexists. split; [reflexivity|]. intros ys s1 H1.
      destruct (enter_renamed r r' ys (env s) (env s') s1 Hr He) as (s1' & H1' & HR1).
      { unfold enter. by rewrite Hb. }
      exists s1'. split; [|done]. unfold enter in H1'. by rewrite Hb' in H1'.
    - read_step Ht vs' Hvs. read_step Hl xs Hxs.
      injection Ht as <-. injection Hl as <-. cbn [traverse_terminator mbind option_bind].
      by rewrite (reads_renamed s s' vs vs' xs HR Hvs Hxs).
    - read_step Ht o' Ho'. read_step Hl o Ho. read_step Ho' v' Hv. read_step Ho x Hx.
      injection Ho' as <-. injection Ho as <-.
      injection Ht as <-. injection Hl as <-. cbn [traverse_terminator traverse_option mbind option_bind].
      by rewrite (He _ _ _ Hv Hx).
    - injection Ht as <-. injection Hl as <-. done.
    - injection Ht as <-. injection Hl as <-. done.
  Qed.

Lemma start_renamed arguments s : start types f arguments = Some s ->
    exists s', start types f' arguments = Some s' /\ state_renamed s s'.
  Proof.
    unfold start. destruct (bind_all types (values f) (parameters f) arguments ∅) as [e|] eqn:Hb; [|done].
    destruct (bind_all_renamed (parameters f) (parameters f') arguments ∅ ∅ e) as (e' & -> & He);
      [by apply Hf|by intros v v' x _|done|].
    cbn [mbind option_bind]. intros Hs. eapply enter_renamed; [by apply Hf|done|done].
  Qed.

  (** Where the original is not at a dropped instruction, one step of each. *)
Lemma react_renamed s s' :
    state_renamed s s' ->
    (forall b i, blocks f !! here s = Some b -> instructions b !! pc s = Some i -> skip i = false) ->
    reaction_refines state_renamed (react other types f s) (react other types f' s').
  Proof.
    intros HR Hskip. unfold react. destruct (blocks f !! here s) as [b|] eqn:Hb; [|done].
    pose proof Hb as Hb0. rewrite <- (Nat2N.id (here s)) in Hb0.
    destruct (blocks_renamed _ _ _ _ _ Hf _ _ b (renamed_here _ _ HR) Hb0) as (b' & Hb' & Hr).
    rewrite Nat2N.id in Hb'. rewrite Hb'. rewrite (renamed_pc _ _ HR b Hb).
    destruct (instructions b !! pc s) as [i|] eqn:Hi.
    - specialize (Hskip b i eq_refl Hi).
      destruct (Forall2_lookup_l _ _ _ _ _ (renamed_instructions _ _ _ _ _ Hr) (retained_lookup skip _ _ _ Hi Hskip))
        as (i' & -> & Hri).
      by eapply react_instruction_renamed.
    - assert (instructions b' !! before skip (instructions b) (pc s) = None) as ->.
      { apply lookup_ge_None. rewrite <- (Forall2_length _ _ _ (renamed_instructions _ _ _ _ _ Hr)).
        apply lookup_ge_None. by apply retained_end. }
      apply react_end_renamed; [done|]. by apply Hr.
  Qed.

  (** With nothing dropped the two run in lockstep. *)
Lemma renaming_refines : (forall i, skip i = false) -> refines other types f f'.
  Proof.
    intros Hskip fuel world arguments. unfold call.
    destruct (start types f arguments) as [s|] eqn:Hs; [|done].
    destruct (start_renamed arguments s Hs) as (s' & -> & HR).
    apply (simulation other types state_renamed); [|done].
    clear s s' Hs HR. intros s s' HR. apply react_renamed; [done|]. intros. apply Hskip.
  Qed.
End simulate.

#[local] Close Scope Z_scope.

(** ** Refinement up to speed *)

Section simulates.
  Context {U : Type} (other : FlowOperation (rvalue U) -> option (rvalue U)) (types : list FlowType).

(** Whatever the original does within some steps without going wrong, the new
    function does within at most as many, and it makes progress: the original
    is at most a constant factor slower. *)
Definition simulates (f f' : FlowFunction) : Prop :=
    exists slowdown, forall fuel world arguments,
      goes_right (call other types fuel world f arguments) ->
      exists fuel', (fuel' <= fuel <= slowdown * S fuel')%nat
        /\ call other types fuel' world f' arguments = call other types fuel world f arguments.

Lemma refines_simulates f f' : refines other types f f' -> simulates f f'.
  Proof. intros Hr. exists 1%nat. intros fuel world arguments Hright. exists fuel. split; [lia|]. by apply Hr. Qed.

Lemma simulates_refl f : simulates f f.
  Proof. apply refines_simulates. reflexivity. Qed.

Lemma simulates_trans f g h : simulates f g -> simulates g h -> simulates f h.
  Proof.
    intros [a Hfg] [b Hgh]. exists (a * S b)%nat. intros fuel world arguments Hright.
    destruct (Hfg fuel world arguments Hright) as (fuel1 & Hle1 & H1).
    destruct (Hgh fuel1 world arguments) as (fuel2 & Hle2 & H2); [by rewrite H1|].
    exists fuel2. split; [nia|]. by rewrite H2.
  Qed.

#[export] Instance simulates_preorder : PreOrder simulates.
  Proof. split; [exact simulates_refl|exact simulates_trans]. Qed.
End simulates.

(** ** Skipping *)

Section skipping.
  Context {U : Type} (other : FlowOperation (rvalue U) -> option (rvalue U)) (types : list FlowType).
  Context (skip : Instruction -> bool).
  Context (value_map : list (option ValueId)) (block_map : list (option BlockId)) (f f' : FlowFunction).
  Context (Hf : function_renamed skip value_map block_map f f').
  (** What holds of every environment a run reaches. *)
  Context (P : gmap N (rvalue U) -> Prop).
  Context (Hstart : forall arguments s, start types f arguments = Some s -> P (env s)).
  Context (Hnext : forall s s1, P (env s) -> successor other types f s s1 -> P (env s1)).

  (** A dropped instruction does nothing but bind values that are dropped too. *)
Definition harmless (b : Block) (i : Instruction) : Prop :=
    forall s : state U, P (env s) -> blocks f !! here s = Some b -> instructions b !! pc s = Some i ->
      react_instruction other types (values f) s i = Stuck
      \/ exists xs s1, react_instruction other types (values f) s i = Silently s1
           /\ advance types (values f) s (results i) xs = Some s1.

  Context (Hharmless : forall b i, b ∈ blocks f -> i ∈ instructions b -> skip i = true ->
    harmless b i /\ forall v, v ∈ results i -> renamed value_map v = None).

Definition longest : nat := max_list_with (fun b => length (instructions b)) (blocks f).

Lemma longest_bound n b pc_ : blocks f !! n = Some b -> is_Some (instructions b !! pc_) -> (pc_ < longest)%nat.
  Proof.
    intros Hb Hi%lookup_lt_is_Some_1. apply list_elem_of_lookup_2 in Hb. unfold longest.
    assert (length (instructions b) <= max_list_with (fun b => length (instructions b)) (blocks f))%nat; [|lia].
    clear -Hb. induction (blocks f) as [|c cs IH]; [by apply not_elem_of_nil in Hb|]. simpl.
    apply elem_of_cons in Hb as [->|Hb]; [lia|]. specialize (IH Hb). lia.
  Qed.

Lemma bind_all_others vals vs xs (e e' : gmap N (rvalue U)) v :
    bind_all types vals vs xs e = Some e' -> v ∉ vs -> e' !! v = e !! v.
  Proof.
    revert xs e. induction vs as [|w vs IH]; intros [|x xs] e; simpl; try done.
    - by intros [= ->].
    - destruct (kind_of_value types vals w); [|done]. simpl. destruct (value_fits x _); [|done].
      intros H [Hne Hv]%not_elem_of_cons. rewrite (IH _ _ H Hv). by apply lookup_insert_ne.
  Qed.

Lemma skipped_step s s' b i :
    state_renamed skip value_map block_map f s s' -> P (env s) ->
    blocks f !! here s = Some b -> instructions b !! pc s = Some i -> skip i = true ->
    react other types f s = Stuck
    \/ exists s1, react other types f s = Silently s1 /\ state_renamed skip value_map block_map f s1 s'
         /\ pc s1 = S (pc s).
  Proof.
    intros HR HP Hb Hi Hs. unfold react. rewrite Hb, Hi.
    destruct (Hharmless b i) as [Hh Hdead]; [by eapply list_elem_of_lookup_2..|done|].
    destruct (Hh s HP Hb Hi) as [|(xs & s1 & Hr & Ha)]; [by left|]. right. exists s1. split; [done|].
    unfold advance in Ha. destruct (bind_all _ _ _ _ _) as [e|] eqn:He; [|done]. injection Ha as <-.
    split; [|done]. destruct HR as [Hh' Hp Henv]. split; simpl; [done| |].
    - intros b' Hb'. simplify_eq. by rewrite (before_step skip _ _ _ Hi), Hs, (Hp b Hb).
    - intros v v' x Hv Hx. apply (Henv v v' x Hv). rewrite <- Hx. symmetry. eapply bind_all_others; [done|].
      intros Hin. by rewrite (Hdead v Hin) in Hv.
  Qed.

Lemma run_skipping fuel world s s' history :
    state_renamed skip value_map block_map f s s' -> P (env s) ->
    goes_right (run other types fuel world f s history) ->
    exists fuel', (fuel' <= fuel)%nat /\ (fuel <= fuel' * S longest + (longest - pc s))%nat
      /\ run other types fuel' world f' s' history = run other types fuel world f s history.
  Proof.
    revert s s' history. induction fuel as [|fuel IH]; intros s s' history HR HP Hright.
    { exists 0%nat. split_and!; [lia..|done]. }
    destruct (match blocks f !! here s with
      | Some b => match instructions b !! pc s with Some i => skip i | None => false end
      | None => false end) eqn:Hskip.
    - destruct (blocks f !! here s) as [b|] eqn:Hb; [|done]. destruct (instructions b !! pc s) as [i|] eqn:Hi; [|done].
      rename Hskip into Hsi. cbn [run] in Hright |- *.
      destruct (skipped_step s s' b i HR HP Hb Hi Hsi) as [Hr|(s1 & Hr & HR1 & Hpc)]; rewrite Hr in *; [by destruct Hright|].
      destruct (IH s1 s' history HR1) as (fuel' & Hle & Hslow & Heq); [|done|].
      { eapply Hnext; [exact HP|]. by left. }
      exists fuel'. split_and!; [lia| |done]. assert (pc s < longest)%nat by by eapply longest_bound.
      rewrite Hpc in Hslow. lia.
    - assert (Hstep : reaction_refines (state_renamed skip value_map block_map f)
        (react other types f s) (react other types f' s')).
      { apply react_renamed; [done..|]. intros b i Hb Hi. by rewrite Hb, Hi in Hskip. }
      cbn [run] in Hright |- *. unfold reaction_refines in Hstep.
      destruct (react other types f s) as [|s1|how|what n k] eqn:Hr.
      + by destruct Hright.
      + destruct Hstep as (s1' & Hr' & HR1). destruct (IH s1 s1' history HR1) as (fuel' & Hle & Hslow & Heq); [|done|].
        { eapply Hnext; [exact HP|]. by left. }
        exists (S fuel'). split_and!; [lia|nia|]. cbn [run]. by rewrite Hr'.
      + exists (S fuel). split_and!; [lia|nia|]. cbn [run]. by rewrite Hstep.
      + destruct Hstep as (k' & Hr' & Hk).
        destruct (k (map (world history what) (seq 0 n))) as [s1|] eqn:Hs1; [|by destruct Hright].
        destruct (Hk _ _ Hs1) as (s1' & Hs1' & HR1).
        destruct (IH s1 s1' (history ++ [{| asked := what; answered := map (world history what) (seq 0 n) |}]) HR1)
          as (fuel' & Hle & Hslow & Heq); [|done|].
        { eapply Hnext; [exact HP|]. right. by exists what, n, k, (map (world history what) (seq 0 n)). }
        exists (S fuel'). split_and!; [lia|nia|]. cbn [run]. by rewrite Hr', Hs1'.
  Qed.

Lemma skipping_simulates : simulates other types f f'.
  Proof.
    exists (S longest). intros fuel world arguments. unfold call.
    destruct (start types f arguments) as [s|] eqn:Hs; [|by intros []].
    destruct (start_renamed types skip value_map block_map f f' Hf arguments s Hs) as (s' & -> & HR).
    intros Hright. destruct (run_skipping fuel world s s' [] HR) as (fuel' & Hle & Hslow & Heq); [by eapply Hstart|done|].
    exists fuel'. split; [nia|done].
  Qed.
End skipping.
