(* ===== verification/CompactSound.v ===== *)
(** Compaction renames: what [compact_function] returns is the function without
    what was dropped, its values and blocks renamed one to one, so it refines
    the original whenever only blocks are dropped. *)

From stdpp Require Import base numbers list option gmap.
From S2P Require Import Prelude Interrupt FlowWir ScalarFold Optimizer FlowOperands FlowSemantics FoldPass FoldSound CompactPass RenameSound.

#[local] Open Scope Z_scope.

(** ** Dense numbers for the elements kept *)

Fixpoint kept {X} (keep : list bool) (l : list X) : list X :=
  match keep, l with
  | k :: keep, x :: l => if k then x :: kept keep l else kept keep l
  | _, _ => []
  end.

(** How many are kept before the position. *)
Definition rank (keep : list bool) (i : nat) : nat := length (kept (take i keep) (take i keep)).

Fixpoint numbering (keep : list bool) (n : nat) : list (option N) :=
  match keep with
  | [] => []
  | k :: keep => (if k then Some (N.of_nat n) else None) :: numbering keep (if k then S n else n)
  end.

Lemma rank_cons k keep i : rank (k :: keep) (S i) = ((if k : bool then 1 else 0) + rank keep i)%nat.
Proof. unfold rank. by destruct k. Qed.

Lemma numbering_lookup keep n i :
  numbering keep n !! i = (fun k : bool => if k then Some (N.of_nat (n + rank keep i)) else None) <$> keep !! i.
Proof.
  revert n i. induction keep as [|k keep IH]; intros n [|i]; cbn [numbering lookup list_lookup]; [done..| |].
  - destruct k; [|done]. unfold rank. simpl. by rewrite Nat.add_0_r.
  - rewrite IH, rank_cons. destruct (keep !! i) as [[]|]; [|done..]. destruct k; [|done]. simpl. do 2 f_equal. lia.
Qed.

Lemma renamed_numbering keep i n' :
  renamed (numbering keep 0) i = Some n' <-> keep !! N.to_nat i = Some true /\ n' = N.of_nat (rank keep (N.to_nat i)).
Proof.
  unfold renamed. rewrite numbering_lookup. destruct (keep !! N.to_nat i) as [[]|]; simpl; naive_solver.
Qed.

Lemma rank_lt keep i j : keep !! i = Some true -> (i < j)%nat -> (rank keep i < rank keep j)%nat.
Proof.
  revert i j. induction keep as [|k keep IH]; intros [|i] [|j]; cbn [lookup list_lookup]; try done; try lia.
  - intros [= ->] _. rewrite rank_cons. unfold rank at 1. simpl. lia.
  - intros Hi Hlt. rewrite !rank_cons. specialize (IH i j Hi). lia.
Qed.

Lemma numbering_injective keep : injective (numbering keep 0).
Proof.
  intros v w x [Hv Hx]%renamed_numbering [Hw ->]%renamed_numbering. apply Nat2N.inj in Hx.
  destruct (Nat.lt_trichotomy (N.to_nat v) (N.to_nat w)) as [Hlt|[Heq|Hlt]].
  - apply (rank_lt keep) in Hlt; [lia|done].
  - lia.
  - apply (rank_lt keep) in Hlt; [lia|done].
Qed.

Lemma kept_lookup {X} keep (l : list X) i x :
  keep !! i = Some true -> l !! i = Some x -> kept keep l !! rank keep i = Some x.
Proof.
  revert l i. induction keep as [|k keep IH]; intros [|y l] [|i]; cbn [lookup list_lookup kept]; try done.
  - by intros [= ->] [= ->].
  - intros Hk Hl. rewrite rank_cons. destruct k; by apply IH.
Qed.

(** Everything kept has a position it comes from. *)
Lemma kept_lookup_inv {X} keep (l : list X) j x :
  kept keep l !! j = Some x -> exists i, keep !! i = Some true /\ l !! i = Some x /\ rank keep i = j.
Proof.
  revert l j. induction keep as [|k keep IH]; intros [|y l] j; cbn [kept]; try done. destruct k.
  - destruct j as [|j]; cbn [lookup list_lookup].
    + intros [= ->]. by exists 0%nat.
    + intros (i & Hi & Hl & Hr)%IH. exists (S i). split_and!; [done..|]. rewrite rank_cons. lia.
  - intros (i & Hi & Hl & Hr)%IH. exists (S i). split_and!; [done..|]. by rewrite rank_cons.
Qed.

Lemma kept_sublist {X} keep (l : list X) : kept keep l `sublist_of` l.
Proof.
  revert l. induction keep as [|k keep IH]; intros [|x l]; cbn [kept]; [constructor|apply sublist_nil_l..|].
  destruct k; by constructor.
Qed.

Lemma kept_map {X Y} (g : X -> Y) keep l : map g (kept keep l) = kept keep (map g l).
Proof. revert l. induction keep as [|[] keep IH]; intros [|x l]; simpl; [done..| | |done|]; by rewrite ?IH. Qed.

Lemma unset_insert flags_ n : flags_ !! n = Some false -> unset flags_ = S (unset (<[n := true]> flags_)).
Proof.
  unfold unset. revert n. induction flags_ as [|r flags_ IH]; intros [|n]; cbn [lookup list_lookup]; try done.
  - intros [= ->]. done.
  - intros H. simpl. destruct r; simpl; by rewrite (IH n H).
Qed.

(** ** The numbers the loops assign *)

Lemma number_blocks_returns limit keep pre n s r s' :
  may_returnS (number_blocks limit keep (length pre) (pre ++ replicate (length keep) None) (Z.of_nat n)) s r s' ->
  r = pre ++ numbering keep n.
Proof.
  revert pre n s. induction keep as [|k keep IH]; intros pre n s; cbn [number_blocks length replicate numbering].
  - by intros [<- _]%may_returnS_mret.
  - intros (_ & s1 & _ & H)%may_returnS_bind. destruct k.
    + apply may_returnS_bind in H as (next & s2 & Hn & H). apply may_returnS_liftS in Hn as [Hn _].
      apply may_return_lift, ok_or_Ok, checked_add_Some in Hn as [_ ->].
      specialize (IH (pre ++ [Some (N.of_nat n)]) (S n) s2). rewrite length_app, Nat.add_1_r, <- !app_assoc in IH.
      apply IH. rewrite Nat2Z.inj_succ, <- Z.add_1_r. revert H.
      rewrite insert_app_r_alt, Nat.sub_diag by reflexivity. by rewrite <- nat_N_Z, N2Z.id.
    + specialize (IH (pre ++ [None]) n s1). rewrite length_app, Nat.add_1_r, <- !app_assoc in IH. by apply IH.
Qed.

Lemma compact_values_returns limit keep vals pre acc s r s' :
  length keep = length vals ->
  may_returnS (compact_values limit (zip keep vals) (length pre) (pre ++ replicate (length keep) None) acc) s r s' ->
  r.1 = pre ++ numbering keep (length acc) /\ map value_ty r.2 = map value_ty acc ++ kept keep (map value_ty vals).
Proof.
  revert vals pre acc s. induction keep as [|k keep IH]; intros [|v vals] pre acc s Hlen; try done;
    cbn [zip zip_with compact_values length replicate numbering kept map].
  - intros [<- _]%may_returnS_mret. by rewrite !app_nil_r.
  - intros (_ & s1 & _ & H)%may_returnS_bind. injection Hlen as Hlen. destruct k; cbn [negb] in H.
    + apply may_returnS_bind in H as (id & s2 & Hid & H). apply may_returnS_liftS in Hid as [Hid _].
      apply may_return_lift in Hid. unfold index_as_u32 in Hid. destruct (_ <? _); [done|]. injection Hid as <-.
      specialize (IH vals (pre ++ [Some (N.of_nat (length acc))]) (acc ++ [with_value_id v (N.of_nat (length acc))]) s2 Hlen).
      rewrite !length_app, !Nat.add_1_r, <- !app_assoc, map_app, <- app_assoc in IH. apply IH.
      revert H. by rewrite insert_app_r_alt, Nat.sub_diag by reflexivity.
    + specialize (IH vals (pre ++ [None]) acc s1 Hlen). rewrite length_app, Nat.add_1_r, <- !app_assoc in IH. by apply IH.
Qed.

Lemma mark_value_length context keep_values v s r s' :
  may_returnS (mark_value context keep_values v) s r s' -> length r = length keep_values.
Proof.
  unfold mark_value. destruct (keep_values !! _); [|by intros [[] _]%may_returnS_liftS].
  intros [<- _]%may_returnS_mret. apply length_insert.
Qed.

Lemma fold_each_length {X Y} (step : list Y -> X -> pass (list Y)) xs t s r s' :
  (forall t x s r s', may_returnS (step t x) s r s' -> length r = length t) ->
  may_returnS (fold_each step xs t) s r s' -> length r = length t.
Proof.
  intros Hs. revert t s. induction xs as [|x xs IH]; intros t s; cbn [fold_each].
  - by intros [<- _]%may_returnS_mret.
  - intros (t1 & s1 & Ht & H)%may_returnS_bind. rewrite (IH _ _ H). by eapply Hs.
Qed.

Lemma mark_all_length context vs keep_values s r s' :
  may_returnS (mark_all context vs keep_values) s r s' -> length r = length keep_values.
Proof.
  apply fold_each_length. intros t v s0 r0 s0' (_ & s1 & _ & H)%may_returnS_bind. by eapply mark_value_length.
Qed.

Lemma mark_block_length removed keep_values kb s r s' :
  may_returnS (mark_block removed keep_values kb) s r s' -> length r = length keep_values.
Proof.
  intros (_ & s1 & _ & H)%may_returnS_bind. destruct kb as [[] b]; cbn [negb] in H.
  - apply may_returnS_bind in H as (k & s2 & Hk & H). rewrite <- (mark_all_length _ _ _ _ _ _ Hk).
    eapply fold_each_length, H. intros t i s0 r0 s0' (_ & s3 & _ & Hi)%may_returnS_bind.
    destruct (is_removed removed i); [by apply may_returnS_mret in Hi as [<- _]|]. by eapply mark_all_length.
  - by apply may_returnS_mret in H as [<- _].
Qed.

(** ** What compaction returns *)

Lemma renamed_returns detail (m : list (option N)) (x : N) s y s' :
  may_returnS (_ ← checkpoint; match renamed m x with Some y => mret y | None => violation detail end : pass N)
    s y s' -> renamed m x = Some y.
Proof.
  intros (_ & s1 & _ & H)%may_returnS_bind. destruct (renamed m x); [|by apply may_returnS_liftS in H as [[] _]].
  by apply may_returnS_mret in H as [-> _].
Qed.

Lemma map_value_returns value_map v s w s' : may_returnS (map_value value_map v) s w s' -> renamed value_map v = Some w.
Proof. apply renamed_returns. Qed.
Lemma map_block_returns block_map b s c s' : may_returnS (map_block block_map b) s c s' -> renamed block_map b = Some c.
Proof. apply renamed_returns. Qed.
Lemma map_value_slice_returns value_map vs s ws s' :
  may_returnS (map_value_slice value_map vs) s ws s' -> mapM (renamed value_map) vs = Some ws.
Proof. apply mapM_returns. intros ? ? ? ?. apply map_value_returns. Qed.

Section compact.
  Context (value_map : list (option ValueId)) (block_map : list (option BlockId)).
  Context (removed : option (list bool)) (limits : OptimizationLimits).

Lemma compact_instructions_returns ins next s r s' :
    may_returnS (compact_instructions value_map removed limits ins next) s r s' ->
    Forall2 (instruction_renamed value_map) (retained (is_removed removed) ins) r.1.
  Proof.
    revert next s r s'. induction ins as [|i ins IH]; intros next s r s'; cbn [compact_instructions retained List.filter].
    - intros [<- _]%may_returnS_mret. constructor.
    - intros (_ & s1 & _ & H)%may_returnS_bind. destruct (is_removed removed i); cbn [negb]; [by eapply IH|].
      apply may_returnS_bind in H as (n1 & s2 & _ & H). apply may_returnS_bind in H as (i' & s3 & Hi & H).
      apply may_returnS_bind in H as ([ins' n2] & s4 & Hins%IH & H). apply may_returnS_mret in H as [<- _].
      constructor; [|done]. unfold compact_instruction in Hi.
      apply may_returnS_bind in Hi as (rs & s5 & Hrs%map_value_slice_returns & Hi).
      apply may_returnS_bind in Hi as (op & s6 & Hop & Hi). apply may_returnS_mret in Hi as [<- _].
      split; [done|]. eapply traverse_operation_returns, Hop. intros ? ? ? ?. apply map_value_returns.
  Qed.

Lemma compact_instructions_numbers ins n s r s' :
    may_returnS (compact_instructions value_map removed limits ins (Z.of_nat n)) s r s' ->
    map instruction_id r.1 = map N.of_nat (seq n (length r.1)) /\ r.2 = Z.of_nat (n + length r.1).
  Proof.
    revert n s r s'. induction ins as [|i ins IH]; intros n s r s'; cbn [compact_instructions].
    - intros [<- _]%may_returnS_mret. split; [done|]. simpl. by rewrite Nat.add_0_r.
    - intros (_ & s1 & _ & H)%may_returnS_bind. destruct (is_removed removed i); [by eapply IH|].
      apply may_returnS_bind in H as (n1 & s2 & Hn & H). apply may_returnS_liftS in Hn as [Hn _].
      apply may_return_lift, ok_or_Ok, checked_add_Some in Hn as [_ ->].
      apply may_returnS_bind in H as (i' & s3 & Hi & H). apply may_returnS_bind in H as ([ins' n2] & s4 & Hins & H).
      apply may_returnS_mret in H as [<- _]. rewrite Z.add_1_r, <- Nat2Z.inj_succ in Hins.
      apply IH in Hins as [Hids Hn2]. simpl in *. split; [|rewrite Hn2; lia]. rewrite Hids. f_equal.
      unfold compact_instruction in Hi. apply may_returnS_bind in Hi as (rs & s5 & _ & Hi).
      apply may_returnS_bind in Hi as (op & s6 & _ & Hi). apply may_returnS_mret in Hi as [<- _]. simpl.
      by rewrite <- nat_N_Z, N2Z.id.
  Qed.

Lemma compact_blocks_numbers kept_ index n s bs' s' :
    may_returnS (compact_blocks value_map block_map removed limits kept_ index (Z.of_nat n)) s bs' s' ->
    map instruction_id (concat (map instructions bs'))
    = map N.of_nat (seq n (length (concat (map instructions bs')))).
  Proof.
    revert index n s bs' s'. induction kept_ as [|[k b] kept_ IH]; intros index n s bs' s'; cbn [compact_blocks].
    - by intros [<- _]%may_returnS_mret.
    - intros (_ & s1 & _ & H)%may_returnS_bind. destruct k; cbn [negb] in H; [|by eapply IH].
      apply may_returnS_bind in H as ([b' n1] & s2 & Hb & H). apply may_returnS_bind in H as (bs1 & s3 & Hbs & H).
      apply may_returnS_mret in H as [<- _]. unfold compact_block in Hb.
      apply may_returnS_bind in Hb as (id & t1 & _ & Hb). apply may_returnS_bind in Hb as (ps & t2 & _ & Hb).
      apply may_returnS_bind in Hb as (c & t3 & _ & Hb). apply may_returnS_bind in Hb as (u & t4 & _ & Hb).
      apply may_returnS_bind in Hb as ([ins n2] & t5 & [Hids Hn]%compact_instructions_numbers & Hb).
      apply may_returnS_bind in Hb as (t & t6 & _ & Hb). apply may_returnS_mret in Hb as [[= <- <-] _].
      simpl in Hids, Hn. subst n2. apply IH in Hbs. cbn [map concat instructions].
      rewrite map_app, length_app, seq_app, map_app, Hids. f_equal. exact Hbs.
  Qed.

Lemma compact_block_returns index b next s r s' :
    may_returnS (compact_block value_map block_map removed limits index b next) s r s' ->
    block_renamed (is_removed removed) value_map block_map b r.1.
  Proof.
    unfold compact_block. intros (id & s1 & _ & H)%may_returnS_bind.
    apply may_returnS_bind in H as (ps & s2 & Hps%map_value_slice_returns & H).
    apply may_returnS_bind in H as (n & s3 & _ & H). apply may_returnS_bind in H as (u & s4 & _ & H).
    apply may_returnS_bind in H as ([ins n2] & s5 & Hins%compact_instructions_returns & H).
    apply may_returnS_bind in H as (t & s6 & Ht & H). apply may_returnS_mret in H as [<- _].
    split; [done..|]. eapply traverse_terminator_returns, Ht; intros ? ? ? ?;
      [apply map_value_returns|apply map_block_returns].
  Qed.

Lemma compact_blocks_returns keep bs index next s bs' s' :
    length keep = length bs ->
    may_returnS (compact_blocks value_map block_map removed limits (zip keep bs) index next) s bs' s' ->
    Forall2 (block_renamed (is_removed removed) value_map block_map) (kept keep bs) bs'.
  Proof.
    revert bs index next s bs' s'. induction keep as [|k keep IH]; intros [|b bs] index next s bs' s' Hlen; try done;
      cbn [zip zip_with compact_blocks kept].
    - intros [<- _]%may_returnS_mret. constructor.
    - intros (_ & s1 & _ & H)%may_returnS_bind. injection Hlen as Hlen. destruct k; cbn [negb] in H.
      + apply may_returnS_bind in H as ([b' n1] & s2 & Hb%compact_block_returns & H).
        apply may_returnS_bind in H as (bs1 & s3 & Hbs%IH & H); [|done]. apply may_returnS_mret in H as [<- _].
        by constructor.
      + by eapply IH.
  Qed.
End compact.

(** The values a function still defines. *)
Definition defined_after (removed : option (list bool)) (ps : list ValueId) (bs : list Block) (v : ValueId) : Prop :=
  v ∈ ps \/ exists b, b ∈ bs /\
    (v ∈ block_parameters b \/ exists i, i ∈ instructions b /\ is_removed removed i = false /\ v ∈ results i).

(** Every mark is of a value with the property. *)
Definition marks (Q : ValueId -> Prop) (keep_values : list bool) : Prop :=
  forall v : ValueId, keep_values !! N.to_nat v = Some true -> Q v.

Lemma fold_each_invariant {X T} (I : T -> Prop) (step : T -> X -> pass T) xs t s r s' :
  (forall t x s r s', x ∈ xs -> I t -> may_returnS (step t x) s r s' -> I r) ->
  I t -> may_returnS (fold_each step xs t) s r s' -> I r.
Proof.
  revert t s. induction xs as [|x xs IH]; intros t s Hs Ht; cbn [fold_each].
  - by intros [<- _]%may_returnS_mret.
  - intros (t1 & s1 & H1 & H)%may_returnS_bind. eapply IH; [|eapply Hs; [by left|exact Ht|exact H1]|exact H].
    intros ? ? ? ? ? Hin. apply Hs. by right.
Qed.

Lemma mark_all_marks Q context vs keep_values s r s' :
  (forall v, v ∈ vs -> Q v) -> marks Q keep_values ->
  may_returnS (mark_all context vs keep_values) s r s' -> marks Q r.
Proof.
  intros Hvs. apply fold_each_invariant. intros k v s0 r0 s0' Hv Hk (_ & s1 & _ & H)%may_returnS_bind.
  unfold mark_value in H. destruct (k !! N.to_nat v) eqn:E; [|by apply may_returnS_liftS in H as [[] _]].
  apply may_returnS_mret in H as [<- _]. intros w Hw. destruct (decide (w = v)) as [->|Hne]; [by apply Hvs|].
  apply Hk. rewrite list_lookup_insert_ne in Hw; [done|]. by intros ?%N2Nat.inj.
Qed.

Lemma mark_block_marks Q removed keep_values kb s r s' :
  (kb.1 = true -> forall v, v ∈ block_parameters kb.2 -> Q v) ->
  (kb.1 = true -> forall i v, i ∈ instructions kb.2 -> is_removed removed i = false -> v ∈ results i -> Q v) ->
  marks Q keep_values -> may_returnS (mark_block removed keep_values kb) s r s' -> marks Q r.
Proof.
  intros Hp Hi Hk (_ & s1 & _ & H)%may_returnS_bind. destruct kb as [[] b]; cbn [negb fst snd] in *.
  - apply may_returnS_bind in H as (k & s2 & Hk2 & H). eapply mark_all_marks in Hk2; [|exact (Hp eq_refl)|done].
    eapply fold_each_invariant, H; [|exact Hk2].
    intros t i s0 r0 s0' Hin Ht (_ & s3 & _ & Hr)%may_returnS_bind. destruct (is_removed removed i) eqn:Hrem.
    + by apply may_returnS_mret in Hr as [<- _].
    + eapply mark_all_marks, Hr; [|done]. intros v Hv. by apply (Hi eq_refl i).
  - by apply may_returnS_mret in H as [<- _].
Qed.

Lemma kept_elem {X} keep (l : list X) x : (true, x) ∈ zip keep l -> x ∈ kept keep l.
Proof.
  revert l. induction keep as [|k keep IH]; intros [|y l]; cbn [zip zip_with kept]; try (by intros ?%not_elem_of_nil).
  intros [[= <- <-]|H]%elem_of_cons; [by left|]. destruct k; [right|]; by apply IH.
Qed.

(** The function without what was dropped, renamed densely. *)
Record function_compacted (keep : list bool) (removed : option (list bool)) (keep_values : list bool)
    (f f' : FlowFunction) : Prop := {
  keep_length : length keep = length (blocks f);
  compacted_types : map value_ty (values f') = kept keep_values (map value_ty (values f));
  compacted_ps : mapM (renamed (numbering keep_values 0)) (parameters f) = Some (parameters f');
  compacted_entry : renamed (numbering keep 0) (entry f) = Some (entry f');
  compacted_blocks : Forall2 (block_renamed (is_removed removed) (numbering keep_values 0) (numbering keep 0))
    (kept keep (blocks f)) (blocks f');
  compacted_numbers : map instruction_id (concat (map instructions (blocks f')))
    = map N.of_nat (seq 0 (length (concat (map instructions (blocks f')))));
  (** Only values that stay defined have a number. *)
  kept_defined : forall v : ValueId, keep_values !! N.to_nat v = Some true ->
    defined_after removed (parameters f) (kept keep (blocks f)) v;
}.

Lemma compact_function_returns f keep removed limits s f' s' :
  may_returnS (compact_function f keep removed limits) s f' s' ->
  exists keep_values, length keep_values = length (values f) /\ function_compacted keep removed keep_values f f'.
Proof.
  unfold compact_function. destruct (Nat.eqb_spec (length keep) (length (blocks f))) as [Hlen|]; cbn [negb];
    [|by intros [[] _]%may_returnS_liftS].
  intros (m0 & s1 & Hm0%filled_vec_returns & H)%may_returnS_bind. subst m0.
  apply may_returnS_bind in H as (bm & s2 & Hbm & H). rewrite <- Hlen in Hbm.
  apply (number_blocks_returns _ keep [] 0) in Hbm. simpl in Hbm. subst bm.
  apply may_returnS_bind in H as (k0 & s3 & Hk0%filled_vec_returns & H). subst k0.
  apply may_returnS_bind in H as (k1 & s4 & Hk1 & H). apply mark_all_length in Hk1 as Hl1. rewrite length_replicate in Hl1.
  apply may_returnS_bind in H as (keep_values & s5 & Hkv & H). apply fold_each_length in Hkv as Hk2;
    [|intros; by eapply mark_block_length]. rewrite Hl1 in Hk2.
  assert (Hmarks : marks (defined_after removed (parameters f) (kept keep (blocks f))) keep_values).
  { eapply fold_each_invariant, Hkv.
    - intros t [k b] s0 r0 s0' Hkb. apply mark_block_marks; cbn [fst snd]; intros ->.
      + intros v Hv. right. exists b. split; [by apply kept_elem|by left].
      + intros i v Hi Hr Hv. right. exists b. split; [by apply kept_elem|]. right. by exists i.
    - eapply mark_all_marks, Hk1; [intros v Hv; by left|]. intros v Hv. by apply lookup_replicate in Hv as [? _]. }
  apply may_returnS_bind in H as (m1 & s6 & Hm1%filled_vec_returns & H). subst m1.
  apply may_returnS_bind in H as (rv & s7 & _ & H). apply may_returnS_bind in H as (u & s8 & _ & H).
  apply may_returnS_bind in H as ([vm vals] & s9 & Hv & H). rewrite <- Hk2 in Hv.
  apply (compact_values_returns _ keep_values (values f) [] []) in Hv as [Hvm Htypes]; [|done].
  simpl in Hvm, Htypes. subst vm.
  apply may_returnS_bind in H as (ps & s10 & Hps%map_value_slice_returns & H).
  apply may_returnS_bind in H as (e & s11 & He%map_block_returns & H).
  apply may_returnS_bind in H as (rb & s12 & _ & H). apply may_returnS_bind in H as (u2 & s13 & _ & H).
  apply may_returnS_bind in H as (bs & s14 & Hbs & H). apply (compact_blocks_numbers _ _ _ _ _ _ 0) in Hbs as Hids.
  apply compact_blocks_returns in Hbs; [|done].
  apply may_returnS_mret in H as [<- _]. by exists keep_values.
Qed.

(** ** Compaction is a renaming *)

Lemma retained_none ins : retained (is_removed None) ins = ins.
Proof. induction ins as [|i ins IH]; [done|]. simpl. f_equal. exact IH. Qed.

Section compacted.
  Context (keep keep_values : list bool) (removed : option (list bool)) (f f' : FlowFunction).
  Context (Hc : function_compacted keep removed keep_values f f').

Lemma compacted_block n n' b :
    renamed (numbering keep 0) n = Some n' -> blocks f !! N.to_nat n = Some b ->
    exists b', blocks f' !! N.to_nat n' = Some b'
      /\ block_renamed (is_removed removed) (numbering keep_values 0) (numbering keep 0) b b'.
  Proof.
    intros [Hk ->]%renamed_numbering Hb. rewrite Nat2N.id.
    destruct (Forall2_lookup_l _ _ _ _ _ (compacted_blocks _ _ _ _ _ Hc) (kept_lookup _ _ _ _ Hk Hb)) as (b' & Hb' & Hr).
    by exists b'.
  Qed.

Lemma compacted_renamed : function_renamed (is_removed removed) (numbering keep_values 0) (numbering keep 0) f f'.
  Proof.
    split.
    - apply numbering_injective.
    - apply numbering_injective.
    - intros v v' [Hk ->]%renamed_numbering. unfold type_of_value. rewrite Nat2N.id, <- !list_lookup_fmap.
      change (fmap (M := list)) with (@map Value TypeId). rewrite (compacted_types _ _ _ _ _ Hc).
      destruct (map value_ty (values f) !! N.to_nat v) as [ty|] eqn:Hty.
      + by apply kept_lookup.
      + destruct (kept keep_values (map value_ty (values f)) !! rank keep_values (N.to_nat v)) as [ty|] eqn:E; [|done].
        apply kept_lookup_inv in E as (i & Hi & Hl & Hr).
        destruct (Nat.lt_trichotomy i (N.to_nat v)) as [Hlt|[->|Hlt]].
        * apply (rank_lt keep_values) in Hlt; [lia|done].
        * congruence.
        * apply (rank_lt keep_values) in Hlt; [lia|done].
    - apply Hc.
    - apply Hc.
    - apply compacted_block.
  Qed.

  (** A removed instruction defines nothing that has a number. *)
Lemma removed_unnumbered b i v :
    single_assignment f -> b ∈ kept keep (blocks f) -> i ∈ instructions b -> is_removed removed i = true ->
    v ∈ results i -> renamed (numbering keep_values 0) v = None.
  Proof.
    intros Hssa Hb Hi Hr Hv. destruct (renamed (numbering keep_values 0) v) as [v'|] eqn:E; [|done]. exfalso.
    assert (Hbf : b ∈ blocks f) by (eapply elem_of_sublist; [exact Hb|apply kept_sublist]).
    assert (Hio : occurs i (blocks f)) by (by exists b).
    apply renamed_numbering in E as [Hk _]. apply (kept_defined _ _ _ _ _ Hc) in Hk as [Hp|(c & Hcb & [Hp|(j & Hj & Hjr & Hjv)])].
    - by eapply (parameter_not_defined _ _ i).
    - eapply block_parameter_not_defined; [exact Hssa|exact Hio|done| |done].
      eapply elem_of_sublist; [exact Hcb|apply kept_sublist].
    - assert (j = i) as ->; [|congruence]. eapply (one_definition (parameters f) (blocks f)); [done| |done..].
      exists c. split; [|done]. eapply elem_of_sublist; [exact Hcb|apply kept_sublist].
  Qed.
End compacted.

(** A run of the original is a run of the function with fewer blocks. *)
Lemma compacted_refines keep keep_values f f' {U} (other : FlowOperation (rvalue U) -> option (rvalue U)) types :
  function_compacted keep None keep_values f f' -> refines other types f f'.
Proof. intros Hc. eapply renaming_refines; [by eapply compacted_renamed|done]. Qed.

(** ** Single assignment *)

Lemma nodup_injective m (vs ws : list N) :
  injective m -> Forall2 (fun v w => renamed m v = Some w) vs ws -> NoDup vs -> NoDup ws.
Proof.
  intros Hm H. induction H as [|v w vs ws Hvw H IH]; intros Hn; [constructor|]. apply NoDup_cons in Hn as [Hv Hn].
  constructor; [|by apply IH]. intros Hw. apply Hv. apply list_elem_of_lookup in Hw as (k & Hk).
  destruct (Forall2_lookup_r _ _ _ _ _ H Hk) as (v' & Hv' & Hvw').
  rewrite (Hm v v' w Hvw Hvw'). by eapply list_elem_of_lookup_2.
Qed.

(** The block without its removed instructions. *)
Definition strip (removed : option (list bool)) (b : Block) : Block :=
  with_instructions b (retained (is_removed removed) (instructions b)).

Lemma concat_sublist {X Y} (g h : X -> list Y) xs :
  (forall x, g x `sublist_of` h x) -> concat (map g xs) `sublist_of` concat (map h xs).
Proof. intros Hgh. induction xs as [|x xs IH]; [constructor|]. simpl. by apply sublist_app. Qed.

Lemma filter_concat_sublist {X Y} (test : X -> bool) (g : X -> list Y) xs :
  concat (map g (List.filter test xs)) `sublist_of` concat (map g xs).
Proof.
  induction xs as [|x xs IH]; [constructor|]. simpl. destruct (test x); simpl; [by apply sublist_app|by apply sublist_inserts_l].
Qed.

Lemma kept_concat_sublist {X Y} keep (g : X -> list Y) xs : concat (map g (kept keep xs)) `sublist_of` concat (map g xs).
Proof.
  revert keep. induction xs as [|x xs IH]; intros [|[] keep]; cbn [kept map concat]; try apply sublist_nil_l.
  - by apply sublist_app.
  - by apply sublist_inserts_l.
Qed.

Lemma nodup_stripped keep removed ps bs :
  NoDup (definitions ps bs) -> NoDup (definitions ps (map (strip removed) (kept keep bs))).
Proof.
  intros H. eapply sublist_NoDup; [exact H|]. clear H. apply sublist_app; [done|]. rewrite map_map.
  etransitivity; [|apply (kept_concat_sublist keep)]. apply concat_sublist. intros b. apply sublist_app; [done|].
  apply filter_concat_sublist.
Qed.

Lemma compacted_definitions keep removed keep_values f f' :
  function_compacted keep removed keep_values f f' ->
  mapM (renamed (numbering keep_values 0)) (definitions (parameters f) (map (strip removed) (kept keep (blocks f))))
  = Some (definitions (parameters f') (blocks f')).
Proof.
  intros Hc. apply mapM_Some, Forall2_app; [apply mapM_Some, Hc|].
  induction (compacted_blocks _ _ _ _ _ Hc) as [|b b' bs bs' [Hp Hi _] _ IH]; cbn [map concat]; [constructor|].
  apply Forall2_app; [|exact IH]. apply Forall2_app; [by apply mapM_Some|]. simpl.
  clear IH. induction Hi as [|i i' ins ins' [Hr _] _ IHi]; cbn [map concat]; [constructor|].
  apply Forall2_app; [by apply mapM_Some|exact IHi].
Qed.

Lemma compacted_well_formed keep keep_values removed f f' :
  function_compacted keep removed keep_values f f' -> well_formed f -> well_formed f'.
Proof.
  intros Hc [Hssa Himm]. split.
  - eapply nodup_injective; [apply numbering_injective|by apply mapM_Some, compacted_definitions|by apply nodup_stripped].
  - intros i' im (b' & Hb' & Hi') Ho. apply list_elem_of_lookup in Hb' as (k & Hb').
    destruct (Forall2_lookup_r _ _ _ _ _ (compacted_blocks _ _ _ _ _ Hc) Hb') as (b & Hb & [_ Hins _]).
    apply list_elem_of_lookup in Hi' as (j & Hi').
    destruct (Forall2_lookup_r _ _ _ _ _ Hins Hi') as (i & Hi & [_ Hop]).
    apply (Himm i).
    + exists b. split; [apply kept_lookup_inv in Hb as (n & _ & Hb & _); by eapply list_elem_of_lookup_2|].
      apply list_elem_of_lookup_2, list_elem_of_In, filter_In in Hi as [Hi _]. by apply list_elem_of_In.
    + rewrite Ho in Hop. destruct (operation i); cbn [traverse_operation] in Hop;
        repeat match type of Hop with
        | _ ≫= _ = Some _ => let x := fresh "x" in apply bind_Some in Hop as (x & _ & Hop)
        end; cbn in Hop; first [discriminate Hop | by injection Hop as ->].
Qed.

(** Every instruction has its own number. *)
Definition numbered (f : FlowFunction) : Prop := NoDup (map instruction_id (concat (map instructions (blocks f)))).

Lemma compacted_numbered keep keep_values removed f f' : function_compacted keep removed keep_values f f' -> numbered f'.
Proof.
  intros Hc. unfold numbered. rewrite (compacted_numbers _ _ _ _ _ Hc). apply (NoDup_fmap_2 N.of_nat), NoDup_seq.
Qed.

Lemma numbered_unique f i j : numbered f -> occurs i (blocks f) -> occurs j (blocks f) ->
  instruction_id i = instruction_id j -> i = j.
Proof.
  intros Hn Hi Hj Hid.
  assert (Hin : forall k, occurs k (blocks f) -> k ∈ concat (map instructions (blocks f))).
  { intros k (b & Hb & Hk). apply elem_concat. by exists b. }
  apply Hin, list_elem_of_lookup in Hi as (m & Hm). apply Hin, list_elem_of_lookup in Hj as (n & Hn').
  assert (m = n); [|congruence].
  eapply (NoDup_lookup _ m n (instruction_id i)); [exact Hn|..]; rewrite list_lookup_fmap; [by rewrite Hm|by rewrite Hn', Hid].
Qed.
