(* ===== verification/UnreachableSound.v ===== *)
(** Elimination of unreachable blocks: the marking finds exactly the blocks with
    a path from the entry, and the function without the others refines the
    original and has no unreachable block left. *)

From stdpp Require Import base numbers list option gmap relations.
From S2P Require Import Prelude Interrupt FlowWir ScalarFold Optimizer FlowOperands FlowSemantics FoldPass FoldSound CompactPass RenameSound CompactSound.

#[local] Open Scope Z_scope.

(** ** Paths *)

(** Control can pass from the block at [n] to the block at [m]. *)
Definition edge (bs : list Block) (n m : nat) : Prop :=
  exists b, bs !! n = Some b /\ m ∈ map N.to_nat (terminator_edges (terminator b)).

(** Every block has a path from the entry. *)
Definition all_reachable (f : FlowFunction) : Prop :=
  forall n, (n < length (blocks f))%nat -> rtc (edge (blocks f)) (N.to_nat (entry f)) n.

Definition marked (reachable : list bool) (n : nat) : Prop := reachable !! n = Some true.
Lemma marked_mark reachable n m : (n < length reachable)%nat ->
  marked (<[n := true]> reachable) m <-> m = n \/ marked reachable m.
Proof.
  intros Hn. unfold marked. destruct (decide (n = m)) as [->|Hne].
  - rewrite list_lookup_insert_eq by done. naive_solver.
  - rewrite list_lookup_insert_ne by done. naive_solver.
Qed.

(** ** One block *)

Lemma foldl_invalid es reachable pending : snd (foldl visit_edge (reachable, pending, true) es) = true.
Proof.
  revert reachable pending. induction es as [|e es IH]; intros reachable pending; cbn [foldl]; [done|].
  unfold visit_edge at 2. by destruct (reachable !! _) as [[]|].
Qed.

(** Visiting the edges of a block marks and pushes the targets not seen before. *)
Lemma visit_edges es reachable pending reachable' pending' :
  foldl visit_edge (reachable, pending, false) es = (reachable', pending', false) ->
  length reachable' = length reachable
  /\ (forall m, marked reachable' m <-> marked reachable m \/ m ∈ map N.to_nat es)
  /\ (forall m, m ∈ map N.to_nat pending' <-> m ∈ map N.to_nat pending \/ marked reachable' m /\ ~ marked reachable m)
  /\ (length pending' + unset reachable' = length pending + unset reachable)%nat.
Proof.
  revert reachable pending. induction es as [|e es IH]; intros reachable pending; cbn [foldl].
  - intros [= <- <-]. split_and!; [done| |set_solver|done]. set_solver.
  - unfold visit_edge at 2. destruct (reachable !! N.to_nat e) as [[]|] eqn:He.
    + intros H. destruct (IH _ _ H) as (Hl & Hm & Hp & Hn). split_and!; [done| |done|done].
      intros m. rewrite Hm. cbn [map]. rewrite elem_of_cons. split; [naive_solver|].
      intros [?|[->|?]]; [by left|by left|by right].
    + apply lookup_lt_Some in He as Hlt. intros H. destruct (IH _ _ H) as (Hl & Hm & Hp & Hn).
      rewrite length_insert in Hl. split_and!.
      * done.
      * intros m. rewrite Hm, marked_mark by done. cbn [map]. rewrite elem_of_cons. naive_solver.
      * intros m. rewrite Hp. cbn [map]. rewrite elem_of_cons, marked_mark by done.
        assert (Hmark : marked reachable' (N.to_nat e)) by (apply Hm; left; apply marked_mark; [done|by left]).
        assert (Hnot : ~ marked reachable (N.to_nat e)) by (unfold marked; congruence).
        destruct (decide (m = N.to_nat e)) as [->|Hne]; naive_solver.
      * rewrite (unset_insert _ _ He). cbn [length] in Hn. lia.
    + intros H. pose proof (foldl_invalid es reachable pending) as Hinv. by rewrite H in Hinv.
Qed.

(** ** The loop *)

Section loop.
  Context (bs : list Block) (start_ : nat).

  (** What the loop keeps: the marked blocks are reachable, and every edge from
      a marked block that is not pending leads to a marked block. *)
Record marking (reachable : list bool) (pending : list BlockId) : Prop := {
    marking_length : length reachable = length bs;
    marking_sound : forall n, marked reachable n -> rtc (edge bs) start_ n;
    marking_start : marked reachable start_;
    marking_pending : forall n, n ∈ map N.to_nat pending -> marked reachable n;
    marking_closed : forall n m, marked reachable n -> n ∉ map N.to_nat pending -> edge bs n m -> marked reachable m;
  }.

Lemma marking_step reachable block pending b reachable' pending' :
    marking reachable (block :: pending) -> bs !! N.to_nat block = Some b ->
    foldl visit_edge (reachable, pending, false) (terminator_edges (terminator b)) = (reachable', pending', false) ->
    marking reachable' pending'.
  Proof.
    intros [Hl Hs Ht Hp Hc] Hb H. destruct (visit_edges _ _ _ _ _ H) as (Hl' & Hm & Hp' & _).
    assert (Hblock : marked reachable (N.to_nat block)) by (apply Hp; by left). split.
    - by rewrite Hl'.
    - intros n [Hn|Hn]%Hm; [by apply Hs|]. eapply rtc_r; [by apply Hs|]. by exists b.
    - apply Hm. by left.
    - intros n [Hn|[Hn _]]%Hp'; [|done]. apply Hm. left. apply Hp. by right.
    - intros n m Hn Hnp Hedge. apply Hm. destruct (decide (n = N.to_nat block)) as [->|Hne].
      + right. destruct Hedge as (b' & Hb' & Hin). by simplify_eq.
      + apply Hm in Hn as Hn'. destruct (decide (reachable !! n = Some true)) as [Hold|Hnew].
        * left. eapply Hc; [done| |done]. intros [->|Hin]%elem_of_cons; [done|]. apply Hnp, Hp'. by left.
        * exfalso. apply Hnp, Hp'. by right.
  Qed.

Lemma reachable_loop_returns fuel reachable pending s r s' :
    marking reachable pending -> (length pending + unset reachable <= fuel)%nat ->
    may_returnS (reachable_loop fuel bs reachable pending) s r s' -> marking r [].
  Proof.
    revert reachable pending s. induction fuel as [|fuel IH]; intros reachable [|block pending] s HI Hfuel;
      cbn [reachable_loop]; try (by intros [<- _]%may_returnS_mret); [simpl in Hfuel; lia|].
    intros (_ & s1 & _ & H)%may_returnS_bind.
    destruct (bs !! N.to_nat block) as [b|] eqn:Hb; [|by apply may_returnS_liftS in H as [[] _]].
    apply may_returnS_bind in H as ([[reachable' pending'] invalid] & s2 & Hv%for_each_returns & H).
    destruct invalid; [by apply may_returnS_liftS in H as [[] _]|]. symmetry in Hv.
    eapply IH; [by eapply marking_step| |exact H].
    destruct (visit_edges _ _ _ _ _ Hv) as (_ & _ & _ & Hn). simpl in Hfuel. lia.
  Qed.
End loop.

Lemma unset_replicate n : unset (replicate n false) = n.
Proof. unfold unset. induction n as [|n IH]; [done|]. simpl. by rewrite IH. Qed.

Lemma reachable_blocks_returns f limits s reachable s' :
  may_returnS (reachable_blocks f limits) s reachable s' ->
  length reachable = length (blocks f)
  /\ forall n, reachable !! n = Some true <-> rtc (edge (blocks f)) (N.to_nat (entry f)) n.
Proof.
  unfold reachable_blocks. intros (r0 & s1 & Hr0%filled_vec_returns & H)%may_returnS_bind. subst r0.
  apply may_returnS_bind in H as (u & s2 & _ & H).
  destruct (replicate (length (blocks f)) false !! N.to_nat (entry f)) as [x|] eqn:Hx;
    [|by apply may_returnS_liftS in H as [[] _]].
  apply lookup_replicate in Hx as [-> Hlt].
  assert (Hlt' : (N.to_nat (entry f) < length (replicate (length (blocks f)) false))%nat) by by rewrite length_replicate.
  apply (reachable_loop_returns _ (N.to_nat (entry f))) in H as [Hl Hs Ht _ Hc].
  - split; [done|]. intros n. split; [apply Hs|]. intros Hpath. change (marked reachable n).
    revert Ht. generalize (N.to_nat (entry f)) Hpath. clear - Hc. intros e Hpath. 
    induction Hpath as [e|e m n Hem Hmn IH]; [done|]. intros He. apply IH. eapply Hc; [done| |done].
    by intros ?%not_elem_of_nil.
  - split.
    + by rewrite length_insert, length_replicate.
    + intros n [->|Hn]%marked_mark; [constructor| |done]. unfold marked in Hn. by apply lookup_replicate in Hn as [? _].
    + apply marked_mark; [done|by left].
    + intros n Hn. apply marked_mark; [done|]. left. cbn [map] in Hn. set_solver.
    + intros n m [->|Hn]%marked_mark Hnp _; [|unfold marked in Hn; by apply lookup_replicate in Hn as [? _]|done].
      exfalso. apply Hnp. cbn [map]. set_solver.
  - cbn [length]. pose proof (unset_insert (replicate (length (blocks f)) false) (N.to_nat (entry f))) as Hu.
    rewrite unset_replicate in Hu. specialize (Hu (lookup_replicate_2 _ _ _ Hlt)). unfold unset in *. lia.
Qed.

(** The marking of reachable blocks is exact: when [reachable_blocks]
    returns, it has one flag for every block, set exactly for the blocks with a
    path of control edges from the entry. Its loop is never out of fuel. *)
Theorem reachable_blocks_exact f limits s reachable s' :
  may_returnS (reachable_blocks f limits) s reachable s' ->
  length reachable = length (blocks f)
  /\ forall n, reachable !! n = Some true <-> rtc (edge (blocks f)) (N.to_nat (entry f)) n.
Proof. apply reachable_blocks_returns. Qed.

(** ** Paths of the compacted function *)

Lemma terminator_edges_renamed value block (t t' : Terminator ValueId) :
  traverse_terminator value block t = Some t' -> mapM block (terminator_edges t) = Some (terminator_edges t').
Proof.
  intros H. destruct t as [target vs|c tb ta eb ea|v cases d da|vs|n a r|g vs|failure o|]; cbn [traverse_terminator] in H;
    repeat match type of H with
    | _ ≫= _ = Some _ => let x := fresh "x" in let Hx := fresh "Hx" in apply bind_Some in H as (x & Hx & H)
    end; injection H as <-; cbn [terminator_edges mapM]; try done.
  - by rewrite Hx.
  - by rewrite Hx0, Hx1.
  - apply mapM_Some, Forall2_app; [|by constructor]. apply mapM_Some in Hx0.
    induction Hx0 as [|k k' ks ks' Hk Hks IH]; cbn [map]; constructor; [|done].
    unfold traverse_case in Hk. apply bind_Some in Hk as (b & Hb & Hk). apply bind_Some in Hk as (xs & _ & Hk).
    by injection Hk as <-.
  - by rewrite Hx.
Qed.

Section paths.
  Context (keep keep_values : list bool) (f f' : FlowFunction).
  Context (Hc : function_compacted keep None keep_values f f').

Lemma compacted_edge n m :
    keep !! n = Some true -> edge (blocks f) n m ->
    keep !! m = Some true /\ edge (blocks f') (rank keep n) (rank keep m).
  Proof.
    intros Hk (b & Hb & Hm). destruct (compacted_block keep keep_values None f f' Hc (N.of_nat n) (N.of_nat (rank keep n)) b)
      as (b' & Hb' & Hr).
    { apply renamed_numbering. by rewrite Nat2N.id. }
    { by rewrite Nat2N.id. }
    rewrite Nat2N.id in Hb'. apply renamed_terminator, terminator_edges_renamed, mapM_Some in Hr.
    apply list_elem_of_fmap in Hm as (e & -> & He). apply list_elem_of_lookup in He as (k & He).
    destruct (Forall2_lookup_l _ _ _ _ _ Hr He) as (e' & He' & [Hke ->]%renamed_numbering).
    split; [done|]. exists b'. split; [done|]. apply list_elem_of_fmap. exists (N.of_nat (rank keep (N.to_nat e))).
    split; [by rewrite Nat2N.id|]. by eapply list_elem_of_lookup_2.
  Qed.

Lemma compacted_path e n :
    keep !! e = Some true -> rtc (edge (blocks f)) e n -> rtc (edge (blocks f')) (rank keep e) (rank keep n).
  Proof.
    intros He Hpath. induction Hpath as [e|e m n Hem Hmn IH]; [constructor|].
    destruct (compacted_edge e m He Hem) as [Hm Hedge]. eapply rtc_l; [done|]. by apply IH.
  Qed.

Lemma compacted_reachable :
    (forall n, keep !! n = Some true -> rtc (edge (blocks f)) (N.to_nat (entry f)) n) -> all_reachable f'.
  Proof.
    intros Hkeep j Hj. destruct (lookup_lt_is_Some_2 _ _ Hj) as [b' Hb'].
    destruct (Forall2_lookup_r _ _ _ _ _ (compacted_blocks _ _ _ _ _ Hc) Hb') as (b & Hb & _).
    apply kept_lookup_inv in Hb as (i & Hi & _ & <-).
    pose proof (compacted_entry _ _ _ _ _ Hc) as [He Hentry]%renamed_numbering. rewrite Hentry, Nat2N.id.
    apply compacted_path; [done|]. by apply Hkeep.
  Qed.
End paths.

(** ** The pass *)

Lemma all_retained_true flags s s' : may_returnS (all_retained flags) s true s' -> Forall (eq true) flags.
Proof.
  revert s. induction flags as [|[] flags IH]; intros s; cbn [all_retained]; [constructor| |].
  - intros (_ & s1 & _ & H)%may_returnS_bind. constructor; [done|by eapply IH].
  - intros (_ & s1 & _ & H)%may_returnS_bind. by apply may_returnS_mret in H as [? _].
Qed.

Lemma eliminate_function_facts limits changed f s f' changed' s' :
  well_formed f -> may_returnS (eliminate_function limits changed f) s (f', changed') s' ->
  well_formed f' /\ (forall U other types, @refines U other types f f') /\ all_reachable f'.
Proof.
  intros Hwf (_ & s3 & _ & H)%may_returnS_bind.
  apply may_returnS_bind in H as (reachable & s4 & [Hl Hr]%reachable_blocks_returns & H).
  apply may_returnS_bind in H as (retained & s5 & Ha & H). destruct retained.
  - apply may_returnS_mret in H as [[= <- _] _]. split_and!; [done|reflexivity|].
    intros n Hn. apply Hr. apply all_retained_true in Ha. rewrite Forall_forall in Ha.
    destruct (lookup_lt_is_Some_2 reachable n) as [x Hx]; [by rewrite Hl|].
    rewrite Hx. f_equal. symmetry. apply Ha. by eapply list_elem_of_lookup_2.
  - apply may_returnS_bind in H as (u & s6 & _ & H).
    apply may_returnS_bind in H as (f1 & s7 & (keep_values & _ & Hc)%compact_function_returns & H).
    apply may_returnS_mret in H as [[= <- _] _]. split_and!.
    + by eapply (compacted_well_formed _ _ None).
    + intros U other types. by eapply compacted_refines.
    + eapply compacted_reachable; [done|]. intros n. apply Hr.
Qed.

(** C30: Eliminating unreachable blocks preserves meaning and is complete: when
    the pass returns, every function has become one that refines it, for all
    types and every meaning of the operations, still in single-assignment form,
    and in which every block has a path from the entry. *)
Theorem unreachable_elimination_refines functions limits s functions' changed s' :
  Forall well_formed functions ->
  may_returnS (eliminate_unreachable_blocks functions limits) s (functions', changed) s' ->
  Forall2 (fun f f' =>
    well_formed f' /\ (forall U other types, @refines U other types f f') /\ all_reachable f')
    functions functions'.
Proof.
  intros Hwf. rewrite Forall_forall in Hwf. apply map_accum_Forall2.
  intros t f s1 f' t' s2 Hf. apply eliminate_function_facts; auto.
Qed.
