(* ===== verification/DeadSound.v ===== *)
(** The two passes that drop instructions preserve meaning: a check on a
    condition known to hold passes, and a pure operation whose results are dead
    can neither fail nor be observed. *)

From stdpp Require Import base numbers list option gmap.
From S2P Require Import Prelude Interrupt FlowWir ScalarFold Optimizer FlowOperands FlowSemantics FoldPass FoldSound CompactPass DeadPass RenameSound CompactSound.

#[local] Open Scope Z_scope.

(** ** Which instructions are removed *)

(** Every flag is of an instruction with the property. *)
Definition flags (f : FlowFunction) (Q : Instruction -> Prop) (removed : list bool) : Prop :=
  forall n, removed !! n = Some true -> exists i, occurs i (blocks f) /\ N.to_nat (instruction_id i) = n /\ Q i.

Lemma flags_insert f Q removed i :
  flags f Q removed -> occurs i (blocks f) -> Q i -> flags f Q (<[N.to_nat (instruction_id i) := true]> removed).
Proof.
  intros Hf Hi HQ n Hn. destruct (decide (N.to_nat (instruction_id i) = n)) as [<-|Hne]; [by exists i|].
  rewrite list_lookup_insert_ne in Hn by done. by apply Hf.
Qed.

Lemma flags_empty f Q n : flags f Q (replicate n false).
Proof. intros m Hm. by apply lookup_replicate in Hm as [? _]. Qed.

Lemma flags_removed f Q removed i :
  numbered f -> flags f Q removed -> occurs i (blocks f) -> is_removed (Some removed) i = true -> Q i.
Proof.
  intros Hn Hf Hi. unfold is_removed. cbn [mbind option_bind]. destruct (removed !! _) as [[]|] eqn:E; try done. intros _.
  destruct (Hf _ E) as (j & Hj & Hid & HQ). by rewrite <- (numbered_unique f j i Hn Hj Hi (N2Nat.inj _ _ Hid)).
Qed.

(** ** Dropping harmless instructions *)

Lemma compacted_simulates f f' removed limits s s' {U} (other : FlowOperation (rvalue U) -> option (rvalue U)) types
    (P : gmap N (rvalue U) -> Prop) :
  single_assignment f ->
  (forall arguments s, start types f arguments = Some s -> P (env s)) ->
  (forall s s1, P (env s) -> successor other types f s s1 -> P (env s1)) ->
  (forall b i, b ∈ blocks f -> i ∈ instructions b -> is_removed (Some removed) i = true -> harmless other types f P b i) ->
  may_returnS (compact_removed f removed limits) s f' s' -> simulates other types f f'.
Proof.
  intros Hssa Hstart Hnext Hharmless (keep & s1 & Hk%filled_vec_returns & H)%may_returnS_bind. subst keep.
  apply compact_function_returns in H as (keep_values & _ & Hc).
  assert (Hall : kept (replicate (length (blocks f)) true) (blocks f) = blocks f).
  { clear. induction (blocks f) as [|b bs IH]; [done|]. simpl. by rewrite IH. }
  eapply (skipping_simulates other types (is_removed (Some removed)) _ _ f f'); [by eapply compacted_renamed|done..|].
  intros b i Hb Hi Hr. split; [by apply Hharmless|]. intros v Hv.
  eapply removed_unnumbered; [exact Hc|done| |done..]. by rewrite Hall.
Qed.

Lemma compact_removed_facts f f' removed limits s s' :
  well_formed f -> may_returnS (compact_removed f removed limits) s f' s' -> well_formed f' /\ numbered f'.
Proof.
  intros Hwf (keep & s1 & _ & H)%may_returnS_bind. apply compact_function_returns in H as (keep_values & _ & Hc).
  split; [by eapply compacted_well_formed|by eapply compacted_numbered].
Qed.

(** ** Checks *)

Definition holds (constants : Constants) (i : Instruction) : Prop :=
  exists condition failure proof, operation i = CheckOp condition failure proof
    /\ constant condition constants = Some (CBool true).

Lemma check_harmless {U} (other : FlowOperation (rvalue U) -> option (rvalue U)) types f constants b i :
  holds constants i -> harmless other types f (agrees constants) b i.
Proof.
  intros (c & failure & proof & Ho & Hc) s Ha _ _. unfold react_instruction. rewrite Ho. cbn [traverse_operation].
  destruct (env s !! c) as [x|] eqn:Hx; [|by left]. rewrite (Ha c x Hx _ Hc). cbn.
  destruct (advance types (values f) s (results i) []) as [s1|] eqn:Hadv; [|by left]. right. by exists [], s1.
Qed.

Lemma remove_checks_flags types f limits changed s f' changed' s' (constants := table types (values f) (blocks f)) :
  may_returnS (remove_checks_function types limits changed f) s (f', changed') s' ->
  f' = f \/ exists removed s1 s2, flags f (holds constants) removed /\ may_returnS (compact_removed f removed limits) s1 f' s2.
Proof.
  unfold remove_checks_function. intros (_ & s1 & _ & H)%may_returnS_bind.
  apply may_returnS_bind in H as (c0 & s2 & Hc0%filled_vec_returns & H). subst c0.
  apply may_returnS_bind in H as (c1 & s3 & Hc1%seed_returns & H). subst c1.
  apply may_returnS_bind in H as (total & s4 & _ & H). apply may_returnS_bind in H as (r0 & s5 & Hr0%filled_vec_returns & H).
  subst r0. apply may_returnS_bind in H as ([removed function_changed] & s6 & Hr & H).
  assert (Hflags : flags f (holds constants) removed).
  { change removed with (removed, function_changed).1.
    eapply (fold_each_invariant (fun acc => flags f (holds constants) acc.1)), Hr; [|apply flags_empty].
    intros acc b t1 acc' t2 Hb Hacc (_ & t3 & _ & Hstep)%may_returnS_bind.
    eapply (fold_each_invariant (fun acc => flags f (holds constants) acc.1)), Hstep; [|done].
    intros [rem ch] i u1 [rem' ch'] u2 Hi Hrem (_ & u3 & _ & Hone)%may_returnS_bind. cbn [fst] in *.
    destruct (operation i) eqn:Ho; try (by apply may_returnS_mret in Hone as [[= <- <-] _]).
    case_bool_decide as Hc; [by apply may_returnS_mret in Hone as [[= <- <-] _]|].
    destruct (rem !! _); [|by apply may_returnS_liftS in Hone as [[] _]].
    apply may_returnS_bind in Hone as (rel & u4 & _ & Hone). apply may_returnS_bind in Hone as (sub & u5 & _ & Hone).
    apply may_returnS_bind in Hone as (u & u6 & _ & Hone). apply may_returnS_mret in Hone as [[= <- <-] _].
    apply flags_insert; [done|by exists b|]. eexists _, _, _. split; [done|]. exact Hc. }
  destruct function_changed; [right|left; by apply may_returnS_mret in H as [[= <- _] _]].
  apply may_returnS_bind in H as (f1 & s7 & Hf & H). apply may_returnS_mret in H as [[= <- _] _].
  by exists removed, s6, s7.
Qed.

Lemma remove_checks_function_facts types limits changed f s f' changed' s' :
  types_ok types -> well_formed f /\ numbered f ->
  may_returnS (remove_checks_function types limits changed f) s (f', changed') s' ->
  (well_formed f' /\ numbered f') /\ forall U other, @simulates U other types f f'.
Proof.
  intros Htypes Hf H. pose proof Hf as [[Hssa Himm] Hn].
  destruct (table_ok types Htypes (parameters f) (values f) (blocks f) Hssa Himm) as (_ & Hk & _).
  apply remove_checks_flags in H as [->|(removed & s3 & s4 & Hflags & H)]; [by split; [|intros U other; apply simulates_refl]|].
  split; [by eapply compact_removed_facts|]. intros U other.
  eapply (compacted_simulates f f' removed limits s3 s4 other types (agrees _)); [done|..|done].
  - intros arguments s5. by apply start_agrees.
  - intros s5 s6. by apply successor_agrees.
  - intros b i Hb Hi Hr. apply check_harmless. eapply flags_removed; [done..| |done]. by exists b.
Qed.

(** C31: Eliminating proven checks preserves meaning: when the pass returns,
    every function has become one that makes the same exchanges with every
    environment and ends the same way, whenever the original does not go wrong,
    and that is at most a constant factor ahead of it. *)
Theorem check_elimination_simulates types functions limits s functions' changed s' :
  types_ok types -> Forall (fun f => well_formed f /\ numbered f) functions ->
  may_returnS (eliminate_proven_true_checks types functions limits) s (functions', changed) s' ->
  Forall2 (fun f f' => (well_formed f' /\ numbered f') /\ forall U other, @simulates U other types f f') functions functions'.
Proof.
  intros Htypes Hwf. rewrite Forall_forall in Hwf. apply map_accum_Forall2.
  intros t f s1 f' t' s2 Hf. apply remove_checks_function_facts; auto.
Qed.

(** ** Dead operations *)

(** The identity of a type is its index. *)
Definition types_dense (types : list FlowType) : Prop := forall n t, types !! n = Some t -> type_id t = N.of_nat n.

Lemma env_typed_start {U} types f arguments (s : state U) : start types f arguments = Some s -> env_typed types (values f) (env s).
Proof.
  unfold start. destruct (bind_all _ _ _ _ _) as [e|] eqn:He; [|done]. cbn [mbind option_bind].
  apply bind_all_typed in He; [|by intros v x]. unfold enter, enter_block. destruct (blocks f !! _) as [b|]; [|done].
  cbn [mbind option_bind]. destruct (bind_all _ _ (block_parameters b) _ _) as [e'|] eqn:He'; [|done]. intros [= <-].
  by eapply bind_all_typed.
Qed.

Lemma env_typed_successor {U} other types f (s s1 : state U) :
  env_typed types (values f) (env s) -> successor other types f s s1 -> env_typed types (values f) (env s1).
Proof.
  intros Ht Hs. unfold successor, react in Hs. destruct (blocks f !! here s) as [b|]; [|naive_solver].
  destruct (instructions b !! pc s) as [i|].
  - destruct (instruction_step_binds other types (values f) s s1 i Hs) as (xs & Hb & _). by eapply bind_all_typed.
  - apply react_end_binds in Hs as (b' & xs & _ & Hb). by eapply bind_all_typed.
Qed.

(** Wrapping, bitwise and comparison operators never abandon. *)
Lemma removable_binary_yields {U} op l r lt rt e :
  removable_binary op lt rt = true -> evaluate_binary (U := U) op l r = Some e -> e <> Fails.
Proof.
  intros Hop. unfold evaluate_binary. destruct l as [|ls lb lv| |], r as [|rs rb rv| |];
    try (intros H; destruct (language_comparison _ _ _); [|done]; by injection H as <-).
  destruct (_ && _); [|done]. intros [= <-]. by destruct op.
Qed.

Lemma removable_unary_yields {U} op c k e :
  removable_unary op k = true -> scalar_fits c k = true -> evaluate_unary (U := U) op c = Some e -> e <> Fails.
Proof.
  intros Hop Hfit. destruct op, c as [|sg bits z| |]; simpl; try (by intros [= <-]); try done.
  by destruct k as [|[]| | | | | | | | | | | | | | | | |].
Qed.

Section dead.
  Context {U : Type} (other : FlowOperation (rvalue U) -> option (rvalue U)) (types : list FlowType).
  Context (Hdense : types_dense types).

Lemma type_record_fits vals v (e : gmap N (rvalue U)) x t :
    env_typed types vals e -> e !! v = Some x -> type_record types vals v = Some t -> value_fits x (kind t) = true.
  Proof.
    intros He Hx Ht. destruct (He v x Hx) as (k & Hk & Hfit). unfold kind_of_value, kind_of in Hk. unfold type_record in Ht.
    unfold type_of_value in Ht. destruct (value_ty <$> vals !! N.to_nat v) as [ty|]; [|done]. cbn in *.
    rewrite Ht in Hk. by injection Hk as <-.
  Qed.

Lemma same_type ty ty' t t' :
    types !! ty = Some t -> types !! ty' = Some t' -> (type_id t =? type_id t')%N = true -> t = t'.
  Proof.
    intros Ht Ht' Hid%N.eqb_eq. rewrite (Hdense _ _ Ht), (Hdense _ _ Ht') in Hid. apply Nat2N.inj in Hid. congruence.
  Qed.

  (** A removable operation does not fail. *)
Lemma removable_continues f s i op ty :
    env_typed types (values f) (env s) -> removable_when_dead types (values f) i = true ->
    traverse_operation (fun v : ValueId => env s !! v) (operation i) = Some op ->
    result_type (values f) i = Some ty ->
    check_of op = None /\ pure_operation op = true /\ evaluate other types ty op <> Some Fails.
  Proof.
    intros He Hr Ht Hty. unfold removable_when_dead, single_result in Hr. unfold result_type in Hty.
    destruct (results i) as [|r [|]]; try done. unfold type_of_value in Hr. simpl in Hty. rewrite Hty in Hr.
    destruct (types !! N.to_nat ty) as [rt|] eqn:Hrt; [|done]. destruct (_ || _); [done|].
    destruct (operation i) as [im| |u v|b l r'| | | | | | | | | |c a b| | | | | | | | | | | | | | | | | | | | | | | | | | | | | | | | | | | | | | | | | | | | | ];
      cbn [removable_operation] in Hr; try done; cbn [traverse_operation] in Ht.
    - injection Ht as <-. split_and!; [done..|]. cbn [evaluate]. destruct (language_immediate _ _ _); [done|].
      by destruct (other _).
    - apply bind_Some in Ht as (x & Hx & Ht). injection Ht as <-. split_and!; [done..|].
      destruct (type_record types (values f) v) as [t|] eqn:Hrec; [|done]. apply andb_true_iff in Hr as [Hid Hop].
      assert (Hty' : exists ty', types !! ty' = Some t).
      { unfold type_record in Hrec. apply bind_Some in Hrec as (ty' & _ & Hrec). by eexists. }
      destruct Hty' as (ty' & Hty'). rewrite <- (same_type _ _ _ _ Hty' Hrt Hid) in Hop.
      pose proof (type_record_fits _ _ _ _ _ He Hx Hrec) as Hfit. destruct x as [c|o]; cbn [evaluate].
      + destruct (evaluate_unary u c) as [eff|] eqn:E; [|by destruct (other _)].
        intros [= ->]. simpl in Hfit. apply andb_true_iff in Hfit as [Hfit _].
        by eapply (removable_unary_yields _ _ _ _ Hop Hfit E).
      + by destruct (other _).
    - apply bind_Some in Ht as (x & Hx & Ht). apply bind_Some in Ht as (y & Hy & Ht). injection Ht as <-.
      split_and!; [done..|]. destruct (type_record _ _ l) as [lt|]; [|done]. destruct (type_record _ _ r') as [rt'|]; [|done].
      apply andb_true_iff in Hr as [_ Hop].
      destruct x as [cx|ox], y as [cy|oy]; cbn [evaluate pure_operation]; try (by destruct (other _)).
      destruct (evaluate_binary b cx cy) as [eff|] eqn:E; [|by destruct (other _)].
      intros [= ->]. by eapply (removable_binary_yields _ _ _ _ _ _ Hop E).
    - apply bind_Some in Ht as (x & _ & Ht). apply bind_Some in Ht as (y & _ & Ht). apply bind_Some in Ht as (z & _ & Ht).
      injection Ht as <-. split_and!; [done..|].
      destruct x as [[]|]; cbn [evaluate pure_operation]; try done; by destruct (other _).
  Qed.

Lemma removable_harmless f b i :
    removable_when_dead types (values f) i = true -> harmless other types f (env_typed types (values f)) b i.
  Proof.
    intros Hr s He _ _. unfold react_instruction.
    destruct (traverse_operation (fun v : ValueId => env s !! v) (operation i)) as [op|] eqn:Ht; [|by left].
    unfold react_operation.
    destruct (result_type (values f) i) as [ty|] eqn:Hty.
    - destruct (removable_continues f s i op ty He Hr Ht Hty) as (-> & Hp & Hev). cbn [mbind option_bind].
      destruct (evaluate other types ty op) as [[x|]|] eqn:E; [|done|rewrite Hp; by left].
      destruct (advance types (values f) s (results i) [x]) as [s1|] eqn:Ha; [|by left]. right. by exists [x], s1.
    - exfalso. unfold removable_when_dead, single_result in Hr. unfold result_type in Hty.
      destruct (results i) as [|r [|]]; try done. unfold type_of_value in Hr. simpl in Hty. by rewrite Hty in Hr.
  Qed.
End dead.

(** ** The tables of the worklist *)

(** A loop that visits a list in order, by what it has visited. *)
Lemma fold_each_prefix {X T} (I : list X -> T -> Prop) (step : T -> X -> pass T) xs t s r s' :
  (forall pre x post t s r s', xs = pre ++ x :: post -> I pre t -> may_returnS (step t x) s r s' -> I (pre ++ [x]) r) ->
  I [] t -> may_returnS (fold_each step xs t) s r s' -> I xs r.
Proof.
  intros Hs. assert (H : forall pre post t s, xs = pre ++ post -> I pre t ->
    may_returnS (fold_each step post t) s r s' -> I xs r); [|by apply (H [] xs)].
  intros pre post. revert pre. induction post as [|x post IH]; intros pre t0 s0 Heq Ht; cbn [fold_each].
  - intros [<- _]%may_returnS_mret. by rewrite Heq, app_nil_r.
  - intros (t1 & s1 & H1 & H)%may_returnS_bind. eapply (IH (pre ++ [x])); [by rewrite <- app_assoc|by eapply Hs|exact H].
Qed.

(** Every location holds the instruction with the number. *)
Definition located (f : FlowFunction) (locations : Locations) : Prop :=
  forall (n : nat) b k, mjoin (locations !! n) = Some (b, k) ->
    exists blk i, blocks f !! b = Some blk /\ instructions blk !! k = Some i /\ N.to_nat (instruction_id i) = n.

Lemma index_located f total s t n s' use_counts definitions :
  may_returnS (fold_each index_block (blocks f)
    ({| locations := replicate total None; definitions_of := definitions; uses := use_counts |}, 0%nat)) s (t, n) s' ->
  located f (locations t).
Proof.
  intros H. enough (located f (locations (t, n).1) /\ (t, n).2 = length (blocks f)) by naive_solver.
  eapply (fold_each_prefix (fun pre acc => located f (locations acc.1) /\ acc.2 = length pre)), H.
  - intros pre b post [t0 bi] s0 [t1 bi'] s1 Hbs [Hl Hbi] (_ & s2 & _ & Hstep)%may_returnS_bind. cbn [fst snd] in *. subst bi.
    apply may_returnS_bind in Hstep as ([t2 k2] & s3 & Hins & Hstep).
    apply may_returnS_bind in Hstep as (uc & s4 & _ & Hstep). apply may_returnS_mret in Hstep as [[= <- <-] _].
    cbn [fst snd locations]. split; [|rewrite length_app; simpl; lia].
    enough (located f (locations (t2, k2).1) /\ (t2, k2).2 = length (instructions b)) by naive_solver.
    eapply (fold_each_prefix (fun ipre acc => located f (locations acc.1) /\ acc.2 = length ipre)), Hins; [|done].
    intros ipre i ipost [t3 k3] s5 [t4 k4] s6 Hib [Hl3 Hk] (_ & s7 & _ & Hone)%may_returnS_bind. cbn [fst snd] in *. subst k3.
    destruct (locations t3 !! N.to_nat (instruction_id i)) as [o|] eqn:E; [|by apply may_returnS_liftS in Hone as [[] _]].
    apply may_returnS_bind in Hone as (d & s8 & _ & Hone). apply may_returnS_bind in Hone as (uc2 & s9 & _ & Hone).
    apply may_returnS_mret in Hone as [[= <- <-] _]. cbn [locations]. split; [|rewrite length_app; simpl; lia].
    intros m c k Hm. unfold Locations in Hm. destruct (decide (N.to_nat (instruction_id i) = m)) as [<-|Hne].
    + rewrite list_lookup_insert_eq in Hm by (by eapply lookup_lt_Some). injection Hm as <- <-.
      exists b, i. rewrite Hbs, Hib. split_and!; [by apply list_lookup_middle..|done].
    + rewrite list_lookup_insert_ne in Hm by done. by apply Hl3.
  - cbn [fst snd]. split; [|done]. intros m b k Hm. unfold Locations in Hm. cbn [locations] in Hm. revert Hm.
    destruct (replicate total (@None (nat * nat)) !! m) as [o|] eqn:E; [|done].
    by apply lookup_replicate in E as [-> _].
Qed.

Lemma instruction_at_occurs f locations id i :
  located f locations -> instruction_at f locations id = Ok i -> occurs i (blocks f) /\ instruction_id i = id.
Proof.
  intros Hl. unfold instruction_at. destruct (mjoin (locations !! N.to_nat id)) as [[b k]|] eqn:E; [|done].
  destruct (Hl _ _ _ E) as (blk & j & Hb & Hj & Hid). rewrite Hb. cbn [mbind option_bind]. rewrite Hj. intros [= <-].
  split; [|by apply N2Nat.inj]. exists blk. split; by eapply list_elem_of_lookup_2.
Qed.

Lemma dead_loop_flags fuel types f locations_ definitions use_counts removed queued pending s r s' :
  located f locations_ -> flags f (fun i => removable_when_dead types (values f) i = true) removed ->
  may_returnS (dead_loop fuel types f locations_ definitions use_counts removed queued pending) s r s' ->
  flags f (fun i => removable_when_dead types (values f) i = true) r.1.
Proof.
  intros Hl. revert use_counts removed queued pending s. induction fuel as [|fuel IH];
    intros use_counts removed queued [|id pending] s Hf; cbn [dead_loop]; try (by intros [<- _]%may_returnS_mret).
  intros (_ & s1 & _ & H)%may_returnS_bind.
  destruct (removed !! N.to_nat id) as [[]|]; [by eapply IH| |by apply may_returnS_liftS in H as [[] _]].
  apply may_returnS_bind in H as (i & s2 & Hi & H). apply may_returnS_liftS in Hi as [Hi _]. apply may_return_lift in Hi.
  destruct (instruction_at_occurs _ _ _ _ Hl Hi) as [Hocc <-].
  apply may_returnS_bind in H as (dead & s3 & Hd & H).
  destruct (removable_when_dead types (values f) i) eqn:Hr.
  2: { apply may_returnS_mret in Hd as [<- _]. cbn [negb] in H. by eapply IH. }
  destruct dead; cbn [negb] in H; [|by eapply IH].
  apply may_returnS_bind in H as ([uc failed] & s4 & _ & H). destruct failed; [by apply may_returnS_liftS in H as [[] _]|].
  apply may_returnS_bind in H as ([[q p] failed] & s5 & _ & H). destruct failed; [by apply may_returnS_liftS in H as [[] _]|].
  eapply IH, H. by apply flags_insert.
Qed.

Lemma remove_dead_flags types f limits changed s f' changed' s' :
  may_returnS (remove_dead_function types limits changed f) s (f', changed') s' ->
  f' = f \/ exists removed s1 s2, flags f (fun i => removable_when_dead types (values f) i = true) removed
    /\ may_returnS (compact_removed f removed limits) s1 f' s2.
Proof.
  unfold remove_dead_function. intros (_ & s1 & _ & H)%may_returnS_bind.
  apply may_returnS_bind in H as (total & s2 & _ & H). apply may_returnS_bind in H as (uc & s3 & _ & H).
  apply may_returnS_bind in H as (defs & s4 & _ & H). apply may_returnS_bind in H as (locs & s5 & Hlocs%filled_vec_returns & H).
  subst locs. apply may_returnS_bind in H as ([t n] & s6 & Hl%index_located & H).
  apply may_returnS_bind in H as (r0 & s7 & Hr0%filled_vec_returns & H). subst r0.
  apply may_returnS_bind in H as (q0 & s8 & _ & H). apply may_returnS_bind in H as (u & s9 & _ & H).
  apply may_returnS_bind in H as ([queued pending] & s10 & _ & H).
  apply may_returnS_bind in H as ([removed uc'] & s11 & Hd & H).
  apply dead_loop_flags in Hd; [|done|apply flags_empty].
  apply may_returnS_bind in H as (function_changed & s12 & _ & H).
  destruct function_changed; [right|left; by apply may_returnS_mret in H as [[= <- _] _]].
  apply may_returnS_bind in H as (f1 & s13 & Hf & H). apply may_returnS_mret in H as [[= <- _] _].
  by exists removed, s12, s13.
Qed.

Lemma remove_dead_function_facts types limits changed f s f' changed' s' :
  types_dense types -> well_formed f /\ numbered f ->
  may_returnS (remove_dead_function types limits changed f) s (f', changed') s' ->
  (well_formed f' /\ numbered f') /\ forall U other, @simulates U other types f f'.
Proof.
  intros Hdense Hf H. pose proof Hf as [Hw Hn].
  apply remove_dead_flags in H as [->|(removed & s3 & s4 & Hflags & H)]; [by split; [|intros U other; apply simulates_refl]|].
  split; [by eapply compact_removed_facts|]. intros U other.
  eapply (compacted_simulates f f' removed limits s3 s4 other types (env_typed types (values f))); [by apply Hw|..|done].
  - intros arguments s5. by apply env_typed_start.
  - intros s5 s6. by apply env_typed_successor.
  - intros b i Hb Hi Hr. apply removable_harmless; [done|].
    apply (flags_removed f (fun i => removable_when_dead types (values f) i = true) removed i); [done..| |done].
    by exists b.
Qed.

(** C17: Eliminating dead pure instructions preserves meaning: when the pass
    returns, every function has become one that makes the same exchanges with
    every environment and ends the same way, whenever the original does not go
    wrong; nothing that can fail or be observed is dropped. *)
Theorem dead_elimination_simulates types functions limits s functions' changed s' :
  types_dense types -> Forall (fun f => well_formed f /\ numbered f) functions ->
  may_returnS (eliminate_dead_pure_instructions types functions limits) s (functions', changed) s' ->
  Forall2 (fun f f' => (well_formed f' /\ numbered f') /\ forall U other, @simulates U other types f f') functions functions'.
Proof.
  intros Htypes Hwf. rewrite Forall_forall in Hwf. apply map_accum_Forall2.
  intros t f s1 f' t' s2 Hf. apply remove_dead_function_facts; auto.
Qed.

(** ** The worklist ends *)

Lemma queue_definition_measure types f locations_ definitions use_counts st operand :
  (length (queue_definition types f locations_ definitions use_counts st operand).1.2
   + unset (queue_definition types f locations_ definitions use_counts st operand).1.1
   = length st.1.2 + unset st.1.1)%nat.
Proof.
  destruct st as [[queued pending] failed]. unfold queue_definition.
  case_bool_decide; [done|]. destruct (mjoin _) as [d|]; [|done].
  destruct (queued !! N.to_nat d) as [[]|] eqn:E; [done| |done].
  destruct (_ ≫= _) as [[i dead]|]; [|done]. destruct (_ && _); [|done]. cbn [fst snd length].
  rewrite (unset_insert _ _ E). lia.
Qed.

Lemma queue_definitions_measure types f locations_ definitions use_counts vs st :
  (length (foldl (queue_definition types f locations_ definitions use_counts) st vs).1.2
   + unset (foldl (queue_definition types f locations_ definitions use_counts) st vs).1.1
   = length st.1.2 + unset st.1.1)%nat.
Proof.
  revert st. induction vs as [|v vs IH]; intros st; [done|]. cbn [foldl]. rewrite IH. apply queue_definition_measure.
Qed.

(** The worklist of dead-code elimination ends: with fuel for the pending
    entries and the instructions not queued yet, more fuel never changes the
    outcome, in any environment. *)
Theorem dead_loop_terminates types f locations_ definitions env w fuel use_counts removed queued pending s :
  (length pending + unset queued <= fuel)%nat ->
  Interrupt.run env w (dead_loop fuel types f locations_ definitions use_counts removed queued pending s)
  = Interrupt.run env w (dead_loop (length pending + unset queued) types f locations_ definitions use_counts removed queued pending s).
Proof.
  enough (H : forall fuel fuel' w use_counts removed queued pending s,
    (length pending + unset queued <= fuel)%nat -> (length pending + unset queued <= fuel')%nat ->
    Interrupt.run env w (dead_loop fuel types f locations_ definitions use_counts removed queued pending s)
    = Interrupt.run env w (dead_loop fuel' types f locations_ definitions use_counts removed queued pending s)) by (intros; by apply H).
  clear. induction fuel as [|fuel IH]; intros [|fuel'] w use_counts removed queued [|id pending] s Hf Hf';
    try done; try (simpl in Hf, Hf'; lia). cbn [dead_loop].
  simpl in Hf, Hf'. apply runS_bind_ext. intros _ s1 w1 _.
  destruct (removed !! N.to_nat id) as [[]|]; [apply IH; lia| |done].
  apply runS_bind_ext. intros i s2 w2 _. apply runS_bind_ext. intros dead s3 w3 _.
  destruct dead; cbn [negb]; [|apply IH; lia].
  apply runS_bind_ext. intros [uc failed] s4 w4 _. destruct failed; [done|].
  apply runS_bind_ext. intros [[q p] failed] s5 w5 Hq. destruct failed; [done|].
  apply runS_may_return, for_each_returns in Hq.
  pose proof (queue_definitions_measure types f locations_ definitions uc (operation_values (operation i)) (queued, pending, false)) as Hm.
  rewrite <- Hq in Hm. cbn [fst snd] in Hm. apply IH; lia.
Qed.
