(* ===== verification/ScanSound.v ===== *)
(** What the resource scan measures: the counts of a module, exactly, and work
    that has been charged. *)

From stdpp Require Import base numbers list option strings.
From S2P Require Import Prelude Bytes Interrupt BuildModel FlowWir Optimizer FlowOperands FoldPass FlowModule ModelScan.

#[local] Open Scope Z_scope.

(** ** Counts *)

Definition block_instructions (b : Block) : Z := len (instructions b).
Definition function_instructions (f : FlowFunction) : Z := sum_of block_instructions (blocks f).
Definition total_instructions (fs : list FlowFunction) : Z := sum_of function_instructions fs.

Record counts := {
  c_functions : Z; c_tests : Z; c_blocks : Z; c_instructions : Z; c_values : Z; c_proofs : Z;
}.
Definition counts_of (r : ModelResources) : counts := {|
  c_functions := res_functions r; c_tests := res_tests r; c_blocks := res_blocks r;
  c_instructions := res_instructions r; c_values := res_values r; c_proofs := res_proofs r |}.

Definition module_counts (w : FlowWir) : counts := {|
  c_functions := len (functions w); c_tests := len (tests w);
  c_blocks := sum_of (fun f => len (blocks f)) (functions w);
  c_instructions := total_instructions (functions w);
  c_values := sum_of (fun f => len (values f)) (functions w);
  c_proofs := len (proofs w) |}.

Section scan.
  Context (limits : OptimizationLimits).

(** ** Steps of the scan

    [turns m g]: a step that returns changes the counts by [g], has charged at
    least the work it has added to the measure, and keeps the instructions
    within their limit. *)
Definition turns {A} (m : meter A) (g : counts -> counts) : Prop :=
  forall r s a r' s', may_returnS (m r) s (a, r') s' ->
    counts_of r' = g (counts_of r)
    /\ scan_work r' - scan_work r <= used (work s') - used (work s)
    /\ (res_instructions r <= limit_instructions limits -> res_instructions r' <= limit_instructions limits).
Definition leaves {A} (m : meter A) : Prop := turns m id.

Lemma turns_bind {A B} (m : meter A) (f : A -> meter B) g h :
  turns m g -> (forall a, turns (f a) h) -> turns (m ≫= f) (h ∘ g).
Proof.
  intros Hm Hf r s b r' s'. unfold mbind at 1, stateT_bind. intros ([a r1] & s1 & H1 & H2)%may_returnS_bind.
  apply Hm in H1 as (Hc1 & Hw1 & Hl1). apply Hf in H2 as (Hc2 & Hw2 & Hl2). simpl. rewrite Hc2, Hc1.
  split_and!; [done|lia|auto].
Qed.

Lemma leaves_bind {A B} (m : meter A) (f : A -> meter B) : leaves m -> (forall a, leaves (f a)) -> leaves (m ≫= f).
Proof. intros Hm Hf. exact (turns_bind m f id id Hm Hf). Qed.

(** A step before or after which nothing is counted. *)
Lemma turns_after {A B} (m : meter A) (f : A -> meter B) g : leaves m -> (forall a, turns (f a) g) -> turns (m ≫= f) g.
Proof. intros Hm Hf. exact (turns_bind m f id g Hm Hf). Qed.

Lemma leaves_mret {A} (a : A) : leaves (mret a).
Proof. intros r s b r' s' H. apply may_returnS_mret in H as [[= <- <-] ->]. split_and!; [done|lia|done]. Qed.

Lemma turns_ext {A} (m : meter A) g h : turns m g -> (forall c, g c = h c) -> turns m h.
Proof. intros Hm Hgh r s a r' s' H. rewrite <- Hgh. by eapply Hm. Qed.

Lemma add_bounded_Ok total amount resource limit next :
  add_bounded total amount resource limit = Ok next -> next = total + amount /\ next <= limit.
Proof.
  unfold add_bounded. intros (n & [_ ->]%ok_or_Ok%checked_add_Some & H)%result_bind_Ok.
  apply result_bind_Ok in H as ([] & Hl%guard_err_Ok & [= <-]). split; [done|]. by apply Z.ltb_ge in Hl.
Qed.

Lemma charge_used amount s u s' :
  may_returnS (charge amount) s u s' -> used (work s') = used (work s) + amount /\ decisions s' = decisions s.
Proof.
  unfold may_returnS, charge. intros (n & [-> _]%may_return_lift%add_bounded_Ok & H)%may_return_bind.
  by injection H as _ <-.
Qed.

Lemma checkpoint_used s u s' :
  may_returnS checkpoint s u s' -> used (work s') = used (work s) + 1 /\ decisions s' = decisions s.
Proof. intros (v & s1 & Hv & H)%may_returnS_bind. apply may_returnS_liftS in Hv as [_ ->]. by apply charge_used in H. Qed.

Lemma update_returns g r s u r' s' : may_returnS (update g r) s (u, r') s' -> g r = Ok r' /\ s' = s.
Proof.
  intros (r1 & s1 & H1 & H)%may_returnS_bind. apply may_returnS_liftS in H1 as [H1%may_return_lift ->].
  by apply may_returnS_mret in H as [[= _ <-] ->].
Qed.

Lemma on_work_returns {A} (m : pass A) r s a r' s' :
  may_returnS (on_work m r) s (a, r') s' -> r' = r /\ may_returnS m s a s'.
Proof.
  unfold on_work, liftS. intros (b & s1 & H & H')%may_returnS_bind. by apply may_returnS_mret in H' as [[= -> ->] ->].
Qed.

Lemma counts_instructions r r' : counts_of r' = counts_of r -> res_instructions r' = res_instructions r.
Proof. unfold counts_of. congruence. Qed.

Lemma add_scan_work_Ok amount r r' : add_scan_work limits amount r = Ok r' ->
    counts_of r' = counts_of r /\ scan_work r' = scan_work r + amount.
  Proof. unfold add_scan_work. intros (n & [_ ->]%ok_or_Ok%checked_add_Some & [= <-])%result_bind_Ok. done. Qed.

Lemma leaves_visit : leaves (visit limits).
  Proof.
    intros r s u r' s'. unfold visit. unfold mbind at 1, stateT_bind.
    intros ([v r1] & s1 & [[Hc Hw]%add_scan_work_Ok ->]%update_returns & H)%may_returnS_bind.
    apply on_work_returns in H as [-> [Hu _]%checkpoint_used]. rewrite Hc.
    split_and!; [done|lia|by rewrite (counts_instructions _ _ Hc)].
  Qed.

  (** The shape [collection] and [payload] share. *)
Lemma leaves_metered g amount :
    0 <= amount ->
    (forall r r', g r = Ok r' -> counts_of r' = counts_of r /\ scan_work r' = scan_work r) ->
    leaves (_ ← update g; _ ← update (add_scan_work limits amount); _ ← on_work (charge amount); on_work checkpoint).
  Proof.
    intros Hamount Hg r s u r' s'. unfold mbind at 1, stateT_bind.
    intros ([v r1] & s1 & [[Hc Hw]%Hg ->]%update_returns & H)%may_returnS_bind.
    unfold mbind at 1, stateT_bind in H.
    apply may_returnS_bind in H as ([v2 r2] & s2 & [[Hc2 Hw2]%add_scan_work_Ok ->]%update_returns & H).
    unfold mbind at 1, stateT_bind in H.
    apply may_returnS_bind in H as ([v3 r3] & s3 & [-> [Hu3 _]%charge_used]%on_work_returns & H).
    apply on_work_returns in H as [-> [Hu _]%checkpoint_used]. rewrite <- Hc2 in Hc. rewrite Hc.
    split_and!; [done|lia|by rewrite (counts_instructions _ _ Hc)].
  Qed.

Lemma leaves_collection {X} (xs : list X) : leaves (collection limits xs).
  Proof.
    apply leaves_metered; [apply len_nonneg|]. intros r r'. unfold add_edges.
    by intros (n & _ & [= <-])%result_bind_Ok.
  Qed.
Lemma leaves_payload bytes : leaves (payload limits bytes).
  Proof.
    apply leaves_metered; [apply len_nonneg|]. intros r r'. unfold add_payload.
    by intros (n & _ & [= <-])%result_bind_Ok.
  Qed.

Lemma turns_each {X} (step : X -> meter unit) (g : X -> counts -> counts) xs :
    (forall x, turns (step x) (g x)) -> turns (each step xs) (fun c => foldl (fun c x => g x c) c xs).
  Proof.
    intros Hs. induction xs as [|x xs IH]; [apply leaves_mret|]. cbn [each].
    exact (turns_bind (step x) (fun _ => each step xs) (g x) _ (Hs x) (fun _ => IH)).
  Qed.

Lemma leaves_each {X} (step : X -> meter unit) xs : (forall x, leaves (step x)) -> leaves (each step xs).
  Proof.
    intros Hs. eapply turns_ext; [by apply (turns_each step (fun _ => id))|].
    intros c. simpl. by induction xs as [|x xs IH].
  Qed.

Lemma turns_update g h :
    (forall r r', g r = Ok r' -> counts_of r' = h (counts_of r) /\ scan_work r' = scan_work r
       /\ (res_instructions r <= limit_instructions limits -> res_instructions r' <= limit_instructions limits)) ->
    turns (update g) h.
  Proof. intros Hg r s u r' s' [(Hc & Hw & Hl)%Hg ->]%update_returns. split_and!; [done|lia|done]. Qed.

#[local] Hint Resolve leaves_mret leaves_visit leaves_collection leaves_payload : leaves.

(** Everything that only meters edges, payload and work. *)
Ltac leaves :=
  intros; repeat first
    [ solve [eauto with leaves nocore]
    | apply leaves_bind; [|intros ?]
    | apply leaves_each; intros ?
    | match goal with |- leaves (match ?x with _ => _ end) => destruct x end ].

(** ** The parts of a module *)

Lemma leaves_named name : leaves (named limits name).
  Proof. unfold named. leaves. Qed.
Lemma leaves_optional_payload name : leaves (optional_payload limits name).
  Proof. unfold optional_payload. leaves. Qed.
Lemma leaves_immediate i : leaves (scan_immediate limits i).
  Proof. unfold scan_immediate. leaves. Qed.
#[local] Hint Resolve leaves_named leaves_optional_payload leaves_immediate : leaves.
Lemma leaves_part p : leaves (scan_part limits p).
  Proof. unfold scan_part. leaves. Qed.
#[local] Hint Resolve leaves_part : leaves.
Lemma leaves_operation op : leaves (scan_operation limits op).
  Proof. unfold scan_operation. leaves. Qed.
Lemma leaves_case c : leaves (scan_case limits c).
  Proof. unfold scan_case. leaves. Qed.
#[local] Hint Resolve leaves_operation leaves_case : leaves.
Lemma leaves_terminator t : leaves (scan_terminator limits t).
  Proof. unfold scan_terminator. leaves. Qed.
Lemma leaves_variant v : leaves (scan_variant limits v).
  Proof. unfold scan_variant. leaves. Qed.
#[local] Hint Resolve leaves_terminator leaves_variant : leaves.
Lemma leaves_type ty : leaves (scan_type limits ty).
  Proof. unfold scan_type. leaves. Qed.
Lemma leaves_global g : leaves (scan_global limits g).
  Proof. unfold scan_global. leaves. Qed.
Lemma leaves_value v : leaves (scan_value limits v).
  Proof. unfold scan_value. leaves. Qed.
Lemma leaves_instruction i : leaves (scan_instruction limits i).
  Proof. unfold scan_instruction. leaves. Qed.
Lemma leaves_actor a : leaves (scan_actor limits a).
  Proof. unfold scan_actor. leaves. Qed.
Lemma leaves_task t : leaves (scan_task limits t).
  Proof. unfold scan_task. leaves. Qed.
Lemma leaves_device d : leaves (scan_device limits d).
  Proof. unfold scan_device. leaves. Qed.
Lemma leaves_pool p : leaves (scan_pool limits p).
  Proof. unfold scan_pool. leaves. Qed.
Lemma leaves_region r : leaves (scan_region limits r).
  Proof. unfold scan_region. leaves. Qed.
Lemma leaves_proof p : leaves (scan_proof limits p).
  Proof. unfold scan_proof. leaves. Qed.
Lemma leaves_test t : leaves (scan_test limits t).
  Proof. unfold scan_test. leaves. Qed.

Lemma leaves_pure {A} (r : result OptimizeError A) : leaves (on_work (pure_result r)).
  Proof. intros res s a res' s' [-> H]%on_work_returns. apply may_returnS_liftS in H as [_ ->]. split_and!; [done|lia|done]. Qed.
#[local] Hint Resolve leaves_pure : leaves.
Lemma leaves_group_text text bytes limit : leaves (scan_compiled_test_group_text limits text bytes limit).
  Proof. unfold scan_compiled_test_group_text. leaves. Qed.
#[local] Hint Resolve leaves_group_text : leaves.
Lemma leaves_group_tests tests bytes limit : leaves (scan_group_tests limits tests bytes limit).
  Proof. revert bytes. induction tests; intros bytes; cbn [scan_group_tests]; leaves. Qed.
#[local] Hint Resolve leaves_group_tests : leaves.
Lemma leaves_group g : leaves (scan_compiled_test_group limits g).
  Proof. unfold scan_compiled_test_group. leaves. Qed.
#[local] Hint Resolve leaves_named leaves_optional_payload leaves_immediate leaves_part leaves_operation
  leaves_terminator leaves_type leaves_global leaves_value leaves_instruction leaves_actor leaves_task
  leaves_device leaves_pool leaves_region leaves_proof leaves_test leaves_group : leaves.

(** ** Counting *)

Definition count (blocks_ instructions_ values_ : Z) (c : counts) : counts := {|
  c_functions := c_functions c; c_tests := c_tests c; c_blocks := c_blocks c + blocks_;
  c_instructions := c_instructions c + instructions_; c_values := c_values c + values_; c_proofs := c_proofs c |}.

Lemma count_count b i v b' i' v' c : count b' i' v' (count b i v c) = count (b + b') (i + i') (v + v') c.
Proof. unfold count. simpl. f_equal; lia. Qed.
Lemma count_zero c : count 0 0 0 c = c.
Proof. destruct c. unfold count. simpl. f_equal; lia. Qed.

Lemma turns_count_each {X} (step : X -> meter unit) (b i v : X -> Z) xs :
  (forall x, turns (step x) (count (b x) (i x) (v x))) ->
  turns (each step xs) (count (sum_of b xs) (sum_of i xs) (sum_of v xs)).
Proof.
  intros Hs. eapply turns_ext; [by apply (turns_each step (fun x => count (b x) (i x) (v x)))|]. intros c. simpl.
  revert c. induction xs as [|x xs IH]; intros c; [by rewrite count_zero|]. cbn [foldl].
  by rewrite IH, count_count.
Qed.

Lemma turns_add_instructions n : turns (add_instructions limits n) (count 0 n 0).
Proof.
  apply turns_update. intros r r'. intros (next & [-> Hl]%add_bounded_Ok & [= <-])%result_bind_Ok.
  unfold counts_of, count. simpl. split_and!; [f_equal; lia|done|done].
Qed.
Lemma turns_add_blocks n : turns (add_blocks limits n) (count n 0 0).
Proof.
  apply turns_update. intros r r'. intros (next & [-> Hl]%add_bounded_Ok & [= <-])%result_bind_Ok.
  unfold counts_of, count. simpl. split_and!; [f_equal; lia|done|done].
Qed.
Lemma turns_add_values n : turns (add_values limits n) (count 0 0 n).
Proof.
  apply turns_update. intros r r'. intros (next & [-> Hl]%add_bounded_Ok & [= <-])%result_bind_Ok.
  unfold counts_of, count. simpl. split_and!; [f_equal; lia|done|done].
Qed.

(** Skip what is not counted. *)
Ltac skip := repeat (apply turns_after; [solve [leaves]|intros ?]).

Lemma turns_block b : turns (scan_block limits b) (count 0 (block_instructions b) 0).
Proof.
  unfold scan_block. skip. eapply turns_ext; [apply (turns_bind _ _ _ id (turns_add_instructions _))|done].
  intros ?. leaves.
Qed.

Lemma sum_of_zero {X} (xs : list X) : sum_of (fun _ => 0) xs = 0.
Proof. induction xs as [|x xs IH]; [done|]. by rewrite sum_of_cons, IH. Qed.

Lemma turns_function f :
  turns (scan_function limits f) (count (len (blocks f)) (function_instructions f) (len (values f))).
Proof.
  unfold scan_function. skip. eapply turns_ext; [eapply (turns_bind _ _ _ _ (turns_add_values _))|].
  - intros ?. skip. eapply (turns_bind _ _ _ _ (turns_add_blocks _)). intros ?. skip.
    apply (turns_count_each _ (fun _ => 0) block_instructions (fun _ => 0)). apply turns_block.
  - intros c. simpl. rewrite !count_count, !sum_of_zero. f_equal; unfold function_instructions; lia.
Qed.

Definition set_functions (n : Z) (c : counts) : counts := {|
  c_functions := n; c_tests := c_tests c; c_blocks := c_blocks c; c_instructions := c_instructions c;
  c_values := c_values c; c_proofs := c_proofs c |}.
Definition set_proofs (n : Z) (c : counts) : counts := {|
  c_functions := c_functions c; c_tests := c_tests c; c_blocks := c_blocks c; c_instructions := c_instructions c;
  c_values := c_values c; c_proofs := n |}.
Definition set_tests (n : Z) (c : counts) : counts := {|
  c_functions := c_functions c; c_tests := n; c_blocks := c_blocks c; c_instructions := c_instructions c;
  c_values := c_values c; c_proofs := c_proofs c |}.

Lemma turns_meter_functions n : turns (meter_functions limits n) (set_functions n).
Proof. apply turns_update. intros r r' ([] & _ & [= <-])%result_bind_Ok. done. Qed.
Lemma turns_meter_proofs n : turns (meter_proofs limits n) (set_proofs n).
Proof. apply turns_update. intros r r' ([] & _ & [= <-])%result_bind_Ok. done. Qed.
Lemma turns_meter_tests n : turns (meter_tests limits n) (set_tests n).
Proof. apply turns_update. intros r r' ([] & _ & [= <-])%result_bind_Ok. done. Qed.

Lemma turns_functions fs :
  turns (each (scan_function limits) fs)
    (count (sum_of (fun f => len (blocks f)) fs) (total_instructions fs) (sum_of (fun f => len (values f)) fs)).
Proof. apply turns_count_each, turns_function. Qed.

Lemma turns_module w :
  turns (scan_module limits w)
    (set_tests (len (tests w)) ∘ set_proofs (len (proofs w))
     ∘ count (sum_of (fun f => len (blocks f)) (functions w)) (total_instructions (functions w))
         (sum_of (fun f => len (values f)) (functions w))
     ∘ set_functions (len (functions w))).
Proof.
  unfold scan_module. skip.
  eapply (turns_bind _ _ _ _ (turns_meter_functions _)). intros ?. skip.
  apply (turns_bind _ _ _ (set_tests (len (tests w)) ∘ set_proofs (len (proofs w))) (turns_functions _)). intros ?. skip.
  apply (turns_bind _ _ _ (set_tests (len (tests w))) (turns_meter_proofs _)). intros ?. skip.
  apply (turns_bind _ _ _ id (turns_meter_tests _)). intros ?. leaves.
Qed.
End scan.

(** The resource scan measures what it claims to: a scan that returns
    gives the exact number of functions, tests, blocks, instructions, values
    and proofs of the module, with the instructions within their limit, and
    the work it has measured has been charged to the meter. *)
Theorem scan_model_counts limits w s r s' :
  0 <= limit_instructions limits ->
  may_returnS (scan_model limits w) s r s' ->
  counts_of r = module_counts w
  /\ res_instructions r <= limit_instructions limits
  /\ scan_work r <= used (work s') - used (work s).
Proof.
  intros Hlimit ([u r1] & s1 & H & H')%may_returnS_bind. apply may_returnS_mret in H' as [<- ->].
  apply turns_module in H as (Hc & Hw & Hl). simpl in Hw. rewrite Z.sub_0_r in Hw. split_and!; [|by apply Hl|done].
  rewrite Hc. unfold module_counts. simpl. f_equal; lia.
Qed.

(** What the scan does not see: the arguments a message is committed with. *)
Lemma committed_arguments_are_not_metered limits reservation arguments :
  scan_operation limits (ActorCommit reservation arguments) = (_ ← visit limits; mret tt).
Proof. done. Qed.
