(* ===== verification/PipelineSound.v ===== *)
(** The whole sequence of passes preserves the meaning of every function, and
    leaves everything else of the module alone. *)

From stdpp Require Import base numbers list option gmap strings.
From S2P Require Import Prelude Bytes Interrupt BuildModel FlowWir ScalarFold Optimizer FlowOperands FlowSemantics FoldPass FoldSound ControlPass CompactPass RenameSound CompactSound UnreachableSound DeadPass DeadSound FlowModule ModelScan Pipeline.

#[local] Open Scope Z_scope.

(** ** What a pass does to a function *)

Definition sound_function (f : FlowFunction) : Prop := well_formed f /\ numbered f.

(** A sound function becomes a sound function that simulates it. *)
Definition improves (types : list FlowType) (f f' : FlowFunction) : Prop :=
  sound_function f -> sound_function f' /\ forall U other, @simulates U other types f f'.

#[export] Instance improves_preorder types : PreOrder (improves types).
Proof.
  split.
  - intros f Hf. split; [done|]. intros U other. apply simulates_refl.
  - intros f g h Hfg Hgh Hf. destruct (Hfg Hf) as [Hg Hsg]. destruct (Hgh Hg) as [Hh Hsh].
    split; [done|]. intros U other. eapply simulates_trans; [apply Hsg|apply Hsh].
Qed.

Definition numbers (bs : list Block) : list InstructionId := map instruction_id (concat (map instructions bs)).

Lemma numbers_app bs bs' : numbers (bs ++ bs') = numbers bs ++ numbers bs'.
Proof. unfold numbers. by rewrite map_app, concat_app, map_app. Qed.
Lemma numbers_cons b bs : numbers (b :: bs) = map instruction_id (instructions b) ++ numbers bs.
Proof. unfold numbers. cbn [map concat]. by rewrite map_app. Qed.

Lemma fold_one_numbers types vals bs c bs' c' : fold_one types vals (bs, c) (bs', c') -> numbers bs' = numbers bs.
Proof.
  inversion 1 as [? ? ? i r im k _ Hrep]; subst. destruct Hrep as (pre & b & post & ipre & ipost & -> & Hi & ->).
  rewrite !numbers_app, !numbers_cons, Hi. cbn [instructions with_instructions]. by rewrite !map_app.
Qed.

Lemma fold_function_numbers types profile limits acc f s f' acc' s' :
  types_ok types -> well_formed f -> may_returnS (fold_function types profile limits acc f) s (f', acc') s' ->
  numbers (blocks f') = numbers (blocks f).
Proof.
  intros Htypes Hwf H.
  destruct (fold_function_returns (refusing := True) types profile limits acc f s f' acc' s' Htypes Hwf H) as (n & c' & _ & Hs & _).
  clear -Hs. revert Hs. generalize (blocks f), (table types (values f) (blocks f)).
  induction n as [|n IH]; intros bs c Hs; inversion Hs as [|? ? [bs1 c1] ? H1 H2]; subst; [done|].
  rewrite (IH _ _ H2). by eapply fold_one_numbers.
Qed.

Lemma simplified_numbers constants bs : numbers (map (simplified constants) bs) = numbers bs.
Proof.
  unfold numbers. rewrite map_map, (map_ext _ instructions); [done|].
  intros b. by destruct (simplified_block constants b) as [_ ->].
Qed.

Lemma fold_function_improves types profile limits acc f s f' acc' s' :
  types_ok types -> may_returnS (fold_function types profile limits acc f) s (f', acc') s' -> improves types f f'.
Proof.
  intros Htypes H [Hwf Hn].
  destruct (fold_function_facts (refusing := True) types profile limits acc f s f' acc' s' Htypes Hwf H) as (Hwf' & Hr & _).
  split; [split; [done|]|intros U other; apply refines_simulates, Hr].
  unfold numbered in *. fold (numbers (blocks f)) in Hn. fold (numbers (blocks f')).
  by rewrite (fold_function_numbers types profile limits acc f s f' acc' s' Htypes Hwf H).
Qed.

Lemma simplify_function_improves types limits changed f s f' changed' s' :
  types_ok types -> may_returnS (simplify_function types limits changed f) s (f', changed') s' -> improves types f f'.
Proof.
  intros Htypes H [Hwf Hn].
  destruct (simplify_function_facts types limits changed f s f' changed' s' Htypes Hwf H) as (Hwf' & Hr & _).
  split; [split; [done|]|intros U other; apply refines_simulates, Hr].
  apply simplify_function_returns in H as ->. unfold numbered in *.
  fold (numbers (blocks f)) in Hn. simpl. fold (numbers (map (simplified (table types (values f) (blocks f))) (blocks f))).
  by rewrite simplified_numbers.
Qed.

Lemma eliminate_function_improves types limits changed f s f' changed' s' :
  may_returnS (eliminate_function limits changed f) s (f', changed') s' -> improves types f f'.
Proof.
  intros H [Hwf Hn]. destruct (eliminate_function_facts limits changed f s f' changed' s' Hwf H) as (Hwf' & Hr & _).
  split; [split; [done|]|intros U other; apply refines_simulates, Hr].
  apply may_returnS_bind in H as (_ & s3 & _ & H). apply may_returnS_bind in H as (reachable & s4 & _ & H).
  apply may_returnS_bind in H as (retained & s5 & _ & H). destruct retained.
  - by apply may_returnS_mret in H as [[= <- _] _].
  - apply may_returnS_bind in H as (u & s6 & _ & H).
    apply may_returnS_bind in H as (f1 & s7 & (keep_values & _ & Hc)%compact_function_returns & H).
    apply may_returnS_mret in H as [[= <- _] _]. by eapply compacted_numbered.
Qed.

(** ** The passes *)

Section pipeline.
  Context (types : list FlowType) (Htypes : types_ok types) (Hdense : types_dense types).
  Context (profile : OptimizationProfile) (limits : OptimizationLimits).
  Notation improved := (Forall2 (improves types)).

Lemma fold_improves fs s fs' acc s' :
    may_returnS (fold_scalar_constants types fs profile limits) s (fs', acc) s' -> improved fs fs'.
  Proof. apply map_accum_Forall2. intros. by eapply fold_function_improves. Qed.

Lemma control_improves fs s fs' changed s' :
    may_returnS (simplify_constant_control_flow types fs limits) s (fs', changed) s' -> improved fs fs'.
  Proof. apply map_accum_Forall2. intros. by eapply simplify_function_improves. Qed.

Lemma unreachable_improves fs s fs' changed s' :
    may_returnS (eliminate_unreachable_blocks fs limits) s (fs', changed) s' -> improved fs fs'.
  Proof. apply map_accum_Forall2. intros. by eapply eliminate_function_improves. Qed.

Lemma checks_improve fs s fs' changed s' :
    may_returnS (eliminate_proven_true_checks types fs limits) s (fs', changed) s' -> improved fs fs'.
  Proof. apply map_accum_Forall2. intros ? ? ? ? ? ? _ H Hf. by eapply remove_checks_function_facts. Qed.

Lemma dead_improves fs s fs' changed s' :
    may_returnS (eliminate_dead_pure_instructions types fs limits) s (fs', changed) s' -> improved fs fs'.
  Proof. apply map_accum_Forall2. intros ? ? ? ? ? ? _ H Hf. by eapply remove_dead_function_facts. Qed.

Lemma shrinking_pass_returns pass_ run_pass w tests before entries s w' current st s' :
    may_returnS (shrinking_pass pass_ run_pass w tests profile limits before entries) s (w', current, st) s' ->
    exists fs removed s1, may_returnS run_pass s (fs, removed) s1 /\ w' = with_functions w fs.
  Proof.
    unfold shrinking_pass. intros ([fs removed] & s1 & Hp & H)%may_returnS_bind.
    apply may_returnS_bind in H as (n & s2 & _ & H). apply may_returnS_bind in H as (u & s3 & _ & H).
    apply may_returnS_bind in H as (t & s4 & _ & H). apply may_returnS_mret in H as [[= <- _ _] _]. eauto.
  Qed.

Lemma run_passes_returns w tests current entries s w' statistics s' :
    FlowModule.types w = types ->
    may_returnS (run_passes w tests profile limits current entries) s (w', statistics) s' ->
    exists fs, w' = with_functions w fs /\ improved (functions w) fs.
  Proof.
    intros Hw. unfold run_passes. rewrite Hw. intros (_ & s1 & _ & H)%may_returnS_bind.
    apply may_returnS_bind in H as ([fs1 [folded it]] & s2 & H1%fold_improves & H).
    apply may_returnS_bind in H as (_ & s3 & _ & H). apply may_returnS_bind in H as (st1 & s4 & _ & H).
    apply may_returnS_bind in H as ([fs2 simple] & s5 & H2%control_improves & H).
    apply may_returnS_bind in H as (_ & s6 & _ & H). apply may_returnS_bind in H as (st2 & s7 & _ & H).
    apply may_returnS_bind in H as ([[w3 n3] st3] & s8 & (fs3 & r3 & t3 & H3%unreachable_improves & ->)%shrinking_pass_returns & H).
    apply may_returnS_bind in H as ([[w4 n4] st4] & s9 & H4 & H).
    apply may_returnS_bind in H as ([[w5 n5] st5] & s10 & (fs5 & r5 & t5 & H5%dead_improves & ->)%shrinking_pass_returns & H).
    apply may_returnS_mret in H as [[= <- _] _].
    assert (exists fs4, w4 = with_functions w fs4 /\ improved fs3 fs4) as (fs4 & -> & H4').
    { destruct (is_aggressive _).
      - apply may_returnS_bind in H4 as ([[w4' n4'] st4'] & s11 & (fs4 & r4 & t4 & H4%checks_improve & ->)%shrinking_pass_returns & H4').
        apply may_returnS_mret in H4' as [[= <- _ _] _]. by exists fs4.
      - apply may_returnS_mret in H4 as [[= <- _ _] _]. by exists fs3. }
    exists fs5. split; [done|]. simpl in *. by rewrite H1, H2, H3, H4'.
  Qed.
End pipeline.

(** A module the pipeline returns is the original with only its functions
    rewritten, its test table included, and every function simulates its
    original. *)
Lemma pipeline_simulates w profile limits input_resources s w' report s' :
  types_ok (types w) -> types_dense (types w) -> Forall sound_function (functions w) ->
  may_returnS (execute_pipeline w profile limits input_resources) s (w', report) s' ->
  w' = with_functions w (functions w')
  /\ Forall2 (fun f f' => sound_function f' /\ forall U other, @simulates U other (types w) f f')
       (functions w) (functions w').
Proof.
  intros Htypes Hdense Hsound. unfold execute_pipeline. intros (names & s1 & _ & H)%may_returnS_bind.
  apply may_returnS_bind in H as (_ & s2 & _ & H). apply may_returnS_bind in H as (_ & s3 & _ & H).
  apply may_returnS_bind in H as (sink & s4 & _ & H). apply may_returnS_bind in H as (_ & s5 & _ & H).
  apply may_returnS_bind in H as (entries & s6 & _ & H). apply may_returnS_bind in H as ([w1 st] & s7 & Hr & H).
  apply may_returnS_bind in H as (ds & s8 & _ & H). apply may_returnS_mret in H as [[= <- _] _].
  eapply (run_passes_returns (types w)) in Hr as (fs & -> & Hi); [|done..]. split; [done|].
  simpl in *. clear -Hsound Hi. induction Hi as [|f f' fs fs' Hf _ IH]; constructor.
  - apply Hf. by inversion Hsound.
  - apply IH. by inversion Hsound.
Qed.
