(* ===== verification/FlowSafe.v ===== *)
(** Why the checks of a function matter: a function that
    [src/crates/wrela-flow-wir/src/lib.rs] accepts never reads a value that is
    not defined, and no transfer of control between its blocks goes wrong. *)

From stdpp Require Import base numbers list option gmap relations.
From S2P Require Import Prelude Interrupt FlowWir ScalarFold Optimizer FlowOperands FlowSemantics FoldSound FlowModule FlowContext FlowSsa FlowAccept Dominators FlowTree FlowUses FlowChecks FlowValidate FlowValid DeadSound CompactSound PipelineSound.

#[local] Open Scope Z_scope.

(** ** Operands that are defined can be read *)

Lemma Forall_concat_map {A B} (g : A -> list B) (P : B -> Prop) l : Forall P (concat (map g l)) <-> Forall (fun x => Forall P (g x)) l.
Proof. induction l as [|x l IH]; simpl; [done|]. by rewrite Forall_app, Forall_cons, IH. Qed.

Section reading.
  Context {V W : Type} (f : V -> option W).
  Notation bound := (fun v => is_Some (f v)).

Lemma mapM_bound vs : Forall bound vs -> exists xs, mapM f vs = Some xs /\ Forall2 (fun v x => f v = Some x) vs xs.
  Proof.
    intros H. destruct (mapM_is_Some_2 f vs H) as [xs Hxs]. exists xs. split; [done|by apply mapM_Some_1].
  Qed.

  (** Read the operands at the head of a traversal. *)
Ltac read :=
    repeat match goal with
    | H : Forall _ (_ :: _) |- _ => apply Forall_cons in H as [? ?]
    | H : Forall _ (_ ++ _) |- _ => apply Forall_app in H as [? ?]
    | H : is_Some (f ?v) |- context [f ?v ≫= _] => let x := fresh "x" in let E := fresh "E" in destruct H as [x E]; rewrite E; cbn [mbind option_bind]
    | H : Forall bound ?vs |- context [mapM f ?vs ≫= _] =>
        let x := fresh "xs" in let E := fresh "E" in destruct (mapM_is_Some_2 f vs H) as [x E]; rewrite E; cbn [mbind option_bind]
    end.

Lemma traverse_part_bound (part : BoundedStringPart V) : Forall bound (part_values part) -> is_Some (traverse_part f part).
  Proof. destruct part; cbn [part_values traverse_part]; intros; read; (eexists; reflexivity). Qed.

Lemma traverse_option_bound (o : option V) : Forall bound (option_list o) -> is_Some (traverse_option f o).
  Proof. destruct o as [v|]; intros H; [|eexists; reflexivity]. apply Forall_cons in H as [[x E] _]. unfold traverse_option. rewrite E. eexists; reflexivity. Qed.

Lemma traverse_operation_bound op : Forall bound (operation_values op) -> is_Some (traverse_operation f op).
  Proof.
    destruct op; cbn [operation_values traverse_operation]; intros H; read; try ((eexists; reflexivity)).
    - destruct (mapM_is_Some_2 (traverse_part f) parts) as [ps E]; [|rewrite E; (eexists; reflexivity)].
      apply Forall_concat_map in H. eapply Forall_impl; [exact H|]. apply traverse_part_bound.
    - destruct (traverse_option_bound payload H) as [p E]. rewrite E. (eexists; reflexivity).
  Qed.

  (** ** Terminators *)

Definition case_read (c : SwitchCase V) (c' : SwitchCase W) : Prop :=
    case_value c' = case_value c /\ case_target c' = case_target c
    /\ Forall2 (fun v x => f v = Some x) (case_arguments c) (case_arguments c').

  (** The terminator with its operands read. *)
Definition terminator_read (t : Terminator V) (t' : Terminator W) : Prop :=
    match t, t' with
    | Jump target vs, Jump target' xs => target' = target /\ Forall2 (fun v x => f v = Some x) vs xs
    | Branch c tb vs eb ws, Branch c' tb' xs eb' ys =>
        f c = Some c' /\ tb' = tb /\ eb' = eb /\ Forall2 (fun v x => f v = Some x) vs xs /\ Forall2 (fun v x => f v = Some x) ws ys
    | Switch v cases d vs, Switch x cases' d' xs =>
        f v = Some x /\ d' = d /\ Forall2 case_read cases cases' /\ Forall2 (fun v x => f v = Some x) vs xs
    | Return vs, Return xs => Forall2 (fun v x => f v = Some x) vs xs
    | Suspend n a r, Suspend n' a' r' => n' = n /\ r' = r /\ f a = Some a'
    | TailCall g vs, TailCall g' xs => g' = g /\ Forall2 (fun v x => f v = Some x) vs xs
    | Trap failure _, Trap failure' _ => failure' = failure
    | Unreachable, Unreachable => True
    | _, _ => False
    end.

Lemma traverse_case_read c c' : traverse_case f Some c = Some c' -> case_read c c'.
  Proof.
    unfold traverse_case. cbn [mbind option_bind]. destruct (mapM f (case_arguments c)) as [xs|] eqn:E; [|done].
    intros [= <-]. split_and!; [done..|]. by apply mapM_Some_1.
  Qed.

Lemma traverse_terminator_read t t' : traverse_terminator f Some t = Some t' -> terminator_read t t'.
  Proof.
    destruct t as [target xs|c tb xs eb ys|v cases d ds|vs|s a r|callee xs|failure detail|];
      cbn [traverse_terminator]; intros H;
      repeat match type of H with
      | _ ≫= _ = Some _ => let x := fresh "r" in let E := fresh "E" in apply bind_Some in H as (x & E & H)
      end;
      repeat match goal with E : Some _ = Some _ |- _ => injection E as <- end; try (injection H as <-);
      simpl; split_and?; try done; try (by apply mapM_Some_1).
    eapply Forall2_impl; [by apply mapM_Some_1|]. apply traverse_case_read.
  Qed.

Lemma traverse_case_bound c : Forall bound (case_arguments c) -> is_Some (traverse_case f Some c).
  Proof. unfold traverse_case. intros. cbn [mbind option_bind]. read. (eexists; reflexivity). Qed.

Lemma traverse_terminator_bound t : Forall bound (terminator_values t) -> is_Some (traverse_terminator f Some t).
  Proof.
    destruct t; cbn [terminator_values traverse_terminator]; intros H; read; cbn [mbind option_bind]; read; try ((eexists; reflexivity)).
    - destruct (mapM_is_Some_2 (traverse_case f Some) cases) as [cs Ecs].
      { match goal with H : Forall _ (concat _) |- _ => apply Forall_concat_map in H; eapply Forall_impl; [exact H|] end.
        apply traverse_case_bound. }
      rewrite Ecs. cbn [mbind option_bind]. read. (eexists; reflexivity).
    - destruct (traverse_option_bound detail H) as [p E]. rewrite E. (eexists; reflexivity).
  Qed.
End reading.

(** ** Binding *)

Section binding.
  Context {U : Type} (types : list FlowType) (vals : list Value).

Lemma bind_all_bound vs xs (e e' : gmap N (rvalue U)) v : bind_all types vals vs xs e = Some e' ->
    v ∈ vs \/ is_Some (e !! v) -> is_Some (e' !! v).
  Proof.
    revert xs e. induction vs as [|w vs IH]; intros [|x xs] e; simpl; try done.
    - intros [= <-] [H|H]; [by apply not_elem_of_nil in H|done].
    - destruct (kind_of_value types vals w); [|done]. simpl. destruct (value_fits x _); [|done].
      intros H Hv. apply (IH _ _ H). rewrite lookup_insert. case_decide; [by right; eexists|].
      destruct Hv as [[->|Hv]%elem_of_cons|Hv]; [done|by left|by right].
  Qed.

  (** Values of the right types can be bound. *)
Definition fits_parameter (p : ValueId) (x : rvalue U) : Prop :=
    exists k, kind_of_value types vals p = Some k /\ value_fits x k = true.

Lemma bind_all_fits ps xs (e : gmap N (rvalue U)) : Forall2 fits_parameter ps xs -> is_Some (bind_all types vals ps xs e).
  Proof.
    intros H. revert e. induction H as [|p x ps xs (k & Hk & Hx) _ IH]; intros e; simpl; [by eexists|].
    rewrite Hk. simpl. rewrite Hx. apply IH.
  Qed.
End binding.

(** ** Where a step goes *)

Section steps.
  Context {U : Type} (other : FlowOperation (rvalue U) -> option (rvalue U)) (types : list FlowType).

Lemma advance_moves vals (s : state U) vs xs s1 : advance types vals s vs xs = Some s1 ->
    here s1 = here s /\ pc s1 = S (pc s).
  Proof. unfold advance. destruct (bind_all _ _ _ _ _); [|done]. by intros [= <-]. Qed.

Lemma instruction_moves vals (s s1 : state U) i : instruction_step other types vals s s1 i ->
    here s1 = here s /\ pc s1 = S (pc s).
  Proof.
    unfold instruction_step, react_instruction. destruct (traverse_operation _ _) as [op|]; [|naive_solver].
    unfold react_operation. destruct (check_of op) as [[[[[]| | |]|] failure]|];
      try (intros [H|(? & ? & ? & ? & H & ?)]; [try done; by eapply advance_moves, silently_Silently|try done; by destruct (advance _ _ _ _ _)]).
    destruct (ty ← result_type vals i; evaluate other types ty op) as [[x|]|].
    - intros [H|(? & ? & ? & ? & H & ?)]; [by eapply advance_moves, silently_Silently|by destruct (advance _ _ _ _ _)].
    - naive_solver.
    - destruct (pure_operation op); [naive_solver|]. intros [|(? & ? & ? & xs & [= <- <- <-] & H)]; [done|]. by eapply advance_moves.
  Qed.

  (** A transfer of control follows an edge of its terminator. *)
Definition enters (f : FlowFunction) (t : Terminator ValueId) (e : gmap N (rvalue U)) (s1 : state U) : Prop :=
    exists target b xs, target ∈ map fst (flow_edges t) /\ blocks f !! N.to_nat target = Some b
      /\ here s1 = N.to_nat target /\ pc s1 = 0%nat /\ bind_all types (values f) (block_parameters b) xs e = Some (env s1).

Lemma enter_block_enters f t target b xs e s1 :
    target ∈ map fst (flow_edges t) -> blocks f !! N.to_nat target = Some b ->
    enter_block types (values f) target (block_parameters b) xs e = Some s1 -> enters f t e s1.
  Proof.
    intros Ht Hb. unfold enter_block. destruct (bind_all _ _ _ _ _) as [e'|] eqn:E; [|done]. intros [= <-].
    by exists target, b, xs.
  Qed.

Lemma silent_enters f t target xs e (s1 : state U) : target ∈ map fst (flow_edges t) ->
    (silently (enter types f target xs e) = Silently s1
     \/ exists what n k ys, silently (enter types f target xs e) = Asks what n k /\ k ys = Some s1) -> enters f t e s1.
  Proof.
    intros Ht [H|(? & ? & ? & ? & H & _)]; [|by destruct (enter _ _ _ _ _)]. apply silently_Silently in H. unfold enter in H.
    destruct (blocks f !! N.to_nat target) as [b|] eqn:Hb; [|done]. by eapply enter_block_enters.
  Qed.

Lemma react_end_enters f (s s1 : state U) t :
    (react_end types f s t = Silently s1 \/ exists what n k xs, react_end types f s t = Asks what n k /\ k xs = Some s1) ->
    enters f t (env s) s1.
  Proof.
    unfold react_end. intros H. destruct (traverse_terminator _ _ t) as [t'|] eqn:Ht; [|naive_solver].
    apply traverse_terminator_read in Ht.
    destruct t as [target xs|c tb xs eb ys|v cases d ds|vs|n a r|callee xs|failure detail|], t'; try done; cbn [terminator_read react_terminator] in Ht, H.
    - destruct Ht as [-> _]. eapply silent_enters; [|exact H]. left.
    - destruct Ht as (_ & -> & -> & _). destruct condition as [[[]| | |]|]; try naive_solver;
        (eapply silent_enters; [|exact H]); set_solver.
    - destruct Ht as (_ & -> & Hc & _). destruct (scrutinee value) as [selected|]; [|naive_solver]. unfold select_case in H.
      destruct (find _ cases0) as [c|] eqn:Hf; (eapply silent_enters; [|exact H]); simpl; rewrite map_app, map_map; apply elem_of_app.
      + left. apply List.find_some in Hf as [Hin _]. apply list_elem_of_In, list_elem_of_lookup in Hin as [i Hi].
        destruct (Forall2_lookup_r _ _ _ _ _ Hc Hi) as (c0 & Hi0 & _ & -> & _). apply list_elem_of_fmap. exists c0. split; [done|].
        by eapply list_elem_of_lookup_2.
      + right. left.
    - naive_solver.
    - destruct Ht as (-> & -> & Ha). destruct (blocks f !! N.to_nat r) as [b|] eqn:Hb; [|naive_solver].
      destruct H as [|(? & ? & ? & xs & [= <- <- <-] & H)]; [done|]. eapply enter_block_enters; [left|done..].
    - naive_solver.
    - naive_solver.
    - naive_solver.
  Qed.
End steps.

(** ** The invariant of a run *)

Section safety.
  Context {U : Type} (other : FlowOperation (rvalue U) -> option (rvalue U)) (module : FlowWir) (f : FlowFunction).
  Context (Hvalid : function_valid module f).
  Notation entry_ := (N.to_nat (entry f)).

  (** The definitions made on a way to a point of the function. *)
Definition executed (l : list nat) (s : state U) (site : ValueDefinitionSite) : Prop :=
    match site with
    | FunctionParameter => True
    | BlockParameter d => d ∈ l
    | InstructionSite d j => (d ∈ l /\ d <> here s) \/ (d = here s /\ (j < pc s)%nat)
    end.

Record on_the_way (s : state U) : Prop := {
  way_block : exists b, blocks f !! here s = Some b /\ (pc s <= length (instructions b))%nat;
  way_walk : exists l, walk entry_ (edge f) (here s) l
    /\ forall site v, defined_at f site v -> executed l s site -> is_Some (env s !! v);
  way_typed : env_typed (types module) (values f) (env s);
}.

Lemma start_on_the_way arguments (s : state U) : FlowSemantics.start (types module) f arguments = Some s -> on_the_way s.
  Proof.
    intros H. pose proof (env_typed_start _ _ _ _ H) as Htyped. unfold FlowSemantics.start in H.
    destruct (bind_all _ _ (parameters f) arguments ∅) as [e|] eqn:He; [|done]. cbn [mbind option_bind] in H.
    unfold enter in H. destruct (blocks f !! entry_) as [b|] eqn:Hb; [|done]. cbn [mbind option_bind] in H.
    unfold enter_block in H. destruct (bind_all _ _ (block_parameters b) [] e) as [e'|] eqn:He'; [|done].
    injection H as <-. split; [exists b; split; [done|simpl; lia]| |done].
    exists [entry_]. split; [constructor|]. intros site v Hv Hx. simpl in *. eapply bind_all_bound; [exact He'|].
    destruct site as [|d|d j]; simpl in Hv, Hx.
    - right. eapply bind_all_bound; [exact He|by left].
    - apply list_elem_of_singleton in Hx as ->. destruct Hv as (b' & Hb' & Hv). simplify_eq. by left.
    - destruct Hx as [[->%list_elem_of_singleton ?]|[_ ?]]; [done|lia].
  Qed.

Lemma step_on_the_way (s s1 : state U) : on_the_way s -> successor other (types module) f s s1 -> on_the_way s1.
  Proof.
    intros [(b & Hb & Hpc) (l & Hl & Hdef) Htyped] Hs. pose proof (env_typed_successor _ _ _ _ _ Htyped Hs) as Htyped1.
    unfold successor, react in Hs. rewrite Hb in Hs. destruct (instructions b !! pc s) as [i|] eqn:Hi.
    - destruct (instruction_moves other (types module) (values f) s s1 i Hs) as [Hh Hp].
      destruct (instruction_step_binds other (types module) (values f) s s1 i Hs) as (xs & Hbind & _).
      pose proof (lookup_lt_Some _ _ _ Hi) as Hlt. split; [exists b; rewrite Hh, Hp; split; [done|lia]| |done].
      exists l. rewrite Hh. split; [done|]. intros site v Hv Hx. eapply bind_all_bound; [exact Hbind|].
      destruct site as [|d|d j]; simpl in Hx; rewrite ?Hh, ?Hp in Hx; [right; by eapply Hdef..|].
      destruct Hx as [Hx|[-> Hj]]; [right; eapply Hdef; [done|by left]|]. destruct (decide (j = pc s)) as [->|Hne].
      + left. destruct Hv as (b' & i' & Hb' & Hi' & Hv). simplify_eq. done.
      + right. eapply Hdef; [done|]. right. split; [done|lia].
    - apply react_end_enters in Hs as (target & b' & xs & Ht & Hb' & Hh & Hp & Hbind).
      apply lookup_ge_None in Hi. split; [exists b'; rewrite Hh, Hp; split; [done|lia]| |done].
      exists (here s1 :: l). split.
      + eapply walk_step; [exact Hl|]. exists b. split; [done|]. rewrite Hh.
        apply list_elem_of_fmap in Ht as (e & -> & He). exists e. split; [done|]. apply index_below_Some. split; [done|].
        by eapply lookup_lt_Some.
      + intros site v Hv Hx. eapply bind_all_bound; [exact Hbind|]. destruct site as [|d|d j]; simpl in Hx.
        * right. by eapply Hdef.
        * apply elem_of_cons in Hx as [->|Hx]; [|right; by eapply Hdef].
          left. destruct Hv as (b2 & Hb2 & Hv). rewrite Hh in Hb2. by simplify_eq.
        * right. destruct Hx as [[[?|Hd]%elem_of_cons Hne]|[_ ?]]; [done| |rewrite Hp in *; lia].
          eapply Hdef; [done|]. simpl. destruct (decide (d = here s)) as [->|]; [|by left]. right. split; [done|].
          destruct Hv as (b2 & i2 & Hb2 & Hi2 & _). simplify_eq. apply lookup_lt_Some in Hi2. lia.
  Qed.

Lemma reached_on_the_way arguments (s0 s : state U) :
    FlowSemantics.start (types module) f arguments = Some s0 -> rtc (successor other (types module) f) s0 s -> on_the_way s.
  Proof. intros H0 Hr. apply start_on_the_way in H0. induction Hr; [done|]. eauto using step_on_the_way. Qed.

  (** ** What the invariant gives *)

Lemma known_defined v : known (length (values f)) v -> exists site, defined_at f site v.
  Proof.
    intros Hv. assert (Hd : v ∈ definitions (parameters f) (blocks f)).
    { rewrite (valid_definitions _ _ Hvalid). apply list_elem_of_fmap. exists (N.to_nat v). rewrite elem_of_seq. unfold known in Hv. split; lia. }
    apply elem_of_app in Hd as [Hd|(b & Hb & Hd)%elem_concat]; [by exists FunctionParameter|].
    apply list_elem_of_lookup in Hb as [n Hb]. apply elem_of_app in Hd as [Hd|(i & Hi & Hd)%elem_concat].
    - exists (BlockParameter n). by exists b.
    - apply list_elem_of_lookup in Hi as [j Hi]. exists (InstructionSite n j). by exists b, i.
  Qed.

  (** The point a state is at. *)
Definition current (b : Block) (s : state U) : option nat :=
    if decide (is_Some (instructions b !! pc s)) then Some (pc s) else None.

Lemma used_bound (s : state U) b v : on_the_way s -> blocks f !! here s = Some b -> used_in b v (current b s) ->
    known (length (values f)) v -> is_Some (env s !! v).
  Proof.
    intros [(b' & Hb' & Hpc) (l & Hl & Hdef) _] Hb Hu Hv. rewrite Hb' in Hb. injection Hb as ->. rename Hb' into Hb.
    destruct (valid_uses _ _ (valid_ssa _ _ Hvalid) _ _ _ _ Hb Hu Hv (known_defined v Hv)) as (site & Hsite & Hr).
    eapply Hdef; [exact Hsite|]. destruct site as [|d|d j]; simpl in *; [done|by apply Hr|].
    case_decide as Hd; [|left; split; [by apply Hr|done]]. subst d. right. split; [done|].
    unfold current in Hr. case_decide as Hi; [done|]. destruct Hsite as (b2 & i2 & Hb2 & Hi2 & _). simplify_eq.
    apply lookup_lt_Some in Hi2. destruct (instructions b !! pc s) eqn:E; [exfalso; apply Hi; by eexists|].
    apply lookup_ge_None in E. lia.
  Qed.

Lemma checked_block n b : blocks f !! n = Some b -> block_checked module f b.
  Proof. intros Hb. pose proof (valid_blocks _ _ Hvalid) as H. rewrite Forall_forall in H. apply H. by eapply list_elem_of_lookup_2. Qed.

Lemma operation_readable (s : state U) b i : on_the_way s -> blocks f !! here s = Some b -> instructions b !! pc s = Some i ->
    is_Some (traverse_operation (fun v => env s !! v) (operation i)).
  Proof.
    intros Hs Hb Hi. apply traverse_operation_bound, Forall_forall. intros v Hv. eapply used_bound; [done..| |].
    - unfold current. rewrite Hi. simpl. exists i. split; [exact Hi|]. by rewrite flow_operation_values_eq.
    - pose proof (block_operations _ _ _ (checked_block _ _ Hb)) as H. rewrite Forall_forall in H.
      destruct (H i) as [_ [Hk _ _]]; [by eapply list_elem_of_lookup_2|]. rewrite Forall_forall in Hk. by apply Hk.
  Qed.

Lemma terminator_readable (s : state U) b : on_the_way s -> blocks f !! here s = Some b -> instructions b !! pc s = None ->
    exists t', traverse_terminator (fun v => env s !! v) Some (terminator b) = Some t' /\ terminator_read (fun v => env s !! v) (terminator b) t'.
  Proof.
    intros Hs Hb Hi. destruct (traverse_terminator_bound (fun v => env s !! v) (terminator b)) as [t' Ht].
    - apply Forall_forall. intros v Hv. pose proof (block_terminator_known _ _ _ (checked_block _ _ Hb)) as H.
      eapply used_bound; [done..| |rewrite Forall_forall in H; by apply H].
      unfold current. rewrite Hi. case_decide as Hc; [by destruct Hc|]. simpl. by rewrite flow_terminator_values_eq.
    - exists t'. split; [done|]. by apply traverse_terminator_read.
  Qed.

  (** ** Transfers of control *)

Lemma kind_of_value_record v : kind_of_value (types module) (values f) v = kind <$> (value_type f v ≫= type_at module).
  Proof. unfold kind_of_value, value_type, type_at, kind_of. by destruct (value_ty <$> values f !! N.to_nat v). Qed.

Lemma known_value_type v : known (length (values f)) v -> is_Some (value_type f v).
  Proof. intros [x Hx]%lookup_lt_is_Some. unfold value_type. rewrite Hx. by eexists. Qed.

Lemma arguments_fit_values (e : gmap N (rvalue U)) vs ps xs :
    env_typed (types module) (values f) e -> arguments_fit f f vs ps ->
    Forall (known (length (values f))) vs -> Forall (known (length (values f))) ps ->
    Forall2 (fun v x => e !! v = Some x) vs xs -> Forall2 (fits_parameter (types module) (values f)) ps xs.
  Proof.
    intros Ht Hfit. revert xs. induction Hfit as [|v p vs ps Hd _ IH]; intros xs Hkv Hkp Hx.
    - apply Forall2_nil_inv_l in Hx as ->. constructor.
    - apply Forall2_cons_inv_l in Hx as (x & xs' & Hx & Hxs & ->). apply Forall_cons in Hkv as [Hv Hvs], Hkp as [Hp Hps].
      constructor; [|by apply IH]. destruct (Ht _ _ Hx) as (k & Hk & Hfits). exists k. split; [|done].
      rewrite kind_of_value_record in Hk |- *.
      destruct (known_value_type v Hv) as [tv Htv], (known_value_type p Hp) as [tp Htp]. rewrite Htv, Htp in Hd. simpl in Hd.
      case_bool_decide as E; [|done]. rewrite Htp. rewrite Htv in Hk. by rewrite <- E.
  Qed.

Lemma block_parameters_known n b : blocks f !! n = Some b -> Forall (known (length (values f))) (block_parameters b).
  Proof. intros Hb. pose proof (block_defines _ _ _ (checked_block _ _ Hb)) as H. by apply Forall_app in H as [? _]. Qed.

Lemma enter_succeeds (e : gmap N (rvalue U)) target vs xs :
    env_typed (types module) (values f) e -> edge_fits f target vs -> Forall (known (length (values f))) vs ->
    Forall2 (fun v x => e !! v = Some x) vs xs -> silently (enter (types module) f target xs e) <> Stuck.
  Proof.
    intros Ht (b & Hb & Hfit) Hk Hx. unfold enter. rewrite Hb. cbn [mbind option_bind]. unfold enter_block.
    destruct (bind_all_fits (types module) (values f) (block_parameters b) xs e) as [e' ->]; [|done].
    eapply arguments_fit_values; [done..|by eapply block_parameters_known|done].
  Qed.

  (** Where the code may legitimately have nowhere to go: [Unreachable], and a
      switch without cases, whose value is never compared with anything and may
      have any type. *)
Definition may_be_stuck (t : Terminator ValueId) : bool :=
    match t with Unreachable => true | Switch _ [] _ _ => true | _ => false end.

Lemma scrutinee_typed v (e : gmap N (rvalue U)) x : env_typed (types module) (values f) e -> e !! v = Some x ->
    is_Some (bits_of module f v) -> is_Some (scrutinee x).
  Proof.
    intros Ht Hx [bits Hbits]. destruct (Ht _ _ Hx) as (k & Hk & Hfits). rewrite kind_of_value_record in Hk.
    unfold bits_of in Hbits. cbn [mbind option_bind] in *. destruct (value_type f v) as [ty|]; [|done].
    cbn [mbind option_bind] in *. destruct (type_at module ty) as [record|]; [|done]. simpl in Hk, Hbits. injection Hk as <-.
    unfold switch_bits in Hbits. destruct (kind record) as [|[| |sg bi| | |]| | | | | | | | | | | | | | | | |]; try done;
      (destruct x as [[]|]; try done; by eexists).
  Qed.

Lemma terminator_moves (s : state U) b t' : on_the_way s -> blocks f !! here s = Some b ->
    terminator_read (fun v => env s !! v) (terminator b) t' -> may_be_stuck (terminator b) = false ->
    react_terminator (types module) f s t' <> Stuck.
  Proof.
    intros [_ _ Ht] Hb Hr Hm. destruct (checked_block _ _ Hb) as [_ _ _ Hk Hshape].
    pose proof (valid_terminators _ _ (valid_ssa _ _ Hvalid)) as Hty. rewrite Forall_forall in Hty.
    specialize (Hty b ltac:(by eapply list_elem_of_lookup_2)).
    destruct (terminator b) as [target xs|c tb xs eb ys|v cases d ds|vs|n a r|callee xs|failure detail|], t'; try done;
      cbn [terminator_values terminator_shape terminator_typed terminator_read] in *.
    - destruct Hr as [-> Hx]. by eapply enter_succeeds.
    - destruct Hr as (Hc & -> & -> & Hx & Hy). apply Forall_cons in Hk as [_ [Hkx Hky]%Forall_app]. destruct Hshape as [Hs1 Hs2].
      destruct (Ht _ _ Hc) as (k & Hkc & Hfits). rewrite kind_of_value_record, Hty in Hkc. injection Hkc as <-.
      destruct condition as [[[]| | |]|]; try done; simpl; by eapply enter_succeeds.
    - destruct Hr as (Hv & -> & Hc & Hd). apply Forall_cons in Hk as [_ [Hkc Hkd]%Forall_app]. destruct Hshape as [Hs1 Hs2].
      destruct Hty as [_ Hrange]. destruct (scrutinee_typed v (env s) value Ht Hv) as [selected Hsel].
      { destruct cases as [|c cases]; [done|]. apply Forall_cons in Hrange as [Hc0 _]. unfold out_of_range in Hc0.
        destruct (bits_of module f v); [by eexists|done]. }
      simpl. rewrite Hsel. unfold select_case. destruct (find _ cases0) as [c'|] eqn:Hf; [|by eapply enter_succeeds].
      apply List.find_some in Hf as [Hin _]. apply list_elem_of_In, list_elem_of_lookup in Hin as [j Hj].
      destruct (Forall2_lookup_r _ _ _ _ _ Hc Hj) as (c & Hcj & _ & -> & Hargs). apply list_elem_of_lookup_2 in Hcj.
      apply Forall_concat_map in Hkc. rewrite Forall_forall in Hs2. rewrite Forall_forall in Hkc. by eapply enter_succeeds; eauto.
    - destruct Hr as (-> & -> & _). simpl. destruct Hshape as [[b' Hb']%lookup_lt_is_Some _]. by rewrite Hb'.
  Qed.

  (** At every point a run can get to, the operands can be read, and the block is
      left unless its terminator says it cannot be. *)
Definition safe_at (s : state U) : Prop :=
    exists b, blocks f !! here s = Some b /\
      match instructions b !! pc s with
      | Some i => is_Some (traverse_operation (fun v => env s !! v) (operation i))
      | None => is_Some (traverse_terminator (fun v => env s !! v) Some (terminator b))
                /\ (may_be_stuck (terminator b) = false -> react other (types module) f s <> Stuck)
      end.

Lemma safe_on_the_way s : on_the_way s -> safe_at s.
  Proof.
    intros Hs. destruct (way_block _ Hs) as (b & Hb & _). exists b. split; [done|].
    destruct (instructions b !! pc s) as [i|] eqn:Hi; [by eapply operation_readable|].
    destruct (terminator_readable s b Hs Hb Hi) as (t' & Ht & Hr). split; [by eexists|]. intros Hm.
    unfold react, react_end. rewrite Hb, Hi, Ht. by eapply terminator_moves.
  Qed.
End safety.
Arguments safe_at {U} other module f s.

(** C1: no accepted function reads an undefined value. When the checks of the
    functions of a module end without an error, then in every state that a call
    of one of its functions can get to, with any arguments, any meaning of the
    operations outside the language and any answers of the environment, every
    operand of the current instruction or terminator is bound to a value of its
    type, and control can leave the block: branch conditions are Booleans,
    switched values are integers, and the target has parameters for the arguments.
    Excepted are [Unreachable], and a switch without cases, of whose value nothing
    is required. *)
Theorem accepted_functions_safe {U} (other : FlowOperation (rvalue U) -> option (rvalue U)) module limits c f arguments s0 s :
  may_return (validate_functions module (new_context limits)) (Some tt, c) -> clean c ->
  f ∈ functions module ->
  FlowSemantics.start (types module) f arguments = Some s0 -> rtc (successor other (types module) f) s0 s ->
  safe_at other module f s.
Proof.
  intros Hrun Hc Hf Hs Hr. pose proof (accepts_functions _ _ _ _ Hrun Hc) as Hvalid. cbv beta in Hvalid. rewrite Forall_forall in Hvalid.
  apply safe_on_the_way; [by apply Hvalid|]. eapply reached_on_the_way; eauto.
Qed.


Lemma dense_nodup n : NoDup (map N.of_nat (seq 0 n)).
Proof. apply NoDup_fmap_2_strong, NoDup_seq. intros. lia. Qed.

(** What the optimiser's soundness rests on is what validation checks: an
    accepted function assigns every value once and numbers its instructions
    apart. Only the range of integer immediates remains to be required. *)
Theorem accepted_functions_sound module limits c f :
  may_return (validate_functions module (new_context limits)) (Some tt, c) -> clean c ->
  f ∈ functions module -> immediates_ok (blocks f) -> sound_function f.
Proof.
  intros Hrun Hc Hf Him. pose proof (accepts_functions _ _ _ _ Hrun Hc) as Hvalid. cbv beta in Hvalid.
  rewrite Forall_forall in Hvalid. specialize (Hvalid f Hf).
  split; [split; [|done]|].
  - unfold single_assignment. rewrite (valid_definitions _ _ Hvalid). apply dense_nodup.
  - unfold numbered. rewrite (valid_instruction_ids _ _ Hvalid). apply dense_nodup.
Qed.
