(* ===== verification/ReportSound.v ===== *)
(** The report the pipeline writes is true and canonical: its instruction counts
    are those of the modules, they never grow, and the checks the optimiser makes
    on its own report never refuse it. *)

From stdpp Require Import base numbers list option gmap strings.
From S2P Require Import Prelude Bytes Interrupt BuildModel FlowWir ScalarFold Optimizer FlowOperands FlowSemantics FoldPass FoldSound FoldLoop ControlPass CompactPass RenameSound CompactSound UnreachableSound DeadPass DeadSound FlowModule ModelScan ScanSound Pipeline PipelineSound.

#[local] Open Scope Z_scope.

(** ** Instruction counts *)

Lemma count_blocks_returns bs n s r s' : may_returnS (count_blocks bs n) s r s' -> r = n + sum_of block_instructions bs.
Proof.
  revert n s. induction bs as [|b bs IH]; intros n s; cbn [count_blocks].
  - intros [<- _]%may_returnS_mret. simpl. lia.
  - intros (_ & s1 & _ & H)%may_returnS_bind. apply may_returnS_bind in H as (m & s2 & Hm & H).
    apply may_returnS_liftS in Hm as [Hm%may_return_lift%ok_or_Ok _]. apply checked_add_Some in Hm as [_ ->].
    rewrite (IH _ _ H), sum_of_cons. unfold block_instructions, len. lia.
Qed.

Lemma instruction_count_returns w s n s' : may_returnS (instruction_count w) s n s' -> n = total_instructions (functions w).
Proof.
  unfold instruction_count. enough (H : forall fs t, may_returnS (fold_each add_function_count fs t) s n s' ->
    n = t + total_instructions fs) by (intros Hn%H; lia).
  intros fs. revert s. induction fs as [|f fs IH]; intros s t; cbn [fold_each].
  - intros [<- _]%may_returnS_mret. simpl. lia.
  - intros (t1 & s1 & H1 & H)%may_returnS_bind. rewrite (IH _ _ H).
    apply may_returnS_bind in H1 as (_ & s2 & _ & H1). apply may_returnS_bind in H1 as (c & s3 & Hc%count_blocks_returns & H1).
    apply may_returnS_liftS in H1 as [Hm%may_return_lift%ok_or_Ok _]. apply checked_add_Some in Hm as [_ ->].
    unfold total_instructions. rewrite sum_of_cons. unfold function_instructions. lia.
Qed.

Lemma function_instructions_numbers f : function_instructions f = len (numbers (blocks f)).
Proof.
  unfold function_instructions. induction (blocks f) as [|b bs IH]; [done|].
  rewrite sum_of_cons, numbers_cons, len_app, IH. unfold block_instructions, len. by rewrite length_map.
Qed.

Lemma total_Forall2 {X} (g : X -> Z) (R : Z -> Z -> Prop) xs ys :
  R 0 0 -> (forall a b c d, R a b -> R c d -> R (a + c) (b + d)) ->
  Forall2 (fun x y => R (g x) (g y)) xs ys -> R (sum_of g xs) (sum_of g ys).
Proof. intros H0 Hadd. induction 1; [done|]. rewrite !sum_of_cons. auto. Qed.

(** ** Passes that keep the instructions *)

Lemma fold_keeps_count types fs profile limits s fs' acc s' :
  types_ok types -> Forall sound_function fs ->
  may_returnS (fold_scalar_constants types fs profile limits) s (fs', acc) s' ->
  total_instructions fs' = total_instructions fs.
Proof.
  intros Htypes Hsound H. symmetry. apply (total_Forall2 _ eq); [done|congruence|]. revert H.
  apply map_accum_Forall2. intros t f s1 f' t' s2 Hf H. rewrite Forall_forall in Hsound.
  rewrite !function_instructions_numbers. f_equal. symmetry.
  by eapply fold_function_numbers; [|apply (proj1 (Hsound f Hf))|].
Qed.

Lemma control_keeps_count types fs limits s fs' changed s' :
  may_returnS (simplify_constant_control_flow types fs limits) s (fs', changed) s' ->
  total_instructions fs' = total_instructions fs.
Proof.
  intros H. symmetry. apply (total_Forall2 _ eq); [done|congruence|]. revert H.
  apply map_accum_Forall2. intros t f s1 f' t' s2 Hf ->%simplify_function_returns.
  rewrite !function_instructions_numbers. f_equal. symmetry. apply simplified_numbers.
Qed.

(** ** Passes that drop instructions *)

(** Nothing is added, and nothing changes when no change is reported. *)
Definition shrinks (changed : bool) (f : FlowFunction) (out : FlowFunction * bool) : Prop :=
  function_instructions out.1 <= function_instructions f /\ (out.2 = false -> out.1 = f /\ changed = false).

Lemma shrinks_same changed f : shrinks changed f (f, changed).
Proof. split; [done|]. simpl. by intros ->. Qed.

Lemma compacted_shrinks keep removed keep_values f f' changed :
  function_compacted keep removed keep_values f f' -> shrinks changed f (f', true).
Proof.
  intros Hc. split; [|done]. simpl. unfold function_instructions.
  pose proof (compacted_blocks _ _ _ _ _ Hc) as Hb.
  trans (sum_of block_instructions (kept keep (blocks f))).
  - clear -Hb. induction Hb as [|b b' bs bs' [_ Hi _] _ IH]; [done|]. rewrite !sum_of_cons.
    enough (block_instructions b' <= block_instructions b) by lia. unfold block_instructions, len.
    apply Forall2_length in Hi. unfold retained in Hi. rewrite <- Hi. pose proof (List.filter_length_le (fun i => negb (is_removed removed i)) (instructions b)). lia.
  - clear. revert keep. induction (blocks f) as [|b bs IH]; intros [|[] keep]; cbn [kept]; rewrite ?sum_of_cons; try done.
    + simpl. pose proof (len_nonneg (instructions b)). specialize (IH []). destruct bs; simpl in *; unfold block_instructions at 1; lia.
    + specialize (IH keep). lia.
    + specialize (IH keep). pose proof (len_nonneg (instructions b)). unfold block_instructions at 2. lia.
Qed.

Lemma map_accum_shrinks (step : bool -> FlowFunction -> pass (FlowFunction * bool)) fs changed s fs' changed' s' :
  (forall t f s f' t' s', may_returnS (step t f) s (f', t') s' -> shrinks t f (f', t')) ->
  may_returnS (map_accum step fs changed) s (fs', changed') s' ->
  total_instructions fs' <= total_instructions fs /\ (changed' = false -> fs' = fs /\ changed = false).
Proof.
  intros Hstep. revert changed s fs' changed' s'. induction fs as [|f fs IH]; intros changed s fs' changed' s'; cbn [map_accum].
  - intros [[= <- <-] _]%may_returnS_mret. done.
  - intros ([f' t1] & s1 & [Hle Hsame]%Hstep & H)%may_returnS_bind.
    apply may_returnS_bind in H as ([fs1 t2] & s2 & [Hle2 Hsame2]%IH & H).
    apply may_returnS_mret in H as [[= <- <-] _]. unfold total_instructions in *. rewrite !sum_of_cons.
    simpl in *. split; [lia|]. intros Ht. destruct (Hsame2 Ht) as [-> Ht1]. by destruct (Hsame Ht1) as [-> ->].
Qed.

Lemma eliminate_function_shrinks limits t f s f' t' s' :
  may_returnS (eliminate_function limits t f) s (f', t') s' -> shrinks t f (f', t').
Proof.
  intros (_ & s3 & _ & H)%may_returnS_bind. apply may_returnS_bind in H as (reachable & s4 & _ & H).
  apply may_returnS_bind in H as ([] & s5 & _ & H).
  - apply may_returnS_mret in H as [[= <- <-] _]. apply shrinks_same.
  - apply may_returnS_bind in H as (u & s6 & _ & H).
    apply may_returnS_bind in H as (f1 & s7 & (keep_values & _ & Hc)%compact_function_returns & H).
    apply may_returnS_mret in H as [[= <- <-] _]. by eapply compacted_shrinks.
Qed.

(** The end of a pass that drops what it has flagged. *)
Lemma drop_flagged_shrinks (function_changed : bool) f removed limits t s f' t' s' :
  may_returnS (if function_changed then f1 ← compact_removed f removed limits; mret (f1, true) else mret (f, t)) s (f', t') s' ->
  shrinks t f (f', t').
Proof.
  destruct function_changed.
  - intros (f1 & s7 & (keep & s8 & _ & Hc)%may_returnS_bind & H)%may_returnS_bind.
    apply compact_function_returns in Hc as (keep_values & _ & Hc).
    apply may_returnS_mret in H as [[= <- <-] _]. by eapply compacted_shrinks.
  - intros [[= <- <-] _]%may_returnS_mret. apply shrinks_same.
Qed.

Lemma remove_checks_shrinks types limits t f s f' t' s' :
  may_returnS (remove_checks_function types limits t f) s (f', t') s' -> shrinks t f (f', t').
Proof.
  unfold remove_checks_function. intros (_ & s1 & _ & H)%may_returnS_bind.
  do 4 (apply may_returnS_bind in H as (? & ? & _ & H)). apply may_returnS_bind in H as ([removed ch] & ? & _ & H).
  by eapply drop_flagged_shrinks.
Qed.

Lemma remove_dead_shrinks types limits t f s f' t' s' :
  may_returnS (remove_dead_function types limits t f) s (f', t') s' -> shrinks t f (f', t').
Proof.
  unfold remove_dead_function. intros (_ & s1 & _ & H)%may_returnS_bind.
  do 4 (apply may_returnS_bind in H as (? & ? & _ & H)). apply may_returnS_bind in H as ([tb n] & ? & _ & H).
  do 3 (apply may_returnS_bind in H as (? & ? & _ & H)). apply may_returnS_bind in H as ([q p] & ? & _ & H).
  apply may_returnS_bind in H as ([removed uc] & ? & _ & H). apply may_returnS_bind in H as (ch & ? & _ & H).
  by eapply drop_flagged_shrinks.
Qed.

(** ** Iterations *)

Lemma map_accum_accumulates {X Y T} (I : T -> Prop) (step : T -> X -> pass (Y * T)) xs t s ys t' s' :
  (forall t x s y t' s', I t -> may_returnS (step t x) s (y, t') s' -> I t') ->
  I t -> may_returnS (map_accum step xs t) s (ys, t') s' -> I t'.
Proof.
  intros Hstep. revert t s ys t' s'. induction xs as [|x xs IH]; intros t s ys t' s' Ht; cbn [map_accum].
  - by intros [[= _ <-] _]%may_returnS_mret.
  - intros ([y t1] & s1 & H1%Hstep & H)%may_returnS_bind; [|done].
    apply may_returnS_bind in H as ([ys1 t2] & s2 & H2%IH & H); [|done]. by apply may_returnS_mret in H as [[= _ <-] _].
Qed.

Lemma fold_loop_iterations fuel types maximum function vals bs constants changed iterations s bs' changed' iterations' s' :
  0 <= iterations < maximum ->
  may_returnS (fold_loop fuel types maximum function vals bs constants changed iterations) s (bs', changed', iterations') s' ->
  1 <= iterations' <= maximum.
Proof.
  revert bs constants changed iterations s. induction fuel as [|fuel IH]; intros bs constants changed iterations s Hit;
    cbn [fold_loop]; [by intros [[] _]%may_returnS_liftS|].
  intros (it & s1 & Hi & H)%may_returnS_bind. apply may_returnS_liftS in Hi as [Hi%may_return_lift%ok_or_Ok _].
  apply checked_add_Some in Hi as [_ ->]. apply may_returnS_bind in H as ([bs1 [c1 ch]] & s2 & _ & H).
  destruct ch; cbn [negb] in H; [|apply may_returnS_mret in H as [[= _ _ <-] _]; lia].
  destruct (Z.eqb_spec (iterations + 1) maximum) as [Hm|Hm].
  - apply may_returnS_bind in H as ([] & s3 & _ & H); [by apply may_returnS_liftS in H as [[] _]|].
    apply may_returnS_mret in H as [[= _ _ <-] _]. lia.
  - eapply IH; [|exact H]. lia.
Qed.

Lemma fold_iterations types fs profile limits s fs' changed iterations_ s' :
  1 <= maximum_iterations profile ->
  may_returnS (fold_scalar_constants types fs profile limits) s (fs', (changed, iterations_)) s' ->
  1 <= iterations_ <= maximum_iterations profile.
Proof.
  intros Hmax H. change iterations_ with (changed, iterations_).2.
  refine (map_accum_accumulates (fun acc => 1 <= acc.2 <= maximum_iterations profile) _ _ _ _ _ _ _ _ _ H); [|done].
  intros [ch used] f s1 f' acc' s2 Hacc. simpl in Hacc. unfold fold_function.
  intros (_ & s3 & _ & H1)%may_returnS_bind. do 2 (apply may_returnS_bind in H1 as (? & ? & _ & H1)).
  apply may_returnS_bind in H1 as ([[bs' ch'] it] & s4 & Hl & H1). apply may_returnS_mret in H1 as [[= _ <-] _].
  apply fold_loop_iterations in Hl; [|lia]. simpl. lia.
Qed.

(** ** Steps that report nothing *)

Definition silent {A} (m : pass A) : Prop := forall s a s', may_returnS m s a s' -> decisions s' = decisions s.

Create HintDb silent discriminated.

Lemma silent_bind {A B} (m : pass A) (f : A -> pass B) : silent m -> (forall a, silent (f a)) -> silent (m ≫= f).
Proof. intros Hm Hf s b s' (a & s1 & H1%Hm & H2%Hf)%may_returnS_bind. congruence. Qed.
Lemma silent_mret {A} (a : A) : silent (mret a).
Proof. by intros s b s' [_ ->]%may_returnS_mret. Qed.
Lemma silent_liftS {A} (m : prog OptimizeError A) : silent (liftS m).
Proof. by intros s b s' [_ ->]%may_returnS_liftS. Qed.
Lemma silent_checkpoint : silent checkpoint.
Proof. by intros s u s' [_ H]%checkpoint_used. Qed.
Lemma silent_charge n : silent (charge n).
Proof. by intros s u s' [_ H]%charge_used. Qed.
#[local] Hint Resolve silent_mret silent_liftS silent_checkpoint silent_charge : silent.
#[local] Hint Unfold fails proof_violation pure_result : silent.

Lemma silent_fold_each {X T} (step : T -> X -> pass T) xs t : (forall t x, silent (step t x)) -> silent (fold_each step xs t).
Proof.
  intros Hs. revert t. induction xs as [|x xs IH]; intros t; cbn [fold_each]; [apply silent_mret|].
  by apply silent_bind.
Qed.
Lemma silent_for_each {X T} (visit : T -> X -> T) xs t : silent (for_each visit xs t).
Proof.
  revert t. induction xs as [|x xs IH]; intros t; cbn [for_each]; [apply silent_mret|].
  apply silent_bind; [apply silent_checkpoint|]. intros _. apply IH.
Qed.
Lemma silent_mapM {X Y} (step : X -> pass Y) xs : (forall x, silent (step x)) -> silent (mapM step xs).
Proof.
  intros Hs. induction xs as [|x xs IH]; cbn [mapM]; [apply silent_mret|].
  apply silent_bind; [done|intros ?]. apply silent_bind; [done|intros ?]. apply silent_mret.
Qed.
#[local] Hint Resolve silent_for_each : silent.
#[local] Hint Unfold for_each_operation_value for_each_terminator_value for_each_edge : silent.

Ltac silent :=
  intros; repeat lazymatch goal with
    | |- silent (_ ≫= _) => apply silent_bind; [|intros ?]
    | |- silent (fold_each _ _ _) => apply silent_fold_each; intros ? ?
    | |- silent (mapM _ _) => apply silent_mapM; intros ?
    | |- silent (match ?x with _ => _ end) => destruct x
    | |- _ => solve [eauto with silent nocore]
    end.

Lemma silent_reserve count resource limit : silent (reserve_items count resource limit).
Proof. unfold reserve_items. silent. Qed.
#[local] Hint Resolve silent_reserve : silent.
Lemma silent_filled {T} n (x : T) resource limit : silent (filled_vec n x resource limit).
Proof. unfold filled_vec. silent. Qed.
Lemma silent_subject function kind id : silent (subject function kind id).
Proof. unfold subject. silent. Qed.
Lemma silent_report_text text limits : silent (report_text text limits).
Proof. unfold report_text. silent. Qed.
#[local] Hint Resolve silent_filled silent_subject silent_report_text : silent.
Lemma silent_seed types f constants : silent (seed_immediates types f constants).
Proof. unfold seed_immediates, seed_instruction. silent. Qed.
Lemma silent_fold_succeeds folded : silent (fold_succeeds folded).
Proof. unfold fold_succeeds. silent. Qed.
Lemma silent_any test ins : (forall i, silent (test i)) -> silent (any_instruction test ins).
Proof. intros Ht. induction ins; cbn [any_instruction]; silent. Qed.
#[local] Hint Resolve silent_seed silent_fold_succeeds silent_any : silent.
Lemma silent_has_foldable types vals constants bs : silent (has_foldable_scalar_operation types vals constants bs).
Proof. induction bs; cbn [has_foldable_scalar_operation]; silent. Qed.
Lemma silent_count_blocks bs n : silent (count_blocks bs n).
Proof. revert n. induction bs; intros n; cbn [count_blocks]; silent. Qed.
#[local] Hint Resolve silent_has_foldable silent_count_blocks : silent.
Lemma silent_count_true resource limit flags n : silent (count_true resource limit flags n).
Proof. revert n. induction flags; intros n; cbn [count_true]; silent. Qed.
Lemma silent_all_retained flags : silent (all_retained flags).
Proof. induction flags; cbn [all_retained]; silent. Qed.
#[local] Hint Resolve silent_count_true silent_all_retained : silent.
#[local] Hint Unfold violation : silent.
Lemma silent_count_retained flags resource limit : silent (count_retained flags resource limit).
Proof. unfold count_retained. silent. Qed.
Lemma silent_mark_value context keep_values v : silent (mark_value context keep_values v).
Proof. unfold mark_value. silent. Qed.
Lemma silent_map_value m v : silent (map_value m v).
Proof. unfold map_value. silent. Qed.
Lemma silent_map_block m b : silent (map_block m b).
Proof. unfold map_block. silent. Qed.
#[local] Hint Resolve silent_count_retained silent_mark_value silent_map_value silent_map_block : silent.
Lemma silent_map_slice m vs : silent (map_value_slice m vs).
Proof. unfold map_value_slice. silent. Qed.
Lemma silent_part m (part : BoundedStringPart ValueId) : silent (traverse_part (map_value m) part).
Proof. unfold traverse_part. silent. Qed.
#[local] Hint Resolve silent_map_slice silent_part : silent.
Lemma silent_operation m op : silent (map_operation_values m op).
Proof. unfold map_operation_values, traverse_operation, traverse_option. silent. Qed.
Lemma silent_case m n (c : SwitchCase ValueId) : silent (traverse_case (map_value m) (map_block n) c).
Proof. unfold traverse_case. silent. Qed.
#[local] Hint Resolve silent_operation silent_case : silent.
Lemma silent_terminator m n t : silent (map_terminator m n t).
Proof. unfold map_terminator, traverse_terminator, traverse_option. silent. Qed.
#[local] Hint Resolve silent_terminator : silent.
Lemma silent_number_blocks limit keep index map_ next : silent (number_blocks limit keep index map_ next).
Proof. revert index map_ next. induction keep; intros index map_ next; cbn [number_blocks]; silent. Qed.
Lemma silent_compact_values limit kept index m vals : silent (compact_values limit kept index m vals).
Proof. revert index m vals. induction kept as [|[]]; intros index m vals; cbn [compact_values]; silent. Qed.
Lemma silent_count_instructions removed limits ins n : silent (count_instructions removed limits ins n).
Proof. revert n. induction ins; intros n; cbn [count_instructions]; silent. Qed.
Lemma silent_compact_instructions m removed limits ins n : silent (compact_instructions m removed limits ins n).
Proof. revert n. induction ins; intros n; cbn [compact_instructions]; unfold compact_instruction; silent. Qed.
#[local] Hint Resolve silent_number_blocks silent_compact_values silent_count_instructions silent_compact_instructions : silent.
Lemma silent_compact_block m n removed limits index b next : silent (compact_block m n removed limits index b next).
Proof. unfold compact_block. silent. Qed.
#[local] Hint Resolve silent_compact_block : silent.
Lemma silent_compact_blocks m n removed limits kept index next : silent (compact_blocks m n removed limits kept index next).
Proof. revert index next. induction kept as [|[]]; intros index next; cbn [compact_blocks]; silent. Qed.
#[local] Hint Resolve silent_compact_blocks : silent.
Lemma silent_compact f keep removed limits : silent (compact_function f keep removed limits).
Proof. unfold compact_function, mark_all, mark_block, mark_instruction, mark_all. silent. Qed.
#[local] Hint Resolve silent_compact : silent.
Lemma silent_compact_removed f removed limits : silent (compact_removed f removed limits).
Proof. unfold compact_removed. silent. Qed.
Lemma silent_reachable_loop fuel bs reachable pending : silent (reachable_loop fuel bs reachable pending).
Proof. revert reachable pending. induction fuel; intros reachable [|b pending]; cbn [reachable_loop]; silent. Qed.
#[local] Hint Resolve silent_compact_removed silent_reachable_loop : silent.
Lemma silent_reachable f limits : silent (reachable_blocks f limits).
Proof. unfold reachable_blocks. silent. Qed.
Lemma silent_proof_vec resource limits proof : silent (proof_vec resource limits proof).
Proof. unfold proof_vec. silent. Qed.
#[local] Hint Resolve silent_reachable silent_proof_vec : silent.
Lemma silent_index_block acc b : silent (index_block acc b).
Proof.
  unfold index_block, index_instruction, define_result, charge_operation_uses, charge_terminator_uses. silent.
Qed.
Lemma silent_queue_block types vals uc acc b : silent (queue_block types vals uc acc b).
Proof. unfold queue_block, queue_instruction. silent. Qed.
Lemma silent_dead_loop fuel types f locations_ definitions uc removed queued pending :
  silent (dead_loop fuel types f locations_ definitions uc removed queued pending).
Proof.
  revert uc removed queued pending. induction fuel; intros uc removed queued [|id pending]; cbn [dead_loop]; silent.
Qed.
#[local] Hint Resolve silent_index_block silent_queue_block silent_dead_loop : silent.
Lemma silent_verify w tests profile limits pass_ reachable : silent (verify_pass w tests profile limits pass_ reachable).
Proof.
  unfold verify_pass, verify_after_pass, verify_function, verify_block, verify_instruction, verify_value,
    define_verified_values, define_verified_value, verify_operation_references, verify_terminator_references,
    verify_definition_count, verify_test_table_links, link_test, check_listed, operation_proofs. silent.
Qed.
Lemma silent_links fs tests limits pass_ : silent (verify_test_table_links fs tests limits pass_).
Proof. unfold verify_test_table_links, link_test, check_listed. silent. Qed.
Lemma silent_instruction_count w : silent (instruction_count w).
Proof. unfold instruction_count, add_function_count, function_instruction_count. silent. Qed.
Lemma silent_statistics pass_ limits it changed before after entries :
  silent (pass_statistics pass_ limits it changed before after entries).
Proof. unfold pass_statistics. silent. Qed.
#[local] Hint Resolve silent_verify silent_links silent_instruction_count silent_statistics : silent.

(** ** Decisions *)

Definition canonical_decision (names : list string) (d : OptimizationDecision) : Prop :=
  decision_pass d ∈ map ascii names /\ decision_subject d <> [] /\ justification d <> []
  /\ strictly_increasing (relied_on d) = true.

(** Whatever a step adds to the report is canonical. *)
Definition records (names : list string) {A} (m : pass A) : Prop := forall s a s',
  may_returnS m s a s' ->
  Forall (canonical_decision names) (sink_decisions (decisions s)) ->
  Forall (canonical_decision names) (sink_decisions (decisions s')).

Section records.
  Context (names : list string).

Lemma records_silent {A} (m : pass A) : silent m -> records names m.
  Proof. intros Hm s a s' H. by rewrite (Hm _ _ _ H). Qed.

Lemma records_bind {A B} (m : pass A) (f : A -> pass B) :
    records names m -> (forall a, records names (f a)) -> records names (m ≫= f).
  Proof. intros Hm Hf s b s' (a & s1 & H1 & H2)%may_returnS_bind H. eapply Hf, Hm; done. Qed.

Lemma records_map_accum {X Y T} (step : T -> X -> pass (Y * T)) xs t :
    (forall t x, records names (step t x)) -> records names (map_accum step xs t).
  Proof.
    intros Hs. revert t. induction xs as [|x xs IH]; intros t; cbn [map_accum]; [by apply records_silent, silent_mret|].
    apply records_bind; [apply Hs|intros [y t1]]. apply records_bind; [apply IH|intros [ys t2]].
    by apply records_silent, silent_mret.
  Qed.

Lemma records_fold_each {X T} (step : T -> X -> pass T) xs t :
    (forall t x, records names (step t x)) -> records names (fold_each step xs t).
  Proof.
    intros Hs. revert t. induction xs as [|x xs IH]; intros t; cbn [fold_each]; [by apply records_silent, silent_mret|].
    by apply records_bind.
  Qed.

Lemma report_text_returns text limits s t s' : may_returnS (report_text text limits) s t s' -> t = ascii text.
  Proof.
    intros (_ & s1 & _ & H)%may_returnS_bind. apply may_returnS_bind in H as (_ & s2 & _ & H).
    by apply may_returnS_mret in H as [<- _].
  Qed.

Lemma records_push pass_ sub kind text proofs_ :
    pass_ ∈ names -> sub <> [] -> ascii text <> [] -> records names (push pass_ sub kind text proofs_).
  Proof.
    intros Hp Hsub Htext s u s'. unfold may_returnS, push. cbv zeta. intros H.
    do 2 apply may_return_bind in H as (? & _ & H).
    apply may_return_bind in H as (? & Hrel%may_return_fail_if%negb_false_iff & H).
    do 4 apply may_return_bind in H as (? & _ & H).
    apply may_return_bind in H as ([t1 s1] & H1%report_text_returns & H).
    apply may_return_bind in H as ([t2 s2] & H2%report_text_returns & H). subst t1 t2. injection H as _ <-. simpl.
    intros Hall. apply Forall_app. split; [done|]. apply Forall_singleton. unfold canonical_decision. simpl.
    split_and!; [|done..]. by apply list_elem_of_fmap_2.
  Qed.

Lemma records_subject {B} function kind id (f : str -> pass B) :
    (forall sub, sub <> [] -> records names (f sub)) -> records names (subject function kind id ≫= f).
  Proof.
    intros Hf s b s' (sub & s1 & H1 & H2)%may_returnS_bind H. pose proof (silent_subject _ _ _ _ _ _ H1) as Hs1.
    apply may_returnS_bind in H1 as (_ & s2 & _ & [<- ->]%may_returnS_mret). eapply Hf; [|exact H2|by rewrite Hs1].
    unfold ascii. simpl. discriminate.
  Qed.
End records.

Create HintDb records discriminated.

(** Walk through a pass: silent steps, subjects, reports of a known pass. *)
Ltac records Hnames :=
  intros; repeat lazymatch goal with
    | |- records _ (push _ _ _ _ _) => apply records_push; [exact Hnames|assumption|discriminate]
    | |- records _ (subject _ _ _ ≫= _) => apply records_subject; intros ? ?
    | |- records _ (_ ≫= _) => apply records_bind; [|intros ?]
    | |- records _ (map_accum _ _ _) => apply records_map_accum; intros ? ?
    | |- records _ (fold_each _ _ _) =>
        first [solve [apply records_silent; silent] | apply records_fold_each; intros ? ?]
    | |- records _ (match ?x with _ => _ end) => destruct x
    | |- _ => solve [eauto with records nocore | apply records_silent; silent]
    end.

Section recorded.
  Context (names : list string) (types : list FlowType) (profile : OptimizationProfile) (limits : OptimizationLimits).

Lemma records_fold_loop fuel maximum function vals bs constants changed it :
    CONSTANT_FOLD_PASS ∈ names -> records names (fold_loop fuel types maximum function vals bs constants changed it).
  Proof.
    intros Hn. revert bs constants changed it. induction fuel as [|fuel IH]; intros bs constants changed it; cbn [fold_loop].
    - apply records_silent. silent.
    - unfold fold_block, fold_instruction, instruction_subject. records Hn.
  Qed.

#[local] Hint Resolve records_fold_loop : records.
Lemma records_fold fs : CONSTANT_FOLD_PASS ∈ names -> records names (fold_scalar_constants types fs profile limits).
  Proof.
    intros Hn. apply records_map_accum. intros [ch used] f. unfold fold_function. records Hn.
  Qed.

Lemma records_control fs : CONTROL_SIMPLIFY_PASS ∈ names -> records names (simplify_constant_control_flow types fs limits).
  Proof.
    intros Hn. apply records_map_accum. intros ch f. unfold simplify_function, simplify_block, block_subject.
    assert (Hfind : forall selected cases, silent (find_case selected cases)).
    { intros selected cases. induction cases; cbn [find_case]; silent. }
    assert (Happly : forall t choice, silent (apply_choice t choice)).
    { intros t choice. unfold apply_choice. silent. }
    records Hn.
  Qed.

Lemma records_unreachable fs : UNREACHABLE_PASS ∈ names -> records names (eliminate_unreachable_blocks fs limits).
  Proof. intros Hn. apply records_map_accum. intros ch f. unfold eliminate_function, report_removed, block_subject. records Hn. Qed.

Lemma records_checks fs : PROVEN_TRUE_CHECK_PASS ∈ names -> records names (eliminate_proven_true_checks types fs limits).
  Proof.
    intros Hn. apply records_map_accum. intros ch f.
    unfold remove_checks_function, function_instruction_count, remove_checks, remove_check, instruction_subject. records Hn.
  Qed.

Lemma records_dead fs : DEAD_PURE_PASS ∈ names -> records names (eliminate_dead_pure_instructions types fs limits).
  Proof.
    intros Hn. apply records_map_accum. intros ch f.
    unfold remove_dead_function, function_instruction_count, report_block, report_instruction, operation_proofs,
      instruction_subject. records Hn.
  Qed.
End recorded.

(** ** The checks of the report *)

(** What a meter can fail with. *)
Definition meter_error (e : OptimizeError) : Prop :=
  e = Cancelled \/ exists limit, e = ResourceLimit "optimizer work" limit.

Lemma checkpoint_meter : raises meter_error checkpoint.
Proof.
  apply raises_bind; [apply raises_liftS|intros _ s e].
  - intros e [[] H]; [|done]. simpl in H. subst e. by left.
  - unfold charge. rewrite may_throw_bind, may_throw_lift. intros [H|(a & _ & [])]. right. eexists.
    unfold add_bounded in H. destruct (checked_add 64 _ 1); simpl in H; [|by injection H].
    destruct (ensure_limit _ _ _) eqn:Hl; simpl in H; [done|]. injection H as <-. by eapply ensure_limit_raises.
Qed.

(** The rows of the table continue one another. *)
Fixpoint chained (profile : OptimizationProfile) (entries previous : Z) (rows : list (PassStatistics * string)) (last : Z) : Prop :=
  match rows with
  | [] => previous = last
  | (st, name) :: rows =>
      noncanonical_statistics profile entries previous st name = false /\ chained profile entries (instructions_after st) rows last
  end.

Lemma check_rows profile entries previous rows last s :
  chained profile entries previous rows last ->
  (forall a s', may_returnS (fold_each (check_statistics profile entries) rows previous) s a s' -> a = last)
  /\ forall e, may_throw (fold_each (check_statistics profile entries) rows previous s) e -> meter_error e.
Proof.
  revert previous s. induction rows as [|[st name] rows IH]; intros previous s; cbn [chained fold_each].
  - intros ->. split; [by intros a s' [<- _]%may_returnS_mret|done].
  - intros [Hst Hrows].
    assert (Hstep : check_statistics profile entries previous (st, name) = (_ ← checkpoint; mret (instructions_after st))).
    { unfold check_statistics. simpl. by rewrite Hst. }
    rewrite Hstep. split.
    + intros a s' (p & s1 & Hp & H)%may_returnS_bind. apply may_returnS_bind in Hp as (_ & s2 & _ & Hp).
      apply may_returnS_mret in Hp as [<- ->]. by eapply IH.
    + intros e H. unfold mbind at 1, stateT_bind in H. rewrite may_throw_bind in H. destruct H as [H|([p s1] & Hp & H)].
      * revert H. apply (raises_bind meter_error checkpoint _ checkpoint_meter). intros _. apply raises_mret.
      * apply may_returnS_bind in Hp as (_ & s2 & _ & Hp). apply may_returnS_mret in Hp as [<- ->]. by eapply IH.
Qed.

Lemma check_decisions names ds :
  Forall (canonical_decision names) ds -> raises meter_error (fold_each (check_decision names) ds tt).
Proof.
  induction 1 as [|d ds (Hp & Hs & Hj & Hr) _ IH]; cbn [fold_each]; [apply raises_mret|].
  apply raises_bind; [|by intros []]. apply raises_bind; [apply checkpoint_meter|intros _].
  rewrite (bool_decide_eq_true_2 _ Hp), (bool_decide_eq_false_2 _ Hs), (bool_decide_eq_false_2 _ Hj), Hr. apply raises_mret.
Qed.

(** A report of rows that continue one another and canonical decisions. *)
Definition canonical_report (report : OptimizationReport) (input_ output_ tests_ : Z) : Prop :=
  exists names, pipeline_passes (profile_level (report_profile report)) = Ok names
    /\ length (passes report) = length names
    /\ chained (report_profile report) tests_ input_ (zip (passes report) names) output_
    /\ Forall (canonical_decision names) (report_decisions report)
    /\ tests_ <= u32_max.

Lemma canonical_report_accepted report input_ output_ tests_ :
  canonical_report report input_ output_ tests_ ->
  raises meter_error (validate_report_shape report input_ output_ tests_ tests_).
Proof.
  intros (names & Hnames & Hlen & Hrows & Hds & Htests) s e. unfold validate_report_shape. rewrite Hnames. cbn [pure_result].
  assert (Hpure : forall {A B} (r : result OptimizeError A) a (k : A -> pass B),
    r = Ok a -> forall s, (pure_result r ≫= k) s = k a s) by (by intros A B r a k -> s').
  erewrite Hpure by done. erewrite Hpure by (by rewrite Hlen, Nat.eqb_refl).
  erewrite Hpure by (by rewrite Z.eqb_refl).
  erewrite Hpure by (unfold try_u32; by rewrite (proj2 (Z.leb_le _ _) Htests)).
  destruct (check_rows _ _ _ _ _ s Hrows) as [Hlast Hthrow].
  unfold mbind at 1, stateT_bind. rewrite may_throw_bind. intros [H|([p s1] & Hp%Hlast & H)]; [by apply Hthrow|].
  subst p. erewrite Hpure in H by (by rewrite Z.eqb_refl). revert H. by apply check_decisions.
Qed.

(** ** The rows the pipeline writes *)

Lemma statistics_canonical pass_ limits profile it changed before after entries s st s' :
  1 <= it <= maximum_iterations profile -> (changed = false -> before = after) ->
  may_returnS (pass_statistics pass_ limits it changed before after entries) s st s' ->
  noncanonical_statistics profile entries before st pass_ = false /\ instructions_after st = after.
Proof.
  intros Hit Hch (name & s1 & ->%report_text_returns & H)%may_returnS_bind. apply may_returnS_mret in H as [<- _].
  split; [|done]. unfold noncanonical_statistics. simpl.
  rewrite bool_decide_eq_true_2, (proj2 (Z.eqb_neq it 0)), (proj2 (Z.ltb_ge _ _)), !Z.eqb_refl by (done || lia). simpl.
  destruct changed; [done|]. by rewrite Hch, Z.eqb_refl.
Qed.

Lemma shrinking_pass_facts pass_ run_pass w tests profile limits before entries s w' current st s' :
  1 <= maximum_iterations profile -> before = total_instructions (functions w) ->
  (forall s fs removed s', may_returnS run_pass s (fs, removed) s' ->
     total_instructions fs <= before /\ (removed = false -> fs = functions w)) ->
  may_returnS (shrinking_pass pass_ run_pass w tests profile limits before entries) s (w', current, st) s' ->
  current = total_instructions (functions w') /\ current <= before
  /\ noncanonical_statistics profile entries before st pass_ = false /\ instructions_after st = current.
Proof.
  intros Hmax -> Hrun. unfold shrinking_pass. intros ([fs removed] & s1 & [Hle Hsame]%Hrun & H)%may_returnS_bind.
  apply may_returnS_bind in H as (n & s2 & ->%instruction_count_returns & H).
  apply may_returnS_bind in H as (_ & s3 & _ & H). apply may_returnS_bind in H as (t & s4 & Ht & H).
  apply may_returnS_mret in H as [[= <- <- <-] _]. simpl in *.
  apply (statistics_canonical _ _ profile) in Ht as [Hc Ha]; [|lia|intros Hr; by rewrite (Hsame Hr)]. done.
Qed.

Section rows.
  Context (profile : OptimizationProfile) (limits : OptimizationLimits) (names : list string).
  Context (Hnames : pipeline_passes (profile_level profile) = Ok names).

Lemma names_of_level :
    names = [CONSTANT_FOLD_PASS; CONTROL_SIMPLIFY_PASS; UNREACHABLE_PASS]
      ++ (if is_aggressive (profile_level profile) then [PROVEN_TRUE_CHECK_PASS] else []) ++ [DEAD_PURE_PASS].
  Proof. destruct (profile_level profile); simpl in Hnames; by simplify_eq/=. Qed.

Lemma records_shrinking pass_ run_pass w tests before entries :
    records names run_pass -> records names (shrinking_pass pass_ run_pass w tests profile limits before entries).
  Proof.
    intros Hrun. unfold shrinking_pass. apply records_bind; [done|intros [fs removed]]. apply records_silent. silent.
  Qed.

Lemma run_passes_records w tests current entries : records names (run_passes w tests profile limits current entries).
  Proof.
    assert (Hin : forall p, p ∈ [CONSTANT_FOLD_PASS; CONTROL_SIMPLIFY_PASS; UNREACHABLE_PASS] -> p ∈ names).
    { intros p Hp. rewrite names_of_level. by apply elem_of_app; left. }
    assert (Hdead : DEAD_PURE_PASS ∈ names).
    { rewrite names_of_level. do 2 (apply elem_of_app; right). by left. }
    unfold run_passes. apply records_bind; [apply records_silent; silent|intros _].
    apply records_bind; [apply records_fold, Hin; in_list|intros [fs1 [folded it]]].
    apply records_bind; [apply records_silent; silent|intros _]. apply records_bind; [apply records_silent; silent|intros st1].
    apply records_bind; [apply records_control, Hin; in_list|intros [fs2 simple]].
    apply records_bind; [apply records_silent; silent|intros _]. apply records_bind; [apply records_silent; silent|intros st2].
    apply records_bind; [apply records_shrinking, records_unreachable, Hin; in_list|intros [[w3 n3] st3]].
    apply records_bind; [|intros [[w4 n4] st4]].
    - destruct (is_aggressive (profile_level profile)) eqn:Ha; [|apply records_silent; silent].
      apply records_bind; [|intros [[? ?] ?]; apply records_silent; silent].
      apply records_shrinking, records_checks. rewrite names_of_level, Ha. apply elem_of_app; right. by left.
    - apply records_bind; [by apply records_shrinking, records_dead|intros [[w5 n5] st5]]. apply records_silent. silent.
  Qed.

Lemma run_passes_rows w tests entries s w' statistics s' :
    types_ok (types w) -> Forall sound_function (functions w) -> 1 <= maximum_iterations profile ->
    may_returnS (run_passes w tests profile limits (total_instructions (functions w)) entries) s (w', statistics) s' ->
    length statistics = length names
    /\ chained profile entries (total_instructions (functions w)) (zip statistics names) (total_instructions (functions w'))
    /\ total_instructions (functions w') <= total_instructions (functions w).
  Proof.
    intros Htypes Hsound Hmax. unfold run_passes. intros (_ & s1 & _ & H)%may_returnS_bind.
    apply may_returnS_bind in H as ([fs1 [folded it]] & s2 & Hfold & H).
    pose proof (fold_keeps_count _ _ _ _ _ _ _ _ Htypes Hsound Hfold) as Hc1. apply fold_iterations in Hfold as Hit; [|done].
    apply may_returnS_bind in H as (_ & s3 & _ & H). apply may_returnS_bind in H as (st1 & s4 & Hst1 & H).
    apply may_returnS_bind in H as ([fs2 simple] & s5 & Hc2%control_keeps_count & H). simpl in Hc2.
    apply may_returnS_bind in H as (_ & s6 & _ & H). apply may_returnS_bind in H as (st2 & s7 & Hst2 & H).
    apply (statistics_canonical _ _ profile) in Hst1 as [Hr1 Ha1]; [|done..].
    apply (statistics_canonical _ _ profile) in Hst2 as [Hr2 Ha2]; [|done || lia..].
    apply may_returnS_bind in H as ([[w3 n3] st3] & s8 & H3 & H).
    apply shrinking_pass_facts in H3 as (-> & Hle3 & Hr3 & Ha3);
      [|done|simpl; congruence| intros t fs removed t' Hp; rewrite <- Hc1, <- Hc2;
        apply map_accum_shrinks in Hp as [? Hp]; [split; [done|by intros [? _]%Hp]|intros; by eapply eliminate_function_shrinks]].
    apply may_returnS_bind in H as ([[w4 n4] st4] & s9 & H4 & H).
    apply may_returnS_bind in H as ([[w5 n5] st5] & s10 & H5 & H). apply may_returnS_mret in H as [[= <- <-] _].
    assert (H4' : n4 = total_instructions (functions w4) /\ n4 <= total_instructions (functions w3)
      /\ length st4 = length (if is_aggressive (profile_level profile) then [PROVEN_TRUE_CHECK_PASS] else [])
      /\ forall rows last, chained profile entries n4 rows last ->
           chained profile entries (total_instructions (functions w3))
             (zip st4 (if is_aggressive (profile_level profile) then [PROVEN_TRUE_CHECK_PASS] else []) ++ rows) last).
    { destruct (is_aggressive (profile_level profile)).
      - apply may_returnS_bind in H4 as ([[w4' n4'] st4'] & s11 & H4 & H4').
        apply may_returnS_mret in H4' as [[= <- <- <-] _].
        apply shrinking_pass_facts in H4 as (-> & Hle4 & Hr4 & Ha4); [|done..|
          intros t fs removed t' Hp; apply map_accum_shrinks in Hp as [? Hp];
            [split; [done|by intros [? _]%Hp]|intros; by eapply remove_checks_shrinks]].
        split_and!; [done..|]. intros rows last Hrows. simpl. by rewrite Ha4.
      - apply may_returnS_mret in H4 as [[= <- <- <-] _]. done. }
    destruct H4' as (-> & Hle4 & Hlen4 & Hrows4).
    apply shrinking_pass_facts in H5 as (-> & Hle5 & Hr5 & Ha5); [|done..|
      intros t fs removed t' Hp; apply map_accum_shrinks in Hp as [? Hp];
        [split; [done|by intros [? _]%Hp]|intros; by eapply remove_dead_shrinks]].
    rewrite names_of_level. split_and!; [cbn [app length]; rewrite !length_app, Hlen4; done| |lia].
    cbn [app zip zip_with chained]. rewrite Ha1, Ha2, Ha3. split_and!; [done..|].
    rewrite zip_with_app by done. apply Hrows4. simpl. by rewrite Ha5.
  Qed.
End rows.

Lemma pipeline_report_facts w profile limits resources output_resources s w' report s' :
  types_ok (types w) -> Forall sound_function (functions w) ->
  1 <= maximum_iterations profile -> 0 <= maximum_ir_growth_percent profile <= 100 ->
  counts_of resources = module_counts w -> res_instructions resources <= 256000000 ->
  counts_of output_resources = module_counts w' ->
  may_returnS (execute_pipeline w profile limits resources) s (w', report) s' ->
  total_instructions (functions w') <= total_instructions (functions w)
  /\ report_profile report = profile
  /\ enforce_growth profile resources output_resources = Ok tt
  /\ res_tests output_resources = res_tests resources
  /\ canonical_report report (res_instructions resources) (res_instructions output_resources) (res_tests resources).
Proof.
  intros Htypes Hsound Hmax Hgrowth Hres Hlimit Hout. unfold execute_pipeline. intros (names & s1 & Hn & H)%may_returnS_bind.
  apply may_returnS_liftS in Hn as [Hnames%may_return_lift _].
  apply may_returnS_bind in H as (_ & s2 & _ & H). apply may_returnS_bind in H as (_ & s3 & _ & H).
  apply may_returnS_bind in H as (sink & s4 & Hsink & H). apply may_returnS_bind in H as (u5 & s5 & Hset & H).
  apply may_returnS_bind in H as (entries & s6 & He & H). apply may_returnS_bind in H as ([w1 st] & s7 & Hr & H).
  apply may_returnS_bind in H as (ds & s8 & Hds & H). apply may_returnS_mret in H as [[= <- <-] _].
  assert (Hi : res_instructions resources = total_instructions (functions w) /\ res_tests resources = len (tests w)) by (split; [exact (f_equal c_instructions Hres)|exact (f_equal c_tests Hres)]).
  assert (Ho : res_instructions output_resources = total_instructions (functions w1) /\ res_tests output_resources = len (tests w)) by (split; [exact (f_equal c_instructions Hout)|exact (f_equal c_tests Hout)]).
  destruct Hi as [Hi Ht], Ho as [Ho Ho']. rewrite Hi in Hr.
  apply may_returnS_liftS in He as [He%may_return_lift%ok_or_Ok Hs6]. apply try_u32_Some in He as [Hfits ->].
  destruct (run_passes_rows profile limits names Hnames (with_tests w []) (tests w) _ _ _ _ _ Htypes Hsound Hmax Hr) as (Hlen & Hrows & Hle).
  assert (Hcanon : Forall (canonical_decision names) (sink_decisions (decisions s7))).
  { eapply (run_passes_records profile limits names Hnames); [exact Hr|]. injection Hset as _ Hs5. rewrite Hs6, <- Hs5. simpl.
    apply may_returnS_liftS in Hsink as [Hsink%may_return_lift _]. unfold DecisionSink_new in Hsink.
    apply result_bind_Ok in Hsink as (ps & _ & Hsink). apply result_bind_Ok in Hsink as (rb & _ & Hsink).
    apply result_bind_Ok in Hsink as ([] & _ & [= <-]). constructor. }
  injection Hds as <- <-. split_and!; [done|done| |congruence|].
  - unfold enforce_growth. rewrite Hi in Hlimit |- *. rewrite Ho.
    pose proof (len_nonneg (concat (map (fun f => numbers (blocks f)) (functions w)))) as Hpos.
    assert (0 <= total_instructions (functions w)).
    { clear. unfold total_instructions. induction (functions w) as [|f fs IH]; [done|]. rewrite sum_of_cons, function_instructions_numbers.
      pose proof (len_nonneg (numbers (blocks f))). lia. }
    assert (Hm : checked_mul 64 (total_instructions (functions w)) (maximum_ir_growth_percent profile)
      = Some (total_instructions (functions w) * maximum_ir_growth_percent profile)).
    { apply checked_mul_Some. split; [nia|done]. }
    rewrite Hm. cbn. set (p := total_instructions (functions w) * maximum_ir_growth_percent profile / 100).
    assert (0 <= p <= total_instructions (functions w)).
    { split; [apply Z.div_pos; nia|]. apply Z.div_le_upper_bound; nia. }
    assert (Ha : checked_add 64 (total_instructions (functions w)) p = Some (total_instructions (functions w) + p)).
    { apply checked_add_Some. split; [lia|done]. }
    rewrite Ha. cbn. unfold ensure_limit. rewrite (proj2 (Z.ltb_ge _ _)); [done|]. simpl in Hle. lia.
  - exists names. simpl. split_and!; [done|done| |done|].
    + rewrite Hi, Ho, Ht. exact Hrows.
    + by rewrite Ht.
Qed.

(** C16: The optimiser never refuses its own report. Whatever the environment
    answers, when the pipeline returns for a sound module, the module has not
    grown, growth is within the profile's allowance, and the check of the
    report's shape can only be cancelled or run out of work: the report has one
    true row for every canonical pass, each starting at the count the last one
    ended with, and only canonical decisions. *)
Theorem pipeline_report_accepted w profile limits resources output_resources s w' report s' :
  types_ok (types w) -> Forall sound_function (functions w) ->
  1 <= maximum_iterations profile -> 0 <= maximum_ir_growth_percent profile <= 100 ->
  counts_of resources = module_counts w -> res_instructions resources <= 256000000 ->
  counts_of output_resources = module_counts w' ->
  may_returnS (execute_pipeline w profile limits resources) s (w', report) s' ->
  total_instructions (functions w') <= total_instructions (functions w)
  /\ report_profile report = profile
  /\ enforce_growth profile resources output_resources = Ok tt
  /\ raises meter_error (validate_report_shape report (res_instructions resources)
       (res_instructions output_resources) (res_tests resources) (res_tests output_resources)).
Proof.
  intros Htypes Hsound Hmax Hgrowth Hres Hlimit Hout H.
  destruct (pipeline_report_facts _ _ _ _ _ _ _ _ _ Htypes Hsound Hmax Hgrowth Hres Hlimit Hout H)
    as (Hle & Hp & Hg & Ht & Hc).
  rewrite Ht. split_and!; [done..|by apply canonical_report_accepted].
Qed.
