(* ===== verification/Optimize.v ===== *)
(** The entry points of the optimiser in [src/crates/wrela-flow-opt/src/lib.rs]
    and [development.rs]: level [None], which hands its validated input on and
    seals it, and the transforming levels up to the final validation of the
    module they produce. *)

From stdpp Require Import base numbers list option gmap strings.
From S2P Require Import Prelude Bytes Interrupt BuildModel FlowWir ScalarFold Optimizer FlowOperands FoldPass ControlPass CompactPass DeadPass FlowModule ModelEqual ModelScan Pipeline.

#[local] Open Scope Z_scope.

(** The input of a request is a validated module; [OptimizedFlowWir] pairs a
    validated module with the report on it. *)
Record OptimizationRequest := {
  input : FlowWir;
  request_profile : OptimizationProfile;
  request_limits : OptimizationLimits;
}.
Record OptimizedFlowWir := { optimized_wir : FlowWir; optimized_report : OptimizationReport }.

(** [WorkMeter::new]; the sink is put in place by the pipeline. *)
Definition new_session (limits : OptimizationLimits) : Session := {|
  work := {| used := 0; work_limit := limit_work limits |};
  decisions := {| sink_decisions := []; sink_limits := limits; sink_report_bytes := 0 |} |}.

Definition with_meter {A} (limits : OptimizationLimits) (m : pass A) : prog OptimizeError A :=
  '(a, _) ← m (new_session limits); mret a.

(** A comparison, run while a meter is held. *)
Definition compare (v : verdict) : pass bool := liftS v.

Definition empty_report (profile : OptimizationProfile) : OptimizationReport :=
  {| report_profile := profile; passes := []; report_decisions := [] |}.

(** ** Level [None] *)

Definition seal_preserved_input (request : OptimizationRequest) : prog OptimizeError OptimizedFlowWir :=
  let limits := request_limits request in
  _ ← check_cancelled;
  _ ← lift (validate_canonical_profile (request_profile request));
  _ ← lift (OptimizationLimits_validate limits);
  let report := empty_report (request_profile request) in
  with_meter limits (
    _ ← checkpoint;
    _ ← scan_model limits (input request);
    _ ← checkpoint;
    _ ← scan_report limits report;
    _ ← checkpoint;
    mret {| optimized_wir := input request; optimized_report := report |}).

Definition validate_none_report (report : OptimizationReport) (profile : OptimizationProfile) : pass unit :=
  matches ← compare (optimization_profile_equal (report_profile report) profile);
  if negb matches then fails (InvalidReport "optimization profile does not match request") else
  if bool_decide (passes report <> []) || bool_decide (report_decisions report <> [])
  then fails (InvalidReport "optimization level `none` requires an empty canonical pass report") else mret tt.

(** [seal] at level [None]. *)
Definition seal_none (request : OptimizationRequest) (wir : FlowWir) (report : OptimizationReport)
    : prog OptimizeError OptimizedFlowWir :=
  let limits := request_limits request in
  _ ← check_cancelled;
  _ ← lift (validate_canonical_profile (request_profile request));
  _ ← lift (OptimizationLimits_validate limits);
  with_meter limits (
    _ ← checkpoint;
    input_resources ← scan_model limits (input request);
    _ ← checkpoint;
    _ ← scan_model limits wir;
    _ ← checkpoint;
    report_scan_work ← scan_report limits report;
    _ ← charge report_scan_work;
    _ ← validate_none_report report (request_profile request);
    _ ← charge (scan_work input_resources);
    _ ← checkpoint;
    equal ← compare (flow_wir_equal (input request) wir);
    if negb equal then fails (InvalidReport "optimization level `none` did not preserve FlowWir exactly") else
    _ ← checkpoint;
    mret {| optimized_wir := input request; optimized_report := report |}).

(** ** The transforming levels *)

Definition validate_transform_profile (profile : OptimizationProfile) : result OptimizeError unit :=
  _ ← validate_canonical_profile profile;
  guard_err (bool_decide (profile_level profile = OptNone)) (UnsupportedOptimizationLevel (profile_level profile)).

(** [development::optimize] up to the validation of its output: scan, run the
    pipeline, scan again, and check growth and report. *)
Definition transform (request : OptimizationRequest) : prog OptimizeError (FlowWir * OptimizationReport) :=
  let limits := request_limits request in
  _ ← check_cancelled;
  _ ← lift (validate_transform_profile (request_profile request));
  _ ← lift (OptimizationLimits_validate limits);
  with_meter limits (
    _ ← checkpoint;
    input_resources ← scan_model limits (input request);
    _ ← checkpoint;
    '(output, report) ← execute_pipeline (input request) (request_profile request) limits input_resources;
    output_resources ← scan_model limits output;
    _ ← pure_result (enforce_growth (report_profile report) input_resources output_resources);
    _ ← scan_report limits report;
    _ ← validate_report_shape report (res_instructions input_resources) (res_instructions output_resources)
          (res_tests input_resources) (res_tests output_resources);
    _ ← checkpoint;
    mret (output, report)).
