(* ===== verification/OptimizeSound.v ===== *)
(** The entry points of the optimiser: what level [None] seals is its input,
    and what the transforming levels produce simulates theirs. *)

From stdpp Require Import base numbers list option gmap strings.
From S2P Require Import Prelude Bytes Interrupt BuildModel FlowWir ScalarFold Optimizer FlowOperands FlowSemantics FoldPass FoldSound FoldLoop RenameSound DeadSound FlowModule ModelEqual ModelScan ScanSound Pipeline PipelineSound ReportSound Optimize.

#[local] Open Scope Z_scope.

(** ** Errors of the scans *)

(** Interrupted, or over a limit. *)
Definition resource_error (e : OptimizeError) : Prop := e = Cancelled \/ exists resource limit, e = ResourceLimit resource limit.

Definition limited {A} (m : pass A) : Prop := raises resource_error m.
Definition metered {A} (m : meter A) : Prop := forall r, limited (m r).

Create HintDb limited discriminated.

Lemma limited_bind {A B} (m : pass A) (f : A -> pass B) : limited m -> (forall a, limited (f a)) -> limited (m ≫= f).
Proof. apply raises_bind. Qed.
Lemma limited_mret {A} (a : A) : limited (mret a).
Proof. apply raises_mret. Qed.
Lemma limited_checkpoint : limited checkpoint.
Proof. intros s e [->|[l ->]]%checkpoint_meter; [by left|right; eauto]. Qed.
Lemma limited_pure {A} (r : result OptimizeError A) : (forall e, r = Err e -> resource_error e) -> limited (pure_result r).
Proof. intros H. apply raises_liftS. intros e He%may_throw_lift. auto. Qed.

Lemma limited_ok_or {A} (o : option A) resource limit : limited (pure_result (ok_or o (ResourceLimit resource limit))).
Proof. apply limited_pure. intros e. destruct o; [done|]. intros [= <-]. right. eauto. Qed.
Lemma limited_ensure value resource limit : limited (pure_result (ensure_limit value resource limit)).
Proof. apply limited_pure. intros e ->%ensure_limit_raises. right. eauto. Qed.

Lemma add_bounded_error total amount resource limit e :
  add_bounded total amount resource limit = Err e -> e = ResourceLimit resource limit.
Proof.
  unfold add_bounded. intros [H|(n & _ & H)]%result_bind_Err.
  - destruct (checked_add _ _ _); [done|]. by injection H as <-.
  - apply result_bind_Err in H as [H|(u & _ & H)]; [by eapply ensure_limit_raises|done].
Qed.
Lemma limited_add_bounded total amount resource limit : limited (pure_result (add_bounded total amount resource limit)).
Proof. apply limited_pure. intros e ->%add_bounded_error. right. eauto. Qed.
Lemma limited_charge n : limited (charge n).
Proof.
  intros s e. unfold charge. rewrite may_throw_bind, may_throw_lift. intros [->%add_bounded_error|(a & _ & [])].
  right. eauto.
Qed.
Lemma limited_used : limited used_work.
Proof. by intros s e. Qed.
#[local] Hint Resolve limited_mret limited_checkpoint limited_ok_or limited_ensure limited_add_bounded limited_charge
  limited_used : limited.

Lemma limited_fold_each {X T} (step : T -> X -> pass T) xs t : (forall t x, limited (step t x)) -> limited (fold_each step xs t).
Proof. apply fold_each_raises. Qed.

Ltac limited :=
  intros; repeat lazymatch goal with
    | |- limited (_ ≫= _) => apply limited_bind; [|intros ?]
    | |- limited (fold_each _ _ _) => apply limited_fold_each; intros ? ?
    | |- limited (match ?x with _ => _ end) => destruct x
    | |- _ => solve [eauto with limited nocore]
    end.

Lemma limited_report_payload limits total length : limited (add_report_payload limits total length).
Proof. unfold add_report_payload. limited. Qed.
#[local] Hint Resolve limited_report_payload : limited.
Lemma limited_scan_report limits report : limited (scan_report limits report).
Proof. unfold scan_report, scan_statistics, scan_decision. limited. Qed.
#[local] Hint Resolve limited_scan_report : limited.

Create HintDb metered discriminated.

Lemma metered_bind {A B} (m : meter A) (f : A -> meter B) : metered m -> (forall a, metered (f a)) -> metered (m ≫= f).
Proof. intros Hm Hf r. unfold mbind, stateT_bind at 1. apply limited_bind; [apply Hm|]. intros [a r']. apply Hf. Qed.
Lemma metered_mret {A} (a : A) : metered (mret a).
Proof. intros r. apply limited_mret. Qed.
Lemma metered_on_work {A} (m : pass A) : limited m -> metered (on_work m).
Proof. intros Hm r. apply limited_bind; [done|]. intros a. apply limited_mret. Qed.
Lemma metered_update g : (forall r, limited (pure_result (g r))) -> metered (update g).
Proof. intros Hg r. apply limited_bind; [apply Hg|]. intros r'. apply limited_mret. Qed.
Lemma metered_each {X} (step : X -> meter unit) xs : (forall x, metered (step x)) -> metered (each step xs).
Proof. intros Hs. induction xs as [|x xs IH]; cbn [each]; [apply metered_mret|]. by apply metered_bind. Qed.
#[local] Hint Resolve metered_mret : metered.

(** An update that only adds under a limit or checks one. *)
Lemma limited_update_add {A B} (r : result OptimizeError A) (k : A -> result OptimizeError B) :
  limited (pure_result r) -> (forall a, exists b, k a = Ok b) -> limited (pure_result (r ≫= k)).
Proof.
  intros Hr Hk. apply limited_pure. intros e [He|(a & _ & He)]%result_bind_Err.
  - subst r. eapply (Hr {| work := {| used := 0; work_limit := 0 |};
      decisions := {| sink_decisions := []; sink_limits := OptimizationLimits_standard; sink_report_bytes := 0 |} |}). done.
  - destruct (Hk a) as [b Hb]. congruence.
Qed.

Ltac metered :=
  intros; repeat lazymatch goal with
    | |- metered (on_work _) => apply metered_on_work; solve [limited]
    | |- metered (update _) => apply metered_update; intros ?; apply limited_update_add; [solve [limited]|solve [eauto]]
    | |- metered (_ ≫= _) => apply metered_bind; [|intros ?]
    | |- metered (each _ _) => apply metered_each; intros ?
    | |- metered (match ?x with _ => _ end) => destruct x
    | |- _ => solve [eauto with metered nocore]
    end.

Section scan.
  Context (limits : OptimizationLimits).

Lemma metered_visit : metered (visit limits).
  Proof. unfold visit, add_scan_work. metered. Qed.
Lemma metered_collection {X} (xs : list X) : metered (collection limits xs).
  Proof. unfold collection, add_edges, add_scan_work. metered. Qed.
Lemma metered_payload bytes : metered (payload limits bytes).
  Proof. unfold payload, add_payload, add_scan_work. metered. Qed.
#[local] Hint Resolve metered_visit metered_collection metered_payload : metered.
Lemma metered_immediate i : metered (scan_immediate limits i).
  Proof. unfold scan_immediate. metered. Qed.
#[local] Hint Resolve metered_immediate : metered.
Lemma metered_operation op : metered (scan_operation limits op).
  Proof. unfold scan_operation, scan_part. metered. Qed.
Lemma metered_terminator t : metered (scan_terminator limits t).
  Proof. unfold scan_terminator, scan_case. metered. Qed.
Lemma metered_type ty : metered (scan_type limits ty).
  Proof. unfold scan_type, optional_payload, scan_variant. metered. Qed.
#[local] Hint Resolve metered_operation metered_terminator metered_type : metered.
Lemma metered_function f : metered (scan_function limits f).
  Proof.
    unfold scan_function, scan_value, optional_payload, scan_block, scan_instruction, add_values, add_blocks,
      add_instructions. metered.
  Qed.
Lemma metered_group_tests tests bytes limit : metered (scan_group_tests limits tests bytes limit).
  Proof. revert bytes. induction tests; intros bytes; cbn [scan_group_tests]; unfold scan_compiled_test_group_text; metered. Qed.
#[local] Hint Resolve metered_function metered_group_tests : metered.
Lemma metered_group g : metered (scan_compiled_test_group limits g).
  Proof. unfold scan_compiled_test_group, scan_compiled_test_group_text. metered. Qed.
#[local] Hint Resolve metered_group : metered.

Lemma limited_scan_model w : limited (scan_model limits w).
  Proof.
    apply limited_bind; [|intros [u r]; apply limited_mret]. enough (H : metered (scan_module limits w)) by apply H.
    unfold scan_module, scan_global, scan_actor, scan_task, scan_device, scan_pool, scan_region, scan_proof, scan_test,
      named, meter_functions, meter_proofs, meter_tests. metered.
  Qed.
End scan.
#[local] Hint Resolve limited_scan_model : limited.

(** ** Comparisons *)

Lemma interruptible_returns {E A} (P : E -> Prop) (m : prog E A) a : interruptible P m -> may_return m a -> quiet m = Ok a.
Proof.
  induction m as [b|e|q k IH]; [by intros _ ->|done|]. intros [(e & Hk & _) Hm] ([] & H); [by rewrite Hk in H|].
  by apply IH.
Qed.

Lemma interruptible_throws {E A} (P : E -> Prop) (m : prog E A) e : interruptible P m -> may_throw m e -> quiet m = Err e \/ P e.
Proof.
  induction m as [b|e'|q k IH]; [done|by intros _ ->; left|]. intros [(e' & Hk & He) Hm] ([] & H).
  - rewrite Hk in H. simpl in H. subst e'. by right.
  - by apply IH.
Qed.

Lemma compare_returns v P s b s' : decides v P -> may_returnS (compare v) s b s' -> s' = s /\ (b = true <-> P).
Proof.
  intros [(b' & Hb & HP) Hi] [H ->]%may_returnS_liftS. split; [done|].
  apply (interruptible_returns _ _ _ Hi) in H. rewrite Hb in H. by injection H as <-.
Qed.

Lemma compare_limited v P : decides v P -> limited (compare v).
Proof.
  intros [(b' & Hb & HP) Hi]. apply raises_liftS. intros e [H|<-]%(interruptible_throws _ _ _ Hi); [congruence|by left].
Qed.

(** ** Level [None] *)

Lemma with_meter_returns {A} limits (m : pass A) a :
  may_return (with_meter limits m) a -> exists s', may_returnS m (new_session limits) a s'.
Proof. intros ([b s'] & H & H')%may_return_bind. simpl in H'. subst b. by exists s'. Qed.

Lemma validate_none_returns report profile s u s' :
  may_returnS (validate_none_report report profile) s u s' -> report = empty_report profile.
Proof.
  unfold validate_none_report. intros (same_ & s1 & [-> Hs]%(compare_returns _ _ _ _ _ (optimization_profile_equal_exact _ _)) & H)%may_returnS_bind.
  destruct same_; cbn [negb] in H; [|by apply may_returnS_liftS in H as [[] _]].
  destruct (bool_decide (passes report <> []) || _) eqn:Hb; [by apply may_returnS_liftS in H as [[] _]|].
  apply orb_false_iff in Hb as [Hp%bool_decide_eq_false Hd%bool_decide_eq_false].
  destruct report as [p ps ds]. unfold empty_report. simpl in *. f_equal; [by apply Hs|by apply dec_stable..].
Qed.

(** A comparison that holds goes on. *)
Lemma limited_compare {B} v (P : Prop) (f : bool -> pass B) :
  decides v P -> P -> limited (f true) -> limited (compare v ≫= f).
Proof.
  intros Hv HP Hf s e. unfold mbind at 1, stateT_bind. rewrite may_throw_bind. intros [H|([equal s1] & Hr & H)].
  - revert H. by eapply compare_limited.
  - apply (compare_returns _ _ _ _ _ Hv) in Hr as [-> Hr]. rewrite (proj2 Hr HP) in H. by apply Hf in H.
Qed.

Lemma limited_validate_none profile : limited (validate_none_report (empty_report profile) profile).
Proof. eapply limited_compare; [apply optimization_profile_equal_exact|done|]. apply limited_mret. Qed.

(** C13: at level [None] the optimiser hands out its input, and nothing else.
    Whatever the environment answers, [seal] succeeds only with the validated
    input itself and an empty report on the requested profile, for an empty report
    and a candidate that is the input in every field but two that [flow_wir_equal]
    does not look at: the schedulers of the module and the assertions of its
    compiled tests ([compared] blanks these two). The second half is as exact, and
    says less than the documentation of [seal], which speaks of a candidate proved
    identical: a candidate that differs in these two fields alone is let through.
    It is refused, like the input itself, only by an interruption, a limit of
    resources, or an invalid profile or invalid limits. What is handed on is the
    input in this case too, so no difference gets past [seal]. *)
Theorem seal_none_exact request candidate report env k :
  (forall o, fst (Interrupt.run env k (seal_none request candidate report)) = Ok o ->
     o = {| optimized_wir := input request; optimized_report := empty_report (request_profile request) |}
     /\ report = empty_report (request_profile request) /\ compared (input request) = compared candidate)
  /\ (compared (input request) = compared candidate -> report = empty_report (request_profile request) ->
      forall e, fst (Interrupt.run env k (seal_none request candidate report)) = Err e ->
        resource_error e \/ validate_canonical_profile (request_profile request) = Err e
        \/ OptimizationLimits_validate (request_limits request) = Err e).
Proof.
  split.
  - intros o (_ & _ & H)%run_may_return%may_return_bind. do 2 apply may_return_bind in H as (_ & _ & H).
    apply with_meter_returns in H as (s' & H). do 6 apply may_returnS_bind in H as (? & ? & _ & H).
    apply may_returnS_bind in H as (_ & ? & _ & H). apply may_returnS_bind in H as (_ & ? & ->%validate_none_returns & H).
    do 2 apply may_returnS_bind in H as (_ & ? & _ & H).
    apply may_returnS_bind in H as (equal & ? & [-> He]%(compare_returns _ _ _ _ _ (flow_wir_equal_compares _ _)) & H).
    destruct equal; cbn [negb] in H; [|by apply may_returnS_liftS in H as [[] _]].
    apply may_returnS_bind in H as (_ & ? & _ & H). apply may_returnS_mret in H as [<- _]. by rewrite <- He.
  - intros Hc -> e He%run_may_throw. unfold seal_none in He. rewrite may_throw_bind in He.
    destruct He as [[[] He]|(_ & _ & He)]; [simpl in He; subst e; by left; left|done|].
    rewrite may_throw_bind, may_throw_lift in He. destruct He as [He|(_ & _ & He)]; [by right; left|].
    rewrite may_throw_bind, may_throw_lift in He. destruct He as [He|(_ & _ & He)]; [by right; right|]. left.
    unfold with_meter in He. rewrite may_throw_bind in He. destruct He as [He|([? ?] & _ & [])]. revert He.
    match goal with |- may_throw (?m _) _ -> _ => enough (Hl : limited m) by apply Hl end.
    do 7 (apply limited_bind; [solve [eauto with limited nocore]|intros ?]).
    apply limited_bind; [apply limited_validate_none|intros ?].
    do 2 (apply limited_bind; [solve [eauto with limited nocore]|intros ?]).
    eapply limited_compare; [apply flow_wir_equal_compares|done|]. cbn [negb].
    apply limited_bind; [apply limited_checkpoint|intros ?; apply limited_mret].
Qed.

(** ** The transforming levels *)

Lemma limits_facts limits :
  OptimizationLimits_validate limits = Ok tt -> limit_instructions limits <= 256000000.
Proof.
  unfold OptimizationLimits_validate. intros H%guard_err_Ok. split_andb. bool_to_prop. simpl in *. lia.
Qed.

Lemma profile_facts profile :
  validate_transform_profile profile = Ok tt ->
  1 <= maximum_iterations profile /\ 0 <= maximum_ir_growth_percent profile <= 100.
Proof.
  unfold validate_transform_profile, validate_canonical_profile. intros ([] & H & _)%result_bind_Ok.
  apply result_bind_Ok in H as ([] & _ & H). apply result_bind_Ok in H as ([] & _ & H).
  destruct (level_parameters (profile_level profile)) as [it growth] eqn:El. apply guard_err_Ok in H. split_andb. bool_to_prop.
  destruct (profile_level profile); simpl in El; injection El as <- <-; lia.
Qed.

