(* ===== verification/FlowExample.v ===== *)
(** The passes of the optimiser run on two functions ([a + b] and [a < b] for two
    known bytes, and a branch on a known condition); the whole optimiser run on a
    module with a check on a known condition and a dead operation; the validation
    of functions run on a join of two branches, and on a function that uses a value
    where its definition does not dominate. *)

From stdpp Require Import base numbers list option gmap strings.
From S2P Require Import Prelude Bytes BuildModel FlowWir ScalarFold Optimizer FlowOperands FlowSemantics Interrupt FoldPass FoldSound FoldLoop ControlPass CompactPass UnreachableSound DeadPass RenameSound CompactSound DeadSound FlowModule ModelEqual ModelScan ScanSound Pipeline PipelineSound ReportSound Optimize OptimizeSound Source FlowContext FlowSsa FlowMeter FlowAccept Dominators FlowTree FlowDominance FlowChecks FlowValidate FlowTotal FlowValid FlowSafe.

#[local] Open Scope Z_scope.

Definition sample_types : list FlowType :=
  [{| type_id := 0%N; kind := KScalar TBool; type_name := None; copyable := true; strict_linear := false |};
   {| type_id := 1%N; kind := KScalar (TInteger false 8); type_name := None; copyable := true;
      strict_linear := false |}].

Definition sample_value (id ty : N) : Value :=
  {| value_id := id; value_ty := ty; value_source_name := None; value_source := None |}.
Definition sample_instruction (id result : N) (op : FlowOperation ValueId) : Instruction :=
  {| instruction_id := id; results := [result]; operation := op; instruction_source := None |}.

Definition sample_function : FlowFunction := {|
  function_id := 0%N; function_name := ascii "sum"; function_origin := SourceSemantic 0;
  role := RoleOrdinary; color := ColorSync; parameters := []; result_types := [1%N; 0%N];
  values := [sample_value 0 1; sample_value 1 1; sample_value 2 1; sample_value 3 0];
  blocks := [{| block_id := 0%N; block_parameters := [];
    instructions :=
      [sample_instruction 0 0 (ImmediateOp (ImmInteger 8 [Byte.xc8]));
       sample_instruction 1 1 (ImmediateOp (ImmInteger 8 [Byte.x32]));
       sample_instruction 2 2 (Binary AddChecked 0%N 1%N);
       sample_instruction 3 3 (Binary Less 0%N 1%N)];
    terminator := Return [2%N; 3%N]; block_source := None |}];
  entry := 0%N; stack_bound := 0; frame_bound := 0; function_proofs := []; function_source := None |}.

Definition sample_profile : OptimizationProfile := {|
  profile_level := OptDevelopment;
  pipeline := {| pipeline_name := CANONICAL_PIPELINE_NAME; pipeline_revision := 3;
                 pipeline_implementation := {| as_bytes := replicate 32 Byte.x01 |} |};
  verify_after_each_pass := true; maximum_iterations := 8; maximum_ir_growth_percent := 25 |}.

Definition sample_session : Session := {|
  work := {| used := 0; work_limit := 1000 |};
  decisions := {| sink_decisions := []; sink_limits := OptimizationLimits_standard; sink_report_bytes := 0 |} |}.

Definition sample_outcome :=
  run calm start (fold_scalar_constants sample_types [sample_function] sample_profile OptimizationLimits_standard
    sample_session).

(** The sum is the immediate 250 and the comparison is false. *)
Definition sample_folded : list FlowFunction :=
  match fst sample_outcome with Ok (functions, _, _) => functions | Err _ => [] end.

Example sample_folds :
  map operation (concat (map instructions (concat (map blocks sample_folded))))
  = [ImmediateOp (ImmInteger 8 [Byte.xc8]); ImmediateOp (ImmInteger 8 [Byte.x32]);
     ImmediateOp (ImmInteger 8 [Byte.xfa]); ImmediateOp (ImmBool false)].
Proof. vm_compute. reflexivity. Qed.

Lemma sample_returned : exists acc s',
  may_returnS (fold_scalar_constants sample_types [sample_function] sample_profile OptimizationLimits_standard)
    sample_session (sample_folded, acc) s'.
Proof.
  unfold sample_folded. destruct (fst sample_outcome) as [[[fs acc] s']|e] eqn:E.
  - exists acc, s'. apply (run_may_return calm start). exact E.
  - vm_compute in E. discriminate E.
Qed.

Lemma sample_types_ok : types_ok sample_types.
Proof. intros t signed bits [->|[->|[]%not_elem_of_nil]%elem_of_cons]%elem_of_cons Hk; simplify_eq/=; lia. Qed.

Lemma sample_well_formed : Forall well_formed [sample_function].
Proof.
  constructor; [|constructor]. split; [by apply (bool_decide_unpack (NoDup _))|].
  intros i im (b & [->|[]%not_elem_of_nil]%elem_of_cons & Hi). simpl in Hi.
  repeat (apply elem_of_cons in Hi as [->|Hi]; [by intros [= <-]|]). by apply not_elem_of_nil in Hi.
Qed.


Lemma sample_returned_undisturbed : exists acc s',
  quiet (fold_scalar_constants sample_types [sample_function] sample_profile OptimizationLimits_standard
    sample_session) = Ok ((sample_folded, acc), s').
Proof.
  unfold sample_folded. rewrite <- (run_calm start). fold sample_outcome.
  destruct (fst sample_outcome) as [[[fs acc] s']|e] eqn:E; [by exists acc, s'|].
  vm_compute in E. discriminate E.
Qed.

Lemma constant_folding_complete_witness :
  Forall (fun f' => forall i, occurs i (blocks f') ->
    foldable sample_types (values f') (table sample_types (values f') (blocks f')) i = false) sample_folded.
Proof.
  destruct sample_returned_undisturbed as (acc & s' & H).
  exact (constant_folding_complete _ _ _ _ _ _ _ _ sample_types_ok sample_well_formed H).
Defined.

(** Two folds are to be done: any fuel above two gives the outcome of three. *)
Lemma fold_loop_terminates_witness :
  let outcome fuel := run calm start (fold_loop fuel sample_types 8 0%N (values sample_function)
    (blocks sample_function) (replicate 4 None) false 0 sample_session) in
  outcome 100%nat = outcome 3%nat
  /\ forall e, fst (outcome 100%nat) = Err e -> working_error e \/ too_deep 8 (blocks sample_function) e.
Proof.
  exact (fold_loop_terminates sample_types sample_profile 0%N (values sample_function) calm start 100
    (blocks sample_function) (replicate 4 None) false sample_session ltac:(vm_compute; split; discriminate)
    ltac:(vm_compute; lia)).
Defined.

(** The work limit stops the pass. *)
Definition sample_starved : Session :=
  {| work := {| used := 0; work_limit := 3 |}; decisions := decisions sample_session |}.

Lemma fold_scalar_constants_errors_witness :
  fst (run calm start (fold_scalar_constants sample_types [sample_function] sample_profile
    OptimizationLimits_standard sample_starved)) = Err (ResourceLimit "optimizer work" 3)
  /\ (working_error (ResourceLimit "optimizer work" 3)
      \/ exists f, f ∈ [sample_function]
           /\ too_deep (maximum_iterations sample_profile) (blocks f) (ResourceLimit "optimizer work" 3)).
Proof.
  assert (H : fst (run calm start (fold_scalar_constants sample_types [sample_function] sample_profile
    OptimizationLimits_standard sample_starved)) = Err (ResourceLimit "optimizer work" 3)).
  { vm_compute. reflexivity. }
  split; [exact H|].
  refine (fold_scalar_constants_errors sample_types [sample_function] sample_profile OptimizationLimits_standard
    sample_starved calm start (ResourceLimit "optimizer work" 3) _ H). by vm_compute.
Defined.

(** ** A branch on a known condition

    The entry branches to the third block; the second becomes unreachable. *)
Definition sample_return (id : N) : Block :=
  {| block_id := id; block_parameters := []; instructions := []; terminator := Return []; block_source := None |}.

Definition sample_choose (t : Terminator ValueId) : FlowFunction := {|
  function_id := 0%N; function_name := ascii "choose"; function_origin := SourceSemantic 0;
  role := RoleOrdinary; color := ColorSync; parameters := []; result_types := [];
  values := [sample_value 0 0; sample_value 1 0];
  blocks := [{| block_id := 0%N; block_parameters := [];
                instructions := [sample_instruction 0 0 (ImmediateOp (ImmBool false))];
                terminator := t; block_source := None |};
             sample_return 1;
             {| block_id := 2%N; block_parameters := [1%N]; instructions := []; terminator := Return [];
                block_source := None |}];
  entry := 0%N; stack_bound := 0; frame_bound := 0; function_proofs := []; function_source := None |}.

Definition sample_branch : FlowFunction := sample_choose (Branch 0%N 1%N [] 2%N [0%N]).
Definition sample_jump : FlowFunction := sample_choose (Jump 2%N [0%N]).

Lemma sample_choose_well_formed t : Forall well_formed [sample_choose t].
Proof.
  constructor; [|constructor]. split; [by apply (bool_decide_unpack (NoDup _))|].
  intros i im (b & Hb & Hi). cbn [blocks sample_choose] in Hb.
  repeat (apply elem_of_cons in Hb as [->|Hb];
    [cbn [instructions sample_return] in Hi; repeat (apply elem_of_cons in Hi as [->|Hi]; [by intros [= <-]|]);
     by apply not_elem_of_nil in Hi|]).
  by apply not_elem_of_nil in Hb.
Qed.

Definition result_functions {T} (r : result OptimizeError (list FlowFunction * T * Session)) : list FlowFunction :=
  match r with Ok (functions, _, _) => functions | Err _ => [] end.

Definition sample_simplified : list FlowFunction :=
  result_functions (fst (run calm start
    (simplify_constant_control_flow sample_types [sample_branch] OptimizationLimits_standard sample_session))).

Definition sample_eliminated : list FlowFunction :=
  result_functions (fst (run calm start
    (eliminate_unreachable_blocks [sample_jump] OptimizationLimits_standard sample_session))).

Example sample_simplifies :
  sample_simplified = [sample_jump].
Proof. vm_compute. reflexivity. Qed.

(** The third block is the second now. *)
Example sample_eliminates :
  map (map terminator) (map blocks sample_eliminated) = [[Jump 1%N [0%N]; Return []]].
Proof. vm_compute. reflexivity. Qed.

Lemma run_returned {A} (m : pass (list FlowFunction * A)) s r :
  fst (run calm start (m s)) = Ok r -> exists t s', may_returnS m s (result_functions (Ok r), t) s'.
Proof. destruct r as [[fs t] s']. intros H. exists t, s'. by apply (run_may_return calm start). Qed.

Lemma control_simplification_refines_witness :
  Forall2 (fun f f' =>
    well_formed f' /\ (forall U other, @refines U other sample_types f f')
    /\ forall b, b ∈ blocks f' ->
         control_choice (table sample_types (values f') (blocks f')) (terminator b) = None)
    [sample_branch] sample_simplified.
Proof.
  unfold sample_simplified. destruct (fst (run calm start _)) as [r|e] eqn:E; [|vm_compute in E; discriminate E].
  destruct (run_returned _ _ _ E) as (t & s' & H).
  exact (control_simplification_refines _ _ _ _ _ _ _ sample_types_ok (sample_choose_well_formed _) H).
Defined.

Lemma unreachable_elimination_refines_witness :
  Forall2 (fun f f' =>
    well_formed f' /\ (forall U other types, @refines U other types f f') /\ all_reachable f')
    [sample_jump] sample_eliminated.
Proof.
  unfold sample_eliminated. destruct (fst (run calm start _)) as [r|e] eqn:E; [|vm_compute in E; discriminate E].
  destruct (run_returned _ _ _ E) as (t & s' & H).
  exact (unreachable_elimination_refines _ _ _ _ _ _ (sample_choose_well_formed _) H).
Defined.

(** Before the elimination the second block has no path from the entry. *)
Lemma reachable_blocks_exact_witness :
  exists r, r = [true; false; true] /\ length r = length (blocks sample_jump)
  /\ forall n, r !! n = Some true <-> rtc (UnreachableSound.edge (blocks sample_jump)) (N.to_nat (entry sample_jump)) n.
Proof.
  exists [true; false; true]. split; [done|].
  destruct (fst (run calm start (reachable_blocks sample_jump OptimizationLimits_standard sample_session)))
    as [[r s']|e] eqn:E; [|vm_compute in E; discriminate E].
  refine (reachable_blocks_exact sample_jump OptimizationLimits_standard sample_session _ s' _).
  apply (run_may_return calm start). vm_compute in E |- *. injection E as <- <-. reflexivity.
Defined.

(** ** A check on a known condition and a dead operation *)

Definition sample_dead : FlowFunction := {|
  function_id := 0%N; function_name := ascii "dead"; function_origin := SourceSemantic 0;
  role := RoleOrdinary; color := ColorSync; parameters := []; result_types := [];
  values := [sample_value 0 0; sample_value 1 0];
  blocks := [{| block_id := 0%N; block_parameters := [];
    instructions :=
      [sample_instruction 0 0 (ImmediateOp (ImmBool true));
       {| instruction_id := 1%N; results := []; operation := CheckOp 0%N FailBounds None; instruction_source := None |};
       sample_instruction 2 1 (Unary BoolNot 0%N)];
    terminator := Return []; block_source := None |}];
  entry := 0%N; stack_bound := 0; frame_bound := 0; function_proofs := []; function_source := None |}.

Lemma sample_dead_numbered : Forall (fun f => well_formed f /\ numbered f) [sample_dead].
Proof.
  constructor; [|constructor]. split; [split|].
  - by apply (bool_decide_unpack (NoDup _)).
  - intros i im (b & [->|[]%not_elem_of_nil]%elem_of_cons & Hi). cbn [instructions] in Hi.
    repeat (apply elem_of_cons in Hi as [->|Hi]; [by intros [= <-]|]). by apply not_elem_of_nil in Hi.
  - by apply (bool_decide_unpack (NoDup _)).
Qed.

Lemma sample_types_dense : types_dense sample_types.
Proof. intros [|[|n]] t; [by intros [= <-]..|done]. Qed.

Definition sample_unchecked : list FlowFunction :=
  result_functions (fst (run calm start
    (eliminate_proven_true_checks sample_types [sample_dead] OptimizationLimits_standard sample_session))).
Definition sample_live : list FlowFunction :=
  result_functions (fst (run calm start
    (eliminate_dead_pure_instructions sample_types [sample_dead] OptimizationLimits_standard sample_session))).

(** The check goes in the one pass, the negation in the other. *)
Example sample_removes :
  (map operation (concat (map instructions (concat (map blocks sample_unchecked)))),
   map operation (concat (map instructions (concat (map blocks sample_live)))))
  = ([ImmediateOp (ImmBool true); Unary BoolNot 0%N], [ImmediateOp (ImmBool true); CheckOp 0%N FailBounds None]).
Proof. vm_compute. reflexivity. Qed.

Lemma check_elimination_simulates_witness :
  Forall2 (fun f f' => (well_formed f' /\ numbered f') /\ forall U other, @simulates U other sample_types f f')
    [sample_dead] sample_unchecked.
Proof.
  unfold sample_unchecked. destruct (fst (run calm start _)) as [r|e] eqn:E; [|vm_compute in E; discriminate E].
  destruct (run_returned _ _ _ E) as (t & s' & H).
  exact (check_elimination_simulates _ _ _ _ _ _ _ sample_types_ok sample_dead_numbered H).
Defined.

Lemma dead_elimination_simulates_witness :
  Forall2 (fun f f' => (well_formed f' /\ numbered f') /\ forall U other, @simulates U other sample_types f f')
    [sample_dead] sample_live.
Proof.
  unfold sample_live. destruct (fst (run calm start _)) as [r|e] eqn:E; [|vm_compute in E; discriminate E].
  destruct (run_returned _ _ _ E) as (t & s' & H).
  exact (dead_elimination_simulates _ _ _ _ _ _ _ sample_types_dense sample_dead_numbered H).
Defined.

(** One instruction queued, two not yet: three steps are enough. *)
Lemma dead_loop_terminates_witness :
  let outcome fuel := run calm start (dead_loop fuel sample_types sample_dead
    [Some (0%nat, 0%nat); Some (0%nat, 1%nat); Some (0%nat, 2%nat)] [Some 0%N; Some 2%N] [2; 0]
    [false; false; false] [false; false; true] [2%N] sample_session) in
  outcome 100%nat = outcome 3%nat.
Proof.
  exact (dead_loop_terminates sample_types sample_dead [Some (0%nat, 0%nat); Some (0%nat, 1%nat); Some (0%nat, 2%nat)]
    [Some 0%N; Some 2%N] calm start 100 [2; 0] [false; false; false] [false; false; true] [2%N] sample_session
    ltac:(vm_compute; lia)).
Defined.

(** ** The optimiser *)

Definition sample_digest : Sha256Digest := {| as_bytes := replicate 32 Byte.x01 |}.

Definition sample_module : FlowWir := {|
  version := 1; wir_name := ascii "image";
  build := {| compiler := sample_digest; language := Design0_1; target := {| target_as_str := ascii "target" |};
              target_package := sample_digest; standard_library := sample_digest; source_graph := sample_digest;
              BuildModel.request := sample_digest; profile_digest := sample_digest |};
  source_summary := {| semantic_wir_version := 1; semantic_functions := 1; hir_files := 1; hir_declarations := 1;
                       reachable_declarations := 1; monomorphized_instantiations := 0; resolved_interface_calls := 0 |};
  types := sample_types; globals := []; functions := [sample_dead]; actors := []; tasks := []; devices := [];
  pools := []; regions := []; activations := []; schedulers := []; proofs := []; checkpoints := []; tests := [];
  compiled_test_group := None; startup_order := []; shutdown_order := []; image_entry := 0%N;
  wir_static_bytes := 0; wir_peak_bytes := 0 |}.

Definition sample_performance : OptimizationProfile := {|
  profile_level := OptPerformance;
  pipeline := {| pipeline_name := CANONICAL_PIPELINE_NAME; pipeline_revision := 3;
                 pipeline_implementation := sample_digest |};
  verify_after_each_pass := true; maximum_iterations := 32; maximum_ir_growth_percent := 100 |}.

Definition sample_request : OptimizationRequest := {|
  input := sample_module; request_profile := sample_performance; request_limits := OptimizationLimits_standard |}.

(** The check and the dead operations are gone. *)
Example sample_transforms :
  match fst (Interrupt.run calm Interrupt.start (transform sample_request)) with
  | Ok (output, report) =>
      Some (map operation (concat (map instructions (concat (map blocks (functions output))))),
            map (fun st => (instructions_before st, instructions_after st)) (passes report))
  | Err _ => None
  end = Some ([], [(3, 3); (3, 3); (3, 3); (3, 2); (2, 0)]).
Proof. vm_compute. reflexivity. Qed.

Lemma sample_sound : Forall sound_function (functions (input sample_request)).
Proof. exact sample_dead_numbered. Qed.


(** The scan of the sample, and the pipeline started with what it found. *)
Lemma scan_model_counts_witness : exists r s',
  fst (Interrupt.run calm Interrupt.start (scan_model OptimizationLimits_standard sample_module sample_session)) = Ok (r, s')
  /\ counts_of r = module_counts sample_module
  /\ res_instructions r <= limit_instructions OptimizationLimits_standard
  /\ scan_work r <= used (work s') - used (work sample_session).
Proof.
  destruct (fst (Interrupt.run calm Interrupt.start (scan_model OptimizationLimits_standard sample_module sample_session)))
    as [[r s']|e] eqn:E; [|vm_compute in E; discriminate E].
  exists r, s'. split; [reflexivity|].
  exact (scan_model_counts OptimizationLimits_standard sample_module sample_session r s' ltac:(vm_compute; discriminate)
    (run_may_return _ _ _ _ E)).
Defined.

Definition sample_resources : ModelResources := {|
  res_functions := 1; res_tests := 0; res_blocks := 1; res_instructions := 3; res_values := 2; res_proofs := 0;
  model_edges := 9; payload_bytes := 15; scan_work := 40 |}.
Definition sample_output_resources : ModelResources := {|
  res_functions := 1; res_tests := 0; res_blocks := 1; res_instructions := 0; res_values := 0; res_proofs := 0;
  model_edges := 7; payload_bytes := 15; scan_work := 36 |}.

(** Neither instructions nor values are left of the sample. *)
Lemma sample_pipeline_counts :
  match fst (Interrupt.run calm Interrupt.start (execute_pipeline sample_module sample_performance
    OptimizationLimits_standard sample_resources sample_session)) with
  | Ok ((w', _), _) => counts_of sample_output_resources = module_counts w'
  | Err _ => False
  end.
Proof. vm_compute. reflexivity. Qed.

Lemma pipeline_report_accepted_witness : exists w' report s',
  fst (Interrupt.run calm Interrupt.start (execute_pipeline sample_module sample_performance
    OptimizationLimits_standard sample_resources sample_session)) = Ok ((w', report), s')
  /\ total_instructions (functions w') <= total_instructions (functions sample_module)
  /\ report_profile report = sample_performance
  /\ enforce_growth sample_performance sample_resources sample_output_resources = Ok tt
  /\ raises meter_error (validate_report_shape report (res_instructions sample_resources)
       (res_instructions sample_output_resources) (res_tests sample_resources) (res_tests sample_output_resources)).
Proof.
  pose proof sample_pipeline_counts as Hcounts.
  destruct (fst (Interrupt.run calm Interrupt.start _)) as [[[w' report] s']|e] eqn:E; [|destruct Hcounts].
  exists w', report, s'. split; [reflexivity|].
  exact (pipeline_report_accepted sample_module sample_performance OptimizationLimits_standard sample_resources
    sample_output_resources sample_session w' report s' sample_types_ok sample_sound
    ltac:(vm_compute; discriminate) ltac:(vm_compute; split; discriminate) ltac:(vm_compute; reflexivity)
    ltac:(vm_compute; discriminate) Hcounts (run_may_return _ _ _ _ E)).
Defined.

(** Level [None]: the module seals itself. *)
Definition sample_none : OptimizationRequest := {|
  input := sample_module;
  request_profile := {| profile_level := OptNone;
    pipeline := {| pipeline_name := CANONICAL_PIPELINE_NAME; pipeline_revision := 3; pipeline_implementation := sample_digest |};
    verify_after_each_pass := true; maximum_iterations := 1; maximum_ir_growth_percent := 0 |};
  request_limits := OptimizationLimits_standard |}.

Example sample_seals :
  fst (Interrupt.run calm Interrupt.start (seal_none sample_none sample_module (empty_report (request_profile sample_none))))
  = Ok {| optimized_wir := sample_module; optimized_report := empty_report (request_profile sample_none) |}.
Proof. vm_compute. reflexivity. Qed.

(** ** Validation *)

Definition sample_span : Span := {| file := {| file_id := 0 |}; range := {| start_ := 0; end_ := 1 |} |}.

(** [if c { a } else { b }] over bytes; the last block returns [returned]. *)
Definition sample_join (returned : N) : FlowFunction := {|
  function_id := 0%N; function_name := ascii "join"; function_origin := SourceSemantic 0;
  role := RoleOrdinary; color := ColorSync; parameters := [0%N]; result_types := [1%N];
  values := [sample_value 0 0; sample_value 1 1; sample_value 2 1; sample_value 3 1];
  blocks :=
    [{| block_id := 0%N; block_parameters := []; instructions := [];
        terminator := Branch 0%N 1%N [] 2%N []; block_source := None |};
     {| block_id := 1%N; block_parameters := [];
        instructions := [sample_instruction 0 1 (ImmediateOp (ImmInteger 8 [Byte.x01]))];
        terminator := Jump 3%N [1%N]; block_source := None |};
     {| block_id := 2%N; block_parameters := [];
        instructions := [sample_instruction 1 2 (ImmediateOp (ImmInteger 8 [Byte.x02]))];
        terminator := Jump 3%N [2%N]; block_source := None |};
     {| block_id := 3%N; block_parameters := [3%N]; instructions := [];
        terminator := Return [returned]; block_source := None |}];
  entry := 0%N; stack_bound := 0; frame_bound := 0; function_proofs := []; function_source := Some sample_span |}.

Definition sample_joined (returned : N) : FlowWir := with_functions sample_module [sample_join returned].

Definition sample_validation (returned : N) :=
  fst (Interrupt.run calm Interrupt.start (validate_functions (sample_joined returned) (new_context ValidationLimits_standard))).

(** The parameter of the last block may be returned, the value of a branch not. *)
Example sample_rejected :
  match sample_validation 1%N with Ok (Some _, c) => errors c | _ => [] end
  = [NonDominatingValueUse 0%N 1%N 3%N None].
Proof. vm_compute. reflexivity. Qed.

Definition sample_context : ValidationContext := new_context ValidationLimits_standard.

Lemma sample_accepted :
  may_return (validate_functions (sample_joined 3%N) (new_context ValidationLimits_standard)) (Some tt, sample_context).
Proof. apply (run_may_return calm Interrupt.start). vm_compute. reflexivity. Qed.

Lemma sample_clean : clean sample_context.
Proof. by repeat split. Qed.

(** A call with [true] gets, after a branch, a constant and a jump, to the return. *)
Definition sample_other : FlowOperation (rvalue unit) -> option (rvalue unit) := fun _ => None.
Definition sample_argument : list (rvalue unit) := [RScalar (CBool true)].
Definition sample_start : state unit := {| here := 0; pc := 0; env := {[0%N := RScalar (CBool true)]} |}.
Definition sample_one : rvalue unit := RScalar (CInteger false 8 1).
Definition sample_end : state unit :=
  {| here := 3; pc := 0; env := <[3%N := sample_one]> (<[1%N := sample_one]> (env sample_start)) |}.

Lemma sample_started : FlowSemantics.start (types (sample_joined 3%N)) (sample_join 3%N) sample_argument = Some sample_start.
Proof. vm_compute. reflexivity. Qed.

Lemma sample_gets_there : rtc (successor sample_other (types (sample_joined 3%N)) (sample_join 3%N)) sample_start sample_end.
Proof.
  eapply rtc_l; [left; vm_compute; reflexivity|]. eapply rtc_l; [left; vm_compute; reflexivity|].
  eapply rtc_l; [left; vm_compute; reflexivity|]. apply rtc_refl.
Qed.

Lemma sample_join_member : sample_join 3%N ∈ functions (sample_joined 3%N).
Proof. left. Qed.

Lemma accepted_functions_safe_witness : safe_at sample_other (sample_joined 3%N) (sample_join 3%N) sample_end.
Proof.
  exact (accepted_functions_safe sample_other (sample_joined 3%N) ValidationLimits_standard sample_context (sample_join 3%N)
    sample_argument sample_start sample_end sample_accepted sample_clean sample_join_member sample_started sample_gets_there).
Defined.

Lemma sample_join_immediates : immediates_ok (blocks (sample_join 3%N)).
Proof.
  intros i im (b & Hb & Hi). simpl in Hb.
  repeat (apply elem_of_cons in Hb as [->|Hb];
    [simpl in Hi; repeat (apply elem_of_cons in Hi as [->|Hi]; [by intros [= <-]|]); by apply not_elem_of_nil in Hi|]).
  by apply not_elem_of_nil in Hb.
Qed.

Lemma accepted_functions_sound_witness : sound_function (sample_join 3%N).
Proof.
  exact (accepted_functions_sound (sample_joined 3%N) ValidationLimits_standard sample_context (sample_join 3%N)
    sample_accepted sample_clean sample_join_member sample_join_immediates).
Defined.

Lemma validate_functions_accepts_witness : Forall (function_valid (sample_joined 3%N)) (functions (sample_joined 3%N)).
Proof. exact (validate_functions_accepts (sample_joined 3%N) ValidationLimits_standard sample_context sample_accepted sample_clean). Defined.

(** The last block is dominated by the first only. *)
Definition sample_tree : Dominators := [Some 0%nat; Some 0%nat; Some 0%nat; Some 0%nat].
Definition sample_marks : list bool := [true; true; true; true].

Lemma sample_dominators :
  may_return (find_dominators (sample_join 3%N) 0 sample_context) (Some (sample_tree, sample_marks), sample_context).
Proof. apply (run_may_return calm Interrupt.start). vm_compute. reflexivity. Qed.

Lemma find_dominators_exact_witness :
  (forall b, sample_marks !! b = Some true <-> attained 0 (edge (sample_join 3%N)) b)
  /\ forall d b c2 answer c3,
       may_return (flow_block_dominates d b sample_tree sample_marks c2) (Some answer, c3) -> clean c3 ->
       (answer = true <-> attained 0 (edge (sample_join 3%N)) b /\ dominates 0 (edge (sample_join 3%N)) d b).
Proof.
  exact (find_dominators_exact (sample_join 3%N) 0 sample_context sample_tree sample_marks sample_context
    ltac:(simpl; lia) sample_dominators).
Defined.

(** The sample module within the standard limits, and over a limit on edges. *)
Lemma validate_model_resources_exact_witness :
  affordable ValidationLimits_standard sample_module /\
  quiet (validate_model_resources sample_module ValidationLimits_standard) = Ok tt.
Proof.
  assert (H : quiet (validate_model_resources sample_module ValidationLimits_standard) = Ok tt) by (vm_compute; reflexivity).
  split; [|exact H].
  apply (validate_model_resources_exact sample_module ValidationLimits_standard calm start); [vm_compute; reflexivity|vm_compute; reflexivity..|exact H].
Defined.

Example sample_over_edges :
  quiet (validate_model_resources sample_module
    {| arena_records := 100; limit_edges := 5; limit_payload := 100; FlowContext.validation_work := 100; limit_errors := 1;
       limit_test_plan := TestPlanLimits_standard |}) = Err (FailureResourceLimit "model edges" 5).
Proof. vm_compute. reflexivity. Qed.
