(* ===== verification/SyntaxTokens.v ===== *)
(** Tokens, trivia and the limits of the parser
    ([src/crates/wrela-syntax/src/lib.rs]), and the keyword table of
    [parser.rs].

    The second part says which text a token without a spelling of its own
    stands for: [kind_text]. *)

From Stdlib Require Import Strings.Byte.
From stdpp Require Import base numbers list option strings.
From S2P Require Import Prelude Bytes Source.

#[local] Open Scope Z_scope.

(** ** Tokens *)

Inductive Keyword :=
| KwModule | KwPub | KwImport | KwFrom | KwAs | KwConst | KwBrand | KwFn | KwInit | KwAsync
| KwIsr | KwComptime | KwStruct | KwEnum | KwIface | KwImpl | KwFor | KwProjection | KwScope
| KwImplements | KwDeriving | KwRegion | KwView | KwMut | KwIso | KwRead | KwTake
| KwSelfValue | KwIf | KwElif | KwElse | KwMatch | KwCase | KwIn | KwNot | KwWhile | KwLoop
| KwWith | KwEnter | KwAbort | KwExit | KwShadow | KwReturn | KwBreak | KwContinue | KwPass
| KwAssert | KwSend | KwTry | KwYield | KwAwait | KwCopy | KwTrue | KwFalse | KwUnit | KwOr
| KwAnd | KwIs.

Inductive Punctuation :=
| PAt | PDot | PComma | PColon | PSemicolon | PLeftParen | PRightParen | PLeftBracket
| PRightBracket | PLeftBrace | PRightBrace | PArrow | PQuestion | PPipe.

Inductive Operator :=
| OpAssign | OpAdd | OpSubtract | OpMultiply | OpDivide | OpRemainder | OpBitAnd | OpBitOr
| OpBitXor | OpShiftLeft | OpShiftRight | OpEqual | OpNotEqual | OpLess | OpLessEqual
| OpGreater | OpGreaterEqual | OpAddAssign | OpSubtractAssign | OpMultiplyAssign
| OpDivideAssign | OpRemainderAssign | OpBitAndAssign | OpBitOrAssign | OpBitXorAssign
| OpShiftLeftAssign | OpShiftRightAssign | OpAddWrapping | OpSubtractWrapping
| OpMultiplyWrapping | OpBitNot | OpRange | OpRangeInclusive.

Inductive TokenKind :=
| Identifier | IntegerLiteral | FloatLiteral | StringLiteral | ByteStringLiteral
| CharacterLiteral | InterpolatedStringStart | InterpolatedStringText | InterpolationFormat
| InterpolatedStringEnd
| KeywordToken (k : Keyword) | PunctuationToken (p : Punctuation) | OperatorToken (o : Operator)
| Newline | Indent | Dedent | EndOfFile | ErrorToken.

Inductive NewlineOrigin := OriginPhysical | OriginSemicolon | OriginEndOfFile | OriginSyntheticRecovery.

Record Token := {
  token_id : Z;
  token_kind : TokenKind;
  token_span : Span;
  newline_origin : option NewlineOrigin;
  token_spelling : option str;
  synthetic : bool;
}.

Inductive TriviaKind := Spaces | Comment | SuppressedPhysicalNewline | BlankLine.

Record Trivia := {
  trivia_id : Z;
  trivia_kind : TriviaKind;
  trivia_span : Span;
}.

Inductive LexicalElement :=
| ElementToken (id : Z)
| ElementTrivia (id : Z).

Record LosslessLexicalTable := {
  table_tokens : list Token;
  table_trivia : list Trivia;
  table_order : list LexicalElement;
}.

#[export] Instance Keyword_eq_dec : EqDecision Keyword.
Proof. solve_decision. Defined.
#[export] Instance Punctuation_eq_dec : EqDecision Punctuation.
Proof. solve_decision. Defined.
#[export] Instance Operator_eq_dec : EqDecision Operator.
Proof. solve_decision. Defined.
#[export] Instance TokenKind_eq_dec : EqDecision TokenKind.
Proof. solve_decision. Defined.
#[export] Instance NewlineOrigin_eq_dec : EqDecision NewlineOrigin.
Proof. solve_decision. Defined.
#[export] Instance LexicalElement_eq_dec : EqDecision LexicalElement.
Proof. solve_decision. Defined.

Definition keyword_table : list (string * Keyword) := [
  ("module", KwModule); ("pub", KwPub); ("import", KwImport); ("from", KwFrom); ("as", KwAs);
  ("const", KwConst); ("brand", KwBrand); ("fn", KwFn); ("init", KwInit); ("async", KwAsync);
  ("isr", KwIsr); ("comptime", KwComptime); ("struct", KwStruct); ("enum", KwEnum);
  ("interface", KwIface); ("impl", KwImpl); ("for", KwFor); ("projection", KwProjection);
  ("scope", KwScope); ("implements", KwImplements); ("deriving", KwDeriving);
  ("region", KwRegion); ("view", KwView); ("mut", KwMut); ("iso", KwIso); ("read", KwRead);
  ("take", KwTake); ("self", KwSelfValue); ("if", KwIf); ("elif", KwElif); ("else", KwElse);
  ("match", KwMatch); ("case", KwCase); ("in", KwIn); ("not", KwNot); ("while", KwWhile);
  ("loop", KwLoop); ("with", KwWith); ("enter", KwEnter); ("abort", KwAbort);
  ("exit", KwExit); ("shadow", KwShadow); ("return", KwReturn); ("break", KwBreak);
  ("continue", KwContinue); ("pass", KwPass); ("assert", KwAssert); ("send", KwSend);
  ("try", KwTry); ("yield", KwYield); ("await", KwAwait); ("copy", KwCopy); ("true", KwTrue);
  ("false", KwFalse); ("unit", KwUnit); ("or", KwOr); ("and", KwAnd); ("is", KwIs)
].

(** [keyword]. *)
Definition keyword (spelling : str) : option Keyword :=
  snd <$> List.find (fun '(text, _) => bool_decide (ascii text = spelling)) keyword_table.

(** [is_literal_token]. *)
Definition is_literal_token (kind : TokenKind) : bool :=
  match kind with
  | IntegerLiteral | FloatLiteral | StringLiteral | ByteStringLiteral | CharacterLiteral
  | InterpolatedStringStart | InterpolatedStringText | InterpolationFormat
  | InterpolatedStringEnd => true
  | _ => false
  end.

(** ** Failures and limits *)

Inductive ParseFailure :=
| UnknownSource (file : FileId)
| StaleOutput (file : FileId)
| ParseCancelled
| ParseInvalidLimits
| InvalidFragmentRange (first end_ : Z)
| ParseResourceLimit (resource : string) (limit : Z)
| InternalInvariant (message : string).

Definition MAX_PARSE_NESTING_DEPTH : Z := 1024.

Record ParseLimits := {
  limit_tokens : Z;
  limit_ast_nodes : Z;
  limit_nesting_depth : Z;
  limit_literal_bytes : Z;
  limit_diagnostics : Z;
  limit_diagnostic_bytes : Z;
}.

(** [ParseLimits::standard]. *)
Definition ParseLimits_standard : ParseLimits := {|
  limit_tokens := 16000000;
  limit_ast_nodes := 16000000;
  limit_nesting_depth := MAX_PARSE_NESTING_DEPTH;
  limit_literal_bytes := Z.shiftl 1 30;
  limit_diagnostics := 100000;
  limit_diagnostic_bytes := 64 * 1024 * 1024;
|}.

(** [ParseLimits::validate]. *)
Definition ParseLimits_validate (l : ParseLimits) : result ParseFailure unit :=
  if (limit_tokens l =? 0) || (limit_ast_nodes l =? 0) || (limit_nesting_depth l =? 0)
     || (MAX_PARSE_NESTING_DEPTH <? limit_nesting_depth l)
  then Err ParseInvalidLimits else Ok tt.

Record ParseUsage := {
  used_tokens : Z;
  used_ast_nodes : Z;
  used_literal_bytes : Z;
  used_diagnostics : Z;
  used_diagnostic_bytes : Z;
}.

(** [ParseUsage::ZERO]. *)
Definition ParseUsage_ZERO : ParseUsage := {|
  used_tokens := 0; used_ast_nodes := 0; used_literal_bytes := 0; used_diagnostics := 0;
  used_diagnostic_bytes := 0 |}.

(** [checked_usage_add_u32] and [checked_usage_add_u64]. *)
Definition checked_usage_add (width current added limit : Z) (resource : string)
    : result ParseFailure Z :=
  next ← ok_or (checked_add width current added) (ParseResourceLimit resource limit);
  if limit <? next then Err (ParseResourceLimit resource limit) else Ok next.

(** [checked_usage_sub_u32] and [checked_usage_sub_u64]. *)
Definition checked_usage_sub (remaining used : Z) (resource : string) : result ParseFailure Z :=
  ok_or (checked_sub remaining used) (ParseResourceLimit resource remaining).

(** [ParseUsage::checked_add]. *)
Definition ParseUsage_checked_add (a b : ParseUsage) (limits : ParseLimits)
    : result ParseFailure ParseUsage :=
  tokens ← checked_usage_add 32 (used_tokens a) (used_tokens b) (limit_tokens limits) "tokens";
  ast_nodes ← checked_usage_add 32 (used_ast_nodes a) (used_ast_nodes b)
                (limit_ast_nodes limits) "AST nodes";
  literal_bytes ← checked_usage_add 64 (used_literal_bytes a) (used_literal_bytes b)
                    (limit_literal_bytes limits) "literal bytes";
  diagnostics ← checked_usage_add 32 (used_diagnostics a) (used_diagnostics b)
                  (limit_diagnostics limits) "diagnostics";
  diagnostic_bytes ← checked_usage_add 64 (used_diagnostic_bytes a) (used_diagnostic_bytes b)
                       (limit_diagnostic_bytes limits) "diagnostic bytes";
  Ok {| used_tokens := tokens; used_ast_nodes := ast_nodes; used_literal_bytes := literal_bytes;
        used_diagnostics := diagnostics; used_diagnostic_bytes := diagnostic_bytes |}.

(** [ParseLimits::remaining_after]. *)
Definition remaining_after (l : ParseLimits) (usage : ParseUsage) : result ParseFailure ParseLimits :=
  tokens ← checked_usage_sub (limit_tokens l) (used_tokens usage) "tokens";
  ast_nodes ← checked_usage_sub (limit_ast_nodes l) (used_ast_nodes usage) "AST nodes";
  literal_bytes ← checked_usage_sub (limit_literal_bytes l) (used_literal_bytes usage)
                    "literal bytes";
  diagnostics ← checked_usage_sub (limit_diagnostics l) (used_diagnostics usage) "diagnostics";
  diagnostic_bytes ← checked_usage_sub (limit_diagnostic_bytes l) (used_diagnostic_bytes usage)
                       "diagnostic bytes";
  Ok {| limit_tokens := tokens; limit_ast_nodes := ast_nodes;
        limit_nesting_depth := limit_nesting_depth l; limit_literal_bytes := literal_bytes;
        limit_diagnostics := diagnostics; limit_diagnostic_bytes := diagnostic_bytes |}.

(** ** The text of tokens

    A specification: what a token that keeps no spelling stands for. *)

Definition keyword_text (k : Keyword) : str :=
  match List.find (fun '(_, k') => bool_decide (k' = k)) keyword_table with
  | Some (text, _) => ascii text
  | None => []
  end.

Definition punctuation_text (p : Punctuation) : string :=
  match p with
  | PAt => "@" | PDot => "." | PComma => "," | PColon => ":" | PSemicolon => ";"
  | PLeftParen => "(" | PRightParen => ")" | PLeftBracket => "[" | PRightBracket => "]"
  | PLeftBrace => "{" | PRightBrace => "}" | PArrow => "->" | PQuestion => "?" | PPipe => "|"
  end.

Definition operator_text (o : Operator) : string :=
  match o with
  | OpAssign => "=" | OpAdd => "+" | OpSubtract => "-" | OpMultiply => "*" | OpDivide => "/"
  | OpRemainder => "%" | OpBitAnd => "&" | OpBitOr => "|" | OpBitXor => "^"
  | OpShiftLeft => "<<" | OpShiftRight => ">>" | OpEqual => "==" | OpNotEqual => "!="
  | OpLess => "<" | OpLessEqual => "<=" | OpGreater => ">" | OpGreaterEqual => ">="
  | OpAddAssign => "+=" | OpSubtractAssign => "-=" | OpMultiplyAssign => "*="
  | OpDivideAssign => "/=" | OpRemainderAssign => "%=" | OpBitAndAssign => "&="
  | OpBitOrAssign => "|=" | OpBitXorAssign => "^=" | OpShiftLeftAssign => "<<="
  | OpShiftRightAssign => ">>=" | OpAddWrapping => "+%" | OpSubtractWrapping => "-%"
  | OpMultiplyWrapping => "*%" | OpBitNot => "~" | OpRange => ".." | OpRangeInclusive => "..="
  end.

(** The texts a physical token without a spelling may have. *)
Definition kind_texts (kind : TokenKind) : list str :=
  match kind with
  | KeywordToken k => [keyword_text k]
  | PunctuationToken p => [ascii (punctuation_text p)]
  | OperatorToken o => [ascii (operator_text o)]
  | Newline => [ascii ";"; [x0a]; [x0d; x0a]]
  | _ => []
  end.

Lemma keyword_text_keyword k : keyword (keyword_text k) = Some k.
Proof. by destruct k. Qed.

Lemma keyword_Some spelling k : keyword spelling = Some k -> spelling = keyword_text k.
Proof.
  unfold keyword. destruct (List.find _ _) as [[text k']|] eqn:H; [|done]. intros [= ->].
  apply List.find_some in H as [Hin H]. apply bool_decide_eq_true in H as <-.
  unfold keyword_table in Hin. simpl in Hin.
  repeat (destruct Hin as [[= <- <-]|Hin]; [reflexivity|]). done.
Qed.

(** ** Budgets *)

Definition limits_fit (l : ParseLimits) : Prop :=
  0 <= limit_tokens l < 2 ^ 32 /\ 0 <= limit_ast_nodes l < 2 ^ 32
  /\ 0 <= limit_literal_bytes l < 2 ^ 64 /\ 0 <= limit_diagnostics l < 2 ^ 32
  /\ 0 <= limit_diagnostic_bytes l < 2 ^ 64 /\ 0 <= limit_nesting_depth l < 2 ^ 32.

Lemma checked_usage_add_Ok width current added limit resource next :
  limit < 2 ^ width ->
  checked_usage_add width current added limit resource = Ok next
  <-> next = current + added /\ current + added <= limit.
Proof.
  intros Hl. unfold checked_usage_add, checked_add.
  destruct (Z.ltb_spec (current + added) (2 ^ width)); simpl; [|split; [done|lia]].
  destruct (Z.ltb_spec limit (current + added)); split; [done|lia|naive_solver lia|].
  intros [-> _]. done.
Qed.

Lemma checked_usage_sub_Ok remaining used resource rest :
  checked_usage_sub remaining used resource = Ok rest <-> rest = remaining - used /\ used <= remaining.
Proof.
  unfold checked_usage_sub, checked_sub. destruct (Z.leb_spec used remaining); simpl; naive_solver lia.
Qed.

Lemma ParseUsage_checked_add_Ok a b l w :
  limits_fit l ->
  ParseUsage_checked_add a b l = Ok w <->
    w = {| used_tokens := used_tokens a + used_tokens b;
           used_ast_nodes := used_ast_nodes a + used_ast_nodes b;
           used_literal_bytes := used_literal_bytes a + used_literal_bytes b;
           used_diagnostics := used_diagnostics a + used_diagnostics b;
           used_diagnostic_bytes := used_diagnostic_bytes a + used_diagnostic_bytes b |}
    /\ used_tokens a + used_tokens b <= limit_tokens l
    /\ used_ast_nodes a + used_ast_nodes b <= limit_ast_nodes l
    /\ used_literal_bytes a + used_literal_bytes b <= limit_literal_bytes l
    /\ used_diagnostics a + used_diagnostics b <= limit_diagnostics l
    /\ used_diagnostic_bytes a + used_diagnostic_bytes b <= limit_diagnostic_bytes l.
Proof.
  intros (? & ? & ? & ? & ?). unfold ParseUsage_checked_add. split.
  - intros Hall. inv_ok.
    repeat match goal with
    | H : checked_usage_add _ _ _ _ _ = Ok _ |- _ =>
        apply checked_usage_add_Ok in H; [destruct H as [-> ?]|lia]
    end. done.
  - intros (-> & ? & ? & ? & ? & ?).
    repeat (apply result_bind_Ok; eexists; split; [apply checked_usage_add_Ok; [lia|done]|cbv beta]). done.
Qed.

Lemma remaining_after_Ok l u r :
  remaining_after l u = Ok r <->
    r = {| limit_tokens := limit_tokens l - used_tokens u;
           limit_ast_nodes := limit_ast_nodes l - used_ast_nodes u;
           limit_nesting_depth := limit_nesting_depth l;
           limit_literal_bytes := limit_literal_bytes l - used_literal_bytes u;
           limit_diagnostics := limit_diagnostics l - used_diagnostics u;
           limit_diagnostic_bytes := limit_diagnostic_bytes l - used_diagnostic_bytes u |}
    /\ used_tokens u <= limit_tokens l
    /\ used_ast_nodes u <= limit_ast_nodes l
    /\ used_literal_bytes u <= limit_literal_bytes l
    /\ used_diagnostics u <= limit_diagnostics l
    /\ used_diagnostic_bytes u <= limit_diagnostic_bytes l.
Proof.
  unfold remaining_after. split.
  - intros Hall. inv_ok.
    repeat match goal with
    | H : checked_usage_sub _ _ _ = Ok _ |- _ => apply checked_usage_sub_Ok in H; destruct H as [-> ?]
    end. done.
  - intros (-> & ? & ? & ? & ? & ?).
    repeat (apply result_bind_Ok; eexists; split; [by apply checked_usage_sub_Ok|cbv beta]). done.
Qed.

(** What one file leaves of a command's budget admits another file exactly
    when the sum of both stays within the whole budget, and then both ways of
    accounting leave the same rest. *)
Theorem budgets_compose l u rest v final :
  limits_fit l -> remaining_after l u = Ok rest ->
  remaining_after rest v = Ok final <->
    exists total, ParseUsage_checked_add u v l = Ok total /\ remaining_after l total = Ok final.
Proof.
  intros Hfit (-> & ? & ? & ? & ? & ?)%remaining_after_Ok. setoid_rewrite remaining_after_Ok. simpl.
  setoid_rewrite ParseUsage_checked_add_Ok; [|done]. split.
  - intros (-> & ? & ? & ? & ? & ?). eexists. split; [split; [done|split_and!; lia]|].
    simpl. split; [f_equal; lia|split_and!; lia].
  - intros (total & (-> & ? & ? & ? & ? & ?) & -> & ? & ? & ? & ? & ?). simpl in *.
    split; [f_equal; lia|split_and!; lia].
Qed.
