(* ===== verification/Literals.v ===== *)
(** Escapes and literals ([src/crates/wrela-syntax/src/parser.rs]): what an
    escape sequence stands for and how the spelling of a literal is decoded.

    A cursor is a byte offset into a string, as in the code; slicing the string
    inside a character is a fault of the model. *)

From Stdlib Require Import Strings.Byte.
From stdpp Require Import base numbers list option strings.
From S2P Require Import Prelude Bytes Interrupt Text Source SyntaxTokens.

#[local] Open Scope Z_scope.

(** ** Faults *)

(** A bug of the parser itself: text sliced out of bounds or inside a
    character, or a loop that needs more turns than the model gives it. *)
Inductive parse_fault :=
| BadSlice
| TurnsExhausted
| AssertionFailed (** a [debug_assert!], which release builds leave out *).

Inductive abort :=
| ParseFailed (failure : ParseFailure)
| ParseFaulted (fault : parse_fault).

(** A method over a state [S] that fails as the parser does. *)
Definition parsing (S A : Type) : Type := stateT S (prog abort) A.

Definition fail_with {S A} (e : ParseFailure) : parsing S A := fun _ => Throw (ParseFailed e).
Definition fault_with {S A} (f : parse_fault) : parsing S A := fun _ => Throw (ParseFaulted f).
(** [if bad { return Err(e) }]. *)
Definition reject_if {S} (bad : bool) (e : ParseFailure) : parsing S unit :=
  if bad then fail_with e else mret tt.
(** [try_reserve(..).map_err(|_| e)?]. *)
Definition reserve_or {S} (e : ParseFailure) : parsing S unit := liftS (try_reserve (ParseFailed e)).
(** [o.ok_or(e)?]. *)
Definition require {S A} (o : option A) (e : ParseFailure) : parsing S A :=
  match o with Some a => mret a | None => fail_with e end.

Inductive turn (L R : Type) : Type :=
| Again (locals : L)
| Leave (outcome : R).
Arguments Again {L R} locals.
Arguments Leave {L R} outcome.

(** A [while] loop over local variables, which may end in any turn. *)
Fixpoint turns {S L R} (fuel : nat) (body : L -> parsing S (turn L R)) (l : L) : parsing S R :=
  match fuel with
  | O => fault_with TurnsExhausted
  | Datatypes.S fuel =>
      t ← body l;
      match t with Again l => turns fuel body l | Leave r => mret r end
  end.

(** ** Reading text *)

(** [text.as_bytes().get(position)]. *)
Definition byte_at (text : str) (position : Z) : option byte :=
  if position <? 0 then None else text !! Z.to_nat position.
Definition byte_is (text : str) (position : Z) (b : byte) : bool :=
  bool_decide (byte_at text position = Some b).
(** [text.get(position..)]. *)
Definition get_from (text : str) (position : Z) : option str :=
  if (0 <=? position) && (position <=? len text) && is_char_boundary text position
  then Some (drop (Z.to_nat position) text) else None.
(** [&text[start..end]], [None] when it panics. *)
Definition get_slice (text : str) (start_ end_ : Z) : option str :=
  if (0 <=? start_) && (start_ <=? end_) && (end_ <=? len text)
     && is_char_boundary text start_ && is_char_boundary text end_
  then Some (subslice text start_ end_) else None.
(** [s.chars().next()]. *)
Definition first_char (s : str) : option Z := fst <$> next_char s.

(** [u8::is_ascii_hexdigit]. *)
Definition is_ascii_hexdigit (b : byte) : bool :=
  let z := Z_of_byte b in between 0x30 0x39 z || between 0x41 0x46 z || between 0x61 0x66 z.

(** [digit_value]. *)
Definition digit_value (b : byte) : option Z :=
  let z := Z_of_byte b in
  if between 0x30 0x39 z then Some (z - 0x30)
  else if between 0x61 0x66 z then Some (z - 0x61 + 10)
  else if between 0x41 0x46 z then Some (z - 0x41 + 10)
  else None.

(** [from_str_radix(_, 16)] of a string of hexadecimal digits that fits. *)
Fixpoint hex_value (acc : Z) (digits : str) : option Z :=
  match digits with
  | [] => Some acc
  | b :: digits => d ← digit_value b; hex_value (acc * 16 + d) digits
  end.
Definition from_str_radix_16 (digits : str) : option Z :=
  match digits with [] => None | _ => hex_value 0 digits end.

(** [char::from_u32]. *)
Definition is_scalar (z : Z) : bool := between 0 0xD7FF z || between 0xE000 0x10FFFF z.
Definition char_from_u32 (z : Z) : option Z := if is_scalar z then Some z else None.

(** [String::push]: the UTF-8 of a character. *)
Definition encode_utf8 (c : Z) : str :=
  if c <? 0x80 then [byte_of_Z c]
  else if c <? 0x800 then [byte_of_Z (0xC0 + c / 64); byte_of_Z (0x80 + c mod 64)]
  else if c <? 0x10000 then
    [byte_of_Z (0xE0 + c / 4096); byte_of_Z (0x80 + c / 64 mod 64); byte_of_Z (0x80 + c mod 64)]
  else
    [byte_of_Z (0xF0 + c / 262144); byte_of_Z (0x80 + c / 4096 mod 64);
     byte_of_Z (0x80 + c / 64 mod 64); byte_of_Z (0x80 + c mod 64)].

(** [char::is_ascii]. *)
Definition char_is_ascii (c : Z) : bool := c <? 0x80.

(** ** Escapes *)

Inductive EscapeValue := EscapeScalar (c : Z) | EscapeByte (z : Z).

Record EscapeDiagnostic := { escape_code : string; escape_message : string }.

Record DecodedEscape := {
  escape_end : Z;
  escape_value : option EscapeValue;
  escape_diagnostic : option EscapeDiagnostic;
}.

Definition bad_escape (position : Z) (code message : string) : DecodedEscape :=
  {| escape_end := position; escape_value := None;
     escape_diagnostic := Some {| escape_code := code; escape_message := message |} |}.

(** The escapes of one letter. *)
Definition simple_escape (c : Z) : option Z :=
  if c =? 0x5C then Some 0x5C        (* \\ *)
  else if c =? 0x22 then Some 0x22   (* the quotation mark *)
  else if c =? 0x27 then Some 0x27   (* ' *)
  else if c =? 0x6E then Some 0x0A   (* n *)
  else if c =? 0x72 then Some 0x0D   (* r *)
  else if c =? 0x74 then Some 0x09   (* t *)
  else if c =? 0x30 then Some 0x00   (* 0 *)
  else None.

(** A run of at most [count] hexadecimal digits from [position]: its end. *)
Fixpoint hex_run (count : nat) (text : str) (position : Z) : Z :=
  match count with
  | O => position
  | S count =>
      match byte_at text position with
      | Some b => if is_ascii_hexdigit b then hex_run count text (position + 1) else position
      | None => position
      end
  end.

(** [decode_escape]. The only slices it takes without a test are runs of ASCII
    digits. *)
Definition decode_escape (text : str) (start : Z) (byte_string : bool) : DecodedEscape :=
  let position := Z.min (saturating_add usize start 1) (len text) in
  match (tail ← get_from text position; first_char tail) with
  | None => bad_escape position "syntax-invalid-escape" "incomplete escape sequence"
  | Some escaped =>
      let position := position + len_utf8 escaped in
      match simple_escape escaped with
      | Some value =>
          {| escape_end := position;
             escape_value := Some (if byte_string then EscapeByte value else EscapeScalar value);
             escape_diagnostic := None |}
      | None =>
          if (escaped =? 0x78) && byte_string then
            let digits := position in
            let position := hex_run 2 text position in
            if position - digits =? 2 then
              {| escape_end := position;
                 escape_value := EscapeByte <$> from_str_radix_16 (subslice text digits position);
                 escape_diagnostic := None |}
            else bad_escape position "syntax-invalid-escape"
                   "a byte escape must contain exactly two hexadecimal digits"
          else if (escaped =? 0x75) && negb byte_string then
            if negb (byte_is text position "{") then
              bad_escape position "syntax-invalid-unicode-escape"
                "Unicode escape must use the form \u{H...}"
            else
              let digits_start := position + 1 in
              let digits_end := hex_run 7 text digits_start in
              let digits := subslice text digits_start digits_end in
              let closed := byte_is text digits_end "}" in
              let position := if closed then digits_end + 1 else digits_end in
              match (z ← from_str_radix_16 digits; char_from_u32 z) with
              | Some scalar =>
                  if negb (bool_decide (digits = [])) && (len digits <=? 6) && closed then
                    {| escape_end := position; escape_value := Some (EscapeScalar scalar);
                       escape_diagnostic := None |}
                  else bad_escape position "syntax-invalid-unicode-escape"
                         "Unicode escape must contain one to six digits naming a scalar value"
              | None => bad_escape position "syntax-invalid-unicode-escape"
                          "Unicode escape must contain one to six digits naming a scalar value"
              end
          else bad_escape position "syntax-invalid-escape" "escape is not part of Wrela revision 0.1"
      end
  end.

(** ** Literals *)

Inductive LiteralKind :=
| LiteralInteger | LiteralFloat | LiteralString | LiteralByteString | LiteralCharacter
| LiteralBoolean | LiteralUnit.

Inductive LiteralValue :=
| IntegerSpelling | FloatSpelling
| ValueText (text : str) | ValueBytes (bytes : list byte) | ValueCharacter (c : Z)
| ValueBoolean (b : bool) | ValueUnit | ValueInvalid.

Section decoding.
(** The callback [work] of the caller, with its state. *)
Context {W : Type} (work : parsing W unit).

Definition split_utf8 : ParseFailure := InternalInvariant "literal cursor split UTF-8".

(** A turn of [decode_text_body]'s loop over [(position, decoded, valid)]. *)
Definition decode_text_turn (body : str) (l : Z * str * bool)
    : parsing W (turn (Z * str * bool) (option str)) :=
  let '(position, decoded, valid) := l in
  if len body <=? position then mret (Leave (if valid then Some decoded else None)) else
  _ ← work;
  tail ← match get_from body position with Some tail => mret tail | None => fault_with BadSlice end;
  character ← require (first_char tail) split_utf8;
  if character =? 0x5C then
    let escape := decode_escape body position false in
    let '(decoded, valid) :=
      match escape_value escape, escape_diagnostic escape with
      | Some (EscapeScalar value), None => (decoded ++ encode_utf8 value, valid)
      | _, _ => (decoded, false)
      end in
    mret (Again (Z.max (escape_end escape) (position + 1), decoded, valid))
  else mret (Again (position + len_utf8 character, decoded ++ encode_utf8 character, valid)).

Definition decode_text_body (body : str) (literal_bytes : Z) : parsing W (option str) :=
  _ ← reserve_or (ParseResourceLimit "literal bytes" literal_bytes);
  turns (S (length body)) (decode_text_turn body) (0, [], true).

(** A turn of [decode_byte_body]'s loop. *)
Definition decode_byte_turn (body : str) (l : Z * list byte * bool)
    : parsing W (turn (Z * list byte * bool) (option (list byte))) :=
  let '(position, decoded, valid) := l in
  if len body <=? position then mret (Leave (if valid then Some decoded else None)) else
  _ ← work;
  tail ← match get_from body position with Some tail => mret tail | None => fault_with BadSlice end;
  character ← require (first_char tail) split_utf8;
  if character =? 0x5C then
    let escape := decode_escape body position true in
    let '(decoded, valid) :=
      match escape_value escape, escape_diagnostic escape with
      | Some (EscapeByte value), None => (decoded ++ [byte_of_Z value], valid)
      | _, _ => (decoded, false)
      end in
    mret (Again (Z.max (escape_end escape) (position + 1), decoded, valid))
  else
    let '(decoded, valid) :=
      if char_is_ascii character then (decoded ++ [byte_of_Z character], valid)
      else (decoded, false) in
    mret (Again (position + len_utf8 character, decoded, valid)).

Definition decode_byte_body (body : str) (literal_bytes : Z) : parsing W (option (list byte)) :=
  _ ← reserve_or (ParseResourceLimit "literal bytes" literal_bytes);
  turns (S (length body)) (decode_byte_turn body) (0, [], true).

(** The text between a literal's delimiters. *)
Definition literal_body (prefix suffix spelling : str) : option str :=
  value ← strip_prefix spelling prefix; strip_suffix value suffix.

Definition decode_literal_spelling (kind : LiteralKind) (spelling : str) (literal_bytes : Z)
    : parsing W LiteralValue :=
  match kind with
  | LiteralInteger => mret IntegerSpelling
  | LiteralFloat => mret FloatSpelling
  | LiteralBoolean =>
      mret (if bool_decide (spelling = ascii "true") then ValueBoolean true
            else if bool_decide (spelling = ascii "false") then ValueBoolean false
            else ValueInvalid)
  | LiteralUnit => mret (if bool_decide (spelling = ascii "unit") then ValueUnit else ValueInvalid)
  | LiteralString =>
      match literal_body [x22] [x22] spelling with
      | None => mret ValueInvalid
      | Some body =>
          decoded ← decode_text_body body literal_bytes;
          mret (match decoded with Some text => ValueText text | None => ValueInvalid end)
      end
  | LiteralByteString =>
      match literal_body [x62; x22] [x22] spelling with
      | None => mret ValueInvalid
      | Some body =>
          decoded ← decode_byte_body body literal_bytes;
          mret (match decoded with Some bytes => ValueBytes bytes | None => ValueInvalid end)
      end
  | LiteralCharacter =>
      match literal_body [x27] [x27] spelling with
      | None => mret ValueInvalid
      | Some body =>
          decoded ← decode_text_body body literal_bytes;
          mret (match decoded with
                | None => ValueInvalid
                | Some decoded =>
                    match chars decoded with
                    | [value] => ValueCharacter value
                    | _ => ValueInvalid
                    end
                end)
      end
  end.
End decoding.
