(* ===== verification/Scanner.v ===== *)
(** The scanner ([src/crates/wrela-syntax/src/parser.rs]): from the text of a
    source file to tokens, trivia and their order, with the layout tokens that
    indentation stands for.

    A method of [Scanner] is a state transformer [scanning]; the source file,
    the limits and the Unicode tables of the crates [unicode_ident] and
    [unicode_normalization] are parameters. A character is its code point, a
    position a byte offset. *)

From Stdlib Require Import Strings.Byte.
From stdpp Require Import base numbers list option strings.
From S2P Require Import Prelude Bytes Interrupt Text Source Diagnostics SyntaxTokens Literals.

#[local] Open Scope Z_scope.

Definition CANCELLATION_POLL_INTERVAL : Z := 256.

(** ** State *)

(** [DiagnosticSink]; its file and limits are parameters. *)
Record DiagnosticSink := { sink_bytes : Z; sink_diagnostics : list Diagnostic }.

Record Scanner := {
  sink : DiagnosticSink;
  poll_work : Z;                      (* the counter of [CancellationPoller] *)
  cursor : Z;                         (* [position] *)
  at_line_start : bool;
  prepared_dedent_at : option Z;
  hanging_header_at : option Z;
  hanging_header_continuation : bool;
  indentation : list Z;
  delimiters : list (Z * Z);
  tokens : list Token;
  trivia : list Trivia;
  order : list LexicalElement;
  literal_bytes : Z;
  interpolation_depth : Z;
}.

(** [Scanner::new]. *)
Definition new_scanner : Scanner := {|
  sink := {| sink_bytes := 0; sink_diagnostics := [] |}; poll_work := 0; cursor := 0;
  at_line_start := true; prepared_dedent_at := None; hanging_header_at := None;
  hanging_header_continuation := false; indentation := [0]; delimiters := []; tokens := [];
  trivia := []; order := []; literal_bytes := 0; interpolation_depth := 0 |}.

Definition with_sink (x : DiagnosticSink) (s : Scanner) : Scanner := {|
  sink := x; poll_work := poll_work s; cursor := cursor s; at_line_start := at_line_start s;
  prepared_dedent_at := prepared_dedent_at s; hanging_header_at := hanging_header_at s;
  hanging_header_continuation := hanging_header_continuation s; indentation := indentation s;
  delimiters := delimiters s; tokens := tokens s; trivia := trivia s; order := order s;
  literal_bytes := literal_bytes s; interpolation_depth := interpolation_depth s |}.
Definition with_poll_work (x : Z) (s : Scanner) : Scanner := {|
  sink := sink s; poll_work := x; cursor := cursor s; at_line_start := at_line_start s;
  prepared_dedent_at := prepared_dedent_at s; hanging_header_at := hanging_header_at s;
  hanging_header_continuation := hanging_header_continuation s; indentation := indentation s;
  delimiters := delimiters s; tokens := tokens s; trivia := trivia s; order := order s;
  literal_bytes := literal_bytes s; interpolation_depth := interpolation_depth s |}.
Definition with_cursor (x : Z) (s : Scanner) : Scanner := {|
  sink := sink s; poll_work := poll_work s; cursor := x; at_line_start := at_line_start s;
  prepared_dedent_at := prepared_dedent_at s; hanging_header_at := hanging_header_at s;
  hanging_header_continuation := hanging_header_continuation s; indentation := indentation s;
  delimiters := delimiters s; tokens := tokens s; trivia := trivia s; order := order s;
  literal_bytes := literal_bytes s; interpolation_depth := interpolation_depth s |}.
Definition with_at_line_start (x : bool) (s : Scanner) : Scanner := {|
  sink := sink s; poll_work := poll_work s; cursor := cursor s; at_line_start := x;
  prepared_dedent_at := prepared_dedent_at s; hanging_header_at := hanging_header_at s;
  hanging_header_continuation := hanging_header_continuation s; indentation := indentation s;
  delimiters := delimiters s; tokens := tokens s; trivia := trivia s; order := order s;
  literal_bytes := literal_bytes s; interpolation_depth := interpolation_depth s |}.
Definition with_prepared_dedent_at (x : option Z) (s : Scanner) : Scanner := {|
  sink := sink s; poll_work := poll_work s; cursor := cursor s;
  at_line_start := at_line_start s; prepared_dedent_at := x;
  hanging_header_at := hanging_header_at s;
  hanging_header_continuation := hanging_header_continuation s; indentation := indentation s;
  delimiters := delimiters s; tokens := tokens s; trivia := trivia s; order := order s;
  literal_bytes := literal_bytes s; interpolation_depth := interpolation_depth s |}.
Definition with_hanging_header_at (x : option Z) (s : Scanner) : Scanner := {|
  sink := sink s; poll_work := poll_work s; cursor := cursor s;
  at_line_start := at_line_start s; prepared_dedent_at := prepared_dedent_at s;
  hanging_header_at := x; hanging_header_continuation := hanging_header_continuation s;
  indentation := indentation s; delimiters := delimiters s; tokens := tokens s;
  trivia := trivia s; order := order s; literal_bytes := literal_bytes s;
  interpolation_depth := interpolation_depth s |}.
Definition with_hanging_header_continuation (x : bool) (s : Scanner) : Scanner := {|
  sink := sink s; poll_work := poll_work s; cursor := cursor s;
  at_line_start := at_line_start s; prepared_dedent_at := prepared_dedent_at s;
  hanging_header_at := hanging_header_at s; hanging_header_continuation := x;
  indentation := indentation s; delimiters := delimiters s; tokens := tokens s;
  trivia := trivia s; order := order s; literal_bytes := literal_bytes s;
  interpolation_depth := interpolation_depth s |}.
Definition with_indentation (x : list Z) (s : Scanner) : Scanner := {|
  sink := sink s; poll_work := poll_work s; cursor := cursor s;
  at_line_start := at_line_start s; prepared_dedent_at := prepared_dedent_at s;
  hanging_header_at := hanging_header_at s;
  hanging_header_continuation := hanging_header_continuation s; indentation := x;
  delimiters := delimiters s; tokens := tokens s; trivia := trivia s; order := order s;
  literal_bytes := literal_bytes s; interpolation_depth := interpolation_depth s |}.
Definition with_delimiters (x : list (Z * Z)) (s : Scanner) : Scanner := {|
  sink := sink s; poll_work := poll_work s; cursor := cursor s;
  at_line_start := at_line_start s; prepared_dedent_at := prepared_dedent_at s;
  hanging_header_at := hanging_header_at s;
  hanging_header_continuation := hanging_header_continuation s; indentation := indentation s;
  delimiters := x; tokens := tokens s; trivia := trivia s; order := order s;
  literal_bytes := literal_bytes s; interpolation_depth := interpolation_depth s |}.
Definition with_tokens (x : list Token) (s : Scanner) : Scanner := {|
  sink := sink s; poll_work := poll_work s; cursor := cursor s;
  at_line_start := at_line_start s; prepared_dedent_at := prepared_dedent_at s;
  hanging_header_at := hanging_header_at s;
  hanging_header_continuation := hanging_header_continuation s; indentation := indentation s;
  delimiters := delimiters s; tokens := x; trivia := trivia s; order := order s;
  literal_bytes := literal_bytes s; interpolation_depth := interpolation_depth s |}.
Definition with_trivia (x : list Trivia) (s : Scanner) : Scanner := {|
  sink := sink s; poll_work := poll_work s; cursor := cursor s;
  at_line_start := at_line_start s; prepared_dedent_at := prepared_dedent_at s;
  hanging_header_at := hanging_header_at s;
  hanging_header_continuation := hanging_header_continuation s; indentation := indentation s;
  delimiters := delimiters s; tokens := tokens s; trivia := x; order := order s;
  literal_bytes := literal_bytes s; interpolation_depth := interpolation_depth s |}.
Definition with_order (x : list LexicalElement) (s : Scanner) : Scanner := {|
  sink := sink s; poll_work := poll_work s; cursor := cursor s;
  at_line_start := at_line_start s; prepared_dedent_at := prepared_dedent_at s;
  hanging_header_at := hanging_header_at s;
  hanging_header_continuation := hanging_header_continuation s; indentation := indentation s;
  delimiters := delimiters s; tokens := tokens s; trivia := trivia s; order := x;
  literal_bytes := literal_bytes s; interpolation_depth := interpolation_depth s |}.
Definition with_literal_bytes (x : Z) (s : Scanner) : Scanner := {|
  sink := sink s; poll_work := poll_work s; cursor := cursor s;
  at_line_start := at_line_start s; prepared_dedent_at := prepared_dedent_at s;
  hanging_header_at := hanging_header_at s;
  hanging_header_continuation := hanging_header_continuation s; indentation := indentation s;
  delimiters := delimiters s; tokens := tokens s; trivia := trivia s; order := order s;
  literal_bytes := x; interpolation_depth := interpolation_depth s |}.
Definition with_interpolation_depth (x : Z) (s : Scanner) : Scanner := {|
  sink := sink s; poll_work := poll_work s; cursor := cursor s;
  at_line_start := at_line_start s; prepared_dedent_at := prepared_dedent_at s;
  hanging_header_at := hanging_header_at s;
  hanging_header_continuation := hanging_header_continuation s; indentation := indentation s;
  delimiters := delimiters s; tokens := tokens s; trivia := trivia s; order := order s;
  literal_bytes := literal_bytes s; interpolation_depth := x |}.

Definition scanning (A : Type) : Type := parsing Scanner A.
Definition get_state : scanning Scanner := fun s => Ret (s, s).
Definition update (f : Scanner -> Scanner) : scanning unit := fun s => Ret (tt, f s).
Definition reads {A} (f : Scanner -> A) : scanning A := fun s => Ret (f s, s).
Definition set_cursor (p : Z) : scanning unit := update (with_cursor p).
Definition advance_by (n : Z) : scanning unit := update (fun s => with_cursor (cursor s + n) s).

(** [CancellationPoller::work] and [checkpoint]. *)
Definition work : scanning unit := fun s =>
  let next := poll_work s + 1 in
  if next =? CANCELLATION_POLL_INTERVAL
  then _ ← poll (ParseFailed ParseCancelled); Ret (tt, with_poll_work 0 s)
  else Ret (tt, with_poll_work next s).
Definition checkpoint : scanning unit := liftS (poll (ParseFailed ParseCancelled)).

(** ** Messages *)

Definition radix_digit (d : Z) : byte := byte_of_Z (if d <? 10 then 0x30 + d else 0x41 + d - 10).
(** The digits of a number, in a base of at most sixteen. *)
Fixpoint radix_digits (base : Z) (fuel : nat) (z : Z) (acc : str) : str :=
  match fuel with
  | O => acc
  | Datatypes.S fuel =>
      let acc := radix_digit (z mod base) :: acc in
      if z / base =? 0 then acc else radix_digits base fuel (z / base) acc
  end.
(** [format!("{:04X}", c)] of a code point. *)
Definition format_04X (c : Z) : str :=
  let digits := radix_digits 16 8 c [] in
  replicate (4 - length digits)%nat "0"%byte ++ digits.
(** [format!("{}", n)] of a [usize]. *)
Definition format_decimal (n : Z) : str := radix_digits 10 20 n [].
(** [format!("{c:?}")] of a bracket. *)
Definition format_bracket (c : Z) : str := [x27; byte_of_Z c; x27].

(** [c == b] for an ASCII character [b]. *)
Definition char_is (c : Z) (b : byte) : bool := c =? Z_of_byte b.
Definition is_line_end (c : Z) : bool := char_is c x0a || char_is c x0d.
Definition byte_is_line_end (text : str) (position : Z) : bool :=
  byte_is text position x0a || byte_is text position x0d.
Definition byte_is_space (text : str) (position : Z) : bool :=
  byte_is text position " " || byte_is text position x09.

(** [is_forbidden_raw_character]. *)
Definition is_forbidden_raw_character (value : Z) : bool :=
  (value =? 0x00ad) || (value =? 0x034f) || (value =? 0x061c) || between 0x115f 0x1160 value
  || between 0x17b4 0x17b5 value || between 0x180b 0x180f value || between 0x200b 0x200f value
  || between 0x202a 0x202e value || between 0x2060 0x206f value || (value =? 0x3164)
  || between 0xfe00 0xfe0f value || (value =? 0xfeff) || (value =? 0xffa0)
  || between 0xfff0 0xfff8 value || between 0x1bca0 0x1bca3 value || between 0x1d173 0x1d17a value
  || between 0xe0000 0xe0fff value.

(** The literals the scanner tests for: b followed by a quotation mark, f
    followed by one, three of them. *)
Definition byte_quote : str := [x62; x22].
Definition f_quote : str := [x66; x22].
Definition triple_quote : str := [x22; x22; x22].
Definition CRLF : str := [x0d; x0a].

Record SignificantLine := {
  line_indentation : Z;
  prefix_start : Z;
  prefix_end : Z;
  code_offset : option Z;
}.

(** Operators of several characters, in the order they are tried. *)
Definition multi : list (string * TokenKind) := [
  (">>=", OperatorToken OpShiftRightAssign); ("<<=", OperatorToken OpShiftLeftAssign);
  ("..=", OperatorToken OpRangeInclusive); ("->", PunctuationToken PArrow);
  ("==", OperatorToken OpEqual); ("!=", OperatorToken OpNotEqual);
  ("<=", OperatorToken OpLessEqual); (">=", OperatorToken OpGreaterEqual);
  ("+=", OperatorToken OpAddAssign); ("-=", OperatorToken OpSubtractAssign);
  ("*=", OperatorToken OpMultiplyAssign); ("/=", OperatorToken OpDivideAssign);
  ("%=", OperatorToken OpRemainderAssign); ("&=", OperatorToken OpBitAndAssign);
  ("|=", OperatorToken OpBitOrAssign); ("^=", OperatorToken OpBitXorAssign);
  ("<<", OperatorToken OpShiftLeft); (">>", OperatorToken OpShiftRight);
  ("+%", OperatorToken OpAddWrapping); ("-%", OperatorToken OpSubtractWrapping);
  ("*%", OperatorToken OpMultiplyWrapping); ("..", OperatorToken OpRange)].

(** The token of one character; a semicolon outside brackets is not one of them. *)
Definition single : list (byte * TokenKind) := [
  ("@"%byte, PunctuationToken PAt); ("."%byte, PunctuationToken PDot);
  (","%byte, PunctuationToken PComma); (":"%byte, PunctuationToken PColon);
  (";"%byte, PunctuationToken PSemicolon); ("("%byte, PunctuationToken PLeftParen);
  (")"%byte, PunctuationToken PRightParen); ("["%byte, PunctuationToken PLeftBracket);
  ("]"%byte, PunctuationToken PRightBracket); ("{"%byte, PunctuationToken PLeftBrace);
  ("}"%byte, PunctuationToken PRightBrace); ("?"%byte, PunctuationToken PQuestion);
  ("|"%byte, PunctuationToken PPipe); ("="%byte, OperatorToken OpAssign);
  ("+"%byte, OperatorToken OpAdd); ("-"%byte, OperatorToken OpSubtract);
  ("*"%byte, OperatorToken OpMultiply); ("/"%byte, OperatorToken OpDivide);
  ("%"%byte, OperatorToken OpRemainder); ("&"%byte, OperatorToken OpBitAnd);
  ("^"%byte, OperatorToken OpBitXor); ("<"%byte, OperatorToken OpLess);
  (">"%byte, OperatorToken OpGreater); ("~"%byte, OperatorToken OpBitNot)].

Section scanner.
Context (source : SourceFile) (limits : ParseLimits).
(** [unicode_ident::is_xid_start], [is_xid_continue] and the normal form C of
    [unicode_normalization]. *)
Context (is_xid_start is_xid_continue : Z -> bool) (nfc : list Z -> list Z).

Definition text : str := source_text source.

(** A [while] loop whose body says whether to go on; every turn of the
    scanner's loops moves at least one byte. *)
Definition while_going (body : scanning bool) : scanning unit :=
  turns (S (length text)) (fun _ : unit => going ← body; mret (if going : bool then Again tt else Leave tt)) tt.

Definition limit_error (resource : string) (limit : Z) : ParseFailure := ParseResourceLimit resource limit.
Definition depth_error : ParseFailure :=
  ParseResourceLimit "scanner nesting depth" (limit_nesting_depth limits).

(** [DiagnosticSink::error]. *)
Definition report (code : string) (start end_ : Z) (message : str) : scanning unit :=
  s ← get_state;
  let d := sink s in
  _ ← reject_if (limit_diagnostics limits <=? len (sink_diagnostics d))
        (limit_error "diagnostics" (limit_diagnostics limits));
  let bytes_error := limit_error "diagnostic bytes" (limit_diagnostic_bytes limits) in
  next ← require (checked_add 64 (sink_bytes d) (len (ascii code) + len message)) bytes_error;
  _ ← reject_if (limit_diagnostic_bytes limits <? next) bytes_error;
  _ ← reserve_or (limit_error "diagnostics" (limit_diagnostics limits));
  let plain := error SYNTAX
    {| file := source_id source; range := {| start_ := start mod 2 ^ 32; end_ := end_ mod 2 ^ 32 |} |}
    message in
  let diagnostic := {|
    category := category plain; code := Some (ascii code); severity := severity plain;
    primary := primary plain; message := Diagnostics.message plain; labels := labels plain;
    notes := notes plain; help := help plain; related := related plain; repairs := repairs plain |} in
  update (with_sink {| sink_bytes := next; sink_diagnostics := sink_diagnostics d ++ [diagnostic] |}).

(** ** Tokens and trivia *)

Definition span (start end_ : Z) : Span :=
  {| file := source_id source; range := {| start_ := start mod 2 ^ 32; end_ := end_ mod 2 ^ 32 |} |}.

Definition remaining : scanning str :=
  s ← get_state;
  match get_from text (cursor s) with Some tail => mret tail | None => fault_with BadSlice end.

Definition current_char : scanning Z :=
  tail ← remaining;
  require (first_char tail) (InternalInvariant "scanner requested a character at end of input").

Definition at_end : scanning bool := reads (fun s => len text <=? cursor s).

Definition check_token_capacity : scanning unit :=
  s ← get_state;
  _ ← reject_if (limit_tokens limits <=? len (tokens s)) (limit_error "tokens" (limit_tokens limits));
  _ ← reserve_or (limit_error "tokens" (limit_tokens limits));
  reserve_or (limit_error "lexical elements" (limit_tokens limits)).

(** [self.tokens.push(..); self.order.push(..)]. *)
Definition push_token (kind : TokenKind) (where_ : Span) (origin : option NewlineOrigin)
    (raw : option str) (made_up : bool) : scanning unit :=
  update (fun s =>
    let id := len (tokens s) mod 2 ^ 32 in
    with_order (order s ++ [ElementToken id])
      (with_tokens (tokens s ++ [{| token_id := id; token_kind := kind; token_span := where_;
                                    newline_origin := origin; token_spelling := raw;
                                    synthetic := made_up |}]) s)).

Definition push_physical (kind : TokenKind) (start end_ : Z) (origin : option NewlineOrigin)
    (spelling : bool) : scanning unit :=
  _ ← check_token_capacity;
  raw ← (if spelling then
           _ ← (if is_literal_token kind then
                  s ← get_state;
                  let bytes_error := limit_error "literal bytes" (limit_literal_bytes limits) in
                  next ← require (checked_add 64 (literal_bytes s) (end_ - start)) bytes_error;
                  _ ← reject_if (limit_literal_bytes limits <? next) bytes_error;
                  update (with_literal_bytes next)
                else mret tt);
           match get_slice text start end_ with
           | Some raw => mret (Some raw)
           | None => fault_with BadSlice
           end
         else mret None);
  push_token kind (span start end_) origin raw false.

Definition push_synthetic (kind : TokenKind) (position : Z) (origin : option NewlineOrigin)
    : scanning unit :=
  _ ← check_token_capacity;
  push_token kind (span position position) origin None true.

Definition push_trivia (kind : TriviaKind) (start end_ : Z) : scanning unit :=
  _ ← (if start <? end_ then mret tt else fault_with AssertionFailed);
  _ ← reserve_or (limit_error "lexical trivia" (limit_tokens limits));
  _ ← reserve_or (limit_error "lexical elements" (limit_tokens limits));
  update (fun s =>
    let id := len (trivia s) mod 2 ^ 32 in
    with_order (order s ++ [ElementTrivia id])
      (with_trivia (trivia s ++ [{| trivia_id := id; trivia_kind := kind;
                                    trivia_span := span start end_ |}]) s)).

(** ** Layout *)

Definition current_indentation : scanning Z :=
  s ← get_state;
  require (last (indentation s)) (InternalInvariant "scanner lost its root indentation").

Definition pop_indentation : scanning unit :=
  update (fun s => with_indentation (removelast (indentation s)) s).

(** [while indentation.len() > 1 && current_indentation()? > indentation]:
    the number of levels left, [each] after every pop. *)
Definition close_levels (target : Z) (each : scanning unit) : scanning nat :=
  s ← get_state;
  turns (S (length (indentation s))) (fun closed =>
    s ← get_state;
    if len (indentation s) <=? 1 then mret (Leave closed) else
    current ← current_indentation;
    if current <=? target then mret (Leave closed) else
    _ ← pop_indentation; _ ← each; mret (Again (S closed))) 0%nat.

Definition dedent_message : str := ascii "dedent does not match an earlier indentation level".

Definition apply_indentation (target : Z) : scanning unit :=
  current ← current_indentation;
  s ← get_state;
  if current <? target then
    _ ← (if target =? current + 4 then mret tt else
         report "syntax-invalid-indentation" (saturating_sub (cursor s) target) (cursor s)
           (ascii "indentation must increase by exactly four spaces from column "
            ++ format_decimal (current + 1)));
    _ ← reject_if (limit_nesting_depth limits <=? len (indentation s) mod 2 ^ 32) depth_error;
    _ ← reserve_or depth_error;
    _ ← update (fun s => with_indentation (indentation s ++ [target]) s);
    push_synthetic Indent (cursor s) None
  else if target <? current then
    _ ← close_levels target (push_synthetic Dedent (cursor s) None);
    current ← current_indentation;
    if current =? target then mret tt
    else report "syntax-inconsistent-dedent" (saturating_sub (cursor s) target) (cursor s) dedent_message
  else mret tt.

(** [if self.remaining().starts_with(..) { .. BlankLine .. }]. *)
Definition push_blank_line (width : Z) : scanning unit :=
  newline ← reads cursor;
  _ ← advance_by width;
  push_trivia BlankLine newline (newline + width).

Definition scan_comment : scanning unit :=
  start ← reads cursor;
  _ ← while_going (
    s ← get_state;
    if (len text <=? cursor s) || byte_is_line_end text (cursor s) then mret false else
    character ← current_char;
    _ ← advance_by (len_utf8 character);
    _ ← work; mret true);
  end_ ← reads cursor;
  push_trivia Comment start end_.

(** The leading blanks of a line: its indentation and its first tab. *)
Definition scan_prefix : scanning (Z * option Z) :=
  turns (S (length text)) (fun '(columns, first_tab) =>
    position ← reads cursor;
    if byte_is text position " " then
      _ ← advance_by 1; mret (Again (columns + 1, first_tab))
    else if byte_is text position x09 then
      _ ← advance_by 1;
      mret (Again ((columns / 4 + 1) * 4,
                   match first_tab with Some tab => Some tab | None => Some position end))
    else mret (Leave (columns, first_tab))) (0, None).

(** [scan_line_prefix]: [true] when the whole line was trivia. *)
Definition scan_line_prefix : scanning bool :=
  start ← reads cursor;
  '(columns, first_tab) ← scan_prefix;
  position ← reads cursor;
  _ ← (if start <? position then push_trivia Spaces start position else mret tt);
  _ ← match first_tab with
      | Some tab => report "syntax-leading-tab" tab (tab + 1)
                      (ascii "tabs are forbidden in leading indentation")
      | None => mret tt
      end;
  if position =? len text then mret true else
  tail ← remaining;
  if starts_with tail [x0a] then _ ← push_blank_line 1; mret true else
  if starts_with tail CRLF then _ ← push_blank_line 2; mret true else
  if starts_with tail (ascii "#") then
    _ ← scan_comment;
    finished ← at_end;
    _ ← (if finished : bool then mret tt else
         tail ← remaining;
         if starts_with tail CRLF then push_blank_line 2
         else if starts_with tail [x0a] then push_blank_line 1 else mret tt);
    mret true
  else
  s ← get_state;
  _ ← (if bool_decide (hanging_header_at s = Some (cursor s)) then
         update (with_hanging_header_at None)
       else if bool_decide (prepared_dedent_at s = Some (cursor s)) then
         update (with_prepared_dedent_at None)
       else if bool_decide (delimiters s = []) then
         _ ← update (with_prepared_dedent_at None); apply_indentation columns
       else mret tt);
  _ ← update (with_at_line_start false);
  mret false.

Definition scan_horizontal_space : scanning unit :=
  start ← reads cursor;
  _ ← while_going (
    position ← reads cursor;
    if byte_is_space text position then _ ← advance_by 1; mret true else mret false);
  end_ ← reads cursor;
  push_trivia Spaces start end_.

(** ** Line ends *)

(** The blanks at the front of a line, from [position]: where they end and the
    indentation they make. *)
Definition measure_prefix (position : Z) : scanning (Z * Z) :=
  turns (S (length text)) (fun '(position, columns) =>
    if len text <=? position then mret (Leave (position, columns)) else
    _ ← work;
    if byte_is text position " " then mret (Again (position + 1, columns + 1))
    else if byte_is text position x09 then mret (Again (position + 1, (columns / 4 + 1) * 4))
    else mret (Leave (position, columns))) (position, 0).

(** The end of the comment at [position]. *)
Definition skip_comment (position : Z) : scanning Z :=
  turns (S (length text)) (fun position =>
    if (len text <=? position) || byte_is_line_end text position then mret (Leave position)
    else _ ← work; mret (Again (position + 1))) position.

Definition next_significant_line (after_newline : Z) : scanning SignificantLine :=
  turns (S (length text)) (fun line_start =>
    '(position, columns) ← measure_prefix line_start;
    let at_end_of_text := {| line_indentation := 0; prefix_start := line_start;
                             prefix_end := position; code_offset := None |} in
    if position =? len text then mret (Leave at_end_of_text) else
    if byte_is text position x0a then mret (Again (position + 1)) else
    if byte_is text position x0d && byte_is text (position + 1) x0a then mret (Again (position + 2)) else
    if byte_is text position "#" then
      after ← skip_comment position;
      if after =? len text then mret (Leave at_end_of_text) else
      if byte_is text after x0d && byte_is text (after + 1) x0a then mret (Again (after + 2))
      else mret (Again (after + 1))
    else mret (Leave {| line_indentation := columns; prefix_start := line_start;
                        prefix_end := position; code_offset := Some position |})) after_newline.

Definition is_layout_token (kind : TokenKind) : bool :=
  match kind with Newline | Indent | Dedent => true | _ => false end.

Definition kind_at (ts : list Token) (index : nat) : option TokenKind := token_kind <$> ts !! index.

(** The index of the first token of the current line. *)
Definition line_first_token : scanning nat :=
  ts ← reads tokens;
  turns (S (length ts)) (fun start =>
    match start with
    | O => mret (Leave O)
    | S before =>
        _ ← work;
        if match kind_at ts before with Some kind => is_layout_token kind | None => false end
        then mret (Leave start) else mret (Again before)
    end) (length ts).

Definition starts_header (kind : option TokenKind) : bool :=
  match kind with
  | Some (KeywordToken (KwProjection | KwScope | KwFn | KwInit)) => true
  | _ => false
  end.
Definition modifies_header (kind : option TokenKind) : bool :=
  match kind with
  | Some (KeywordToken (KwAsync | KwIsr | KwComptime)) => true
  | _ => false
  end.

Definition current_line_starts_declaration_header : scanning bool :=
  start ← line_first_token;
  ts ← reads tokens;
  let start := if bool_decide (kind_at ts start = Some (KeywordToken KwPub)) then S start else start in
  let first := kind_at ts start in
  mret (starts_header first
        || (modifies_header first && bool_decide (kind_at ts (S start) = Some (KeywordToken KwFn)))).

Definition last_kind (s : Scanner) : option TokenKind := token_kind <$> last (tokens s).

(** The condition of a hanging header; its operands are evaluated in order, the
    last one only when the others hold. *)
Definition is_hanging_header (next_line : SignificantLine) (current : Z) : scanning bool :=
  s ← get_state;
  if negb (hanging_header_continuation s)
     && (current <? line_indentation next_line)
     && match code_offset next_line with
        | Some offset => starts_with (drop (Z.to_nat offset) text) (ascii "->")
        | None => false
        end
     && bool_decide (last_kind s = Some (PunctuationToken PRightParen))
  then current_line_starts_declaration_header
  else mret false.

(** [for level in 0..closed_levels]. *)
Fixpoint push_dedents (start end_ : Z) (level remaining_levels : nat) : scanning unit :=
  match remaining_levels with
  | O => mret tt
  | S remaining_levels =>
      _ ← push_synthetic Dedent (if (level =? 0)%nat then start else end_) None;
      _ ← (if (level =? 0)%nat then
             _ ← set_cursor end_;
             push_physical Newline start end_ (Some OriginPhysical) false
           else push_synthetic Newline end_ (Some OriginPhysical));
      push_dedents start end_ (S level) remaining_levels
  end.

Definition scan_newline (width : Z) : scanning unit :=
  start ← reads cursor;
  let end_ := start + width in
  s ← get_state;
  _ ← (if bool_decide (delimiters s = []) then
         next_line ← next_significant_line end_;
         current ← current_indentation;
         hanging_header ← is_hanging_header next_line current;
         if hanging_header : bool then
           _ ← set_cursor end_;
           _ ← push_trivia SuppressedPhysicalNewline start end_;
           _ ← update (with_hanging_header_at (code_offset next_line));
           update (with_hanging_header_continuation true)
         else if line_indentation next_line <? current then
           _ ← update (with_hanging_header_continuation false);
           closed_levels ← close_levels (line_indentation next_line) (mret tt);
           current ← current_indentation;
           _ ← (if current =? line_indentation next_line then mret tt else
                report "syntax-inconsistent-dedent" (prefix_start next_line) (prefix_end next_line)
                  dedent_message);
           _ ← push_dedents start end_ 0 closed_levels;
           update (with_prepared_dedent_at (code_offset next_line))
         else
           _ ← update (with_hanging_header_continuation false);
           _ ← set_cursor end_;
           push_physical Newline start end_ (Some OriginPhysical) false
       else
         _ ← set_cursor end_;
         push_trivia SuppressedPhysicalNewline start end_);
  update (with_at_line_start true).

(** ** Identifiers and numbers *)

Definition scan_identifier : scanning unit :=
  start ← reads cursor;
  first ← current_char;
  _ ← advance_by (len_utf8 first);
  _ ← while_going (
    finished ← at_end;
    if finished : bool then mret false else
    character ← current_char;
    if is_xid_continue character || char_is character "_" then
      _ ← advance_by (len_utf8 character); _ ← work; mret true
    else mret false);
  end_ ← reads cursor;
  spelling ← match get_slice text start end_ with
             | Some spelling => mret spelling
             | None => fault_with BadSlice
             end;
  _ ← (if negb (bool_decide (spelling = ascii "_")) && char_is first "_" then
         report "syntax-invalid-identifier-start" start (start + 1)
           (ascii "an identifier must begin with a Unicode XID_Start character")
       else mret tt);
  _ ← (if bool_decide (nfc (chars spelling) = chars spelling) then mret tt else
       report "syntax-non-nfc-identifier" start end_
         (ascii "identifier spelling is not Unicode NFC"));
  let kind := match keyword spelling with Some k => KeywordToken k | None => Identifier end in
  push_physical kind start end_ None (bool_decide (kind = Identifier)).

(** A digit of a base, or an underscore. *)
Definition digit_below (base : Z) (b : byte) : bool :=
  match digit_value b with Some value => value <? base | None => false end.
Definition digit_or_underscore (digit : byte -> bool) (position : Z) : bool :=
  match byte_at text position with
  | Some b => digit b || bool_decide (b = "_"%byte)
  | None => false
  end.

(** [while .. { self.position += 1; self.cancellation.work()?; }]. *)
Definition scan_digits (digit : byte -> bool) : scanning unit :=
  while_going (
    position ← reads cursor;
    if digit_or_underscore digit position then _ ← advance_by 1; _ ← work; mret true
    else mret false).

(** The test of [validate_digit_run] on one index of [start..end]. *)
Definition digit_ok (base start end_ : Z) (index : Z) : bool :=
  let digit_at position := match byte_at text position with
                           | Some b => digit_below base b | None => false end in
  digit_at index
  || (byte_is text index "_" && (start <? index) && (index + 1 <? end_)
      && digit_at (index - 1) && digit_at (index + 1)).

Definition validate_digit_run (start end_ base : Z) : scanning unit :=
  let valid := (start <? end_)
    && forallb (fun offset => digit_ok base start end_ (start + Z.of_nat offset))
         (seq 0 (Z.to_nat (end_ - start))) in
  if valid then mret tt else
  report "syntax-invalid-number" start end_
    (ascii "numeric literal has an invalid base-" ++ format_decimal base
     ++ ascii " digit or underscore").

(** The base of a prefix [0x], [0o] or [0b]. *)
Definition prefix_base (b : byte) : option Z :=
  if bool_decide (b = "x"%byte) || bool_decide (b = "X"%byte) then Some 16
  else if bool_decide (b = "o"%byte) || bool_decide (b = "O"%byte) then Some 8
  else if bool_decide (b = "b"%byte) || bool_decide (b = "B"%byte) then Some 2
  else None.

Definition scan_number : scanning unit :=
  start ← reads cursor;
  match (if byte_is text start "0" then b ← byte_at text (start + 1); prefix_base b else None) with
  | Some base =>
      _ ← advance_by 2;
      digits_start ← reads cursor;
      _ ← scan_digits (digit_below base);
      end_ ← reads cursor;
      _ ← validate_digit_run digits_start end_ base;
      push_physical IntegerLiteral start end_ None true
  | None =>
      _ ← scan_digits is_ascii_digit;
      position ← reads cursor;
      _ ← validate_digit_run start position 10;
      let fractional := byte_is text position "."
        && match byte_at text (position + 1) with Some b => is_ascii_digit b | None => false end in
      _ ← (if fractional then
             _ ← advance_by 1;
             fraction ← reads cursor;
             _ ← scan_digits is_ascii_digit;
             end_ ← reads cursor;
             validate_digit_run fraction end_ 10
           else mret tt);
      position ← reads cursor;
      let scientific := byte_is text position "e" || byte_is text position "E" in
      _ ← (if scientific then
             _ ← advance_by 1;
             position ← reads cursor;
             _ ← (if byte_is text position "+" || byte_is text position "-" then advance_by 1
                  else mret tt);
             exponent ← reads cursor;
             _ ← scan_digits is_ascii_digit;
             end_ ← reads cursor;
             validate_digit_run exponent end_ 10
           else mret tt);
      end_ ← reads cursor;
      push_physical (if fractional || scientific then FloatLiteral else IntegerLiteral)
        start end_ None true
  end.

(** ** Quoted literals *)

Definition scan_escape (byte_string : bool) : scanning unit :=
  start ← reads cursor;
  let decoded := decode_escape text start byte_string in
  _ ← set_cursor (escape_end decoded);
  match escape_diagnostic decoded with
  | Some diagnostic => report (escape_code diagnostic) start (escape_end decoded)
                         (ascii (escape_message diagnostic))
  | None => mret tt
  end.

Definition unterminated (start : Z) : scanning unit :=
  end_ ← reads cursor;
  report "syntax-unterminated-literal" start end_
    (ascii "literal is not terminated before the physical newline or end of file").

Definition brace_code : string := "syntax-unmatched-interpolation-brace".
Definition closing_brace_message : str := ascii "unmatched closing brace in interpolated string".
Definition opening_brace_message : str := ascii "interpolated string has an unmatched opening brace".

(** What a turn of [scan_quoted]'s loop does with a brace of an interpolated
    literal; [None] when the turn ends there. *)
Definition quoted_brace (character depth : Z) : scanning (option Z) :=
  tail ← remaining;
  position ← reads cursor;
  if char_is character "{" then
    if starts_with tail (ascii "{{") then _ ← advance_by 2; mret None else mret (Some (depth + 1))
  else if char_is character "}" then
    if starts_with tail (ascii "}}") && (depth =? 0) then _ ← advance_by 2; mret None
    else if depth =? 0 then
      _ ← report brace_code position (position + 1) closing_brace_message; mret (Some depth)
    else mret (Some (depth - 1))
  else mret (Some depth).

(** A turn of [scan_quoted]'s loop over [(decoded_scalars, depth)]; it ends with
    these and [terminated]. *)
Definition scan_quoted_turn (quote : byte) (byte_string interpolated : bool) (l : Z * Z)
    : scanning (turn (Z * Z) (Z * Z * bool)) :=
  let '(scalars, depth) := l in
  finished ← at_end;
  if finished : bool then mret (Leave (scalars, depth, false)) else
  _ ← work;
  character ← current_char;
  if char_is character quote && (depth =? 0) then
    _ ← advance_by (len_utf8 character); mret (Leave (scalars, depth, true))
  else if is_line_end character then mret (Leave (scalars, depth, false))
  else if char_is character "\" then _ ← scan_escape byte_string; mret (Again (scalars + 1, depth))
  else
    brace ← (if interpolated then quoted_brace character depth else mret (Some depth));
    match brace with
    | None => mret (Again (scalars + 1, depth))
    | Some depth =>
        position ← reads cursor;
        _ ← (if byte_string && negb (char_is_ascii character) then
               report "syntax-non-ascii-byte-string" position (position + len_utf8 character)
                 (ascii "byte strings permit only ASCII source characters and escapes")
             else mret tt);
        _ ← advance_by (len_utf8 character);
        mret (Again (scalars + 1, depth))
    end.

Definition scan_quoted (kind : TokenKind) (prefix_bytes : Z) (byte_string interpolated : bool)
    : scanning unit :=
  start ← reads cursor;
  let quote := if bool_decide (kind = CharacterLiteral) then x27 else x22 in
  _ ← advance_by (prefix_bytes + 1);
  '(scalars, depth, terminated) ←
    turns (S (length text)) (scan_quoted_turn quote byte_string interpolated) (0, 0);
  _ ← (if terminated : bool then mret tt else unterminated start);
  end_ ← reads cursor;
  _ ← (if depth =? 0 then mret tt else report brace_code start end_ opening_brace_message);
  _ ← (if bool_decide (kind = CharacterLiteral) && negb (scalars =? 1) then
         report "syntax-invalid-character-literal" start end_
           (ascii "a character literal must decode to exactly one Unicode scalar")
       else mret tt);
  push_physical kind start end_ None true.

Definition scan_character_literal : scanning unit := scan_quoted CharacterLiteral 0 false false.

Definition scan_reserved_triple_quoted : scanning unit :=
  start ← reads cursor;
  _ ← report "syntax-reserved-multiline-string" start (start + 3)
        (ascii "triple-quoted strings are reserved and are not legal in revision 0.1");
  _ ← advance_by 3;
  _ ← while_going (
    finished ← at_end;
    if finished : bool then mret false else
    _ ← work;
    tail ← remaining;
    if starts_with tail triple_quote then _ ← advance_by 3; mret false else
    character ← current_char;
    if is_line_end character then mret false else
    _ ← advance_by (len_utf8 character); mret true);
  end_ ← reads cursor;
  push_physical StringLiteral start end_ None true.

(** ** Punctuation *)

Definition unmatched_delimiter (character start : Z) : scanning unit :=
  end_ ← reads cursor;
  report "syntax-unmatched-delimiter" start end_
    (ascii "closing delimiter " ++ format_bracket character ++ ascii " has no matching opener").

(** The opener a closing bracket expects. *)
Definition opener_of (character : Z) : option Z :=
  if char_is character ")" then Some (Z_of_byte "(")
  else if char_is character "]" then Some (Z_of_byte "[")
  else if char_is character "}" then Some (Z_of_byte "{") else None.

Definition update_delimiters (character start : Z) : scanning unit :=
  s ← get_state;
  if char_is character "(" || char_is character "[" || char_is character "{" then
    _ ← reject_if (limit_nesting_depth limits <=? len (delimiters s) mod 2 ^ 32) depth_error;
    _ ← reserve_or depth_error;
    update (fun s => with_delimiters (delimiters s ++ [(character, start)]) s)
  else match opener_of character with
  | Some expected =>
      if bool_decide (fst <$> last (delimiters s) = Some expected)
      then update (fun s => with_delimiters (removelast (delimiters s)) s)
      else unmatched_delimiter character start
  | None => mret tt
  end.

Definition find_multi (tail : str) : option (string * TokenKind) :=
  List.find (fun '(spelling, _) => starts_with tail (ascii spelling)) multi.
Definition find_single (character : Z) : option TokenKind :=
  snd <$> List.find (fun '(b, _) => char_is character b) single.

Definition scan_punctuation_or_error : scanning unit :=
  start ← reads cursor;
  tail ← remaining;
  match find_multi tail with
  | Some (spelling, kind) =>
      _ ← advance_by (len (ascii spelling));
      end_ ← reads cursor;
      push_physical kind start end_ None false
  | None =>
      character ← current_char;
      _ ← advance_by (len_utf8 character);
      end_ ← reads cursor;
      s ← get_state;
      if char_is character ";" && bool_decide (delimiters s = []) then
        push_physical Newline start end_ (Some OriginSemicolon) false
      else
        kind ← match find_single character with
               | Some kind => mret kind
               | None =>
                   _ ← report "syntax-unexpected-character" start end_
                         (ascii "unexpected source character U+" ++ format_04X character);
                   mret ErrorToken
               end;
        _ ← update_delimiters character start;
        push_physical kind start end_ None (bool_decide (kind = ErrorToken))
  end.

(** A raw character that is forbidden anywhere. *)
Definition scan_forbidden (character : Z) : scanning unit :=
  start ← reads cursor;
  _ ← advance_by (len_utf8 character);
  end_ ← reads cursor;
  push_physical ErrorToken start end_ None true.

(** ** Interpolated strings *)

(** The arms of the scanner's two dispatches from identifiers on. *)
Definition scan_word_or_punctuation (character : Z) : scanning unit :=
  if between 0x30 0x39 character then scan_number
  else if char_is character "_" then scan_identifier
  else if is_xid_start character then scan_identifier
  else if is_forbidden_raw_character character then scan_forbidden character
  else scan_punctuation_or_error.

(** The arms for literals, which both dispatches share too. *)
Definition scan_literal_or_word (scan_interpolated : scanning unit) (character : Z) (tail : str)
    : scanning unit :=
  if char_is character "b" && starts_with tail byte_quote then scan_quoted ByteStringLiteral 1 true false
  else if char_is character "f" && starts_with tail f_quote then scan_interpolated
  else if char_is character x22 && starts_with tail triple_quote then scan_reserved_triple_quoted
  else if char_is character x22 then scan_quoted StringLiteral 0 false false
  else if char_is character x27 then scan_character_literal
  else scan_word_or_punctuation character.

Definition push_interpolation_text (start end_ : Z) : scanning unit :=
  if start <? end_ then push_physical InterpolatedStringText start end_ None true else mret tt.

(** [interpolation_colon_starts_format]; [None] when the slice panics. *)
Definition interpolation_colon_starts_format (s : Scanner) (first : nat) (base_pipe_count : Z)
    : option bool :=
  if (length (tokens s) <? first)%nat then None else
  let pipe := PunctuationToken PPipe in
  let kind index := kind_at (tokens s) (first + index)%nat in
  let closure_prefix :=
    match kind 0%nat with
    | Some (PunctuationToken PPipe) => true
    | Some (KeywordToken KwTake) => bool_decide (kind 1%nat = Some pipe)
    | Some (KeywordToken KwAsync) =>
        bool_decide (kind 1%nat = Some pipe)
        || (bool_decide (kind 1%nat = Some (KeywordToken KwTake))
            && bool_decide (kind 2%nat = Some pipe))
    | _ => false
    end in
  Some (negb closure_prefix || (2 <=? base_pipe_count)).

(** A brace or colon of an interpolation. *)
Definition push_mark (kind : TokenKind) : scanning unit :=
  start ← reads cursor;
  _ ← advance_by 1;
  push_physical kind start (start + 1) None false.

Definition unmatched_opening (opening : Z) : scanning unit :=
  end_ ← reads cursor; report brace_code opening end_ opening_brace_message.

Definition scan_interpolation_format (opening : Z) : scanning unit :=
  start ← reads cursor;
  _ ← while_going (
    finished ← at_end;
    if finished : bool then mret false else
    _ ← work;
    character ← current_char;
    if char_is character "}" then mret false else
    if is_line_end character || char_is character x22 then mret false else
    position ← reads cursor;
    _ ← (if char_is character "{" then
           report "syntax-interpolation-format-brace" position (position + 1)
             (ascii "interpolation format specifications cannot contain braces")
         else mret tt);
    _ ← (if char_is_ascii character then mret tt else
         report "syntax-interpolation-format-ascii" position (position + len_utf8 character)
           (ascii "interpolation format specifications must be ASCII"));
    _ ← advance_by (len_utf8 character); mret true);
  end_ ← reads cursor;
  _ ← (if start =? end_ then
         report "syntax-empty-interpolation-format" start start
           (ascii "interpolation format specifications cannot be empty")
       else push_physical InterpolationFormat start end_ None true);
  closed ← (if end_ <? len text then character ← current_char; mret (char_is character "}")
            else mret false);
  if closed : bool then push_mark (PunctuationToken PRightBrace) else unmatched_opening opening.

Definition scan_interpolation_expression_token (scan_interpolated : scanning unit)
    (delimiter_base : nat) : scanning unit :=
  start ← reads cursor;
  character ← current_char;
  s ← get_state;
  if (length (delimiters s) =? delimiter_base)%nat
     && (char_is character ")" || char_is character "]") then
    _ ← advance_by 1;
    _ ← unmatched_delimiter character start;
    end_ ← reads cursor;
    push_physical (PunctuationToken (if char_is character ")" then PRightParen else PRightBracket))
      start end_ None false
  else
    tail ← remaining;
    if char_is character " " || char_is character x09 then scan_horizontal_space
    else if char_is character "#" then scan_comment
    else scan_literal_or_word scan_interpolated character tail.

(** A turn of [scan_interpolation_value]'s loop over [base_pipe_count]; it ends
    with whether the method returned from the loop. *)
Definition scan_interpolation_value_turn (scan_interpolated : scanning unit) (opening : Z)
    (delimiter_base expression_token_start : nat) (base_pipe_count : Z)
    : scanning (turn Z bool) :=
  finished ← at_end;
  if finished : bool then mret (Leave false) else
  _ ← work;
  character ← current_char;
  if is_line_end character then mret (Leave false) else
  s ← get_state;
  let at_base := (length (delimiters s) =? delimiter_base)%nat in
  if at_base && char_is character "}" then
    _ ← push_mark (PunctuationToken PRightBrace); mret (Leave true)
  else
  starts_format ← (if at_base && char_is character ":" then
      match interpolation_colon_starts_format s expression_token_start base_pipe_count with
      | Some b => mret b
      | None => fault_with BadSlice
      end else mret false);
  if starts_format : bool then
    _ ← push_mark (PunctuationToken PColon);
    _ ← scan_interpolation_format opening;
    mret (Leave true)
  else
    let token_count := length (tokens s) in
    _ ← scan_interpolation_expression_token scan_interpolated delimiter_base;
    s ← get_state;
    mret (Again (if (length (delimiters s) =? delimiter_base)%nat
                    && (token_count <? length (tokens s))%nat
                    && bool_decide (last_kind s = Some (PunctuationToken PPipe))
                 then Z.min (base_pipe_count + 1) 2 else base_pipe_count)).

Definition scan_interpolation_value (scan_interpolated : scanning unit) (opening : Z) : scanning unit :=
  s ← get_state;
  let delimiter_base := length (delimiters s) in
  returned ← turns (S (length text))
    (scan_interpolation_value_turn scan_interpolated opening delimiter_base (length (tokens s))) 0;
  if returned : bool then mret tt else
  _ ← update (fun s => with_delimiters (take delimiter_base (delimiters s)) s);
  unmatched_opening opening.

(** A turn of [scan_interpolated_inner]'s loop over [text_start]; it ends with
    that and [terminated]. *)
Definition scan_interpolated_turn (scan_interpolated : scanning unit) (text_start : Z)
    : scanning (turn Z (Z * bool)) :=
  finished ← at_end;
  if finished : bool then mret (Leave (text_start, false)) else
  _ ← work;
  character ← current_char;
  position ← reads cursor;
  tail ← remaining;
  if is_line_end character then mret (Leave (text_start, false))
  else if char_is character x22 then
    _ ← push_interpolation_text text_start position;
    _ ← advance_by 1;
    _ ← push_physical InterpolatedStringEnd position (position + 1) None true;
    mret (Leave (position + 1, true))
  else if char_is character "\" then _ ← scan_escape false; mret (Again text_start)
  else if char_is character "{" then
    if starts_with tail (ascii "{{") then _ ← advance_by 2; mret (Again text_start)
    else
      _ ← push_interpolation_text text_start position;
      _ ← push_mark (PunctuationToken PLeftBrace);
      _ ← scan_interpolation_value scan_interpolated position;
      text_start ← reads cursor;
      mret (Again text_start)
  else
    _ ← (if char_is character "}" && negb (starts_with tail (ascii "}}")) then
           report brace_code position (position + 1) closing_brace_message
         else mret tt);
    _ ← advance_by (if char_is character "}" && starts_with tail (ascii "}}") then 2
                    else len_utf8 character);
    mret (Again text_start).

Definition scan_interpolated_inner (scan_interpolated : scanning unit) : scanning unit :=
  literal_start ← reads cursor;
  _ ← advance_by 2;
  text_start ← reads cursor;
  _ ← push_physical InterpolatedStringStart literal_start text_start None true;
  '(text_start, terminated) ←
    turns (S (length text)) (scan_interpolated_turn scan_interpolated) text_start;
  end_ ← reads cursor;
  _ ← push_interpolation_text text_start end_;
  if terminated : bool then mret tt else unterminated literal_start.

(** [scan_interpolated]: the recursion is bounded by the nesting limit. *)
Fixpoint scan_interpolated_fuel (fuel : nat) : scanning unit :=
  match fuel with
  | O => fault_with TurnsExhausted
  | S fuel =>
      s ← get_state;
      _ ← reject_if (limit_nesting_depth limits <=? interpolation_depth s) depth_error;
      _ ← update (with_interpolation_depth (interpolation_depth s + 1));
      _ ← scan_interpolated_inner (scan_interpolated_fuel fuel);
      update (fun s => with_interpolation_depth (interpolation_depth s - 1) s)
  end.
Definition scan_interpolated : scanning unit :=
  scan_interpolated_fuel (S (Z.to_nat (limit_nesting_depth limits))).

(** ** The scanner *)

(** [for x in xs]. *)
Fixpoint for_each {A} (xs : list A) (body : A -> scanning unit) : scanning unit :=
  match xs with
  | [] => mret tt
  | x :: xs => _ ← body x; for_each xs body
  end.

Definition preflight_forbidden_characters : scanning unit :=
  for_each (char_indices text) (fun '(offset, character) =>
    _ ← work;
    if is_forbidden_raw_character character then
      report "syntax-forbidden-code-point" offset (offset + len_utf8 character)
        (ascii "raw Unicode code point U+" ++ format_04X character
         ++ ascii " is forbidden; use an explicit escape inside strings or comments")
    else mret tt).

Definition finish_layout : scanning unit :=
  s ← get_state;
  _ ← for_each (delimiters s) (fun '(delimiter, start) =>
        report "syntax-unclosed-delimiter" start (start + len_utf8 delimiter)
          (ascii "opening delimiter " ++ format_bracket delimiter ++ ascii " is not closed"));
  let eof := len text in
  s ← get_state;
  _ ← (if 1 <? len (indentation s) then
         turns (S (length (indentation s))) (fun _ : unit =>
           s ← get_state;
           if len (indentation s) <=? 1 then mret (Leave tt) else
           _ ← pop_indentation;
           _ ← push_synthetic Dedent eof None;
           _ ← push_synthetic Newline eof (Some OriginEndOfFile);
           mret (Again tt)) tt
       else if bool_decide (last_kind s = Some Newline) then mret tt
       else push_synthetic Newline eof (Some OriginEndOfFile));
  push_synthetic EndOfFile eof None.

(** A turn of the main loop. *)
Definition scan_turn : scanning bool :=
  finished ← at_end;
  if finished : bool then mret false else
  _ ← work;
  s ← get_state;
  whole_line ← (if at_line_start s then scan_line_prefix else mret false);
  if whole_line : bool then mret true else
  finished ← at_end;
  if finished : bool then mret false else
  character ← current_char;
  tail ← remaining;
  _ ← (if char_is character " " || char_is character x09 then scan_horizontal_space
       else if char_is character "#" then scan_comment
       else if char_is character x0a then scan_newline 1
       else if char_is character x0d && starts_with tail CRLF then scan_newline 2
       else scan_literal_or_word scan_interpolated character tail);
  mret true.

Definition scan : scanning LosslessLexicalTable :=
  _ ← preflight_forbidden_characters;
  _ ← while_going scan_turn;
  _ ← finish_layout;
  _ ← checkpoint;
  reads (fun s => {| table_tokens := tokens s; table_trivia := trivia s; table_order := order s |}).
End scanner.

(** [Scanner::new(..).scan()]: the table, and the sink it leaves behind. *)
Definition scan_source (source : SourceFile) (limits : ParseLimits)
    (is_xid_start is_xid_continue : Z -> bool) (nfc : list Z -> list Z)
    : prog abort (LosslessLexicalTable * list Diagnostic) :=
  '(table, s) ← scan source limits is_xid_start is_xid_continue nfc new_scanner;
  Ret (table, sink_diagnostics (sink s)).
