(* ===== verification/LexicalTable.v ===== *)
(** The sealer's check of a lexical table
    ([validate_lexical_table] of [src/crates/wrela-syntax/src/lib.rs]) and what
    a table that passes it is: a [lossless] cover of the source text. *)

From Stdlib Require Import Strings.Byte.
From stdpp Require Import base numbers list option strings.
From S2P Require Import Prelude Bytes Text Source SyntaxTokens Literals.

#[local] Open Scope Z_scope.

(** ** The check *)

Definition broken {A} (message : string) : result abort A := Err (ParseFailed (InternalInvariant message)).
Definition over_limit {A} (resource : string) (limit : Z) : result abort A :=
  Err (ParseFailed (ParseResourceLimit resource limit)).

Section checks.
Context (source : SourceFile).

(** [valid_span]. *)
Definition valid_span (s : Span) : result abort bool :=
  if bool_decide (file_id (file s) = file_id (source_id source)) then
    match slice source (range s) with
    | Ok o => Ok (bool_decide (is_Some o))
    | Err Panicked => Err (ParseFaulted BadSlice)
    end
  else Ok false.

(** Whether tokens of a kind keep their spelling. *)
Definition carries_spelling (kind : TokenKind) : bool :=
  match kind with
  | Identifier | IntegerLiteral | FloatLiteral | StringLiteral | ByteStringLiteral
  | CharacterLiteral | InterpolatedStringStart | InterpolatedStringText | InterpolationFormat
  | InterpolatedStringEnd | ErrorToken => true
  | _ => false
  end.

Definition is_empty (s : Span) : bool := start_ (range s) =? end_ (range s).
Definition is_kind (kind : TokenKind) (t : Token) : bool := bool_decide (token_kind t = kind).
Definition has {A} (o : option A) : bool := match o with Some _ => true | None => false end.

(** The part of the checks on a token that looks at its spelling. *)
Definition check_spelling (limits : ParseLimits) (literal_bytes : Z) (t : Token) : result abort Z :=
  match token_spelling t with
  | None => Ok literal_bytes
  | Some spelling =>
      _ ← (if synthetic t then Ok tt else
           match slice source (range (token_span t)) with
           | Err Panicked => Err (ParseFaulted BadSlice)
           | Ok o => if bool_decide (o = Some spelling) then Ok tt
                     else broken "token spelling differs from source bytes"
           end);
      if is_literal_token (token_kind t) then
        match checked_add 64 literal_bytes (len spelling) with
        | Some next => Ok next
        | None => over_limit "literal bytes" (limit_literal_bytes limits)
        end
      else Ok literal_bytes
  end.

(** The checks on one token, and the bytes its literal adds. *)
Definition check_token (limits : ParseLimits) (index literal_bytes : Z) (t : Token) : result abort Z :=
  let bad_span := broken "token IDs or spans are invalid" in
  _ ← (if negb (token_id t =? index) then bad_span else Ok tt);
  valid ← valid_span (token_span t);
  _ ← (if valid : bool then Ok tt else bad_span);
  _ ← (if eqb (synthetic t) (is_empty (token_span t)) then Ok tt
       else broken "structural token synthesis disagrees with its empty span");
  _ ← (if is_kind EndOfFile t && (negb (synthetic t) || negb (is_empty (token_span t)))
       then broken "EOF must be one synthetic empty token" else Ok tt);
  _ ← (if negb (eqb (is_kind Newline t) (has (newline_origin t)))
          || (bool_decide (newline_origin t = Some OriginSyntheticRecovery) && negb (synthetic t))
       then broken "newline origin is inconsistent" else Ok tt);
  _ ← (if eqb (carries_spelling (token_kind t)) (has (token_spelling t)) then Ok tt
       else broken "token raw spelling is missing or attached to a derived token");
  check_spelling limits literal_bytes t.

Fixpoint check_tokens (limits : ParseLimits) (index literal_bytes : Z) (ts : list Token)
    : result abort Z :=
  match ts with
  | [] => Ok literal_bytes
  | t :: ts =>
      literal_bytes ← check_token limits index literal_bytes t;
      check_tokens limits (index + 1) literal_bytes ts
  end.

(** [trivia.iter().enumerate().any(..)]: whether one is bad. *)
Fixpoint any_bad_trivia (index : Z) (vs : list Trivia) : result abort bool :=
  match vs with
  | [] => Ok false
  | v :: vs =>
      if negb (trivia_id v =? index) then Ok true else
      valid ← valid_span (trivia_span v);
      if negb valid then Ok true else
      if is_empty (trivia_span v) then Ok true else any_bad_trivia (index + 1) vs
  end.

(** One element of the order, from [(next_token, next_trivia, cursor)]. *)
Definition check_element (table : LosslessLexicalTable) (state : Z * Z * Z) (e : LexicalElement)
    : result abort (Z * Z * Z) :=
  let '(next_token, next_trivia, cursor) := state in
  '(range, made_up, next_token, next_trivia) ←
    match e with
    | ElementToken id =>
        if negb (id =? next_token) then broken "token order is not canonical" else
        match table_tokens table !! Z.to_nat id with
        | Some t => Ok (range (token_span t), synthetic t, next_token + 1, next_trivia)
        | None => Err (ParseFaulted BadSlice)
        end
    | ElementTrivia id =>
        if negb (id =? next_trivia) then broken "trivia order is not canonical" else
        match table_trivia table !! Z.to_nat id with
        | Some v => Ok (range (trivia_span v), false, next_token, next_trivia + 1)
        | None => Err (ParseFaulted BadSlice)
        end
    end;
  if negb (start_ range =? cursor) || (negb made_up && (end_ range =? start_ range))
  then broken "lossless lexical order has a gap, overlap, or empty physical element"
  else Ok (next_token, next_trivia, end_ range).

Fixpoint check_order (table : LosslessLexicalTable) (state : Z * Z * Z) (es : list LexicalElement)
    : result abort (Z * Z * Z) :=
  match es with
  | [] => Ok state
  | e :: es => state ← check_element table state e; check_order table state es
  end.

Definition validate_lexical_table (table : LosslessLexicalTable) (recovery_complete : bool)
    (limits : ParseLimits) : result abort (Z * Z) :=
  let ts := table_tokens table in
  _ ← (if bool_decide (ts = []) || (limit_tokens limits <? len ts)
       then over_limit "tokens" (limit_tokens limits) else Ok tt);
  literal_bytes ← check_tokens limits 0 0 ts;
  _ ← (if limit_literal_bytes limits <? literal_bytes
       then over_limit "literal bytes" (limit_literal_bytes limits) else Ok tt);
  let bad_table := broken "lexical table limits, IDs, or EOF are invalid" in
  _ ← (if negb (len (List.filter (is_kind EndOfFile) ts) =? 1)
          || negb (bool_decide (token_kind <$> last ts = Some EndOfFile))
       then bad_table else Ok tt);
  bad ← any_bad_trivia 0 (table_trivia table);
  _ ← (if bad : bool then bad_table else Ok tt);
  '(next_token, next_trivia, cursor) ← check_order table (0, 0, 0) (table_order table);
  source_bytes ← match try_u32 (len (source_text source)) with
                 | Some n => Ok n | None => broken "source length does not fit u32" end;
  let uncovered := broken "lossless lexical table does not cover its declared source prefix" in
  _ ← (if negb (next_token =? len ts) || negb (next_trivia =? len (table_trivia table))
       then uncovered else Ok tt);
  last_token ← match try_u32 (len ts - 1) with
               | Some n => Ok n | None => broken "token count does not fit u32" end;
  _ ← (if negb (bool_decide (last (table_order table) = Some (ElementToken last_token)))
          || (recovery_complete && negb (cursor =? source_bytes)) || (source_bytes <? cursor)
       then uncovered else Ok tt);
  match try_u32 (len ts) with
  | Some n => Ok (n, literal_bytes)
  | None => over_limit "tokens" (limit_tokens limits)
  end.

(** ** What passes *)

(** A position between two characters. *)
Definition boundary (position : Z) : Prop :=
  0 <= position <= len (source_text source)
  /\ is_char_boundary (source_text source) position = true.

Definition spanned (s : Span) (start end_ : Z) : Prop :=
  file_id (file s) = file_id (source_id source)
  /\ start_ (range s) = start /\ Source.end_ (range s) = end_
  /\ start <= end_ /\ boundary start /\ boundary end_.

(** What the spelling of a token between two positions is. *)
Definition spelled (t : Token) (start end_ : Z) : Prop :=
  if carries_spelling (token_kind t)
  then exists spelling, token_spelling t = Some spelling
       /\ (synthetic t = false -> spelling = subslice (source_text source) start end_)
  else token_spelling t = None.

Record token_ok (t : Token) (start end_ : Z) : Prop := {
  token_spans : spanned (token_span t) start end_;
  token_made_up : synthetic t = (start =? end_);
  token_eof : token_kind t = EndOfFile -> start = end_;
  token_origin : is_Some (newline_origin t) <-> token_kind t = Newline;
  token_recovery : newline_origin t = Some OriginSyntheticRecovery -> start = end_;
  token_spelled : spelled t start end_;
}.

Record trivia_ok (v : Trivia) (start end_ : Z) : Prop := {
  trivia_spans : spanned (trivia_span v) start end_;
  trivia_physical : start < end_;
}.

Definition literal_size (t : Token) : Z :=
  match token_spelling t with
  | Some spelling => if is_literal_token (token_kind t) then len spelling else 0
  | None => 0
  end.
Definition literal_total (ts : list Token) : Z := foldr (fun t n => literal_size t + n) 0 ts.

(** [tiled ts vs es c]: tokens [ts] and trivia [vs], taken in the order [es],
    lie side by side from the start of the text to [c]. *)
Inductive tiled : list Token -> list Trivia -> list LexicalElement -> Z -> Prop :=
| tiled_nil : tiled [] [] [] 0
| tiled_token ts vs es c t c' :
    tiled ts vs es c -> token_ok t c c' -> token_id t = len ts ->
    tiled (ts ++ [t]) vs (es ++ [ElementToken (len ts)]) c'
| tiled_trivia ts vs es c v c' :
    tiled ts vs es c -> trivia_ok v c c' -> trivia_id v = len vs ->
    tiled ts (vs ++ [v]) (es ++ [ElementTrivia (len vs)]) c'.

(** A table that covers the text up to [c] and ends in its only end-of-file token. *)
Record covers (table : LosslessLexicalTable) (c : Z) : Prop := {
  covers_tiled : tiled (table_tokens table) (table_trivia table) (table_order table) c;
  covers_eof : exists ts, Forall (fun t => token_kind t <> EndOfFile) ts
                 /\ exists t, token_kind t = EndOfFile /\ table_tokens table = ts ++ [t];
  covers_last : last (table_order table) = Some (ElementToken (len (table_tokens table) - 1));
}.

(** A table that covers the whole text. *)
Definition lossless (table : LosslessLexicalTable) : Prop := covers table (len (source_text source)).
End checks.

(** The text of an element of a table, read from the source. *)
Definition element_text (source : SourceFile) (table : LosslessLexicalTable) (e : LexicalElement) : str :=
  match e with
  | ElementToken id =>
      match table_tokens table !! Z.to_nat id with
      | Some t => subslice (source_text source) (start_ (range (token_span t))) (end_ (range (token_span t)))
      | None => []
      end
  | ElementTrivia id =>
      match table_trivia table !! Z.to_nat id with
      | Some v => subslice (source_text source) (start_ (range (trivia_span v))) (end_ (range (trivia_span v)))
      | None => []
      end
  end.
