(* ===== verification/LexicalTableSound.v ===== *)
(** What [LexicalTable.validate_lexical_table] accepts: exactly the tables
    within the limits that cover the text, and a lossless table determines it. *)

From Stdlib Require Import Strings.Byte.
From stdpp Require Import base numbers list option strings.
From S2P Require Import Prelude Bytes Text Source SyntaxTokens Literals LexicalTable.

#[local] Open Scope Z_scope.

(** ** Tables that are tiled *)

Section tiled.
Context (source : SourceFile).

Lemma tiled_cursor ts vs es c : tiled source ts vs es c -> 0 <= c <= len (source_text source).
Proof.
  destruct 1 as [|ts vs es c t c' _ [Hs] _|ts vs es c v c' _ [Hs _] _]; [pose proof (len_nonneg (source_text source)); lia|..];
    unfold spanned, boundary in Hs; naive_solver.
Qed.

(** Every token and every piece of trivia of a tiled table is well formed, and
    numbered by its place. *)
Lemma tiled_tokens ts vs es c i t :
  tiled source ts vs es c -> ts !! i = Some t ->
  token_id t = Z.of_nat i /\ exists s e, 0 <= s /\ token_ok source t s e.
Proof.
  intros H. revert i t. induction H as [|ts vs es c t c' H IH Ht Hid|]; intros i t' Hi; [done| |eauto].
  apply lookup_snoc_Some in Hi as [[_ Hi]|[-> <-]]; [by apply IH|].
  split; [done|]. exists c, c'. split; [by eapply tiled_cursor|done].
Qed.

Lemma tiled_trivia_at ts vs es c i v :
  tiled source ts vs es c -> vs !! i = Some v ->
  trivia_id v = Z.of_nat i /\ exists s e, 0 <= s /\ trivia_ok source v s e.
Proof.
  intros H. revert i v. induction H as [| |ts vs es c v c' H IH Hv Hid]; intros i v' Hi; [done|eauto|].
  apply lookup_snoc_Some in Hi as [[_ Hi]|[-> <-]]; [by apply IH|].
  split; [done|]. exists c, c'. split; [by eapply tiled_cursor|done].
Qed.
End tiled.

(** ** The checks one by one *)

Section exact.
Context (source : SourceFile) (Hsource : file_ok source).

Lemma valid_span_true s :
  0 <= start_ (range s) ->
  valid_span source s = Ok true <-> spanned source s (start_ (range s)) (end_ (range s)).
Proof.
  intros Hs. unfold valid_span, spanned, boundary, slice.
  destruct (bool_decide_reflect (file_id (file s) = file_id (source_id source))); [|naive_solver].
  destruct (_ && _) eqn:E.
  - split_andb. apply Z.leb_le in H.
    destruct (Z.ltb_spec (end_ (range s)) (start_ (range s))); [naive_solver lia|]. naive_solver lia.
  - split; [done|]. intros (_ & _ & _ & ? & [? Hb] & [? Hc]). rewrite Hb, Hc in E.
    destruct (Z.leb_spec (end_ (range s)) (len (source_text source))); [done|lia].
Qed.

Lemma slice_spanned s a b :
  spanned source s a b -> slice source (range s) = Ok (Some (subslice (source_text source) a b)).
Proof.
  intros (_ & <- & <- & ? & [? Hb] & [? Hc]). unfold slice. rewrite Hb, Hc.
  rewrite (proj2 (Z.leb_le _ _)), (proj2 (Z.ltb_ge _ _)) by lia. done.
Qed.

Lemma check_if (bad : bool) (r : result abort unit) u :
  (if bad then r else Ok tt) = Ok u -> (forall v, r <> Ok v) -> bad = false.
Proof. destruct bad; naive_solver. Qed.

Lemma check_unless (good : bool) (r : result abort unit) u :
  (if good then Ok tt else r) = Ok u -> (forall v, r <> Ok v) -> good = true.
Proof. destruct good; naive_solver. Qed.

Ltac checks :=
  repeat match goal with
  | H : (if ?b then broken _ else Ok tt) = Ok _ |- _ => apply check_if in H; [|done]
  | H : (if ?b then over_limit _ _ else Ok tt) = Ok _ |- _ => apply check_if in H; [|done]
  | H : (if ?b then Ok tt else broken _) = Ok _ |- _ => apply check_unless in H; [|done]
  end.

Lemma literal_size_nonneg t : 0 <= literal_size t.
Proof. unfold literal_size. repeat case_match; auto using len_nonneg with lia. Qed.

(** What the flags of a token must say, once its span is known. *)
Definition flags_ok (t : Token) : Prop :=
  eqb (synthetic t) (is_empty (token_span t)) = true
  /\ is_kind EndOfFile t && (negb (synthetic t) || negb (is_empty (token_span t))) = false
  /\ negb (eqb (is_kind Newline t) (has (newline_origin t)))
     || bool_decide (newline_origin t = Some OriginSyntheticRecovery) && negb (synthetic t) = false
  /\ eqb (carries_spelling (token_kind t)) (has (token_spelling t)) = true.

Lemma flags_ok_token t a b :
  spanned source (token_span t) a b ->
  flags_ok t /\ spelled source t a b <-> token_ok source t a b.
Proof.
  intros Hs. assert (Hab := Hs). destruct Hab as (_ & <- & <- & Hle & _).
  unfold flags_ok, is_empty, is_kind. split.
  - intros [(H1 & H2 & H3 & H4) Hsp]. apply eqb_prop in H1. rewrite H1 in *. split_andb.
    apply eqb_prop in H. apply eqb_prop in H4. split; try done.
    + intros Hk. rewrite (bool_decide_eq_true_2 _ Hk) in H2. by destruct (Z.eqb_spec (start_ (range (token_span t))) (end_ (range (token_span t)))).
    + unfold has in H. destruct (newline_origin t); destruct (bool_decide_reflect (token_kind t = Newline)); naive_solver.
    + intros Hr. rewrite (bool_decide_eq_true_2 _ Hr) in H0. by destruct (Z.eqb_spec (start_ (range (token_span t))) (end_ (range (token_span t)))).
  - intros [_ Hm Heof Ho Hr Hsp]. split; [|done]. rewrite Hm. split_and!.
    + apply eqb_reflx.
    + destruct (bool_decide_reflect (token_kind t = EndOfFile)) as [Hk|]; [|done].
      by rewrite (Heof Hk), Z.eqb_refl.
    + apply orb_false_intro.
      * unfold has. destruct (newline_origin t); destruct (bool_decide_reflect (token_kind t = Newline)); naive_solver.
      * destruct (bool_decide_reflect (newline_origin t = Some OriginSyntheticRecovery)) as [Hk|]; [|done].
        by rewrite (Hr Hk), Z.eqb_refl.
    + unfold spelled, has in *. destruct (carries_spelling _), (token_spelling t); naive_solver.
Qed.

Lemma check_spelling_Ok limits n t n' a b :
  spanned source (token_span t) a b -> eqb (carries_spelling (token_kind t)) (has (token_spelling t)) = true ->
  check_spelling source limits n t = Ok n' -> spelled source t a b /\ n' = n + literal_size t.
Proof.
  intros Hs Hc%eqb_prop. unfold check_spelling, literal_size, spelled. rewrite Hc, (slice_spanned _ _ _ Hs).
  destruct (token_spelling t) as [spelling|]; simpl; [|by intros [= <-]; split; [|lia]].
  intros ([] & Hp & Hl)%result_bind_Ok. split.
  - exists spelling. split; [done|]. intros Hm. rewrite Hm in Hp.
    by destruct (bool_decide_reflect (Some (subslice (source_text source) a b) = Some spelling)) as [[= <-]|].
  - destruct (is_literal_token _); [|injection Hl as <-; lia].
    destruct (checked_add _ _ _) as [next|] eqn:Ha; [|done]. injection Hl as <-.
    by apply checked_add_Some in Ha as [_ ->].
Qed.

Lemma check_spelling_ok limits n t a b :
  spanned source (token_span t) a b -> spelled source t a b -> n + literal_size t < 2 ^ 64 ->
  check_spelling source limits n t = Ok (n + literal_size t).
Proof.
  intros Hs Hsp Hn. unfold check_spelling, literal_size, spelled in *. rewrite (slice_spanned _ _ _ Hs).
  destruct (carries_spelling _) eqn:Hc.
  - destruct Hsp as (spelling & Hq & Hsp). rewrite Hq in *. rewrite result_bind_Ok. exists tt. split.
    + destruct (synthetic t); [done|]. rewrite Hsp by done. by rewrite bool_decide_eq_true_2.
    + destruct (is_literal_token _) eqn:Hl; [|f_equal; lia].
      unfold checked_add. rewrite (proj2 (Z.ltb_lt _ _)) by lia. done.
  - rewrite Hsp. f_equal. lia.
Qed.

Lemma check_token_Ok limits i n t n' :
  0 <= start_ (range (token_span t)) ->
  check_token source limits i n t = Ok n' ->
  token_id t = i /\ token_ok source t (start_ (range (token_span t))) (end_ (range (token_span t)))
  /\ n' = n + literal_size t.
Proof.
  intros Hs Hall. unfold check_token in Hall. inv_ok. subst. checks. bool_to_prop. subst.
  match goal with H : valid_span _ _ = Ok _ |- _ => apply valid_span_true in H as Hv; [|done] end.
  eapply check_spelling_Ok in H6 as [Hsp ->]; [|done..]. split_and!; [done| |done].
  apply flags_ok_token; [done|]. split; [|done]. split_and!; [done|done| |done].
  by rewrite H4.
Qed.

Lemma check_token_ok limits i n t a b :
  token_id t = i -> 0 <= a -> token_ok source t a b -> n + literal_size t < 2 ^ 64 ->
  check_token source limits i n t = Ok (n + literal_size t).
Proof.
  intros <- Ha Ht Hn. pose proof (token_spans _ _ _ _ Ht) as Hs. pose proof Hs as (_ & <- & <- & _).
  destruct (proj2 (flags_ok_token _ _ _ Hs) Ht) as [(F1 & F2 & F3 & F4) Hsp].
  unfold check_token. rewrite Z.eqb_refl. simpl. rewrite (proj2 (valid_span_true _ Ha) Hs). simpl.
  rewrite F1. simpl. rewrite F2. simpl. rewrite F3. simpl. rewrite F4. simpl.
  by eapply check_spelling_ok.
Qed.

Lemma literal_total_nonneg ts : 0 <= literal_total ts.
Proof. induction ts as [|t ts IH]; simpl; [lia|]. pose proof (literal_size_nonneg t). lia. Qed.

Lemma literal_total_app ts us : literal_total (ts ++ us) = literal_total ts + literal_total us.
Proof. induction ts as [|t ts IH]; simpl; lia. Qed.

Lemma check_tokens_Ok limits i n ts n' :
  Forall (fun t => 0 <= start_ (range (token_span t))) ts ->
  check_tokens source limits i n ts = Ok n' ->
  n' = n + literal_total ts /\ forall j t, ts !! j = Some t -> token_id t = i + Z.of_nat j
    /\ token_ok source t (start_ (range (token_span t))) (end_ (range (token_span t))).
Proof.
  intros Hs. revert i n. induction Hs as [|t ts Ht Hs IH]; intros i n; simpl.
  { intros [= <-]. split; [lia|]. done. }
  intros (m & (Hid & Hok & ->)%check_token_Ok & H)%result_bind_Ok; [|done].
  apply IH in H as [-> H]. split; [lia|]. intros [|j] t'; simpl; [intros [= <-]; split; [lia|done]|].
  intros Hj. apply H in Hj as [-> ?]. split; [lia|done].
Qed.

Lemma check_tokens_ok limits i n ts :
  (forall j t, ts !! j = Some t ->
     token_id t = i + Z.of_nat j /\ exists a b, 0 <= a /\ token_ok source t a b) ->
  n + literal_total ts < 2 ^ 64 ->
  check_tokens source limits i n ts = Ok (n + literal_total ts).
Proof.
  revert i n. induction ts as [|t ts IH]; intros i n H Hn; simpl in *; [f_equal; lia|].
  destruct (H 0%nat t eq_refl) as (Hid & a & b & Ha & Ht). pose proof (literal_total_nonneg ts).
  rewrite (check_token_ok limits i n t a b); [|lia|done|done|lia]. simpl.
  rewrite IH; [f_equal; lia| |lia]. intros j t' Hj. destruct (H (S j) t' Hj) as (-> & ?).
  split; [lia|done].
Qed.

Lemma any_bad_trivia_false i vs :
  Forall (fun v => 0 <= start_ (range (trivia_span v))) vs ->
  any_bad_trivia source i vs = Ok false ->
  forall j v, vs !! j = Some v -> trivia_id v = i + Z.of_nat j
    /\ trivia_ok source v (start_ (range (trivia_span v))) (end_ (range (trivia_span v))).
Proof.
  intros Hs. revert i. induction Hs as [|v vs Hv Hs IH]; intros i; simpl; [done|].
  destruct (Z.eqb_spec (trivia_id v) i) as [Hid|]; simpl; [|done].
  intros (valid & Hvalid & H)%result_bind_Ok. destruct valid; [|done]. simpl in H.
  apply valid_span_true in Hvalid as Hspan; [|done].
  destruct (is_empty (trivia_span v)) eqn:He; [done|]. unfold is_empty in He. apply Z.eqb_neq in He.
  intros [|j] v'; simpl; [intros [= <-]|].
  - split; [lia|]. split; [done|]. destruct Hspan as (_ & _ & _ & ? & _). lia.
  - intros Hj. eapply IH in H as [-> ?]; [|done]. split; [lia|done].
Qed.

Lemma any_bad_trivia_ok i vs :
  (forall j v, vs !! j = Some v ->
     trivia_id v = i + Z.of_nat j /\ exists a b, 0 <= a /\ trivia_ok source v a b) ->
  any_bad_trivia source i vs = Ok false.
Proof.
  revert i. induction vs as [|v vs IH]; intros i H; simpl; [done|].
  destruct (H 0%nat v eq_refl) as (Hid & a & b & Ha & Hs & Hlt). pose proof Hs as (_ & <- & <- & _).
  rewrite (proj2 (Z.eqb_eq _ _)) by lia. simpl. rewrite (proj2 (valid_span_true _ Ha) Hs). simpl.
  unfold is_empty. rewrite (proj2 (Z.eqb_neq _ _)) by lia.
  apply IH. intros j v' Hj. destruct (H (S j) v' Hj) as [-> ?]. split; [lia|done].
Qed.

(** ** The order *)

Lemma check_order_app table st es fs :
  check_order table st (es ++ fs) = check_order table st es ≫= fun st => check_order table st fs.
Proof.
  revert st. induction es as [|e es IH]; intros st; simpl; [done|].
  destruct (check_element table st e); simpl; [apply IH|done].
Qed.

Lemma check_order_snoc table st es e :
  check_order table st (es ++ [e]) = check_order table st es ≫= fun st => check_element table st e.
Proof.
  rewrite check_order_app. destruct (check_order table st es) as [st'|]; simpl; [|done].
  by destruct (check_element table st' e).
Qed.

Lemma check_stop {A} (bad2 : bool) (a b : A) message x y :
  (if negb (x =? y) || bad2 then broken message else Ok a) = Ok b -> x = y /\ a = b.
Proof. clear. destruct (Z.eqb_spec x y), bad2; naive_solver. Qed.

(** A tiled table passes the walk over its order. *)
Lemma tiled_check_order table ts vs es c :
  tiled source ts vs es c -> ts `prefix_of` table_tokens table -> vs `prefix_of` table_trivia table ->
  check_order table (0, 0, 0) es = Ok (len ts, len vs, c).
Proof.
  induction 1 as [|ts vs es c t c' H IH Ht Hid|ts vs es c v c' H IH Hv Hid]; intros Hts Hvs; [done| |];
    rewrite check_order_snoc, IH by (try done; by eapply prefix_app_l); cbn -[len];
    rewrite Z.eqb_refl; cbn -[len].
  - replace (Z.to_nat (len ts)) with (length ts) by (unfold len; lia).
    rewrite (prefix_lookup_Some (ts ++ [t]) _ (length ts) t); [|by rewrite lookup_app_r, Nat.sub_diag|done].
    cbn -[len]. destruct Ht as [(_ & -> & -> & Hle & _) Hm _ _ _ _]. rewrite Z.eqb_refl, Hm, (Z.eqb_sym c' c).
    destruct (c =? c'); cbn -[len]; by rewrite len_app.
  - replace (Z.to_nat (len vs)) with (length vs) by (unfold len; lia).
    rewrite (prefix_lookup_Some (vs ++ [v]) _ (length vs) v); [|by rewrite lookup_app_r, Nat.sub_diag|done].
    cbn -[len]. destruct Hv as [(_ & -> & -> & _) Hlt]. rewrite Z.eqb_refl, (proj2 (Z.eqb_neq c' c)) by lia.
    cbn -[len]. by rewrite len_app.
Qed.

(** And the walk only passes a tiled one. *)
Lemma check_order_tiled table es nt nv c :
  (forall j t, table_tokens table !! j = Some t -> token_id t = Z.of_nat j
     /\ token_ok source t (start_ (range (token_span t))) (end_ (range (token_span t)))) ->
  (forall j v, table_trivia table !! j = Some v -> trivia_id v = Z.of_nat j
     /\ trivia_ok source v (start_ (range (trivia_span v))) (end_ (range (trivia_span v)))) ->
  check_order table (0, 0, 0) es = Ok (nt, nv, c) ->
  0 <= nt <= len (table_tokens table) /\ 0 <= nv <= len (table_trivia table)
  /\ tiled source (take (Z.to_nat nt) (table_tokens table)) (take (Z.to_nat nv) (table_trivia table)) es c.
Proof.
  intros Hts Hvs. revert nt nv c. induction es as [|e es IH] using rev_ind; intros nt nv c.
  { intros [= <- <- <-]. pose proof (len_nonneg (table_tokens table)).
    pose proof (len_nonneg (table_trivia table)). split_and!; try lia. constructor. }
  rewrite check_order_snoc. intros ([[nt0 nv0] c0] & H & He)%result_bind_Ok.
  destruct (IH _ _ _ H) as (Hnt & Hnv & Ht). clear IH H. unfold check_element in He.
  apply result_bind_Ok in He as ([[[r made] nt1] nv1] & Hm & He).
  destruct e as [id|id].
  - destruct (Z.eqb_spec id nt0) as [->|]; [|done]. simpl in Hm.
    destruct (table_tokens table !! Z.to_nat nt0) as [t|] eqn:Hl; [|done]. injection Hm as <- <- <- <-.
    destruct (Hts _ _ Hl) as [Hid Hok]. apply check_stop in He as [Hstart [= <- <- <-]].
    pose proof (lookup_lt_Some _ _ _ Hl). unfold len in *. split_and!; try lia.
    replace (Z.to_nat (nt0 + 1)) with (S (Z.to_nat nt0)) by lia. rewrite (take_S_r _ _ t Hl).
    replace (ElementToken nt0) with (ElementToken (len (take (Z.to_nat nt0) (table_tokens table))))
      by (f_equal; unfold len; rewrite length_take; lia).
    eapply tiled_token; [done|by rewrite <- Hstart|]. unfold len. rewrite length_take. lia.
  - destruct (Z.eqb_spec id nv0) as [->|]; [|done]. simpl in Hm.
    destruct (table_trivia table !! Z.to_nat nv0) as [v|] eqn:Hl; [|done]. injection Hm as <- <- <- <-.
    destruct (Hvs _ _ Hl) as [Hid Hok]. apply check_stop in He as [Hstart [= <- <- <-]].
    pose proof (lookup_lt_Some _ _ _ Hl). unfold len in *. split_and!; try lia.
    replace (Z.to_nat (nv0 + 1)) with (S (Z.to_nat nv0)) by lia. rewrite (take_S_r _ _ v Hl).
    replace (ElementTrivia nv0) with (ElementTrivia (len (take (Z.to_nat nv0) (table_trivia table))))
      by (f_equal; unfold len; rewrite length_take; lia).
    eapply tiled_trivia; [done|by rewrite <- Hstart|]. unfold len. rewrite length_take. lia.
Qed.

Lemma only_last_eof ts :
  len (List.filter (is_kind EndOfFile) ts) = 1 /\ token_kind <$> last ts = Some EndOfFile
  <-> exists us, Forall (fun t => token_kind t <> EndOfFile) us
      /\ exists t, token_kind t = EndOfFile /\ ts = us ++ [t].
Proof.
  assert (Hnone : forall us, Forall (fun t => token_kind t <> EndOfFile) us <-> List.filter (is_kind EndOfFile) us = []).
  { clear. intros us. induction us as [|t us IH]; simpl; [by split; constructor|].
    rewrite Forall_cons, IH. unfold is_kind.
    destruct (bool_decide_reflect (token_kind t = EndOfFile)); naive_solver. }
  split.
  - intros [Hc Hl]. destruct ts as [|t us _] using rev_ind; [done|].
    rewrite last_snoc in Hl. injection Hl as Hl. exists us. split; [|by exists t].
    apply Hnone. rewrite List.filter_app in Hc. simpl in Hc.
    unfold is_kind at 2 in Hc. rewrite (bool_decide_eq_true_2 _ Hl) in Hc.
    rewrite len_app in Hc. destruct (List.filter _ us); [done|]. unfold len in Hc. simpl in Hc. lia.
  - intros (us & Hus & t & Ht & ->). apply Hnone in Hus.
    rewrite List.filter_app, Hus, last_snoc. simpl. unfold is_kind.
    rewrite (bool_decide_eq_true_2 _ Ht). by rewrite Ht.
Qed.

(** The starts of a table's spans, which the code has as a [u32]. *)
Definition unsigned_spans (table : LosslessLexicalTable) : Prop :=
  Forall (fun t => 0 <= start_ (range (token_span t))) (table_tokens table)
  /\ Forall (fun v => 0 <= start_ (range (trivia_span v))) (table_trivia table).

Lemma lossless_unsigned table : lossless source table -> unsigned_spans table.
Proof.
  intros [H _ _]. split; apply Forall_lookup; intros i x Hi.
  - by destruct (tiled_tokens _ _ _ _ _ _ _ H Hi) as (_ & s & e & ? & [(_ & -> & _)]).
  - by destruct (tiled_trivia_at _ _ _ _ _ _ _ H Hi) as (_ & s & e & ? & [(_ & -> & _)]).
Qed.

Lemma check_if_over (bad : bool) resource limit u :
  (if bad then over_limit resource limit else Ok tt) = Ok u -> bad = false.
Proof. by destruct bad. Qed.
Lemma check_if_broken (bad : bool) message (u : unit) :
  (if bad then broken message else Ok tt) = Ok u -> bad = false.
Proof. by destruct bad. Qed.

Lemma validate_accepts table complete limits n b :
  unsigned_spans table -> validate_lexical_table source table complete limits = Ok (n, b) ->
  exists c, covers source table c /\ (complete = true -> c = len (source_text source)) /\ n = len (table_tokens table) /\ n <= limit_tokens limits
  /\ b = literal_total (table_tokens table) /\ b <= limit_literal_bytes limits.
Proof.
  intros [Hut Huv]. unfold validate_lexical_table.
  intros ([] & [Hne Hcount]%check_if_over%orb_false_iff & H)%result_bind_Ok.
  apply result_bind_Ok in H as (lits & [Hb Hts]%check_tokens_Ok & H); [|done].
  apply result_bind_Ok in H as ([] & Hlits%check_if_over & H).
  apply result_bind_Ok in H as ([] & [Hone Hlast]%check_if_broken%orb_false_iff & H).
  apply result_bind_Ok in H as (bad & Hbad & H).
  apply result_bind_Ok in H as ([] & ->%check_if_broken & H).
  pose proof (any_bad_trivia_false _ _ Huv Hbad) as Hvs.
  apply result_bind_Ok in H as ([[nt nv] c] & Ho & H).
  apply result_bind_Ok in H as (m & Hm & H).
  apply result_bind_Ok in H as ([] & [Hnt Hnv]%check_if_broken%orb_false_iff & H).
  apply result_bind_Ok in H as (lt & Hlt & H).
  apply result_bind_Ok in H as ([] & [[Hlo Hc]%orb_false_iff _]%check_if_broken%orb_false_iff & H).
  destruct (try_u32 (len (source_text source))) as [m'|] eqn:Em; [|done]. injection Hm as ->.
  apply try_u32_Some in Em as [_ ->].
  destruct (try_u32 (len (table_tokens table) - 1)) as [lt'|] eqn:El; [|done]. injection Hlt as ->.
  apply try_u32_Some in El as [_ ->].
  destruct (try_u32 (len (table_tokens table))) as [n'|] eqn:En; [|done]. injection H as <- <-.
  apply try_u32_Some in En as [_ ->]. simpl in Hc. bool_to_prop. subst. simpl in *.
  destruct (check_order_tiled table _ _ _ _ Hts Hvs Ho) as (_ & _ & Ht).
  unfold len in Ht at 1 2. rewrite !Nat2Z.id, !firstn_all in Ht.
  exists c. split_and!; [|intros ->; simpl in Hc; by bool_to_prop|lia..].
  split; [done|by apply only_last_eof|done].
Qed.

Lemma validate_ok table c complete limits :
  limits_fit limits -> covers source table c -> (complete = true -> c = len (source_text source)) ->
  len (table_tokens table) <= limit_tokens limits ->
  literal_total (table_tokens table) <= limit_literal_bytes limits ->
  validate_lexical_table source table complete limits
  = Ok (len (table_tokens table), literal_total (table_tokens table)).
Proof.
  intros (Hfit & _ & Hfit' & _) [Ht He Hl] Hcover Hn Hb. pose proof (tiled_cursor source _ _ _ _ Ht) as Hc. apply only_last_eof in He as [Hone Hlast].
  pose proof (file_small _ Hsource) as Hsmall. unfold validate_lexical_table.
  assert (table_tokens table <> []) by (intros Hnil; by rewrite Hnil in Hlast).
  rewrite (bool_decide_eq_false_2 _ H), (proj2 (Z.ltb_ge _ _) Hn). cbn -[len].
  rewrite check_tokens_ok; [|by intros; eapply tiled_tokens|lia]. cbn -[len].
  rewrite (proj2 (Z.ltb_ge _ _)) by lia. cbn -[len].
  rewrite Hone, (bool_decide_eq_true_2 _ Hlast). cbn -[len].
  rewrite any_bad_trivia_ok by (intros; by eapply tiled_trivia_at). cbn -[len].
  rewrite (tiled_check_order table _ _ _ _ Ht) by done. cbn -[len].
  unfold try_u32, u32_max in *. rewrite !(proj2 (Z.leb_le _ _)) by lia. cbn -[len].
  rewrite !Z.eqb_refl, (bool_decide_eq_true_2 _ Hl), (proj2 (Z.ltb_ge _ _)) by lia.
  destruct complete; [rewrite Hcover, Z.eqb_refl by done|]; done.
Qed.

(** C24: the sealer accepts a table exactly when it covers the text up to some
    place (its tokens and trivia, numbered in order, lie side by side from the
    start of the text, their spellings are the text they lie on, and the only
    end-of-file token is the last element), is within the limits, and, for a
    candidate that says its recovery was complete, covers all of the text; it
    then counts the tokens and the bytes of literals. *)
Theorem validate_lexical_table_exact table complete limits n b :
  limits_fit limits -> unsigned_spans table ->
  validate_lexical_table source table complete limits = Ok (n, b) <->
    exists c, covers source table c /\ (complete = true -> c = len (source_text source))
    /\ n = len (table_tokens table) /\ n <= limit_tokens limits
    /\ b = literal_total (table_tokens table) /\ b <= limit_literal_bytes limits.
Proof.
  intros Hfit Hu. split; [by apply validate_accepts|].
  intros (c & H & Hc & -> & ? & -> & ?). by apply (validate_ok table c).
Qed.

(** ** The text of a lossless table *)

Lemma subslice_app (a b c : Z) (t : str) :
  0 <= a <= b -> b <= c -> subslice t a b ++ subslice t b c = subslice t a c.
Proof.
  intros Ha Hb. unfold subslice. rewrite <- (take_drop (Z.to_nat (b - a)) (take (Z.to_nat (c - a)) _)).
  rewrite take_take, Nat.min_l, skipn_firstn_comm, drop_drop by lia. f_equal. f_equal; [lia|]. f_equal. lia.
Qed.

Lemma tiled_text table ts vs es c :
  tiled source ts vs es c -> ts `prefix_of` table_tokens table -> vs `prefix_of` table_trivia table ->
  concat (element_text source table <$> es) = take (Z.to_nat c) (source_text source).
Proof.
  induction 1 as [|ts vs es c t c' H IH Ht Hid|ts vs es c v c' H IH Hv Hid]; intros Hts Hvs; [done| |];
    rewrite fmap_app, concat_app, IH by (try done; by eapply prefix_app_l); simpl; rewrite app_nil_r;
    apply tiled_cursor in H.
  - replace (Z.to_nat (len ts)) with (length ts) by (unfold len; lia).
    rewrite (prefix_lookup_Some (ts ++ [t]) _ (length ts) t); [|by rewrite lookup_app_r, Nat.sub_diag|done].
    destruct Ht as [(_ & -> & -> & Hle & _) _ _ _ _ _].
    assert (E := subslice_app 0 c c' (source_text source)). unfold subslice in *.
    rewrite !Z.sub_0_r, !drop_0 in E. apply E; lia.
  - replace (Z.to_nat (len vs)) with (length vs) by (unfold len; lia).
    rewrite (prefix_lookup_Some (vs ++ [v]) _ (length vs) v); [|by rewrite lookup_app_r, Nat.sub_diag|done].
    destruct Hv as [(_ & -> & -> & _) Hlt].
    assert (E := subslice_app 0 c c' (source_text source)). unfold subslice in *.
    rewrite !Z.sub_0_r, !drop_0 in E. apply E; lia.
Qed.

(** Laying the elements of a lossless table one after the other gives the text. *)
Lemma lossless_text table :
  lossless source table ->
  concat (element_text source table <$> table_order table) = source_text source.
Proof.
  intros [H _ _]. rewrite (tiled_text table _ _ _ _ H) by done.
  unfold len. by rewrite Nat2Z.id, firstn_all.
Qed.
End exact.
