(* ===== verification/SyntaxDiagnostics.v ===== *)
(** The sealer's check of a parser's diagnostics
    ([validate_parse_diagnostics] of [src/crates/wrela-syntax/src/lib.rs]). *)

From Stdlib Require Import Strings.Byte.
From stdpp Require Import base numbers list option strings.
From S2P Require Import Prelude Bytes Order Interrupt Text Source Diagnostics SyntaxTokens Literals LexicalTable.

#[local] Open Scope Z_scope.

(** [message.trim().is_empty()]. *)
Definition is_blank (s : str) : bool := forallb is_whitespace (chars s).

Definition is_code_byte (b : byte) : bool :=
  let z := Z_of_byte b in between 0x61 0x7A z || is_ascii_digit b || bool_decide (b = "-"%byte).
Definition code_malformed (code : str) : bool :=
  bool_decide (code = []) || negb (forallb is_code_byte code).

(** [a || b] where the operands may panic. *)
Definition or_else (a b : result abort bool) : result abort bool :=
  x ← a; if x : bool then Ok true else b.
(** [iter().any(f)]. *)
Fixpoint any_of {A} (f : A -> result abort bool) (xs : list A) : result abort bool :=
  match xs with
  | [] => Ok false
  | x :: xs => or_else (f x) (any_of f xs)
  end.

Section checks.
Context (source : SourceFile).

Definition bad_span (s : Span) : result abort bool := negb <$> valid_span source s.

(** [edits.windows(2).all(..)]. *)
Definition edits_ordered (es : list SourceEdit) : bool :=
  forallb (fun '(a, b) => end_ (range (edit_span a)) <=? start_ (range (edit_span b))) (zip es (drop 1 es)).

Definition diagnostic_malformed (d : Diagnostic) : result abort bool :=
  or_else (Ok (is_blank (message d)))
  (or_else (bad_span (primary d))
  (or_else (Ok (match code d with Some code => code_malformed code | None => false end))
  (or_else (any_of (fun l => or_else (Ok (is_blank (label_message l))) (bad_span (label_span l))) (labels d))
  (or_else (any_of (fun r => or_else (Ok (is_blank (related_message r))) (bad_span (related_span r))) (related d))
  (any_of (fun r =>
     or_else (Ok (is_blank (repair_message r)))
     (or_else (Ok (bool_decide (edits r = [])))
     (or_else (Ok (negb (edits_ordered (edits r))))
     (any_of (fun e => bad_span (edit_span e)) (edits r))))) (repairs d)))))).

(** The strings of a diagnostic that count. *)
Definition diagnostic_strings (d : Diagnostic) : list str :=
  [message d]
  ++ (match code d with Some code => [code] | None => [] end)
  ++ map label_message (labels d) ++ notes d ++ help d
  ++ map related_message (related d) ++ map repair_message (repairs d)
  ++ map replacement (concat (map edits (repairs d))).

Fixpoint count_bytes (limits : ParseLimits) (bytes : Z) (values : list str) : prog abort Z :=
  match values with
  | [] => mret bytes
  | value :: values =>
      _ ← poll (ParseFailed ParseCancelled);
      bytes ← lift (ok_or (checked_add 64 bytes (len value))
                (ParseFailed (ParseResourceLimit "diagnostic bytes" (limit_diagnostic_bytes limits))));
      count_bytes limits bytes values
  end.

Fixpoint check_diagnostics (limits : ParseLimits) (bytes : Z) (ds : list Diagnostic) : prog abort Z :=
  match ds with
  | [] => mret bytes
  | d :: ds =>
      _ ← poll (ParseFailed ParseCancelled);
      malformed ← lift (diagnostic_malformed d);
      _ ← fail_if malformed (ParseFailed
            (InternalInvariant "parser diagnostic is malformed or refers outside its source"));
      bytes ← count_bytes limits bytes (diagnostic_strings d);
      check_diagnostics limits bytes ds
  end.

Definition validate_parse_diagnostics (limits : ParseLimits) (ds : list Diagnostic)
    : prog abort (list Diagnostic * Z * Z) :=
  let too_many := ParseFailed (ParseResourceLimit "diagnostics" (limit_diagnostics limits)) in
  _ ← fail_if (limit_diagnostics limits <? len ds) too_many;
  bytes ← check_diagnostics limits 0 ds;
  _ ← fail_if (limit_diagnostic_bytes limits <? bytes)
        (ParseFailed (ParseResourceLimit "diagnostic bytes" (limit_diagnostic_bytes limits)));
  ds ← map_errM (fun e => match e with
                          | Cancelled => ParseFailed ParseCancelled
                          | Allocation => too_many
                          end) (canonicalize_diagnostics ds);
  count ← lift (ok_or (try_u32 (len ds)) too_many);
  mret (ds, count, bytes).
End checks.
