(* ===== verification/ParseLogic.v ===== *)
(** The program logic of the scanner's monad, and the places where a cursor in a
    UTF-8 text may stand. *)

From Stdlib Require Import Strings.Byte.
From stdpp Require Import base numbers list option strings.
From S2P Require Import Prelude Bytes Interrupt Text Source SyntaxTokens Literals.

#[local] Open Scope Z_scope.

(** ** Outcomes *)

Fixpoint outcomes {E A} (X : E -> Prop) (Q : A -> Prop) (m : prog E A) : Prop :=
  match m with
  | Ret a => Q a
  | Throw e => X e
  | Ask _ k => forall b, outcomes X Q (k b)
  end.

Section outcomes.
Context {E A B : Type} (X : E -> Prop).

Lemma outcomes_bind (m : prog E A) (f : A -> prog E B) Q :
  outcomes X Q (m ≫= f) <-> outcomes X (fun a => outcomes X Q (f a)) m.
Proof.
  unfold mbind, prog_mbind. induction m as [| |q k IH]; simpl; [done..|].
  by setoid_rewrite IH.
Qed.

Lemma outcomes_mono (m : prog E A) (P Q : A -> Prop) :
  (forall a, P a -> Q a) -> outcomes X P m -> outcomes X Q m.
Proof. intros H. induction m as [| |q k IH]; simpl; eauto. Qed.

Lemma outcomes_run env w (m : prog E A) Q :
  outcomes X Q m -> match fst (run env w m) with Ok a => Q a | Err e => X e end.
Proof.
  revert w. induction m as [| |q k IH]; intros w H; simpl; [done..|].
  destruct (answer env w q) as [b w']. by apply IH.
Qed.

Lemma outcomes_poll (e : E) Q : X e -> Q tt -> outcomes X Q (poll e).
Proof. intros He HQ [|]; done. Qed.
Lemma outcomes_try_reserve (e : E) Q : X e -> Q tt -> outcomes X Q (try_reserve e).
Proof. intros He HQ [|]; done. Qed.
End outcomes.

(** How a parser may fail. *)
Definition may_fail (e : ParseFailure) : Prop :=
  match e with ParseCancelled | ParseResourceLimit _ _ => True | _ => False end.
Definition may_abort (a : abort) : Prop :=
  match a with ParseFailed e => may_fail e | ParseFaulted _ => False end.

Definition wp {S A} (m : parsing S A) (Q : A -> S -> Prop) (s : S) : Prop :=
  outcomes may_abort (fun '(a, s') => Q a s') (m s).

(** ** Rules *)

Section wp.
Context {S : Type}.
Implicit Types (s : S).

Lemma wp_mret {A} (a : A) Q s : Q a s -> wp (mret a : parsing S A) Q s.
Proof. done. Qed.

Lemma wp_bind {A B} (m : parsing S A) (f : A -> parsing S B) Q s :
  wp m (fun a s' => wp (f a) Q s') s -> wp (m ≫= f) Q s.
Proof.
  unfold wp, mbind at 1, stateT_bind. rewrite outcomes_bind. apply outcomes_mono. by intros [a s'].
Qed.

Lemma wp_mono {A} (m : parsing S A) (P Q : A -> S -> Prop) s :
  wp m P s -> (forall a s', P a s' -> Q a s') -> wp m Q s.
Proof. intros H HPQ. eapply outcomes_mono; [|exact H]. intros [a s']. apply HPQ. Qed.

Lemma wp_fail_with {A} e Q s : may_fail e -> wp (fail_with e : parsing S A) Q s.
Proof. done. Qed.

Lemma wp_reject_if bad e Q s :
  may_fail e -> (bad = false -> Q tt s) -> wp (reject_if bad e) Q s.
Proof. destruct bad; [done|]. intros _ H. by apply H. Qed.

Lemma wp_reserve_or e Q s : may_fail e -> Q tt s -> wp (reserve_or e) Q s.
Proof. intros He HQ [|]; done. Qed.

Lemma wp_require {A} (o : option A) e Q s :
  may_fail e -> (forall a, o = Some a -> Q a s) -> wp (require o e) Q s.
Proof. destruct o; [|done]. intros _ H. by apply H. Qed.

Lemma wp_require_Some {A} (o : option A) a e Q s : o = Some a -> Q a s -> wp (require o e) Q s.
Proof. by intros ->. Qed.

(** A loop: an invariant, and a measure below the fuel. *)
Lemma wp_turns {L R} (J : L -> S -> Prop) (mu : L -> S -> nat) fuel (body : L -> parsing S (turn L R)) Q l s :
  (forall l s, J l s ->
     wp (body l) (fun t s' => match t with
                              | Again l' => J l' s' /\ (mu l' s' < mu l s)%nat
                              | Leave r => Q r s'
                              end) s) ->
  J l s -> (mu l s < fuel)%nat -> wp (turns fuel body l) Q s.
Proof.
  intros Hbody. revert l s. induction fuel as [|fuel IH]; intros l s HJ Hmu; [lia|].
  simpl. apply wp_bind. eapply wp_mono; [by apply Hbody|].
  intros [l'|r] s'; [|done]. intros [HJ' Hlt]. apply IH; [done|lia].
Qed.
End wp.

(** Enter a sequence. *)
Ltac wp_step := apply wp_bind.

(** A position from which the rest of the text can be decoded. *)
Definition at_char (text : str) (p : Z) : Prop :=
  0 <= p <= len text /\ utf8_valid (drop (Z.to_nat p) text) = true.

Section cursor.
Context (text : str).

Lemma at_char_0 : utf8_valid text = true -> at_char text 0.
Proof. intros H. split; [pose proof (len_nonneg text); lia|by rewrite drop_0]. Qed.

Lemma at_char_end : at_char text (len text).
Proof.
  pose proof (len_nonneg text). split; [lia|]. unfold len. by rewrite Nat2Z.id, drop_all.
Qed.

(** The character at a cursor. *)
Lemma at_char_next p :
  at_char text p -> p < len text ->
  exists c tail, first_char (drop (Z.to_nat p) text) = Some c
    /\ next_char (drop (Z.to_nat p) text) = Some (c, drop (Z.to_nat (p + len_utf8 c)) text)
    /\ at_char text (p + len_utf8 c) /\ 1 <= len_utf8 c
    /\ (exists b, drop (Z.to_nat p) text = b :: tail ++ drop (Z.to_nat (p + len_utf8 c)) text
        /\ is_cont (Z_of_byte b) = false).
Proof.
  intros [Hp Hv] Hlt. destruct (drop (Z.to_nat p) text) as [|b bs] eqn:Hd.
  { apply (f_equal length) in Hd. rewrite length_drop in Hd. simpl in Hd. unfold len in *. lia. }
  unfold utf8_valid in Hv. rewrite utf8_chars_step in Hv.
  destruct (next_char (b :: bs)) as [[c rest]|] eqn:Hn; [|done].
  destruct (next_char_spec _ _ _ Hn) as (b' & tail & [= <- ->] & _ & _ & Hlen & _).
  assert (Hr : drop (Z.to_nat (p + len_utf8 c)) text = rest).
  { rewrite Hlen. pose proof (len_nonneg tail).
    replace (Z.to_nat (p + (1 + len tail))) with (Z.to_nat p + S (length tail))%nat by (unfold len; lia).
    rewrite <- drop_drop, Hd. simpl. by rewrite drop_app_length. }
  exists c, tail. pose proof (len_nonneg tail). split_and!.
  - unfold first_char. by rewrite Hn.
  - by rewrite Hr.
  - split; [|rewrite Hr; unfold utf8_valid; by destruct (utf8_chars rest)].
    apply (f_equal length) in Hd. rewrite length_drop in Hd. simpl in Hd. rewrite length_app in Hd.
    unfold len in *. lia.
  - lia.
  - exists b. split; [by rewrite Hr|]. revert Hn. unfold next_char, is_cont, between.
    clear. pose proof (Z_of_byte_range b).
    destruct (Z.ltb_spec (Z_of_byte b) 0x80); [intros _; lia|].
    unfold second3, second4, between, is_cont. repeat case_match; intros; try done; lia.
Qed.

Lemma at_char_boundary p : at_char text p -> is_char_boundary text p = true.
Proof.
  intros H. pose proof H as [Hp _]. unfold is_char_boundary.
  destruct (Z.eqb_spec p 0); [done|]. destruct (Z.eqb_spec p (len text)); [done|].
  destruct (at_char_next p H) as (c & tail & _ & _ & _ & _ & b & Hd & Hb); [lia|].
  assert (Hl : text !! Z.to_nat p = Some b).
  { apply (f_equal (.!! 0%nat)) in Hd. by rewrite lookup_drop, Nat.add_0_r in Hd. }
  by rewrite Hl, Hb.
Qed.

Lemma get_from_at p : at_char text p -> get_from text p = Some (drop (Z.to_nat p) text).
Proof.
  intros H. unfold get_from. rewrite (at_char_boundary p H). destruct H as [H _].
  rewrite !(proj2 (Z.leb_le _ _)) by lia. done.
Qed.

Lemma get_slice_at a b :
  at_char text a -> at_char text b -> a <= b -> get_slice text a b = Some (subslice text a b).
Proof.
  intros Ha Hb Hle. unfold get_slice. rewrite (at_char_boundary a Ha), (at_char_boundary b Hb).
  destruct Ha as [Ha _], Hb as [Hb _]. rewrite !(proj2 (Z.leb_le _ _)) by lia. done.
Qed.

Lemma byte_at_lookup p : 0 <= p -> byte_at text p = text !! Z.to_nat p.
Proof. intros H. unfold byte_at. destruct (Z.ltb_spec p 0); [lia|done]. Qed.

Lemma byte_at_Some p b : byte_at text p = Some b -> 0 <= p < len text.
Proof.
  unfold byte_at. destruct (Z.ltb_spec p 0); [done|]. intros H'%lookup_lt_Some. unfold len. lia.
Qed.

Lemma byte_is_Some p b : byte_is text p b = true <-> byte_at text p = Some b.
Proof. apply bool_decide_eq_true. Qed.

(** The cursor moves over an ASCII byte. *)
Lemma at_char_ascii p b :
  at_char text p -> byte_at text p = Some b -> Z_of_byte b < 0x80 ->
  first_char (drop (Z.to_nat p) text) = Some (Z_of_byte b) /\ at_char text (p + 1).
Proof.
  intros H Hb Hlt. destruct (byte_at_Some _ _ Hb) as [H0 H1].
  destruct (at_char_next p H H1) as (c & tail & Hc & Hn & Ha & _ & b' & Hd & _).
  rewrite byte_at_lookup in Hb by done.
  assert (b' = b) as ->.
  { apply (f_equal (.!! 0%nat)) in Hd. rewrite lookup_drop, Nat.add_0_r, Hb in Hd. by injection Hd. }
  rewrite Hd in Hn. cbn in Hn. rewrite (proj2 (Z.ltb_lt _ _) Hlt) in Hn. injection Hn as <- _.
  split; [done|]. unfold len_utf8 in Ha. by rewrite (proj2 (Z.ltb_lt _ _) Hlt) in Ha.
Qed.

(** And an ASCII character is one byte. *)
Lemma first_char_ascii p c :
  at_char text p -> first_char (drop (Z.to_nat p) text) = Some c -> c < 0x80 ->
  exists b, byte_at text p = Some b /\ Z_of_byte b = c.
Proof.
  intros H Hc Hlt. rewrite byte_at_lookup by apply H.
  destruct (drop (Z.to_nat p) text) as [|b bs] eqn:Hd; [done|]. exists b. split.
  { apply (f_equal (.!! 0%nat)) in Hd. by rewrite lookup_drop, Nat.add_0_r in Hd. }
  unfold first_char, next_char in Hc. pose proof (Z_of_byte_range b).
  destruct (Z.ltb_spec (Z_of_byte b) 0x80); [by injection Hc|].
  unfold code2, code3, code4, second3, second4, between, is_cont in Hc.
  repeat case_match; simplify_eq; simpl in *; simplify_eq; lia.
Qed.

Lemma first_char_Some p c :
  at_char text p -> first_char (drop (Z.to_nat p) text) = Some c ->
  p < len text /\ at_char text (p + len_utf8 c) /\ 1 <= len_utf8 c.
Proof.
  intros H Hc. assert (Hlt : p < len text).
  { destruct H as [H _]. destruct (Z.ltb_spec p (len text)); [done|]. exfalso.
    rewrite drop_ge in Hc by (unfold len in *; lia). done. }
  split; [done|]. destruct (at_char_next p H Hlt) as (c' & tail & Hc' & _ & Ha & Hl & _).
  rewrite Hc in Hc'. by injection Hc' as <-.
Qed.

(** The cursor moves over an ASCII string. *)
Lemma at_char_prefix p prefix :
  at_char text p -> starts_with (drop (Z.to_nat p) text) prefix = true ->
  forallb (fun b => Z_of_byte b <? 0x80) prefix = true ->
  at_char text (p + len prefix) /\ subslice text p (p + len prefix) = prefix.
Proof.
  intros H Hs%bool_decide_eq_true Ha.
  assert (Hsub : subslice text p (p + len prefix) = prefix).
  { unfold subslice. replace (Z.to_nat (p + len prefix - p)) with (length prefix) by (unfold len; lia). done. }
  split; [|done]. clear Hsub. revert p H Hs. induction prefix as [|b prefix IH]; intros p H Hs.
  { by rewrite len_nil, Z.add_0_r. }
  cbn [forallb] in Ha. apply andb_true_iff in Ha as [Hb Ha]. apply Z.ltb_lt in Hb.
  destruct (drop (Z.to_nat p) text) as [|b' bs] eqn:Hd; [done|]. injection Hs as -> Hs.
  assert (Hat : byte_at text p = Some b).
  { rewrite byte_at_lookup by apply H. apply (f_equal (.!! 0%nat)) in Hd.
    by rewrite lookup_drop, Nat.add_0_r in Hd. }
  destruct (at_char_ascii p b H Hat Hb) as [_ H1]. rewrite len_cons, Z.add_assoc. apply IH; [done|done|].
  replace (Z.to_nat (p + 1)) with (Z.to_nat p + 1)%nat by (destruct H; lia).
  by rewrite <- drop_drop, Hd.
Qed.

(** ** Digits and escapes *)

Lemma hexdigit_ascii b : is_ascii_hexdigit b = true -> Z_of_byte b < 0x80.
Proof. unfold is_ascii_hexdigit, between. lia. Qed.

Lemma hex_run_spec n p :
  at_char text p -> at_char text (hex_run n text p) /\ p <= hex_run n text p <= p + Z.of_nat n.
Proof.
  revert p. induction n as [|n IH]; intros p H; simpl; [split; [done|lia]|].
  destruct (byte_at text p) as [b|] eqn:Hb; [|split; [done|lia]].
  destruct (is_ascii_hexdigit b) eqn:Hh; [|split; [done|lia]].
  destruct (at_char_ascii p b H Hb (hexdigit_ascii b Hh)) as [_ H1].
  destruct (IH _ H1). split; [done|lia].
Qed.

(** An escape ends behind the backslash, between two characters. *)
Lemma decode_escape_end start byte_string :
  len text < 2 ^ usize - 1 -> at_char text start -> byte_at text start = Some "\"%byte ->
  at_char text (escape_end (decode_escape text start byte_string))
  /\ start < escape_end (decode_escape text start byte_string).
Proof.
  intros Hlen H Hb. destruct (at_char_ascii _ _ H Hb eq_refl) as [_ H1].
  pose proof (byte_at_Some _ _ Hb) as Hlt. unfold decode_escape.
  replace (Z.min (saturating_add usize start 1) (len text)) with (start + 1)
    by (unfold saturating_add; lia).
  rewrite get_from_at by done. cbn [mbind option_bind].
  destruct (first_char (drop (Z.to_nat (start + 1)) text)) as [c|] eqn:Hc; [|simpl; split; [done|lia]].
  apply first_char_Some in Hc as (Hlt2 & H2 & Hc); [|done].
  set (p := start + 1 + len_utf8 c) in *.
  destruct (simple_escape c); [split; [done|simpl; unfold p; lia]|].
  destruct (_ && byte_string).
  { destruct (hex_run_spec 2 p H2). destruct (_ =? 2); cbn [escape_end bad_escape]; (split; [done|unfold p in *; lia]). }
  destruct (_ && negb byte_string); [|simpl; split; [done|unfold p; lia]].
  destruct (byte_is text p "{") eqn:Ho; cbn [negb escape_end bad_escape]; [|split; [done|unfold p; lia]].
  apply byte_is_Some in Ho. destruct (at_char_ascii _ _ H2 Ho eq_refl) as [_ H3].
  destruct (hex_run_spec 7 (p + 1) H3) as [H4 Hle].
  set (e := hex_run 7 text (p + 1)) in *. clearbody e.
  assert (Hclose : at_char text (if byte_is text e "}" then e + 1 else e)
    /\ start < (if byte_is text e "}" then e + 1 else e)).
  { destruct (byte_is text e "}") eqn:Hcl; [|split; [done|unfold p in *; lia]].
    apply byte_is_Some in Hcl. destruct (at_char_ascii _ _ H4 Hcl eq_refl). split; [done|unfold p in *; lia]. }
  destruct (from_str_radix_16 _ ≫= _); [destruct (_ && _)|]; exact Hclose.
Qed.
End cursor.
