(* ===== verification/ScannerState.v ===== *)
(** The invariant of the scanner and what its primitive operations do to it:
    polling, diagnostics, tokens and trivia. *)

From Stdlib Require Import Strings.Byte Sorting.Sorted.
From stdpp Require Import base numbers list option strings.
From S2P Require Import Prelude Bytes Interrupt Text Source Diagnostics SyntaxTokens Literals Scanner LexicalTable LexicalTableSound SyntaxDiagnostics ParseLogic.

#[local] Open Scope Z_scope.

(** ** Layout *)

(** How many indented blocks are open behind a sequence of tokens; [None] when
    one is closed that was not opened. *)
Fixpoint layout_depth (d : nat) (ts : list Token) : option nat :=
  match ts with
  | [] => Some d
  | t :: ts =>
      match token_kind t with
      | Indent => layout_depth (S d) ts
      | Dedent => match d with O => None | S d => layout_depth d ts end
      | _ => layout_depth d ts
      end
  end.

Definition depth_step (d : nat) (kind : TokenKind) : option nat :=
  match kind, d with
  | Indent, _ => Some (S d)
  | Dedent, S d => Some d
  | Dedent, O => None
  | _, _ => Some d
  end.

Lemma layout_depth_app d ts us :
  layout_depth d (ts ++ us) = layout_depth d ts ≫= fun d => layout_depth d us.
Proof.
  revert d. induction ts as [|t ts IH]; intros d; simpl; [done|].
  destruct (token_kind t), d; simpl; auto.
Qed.

Lemma layout_depth_snoc d ts t d1 d2 :
  layout_depth d ts = Some d1 -> depth_step d1 (token_kind t) = Some d2 ->
  layout_depth d (ts ++ [t]) = Some d2.
Proof. intros H Hs. rewrite layout_depth_app, H. simpl. by destruct (token_kind t), d1. Qed.

(** Trivia are not empty, so there are no more of them than bytes. *)
Lemma tiled_trivia_count source ts vs es c : tiled source ts vs es c -> len vs <= c.
Proof.
  induction 1 as [|ts vs es c t c' H IH [(_ & _ & _ & Hle & _) _ _ _ _ _] _|ts vs es c v c' H IH [_ Hlt] _].
  - done.
  - lia.
  - rewrite len_app, len_cons, len_nil. lia.
Qed.

(** ** Messages *)

Definition is_ascii (s : str) : bool := forallb (fun b => Z_of_byte b <? 0x80) s.
(** ASCII text that begins with a letter. *)
Definition message_ok (s : str) : bool :=
  is_ascii s && match s with
                | b :: _ => between 0x41 0x5A (Z_of_byte b) || between 0x61 0x7A (Z_of_byte b)
                | [] => false
                end.

Lemma is_ascii_app s t : is_ascii (s ++ t) = is_ascii s && is_ascii t.
Proof. apply forallb_app. Qed.

Lemma message_ok_app s t : message_ok s = true -> is_ascii t = true -> message_ok (s ++ t) = true.
Proof.
  unfold message_ok. intros [Hs Hb]%andb_true_iff Ht. rewrite is_ascii_app, Hs, Ht. by destruct s.
Qed.

Lemma message_not_blank s : message_ok s = true -> is_blank s = false.
Proof.
  unfold message_ok, is_blank. intros [Hs Hb]%andb_true_iff. destruct s as [|b s]; [done|].
  assert (Hv := utf8_valid_ascii _ Hs). unfold utf8_valid, chars in *. rewrite utf8_chars_step in *.
  cbn in Hs. apply andb_true_iff in Hs as [Hs _]. unfold next_char in *. rewrite Hs in *.
  destruct (utf8_chars s) as [cs|]; [|done]. simpl.
  unfold is_whitespace, between in *. pose proof (Z_of_byte_range b).
  apply andb_false_intro1. lia.
Qed.

Lemma radix_digits_ascii base fuel z acc :
  1 < base <= 16 -> is_ascii acc = true -> is_ascii (radix_digits base fuel z acc) = true.
Proof.
  intros Hb. revert z acc. induction fuel as [|fuel IH]; intros z acc Ha; [done|]. cbn [radix_digits].
  assert (Hd : is_ascii (radix_digit (z mod base) :: acc) = true).
  { cbn [is_ascii forallb]. apply andb_true_iff. split; [|done]. unfold radix_digit.
    pose proof (Z.mod_pos_bound z base ltac:(lia)). apply Z.ltb_lt. rewrite Z_of_byte_of_Z.
    destruct (Z.ltb_spec (z mod base) 10); rewrite Z.mod_small; lia. }
  destruct (z / base =? 0); [done|]. by apply IH.
Qed.

Lemma format_decimal_ascii n : is_ascii (format_decimal n) = true.
Proof. by apply radix_digits_ascii. Qed.

Lemma format_04X_ascii c : is_ascii (format_04X c) = true.
Proof.
  unfold format_04X. rewrite is_ascii_app, radix_digits_ascii by done. rewrite andb_true_r.
  generalize (4 - length (radix_digits 16 8 c []))%nat as n. induction n; done.
Qed.

Lemma format_bracket_ascii c : 0 <= c < 0x80 -> is_ascii (format_bracket c) = true.
Proof.
  intros Hc. unfold format_bracket, is_ascii. cbn [forallb]. rewrite Z_of_byte_of_Z, Z.mod_small by lia.
  rewrite (proj2 (Z.ltb_lt c 0x80)) by lia. done.
Qed.

(** ** The invariant *)

Section state.
Context (source : SourceFile) (limits : ParseLimits).
Notation text := (source_text source).

(** The text under a token that keeps no spelling is one its kind stands for,
    and no identifier is spelled like a keyword. *)
Definition text_fits (kind : TokenKind) (slice : str) : Prop :=
  (carries_spelling kind = false -> slice ∈ kind_texts kind)
  /\ (kind = Identifier -> keyword slice = None).
Definition token_fits (t : Token) : Prop :=
  synthetic t = false ->
  text_fits (token_kind t) (subslice text (start_ (range (token_span t))) (end_ (range (token_span t)))).

(** Diagnostics that measure a line's indentation in columns. *)
Definition column_code (code : string) : bool :=
  bool_decide (code = "syntax-invalid-indentation") || bool_decide (code = "syntax-inconsistent-dedent").
Definition has_tab : Prop := x09 ∈ text.

(** A diagnostic of the scanner: it lies on the text between two characters,
    except that a column diagnostic of a text with tabs need not. *)
Record diagnostic_ok (d : Diagnostic) : Prop := {
  diagnostic_message : message_ok (message d) = true;
  diagnostic_code : exists c, code d = Some (ascii c) /\ code_malformed (ascii c) = false
    /\ ((exists a b, 0 <= a /\ spanned source (primary d) a b) \/ (has_tab /\ column_code c = true));
  diagnostic_plain : labels d = [] /\ notes d = [] /\ help d = [] /\ related d = [] /\ repairs d = [];
}.

Definition diagnostic_size (d : Diagnostic) : Z :=
  len (message d) + match code d with Some c => len c | None => 0 end.
Definition diagnostics_size (ds : list Diagnostic) : Z := foldr (fun d n => diagnostic_size d + n) 0 ds.

Record sink_ok (d : DiagnosticSink) : Prop := {
  sink_each : Forall diagnostic_ok (sink_diagnostics d);
  sink_count : len (sink_diagnostics d) <= limit_diagnostics limits;
  sink_counted : sink_bytes d = diagnostics_size (sink_diagnostics d);
  sink_within : sink_bytes d <= limit_diagnostic_bytes limits;
}.

(** An open bracket: an ASCII character between two cursors. *)
Definition delimiter_ok (d : Z * Z) : Prop :=
  0 <= d.1 < 0x80 /\ at_char text d.2 /\ at_char text (d.2 + 1).

(** The levels of indentation grow from column zero. *)
Definition levels_ok (levels : list Z) : Prop :=
  head levels = Some 0 /\ StronglySorted Z.lt levels.

(** [good p d s]: what the scanner has produced covers the text up to [p] and
    leaves [d] blocks open. *)
Record good (p : Z) (d : nat) (s : Scanner) : Prop := {
  good_cursor : at_char text (cursor s);
  good_tiled : tiled source (tokens s) (trivia s) (order s) p;
  good_fits : Forall token_fits (tokens s);
  good_no_eof : Forall (fun t => token_kind t <> EndOfFile) (tokens s);
  good_count : len (tokens s) <= limit_tokens limits;
  good_literals : literal_bytes s = literal_total (tokens s) /\ literal_bytes s <= limit_literal_bytes limits;
  good_layout : layout_depth 0 (tokens s) = Some d;
  good_levels : levels_ok (indentation s);
  good_delimiters : Forall delimiter_ok (delimiters s);
  good_work : 0 <= poll_work s < CANCELLATION_POLL_INTERVAL;
  good_sink : sink_ok (sink s);
}.

(** As many blocks are open as there are levels of indentation. *)
Definition open_blocks (s : Scanner) : nat := pred (length (indentation s)).

(** What most operations leave alone. *)
Record same (s s' : Scanner) : Prop := {
  same_cursor : cursor s' = cursor s;
  same_indentation : indentation s' = indentation s;
  same_delimiters : delimiters s' = delimiters s;
  same_interpolation : interpolation_depth s' = interpolation_depth s;
  same_tokens : (length (tokens s) <= length (tokens s'))%nat;
}.

#[export] Instance same_refl : Reflexive same.
Proof. by intros s. Qed.
#[export] Instance same_trans : Transitive same.
Proof. intros a b c [] []. split; [congruence..|lia]. Qed.

(** ** Reading and setting fields *)

Lemma wp_reads {A} (f : Scanner -> A) Q s : Q (f s) s -> wp (reads f) Q s.
Proof. done. Qed.
Lemma wp_get_state Q s : Q s s -> wp get_state Q s.
Proof. done. Qed.
Lemma wp_update f Q s : Q tt (f s) -> wp (update f) Q s.
Proof. done. Qed.

Lemma good_with_cursor p d c s : good p d s -> at_char text c -> good p d (with_cursor c s).
Proof. by intros []. Qed.
Lemma good_with_line_start p d b s : good p d s -> good p d (with_at_line_start b s).
Proof. by intros []. Qed.
Lemma good_with_prepared p d b s : good p d s -> good p d (with_prepared_dedent_at b s).
Proof. by intros []. Qed.
Lemma good_with_hanging_at p d b s : good p d s -> good p d (with_hanging_header_at b s).
Proof. by intros []. Qed.
Lemma good_with_hanging p d b s : good p d s -> good p d (with_hanging_header_continuation b s).
Proof. by intros []. Qed.
Lemma good_with_interpolation p d b s : good p d s -> good p d (with_interpolation_depth b s).
Proof. by intros []. Qed.
Lemma good_with_indentation p d levels s : good p d s -> levels_ok levels -> good p d (with_indentation levels s).
Proof. by intros []. Qed.
Lemma good_with_delimiters p d ds s : good p d s -> Forall delimiter_ok ds -> good p d (with_delimiters ds s).
Proof. by intros []. Qed.

Lemma wp_work p d Q s :
  good p d s -> (forall s', good p d s' -> same s s' -> Q tt s') -> wp work Q s.
Proof.
  intros [] HQ. unfold wp, work, CANCELLATION_POLL_INTERVAL in *.
  destruct (Z.eqb_spec (poll_work s + 1) 256).
  - rewrite outcomes_bind. apply outcomes_poll; [done|]. by apply HQ.
  - apply HQ; [|done]. split; try done. simpl. unfold CANCELLATION_POLL_INTERVAL. lia.
Qed.

Lemma wp_checkpoint Q s : Q tt s -> wp checkpoint Q s.
Proof. intros HQ [|]; done. Qed.

(** ** Reading text *)

Lemma wp_remaining p d Q s :
  good p d s -> Q (drop (Z.to_nat (cursor s)) text) s -> wp (remaining source) Q s.
Proof.
  intros G HQ. unfold remaining, Scanner.text. wp_step. apply wp_get_state.
  by rewrite (get_from_at _ _ (good_cursor _ _ _ G)).
Qed.

Lemma wp_current_char p d Q s :
  good p d s -> cursor s < len text ->
  (forall c, first_char (drop (Z.to_nat (cursor s)) text) = Some c ->
     at_char text (cursor s + len_utf8 c) -> 1 <= len_utf8 c -> Q c s) ->
  wp (current_char source) Q s.
Proof.
  intros G Hlt HQ. unfold current_char. wp_step. eapply wp_remaining; [done|].
  destruct (at_char_next _ _ (good_cursor _ _ _ G) Hlt) as (c & tail & Hc & _ & Ha & Hl & _).
  eapply wp_require_Some; [done|]. by apply HQ.
Qed.

Lemma wp_at_end Q s : Q (len text <=? cursor s) s -> wp (at_end source) Q s.
Proof. done. Qed.

(** ** Diagnostics *)

Definition reportable (code : string) (start end_ : Z) (message : str) : Prop :=
  code_malformed (ascii code) = false /\ message_ok message = true
  /\ ((at_char text start /\ at_char text end_ /\ start <= end_)
      \/ (has_tab /\ column_code code = true)).

Context (Hsource : file_ok source) (Hfit : limits_fit limits).

Lemma at_char_small p : at_char text p -> p mod 2 ^ 32 = p.
Proof.
  intros [Hp _]. pose proof (file_small _ Hsource) as Hs. apply Z.mod_small. unfold u32_max in Hs. lia.
Qed.

Lemma at_char_spanned a b :
  at_char text a -> at_char text b -> a <= b -> spanned source (span source a b) a b.
Proof.
  intros Ha Hb Hle. unfold spanned, boundary, span. simpl.
  rewrite (at_char_small a Ha), (at_char_small b Hb).
  pose proof (at_char_boundary _ _ Ha). pose proof (at_char_boundary _ _ Hb).
  destruct Ha as [? _], Hb as [? _]. done.
Qed.

Lemma diagnostics_size_app ds es : diagnostics_size (ds ++ es) = diagnostics_size ds + diagnostics_size es.
Proof. induction ds as [|d ds IH]; simpl; lia. Qed.

Lemma wp_report p d code start end_ message Q s :
  good p d s -> reportable code start end_ message ->
  (forall s', good p d s' -> same s s' -> Q tt s') ->
  wp (report source limits code start end_ message) Q s.
Proof.
  intros G (Hcode & Hmsg & Hspan) HQ. unfold report. wp_step. apply wp_get_state.
  wp_step. apply wp_reject_if; [done|]. intros Hn%Z.leb_gt.
  wp_step. apply wp_require; [done|]. intros next [_ ->]%checked_add_Some.
  wp_step. apply wp_reject_if; [done|]. intros Hb%Z.ltb_ge.
  wp_step. apply wp_reserve_or; [done|]. apply wp_update. apply HQ; [|done].
  pose proof (good_sink _ _ _ G) as [Heach Hcount Hsum Hin]. destruct G. split; try done. simpl.
  split; simpl.
  - apply Forall_app. split; [done|]. apply Forall_singleton. split; simpl; [done| |done].
    exists code. split_and!; [done|done|]. destruct Hspan as [(Ha & He & Hle)|Hspan]; [left|by right].
    exists start, end_. split; [apply Ha|]. by apply at_char_spanned.
  - unfold len in *. rewrite length_app. simpl. lia.
  - rewrite diagnostics_size_app, <- Hsum. simpl. unfold diagnostic_size. simpl. lia.
  - lia.
Qed.

(** ** Tokens and trivia *)

Lemma wp_check_token_capacity Q s :
  (len (tokens s) < limit_tokens limits -> Q tt s) -> wp (check_token_capacity limits) Q s.
Proof.
  intros HQ. unfold check_token_capacity. wp_step. apply wp_get_state.
  wp_step. apply wp_reject_if; [done|]. intros Hn%Z.leb_gt.
  wp_step. apply wp_reserve_or; [done|]. apply wp_reserve_or; [done|]. by apply HQ.
Qed.

(** A token at the end of what is covered extends the cover. *)
Lemma good_extend p q d d' t s s' :
  good p d s -> len (tokens s) < limit_tokens limits ->
  tokens s' = tokens s ++ [t] -> order s' = order s ++ [ElementToken (len (tokens s))] ->
  trivia s' = trivia s -> literal_bytes s' = literal_bytes s + literal_size t ->
  literal_bytes s' <= limit_literal_bytes limits ->
  poll_work s' = poll_work s -> sink s' = sink s -> same s s' ->
  token_ok source t p q -> token_id t = len (tokens s) -> token_kind t <> EndOfFile ->
  depth_step d (token_kind t) = Some d' -> token_fits t ->
  good q d' s'.
Proof.
  intros [] Hlt Ht Ho Hv Hl Hll Hw Hs [Hc Hi Hd _ _] Hok Hid Hk Hstep Hfits.
  split; rewrite ?Ht, ?Ho, ?Hv, ?Hw, ?Hs, ?Hc, ?Hi, ?Hd; try done.
  - by eapply tiled_token.
  - by apply Forall_app, conj, Forall_singleton.
  - by apply Forall_app, conj, Forall_singleton.
  - rewrite len_app, len_cons, len_nil. lia.
  - rewrite literal_total_app. simpl. lia.
  - by eapply layout_depth_snoc.
Qed.

Lemma tokens_id s p d : good p d s -> len (tokens s) < limit_tokens limits -> len (tokens s) mod 2 ^ 32 = len (tokens s).
Proof.
  intros G Hlt. destruct Hfit as [Hf _]. pose proof (len_nonneg (tokens s)). apply Z.mod_small. lia.
Qed.

(** The kinds of physical tokens, with the origin and spelling they are pushed with. *)
Definition physical_kind (kind : TokenKind) (origin : option NewlineOrigin) (spelling : bool) : bool :=
  negb (bool_decide (kind = Indent)) && negb (bool_decide (kind = Dedent))
  && negb (bool_decide (kind = EndOfFile))
  && eqb (bool_decide (kind = Newline)) (has origin)
  && negb (bool_decide (origin = Some OriginSyntheticRecovery))
  && eqb spelling (carries_spelling kind).

Lemma wp_push_physical p q d kind origin spelling Q s :
  good p d s -> at_char text p -> at_char text q -> p < q ->
  physical_kind kind origin spelling = true -> text_fits kind (subslice text p q) ->
  (forall s', good q d s' -> same s s' -> length (tokens s') = S (length (tokens s)) -> Q tt s') ->
  wp (push_physical source limits kind p q origin spelling) Q s.
Proof.
  intros G Hp Hq Hlt Hkind Hfits HQ. unfold push_physical. wp_step. apply wp_check_token_capacity.
  intros Hn. unfold physical_kind in Hkind. split_andb. bool_to_prop.
  apply eqb_prop in H0. apply eqb_prop in H2. subst spelling.
  assert (Hok : forall raw, (carries_spelling kind = true -> raw = Some (subslice text p q)) ->
    (carries_spelling kind = false -> raw = None) ->
    token_ok source {| token_id := len (tokens s) mod 2 ^ 32; token_kind := kind; token_span := span source p q;
      newline_origin := origin; token_spelling := raw; synthetic := false |} p q).
  { intros raw Hraw Hnone. split; simpl.
    - apply at_char_spanned; [done..|lia].
    - symmetry. apply Z.eqb_neq. lia.
    - done.
    - unfold has in H2. destruct origin, (bool_decide_reflect (kind = Newline)); naive_solver.
    - done.
    - unfold spelled. simpl. destruct (carries_spelling kind) eqn:Hc; [|by apply Hnone].
      exists (subslice text p q). split; [by apply Hraw|done]. }
  assert (Hpush : forall raw s1, (carries_spelling kind = true -> raw = Some (subslice text p q)) ->
    (carries_spelling kind = false -> raw = None) ->
    s1 = with_literal_bytes (literal_bytes s1) s ->
    literal_bytes s1 = literal_bytes s + literal_size {| token_id := 0; token_kind := kind;
      token_span := span source p q; newline_origin := origin; token_spelling := raw; synthetic := false |} ->
    literal_bytes s1 <= limit_literal_bytes limits ->
    wp (push_token kind (span source p q) origin raw false) Q s1).
  { intros raw s1 Hraw Hnone Hs1 Hl1 Hl2. apply wp_update.
    assert (Ht : tokens s1 = tokens s /\ order s1 = order s /\ trivia s1 = trivia s /\ poll_work s1 = poll_work s
      /\ sink s1 = sink s /\ same s s1) by (rewrite Hs1; split_and!; done).
    destruct Ht as (E1 & E2 & E3 & E4 & E5 & E6).
    apply HQ; [|etrans; [exact E6|split; simpl; [done..|rewrite length_app; lia]]|simpl; rewrite E1, length_app; simpl; lia].
    eapply (good_extend p q d); [done|done|cbn; rewrite E1; reflexivity|cbn; rewrite E1, E2|..]; try done.
    + by rewrite (tokens_id s p d).
    + etrans; [exact E6|split; simpl; [done..|rewrite length_app; lia]].
    + by apply Hok.
    + cbn. by eapply tokens_id.
    + destruct kind; done.
    + intros _. cbn. rewrite (at_char_small p Hp), (at_char_small q Hq). done. }
  pose proof (good_literals _ _ _ G) as [_ Hlits].
  destruct (carries_spelling kind) eqn:Hc; cycle 1.
  { wp_step. apply wp_mret. apply Hpush; [done|done|by destruct s| |done]. unfold literal_size. simpl. lia. }
  wp_step. wp_step. unfold Scanner.text. rewrite (get_slice_at _ _ _ Hp Hq) by lia.
  assert (Hsize : 0 <= q - p /\ len (subslice text p q) = q - p).
  { unfold subslice, len in *. rewrite length_take, length_drop. destruct Hp as [Hp _], Hq as [Hq _].
    unfold len in *. lia. }
  destruct (is_literal_token kind) eqn:Hlit.
  - wp_step. apply wp_get_state. wp_step. apply wp_require; [done|]. intros next [_ ->]%checked_add_Some.
    wp_step. apply wp_reject_if; [done|]. intros Hb%Z.ltb_ge. apply wp_update. apply wp_mret.
    apply Hpush; [done|done|by destruct s| |done]. unfold literal_size. simpl. rewrite Hlit. lia.
  - apply wp_mret. apply wp_mret. apply Hpush; [done|done|by destruct s| |done].
    unfold literal_size. simpl. rewrite Hlit. lia.
Qed.

(** The synthetic tokens a good state may be followed by. *)
Definition synthetic_kind (kind : TokenKind) (origin : option NewlineOrigin) : bool :=
  match kind, origin with
  | Indent, None | Dedent, None => true
  | Newline, Some _ => true
  | _, _ => false
  end.

Lemma wp_push_synthetic p d d' kind origin Q s :
  good p d s -> at_char text p -> synthetic_kind kind origin = true -> depth_step d kind = Some d' ->
  (forall s', good p d' s' -> same s s' -> Q tt s') ->
  wp (push_synthetic source limits kind p origin) Q s.
Proof.
  intros G Hp Hkind Hstep HQ. unfold push_synthetic. wp_step. apply wp_check_token_capacity.
  intros Hn. apply wp_update. pose proof (good_literals _ _ _ G) as [_ Hlits].
  assert (Hsame : same s (with_order (order s ++ [ElementToken (len (tokens s) mod 2 ^ 32)])
    (with_tokens (tokens s ++ [{| token_id := len (tokens s) mod 2 ^ 32; token_kind := kind;
       token_span := span source p p; newline_origin := origin; token_spelling := None; synthetic := true |}]) s)))
    by (split; simpl; [done..|rewrite length_app; lia]).
  apply HQ; [|done]. eapply (good_extend p p d); [done|done|reflexivity|..]; try done.
  - cbn. by rewrite (tokens_id s p d).
  - cbn. unfold literal_size. simpl. lia.
  - split; simpl.
    + apply at_char_spanned; [done..|lia].
    + by rewrite Z.eqb_refl.
    + done.
    + destruct kind, origin; naive_solver.
    + done.
    + unfold spelled. simpl. by destruct kind, origin.
  - cbn. by eapply tokens_id.
  - cbn. by destruct kind, origin.
Qed.

(** The end-of-file token completes the table. *)
Lemma wp_push_end p d Q s :
  good p d s -> p = len text ->
  (forall s', lossless source {| table_tokens := tokens s'; table_trivia := trivia s'; table_order := order s' |} ->
     len (tokens s') <= limit_tokens limits ->
     literal_total (tokens s') = literal_bytes s' -> literal_bytes s' <= limit_literal_bytes limits ->
     Forall token_fits (tokens s') -> layout_depth 0 (tokens s') = Some d -> sink_ok (sink s') -> Q tt s') ->
  wp (push_synthetic source limits EndOfFile p None) Q s.
Proof.
  intros G -> HQ. unfold push_synthetic. wp_step. apply wp_check_token_capacity.
  intros Hn. pose proof (tokens_id s _ d G Hn) as Hid. apply wp_update. rewrite Hid.
  destruct G as [_ Ht Hf He Hc [Hl Hll] Hd _ _ _ Hs].
  assert (Hok : forall i, token_ok source {| token_id := i; token_kind := EndOfFile;
      token_span := span source (len text) (len text); newline_origin := None; token_spelling := None;
      synthetic := true |} (len text) (len text)).
  { intros i. split; simpl; try done; [apply at_char_spanned; [apply at_char_end..|lia]|by rewrite Z.eqb_refl]. }
  apply HQ; simpl.
  - split; simpl.
    + by eapply tiled_token.
    + eexists. split; [exact He|]. eexists. split; [|reflexivity]. done.
    + rewrite last_snoc, len_app, len_cons, len_nil. do 2 f_equal. lia.
  - rewrite len_app, len_cons, len_nil. lia.
  - rewrite literal_total_app. simpl. unfold literal_size. simpl. lia.
  - done.
  - by apply Forall_app, conj, Forall_singleton.
  - by eapply layout_depth_snoc.
  - done.
Qed.

Lemma wp_push_trivia p q d kind Q s :
  good p d s -> at_char text p -> at_char text q -> p < q ->
  (forall s', good q d s' -> same s s' -> Q tt s') ->
  wp (push_trivia source limits kind p q) Q s.
Proof.
  intros G Hp Hq Hlt HQ. unfold push_trivia. rewrite (proj2 (Z.ltb_lt p q) Hlt).
  wp_step. apply wp_mret. wp_step. apply wp_reserve_or; [done|]. wp_step. apply wp_reserve_or; [done|]. apply wp_update.
  assert (Hid : len (trivia s) mod 2 ^ 32 = len (trivia s)).
  { pose proof (tiled_trivia_count _ _ _ _ _ (good_tiled _ _ _ G)) as Hc.
    pose proof (file_small _ Hsource) as Hs. pose proof (len_nonneg (trivia s)).
    destruct Hp as [Hp _]. apply Z.mod_small. unfold u32_max in Hs. lia. }
  apply HQ; [|done]. destruct G. split; try done. simpl. rewrite Hid.
  eapply tiled_trivia; [done| |done]. split; [apply at_char_spanned; [done..|lia]|done].
Qed.
End state.
