(* ===== verification/ScannerLayout.v ===== *)
(** The scanner keeps its invariant: blanks, comments, line ends and
    indentation. *)

From Stdlib Require Import Strings.Byte Sorting.Sorted.
From stdpp Require Import base numbers list option strings.
From S2P Require Import Prelude Bytes Interrupt Text Source Diagnostics SyntaxTokens Literals Scanner LexicalTable LexicalTableSound SyntaxDiagnostics ParseLogic ScannerState.

#[local] Open Scope Z_scope.

(** ** Frames *)

(** The cursor has moved and little else has changed. *)
Record moved (c : Z) (s s' : Scanner) : Prop := {
  moved_cursor : cursor s' = c;
  moved_indentation : indentation s' = indentation s;
  moved_delimiters : delimiters s' = delimiters s;
  moved_interpolation : interpolation_depth s' = interpolation_depth s;
  moved_tokens : (length (tokens s) <= length (tokens s'))%nat;
}.

(** What every method of the scanner preserves, and what all but the layout
    methods do. *)
Record frame (s s' : Scanner) : Prop := {
  frame_interpolation : interpolation_depth s' = interpolation_depth s;
  frame_tokens : (length (tokens s) <= length (tokens s'))%nat;
}.
Record flat (s s' : Scanner) : Prop := {
  flat_frame : frame s s';
  flat_indentation : indentation s' = indentation s;
}.

(** Solve a frame from the frames in the context. *)
Ltac framed :=
  repeat match goal with
  | H : same _ _ |- _ => destruct H
  | H : moved _ _ _ |- _ => destruct H
  | H : flat _ _ |- _ => destruct H
  | H : frame _ _ |- _ => destruct H
  end;
  repeat match goal with
  | |- same _ _ => split
  | |- moved _ _ _ => split
  | |- flat _ _ => split
  | |- frame _ _ => split
  end; solve [congruence | lia | simpl in *; first [congruence | lia]].

Section layout.
Context (source : SourceFile) (limits : ParseLimits).
Context (Hsource : file_ok source) (Hfit : limits_fit limits).
Notation text := (source_text source).
Notation good := (good source limits).
Notation settled s := (good (cursor s) (open_blocks s) s).

(** ** Cursors *)

Lemma wp_set_cursor p d c Q s :
  good p d s -> at_char text c ->
  (forall s', good p d s' -> moved c s s' -> Q tt s') -> wp (set_cursor c) Q s.
Proof. intros G Hc HQ. apply wp_update, HQ; [by apply good_with_cursor|done]. Qed.

Lemma wp_advance_by p d n Q s :
  good p d s -> at_char text (cursor s + n) ->
  (forall s', good p d s' -> moved (cursor s + n) s s' -> Q tt s') -> wp (advance_by n) Q s.
Proof. intros G Hc HQ. apply wp_update, HQ; [by apply good_with_cursor|done]. Qed.

Lemma text_small : len text < 2 ^ usize - 1.
Proof. pose proof (file_small _ Hsource) as H. unfold u32_max, usize in *. lia. Qed.

(** An ASCII byte is a character wherever it stands. *)
Lemma ascii_at_char p b : byte_at text p = Some b -> Z_of_byte b < 0x80 -> at_char text p.
Proof.
  intros Hb Hlt. pose proof (byte_at_Some _ _ _ Hb) as Hp. split; [lia|].
  rewrite byte_at_lookup in Hb by lia.
  apply char_boundary_starts_char; [lia| |apply Hsource]. unfold is_char_boundary.
  destruct (p =? 0); [done|]. destruct (p =? len text); [done|]. rewrite Hb.
  unfold is_cont. pose proof (Z_of_byte_range b). apply negb_true_iff, andb_false_intro1. lia.
Qed.

Lemma byte_is_at_char p b :
  byte_is text p b = true -> Z_of_byte b < 0x80 ->
  p < len text /\ at_char text p /\ at_char text (p + 1).
Proof.
  intros Hb%byte_is_Some Hlt. pose proof (byte_at_Some _ _ _ Hb).
  pose proof (ascii_at_char p b Hb Hlt) as Ha. split; [lia|]. split; [done|].
  by destruct (at_char_ascii _ _ _ Ha Hb Hlt).
Qed.

Lemma at_char_le p : at_char text p -> 0 <= p <= len text.
Proof. by intros [H _]. Qed.

(** ** Loops *)

Definition bytes_left (s : Scanner) : nat := Z.to_nat (len text - cursor s).

Lemma bytes_left_fuel p d s : good p d s -> (bytes_left s < S (length (Scanner.text source)))%nat.
Proof. intros G. pose proof (at_char_le _ (good_cursor _ _ _ _ _ G)). unfold bytes_left, Scanner.text, len in *. lia. Qed.

(** A loop whose turns move the cursor. *)
Lemma wp_cursor_loop {L R} (J : L -> Scanner -> Prop) (body : L -> scanning (turn L R)) Q l s :
  (forall l s, J l s -> 0 <= cursor s <= len text) ->
  (forall l s, J l s ->
     wp (body l) (fun t s' => match t with
                              | Again l' => J l' s' /\ cursor s < cursor s'
                              | Leave r => Q r s'
                              end) s) ->
  J l s -> wp (turns (S (length (Scanner.text source))) body l) Q s.
Proof.
  intros Hrange Hbody HJ. eapply (wp_turns J (fun _ => bytes_left)); [|done|].
  - intros l' s' HJ'. eapply wp_mono; [by apply Hbody|]. intros [l''|r] s''; [|done].
    intros [HJ'' Hlt]. split; [done|]. apply Hrange in HJ', HJ''. unfold bytes_left. lia.
  - apply Hrange in HJ. unfold bytes_left, Scanner.text, len in *. lia.
Qed.

Lemma wp_while_going (J : Scanner -> Prop) (body : scanning bool) Q s :
  (forall s, J s -> 0 <= cursor s <= len text) ->
  (forall s, J s -> wp body (fun go s' => if go : bool then J s' /\ cursor s < cursor s' else Q tt s') s) ->
  J s -> wp (while_going source body) Q s.
Proof.
  intros Hrange Hbody HJ. unfold while_going. eapply (wp_cursor_loop (fun _ => J)); [by intros _|..|done].
  intros _ s' HJ'. wp_step. eapply wp_mono; [by apply Hbody|]. by intros [|] s''.
Qed.

(** A loop over a position in the text. *)
Lemma wp_position_loop {L R} (pos : L -> Z) (J : L -> Scanner -> Prop) (body : L -> scanning (turn L R)) Q l s :
  (forall l s, J l s -> 0 <= pos l <= len text) ->
  (forall l s, J l s ->
     wp (body l) (fun t s' => match t with
                              | Again l' => J l' s' /\ pos l < pos l'
                              | Leave r => Q r s'
                              end) s) ->
  J l s -> wp (turns (S (length (Scanner.text source))) body l) Q s.
Proof.
  intros Hrange Hbody HJ. eapply (wp_turns J (fun l _ => Z.to_nat (len text - pos l))); [|done|].
  - intros l' s' HJ'. eapply wp_mono; [by apply Hbody|]. intros [l''|r] s''; [|done].
    intros [HJ'' Hlt]. split; [done|]. apply Hrange in HJ', HJ''. lia.
  - apply Hrange in HJ. unfold Scanner.text, len in *. lia.
Qed.

(** ** Blanks and comments *)

Lemma byte_is_line_end_ascii p :
  byte_is_line_end text p = true -> p < len text /\ at_char text p /\ at_char text (p + 1).
Proof. unfold byte_is_line_end. intros [H|H]%orb_true_iff; by eapply byte_is_at_char. Qed.

(** [moves m]: a method that reads some text and accounts for it. *)
Definition moves (m : scanning unit) (s : Scanner) : Prop :=
  forall d Q, good (cursor s) d s ->
  (forall s', good (cursor s') d s' -> cursor s < cursor s' -> flat s s' -> Q tt s') -> wp m Q s.

Lemma scan_comment_moves s :
  cursor s < len text -> byte_is_line_end text (cursor s) = false -> moves (scan_comment source limits) s.
Proof.
  intros Hlt Hb d Q G HQ. unfold scan_comment. wp_step. apply wp_reads. wp_step.
  apply (wp_while_going (fun s1 => good (cursor s) d s1 /\ flat s s1 /\ cursor s <= cursor s1
           /\ (cursor s1 = cursor s -> s1 = s))).
  - intros s1 (G1 & _). apply at_char_le, G1.
  - intros s1 (G1 & F1 & Hle & Heq). wp_step. apply wp_get_state. unfold Scanner.text.
    destruct ((len text <=? cursor s1) || byte_is_line_end text (cursor s1)) eqn:Hend.
    + apply wp_mret. wp_step. apply wp_reads.
      assert (cursor s < cursor s1).
      { destruct (Z.eq_dec (cursor s1) (cursor s)) as [He|]; [|lia]. rewrite (Heq He) in Hend.
        rewrite Hb, orb_false_r in Hend. lia. }
      eapply (wp_push_trivia source limits Hsource); [exact G1|apply G|apply G1|done|].
      intros s2 G2 S2. apply HQ; [|destruct S2; lia|framed]. destruct S2. by rewrite same_cursor.
    + apply orb_false_iff in Hend as [Hend _]. wp_step. eapply wp_current_char; [done|lia|].
      intros c Hc Ha Hl. wp_step. eapply wp_advance_by; [done|done|]. intros s2 G2 M2.
      wp_step. eapply wp_work; [done|]. intros s3 G3 S3. apply wp_mret.
      destruct M2, S3. split_and!; [done|framed|lia|lia|lia].
  - split_and!; [done|done|lia|done].
Qed.

Lemma scan_horizontal_space_moves s :
  byte_is_space text (cursor s) = true -> moves (scan_horizontal_space source limits) s.
Proof.
  intros Hb d Q G HQ. unfold scan_horizontal_space. wp_step. apply wp_reads. wp_step.
  apply (wp_while_going (fun s1 => good (cursor s) d s1 /\ flat s s1 /\ cursor s <= cursor s1
           /\ (cursor s1 = cursor s -> s1 = s))).
  - intros s1 (G1 & _). apply at_char_le, G1.
  - intros s1 (G1 & F1 & Hle & Heq). wp_step. apply wp_reads. unfold Scanner.text.
    destruct (byte_is_space text (cursor s1)) eqn:Hsp.
    + assert (Ha : at_char text (cursor s1 + 1)).
      { unfold byte_is_space in Hsp. apply orb_true_iff in Hsp as [H|H]; by eapply byte_is_at_char. }
      wp_step. eapply wp_advance_by; [done|done|]. intros s2 G2 M2. apply wp_mret.
      destruct M2. split_and!; [done|framed|lia|lia|lia].
    + apply wp_mret. wp_step. apply wp_reads.
      assert (cursor s < cursor s1).
      { destruct (Z.eq_dec (cursor s1) (cursor s)) as [He|]; [|lia]. rewrite (Heq He) in Hsp. congruence. }
      eapply (wp_push_trivia source limits Hsource); [exact G1|apply G|apply G1|done|].
      intros s2 G2 S2. apply HQ; [|destruct S2; lia|framed]. destruct S2. by rewrite same_cursor.
  - split_and!; [done|done|lia|done].
Qed.

Lemma no_tab p : ~ has_tab source -> byte_at text p <> Some x09.
Proof.
  intros Hno Hp. apply Hno. pose proof (byte_at_Some _ _ _ Hp). rewrite byte_at_lookup in Hp by lia.
  by eapply list_elem_of_lookup_2.
Qed.

(** What [scan_prefix] finds: columns equal bytes in a text without tabs. *)
Definition prefix_ok (start position columns : Z) (first_tab : option Z) : Prop :=
  start <= position /\ 0 <= columns /\ (~ has_tab source -> columns = position - start)
  /\ forall tab, first_tab = Some tab -> start <= tab < position /\ at_char text tab /\ at_char text (tab + 1).

Lemma wp_scan_prefix p d Q s :
  good p d s ->
  (forall columns first_tab s', good p d s' -> moved (cursor s') s s' ->
     prefix_ok (cursor s) (cursor s') columns first_tab -> Q (columns, first_tab) s') ->
  wp (scan_prefix source) Q s.
Proof.
  intros G HQ. unfold scan_prefix.
  apply (wp_cursor_loop (fun '(columns, first_tab) s1 => good p d s1 /\ moved (cursor s1) s s1
           /\ prefix_ok (cursor s) (cursor s1) columns first_tab)).
  - intros [columns first_tab] s1 (G1 & _). apply at_char_le, G1.
  - intros [columns first_tab] s1 (G1 & M1 & Hp & Hc & Hcols & Htab). wp_step. apply wp_reads.
    unfold Scanner.text.
    destruct (byte_is text (cursor s1) " ") eqn:Hsp.
    { destruct (byte_is_at_char _ _ Hsp eq_refl) as (? & ? & Ha). wp_step.
      eapply wp_advance_by; [done|done|]. intros s2 G2 M2. apply wp_mret.
      pose proof (moved_cursor _ _ _ M2). split; [|lia]. split_and!; [done|framed|].
      split_and!; [lia|lia|intros Hno; rewrite Hcols by done; lia|].
      intros tab Ht. destruct (Htab tab Ht) as (? & ? & ?). split_and!; [lia|lia|done|done]. }
    destruct (byte_is text (cursor s1) x09) eqn:Ht.
    { destruct (byte_is_at_char _ _ Ht eq_refl) as (? & ? & Ha). wp_step.
      eapply wp_advance_by; [done|done|]. intros s2 G2 M2. apply wp_mret.
      pose proof (moved_cursor _ _ _ M2). split; [|lia]. split_and!; [done|framed|]. split_and!.
      - lia.
      - pose proof (Z.div_pos columns 4). lia.
      - intros Hno. apply byte_is_Some in Ht. by destruct (no_tab (cursor s1) Hno).
      - intros tab. destruct first_tab as [tab'|]; intros [= <-].
        + destruct (Htab tab' eq_refl) as (? & ? & ?). split_and!; [lia|lia|done|done].
        + split_and!; [lia|lia|done|done]. }
    apply wp_mret. by apply HQ.
  - split_and!; [done|done|]. split_and!; [lia|lia|lia|done].
Qed.

(** ** Indentation *)

Lemma levels_snoc levels top :
  levels_ok levels -> (forall l, l ∈ levels -> l < top) -> levels_ok (levels ++ [top]).
Proof.
  intros [Hh Hs] Hlt. split; [by destruct levels|].
  clear Hh. induction Hs as [|l levels Hs IH Hf]; simpl; [by repeat constructor|].
  constructor; [apply IH; intros x Hx; apply Hlt; by right|].
  apply Forall_app. split; [done|]. apply Forall_singleton, Hlt. by left.
Qed.

Lemma levels_pop levels top : levels_ok (levels ++ [top]) -> levels <> [] -> levels_ok levels.
Proof.
  intros [Hh Hs] Hne. split; [by destruct levels|].
  clear Hh Hne. induction levels as [|l levels IH]; [constructor|].
  apply StronglySorted_inv in Hs as [Hs Hf]. constructor; [by apply IH|].
  by apply Forall_app in Hf as [? _].
Qed.

Lemma levels_below base top : StronglySorted Z.lt (base ++ [top]) -> Forall (fun l => l < top) base.
Proof.
  induction base as [|l base IH]; intros Hs; [constructor|]. simpl in Hs. apply StronglySorted_inv in Hs as [Hs Hf].
  apply Forall_app in Hf as [_ Hf]. rewrite Forall_singleton in Hf. apply Forall_cons. split; [exact Hf|by apply IH].
Qed.

(** The innermost level: zero exactly when it is the only one. *)
Lemma levels_last levels :
  levels_ok levels -> exists base top, levels = base ++ [top] /\ last levels = Some top /\ 0 <= top
    /\ (forall l, l ∈ levels -> l <= top) /\ (0 < top <-> (1 < length levels)%nat).
Proof.
  intros [Hh Hs]. destruct levels as [|top base _] using rev_ind; [done|].
  exists base, top. rewrite last_snoc. pose proof (levels_below _ _ Hs) as Hlt. split_and!; try done.
  - destruct base as [|l base]; simpl in Hh; [injection Hh as ->; lia|]. injection Hh as ->.
    apply Forall_cons in Hlt as [? _]. lia.
  - intros l [Hl|Hl%list_elem_of_singleton]%elem_of_app; [|lia].
    rewrite Forall_forall in Hlt. apply Hlt in Hl. lia.
  - rewrite length_app. destruct base as [|l base]; simpl in *; [injection Hh as ->; lia|].
    injection Hh as ->. apply Forall_cons in Hlt as [? _]. split; lia.
Qed.

Lemma wp_current_indentation p d Q s :
  good p d s ->
  (forall top, last (indentation s) = Some top -> 0 <= top -> (0 < top <-> (1 < length (indentation s))%nat) -> Q top s) ->
  wp current_indentation Q s.
Proof.
  intros G HQ. unfold current_indentation. wp_step. apply wp_get_state.
  destruct (levels_last _ (good_levels _ _ _ _ _ G)) as (base & top & _ & Hl & H0 & _ & Hiff).
  eapply wp_require_Some; [done|]. by apply HQ.
Qed.

(** Closing levels down to a column: [n] levels are gone, at least one if the
    innermost was deeper. *)
Record closed (n : nat) (s s' : Scanner) : Prop := {
  closed_frame : frame s s';
  closed_cursor : cursor s' = cursor s;
  closed_delimiters : delimiters s' = delimiters s;
  closed_levels : (length (indentation s') + n = length (indentation s))%nat;
  closed_root : (1 <= length (indentation s'))%nat;
}.

Lemma wp_pop_indentation p d Q s :
  good p d s -> (1 < length (indentation s))%nat ->
  (forall s', good p d s' -> closed 1 s s' -> Q tt s') -> wp pop_indentation Q s.
Proof.
  intros G Hlen HQ. destruct (levels_last _ (good_levels _ _ _ _ _ G)) as (base & top & Hb & _).
  assert (Hbase : removelast (indentation s) = base) by (rewrite Hb; by apply removelast_last).
  assert (Hl : (length base + 1 = length (indentation s))%nat) by (rewrite Hb, length_app; simpl; lia).
  apply wp_update. rewrite Hbase. apply HQ.
  - apply good_with_indentation; [done|]. eapply levels_pop; [rewrite <- Hb; apply G|].
    intros ->. simpl in *. lia.
  - split; simpl; [done|done|done|lia|lia].
Qed.

Lemma closed_refl s p d : good p d s -> closed 0 s s.
Proof.
  intros G. destruct (levels_last _ (good_levels _ _ _ _ _ G)) as (base & top & Hb & _).
  split; try done. rewrite Hb, length_app. simpl. lia.
Qed.

Lemma closed_trans n a b c : closed n a b -> closed 1 b c -> closed (S n) a c.
Proof. intros [] []. split; [framed|congruence|congruence|lia|lia]. Qed.

Lemma closed_same n a b c : closed n a b -> same b c -> closed n a c.
Proof. intros [] []. split; [framed|congruence|congruence|congruence|congruence]. Qed.

(** The loop that closes levels, whatever is done for each of them. *)
Lemma wp_close_levels p (depth : nat -> nat) target (each : scanning unit) Q s :
  good p (depth 0%nat) s -> 0 <= target ->
  (forall n s1 R, good p (depth n) s1 -> closed (S n) s s1 ->
     (forall s2, good p (depth (S n)) s2 -> same s1 s2 -> R tt s2) -> wp each R s1) ->
  (forall n s', good p (depth n) s' -> closed n s s' ->
     (forall top, last (indentation s) = Some top -> target < top -> (1 <= n)%nat) -> Q n s') ->
  wp (close_levels target each) Q s.
Proof.
  intros G Ht Heach HQ. unfold close_levels. wp_step. apply wp_get_state.
  eapply (wp_turns (fun n s1 => good p (depth n) s1 /\ closed n s s1 /\ (n = 0%nat -> s1 = s))
            (fun _ s1 => length (indentation s1))); [| |lia].
  2: { split_and!; [done|by eapply closed_refl|done]. }
  intros n s1 (G1 & C1 & H0). wp_step. apply wp_get_state.
  destruct (Z.leb_spec (len (indentation s1)) 1) as [Hl|Hl].
  { apply wp_mret. apply HQ; [done|done|]. intros top Htop Hlt. destruct n; [|lia].
    rewrite (H0 eq_refl) in *. destruct (levels_last _ (good_levels _ _ _ _ _ G)) as (_ & top' & _ & Htop' & _ & _ & Hiff).
    rewrite Htop in Htop'. injection Htop' as <-. unfold len in Hl. lia. }
  wp_step. eapply wp_current_indentation; [done|]. intros top Htop Htop0 Hiff.
  destruct (Z.leb_spec top target) as [Hle|Hlt].
  { apply wp_mret. apply HQ; [done|done|]. intros top' Htop' Hlt. destruct n; [|lia].
    rewrite (H0 eq_refl) in *. rewrite Htop in Htop'. injection Htop' as <-. lia. }
  wp_step. eapply wp_pop_indentation; [done|unfold len in Hl; lia|]. intros s2 G2 C2.
  pose proof (closed_trans _ _ _ _ C1 C2) as C12.
  wp_step. apply (Heach n s2); [done|done|]. intros s3 G3 S3. apply wp_mret.
  pose proof (closed_same _ _ _ _ C12 S3) as C3. split.
  - split_and!; [done|done|lia].
  - destruct C1, C3. lia.
Qed.

Lemma open_blocks_closed n s s' : closed n s s' -> open_blocks s' = (open_blocks s - n)%nat /\ (n <= open_blocks s)%nat.
Proof. intros []. unfold open_blocks. lia. Qed.

Lemma wp_apply_indentation target Q s :
  settled s -> 0 <= target ->
  at_char text (saturating_sub (cursor s) target) \/ has_tab source ->
  (forall s', settled s' -> cursor s' = cursor s -> frame s s' -> delimiters s' = delimiters s -> Q tt s') ->
  wp (apply_indentation source limits target) Q s.
Proof.
  intros G Ht Hspan HQ. unfold apply_indentation.
  assert (Hreport : forall code message R s1, good (cursor s) (open_blocks s1) s1 -> cursor s1 = cursor s ->
    column_code code = true -> code_malformed (ascii code) = false -> message_ok message = true ->
    (forall s', good (cursor s) (open_blocks s1) s' -> same s1 s' -> R tt s') ->
    wp (report source limits code (saturating_sub (cursor s1) target) (cursor s1) message) R s1).
  { intros code message R s1 G1 Hc Hcol Hcode Hmsg HR. rewrite Hc.
    eapply (wp_report source limits Hsource); [done| |done]. split_and!; [done|done|].
    destruct Hspan as [Hspan|Htab]; [left|by right]. split_and!; [done|apply G|].
    pose proof (at_char_le _ (good_cursor _ _ _ _ _ G)). unfold saturating_sub. lia. }
  wp_step. eapply wp_current_indentation; [done|]. intros top Htop Htop0 Hiff.
  wp_step. apply wp_get_state. destruct (Z.ltb_spec top target) as [Hlt|Hge].
  - (* one level deeper *)
    assert (Hpush : forall s1, good (cursor s) (open_blocks s) s1 -> same s s1 ->
      wp (reject_if (limit_nesting_depth limits <=? len (indentation s) mod 2 ^ 32) (depth_error limits) ≫= fun _ =>
          reserve_or (depth_error limits) ≫= fun _ =>
          update (fun s => with_indentation (indentation s ++ [target]) s) ≫= fun _ =>
          push_synthetic source limits Indent (cursor s) None) Q s1).
    { intros s1 G1 S1. wp_step. apply wp_reject_if; [done|]. intros _.
      wp_step. apply wp_reserve_or; [done|]. wp_step. apply wp_update.
      destruct (levels_last _ (good_levels _ _ _ _ _ G)) as (base & top' & Hb & Hl & _ & Hmax & _).
      rewrite Htop in Hl. injection Hl as <-.
      assert (G2 : good (cursor s) (open_blocks s) (with_indentation (indentation s1 ++ [target]) s1)).
      { apply good_with_indentation; [done|]. apply levels_snoc; [apply G1|].
        intros l Hl. rewrite (same_indentation _ _ S1) in Hl. apply Hmax in Hl. lia. }
      eapply (wp_push_synthetic source limits Hsource Hfit); [exact G2|apply G|done|done|].
      intros s2 G3 S2. assert (Hc : cursor s2 = cursor s) by (destruct S1, S2; simpl in *; congruence).
      destruct S1 as [C1 I1 D1 P1 T1], S2 as [C2 I2 D2 P2 T2]. simpl in I2, D2, P2, T2.
      apply HQ; [|done|framed|congruence]. rewrite Hc.
      replace (open_blocks s2) with (S (open_blocks s)); [done|].
      unfold open_blocks. rewrite I2, length_app, I1, Hb, length_app. simpl. lia. }
    wp_step. destruct (target =? top + 4).
    + apply wp_mret. by apply Hpush.
    + apply Hreport; [done|done|done|done| |].
      { apply message_ok_app; [done|apply format_decimal_ascii]. }
      intros s1 G1 S1. by apply Hpush.
  - destruct (Z.ltb_spec target top) as [Hlt|Heq].
    + wp_step. eapply (wp_close_levels (cursor s) (fun n => open_blocks s - n)%nat); [by rewrite Nat.sub_0_r|done| |].
      { intros n s1 R G1 C1 HR. destruct (open_blocks_closed _ _ _ C1) as [_ Hn].
        eapply (wp_push_synthetic source limits Hsource Hfit); [exact G1|apply G|done| |done].
        destruct (open_blocks s - n)%nat eqn:E; [lia|]. simpl. f_equal. lia. }
      intros n s1 G1 C1 _. destruct (open_blocks_closed _ _ _ C1) as [Hopen _]. rewrite <- Hopen in G1.
      destruct C1. wp_step. eapply wp_current_indentation; [done|]. intros top1 _ _ _.
      destruct (top1 =? target).
      * apply wp_mret. apply HQ; [by rewrite closed_cursor0|done|done|done].
      * rewrite <- closed_cursor0. apply Hreport; [done|done|done|done|done|]. intros s2 G2 S2.
        destruct S2 as [C2 I2 D2 P2 T2]. apply HQ; [|congruence|framed|congruence].
        replace (cursor s2) with (cursor s) by congruence. unfold open_blocks.
        by rewrite I2.
    + apply wp_mret. by apply HQ.
Qed.

(** ** Line prefixes *)

Lemma open_blocks_flat s s' : flat s s' -> open_blocks s' = open_blocks s.
Proof. intros []. unfold open_blocks. congruence. Qed.

Lemma push_blank_line_moves prefix s :
  starts_with (drop (Z.to_nat (cursor s)) text) prefix = true -> is_ascii prefix = true -> 0 < len prefix ->
  moves (push_blank_line source limits (len prefix)) s.
Proof.
  intros Hs Ha Hl d Q G HQ. unfold push_blank_line. wp_step. apply wp_reads.
  destruct (at_char_prefix _ _ _ (good_cursor _ _ _ _ _ G) Hs Ha) as [Hc _].
  wp_step. eapply wp_advance_by; [done|done|]. intros s1 G1 M1.
  eapply (wp_push_trivia source limits Hsource); [done|apply G|done|lia|]. intros s2 G2 S2.
  destruct M1, S2. apply HQ; [|lia|framed].
  by replace (cursor s2) with (cursor s + len prefix) by lia.
Qed.

Definition then_moves (m : scanning unit) (s : Scanner) : Prop :=
  forall d Q, good (cursor s) d s ->
  (forall s', good (cursor s') d s' -> cursor s <= cursor s' -> flat s s' -> Q tt s') -> wp m Q s.

Lemma line_end_moves (finished : bool) s :
  finished = (len text <=? cursor s) ->
  then_moves (if finished then mret tt else
    tail ← remaining source;
    if starts_with tail CRLF then push_blank_line source limits 2
    else if starts_with tail [x0a] then push_blank_line source limits 1 else mret tt) s.
Proof.
  intros -> d Q G HQ. destruct (Z.leb_spec (len text) (cursor s)); [apply wp_mret, HQ; [done|lia|framed]|].
  wp_step. eapply wp_remaining; [done|].
  destruct (starts_with _ CRLF) eqn:Hcrlf.
  { eapply (push_blank_line_moves CRLF); [done|done|done|done|]. intros s1 G1 H1 F1. apply HQ; [done|lia|done]. }
  destruct (starts_with _ [x0a]) eqn:Hlf.
  { eapply (push_blank_line_moves [x0a]); [done|done|done|done|]. intros s1 G1 H1 F1. apply HQ; [done|lia|done]. }
  apply wp_mret, HQ; [done|lia|framed].
Qed.

Lemma starts_with_byte_at p b :
  0 <= p -> starts_with (drop (Z.to_nat p) text) [b] = true -> byte_at text p = Some b.
Proof.
  intros Hp Hs%bool_decide_eq_true. rewrite byte_at_lookup by done.
  destruct (drop (Z.to_nat p) text) as [|b' bs] eqn:Hd; [done|]. injection Hs as ->.
  apply (f_equal (.!! 0%nat)) in Hd. by rewrite lookup_drop, Nat.add_0_r in Hd.
Qed.

(** The blank line, comment or code behind the blanks of a line. *)
Lemma wp_scan_line_prefix Q s :
  settled s -> cursor s < len text ->
  (forall b s', settled s' -> frame s s' -> (b = true -> cursor s < cursor s') -> cursor s <= cursor s' -> Q b s') ->
  wp (scan_line_prefix source limits) Q s.
Proof.
  intros G Hlt HQ. unfold scan_line_prefix. wp_step. apply wp_reads. wp_step.
  eapply wp_scan_prefix; [done|]. intros columns first_tab s1 G1 M1 (Hp & Hc & Hcols & Htab).
  wp_step. apply wp_reads. wp_step.
  assert (Hspaces : forall R : unit -> Scanner -> Prop,
    (forall s2, settled s2 -> flat s s2 -> cursor s2 = cursor s1 -> R tt s2) ->
    wp (if cursor s <? cursor s1 then push_trivia source limits Spaces (cursor s) (cursor s1) else mret tt) R s1).
  { intros R HR. pose proof (open_blocks_flat s s1 ltac:(framed)) as Ho.
    destruct (Z.ltb_spec (cursor s) (cursor s1)) as [Hlt1|Hge].
    - eapply (wp_push_trivia source limits Hsource); [exact G1|apply G|apply G1|done|]. intros s2 G2 S2.
      assert (F2 : flat s s2) by framed. assert (Hc2 : cursor s2 = cursor s1) by framed.
      apply HR; [|done|done]. rewrite Hc2. by rewrite (open_blocks_flat _ _ F2).
    - apply wp_mret. apply HR; [|framed|done]. rewrite Ho. replace (cursor s1) with (cursor s) by lia. done. }
  apply Hspaces. clear Hspaces. intros s2 G2 F2 Hc2.
  assert (Htabs : forall R : unit -> Scanner -> Prop,
    (forall s3, settled s3 -> flat s s3 -> cursor s3 = cursor s1 -> delimiters s3 = delimiters s2 -> R tt s3) ->
    wp match first_tab with
       | Some tab => report source limits "syntax-leading-tab" tab (tab + 1)
                       (ascii "tabs are forbidden in leading indentation")
       | None => mret tt
       end R s2).
  { intros R HR. destruct first_tab as [tab|]; [|by apply wp_mret, HR].
    destruct (Htab tab eq_refl) as (Ht & Ht1 & Ht2).
    eapply (wp_report source limits Hsource); [exact G2| |].
    - split_and!; [done|done|]. left. split_and!; [done|done|lia].
    - intros s3 G3 S3. assert (F3 : flat s s3) by framed. assert (F23 : flat s2 s3) by framed.
      assert (E3 : cursor s3 = cursor s1) by framed.
      apply HR; [|done|done|framed]. rewrite E3, <- Hc2. by rewrite (open_blocks_flat _ _ F23). }
  wp_step. apply Htabs. clear Htabs. intros s3 G3 F3 Hc3 Hd3. unfold Scanner.text.
  assert (Hcol3 : at_char text (saturating_sub (cursor s3) columns) \/ has_tab source).
  { destruct (decide (x09 ∈ text)) as [|Hno]; [by right|]. left. rewrite Hcols, Hc3 by done.
    pose proof (at_char_le _ (good_cursor _ _ _ _ _ G)). unfold saturating_sub.
    replace (Z.max (cursor s1 - (cursor s1 - cursor s)) 0) with (cursor s) by lia. apply G. }
  destruct (Z.eqb_spec (cursor s1) (len text)) as [He|He].
  { apply wp_mret. apply HQ; [done|framed|lia|lia]. }
  wp_step. eapply wp_remaining; [done|]. rewrite !Hc3.
  assert (Hblank : forall prefix, starts_with (drop (Z.to_nat (cursor s1)) text) prefix = true ->
    is_ascii prefix = true -> 0 < len prefix -> wp (push_blank_line source limits (len prefix) ≫= fun _ => mret true) Q s3).
  { intros prefix Hs Ha Hl. wp_step. eapply (push_blank_line_moves prefix); [by rewrite Hc3|done|done|done|].
    intros s4 G4 H4 F4. apply wp_mret. rewrite <- (open_blocks_flat _ _ F4) in G4.
    apply HQ; [done|framed|lia|lia]. }
  destruct (starts_with _ [x0a]) eqn:Hlf; [by apply (Hblank [x0a])|].
  destruct (starts_with _ CRLF) eqn:Hcrlf; [by apply (Hblank CRLF)|]. clear Hblank.
  destruct (starts_with _ (ascii "#")) eqn:Hhash.
  { pose proof (at_char_le _ (good_cursor _ _ _ _ _ G1)) as Hr1.
    apply starts_with_byte_at in Hhash; [|lia]. wp_step. eapply scan_comment_moves; [lia| |done|].
    { unfold byte_is_line_end, byte_is. by rewrite Hc3, Hhash. }
    intros s4 G4 H4 F4. wp_step. apply wp_at_end. wp_step.
    eapply line_end_moves; [done|exact G4|]. intros s5 G5 H5 F5. apply wp_mret.
    assert (F35 : flat s3 s5) by framed. rewrite <- (open_blocks_flat _ _ F35) in G5.
    apply HQ; [done|framed|lia|lia]. }
  wp_step. apply wp_get_state. wp_step.
  assert (Hlast : forall s4, settled s4 -> frame s s4 -> cursor s4 = cursor s1 ->
    wp (update (with_at_line_start false) ≫= fun _ => mret false) Q s4).
  { intros s4 G4 F4 Hc4. wp_step. apply wp_update, wp_mret, HQ.
    - by apply good_with_line_start.
    - framed.
    - done.
    - simpl. lia. }
  case_bool_decide; [|case_bool_decide; [|case_bool_decide]].
  - apply wp_update, Hlast; [by apply good_with_hanging_at|framed|done].
  - apply wp_update, Hlast; [by apply good_with_prepared|framed|done].
  - wp_step. apply wp_update. eapply wp_apply_indentation; [by apply good_with_prepared|done|done|].
    intros s4 G4 E4 F4 _. apply Hlast; [done| |simpl in E4; lia]. framed.
  - apply wp_mret, Hlast; [done|framed|done].
Qed.

(** ** Line ends *)

Lemma wp_measure_prefix p d start Q s :
  good p d s -> at_char text start ->
  (forall position columns s', good p d s' -> same s s' -> at_char text position -> start <= position ->
     0 <= columns -> Q (position, columns) s') ->
  wp (measure_prefix source start) Q s.
Proof.
  intros G Hs HQ. unfold measure_prefix.
  apply (wp_position_loop fst (fun '(position, columns) s1 => good p d s1 /\ same s s1
    /\ at_char text position /\ start <= position /\ 0 <= columns)).
  - intros [position columns] s1 (_ & _ & Ha & _). by apply at_char_le.
  - intros [position columns] s1 (G1 & S1 & Ha & Hle & Hc). cbn [fst]. unfold Scanner.text.
    destruct (_ <=? position); [apply wp_mret; by apply HQ|].
    wp_step. eapply wp_work; [done|]. intros s2 G2 S2. assert (S3 : same s s2) by framed.
    destruct (byte_is text position " ") eqn:Hsp.
    { destruct (byte_is_at_char _ _ Hsp eq_refl) as (? & ? & Ha1). apply wp_mret. split_and!; [done|done|done|lia|lia|simpl; lia]. }
    destruct (byte_is text position x09) eqn:Ht.
    { destruct (byte_is_at_char _ _ Ht eq_refl) as (? & ? & Ha1). pose proof (Z.div_pos columns 4).
      apply wp_mret. split_and!; [done|done|done|lia|lia|simpl; lia]. }
    apply wp_mret. by apply HQ.
  - split_and!; [done|done|done|lia|lia].
Qed.

Lemma wp_skip_comment p d start Q s :
  good p d s -> 0 <= start <= len text ->
  (forall position s', good p d s' -> same s s' -> start <= position <= len text ->
     position < len text -> byte_is_line_end text position = true -> Q position s') ->
  (forall s', good p d s' -> same s s' -> Q (len text) s') ->
  wp (skip_comment source start) Q s.
Proof.
  intros G Hs HQ HQend. unfold skip_comment.
  apply (wp_position_loop (fun position => position) (fun position s1 => good p d s1 /\ same s s1
    /\ start <= position <= len text)).
  - intros position s1 (_ & _ & H). lia.
  - intros position s1 (G1 & S1 & Hle). unfold Scanner.text.
    destruct (Z.leb_spec (len text) position) as [He|Hlt]; simpl.
    { apply wp_mret. replace position with (len text) by lia. by apply HQend. }
    destruct (byte_is_line_end text position) eqn:Hend.
    { apply wp_mret. apply HQ; [done|done|lia|lia|done]. }
    wp_step. eapply wp_work; [done|]. intros s2 G2 S2. apply wp_mret. split_and!; [done|framed|lia|lia|lia].
  - split_and!; [done|done|lia|lia].
Qed.

Definition line_ok (l : SignificantLine) : Prop :=
  0 <= line_indentation l /\ at_char text (prefix_start l) /\ at_char text (prefix_end l)
  /\ prefix_start l <= prefix_end l.

Lemma wp_next_significant_line p d start Q s :
  good p d s -> at_char text start ->
  (forall l s', good p d s' -> same s s' -> line_ok l -> Q l s') ->
  wp (next_significant_line source start) Q s.
Proof.
  intros G Hs HQ. unfold next_significant_line.
  apply (wp_position_loop (fun position => position) (fun position s1 => good p d s1 /\ same s s1 /\ at_char text position)).
  - intros position s1 (_ & _ & H). by apply at_char_le.
  - intros start1 s1 (G1 & S1 & Ha1). wp_step. eapply wp_measure_prefix; [done|done|].
    intros position columns s2 G2 S2 Ha2 Hle Hc. unfold Scanner.text.
    assert (S3 : same s s2) by framed.
    destruct (Z.eqb_spec position (len text)).
    { apply wp_mret. apply HQ; [done|done|]. split_and!; [done..|simpl; lia]. }
    destruct (byte_is text position x0a) eqn:Hlf.
    { destruct (byte_is_at_char _ _ Hlf eq_refl) as (? & ? & ?). apply wp_mret. split_and!; [done|done|done|lia]. }
    destruct (byte_is text position x0d && byte_is text (position + 1) x0a) eqn:Hcrlf.
    { apply andb_true_iff in Hcrlf as [_ Hcrlf]. destruct (byte_is_at_char _ _ Hcrlf eq_refl) as (? & ? & Ha).
      replace (position + 1 + 1) with (position + 2) in Ha by lia. apply wp_mret. split_and!; [done|done|done|lia]. }
    destruct (byte_is text position "#") eqn:Hhash.
    + pose proof (at_char_le _ Ha2). wp_step. eapply wp_skip_comment; [done|lia| |].
      * intros after s3 G3 S4 Hr Hlt Hend. destruct (byte_is_line_end_ascii _ Hend) as (_ & _ & Ha3).
        rewrite (proj2 (Z.eqb_neq after (len text))) by lia.
        destruct (byte_is text after x0d && byte_is text (after + 1) x0a) eqn:Hcrlf2.
        { apply andb_true_iff in Hcrlf2 as [_ Hcrlf2]. destruct (byte_is_at_char _ _ Hcrlf2 eq_refl) as (? & ? & Ha4).
          replace (after + 1 + 1) with (after + 2) in Ha4 by lia. apply wp_mret. split_and!; [done|framed|done|lia]. }
        apply wp_mret. split_and!; [done|framed|done|lia].
      * intros s3 G3 S4. rewrite Z.eqb_refl. apply wp_mret. apply HQ; [done|framed|]. split_and!; [done..|simpl; lia].
    + apply wp_mret. apply HQ; [done|done|]. split_and!; done.
  - done.
Qed.

Lemma wp_line_first_token p d Q s :
  good p d s -> (forall n s', good p d s' -> same s s' -> Q n s') -> wp line_first_token Q s.
Proof.
  intros G HQ. unfold line_first_token. wp_step. apply wp_reads.
  eapply (wp_turns (fun _ s1 => good p d s1 /\ same s s1) (fun n _ => n)); [|done|lia].
  intros [|n] s1 [G1 S1]; [by apply wp_mret, HQ|].
  wp_step. eapply wp_work; [done|]. intros s2 G2 S2. assert (S3 : same s s2) by framed.
  case_match; apply wp_mret; [by apply HQ|]. split; [done|lia].
Qed.

Lemma wp_is_hanging_header p d l current Q s :
  good p d s -> (forall b s', good p d s' -> same s s' -> Q b s') ->
  wp (is_hanging_header source l current) Q s.
Proof.
  intros G HQ. unfold is_hanging_header. wp_step. apply wp_get_state.
  case_match; [|by apply wp_mret, HQ]. unfold current_line_starts_declaration_header.
  wp_step. eapply wp_line_first_token; [done|]. intros n s1 G1 S1.
  wp_step. apply wp_reads. apply wp_mret. by apply HQ.
Qed.

(** The dedents of a line end after the first one. *)
Lemma wp_push_dedents_rest start end_ d level n Q s :
  good end_ (d + n) s -> at_char text end_ ->
  (forall s', good end_ d s' -> same s s' -> Q tt s') ->
  wp (push_dedents source limits start end_ (S level) n) Q s.
Proof.
  revert level s. induction n as [|n IH]; intros level s G Ha HQ.
  { apply wp_mret, HQ; [by rewrite Nat.add_0_r in G|done]. }
  cbn [push_dedents Nat.eqb]. wp_step.
  eapply (wp_push_synthetic source limits Hsource Hfit _ _ (d + n)); [exact G|done|done|by rewrite Nat.add_succ_r|].
  intros s1 G1 S1. wp_step.
  eapply (wp_push_synthetic source limits Hsource Hfit _ _ (d + n)); [exact G1|done|done|done|].
  intros s2 G2 S2. apply IH; [done|done|]. intros s3 G3 S3. apply HQ; [done|framed].
Qed.

(** A line end of [width] bytes, as one of the texts of a newline token. *)
Definition line_end_at (width : Z) (s : Scanner) : Prop :=
  0 < width /\ at_char text (cursor s + width)
  /\ subslice text (cursor s) (cursor s + width) ∈ kind_texts Newline.

Lemma newline_fits a b : subslice text a b ∈ kind_texts Newline -> text_fits Newline (subslice text a b).
Proof. intros H. by split. Qed.

Lemma wp_push_dedents p d n width Q s :
  good (cursor s) (d + S n) s -> p = cursor s -> line_end_at width s ->
  (forall s', good (p + width) d s' -> moved (p + width) s s' -> Q tt s') ->
  wp (push_dedents source limits p (p + width) 0 (S n)) Q s.
Proof.
  intros G -> (Hw & Ha & Hin) HQ. cbn [push_dedents Nat.eqb]. wp_step.
  eapply (wp_push_synthetic source limits Hsource Hfit _ _ (d + n)); [exact G|apply G|done|by rewrite Nat.add_succ_r|].
  intros s1 G1 S1. wp_step. wp_step. eapply wp_set_cursor; [done|done|]. intros s2 G2 M2.
  eapply (wp_push_physical source limits Hsource Hfit); [exact G2|apply G|done|lia|done|by apply newline_fits|].
  intros s3 G3 S3 _. apply wp_push_dedents_rest with (d := d); [done|done|].
  intros s4 G4 S4. apply HQ; [done|framed].
Qed.

Lemma wp_scan_newline width Q s :
  settled s -> line_end_at width s ->
  (forall s', settled s' -> frame s s' -> cursor s < cursor s' -> Q tt s') ->
  wp (scan_newline source limits width) Q s.
Proof.
  intros G Hend HQ. pose proof Hend as (Hw & Ha & Hin). unfold scan_newline.
  wp_step. apply wp_reads. wp_step. apply wp_get_state. wp_step.
  assert (Hdone : forall s1, settled s1 -> frame s s1 -> cursor s < cursor s1 ->
    wp (update (with_at_line_start true)) Q s1).
  { intros s1 G1 F1 Hlt. apply wp_update, HQ; [by apply good_with_line_start|framed|done]. }
  assert (Htrivia : forall s1 (R : unit -> Scanner -> Prop), settled s1 -> flat s s1 -> cursor s1 = cursor s ->
    (forall s', settled s' -> frame s s' -> cursor s < cursor s' -> R tt s') ->
    wp (set_cursor (cursor s + width)) (fun _ s2 =>
      wp (push_trivia source limits SuppressedPhysicalNewline (cursor s) (cursor s + width)) R s2) s1).
  { intros s1 R G1 F1 Hc1 HR. eapply wp_set_cursor; [done|done|]. intros s2 G2 M2.
    rewrite Hc1 in G2. eapply (wp_push_trivia source limits Hsource); [exact G2|apply G|done|lia|].
    intros s3 G3 S3. assert (F3 : flat s1 s3) by framed. assert (E : cursor s3 = cursor s + width) by framed.
    apply HR; [|framed|lia]. rewrite E. by rewrite (open_blocks_flat _ _ F3). }
  case_bool_decide; [|wp_step; apply Htrivia; [done|framed|done|done]].
  wp_step. eapply wp_next_significant_line; [done|done|]. intros l s1 G1 S1 (Hl0 & Hl1 & Hl2 & Hl3).
  wp_step. eapply wp_current_indentation; [done|]. intros top Htop Htop0 Hiff.
  wp_step. eapply wp_is_hanging_header; [done|]. intros hanging s2 G2 S2.
  assert (F2 : flat s s2) by framed. assert (E2 : cursor s2 = cursor s) by framed.
  assert (G2' : settled s2) by (rewrite E2; by rewrite (open_blocks_flat _ _ F2)).
  destruct hanging.
  { wp_step. eapply wp_mono; [apply (Htrivia s2 (fun _ s3 => settled s3 /\ frame s s3 /\ cursor s < cursor s3)); done|].
    intros [] s3 H3. wp_step. eapply wp_mono; [exact H3|]. intros [] s4 (G4 & F4 & Hlt4).
    wp_step. apply wp_update, wp_update, Hdone; [|framed|done].
    by apply good_with_hanging, good_with_hanging_at. }
  destruct (Z.ltb_spec (line_indentation l) top) as [Hlt|Hge].
  - wp_step. apply wp_update. wp_step.
    eapply (wp_close_levels (cursor s) (fun _ => open_blocks s) _ _ _ (with_hanging_header_continuation false s2)).
    + apply good_with_hanging. rewrite E2 in G2'. by rewrite (open_blocks_flat _ _ F2) in G2'.
    + done.
    + intros n s3 R G3 C3 HR. by apply wp_mret, HR.
    + intros n s3 G3 C3 Hn.
      assert (Hn1 : (1 <= n)%nat).
      { eapply Hn; [|exact Hlt]. cbn. replace (indentation s2) with (indentation s1) by framed. done. }
      destruct (open_blocks_closed _ _ _ C3) as [Ho3 Hle3]. cbn in Ho3, Hle3.
      replace (open_blocks (with_hanging_header_continuation false s2)) with (open_blocks s) in Ho3, Hle3
        by (symmetry; apply (open_blocks_flat s s2 F2)).
      destruct C3 as [F3 E3 D3 _ _]. cbn in E3, D3.
      wp_step. eapply wp_current_indentation; [done|]. intros top3 _ _ _. wp_step.
      assert (Hfinish : forall s4, good (cursor s) (open_blocks s) s4 -> same s3 s4 ->
        wp (push_dedents source limits (cursor s) (cursor s + width) 0 n ≫= fun _ =>
            update (with_prepared_dedent_at (code_offset l)))
          (fun _ s' => wp (update (with_at_line_start true)) Q s') s4).
      { intros s4 G4 S4. destruct n as [|n]; [lia|]. wp_step.
        assert (E4 : cursor s4 = cursor s) by framed.
        eapply (wp_push_dedents (cursor s) (open_blocks s3)).
        - rewrite E4. replace (open_blocks s3 + S n)%nat with (open_blocks s) by lia. done.
        - done.
        - unfold line_end_at. by rewrite E4.
        - intros s5 G5 M5. assert (G5' : settled s5).
          { replace (cursor s5) with (cursor s + width) by framed.
            replace (open_blocks s5) with (open_blocks s3); [done|]. unfold open_blocks.
            by replace (indentation s5) with (indentation s3) by framed. }
          apply wp_update, Hdone.
          + by apply good_with_prepared.
          + framed.
          + destruct M5. simpl. lia. }
      destruct (top3 =? line_indentation l); [by apply wp_mret, Hfinish|].
      eapply (wp_report source limits Hsource); [exact G3|..].
      * split_and!; [done|done|]. by left.
      * intros s4 G4 S4. by apply Hfinish.
  - wp_step. apply wp_update. wp_step. eapply wp_set_cursor; [by apply good_with_hanging|done|]. intros s3 G3 M3.
    rewrite E2 in G3.
    eapply (wp_push_physical source limits Hsource Hfit); [exact G3|apply G|done|lia|done|by apply newline_fits|].
    intros s4 G4 S4 _. apply Hdone; [|framed|destruct M3, S4; lia].
    replace (cursor s4) with (cursor s + width) by (destruct M3, S4; lia).
    replace (open_blocks s4) with (open_blocks s2); [done|]. unfold open_blocks.
    replace (indentation s4) with (indentation s2) by framed. done.
Qed.
End layout.
