(* ===== verification/ScannerWords.v ===== *)
(** The scanner keeps its invariant: identifiers, numbers, quoted literals and
    punctuation. *)

From Stdlib Require Import Strings.Byte.
From stdpp Require Import base numbers list option strings.
From S2P Require Import Prelude Bytes Interrupt Text Source Diagnostics SyntaxTokens Literals Scanner LexicalTable LexicalTableSound SyntaxDiagnostics ParseLogic ScannerState ScannerLayout.

#[local] Open Scope Z_scope.

Section words.
Context (source : SourceFile) (limits : ParseLimits).
Context (is_xid_start is_xid_continue : Z -> bool) (nfc : list Z -> list Z).
Context (Hsource : file_ok source) (Hfit : limits_fit limits).
Notation text := (source_text source).
Notation good := (good source limits).
Notation moves := (moves source limits).

(** ** Characters *)

Definition char_here (c : Z) (s : Scanner) : Prop :=
  first_char (drop (Z.to_nat (cursor s)) text) = Some c.

Lemma char_is_byte p d c b s :
  good p d s -> char_here c s -> char_is c b = true -> Z_of_byte b < 0x80 ->
  byte_is text (cursor s) b = true /\ len_utf8 c = 1.
Proof.
  intros G Hc Hb%Z.eqb_eq Hlt.
  destruct (first_char_ascii _ _ _ (good_cursor _ _ _ _ _ G) Hc ltac:(lia)) as (b' & Hat & Hz).
  split; [|unfold len_utf8; rewrite (proj2 (Z.ltb_lt _ _)) by lia; done].
  apply byte_is_Some. rewrite Hat. f_equal. rewrite <- (byte_of_Z_of_byte b'), <- (byte_of_Z_of_byte b).
  congruence.
Qed.

Lemma char_is_next p d c b s :
  good p d s -> char_here c s -> char_is c b = true -> Z_of_byte b < 0x80 ->
  cursor s < len text /\ at_char text (cursor s + 1).
Proof.
  intros G Hc Hb Hlt. destruct (char_is_byte p d c b s G Hc Hb Hlt) as [H _].
  by destruct (byte_is_at_char source Hsource _ _ H Hlt) as (? & _ & ?).
Qed.

Lemma text_fits_spelled kind slice :
  carries_spelling kind = true -> kind <> Identifier -> text_fits kind slice.
Proof. intros H Hk. split; congruence. Qed.

Lemma wp_text_slice {A} a b (k : str -> scanning A) Q s :
  at_char text a -> at_char text b -> a <= b ->
  wp (k (subslice text a b)) Q s ->
  wp (x ← match get_slice (Scanner.text source) a b with
          | Some spelling => mret spelling
          | None => fault_with BadSlice
          end; k x) Q s.
Proof.
  intros Ha Hb Hle Hk. wp_step. unfold Scanner.text. by rewrite (get_slice_at _ _ _ Ha Hb Hle).
Qed.

(** An optional diagnostic. *)
Lemma wp_report_if p d (silent : bool) code start end_ message Q s :
  good p d s -> (silent = false -> reportable source code start end_ message) ->
  (forall s', good p d s' -> same s s' -> Q tt s') ->
  wp (if silent then mret tt else report source limits code start end_ message) Q s.
Proof.
  intros G Hr HQ. destruct silent; [by apply HQ|]. eapply (wp_report source limits Hsource); [done|by apply Hr|done].
Qed.

Lemma if_negb_swap {A} (b : bool) (x y : A) : (if b then x else y) = if negb b then y else x.
Proof. by destruct b. Qed.

(** ** Identifiers *)

Lemma keyword_fits slice :
  let kind := match keyword slice with Some k => KeywordToken k | None => Identifier end in
  text_fits kind slice /\ physical_kind kind None (bool_decide (kind = Identifier)) = true.
Proof.
  destruct (keyword slice) as [k|] eqn:Hk; cbn; split; try done.
  split; [|done]. intros _. apply keyword_Some in Hk as ->. by left.
Qed.

(** The loop over the rest of an identifier. *)
Lemma wp_identifier_rest p d Q s :
  good p d s -> (forall s', good p d s' -> moved (cursor s') s s' -> cursor s <= cursor s' -> Q tt s') ->
  wp (while_going source (
    finished ← at_end source;
    if finished : bool then mret false else
    character ← current_char source;
    if is_xid_continue character || char_is character "_" then
      _ ← advance_by (len_utf8 character); _ ← work; mret true
    else mret false)) Q s.
Proof.
  intros G HQ.
  apply (wp_while_going source (fun s1 => good p d s1 /\ moved (cursor s1) s s1 /\ cursor s <= cursor s1)).
  - intros s1 (G1 & _). apply at_char_le, G1.
  - intros s1 (G1 & M1 & Hle). wp_step. apply wp_at_end.
    destruct (_ <=? _) eqn:Hend; [apply wp_mret; by apply HQ|].
    wp_step. eapply wp_current_char; [done|lia|]. intros c Hc Hca Hcl.
    destruct (_ || _); [|apply wp_mret; by apply HQ].
    wp_step. eapply wp_advance_by; [done|done|]. intros s3 G3 M3.
    wp_step. eapply wp_work; [done|]. intros s4 G4 S4. apply wp_mret.
    destruct M3, S4. split_and!; [done|framed|lia|lia].
  - split_and!; [done|done|lia].
Qed.

Lemma scan_identifier_moves s :
  cursor s < len text -> moves (scan_identifier source limits is_xid_continue nfc) s.
Proof.
  intros Hlt d Q G HQ. unfold scan_identifier. wp_step. apply wp_reads.
  wp_step. eapply wp_current_char; [done|done|]. intros first Hfirst Ha Hl.
  wp_step. eapply wp_advance_by; [done|done|]. intros s1 G1 M1. pose proof (moved_cursor _ _ _ M1) as Hc1.
  wp_step. eapply wp_identifier_rest; [done|]. intros s2 G2 M2 Hle.
  wp_step. apply wp_reads. apply wp_text_slice; [apply G|apply G2|lia|].
  set (slice := subslice text (cursor s) (cursor s2)).
  wp_step. rewrite (if_negb_swap _ (report _ _ _ _ _ _)). eapply wp_report_if; [exact G2| |].
  { intros Hu%negb_false_iff%andb_true_iff. destruct Hu as [_ Hu].
    destruct (char_is_next _ _ _ _ _ G Hfirst Hu eq_refl).
    split_and!; [done|done|]. left. split_and!; [apply G|done|lia]. }
  intros s3 G3 S3. wp_step. eapply wp_report_if; [exact G3| |].
  { intros _. split_and!; [done|done|]. left. split_and!; [apply G|apply G2|lia]. }
  intros s4 G4 S4. destruct (keyword_fits slice) as [Hfits Hkind].
  eapply (wp_push_physical source limits Hsource Hfit); [exact G4|apply G|apply G2|lia|exact Hkind|exact Hfits|].
  intros s5 G5 S5 _. assert (E5 : cursor s5 = cursor s2) by framed.
  apply HQ; [by rewrite E5|lia|framed].
Qed.

(** ** Numbers *)

Lemma digit_below_ascii base b : digit_below base b = true -> Z_of_byte b < 0x80.
Proof.
  unfold digit_below, digit_value, between. pose proof (Z_of_byte_range b). repeat case_match; try done; lia.
Qed.
Lemma is_ascii_digit_ascii b : is_ascii_digit b = true -> Z_of_byte b < 0x80.
Proof. unfold is_ascii_digit, between. lia. Qed.

Lemma wp_scan_digits digit p d Q s :
  (forall b, digit b = true -> Z_of_byte b < 0x80) -> good p d s ->
  (forall s', good p d s' -> moved (cursor s') s s' -> cursor s <= cursor s' ->
     (digit_or_underscore source digit (cursor s) = true -> cursor s < cursor s') -> Q tt s') ->
  wp (scan_digits source digit) Q s.
Proof.
  intros Hd G HQ. unfold scan_digits.
  apply (wp_while_going source (fun s1 => good p d s1 /\ moved (cursor s1) s s1 /\ cursor s <= cursor s1
    /\ (cursor s1 = cursor s \/ cursor s < cursor s1))).
  - intros s1 (G1 & _). apply at_char_le, G1.
  - intros s1 (G1 & M1 & Hle & Hor). wp_step. apply wp_reads.
    destruct (digit_or_underscore source digit (cursor s1)) eqn:Hdig.
    + assert (Ha : at_char text (cursor s1 + 1)).
      { unfold digit_or_underscore, Scanner.text in Hdig.
        destruct (byte_at text (cursor s1)) as [b|] eqn:Hb; [|done].
        eapply (at_char_ascii _ _ b); [apply G1|done|].
        apply orb_true_iff in Hdig as [Hdig|Hdig%bool_decide_eq_true]; [by apply Hd|by subst]. }
      wp_step. eapply wp_advance_by; [done|done|]. intros s2 G2 M2.
      wp_step. eapply wp_work; [done|]. intros s3 G3 S3. apply wp_mret.
      destruct M2, S3. split_and!; [done|framed|lia|lia|lia].
    + apply wp_mret, HQ; [done|done|lia|]. intros H. destruct Hor as [He|]; [|done].
      rewrite He in Hdig. congruence.
  - split_and!; [done|done|lia|lia].
Qed.

Lemma wp_validate_digit_run a b base p d Q s :
  good p d s -> at_char text a -> at_char text b -> a <= b ->
  (forall s', good p d s' -> same s s' -> Q tt s') ->
  wp (validate_digit_run source limits a b base) Q s.
Proof.
  intros G Ha Hb Hle HQ. unfold validate_digit_run. eapply wp_report_if; [done| |done].
  intros _. split_and!; [done| |by left].
  rewrite app_assoc. apply message_ok_app; [|done]. apply message_ok_app; [done|apply format_decimal_ascii].
Qed.

(** A run of digits and its check. *)
Lemma wp_digit_run digit base p d Q s :
  (forall b, digit b = true -> Z_of_byte b < 0x80) -> good p d s ->
  (forall s', good p d s' -> moved (cursor s') s s' -> cursor s <= cursor s' -> Q tt s') ->
  wp (start ← reads cursor; _ ← scan_digits source digit; end_ ← reads cursor;
      validate_digit_run source limits start end_ base) Q s.
Proof.
  intros Hd G HQ. wp_step. apply wp_reads. wp_step. eapply wp_scan_digits; [done|done|].
  intros s1 G1 M1 Hle _. wp_step. apply wp_reads.
  eapply wp_validate_digit_run; [done|apply G|apply G1|done|]. intros s2 G2 S2.
  assert (cursor s2 = cursor s1) by framed. apply HQ; [done|framed|lia].
Qed.

Lemma byte_is_advance p d b Q s :
  good p d s -> byte_is text (cursor s) b = true -> Z_of_byte b < 0x80 ->
  (forall s', good p d s' -> moved (cursor s + 1) s s' -> Q tt s') -> wp (advance_by 1) Q s.
Proof.
  intros G Hb Hlt HQ. eapply wp_advance_by; [done| |done].
  by destruct (byte_is_at_char source Hsource _ _ Hb Hlt) as (_ & _ & ?).
Qed.

Lemma prefix_base_ascii b base : prefix_base b = Some base -> Z_of_byte b < 0x80.
Proof. unfold prefix_base. repeat case_bool_decide; subst; cbn; naive_solver lia. Qed.

Lemma scan_number_moves c s :
  char_here c s -> between 0x30 0x39 c = true -> moves (scan_number source limits) s.
Proof.
  intros Hc Hdigit d Q G HQ. unfold scan_number. wp_step. apply wp_reads. unfold Scanner.text.
  destruct (first_char_ascii _ _ _ (good_cursor _ _ _ _ _ G) Hc) as (b & Hb & Hz); [unfold between in *; lia|].
  assert (Hlt : Z_of_byte b < 0x80) by (unfold between in *; lia).
  destruct (at_char_ascii _ _ _ (good_cursor _ _ _ _ _ G) Hb Hlt) as [_ Ha1].
  assert (Hpush : forall kind s1, good (cursor s) d s1 -> flat s s1 -> cursor s < cursor s1 ->
    kind = IntegerLiteral \/ kind = FloatLiteral ->
    wp (push_physical source limits kind (cursor s) (cursor s1) None true) Q s1).
  { intros kind s1 G1 F1 Hlt1 Hk.
    eapply (wp_push_physical source limits Hsource Hfit); [exact G1|apply G|apply G1|lia| | |].
    - by destruct Hk as [->| ->].
    - apply text_fits_spelled; by destruct Hk as [->| ->].
    - intros s2 G2 S2 _. assert (E2 : cursor s2 = cursor s1) by framed.
      apply HQ; [by rewrite E2|lia|framed]. }
  destruct (if byte_is text (cursor s) "0" then _ else None) as [base|] eqn:Hbase.
  - destruct (byte_is text (cursor s) "0"); [|done].
    destruct (byte_at text (cursor s + 1)) as [b1|] eqn:Hb1; [|done]. simpl in Hbase.
    destruct (at_char_ascii _ _ _ Ha1 Hb1 (prefix_base_ascii _ _ Hbase)) as [_ Ha2].
    replace (cursor s + 1 + 1) with (cursor s + 2) in Ha2 by lia.
    wp_step. eapply wp_advance_by; [done|done|]. intros s1 G1 M1. pose proof (moved_cursor _ _ _ M1).
    wp_step. apply wp_reads. wp_step. eapply wp_scan_digits; [apply digit_below_ascii|done|].
    intros s2 G2 M2 Hle _. wp_step. apply wp_reads. wp_step.
    eapply wp_validate_digit_run; [exact G2|apply G1|apply G2|done|]. intros s3 G3 S3.
    replace (cursor s2) with (cursor s3) by framed.
    assert (cursor s3 = cursor s2) by framed. apply Hpush; [done|framed|lia|by left].
  - clear Hbase. wp_step. eapply wp_scan_digits; [apply is_ascii_digit_ascii|done|].
    intros s1 G1 M1 Hle Hmove. assert (Hlt1 : cursor s < cursor s1).
    { apply Hmove. unfold digit_or_underscore, Scanner.text. rewrite Hb. unfold is_ascii_digit. by rewrite Hz, Hdigit. }
    clear Hmove. wp_step. apply wp_reads. wp_step.
    eapply wp_validate_digit_run; [exact G1|apply G|apply G1|lia|]. intros s2 G2 S2.
    assert (E2 : cursor s2 = cursor s1) by framed. rewrite <- E2.
    set (fractional := _ && match byte_at text (cursor s2 + 1) with Some b => is_ascii_digit b | None => false end).
    wp_step.
    assert (Hfraction : forall R : unit -> Scanner -> Prop,
      (forall s3, good (cursor s) d s3 -> flat s s3 -> cursor s < cursor s3 -> R tt s3) ->
      wp (if fractional then
            _ ← advance_by 1; fraction ← reads cursor; _ ← scan_digits source is_ascii_digit;
            end_ ← reads cursor; validate_digit_run source limits fraction end_ 10
          else mret tt) R s2).
    { intros R HR. destruct fractional eqn:Hfr; [|apply wp_mret, HR; [done|framed|lia]].
      unfold fractional in Hfr. apply andb_true_iff in Hfr as [Hdot _].
      wp_step. eapply byte_is_advance; [done|exact Hdot|done|]. intros s3 G3 M3.
      eapply wp_digit_run; [apply is_ascii_digit_ascii|done|]. intros s4 G4 M4 Hle4.
      destruct M3. apply HR; [done|framed|lia]. }
    apply Hfraction. clear Hfraction. intros s3 G3 F3 Hlt3. wp_step. apply wp_reads.
    set (scientific := byte_is _ _ "e" || byte_is _ _ "E"). wp_step.
    assert (Hexponent : forall R : unit -> Scanner -> Prop,
      (forall s4, good (cursor s) d s4 -> flat s s4 -> cursor s < cursor s4 -> R tt s4) ->
      wp (if scientific then
            _ ← advance_by 1; position ← reads cursor;
            _ ← (if byte_is (Scanner.text source) position "+" || byte_is (Scanner.text source) position "-"
                 then advance_by 1 else mret tt);
            exponent ← reads cursor; _ ← scan_digits source is_ascii_digit; end_ ← reads cursor;
            validate_digit_run source limits exponent end_ 10
          else mret tt) R s3).
    { intros R HR. destruct scientific eqn:Hsc; [|apply wp_mret, HR; [done|framed|lia]].
      assert (Ha : at_char text (cursor s3 + 1)).
      { unfold scientific in Hsc. apply orb_true_iff in Hsc as [H|H]; by eapply byte_is_at_char. }
      wp_step. eapply wp_advance_by; [done|done|]. intros s4 G4 M4. pose proof (moved_cursor _ _ _ M4).
      wp_step. apply wp_reads. wp_step.
      assert (Hrun : forall s5, good (cursor s) d s5 -> flat s s5 -> cursor s < cursor s5 ->
        wp (exponent ← reads cursor; _ ← scan_digits source is_ascii_digit; end_ ← reads cursor;
            validate_digit_run source limits exponent end_ 10) R s5).
      { intros s5 G5 F5 Hlt5. eapply wp_digit_run; [apply is_ascii_digit_ascii|done|].
        intros s6 G6 M6 Hle6. apply HR; [done|framed|lia]. }
      unfold Scanner.text. destruct (_ || byte_is text (cursor s4) "-") eqn:Hsign; [|apply wp_mret, Hrun; [done|framed|lia]].
      assert (Ha4 : at_char text (cursor s4 + 1)).
      { apply orb_true_iff in Hsign as [H'|H']; by eapply byte_is_at_char. }
      eapply wp_advance_by; [done|done|]. intros s5 G5 M5. apply Hrun; [done|framed|destruct M5; lia]. }
    apply Hexponent. clear Hexponent. intros s4 G4 F4 Hlt4. wp_step. apply wp_reads.
    apply Hpush; [done|done|done|]. destruct (_ || scientific); auto.
Qed.
End words.
