(* ===== verification/ScannerQuotes.v ===== *)
(** The scanner keeps its invariant: escapes, quoted literals, punctuation and
    brackets. *)

From Stdlib Require Import Strings.Byte.
From stdpp Require Import base numbers list option strings.
From S2P Require Import Prelude Bytes Interrupt Text Source Diagnostics SyntaxTokens Literals Scanner LexicalTable LexicalTableSound SyntaxDiagnostics ParseLogic ScannerState ScannerLayout ScannerWords.

#[local] Open Scope Z_scope.

(** What an escape complains of is a well-formed diagnostic. *)
Lemma escape_diagnostic_ok text start byte_string d :
  escape_diagnostic (decode_escape text start byte_string) = Some d ->
  code_malformed (ascii (escape_code d)) = false /\ message_ok (ascii (escape_message d)) = true
  /\ column_code (escape_code d) = false.
Proof.
  unfold decode_escape. destruct (_ ≫= first_char) as [c|]; [|intros [= <-]; done].
  destruct (simple_escape c); [done|]. destruct (_ && byte_string).
  { destruct (_ =? 2); [done|]. by intros [= <-]. }
  destruct (_ && negb byte_string); [|by intros [= <-]].
  destruct (byte_is _ _ "{"); cbn [negb]; [|by intros [= <-]].
  destruct (from_str_radix_16 _ ≫= _); [destruct (_ && _)|]; cbn [escape_diagnostic bad_escape]; by intros [= <-].
Qed.

(** The tables of punctuation agree with the texts of the tokens. *)
Lemma multi_ok spelling kind :
  List.In (spelling, kind) multi ->
  kind_texts kind = [ascii spelling] /\ is_ascii (ascii spelling) = true
  /\ physical_kind kind None false = true /\ kind <> Identifier /\ 0 < len (ascii spelling).
Proof.
  intros H. repeat (destruct H as [[= <- <-]|H]; [by vm_compute|]). destruct H.
Qed.

Lemma single_ok b kind :
  List.In (b, kind) single ->
  kind_texts kind = [[b]] /\ Z_of_byte b < 0x80 /\ physical_kind kind None false = true
  /\ kind <> Identifier /\ kind <> ErrorToken.
Proof.
  intros H. repeat (destruct H as [[= <- <-]|H]; [by vm_compute|]). destruct H.
Qed.

Section quotes.
Context (source : SourceFile) (limits : ParseLimits).
Context (is_xid_start is_xid_continue : Z -> bool) (nfc : list Z -> list Z).
Context (Hsource : file_ok source) (Hfit : limits_fit limits).
Notation text := (source_text source).
Notation good := (good source limits).
Notation moves := (moves source limits).
Notation char_here := (char_here source).

(** ** Escapes and quoted literals *)

Lemma wp_scan_escape p d byte_string Q s :
  good p d s -> byte_is text (cursor s) "\" = true ->
  (forall s', good p d s' -> moved (cursor s') s s' -> cursor s < cursor s' -> Q tt s') ->
  wp (scan_escape source limits byte_string) Q s.
Proof.
  intros G Hb%byte_is_Some HQ. unfold scan_escape, Scanner.text. wp_step. apply wp_reads.
  destruct (decode_escape_end text (cursor s) byte_string (text_small _ Hsource) (good_cursor _ _ _ _ _ G) Hb)
    as [Ha Hlt].
  wp_step. eapply (wp_set_cursor source limits); [done|done|]. intros s1 G1 M1. pose proof (moved_cursor _ _ _ M1).
  destruct (escape_diagnostic _) as [dg|] eqn:Hd; [|apply wp_mret, HQ; [done|framed|lia]].
  destruct (escape_diagnostic_ok _ _ _ _ Hd) as (Hcode & Hmsg & _).
  eapply (wp_report source limits Hsource); [done| |].
  - split_and!; [done|done|]. left. split_and!; [apply G|done|lia].
  - intros s2 G2 S2. apply HQ; [done|framed|destruct S2; lia].
Qed.

Lemma wp_unterminated start p d Q s :
  good p d s -> at_char text start -> start <= cursor s ->
  (forall s', good p d s' -> same s s' -> Q tt s') -> wp (unterminated source limits start) Q s.
Proof.
  intros G Ha Hle HQ. unfold unterminated. wp_step. apply wp_reads.
  eapply (wp_report source limits Hsource); [done| |done]. split_and!; [done|done|]. left.
  split_and!; [done|apply G|done].
Qed.

(** A brace inside an interpolated literal is taken with its double or counted. *)
Lemma wp_quoted_brace c depth p d Q s :
  good p d s -> char_here c s ->
  (forall s', good p d s' -> moved (cursor s + 2) s s' -> Q None s') ->
  (forall depth' s', good p d s' -> same s s' -> Q (Some depth') s') ->
  wp (quoted_brace source limits c depth) Q s.
Proof.
  intros G Hc HQ2 HQ. unfold quoted_brace. wp_step. eapply wp_remaining; [done|]. wp_step. apply wp_reads.
  assert (Htwo : forall prefix, starts_with (drop (Z.to_nat (cursor s)) text) prefix = true -> is_ascii prefix = true ->
    len prefix = 2 -> wp (advance_by 2 ≫= fun _ => mret None) Q s).
  { intros prefix Hs Ha Hl. destruct (at_char_prefix _ _ _ (good_cursor _ _ _ _ _ G) Hs Ha) as [Hat _].
    rewrite Hl in Hat. wp_step. eapply (wp_advance_by source limits); [done|done|]. intros s1 G1 M1. by apply wp_mret, HQ2. }
  destruct (char_is c "{").
  { destruct (starts_with _ _) eqn:Hs; [by apply (Htwo (ascii "{{"))|by apply wp_mret, HQ]. }
  destruct (char_is c "}") eqn:Hclose; [|by apply wp_mret, HQ].
  destruct (_ && (depth =? 0)) eqn:Hs.
  { apply andb_true_iff in Hs as [Hs _]. by apply (Htwo (ascii "}}")). }
  destruct (depth =? 0); [|by apply wp_mret, HQ].
  destruct (char_is_next source limits Hsource _ _ _ _ _ G Hc Hclose eq_refl) as [Hlt Ha1].
  wp_step. eapply (wp_report source limits Hsource); [done| |].
  - split_and!; [done|done|]. left. split_and!; [apply G|done|lia].
  - intros s1 G1 S1. by apply wp_mret, HQ.
Qed.

Lemma wp_scan_quoted_turn quote byte_string interpolated l p d Q s :
  Z_of_byte quote < 0x80 -> good p d s ->
  (forall l' s', good p d s' -> moved (cursor s') s s' -> cursor s < cursor s' -> Q (Again l') s') ->
  (forall r s', good p d s' -> moved (cursor s') s s' -> cursor s <= cursor s' -> Q (Leave r) s') ->
  wp (scan_quoted_turn source limits quote byte_string interpolated l) Q s.
Proof.
  intros Hquote G HQ HQend. unfold scan_quoted_turn. destruct l as [scalars depth].
  wp_step. apply wp_at_end. destruct (Z.leb_spec (len text) (cursor s)) as [|Hlt]; [apply wp_mret, HQend; [done|framed|lia]|].
  wp_step. eapply wp_work; [done|]. intros s1 G1 S1. assert (E1 : cursor s1 = cursor s) by framed.
  wp_step. eapply wp_current_char; [done|lia|]. intros c Hc Ha Hl. rewrite E1 in *.
  assert (Hhere : char_here c s1) by (unfold ScannerWords.char_here; by rewrite E1).
  assert (Hadvance : forall s2 (R : unit -> Scanner -> Prop), good p d s2 -> same s1 s2 ->
    (forall s3, good p d s3 -> moved (cursor s3) s s3 -> cursor s < cursor s3 -> R tt s3) ->
    wp (advance_by (len_utf8 c)) R s2).
  { intros s2 R G2 S2 HR. assert (E2 : cursor s2 = cursor s) by framed.
    eapply (wp_advance_by source limits); [done|by rewrite E2|]. intros s3 G3 M3.
    pose proof (moved_cursor _ _ _ M3). apply HR; [done|framed|lia]. }
  destruct (_ && (depth =? 0)).
  { wp_step. apply Hadvance; [done|done|]. intros s2 G2 M2 Hlt2. apply wp_mret, HQend; [done|done|lia]. }
  destruct (is_line_end c); [apply wp_mret, HQend; [done|framed|lia]|].
  destruct (char_is c "\") eqn:Hback.
  { wp_step. eapply wp_scan_escape; [done|by eapply char_is_byte|].
    intros s2 G2 M2 Hlt2. apply wp_mret, HQ; [done|framed|lia]. }
  wp_step.
  assert (Hbrace : forall R : option Z -> Scanner -> Prop,
    (forall s', good p d s' -> moved (cursor s + 2) s s' -> R None s') ->
    (forall depth' s', good p d s' -> same s1 s' -> R (Some depth') s') ->
    wp (if interpolated then quoted_brace source limits c depth else mret (Some depth)) R s1).
  { intros R HR2 HR. destruct interpolated; [|by apply wp_mret, HR].
    eapply wp_quoted_brace; [done|done| |done]. intros s2 G2 M2. rewrite E1 in M2. apply HR2; [done|framed]. }
  apply Hbrace; clear Hbrace.
  { intros s2 G2 M2. pose proof (moved_cursor _ _ _ M2). apply wp_mret, HQ; [done|framed|lia]. }
  intros depth' s2 G2 S2. wp_step. apply wp_reads. wp_step.
  assert (E2 : cursor s2 = cursor s) by framed. rewrite if_negb_swap.
  eapply wp_report_if; [done|done| |].
  { intros _. rewrite E2. split_and!; [done|done|]. left. split_and!; [rewrite <- E2; apply G2|done|lia]. }
  intros s3 G3 S3. wp_step. apply Hadvance; [done|framed|]. intros s4 G4 M4 Hlt4. by apply wp_mret, HQ.
Qed.

Lemma literal_kind_ok kind :
  is_literal_token kind = true ->
  physical_kind kind None true = true /\ carries_spelling kind = true /\ kind <> Identifier.
Proof. by destruct kind. Qed.

(** A literal between the start of a method and its end. *)
Lemma wp_push_literal kind p d (Q : unit -> Scanner -> Prop) s :
  is_literal_token kind = true -> good p d s -> at_char text p -> p < cursor s ->
  (forall s', good (cursor s') d s' -> same s s' -> Q tt s') ->
  wp (push_physical source limits kind p (cursor s) None true) Q s.
Proof.
  intros Hk G Hp Hlt HQ. destruct (literal_kind_ok kind Hk) as (Hphys & Hcarry & Hid).
  eapply (wp_push_physical source limits Hsource Hfit); [exact G|done|apply G|done|done|by apply text_fits_spelled|].
  intros s1 G1 S1 _. assert (E1 : cursor s1 = cursor s) by framed. apply HQ; [by rewrite E1|done].
Qed.

Lemma scan_quoted_moves kind prefix byte_string interpolated s :
  is_literal_token kind = true -> 0 <= prefix -> at_char text (cursor s + (prefix + 1)) ->
  moves (scan_quoted source limits kind prefix byte_string interpolated) s.
Proof.
  intros Hk Hpre Ha d Q G HQ. unfold scan_quoted. wp_step. apply wp_reads.
  wp_step. eapply (wp_advance_by source limits); [done|done|]. intros s1 G1 M1. pose proof (moved_cursor _ _ _ M1).
  set (quote := if bool_decide (kind = CharacterLiteral) then x27 else x22).
  assert (Hquote : Z_of_byte quote < 0x80) by (unfold quote; by case_bool_decide).
  wp_step. apply (wp_cursor_loop source (fun _ s2 => good (cursor s) d s2 /\ flat s s2 /\ cursor s < cursor s2)).
  - intros _ s2 (G2 & _). apply at_char_le, G2.
  - intros l s2 (G2 & F2 & Hlt2). eapply wp_scan_quoted_turn; [done|done| |].
    + intros l' s3 G3 M3 Hlt3. split_and!; [done|framed|lia|lia].
    + intros [[scalars depth] terminated] s3 G3 M3 Hle3. wp_step.
      assert (Hterm : forall R : unit -> Scanner -> Prop, (forall s4, good (cursor s) d s4 -> same s3 s4 -> R tt s4) ->
        wp (if terminated then mret tt else unterminated source limits (cursor s)) R s3).
      { intros R HR. destruct terminated; [by apply wp_mret, HR|].
        eapply wp_unterminated; [done|apply G|lia|done]. }
      apply Hterm. clear Hterm. intros s4 G4 S4. wp_step. apply wp_reads. wp_step.
      assert (E4 : cursor s4 = cursor s3) by framed. assert (Hpos : at_char text (cursor s4)) by apply G4.
      eapply wp_report_if; [done|done| |].
      { intros _. split_and!; [done|done|]. left. split_and!; [apply G|done|lia]. }
      intros s5 G5 S5. wp_step. rewrite if_negb_swap. eapply wp_report_if; [done|done| |].
      { intros _. split_and!; [done|done|]. left. split_and!; [apply G|done|lia]. }
      intros s6 G6 S6. assert (E6 : cursor s4 = cursor s6) by framed. rewrite E6.
      eapply wp_push_literal; [done|done|apply G|lia|]. intros s7 G7 S7.
      assert (cursor s7 = cursor s6) by framed. apply HQ; [done|lia|framed].
  - split_and!; [done|framed|lia].
Qed.

Lemma scan_reserved_triple_quoted_moves s :
  starts_with (drop (Z.to_nat (cursor s)) text) triple_quote = true ->
  moves (scan_reserved_triple_quoted source limits) s.
Proof.
  intros Hs d Q G HQ. unfold scan_reserved_triple_quoted. wp_step. apply wp_reads.
  destruct (at_char_prefix _ _ _ (good_cursor _ _ _ _ _ G) Hs eq_refl) as [Ha _].
  change (len triple_quote) with 3 in Ha.
  wp_step. eapply (wp_report source limits Hsource); [done| |].
  { split_and!; [done|done|]. left. split_and!; [apply G|done|lia]. }
  intros s1 G1 S1. assert (E1 : cursor s1 = cursor s) by framed.
  wp_step. eapply (wp_advance_by source limits); [done|by rewrite E1|]. intros s2 G2 M2. pose proof (moved_cursor _ _ _ M2).
  wp_step. eapply wp_mono with (P := fun _ s3 => good (cursor s) d s3 /\ flat s s3 /\ cursor s < cursor s3).
  - apply (wp_while_going source (fun s3 => good (cursor s) d s3 /\ flat s s3 /\ cursor s < cursor s3)).
    + intros s3 (G3 & _). apply at_char_le, G3.
    + intros s3 (G3 & F3 & Hlt3). wp_step. apply wp_at_end.
      destruct (Z.leb_spec (len text) (cursor s3)) as [|Hlt]; [by apply wp_mret|].
      wp_step. eapply wp_work; [done|]. intros s4 G4 S4. assert (E4 : cursor s4 = cursor s3) by framed.
      wp_step. eapply wp_remaining; [done|].
      destruct (starts_with (drop (Z.to_nat (cursor s4)) text) triple_quote) eqn:Hq.
      { destruct (at_char_prefix _ _ _ (good_cursor _ _ _ _ _ G4) Hq eq_refl) as [Ha4 _].
        wp_step. eapply (wp_advance_by source limits); [done|done|]. intros s5 G5 M5.
        pose proof (moved_cursor _ _ _ M5). apply wp_mret. split_and!; [done|framed|lia]. }
      wp_step. eapply wp_current_char; [done|lia|]. intros c Hc Hca Hcl.
      destruct (is_line_end c); [apply wp_mret; split_and!; [done|framed|lia]|].
      wp_step. eapply (wp_advance_by source limits); [done|done|]. intros s5 G5 M5.
      pose proof (moved_cursor _ _ _ M5). apply wp_mret. split_and!; [done|framed|lia|lia].
    + split_and!; [done|framed|lia].
  - intros [] s3 (G3 & F3 & Hlt3). wp_step. apply wp_reads.
    eapply wp_push_literal; [done|done|apply G|lia|]. intros s4 G4 S4.
    assert (cursor s4 = cursor s3) by framed. apply HQ; [done|lia|framed].
Qed.

(** ** Punctuation *)

Lemma find_multi_ok tail spelling kind :
  find_multi tail = Some (spelling, kind) ->
  starts_with tail (ascii spelling) = true /\ List.In (spelling, kind) multi.
Proof. intros H. apply List.find_some in H as [? ?]. done. Qed.

Lemma find_single_ok c kind :
  find_single c = Some kind -> exists b, char_is c b = true /\ List.In (b, kind) single.
Proof.
  unfold find_single. destruct (List.find _ _) as [[b k]|] eqn:H; [|done]. intros [= ->].
  apply List.find_some in H as [? ?]. by exists b.
Qed.

Lemma wp_unmatched_delimiter c start p d Q s :
  good p d s -> 0 <= c < 0x80 -> at_char text start -> start <= cursor s ->
  (forall s', good p d s' -> same s s' -> Q tt s') -> wp (unmatched_delimiter source limits c start) Q s.
Proof.
  intros G Hc Ha Hle HQ. unfold unmatched_delimiter. wp_step. apply wp_reads.
  eapply (wp_report source limits Hsource); [done| |done]. split_and!; [done| |].
  - apply message_ok_app; [done|]. by rewrite is_ascii_app, format_bracket_ascii.
  - left. split_and!; [done|apply G|done].
Qed.

(** The brackets: an opener is pushed, a closer pops its opener or is reported. *)
Lemma wp_update_delimiters c p d Q s :
  good p d s -> first_char (drop (Z.to_nat p) text) = Some c -> at_char text p -> cursor s = p + len_utf8 c ->
  (forall s', good p d s' -> flat s s' -> cursor s' = cursor s -> Q tt s') ->
  wp (update_delimiters source limits c p) Q s.
Proof.
  intros G Hc Hp Hcur HQ. unfold update_delimiters. wp_step. apply wp_get_state.
  assert (Hch : forall b, char_is c b = true -> Z_of_byte b < 0x80 -> 0 <= c < 0x80 /\ at_char text (p + 1)).
  { intros b Hb%Z.eqb_eq Hlt. pose proof (Z_of_byte_range b). split; [lia|].
    pose proof (good_cursor _ _ _ _ _ G) as Ha. rewrite Hcur in Ha. unfold len_utf8 in Ha.
    by rewrite (proj2 (Z.ltb_lt c 0x80)) in Ha by lia. }
  assert (Hle : p <= cursor s) by (rewrite Hcur; unfold len_utf8; repeat case_match; lia).
  destruct (_ || char_is c "{") eqn:Hopen.
  - assert (Hd : delimiter_ok source (c, p)).
    { apply orb_true_iff in Hopen as [[H|H]%orb_true_iff|H]; destruct (Hch _ H eq_refl); (split; [cbn; lia|by split]). }
    wp_step. apply wp_reject_if; [done|]. intros _. wp_step. apply wp_reserve_or; [done|].
    apply wp_update, HQ; [|framed|done]. apply good_with_delimiters; [done|].
    apply Forall_app. split; [apply G|by apply Forall_singleton].
  - destruct (opener_of c) as [expected|] eqn:Hcl; [|by apply wp_mret, HQ].
    assert (Hcr : 0 <= c < 0x80).
    { unfold opener_of in Hcl. destruct (char_is c ")") eqn:H1; [by apply (Hch ")"%byte)|].
      destruct (char_is c "]") eqn:H2; [by apply (Hch "]"%byte)|].
      destruct (char_is c "}") eqn:H3; [by apply (Hch "}"%byte)|done]. }
    case_bool_decide.
    + apply wp_update, HQ; [|framed|done]. apply good_with_delimiters; [done|].
      pose proof (good_delimiters _ _ _ _ _ G) as Hds.
      destruct (delimiters s) as [|x ds _] using rev_ind; [done|]. rewrite removelast_last.
      by apply Forall_app in Hds as [? _].
    + eapply wp_unmatched_delimiter; [done|done|done|done|]. intros s1 G1 S1. apply HQ; [done|framed|framed].
Qed.

Lemma scan_punctuation_or_error_moves s :
  cursor s < len text -> moves (scan_punctuation_or_error source limits) s.
Proof.
  intros Hlt d Q G HQ. unfold scan_punctuation_or_error. wp_step. apply wp_reads.
  wp_step. eapply wp_remaining; [done|].
  destruct (find_multi _) as [[spelling kind]|] eqn:Hm.
  - apply find_multi_ok in Hm as [Hs Hin]. destruct (multi_ok _ _ Hin) as (Ht & Ha & Hphys & Hid & Hl).
    destruct (at_char_prefix _ _ _ (good_cursor _ _ _ _ _ G) Hs Ha) as [Hat Hsub].
    wp_step. eapply (wp_advance_by source limits); [done|done|]. intros s1 G1 M1. pose proof (moved_cursor _ _ _ M1) as E1.
    wp_step. apply wp_reads. rewrite E1.
    eapply (wp_push_physical source limits Hsource Hfit); [exact G1|apply G|done|lia|done| |].
    { split; [|done]. intros _. rewrite Hsub, Ht. by left. }
    intros s2 G2 S2 _. assert (E2 : cursor s2 = cursor s + len (ascii spelling)) by framed.
    apply HQ; [by rewrite E2|lia|framed].
  - wp_step. eapply wp_current_char; [done|done|]. intros c Hc Ha Hcl.
    wp_step. eapply (wp_advance_by source limits); [done|done|]. intros s1 G1 M1. pose proof (moved_cursor _ _ _ M1) as E1.
    wp_step. apply wp_reads. wp_step. apply wp_get_state. rewrite E1.
    assert (Hone : forall b, char_is c b = true -> Z_of_byte b < 0x80 ->
      subslice text (cursor s) (cursor s + len_utf8 c) = [b]).
    { intros b Hb Hbl. destruct (char_is_byte source limits _ _ _ _ _ G Hc Hb Hbl) as [Hat%byte_is_Some ->].
      pose proof (byte_at_Some _ _ _ Hat). rewrite byte_at_lookup in Hat by lia.
      unfold subslice. replace (Z.to_nat (cursor s + 1 - cursor s)) with 1%nat by lia.
      by rewrite (drop_S _ _ _ Hat). }
    destruct (char_is c ";" && bool_decide (delimiters s1 = [])) eqn:Hsemi.
    { apply andb_true_iff in Hsemi as [Hsemi _].
      eapply (wp_push_physical source limits Hsource Hfit); [exact G1|apply G|done|lia|done| |].
      { split; [|done]. intros _. rewrite (Hone ";"%byte Hsemi eq_refl). by left. }
      intros s2 G2 S2 _. assert (E2 : cursor s2 = cursor s + len_utf8 c) by framed.
      apply HQ; [by rewrite E2|lia|framed]. }
    wp_step.
    assert (Hpush : forall kind s2, good (cursor s) d s2 -> same s1 s2 ->
      physical_kind kind None (bool_decide (kind = ErrorToken)) = true ->
      text_fits kind (subslice text (cursor s) (cursor s + len_utf8 c)) ->
      wp (update_delimiters source limits c (cursor s) ≫= fun _ =>
          push_physical source limits kind (cursor s) (cursor s + len_utf8 c) None (bool_decide (kind = ErrorToken))) Q s2).
    { intros kind s2 G2 S2 Hphys Hfits. wp_step.
      assert (E2 : cursor s2 = cursor s + len_utf8 c) by framed.
      eapply wp_update_delimiters; [done|done|apply G|done|]. intros s3 G3 F3 E3.
      eapply (wp_push_physical source limits Hsource Hfit); [exact G3|apply G|done|lia|done|done|].
      intros s4 G4 S4 _. assert (E4 : cursor s4 = cursor s + len_utf8 c) by framed.
      apply HQ; [by rewrite E4|lia|framed]. }
    destruct (find_single c) as [kind|] eqn:Hsingle.
    + apply find_single_ok in Hsingle as (b & Hb & Hin). destruct (single_ok _ _ Hin) as (Ht & Hbl & Hphys & Hid & Hne).
      apply wp_mret. rewrite (bool_decide_eq_false_2 _ Hne) in *. specialize (Hpush kind s1 G1 ltac:(done)).
      rewrite (bool_decide_eq_false_2 _ Hne) in Hpush. apply Hpush; [done|].
      split; [|done]. intros _. rewrite (Hone b Hb Hbl), Ht. by left.
    + wp_step. eapply (wp_report source limits Hsource); [done| |].
      { split_and!; [done| |].
        - apply message_ok_app; [done|apply format_04X_ascii].
        - left. split_and!; [apply G|done|lia]. }
      intros s2 G2 S2. apply wp_mret. by apply Hpush; [| |done|apply text_fits_spelled].
Qed.

Lemma scan_forbidden_moves c s :
  char_here c s -> cursor s < len text -> moves (scan_forbidden source limits c) s.
Proof.
  intros Hc Hlt d Q G HQ. unfold scan_forbidden. wp_step. apply wp_reads.
  destruct (first_char_Some _ _ _ (good_cursor _ _ _ _ _ G) Hc) as (_ & Ha & Hl).
  wp_step. eapply (wp_advance_by source limits); [done|done|]. intros s1 G1 M1. pose proof (moved_cursor _ _ _ M1) as E1.
  wp_step. apply wp_reads. rewrite E1.
  eapply (wp_push_physical source limits Hsource Hfit); [exact G1|apply G|done|lia|done|by apply text_fits_spelled|].
  intros s2 G2 S2 _. assert (E2 : cursor s2 = cursor s + len_utf8 c) by framed.
  apply HQ; [by rewrite E2|lia|framed].
Qed.

(** ** The arms both dispatches share *)

Lemma scan_word_or_punctuation_moves c s :
  char_here c s -> cursor s < len text ->
  moves (scan_word_or_punctuation source limits is_xid_start is_xid_continue nfc c) s.
Proof.
  intros Hc Hlt. unfold scan_word_or_punctuation.
  destruct (between 0x30 0x39 c) eqn:H1; [by eapply scan_number_moves|].
  destruct (char_is c "_"); [by apply scan_identifier_moves|].
  destruct (is_xid_start c); [by apply scan_identifier_moves|].
  destruct (is_forbidden_raw_character c); [by apply scan_forbidden_moves|].
  by apply scan_punctuation_or_error_moves.
Qed.

Lemma scan_literal_or_word_moves interpolated c s :
  char_here c s -> cursor s < len text ->
  (starts_with (drop (Z.to_nat (cursor s)) text) f_quote = true -> moves interpolated s) ->
  moves (scan_literal_or_word source limits is_xid_start is_xid_continue nfc interpolated c
           (drop (Z.to_nat (cursor s)) text)) s.
Proof.
  intros Hc Hlt Hint. unfold scan_literal_or_word.
  assert (Hpre : forall d prefix, good (cursor s) d s -> starts_with (drop (Z.to_nat (cursor s)) text) prefix = true ->
    is_ascii prefix = true -> at_char text (cursor s + len prefix)).
  { intros d prefix G Hs Ha. by eapply at_char_prefix; [apply G|..]. }
  destruct (char_is c "b" && _) eqn:H1.
  { apply andb_true_iff in H1 as [_ H1]. intros d Q G. eapply scan_quoted_moves; [done|done| |done].
    by apply (Hpre d byte_quote). }
  destruct (char_is c "f" && _) eqn:H2.
  { apply andb_true_iff in H2 as [_ H2]. by apply Hint. }
  destruct (char_is c x22 && _) eqn:H3.
  { apply andb_true_iff in H3 as [_ H3]. by apply scan_reserved_triple_quoted_moves. }
  assert (Hone : forall d b, good (cursor s) d s -> char_is c b = true -> Z_of_byte b < 0x80 ->
    at_char text (cursor s + (0 + 1))).
  { intros d b G Hb Hbl. by eapply char_is_next. }
  destruct (char_is c x22) eqn:H4.
  { intros d Q G. eapply scan_quoted_moves; [done|done|by eapply (Hone d x22)|done]. }
  destruct (char_is c x27) eqn:H5.
  { intros d Q G. unfold scan_character_literal. eapply scan_quoted_moves; [done|done|by eapply (Hone d x27)|done]. }
  by apply scan_word_or_punctuation_moves.
Qed.
End quotes.
