(* ===== verification/ScannerInterpolation.v ===== *)
(** The scanner keeps its invariant: interpolated strings, whose expressions
    may hold interpolated strings again. *)

From Stdlib Require Import Strings.Byte.
From stdpp Require Import base numbers list option strings.
From S2P Require Import Prelude Bytes Interrupt Text Source Diagnostics SyntaxTokens Literals Scanner LexicalTable LexicalTableSound SyntaxDiagnostics ParseLogic ScannerState ScannerLayout ScannerWords ScannerQuotes.

#[local] Open Scope Z_scope.

Section interpolation.
Context (source : SourceFile) (limits : ParseLimits).
Context (is_xid_start is_xid_continue : Z -> bool) (nfc : list Z -> list Z).
Context (Hsource : file_ok source) (Hfit : limits_fit limits).
Notation text := (source_text source).
Notation good := (good source limits).
Notation moves := (moves source limits).
Notation char_here := (char_here source).

(** ** Parts *)

(** A mark of one ASCII character. *)
Lemma push_mark_moves kind b s :
  byte_is text (cursor s) b = true -> Z_of_byte b < 0x80 -> kind_texts kind = [[b]] ->
  physical_kind kind None false = true -> kind <> Identifier -> moves (push_mark source limits kind) s.
Proof.
  intros Hb Hlt Ht Hphys Hid d Q G HQ. unfold push_mark. wp_step. apply wp_reads.
  destruct (byte_is_at_char source Hsource _ _ Hb Hlt) as (Hend & _ & Ha).
  wp_step. eapply (wp_advance_by source limits); [done|done|]. intros s1 G1 M1.
  eapply (wp_push_physical source limits Hsource Hfit); [exact G1|apply G|done|lia|done| |].
  - split; [|done]. intros _. rewrite Ht. apply byte_is_Some in Hb. pose proof (byte_at_Some _ _ _ Hb).
    rewrite byte_at_lookup in Hb by lia. unfold subslice.
    replace (Z.to_nat (cursor s + 1 - cursor s)) with 1%nat by lia. rewrite (drop_S _ _ _ Hb). by left.
  - intros s2 G2 S2 _. assert (E2 : cursor s2 = cursor s + 1) by framed. apply HQ; [by rewrite E2|lia|framed].
Qed.

(** Text of an interpolated string up to the cursor. *)
Lemma wp_push_interpolation_text p d Q s :
  good p d s -> at_char text p -> p <= cursor s ->
  (forall s', good (cursor s') d s' -> same s s' -> Q tt s') ->
  wp (push_interpolation_text source limits p (cursor s)) Q s.
Proof.
  intros G Hp Hle HQ. unfold push_interpolation_text. destruct (Z.ltb_spec p (cursor s)).
  - by eapply wp_push_literal.
  - apply wp_mret, HQ; [|done]. by replace (cursor s) with p by lia.
Qed.

Lemma wp_unmatched_opening opening p d Q s :
  good p d s -> at_char text opening -> opening <= cursor s ->
  (forall s', good p d s' -> same s s' -> Q tt s') -> wp (unmatched_opening source limits opening) Q s.
Proof.
  intros G Ha Hle HQ. unfold unmatched_opening. wp_step. apply wp_reads.
  eapply (wp_report source limits Hsource); [done| |done]. split_and!; [done|done|]. left.
  split_and!; [done|apply G|done].
Qed.

(** ** Format specifications *)

Lemma wp_format_characters p d Q s :
  good p d s ->
  (forall s', good p d s' -> moved (cursor s') s s' -> cursor s <= cursor s' -> Q tt s') ->
  wp (while_going source (
    finished ← at_end source;
    if finished : bool then mret false else
    _ ← work;
    character ← current_char source;
    if char_is character "}" then mret false else
    if is_line_end character || char_is character x22 then mret false else
    position ← reads cursor;
    _ ← (if char_is character "{" then
           report source limits "syntax-interpolation-format-brace" position (position + 1)
             (ascii "interpolation format specifications cannot contain braces")
         else mret tt);
    _ ← (if char_is_ascii character then mret tt else
         report source limits "syntax-interpolation-format-ascii" position (position + len_utf8 character)
           (ascii "interpolation format specifications must be ASCII"));
    _ ← advance_by (len_utf8 character); mret true)) Q s.
Proof.
  intros G HQ.
  apply (wp_while_going source (fun s1 => good p d s1 /\ moved (cursor s1) s s1 /\ cursor s <= cursor s1)).
  - intros s1 (G1 & _). apply at_char_le, G1.
  - intros s1 (G1 & M1 & Hle). wp_step. apply wp_at_end.
    destruct (Z.leb_spec (len text) (cursor s1)) as [|Hlt]; [apply wp_mret; by apply HQ|].
    wp_step. eapply wp_work; [done|]. intros s2 G2 S2. assert (E2 : cursor s2 = cursor s1) by framed.
    wp_step. eapply wp_current_char; [done|lia|]. intros c Hc Ha Hl.
    destruct (char_is c "}"); [apply wp_mret, HQ; [done|framed|lia]|].
    destruct (_ || char_is c x22); [apply wp_mret, HQ; [done|framed|lia]|].
    wp_step. apply wp_reads. wp_step. rewrite if_negb_swap. eapply wp_report_if; [done|done| |].
    { intros Hb%negb_false_iff. destruct (char_is_next source limits Hsource _ _ _ _ _ G2 Hc Hb eq_refl) as [_ Ha1].
      split_and!; [done|done|]. left. split_and!; [apply G2|done|lia]. }
    intros s3 G3 S3. wp_step. eapply wp_report_if; [done|done| |].
    { intros _. split_and!; [done|done|]. left. split_and!; [apply G2|done|lia]. }
    intros s4 G4 S4. assert (E4 : cursor s4 = cursor s2) by framed.
    wp_step. eapply (wp_advance_by source limits); [done|by rewrite E4|]. intros s5 G5 M5.
    pose proof (moved_cursor _ _ _ M5). apply wp_mret. split_and!; [done|framed|lia|lia].
  - split_and!; [done|done|lia].
Qed.

Lemma wp_scan_interpolation_format opening d Q s :
  good (cursor s) d s -> at_char text opening -> opening <= cursor s ->
  (forall s', good (cursor s') d s' -> cursor s <= cursor s' -> flat s s' -> Q tt s') ->
  wp (scan_interpolation_format source limits opening) Q s.
Proof.
  intros G Hop Hle HQ. unfold scan_interpolation_format. wp_step. apply wp_reads.
  wp_step. eapply wp_format_characters; [done|]. intros s1 G1 M1 Hle1. wp_step. apply wp_reads. wp_step.
  assert (Hformat : forall R : unit -> Scanner -> Prop,
    (forall s2, good (cursor s2) d s2 -> same s1 s2 -> R tt s2) ->
    wp (if cursor s =? cursor s1 then
          report source limits "syntax-empty-interpolation-format" (cursor s) (cursor s)
            (ascii "interpolation format specifications cannot be empty")
        else push_physical source limits InterpolationFormat (cursor s) (cursor s1) None true) R s1).
  { intros R HR. destruct (Z.eqb_spec (cursor s) (cursor s1)) as [He|Hne].
    - eapply (wp_report source limits Hsource); [done| |].
      + split_and!; [done|done|]. left. split_and!; [apply G|apply G|lia].
      + intros s2 G2 S2. apply HR; [|done]. destruct S2. by replace (cursor s2) with (cursor s) by lia.
    - eapply wp_push_literal; [done|done|done|done|apply G|lia|done]. }
  apply Hformat. clear Hformat. intros s2 G2 S2. assert (E2 : cursor s2 = cursor s1) by framed.
  wp_step. unfold Scanner.text. destruct (Z.ltb_spec (cursor s1) (len text)) as [Hlt|Hge].
  - wp_step. eapply wp_current_char; [done|lia|]. intros c Hc Ha Hl. apply wp_mret.
    destruct (char_is c "}") eqn:Hb.
    + eapply (push_mark_moves _ "}"%byte); [by eapply char_is_byte|done|done|done|done|done|].
      intros s3 G3 H3 F3. apply HQ; [done|lia|framed].
    + eapply wp_unmatched_opening; [done|done|lia|]. intros s3 G3 S3. assert (E3 : cursor s3 = cursor s2) by framed.
      apply HQ; [by rewrite E3|lia|framed].
  - apply wp_mret. eapply wp_unmatched_opening; [done|done|lia|]. intros s3 G3 S3.
    assert (E3 : cursor s3 = cursor s2) by framed. apply HQ; [by rewrite E3|lia|framed].
Qed.

(** ** Expressions *)

Section nested.
(** What is known of the nested method at a state: it moves wherever the nesting
    allows what the outer method was allowed. *)
Context (interpolated : scanning unit) (level : Z).
Context (Hinterpolated : forall s, interpolation_depth s = level ->
  starts_with (drop (Z.to_nat (cursor s)) text) f_quote = true -> moves interpolated s).

Lemma scan_interpolation_expression_token_moves base c s :
  interpolation_depth s = level -> cursor s < len text -> char_here c s -> is_line_end c = false ->
  moves (scan_interpolation_expression_token source limits is_xid_start is_xid_continue nfc interpolated base) s.
Proof.
  intros Hlevel Hlt Hc Hend d Q G HQ. unfold scan_interpolation_expression_token. wp_step. apply wp_reads.
  wp_step. eapply wp_current_char; [done|done|]. intros c' Hc' Ha Hl.
  rewrite Hc in Hc'. injection Hc' as <-. wp_step. apply wp_get_state.
  destruct (_ && (char_is c ")" || char_is c "]")) eqn:Hclose.
  - apply andb_true_iff in Hclose as [_ Hclose].
    assert (Hb : exists b, char_is c b = true /\ Z_of_byte b < 0x80
      /\ kind_texts (PunctuationToken (if char_is c ")" then PRightParen else PRightBracket)) = [[b]]).
    { destruct (char_is c ")") eqn:Hp; [by exists ")"%byte|]. simpl in Hclose. by exists "]"%byte. }
    destruct Hb as (b & Hb & Hbl & Ht).
    destruct (char_is_byte source limits _ _ _ _ _ G Hc Hb Hbl) as [Hbyte _].
    destruct (char_is_next source limits Hsource _ _ _ _ _ G Hc Hb Hbl) as [_ Ha1].
    wp_step. eapply (wp_advance_by source limits); [done|done|]. intros s1 G1 M1. pose proof (moved_cursor _ _ _ M1) as E1.
    wp_step. eapply wp_unmatched_delimiter; [done|done| |apply G|lia|].
    { apply Z.eqb_eq in Hb. pose proof (Z_of_byte_range b). lia. }
    intros s2 G2 S2. assert (E2 : cursor s2 = cursor s + 1) by framed. wp_step. apply wp_reads. rewrite E2.
    eapply (wp_push_physical source limits Hsource Hfit); [exact G2|apply G|done|lia|by destruct (char_is c ")")| |].
    + split; [|done]. intros _. rewrite Ht. apply byte_is_Some in Hbyte. pose proof (byte_at_Some _ _ _ Hbyte).
      rewrite byte_at_lookup in Hbyte by lia. unfold subslice.
      replace (Z.to_nat (cursor s + 1 - cursor s)) with 1%nat by lia. rewrite (drop_S _ _ _ Hbyte). by left.
    + intros s3 G3 S3 _. assert (E3 : cursor s3 = cursor s + 1) by framed. apply HQ; [by rewrite E3|lia|framed].
  - wp_step. eapply wp_remaining; [done|].
    destruct (char_is c " " || char_is c x09) eqn:Hsp.
    { eapply scan_horizontal_space_moves; [done| |done|done]. unfold byte_is_space.
      apply orb_true_iff in Hsp as [H|H]; apply orb_true_iff; [left|right]; by eapply char_is_byte. }
    destruct (char_is c "#") eqn:Hhash.
    { eapply scan_comment_moves; [done|done| |done|done].
      destruct (char_is_byte source limits _ _ _ _ _ G Hc Hhash eq_refl) as [Hb%byte_is_Some _].
      unfold byte_is_line_end, byte_is. by rewrite Hb. }
    by eapply scan_literal_or_word_moves; [done|done|done|done|by apply Hinterpolated|..].
Qed.

Lemma wp_scan_interpolation_value opening d Q s :
  interpolation_depth s = level -> good (cursor s) d s -> at_char text opening -> opening <= cursor s ->
  (forall s', good (cursor s') d s' -> cursor s <= cursor s' -> flat s s' -> Q tt s') ->
  wp (scan_interpolation_value source limits is_xid_start is_xid_continue nfc interpolated opening) Q s.
Proof.
  intros Hlevel G Hop Hle HQ. unfold scan_interpolation_value. wp_step. apply wp_get_state. wp_step.
  apply (wp_cursor_loop source (fun _ s1 => good (cursor s1) d s1 /\ flat s s1 /\ cursor s <= cursor s1)).
  - intros _ s1 (G1 & _). apply at_char_le, G1.
  - intros pipes s1 (G1 & F1 & Hle1). unfold scan_interpolation_value_turn.
    assert (Hleave : forall s2, good (cursor s2) d s2 -> flat s s2 -> cursor s <= cursor s2 ->
      wp (update (fun s3 => with_delimiters (take (length (delimiters s)) (delimiters s3)) s3) ≫= fun _ =>
          unmatched_opening source limits opening) Q s2).
    { intros s2 G2 F2 Hle2. wp_step. apply wp_update. eapply wp_unmatched_opening; [|done| |].
      - apply good_with_delimiters; [exact G2|]. apply Forall_take, G2.
      - simpl. lia.
      - intros s3 G3 S3. destruct S3 as [E3 I3 D3 P3 T3]. simpl in E3, I3, P3, T3.
        apply HQ; [by rewrite E3|lia|framed]. }
    wp_step. apply wp_at_end. destruct (Z.leb_spec (len text) (cursor s1)) as [|Hlt]; [by apply wp_mret, Hleave|].
    wp_step. eapply wp_work; [done|]. intros s2 G2 S2. assert (E2 : cursor s2 = cursor s1) by framed. rewrite <- E2 in G2.
    wp_step. eapply wp_current_char; [done|lia|]. intros c Hc Ha Hl.
    destruct (is_line_end c) eqn:Hend; [apply wp_mret, Hleave; [done|framed|lia]|].
    wp_step. apply wp_get_state.
    destruct (_ && char_is c "}") eqn:Hclose.
    { apply andb_true_iff in Hclose as [_ Hclose]. wp_step.
      eapply (push_mark_moves _ "}"%byte); [by eapply char_is_byte|done|done|done|done|done|].
      intros s3 G3 H3 F3. apply wp_mret, wp_mret, HQ; [done|lia|framed]. }
    wp_step.
    assert (Hstarts : forall R : bool -> Scanner -> Prop, (forall b, (b = true -> char_is c ":" = true) -> R b s2) ->
      wp (if (length (delimiters s2) =? length (delimiters s))%nat && char_is c ":" then
            match interpolation_colon_starts_format s2 (length (tokens s)) pipes with
            | Some b => mret b | None => fault_with BadSlice end else mret false) R s2).
    { intros R HR. destruct (_ && char_is c ":") eqn:Hcolon; [|by apply wp_mret, HR].
      apply andb_true_iff in Hcolon as [_ Hcolon]. unfold interpolation_colon_starts_format.
      destruct (Nat.ltb_spec (length (tokens s2)) (length (tokens s))) as [Hbad|_]; [|by apply wp_mret, HR].
      exfalso. destruct F1 as [[_ ?] _], S2. lia. }
    apply Hstarts. clear Hstarts. intros [|] Hcolon.
    + wp_step. eapply (push_mark_moves _ ":"%byte); [eapply char_is_byte; [done|done|by apply Hcolon|done]|done|done|done|done|done|].
      intros s3 G3 H3 F3. wp_step. eapply wp_scan_interpolation_format; [done|done|lia|].
      intros s4 G4 H4 F4. apply wp_mret, wp_mret, HQ; [done|lia|framed].
    + wp_step. eapply scan_interpolation_expression_token_moves; [|lia|exact Hc|done|done|].
      { destruct F1 as [[? _] _], S2. congruence. }
      intros s3 G3 H3 F3. wp_step. apply wp_get_state. apply wp_mret. split_and!; [done|framed|lia|lia].
  - split_and!; [done|framed|lia].
Qed.

(** ** The string *)

Lemma wp_scan_interpolated_turn start d Q s :
  interpolation_depth s = level -> good start d s -> at_char text start -> start <= cursor s ->
  (forall start' s', good start' d s' -> at_char text start' -> start' <= cursor s' -> flat s s' ->
     cursor s < cursor s' -> Q (Again start') s') ->
  (forall start' b s', good start' d s' -> at_char text start' -> start' <= cursor s' -> flat s s' ->
     cursor s <= cursor s' -> Q (Leave (start', b)) s') ->
  wp (scan_interpolated_turn source limits is_xid_start is_xid_continue nfc interpolated start) Q s.
Proof.
  intros Hlevel G Hst Hle HQ HQend. unfold scan_interpolated_turn.
  wp_step. apply wp_at_end. destruct (Z.leb_spec (len text) (cursor s)) as [|Hlt]; [apply wp_mret, HQend; [done|done|done|framed|lia]|].
  wp_step. eapply wp_work; [done|]. intros s1 G1 S1. assert (E1 : cursor s1 = cursor s) by framed.
  wp_step. eapply wp_current_char; [done|lia|]. intros c Hc Ha Hl.
  wp_step. apply wp_reads. wp_step. eapply wp_remaining; [done|].
  assert (Htwo : forall prefix, starts_with (drop (Z.to_nat (cursor s1)) text) prefix = true -> is_ascii prefix = true ->
    len prefix = 2 -> at_char text (cursor s1 + 2)).
  { intros prefix Hs Has Hp. destruct (at_char_prefix _ _ _ (good_cursor _ _ _ _ _ G1) Hs Has) as [Hat _]. by rewrite Hp in Hat. }
  destruct (is_line_end c); [apply wp_mret, HQend; [done|done|lia|framed|lia]|].
  destruct (char_is c x22) eqn:Hquote.
  { wp_step. eapply wp_push_interpolation_text; [done|done|lia|]. intros s2 G2 S2. assert (E2 : cursor s2 = cursor s1) by framed.
    destruct (char_is_next source limits Hsource _ _ _ _ _ G1 Hc Hquote eq_refl) as [_ Ha1].
    wp_step. eapply (wp_advance_by source limits); [done|by rewrite E2|]. intros s3 G3 M3. pose proof (moved_cursor _ _ _ M3) as E3.
    wp_step. rewrite <- E2, <- E3.
    eapply wp_push_literal; [done|done|done|done|apply G2|lia|]. intros s4 G4 S4. assert (E4 : cursor s4 = cursor s3) by framed.
    rewrite <- E4. apply wp_mret, HQend; [done|apply G4|lia|framed|lia]. }
  destruct (char_is c "\") eqn:Hback.
  { wp_step. eapply wp_scan_escape; [done|done|by eapply char_is_byte|]. intros s2 G2 M2 Hlt2.
    apply wp_mret, HQ; [done|done|lia|framed|lia]. }
  destruct (char_is c "{") eqn:Hopen.
  { destruct (starts_with _ (ascii "{{")) eqn:Hs.
    - wp_step. eapply (wp_advance_by source limits); [done|by apply (Htwo (ascii "{{"))|]. intros s2 G2 M2.
      pose proof (moved_cursor _ _ _ M2). apply wp_mret, HQ; [done|done|lia|framed|lia].
    - destruct (char_is_byte source limits _ _ _ _ _ G1 Hc Hopen eq_refl) as [Hbyte _].
      wp_step. eapply wp_push_interpolation_text; [done|done|lia|]. intros s2 G2 S2. assert (E2 : cursor s2 = cursor s1) by framed.
      wp_step. eapply (push_mark_moves _ "{"%byte); [by rewrite E2|done|done|done|done|done|]. intros s3 G3 H3 F3.
      wp_step. eapply wp_scan_interpolation_value; [|done|apply G1|lia|].
      { destruct F3 as [[? _] _], S2, S1. congruence. }
      intros s4 G4 H4 F4. wp_step. apply wp_reads. apply wp_mret, HQ; [done|apply G4|lia|framed|lia]. }
  wp_step. rewrite if_negb_swap. eapply wp_report_if; [done|done| |].
  { intros Hb%negb_false_iff%andb_true_iff. destruct Hb as [Hb _].
    destruct (char_is_next source limits Hsource _ _ _ _ _ G1 Hc Hb eq_refl) as [_ Ha1].
    split_and!; [done|done|]. left. split_and!; [apply G1|done|lia]. }
  intros s2 G2 S2. assert (E2 : cursor s2 = cursor s1) by framed. wp_step.
  set (n := if char_is c "}" && _ then 2 else len_utf8 c).
  assert (Hn : at_char text (cursor s1 + n) /\ 1 <= n).
  { unfold n. destruct (_ && starts_with _ (ascii "}}")) eqn:Hs; [|done]. apply andb_true_iff in Hs as [_ Hs].
    split; [by apply (Htwo (ascii "}}"))|lia]. }
  destruct Hn as [Hna Hn]. eapply (wp_advance_by source limits); [done|by rewrite E2|]. intros s3 G3 M3.
  pose proof (moved_cursor _ _ _ M3). apply wp_mret, HQ; [done|done|lia|framed|lia].
Qed.

Lemma scan_interpolated_inner_moves s :
  interpolation_depth s = level -> starts_with (drop (Z.to_nat (cursor s)) text) f_quote = true ->
  moves (scan_interpolated_inner source limits is_xid_start is_xid_continue nfc interpolated) s.
Proof.
  intros Hlevel Hs d Q G HQ. unfold scan_interpolated_inner. wp_step. apply wp_reads.
  destruct (at_char_prefix _ _ _ (good_cursor _ _ _ _ _ G) Hs eq_refl) as [Ha _]. change (len f_quote) with 2 in Ha.
  wp_step. eapply (wp_advance_by source limits); [done|done|]. intros s1 G1 M1. pose proof (moved_cursor _ _ _ M1) as E1.
  wp_step. apply wp_reads. wp_step.
  eapply wp_push_literal; [done|done|done|done|apply G|lia|]. intros s2 G2 S2. assert (E2 : cursor s2 = cursor s1) by framed.
  wp_step. apply (wp_cursor_loop source (fun start s3 => good start d s3 /\ at_char text start /\ start <= cursor s3
    /\ flat s s3 /\ cursor s < cursor s3)).
  - intros start s3 (G3 & _). apply at_char_le, G3.
  - intros start s3 (G3 & Ha3 & Hle3 & F3 & Hlt3).
    eapply wp_scan_interpolated_turn; [|done|done|done| |].
    + destruct F3 as [[? _] _]. congruence.
    + intros start' s4 G4 Ha4 Hle4 F4 Hlt4. split_and!; [done|done|done|framed|lia|lia].
    + intros start' b s4 G4 Ha4 Hle4 F4 Hlt4. wp_step. apply wp_reads. wp_step.
      eapply wp_push_interpolation_text; [done|done|done|]. intros s5 G5 S5. assert (E5 : cursor s5 = cursor s4) by framed.
      destruct b; [apply wp_mret, HQ; [done|lia|framed]|].
      eapply wp_unterminated; [done|done|apply G|lia|]. intros s6 G6 S6. assert (E6 : cursor s6 = cursor s5) by framed.
      apply HQ; [by rewrite E6|lia|framed].
  - split_and!; [by rewrite <- E2|apply G1|lia|framed|lia].
Qed.
End nested.

(** With more fuel than the nesting limit leaves levels, the recursion does not
    run out. *)
Lemma scan_interpolated_fuel_moves fuel s :
  interpolation_depth s <= limit_nesting_depth limits ->
  limit_nesting_depth limits - interpolation_depth s < Z.of_nat fuel ->
  starts_with (drop (Z.to_nat (cursor s)) text) f_quote = true ->
  moves (scan_interpolated_fuel source limits is_xid_start is_xid_continue nfc fuel) s.
Proof.
  revert s. induction fuel as [|fuel IH]; intros s Hdepth Hfuel Hs d Q G HQ; [lia|].
  cbn [scan_interpolated_fuel]. wp_step. apply wp_get_state. wp_step. apply wp_reject_if; [done|].
  intros Hn%Z.leb_gt. wp_step. apply wp_update. wp_step.
  eapply (scan_interpolated_inner_moves _ (interpolation_depth s + 1)).
  - intros s1 Hlevel Hs1. apply IH; [lia|lia|done].
  - done.
  - done.
  - by apply good_with_interpolation.
  - intros s1 G1 H1 [[P1 T1] I1]. simpl in H1, P1, T1, I1. apply wp_update, HQ.
    + by apply good_with_interpolation.
    + done.
    + split; [split|]; simpl; [lia|lia|done].
Qed.

Lemma scan_interpolated_moves s :
  interpolation_depth s = 0 -> starts_with (drop (Z.to_nat (cursor s)) text) f_quote = true ->
  moves (scan_interpolated source limits is_xid_start is_xid_continue nfc) s.
Proof.
  destruct Hfit as (_ & _ & _ & _ & _ & Hn & _). intros H0 Hs.
  apply scan_interpolated_fuel_moves; [lia|lia|done].
Qed.
End interpolation.
