(* ===== verification/ScannerSeal.v ===== *)
(** The scanner as a whole: its invariant holds at the end, scanning ends, and
    the sealer of lexical tables and diagnostics accepts what it returns. *)

From Stdlib Require Import Strings.Byte Sorting.Sorted.
From stdpp Require Import base numbers list option strings.
From S2P Require Import Prelude Bytes Order Interrupt Text Source Diagnostics SyntaxTokens Literals Scanner LexicalTable LexicalTableSound SyntaxDiagnostics ParseLogic ScannerState ScannerLayout ScannerWords ScannerQuotes ScannerInterpolation.

#[local] Open Scope Z_scope.

(** The characters of a text lie between cursors. *)
Lemma char_indices_at text :
  utf8_valid text = true ->
  Forall (fun '(offset, c) => at_char text offset /\ at_char text (offset + len_utf8 c) /\ 1 <= len_utf8 c)
    (char_indices text).
Proof.
  intros Hv. pose proof (at_char_0 text Hv) as H0. unfold char_indices.
  assert (Hd : decodes (drop (Z.to_nat 0) text) (chars text)).
  { rewrite drop_0. apply utf8_valid_decodes in Hv as [cs Hcs]. by rewrite (decodes_chars _ _ Hcs). }
  revert H0 Hd. generalize (chars text) as cs. generalize 0 as p. intros p cs. revert p.
  induction cs as [|c cs IH]; intros p Hp Hd; simpl; [constructor|].
  inversion Hd as [|bs c' rest cs' Hn Hrest]; subst.
  assert (Hc : first_char (drop (Z.to_nat p) text) = Some c) by (unfold first_char; by rewrite Hn).
  destruct (first_char_Some _ _ _ Hp Hc) as (Hlt & Ha & Hl). constructor; [done|].
  destruct (at_char_next _ _ Hp Hlt) as (c' & tail & Hc' & Hn' & _).
  rewrite Hc in Hc'. injection Hc' as <-. rewrite Hn in Hn'. injection Hn' as ->. by apply IH.
Qed.

Section sound.
Context (source : SourceFile) (limits : ParseLimits).
Context (is_xid_start is_xid_continue : Z -> bool) (nfc : list Z -> list Z).
Context (Hsource : file_ok source) (Hfit : limits_fit limits).
Notation text := (source_text source).
Notation good := (good source limits).
Notation settled s := (good (cursor s) (open_blocks s) s).

Lemma good_new : settled new_scanner.
Proof.
  destruct Hfit as (? & ? & ? & ? & ? & ?). split; simpl; try done.
  - apply at_char_0, Hsource.
  - constructor.
  - unfold len. simpl. lia.
  - lia.
  - split; [done|repeat constructor].
  - split; simpl; [constructor|unfold len; simpl; lia|done|lia].
Qed.

(** ** The first pass *)

Lemma wp_for_each {A} (P : A -> Prop) (J : Scanner -> Prop) (xs : list A) (body : A -> scanning unit) Q s :
  Forall P xs -> J s ->
  (forall x s1 R, P x -> J s1 -> (forall s2, J s2 -> R tt s2) -> wp (body x) R s1) ->
  (forall s1, J s1 -> Q tt s1) -> wp (for_each xs body) Q s.
Proof.
  intros Hxs HJ Hbody HQ. revert s HJ. induction Hxs as [|x xs Hx Hxs IH]; intros s HJ; simpl; [by apply HQ|].
  wp_step. apply Hbody; [done|done|]. intros s2 HJ2. by apply IH.
Qed.

Lemma wp_preflight p d Q s :
  good p d s -> (forall s', good p d s' -> same s s' -> Q tt s') ->
  wp (preflight_forbidden_characters source limits) Q s.
Proof.
  intros G HQ. unfold preflight_forbidden_characters.
  eapply (wp_for_each _ (fun s1 => good p d s1 /\ same s s1));
    [exact (char_indices_at text (file_utf8 _ Hsource))|done| |].
  - intros [offset c] s1 R (Ha & Hb & Hl) [G1 S1] HR. wp_step. eapply wp_work; [done|]. intros s2 G2 S2.
    destruct (is_forbidden_raw_character c); [|apply wp_mret, HR; split; [done|framed]].
    eapply (wp_report source limits Hsource); [done| |].
    + split_and!; [done| |left; split_and!; [done|done|lia]].
      apply message_ok_app; [done|]. rewrite is_ascii_app, format_04X_ascii. done.
    + intros s3 G3 S3. apply HR. split; [done|framed].
  - intros s1 [G1 S1]. by apply HQ.
Qed.

(** ** The end *)

Definition complete (s : Scanner) : Prop :=
  lossless source {| table_tokens := tokens s; table_trivia := trivia s; table_order := order s |}
  /\ len (tokens s) <= limit_tokens limits
  /\ literal_total (tokens s) = literal_bytes s /\ literal_bytes s <= limit_literal_bytes limits
  /\ Forall (token_fits source) (tokens s) /\ layout_depth 0 (tokens s) = Some 0%nat
  /\ sink_ok source limits (sink s).

(** Closing every level that is open at the end of the text. *)
Lemma wp_close_all Q s :
  good (len text) (open_blocks s) s ->
  (forall s', good (len text) 0 s' -> Q tt s') ->
  wp (turns (S (length (indentation s))) (fun _ : unit =>
        s ← get_state;
        if len (indentation s) <=? 1 then mret (Leave tt) else
        _ ← pop_indentation;
        _ ← push_synthetic source limits Dedent (len (Scanner.text source)) None;
        _ ← push_synthetic source limits Newline (len (Scanner.text source)) (Some OriginEndOfFile);
        mret (Again tt)) tt) Q s.
Proof.
  intros G HQ. eapply (wp_turns (fun _ s1 => good (len text) (open_blocks s1) s1) (fun _ s1 => length (indentation s1)));
    [|done|lia].
  intros [] s1 G1. wp_step. apply wp_get_state. destruct (Z.leb_spec (len (indentation s1)) 1) as [Hl|Hl].
  { apply wp_mret, HQ. replace 0%nat with (open_blocks s1); [done|]. unfold open_blocks, len in *. lia. }
  wp_step. eapply wp_pop_indentation; [done|unfold len in Hl; lia|]. intros s2 G2 C2.
  destruct (open_blocks_closed _ _ _ C2) as [Ho Hle]. wp_step.
  eapply (wp_push_synthetic source limits Hsource Hfit _ _ (open_blocks s2)); [exact G2|apply at_char_end|done| |].
  { simpl. destruct (open_blocks s1); [lia|]. f_equal. lia. }
  intros s3 G3 S3. wp_step.
  eapply (wp_push_synthetic source limits Hsource Hfit _ _ (open_blocks s2)); [exact G3|apply at_char_end|done|done|].
  intros s4 G4 S4. apply wp_mret. assert (I4 : indentation s4 = indentation s2) by framed.
  destruct C2 as [_ _ _ Hlev Hroot]. unfold open_blocks in *. rewrite I4. split; [done|lia].
Qed.

Lemma wp_finish_layout Q s :
  settled s -> cursor s = len text -> (forall s', complete s' -> Q tt s') ->
  wp (finish_layout source limits) Q s.
Proof.
  intros G Hend HQ. rewrite Hend in G. unfold finish_layout. wp_step. apply wp_get_state. wp_step.
  eapply (wp_for_each _ (fun s1 => good (len text) (open_blocks s) s1 /\ same s s1));
    [exact (good_delimiters _ _ _ _ _ G)|done| |].
  { intros [c start] s1 R (Hc & Ha & Hb) [G1 S1] HR. cbn in Hc, Ha, Hb.
    eapply (wp_report source limits Hsource); [done| |].
    - split_and!; [done| |].
      + apply message_ok_app; [done|]. by rewrite is_ascii_app, format_bracket_ascii.
      + left. unfold len_utf8. rewrite (proj2 (Z.ltb_lt c 0x80)) by lia. split_and!; [done|done|lia].
    - intros s2 G2 S2. apply HR. split; [done|framed]. }
  intros s1 [G1 S1]. wp_step. apply wp_get_state. wp_step.
  assert (Hlast : forall s2, good (len text) 0 s2 -> wp (push_synthetic source limits EndOfFile (len (Scanner.text source)) None) Q s2).
  { intros s2 G2. eapply (wp_push_end source limits Hsource Hfit); [exact G2|done|].
    intros s3 ???????. apply HQ. by split_and!. }
  assert (Ho : open_blocks s = open_blocks s1) by (unfold open_blocks; destruct S1; congruence).
  rewrite Ho in G1. destruct (Z.ltb_spec 1 (len (indentation s1))) as [Hl|Hl].
  - by apply wp_close_all.
  - replace (open_blocks s1) with 0%nat in G1 by (unfold open_blocks, len in *; lia).
    case_bool_decide; [by apply wp_mret, Hlast|].
    eapply (wp_push_synthetic source limits Hsource Hfit); [exact G1|apply at_char_end|done|done|].
    intros s2 G2 _. by apply Hlast.
Qed.

(** ** The main loop *)

Lemma wp_scan_turn Q s :
  settled s -> interpolation_depth s = 0 ->
  (forall s', settled s' -> interpolation_depth s' = 0 -> cursor s < cursor s' -> Q true s') ->
  (forall s', settled s' -> cursor s' = len text -> Q false s') ->
  wp (scan_turn source limits is_xid_start is_xid_continue nfc) Q s.
Proof.
  intros G Hdepth HQ HQend. unfold scan_turn. wp_step. apply wp_at_end.
  pose proof (at_char_le _ _ (good_cursor _ _ _ _ _ G)) as Hrange.
  destruct (Z.leb_spec (len text) (cursor s)) as [Hend|Hlt]; [apply wp_mret, HQend; [done|lia]|].
  wp_step. eapply wp_work; [done|]. intros s1 G1 S1. assert (F1 : flat s s1) by framed.
  assert (E1 : cursor s1 = cursor s) by framed. rewrite <- E1, <- (open_blocks_flat _ _ F1) in G1.
  wp_step. apply wp_get_state. wp_step.
  assert (Hprefix : forall R : bool -> Scanner -> Prop,
    (forall b s2, settled s2 -> frame s s2 -> (b = true -> cursor s < cursor s2) -> cursor s <= cursor s2 -> R b s2) ->
    wp (if at_line_start s1 then scan_line_prefix source limits else mret false) R s1).
  { intros R HR. destruct (at_line_start s1); [|apply wp_mret, HR; [done|framed|done|lia]].
    eapply (wp_scan_line_prefix source limits Hsource Hfit); [done|lia|]. intros b s2 G2 F2 Hb Hle.
    apply HR; [done|framed| |lia]. intros H. apply Hb in H. lia. }
  apply Hprefix. clear Hprefix. intros [|] s2 G2 F2 Hb Hle2.
  { apply wp_mret, HQ; [done|destruct F2; congruence|by apply Hb]. }
  wp_step. apply wp_at_end.
  pose proof (at_char_le _ _ (good_cursor _ _ _ _ _ G2)) as Hrange2.
  destruct (Z.leb_spec (len text) (cursor s2)) as [Hend2|Hlt2]; [apply wp_mret, HQend; [done|lia]|].
  wp_step. eapply wp_current_char; [done|done|]. intros c Hc Ha Hcl.
  wp_step. eapply wp_remaining; [done|]. wp_step.
  assert (Hmoves : forall m, moves source limits m s2 -> wp m (fun _ s' => wp (mret true) Q s') s2).
  { intros m Hm. eapply Hm; [done|]. intros s3 G3 H3 F3. apply wp_mret, HQ.
    - by rewrite (open_blocks_flat _ _ F3).
    - destruct F3 as [[? _] _], F2. congruence.
    - lia. }
  assert (Hnewline : forall width, line_end_at source width s2 ->
    wp (scan_newline source limits width) (fun _ s' => wp (mret true) Q s') s2).
  { intros width Hw. eapply wp_scan_newline; [done|done|done|done|]. intros s3 G3 F3 H3.
    apply wp_mret, HQ; [done|destruct F3, F2; congruence|lia]. }
  destruct (char_is c " " || char_is c x09) eqn:Hsp.
  { apply Hmoves, scan_horizontal_space_moves; [done|]. unfold byte_is_space.
    apply orb_true_iff in Hsp as [H|H]; apply orb_true_iff; [left|right]; by eapply char_is_byte. }
  destruct (char_is c "#") eqn:Hhash.
  { apply Hmoves, scan_comment_moves; [done|done|].
    destruct (char_is_byte source limits _ _ _ _ _ G2 Hc Hhash eq_refl) as [Hbyte%byte_is_Some _].
    unfold byte_is_line_end, byte_is. by rewrite Hbyte. }
  destruct (char_is c x0a) eqn:Hlf.
  { apply Hnewline. destruct (char_is_byte source limits _ _ _ _ _ G2 Hc Hlf eq_refl) as [Hbyte _].
    destruct (byte_is_at_char source Hsource _ _ Hbyte eq_refl) as (_ & _ & Ha1).
    split; [done|]. split; [done|]. apply byte_is_Some in Hbyte. rewrite byte_at_lookup in Hbyte by lia.
    unfold subslice. replace (Z.to_nat (cursor s2 + 1 - cursor s2)) with 1%nat by lia.
    rewrite (drop_S _ _ _ Hbyte). right. by left. }
  destruct (char_is c x0d && starts_with _ CRLF) eqn:Hcrlf.
  { apply andb_true_iff in Hcrlf as [_ Hcrlf]. apply Hnewline.
    destruct (at_char_prefix _ _ _ (good_cursor _ _ _ _ _ G2) Hcrlf eq_refl) as [Ha2 Hsub].
    change (len CRLF) with 2 in *. split; [done|]. split; [done|]. rewrite Hsub. do 2 right. by left. }
  apply Hmoves. apply scan_literal_or_word_moves; [done|done|done|done|].
  intros Hq. apply scan_interpolated_moves; [done|done|destruct F2; congruence|done].
Qed.

Lemma wp_scan Q :
  (forall s, complete s ->
     Q {| table_tokens := tokens s; table_trivia := trivia s; table_order := order s |} s) ->
  wp (scan source limits is_xid_start is_xid_continue nfc) Q new_scanner.
Proof.
  intros HQ. unfold scan. wp_step. eapply wp_preflight; [exact good_new|]. intros s1 G1 S1.
  assert (F1 : flat new_scanner s1) by framed.
  wp_step. apply (wp_while_going source (fun s2 => settled s2 /\ interpolation_depth s2 = 0)).
  - intros s2 [G2 _]. apply at_char_le, G2.
  - intros s2 [G2 D2]. apply wp_scan_turn; [done|done| |].
    + intros s3 G3 D3 H3. done.
    + intros s3 G3 H3. wp_step. apply wp_finish_layout; [done|done|]. intros s4 C4.
      wp_step. apply wp_checkpoint, wp_reads, HQ, C4.
  - destruct S1 as [E1 I1 D1 P1 T1]. split; [|done]. rewrite E1. by rewrite (open_blocks_flat _ _ F1).
Qed.
End sound.

(** ** What the sealer accepts *)

Section seal.
Context (source : SourceFile) (limits : ParseLimits).
Context (is_xid_start is_xid_continue : Z -> bool) (nfc : list Z -> list Z).

Notation scanned := (scan_source source limits is_xid_start is_xid_continue nfc).

(** Everything the scanner guarantees of a table and its diagnostics. *)
Record scan_ok (table : LosslessLexicalTable) (ds : list Diagnostic) : Prop := {
  scan_lossless : lossless source table;
  scan_tokens : len (table_tokens table) <= limit_tokens limits;
  scan_literals : literal_total (table_tokens table) <= limit_literal_bytes limits;
  scan_fits : Forall (token_fits source) (table_tokens table);
  scan_layout : layout_depth 0 (table_tokens table) = Some 0%nat;
  scan_each : Forall (diagnostic_ok source) ds;
  scan_count : len ds <= limit_diagnostics limits;
  scan_bytes : diagnostics_size ds <= limit_diagnostic_bytes limits;
}.

Lemma scan_source_outcomes :
  file_ok source -> limits_fit limits ->
  outcomes may_abort (fun '(table, ds) => scan_ok table ds) scanned.
Proof.
  intros Hsource Hfit. unfold scan_source. rewrite outcomes_bind.
  eapply outcomes_mono; [|apply (wp_scan source limits is_xid_start is_xid_continue nfc Hsource Hfit
    (fun table s => scan_ok table (sink_diagnostics (sink s))))].
  - by intros [table s].
  - intros s (H1 & H2 & H3 & H4 & H5 & H6 & [H7 H8 H9 H10]). split; simpl; try done; lia.
Qed.

(** C12: whatever cancels the scanner and whatever allocation fails, scanning a file
    of the source database ends, with a table or with cancellation or an
    exhausted limit: its loops and the recursion into interpolated strings are
    bounded, it slices text only between characters, and none of its internal
    invariants fails. *)
Theorem scan_source_ends env :
  file_ok source -> limits_fit limits ->
  match fst (run env Interrupt.start scanned) with
  | Ok _ => True
  | Err (ParseFailed ParseCancelled) | Err (ParseFailed (ParseResourceLimit _ _)) => True
  | Err _ => False
  end.
Proof.
  intros Hsource Hfit. pose proof (outcomes_run _ env Interrupt.start _ _ (scan_source_outcomes Hsource Hfit)) as H.
  destruct (fst (run env Interrupt.start scanned)) as [|[[]|]]; done.
Qed.

(** C5: the sealer accepts every table the scanner returns, so the table is
    lossless: laid side by side its tokens and trivia are the whole text. *)
Theorem scan_source_sealed env table ds :
  file_ok source -> limits_fit limits ->
  fst (run env Interrupt.start scanned) = Ok (table, ds) ->
  validate_lexical_table source table true limits
    = Ok (len (table_tokens table), literal_total (table_tokens table))
  /\ concat (element_text source table <$> table_order table) = source_text source.
Proof.
  intros Hsource Hfit H. pose proof (outcomes_run _ env Interrupt.start _ _ (scan_source_outcomes Hsource Hfit)) as Ho.
  rewrite H in Ho. destruct Ho. split; [by eapply validate_ok|by apply lossless_text].
Qed.

(** The texts a physical token may stand for, read off the token alone. *)
Definition token_texts (t : Token) : list str :=
  match token_spelling t with
  | Some spelling => [spelling]
  | None => kind_texts (token_kind t)
  end.

Definition text_of (t : Token) : str :=
  subslice (source_text source) (start_ (range (token_span t))) (end_ (range (token_span t))).

(** C18: what a token of the scanner's table says agrees with the text it lies
    on: a physical token lies on its spelling if it keeps one and otherwise on one
    of the texts of its kind (newlines have three), a synthetic one lies on
    nothing; no physical identifier is spelled like a keyword, and every block
    that is opened is closed. *)
Theorem scan_source_tokens env table ds :
  file_ok source -> limits_fit limits ->
  fst (run env Interrupt.start scanned) = Ok (table, ds) ->
  layout_depth 0 (table_tokens table) = Some 0%nat
  /\ forall t, t ∈ table_tokens table ->
     if synthetic t then text_of t = []
     else text_of t ∈ token_texts t
          /\ (token_kind t = Identifier -> token_spelling t = Some (text_of t) /\ keyword (text_of t) = None).
Proof.
  intros Hsource Hfit H. pose proof (outcomes_run _ env Interrupt.start _ _ (scan_source_outcomes Hsource Hfit)) as Ho.
  rewrite H in Ho. destruct Ho as [Hl _ _ Hf Hd _ _ _]. split; [done|].
  intros t Ht. rewrite Forall_forall in Hf. pose proof (Hf t Ht) as Hft.
  apply list_elem_of_lookup_1 in Ht as [i Hi].
  destruct (tiled_tokens _ _ _ _ _ _ _ (covers_tiled _ _ _ Hl) Hi) as (_ & a & b & Ha & [Hspan Hm _ _ _ Hsp]).
  destruct Hspan as (_ & Es & Ee & Hle & _). unfold token_fits, text_of, spelled, token_texts in *.
  rewrite Es, Ee in *. destruct (synthetic t).
  - symmetry in Hm. apply Z.eqb_eq in Hm as ->. unfold subslice. by rewrite Z.sub_diag.
  - specialize (Hft eq_refl) as [Htexts Hid]. destruct (carries_spelling (token_kind t)) eqn:Hc.
    + destruct Hsp as (spelling & -> & Hs). rewrite (Hs eq_refl) in *. split; [by left|]. intros Hk. by apply Hid in Hk.
    + rewrite Hsp. split; [by apply Htexts|]. intros Hk. by rewrite Hk in Hc.
Qed.

(** ** Diagnostics *)

Lemma diagnostic_ok_accepted d :
  file_ok source -> ~ has_tab source -> diagnostic_ok source d ->
  diagnostic_malformed source d = Ok false
  /\ exists c, diagnostic_strings d = [message d; c] /\ diagnostic_size d = len (message d) + len c.
Proof.
  intros Hsource Hno [Hmsg (c & Hc & Hcode & [(a & b & Ha & Hs)|[Htab _]]) (E1 & E2 & E3 & E4 & E5)]; [|done].
  unfold diagnostic_malformed, diagnostic_strings, diagnostic_size. rewrite Hc, E1, E2, E3, E4, E5.
  rewrite message_not_blank by done. pose proof Hs as (_ & Es & Ee & _). unfold bad_span. cbn.
  rewrite (proj2 (valid_span_true source (primary d) ltac:(lia))) by (by rewrite Es, Ee). cbn.
  rewrite Hcode. split; [done|by eexists].
Qed.

Lemma count_bytes_quiet bytes values :
  0 <= bytes -> bytes + foldr (fun v n => len v + n) 0 values < 2 ^ 64 ->
  quiet (count_bytes limits bytes values) = Ok (bytes + foldr (fun v n => len v + n) 0 values).
Proof.
  revert bytes. induction values as [|v values IH]; intros bytes Hb Hlt; cbn [count_bytes foldr] in *.
  { by rewrite Z.add_0_r. }
  pose proof (len_nonneg v). assert (Hrest : 0 <= foldr (fun v n => len v + n) 0 values).
  { clear. induction values as [|w values IH]; simpl; [lia|]. pose proof (len_nonneg w). lia. }
  rewrite run_poll, (run_ok_or _ _ _ (bytes + len v)) by (apply checked_add_Some; lia).
  rewrite IH by lia. f_equal. lia.
Qed.

Lemma diagnostic_size_nonneg d : 0 <= diagnostic_size d.
Proof. unfold diagnostic_size. pose proof (len_nonneg (message d)). destruct (code d) as [c|]; [pose proof (len_nonneg c)|]; lia. Qed.
Lemma diagnostics_size_nonneg ds : 0 <= diagnostics_size ds.
Proof. induction ds as [|d ds IH]; simpl; [lia|]. pose proof (diagnostic_size_nonneg d). lia. Qed.

Lemma check_diagnostics_quiet bytes ds :
  file_ok source -> ~ has_tab source -> Forall (diagnostic_ok source) ds ->
  0 <= bytes -> bytes + diagnostics_size ds < 2 ^ 64 ->
  quiet (check_diagnostics source limits bytes ds) = Ok (bytes + diagnostics_size ds).
Proof.
  intros Hsource Hno Hds. revert bytes. induction Hds as [|d ds Hd Hds IH]; intros bytes Hb Hlt;
    cbn [check_diagnostics diagnostics_size foldr] in *; [by rewrite Z.add_0_r|].
  fold (diagnostics_size ds) in *. pose proof (diagnostics_size_nonneg ds). pose proof (diagnostic_size_nonneg d).
  destruct (diagnostic_ok_accepted d Hsource Hno Hd) as (Hm & c & Hstrings & Hsize).
  rewrite run_poll, (run_lift _ _ false), run_fail_if, Hstrings by done.
  rewrite (run_ok _ _ (bytes + diagnostic_size d)), IH by (try rewrite count_bytes_quiet; cbn [foldr]; lia || f_equal; lia).
  f_equal. lia.
Qed.

(** The sealer has room for what the scanner reports. *)
Lemma validate_diagnostics_quiet ds :
  file_ok source -> limits_fit limits -> ~ has_tab source -> Forall (diagnostic_ok source) ds ->
  len ds <= limit_diagnostics limits -> diagnostics_size ds <= limit_diagnostic_bytes limits ->
  quiet (validate_parse_diagnostics source limits ds) = Ok (sort_unstable ds, len ds, diagnostics_size ds).
Proof.
  intros Hsource (_ & _ & _ & Hd & Hb & _) Hno Hds Hcount Hsize. unfold validate_parse_diagnostics.
  pose proof (diagnostics_size_nonneg ds). pose proof (len_nonneg ds).
  rewrite run_fail_if by (apply Z.ltb_ge; lia).
  rewrite (run_ok _ _ (0 + diagnostics_size ds)) by (apply check_diagnostics_quiet; done || lia).
  rewrite Z.add_0_l, run_fail_if by (apply Z.ltb_ge; lia).
  rewrite (run_ok _ _ (sort_unstable ds)) by (rewrite quiet_map_errM, canonicalize_quiet by (unfold usize; lia); done).
  assert (Hlen : len (sort_unstable ds) = len ds).
  { unfold len. f_equal. apply Permutation_length. apply sort_unstable_perm. }
  rewrite Hlen. by rewrite (run_ok_or _ _ _ (len ds)) by (apply try_u32_Some; unfold u32_max; split; [lia|done]).
Qed.

(** A cancelled sealer says so; one that finds no memory reports the limit on
    diagnostics. *)
Definition seal_blame (q : query) (e : abort) : Prop :=
  match q with
  | Poll => e = ParseFailed ParseCancelled
  | Reserve => e = ParseFailed (ParseResourceLimit "diagnostics" (limit_diagnostics limits))
  end.

#[export] Instance poll_seal_blames : blames seal_blame (poll (ParseFailed ParseCancelled)).
Proof. by apply blames_poll. Qed.
#[export] Instance count_bytes_blames bytes values : blames seal_blame (count_bytes limits bytes values).
Proof. revert bytes. induction values as [|v values IH]; intros bytes; cbn [count_bytes]; apply _. Qed.
#[export] Instance check_diagnostics_blames bytes ds : blames seal_blame (check_diagnostics source limits bytes ds).
Proof. revert bytes. induction ds as [|d ds IH]; intros bytes; cbn [check_diagnostics]; apply _. Qed.
#[export] Instance validate_diagnostics_blames ds : blames seal_blame (validate_parse_diagnostics source limits ds).
Proof.
  unfold validate_parse_diagnostics. do 3 (apply blames_bind; [apply _|intros ?]). apply blames_bind; [|apply _].
  eapply blames_map_errM; [apply canonicalize_blames|]. by intros [] [].
Qed.

(** C28: for a text without tabs, the sealer accepts the scanner's diagnostics too.
    It returns them in canonical order with their count and size, whenever it is
    not interrupted; it reports cancellation only when it was cancelled, a limit
    only when the memory for sorting them was refused, and nothing else. *)
Theorem scan_source_diagnostics env env' table ds :
  file_ok source -> limits_fit limits -> ~ has_tab source ->
  fst (run env Interrupt.start scanned) = Ok (table, ds) ->
  match fst (run env' Interrupt.start (validate_parse_diagnostics source limits ds)) with
  | Ok (sorted, count, bytes) => sorted = sort_unstable ds /\ count = len ds /\ bytes = diagnostics_size ds
  | Err (ParseFailed ParseCancelled) => interrupts env' Poll
  | Err (ParseFailed (ParseResourceLimit _ _)) => interrupts env' Reserve
  | Err _ => False
  end.
Proof.
  intros Hsource Hfit Hno H. pose proof (outcomes_run _ env Interrupt.start _ _ (scan_source_outcomes Hsource Hfit)) as Ho.
  rewrite H in Ho. destruct Ho as [_ _ _ _ _ Hd Hc Hb].
  destruct (run_blames seal_blame env' Interrupt.start (validate_parse_diagnostics source limits ds) _)
    as [->|(q & e & -> & He & Hq)]; [by rewrite validate_diagnostics_quiet|].
  destruct q; simpl in He; by subst e.
Qed.
End seal.
