(* ===== verification/ScannerExample.v ===== *)
(** The scanner on concrete texts: witnesses of its theorems, and a text with
    tabs whose diagnostic the sealer rejects. *)

From Stdlib Require Import Strings.Byte.
From stdpp Require Import base numbers list option strings.
From S2P Require Import Prelude Bytes Order Interrupt Text Source Diagnostics SyntaxTokens Literals Scanner LexicalTable LexicalTableSound SyntaxDiagnostics ParseLogic ScannerState ScannerSeal.

#[local] Open Scope Z_scope.

(** The ASCII part of the Unicode tables, and texts in normal form C. *)
Definition ascii_start (c : Z) : bool := between 0x41 0x5A c || between 0x61 0x7A c.
Definition ascii_continue (c : Z) : bool := ascii_start c || between 0x30 0x39 c || (c =? 0x5F).
Definition already_nfc (cs : list Z) : list Z := cs.

Definition source_of (text : str) : SourceFile := {|
  source_id := {| file_id := 0 |}; source_path := ascii "main.wr"; source_text := text;
  source_digest := source_digest sample_file;
  line_starts := 0 :: line_starts_from (len text) 0 text |}.

Notation scan_text text :=
  (scan_source (source_of text) ParseLimits_standard ascii_start ascii_continue already_nfc) (only parsing).

Lemma source_of_ok text : utf8_valid text = true -> len text <=? u32_max = true -> file_ok (source_of text).
Proof. intros Hv Hl%Z.leb_le. by split. Qed.

Lemma standard_fits : limits_fit ParseLimits_standard.
Proof. unfold limits_fit. cbn. repeat split; intros ?; discriminate. Qed.

(** A function with a hanging header, a comment, an interpolated string and a
    bracket that is not closed. *)
Definition sample : str :=
  ascii "pub fn main(a: u8)" ++ [x0a] ++ ascii "    -> u8:" ++ [x0a]
  ++ ascii "    x = f" ++ [x22] ++ ascii "hi {a + 0x1F:04}" ++ [x22] ++ [x0a]
  ++ ascii "    # done" ++ CRLF ++ ascii "y = [1,".

Definition sample_result : LosslessLexicalTable * list Diagnostic :=
  Eval vm_compute in match quiet (scan_text sample) with
                     | Ok r => r
                     | Err _ => ({| table_tokens := []; table_trivia := []; table_order := [] |}, [])
                     end.

Lemma sample_run : fst (run calm Interrupt.start (scan_text sample)) = Ok (sample_result.1, sample_result.2).
Proof. vm_compute. reflexivity. Qed.

Lemma sample_ok : file_ok (source_of sample).
Proof. apply source_of_ok; vm_compute; reflexivity. Qed.

Example scan_source_ends_witness :
  len (table_tokens sample_result.1) = 34
  /\ match fst (run calm Interrupt.start (scan_text sample)) with
     | Ok _ => True
     | Err (ParseFailed ParseCancelled) | Err (ParseFailed (ParseResourceLimit _ _)) => True
     | Err _ => False
     end.
Proof.
  split; [vm_compute; reflexivity|].
  exact (scan_source_ends (source_of sample) ParseLimits_standard ascii_start ascii_continue already_nfc calm
    sample_ok standard_fits).
Defined.

Example scan_source_sealed_witness :
  validate_lexical_table (source_of sample) sample_result.1 true ParseLimits_standard
    = Ok (len (table_tokens sample_result.1), literal_total (table_tokens sample_result.1))
  /\ concat (element_text (source_of sample) sample_result.1 <$> table_order sample_result.1)
     = source_text (source_of sample).
Proof.
  exact (scan_source_sealed (source_of sample) ParseLimits_standard ascii_start ascii_continue already_nfc calm
    sample_result.1 sample_result.2 sample_ok standard_fits sample_run).
Defined.

Example scan_source_tokens_witness :
  layout_depth 0 (table_tokens sample_result.1) = Some 0%nat
  /\ forall t, t ∈ table_tokens sample_result.1 ->
     if synthetic t then text_of (source_of sample) t = []
     else text_of (source_of sample) t ∈ token_texts t
          /\ (token_kind t = Identifier -> token_spelling t = Some (text_of (source_of sample) t)
              /\ keyword (text_of (source_of sample) t) = None).
Proof.
  exact (scan_source_tokens (source_of sample) ParseLimits_standard ascii_start ascii_continue already_nfc calm
    sample_result.1 sample_result.2 sample_ok standard_fits sample_run).
Defined.

Example scan_source_diagnostics_witness :
  (exists sorted count bytes,
     fst (run calm Interrupt.start (validate_parse_diagnostics (source_of sample) ParseLimits_standard sample_result.2))
     = Ok (sorted, count, bytes) /\ count = 1)
  /\ match fst (run calm Interrupt.start
                  (validate_parse_diagnostics (source_of sample) ParseLimits_standard sample_result.2)) with
     | Ok (sorted, count, bytes) => sorted = sort_unstable sample_result.2 /\ count = len sample_result.2
                                    /\ bytes = diagnostics_size sample_result.2
     | Err (ParseFailed ParseCancelled) => interrupts calm Poll
     | Err (ParseFailed (ParseResourceLimit _ _)) => interrupts calm Reserve
     | Err _ => False
     end.
Proof.
  split; [eexists _, _, _; split; vm_compute; reflexivity|].
  refine (scan_source_diagnostics (source_of sample) ParseLimits_standard ascii_start ascii_continue already_nfc calm
    calm sample_result.1 sample_result.2 sample_ok standard_fits _ sample_run).
  exact (proj1 (bool_decide_eq_false _) (eq_refl : bool_decide (x09 ∈ source_text (source_of sample)) = false)).
Defined.

Lemma all_nonneg {A} (f : A -> Z) xs : forallb (fun x => 0 <=? f x) xs = true -> Forall (fun x => 0 <= f x) xs.
Proof.
  rewrite forallb_forall. intros H. apply Forall_forall. intros x Hx. apply Z.leb_le, H. by apply list_elem_of_In.
Qed.

Example validate_lexical_table_exact_witness :
  exists c, covers (source_of sample) sample_result.1 c /\ c = len (source_text (source_of sample)).
Proof.
  assert (H : unsigned_spans sample_result.1) by (split; apply all_nonneg; vm_compute; reflexivity).
  destruct (proj1 (validate_lexical_table_exact (source_of sample) sample_ok sample_result.1 true
    ParseLimits_standard 34 (literal_total (table_tokens sample_result.1)) standard_fits H)) as (c & Hc & Hall & _);
    [vm_compute; reflexivity|].
  exists c. split; [exact Hc|exact (Hall eq_refl)].
Defined.

(** ** Tabs

    The indentation of a line is measured in columns, of which a tab takes four,
    but the diagnostic about it is placed that many bytes before the line's
    code. Behind a line with characters of several bytes it may start inside one
    of them, and the sealer then rejects the whole parse as malformed. *)

Definition tabbed : str :=
  ascii "# aa" ++ [xc3; xa9] ++ ascii "bbbb" ++ [x0a; x09; x09] ++ ascii "x" ++ [x0a].

Theorem column_diagnostic_splits_character :
  file_ok (source_of tabbed)
  /\ exists table ds, quiet (scan_text tabbed) = Ok (table, ds)
     /\ (exists d, d ∈ ds /\ code d = Some (ascii "syntax-invalid-indentation")
         /\ slice (source_of tabbed) (range (primary d)) = Ok None)
     /\ quiet (validate_parse_diagnostics (source_of tabbed) ParseLimits_standard ds)
        = Err (ParseFailed (InternalInvariant "parser diagnostic is malformed or refers outside its source")).
Proof.
  split; [apply source_of_ok; vm_compute; reflexivity|].
  eexists _, _. split; [vm_compute; reflexivity|]. split; [|vm_compute; reflexivity].
  eexists. split; [right; left|]. split; vm_compute; reflexivity.
Qed.
