(* ===== verification/Wire.v ===== *)
(** The wire format in which the frontend hands FlowWir to the backend: the
    limits, errors and frame data of [src/crates/wrela-flow-wir-codec/src/lib.rs],
    and what writer and reader of [src/crates/wrela-flow-wir-codec/src/canonical.rs]
    share: the meter of decoded data and the copying of text and bytes. *)

From Stdlib Require Import Strings.Byte.
From stdpp Require Import base numbers list option strings.
From S2P Require Import Prelude Bytes Interrupt Text BuildModel FlowWir Optimizer FlowContext.

#[local] Open Scope Z_scope.

Definition FLOW_WIR_VERSION : Z := 19.
Definition FLOW_WIR_WIRE_VERSION : Z := 19.
Definition FLOW_WIR_MAGIC : list byte := ascii "WRELFLO" ++ [x00].
Definition CANCELLABLE_CODEC_CHUNK_BYTES : Z := 64 * 1024.

(** ** Limits and errors *)

Record CodecLimits := {
  codec_frame_bytes : Z;
  codec_string_bytes : Z;
  codec_vector_items : Z;
  codec_functions : Z;
  codec_tests : Z;
  codec_blocks : Z;
  codec_instructions : Z;
  codec_nesting_depth : Z;
  codec_validation_work : Z;
  codec_validation_errors : Z;
  codec_test_plan : TestPlanLimits;
}.

(** [CodecLimits::standard]. *)
Definition CodecLimits_standard : CodecLimits := {|
  codec_frame_bytes := 4 * 1024 * 1024 * 1024;
  codec_string_bytes := 1024 * 1024;
  codec_vector_items := 16000000;
  codec_functions := 1000000;
  codec_tests := 1000000;
  codec_blocks := 16000000;
  codec_instructions := 256000000;
  codec_nesting_depth := 1024;
  codec_validation_work := 1100000000000;
  codec_validation_errors := 100000;
  codec_test_plan := TestPlanLimits_standard;
|}.

Inductive CodecError :=
| CodecCancelled
| CodecInvalidLimits
| InvalidMagic
| UnsupportedWireVersion (version : Z)
| UnsupportedFlowWirVersion (version : Z)
| BuildIdentityMismatch
| CodecUnexpectedEnd
| CodecInvalidUtf8
| CodecInvalidEnumTag (kind : string) (tag : Z)
| NonCanonical (reason : string)
| LengthOverflow
| AllocationFailed
| CodecResourceLimit (resource : string) (limit actual : Z)
| ValidationResourceLimit (resource : string) (limit : Z)
| CodecTrailingBytes
| InvalidFlowWir (errors : list ValidationError).

(** [CodecLimits::validate]. *)
Definition CodecLimits_validate (l : CodecLimits) : result CodecError unit :=
  guard_err ((codec_frame_bytes l =? 0) || (codec_string_bytes l =? 0) || (codec_vector_items l =? 0)
             || (codec_functions l =? 0) || (codec_tests l =? 0) || (codec_blocks l =? 0)
             || (codec_instructions l =? 0) || (codec_nesting_depth l =? 0)
             || (1024 <? codec_nesting_depth l) || (codec_validation_work l =? 0)
             || (codec_validation_errors l =? 0) || negb (is_valid (codec_test_plan l)))
    CodecInvalidLimits.

Definition flow_validation_limits (l : CodecLimits) : ValidationLimits := {|
  arena_records := codec_vector_items l;
  limit_edges := codec_vector_items l;
  limit_payload := codec_frame_bytes l;
  FlowContext.validation_work := codec_validation_work l;
  limit_errors := codec_validation_errors l;
  limit_test_plan := codec_test_plan l;
|}.

Definition map_validation_failure (error : ValidationFailure) : CodecError :=
  match error with
  | FailureInvalidLimits => CodecInvalidLimits
  | FailureCancelled => CodecCancelled
  | FailureResourceLimit resource limit => ValidationResourceLimit resource limit
  | FailureInvalid errors => InvalidFlowWir errors
  end.

(** ** Frames *)

Record WireHeader := {
  wire_version : Z;
  flow_wir_version : Z;
  header_payload_bytes : Z;
  header_build : BuildIdentity;
}.

Record EncodedFlowWirCandidate := { candidate_header : WireHeader; candidate_bytes : list byte }.

(** ** Cancellation and comparison *)

Definition check_cancelled : prog CodecError unit := poll CodecCancelled.

(** The loop of [bytes_equal] over the pieces of both sides, paired by [zip]. *)
Fixpoint pieces_equal (pairs : list (list byte * list byte)) : prog CodecError bool :=
  match pairs with
  | [] => _ ← check_cancelled; mret true
  | (left_, right_) :: pairs =>
      _ ← check_cancelled;
      if bool_decide (left_ = right_) then pieces_equal pairs else mret false
  end.

Definition bytes_equal (left right : list byte) : prog CodecError bool :=
  _ ← check_cancelled;
  if negb (len left =? len right) then mret false else
  let size := Z.to_nat CANCELLABLE_CODEC_CHUNK_BYTES in
  pieces_equal (zip (chunks size left) (chunks size right)).

Definition text_equal (left right : str) : prog CodecError bool := bytes_equal left right.

Definition build_identity_equal (left right : BuildIdentity) : prog CodecError bool :=
  _ ← check_cancelled;
  if bool_decide (compiler left = compiler right) && bool_decide (language left = language right) then
    same_target ← text_equal (target_as_str (target left)) (target_as_str (target right));
    mret (same_target
          && bool_decide (target_package left = target_package right)
          && bool_decide (standard_library left = standard_library right)
          && bool_decide (source_graph left = source_graph right)
          && bool_decide (request left = request right)
          && bool_decide (profile_digest left = profile_digest right))
  else mret false.

Definition wire_header_equal (left right : WireHeader) : prog CodecError bool :=
  _ ← check_cancelled;
  if (wire_version left =? wire_version right) && (flow_wir_version left =? flow_wir_version right)
     && (header_payload_bytes left =? header_payload_bytes right)
  then build_identity_equal (header_build left) (header_build right)
  else mret false.

Definition encoded_candidate_equal (left right : EncodedFlowWirCandidate) : prog CodecError bool :=
  same ← wire_header_equal (candidate_header left) (candidate_header right);
  if same : bool then bytes_equal (candidate_bytes left) (candidate_bytes right) else mret false.

(** ** The meter *)

Definition enforce (resource : string) (limit actual : Z) : result CodecError unit :=
  guard_err (limit <? actual) (CodecResourceLimit resource limit actual).

Record Meter := {
  metered_strings : Z;
  metered_items : Z;
  metered_functions : Z;
  metered_blocks : Z;
  metered_instructions : Z;
  metered_tests : Z;
}.

Definition Meter_default : Meter := {|
  metered_strings := 0; metered_items := 0; metered_functions := 0; metered_blocks := 0;
  metered_instructions := 0; metered_tests := 0 |}.

Inductive VectorKind := General | Functions | Blocks | Instructions | Tests.

(** [Meter::charge_string]. *)
Definition charge_string (amount : Z) (resource : string) (limit : Z) (m : Meter)
    : result CodecError Meter :=
  next ← ok_or (checked_add 64 (metered_strings m) amount) LengthOverflow;
  _ ← enforce resource limit next;
  Ok {| metered_strings := next; metered_items := metered_items m;
        metered_functions := metered_functions m; metered_blocks := metered_blocks m;
        metered_instructions := metered_instructions m; metered_tests := metered_tests m |}.

(** The part of [Meter::charge_vector] that counts what the vector holds. *)
Definition charge_kind (amount : Z) (kind : VectorKind) (limits : CodecLimits) (m : Meter)
    : result CodecError Meter :=
  let count counter limit resource :=
    next ← ok_or (checked_add 64 counter amount) LengthOverflow;
    _ ← enforce resource limit next; Ok next in
  match kind with
  | General => Ok m
  | Functions =>
      next ← count (metered_functions m) (codec_functions limits) "functions";
      Ok {| metered_strings := metered_strings m; metered_items := metered_items m;
            metered_functions := next; metered_blocks := metered_blocks m;
            metered_instructions := metered_instructions m; metered_tests := metered_tests m |}
  | Blocks =>
      next ← count (metered_blocks m) (codec_blocks limits) "blocks";
      Ok {| metered_strings := metered_strings m; metered_items := metered_items m;
            metered_functions := metered_functions m; metered_blocks := next;
            metered_instructions := metered_instructions m; metered_tests := metered_tests m |}
  | Instructions =>
      next ← count (metered_instructions m) (codec_instructions limits) "instructions";
      Ok {| metered_strings := metered_strings m; metered_items := metered_items m;
            metered_functions := metered_functions m; metered_blocks := metered_blocks m;
            metered_instructions := next; metered_tests := metered_tests m |}
  | Tests =>
      next ← count (metered_tests m) (codec_tests limits) "tests";
      Ok {| metered_strings := metered_strings m; metered_items := metered_items m;
            metered_functions := metered_functions m; metered_blocks := metered_blocks m;
            metered_instructions := metered_instructions m; metered_tests := next |}
  end.

(** [Meter::charge_vector]. *)
Definition charge_vector (amount : Z) (kind : VectorKind) (limits : CodecLimits) (m : Meter)
    : result CodecError Meter :=
  next ← ok_or (checked_add 64 (metered_items m) amount) LengthOverflow;
  _ ← enforce "aggregate vector items" (codec_vector_items limits) next;
  charge_kind amount kind limits
    {| metered_strings := metered_strings m; metered_items := next;
       metered_functions := metered_functions m; metered_blocks := metered_blocks m;
       metered_instructions := metered_instructions m; metered_tests := metered_tests m |}.

(** ** Copies *)

(** [while end > start && source[end] & 0xC0 == 0x80 { end -= 1; }] over
    [end - start]. *)
Fixpoint back_up (source : list byte) (start : Z) (width : nat) : Z :=
  match width with
  | O => start
  | S before =>
      let end_ := start + Z.of_nat width in
      match source !! Z.to_nat end_ with
      | Some b => if Z.land (Z_of_byte b) 0xC0 =? 0x80 then back_up source start before else end_
      | None => end_
      end
  end.

(** The end of the piece of [copy_utf8] that begins at [start]. *)
Definition piece_end (source : list byte) (start : Z) : Z :=
  let end_ := match checked_add usize start CANCELLABLE_CODEC_CHUNK_BYTES with
              | Some end_ => Z.min end_ (len source)
              | None => len source
              end in
  if end_ <? len source then back_up source start (Z.to_nat (end_ - start)) else end_.

(** Every turn copies at least one byte: the length is enough fuel. *)
Fixpoint copy_utf8_loop (fuel : nat) (source : list byte) (start : Z) (output : str)
    : prog CodecError str :=
  if start <? len source then
    match fuel with
    | O => Throw CodecInvalidUtf8
    | S fuel =>
        _ ← check_cancelled;
        let end_ := piece_end source start in
        _ ← fail_if (end_ =? start) CodecInvalidUtf8;
        let chunk := take (Z.to_nat (end_ - start)) (drop (Z.to_nat start) source) in
        _ ← fail_if (negb (utf8_valid chunk)) CodecInvalidUtf8;
        copy_utf8_loop fuel source end_ (output ++ chunk)
    end
  else mret output.

Definition copy_utf8 (source : list byte) : prog CodecError str :=
  _ ← check_cancelled;
  _ ← try_reserve AllocationFailed;
  output ← copy_utf8_loop (length source) source 0 [];
  _ ← check_cancelled;
  mret output.

(** The loops that copy a slice in cancellable pieces. *)
Fixpoint push_pieces (output : list byte) (pieces : list (list byte)) : prog CodecError (list byte) :=
  match pieces with
  | [] => mret output
  | chunk :: pieces => _ ← check_cancelled; push_pieces (output ++ chunk) pieces
  end.

Definition copy_bytes (source : list byte) : prog CodecError (list byte) :=
  _ ← check_cancelled;
  _ ← try_reserve AllocationFailed;
  output ← push_pieces [] (chunks (Z.to_nat CANCELLABLE_CODEC_CHUNK_BYTES) source);
  _ ← check_cancelled;
  mret output.

Definition clone_build_identity (build : BuildIdentity) : prog CodecError BuildIdentity :=
  copied ← copy_utf8 (target_as_str (target build));
  target ← lift (map_err (fun _ => NonCanonical "invalid target identity") (TargetIdentity_new copied));
  mret {| compiler := compiler build; language := language build; target := target;
          target_package := target_package build; standard_library := standard_library build;
          source_graph := source_graph build; request := request build;
          profile_digest := profile_digest build |}.

Definition invalid_tag {A} (kind : string) (tag : Z) : prog CodecError A :=
  Throw (CodecInvalidEnumTag kind tag).
