(* ===== verification/WireWriter.v ===== *)
(** The writer of the wire codec ([Writer] of
    [src/crates/wrela-flow-wir-codec/src/canonical.rs]): FlowWir, part by part,
    as bytes. [write_x] is the method [Writer::x]. *)

From Stdlib Require Import Strings.Byte.
From stdpp Require Import base numbers list option strings.
From S2P Require Import Prelude Bytes Interrupt Text BuildModel Source TestEvents FlowWir FlowModule Wire.

#[local] Open Scope Z_scope.

(** [Writer]; its limits are a parameter. *)
Record Writer := { written : list byte; writer_meter : Meter }.

Definition new_writer : Writer := {| written := []; writer_meter := Meter_default |}.

Definition writing : Type := stateT Writer (prog CodecError) unit.

(** ** Elements without a meter *)

Definition writer_poll : writing := liftS check_cancelled.

(** [for x in xs { self.poll()?; encode(self, x)?; }]. *)
Fixpoint write_each {A} (xs : list A) (encode : A -> writing) : writing :=
  match xs with
  | [] => mret tt
  | x :: xs => _ ← writer_poll; _ ← encode x; write_each xs encode
  end.

Definition writer_position : stateT Writer (prog CodecError) Z := fun w => Ret (len (written w), w).

(** [Writer::patch_u64]. *)
Definition patch_u64 (offset value : Z) : writing := fun w =>
  end_ ← lift (ok_or (checked_add usize offset 8) LengthOverflow);
  _ ← lift (ok_or (get_range (written w) offset end_) (NonCanonical "invalid payload length offset"));
  Ret (tt, {| written := take (Z.to_nat offset) (written w) ++ u64_le value
                         ++ drop (Z.to_nat end_) (written w);
              writer_meter := writer_meter w |}).

Section writer.
Context (limits : CodecLimits).

(** [Writer::reserve]. *)
Definition writer_reserve (length : Z) : writing := fun w =>
  actual ← lift (ok_or (checked_add usize (len (written w)) length) LengthOverflow);
  _ ← lift (enforce "FlowWir frame bytes" (codec_frame_bytes limits) actual);
  _ ← try_reserve AllocationFailed;
  Ret (tt, w).

Definition write_raw (value : list byte) : writing :=
  _ ← writer_poll;
  _ ← writer_reserve (len value);
  _ ← (fun w : Writer =>
         output ← push_pieces (written w) (chunks (Z.to_nat CANCELLABLE_CODEC_CHUNK_BYTES) value);
         Ret (tt, {| written := output; writer_meter := writer_meter w |}));
  writer_poll.

Definition write_u8 (value : Z) : writing := write_raw [byte_of_Z value].
Definition write_bool (value : bool) : writing := write_u8 (if value then 1 else 0).
Definition write_u16 (value : Z) : writing := write_raw (le_bytes 2 value).
Definition write_u32 (value : Z) : writing := write_raw (u32_le value).
Definition write_u64 (value : Z) : writing := write_raw (u64_le value).
Definition write_u128 (value : Z) : writing := write_raw (le_bytes 16 value).
(** [self.u32(id.0)]. *)
Definition write_id (id : N) : writing := write_u32 (Z.of_N id).
Definition write_digest (value : Sha256Digest) : writing := write_raw (as_bytes value).

(** A charge on the writer's meter. *)
Definition charging_writer (charge : Meter -> result CodecError Meter) : writing := fun w =>
  m ← lift (charge (writer_meter w));
  Ret (tt, {| written := written w; writer_meter := m |}).

Definition write_length {A} (values : list A) : writing :=
  length ← liftS (lift (ok_or (try_u32 (len values)) LengthOverflow));
  write_u32 length.

Definition write_string (value : str) : writing :=
  _ ← writer_poll;
  _ ← charging_writer (charge_string (len value) "aggregate string bytes" (codec_string_bytes limits));
  _ ← write_length value;
  _ ← write_raw value;
  writer_poll.

Definition write_bytes (value : list byte) : writing :=
  _ ← writer_poll;
  _ ← charging_writer (charge_vector (len value) General limits);
  _ ← write_length value;
  _ ← write_raw value;
  writer_poll.

Definition write_vector {A} (values : list A) (kind : VectorKind) (encode : A -> writing) : writing :=
  _ ← writer_poll;
  _ ← charging_writer (charge_vector (len values) kind limits);
  _ ← write_length values;
  write_each values encode.

Definition write_option {A} (value : option A) (encode : A -> writing) : writing :=
  match value with
  | None => write_u8 0
  | Some value => _ ← write_u8 1; encode value
  end.

Definition write_span (span : Span) : writing :=
  _ ← write_u32 (file_id (file span));
  _ ← write_u32 (start_ (range span));
  write_u32 (end_ (range span)).

Definition write_optional_span (span : option Span) : writing := write_option span write_span.
Definition write_id_vector (values : list N) : writing := write_vector values General write_id.

(** [LanguageRevision] has one value, with tag 0. *)
Definition language_tag (language : LanguageRevision) : Z := match language with Design0_1 => 0 end.

Definition write_build_identity (build : BuildIdentity) : writing :=
  _ ← write_digest (compiler build);
  _ ← write_u8 (language_tag (language build));
  _ ← write_string (target_as_str (target build));
  _ ← write_digest (target_package build);
  _ ← write_digest (standard_library build);
  _ ← write_digest (source_graph build);
  _ ← write_digest (request build);
  write_digest (profile_digest build).

(** ** Types and immediates *)

Definition write_source_summary (value : SourceSummary) : writing :=
  _ ← write_u32 (semantic_wir_version value);
  _ ← write_u32 (semantic_functions value);
  _ ← write_u32 (hir_files value);
  _ ← write_u32 (hir_declarations value);
  _ ← write_u64 (reachable_declarations value);
  _ ← write_u64 (monomorphized_instantiations value);
  write_u64 (resolved_interface_calls value).

Definition write_scalar_type (value : ScalarType) : writing :=
  match value with
  | TBool => write_u8 0
  | TInteger signed bits => _ ← write_u8 1; _ ← write_bool signed; write_u16 bits
  | TFloat32 => write_u8 2
  | TFloat64 => write_u8 3
  | TAddress => write_u8 4
  | TCharacter => write_u8 5
  end.

(** [enforce("nesting depth", limit, 2)]. *)
Definition nested_twice : result CodecError unit :=
  enforce "nesting depth" (codec_nesting_depth limits) 2.

Definition write_type_kind (value : FlowTypeKind) : writing :=
  match value with
  | KUnit => write_u8 0
  | KScalar value => _ ← write_u8 1; write_scalar_type value
  | KTuple values => _ ← write_u8 2; write_id_vector values
  | KArray element length => _ ← write_u8 3; _ ← write_id element; write_u64 length
  | KStruct fields => _ ← write_u8 4; write_id_vector fields
  | KEnum variants =>
      _ ← write_u8 5;
      _ ← liftS (lift nested_twice);
      write_vector variants General write_id_vector
  | KFunction parameters result => _ ← write_u8 6; _ ← write_id_vector parameters; write_id result
  | KRegionHandle id => _ ← write_u8 7; write_id id
  | KPoolHandle id => _ ← write_u8 8; write_id id
  | KActorHandle id => _ ← write_u8 9; write_id id
  | KTaskHandle id => _ ← write_u8 10; write_id id
  | KReservation => write_u8 11
  | KReceipt payload error => _ ← write_u8 12; _ ← write_id payload; write_id error
  | KDmaToken pool payload => _ ← write_u8 13; _ ← write_id pool; write_id payload
  | KOpaqueTarget name => _ ← write_u8 14; write_string name
  | KActivation result => _ ← write_u8 15; write_id result
  | KStaticString bytes => _ ← write_u8 16; write_u64 bytes
  | KBoundedString capacity => _ ← write_u8 17; write_u64 capacity
  | KStaticBytes bytes => _ ← write_u8 18; write_u64 bytes
  end.

Definition write_flow_type (value : FlowType) : writing :=
  _ ← write_id (type_id value);
  _ ← write_type_kind (kind value);
  _ ← write_option (type_name value) write_string;
  _ ← write_bool (copyable value);
  write_bool (strict_linear value).

Definition write_bounded_string_part (value : BoundedStringPart ValueId) : writing :=
  match value with
  | PartText value source => _ ← write_u8 0; _ ← write_string value; write_span source
  | PartBool value source => _ ← write_u8 1; _ ← write_id value; write_span source
  | PartCharacter value source => _ ← write_u8 2; _ ← write_id value; write_span source
  | PartInteger value maximum_bytes source =>
      _ ← write_u8 3; _ ← write_id value; _ ← write_u64 maximum_bytes; write_span source
  | PartStaticString value bytes source =>
      _ ← write_u8 4; _ ← write_id value; _ ← write_u64 bytes; write_span source
  end.

Definition write_immediate (value : Immediate) : writing :=
  match value with
  | ImmUnit => write_u8 0
  | ImmBool value => _ ← write_u8 1; write_bool value
  | ImmCharacter value => _ ← write_u8 9; write_u32 value
  | ImmInteger bits bytes_le => _ ← write_u8 2; _ ← write_u16 bits; write_bytes bytes_le
  | ImmFloat32 value => _ ← write_u8 3; write_u32 value
  | ImmFloat64 value => _ ← write_u8 4; write_u64 value
  | ImmBytes value => _ ← write_u8 5; write_bytes value
  | ImmZero id => _ ← write_u8 6; write_id id
  | ImmGlobalAddress id => _ ← write_u8 7; write_id id
  | ImmFunctionAddress id => _ ← write_u8 8; write_id id
  end.

Definition write_owner (value : PlanOwner) : writing :=
  match value with
  | OwnerRuntime => write_u8 0
  | OwnerActor id => _ ← write_u8 1; write_id id
  | OwnerTask id => _ ← write_u8 2; write_id id
  | OwnerDevice id => _ ← write_u8 3; write_id id
  | OwnerPool id => _ ← write_u8 4; write_id id
  | BakedArtifact id => _ ← write_u8 5; write_u32 id
  end.

Definition write_global (value : FlowGlobal) : writing :=
  _ ← write_id (global_id value);
  _ ← write_string (global_name value);
  _ ← write_id (global_ty value);
  _ ← write_immediate (initializer value);
  _ ← write_bool (mutable value);
  write_owner (global_owner value).

(** ** Operations *)

Definition write_unary_op (value : UnaryOp) : writing :=
  write_u8 (match value with Negate => 0 | BoolNot => 1 | BitNot => 2 end).

Definition write_binary_op (value : BinaryOp) : writing :=
  write_u8 (match value with
    | AddChecked => 0 | AddWrapping => 1 | SubChecked => 2 | SubWrapping => 3
    | MulChecked => 4 | MulWrapping => 5 | DivChecked => 6 | RemChecked => 7
    | BitAnd => 8 | BitOr => 9 | BitXor => 10
    | ShiftLeftChecked => 11 | ShiftRightChecked => 12
    | Equal => 13 | NotEqual => 14 | Less => 15 | LessEqual => 16 | Greater => 17 | GreaterEqual => 18
    | ShiftLeftWrapping => 19
    end).

Definition write_cast_mode (value : CastMode) : writing :=
  write_u8 (match value with CastChecked => 0 | CastExact => 1 | CastBitcast => 2 end).

Definition write_access_kind (value : AccessKind) : writing :=
  write_u8 (match value with AccessRead => 0 | AccessMutate => 1 | AccessTake => 2 end).

Definition write_dma_ownership (value : DmaOwnership) : writing :=
  write_u8 (match value with
    | DmaCpu => 0 | DmaPrepared => 1 | DmaDevice => 2 | DmaCompleted => 3 | DmaQuarantined => 4
    end).

Definition write_fence_kind (value : FenceKind) : writing :=
  write_u8 (match value with
    | FenceAcquire => 0 | FenceRelease => 1 | FenceAcquireRelease => 2
    | FenceDeviceRead => 3 | FenceDeviceWrite => 4 | FenceDeviceFull => 5
    end).

Definition write_failure_kind (value : FailureKind) : writing :=
  write_u8 (match value with
    | FailBounds => 0 | FailArithmetic => 1 | FailConversion => 2 | FailCapacity => 3
    | FailGeneration => 4 | FailDmaState => 5 | FailDeviceValue => 6 | FailCancellation => 7
    | FailDeadline => 8 | FailPeerFailure => 9 | FailTaskFailure => 10 | FailFatalTarget => 11
    end).

Definition encode_operation (value : FlowOperation ValueId) : writing :=
  match value with
  | ImmediateOp value => _ ← write_u8 0; write_immediate value
  | Unary op value => _ ← write_u8 1; _ ← write_unary_op op; write_id value
  | Binary op left_ right_ =>
      _ ← write_u8 2; _ ← write_binary_op op; _ ← write_id left_; write_id right_
  | Cast value to mode => _ ← write_u8 3; _ ← write_id value; _ ← write_id to; write_cast_mode mode
  | MakeAggregate ty fields => _ ← write_u8 4; _ ← write_id ty; write_id_vector fields
  | ExtractField aggregate field => _ ← write_u8 5; _ ← write_id aggregate; write_u32 field
  | InsertField aggregate field value =>
      _ ← write_u8 6; _ ← write_id aggregate; _ ← write_u32 field; write_id value
  | Select condition then_value else_value =>
      _ ← write_u8 7; _ ← write_id condition; _ ← write_id then_value; write_id else_value
  | BeginAccess place kind proof =>
      _ ← write_u8 8; _ ← write_id place; _ ← write_access_kind kind; write_id proof
  | EndAccess access => _ ← write_u8 9; write_id access
  | LoadOp address proof => _ ← write_u8 10; _ ← write_id address; write_id proof
  | StoreOp address value proof =>
      _ ← write_u8 11; _ ← write_id address; _ ← write_id value; write_id proof
  | Move value => _ ← write_u8 12; write_id value
  | Copy value => _ ← write_u8 13; write_id value
  | Drop value => _ ← write_u8 14; write_id value
  | Call function arguments => _ ← write_u8 15; _ ← write_id function; write_id_vector arguments
  | Allocate region ty count proof =>
      _ ← write_u8 16; _ ← write_id region; _ ← write_id ty; _ ← write_id count; write_id proof
  | RegionReset region => _ ← write_u8 17; write_id region
  | ActorReserve actor method proof =>
      _ ← write_u8 18; _ ← write_id actor; _ ← write_id method; write_id proof
  | ActorCommit reservation arguments =>
      _ ← write_u8 19; _ ← write_id reservation; write_id_vector arguments
  | ActorReject reservation => _ ← write_u8 20; write_id reservation
  | MailboxReceive actor method => _ ← write_u8 21; _ ← write_id actor; write_id method
  | ReplyResolve endpoint outcome => _ ← write_u8 22; _ ← write_id endpoint; write_id outcome
  | ReceiptCommit receipt payload => _ ← write_u8 23; _ ← write_id receipt; write_id payload
  | ReceiptResolve receipt outcome => _ ← write_u8 24; _ ← write_id receipt; write_id outcome
  | TaskAcquireSlot task proof => _ ← write_u8 25; _ ← write_id task; write_id proof
  | TaskStart slot entry arguments =>
      _ ← write_u8 26; _ ← write_id slot; _ ← write_id entry; write_id_vector arguments
  | TaskCancel task => _ ← write_u8 27; write_id task
  | Park wait_set => _ ← write_u8 28; write_id wait_set
  | Wake target => _ ← write_u8 29; write_id target
  | Checkpoint id proof => _ ← write_u8 30; _ ← write_id id; write_id proof
  | DeadlineRead => write_u8 31
  | InterruptMask => write_u8 32
  | InterruptRestore token => _ ← write_u8 33; write_id token
  | InterruptPublish cell value => _ ← write_u8 34; _ ← write_id cell; write_id value
  | MmioRead device register => _ ← write_u8 35; _ ← write_id device; write_u32 register
  | MmioWrite device register value =>
      _ ← write_u8 36; _ ← write_id device; _ ← write_u32 register; write_id value
  | Fence kind => _ ← write_u8 37; write_fence_kind kind
  | DmaTransition token device from to proof =>
      _ ← write_u8 38; _ ← write_id token; _ ← write_id device;
      _ ← write_dma_ownership from; _ ← write_dma_ownership to; write_id proof
  | QueueReserve device descriptors proof =>
      _ ← write_u8 39; _ ← write_id device; _ ← write_id descriptors; write_id proof
  | QueuePublish reservation payload => _ ← write_u8 40; _ ← write_id reservation; write_id payload
  | ValidateDeviceValue value proof => _ ← write_u8 41; _ ← write_id value; write_id proof
  | CheckOp condition failure proof =>
      _ ← write_u8 42; _ ← write_id condition; _ ← write_failure_kind failure; write_option proof write_id
  | RecordEvent kind payload => _ ← write_u8 43; _ ← write_u32 kind; write_id payload
  | ReplayEvent kind destination => _ ← write_u8 44; _ ← write_u32 kind; write_id destination
  | TestEmit payload => _ ← write_u8 45; write_id payload
  | TestFinish outcome => _ ← write_u8 46; write_id outcome
  | AsyncCall function arguments plan =>
      _ ← write_u8 47; _ ← write_id function; _ ← write_id_vector arguments; write_id plan
  | Assert condition failure =>
      _ ← write_u8 48; _ ← write_id condition; _ ← write_string (assertion_expression failure);
      _ ← write_option (assertion_message failure) write_string; write_span (assertion_source failure)
  | MakeEnum ty variant payload =>
      _ ← write_u8 49; _ ← write_id ty; _ ← write_u8 variant; write_option payload write_id
  | EnumTag value => _ ← write_u8 50; write_id value
  | EnumPayload value variant => _ ← write_u8 51; _ ← write_id value; write_option variant write_u8
  | ActorCapability actor proof => _ ← write_u8 52; _ ← write_id actor; write_id proof
  | ActorStateAddress actor region proof =>
      _ ← write_u8 53; _ ← write_id actor; _ ← write_id region; write_id proof
  | ExtractIndex aggregate index proof =>
      _ ← write_u8 58; _ ← write_id aggregate; _ ← write_id index; write_id proof
  | Promote value destination proof =>
      _ ← write_u8 54; _ ← write_id value; _ ← write_id destination; write_id proof
  | ActorReplyRequest actor method permit reply =>
      _ ← write_u8 55; _ ← write_id actor; _ ← write_id method; _ ← write_id permit; write_id reply
  | ActorReplyResolve outcome reply => _ ← write_u8 56; _ ← write_id outcome; write_id reply
  | FormatBoundedString ty parts =>
      _ ← write_u8 57; _ ← write_id ty; write_vector parts General write_bounded_string_part
  end.

Definition write_switch_case (case : SwitchCase ValueId) : writing :=
  _ ← write_u128 (case_value case);
  _ ← write_id (case_target case);
  write_id_vector (case_arguments case).

Definition encode_terminator (value : Terminator ValueId) : writing :=
  match value with
  | Jump target arguments => _ ← write_u8 0; _ ← write_id target; write_id_vector arguments
  | Branch condition then_block then_arguments else_block else_arguments =>
      _ ← write_u8 1; _ ← write_id condition; _ ← write_id then_block;
      _ ← write_id_vector then_arguments; _ ← write_id else_block; write_id_vector else_arguments
  | Switch value cases default default_arguments =>
      _ ← write_u8 2; _ ← write_id value; _ ← write_vector cases General write_switch_case;
      _ ← write_id default; write_id_vector default_arguments
  | Return values => _ ← write_u8 3; write_id_vector values
  | Suspend state activation resume =>
      _ ← write_u8 4; _ ← write_u32 state; _ ← write_id activation; write_id resume
  | TailCall function arguments => _ ← write_u8 5; _ ← write_id function; write_id_vector arguments
  | Trap failure detail => _ ← write_u8 6; _ ← write_failure_kind failure; write_option detail write_id
  | Unreachable => write_u8 7
  end.

(** ** Functions *)

Definition write_function_origin (value : FunctionOrigin) : writing :=
  match value with
  | SourceSemantic semantic_function => _ ← write_u8 0; write_u32 semantic_function
  | GeneratedImageEntry semantic_function constructor =>
      _ ← write_u8 1; _ ← write_u32 semantic_function; write_u32 constructor
  | GeneratedTestHarness semantic_function group =>
      _ ← write_u8 2; _ ← write_u32 semantic_function; write_u32 group
  | GeneratedAsyncState semantic_function state =>
      _ ← write_u8 3; _ ← write_u32 semantic_function; write_u32 state
  | GeneratedCleanup semantic_function scope =>
      _ ← write_u8 4; _ ← write_u32 semantic_function; write_u32 scope
  end.

Definition write_function_role (value : FunctionRole) : writing :=
  match value with
  | RoleOrdinary => write_u8 0
  | RoleActorTurn id => _ ← write_u8 1; write_id id
  | RoleTaskEntry id => _ ← write_u8 2; write_id id
  | RoleIsr id => _ ← write_u8 3; write_id id
  | RoleCleanup => write_u8 4
  | RoleImageEntry => write_u8 5
  | RoleTest => write_u8 6
  end.

Definition write_function_color (value : FunctionColor) : writing :=
  write_u8 (match value with ColorSync => 0 | ColorAsync => 1 | ColorIsr => 2 end).

Definition write_value (value : Value) : writing :=
  _ ← write_id (value_id value);
  _ ← write_id (value_ty value);
  _ ← write_option (value_source_name value) write_string;
  write_optional_span (value_source value).

Definition write_instruction (value : Instruction) : writing :=
  _ ← write_id (instruction_id value);
  _ ← write_id_vector (results value);
  _ ← encode_operation (operation value);
  write_optional_span (instruction_source value).

Definition write_block (value : Block) : writing :=
  _ ← write_id (block_id value);
  _ ← write_id_vector (block_parameters value);
  _ ← write_vector (instructions value) Instructions write_instruction;
  _ ← encode_terminator (terminator value);
  write_optional_span (block_source value).

Definition write_function (value : FlowFunction) : writing :=
  _ ← write_id (function_id value);
  _ ← write_string (function_name value);
  _ ← write_function_origin (function_origin value);
  _ ← write_function_role (role value);
  _ ← write_function_color (color value);
  _ ← write_id_vector (parameters value);
  _ ← write_id_vector (result_types value);
  _ ← write_vector (values value) General write_value;
  _ ← write_vector (blocks value) Blocks write_block;
  _ ← write_id (entry value);
  _ ← write_u64 (stack_bound value);
  _ ← write_u64 (frame_bound value);
  _ ← write_id_vector (function_proofs value);
  write_optional_span (function_source value).

(** ** Plans and proofs *)

Definition write_actor (value : ActorPlan) : writing :=
  _ ← write_id (actor_id value);
  _ ← write_string (actor_name value);
  _ ← write_id (state_type value);
  _ ← write_u32 (mailbox_capacity value);
  _ ← write_id_vector (message_types value);
  _ ← write_id_vector (turn_functions value);
  _ ← write_u8 (actor_priority value);
  write_option (actor_supervisor value) write_id.

Definition write_task (value : TaskPlan) : writing :=
  _ ← write_id (task_id value);
  _ ← write_string (task_name value);
  _ ← write_id (task_entry value);
  _ ← write_u32 (slots value);
  _ ← write_u8 (task_priority value);
  _ ← write_u64 (frame_bytes_bound value);
  write_option (task_supervisor value) write_id.

Definition write_device (value : DevicePlan) : writing :=
  _ ← write_id (device_id value);
  _ ← write_string (device_name value);
  _ ← write_string (target_binding value);
  _ ← write_id (device_owner value);
  _ ← write_option (queue_capacity value) write_u32;
  _ ← write_option (maximum_in_flight value) write_u32;
  _ ← write_vector (required_features value) General write_string;
  _ ← write_vector (optional_features value) General write_string;
  _ ← write_id_vector (interrupt_functions value);
  write_u64 (device_reset_timeout_ns value).

Definition write_pool (value : PoolPlan) : writing :=
  _ ← write_id (pool_id value);
  _ ← write_string (pool_name value);
  _ ← write_id (element_type value);
  _ ← write_u64 (pool_capacity value);
  _ ← write_u64 (pool_alignment value);
  write_id_vector (pool_devices value).

Definition write_region_class (value : RegionClass) : writing :=
  match value with
  | RegionImage => write_u8 0
  | RegionTaskFrame => write_u8 1
  | RegionCall => write_u8 2
  | RegionRequest => write_u8 3
  | RegionPool pool => _ ← write_u8 4; write_id pool
  | RegionStatic => write_u8 5
  end.

Definition write_region (value : RegionPlan) : writing :=
  _ ← write_id (region_id value);
  _ ← write_string (region_name value);
  _ ← write_region_class (region_class value);
  _ ← write_u64 (capacity_bytes value);
  _ ← write_u64 (region_alignment value);
  _ ← write_option (reset_function value) write_id;
  _ ← write_owner (region_owner value);
  _ ← write_id (region_capacity_proof value);
  write_span (region_source value).

Definition write_activation (value : ActivationPlan) : writing :=
  _ ← write_id (activation_id value);
  _ ← write_id (caller value);
  _ ← write_id (callee value);
  _ ← write_id (activation_region value);
  _ ← write_u64 (frame_bytes value);
  _ ← write_u32 (maximum_live value);
  _ ← write_u8 (match cancellation value with DropCalleeThenPropagate => 0 end);
  _ ← write_id (activation_capacity_proof value);
  write_span (activation_source value).

Definition write_scheduler (value : SchedulerPlan) : writing :=
  _ ← write_u32 (core value);
  _ ← write_id_vector (scheduler_actors value);
  write_id_vector (scheduler_tasks value).

Definition write_proof_kind (value : ProofKind) : writing :=
  write_u8 (match value with
    | TypeChecked => 0 | EffectsAllowed => 1 | DefiniteInitialization => 2 | Ownership => 3
    | AccessExclusive => 4 | ViewDoesNotEscape => 5 | RegionBound => 6 | CapacityBound => 7
    | WaitGraphAcyclic => 8 | CleanupAcyclic => 9 | WorkBound => 10 | StackBound => 11
    | IsrSafe => 12 | ProofDmaTransition => 13 | MmioPartition => 14 | DeviceValueValidated => 15
    | WireLayout => 16 | ReceiptLineage => 17 | ActorAsIf => 18 | SupervisionComplete => 19
    | ImageClosed => 20 | FlowControl => 21 | ValueRange => 22 | Alignment => 23 | NoAlias => 24
    | ActorReplyExactlyOnce => 25
    end).

Definition write_proof (value : Proof_) : writing :=
  _ ← write_id (proof_id value);
  _ ← write_proof_kind (proof_kind value);
  _ ← write_string (proof_subject value);
  _ ← write_vector (proof_sources value) General write_span;
  _ ← write_id_vector (depends_on value);
  _ ← write_option (bound value) write_u64;
  write_vector (explanation value) General write_string.

Definition write_checkpoint (value : CheckpointPlan) : writing :=
  _ ← write_id (checkpoint_id value);
  _ ← write_id (checkpoint_function value);
  _ ← write_span (checkpoint_source value);
  _ ← write_u64 (uninterrupted_bound value);
  _ ← write_bool (may_observe_cancellation value);
  write_bool (may_yield value).

(** ** Tests *)

Definition write_test_kind (value : FlowTestKind) : writing :=
  write_u8 (match value with TestComptime => 0 | TestIntegration => 1 | TestImage => 2 end).

Definition write_test_entry (value : TestEntry) : writing :=
  _ ← write_id (entry_id value);
  _ ← write_u32 (plan_id value);
  _ ← write_digest (entry_function_key value);
  _ ← write_string (entry_name value);
  _ ← write_id (entry_function value);
  _ ← write_test_kind (entry_kind value);
  _ ← write_span (entry_source value);
  write_u64 (entry_timeout_ns value).

Definition write_assertion (assertion : PlannedAssertionDescriptor) : writing :=
  _ ← write_span (planned_source assertion);
  _ ← write_string (planned_expression assertion);
  write_option (planned_message assertion) write_string.

Definition write_invocation (value : ImageTestInvocation) : writing :=
  match value with
  | GeneratedFunction function_key => _ ← write_u8 0; write_digest (key_digest function_key)
  | DeclaredScenario => write_u8 1
  end.

Definition write_planned_test (value : ImageTest) : writing :=
  let descriptor := image_descriptor value in
  _ ← write_u32 (test_id (descriptor_id descriptor));
  _ ← write_string (descriptor_name descriptor);
  _ ← write_u8 (match descriptor_kind descriptor with
                | ComptimeUnit => 0 | IntegrationImage => 1 | DeclaredImage => 2
                end);
  _ ← write_optional_span (descriptor_source descriptor);
  _ ← write_u64 (descriptor_timeout_ns descriptor);
  _ ← write_invocation (invocation value);
  write_vector (planned_assertions value) General write_assertion.

Definition write_image_root (value : ImageRoot) : writing :=
  match value with
  | GeneratedHarness harness_name => _ ← write_u8 0; write_string harness_name
  | DeclaredRoot image_name scenario =>
      _ ← write_u8 1; _ ← write_string image_name; write_u32 scenario
  end.

Definition write_compiled_test_group (value : FullImageTestGroup) : writing :=
  _ ← write_u32 (group_id value);
  _ ← write_string (group_name value);
  _ ← write_image_root (group_root value);
  _ ← write_vector (group_tests value) General write_planned_test;
  _ ← write_option (deterministic_seed value) write_u64;
  _ ← write_u64 (boot_timeout_ns value);
  _ ← write_u64 (shutdown_timeout_ns value);
  _ ← write_u32 (group_maximum_events value);
  write_u64 (maximum_output_bytes value).

(** ** The module *)

Definition write_flow_wir (model : FlowWir) : writing :=
  _ ← write_u32 (version model);
  _ ← write_string (wir_name model);
  _ ← write_source_summary (source_summary model);
  _ ← write_vector (types model) General write_flow_type;
  _ ← write_vector (globals model) General write_global;
  _ ← write_vector (functions model) Functions write_function;
  _ ← write_vector (actors model) General write_actor;
  _ ← write_vector (tasks model) General write_task;
  _ ← write_vector (devices model) General write_device;
  _ ← write_vector (pools model) General write_pool;
  _ ← write_vector (regions model) General write_region;
  _ ← write_vector (activations model) General write_activation;
  _ ← write_vector (schedulers model) General write_scheduler;
  _ ← write_vector (proofs model) General write_proof;
  _ ← write_vector (checkpoints model) General write_checkpoint;
  _ ← write_vector (tests model) Tests write_test_entry;
  _ ← write_option (compiled_test_group model) write_compiled_test_group;
  _ ← write_vector (startup_order model) General write_owner;
  _ ← write_vector (shutdown_order model) General write_owner;
  _ ← write_id (image_entry model);
  _ ← write_u64 (wir_static_bytes model);
  write_u64 (wir_peak_bytes model).
End writer.
