(* ===== verification/WireReader.v ===== *)
(** The reader of the wire codec ([HeaderReader] and [Reader] of
    [src/crates/wrela-flow-wir-codec/src/canonical.rs]): FlowWir, part by part,
    from bytes. [read_x] is the method [Reader::x]. *)

From Stdlib Require Import Strings.Byte.
From stdpp Require Import base numbers list option strings.
From S2P Require Import Prelude Bytes Interrupt Text BuildModel Source TestEvents FlowWir FlowModule Literals Wire.

#[local] Open Scope Z_scope.

(** [Reader]; its bytes and limits are parameters. *)
Record Reader := { reader_position : Z; reader_meter : Meter }.

Definition reading (A : Type) : Type := stateT Reader (prog CodecError) A.

(** [Reader::new]. *)
Definition new_reader (position : Z) : Reader :=
  {| reader_position := position; reader_meter := Meter_default |}.

Definition reader_poll : reading unit := liftS check_cancelled.
Definition throws {A} (m : prog CodecError A) : reading A := liftS m.

(** [for _ in 0..length { self.poll()?; values.push(decode(self)?); }]. *)
Fixpoint read_each {A} (length : nat) (decode : reading A) : reading (list A) :=
  match length with
  | O => mret []
  | S length => _ ← reader_poll; x ← decode; xs ← read_each length decode; mret (x :: xs)
  end.

(** A charge on the reader's meter. *)
Definition charging_reader (charge : Meter -> result CodecError Meter) : reading unit := fun r =>
  m ← lift (charge (reader_meter r));
  Ret (tt, {| reader_position := reader_position r; reader_meter := m |}).

(** ** The frame header

    [HeaderReader] polls before every read and has no meter; its state is its
    position. *)
Section header.
Context (bytes : list byte).

Definition heading (A : Type) : Type := stateT Z (prog CodecError) A.

Definition header_raw (length : Z) : heading (list byte) := fun position =>
  _ ← check_cancelled;
  end_ ← lift (ok_or (checked_add usize position length) LengthOverflow);
  value ← lift (ok_or (get_range bytes position end_) CodecUnexpectedEnd);
  Ret (value, end_).

Definition header_u8 : heading Z := value ← header_raw 1; mret (le_value value).
Definition header_u32 : heading Z := value ← header_raw 4; mret (le_value value).
Definition header_u64 : heading Z := value ← header_raw 8; mret (le_value value).
Definition header_digest : heading Sha256Digest := value ← header_raw 32; mret (from_bytes value).

Definition target_identity : heading (TargetIdentity * Z) :=
  length ← header_u32;
  _ ← liftS (fail_if ((length =? 0) || (MAX_PROFILE_ATOM_BYTES <? length))
               (NonCanonical "invalid target identity length"));
  source ← header_raw length;
  owned ← liftS (copy_utf8 source);
  identity ← liftS (lift (map_err (fun _ => NonCanonical "invalid target identity")
                            (TargetIdentity_new owned)));
  mret (identity, length).
End header.

Section reader.
Context (bytes : list byte) (limits : CodecLimits).

(** [Reader::finish]. *)
Definition reader_finish (r : Reader) : prog CodecError unit :=
  fail_if (negb (reader_position r =? len bytes)) CodecTrailingBytes.

Definition read_raw (length : Z) : reading (list byte) := fun r =>
  end_ ← lift (ok_or (checked_add usize (reader_position r) length) LengthOverflow);
  value ← lift (ok_or (get_range bytes (reader_position r) end_) CodecUnexpectedEnd);
  Ret (value, {| reader_position := end_; reader_meter := reader_meter r |}).

Definition read_u8 : reading Z := value ← read_raw 1; mret (le_value value).
Definition read_bool : reading bool :=
  tag ← read_u8;
  match tag with
  | 0 => mret false
  | 1 => mret true
  | tag => throws (invalid_tag "boolean" tag)
  end.
Definition read_u16 : reading Z := value ← read_raw 2; mret (le_value value).
Definition read_u32 : reading Z := value ← read_raw 4; mret (le_value value).
Definition read_u64 : reading Z := value ← read_raw 8; mret (le_value value).
Definition read_u128 : reading Z := value ← read_raw 16; mret (le_value value).
(** [Id(self.u32()?)]. *)
Definition read_id : reading N := value ← read_u32; mret (Z.to_N value).
Definition read_digest : reading Sha256Digest := value ← read_raw 32; mret (from_bytes value).

Definition read_string : reading str :=
  _ ← reader_poll;
  length ← read_u32;
  _ ← charging_reader (charge_string length "aggregate string bytes" (codec_string_bytes limits));
  source ← read_raw length;
  liftS (copy_utf8 source).

Definition read_bytes : reading (list byte) :=
  _ ← reader_poll;
  length ← read_u32;
  _ ← charging_reader (charge_vector length General limits);
  source ← read_raw length;
  liftS (copy_bytes source).

Definition read_vector {A} (kind : VectorKind) (decode : reading A) : reading (list A) :=
  _ ← reader_poll;
  length ← read_u32;
  _ ← charging_reader (charge_vector length kind limits);
  _ ← liftS (try_reserve AllocationFailed);
  read_each (Z.to_nat length) decode.

Definition read_option {A} (decode : reading A) : reading (option A) :=
  tag ← read_u8;
  match tag with
  | 0 => mret None
  | 1 => x ← decode; mret (Some x)
  | tag => throws (invalid_tag "option" tag)
  end.

Definition read_id_vector : reading (list N) := read_vector General read_id.

Definition read_span : reading Span :=
  file ← read_u32;
  start ← read_u32;
  end_ ← read_u32;
  mret {| file := {| file_id := file |}; range := {| start_ := start; end_ := end_ |} |}.

(** ** Types and immediates *)

Definition read_source_summary : reading SourceSummary :=
  semantic_wir_version ← read_u32;
  semantic_functions ← read_u32;
  hir_files ← read_u32;
  hir_declarations ← read_u32;
  reachable_declarations ← read_u64;
  monomorphized_instantiations ← read_u64;
  resolved_interface_calls ← read_u64;
  mret {| semantic_wir_version := semantic_wir_version; semantic_functions := semantic_functions;
          hir_files := hir_files; hir_declarations := hir_declarations;
          reachable_declarations := reachable_declarations;
          monomorphized_instantiations := monomorphized_instantiations;
          resolved_interface_calls := resolved_interface_calls |}.

Definition read_scalar_type : reading ScalarType :=
  tag ← read_u8;
  match tag with
  | 0 => mret TBool
  | 1 => signed ← read_bool; bits ← read_u16; mret (TInteger signed bits)
  | 2 => mret TFloat32
  | 3 => mret TFloat64
  | 4 => mret TAddress
  | 5 => mret TCharacter
  | tag => throws (invalid_tag "ScalarType" tag)
  end.

Definition read_type_kind : reading FlowTypeKind :=
  tag ← read_u8;
  match tag with
  | 0 => mret KUnit
  | 1 => scalar ← read_scalar_type; mret (KScalar scalar)
  | 2 => fields ← read_id_vector; mret (KTuple fields)
  | 3 => element ← read_id; length ← read_u64; mret (KArray element length)
  | 4 => fields ← read_id_vector; mret (KStruct fields)
  | 5 =>
      _ ← throws (lift (enforce "nesting depth" (codec_nesting_depth limits) 2));
      variants ← read_vector General read_id_vector;
      mret (KEnum variants)
  | 6 => parameters ← read_id_vector; result ← read_id; mret (KFunction parameters result)
  | 7 => id ← read_id; mret (KRegionHandle id)
  | 8 => id ← read_id; mret (KPoolHandle id)
  | 9 => id ← read_id; mret (KActorHandle id)
  | 10 => id ← read_id; mret (KTaskHandle id)
  | 11 => mret KReservation
  | 12 => payload ← read_id; error ← read_id; mret (KReceipt payload error)
  | 13 => pool ← read_id; payload ← read_id; mret (KDmaToken pool payload)
  | 14 => name ← read_string; mret (KOpaqueTarget name)
  | 15 => result ← read_id; mret (KActivation result)
  | 16 => bytes ← read_u64; mret (KStaticString bytes)
  | 17 => capacity ← read_u64; mret (KBoundedString capacity)
  | 18 => bytes ← read_u64; mret (KStaticBytes bytes)
  | tag => throws (invalid_tag "FlowTypeKind" tag)
  end.

Definition read_flow_type : reading FlowType :=
  id ← read_id;
  kind ← read_type_kind;
  name ← read_option read_string;
  copyable ← read_bool;
  strict_linear ← read_bool;
  mret {| type_id := id; kind := kind; type_name := name; copyable := copyable;
          strict_linear := strict_linear |}.

Definition read_bounded_string_part : reading (BoundedStringPart ValueId) :=
  tag ← read_u8;
  match tag with
  | 0 => value ← read_string; source ← read_span; mret (PartText value source)
  | 1 => value ← read_id; source ← read_span; mret (PartBool value source)
  | 2 => value ← read_id; source ← read_span; mret (PartCharacter value source)
  | 3 => value ← read_id; maximum_bytes ← read_u64; source ← read_span;
         mret (PartInteger value maximum_bytes source)
  | 4 => value ← read_id; bytes ← read_u64; source ← read_span;
         mret (PartStaticString value bytes source)
  | tag => throws (invalid_tag "BoundedStringPart" tag)
  end.

Definition read_immediate : reading Immediate :=
  tag ← read_u8;
  match tag with
  | 0 => mret ImmUnit
  | 1 => value ← read_bool; mret (ImmBool value)
  | 2 => bits ← read_u16; bytes_le ← read_bytes; mret (ImmInteger bits bytes_le)
  | 3 => value ← read_u32; mret (ImmFloat32 value)
  | 4 => value ← read_u64; mret (ImmFloat64 value)
  | 5 => value ← read_bytes; mret (ImmBytes value)
  | 6 => id ← read_id; mret (ImmZero id)
  | 7 => id ← read_id; mret (ImmGlobalAddress id)
  | 8 => id ← read_id; mret (ImmFunctionAddress id)
  | 9 =>
      scalar ← read_u32;
      match char_from_u32 scalar with
      | Some value => mret (ImmCharacter value)
      | None => throws (invalid_tag "Unicode scalar" 9)
      end
  | tag => throws (invalid_tag "Immediate" tag)
  end.

Definition read_owner : reading PlanOwner :=
  tag ← read_u8;
  match tag with
  | 0 => mret OwnerRuntime
  | 1 => id ← read_id; mret (OwnerActor id)
  | 2 => id ← read_id; mret (OwnerTask id)
  | 3 => id ← read_id; mret (OwnerDevice id)
  | 4 => id ← read_id; mret (OwnerPool id)
  | 5 => id ← read_u32; mret (BakedArtifact id)
  | tag => throws (invalid_tag "PlanOwner" tag)
  end.

Definition read_global : reading FlowGlobal :=
  id ← read_id;
  name ← read_string;
  ty ← read_id;
  initializer ← read_immediate;
  mutable ← read_bool;
  owner ← read_owner;
  mret {| global_id := id; global_name := name; global_ty := ty; initializer := initializer;
          mutable := mutable; global_owner := owner |}.

(** ** Operations *)

Definition read_unary_op : reading UnaryOp :=
  tag ← read_u8;
  match tag with
  | 0 => mret Negate
  | 1 => mret BoolNot
  | 2 => mret BitNot
  | tag => throws (invalid_tag "UnaryOp" tag)
  end.

Definition read_binary_op : reading BinaryOp :=
  tag ← read_u8;
  match tag with
  | 0 => mret AddChecked
  | 1 => mret AddWrapping
  | 2 => mret SubChecked
  | 3 => mret SubWrapping
  | 4 => mret MulChecked
  | 5 => mret MulWrapping
  | 6 => mret DivChecked
  | 7 => mret RemChecked
  | 8 => mret BitAnd
  | 9 => mret BitOr
  | 10 => mret BitXor
  | 11 => mret ShiftLeftChecked
  | 12 => mret ShiftRightChecked
  | 13 => mret Equal
  | 14 => mret NotEqual
  | 15 => mret Less
  | 16 => mret LessEqual
  | 17 => mret Greater
  | 18 => mret GreaterEqual
  | 19 => mret ShiftLeftWrapping
  | tag => throws (invalid_tag "BinaryOp" tag)
  end.

Definition read_cast_mode : reading CastMode :=
  tag ← read_u8;
  match tag with
  | 0 => mret CastChecked
  | 1 => mret CastExact
  | 2 => mret CastBitcast
  | tag => throws (invalid_tag "CastMode" tag)
  end.

Definition read_access_kind : reading AccessKind :=
  tag ← read_u8;
  match tag with
  | 0 => mret AccessRead
  | 1 => mret AccessMutate
  | 2 => mret AccessTake
  | tag => throws (invalid_tag "AccessKind" tag)
  end.

Definition read_dma_ownership : reading DmaOwnership :=
  tag ← read_u8;
  match tag with
  | 0 => mret DmaCpu
  | 1 => mret DmaPrepared
  | 2 => mret DmaDevice
  | 3 => mret DmaCompleted
  | 4 => mret DmaQuarantined
  | tag => throws (invalid_tag "DmaOwnership" tag)
  end.

Definition read_fence_kind : reading FenceKind :=
  tag ← read_u8;
  match tag with
  | 0 => mret FenceAcquire
  | 1 => mret FenceRelease
  | 2 => mret FenceAcquireRelease
  | 3 => mret FenceDeviceRead
  | 4 => mret FenceDeviceWrite
  | 5 => mret FenceDeviceFull
  | tag => throws (invalid_tag "FenceKind" tag)
  end.

Definition read_failure_kind : reading FailureKind :=
  tag ← read_u8;
  match tag with
  | 0 => mret FailBounds
  | 1 => mret FailArithmetic
  | 2 => mret FailConversion
  | 3 => mret FailCapacity
  | 4 => mret FailGeneration
  | 5 => mret FailDmaState
  | 6 => mret FailDeviceValue
  | 7 => mret FailCancellation
  | 8 => mret FailDeadline
  | 9 => mret FailPeerFailure
  | 10 => mret FailTaskFailure
  | 11 => mret FailFatalTarget
  | tag => throws (invalid_tag "FailureKind" tag)
  end.

Definition read_operation : reading (FlowOperation ValueId) :=
  tag ← read_u8;
  match tag with
  | 0 => immediate ← read_immediate; mret (ImmediateOp immediate)
  | 1 => op ← read_unary_op; value ← read_id; mret (Unary op value)
  | 2 => op ← read_binary_op; left_ ← read_id; right_ ← read_id; mret (Binary op left_ right_)
  | 3 => value ← read_id; to ← read_id; mode ← read_cast_mode; mret (Cast value to mode)
  | 4 => ty ← read_id; fields ← read_id_vector; mret (MakeAggregate ty fields)
  | 5 => aggregate ← read_id; field ← read_u32; mret (ExtractField aggregate field)
  | 6 => aggregate ← read_id; field ← read_u32; value ← read_id; mret (InsertField aggregate field value)
  | 7 =>
      condition ← read_id; then_value ← read_id; else_value ← read_id;
      mret (Select condition then_value else_value)
  | 8 => place ← read_id; kind ← read_access_kind; proof ← read_id; mret (BeginAccess place kind proof)
  | 9 => access ← read_id; mret (EndAccess access)
  | 10 => address ← read_id; proof ← read_id; mret (LoadOp address proof)
  | 11 => address ← read_id; value ← read_id; proof ← read_id; mret (StoreOp address value proof)
  | 12 => value ← read_id; mret (Move value)
  | 13 => value ← read_id; mret (Copy value)
  | 14 => value ← read_id; mret (Drop value)
  | 15 => function ← read_id; arguments ← read_id_vector; mret (Call function arguments)
  | 16 =>
      region ← read_id; ty ← read_id; count ← read_id; proof ← read_id;
      mret (Allocate region ty count proof)
  | 17 => region ← read_id; mret (RegionReset region)
  | 18 => actor ← read_id; method ← read_id; proof ← read_id; mret (ActorReserve actor method proof)
  | 19 => reservation ← read_id; arguments ← read_id_vector; mret (ActorCommit reservation arguments)
  | 20 => reservation ← read_id; mret (ActorReject reservation)
  | 21 => actor ← read_id; method ← read_id; mret (MailboxReceive actor method)
  | 22 => endpoint ← read_id; outcome ← read_id; mret (ReplyResolve endpoint outcome)
  | 23 => receipt ← read_id; payload ← read_id; mret (ReceiptCommit receipt payload)
  | 24 => receipt ← read_id; outcome ← read_id; mret (ReceiptResolve receipt outcome)
  | 25 => task ← read_id; proof ← read_id; mret (TaskAcquireSlot task proof)
  | 26 =>
      slot ← read_id; entry ← read_id; arguments ← read_id_vector;
      mret (TaskStart slot entry arguments)
  | 27 => task ← read_id; mret (TaskCancel task)
  | 28 => wait_set ← read_id; mret (Park wait_set)
  | 29 => target ← read_id; mret (Wake target)
  | 30 => id ← read_id; proof ← read_id; mret (Checkpoint id proof)
  | 31 => mret DeadlineRead
  | 32 => mret InterruptMask
  | 33 => token ← read_id; mret (InterruptRestore token)
  | 34 => cell ← read_id; value ← read_id; mret (InterruptPublish cell value)
  | 35 => device ← read_id; register ← read_u32; mret (MmioRead device register)
  | 36 => device ← read_id; register ← read_u32; value ← read_id; mret (MmioWrite device register value)
  | 37 => kind ← read_fence_kind; mret (Fence kind)
  | 38 =>
      token ← read_id; device ← read_id; from ← read_dma_ownership; to ← read_dma_ownership; proof ← read_id;
      mret (DmaTransition token device from to proof)
  | 39 =>
      device ← read_id; descriptors ← read_id; proof ← read_id;
      mret (QueueReserve device descriptors proof)
  | 40 => reservation ← read_id; payload ← read_id; mret (QueuePublish reservation payload)
  | 41 => value ← read_id; proof ← read_id; mret (ValidateDeviceValue value proof)
  | 42 =>
      condition ← read_id; failure ← read_failure_kind; proof ← read_option read_id;
      mret (CheckOp condition failure proof)
  | 43 => kind ← read_u32; payload ← read_id; mret (RecordEvent kind payload)
  | 44 => kind ← read_u32; destination ← read_id; mret (ReplayEvent kind destination)
  | 45 => payload ← read_id; mret (TestEmit payload)
  | 46 => outcome ← read_id; mret (TestFinish outcome)
  | 47 =>
      function ← read_id; arguments ← read_id_vector; plan ← read_id;
      mret (AsyncCall function arguments plan)
  | 48 =>
      condition ← read_id; expression ← read_string; message ← read_option read_string; source ← read_span;
      mret (Assert condition {| assertion_expression := expression; assertion_message := message;
                                assertion_source := source |})
  | 49 =>
      ty ← read_id; variant ← read_u8; payload ← read_option read_id;
      mret (MakeEnum ty variant payload)
  | 50 => value ← read_id; mret (EnumTag value)
  | 51 => value ← read_id; variant ← read_option read_u8; mret (EnumPayload value variant)
  | 52 => actor ← read_id; proof ← read_id; mret (ActorCapability actor proof)
  | 53 => actor ← read_id; region ← read_id; proof ← read_id; mret (ActorStateAddress actor region proof)
  | 54 => value ← read_id; destination ← read_id; proof ← read_id; mret (Promote value destination proof)
  | 55 =>
      actor ← read_id; method ← read_id; permit ← read_id; reply ← read_id;
      mret (ActorReplyRequest actor method permit reply)
  | 56 => outcome ← read_id; reply ← read_id; mret (ActorReplyResolve outcome reply)
  | 57 =>
      ty ← read_id; parts ← read_vector General read_bounded_string_part;
      mret (FormatBoundedString ty parts)
  | 58 =>
      aggregate ← read_id; index ← read_id; proof ← read_id;
      mret (ExtractIndex aggregate index proof)
  | tag => throws (invalid_tag "FlowOperation" tag)
  end.

Definition read_switch_case : reading (SwitchCase ValueId) :=
  value ← read_u128;
  target ← read_id;
  arguments ← read_id_vector;
  mret {| case_value := value; case_target := target; case_arguments := arguments |}.

Definition read_terminator : reading (Terminator ValueId) :=
  tag ← read_u8;
  match tag with
  | 0 => target ← read_id; arguments ← read_id_vector; mret (Jump target arguments)
  | 1 =>
      condition ← read_id; then_block ← read_id; then_arguments ← read_id_vector; else_block ← read_id; else_arguments ← read_id_vector;
      mret (Branch condition then_block then_arguments else_block else_arguments)
  | 2 =>
      value ← read_id; cases ← read_vector General read_switch_case; default ← read_id; default_arguments ← read_id_vector;
      mret (Switch value cases default default_arguments)
  | 3 => values ← read_id_vector; mret (Return values)
  | 4 => state ← read_u32; activation ← read_id; resume ← read_id; mret (Suspend state activation resume)
  | 5 => function ← read_id; arguments ← read_id_vector; mret (TailCall function arguments)
  | 6 => failure ← read_failure_kind; detail ← read_option read_id; mret (Trap failure detail)
  | 7 => mret Unreachable
  | tag => throws (invalid_tag "Terminator" tag)
  end.

(** ** Functions *)

Definition read_function_origin : reading FunctionOrigin :=
  tag ← read_u8;
  match tag with
  | 0 => semantic_function ← read_u32; mret (SourceSemantic semantic_function)
  | 1 =>
      semantic_function ← read_u32; constructor ← read_u32;
      mret (GeneratedImageEntry semantic_function constructor)
  | 2 =>
      semantic_function ← read_u32; group ← read_u32;
      mret (GeneratedTestHarness semantic_function group)
  | 3 =>
      semantic_function ← read_u32; state ← read_u32;
      mret (GeneratedAsyncState semantic_function state)
  | 4 => semantic_function ← read_u32; scope ← read_u32; mret (GeneratedCleanup semantic_function scope)
  | tag => throws (invalid_tag "FunctionOrigin" tag)
  end.

Definition read_function_role : reading FunctionRole :=
  tag ← read_u8;
  match tag with
  | 0 => mret RoleOrdinary
  | 1 => id ← read_id; mret (RoleActorTurn id)
  | 2 => id ← read_id; mret (RoleTaskEntry id)
  | 3 => id ← read_id; mret (RoleIsr id)
  | 4 => mret RoleCleanup
  | 5 => mret RoleImageEntry
  | 6 => mret RoleTest
  | tag => throws (invalid_tag "FunctionRole" tag)
  end.

Definition read_function_color : reading FunctionColor :=
  tag ← read_u8;
  match tag with
  | 0 => mret ColorSync
  | 1 => mret ColorAsync
  | 2 => mret ColorIsr
  | tag => throws (invalid_tag "FunctionColor" tag)
  end.

Definition read_value : reading Value :=
  id ← read_id;
  ty ← read_id;
  source_name ← read_option read_string;
  source ← read_option read_span;
  mret {| value_id := id; value_ty := ty; value_source_name := source_name; value_source := source |}.

Definition read_instruction : reading Instruction :=
  id ← read_id;
  results ← read_id_vector;
  operation ← read_operation;
  source ← read_option read_span;
  mret {| instruction_id := id; results := results; operation := operation;
          instruction_source := source |}.

Definition read_block : reading Block :=
  id ← read_id;
  parameters ← read_id_vector;
  instructions ← read_vector Instructions read_instruction;
  terminator ← read_terminator;
  source ← read_option read_span;
  mret {| block_id := id; block_parameters := parameters; instructions := instructions;
          terminator := terminator; block_source := source |}.

Definition read_function : reading FlowFunction :=
  id ← read_id;
  name ← read_string;
  origin ← read_function_origin;
  role ← read_function_role;
  color ← read_function_color;
  parameters ← read_id_vector;
  result_types ← read_id_vector;
  values ← read_vector General read_value;
  blocks ← read_vector Blocks read_block;
  entry ← read_id;
  stack_bound ← read_u64;
  frame_bound ← read_u64;
  proofs ← read_id_vector;
  source ← read_option read_span;
  mret {| function_id := id; function_name := name; function_origin := origin; role := role;
          color := color; parameters := parameters; result_types := result_types; values := values;
          blocks := blocks; entry := entry; stack_bound := stack_bound; frame_bound := frame_bound;
          function_proofs := proofs; function_source := source |}.

(** ** Plans and proofs *)

Definition read_actor : reading ActorPlan :=
  id ← read_id;
  name ← read_string;
  state_type ← read_id;
  mailbox_capacity ← read_u32;
  message_types ← read_id_vector;
  turn_functions ← read_id_vector;
  priority ← read_u8;
  supervisor ← read_option read_id;
  mret {| actor_id := id; actor_name := name; state_type := state_type;
          mailbox_capacity := mailbox_capacity; message_types := message_types;
          turn_functions := turn_functions; actor_priority := priority;
          actor_supervisor := supervisor |}.

Definition read_task : reading TaskPlan :=
  id ← read_id;
  name ← read_string;
  entry ← read_id;
  slots ← read_u32;
  priority ← read_u8;
  frame_bytes_bound ← read_u64;
  supervisor ← read_option read_id;
  mret {| task_id := id; task_name := name; task_entry := entry; slots := slots;
          task_priority := priority; frame_bytes_bound := frame_bytes_bound;
          task_supervisor := supervisor |}.

Definition read_device : reading DevicePlan :=
  id ← read_id;
  name ← read_string;
  target_binding ← read_string;
  owner ← read_id;
  queue_capacity ← read_option read_u32;
  maximum_in_flight ← read_option read_u32;
  required_features ← read_vector General read_string;
  optional_features ← read_vector General read_string;
  interrupt_functions ← read_id_vector;
  reset_timeout_ns ← read_u64;
  mret {| device_id := id; device_name := name; target_binding := target_binding;
          device_owner := owner; queue_capacity := queue_capacity;
          maximum_in_flight := maximum_in_flight; required_features := required_features;
          optional_features := optional_features; interrupt_functions := interrupt_functions;
          device_reset_timeout_ns := reset_timeout_ns |}.

Definition read_pool : reading PoolPlan :=
  id ← read_id;
  name ← read_string;
  element_type ← read_id;
  capacity ← read_u64;
  alignment ← read_u64;
  devices ← read_id_vector;
  mret {| pool_id := id; pool_name := name; element_type := element_type; pool_capacity := capacity;
          pool_alignment := alignment; pool_devices := devices |}.

Definition read_region_class : reading RegionClass :=
  tag ← read_u8;
  match tag with
  | 0 => mret RegionImage
  | 1 => mret RegionTaskFrame
  | 2 => mret RegionCall
  | 3 => mret RegionRequest
  | 4 => pool ← read_id; mret (RegionPool pool)
  | 5 => mret RegionStatic
  | tag => throws (invalid_tag "RegionClass" tag)
  end.

Definition read_region : reading RegionPlan :=
  id ← read_id;
  name ← read_string;
  class ← read_region_class;
  capacity_bytes ← read_u64;
  alignment ← read_u64;
  reset_function ← read_option read_id;
  owner ← read_owner;
  capacity_proof ← read_id;
  source ← read_span;
  mret {| region_id := id; region_name := name; region_class := class;
          capacity_bytes := capacity_bytes; region_alignment := alignment;
          reset_function := reset_function; region_owner := owner;
          region_capacity_proof := capacity_proof; region_source := source |}.

Definition read_cancellation : reading ActivationCancellation :=
  tag ← read_u8;
  match tag with
  | 0 => mret DropCalleeThenPropagate
  | tag => throws (invalid_tag "ActivationCancellation" tag)
  end.

Definition read_activation : reading ActivationPlan :=
  id ← read_id;
  caller ← read_id;
  callee ← read_id;
  region ← read_id;
  frame_bytes ← read_u64;
  maximum_live ← read_u32;
  cancellation ← read_cancellation;
  capacity_proof ← read_id;
  source ← read_span;
  mret {| activation_id := id; caller := caller; callee := callee; activation_region := region;
          frame_bytes := frame_bytes; maximum_live := maximum_live; cancellation := cancellation;
          activation_capacity_proof := capacity_proof; activation_source := source |}.

Definition read_scheduler : reading SchedulerPlan :=
  core ← read_u32;
  actors ← read_id_vector;
  tasks ← read_id_vector;
  mret {| core := core; scheduler_actors := actors; scheduler_tasks := tasks |}.

Definition read_proof_kind : reading ProofKind :=
  tag ← read_u8;
  match tag with
  | 0 => mret TypeChecked
  | 1 => mret EffectsAllowed
  | 2 => mret DefiniteInitialization
  | 3 => mret Ownership
  | 4 => mret AccessExclusive
  | 5 => mret ViewDoesNotEscape
  | 6 => mret RegionBound
  | 7 => mret CapacityBound
  | 8 => mret WaitGraphAcyclic
  | 9 => mret CleanupAcyclic
  | 10 => mret WorkBound
  | 11 => mret StackBound
  | 12 => mret IsrSafe
  | 13 => mret ProofDmaTransition
  | 14 => mret MmioPartition
  | 15 => mret DeviceValueValidated
  | 16 => mret WireLayout
  | 17 => mret ReceiptLineage
  | 18 => mret ActorAsIf
  | 19 => mret SupervisionComplete
  | 20 => mret ImageClosed
  | 21 => mret FlowControl
  | 22 => mret ValueRange
  | 23 => mret Alignment
  | 24 => mret NoAlias
  | 25 => mret ActorReplyExactlyOnce
  | tag => throws (invalid_tag "ProofKind" tag)
  end.

Definition read_proof : reading Proof_ :=
  id ← read_id;
  kind ← read_proof_kind;
  subject ← read_string;
  sources ← read_vector General read_span;
  depends_on ← read_id_vector;
  bound ← read_option read_u64;
  explanation ← read_vector General read_string;
  mret {| proof_id := id; proof_kind := kind; proof_subject := subject; proof_sources := sources;
          depends_on := depends_on; bound := bound; explanation := explanation |}.

Definition read_checkpoint : reading CheckpointPlan :=
  id ← read_id;
  function ← read_id;
  source ← read_span;
  uninterrupted_bound ← read_u64;
  may_observe_cancellation ← read_bool;
  may_yield ← read_bool;
  mret {| checkpoint_id := id; checkpoint_function := function; checkpoint_source := source;
          uninterrupted_bound := uninterrupted_bound;
          may_observe_cancellation := may_observe_cancellation; may_yield := may_yield |}.

(** ** Tests *)

Definition read_test_kind : reading FlowTestKind :=
  tag ← read_u8;
  match tag with
  | 0 => mret TestComptime
  | 1 => mret TestIntegration
  | 2 => mret TestImage
  | tag => throws (invalid_tag "TestKind" tag)
  end.

Definition read_test_entry : reading TestEntry :=
  id ← read_id;
  plan_id ← read_u32;
  function_key ← read_digest;
  name ← read_string;
  function ← read_id;
  kind ← read_test_kind;
  source ← read_span;
  timeout_ns ← read_u64;
  mret {| entry_id := id; plan_id := plan_id; entry_function_key := function_key; entry_name := name;
          entry_function := function; entry_kind := kind; entry_source := source;
          entry_timeout_ns := timeout_ns |}.

Definition read_assertion : reading PlannedAssertionDescriptor :=
  source ← read_span;
  expression ← read_string;
  message ← read_option read_string;
  mret {| planned_source := source; planned_expression := expression; planned_message := message |}.

Definition read_planned_kind : reading TestKind :=
  tag ← read_u8;
  match tag with
  | 0 => mret ComptimeUnit
  | 1 => mret IntegrationImage
  | 2 => mret DeclaredImage
  | tag => throws (invalid_tag "planned TestKind" tag)
  end.

Definition read_invocation : reading ImageTestInvocation :=
  tag ← read_u8;
  match tag with
  | 0 => digest ← read_digest; mret (GeneratedFunction {| key_digest := digest |})
  | 1 => mret DeclaredScenario
  | tag => throws (invalid_tag "ImageTestInvocation" tag)
  end.

Definition read_planned_test : reading ImageTest :=
  id ← read_u32;
  name ← read_string;
  kind ← read_planned_kind;
  source ← read_option read_span;
  timeout_ns ← read_u64;
  invocation ← read_invocation;
  assertions ← read_vector General read_assertion;
  mret {| image_descriptor := {| descriptor_id := {| test_id := id |}; descriptor_name := name;
                                 descriptor_kind := kind; descriptor_source := source;
                                 descriptor_timeout_ns := timeout_ns |};
          invocation := invocation; planned_assertions := assertions |}.

Definition read_image_root : reading ImageRoot :=
  tag ← read_u8;
  match tag with
  | 0 => harness_name ← read_string; mret (GeneratedHarness harness_name)
  | 1 => image_name ← read_string; scenario ← read_u32; mret (DeclaredRoot image_name scenario)
  | tag => throws (invalid_tag "ImageRoot" tag)
  end.

Definition read_compiled_test_group : reading FullImageTestGroup :=
  id ← read_u32;
  name ← read_string;
  root ← read_image_root;
  tests ← read_vector General read_planned_test;
  deterministic_seed ← read_option read_u64;
  boot_timeout_ns ← read_u64;
  shutdown_timeout_ns ← read_u64;
  maximum_events ← read_u32;
  maximum_output_bytes ← read_u64;
  mret {| group_id := id; group_name := name; group_root := root; group_tests := tests;
          deterministic_seed := deterministic_seed; boot_timeout_ns := boot_timeout_ns;
          shutdown_timeout_ns := shutdown_timeout_ns; group_maximum_events := maximum_events;
          maximum_output_bytes := maximum_output_bytes |}.

(** ** The module *)

Definition read_flow_wir (build : BuildIdentity) : reading FlowWir :=
  version ← read_u32;
  _ ← throws (fail_if (negb (version =? FLOW_WIR_VERSION)) (UnsupportedFlowWirVersion version));
  name ← read_string;
  source_summary ← read_source_summary;
  types ← read_vector General read_flow_type;
  globals ← read_vector General read_global;
  functions ← read_vector Functions read_function;
  actors ← read_vector General read_actor;
  tasks ← read_vector General read_task;
  devices ← read_vector General read_device;
  pools ← read_vector General read_pool;
  regions ← read_vector General read_region;
  activations ← read_vector General read_activation;
  schedulers ← read_vector General read_scheduler;
  proofs ← read_vector General read_proof;
  checkpoints ← read_vector General read_checkpoint;
  tests ← read_vector Tests read_test_entry;
  compiled_test_group ← read_option read_compiled_test_group;
  startup_order ← read_vector General read_owner;
  shutdown_order ← read_vector General read_owner;
  image_entry ← read_id;
  static_bytes ← read_u64;
  peak_bytes ← read_u64;
  mret {| version := version; wir_name := name; build := build; source_summary := source_summary;
          types := types; globals := globals; functions := functions; actors := actors; tasks := tasks;
          devices := devices; pools := pools; regions := regions; activations := activations;
          schedulers := schedulers; proofs := proofs; checkpoints := checkpoints; tests := tests;
          compiled_test_group := compiled_test_group; startup_order := startup_order;
          shutdown_order := shutdown_order; image_entry := image_entry;
          wir_static_bytes := static_bytes; wir_peak_bytes := peak_bytes |}.
End reader.
