(* ===== verification/WireCodes.v ===== *)
(** A reader of the wire codec undoes its writer: what Rust's types guarantee of
    every FlowWir value, the judgements between a reader and a writer with their
    laws, and an instance for every type of FlowWir.

    [par e d a]: whatever the writer [e] appends, the reader [d] makes [a] of it
    and the meters move alike. [Unpar d e ok]: whatever [d] reads is [ok], and
    [e] writes it back. *)

From Stdlib Require Import Strings.Byte.
From stdpp Require Import base numbers list option strings.
From S2P Require Import Prelude Bytes Interrupt Text BuildModel Source TestEvents FlowWir FlowModule Literals Wire WireWriter WireReader.

#[local] Open Scope Z_scope.

(** An identity is a [u32]. *)
Definition id_ok (id : N) : bool := fits 32 (Z.of_N id).

Definition option_ok {A} (ok : A -> bool) (o : option A) : bool :=
  match o with Some a => ok a | None => true end.

Definition span_ok (s : Span) : bool :=
  fits 32 (file_id (file s)) && fits 32 (start_ (range s)) && fits 32 (end_ (range s)).

Definition build_ok (b : BuildIdentity) : bool :=
  identity_ok b && match TargetIdentity_new (target_as_str (target b)) with Ok _ => true | Err _ => false end.

Definition source_summary_ok (v : SourceSummary) : bool :=
  fits 32 (semantic_wir_version v) && fits 32 (semantic_functions v) && fits 32 (hir_files v)
  && fits 32 (hir_declarations v) && fits 64 (reachable_declarations v)
  && fits 64 (monomorphized_instantiations v) && fits 64 (resolved_interface_calls v).

Definition scalar_type_ok (v : ScalarType) : bool :=
  match v with TInteger _ bits => fits 16 bits | _ => true end.

Definition type_kind_ok (v : FlowTypeKind) : bool :=
  match v with
  | KUnit | KReservation => true
  | KScalar scalar => scalar_type_ok scalar
  | KTuple ids | KStruct ids => forallb id_ok ids
  | KArray element length => id_ok element && fits 64 length
  | KEnum variants => forallb (forallb id_ok) variants
  | KFunction parameters result => forallb id_ok parameters && id_ok result
  | KActivation id | KRegionHandle id | KPoolHandle id | KActorHandle id | KTaskHandle id => id_ok id
  | KReceipt a b | KDmaToken a b => id_ok a && id_ok b
  | KOpaqueTarget name => utf8_valid name
  | KStaticString bytes | KBoundedString bytes | KStaticBytes bytes => fits 64 bytes
  end.

Definition flow_type_ok (v : FlowType) : bool :=
  id_ok (type_id v) && type_kind_ok (kind v) && option_ok utf8_valid (type_name v).

Definition part_ok (v : BoundedStringPart ValueId) : bool :=
  match v with
  | PartText value source => utf8_valid value && span_ok source
  | PartBool value source | PartCharacter value source => id_ok value && span_ok source
  | PartInteger value bytes source | PartStaticString value bytes source =>
      id_ok value && fits 64 bytes && span_ok source
  end.

Definition immediate_ok (v : Immediate) : bool :=
  match v with
  | ImmUnit | ImmBool _ | ImmBytes _ => true
  | ImmCharacter value => fits 32 value && is_scalar value
  | ImmInteger bits _ => fits 16 bits
  | ImmFloat32 value => fits 32 value
  | ImmFloat64 value => fits 64 value
  | ImmZero id | ImmGlobalAddress id | ImmFunctionAddress id => id_ok id
  end.

Definition owner_ok (v : PlanOwner) : bool :=
  match v with
  | OwnerRuntime => true
  | OwnerActor id | OwnerTask id | OwnerDevice id | OwnerPool id => id_ok id
  | BakedArtifact artifact => fits 32 artifact
  end.

Definition global_ok (v : FlowGlobal) : bool :=
  id_ok (global_id v) && utf8_valid (global_name v) && id_ok (global_ty v)
  && immediate_ok (initializer v) && owner_ok (global_owner v).

Definition operation_ok (v : FlowOperation ValueId) : bool :=
  match v with
  | ImmediateOp immediate => immediate_ok immediate
  | DeadlineRead | InterruptMask | Fence _ => true
  | Unary _ a | EnumTag a | EndAccess a | Move a | Copy a | Drop a | RegionReset a | ActorReject a
  | TaskCancel a | Park a | Wake a | InterruptRestore a | TestEmit a | TestFinish a => id_ok a
  | Binary _ a b | Cast a b _ | BeginAccess a _ b | LoadOp a b | ActorCapability a b
  | ActorReplyResolve a b | MailboxReceive a b | ReplyResolve a b | ReceiptCommit a b
  | ReceiptResolve a b | TaskAcquireSlot a b | Checkpoint a b | InterruptPublish a b
  | QueuePublish a b | ValidateDeviceValue a b => id_ok a && id_ok b
  | ActorStateAddress a b c | ExtractIndex a b c | Select a b c | StoreOp a b c | Promote a b c
  | ActorReserve a b c | QueueReserve a b c | DmaTransition a b _ _ c => id_ok a && id_ok b && id_ok c
  | Allocate a b c d | ActorReplyRequest a b c d => id_ok a && id_ok b && id_ok c && id_ok d
  | MakeAggregate a ids | Call a ids | ActorCommit a ids => id_ok a && forallb id_ok ids
  | AsyncCall a ids b | TaskStart a b ids => id_ok a && forallb id_ok ids && id_ok b
  | FormatBoundedString ty parts => id_ok ty && forallb part_ok parts
  | MakeEnum ty variant payload => id_ok ty && fits 8 variant && option_ok id_ok payload
  | EnumPayload a variant => id_ok a && option_ok (fits 8) variant
  | ExtractField a field | MmioRead a field => id_ok a && fits 32 field
  | InsertField a field b | MmioWrite a field b => id_ok a && fits 32 field && id_ok b
  | CheckOp a _ proof => id_ok a && option_ok id_ok proof
  | Assert a failure =>
      id_ok a && utf8_valid (assertion_expression failure)
      && option_ok utf8_valid (assertion_message failure) && span_ok (assertion_source failure)
  | RecordEvent kind a | ReplayEvent kind a => fits 32 kind && id_ok a
  end.

Definition switch_case_ok (v : SwitchCase ValueId) : bool :=
  fits 128 (case_value v) && id_ok (case_target v) && forallb id_ok (case_arguments v).

Definition terminator_ok (v : Terminator ValueId) : bool :=
  match v with
  | Jump target ids | TailCall target ids => id_ok target && forallb id_ok ids
  | Branch condition then_block then_ids else_block else_ids =>
      id_ok condition && id_ok then_block && forallb id_ok then_ids && id_ok else_block
      && forallb id_ok else_ids
  | Switch value cases default ids =>
      id_ok value && forallb switch_case_ok cases && id_ok default && forallb id_ok ids
  | Return ids => forallb id_ok ids
  | Suspend state activation resume => fits 32 state && id_ok activation && id_ok resume
  | Trap _ detail => option_ok id_ok detail
  | Unreachable => true
  end.

Definition function_origin_ok (v : FunctionOrigin) : bool :=
  match v with
  | SourceSemantic a => fits 32 a
  | GeneratedImageEntry a b | GeneratedTestHarness a b | GeneratedAsyncState a b
  | GeneratedCleanup a b => fits 32 a && fits 32 b
  end.

Definition function_role_ok (v : FunctionRole) : bool :=
  match v with
  | RoleActorTurn id | RoleTaskEntry id | RoleIsr id => id_ok id
  | _ => true
  end.

Definition value_ok (v : Value) : bool :=
  id_ok (value_id v) && id_ok (value_ty v) && option_ok utf8_valid (value_source_name v)
  && option_ok span_ok (value_source v).

Definition instruction_ok (v : Instruction) : bool :=
  id_ok (instruction_id v) && forallb id_ok (results v) && operation_ok (operation v)
  && option_ok span_ok (instruction_source v).

Definition block_ok (v : Block) : bool :=
  id_ok (block_id v) && forallb id_ok (block_parameters v) && forallb instruction_ok (instructions v)
  && terminator_ok (terminator v) && option_ok span_ok (block_source v).

Definition function_ok (v : FlowFunction) : bool :=
  id_ok (function_id v) && utf8_valid (function_name v) && function_origin_ok (function_origin v)
  && function_role_ok (role v) && forallb id_ok (parameters v) && forallb id_ok (result_types v)
  && forallb value_ok (values v) && forallb block_ok (blocks v) && id_ok (entry v)
  && fits 64 (stack_bound v) && fits 64 (frame_bound v) && forallb id_ok (function_proofs v)
  && option_ok span_ok (function_source v).

Definition actor_ok (v : ActorPlan) : bool :=
  id_ok (actor_id v) && utf8_valid (actor_name v) && id_ok (state_type v)
  && fits 32 (mailbox_capacity v) && forallb id_ok (message_types v) && forallb id_ok (turn_functions v)
  && fits 8 (actor_priority v) && option_ok id_ok (actor_supervisor v).

Definition task_ok (v : TaskPlan) : bool :=
  id_ok (task_id v) && utf8_valid (task_name v) && id_ok (task_entry v) && fits 32 (slots v)
  && fits 8 (task_priority v) && fits 64 (frame_bytes_bound v) && option_ok id_ok (task_supervisor v).

Definition device_ok (v : DevicePlan) : bool :=
  id_ok (device_id v) && utf8_valid (device_name v) && utf8_valid (target_binding v)
  && id_ok (device_owner v) && option_ok (fits 32) (queue_capacity v)
  && option_ok (fits 32) (maximum_in_flight v) && forallb utf8_valid (required_features v)
  && forallb utf8_valid (optional_features v) && forallb id_ok (interrupt_functions v)
  && fits 64 (device_reset_timeout_ns v).

Definition pool_ok (v : PoolPlan) : bool :=
  id_ok (pool_id v) && utf8_valid (pool_name v) && id_ok (element_type v) && fits 64 (pool_capacity v)
  && fits 64 (pool_alignment v) && forallb id_ok (pool_devices v).

Definition region_class_ok (v : RegionClass) : bool :=
  match v with RegionPool id => id_ok id | _ => true end.

Definition region_ok (v : RegionPlan) : bool :=
  id_ok (region_id v) && utf8_valid (region_name v) && region_class_ok (region_class v)
  && fits 64 (capacity_bytes v) && fits 64 (region_alignment v) && option_ok id_ok (reset_function v)
  && owner_ok (region_owner v) && id_ok (region_capacity_proof v) && span_ok (region_source v).

Definition activation_ok (v : ActivationPlan) : bool :=
  id_ok (activation_id v) && id_ok (caller v) && id_ok (callee v) && id_ok (activation_region v)
  && fits 64 (frame_bytes v) && fits 32 (maximum_live v) && id_ok (activation_capacity_proof v)
  && span_ok (activation_source v).

Definition scheduler_ok (v : SchedulerPlan) : bool :=
  fits 32 (core v) && forallb id_ok (scheduler_actors v) && forallb id_ok (scheduler_tasks v).

Definition proof_ok (v : Proof_) : bool :=
  id_ok (proof_id v) && utf8_valid (proof_subject v) && forallb span_ok (proof_sources v)
  && forallb id_ok (depends_on v) && option_ok (fits 64) (bound v) && forallb utf8_valid (explanation v).

Definition checkpoint_ok (v : CheckpointPlan) : bool :=
  id_ok (checkpoint_id v) && id_ok (checkpoint_function v) && span_ok (checkpoint_source v)
  && fits 64 (uninterrupted_bound v).

Definition test_entry_ok (v : TestEntry) : bool :=
  id_ok (entry_id v) && fits 32 (plan_id v) && digest_ok (entry_function_key v)
  && utf8_valid (entry_name v) && id_ok (entry_function v) && span_ok (entry_source v)
  && fits 64 (entry_timeout_ns v).

Definition assertion_ok (v : PlannedAssertionDescriptor) : bool :=
  span_ok (planned_source v) && utf8_valid (planned_expression v) && option_ok utf8_valid (planned_message v).

Definition invocation_ok (v : ImageTestInvocation) : bool :=
  match v with GeneratedFunction key => digest_ok (key_digest key) | DeclaredScenario => true end.

Definition planned_test_ok (v : ImageTest) : bool :=
  let d := image_descriptor v in
  fits 32 (test_id (descriptor_id d)) && utf8_valid (descriptor_name d)
  && option_ok span_ok (descriptor_source d) && fits 64 (descriptor_timeout_ns d)
  && invocation_ok (invocation v) && forallb assertion_ok (planned_assertions v).

Definition image_root_ok (v : ImageRoot) : bool :=
  match v with
  | GeneratedHarness name => utf8_valid name
  | DeclaredRoot name scenario => utf8_valid name && fits 32 scenario
  end.

Definition test_group_ok (v : FullImageTestGroup) : bool :=
  fits 32 (group_id v) && utf8_valid (group_name v) && image_root_ok (group_root v)
  && forallb planned_test_ok (group_tests v) && option_ok (fits 64) (deterministic_seed v)
  && fits 64 (boot_timeout_ns v) && fits 64 (shutdown_timeout_ns v) && fits 32 (group_maximum_events v)
  && fits 64 (maximum_output_bytes v).

Definition module_ok (v : FlowWir) : bool :=
  fits 32 (version v) && utf8_valid (wir_name v) && build_ok (build v)
  && source_summary_ok (source_summary v) && forallb flow_type_ok (types v)
  && forallb global_ok (globals v) && forallb function_ok (functions v) && forallb actor_ok (actors v)
  && forallb task_ok (tasks v) && forallb device_ok (devices v) && forallb pool_ok (pools v)
  && forallb region_ok (regions v) && forallb activation_ok (activations v)
  && forallb scheduler_ok (schedulers v) && forallb proof_ok (proofs v)
  && forallb checkpoint_ok (checkpoints v) && forallb test_entry_ok (tests v)
  && option_ok test_group_ok (compiled_test_group v) && forallb owner_ok (startup_order v)
  && forallb owner_ok (shutdown_order v) && id_ok (image_entry v) && fits 64 (wir_static_bytes v)
  && fits 64 (wir_peak_bytes v).

(** ** Copies *)

Lemma quiet_push_pieces output pieces : quiet (push_pieces output pieces) = Ok (output ++ concat pieces).
Proof.
  revert output. induction pieces as [|chunk pieces IH]; intros output; simpl; [by rewrite app_nil_r|].
  rewrite IH. by rewrite app_assoc.
Qed.

Lemma chunk_bytes_pos : (0 < Z.to_nat CANCELLABLE_CODEC_CHUNK_BYTES)%nat.
Proof. apply Nat.ltb_lt. vm_compute. reflexivity. Qed.

Lemma quiet_copy_bytes source : quiet (copy_bytes source) = Ok source.
Proof.
  unfold copy_bytes, check_cancelled. skip_questions.
  rewrite quiet_bind, quiet_push_pieces, concat_chunks by apply chunk_bytes_pos. done.
Qed.

(** A cut backs up to a place where a character may start. *)
Lemma back_up_spec source start width :
  0 <= start -> start + Z.of_nat width < len source ->
  let e := back_up source start width in
  start <= e <= start + Z.of_nat width
  /\ (e = start \/ starts_char (drop (Z.to_nat e) source))
  /\ (e = start -> forall i, start < i <= start + Z.of_nat width ->
        exists b, source !! Z.to_nat i = Some b /\ is_cont (Z_of_byte b) = true).
Proof.
  intros Hs. induction width as [|width IH]; intros Hw; cbn [back_up]; [split_and!; [lia|lia|by left|intros _ i Hi; lia]|].
  assert (exists b, source !! Z.to_nat (start + Z.of_nat (S width)) = Some b) as [b Hb].
  { apply lookup_lt_is_Some. unfold len in Hw. lia. }
  rewrite Hb. destruct (_ =? _) eqn:Hc.
  - destruct IH as (? & ? & H); [lia|]. split_and!; [lia|lia|done|].
    intros He i Hi. destruct (decide (i = start + Z.of_nat (S width))) as [->|]; [|apply H; [done|lia]].
    exists b. split; [done|]. by rewrite <- land_C0 by apply Z_of_byte_range.
  - split_and!; [lia|lia| |lia]. right. rewrite (drop_S _ b) by done. simpl.
    by rewrite <- land_C0 by apply Z_of_byte_range.
Qed.

Lemma next_char_starts b bs c rest : next_char (b :: bs) = Some (c, rest) -> is_cont (Z_of_byte b) = false.
Proof.
  unfold next_char, is_cont, second3, second4, between. pose proof (Z_of_byte_range b).
  repeat case_match; intros; try done; lia.
Qed.

Lemma valid_starts s : utf8_valid s = true -> starts_char s.
Proof.
  intros [cs H]%utf8_valid_decodes. destruct H as [|s c rest cs Hn]; [done|].
  destruct s as [|b s]; [done|]. by eapply next_char_starts.
Qed.

(** No valid text has five bytes of which only the first starts a character. *)
Lemma long_run_invalid s :
  4 < len s -> (forall i, 0 < i <= 4 -> exists b, s !! Z.to_nat i = Some b /\ is_cont (Z_of_byte b) = true) ->
  utf8_valid s = false.
Proof.
  intros Hlen Hrun. apply not_true_is_false. intros [cs H]%utf8_valid_decodes.
  destruct H as [|s c rest cs Hn Hrest]; [unfold len in Hlen; simpl in Hlen; lia|].
  destruct (next_char_spec _ _ _ Hn) as (b & tail & -> & _ & Htail & _ & _).
  rewrite len_cons, len_app in Hlen. destruct rest as [|x rest]; [rewrite len_nil in Hlen; unfold len in Hlen; lia|].
  destruct (Hrun (Z.of_nat (S (length tail)))) as (y & Hy & Hc); [lia|].
  rewrite Nat2Z.id in Hy. change ((tail ++ x :: rest) !! length tail = Some y) in Hy.
  rewrite lookup_app_r, Nat.sub_diag in Hy by done.
  injection Hy as <-. assert (Hv : utf8_valid (x :: rest) = true) by (apply utf8_valid_decodes; eauto).
  apply valid_starts in Hv. simpl in Hv. congruence.
Qed.

Lemma piece_end_spec source o :
  0 <= o < len source -> len source < 2 ^ usize ->
  let e := piece_end source o in
  (o < e <= len source /\ starts_char (drop (Z.to_nat e) source))
  \/ (e = o /\ utf8_valid (drop (Z.to_nat o) source) = false).
Proof.
  intros Ho Hlen. unfold piece_end.
  set (cut := match checked_add _ _ _ with Some _ => _ | None => _ end).
  assert (Hcut : cut = Z.min (o + CANCELLABLE_CODEC_CHUNK_BYTES) (len source)).
  { unfold cut, checked_add, CANCELLABLE_CODEC_CHUNK_BYTES in *. case_match; case_match; simplify_eq; lia. }
  rewrite Hcut. clear cut Hcut. unfold CANCELLABLE_CODEC_CHUNK_BYTES.
  destruct (Z.ltb_spec (Z.min (o + 64 * 1024) (len source)) (len source)) as [Hlt|Hge].
  - destruct (back_up_spec source o (Z.to_nat (Z.min (o + 64 * 1024) (len source) - o)))
      as (Hb & Hs & Hrun); [lia|lia|].
    set (e := back_up _ _ _) in *. rewrite Z2Nat.id in * by lia.
    destruct (decide (e = o)) as [He|He].
    + right. split; [done|]. apply long_run_invalid.
      * unfold len in *. rewrite length_drop. lia.
      * intros i Hi. destruct (Hrun He (o + i)) as (b & Hlook & Hc); [lia|]. exists b. split; [|done].
        rewrite lookup_drop. by replace (Z.to_nat o + Z.to_nat i)%nat with (Z.to_nat (o + i)) by lia.
    + left. split; [lia|]. by destruct Hs.
  - left. split; [lia|]. rewrite drop_ge; [done|]. unfold len in *. lia.
Qed.

Lemma wire_copy_loop_spec fuel source o output :
  0 <= o <= len source -> len source < 2 ^ usize -> len source - o <= Z.of_nat fuel ->
  quiet (copy_utf8_loop fuel source o output) =
    if utf8_valid (drop (Z.to_nat o) source)
    then Ok (output ++ drop (Z.to_nat o) source) else Err CodecInvalidUtf8.
Proof.
  intros Ho Hl. revert o output Ho. induction fuel as [|fuel IH]; intros o output Ho Hf; cbn [copy_utf8_loop].
  all: destruct (Z.ltb_spec o (len source)) as [Hlt|Hge];
    [|rewrite drop_ge by (unfold len in *; lia); cbn; by rewrite app_nil_r].
  { lia. }
  unfold check_cancelled. rewrite run_poll.
  destruct (piece_end_spec source o ltac:(lia) Hl) as [[He Hs]|[He Hv]]; set (e := piece_end source o) in *.
  - rewrite quiet_bind, quiet_fail_if, (proj2 (Z.eqb_neq e o)) by lia. cbn [guard_err mbind result_bind].
    rewrite quiet_bind, quiet_fail_if. set (chunk := take _ _).
    assert (Hd : drop (Z.to_nat o) source = chunk ++ drop (Z.to_nat e) source).
    { unfold chunk. rewrite <- (take_drop (Z.to_nat (e - o)) (drop (Z.to_nat o) source)) at 1.
      rewrite drop_drop. do 2 f_equal. lia. }
    rewrite Hd, utf8_valid_app by done.
    destruct (utf8_valid chunk); cbn [negb guard_err mbind result_bind andb]; [|done].
    rewrite IH by lia. by rewrite <- app_assoc.
  - rewrite quiet_bind, quiet_fail_if, (proj2 (Z.eqb_eq e o)) by lia. by rewrite Hv.
Qed.

Lemma quiet_wire_copy source :
  len source < 2 ^ usize ->
  quiet (copy_utf8 source) = if utf8_valid source then Ok source else Err CodecInvalidUtf8.
Proof.
  intros Hl. unfold copy_utf8, check_cancelled. rewrite run_poll, run_try_reserve, quiet_bind.
  rewrite wire_copy_loop_spec; [|unfold len in *; lia..].
  change (drop (Z.to_nat 0) source) with source. by destruct (utf8_valid source).
Qed.

(** ** The judgements *)

(** [out] lies in [bytes] at [position]. *)
Definition lies (bytes : list byte) (position : Z) (out : list byte) : Prop :=
  0 <= position /\ exists pre post, bytes = pre ++ out ++ post /\ len pre = position.

Lemma lies_app bytes position out out' :
  lies bytes position (out ++ out') <-> lies bytes position out /\ lies bytes (position + len out) out'.
Proof.
  split.
  - intros (Hp & pre & post & -> & <-). pose proof (len_nonneg out). split; (split; [lia|]).
    + exists pre, (out' ++ post). by rewrite <- app_assoc.
    + exists (pre ++ out), post. by rewrite len_app, <- !app_assoc.
  - intros [(Hp & pre & post & -> & <-) (_ & pre' & post' & Heq & Hlen)]. split; [done|].
    rewrite <- len_app in Hlen. rewrite app_assoc in Heq.
    apply app_inj_1 in Heq as [<- ->]; [|unfold len in Hlen; lia].
    exists pre, post'. by rewrite <- app_assoc.
Qed.

Lemma lies_nil bytes position : 0 <= position <= len bytes -> lies bytes position [].
Proof.
  intros Hp. split; [lia|]. exists (take (Z.to_nat position) bytes), (drop (Z.to_nat position) bytes).
  simpl. rewrite take_drop. split; [done|]. unfold len in *. rewrite length_take. lia.
Qed.

Lemma lies_range bytes position out :
  lies bytes position out <-> 0 <= position /\ get_range bytes position (position + len out) = Some out.
Proof.
  split.
  - intros (Hp & pre & post & Heq & Hl). split; [done|]. by eapply get_range_app.
  - intros [Hp Hr]. pose proof (len_nonneg out). apply get_range_Some in Hr as (_ & Hle & rest & Hd); [|lia..].
    split; [done|]. exists (take (Z.to_nat position) bytes), rest.
    rewrite <- Hd, take_drop. split; [done|]. unfold len in *. rewrite length_take. lia.
Qed.

Lemma lies_bound bytes position out : lies bytes position out -> position + len out <= len bytes.
Proof.
  intros (_ & pre & post & -> & <-). rewrite !len_app. pose proof (len_nonneg post). lia.
Qed.

Section laws.
Context (bytes : list byte) (limits : CodecLimits).

Definition moved (r : Reader) (out : list byte) (m : Meter) : Reader :=
  {| reader_position := reader_position r + len out; reader_meter := m |}.
Definition extended (w : Writer) (out : list byte) (m : Meter) : Writer :=
  {| written := written w ++ out; writer_meter := m |}.

Definition par {A} (e : writing) (d : reading A) (a : A) : Prop :=
  forall w w', quiet (e w) = Ok (tt, w') ->
  exists out, w' = extended w out (writer_meter w')
    /\ forall r, lies bytes (reader_position r) out -> reader_meter r = writer_meter w ->
       quiet (d r) = Ok (a, moved r out (writer_meter w')).

Definition emits (e : writing) (m : Meter) (out : list byte) (m' : Meter) : Prop :=
  forall w, writer_meter w = m -> len (written w) + len out <= codec_frame_bytes limits ->
  quiet (e w) = Ok (tt, extended w out m').

(** What [d] takes is what [e] writes. *)
Definition takes (r : Reader) (e : writing) (r' : Reader) : Prop :=
  exists out, lies bytes (reader_position r) out
    /\ reader_position r' = reader_position r + len out
    /\ emits e (reader_meter r) out (reader_meter r').

Class Unpar {A} (d : reading A) (e : A -> writing) (ok : A -> bool) : Prop :=
  unpar : forall r a r', 0 <= reader_position r <= len bytes -> quiet (d r) = Ok (a, r') ->
    ok a = true /\ takes r (e a) r'.

Lemma par_mret {A} (a : A) : par (mret tt) (mret a) a.
Proof.
  intros w w' [= <-]. exists []. split; [destruct w; unfold extended; simpl; by rewrite app_nil_r|].
  intros r _ Hm. unfold moved. rewrite <- Hm. simpl. destruct r. by rewrite len_nil, Z.add_0_r.
Qed.

Lemma par_bind {A B} (e1 e2 : writing) (d1 : reading B) (k : B -> reading A) b a :
  par e1 d1 b -> par e2 (k b) a -> par (_ ← e1; e2) (d1 ≫= k) a.
Proof.
  intros H1 H2 w w' (u & w1 & Hw1 & Hw')%quietS_bind_Ok. destruct u.
  destruct (H1 _ _ Hw1) as (out1 & E1 & R1). destruct (H2 _ _ Hw') as (out2 & E2 & R2).
  exists (out1 ++ out2). split.
  - rewrite E2, E1. unfold extended. simpl. by rewrite app_assoc.
  - intros r [L1 L2]%lies_app Hm. apply quietS_bind_Ok. exists b, (moved r out1 (writer_meter w1)).
    split; [by apply R1|]. rewrite R2; [|done|done]. unfold moved. simpl. by rewrite len_app, Z.add_assoc.
Qed.

(** The last field of a record, or the only one of a case. *)
Lemma par_last {A B} (e : writing) (d : reading B) (k : B -> reading A) b a :
  par e d b -> k b = mret a -> par e (d ≫= k) a.
Proof.
  intros H Hk w w' Hw. destruct (H _ _ Hw) as (out & E & R). exists out. split; [done|].
  intros r L Hm. apply quietS_bind_Ok. exists b, (moved r out (writer_meter w')). split; [by apply R|]. by rewrite Hk.
Qed.


(** A step of the writer, or of the reader, alone. *)
Lemma par_poll {A} (e : writing) (d : reading A) a : par e d a -> par (_ ← writer_poll; e) d a.
Proof. intros H w w' Hw. by apply H. Qed.
Lemma par_poll_reader {A} (e : writing) (d : reading A) a : par e d a -> par e (_ ← reader_poll; d) a.
Proof.
  intros H w w' Hw. destruct (H _ _ Hw) as (out & E & R). exists out. split; [done|].
  intros r L Hm. by apply R.
Qed.
Lemma par_check {A} bad err (e : writing) (d : reading A) a :
  bad = false -> par e d a -> par e (_ ← throws (fail_if bad err); d) a.
Proof.
  intros -> H w w' Hw. destruct (H _ _ Hw) as (out & E & R). exists out. split; [done|].
  intros r L Hm. by apply R.
Qed.

(** The same check on both sides. *)
Lemma par_same_check {A} (c : result CodecError unit) (e : writing) (d : reading A) a :
  par e d a -> par (_ ← liftS (lift c); e) (_ ← throws (lift c); d) a.
Proof. destruct c as [[]|]; [done|]. intros _ w w' [=]. Qed.

Lemma takes_check r r' (c : result CodecError unit) (e : writing) :
  c = Ok tt -> takes r e r' -> takes r (_ ← liftS (lift c); e) r'.
Proof. intros ->. done. Qed.

(** A check that the reader has passed. *)
Lemma check_passed {A} (c : result CodecError unit) (d : reading A) r x :
  quiet ((_ ← throws (lift c); d) r) = Ok x -> c = Ok tt /\ quiet (d r) = Ok x.
Proof. by destruct c as [[]|]. Qed.

Lemma quiet_mret_Ok {A} (a b : A) (r r' : Reader) :
  quiet ((mret a : reading A) r) = Ok (b, r') -> a = b /\ r = r'.
Proof. intros [= -> ->]. done. Qed.

Lemma takes_trans r r1 r2 e1 e2 : takes r e1 r1 -> takes r1 e2 r2 -> takes r (_ ← e1; e2) r2.
Proof.
  intros (out1 & L1 & P1 & M1) (out2 & L2 & P2 & M2). exists (out1 ++ out2). split_and!.
  - apply lies_app. by rewrite <- P1.
  - rewrite P2, P1, len_app. lia.
  - intros w Hm Hroom. rewrite len_app in Hroom. pose proof (len_nonneg out2).
    apply quietS_bind_Ok. exists tt, (extended w out1 (reader_meter r1)). split; [apply M1; [done|lia]|].
    rewrite M2; [unfold extended; simpl; by rewrite app_assoc|done|].
    unfold extended. simpl. rewrite len_app. lia.
Qed.

Lemma takes_mret r : 0 <= reader_position r <= len bytes -> takes r (mret tt) r.
Proof.
  intros Hp. exists []. split_and!; [by apply lies_nil|rewrite len_nil; lia|].
  intros w <- _. destruct w. unfold extended. simpl. by rewrite app_nil_r.
Qed.

Lemma takes_poll r r' (e : writing) : takes r e r' -> takes r (_ ← writer_poll; e) r'.
Proof. intros (out & ? & ? & H). exists out. split_and!; [done..|]. intros w ? ?. by apply H. Qed.

Lemma takes_bounds r e r' :
  takes r e r' -> 0 <= reader_position r' <= len bytes.
Proof.
  intros (out & L & -> & _). pose proof (lies_bound _ _ _ L). pose proof (len_nonneg out). destruct L as [? _]. lia.
Qed.

(** ** Primitives *)

Hypothesis Hbytes : len bytes < 2 ^ usize.
Hypothesis Hframe : codec_frame_bytes limits < 2 ^ usize.

Lemma quiet_write_raw value w u w' :
  quiet (write_raw limits value w) = Ok (u, w') <->
  w' = extended w value (writer_meter w) /\ len (written w) + len value <= codec_frame_bytes limits.
Proof.
  unfold write_raw, writer_poll, writer_reserve, check_cancelled. destruct u.
  rewrite quietS_bind_Ok. setoid_rewrite quiet_liftS_Ok. setoid_rewrite quietS_bind_Ok.
  assert (Hpush : forall w0, quiet ((output ← push_pieces (written w0)
      (chunks (Z.to_nat CANCELLABLE_CODEC_CHUNK_BYTES) value);
      Ret (tt, {| written := output; writer_meter := writer_meter w0 |}))) = Ok (tt, extended w0 value (writer_meter w0))).
  { intros w0. by rewrite quiet_bind, quiet_push_pieces, concat_chunks by apply chunk_bytes_pos. }
  split.
  - intros (? & ? & [_ ->] & [] & w1 & Hres & H). quiet_inv Hres. unfold enforce in *.
    inv_ok. apply checked_add_Some in Hlift as [_ ->]. apply Z.ltb_ge in Hlift0.
    apply quietS_bind_Ok in H as ([] & w2 & H2 & H3). rewrite Hpush in H2. injection H2 as <-.
    by injection H3 as <-.
  - intros [-> Hroom]. exists tt, w. split; [done|]. exists tt, w. split.
    + rewrite quiet_bind. unfold checked_add. rewrite (proj2 (Z.ltb_lt _ _)) by lia. cbn.
      unfold enforce. by rewrite (proj2 (Z.ltb_ge _ _)) by lia.
    + apply quietS_bind_Ok. exists tt, (extended w value (writer_meter w)). split; [apply Hpush|done].
Qed.

Lemma quiet_read_raw n r x r' :
  0 <= reader_position r -> 0 <= n ->
  quiet (read_raw bytes n r) = Ok (x, r') <->
  len x = n /\ lies bytes (reader_position r) x /\ r' = moved r x (reader_meter r).
Proof.
  intros Hp Hn. unfold read_raw. rewrite quiet_bind, quiet_lift. split.
  - intros (end_ & Hend & H)%result_bind_Ok. inv_ok. apply checked_add_Some in Hend as [_ ->].
    quiet_inv H. inv_ok. pose proof Hlift as (Hl & _)%get_range_Some; [|lia..].
    subst n. split_and!; [done| |done].
    by apply lies_range.
  - intros (<- & L & ->). pose proof (lies_bound _ _ _ L). apply lies_range in L as [_ L].
    unfold checked_add. rewrite (proj2 (Z.ltb_lt _ _)) by lia. cbn. by rewrite L.
Qed.

Lemma par_raw value n : len value = n -> par (write_raw limits value) (read_raw bytes n) value.
Proof.
  intros <- w w' Hw. apply quiet_write_raw in Hw as [-> _]. exists value. split; [done|].
  intros r L Hm. apply quiet_read_raw; [apply L|apply len_nonneg|]. split_and!; [done..|]. by rewrite Hm.
Qed.

Lemma emits_raw value m : emits (write_raw limits value) m value m.
Proof. intros w <- Hroom. by apply quiet_write_raw. Qed.

Lemma takes_raw n r x r' :
  0 <= reader_position r <= len bytes -> 0 <= n -> quiet (read_raw bytes n r) = Ok (x, r') ->
  len x = n /\ takes r (write_raw limits x) r'.
Proof.
  intros Hp Hn H. apply quiet_read_raw in H as (<- & L & ->); [|lia..]. split; [done|].
  exists x. split_and!; [done..|]. apply emits_raw.
Qed.

(** Fixed-width integers, little-endian. *)
Lemma par_le n value :
  0 <= value < 256 ^ Z.of_nat n ->
  par (write_raw limits (le_bytes n value)) (value ← read_raw bytes (Z.of_nat n); mret (le_value value)) value.
Proof.
  intros Hv. eapply par_last; [apply par_raw, len_le_bytes|]. simpl. by rewrite le_value_bytes.
Qed.

Lemma unpar_le n r a r' :
  0 <= reader_position r <= len bytes ->
  quiet ((value ← read_raw bytes (Z.of_nat n); mret (le_value value)) r) = Ok (a, r') ->
  0 <= a < 256 ^ Z.of_nat n /\ takes r (write_raw limits (le_bytes n a)) r'.
Proof.
  intros Hp (x & r1 & Hr & [= <- <-])%quietS_bind_Ok. apply takes_raw in Hr as [Hl Ht]; [|lia..].
  assert (Hn : length x = n) by (unfold len in Hl; lia). rewrite <- Hn. split; [apply le_value_bounds|].
  by rewrite le_bytes_value.
Qed.

Lemma par_u8 value : fits 8 value = true -> par (write_u8 limits value) (read_u8 bytes) value.
Proof. intros Hv%fits_spec. by apply (par_le 1). Qed.
Lemma par_u16 value : fits 16 value = true -> par (write_u16 limits value) (read_u16 bytes) value.
Proof. intros Hv%fits_spec. by apply (par_le 2). Qed.
Lemma par_u32 value : fits 32 value = true -> par (write_u32 limits value) (read_u32 bytes) value.
Proof. intros Hv%fits_spec. by apply (par_le 4). Qed.
Lemma par_u64 value : fits 64 value = true -> par (write_u64 limits value) (read_u64 bytes) value.
Proof. intros Hv%fits_spec. by apply (par_le 8). Qed.
Lemma par_u128 value : fits 128 value = true -> par (write_u128 limits value) (read_u128 bytes) value.
Proof. intros Hv%fits_spec. by apply (par_le 16). Qed.

#[export] Instance unpar_u8 : Unpar (read_u8 bytes) (write_u8 limits) (fits 8).
Proof. intros r a r' Hp H. apply (unpar_le 1) in H as [Ha Ht]; [|done]. split; [by apply fits_spec|done]. Qed.
#[export] Instance unpar_u16 : Unpar (read_u16 bytes) (write_u16 limits) (fits 16).
Proof. intros r a r' Hp H. apply (unpar_le 2) in H as [Ha Ht]; [|done]. split; [by apply fits_spec|done]. Qed.
#[export] Instance unpar_u32 : Unpar (read_u32 bytes) (write_u32 limits) (fits 32).
Proof. intros r a r' Hp H. apply (unpar_le 4) in H as [Ha Ht]; [|done]. split; [by apply fits_spec|done]. Qed.
#[export] Instance unpar_u64 : Unpar (read_u64 bytes) (write_u64 limits) (fits 64).
Proof. intros r a r' Hp H. apply (unpar_le 8) in H as [Ha Ht]; [|done]. split; [by apply fits_spec|done]. Qed.
#[export] Instance unpar_u128 : Unpar (read_u128 bytes) (write_u128 limits) (fits 128).
Proof. intros r a r' Hp H. apply (unpar_le 16) in H as [Ha Ht]; [|done]. split; [by apply fits_spec|done]. Qed.

Lemma par_id id : id_ok id = true -> par (write_id limits id) (read_id bytes) id.
Proof. intros H. eapply par_last; [by apply par_u32|]. simpl. by rewrite N2Z.id. Qed.

#[export] Instance unpar_id : Unpar (read_id bytes) (write_id limits) id_ok.
Proof.
  intros r a r' Hp (v & r1 & Hv & [= <- <-])%quietS_bind_Ok. apply unpar in Hv as [Hok Ht]; [|done].
  unfold id_ok, write_id. rewrite Z2N.id; [done|]. by apply fits_spec in Hok as [? _].
Qed.

Lemma par_digest value : digest_ok value = true -> par (write_digest limits value) (read_digest bytes) value.
Proof.
  intros H%Nat.eqb_eq. eapply par_last; [apply par_raw; unfold len; by rewrite H|]. by destruct value.
Qed.

#[export] Instance unpar_digest : Unpar (read_digest bytes) (write_digest limits) digest_ok.
Proof.
  intros r a r' Hp (v & r1 & Hv & [= <- <-])%quietS_bind_Ok. apply takes_raw in Hv as [Hl Ht]; [|lia..].
  split; [|done]. apply Nat.eqb_eq. simpl. unfold len in Hl. lia.
Qed.

Lemma par_bool value : par (write_bool limits value) (read_bool bytes) value.
Proof. eapply par_last; [by apply par_u8; destruct value|]. by destruct value. Qed.

#[export] Instance unpar_bool : Unpar (read_bool bytes) (write_bool limits) (fun _ => true).
Proof.
  intros r a r' Hp (v & r1 & Hv & H)%quietS_bind_Ok. apply unpar in Hv as [_ Ht]; [|done]. split; [done|].
  destruct v as [|[]|]; try done; injection H as <- <-; done.
Qed.

(** ** Counted data *)

Lemma read_u32_at r value :
  fits 32 value = true -> lies bytes (reader_position r) (u32_le value) ->
  quiet (read_u32 bytes r) = Ok (value, moved r (u32_le value) (reader_meter r)).
Proof.
  intros Hv%fits_spec L. apply quietS_bind_Ok. exists (u32_le value), (moved r (u32_le value) (reader_meter r)).
  split; [apply quiet_read_raw; [apply L|lia|done]|]. unfold u32_le. by rewrite le_value_bytes.
Qed.

Lemma par_counted {A B} (charge : Z -> Meter -> result CodecError Meter) (xs : list B) body (k : Z -> reading A) a :
  (len xs <= u32_max -> par body (k (len xs)) a) ->
  par (_ ← charging_writer (charge (len xs)); _ ← write_length limits xs; body)
      (n ← read_u32 bytes; _ ← charging_reader (charge n); k n) a.
Proof.
  intros H w w' ([] & w1 & Hc & ([] & w2 & Hl & Hb)%quietS_bind_Ok)%quietS_bind_Ok.
  unfold charging_writer in Hc. quiet_inv Hc. inv_ok.
  apply quietS_bind_Ok in Hl as (n & w3 & [Hn ->]%quiet_liftS_Ok & Hu). rewrite quiet_lift in Hn. inv_ok.
  apply try_u32_Some in Hn as [Hle ->]. specialize (H Hle). unfold u32_max in Hle. pose proof (len_nonneg xs).
  apply quiet_write_raw in Hu as [-> _].
  destruct (H _ _ Hb) as (out & E & R). exists (u32_le (len xs) ++ out). split.
  - rewrite E. unfold extended. cbn [written writer_meter]. by rewrite app_assoc.
  - intros r [L1 L2]%lies_app Hm. apply quietS_bind_Ok. exists (len xs). eexists.
    split; [apply read_u32_at; [apply fits_spec; lia|done]|].
    apply quietS_bind_Ok. eexists tt, (moved r (u32_le (len xs)) _). split.
    { unfold charging_reader. cbn [moved reader_meter]. by rewrite Hm, Hlift. }
    rewrite R; [|done|done]. unfold moved. cbn [reader_position]. by rewrite len_app, Z.add_assoc.
Qed.

Lemma read_u32_inv r value r' :
  0 <= reader_position r -> quiet (read_u32 bytes r) = Ok (value, r') ->
  fits 32 value = true /\ lies bytes (reader_position r) (u32_le value)
  /\ r' = moved r (u32_le value) (reader_meter r).
Proof.
  intros Hp (x & r1 & Hr & [= <- <-])%quietS_bind_Ok. apply quiet_read_raw in Hr as (Hl & L & ->); [|lia..].
  destruct (le_value_of_len 4 x _ Hl eq_refl) as [Hx Hv]. split; [by apply fits_spec|].
  unfold u32_le. by rewrite <- Hx.
Qed.

Lemma unpar_counted {A} (charge : Z -> Meter -> result CodecError Meter) (k : Z -> reading A) r a r' :
  0 <= reader_position r <= len bytes ->
  quiet ((n ← read_u32 bytes; _ ← charging_reader (charge n); k n) r) = Ok (a, r') ->
  exists n r1, 0 <= n /\ 0 <= reader_position r1 <= len bytes /\ quiet (k n r1) = Ok (a, r')
    /\ forall B (xs : list B) body, len xs = n -> takes r1 body r' ->
       takes r (_ ← charging_writer (charge (len xs)); _ ← write_length limits xs; body) r'.
Proof.
  intros Hp (n & r1 & Hn & ([] & r2 & Hc & Hk)%quietS_bind_Ok)%quietS_bind_Ok.
  apply read_u32_inv in Hn as (Hn%fits_spec & L & ->); [|lia].
  unfold charging_reader in Hc. quiet_inv Hc. inv_ok. cbn [moved reader_meter reader_position] in *.
  pose proof (lies_bound _ _ _ L). pose proof (len_nonneg (u32_le n)).
  exists n. eexists. split_and!; [lia| | |done|]; [cbn [reader_position]; lia..|].
  intros B xs body <- (out & L' & P & M). exists (u32_le (len xs) ++ out).
  cbn [reader_position reader_meter] in *. split_and!.
  - apply lies_app. by split.
  - rewrite P, len_app. lia.
  - intros w Hm Hroom. rewrite len_app in Hroom. pose proof (len_nonneg out).
    apply quietS_bind_Ok. exists tt. eexists. split.
    { unfold charging_writer. by rewrite quiet_bind, quiet_lift, Hm, Hlift. }
    apply quietS_bind_Ok. exists tt. eexists. split.
    { apply quietS_bind_Ok. exists (len xs). eexists. split.
      - apply quiet_liftS_Ok. split; [|done]. rewrite quiet_lift. apply ok_or_Ok, try_u32_Some. unfold u32_max. lia.
      - apply quiet_write_raw. split; [done|]. cbn [written]. lia. }
    rewrite M; [|done|unfold extended; cbn [written]; rewrite len_app; lia].
    unfold extended. cbn [written]. by rewrite app_assoc.
Qed.

(** A step that reads nothing. *)
Lemma par_still {A} (d : reading A) a : (forall r, quiet (d r) = Ok (a, r)) -> par writer_poll d a.
Proof.
  intros H w w' [= <-]. exists []. split; [destruct w; unfold extended; simpl; by rewrite app_nil_r|].
  intros r _ Hm. rewrite H. unfold moved. rewrite <- Hm. destruct r. by rewrite len_nil, Z.add_0_r.
Qed.

Lemma small_length {A} (xs : list A) : len xs <= u32_max -> len xs < 2 ^ usize.
Proof. unfold u32_max, usize. lia. Qed.

Lemma par_string value : utf8_valid value = true -> par (write_string limits value) (read_string bytes limits) value.
Proof.
  intros Hv. apply par_poll, par_poll_reader.
  apply (par_counted (fun n => charge_string n _ _) value). intros Hle%small_length.
  eapply par_bind; [by apply par_raw|]. apply par_still. intros r.
  apply quiet_liftS_Ok. by rewrite quiet_wire_copy, Hv.
Qed.

Lemma par_bytes value : par (write_bytes limits value) (read_bytes bytes limits) value.
Proof.
  apply par_poll, par_poll_reader, (par_counted (fun n => charge_vector n General limits) value). intros _.
  eapply par_bind; [by apply par_raw|]. apply par_still. intros r.
  apply quiet_liftS_Ok. by rewrite quiet_copy_bytes.
Qed.

Lemma takes_then_poll r (e : writing) r' : takes r e r' -> takes r (_ ← e; writer_poll) r'.
Proof.
  intros H. eapply takes_trans; [done|]. apply takes_bounds in H as Hb.
  destruct (takes_mret r' Hb) as (out & ? & ? & Hm). exists out. split_and!; [done..|]. intros w ? ?. by apply Hm.
Qed.

#[export] Instance unpar_string : Unpar (read_string bytes limits) (write_string limits) utf8_valid.
Proof.
  intros r a r' Hp ([] & r0 & [= <-] & H)%quietS_bind_Ok.
  apply (unpar_counted (fun n => charge_string n _ _)) in H as (n & r1 & Hn & Hb & H & Hback); [|done].
  apply quietS_bind_Ok in H as (x & r2 & Hx & [Hc ->]%quiet_liftS_Ok).
  pose proof Hx as (_ & L%lies_bound & _)%quiet_read_raw; [|lia..].
  apply takes_raw in Hx as [Hl Ht]; [|done..]. rewrite quiet_wire_copy in Hc by lia.
  destruct (utf8_valid x) eqn:Hv; [|done]. injection Hc as <-.
  split; [done|]. apply takes_poll, Hback; [done|]. by apply takes_then_poll.
Qed.

#[export] Instance unpar_bytes : Unpar (read_bytes bytes limits) (write_bytes limits) (fun _ => true).
Proof.
  intros r a r' Hp ([] & r0 & [= <-] & H)%quietS_bind_Ok.
  apply (unpar_counted (fun n => charge_vector n General limits)) in H as (n & r1 & Hn & Hb & H & Hback); [|done].
  apply quietS_bind_Ok in H as (x & r2 & Hx & [Hc ->]%quiet_liftS_Ok).
  apply takes_raw in Hx as [Hl Ht]; [|done..]. rewrite quiet_copy_bytes in Hc. injection Hc as <-.
  split; [done|]. apply takes_poll, Hback; [done|]. by apply takes_then_poll.
Qed.

(** ** Vectors and options *)

Lemma par_each {A} (ok : A -> bool) (enc : A -> writing) (dec : reading A) xs :
  (forall x, ok x = true -> par (enc x) dec x) -> forallb ok xs = true ->
  par (write_each xs enc) (read_each (length xs) dec) xs.
Proof.
  intros H. induction xs as [|x xs IH]; [intros _; apply par_mret|]. intros [Hx Hxs]%andb_true_iff.
  apply par_poll, par_poll_reader. eapply par_bind; [by apply H|]. cbv beta.
  eapply par_last; [by apply IH|done].
Qed.

Lemma par_vector {A} kind (ok : A -> bool) (enc : A -> writing) (dec : reading A) xs :
  (forall x, ok x = true -> par (enc x) dec x) -> forallb ok xs = true ->
  par (write_vector limits xs kind enc) (read_vector bytes limits kind dec) xs.
Proof.
  intros H Hxs. apply par_poll, par_poll_reader, (par_counted (fun n => charge_vector n kind limits) xs).
  intros _ w w' Hw. destruct (par_each ok enc dec xs H Hxs w w' Hw) as (out & E & R). exists out.
  split; [done|]. intros r L Hm. unfold len. rewrite Nat2Z.id. by apply R.
Qed.

Lemma unpar_each {A} (dec : reading A) enc ok `{!Unpar dec enc ok} n r xs r' :
  0 <= reader_position r <= len bytes -> quiet (read_each n dec r) = Ok (xs, r') ->
  length xs = n /\ forallb ok xs = true /\ takes r (write_each xs enc) r'.
Proof.
  revert r xs. induction n as [|n IH]; intros r xs Hp; cbn [read_each].
  { intros [= <- <-]. split_and!; [done..|]. by apply takes_mret. }
  intros ([] & r0 & [= <-] & (x & r1 & Hx & (ys & r2 & Hys & [= <- <-])%quietS_bind_Ok)%quietS_bind_Ok)%quietS_bind_Ok.
  apply unpar in Hx as [Hok Ht]; [|done].
  apply IH in Hys as (Hl & Hoks & Hts); [|by eapply takes_bounds]. cbn [length forallb write_each].
  split_and!; [by rewrite Hl|by rewrite Hok|]. apply takes_poll. by eapply takes_trans.
Qed.

#[export] Instance unpar_vector {A} kind (dec : reading A) enc ok `{!Unpar dec enc ok} :
  Unpar (read_vector bytes limits kind dec) (fun xs => write_vector limits xs kind enc) (forallb ok).
Proof.
  intros r a r' Hp ([] & r0 & [= <-] & H)%quietS_bind_Ok.
  apply (unpar_counted (fun n => charge_vector n kind limits)) in H as (n & r1 & Hn & Hb & H & Hback); [|done].
  apply quietS_bind_Ok in H as ([] & r2 & [= <-] & H).
  eapply unpar_each in H as (Hl & Hok & Ht); [|done..].
  split; [done|]. apply takes_poll, Hback; [unfold len; lia|done].
Qed.

Lemma par_option {A} (ok : A -> bool) (enc : A -> writing) (dec : reading A) o :
  (forall x, ok x = true -> par (enc x) dec x) -> option_ok ok o = true ->
  par (write_option limits o enc) (read_option bytes dec) o.
Proof.
  intros H Ho. destruct o as [x|]; simpl in Ho.
  - eapply par_bind; [by apply par_u8|]. eapply par_last; [by apply H|done].
  - eapply par_last; [by apply par_u8|done].
Qed.

#[export] Instance unpar_option {A} (dec : reading A) enc ok `{!Unpar dec enc ok} :
  Unpar (read_option bytes dec) (fun o => write_option limits o enc) (option_ok ok).
Proof.
  intros r o r' Hp (tag & r1 & Ht & H)%quietS_bind_Ok. apply unpar in Ht as [_ Ht]; [|done].
  destruct tag as [|[]|]; try done.
  - by injection H as <- <-.
  - apply quietS_bind_Ok in H as (x & r2 & Hx & [= <- <-]).
    apply unpar in Hx as [Hok Htx]; [|by eapply takes_bounds]. split; [done|]. by eapply takes_trans.
Qed.

(** ** Reader and writer agree

    [Wired d e ok]: on what is [ok], [d] undoes [e]; and [d] reads nothing else. *)
Class Wired {A} (d : reading A) (e : A -> writing) (ok : A -> bool) : Prop := {
  wired_par : forall a, ok a = true -> par (e a) d a;
  wired_unpar :: Unpar d e ok;
}.

#[export] Instance wired_u8 : Wired (read_u8 bytes) (write_u8 limits) (fits 8).
Proof. split; [apply par_u8|apply _]. Qed.
#[export] Instance wired_u16 : Wired (read_u16 bytes) (write_u16 limits) (fits 16).
Proof. split; [apply par_u16|apply _]. Qed.
#[export] Instance wired_u32 : Wired (read_u32 bytes) (write_u32 limits) (fits 32).
Proof. split; [apply par_u32|apply _]. Qed.
#[export] Instance wired_u64 : Wired (read_u64 bytes) (write_u64 limits) (fits 64).
Proof. split; [apply par_u64|apply _]. Qed.
#[export] Instance wired_u128 : Wired (read_u128 bytes) (write_u128 limits) (fits 128).
Proof. split; [apply par_u128|apply _]. Qed.
#[export] Instance wired_id : Wired (read_id bytes) (write_id limits) id_ok.
Proof. split; [apply par_id|apply _]. Qed.
#[export] Instance wired_digest : Wired (read_digest bytes) (write_digest limits) digest_ok.
Proof. split; [apply par_digest|apply _]. Qed.
#[export] Instance wired_bool : Wired (read_bool bytes) (write_bool limits) (fun _ => true).
Proof. split; [intros a _; apply par_bool|apply _]. Qed.
#[export] Instance wired_string : Wired (read_string bytes limits) (write_string limits) utf8_valid.
Proof. split; [apply par_string|apply _]. Qed.
#[export] Instance wired_bytes : Wired (read_bytes bytes limits) (write_bytes limits) (fun _ => true).
Proof. split; [intros a _; apply par_bytes|apply _]. Qed.
#[export] Instance wired_vector {A} kind (d : reading A) e ok `{!Wired d e ok} :
  Wired (read_vector bytes limits kind d) (fun xs => write_vector limits xs kind e) (forallb ok).
Proof. split; [intros a; apply par_vector, wired_par|apply _]. Qed.
#[export] Instance wired_option {A} (d : reading A) e ok `{!Wired d e ok} :
  Wired (read_option bytes d) (fun o => write_option limits o e) (option_ok ok).
Proof. split; [intros a; apply par_option, wired_par|apply _]. Qed.
#[export] Instance wired_id_vector :
  Wired (read_id_vector bytes limits) (write_id_vector limits) (forallb id_ok).
Proof. exact (wired_vector General (read_id bytes) (write_id limits) id_ok). Qed.
End laws.

(** ** Automation *)

(** The facts that a typing predicate consists of. *)
Ltac typed :=
  cbv beta iota zeta in *;
  repeat match goal with
  | H : _ && _ = true |- _ => apply andb_true_iff in H as [? H]
  end.

(** The law of one field: the reader determines the writer. *)
Ltac par_field :=
  lazymatch goal with
  | _ : codec_frame_bytes ?limits < _ |- par ?bytes _ ?d _ =>
      let law := fresh in
      pose proof (wired_par bytes limits (d := d)) as law; cbv beta in law;
      first [eapply law; eassumption|eapply law; reflexivity]; clear law
  end.

(** Writer and reader side by side, a field at a time. *)
Ltac par_fields :=
  cbv beta iota;
  lazymatch goal with
  | |- par _ _ (mbind _ (throws _)) _ => eapply par_same_check; par_fields
  | |- par _ (mbind _ _) (mbind _ _) _ => eapply par_bind; [par_field|par_fields]
  | |- par _ _ (mbind _ _) _ => eapply par_last; [par_field|cbv beta iota]
  | |- par _ _ (mret _) _ => idtac
  end.

Ltac par_record ok write read :=
  let H := fresh "H" in
  intros H; unfold ok in H; typed; unfold write, read; par_fields; match goal with |- _ = mret ?v => first [by destruct v|by destruct v as [[?] []]|by destruct v as [[[]]]] end.

(** A tagged union: its tag, then the fields of its case. *)
Ltac par_case ok write read :=
  let H := fresh "H" in
  intros H; unfold ok in H; typed; unfold write, read;
  cbv beta iota;
  lazymatch goal with
  | |- par _ (mbind _ _) _ _ => eapply par_bind; [by apply par_u8|par_fields; first [reflexivity|match goal with |- _ = mret (_ ?f) => by destruct f | |- _ = mret (_ _ ?f) => by destruct f end]]
  | |- par _ (write_u8 _ _) _ _ => eapply par_last; [by apply par_u8|reflexivity]
  end.

Ltac par_sum ok write read :=
  match goal with |- _ -> par _ _ _ ?v => destruct v end; par_case ok write read.

(** The parts that a reader has read, each with what its writer writes. *)
Ltac unpar_field H :=
  let r1 := fresh "r" in let Hx := fresh "Hx" in let Hok := fresh "Hok" in let Ht := fresh "Ht" in let Hp := fresh "Hp" in
  apply quietS_bind_Ok in H as (? & r1 & Hx & H); cbv beta in H;
  match goal with
  | _ : 0 <= reader_position ?r <= len ?bytes, _ : codec_frame_bytes ?limits < _ |- _ =>
      pose proof (unpar bytes limits r _ r1 ltac:(assumption) Hx) as [Hok Ht]; clear Hx; cbv beta in Hok, Ht;
      pose proof (takes_bounds _ _ _ _ _ Ht) as Hp
  end.
Ltac unpar_fields H :=
  lazymatch type of H with
  | quiet (mbind _ (throws _) _) = Ok _ => apply check_passed in H as [? H]; unpar_fields H
  | quiet (mbind _ _ _) = Ok _ => unpar_field H; unpar_fields H
  | quiet (mret _ _) = Ok _ => apply quiet_mret_Ok in H as [<- <-]
  | _ => idtac
  end.

Ltac takes_fields :=
  cbv beta iota zeta;
  lazymatch goal with
  | |- takes _ _ _ (mbind _ (liftS _)) _ => apply takes_check; [assumption|takes_fields]
  | |- takes _ _ _ (mbind _ _) _ => eapply takes_trans; [eassumption|takes_fields]
  | |- takes _ _ _ _ _ => eassumption
  end.

(** Split on the tag that was read. *)
Ltac split_tag H :=
  cbv iota in H;
  lazymatch type of H with
  | quiet (throws _ _) = _ => discriminate H
  | quiet (match ?t with Z0 => _ | Zpos _ => _ | Zneg _ => _ end _) = _ => destruct t; split_tag H
  | quiet (match ?t with xI _ => _ | xO _ => _ | xH => _ end _) = _ => destruct t; split_tag H
  | _ => idtac
  end.

Ltac typed_goal :=
  cbv beta iota zeta;
  lazymatch goal with
  | |- _ && _ = true => apply andb_true_intro; split; typed_goal
  | |- true = true => reflexivity
  | |- _ => assumption
  end.

Ltac unpar_record ok write read :=
  let H := fresh "H" in
  intros ? ? ? ? H; unfold read in H; unpar_fields H; split; [unfold ok; typed_goal|unfold write; takes_fields].

Ltac unpar_sum ok write read :=
  let H := fresh "H" in
  intros ? ? ? ? H; unfold read in H; unpar_field H; split_tag H; unpar_fields H;
  (split; [unfold ok; typed_goal|unfold write; takes_fields]).

Ltac wired_record ok write read :=
  split; [intros ?; par_record ok write read|unpar_record ok write read].
Ltac par_enum write read :=
  intros v _; destruct v; unfold write, read; cbv beta iota;
  (eapply par_last; [by apply par_u8|reflexivity]).
Ltac unpar_enum write read :=
  let H := fresh "H" in
  intros ? ? ? ? H; unfold read in H; unpar_field H; split_tag H; unpar_fields H;
  (split; [reflexivity|unfold write; takes_fields]).
Ltac wired_enum write read := split; [par_enum write read|unpar_enum write read].

Ltac wired_sum ok write read :=
  split; [intros ?; par_sum ok write read|unpar_sum ok write read].

Section types.
Context (bytes : list byte) (limits : CodecLimits).
Hypothesis Hbytes : len bytes < 2 ^ usize.
Hypothesis Hframe : codec_frame_bytes limits < 2 ^ usize.

#[local] Hint Extern 0 (_ < 2 ^ usize) => assumption : typeclass_instances.

#[export] Instance wired_span : Wired bytes limits (read_span bytes) (write_span limits) span_ok.
Proof. wired_record span_ok write_span read_span. Qed.

#[export] Instance wired_source_summary : Wired bytes limits (read_source_summary bytes) (write_source_summary limits) source_summary_ok.
Proof. wired_record source_summary_ok write_source_summary read_source_summary. Qed.

#[export] Instance wired_scalar_type : Wired bytes limits (read_scalar_type bytes) (write_scalar_type limits) scalar_type_ok.
Proof. wired_sum scalar_type_ok write_scalar_type read_scalar_type. Qed.

#[export] Instance wired_type_kind : Wired bytes limits (read_type_kind bytes limits) (write_type_kind limits) type_kind_ok.
Proof. wired_sum type_kind_ok write_type_kind read_type_kind. Qed.

#[export] Instance wired_flow_type : Wired bytes limits (read_flow_type bytes limits) (write_flow_type limits) flow_type_ok.
Proof. wired_record flow_type_ok write_flow_type read_flow_type. Qed.

#[export] Instance wired_bounded_string_part : Wired bytes limits (read_bounded_string_part bytes limits) (write_bounded_string_part limits) part_ok.
Proof. wired_sum part_ok write_bounded_string_part read_bounded_string_part. Qed.

(** The scalar values among the [u32]s. *)
Lemma char_from_u32_Some n c : char_from_u32 n = Some c <-> c = n /\ is_scalar n = true.
Proof. unfold char_from_u32. case_match; naive_solver. Qed.

#[export] Instance wired_immediate : Wired bytes limits (read_immediate bytes limits) (write_immediate limits) immediate_ok.
Proof.
  split.
  - intros [ | |c| | | | | | | ]; [..|idtac]; try (par_case immediate_ok write_immediate read_immediate).
    intros H. unfold immediate_ok in H. typed. unfold write_immediate, read_immediate.
    eapply par_bind; [by apply par_u8|]. cbv beta iota. eapply par_last; [par_field|].
    cbv beta. by rewrite (proj2 (char_from_u32_Some c c)).
  - intros r a r' Hp H. unfold read_immediate in H. unpar_field H. split_tag H; unpar_fields H.
    all: try (split; [unfold immediate_ok; typed_goal|unfold write_immediate; takes_fields]).
    destruct (char_from_u32 _) as [c|] eqn:Hc; [|discriminate H]. unpar_fields H.
    apply char_from_u32_Some in Hc as [-> Hc].
    split; [unfold immediate_ok; typed_goal|unfold write_immediate; takes_fields].
Qed.

#[export] Instance wired_owner : Wired bytes limits (read_owner bytes) (write_owner limits) owner_ok.
Proof. wired_sum owner_ok write_owner read_owner. Qed.

#[export] Instance wired_global : Wired bytes limits (read_global bytes limits) (write_global limits) global_ok.
Proof. wired_record global_ok write_global read_global. Qed.

#[export] Instance wired_unary_op : Wired bytes limits (read_unary_op bytes) (write_unary_op limits) (fun _ => true).
Proof. wired_enum write_unary_op read_unary_op. Qed.

#[export] Instance wired_binary_op : Wired bytes limits (read_binary_op bytes) (write_binary_op limits) (fun _ => true).
Proof. wired_enum write_binary_op read_binary_op. Qed.

#[export] Instance wired_cast_mode : Wired bytes limits (read_cast_mode bytes) (write_cast_mode limits) (fun _ => true).
Proof. wired_enum write_cast_mode read_cast_mode. Qed.

#[export] Instance wired_access_kind : Wired bytes limits (read_access_kind bytes) (write_access_kind limits) (fun _ => true).
Proof. wired_enum write_access_kind read_access_kind. Qed.

#[export] Instance wired_dma_ownership : Wired bytes limits (read_dma_ownership bytes) (write_dma_ownership limits) (fun _ => true).
Proof. wired_enum write_dma_ownership read_dma_ownership. Qed.

#[export] Instance wired_fence_kind : Wired bytes limits (read_fence_kind bytes) (write_fence_kind limits) (fun _ => true).
Proof. wired_enum write_fence_kind read_fence_kind. Qed.

#[export] Instance wired_failure_kind : Wired bytes limits (read_failure_kind bytes) (write_failure_kind limits) (fun _ => true).
Proof. wired_enum write_failure_kind read_failure_kind. Qed.

#[export] Instance wired_operation : Wired bytes limits (read_operation bytes limits) (encode_operation limits) operation_ok.
Proof. wired_sum operation_ok encode_operation read_operation. Qed.

#[export] Instance wired_switch_case : Wired bytes limits (read_switch_case bytes limits) (write_switch_case limits) switch_case_ok.
Proof. wired_record switch_case_ok write_switch_case read_switch_case. Qed.

#[export] Instance wired_terminator : Wired bytes limits (read_terminator bytes limits) (encode_terminator limits) terminator_ok.
Proof. wired_sum terminator_ok encode_terminator read_terminator. Qed.

#[export] Instance wired_function_origin : Wired bytes limits (read_function_origin bytes) (write_function_origin limits) function_origin_ok.
Proof. wired_sum function_origin_ok write_function_origin read_function_origin. Qed.

#[export] Instance wired_function_role : Wired bytes limits (read_function_role bytes) (write_function_role limits) function_role_ok.
Proof. wired_sum function_role_ok write_function_role read_function_role. Qed.

#[export] Instance wired_function_color : Wired bytes limits (read_function_color bytes) (write_function_color limits) (fun _ => true).
Proof. wired_enum write_function_color read_function_color. Qed.

#[export] Instance wired_value : Wired bytes limits (read_value bytes limits) (write_value limits) value_ok.
Proof. wired_record value_ok write_value read_value. Qed.

#[export] Instance wired_instruction : Wired bytes limits (read_instruction bytes limits) (write_instruction limits) instruction_ok.
Proof. wired_record instruction_ok write_instruction read_instruction. Qed.

#[export] Instance wired_block : Wired bytes limits (read_block bytes limits) (write_block limits) block_ok.
Proof. wired_record block_ok write_block read_block. Qed.

#[export] Instance wired_function : Wired bytes limits (read_function bytes limits) (write_function limits) function_ok.
Proof. wired_record function_ok write_function read_function. Qed.

#[export] Instance wired_actor : Wired bytes limits (read_actor bytes limits) (write_actor limits) actor_ok.
Proof. wired_record actor_ok write_actor read_actor. Qed.

#[export] Instance wired_task : Wired bytes limits (read_task bytes limits) (write_task limits) task_ok.
Proof. wired_record task_ok write_task read_task. Qed.

#[export] Instance wired_device : Wired bytes limits (read_device bytes limits) (write_device limits) device_ok.
Proof. wired_record device_ok write_device read_device. Qed.

#[export] Instance wired_pool : Wired bytes limits (read_pool bytes limits) (write_pool limits) pool_ok.
Proof. wired_record pool_ok write_pool read_pool. Qed.

#[export] Instance wired_region_class : Wired bytes limits (read_region_class bytes) (write_region_class limits) region_class_ok.
Proof. wired_sum region_class_ok write_region_class read_region_class. Qed.

#[export] Instance wired_region : Wired bytes limits (read_region bytes limits) (write_region limits) region_ok.
Proof. wired_record region_ok write_region read_region. Qed.

#[export] Instance wired_cancellation :
  Wired bytes limits (read_cancellation bytes)
    (fun c => write_u8 limits (match c with DropCalleeThenPropagate => 0 end)) (fun _ => true).
Proof. wired_enum write_option read_cancellation. Qed.

#[export] Instance wired_activation : Wired bytes limits (read_activation bytes) (write_activation limits) activation_ok.
Proof. wired_record activation_ok write_activation read_activation. Qed.

#[export] Instance wired_scheduler : Wired bytes limits (read_scheduler bytes limits) (write_scheduler limits) scheduler_ok.
Proof. wired_record scheduler_ok write_scheduler read_scheduler. Qed.

#[export] Instance wired_proof_kind : Wired bytes limits (read_proof_kind bytes) (write_proof_kind limits) (fun _ => true).
Proof. wired_enum write_proof_kind read_proof_kind. Qed.

#[export] Instance wired_proof : Wired bytes limits (read_proof bytes limits) (write_proof limits) proof_ok.
Proof. wired_record proof_ok write_proof read_proof. Qed.

#[export] Instance wired_checkpoint : Wired bytes limits (read_checkpoint bytes) (write_checkpoint limits) checkpoint_ok.
Proof. wired_record checkpoint_ok write_checkpoint read_checkpoint. Qed.

#[export] Instance wired_test_kind : Wired bytes limits (read_test_kind bytes) (write_test_kind limits) (fun _ => true).
Proof. wired_enum write_test_kind read_test_kind. Qed.

#[export] Instance wired_test_entry : Wired bytes limits (read_test_entry bytes limits) (write_test_entry limits) test_entry_ok.
Proof. wired_record test_entry_ok write_test_entry read_test_entry. Qed.

#[export] Instance wired_invocation : Wired bytes limits (read_invocation bytes) (write_invocation limits) invocation_ok.
Proof. wired_sum invocation_ok write_invocation read_invocation. Qed.

#[export] Instance wired_image_root : Wired bytes limits (read_image_root bytes limits) (write_image_root limits) image_root_ok.
Proof. wired_sum image_root_ok write_image_root read_image_root. Qed.

#[export] Instance wired_assertion : Wired bytes limits (read_assertion bytes limits) (write_assertion limits) assertion_ok.
Proof. wired_record assertion_ok write_assertion read_assertion. Qed.

#[export] Instance wired_planned_kind :
  Wired bytes limits (read_planned_kind bytes)
    (fun k => write_u8 limits (match k with ComptimeUnit => 0 | IntegrationImage => 1 | DeclaredImage => 2 end))
    (fun _ => true).
Proof. wired_enum write_option read_planned_kind. Qed.

#[export] Instance wired_planned_test : Wired bytes limits (read_planned_test bytes limits) (write_planned_test limits) planned_test_ok.
Proof. wired_record planned_test_ok write_planned_test read_planned_test. Qed.

#[export] Instance wired_compiled_test_group : Wired bytes limits (read_compiled_test_group bytes limits) (write_compiled_test_group limits) test_group_ok.
Proof. wired_record test_group_ok write_compiled_test_group read_compiled_test_group. Qed.

(** ** The module *)

Lemma par_flow_wir (m : FlowWir) :
  module_ok m = true -> version m = FLOW_WIR_VERSION ->
  par bytes (write_flow_wir limits m) (read_flow_wir bytes limits (build m)) m.
Proof.
  intros H Hv. unfold module_ok in H. typed. unfold write_flow_wir, read_flow_wir.
  eapply par_bind; [par_field|]. cbv beta.
  apply par_check; [by rewrite Hv|]. par_fields. by destruct m.
Qed.

Lemma unpar_flow_wir b (r r' : Reader) m :
  build_ok b = true -> 0 <= reader_position r <= len bytes ->
  quiet (read_flow_wir bytes limits b r) = Ok (m, r') ->
  (module_ok m = true /\ version m = FLOW_WIR_VERSION /\ build m = b)
  /\ takes bytes limits r (write_flow_wir limits m) r'.
Proof.
  intros Hb Hp H. unfold read_flow_wir in H. unpar_field H.
  apply quietS_bind_Ok in H as ([] & r1 & [Hv ->]%quiet_liftS_Ok & H). rewrite quiet_fail_if in Hv.
  apply guard_err_Ok, negb_false_iff, Z.eqb_eq in Hv.
  unpar_fields H. split.
  - split_and!; [unfold module_ok; typed_goal|assumption|reflexivity].
  - unfold write_flow_wir. takes_fields.
Qed.
End types.
