(* ===== verification/WireFrame.v ===== *)
(** Frames of the wire codec: the canonical codec of
    [src/crates/wrela-flow-wir-codec/src/canonical.rs], the interface of codecs,
    and the sealing and opening of frames of
    [src/crates/wrela-flow-wir-codec/src/lib.rs], which trust no codec; then the
    proof that the canonical codec is exact: a frame decodes to a model if and
    only if the model encodes to that frame. *)

From Stdlib Require Import Strings.Byte.
From stdpp Require Import base numbers list option strings.
From S2P Require Import Prelude Bytes Interrupt Text BuildModel FlowWir FlowModule FlowContext Wire WireWriter WireReader WireCodes.

#[local] Open Scope Z_scope.

(** ** The canonical codec *)

Record ParsedHeader := {
  parsed_header : WireHeader;
  payload_start : Z;
  target_bytes : Z;
}.

(** The fields that [parse_header] reads, with the position behind them. *)
Definition header_fields (bytes : list byte) : heading (WireHeader * Z) :=
  magic ← header_raw bytes (len FLOW_WIR_MAGIC);
  _ ← liftS (fail_if (negb (bool_decide (magic = FLOW_WIR_MAGIC))) InvalidMagic);
  wire_version ← header_u32 bytes;
  _ ← liftS (fail_if (negb (wire_version =? FLOW_WIR_WIRE_VERSION)) (UnsupportedWireVersion wire_version));
  flow_wir_version ← header_u32 bytes;
  _ ← liftS (fail_if (negb (flow_wir_version =? FLOW_WIR_VERSION)) (UnsupportedFlowWirVersion flow_wir_version));
  payload_bytes ← header_u64 bytes;
  _ ← liftS (fail_if (payload_bytes =? 0) (NonCanonical "empty FlowWir payload"));
  compiler ← header_digest bytes;
  tag ← header_u8 bytes;
  language ← match tag with
             | 0 => mret Design0_1
             | tag => liftS (invalid_tag "language revision" tag)
             end;
  '(target, target_bytes) ← target_identity bytes;
  target_package ← header_digest bytes;
  standard_library ← header_digest bytes;
  source_graph ← header_digest bytes;
  request ← header_digest bytes;
  profile ← header_digest bytes;
  mret ({| wire_version := wire_version; flow_wir_version := flow_wir_version;
           header_payload_bytes := payload_bytes;
           header_build := {| compiler := compiler; language := language; target := target;
                              target_package := target_package; standard_library := standard_library;
                              source_graph := source_graph; request := request;
                              profile_digest := profile |} |}, target_bytes).

(** [u64::try_from] of a [usize] never fails: both are 64 bits wide. *)
Definition parse_header (bytes : list byte) : prog CodecError ParsedHeader :=
  '((header, target_bytes), payload_start) ← header_fields bytes 0;
  remaining ← lift (ok_or (checked_sub (len bytes) payload_start) LengthOverflow);
  _ ← fail_if (remaining <? header_payload_bytes header) CodecUnexpectedEnd;
  _ ← fail_if (header_payload_bytes header <? remaining) CodecTrailingBytes;
  mret {| parsed_header := header; payload_start := payload_start; target_bytes := target_bytes |}.

(** What [encode] writes; the payload's length is filled in at the end. *)
Definition write_frame (limits : CodecLimits) (model : FlowWir) : stateT Writer (prog CodecError) Z :=
  _ ← write_raw limits FLOW_WIR_MAGIC;
  _ ← write_u32 limits FLOW_WIR_WIRE_VERSION;
  _ ← write_u32 limits FLOW_WIR_VERSION;
  payload_length_offset ← writer_position;
  _ ← write_u64 limits 0;
  _ ← write_build_identity limits (build model);
  payload_start ← writer_position;
  _ ← write_flow_wir limits model;
  _ ← writer_poll;
  position ← writer_position;
  payload_bytes ← liftS (lift (ok_or (checked_sub position payload_start) LengthOverflow));
  _ ← liftS (fail_if (payload_bytes =? 0) (NonCanonical "empty FlowWir payload"));
  _ ← patch_u64 payload_length_offset payload_bytes;
  mret payload_bytes.

(** [CanonicalFlowWirCodec::encode]. *)
Definition encode (limits : CodecLimits) (model : FlowWir) : prog CodecError EncodedFlowWirCandidate :=
  _ ← lift (CodecLimits_validate limits);
  _ ← check_cancelled;
  '(payload_bytes, writer) ← write_frame limits model new_writer;
  cloned ← clone_build_identity (build model);
  mret {| candidate_header := {| wire_version := FLOW_WIR_WIRE_VERSION; flow_wir_version := FLOW_WIR_VERSION;
                                 header_payload_bytes := payload_bytes; header_build := cloned |};
          candidate_bytes := written writer |}.

(** [CanonicalFlowWirCodec::inspect_header]. *)
Definition inspect_header (bytes : list byte) : prog CodecError WireHeader :=
  parsed ← parse_header bytes; mret (parsed_header parsed).

(** [CanonicalFlowWirCodec::decode] up to the validation of the model. *)
Definition read_frame (limits : CodecLimits) (bytes : list byte) (expected_build : option BuildIdentity)
    : prog CodecError FlowWir :=
  _ ← lift (CodecLimits_validate limits);
  _ ← check_cancelled;
  _ ← lift (enforce "FlowWir frame bytes" (codec_frame_bytes limits) (len bytes));
  parsed ← parse_header bytes;
  _ ← match expected_build with
      | Some expected =>
          same ← build_identity_equal expected (header_build (parsed_header parsed));
          fail_if (negb same) BuildIdentityMismatch
      | None => mret tt
      end;
  meter ← lift (charge_string (target_bytes parsed) "aggregate string bytes" (codec_string_bytes limits)
                  Meter_default);
  '(model, reader) ← read_flow_wir bytes limits (header_build (parsed_header parsed))
                       {| reader_position := payload_start parsed; reader_meter := meter |};
  _ ← reader_finish bytes reader;
  _ ← check_cancelled;
  mret model.

(** ** Codecs

    [trait FlowWirCodec]. A codec may keep a state of its own behind [&self];
    a [ValidatedFlowWir] is the model that it seals. *)
Class FlowWirCodec (S : Type) := {
  codec_encode : CodecLimits -> FlowWir -> stateT S (prog CodecError) EncodedFlowWirCandidate;
  codec_inspect_header : list byte -> stateT S (prog CodecError) WireHeader;
  codec_decode : CodecLimits -> list byte -> option BuildIdentity -> stateT S (prog CodecError) FlowWir;
}.

(** [FlowWir::validate_with_limits] accepts a model, and seals it as it is, or
    refuses it: everything here holds for every such check. *)
Section validation.
Context (validate_with_limits : ValidationLimits -> FlowWir -> prog ValidationFailure unit).

(** [CanonicalFlowWirCodec::decode]. *)
Definition decode (limits : CodecLimits) (bytes : list byte) (expected_build : option BuildIdentity)
    : prog CodecError FlowWir :=
  model ← read_frame limits bytes expected_build;
  _ ← map_errM map_validation_failure (validate_with_limits (flow_validation_limits limits) model);
  mret model.

Definition CanonicalFlowWirCodec : FlowWirCodec unit := {|
  codec_encode := fun limits wir => liftS (encode limits wir);
  codec_inspect_header := fun bytes => liftS (inspect_header bytes);
  codec_decode := fun limits bytes expected => liftS (decode limits bytes expected);
|}.
End validation.

Definition validate_candidate (candidate : EncodedFlowWirCandidate) (wir : FlowWir) (limits : CodecLimits)
    : prog CodecError unit :=
  _ ← check_cancelled;
  let frame_bytes := len (candidate_bytes candidate) in
  _ ← fail_if (codec_frame_bytes limits <? frame_bytes)
        (CodecResourceLimit "FlowWir frame bytes" (codec_frame_bytes limits) frame_bytes);
  let header := candidate_header candidate in
  let refused := NonCanonical "encoded header, build, payload length, or magic" in
  _ ← fail_if (negb (starts_with (candidate_bytes candidate) FLOW_WIR_MAGIC)
               || negb (wire_version header =? FLOW_WIR_WIRE_VERSION)
               || negb (flow_wir_version header =? FLOW_WIR_VERSION)) refused;
  same ← build_identity_equal (header_build header) (build wir);
  fail_if (negb same || (header_payload_bytes header =? 0) || (frame_bytes <? header_payload_bytes header))
    refused.

(** [EncodedFlowWir]: the fields are private, [encode_and_verify] is the only
    constructor. *)
Record EncodedFlowWir := { encoded_header : WireHeader; encoded_bytes : list byte }.

Section sealing.
Context {S : Type} {codec : FlowWirCodec S}.

Definition encode_and_verify (limits : CodecLimits) (wir : FlowWir) : stateT S (prog CodecError) EncodedFlowWir :=
  _ ← liftS check_cancelled;
  _ ← liftS (lift (CodecLimits_validate limits));
  candidate ← codec_encode limits wir;
  _ ← liftS (validate_candidate candidate wir limits);
  inspected ← codec_inspect_header (candidate_bytes candidate);
  same ← liftS (wire_header_equal inspected (candidate_header candidate));
  _ ← liftS (fail_if (negb same) (NonCanonical "inspected header differs from encoded header"));
  expected ← liftS (encode limits wir);
  same ← liftS (encoded_candidate_equal expected candidate);
  _ ← liftS (fail_if (negb same)
               (NonCanonical "codec output differs from the canonical FlowWir v19 encoding"));
  decoded ← codec_decode limits (candidate_bytes candidate) (Some (build wir));
  decoded_canonical ← liftS (encode limits decoded);
  same ← liftS (encoded_candidate_equal decoded_canonical candidate);
  _ ← liftS (fail_if (negb same) (NonCanonical "encoded bytes decode to a different FlowWir model"));
  repeated ← codec_encode limits wir;
  same ← liftS (encoded_candidate_equal repeated candidate);
  _ ← liftS (fail_if (negb same) (NonCanonical "FlowWir encoder is nondeterministic"));
  _ ← liftS check_cancelled;
  mret {| encoded_header := candidate_header candidate; encoded_bytes := candidate_bytes candidate |}.

Definition decode_and_verify (limits : CodecLimits) (bytes : list byte) (expected_build : option BuildIdentity)
    : stateT S (prog CodecError) FlowWir :=
  _ ← liftS check_cancelled;
  _ ← liftS (lift (CodecLimits_validate limits));
  _ ← liftS (fail_if (codec_frame_bytes limits <? len bytes)
               (CodecResourceLimit "FlowWir frame bytes" (codec_frame_bytes limits) (len bytes)));
  inspected ← codec_inspect_header bytes;
  decoded ← codec_decode limits bytes expected_build;
  _ ← match expected_build with
      | Some expected =>
          same ← liftS (build_identity_equal expected (build decoded));
          liftS (fail_if (negb same) BuildIdentityMismatch)
      | None => mret tt
      end;
  canonical ← codec_encode limits decoded;
  _ ← liftS (validate_candidate canonical decoded limits);
  same_header ← liftS (wire_header_equal inspected (candidate_header canonical));
  same ← if same_header : bool then liftS (bytes_equal (candidate_bytes canonical) bytes) else mret false;
  _ ← liftS (fail_if (negb same) (NonCanonical "decoded model does not reproduce its complete frame"));
  mret decoded.
End sealing.

(** ** Comparison *)

#[export] Instance WireHeader_eq_dec : EqDecision WireHeader.
Proof. solve_decision. Defined.
#[export] Instance EncodedFlowWirCandidate_eq_dec : EqDecision EncodedFlowWirCandidate.
Proof. solve_decision. Defined.

Lemma quiet_pieces_equal pairs :
  quiet (pieces_equal pairs) = Ok (forallb (fun '(a, b) => bool_decide (a = b)) pairs).
Proof.
  induction pairs as [|[a b] pairs IH]; [done|]. cbn [pieces_equal forallb].
  unfold check_cancelled. rewrite run_poll. by destruct (bool_decide (a = b)).
Qed.

Lemma quiet_bytes_equal_wire left_ right_ :
  quiet (Wire.bytes_equal left_ right_) = Ok (bool_decide (left_ = right_)).
Proof.
  unfold Wire.bytes_equal, Wire.check_cancelled. rewrite run_poll.
  destruct (Z.eqb_spec (len left_) (len right_)) as [Hl|Hl]; cbn [negb].
  - rewrite quiet_pieces_equal, chunks_zip_equal; [done|apply chunk_bytes_pos|unfold len in Hl; lia].
  - rewrite bool_decide_false; [done|]. by intros ->.
Qed.

Lemma quiet_build_identity_equal left_ right_ :
  quiet (Wire.build_identity_equal left_ right_) = Ok (bool_decide (left_ = right_)).
Proof.
  destruct left_ as [c l [t] p s g q r], right_ as [c' l' [t'] p' s' g' q' r'].
  unfold Wire.build_identity_equal, Wire.check_cancelled, text_equal. rewrite run_poll.
  cbn [compiler language target target_as_str target_package standard_library source_graph request
         profile_digest].
  destruct (bool_decide (c = c') && bool_decide (l = l')) eqn:E.
  - rewrite quiet_bind, quiet_bytes_equal_wire. simpl. f_equal. apply eq_true_iff_eq.
    rewrite !andb_true_iff, !bool_decide_eq_true in *. naive_solver.
  - simpl. f_equal. symmetry. apply bool_decide_eq_false. intros [= -> -> _ _ _ _ _ _].
    by rewrite !bool_decide_eq_true_2 in E.
Qed.

Lemma quiet_wire_header_equal left_ right_ :
  quiet (wire_header_equal left_ right_) = Ok (bool_decide (left_ = right_)).
Proof.
  destruct left_ as [a b c d], right_ as [a' b' c' d']. unfold wire_header_equal, check_cancelled.
  rewrite run_poll. cbn [wire_version flow_wir_version header_payload_bytes header_build].
  destruct (_ && _) eqn:E.
  - rewrite quiet_build_identity_equal. f_equal. rewrite !andb_true_iff, !Z.eqb_eq in E.
    apply bool_decide_ext. naive_solver.
  - simpl. f_equal. symmetry. apply bool_decide_eq_false. intros [= -> -> -> _]. by rewrite !Z.eqb_refl in E.
Qed.

Lemma quiet_candidate_equal left_ right_ :
  quiet (encoded_candidate_equal left_ right_) = Ok (bool_decide (left_ = right_)).
Proof.
  destruct left_ as [h b], right_ as [h' b']. unfold encoded_candidate_equal.
  rewrite quiet_bind, quiet_wire_header_equal. cbn [mbind result_bind candidate_header candidate_bytes].
  case_bool_decide; [rewrite quiet_bytes_equal_wire|simpl]; f_equal;
    [apply bool_decide_ext|symmetry; apply bool_decide_eq_false]; naive_solver.
Qed.

(** ** Build identities *)

Lemma TargetIdentity_new_Ok s t :
  TargetIdentity_new s = Ok t -> t = {| target_as_str := s |} /\ 0 < len s <= MAX_PROFILE_ATOM_BYTES.
Proof.
  unfold TargetIdentity_new. intros ([] & H & [= <-])%result_bind_Ok. split; [done|].
  destruct (validate_atom s) eqn:Hs; [|done]. apply validate_atom_Ok in Hs as (Hne & Hl & _).
  destruct s; [done|]. rewrite len_cons in *. pose proof (len_nonneg s). lia.
Qed.

(** What the text of a target's identity is. *)
Lemma build_ok_target b :
  build_ok b = true ->
  utf8_valid (target_as_str (target b)) = true
  /\ TargetIdentity_new (target_as_str (target b)) = Ok (target b)
  /\ 0 < len (target_as_str (target b)) <= MAX_PROFILE_ATOM_BYTES.
Proof.
  unfold build_ok, identity_ok. rewrite !andb_true_iff. intros [Hu Ht].
  destruct (TargetIdentity_new _) as [t|] eqn:E; [|done]. apply TargetIdentity_new_Ok in E as [-> Hl].
  destruct (target b) as [s]. naive_solver.
Qed.

Lemma quiet_clone_build_identity b : build_ok b = true -> quiet (clone_build_identity b) = Ok b.
Proof.
  intros (Hu & Ht & Hl)%build_ok_target. unfold clone_build_identity. unfold MAX_PROFILE_ATOM_BYTES in Hl.
  rewrite quiet_bind, quiet_wire_copy by (unfold usize; lia). rewrite Hu. cbn [mbind result_bind].
  rewrite quiet_bind, quiet_lift, Ht. by destruct b.
Qed.

(** ** The layout of a frame *)

Definition build_bytes (b : BuildIdentity) : list byte :=
  let t := target_as_str (target b) in
  as_bytes (compiler b) ++ le_bytes 1 (language_tag (language b)) ++ u32_le (len t) ++ t
  ++ as_bytes (target_package b) ++ as_bytes (standard_library b) ++ as_bytes (source_graph b)
  ++ as_bytes (request b) ++ as_bytes (profile_digest b).

(** Everything before the payload of [n] bytes. *)
Definition frame_prefix : list byte :=
  FLOW_WIR_MAGIC ++ u32_le FLOW_WIR_WIRE_VERSION ++ u32_le FLOW_WIR_VERSION.
Definition frame_start (n : Z) (b : BuildIdentity) : list byte := frame_prefix ++ u64_le n ++ build_bytes b.

Lemma len_frame_start n n' b : len (frame_start n b) = len (frame_start n' b).
Proof. unfold frame_start, u64_le. by rewrite !len_app, !len_le_bytes. Qed.

Section reading.
Context (bytes : list byte).
Hypothesis Hbytes : len bytes < 2 ^ usize.

(** [d] reads [a] from [out]. *)
Definition gets {A} (d : heading A) (a : A) (out : list byte) : Prop :=
  forall position, lies bytes position out -> quiet (d position) = Ok (a, position + len out).

Lemma gets_bind {A B} (d : heading A) (k : A -> heading B) a b out out' :
  gets d a out -> gets (k a) b out' -> gets (d ≫= k) b (out ++ out').
Proof.
  intros H H' position [L L']%lies_app. apply quietS_bind_Ok. exists a, (position + len out).
  split; [by apply H|]. rewrite H' by done. by rewrite len_app, Z.add_assoc.
Qed.

(** The last field. *)
Lemma gets_map {A B} (d : heading A) (k : A -> heading B) a b out :
  gets d a out -> gets (k a) b [] -> gets (d ≫= k) b out.
Proof. intros H H'. rewrite <- (app_nil_r out). by eapply gets_bind. Qed.

Lemma gets_ret {A} (a : A) : gets (mret a) a [].
Proof. intros position _. by rewrite len_nil, Z.add_0_r. Qed.

Lemma gets_lift {A} (m : prog CodecError A) a : quiet m = Ok a -> gets (liftS m) a [].
Proof. intros H position _. apply quiet_liftS_Ok. by rewrite len_nil, Z.add_0_r. Qed.

(** A step that reads nothing. *)
Lemma gets_skip {A B} (d : heading A) (k : A -> heading B) a b out :
  gets d a [] -> gets (k a) b out -> gets (d ≫= k) b out.
Proof. apply (gets_bind d k a b []). Qed.

(** A check that passes. *)
Lemma gets_check {A} (m : prog CodecError unit) (d : heading A) a out :
  quiet m = Ok tt -> gets d a out -> gets (_ ← liftS m; d) a out.
Proof. intros Hm H. eapply gets_skip; [by apply gets_lift|done]. Qed.

Lemma quiet_header_raw n position x position' :
  0 <= position -> 0 <= n ->
  quiet (header_raw bytes n position) = Ok (x, position') <->
  len x = n /\ lies bytes position x /\ position' = position + n.
Proof.
  intros Hp Hn. unfold header_raw, check_cancelled. rewrite run_poll, quiet_bind, quiet_lift. split.
  - intros (end_ & Hend & H)%result_bind_Ok. inv_ok. apply checked_add_Some in Hend as [_ ->].
    quiet_inv H. inv_ok. pose proof Hlift as (Hl & _)%get_range_Some; [|lia..].
    subst n. split_and!; [done| |done]. by apply lies_range.
  - intros (<- & L & ->). pose proof (lies_bound _ _ _ L). apply lies_range in L as [_ L].
    unfold checked_add. rewrite (proj2 (Z.ltb_lt _ _)) by lia. cbn. by rewrite L.
Qed.

Lemma gets_raw x : gets (header_raw bytes (len x)) x x.
Proof. intros position L. apply quiet_header_raw; [apply L|apply len_nonneg|done]. Qed.

Lemma gets_le n z :
  0 <= z < 256 ^ Z.of_nat n ->
  gets (value ← header_raw bytes (Z.of_nat n); mret (le_value value)) z (le_bytes n z).
Proof.
  intros Hz. apply (gets_map _ _ (le_bytes n z)); [|rewrite le_value_bytes by done; apply gets_ret].
  rewrite <- (len_le_bytes n z). apply gets_raw.
Qed.

Lemma gets_digest d : digest_ok d = true -> gets (header_digest bytes) d (as_bytes d).
Proof.
  intros H%Nat.eqb_eq. apply (gets_map _ _ (as_bytes d)); [|destruct d; apply gets_ret].
  replace 32 with (len (as_bytes d)) by (unfold len; lia). apply gets_raw.
Qed.

Lemma gets_target t :
  utf8_valid (target_as_str t) = true -> TargetIdentity_new (target_as_str t) = Ok t ->
  gets (target_identity bytes) (t, len (target_as_str t)) (u32_le (len (target_as_str t)) ++ target_as_str t).
Proof.
  intros Hu Ht. pose proof (TargetIdentity_new_Ok _ _ Ht) as [_ Hl]. unfold MAX_PROFILE_ATOM_BYTES in Hl.
  eapply gets_bind; [apply (gets_le 4); lia|]. apply gets_check.
  { rewrite quiet_fail_if, (proj2 (Z.eqb_neq _ _)), (proj2 (Z.ltb_ge _ _)) by (unfold MAX_PROFILE_ATOM_BYTES; lia).
    done. }
  eapply gets_map; [apply gets_raw|]. eapply gets_map.
  { apply gets_lift. rewrite quiet_wire_copy by (unfold usize; lia). by rewrite Hu. }
  eapply gets_map; [|apply gets_ret]. apply gets_lift. by rewrite quiet_lift, Ht.
Qed.

Lemma gets_header h :
  wire_version h = FLOW_WIR_WIRE_VERSION -> flow_wir_version h = FLOW_WIR_VERSION ->
  0 < header_payload_bytes h < 2 ^ 64 -> build_ok (header_build h) = true ->
  gets (header_fields bytes) (h, len (target_as_str (target (header_build h))))
    (frame_start (header_payload_bytes h) (header_build h)).
Proof.
  intros Hw Hf Hn Hb. pose proof (build_ok_target _ Hb) as (Hu & Ht & _).
  unfold build_ok, identity_ok in Hb. rewrite !andb_true_iff in Hb. destruct h as [v v' n b].
  cbn [wire_version flow_wir_version header_payload_bytes header_build] in *. subst.
  unfold frame_start, frame_prefix. rewrite <- !app_assoc.
  eapply gets_bind; [apply gets_raw|]. apply gets_check; [by rewrite quiet_fail_if, bool_decide_eq_true_2|].
  eapply gets_bind; [by apply (gets_le 4)|]. apply gets_check; [done|].
  eapply gets_bind; [by apply (gets_le 4)|]. apply gets_check; [done|].
  eapply gets_bind; [by apply (gets_le 8); lia|]. apply gets_check.
  { by rewrite quiet_fail_if, (proj2 (Z.eqb_neq _ _)) by lia. }
  unfold build_bytes. destruct b as [c l t p s g q r].
  cbn [compiler language target target_package standard_library source_graph request profile_digest] in *.
  destruct_and! Hb.
  eapply gets_bind; [by apply gets_digest|]. destruct l.
  eapply gets_bind; [by apply (gets_le 1)|]. eapply gets_skip; [apply gets_ret|].
  rewrite (app_assoc (u32_le _)). eapply gets_bind; [by apply gets_target|].
  eapply gets_bind; [by apply gets_digest|]. eapply gets_bind; [by apply gets_digest|].
  eapply gets_bind; [by apply gets_digest|]. eapply gets_bind; [by apply gets_digest|].
  eapply gets_map; [by apply gets_digest|]. apply gets_ret.
Qed.
End reading.

Section inversion.
Context (bytes : list byte).
Hypothesis Hbytes : len bytes < 2 ^ usize.

Lemma lies_then position out position' out' :
  lies bytes position out -> position' = position + len out -> lies bytes position' out' ->
  lies bytes position (out ++ out').
Proof. intros L -> L'. by apply lies_app. Qed.

Lemma header_le_inv n position z position' :
  0 <= position -> quiet ((value ← header_raw bytes (Z.of_nat n); mret (le_value value)) position) = Ok (z, position') ->
  0 <= z < 256 ^ Z.of_nat n /\ lies bytes position (le_bytes n z) /\ position' = position + Z.of_nat n.
Proof.
  intros Hp (x & p & Hx & [= <- <-])%quietS_bind_Ok. apply quiet_header_raw in Hx as (Hl & L & ->); [|lia..].
  destruct (le_value_of_len n x _ Hl eq_refl) as [Hx Hv]. by rewrite <- Hx.
Qed.

Lemma header_digest_inv position d position' :
  0 <= position -> quiet (header_digest bytes position) = Ok (d, position') ->
  digest_ok d = true /\ lies bytes position (as_bytes d) /\ position' = position + 32.
Proof.
  intros Hp (x & p & Hx & [= <- <-])%quietS_bind_Ok. apply quiet_header_raw in Hx as (Hl & L & ->); [|lia..].
  split_and!; [|done..]. apply Nat.eqb_eq. unfold len in Hl. simpl. lia.
Qed.

Lemma heading_check_inv {A} bad e (d : heading A) position x :
  quiet ((_ ← liftS (fail_if bad e); d) position) = Ok x -> bad = false /\ quiet (d position) = Ok x.
Proof. by destruct bad. Qed.

Lemma target_identity_inv position t n position' :
  0 <= position -> quiet (target_identity bytes position) = Ok ((t, n), position') ->
  utf8_valid (target_as_str t) = true /\ TargetIdentity_new (target_as_str t) = Ok t
  /\ n = len (target_as_str t)
  /\ lies bytes position (u32_le n) /\ lies bytes (position + 4) (target_as_str t)
  /\ position' = position + 4 + n.
Proof.
  intros Hp H. apply quietS_bind_Ok in H as (k & p & Hk & H). apply (header_le_inv 4) in Hk as (Hk & L & ->); [|done].
  apply heading_check_inv in H as [_ H]. apply quietS_bind_Ok in H as (s & p & Hs & H).
  apply quiet_header_raw in Hs as (<- & L' & ->); [|lia..].
  apply quietS_bind_Ok in H as (s' & p & [Hu ->]%quiet_liftS_Ok & H).
  pose proof (lies_bound _ _ _ L'). rewrite quiet_wire_copy in Hu by lia.
  destruct (utf8_valid s) eqn:Hv; [|done]. injection Hu as <-.
  apply quietS_bind_Ok in H as (t' & p & [Ht ->]%quiet_liftS_Ok & [= <- <- <-]). rewrite quiet_lift in Ht.
  destruct (TargetIdentity_new s) as [t0|] eqn:E; [|done]. injection Ht as <-.
  pose proof (TargetIdentity_new_Ok _ _ E) as [-> _]. split_and!; try done.
Qed.

Lemma header_fields_inv h n position :
  quiet (header_fields bytes 0) = Ok ((h, n), position) ->
  wire_version h = FLOW_WIR_WIRE_VERSION /\ flow_wir_version h = FLOW_WIR_VERSION
  /\ 0 < header_payload_bytes h < 2 ^ 64 /\ build_ok (header_build h) = true
  /\ n = len (target_as_str (target (header_build h)))
  /\ lies bytes 0 (frame_start (header_payload_bytes h) (header_build h))
  /\ position = len (frame_start (header_payload_bytes h) (header_build h)).
Proof.
  intros H. unfold header_fields in H.
  apply quietS_bind_Ok in H as (magic & p & Hx & H). apply quiet_header_raw in Hx as (_ & Lm & ->); [|done..].
  apply heading_check_inv in H as [Hm%negb_false_iff%bool_decide_eq_true H]. subst magic.
  change (0 + len FLOW_WIR_MAGIC) with 8 in H.
  apply quietS_bind_Ok in H as (v & p & Hx & H). apply (header_le_inv 4) in Hx as (_ & Lv & ->); [|done].
  apply heading_check_inv in H as [->%negb_false_iff%Z.eqb_eq H].
  apply quietS_bind_Ok in H as (v & p & Hx & H). apply (header_le_inv 4) in Hx as (_ & Lw & ->); [|done].
  apply heading_check_inv in H as [->%negb_false_iff%Z.eqb_eq H].
  apply quietS_bind_Ok in H as (size & p & Hx & H). apply (header_le_inv 8) in Hx as (Hsize & Ls & ->); [|done].
  apply heading_check_inv in H as [Hne%Z.eqb_neq H].
  apply quietS_bind_Ok in H as (c & p & Hx & H). apply header_digest_inv in Hx as (Hc & Lc & ->); [|done].
  apply quietS_bind_Ok in H as (tag & p & Hx & H). apply (header_le_inv 1) in Hx as (_ & Lt & ->); [|done].
  apply quietS_bind_Ok in H as (l & p & Hx & H).
  destruct tag; [injection Hx as <- <-|discriminate..].
  apply quietS_bind_Ok in H as ([t k] & p & Hx & H).
  apply target_identity_inv in Hx as (Hu & Ht & -> & Ln & Lx & ->); [|done].
  pose proof (len_nonneg (target_as_str t)).
  apply quietS_bind_Ok in H as (d1 & p & Hx & H). apply header_digest_inv in Hx as (H1 & L1 & ->); [|lia].
  apply quietS_bind_Ok in H as (d2 & p & Hx & H). apply header_digest_inv in Hx as (H2 & L2 & ->); [|lia].
  apply quietS_bind_Ok in H as (d3 & p & Hx & H). apply header_digest_inv in Hx as (H3 & L3 & ->); [|lia].
  apply quietS_bind_Ok in H as (d4 & p & Hx & H). apply header_digest_inv in Hx as (H4 & L4 & ->); [|lia].
  apply quietS_bind_Ok in H as (d5 & p & Hx & H). apply header_digest_inv in Hx as (H5 & L5 & ->); [|lia].
  injection H as <- <- <-.
  cbn [wire_version flow_wir_version header_payload_bytes header_build].
  assert (Hd : forall d, digest_ok d = true -> len (as_bytes d) = 32).
  { intros d Hd%Nat.eqb_eq. unfold len. lia. }
  split_and!; [done|done|lia|lia| |done| |].
  - unfold build_ok, identity_ok. cbn [compiler target target_package standard_library source_graph request
      profile_digest]. by rewrite Ht, Hu, Hc, H1, H2, H3, H4, H5.
  - unfold frame_start, frame_prefix, build_bytes, u64_le. cbn [compiler language target target_package standard_library
      source_graph request profile_digest]. rewrite <- !app_assoc.
    eapply lies_then; [exact Lm| |eapply lies_then; [exact Lv| |eapply lies_then; [exact Lw| |]]]; [done..|].
    repeat (eapply lies_then; [eassumption| |]); [..|eassumption];
      by rewrite ?len_u32_le, ?len_le_bytes, ?Hd by done.
  - unfold frame_start, build_bytes, u64_le. cbn [compiler language target target_package standard_library source_graph
      request profile_digest].
    rewrite !len_app, ?len_u32_le, ?len_le_bytes, !Hd by done. change (len frame_prefix) with 16. lia.
Qed.
End inversion.

(** A frame: what the header says, and the payload. *)
Definition frame (b : BuildIdentity) (payload : list byte) : list byte := frame_start (len payload) b ++ payload.
Definition frame_header (b : BuildIdentity) (payload : list byte) : WireHeader :=
  {| wire_version := FLOW_WIR_WIRE_VERSION; flow_wir_version := FLOW_WIR_VERSION;
     header_payload_bytes := len payload; header_build := b |}.

Lemma parse_header_exact bytes p :
  len bytes < 2 ^ usize ->
  quiet (parse_header bytes) = Ok p <->
  exists b payload, build_ok b = true /\ payload <> [] /\ bytes = frame b payload
    /\ p = {| parsed_header := frame_header b payload; payload_start := len (frame_start (len payload) b);
              target_bytes := len (target_as_str (target b)) |}.
Proof.
  intros Hbytes. unfold parse_header. split.
  - intros H. apply quiet_bind_Ok in H as ([[h n] start] & Hh & H). quiet_inv H. inv_ok.
    apply header_fields_inv in Hh as (Hv & Hf & Hn & Hb & -> & L & ->); [|done].
    destruct h as [v v' size b]. cbn [wire_version flow_wir_version header_payload_bytes header_build] in *.
    subst v v'. unfold checked_sub in Hlift. case_match; [|done]. injection Hlift as <-.
    destruct L as (_ & pre & payload & E & Hpre).
    assert (pre = []) as -> by (destruct pre; [done|rewrite len_cons in Hpre; pose proof (len_nonneg pre); lia]).
    rewrite app_nil_l in E. assert (Hsum : len bytes = len (frame_start size b) + len payload) by (by rewrite E, len_app).
    assert (size = len payload) as -> by lia.
    exists b, payload. split_and!; [done| |done|done]. intros ->. by destruct Hn.
  - intros (b & payload & Hb & Hne & -> & ->). unfold frame in *.
    assert (Hpos : 0 < len payload) by (destruct payload; [done|rewrite len_cons; pose proof (len_nonneg payload); lia]).
    assert (Hlt : len payload < 2 ^ 64).
    { rewrite len_app in Hbytes. pose proof (len_nonneg (frame_start (len payload) b)). unfold usize in Hbytes. lia. }
    apply quiet_bind_Ok. exists (frame_header b payload, len (target_as_str (target b)), 0 + len (frame_start (len payload) b)).
    split.
    + apply (gets_header _ Hbytes (frame_header b payload)); try done.
      split; [done|]. exists [], payload. done.
    + rewrite Z.add_0_l, len_app. unfold checked_sub. rewrite (proj2 (Z.leb_le _ _)) by lia. cbn.
      rewrite Z.add_simpl_l, Z.ltb_irrefl. done.
Qed.

(** ** Writing the header *)

Section writing.
Context (limits : CodecLimits).
Hypothesis Hframe : codec_frame_bytes limits < 2 ^ usize.

(** [e] charges the meter and appends [out], if there is room for it. *)
Definition puts (e : writing) (charge : Meter -> result CodecError Meter) (out : list byte) : Prop :=
  forall w u w', quiet (e w) = Ok (u, w') <->
    exists m, charge (writer_meter w) = Ok m /\ w' = extended w out m
      /\ len (written w) + len out <= codec_frame_bytes limits.

Lemma puts_raw out : puts (write_raw limits out) Ok out.
Proof. intros w u w'. rewrite quiet_write_raw by done. naive_solver. Qed.

Lemma puts_bind (e1 e2 : writing) f g out1 out2 :
  puts e1 f out1 -> puts e2 g out2 -> puts (_ ← e1; e2) (fun m => f m ≫= g) (out1 ++ out2).
Proof.
  intros H1 H2 w u w'. rewrite quietS_bind_Ok, len_app. pose proof (len_nonneg out2). split.
  - intros ([] & w1 & (m & Hm & -> & Hroom)%H1 & (m' & Hm' & -> & Hroom')%H2).
    unfold extended in *. cbn [written writer_meter] in *. rewrite len_app in Hroom'.
    exists m'. rewrite Hm. split_and!; [done|by rewrite app_assoc|lia].
  - intros (m' & (m & Hm & Hm')%result_bind_Ok & -> & Hroom). exists tt, (extended w out1 m). split.
    + apply H1. exists m. split_and!; [done|done|lia].
    + apply H2. exists m'. unfold extended. cbn [written writer_meter]. rewrite len_app.
      split_and!; [done|by rewrite app_assoc|lia].
Qed.

Lemma puts_ext e f g out : (forall m, f m = g m) -> puts e f out -> puts e g out.
Proof. intros E H w u w'. rewrite (H w u w'). split; intros (m & Hm & ?); exists m; [rewrite <- E|rewrite E]; done. Qed.

(** What a string costs. *)
Definition string_cost (n : Z) (m : Meter) : result CodecError Meter :=
  m ← charge_string n "aggregate string bytes" (codec_string_bytes limits) m;
  _ ← ok_or (try_u32 n) LengthOverflow; Ok m.

Lemma puts_string s : puts (write_string limits s) (string_cost (len s)) (u32_le (len s) ++ s).
Proof.
  intros w u w'. unfold write_string. rewrite len_app. split.
  - intros ([] & ? & [_ ->]%quiet_liftS_Ok & ([] & w1 & Hc & H)%quietS_bind_Ok)%quietS_bind_Ok.
    unfold charging_writer in Hc. quiet_inv Hc. inv_ok.
    apply quietS_bind_Ok in H as ([] & w2 & (n & w3 & [Hn ->]%quiet_liftS_Ok & Hu)%quietS_bind_Ok & H).
    rewrite quiet_lift in Hn. apply puts_raw in Hu as (? & [= <-] & -> & Hroom).
    apply quietS_bind_Ok in H as ([] & w2 & H & [_ ->]%quiet_liftS_Ok).
    apply puts_raw in H as (? & [= <-] & -> & Hroom').
    unfold extended, string_cost in *. cbn [written writer_meter] in *. rewrite len_app in Hroom'.
    inv_ok. apply try_u32_Some in Hn as Hn'. destruct Hn' as [_ ->].
    exists x. rewrite Hlift. cbn [mbind result_bind]. rewrite Hn. cbn [ok_or mbind result_bind].
    split_and!; [done|by rewrite app_assoc|lia].
  - intros (m & (m' & Hm & (n & Hn & [= <-])%result_bind_Ok)%result_bind_Ok & -> & Hroom). inv_ok.
    apply try_u32_Some in Hn as Hn'. destruct Hn' as [_ ->].
    pose proof (len_nonneg s). pose proof (len_nonneg (u32_le (len s))).
    apply quietS_bind_Ok. exists tt, w. split; [done|].
    apply quietS_bind_Ok. exists tt, {| written := written w; writer_meter := m' |}. split.
    { unfold charging_writer. by rewrite quiet_bind, quiet_lift, Hm. }
    apply quietS_bind_Ok. exists tt. eexists. split.
    { apply quietS_bind_Ok. eexists _, _. split; [apply quiet_liftS_Ok; rewrite quiet_lift, Hn; done|].
      apply puts_raw. exists m'. split_and!; [done|done|]. cbn [written]. lia. }
    apply quietS_bind_Ok. eexists tt, _. split.
    { apply puts_raw. exists m'. unfold extended. cbn [written writer_meter]. rewrite len_app.
      split_and!; [done|done|lia]. }
    apply quiet_liftS_Ok. split; [by destruct u|]. unfold extended. cbn [written]. by rewrite app_assoc.
Qed.

Lemma puts_build b :
  puts (write_build_identity limits b) (string_cost (len (target_as_str (target b)))) (build_bytes b).
Proof.
  unfold write_build_identity, build_bytes. rewrite (app_assoc (u32_le _)).
  eapply puts_ext; [|eapply puts_bind; [apply puts_raw|]; eapply puts_bind; [apply puts_raw|];
    eapply puts_bind; [apply puts_string|]; repeat (eapply puts_bind; [apply puts_raw|]); apply puts_raw].
  intros m. cbn. by destruct (string_cost _ m).
Qed.
End writing.

(** ** Frames and models *)

Section exact.
Context (limits : CodecLimits).
Hypothesis Hframe : codec_frame_bytes limits < 2 ^ usize.

(** The meter behind the header: the target's text is charged. *)
Definition header_meter (b : BuildIdentity) : result CodecError Meter :=
  charge_string (len (target_as_str (target b))) "aggregate string bytes" (codec_string_bytes limits) Meter_default.

Lemma string_cost_header b : build_ok b = true ->
  string_cost limits (len (target_as_str (target b))) Meter_default = header_meter b.
Proof.
  intros (_ & _ & Hl)%build_ok_target. unfold string_cost, header_meter. unfold MAX_PROFILE_ATOM_BYTES in Hl.
  assert (try_u32 (len (target_as_str (target b))) = Some (len (target_as_str (target b)))) as ->.
  { apply try_u32_Some. unfold u32_max. lia. }
  by destruct (charge_string _ _ _ _).
Qed.

(** What is written last fits. *)
Lemma written_flow_wir_fits m w u w' :
  quiet (write_flow_wir limits m w) = Ok (u, w') -> len (written w') <= codec_frame_bytes limits.
Proof.
  unfold write_flow_wir. intros H. do 21 apply quietS_bind_Ok in H as (_ & ? & _ & H).
  apply puts_raw in H as (? & _ & -> & Hroom); [|done]. unfold extended. cbn [written]. by rewrite len_app.
Qed.

Definition headed (b : BuildIdentity) (meter : Meter) : Writer :=
  {| written := frame_start 0 b; writer_meter := meter |}.

Lemma quiet_patch_u64 pre old post n meter :
  len old = 8 -> len pre + 8 < 2 ^ usize ->
  quiet (patch_u64 (len pre) n {| written := pre ++ old ++ post; writer_meter := meter |})
  = Ok (tt, {| written := pre ++ u64_le n ++ post; writer_meter := meter |}).
Proof.
  intros Hold Hfit. unfold patch_u64, checked_add. rewrite (proj2 (Z.ltb_lt _ _)) by done.
  rewrite quiet_bind, quiet_lift. cbn [ok_or mbind result_bind written writer_meter].
  rewrite (get_range_app _ pre old post) by (first [done|by rewrite Hold]).
  cbn. do 3 f_equal. unfold len in *. f_equal; [|f_equal].
  - by rewrite Nat2Z.id, take_app_length.
  - replace (Z.to_nat (Z.of_nat (length pre) + 8)) with (length pre + length old)%nat by lia.
    by rewrite drop_app_add, drop_app_length.
Qed.

Lemma quiet_position w n w1 : quiet (writer_position w) = Ok (n, w1) <-> n = len (written w) /\ w1 = w.
Proof. unfold writer_position. simpl. naive_solver. Qed.

(** What [write_frame] does once the header stands. *)
Definition write_payload (m : FlowWir) : stateT Writer (prog CodecError) Z :=
  start ← writer_position;
  _ ← write_flow_wir limits m;
  _ ← writer_poll;
  position ← writer_position;
  payload_bytes ← liftS (lift (ok_or (checked_sub position start) LengthOverflow));
  _ ← liftS (fail_if (payload_bytes =? 0) (NonCanonical "empty FlowWir payload"));
  _ ← patch_u64 (len frame_prefix) payload_bytes;
  mret payload_bytes.

Definition prefixed : Writer := {| written := frame_prefix; writer_meter := Meter_default |}.

Lemma headed_written b meter : extended (extended prefixed (u64_le 0) Meter_default) (build_bytes b) meter = headed b meter.
Proof. unfold extended, headed, frame_start. cbn [written writer_meter prefixed]. by rewrite <- app_assoc. Qed.

Lemma write_frame_header m x :
  build_ok (build m) = true ->
  quiet (write_frame limits m new_writer) = Ok x <->
  exists meter, header_meter (build m) = Ok meter
    /\ len (frame_start 0 (build m)) <= codec_frame_bytes limits
    /\ quiet (write_payload m (headed (build m) meter)) = Ok x.
Proof.
  intros Hb. destruct x as [n w']. unfold write_frame. split.
  - intros ([] & w1 & (? & [= <-] & -> & _)%puts_raw & H)%quietS_bind_Ok; [|done].
    apply quietS_bind_Ok in H as ([] & w1 & (? & [= <-] & -> & _)%puts_raw & H); [|done].
    apply quietS_bind_Ok in H as ([] & w1 & (? & [= <-] & -> & _)%puts_raw & H); [|done].
    change (extended (extended _ _ _) (u32_le FLOW_WIR_VERSION) _) with prefixed in H.
    apply quietS_bind_Ok in H as (offset & w1 & [-> ->]%quiet_position & H).
    apply quietS_bind_Ok in H as ([] & w1 & (? & [= <-] & -> & _)%puts_raw & H); [|done].
    apply quietS_bind_Ok in H as ([] & w1 & (meter & Hc & -> & Hroom)%puts_build & H); [|done].
    cbn [writer_meter extended] in Hc. rewrite string_cost_header in Hc by done.
    change (writer_meter prefixed) with Meter_default in H. rewrite headed_written in H.
    exists meter. split_and!; [done| |done].
    unfold frame_start. unfold extended in Hroom. cbn [written] in Hroom. by rewrite app_assoc, len_app.
  - intros (meter & Hc & Hroom & H). rewrite <- string_cost_header in Hc by done.
    unfold frame_start in Hroom. rewrite !len_app in Hroom. change (len frame_prefix) with 16 in Hroom.
    pose proof (len_nonneg (build_bytes (build m))). rewrite len_u64_le in Hroom.
    apply quietS_bind_Ok. eexists tt, _. split; [apply puts_raw; [done|eexists; split_and!; [done|done|]]|].
    { change (len _ + len _) with 8. lia. }
    apply quietS_bind_Ok. eexists tt, _. split; [apply puts_raw; [done|eexists; split_and!; [done|done|]]|].
    { change (len _ + len _) with 12. lia. }
    apply quietS_bind_Ok. eexists tt, _. split; [apply puts_raw; [done|eexists; split_and!; [done|done|]]|].
    { change (len _ + len _) with 16. lia. }
    change (extended (extended _ _ _) (u32_le FLOW_WIR_VERSION) _) with prefixed.
    apply quietS_bind_Ok. eexists _, _. split; [by apply quiet_position|].
    apply quietS_bind_Ok. eexists tt, _. split; [apply puts_raw; [done|eexists; split_and!; [done|done|]]|].
    { change (len _ + len _) with 24. lia. }
    apply quietS_bind_Ok. exists tt, (headed (build m) meter). split; [|exact H].
    apply puts_build; [done|]. exists meter. rewrite <- headed_written. split_and!; [done|done|].
    unfold extended. cbn [written]. rewrite len_app, len_u64_le. change (len (written prefixed)) with 16. lia.
Qed.

Lemma len_headed b meter : len (written (headed b meter)) = len (frame_start 0 b).
Proof. done. Qed.

(** The payload is what [write_flow_wir] appends. *)
Lemma write_payload_flow_wir m b meter n w' :
  module_ok m = true -> version m = FLOW_WIR_VERSION ->
  quiet (write_payload m (headed b meter)) = Ok (n, w') <->
  exists out meter', quiet (write_flow_wir limits m (headed b meter)) = Ok (tt, extended (headed b meter) out meter')
    /\ out <> [] /\ n = len out /\ w' = {| written := frame b out; writer_meter := meter' |}.
Proof.
  intros Hm Hv. unfold write_payload.
  assert (Hpatch : forall out meter', quiet (patch_u64 (len frame_prefix) (len out) (extended (headed b meter) out meter'))
    = Ok (tt, {| written := frame b out; writer_meter := meter' |})).
  { intros out meter'. unfold extended, headed, frame, frame_start. cbn [written]. rewrite <- !app_assoc.
    by apply quiet_patch_u64. }
  assert (Hlen : forall out meter', checked_sub (len (written (extended (headed b meter) out meter')))
                   (len (written (headed b meter))) = Some (len out)).
  { intros out meter'. unfold extended. cbn [written]. rewrite len_app. pose proof (len_nonneg out).
    unfold checked_sub. rewrite (proj2 (Z.leb_le _ _)) by lia. f_equal. lia. }
  split.
  - intros (start & w0 & [-> ->]%quiet_position & ([] & w1 & Hw & ([] & w2 & [_ ->]%quiet_liftS_Ok & H)%quietS_bind_Ok)%quietS_bind_Ok)%quietS_bind_Ok.
    assert (Hnil : len (@nil byte) < 2 ^ usize) by done.
    destruct (par_flow_wir [] limits Hnil Hframe m Hm Hv _ _ Hw) as (out & E & _).
    destruct w1 as [wr meter']. cbn [writer_meter] in E. rewrite E in Hw, H. clear E wr.
    apply quietS_bind_Ok in H as (? & w2 & [-> ->]%quiet_position & H).
    apply quietS_bind_Ok in H as (? & w2 & [Hs ->]%quiet_liftS_Ok & H).
    rewrite quiet_lift, Hlen in Hs. injection Hs as <-.
    apply quietS_bind_Ok in H as ([] & w2 & [Hz ->]%quiet_liftS_Ok & H).
    rewrite quiet_fail_if in Hz. apply guard_err_Ok, Z.eqb_neq in Hz.
    apply quietS_bind_Ok in H as ([] & w2 & Hp & [= <- <-]). rewrite Hpatch in Hp. injection Hp as <-.
    exists out, meter'. split_and!; [done| |done|done]. by intros ->.
  - intros (out & meter' & Hw & Hne & -> & ->).
    apply quietS_bind_Ok. eexists _, _. split; [by apply quiet_position|].
    apply quietS_bind_Ok. eexists _, _. split; [exact Hw|].
    apply quietS_bind_Ok. eexists tt, _. split; [by apply quiet_liftS_Ok|].
    apply quietS_bind_Ok. eexists _, _. split; [by apply quiet_position|].
    apply quietS_bind_Ok. eexists (len out), _. split; [apply quiet_liftS_Ok; by rewrite quiet_lift, Hlen|].
    apply quietS_bind_Ok. eexists tt, _. split.
    { apply quiet_liftS_Ok. split; [|done]. rewrite quiet_fail_if, (proj2 (Z.eqb_neq _ _)); [done|].
      destruct out; [done|]. rewrite len_cons. pose proof (len_nonneg out). lia. }
    apply quietS_bind_Ok. eexists tt, _. split; [apply Hpatch|done].
Qed.

(** [encode], as header and payload. *)
Lemma encode_exact m c :
  module_ok m = true -> version m = FLOW_WIR_VERSION ->
  quiet (encode limits m) = Ok c <->
  CodecLimits_validate limits = Ok tt
  /\ exists meter out meter', header_meter (build m) = Ok meter
    /\ quiet (write_flow_wir limits m (headed (build m) meter)) = Ok (tt, extended (headed (build m) meter) out meter')
    /\ out <> [] /\ len (frame (build m) out) <= codec_frame_bytes limits
    /\ c = {| candidate_header := frame_header (build m) out; candidate_bytes := frame (build m) out |}.
Proof.
  intros Hm Hv. assert (Hb : build_ok (build m) = true) by (unfold module_ok in Hm; by typed).
  unfold encode, check_cancelled. rewrite quiet_bind_Ok. setoid_rewrite quiet_lift. split.
  - intros ([] & Hl & H). split; [done|]. rewrite run_poll in H.
    apply quiet_bind_Ok in H as ([n w'] & Hw & H). rewrite quiet_bind, quiet_clone_build_identity in H by done.
    injection H as <-. apply write_frame_header in Hw as (meter & Hc & _ & Hp); [|done].
    apply write_payload_flow_wir in Hp as (out & meter' & Hf & Hne & -> & ->); [|done..].
    exists meter, out, meter'. split_and!; try done.
    apply written_flow_wir_fits in Hf. unfold extended, headed, frame in *. cbn [written] in Hf.
    rewrite len_app in *. by rewrite (len_frame_start _ 0).
  - intros [Hl (meter & out & meter' & Hc & Hw & Hne & Hroom & ->)]. exists tt. split; [done|].
    rewrite run_poll. apply quiet_bind_Ok. exists (len out, {| written := frame (build m) out; writer_meter := meter' |}).
    split; [|by rewrite quiet_bind, quiet_clone_build_identity].
    apply write_frame_header; [done|]. exists meter. split_and!; [done| |].
    + unfold frame in Hroom. rewrite len_app, (len_frame_start _ 0) in Hroom. pose proof (len_nonneg out). lia.
    + apply write_payload_flow_wir; [done..|]. by exists out, meter'.
Qed.
End exact.

Section frames.
Context (limits : CodecLimits).
Hypothesis Hframe : codec_frame_bytes limits < 2 ^ usize.

Lemma lies_end pre out : lies (pre ++ out) (len pre) out.
Proof. split; [apply len_nonneg|]. exists pre, []. by rewrite app_nil_r. Qed.

(** A frame's payload reads as [m] if and only if [m] writes it. *)
Lemma payload_exact m b meter payload r' :
  build_ok b = true -> len (frame b payload) <= codec_frame_bytes limits ->
  let bytes := frame b payload in
  let r := {| reader_position := len (frame_start (len payload) b); reader_meter := meter |} in
  quiet (read_flow_wir bytes limits b r) = Ok (m, r') /\ reader_position r' = len bytes <->
  module_ok m = true /\ version m = FLOW_WIR_VERSION /\ build m = b
  /\ quiet (write_flow_wir limits m (headed b meter)) = Ok (tt, extended (headed b meter) payload (reader_meter r'))
  /\ r' = {| reader_position := len bytes; reader_meter := reader_meter r' |}.
Proof.
  intros Hb Hroom bytes r. change (len bytes <= codec_frame_bytes limits) in Hroom. assert (Hbytes : len bytes < 2 ^ usize) by lia.
  assert (Hlen : len bytes = len (frame_start (len payload) b) + len payload) by (unfold bytes, frame; by rewrite len_app).
  pose proof (len_nonneg payload) as Hnn. pose proof (len_nonneg (frame_start (len payload) b)) as Hnn'.
  assert (Hall : lies bytes (reader_position r) payload) by apply lies_end. split.
  - intros [H Hend]. apply unpar_flow_wir in H as ((Hm & Hv & Hbuild) & out & L & Hpos & Hemit); [|done..|simpl; lia].
    assert (out = payload) as ->.
    { apply lies_range in L as [_ L]. apply lies_range in Hall as [_ Hall].
      replace (len out) with (len payload) in L by (rewrite Hpos in Hend; unfold r in Hend; cbn [reader_position] in Hend; lia). congruence. }
    split_and!; [done..| |destruct r' as [p m']; cbn [reader_position reader_meter] in *; by rewrite Hend].
    apply Hemit; [done|]. unfold headed. cbn [written]. rewrite (len_frame_start _ (len payload)). lia.
  - intros (Hm & Hv & <- & Hw & Hr').
    destruct (par_flow_wir bytes limits Hbytes Hframe m Hm Hv _ _ Hw) as (out & E & R).
    injection E as E. apply app_inv_head in E as <-. rewrite Hr'. split; [|done].
    rewrite R by done. unfold moved. cbn [reader_position writer_meter]. by rewrite Hlen.
Qed.

(** ** A frame decodes to a model exactly if the model encodes to the frame *)
Lemma read_frame_exact bytes expected m :
  len bytes < 2 ^ usize ->
  quiet (read_frame limits bytes expected) = Ok m <->
  module_ok m = true /\ version m = FLOW_WIR_VERSION
  /\ (forall b, expected = Some b -> b = build m)
  /\ exists c, quiet (encode limits m) = Ok c /\ candidate_bytes c = bytes.
Proof.
  intros Hbytes. unfold read_frame, check_cancelled. rewrite quiet_bind_Ok. setoid_rewrite quiet_lift.
  assert (Hcheck : forall b, quiet (match expected with
      | Some expected => same ← build_identity_equal expected b; fail_if (negb same) BuildIdentityMismatch
      | None => mret tt end) = Ok tt <-> (forall b', expected = Some b' -> b' = b)).
  { intros b. destruct expected as [b'|]; [|naive_solver].
    rewrite quiet_bind, quiet_build_identity_equal. cbn [mbind result_bind]. rewrite quiet_fail_if.
    case_bool_decide; naive_solver. }
  split.
  - intros ([] & Hl & H). rewrite run_poll in H. apply quiet_bind_Ok in H as ([] & Hroom & H).
    rewrite quiet_lift in Hroom. apply guard_err_Ok, Z.ltb_ge in Hroom.
    apply quiet_bind_Ok in H as (p & Hp & H).
    apply parse_header_exact in Hp as (b & payload & Hb & Hne & -> & ->); [|done].
    cbn [parsed_header payload_start target_bytes frame_header header_build] in H.
    apply quiet_bind_Ok in H as ([] & Hexp & H). pose proof (proj1 (Hcheck b) Hexp) as Hexp'.
    apply quiet_bind_Ok in H as (meter & Hc & H). rewrite quiet_lift in Hc.
    apply quiet_bind_Ok in H as ([m' r'] & Hr & H). apply quiet_bind_Ok in H as ([] & Hend & H).
    injection H as ->. unfold reader_finish in Hend.
    rewrite quiet_fail_if in Hend. apply guard_err_Ok, negb_false_iff, Z.eqb_eq in Hend.
    destruct (proj1 (payload_exact m b meter payload r' Hb Hroom) (conj Hr Hend)) as (Hm & Hv & <- & Hw & _).
    split_and!; [done..|].
    exists {| candidate_header := frame_header (build m) payload; candidate_bytes := frame (build m) payload |}.
    split; [|done]. apply encode_exact; [done..|]. split; [done|].
    exists meter, payload, (reader_meter r'). split_and!; done.
  - intros (Hm & Hv & Hexp & c & Hc & <-).
    assert (Hb : build_ok (build m) = true) by (unfold module_ok in Hm; by typed).
    apply encode_exact in Hc as (Hl & meter & payload & meter' & Hmeter & Hw & Hne & Hroom & ->); [|done..].
    cbn [candidate_bytes] in *. exists tt. split; [done|]. rewrite run_poll.
    apply quiet_bind_Ok. exists tt. split.
    { rewrite quiet_lift. unfold enforce. by rewrite (proj2 (Z.ltb_ge _ _)). }
    apply quiet_bind_Ok. eexists. split.
    { apply parse_header_exact; [done|]. exists (build m), payload. by split_and!. }
    cbn [parsed_header payload_start target_bytes frame_header header_build].
    apply quiet_bind_Ok. exists tt. split; [by apply Hcheck|].
    apply quiet_bind_Ok. exists meter. split; [by rewrite quiet_lift|].
    set (r' := {| reader_position := len (frame (build m) payload); reader_meter := meter' |}).
    destruct (proj2 (payload_exact m (build m) meter payload r' Hb Hroom)) as [Hr _]; [done|].
    apply quiet_bind_Ok. exists (m, r'). split; [done|].
    apply quiet_bind_Ok. exists tt. split; [|done]. unfold reader_finish, r'. cbn [reader_position].
    by rewrite Z.eqb_refl.
Qed.
End frames.
