(* ===== verification/WireSeal.v ===== *)
(** Sealing and opening frames ([encode_and_verify] and [decode_and_verify] of
    [src/crates/wrela-flow-wir-codec/src/lib.rs]) with a codec that nothing is
    known of, and with the canonical one; before that, what can interrupt the
    codec: cancellation and a failed allocation. *)

From Stdlib Require Import Strings.Byte.
From stdpp Require Import base numbers list option strings.
From S2P Require Import Prelude Bytes Interrupt Text BuildModel Source TestEvents FlowWir FlowModule FlowContext Wire WireWriter WireReader WireCodes WireFrame.

#[local] Open Scope Z_scope.

Definition codec_interruption (e : CodecError) : Prop := e = CodecCancelled \/ e = AllocationFailed.

(** Every method is looked up by its name. *)
#[local] Typeclasses Opaque writer_poll write_each writer_position patch_u64 writer_reserve write_raw
  write_u8 write_bool write_u16 write_u32 write_u64 write_u128 write_id write_digest charging_writer
  write_length write_string write_bytes write_vector write_option write_span write_optional_span
  write_id_vector write_build_identity write_source_summary write_scalar_type write_type_kind
  write_flow_type write_bounded_string_part write_immediate write_owner write_global write_unary_op
  write_binary_op write_cast_mode write_access_kind write_dma_ownership write_fence_kind write_failure_kind
  encode_operation write_switch_case encode_terminator write_function_origin write_function_role
  write_function_color write_value write_instruction write_block write_function write_actor write_task
  write_device write_pool write_region_class write_region write_activation write_scheduler write_proof_kind
  write_proof write_checkpoint write_test_kind write_test_entry write_assertion write_invocation
  write_planned_test write_image_root write_compiled_test_group write_flow_wir reader_poll throws read_each
  charging_reader header_raw header_u8 header_u32 header_u64 header_digest target_identity reader_finish
  read_raw read_u8 read_bool read_u16 read_u32 read_u64 read_u128 read_id read_digest read_string
  read_bytes read_vector read_option read_id_vector read_span read_source_summary read_scalar_type
  read_type_kind read_flow_type read_bounded_string_part read_immediate read_owner read_global
  read_unary_op read_binary_op read_cast_mode read_access_kind read_dma_ownership read_fence_kind
  read_failure_kind read_operation read_switch_case read_terminator read_function_origin read_function_role
  read_function_color read_value read_instruction read_block read_function read_actor read_task read_device
  read_pool read_region_class read_region read_cancellation read_activation read_scheduler read_proof_kind
  read_proof read_checkpoint read_test_kind read_test_entry read_assertion read_planned_kind
  read_invocation read_planned_test read_image_root read_compiled_test_group read_flow_wir.

#[export] Instance stops_check : interruptible codec_interruption check_cancelled.
Proof. apply interruptible_poll. by left. Qed.
#[export] Instance stops_reserve : interruptible codec_interruption (try_reserve AllocationFailed).
Proof. apply interruptible_try_reserve. by right. Qed.

(** ** Comparisons and copies *)

#[export] Instance stops_pieces_equal pairs : interruptible codec_interruption (pieces_equal pairs).
Proof. induction pairs as [|[] pairs IH]; cbn [pieces_equal]; uninterrupted. Qed.
#[export] Instance stops_bytes_equal left_ right_ : interruptible codec_interruption (Wire.bytes_equal left_ right_).
Proof. unfold Wire.bytes_equal. uninterrupted. Qed.
#[export] Instance stops_build_identity_equal left_ right_ :
  interruptible codec_interruption (Wire.build_identity_equal left_ right_).
Proof. unfold Wire.build_identity_equal, text_equal. uninterrupted. Qed.
#[export] Instance stops_wire_header_equal left_ right_ : interruptible codec_interruption (wire_header_equal left_ right_).
Proof. unfold wire_header_equal. uninterrupted. Qed.
#[export] Instance stops_candidate_equal left_ right_ :
  interruptible codec_interruption (encoded_candidate_equal left_ right_).
Proof. unfold encoded_candidate_equal. uninterrupted. Qed.
#[export] Instance stops_push_pieces output pieces : interruptible codec_interruption (push_pieces output pieces).
Proof. revert output. induction pieces as [|chunk pieces IH]; intros output; cbn [push_pieces]; uninterrupted. Qed.
#[export] Instance stops_copy_utf8_loop fuel source start output :
  interruptible codec_interruption (copy_utf8_loop fuel source start output).
Proof. revert start output. induction fuel as [|fuel IH]; intros start output; cbn [copy_utf8_loop]; uninterrupted. Qed.
#[export] Instance stops_copy_utf8 source : interruptible codec_interruption (copy_utf8 source).
Proof. unfold copy_utf8. uninterrupted. Qed.
#[export] Instance stops_copy_bytes source : interruptible codec_interruption (copy_bytes source).
Proof. unfold copy_bytes. uninterrupted. Qed.
#[export] Instance stops_clone build : interruptible codec_interruption (clone_build_identity build).
Proof. unfold clone_build_identity. uninterrupted. Qed.

(** ** The writer *)

#[export] Instance stops_write_each {A} (xs : list A) e :
  (forall x, interruptibleS codec_interruption (e x)) -> interruptibleS codec_interruption (write_each xs e).
Proof. intros He. induction xs as [|x xs IH]; cbn [write_each]; unfold writer_poll; uninterrupted. Qed.
#[export] Instance stops_position : interruptibleS codec_interruption writer_position.
Proof. intros w. unfold writer_position. apply _. Qed.
#[export] Instance stops_patch offset value : interruptibleS codec_interruption (patch_u64 offset value).
Proof. intros w. unfold patch_u64. uninterrupted. Qed.

Section writer.
Context (limits : CodecLimits).

#[export] Instance stops_reserve_writer n : interruptibleS codec_interruption (writer_reserve limits n).
Proof. intros w. unfold writer_reserve. uninterrupted. Qed.
#[export] Instance stops_write_raw value : interruptibleS codec_interruption (write_raw limits value).
Proof. unfold write_raw, writer_poll. uninterrupted. Qed.
#[export] Instance stops_charging_writer charge : interruptibleS codec_interruption (charging_writer charge).
Proof. intros w. unfold charging_writer. uninterrupted. Qed.
#[export] Instance stops_write_length {A} (xs : list A) : interruptibleS codec_interruption (write_length limits xs).
Proof. unfold write_length, write_u32. uninterrupted. Qed.
#[export] Instance stops_write_vector {A} (xs : list A) k e :
  (forall x, interruptibleS codec_interruption (e x)) -> interruptibleS codec_interruption (write_vector limits xs k e).
Proof. intros He. unfold write_vector, writer_poll. uninterrupted. Qed.
#[export] Instance stops_write_option {A} (o : option A) e :
  (forall x, interruptibleS codec_interruption (e x)) -> interruptibleS codec_interruption (write_option limits o e).
Proof. intros He. unfold write_option, write_u8. uninterrupted. Qed.
#[export] Instance stops_write_u8 x : interruptibleS codec_interruption (write_u8 limits x).
Proof. unfold write_u8. uninterrupted. Qed.
#[export] Instance stops_write_bool x : interruptibleS codec_interruption (write_bool limits x).
Proof. unfold write_bool. uninterrupted. Qed.
#[export] Instance stops_write_u16 x : interruptibleS codec_interruption (write_u16 limits x).
Proof. unfold write_u16. uninterrupted. Qed.
#[export] Instance stops_write_u32 x : interruptibleS codec_interruption (write_u32 limits x).
Proof. unfold write_u32. uninterrupted. Qed.
#[export] Instance stops_write_u64 x : interruptibleS codec_interruption (write_u64 limits x).
Proof. unfold write_u64. uninterrupted. Qed.
#[export] Instance stops_write_u128 x : interruptibleS codec_interruption (write_u128 limits x).
Proof. unfold write_u128. uninterrupted. Qed.
#[export] Instance stops_write_id x : interruptibleS codec_interruption (write_id limits x).
Proof. unfold write_id. uninterrupted. Qed.
#[export] Instance stops_write_digest x : interruptibleS codec_interruption (write_digest limits x).
Proof. unfold write_digest. uninterrupted. Qed.
#[export] Instance stops_write_string x : interruptibleS codec_interruption (write_string limits x).
Proof. unfold write_string, writer_poll. uninterrupted. Qed.
#[export] Instance stops_write_bytes x : interruptibleS codec_interruption (write_bytes limits x).
Proof. unfold write_bytes, writer_poll. uninterrupted. Qed.
#[export] Instance stops_write_span x : interruptibleS codec_interruption (write_span limits x).
Proof. unfold write_span. uninterrupted. Qed.
#[export] Instance stops_write_optional_span x : interruptibleS codec_interruption (write_optional_span limits x).
Proof. unfold write_optional_span. uninterrupted. Qed.
#[export] Instance stops_write_id_vector x : interruptibleS codec_interruption (write_id_vector limits x).
Proof. unfold write_id_vector. uninterrupted. Qed.
#[export] Instance stops_write_build_identity x : interruptibleS codec_interruption (write_build_identity limits x).
Proof. unfold write_build_identity. uninterrupted. Qed.
#[export] Instance stops_write_source_summary x : interruptibleS codec_interruption (write_source_summary limits x).
Proof. unfold write_source_summary. uninterrupted. Qed.
#[export] Instance stops_write_scalar_type x : interruptibleS codec_interruption (write_scalar_type limits x).
Proof. unfold write_scalar_type. uninterrupted. Qed.
#[export] Instance stops_write_type_kind x : interruptibleS codec_interruption (write_type_kind limits x).
Proof. unfold write_type_kind. uninterrupted. Qed.
#[export] Instance stops_write_flow_type x : interruptibleS codec_interruption (write_flow_type limits x).
Proof. unfold write_flow_type. uninterrupted. Qed.
#[export] Instance stops_write_bounded_string_part x : interruptibleS codec_interruption (write_bounded_string_part limits x).
Proof. unfold write_bounded_string_part. uninterrupted. Qed.
#[export] Instance stops_write_immediate x : interruptibleS codec_interruption (write_immediate limits x).
Proof. unfold write_immediate. uninterrupted. Qed.
#[export] Instance stops_write_owner x : interruptibleS codec_interruption (write_owner limits x).
Proof. unfold write_owner. uninterrupted. Qed.
#[export] Instance stops_write_global x : interruptibleS codec_interruption (write_global limits x).
Proof. unfold write_global. uninterrupted. Qed.
#[export] Instance stops_write_unary_op x : interruptibleS codec_interruption (write_unary_op limits x).
Proof. unfold write_unary_op. uninterrupted. Qed.
#[export] Instance stops_write_binary_op x : interruptibleS codec_interruption (write_binary_op limits x).
Proof. unfold write_binary_op. uninterrupted. Qed.
#[export] Instance stops_write_cast_mode x : interruptibleS codec_interruption (write_cast_mode limits x).
Proof. unfold write_cast_mode. uninterrupted. Qed.
#[export] Instance stops_write_access_kind x : interruptibleS codec_interruption (write_access_kind limits x).
Proof. unfold write_access_kind. uninterrupted. Qed.
#[export] Instance stops_write_dma_ownership x : interruptibleS codec_interruption (write_dma_ownership limits x).
Proof. unfold write_dma_ownership. uninterrupted. Qed.
#[export] Instance stops_write_fence_kind x : interruptibleS codec_interruption (write_fence_kind limits x).
Proof. unfold write_fence_kind. uninterrupted. Qed.
#[export] Instance stops_write_failure_kind x : interruptibleS codec_interruption (write_failure_kind limits x).
Proof. unfold write_failure_kind. uninterrupted. Qed.
#[export] Instance stops_encode_operation x : interruptibleS codec_interruption (encode_operation limits x).
Proof. unfold encode_operation. uninterrupted. Qed.
#[export] Instance stops_write_switch_case x : interruptibleS codec_interruption (write_switch_case limits x).
Proof. unfold write_switch_case. uninterrupted. Qed.
#[export] Instance stops_encode_terminator x : interruptibleS codec_interruption (encode_terminator limits x).
Proof. unfold encode_terminator. uninterrupted. Qed.
#[export] Instance stops_write_function_origin x : interruptibleS codec_interruption (write_function_origin limits x).
Proof. unfold write_function_origin. uninterrupted. Qed.
#[export] Instance stops_write_function_role x : interruptibleS codec_interruption (write_function_role limits x).
Proof. unfold write_function_role. uninterrupted. Qed.
#[export] Instance stops_write_function_color x : interruptibleS codec_interruption (write_function_color limits x).
Proof. unfold write_function_color. uninterrupted. Qed.
#[export] Instance stops_write_value x : interruptibleS codec_interruption (write_value limits x).
Proof. unfold write_value. uninterrupted. Qed.
#[export] Instance stops_write_instruction x : interruptibleS codec_interruption (write_instruction limits x).
Proof. unfold write_instruction. uninterrupted. Qed.
#[export] Instance stops_write_block x : interruptibleS codec_interruption (write_block limits x).
Proof. unfold write_block. uninterrupted. Qed.
#[export] Instance stops_write_function x : interruptibleS codec_interruption (write_function limits x).
Proof. unfold write_function. uninterrupted. Qed.
#[export] Instance stops_write_actor x : interruptibleS codec_interruption (write_actor limits x).
Proof. unfold write_actor. uninterrupted. Qed.
#[export] Instance stops_write_task x : interruptibleS codec_interruption (write_task limits x).
Proof. unfold write_task. uninterrupted. Qed.
#[export] Instance stops_write_device x : interruptibleS codec_interruption (write_device limits x).
Proof. unfold write_device. uninterrupted. Qed.
#[export] Instance stops_write_pool x : interruptibleS codec_interruption (write_pool limits x).
Proof. unfold write_pool. uninterrupted. Qed.
#[export] Instance stops_write_region_class x : interruptibleS codec_interruption (write_region_class limits x).
Proof. unfold write_region_class. uninterrupted. Qed.
#[export] Instance stops_write_region x : interruptibleS codec_interruption (write_region limits x).
Proof. unfold write_region. uninterrupted. Qed.
#[export] Instance stops_write_activation x : interruptibleS codec_interruption (write_activation limits x).
Proof. unfold write_activation. uninterrupted. Qed.
#[export] Instance stops_write_scheduler x : interruptibleS codec_interruption (write_scheduler limits x).
Proof. unfold write_scheduler. uninterrupted. Qed.
#[export] Instance stops_write_proof_kind x : interruptibleS codec_interruption (write_proof_kind limits x).
Proof. unfold write_proof_kind. uninterrupted. Qed.
#[export] Instance stops_write_proof x : interruptibleS codec_interruption (write_proof limits x).
Proof. unfold write_proof. uninterrupted. Qed.
#[export] Instance stops_write_checkpoint x : interruptibleS codec_interruption (write_checkpoint limits x).
Proof. unfold write_checkpoint. uninterrupted. Qed.
#[export] Instance stops_write_test_kind x : interruptibleS codec_interruption (write_test_kind limits x).
Proof. unfold write_test_kind. uninterrupted. Qed.
#[export] Instance stops_write_test_entry x : interruptibleS codec_interruption (write_test_entry limits x).
Proof. unfold write_test_entry. uninterrupted. Qed.
#[export] Instance stops_write_assertion x : interruptibleS codec_interruption (write_assertion limits x).
Proof. unfold write_assertion. uninterrupted. Qed.
#[export] Instance stops_write_invocation x : interruptibleS codec_interruption (write_invocation limits x).
Proof. unfold write_invocation. uninterrupted. Qed.
#[export] Instance stops_write_planned_test x : interruptibleS codec_interruption (write_planned_test limits x).
Proof. unfold write_planned_test. uninterrupted. Qed.
#[export] Instance stops_write_image_root x : interruptibleS codec_interruption (write_image_root limits x).
Proof. unfold write_image_root. uninterrupted. Qed.
#[export] Instance stops_write_compiled_test_group x : interruptibleS codec_interruption (write_compiled_test_group limits x).
Proof. unfold write_compiled_test_group. uninterrupted. Qed.
#[export] Instance stops_write_flow_wir x : interruptibleS codec_interruption (write_flow_wir limits x).
Proof. unfold write_flow_wir. uninterrupted. Qed.
End writer.

(** ** The reader *)

#[export] Instance stops_read_each {A} n (d : reading A) :
  interruptibleS codec_interruption d -> interruptibleS codec_interruption (read_each n d).
Proof. intros Hd. induction n as [|n IH]; cbn [read_each]; unfold reader_poll; uninterrupted. Qed.
#[export] Instance stops_charging_reader charge : interruptibleS codec_interruption (charging_reader charge).
Proof. intros r. unfold charging_reader. uninterrupted. Qed.
#[export] Instance stops_throws {A} (m : prog CodecError A) :
  interruptible codec_interruption m -> interruptibleS codec_interruption (throws m).
Proof. unfold throws. intros H. apply _. Qed.
#[export] Instance stops_invalid_tag {A} kind tag : interruptible codec_interruption (invalid_tag kind tag : prog CodecError A).
Proof. done. Qed.

Section reader.
Context (bytes : list byte) (limits : CodecLimits).

#[export] Instance stops_finish r : interruptible codec_interruption (reader_finish bytes r).
Proof. unfold reader_finish. apply _. Qed.
#[export] Instance stops_read_raw n : interruptibleS codec_interruption (read_raw bytes n).
Proof. intros r. unfold read_raw. uninterrupted. Qed.
#[export] Instance stops_read_u8 : interruptibleS codec_interruption (read_u8 bytes).
Proof. unfold read_u8. uninterrupted. Qed.
#[export] Instance stops_read_bool : interruptibleS codec_interruption (read_bool bytes).
Proof. unfold read_bool. uninterrupted. Qed.
#[export] Instance stops_read_u16 : interruptibleS codec_interruption (read_u16 bytes).
Proof. unfold read_u16. uninterrupted. Qed.
#[export] Instance stops_read_u32 : interruptibleS codec_interruption (read_u32 bytes).
Proof. unfold read_u32. uninterrupted. Qed.
#[export] Instance stops_read_u64 : interruptibleS codec_interruption (read_u64 bytes).
Proof. unfold read_u64. uninterrupted. Qed.
#[export] Instance stops_read_u128 : interruptibleS codec_interruption (read_u128 bytes).
Proof. unfold read_u128. uninterrupted. Qed.
#[export] Instance stops_read_id : interruptibleS codec_interruption (read_id bytes).
Proof. unfold read_id. uninterrupted. Qed.
#[export] Instance stops_read_digest : interruptibleS codec_interruption (read_digest bytes).
Proof. unfold read_digest. uninterrupted. Qed.
#[export] Instance stops_read_string : interruptibleS codec_interruption (read_string bytes limits).
Proof. unfold read_string, reader_poll. uninterrupted. Qed.
#[export] Instance stops_read_bytes : interruptibleS codec_interruption (read_bytes bytes limits).
Proof. unfold read_bytes, reader_poll. uninterrupted. Qed.
#[export] Instance stops_read_vector {A} k (d : reading A) :
  interruptibleS codec_interruption d -> interruptibleS codec_interruption (read_vector bytes limits k d).
Proof. intros Hd. unfold read_vector, reader_poll. uninterrupted. Qed.
#[export] Instance stops_read_option {A} (d : reading A) :
  interruptibleS codec_interruption d -> interruptibleS codec_interruption (read_option bytes d).
Proof. intros Hd. unfold read_option, reader_poll. uninterrupted. Qed.
#[export] Instance stops_read_id_vector : interruptibleS codec_interruption (read_id_vector bytes limits).
Proof. unfold read_id_vector. uninterrupted. Qed.
#[export] Instance stops_read_span : interruptibleS codec_interruption (read_span bytes).
Proof. unfold read_span. uninterrupted. Qed.
#[export] Instance stops_read_source_summary : interruptibleS codec_interruption (read_source_summary bytes).
Proof. unfold read_source_summary. uninterrupted. Qed.
#[export] Instance stops_read_scalar_type : interruptibleS codec_interruption (read_scalar_type bytes).
Proof. unfold read_scalar_type. uninterrupted. Qed.
#[export] Instance stops_read_type_kind : interruptibleS codec_interruption (read_type_kind bytes limits).
Proof. unfold read_type_kind. uninterrupted. Qed.
#[export] Instance stops_read_flow_type : interruptibleS codec_interruption (read_flow_type bytes limits).
Proof. unfold read_flow_type. uninterrupted. Qed.
#[export] Instance stops_read_bounded_string_part : interruptibleS codec_interruption (read_bounded_string_part bytes limits).
Proof. unfold read_bounded_string_part. uninterrupted. Qed.
#[export] Instance stops_read_immediate : interruptibleS codec_interruption (read_immediate bytes limits).
Proof. unfold read_immediate. uninterrupted. Qed.
#[export] Instance stops_read_owner : interruptibleS codec_interruption (read_owner bytes).
Proof. unfold read_owner. uninterrupted. Qed.
#[export] Instance stops_read_global : interruptibleS codec_interruption (read_global bytes limits).
Proof. unfold read_global. uninterrupted. Qed.
#[export] Instance stops_read_unary_op : interruptibleS codec_interruption (read_unary_op bytes).
Proof. unfold read_unary_op. uninterrupted. Qed.
#[export] Instance stops_read_binary_op : interruptibleS codec_interruption (read_binary_op bytes).
Proof. unfold read_binary_op. uninterrupted. Qed.
#[export] Instance stops_read_cast_mode : interruptibleS codec_interruption (read_cast_mode bytes).
Proof. unfold read_cast_mode. uninterrupted. Qed.
#[export] Instance stops_read_access_kind : interruptibleS codec_interruption (read_access_kind bytes).
Proof. unfold read_access_kind. uninterrupted. Qed.
#[export] Instance stops_read_dma_ownership : interruptibleS codec_interruption (read_dma_ownership bytes).
Proof. unfold read_dma_ownership. uninterrupted. Qed.
#[export] Instance stops_read_fence_kind : interruptibleS codec_interruption (read_fence_kind bytes).
Proof. unfold read_fence_kind. uninterrupted. Qed.
#[export] Instance stops_read_failure_kind : interruptibleS codec_interruption (read_failure_kind bytes).
Proof. unfold read_failure_kind. uninterrupted. Qed.
#[export] Instance stops_read_operation : interruptibleS codec_interruption (read_operation bytes limits).
Proof. unfold read_operation. uninterrupted. Qed.
#[export] Instance stops_read_switch_case : interruptibleS codec_interruption (read_switch_case bytes limits).
Proof. unfold read_switch_case. uninterrupted. Qed.
#[export] Instance stops_read_terminator : interruptibleS codec_interruption (read_terminator bytes limits).
Proof. unfold read_terminator. uninterrupted. Qed.
#[export] Instance stops_read_function_origin : interruptibleS codec_interruption (read_function_origin bytes).
Proof. unfold read_function_origin. uninterrupted. Qed.
#[export] Instance stops_read_function_role : interruptibleS codec_interruption (read_function_role bytes).
Proof. unfold read_function_role. uninterrupted. Qed.
#[export] Instance stops_read_function_color : interruptibleS codec_interruption (read_function_color bytes).
Proof. unfold read_function_color. uninterrupted. Qed.
#[export] Instance stops_read_value : interruptibleS codec_interruption (read_value bytes limits).
Proof. unfold read_value. uninterrupted. Qed.
#[export] Instance stops_read_instruction : interruptibleS codec_interruption (read_instruction bytes limits).
Proof. unfold read_instruction. uninterrupted. Qed.
#[export] Instance stops_read_block : interruptibleS codec_interruption (read_block bytes limits).
Proof. unfold read_block. uninterrupted. Qed.
#[export] Instance stops_read_function : interruptibleS codec_interruption (read_function bytes limits).
Proof. unfold read_function. uninterrupted. Qed.
#[export] Instance stops_read_actor : interruptibleS codec_interruption (read_actor bytes limits).
Proof. unfold read_actor. uninterrupted. Qed.
#[export] Instance stops_read_task : interruptibleS codec_interruption (read_task bytes limits).
Proof. unfold read_task. uninterrupted. Qed.
#[export] Instance stops_read_device : interruptibleS codec_interruption (read_device bytes limits).
Proof. unfold read_device. uninterrupted. Qed.
#[export] Instance stops_read_pool : interruptibleS codec_interruption (read_pool bytes limits).
Proof. unfold read_pool. uninterrupted. Qed.
#[export] Instance stops_read_region_class : interruptibleS codec_interruption (read_region_class bytes).
Proof. unfold read_region_class. uninterrupted. Qed.
#[export] Instance stops_read_region : interruptibleS codec_interruption (read_region bytes limits).
Proof. unfold read_region. uninterrupted. Qed.
#[export] Instance stops_read_cancellation : interruptibleS codec_interruption (read_cancellation bytes).
Proof. unfold read_cancellation. uninterrupted. Qed.
#[export] Instance stops_read_activation : interruptibleS codec_interruption (read_activation bytes).
Proof. unfold read_activation. uninterrupted. Qed.
#[export] Instance stops_read_scheduler : interruptibleS codec_interruption (read_scheduler bytes limits).
Proof. unfold read_scheduler. uninterrupted. Qed.
#[export] Instance stops_read_proof_kind : interruptibleS codec_interruption (read_proof_kind bytes).
Proof. unfold read_proof_kind. uninterrupted. Qed.
#[export] Instance stops_read_proof : interruptibleS codec_interruption (read_proof bytes limits).
Proof. unfold read_proof. uninterrupted. Qed.
#[export] Instance stops_read_checkpoint : interruptibleS codec_interruption (read_checkpoint bytes).
Proof. unfold read_checkpoint. uninterrupted. Qed.
#[export] Instance stops_read_test_kind : interruptibleS codec_interruption (read_test_kind bytes).
Proof. unfold read_test_kind. uninterrupted. Qed.
#[export] Instance stops_read_test_entry : interruptibleS codec_interruption (read_test_entry bytes limits).
Proof. unfold read_test_entry. uninterrupted. Qed.
#[export] Instance stops_read_assertion : interruptibleS codec_interruption (read_assertion bytes limits).
Proof. unfold read_assertion. uninterrupted. Qed.
#[export] Instance stops_read_planned_kind : interruptibleS codec_interruption (read_planned_kind bytes).
Proof. unfold read_planned_kind. uninterrupted. Qed.
#[export] Instance stops_read_invocation : interruptibleS codec_interruption (read_invocation bytes).
Proof. unfold read_invocation. uninterrupted. Qed.
#[export] Instance stops_read_planned_test : interruptibleS codec_interruption (read_planned_test bytes limits).
Proof. unfold read_planned_test. uninterrupted. Qed.
#[export] Instance stops_read_image_root : interruptibleS codec_interruption (read_image_root bytes limits).
Proof. unfold read_image_root. uninterrupted. Qed.
#[export] Instance stops_read_compiled_test_group : interruptibleS codec_interruption (read_compiled_test_group bytes limits).
Proof. unfold read_compiled_test_group. uninterrupted. Qed.
#[export] Instance stops_read_flow_wir b : interruptibleS codec_interruption (read_flow_wir bytes limits b).
Proof. unfold read_flow_wir. uninterrupted. Qed.
End reader.

(** ** Frames *)

#[export] Instance stops_header_raw bytes n : interruptibleS codec_interruption (header_raw bytes n).
Proof. intros p. unfold header_raw. uninterrupted. Qed.
#[export] Instance stops_target_identity bytes : interruptibleS codec_interruption (target_identity bytes).
Proof. unfold target_identity, header_u32. uninterrupted. Qed.
#[export] Instance stops_header_fields bytes : interruptibleS codec_interruption (header_fields bytes).
Proof. unfold header_fields, header_u32, header_u64, header_u8, header_digest. uninterrupted. Qed.
#[export] Instance stops_parse_header bytes : interruptible codec_interruption (parse_header bytes).
Proof. unfold parse_header. uninterrupted. Qed.
#[export] Instance stops_inspect_header bytes : interruptible codec_interruption (inspect_header bytes).
Proof. unfold inspect_header. uninterrupted. Qed.
#[export] Instance stops_write_frame limits m : interruptibleS codec_interruption (write_frame limits m).
Proof. unfold write_frame, writer_poll. uninterrupted. Qed.
#[export] Instance stops_encode limits m : interruptible codec_interruption (encode limits m).
Proof. unfold encode. uninterrupted. Qed.
#[export] Instance stops_read_frame limits bytes expected : interruptible codec_interruption (read_frame limits bytes expected).
Proof. unfold read_frame. uninterrupted. Qed.
#[export] Instance stops_validate_candidate c m limits : interruptible codec_interruption (validate_candidate c m limits).
Proof. unfold validate_candidate. uninterrupted. Qed.

(** What an interruptible computation may return, it returns undisturbed. *)
Lemma interruptible_may_return {E A} (P : E -> Prop) (m : prog E A) a :
  interruptible P m -> may_return m a -> quiet m = Ok a.
Proof.
  induction m as [b|e|q k IH]; simpl; [by intros _ ->|done|].
  intros [(e & Hk & _) Hm] [[] H]; [by rewrite Hk in H|]. by apply IH.
Qed.

(** Taking a sealing apart: what each step may have returned. *)
Lemma may_check {S A} bad e (d : stateT S (prog CodecError) A) s x s' :
  may_returnS (_ ← liftS (fail_if bad e); d) s x s' -> bad = false /\ may_returnS d s x s'.
Proof.
  intros ([] & s1 & [H ->]%may_returnS_liftS & Hd)%may_returnS_bind. apply may_return_fail_if in H. done.
Qed.

Lemma may_stop {S A B} (m : prog CodecError B) (k : B -> stateT S (prog CodecError) A) s x s'
    `{!interruptible codec_interruption m} :
  may_returnS (liftS m ≫= k) s x s' -> exists b, quiet m = Ok b /\ may_returnS (k b) s x s'.
Proof.
  intros (b & s1 & [H ->]%may_returnS_liftS & Hk)%may_returnS_bind. exists b. split; [|done].
  by eapply interruptible_may_return.
Qed.

Lemma encode_fits limits m c :
  codec_frame_bytes limits < 2 ^ usize -> module_ok m = true -> version m = FLOW_WIR_VERSION ->
  quiet (encode limits m) = Ok c -> len (candidate_bytes c) < 2 ^ usize.
Proof.
  intros Hf Hm Hv Hc. apply encode_exact in Hc as (_ & meter & out & meter' & _ & _ & _ & Hroom & ->); [|done..].
  cbn [candidate_bytes]. lia.
Qed.

(** [encode] determines the model. *)
Lemma encode_inj limits m m' c c' :
  codec_frame_bytes limits < 2 ^ usize ->
  module_ok m = true -> version m = FLOW_WIR_VERSION -> module_ok m' = true -> version m' = FLOW_WIR_VERSION ->
  quiet (encode limits m) = Ok c -> quiet (encode limits m') = Ok c' -> candidate_bytes c = candidate_bytes c' ->
  m = m'.
Proof.
  intros Hf Hm Hv Hm' Hv' Hc Hc' Hsame.
  pose proof (encode_fits _ _ _ Hf Hm Hv Hc) as Hlen.
  assert (H : quiet (read_frame limits (candidate_bytes c) None) = Ok m).
  { apply read_frame_exact; [done..|]. split_and!; [done|done|by intros ?|by exists c]. }
  assert (H' : quiet (read_frame limits (candidate_bytes c) None) = Ok m').
  { apply read_frame_exact; [done..|]. split_and!; [done|done|by intros ?|by exists c']. }
  rewrite H in H'. by injection H'.
Qed.

(** ** Frames, however they are interrupted *)

(** What [decode] makes of the verdict on the model it has read. *)
Definition after_validation (m : FlowWir) (verdict : result ValidationFailure unit) : result CodecError FlowWir :=
  match verdict with Ok _ => Ok m | Err e => Err (map_validation_failure e) end.

Lemma run_map_errM {E F A} (f : E -> F) env w (p : prog E A) :
  fst (run env w (map_errM f p)) = map_err f (fst (run env w p)).
Proof. revert w. induction p as [| |q k IH]; intros w; simpl; [done..|]. destruct (answer env w q). apply IH. Qed.

Lemma run_decode validate limits bytes expected env w m :
  quiet (read_frame limits bytes expected) = Ok m ->
  (exists e, fst (run env w (decode validate limits bytes expected)) = Err e /\ codec_interruption e)
  \/ exists w1, fst (run env w (decode validate limits bytes expected))
       = after_validation m (fst (run env w1 (validate (flow_validation_limits limits) m))).
Proof.
  intros Hq. pose proof (run_interruptible codec_interruption env w (read_frame limits bytes expected) _) as Hrun.
  unfold decode. rewrite run_bind. destruct (run env w (read_frame limits bytes expected)) as [[m'|e] w1]; simpl in Hrun.
  - right. exists w1. assert (m' = m) as -> by (destruct Hrun as [Hr|(e & [=] & _)]; congruence).
    rewrite run_bind. pose proof (run_map_errM map_validation_failure env w1 (validate (flow_validation_limits limits) m)) as Hv.
    destruct (run env w1 (map_errM _ _)) as [[u|e] w2]; simpl in Hv; rewrite ?Hv;
      by destruct (fst (run env w1 (validate _ m))); simplify_eq/=.
  - left. destruct Hrun as [Hr|(e' & [= ->] & He)]; [congruence|by exists e'].
Qed.

(** C6: decoding what was encoded is validating the model. Whatever check
    [FlowWir::validate_with_limits] is, with or without the build that the
    backend expects, [decode] of the frame of a model gives that very model if
    the check accepts it and the check's own refusal of that model if not;
    otherwise only an interruption, cancellation or a lack of memory, can stop
    it. Undisturbed, the verdict of the check is the outcome. *)
Theorem frame_roundtrip validate limits m c env w env' w' expected :
  codec_frame_bytes limits < 2 ^ usize -> module_ok m = true -> version m = FLOW_WIR_VERSION ->
  fst (run env w (encode limits m)) = Ok c -> (forall b, expected = Some b -> b = build m) ->
  let decoded := decode validate limits (candidate_bytes c) expected in
  let check := validate (flow_validation_limits limits) m in
  quiet decoded = after_validation m (quiet check)
  /\ ((exists e, fst (run env' w' decoded) = Err e /\ codec_interruption e)
      \/ exists w1, fst (run env' w' decoded) = after_validation m (fst (run env' w1 check))).
Proof.
  intros Hf Hm Hv Hc%(run_interruptible_Ok codec_interruption) Hexp decoded check; [|apply _].
  assert (Hr : quiet (read_frame limits (candidate_bytes c) expected) = Ok m).
  { apply read_frame_exact; [done|by eapply encode_fits|]. split_and!; [done..|by exists c]. }
  split; [|by apply run_decode].
  unfold decoded, decode. rewrite quiet_bind, Hr. cbn [mbind result_bind]. rewrite quiet_bind, quiet_map_errM.
  fold check. by destruct (quiet check).
Qed.

(** C15: a frame that decodes is the encoding of the model it decodes to: no byte
    of a frame is free, and every model that is read is well typed, of this
    version, and of the build the frame was expected from. *)
Theorem frame_unique limits bytes expected m env w :
  codec_frame_bytes limits < 2 ^ usize -> len bytes < 2 ^ usize ->
  fst (run env w (read_frame limits bytes expected)) = Ok m ->
  module_ok m = true /\ version m = FLOW_WIR_VERSION /\ (forall b, expected = Some b -> b = build m)
  /\ exists c, quiet (encode limits m) = Ok c /\ candidate_bytes c = bytes
       /\ header_payload_bytes (candidate_header c) <= len bytes <= codec_frame_bytes limits.
Proof.
  intros Hf Hb H%(run_interruptible_Ok codec_interruption); [|apply _].
  apply read_frame_exact in H as (Hm & Hv & Hexp & c & Hc & <-); [|done..]. split_and!; [done..|].
  exists c. split; [done|split; [done|]].
  apply encode_exact in Hc as (_ & meter & out & meter' & _ & _ & _ & Hroom & ->); [|done..].
  cbn [candidate_header candidate_bytes frame_header header_payload_bytes] in *. split; [|done].
  unfold frame. rewrite len_app. pose proof (len_nonneg (frame_start (len out) (build m))). lia.
Qed.

Section any_codec.
Context {S : Type} {codec : FlowWirCodec S}.

(** C7: whatever codec is plugged in, however it answers and whenever it is
    interrupted: what [encode_and_verify] seals is the canonical encoding of the
    model, header and bytes; and what that codec decoded the bytes to is, if it is
    a model of this version at all, the model that was sealed. *)
Theorem encode_and_verify_canonical_bytes limits wir env w s sealed s' w' :
  codec_frame_bytes limits < 2 ^ usize -> module_ok wir = true -> version wir = FLOW_WIR_VERSION ->
  run env w (encode_and_verify limits wir s) = (Ok (sealed, s'), w') ->
  quiet (encode limits wir) = Ok {| candidate_header := encoded_header sealed; candidate_bytes := encoded_bytes sealed |}
  /\ exists s1 decoded s2,
       may_returnS (codec_decode limits (encoded_bytes sealed) (Some (build wir))) s1 decoded s2
       /\ (module_ok decoded = true -> version decoded = FLOW_WIR_VERSION -> decoded = wir).
Proof.
  intros Hf Hm Hv Hrun%runS_may_return. unfold encode_and_verify in Hrun.
  apply may_stop in Hrun as (? & _ & Hrun); [|apply _].
  apply may_stop in Hrun as (? & _ & Hrun); [|apply _].
  apply may_returnS_bind in Hrun as (candidate & s1 & _ & Hrun).
  apply may_stop in Hrun as (? & _ & Hrun); [|apply _].
  apply may_returnS_bind in Hrun as (inspected & s2 & _ & Hrun).
  apply may_stop in Hrun as (same & _ & Hrun); [|apply _]. apply may_check in Hrun as [_ Hrun].
  apply may_stop in Hrun as (expected & Hexp & Hrun); [|apply _].
  apply may_stop in Hrun as (same' & Heq & Hrun); [|apply _]. apply may_check in Hrun as [->%negb_false_iff Hrun].
  rewrite quiet_candidate_equal in Heq. injection Heq as ->%bool_decide_eq_true.
  apply may_returnS_bind in Hrun as (decoded & s3 & Hdec & Hrun).
  apply may_stop in Hrun as (again & Hagain & Hrun); [|apply _].
  apply may_stop in Hrun as (same' & Heq & Hrun); [|apply _]. apply may_check in Hrun as [->%negb_false_iff Hrun].
  rewrite quiet_candidate_equal in Heq. injection Heq as ->%bool_decide_eq_true.
  apply may_returnS_bind in Hrun as (repeated & s4 & _ & Hrun).
  apply may_stop in Hrun as (same' & _ & Hrun); [|apply _]. apply may_check in Hrun as [_ Hrun].
  apply may_stop in Hrun as (? & _ & [<- _]%may_returnS_mret); [|apply _].
  cbn [encoded_header encoded_bytes]. split; [destruct candidate; exact Hexp|].
  exists s2, decoded, s3. split; [done|]. intros Hm' Hv'.
  exact (encode_inj _ _ _ _ _ Hf Hm' Hv' Hm Hv Hagain Hexp eq_refl).
Qed.
End any_codec.

(** ** The canonical codec *)

Section canonical.
Context (validate_with_limits : ValidationLimits -> FlowWir -> prog ValidationFailure unit) (limits : CodecLimits).
Hypothesis Hframe : codec_frame_bytes limits < 2 ^ usize.

Notation canonical := (CanonicalFlowWirCodec validate_with_limits).

Lemma quiet_liftS_bind {S A B} (m : prog CodecError A) (k : A -> stateT S (prog CodecError) B) s :
  quiet ((liftS m ≫= k) s) = quiet m ≫= fun a => quiet (k a s).
Proof. rewrite quietS_bind, quiet_liftS. by destruct (quiet m). Qed.

(** The next step of a sealing: a call with a known result, a check that passes. *)
Ltac next_call H := rewrite quiet_liftS_bind, H; cbn [mbind result_bind].
Ltac next_check := rewrite quiet_liftS_bind; cbn [quiet negb fail_if mbind result_bind].

(** Its encodings pass every check on a candidate. *)
Lemma encode_candidate m c :
  module_ok m = true -> version m = FLOW_WIR_VERSION -> quiet (encode limits m) = Ok c ->
  quiet (validate_candidate c m limits) = Ok tt
  /\ len (candidate_bytes c) < 2 ^ usize
  /\ exists p, quiet (parse_header (candidate_bytes c)) = Ok p /\ parsed_header p = candidate_header c.
Proof.
  intros Hm Hv Hc. assert (Hb : build_ok (build m) = true) by (unfold module_ok in Hm; by typed).
  apply encode_exact in Hc as (_ & meter & out & meter' & _ & _ & Hne & Hroom & ->); [|done..].
  cbn [candidate_bytes candidate_header]. assert (Hlen : len (frame (build m) out) < 2 ^ usize) by lia.
  assert (Hpos : 0 < len out) by (destruct out; [done|rewrite len_cons; pose proof (len_nonneg out); lia]).
  split_and!; [|done|].
  - unfold validate_candidate, check_cancelled. rewrite run_poll. cbn [candidate_bytes candidate_header].
    rewrite run_fail_if by by apply Z.ltb_ge. rewrite run_fail_if.
    + rewrite quiet_bind, quiet_build_identity_equal. cbn [frame_header header_build mbind result_bind].
      rewrite bool_decide_eq_true_2 by done. rewrite quiet_fail_if. cbn [negb orb].
      change (header_payload_bytes (frame_header (build m) out)) with (len out).
      rewrite (proj2 (Z.eqb_neq _ _)) by lia. rewrite (proj2 (Z.ltb_ge _ _)); [done|].
      unfold frame. rewrite len_app. pose proof (len_nonneg (frame_start (len out) (build m))). lia.
    + unfold starts_with, frame, frame_start, frame_prefix. rewrite <- !app_assoc, take_app_length.
      by rewrite bool_decide_eq_true_2.
  - eexists. split; [apply parse_header_exact; [done|]; by exists (build m), out|done].
Qed.

Lemma decode_read m bytes expected :
  quiet (decode validate_with_limits limits bytes expected) = Ok m ->
  quiet (read_frame limits bytes expected) = Ok m.
Proof.
  unfold decode. intros H. apply quiet_bind_Ok in H as (m' & Hr & H).
  apply quiet_bind_Ok in H as ([] & _ & [= ->]). done.
Qed.

(** What [decode_and_verify] does once the frame is decoded. *)
Lemma decoded_verifies m bytes expected p :
  len bytes < 2 ^ usize -> quiet (read_frame limits bytes expected) = Ok m ->
  quiet (parse_header bytes) = Ok p ->
  (forall b, expected = Some b -> b = build m)
  /\ exists c, quiet (encode limits m) = Ok c /\ quiet (validate_candidate c m limits) = Ok tt
       /\ parsed_header p = candidate_header c /\ candidate_bytes c = bytes.
Proof.
  intros Hbytes H Hp. apply read_frame_exact in H as (Hm & Hv & Hexp & c & Hc & <-); [|done..].
  destruct (encode_candidate m c Hm Hv Hc) as (Hval & _ & p' & Hp' & Hh). rewrite Hp in Hp'. injection Hp' as <-.
  split; [done|]. by exists c.
Qed.

(** The errors that [decode] finds before it reads the payload. *)
Lemma decode_prefix bytes expected :
  quiet (decode validate_with_limits limits bytes expected)
  = (CodecLimits_validate limits ≫= fun _ =>
     enforce "FlowWir frame bytes" (codec_frame_bytes limits) (len bytes) ≫= fun _ =>
     quiet (parse_header bytes) ≫= fun _ => quiet (decode validate_with_limits limits bytes expected)).
Proof.
  destruct (CodecLimits_validate limits) as [[]|] eqn:Hl; cbn [mbind result_bind];
    [|unfold decode, read_frame; by rewrite quiet_bind, quiet_bind, quiet_lift, Hl].
  destruct (enforce _ _ _) as [[]|] eqn:Hf; cbn [mbind result_bind];
    [|unfold decode, read_frame, check_cancelled; rewrite quiet_bind, quiet_bind, quiet_lift, Hl; cbn [mbind result_bind];
      by rewrite run_poll, quiet_bind, quiet_lift, Hf].
  destruct (quiet (parse_header bytes)) as [p|] eqn:Hp; [done|].
  unfold decode, read_frame, check_cancelled. rewrite quiet_bind, quiet_bind, quiet_lift, Hl. cbn [mbind result_bind].
  rewrite run_poll, quiet_bind, quiet_lift, Hf. cbn [mbind result_bind]. by rewrite quiet_bind, Hp.
Qed.

(** C19: with the canonical codec, [decode_and_verify] is [decode]: the checks it
    adds never refuse what [decode] accepts, and its errors are [decode]'s. *)
Theorem decode_and_verify_canonical bytes expected :
  len bytes < 2 ^ usize ->
  quiet (decode_and_verify (codec := canonical) limits bytes expected tt)
  = (fun m => (m, tt)) <$> quiet (decode validate_with_limits limits bytes expected).
Proof.
  intros Hbytes. pose proof (decode_prefix bytes expected) as Hprefix.
  unfold decode_and_verify. rewrite !quiet_liftS_bind, quiet_lift, quiet_fail_if.
  change (guard_err _ _) with (enforce "FlowWir frame bytes" (codec_frame_bytes limits) (len bytes)).
  change (quiet check_cancelled) with (Ok tt : result CodecError unit). cbn [mbind result_bind].
  destruct (CodecLimits_validate limits) as [[]|]; [|by rewrite Hprefix]. cbn [mbind result_bind] in *.
  destruct (enforce _ _ _) as [[]|]; [|by rewrite Hprefix]. cbn [mbind result_bind] in *.
  unfold codec_inspect_header, codec_decode, codec_encode, CanonicalFlowWirCodec, inspect_header.
  rewrite quiet_liftS_bind, quiet_bind. destruct (quiet (parse_header bytes)) as [p|] eqn:Hp; [|by rewrite Hprefix].
  clear Hprefix. cbn [mbind result_bind quiet mret prog_mret].
  rewrite quiet_liftS_bind. destruct (quiet (decode _ _ _ _)) as [m|e] eqn:Hd; [|done].
  apply decode_read in Hd. destruct (decoded_verifies m bytes expected p Hbytes Hd Hp) as (Hexp & c & Hc & Hval & Hh & Hcb).
  cbn [mbind result_bind]. rewrite quietS_bind.
  match goal with |- mbind _ (quiet ?x) = _ => assert (quiet x = Ok (tt, tt)) as -> end.
  { destruct expected as [b|]; [|done].
    rewrite quiet_liftS_bind, quiet_build_identity_equal, bool_decide_eq_true_2 by by apply Hexp. done. }
  cbn [mbind result_bind]. next_call Hc. next_call Hval.
  next_call (quiet_wire_header_equal (parsed_header p) (candidate_header c)).
  rewrite bool_decide_eq_true_2 by done.
  next_call (quiet_bytes_equal_wire (candidate_bytes c) bytes). by rewrite bool_decide_eq_true_2.
Qed.

(** With the canonical codec, [encode_and_verify] is [encode] for every model
    that validates: none of its self-checks refuses. *)
Theorem encode_and_verify_canonical m :
  module_ok m = true -> version m = FLOW_WIR_VERSION ->
  quiet (validate_with_limits (flow_validation_limits limits) m) = Ok tt ->
  quiet (encode_and_verify (codec := canonical) limits m tt)
  = (fun c => ({| encoded_header := candidate_header c; encoded_bytes := candidate_bytes c |}, tt))
      <$> quiet (encode limits m).
Proof.
  intros Hm Hv Hvalid. unfold encode_and_verify. rewrite !quiet_liftS_bind, quiet_lift.
  change (quiet check_cancelled) with (Ok tt : result CodecError unit). cbn [mbind result_bind].
  destruct (CodecLimits_validate limits) as [[]|] eqn:Hl;
    [|unfold encode; by rewrite quiet_bind, quiet_lift, Hl].
  cbn [mbind result_bind]. unfold codec_inspect_header, codec_decode, codec_encode, CanonicalFlowWirCodec, inspect_header.
  rewrite quiet_liftS_bind. destruct (quiet (encode limits m)) as [c|e] eqn:Hc; [|done].
  destruct (encode_candidate m c Hm Hv Hc) as (Hval & Hlen & p & Hp & Hh). cbn [mbind result_bind].
  assert (Hr : quiet (decode validate_with_limits limits (candidate_bytes c) (Some (build m))) = Ok m).
  { unfold decode. apply quiet_bind_Ok. exists m. split.
    - apply read_frame_exact; [done..|]. split_and!; [done|done|by intros b [=]|by exists c].
    - by rewrite quiet_bind, quiet_map_errM, Hvalid. }
  assert (Hsame : quiet (encoded_candidate_equal c c) = Ok true)
    by by rewrite quiet_candidate_equal, bool_decide_eq_true_2.
  next_call Hval. rewrite quiet_liftS_bind, quiet_bind, Hp. cbn [mbind result_bind quiet mret prog_mret].
  next_call (quiet_wire_header_equal (parsed_header p) (candidate_header c)).
  rewrite bool_decide_eq_true_2 by done. next_check.
  next_call Hc. next_call Hsame. next_check. next_call Hr. next_call Hc. next_call Hsame. next_check.
  next_call Hc. by next_call Hsame.
Qed.
End canonical.
