(* ===== verification/WireExample.v ===== *)
(** A frame: a module with one function, encoded, sealed and decoded. *)

From Stdlib Require Import Strings.Byte.
From stdpp Require Import base numbers list option strings.
From S2P Require Import Prelude Bytes Interrupt Text BuildModel Source FlowWir FlowModule FlowContext FlowExample Wire WireCodes WireWriter WireReader WireFrame WireSeal.

#[local] Open Scope Z_scope.

Definition framed_module : FlowWir := {|
  version := FLOW_WIR_VERSION; wir_name := ascii "image"; build := build sample_module;
  source_summary := source_summary sample_module;
  types := types sample_module; globals := []; functions := functions sample_module; actors := [];
  tasks := []; devices := [];
  pools := [ {| pool_id := 0%N; pool_name := ascii "pool"; element_type := 0%N; pool_capacity := 8;
                pool_alignment := 4; pool_devices := [] |} ];
  regions := []; activations := []; schedulers := []; proofs := []; checkpoints := []; tests := [];
  compiled_test_group := None; startup_order := [OwnerRuntime; OwnerPool 0%N]; shutdown_order := [OwnerPool 0%N];
  image_entry := 0%N; wir_static_bytes := 0; wir_peak_bytes := 0 |}.

Notation standard := CodecLimits_standard.

(** A check that accepts every model. *)
Definition accept_all (_ : ValidationLimits) (_ : FlowWir) : prog ValidationFailure unit := Ret tt.
Notation canonical := (CanonicalFlowWirCodec accept_all).

Lemma standard_frame : codec_frame_bytes standard < 2 ^ usize.
Proof. reflexivity. Qed.
Lemma framed_ok : module_ok framed_module = true.
Proof. vm_compute. reflexivity. Qed.

Definition framed : EncodedFlowWirCandidate :=
  match quiet (encode standard framed_module) with
  | Ok c => c
  | Err _ => {| candidate_header := {| wire_version := 0; flow_wir_version := 0; header_payload_bytes := 0;
                                       header_build := build framed_module |}; candidate_bytes := [] |}
  end.

(** Magic, two versions, the length of the payload; then the build. *)
Example framed_prefix :
  (take 24 (candidate_bytes framed), len (candidate_bytes framed))
  = (ascii "WRELFLO" ++ [x00] ++ u32_le 19 ++ u32_le 19 ++ u64_le 351, 578).
Proof. vm_compute. reflexivity. Qed.

Lemma framed_encodes : fst (run calm start (encode standard framed_module)) = Ok framed.
Proof. vm_compute. reflexivity. Qed.

(** A changed header is refused; a changed payload is another model or none. *)
Definition changed (i : nat) (b : byte) : list byte := <[i := b]> (candidate_bytes framed).
Example framed_changes :
  map (fun '(i, b) => match quiet (read_frame standard (changed i b) (Some (build framed_module))) with
                      | Ok _ => None | Err e => Some e end)
    [(0%nat, x00); (8%nat, x12); (12%nat, x00); (16%nat, x00); (56%nat, x01); (57%nat, x00); (24%nat, x00); (577%nat, x01)]
  = [Some InvalidMagic; Some (UnsupportedWireVersion 18); Some (UnsupportedFlowWirVersion 0);
     Some CodecTrailingBytes; Some (CodecInvalidEnumTag "language revision" 1);
     Some (NonCanonical "invalid target identity length"); Some BuildIdentityMismatch; None].
Proof. vm_compute. reflexivity. Qed.

(** ** Applications of the theorems *)

(** A check that refuses modules without a function. *)
Definition accept_inhabited (_ : ValidationLimits) (m : FlowWir) : prog ValidationFailure unit :=
  match functions m with [] => Throw FailureInvalidLimits | _ => Ret tt end.

Lemma frame_roundtrip_witness :
  quiet (decode accept_inhabited standard (candidate_bytes framed) (Some (build framed_module))) = Ok framed_module
  /\ ((exists e, fst (run calm start (decode accept_inhabited standard (candidate_bytes framed) (Some (build framed_module))))
                 = Err e /\ codec_interruption e)
      \/ exists w1, fst (run calm start (decode accept_inhabited standard (candidate_bytes framed) (Some (build framed_module))))
           = after_validation framed_module
               (fst (run calm w1 (accept_inhabited (flow_validation_limits standard) framed_module)))).
Proof.
  apply (frame_roundtrip accept_inhabited standard framed_module framed calm start calm start);
    [exact standard_frame|exact framed_ok|reflexivity|exact framed_encodes|by intros b [=]].
Defined.

Lemma framed_reads : fst (run calm start (read_frame standard (candidate_bytes framed) None)) = Ok framed_module.
Proof. vm_compute. reflexivity. Qed.

Lemma frame_unique_witness :
  module_ok framed_module = true /\ version framed_module = FLOW_WIR_VERSION
  /\ (forall b, None = Some b -> b = build framed_module)
  /\ exists c, quiet (encode standard framed_module) = Ok c /\ candidate_bytes c = candidate_bytes framed
       /\ header_payload_bytes (candidate_header c) <= len (candidate_bytes framed) <= codec_frame_bytes standard.
Proof.
  apply (frame_unique standard (candidate_bytes framed) None framed_module calm start);
    [exact standard_frame|vm_compute; reflexivity|exact framed_reads].
Defined.

Definition framed_seal : EncodedFlowWir :=
  {| encoded_header := candidate_header framed; encoded_bytes := candidate_bytes framed |}.

Lemma framed_seals :
  exists w', run calm start (encode_and_verify (codec := canonical) standard framed_module tt)
             = (Ok (framed_seal, tt), w').
Proof. eexists. vm_compute. reflexivity. Qed.

Lemma encode_and_verify_canonical_bytes_witness :
  quiet (encode standard framed_module)
    = Ok {| candidate_header := encoded_header framed_seal; candidate_bytes := encoded_bytes framed_seal |}
  /\ exists s1 decoded s2,
       may_returnS (codec_decode (FlowWirCodec := canonical) standard (encoded_bytes framed_seal)
                      (Some (build framed_module))) s1 decoded s2
       /\ (module_ok decoded = true -> version decoded = FLOW_WIR_VERSION -> decoded = framed_module).
Proof.
  destruct framed_seals as [w' Hrun].
  exact (encode_and_verify_canonical_bytes (codec := canonical) standard framed_module calm start tt framed_seal tt w'
    standard_frame framed_ok eq_refl Hrun).
Defined.

Lemma decode_and_verify_canonical_witness :
  quiet (decode_and_verify (codec := canonical) standard (candidate_bytes framed) None tt)
  = (fun m => (m, tt)) <$> quiet (decode accept_all standard (candidate_bytes framed) None).
Proof.
  apply (decode_and_verify_canonical accept_all standard standard_frame (candidate_bytes framed) None).
  vm_compute. reflexivity.
Defined.

Lemma encode_and_verify_canonical_witness :
  quiet (encode_and_verify (codec := canonical) standard framed_module tt)
  = (fun c => ({| encoded_header := candidate_header c; encoded_bytes := candidate_bytes c |}, tt))
      <$> quiet (encode standard framed_module).
Proof.
  apply (encode_and_verify_canonical accept_all standard standard_frame framed_module);
    [exact framed_ok|reflexivity|reflexivity].
Defined.
